(* ===== verification/_CoqProject ===== *)
-Q . S2P
Prelude.v
VersionStore.v
Snapshot.v
TxnContext.v
Conflict.v
TxnManager.v
TxnSystem.v
TxnLedger.v
TxnReads.v
TxnIsolation.v
TxnRaces.v
Bytes.v
Bits.v
Float.v
Values.v
WalFormat.v
WalLog.v
WalRecovery.v
IndexKey.v
Postings.v
BTreeIndex.v
HashIndex.v
IndexManager.v
DeltaStore.v
DeltaMerge.v
Scan.v
Columns.v
ColumnRows.v
ColumnCodec.v
BitPack.v
StringDict.v
ColumnEncoding.v
ZoneMaps.v
Schema.v
SchemaFacts.v
SchemaRoundTrip.v
FileFormat.v
FileRoundTrip.v
ZonePruning.v
Catalog.v
LazySchemas.v
TablePath.v
TableDdl.v
FtsPostings.v
FtsIndex.v
FtsDocs.v
FtsTokens.v
FtsAnalyzer.v
FtsQuery.v
FtsEngine.v
FtsFuzzy.v
SqlAst.v
Decimal.v
SqlLexer.v
SqlParser.v
SqlParserFacts.v
SqlPrint.v
SqlRoundTrip.v
Epoch.v
Admission.v
TableLock.v
