(* ===== verification/Prelude.v ===== *)
(** * ApexBase: a verification library

    ApexBase is an embedded columnar database in Rust ([apexbase/src]).  This library
    models the parts of it that decide what a statement means and what survives it:
    transactions and multi-version storage, the write-ahead log and recovery, the columnar
    file and its scans, secondary indexes, the registries of tables and their statements,
    full-text search, SQL lexing and expressions, admission, decimals.  File names below
    are under [src/apexbase/src].

    ** How the program fits together

    A statement is admitted by a controller ([admission.rs]), lexed and parsed
    ([query/sql_parser.rs]) and runs in the query executor over a storage backend.
    Explicit transactions go through [txn/manager.rs], which buffers writes in a context
    ([txn/context.rs]), certifies them against finished commits ([txn/conflict.rs]) and
    publishes them in per-table version stores ([storage/mvcc]); a durable commit logs its
    records first ([storage/incremental.rs]), and the next open replays what is missing.
    A table is one file of row groups ([storage/on_demand]): a header, encoded columns, a
    footer with the schema, the offsets and the zone maps that let scans skip groups.
    Mutations outside transactions are recorded in a delta store ([storage/delta]) that
    scans merge with the base file; the index manager ([storage/index]) is told of every
    row change and answers lookups; [storage/epoch.rs] publishes a generation per logical
    write and hands out row ids.  The names of a database and the schemas of tables without
    a file live in two mapped registries ([storage/table_catalog.rs]), which CREATE, DROP
    and ALTER TABLE ([query/executor/ddl.rs]) change.  A full-text index ([fts]) is a
    secondary structure with a snapshot and a log of its own.

    ** The files

    Transactions.
    - [VersionStore], [Snapshot]: [storage/mvcc/version_store.rs], [snapshot.rs], [gc.rs].
      A store is a finite map from row to chain, newest version first.
    - [TxnContext], [Conflict], [TxnManager]: [txn/context.rs], [conflict.rs],
      [manager.rs], [commit.rs], one definition per method, state passed explicitly; the
      process-wide counters are a record ([Globals]), the clock an argument.
    - [TxnSystem]: the calls of the manager as steps of a system that remembers tokens
      and history, and its invariant.  [TxnLedger], [TxnReads]: counters and reads along
      a run.  [TxnIsolation]: the isolation theorems.  [TxnRaces]: what fails when
      [begin] is split or preparations overlap.

    Data and durability.
    - [Prelude]: 64-bit arithmetic, [io::Result] reduced to error kinds, tactics, list
      and text lemmas.  [Bytes], [Bits]: byte sequences, readers, little-endian numbers,
      packed bits.  [Float], [Values]: IEEE values as bit patterns; [data/types.rs],
      [value.rs], [row.rs].
    - [WalFormat], [WalLog]: records, writer, reader and concurrent writer of
      [storage/incremental.rs], with crashes that keep a prefix of the bytes.
      [WalRecovery]: the recovery scan of [storage/on_demand/storage_core.rs] and the
      records of a commit ([query/executor/dml/coordination.rs]).
    - [DeltaStore], [DeltaMerge]: [storage/delta/update_log.rs], [merge.rs].
    - [Epoch]: [storage/epoch.rs].

    Indexes.
    - [IndexKey], [Postings], [BTreeIndex], [HashIndex]: [storage/index/btree.rs] and
      [hash_index.rs].  [Postings] is the interface (a class with its laws) that both
      implement; clients are proved against it.
    - [IndexManager]: [storage/index/index_manager.rs].  Index files are a finite map
      from path to bytes.

    The table file ([storage/on_demand]).
    - [Columns], [ColumnRows]: column buffers ([types.rs]) and the rows they hold.
      [ColumnCodec], [BitPack], [StringDict], [ColumnEncoding]: the plain and encoded
      column formats and their kernels ([types.rs], [mod.rs], [read_write.rs]).
    - [ZoneMaps], [ZonePruning]: value ranges of row groups and the streams that skip
      groups ([mmap_scan/predicate.rs], [projection.rs]).
    - [Schema], [SchemaFacts], [SchemaRoundTrip], [FileFormat], [FileRoundTrip]: the
      schema, the file header, the footer, opening a file ([header.rs]).
    - [Scan]: the typed scan protocol ([storage/scan.rs]).

    Databases and statements.
    - [Catalog], [LazySchemas]: the two registries of [storage/table_catalog.rs].
      [TablePath]: the name and the file of a table text ([query/executor/joins.rs]).
      [TableDdl]: CREATE TABLE, DROP TABLE and ADD COLUMN, materialization and deferred
      deletion.
    - [SqlLexer], [SqlAst], [SqlParser], [SqlParserFacts], [SqlPrint], [SqlRoundTrip]: the
      tokenizer and the expression parser of [query/sql_parser.rs], and a printer.
    - [Decimal]: [query/executor/decimal.rs].
    - [Admission]: [admission.rs], clients as interleaved segments of their calls.

    Full-text search ([fts]).
    - [FtsPostings], [FtsIndex]: postings and the index with its delta ([index.rs]).
      [FtsDocs], [FtsTokens]: the document collections an index stands for.
    - [FtsAnalyzer], [FtsQuery], [FtsFuzzy]: [analyzer.rs], [query.rs], the edit distance.
      [FtsEngine]: the engine with its snapshot and log ([engine.rs], [storage.rs]).

    Processes.
    - [TableLock]: [storage/cross_process_lock.rs] for one table: threads, processes and
      the advisory locks of their descriptors, calls cut where they release a mutex.


    ** What the theorems show

    - Isolation: first committer wins, snapshots read stably, only finalization
      publishes, and what it publishes (an update of an unknown row without a base value
      is dropped, [update_without_base_is_dropped]), a prepared commit cannot fail, and nothing (intent, snapshot, count) is
      left behind, in every run of fewer than 2^63 timestamps ([run_bounded]).
    - Storage: a version store refines a timestamped history; collection is invisible to
      active snapshots; rolling back to a savepoint restores the writes.
    - Durability: records decode to what was written but for one form of record; a crash of
      the writer that created a log leaves a prefix of what it appended; recovery adds to the
      delta file the rows of committed transactions only, in order, and all of a commit
      above its high-water mark; the recovered cell updates are those of the committed
      transactions.
    - The file: a column is read back as written, packed columns of three types excepted,
      and so are the schema and the whole header and footer; buffers refine lists of rows;
      the bit-packed kernels agree with decoding first; a typed scan selects the rows its
      predicate holds of, for dictionaries of distinct non-null values and bounds that
      floats hold exactly; a scan that skips row groups loses none that matches.
    - Indexes: both kinds refine a bag of postings, range scans are exact, maintenance
      keeps every index, loaded or not, in agreement with the table; NaN keys, which break
      the order of the B-tree ([nan_key_breaks_order]), are left out.
    - Delta: the store is an overlay of deletes and cells, in memory and on disk, and a
      merge by any of its shortcuts is that overlay.
    - Databases: the name registry refines a set, whichever processes with caches of their
      own take turns on it, and the schema registry a map, up to the empty name, which
      blocks it; the table statements refine a map from names to declared schemas with
      files under the stems of the names, and a table whose file has its name opens as its
      columns were declared.
    - SQL: a text spelled from tokens, floats with digits and exponents included, is
      tokenized into them, an expression that is printed parses back, and the parser
      returns on every token list without a SELECT.
    - Full-text search: a search finds exactly the documents its query describes, boolean
      queries by a grammar of their own; the engine stands for its documents through
      flushes and crashes between calls, analysis is exact, and
      the bounded edit distance is the length of a shortest script.
    - Admission: the books of the controller are those of its clients, and a statement
      that can be admitted is, once what it waits for is released.
    - Epochs: one generation per logical write; concurrent reservations are sequential.
    - Decimals: parsing is exact, comparison is that of rationals, predicates have SQL's
      three-valued semantics.
    - Processes: a guard that owns the write lock of a table excludes every other holder,
      and an idle table can always be locked.
    - Defects that modelling showed are theorems on concrete runs or general statements,
      next to what they limit ([TxnRaces], [torn_tail_hides_later_commits],
      [string_inequality_loses_rows], [rename_collision_unopenable],
      [unadopted_tables_vanish], [bulk_build_shares_id] and others).

    ** Integers, fuel, parameters

    Counters that wrap in the source wrap here ([wrap64]), as in a release build;
    saturating and checked operations are written out.  A loop that is not over a list is
    a Fixpoint with fuel, and the fuel given is enough: [read_value_at] the length of its
    bytes (each level of nesting takes one), [read_records] and [scan_pass] the bytes left,
    the tokenizer the characters left, the expression parser the tokens left
    ([parse_expression_returns]), streams of batches and of row groups the number of
    batches or groups, [rle_runs] the values left, [find_occurrence] and [search_offset]
    the size of the dictionary and its data, [find_loop] the length of the directory,
    [cjk_grams] the characters left.  The theorems about these functions are about the
    results with that fuel.

    Code outside the repository is a parameter with its documented behaviour as named
    hypotheses: bincode ([Codec], [deserialize_serialize]), CRC-32 ([crc32_range]), Arrow's
    [take], [nullif] and [RecordBatch::try_new] ([take_gathers], [nullif_masks],
    [try_new_accepts]), roaring bitmaps ([TreemapLaws]), Unicode normalization and
    segmentation ([Unicode], without laws), alphanumeric characters ([CharClasses]), the JSON printer, the shortest text of a
    float.  Each theorem that uses one has a witness with a concrete instance.  Hash-map
    iteration is in the order of the finite map.

    A crash keeps the bytes that were synced and a prefix of the later ones; a mapped
    file keeps every completed store.  Locks are held for a whole call unless a file says
    otherwise, and a retried open is one attempt.

    ** Not modelled

    [IncrementalStorage] and the format of the delta file; the bodies of row groups,
    their compaction, pages, encryption and compression; half-precision and quantized
    vector columns; run counters beyond 2^32 rows.  SELECT and the other statements (a
    parameter of the parser), error texts, Unicode upper-casing.  The planner, the
    executor's Arrow operators, rewrites of materialized tables, sidecar files of tables,
    the worker scheduler.  Ranking, the candidates of the fuzzy search, the bytes of the
    full-text files and the reconciliation with the table.  Temporary and in-memory tables
    and the directories of qualified names.  The
    in-process mutexes of [table_save_lock.rs], vector search, code generation, servers and
    bindings; I/O failures other than those named. *)
From stdpp Require Export base gmap strings list fin_maps sorting.
From Stdlib Require Export ZArith Lia.
Local Open Scope Z_scope.

(** ** Machine integers

    A [u64] is a [Z] in [0, 2^64).  The atomics of the source wrap around on
    [fetch_add]/[fetch_sub]; explicit [saturating_add]/[saturating_sub] clamp. *)

Definition U64_MAX : Z := 18446744073709551615.
Definition U64_MOD : Z := 18446744073709551616.

Definition wrap64 (x : Z) : Z := x mod U64_MOD.

(** [x as u32], [x as u16] *)
Definition wrap32 (x : Z) : Z := x mod 2 ^ 32.
Definition wrap16 (x : Z) : Z := x mod 2 ^ 16.

Definition saturating_add64 (a b : Z) : Z := Z.min (a + b) U64_MAX.

Definition saturating_sub64 (a b : Z) : Z := Z.max (a - b) 0.

Definition u64 (x : Z) : Prop := 0 <= x <= U64_MAX.

Lemma wrap64_small x : u64 x -> wrap64 x = x.
Proof. unfold u64, wrap64, U64_MAX, U64_MOD. intros. apply Z.mod_small. lia. Qed.

Lemma wrap64_range x : u64 (wrap64 x).
Proof.
  unfold u64, wrap64, U64_MAX, U64_MOD.
  pose proof (Z.mod_pos_bound x 18446744073709551616). lia.
Qed.

Lemma saturating_add64_range a b : 0 <= a -> 0 <= b -> u64 (saturating_add64 a b).
Proof. unfold u64, saturating_add64, U64_MAX. lia. Qed.

(** ** Errors

    [std::io::Error] is reduced to its [ErrorKind]; message texts are not modelled. *)

Inductive ErrorKind :=
| NotFound
| InvalidInput
| PermissionDenied
| AlreadyExists
| WouldBlock
| TimedOut
| UnexpectedEof
| InvalidData
| Other.

#[global] Instance ErrorKind_eq_dec : EqDecision ErrorKind.
Proof. solve_decision. Defined.

(** [io::Result<A>] *)
Inductive Result (A : Type) :=
| Ok (a : A)
| Err (e : ErrorKind).
Arguments Ok {A} a.
Arguments Err {A} e.

Definition result_bind {A B} (r : Result A) (k : A -> Result B) : Result B :=
  match r with Ok a => k a | Err e => Err e end.

Definition is_ok {A} (r : Result A) : bool :=
  match r with Ok _ => true | Err _ => false end.

Declare Scope apex_scope.
Delimit Scope apex_scope with apex.

(** The [?] operator of the source. *)
Notation "'let?' x ':=' r 'in' k" := (result_bind r (fun x => k))
  (at level 10, x name, r at level 100, k at level 200) : apex_scope.

Lemma result_bind_ok {A B} (r : Result A) (k : A -> Result B) b :
  result_bind r k = Ok b <-> exists a, r = Ok a /\ k a = Ok b.
Proof. destruct r; simpl; naive_solver. Qed.

(** ** Tactics shared by the components *)

(** Turn the boolean tests of the hypotheses into propositions for [lia]. *)
Ltac zb :=
  repeat match goal with
  | H : context [negb _ = _] |- _ => rewrite ?negb_true_iff, ?negb_false_iff in H
  | H : context [(_ && _)%bool = true] |- _ => rewrite andb_true_iff in H
  | H : context [(_ || _)%bool = false] |- _ => rewrite orb_false_iff in H
  | H : _ /\ _ |- _ => destruct H
  | H : (_ <=? _) = true |- _ => apply Z.leb_le in H
  | H : (_ <=? _) = false |- _ => apply Z.leb_gt in H
  | H : (_ <? _) = true |- _ => apply Z.ltb_lt in H
  | H : (_ <? _) = false |- _ => apply Z.ltb_ge in H
  | H : (_ =? _) = true |- _ => apply Z.eqb_eq in H
  | H : (_ =? _) = false |- _ => apply Z.eqb_neq in H
  end.

(** Destruct the scrutinee of the first [match]/[if] of the goal, keeping its equation. *)
Ltac case_goal :=
  match goal with
  | |- context [match ?x with _ => _ end] => destruct x eqn:?
  end.

(** Same for a hypothesis. *)
Ltac case_hyp H :=
  match type of H with
  | context [match ?x with _ => _ end] => destruct x eqn:?
  end.

Create HintDb apex.
#[export] Hint Resolve wrap64_range : apex.

(** ** Lists *)

Section lists.
Context {A : Type}.

(** [Vec::truncate] *)
Lemma take_app_prefix (l k : list A) : take (length l) (l ++ k) = l.
Proof. rewrite take_app_length. done. Qed.

Lemma Forall_snoc (P : A -> Prop) l x : Forall P (l ++ [x]) <-> Forall P l /\ P x.
Proof. rewrite Forall_app, Forall_singleton. done. Qed.

Lemma delete_app_r (l k : list A) i :
  (length l <= i)%nat -> delete i (l ++ k) = l ++ delete (i - length l)%nat k.
Proof.
  revert i. induction l as [|x l IH]; intros i Hi; simpl.
  - by rewrite Nat.sub_0_r.
  - destruct i as [|i]; simpl in *; [lia|]. rewrite <-IH by lia. done.
Qed.

Lemma filter_true_id (f : A -> bool) (l : list A) :
  Forall (fun x => f x = true) l -> List.filter f l = l.
Proof. induction 1; simpl; [done|]. rewrite H. congruence. Qed.
End lists.

(** The running minimum and maximum of a list. *)
Lemma foldl_min_le l init x : x = init \/ x ∈ l -> foldl Z.min init l <= x.
Proof.
  revert init x. induction l as [|y l IH]; intros init x Hx; simpl; [by destruct Hx as [->|Hx]; [|by apply elem_of_nil in Hx]|].
  destruct Hx as [->|Hx].
  - transitivity (Z.min init y); [apply IH; by left|lia].
  - apply elem_of_cons in Hx as [->|Hx]; [transitivity (Z.min init y); [apply IH; by left|lia]|apply IH; by right].
Qed.

Lemma foldl_min_in l init : foldl Z.min init l = init \/ foldl Z.min init l ∈ l.
Proof.
  revert init. induction l as [|y l IH]; intros init; simpl; [by left|]. destruct (IH (Z.min init y)) as [H|H].
  - destruct (Z.min_spec init y) as [[_ Hm]|[_ Hm]]; [left; lia|right; apply elem_of_cons; left; lia].
  - right. by apply elem_of_cons; right.
Qed.

Lemma foldl_max_opp l init : foldl Z.max init l = - foldl Z.min (- init) (Z.opp <$> l).
Proof.
  revert init. induction l as [|y l IH]; intros init; simpl; [lia|]. rewrite IH. do 2 f_equal. lia.
Qed.

Lemma foldl_max_ge l init x : x = init \/ x ∈ l -> x <= foldl Z.max init l.
Proof.
  intros Hx. rewrite foldl_max_opp. enough (foldl Z.min (- init) (Z.opp <$> l) <= - x) by lia.
  apply foldl_min_le. destruct Hx as [->|Hx]; [by left|right; by apply list_elem_of_fmap_2].
Qed.

Lemma foldl_max_in l init : foldl Z.max init l = init \/ foldl Z.max init l ∈ l.
Proof.
  rewrite foldl_max_opp. destruct (foldl_min_in (Z.opp <$> l) (- init)) as [->|H]; [left; lia|].
  apply list_elem_of_fmap in H as (y & -> & Hy). right. by rewrite Z.opp_involutive.
Qed.

(** ** Text *)

(** [str::to_lowercase] on ASCII text. *)
Definition ascii_lower (c : Ascii.ascii) : Ascii.ascii :=
  let n := Ascii.N_of_ascii c in
  if (65 <=? n)%N && (n <=? 90)%N then Ascii.ascii_of_N (n + 32)%N else c.

Fixpoint to_lowercase (s : string) : string :=
  match s with
  | EmptyString => EmptyString
  | String c s => String (ascii_lower c) (to_lowercase s)
  end.

(** [str::eq_ignore_ascii_case] *)
Definition eq_ignore_ascii_case (a b : string) : bool := String.eqb (to_lowercase a) (to_lowercase b).

Lemma eq_ignore_ascii_case_refl a : eq_ignore_ascii_case a a = true.
Proof. apply String.eqb_refl. Qed.

Lemma string_leb_trans a b c : String.leb a b = true -> String.leb b c = true -> String.leb a c = true.
Proof.
  revert b c. induction a as [|x a IH]; intros [|y b] [|z c]; unfold String.leb; simpl; try done.
  specialize (IH b c). unfold String.leb in IH. unfold Ascii.compare.
  destruct (N.compare_spec (Ascii.N_of_ascii x) (Ascii.N_of_ascii y)) as [Hxy|Hxy|Hxy];
    destruct (N.compare_spec (Ascii.N_of_ascii y) (Ascii.N_of_ascii z)) as [Hyz|Hyz|Hyz];
    destruct (N.compare_spec (Ascii.N_of_ascii x) (Ascii.N_of_ascii z)) as [Hxz|Hxz|Hxz];
    try done; try lia.
Qed.
