(* ===== verification/VersionStore.v ===== *)
(** * Row version chains

    Models [storage/mvcc/version_store.rs]: the global timestamp counter,
    [RowVersion], [VersionChain] and [VersionStore].  The store is generic in
    the type [V] of cell values, which the MVCC layer never inspects. *)
From S2P Require Import Prelude.
Local Open Scope Z_scope.

(** ** Timestamps *)

(** [u64::MAX]: the transaction is still active. *)
Definition TS_ACTIVE : Z := U64_MAX.

(** [u64::MAX - 1]: the version has no end. *)
Definition TS_INF : Z := U64_MAX - 1.

(** [GLOBAL_TS.fetch_add(1)]: the value before the increment, and the new counter. *)
Definition next_timestamp (global_ts : Z) : Z * Z := (global_ts, wrap64 (global_ts + 1)).

Definition current_timestamp (global_ts : Z) : Z := global_ts.

Definition set_timestamp (_global_ts ts : Z) : Z := ts.

(** ** Row versions *)

Record RowVersion (V : Type) := mkRowVersion {
  rv_begin_ts : Z;
  rv_end_ts : Z;
  rv_data : gmap string V;
  rv_is_delete : bool
}.
Arguments mkRowVersion {V}.
Arguments rv_begin_ts {V}.
Arguments rv_end_ts {V}.
Arguments rv_data {V}.
Arguments rv_is_delete {V}.

Record VersionChain (V : Type) := mkVersionChain {
  vc_row_id : Z;
  vc_versions : list (RowVersion V)
}.
Arguments mkVersionChain {V}.
Arguments vc_row_id {V}.
Arguments vc_versions {V}.

Record VersionStore (V : Type) := mkVersionStore {
  vs_chains : gmap Z (VersionChain V);
  vs_total_versions : Z
}.
Arguments mkVersionStore {V}.
Arguments vs_chains {V}.
Arguments vs_total_versions {V}.

Section definitions.
Context {V : Type}.
Implicit Types (v : RowVersion V) (c : VersionChain V) (st : VersionStore V).

Definition RowVersion_new_insert (begin_ts : Z) (data : gmap string V) : RowVersion V :=
  mkRowVersion begin_ts TS_INF data false.

Definition RowVersion_new_update (begin_ts : Z) (data : gmap string V) : RowVersion V :=
  mkRowVersion begin_ts TS_INF data false.

Definition RowVersion_new_delete (begin_ts : Z) : RowVersion V :=
  mkRowVersion begin_ts TS_INF ∅ true.

Definition RowVersion_is_visible_at v (snapshot_ts : Z) : bool :=
  (rv_begin_ts v <=? snapshot_ts) && (snapshot_ts <? rv_end_ts v).

Definition RowVersion_set_end v (end_ts : Z) : RowVersion V :=
  mkRowVersion (rv_begin_ts v) end_ts (rv_data v) (rv_is_delete v).

Definition RowVersion_is_latest v : bool := rv_end_ts v =? TS_INF.

(** ** Version chains *)

Definition VersionChain_new (row_id : Z) v : VersionChain V :=
  mkVersionChain row_id [v].

(** The previous head, when it is still open, ends where the new version begins. *)
Definition VersionChain_add_version c v : VersionChain V :=
  let versions :=
    match vc_versions c with
    | prev :: rest =>
        (if RowVersion_is_latest prev
         then RowVersion_set_end prev (rv_begin_ts v) else prev) :: rest
    | [] => []
    end in
  mkVersionChain (vc_row_id c) (v :: versions).

(** The [for] loop of [get_visible] and [is_deleted_at]: the first visible version. *)
Fixpoint first_visible (vs : list (RowVersion V)) (snapshot_ts : Z) : option (RowVersion V) :=
  match vs with
  | [] => None
  | v :: rest =>
      if RowVersion_is_visible_at v snapshot_ts then Some v
      else first_visible rest snapshot_ts
  end.

Definition VersionChain_get_visible c (snapshot_ts : Z) : option (RowVersion V) :=
  match first_visible (vc_versions c) snapshot_ts with
  | Some v => if rv_is_delete v then None else Some v
  | None => None
  end.

Definition VersionChain_latest c : option (RowVersion V) := head (vc_versions c).

Definition VersionChain_is_deleted_at c (snapshot_ts : Z) : bool :=
  match first_visible (vc_versions c) snapshot_ts with
  | Some v => rv_is_delete v
  | None => true
  end.

(** The predicate of the [retain] call of [VersionChain::gc]. *)
Definition gc_retains (oldest_active_ts : Z) v : bool :=
  RowVersion_is_latest v || (oldest_active_ts <? rv_end_ts v).

Definition VersionChain_gc c (oldest_active_ts : Z) : VersionChain V * Z :=
  if (length (vc_versions c) <=? 1)%nat then (c, 0)
  else
    let kept := List.filter (gc_retains oldest_active_ts) (vc_versions c) in
    (mkVersionChain (vc_row_id c) kept,
     Z.of_nat (length (vc_versions c)) - Z.of_nat (length kept)).

Definition VersionChain_version_count c : nat := length (vc_versions c).

(** ** Version stores *)

Definition VersionStore_new : VersionStore V := mkVersionStore ∅ 0.

Definition VersionStore_insert st (row_id begin_ts : Z) (data : gmap string V) : VersionStore V :=
  let chain := VersionChain_new row_id (RowVersion_new_insert begin_ts data) in
  mkVersionStore (<[row_id := chain]> (vs_chains st)) (wrap64 (vs_total_versions st + 1)).

Definition VersionStore_update st (row_id begin_ts : Z) (data : gmap string V)
    : VersionStore V * Result unit :=
  match vs_chains st !! row_id with
  | None => (st, Err NotFound)
  | Some chain =>
      let chain' := VersionChain_add_version chain (RowVersion_new_update begin_ts data) in
      (mkVersionStore (<[row_id := chain']> (vs_chains st))
         (wrap64 (vs_total_versions st + 1)), Ok tt)
  end.

Definition VersionStore_delete st (row_id begin_ts : Z) : VersionStore V * Result unit :=
  match vs_chains st !! row_id with
  | None => (st, Err NotFound)
  | Some chain =>
      let chain' := VersionChain_add_version chain (RowVersion_new_delete begin_ts) in
      (mkVersionStore (<[row_id := chain']> (vs_chains st))
         (wrap64 (vs_total_versions st + 1)), Ok tt)
  end.

Definition VersionStore_read st (row_id snapshot_ts : Z) : option (gmap string V) :=
  match vs_chains st !! row_id with
  | Some chain => rv_data <$> VersionChain_get_visible chain snapshot_ts
  | None => None
  end.

Definition VersionStore_exists st (row_id snapshot_ts : Z) : bool :=
  match vs_chains st !! row_id with
  | Some chain => negb (VersionChain_is_deleted_at chain snapshot_ts)
  | None => false
  end.

Definition VersionStore_read_latest st (row_id : Z) : option (gmap string V) :=
  match vs_chains st !! row_id with
  | Some chain =>
      match VersionChain_latest chain with
      | Some v => if rv_is_delete v then None else Some (rv_data v)
      | None => None
      end
  | None => None
  end.

(** The predicate of the second [retain] of [VersionStore::gc]. *)
Definition gc_keeps_chain (oldest_active_ts : Z) c : bool :=
  match VersionChain_latest c with
  | Some latest => negb (rv_is_delete latest && (rv_end_ts latest <? oldest_active_ts))
  | None => false
  end.

Definition VersionStore_gc st (oldest_active_ts : Z) : VersionStore V * Z :=
  let removed :=
    map_fold (fun _ c acc => acc + (VersionChain_gc c oldest_active_ts).2) 0 (vs_chains st) in
  let collected := (fun c => (VersionChain_gc c oldest_active_ts).1) <$> vs_chains st in
  let chains := filter (fun rc => gc_keeps_chain oldest_active_ts rc.2 = true) collected in
  (mkVersionStore chains (wrap64 (vs_total_versions st - removed)), removed).

Definition VersionStore_row_count st : nat := size (vs_chains st).

Definition VersionStore_needs_gc st : bool :=
  let total := vs_total_versions st in
  let rows := Z.of_nat (VersionStore_row_count st) in
  (0 <? rows) && (rows * 3 <? total).
End definitions.

(** ** Well-formed chains

    Newest first, contiguous: every version ends where the next newer one begins,
    and the head is open. *)

Section chain_theory.
Context {V : Type}.
Implicit Types (v : RowVersion V) (vs : list (RowVersion V)) (c : VersionChain V).

Fixpoint versions_wf (upper : Z) vs : Prop :=
  match vs with
  | [] => True
  | v :: rest => rv_end_ts v = upper /\ rv_begin_ts v <= upper /\ versions_wf (rv_begin_ts v) rest
  end.

(** The timestamp of the newest version. *)
Definition chain_head_ts c : Z :=
  match vc_versions c with v :: _ => rv_begin_ts v | [] => 0 end.

Definition chain_wf c : Prop :=
  vc_versions c <> [] /\ chain_head_ts c < TS_INF /\ versions_wf TS_INF (vc_versions c).

(** What a version says about its row: [None] for a tombstone. *)
Definition version_value v : option (gmap string V) :=
  if rv_is_delete v then None else Some (rv_data v).

(** What a reader at [s] sees of the row. *)
Definition chain_view c (s : Z) : option (gmap string V) :=
  match first_visible (vc_versions c) s with Some v => version_value v | None => None end.

Lemma visible_spec v s :
  RowVersion_is_visible_at v s = true <-> rv_begin_ts v <= s < rv_end_ts v.
Proof. unfold RowVersion_is_visible_at. rewrite andb_true_iff, Z.leb_le, Z.ltb_lt. lia. Qed.

Lemma visible_false v s :
  RowVersion_is_visible_at v s = false <-> s < rv_begin_ts v \/ rv_end_ts v <= s.
Proof. unfold RowVersion_is_visible_at. rewrite andb_false_iff, Z.leb_gt, Z.ltb_ge. lia. Qed.

Lemma first_visible_above u vs s : versions_wf u vs -> u <= s -> first_visible vs s = None.
Proof.
  revert u. induction vs as [|v vs IH]; intros u; [done|].
  simpl. intros (He & Hb & Hwf) Hs.
  destruct (RowVersion_is_visible_at v s) eqn:Hv.
  - apply visible_spec in Hv. lia.
  - apply (IH _ Hwf). lia.
Qed.

Lemma first_visible_filter (f : RowVersion V -> bool) vs s :
  (forall v, v ∈ vs -> f v = false -> RowVersion_is_visible_at v s = false) ->
  first_visible (List.filter f vs) s = first_visible vs s.
Proof.
  induction vs as [|v vs IH]; intros H; [done|]. simpl.
  destruct (f v) eqn:Hf; simpl.
  - rewrite IH; [done|]. intros; apply H; [by right|done].
  - rewrite (H v) by (by left || done). apply IH. intros; apply H; [by right|done].
Qed.

Lemma first_visible_elem vs s v :
  first_visible vs s = Some v -> v ∈ vs /\ RowVersion_is_visible_at v s = true.
Proof.
  induction vs as [|w vs IH]; [done|]. simpl.
  destruct (RowVersion_is_visible_at w s) eqn:Hw; intros H.
  - simplify_eq. split; [by left|done].
  - destruct (IH H). split; [by right|done].
Qed.

(** In a well-formed chain two versions never overlap: visibility is a function. *)
Lemma versions_wf_unique u vs s v w :
  versions_wf u vs -> v ∈ vs -> w ∈ vs ->
  RowVersion_is_visible_at v s = true -> RowVersion_is_visible_at w s = true -> v = w.
Proof.
  revert u. induction vs as [|x vs IH]; intros u Hwf Hv Hw Vv Vw.
  - by apply elem_of_nil in Hv.
  - simpl in Hwf. destruct Hwf as (He & Hb & Hwf).
    assert (Hno : forall y, y ∈ vs -> RowVersion_is_visible_at y s = true ->
              RowVersion_is_visible_at x s = true -> False).
    { intros y Hy Vy Vx. apply visible_spec in Vx.
      pose proof (first_visible_above _ _ s Hwf ltac:(lia)) as Hn.
      clear -Hy Vy Hn. induction vs as [|z vs IH]; [by apply elem_of_nil in Hy|].
      simpl in Hn. destruct (RowVersion_is_visible_at z s) eqn:Hz; [done|].
      apply elem_of_cons in Hy as [->|Hy]; [congruence|]. by apply IH. }
    apply elem_of_cons in Hv as [->|Hv]; apply elem_of_cons in Hw as [->|Hw].
    + done.
    + exfalso; by eapply Hno.
    + exfalso; by eapply Hno.
    + by eapply IH.
Qed.

Lemma chain_new_wf r v :
  rv_end_ts v = TS_INF -> rv_begin_ts v < TS_INF -> chain_wf (VersionChain_new r v).
Proof. intros He Hb. unfold chain_wf, chain_head_ts. simpl. repeat split; [done|lia..]. Qed.

Lemma chain_new_view r v s :
  rv_end_ts v = TS_INF -> s < TS_INF ->
  chain_view (VersionChain_new r v) s = if rv_begin_ts v <=? s then version_value v else None.
Proof.
  intros He Hs. unfold chain_view, VersionChain_new. simpl. unfold RowVersion_is_visible_at.
  rewrite He, (proj2 (Z.ltb_lt s TS_INF) Hs), andb_true_r. by destruct (_ <=? s).
Qed.

Lemma add_version_wf c v :
  chain_wf c -> rv_end_ts v = TS_INF -> chain_head_ts c <= rv_begin_ts v < TS_INF ->
  chain_wf (VersionChain_add_version c v).
Proof.
  destruct c as [r [|p rest]]; unfold chain_wf, chain_head_ts; simpl; [naive_solver|].
  intros (_ & Hh & He & Hb & Hwf) Hev Hbv.
  unfold RowVersion_is_latest. rewrite He, Z.eqb_refl. simpl.
  repeat split; [done|lia..|done].
Qed.

Lemma add_version_view c v s :
  chain_wf c -> rv_end_ts v = TS_INF -> chain_head_ts c <= rv_begin_ts v -> s < TS_INF ->
  chain_view (VersionChain_add_version c v) s =
    if rv_begin_ts v <=? s then version_value v else chain_view c s.
Proof.
  destruct c as [r [|p rest]]; unfold chain_wf, chain_head_ts, chain_view; simpl; [naive_solver|].
  intros (_ & Hh & He & Hb & Hwf) Hev Hbv Hs.
  unfold RowVersion_is_latest. rewrite He, Z.eqb_refl. simpl.
  unfold RowVersion_is_visible_at at 1. rewrite Hev, (proj2 (Z.ltb_lt s TS_INF) Hs), andb_true_r.
  destruct (rv_begin_ts v <=? s) eqn:Hvs; [done|]. apply Z.leb_gt in Hvs.
  unfold RowVersion_is_visible_at. simpl.
  rewrite He, (proj2 (Z.ltb_lt s TS_INF) Hs), (proj2 (Z.ltb_lt s (rv_begin_ts v)) Hvs).
  by destruct (rv_begin_ts p <=? s).
Qed.

Lemma get_visible_view c s : rv_data <$> VersionChain_get_visible c s = chain_view c s.
Proof.
  unfold VersionChain_get_visible, chain_view, version_value.
  destruct (first_visible _ _) as [v|]; [|done]. by destruct (rv_is_delete v).
Qed.

Lemma is_deleted_view c s :
  VersionChain_is_deleted_at c s = negb (bool_decide (is_Some (chain_view c s))).
Proof.
  unfold VersionChain_is_deleted_at, chain_view, version_value.
  destruct (first_visible _ _) as [v|]; [destruct (rv_is_delete v)|];
    by rewrite ?bool_decide_eq_false_2, ?bool_decide_eq_true_2 by (done || by intros [? ?]).
Qed.

Lemma head_view c s :
  chain_wf c -> chain_head_ts c <= s < TS_INF ->
  chain_view c s = match VersionChain_latest c with Some v => version_value v | None => None end.
Proof.
  destruct c as [r [|p rest]]; unfold chain_wf, chain_head_ts, chain_view; simpl; [naive_solver|].
  intros (_ & Hh & He & Hb & Hwf) Hs.
  unfold RowVersion_is_visible_at. rewrite He.
  rewrite (proj2 (Z.ltb_lt s TS_INF)), (proj2 (Z.leb_le (rv_begin_ts p) s)) by lia. done.
Qed.

(** *** Garbage collection *)

Lemma gc_retains_false o v :
  gc_retains o v = false <-> rv_end_ts v <> TS_INF /\ rv_end_ts v <= o.
Proof.
  unfold gc_retains, RowVersion_is_latest.
  rewrite orb_false_iff, Z.eqb_neq, Z.ltb_ge. done.
Qed.

Lemma chain_gc_versions c o :
  vc_versions (VersionChain_gc c o).1 = List.filter (gc_retains o) (vc_versions c) \/
  vc_versions (VersionChain_gc c o).1 = vc_versions c.
Proof. unfold VersionChain_gc. case_match; simpl; auto. Qed.

Lemma versions_wf_filter_low u o vs :
  versions_wf u vs -> u <= o -> u < TS_INF -> List.filter (gc_retains o) vs = [].
Proof.
  revert u. induction vs as [|v vs IH]; intros u; [done|]. simpl.
  intros (He & Hb & Hwf) Hu Hi.
  rewrite (proj2 (gc_retains_false o v)) by lia. apply (IH _ Hwf); lia.
Qed.

Lemma versions_wf_filter u o vs :
  versions_wf u vs -> u < TS_INF -> versions_wf u (List.filter (gc_retains o) vs).
Proof.
  revert u. induction vs as [|v vs IH]; intros u; [done|]. simpl.
  intros (He & Hb & Hwf) Hi. destruct (gc_retains o v) eqn:Hr; simpl.
  - repeat split; [done|lia|]. apply IH; [done|lia].
  - apply gc_retains_false in Hr.
    rewrite (versions_wf_filter_low (rv_begin_ts v)) by (done || lia). done.
Qed.

(** The head survives a collection. *)
Lemma chain_gc_head c o :
  chain_wf c -> VersionChain_latest (VersionChain_gc c o).1 = VersionChain_latest c.
Proof.
  destruct c as [r vs]. intros (Hne & Hh & Hwf). unfold VersionChain_latest.
  destruct (chain_gc_versions (mkVersionChain r vs) o) as [-> | ->]; [|done]. simpl in *.
  destruct vs as [|v vs]; [done|]. simpl in *. destruct Hwf as (He & _).
  unfold gc_retains, RowVersion_is_latest. by rewrite He, Z.eqb_refl.
Qed.

Lemma latest_head_ts c v : VersionChain_latest c = Some v -> chain_head_ts c = rv_begin_ts v.
Proof. destruct c as [r [|w vs]]; [done|]. by intros [= ->]. Qed.

Lemma chain_gc_head_ts c o : chain_wf c -> chain_head_ts (VersionChain_gc c o).1 = chain_head_ts c.
Proof.
  intros Hwf. pose proof (chain_gc_head c o Hwf) as Hl.
  destruct (VersionChain_latest c) as [v|] eqn:Hc.
  - by rewrite (latest_head_ts _ _ Hc), (latest_head_ts _ _ Hl).
  - destruct Hwf as [Hne _]. unfold VersionChain_latest in Hc. by destruct (vc_versions c).
Qed.

Lemma chain_gc_wf c o : chain_wf c -> chain_wf (VersionChain_gc c o).1.
Proof.
  intros Hwf. pose proof (chain_gc_head c o Hwf) as Hl.
  pose proof (chain_gc_head_ts c o Hwf) as Ht.
  destruct Hwf as (Hne & Hh & Hwf). unfold chain_wf. rewrite Ht. split_and!.
  - unfold VersionChain_latest in Hl. by destruct (vc_versions c), (vc_versions (VersionChain_gc c o).1).
  - done.
  - destruct (chain_gc_versions c o) as [-> | ->]; [|done].
    destruct c as [r [|v vs]]; [done|]. unfold chain_head_ts in Hh. simpl in *.
    destruct Hwf as (He & Hb & Hwf). unfold gc_retains, RowVersion_is_latest.
    rewrite He, Z.eqb_refl. simpl. repeat split; [done|lia|].
    by apply versions_wf_filter.
Qed.

(** Safety of GC: a reader at [s] keeps its view when [s] is not below the
    collection horizon, or not below the newest version. *)
Lemma chain_gc_view c o s :
  chain_wf c -> o <= s \/ chain_head_ts c <= s -> s < TS_INF ->
  chain_view (VersionChain_gc c o).1 s = chain_view c s.
Proof.
  intros Hwf [Hs|Hs] Hi.
  - unfold chain_view. destruct (chain_gc_versions c o) as [-> | ->]; [|done].
    rewrite first_visible_filter; [done|].
    intros v _ Hr%gc_retains_false. apply visible_false. lia.
  - rewrite !head_view by (auto using chain_gc_wf; rewrite ?chain_gc_head_ts by done; lia).
    by rewrite chain_gc_head.
Qed.

(** A chain is only dropped when it ends in a tombstone and no reader is left. *)
Lemma gc_dropped_view c o s :
  chain_wf c -> gc_keeps_chain o c = false ->
  o <= s \/ chain_head_ts c <= s -> s < TS_INF -> chain_view c s = None.
Proof.
  intros Hwf Hk Hs Hi. unfold gc_keeps_chain in Hk.
  destruct (VersionChain_latest c) as [v|] eqn:Hl.
  - apply negb_false_iff, andb_true_iff in Hk as [Hd Ht]. apply Z.ltb_lt in Ht.
    assert (rv_end_ts v = TS_INF) as He.
    { destruct Hwf as (_ & _ & Hwf). unfold VersionChain_latest in Hl.
      destruct (vc_versions c) as [|w ws]; [done|]. simplify_eq/=. naive_solver. }
    rewrite head_view by (done || unfold TS_INF in *; lia).
    rewrite Hl. unfold version_value. by rewrite Hd.
  - destruct Hwf as (Hne & _). unfold VersionChain_latest in Hl. by destruct (vc_versions c).
Qed.

Lemma chain_gc_row_id c o : vc_row_id (VersionChain_gc c o).1 = vc_row_id c.
Proof. unfold VersionChain_gc. by case_match. Qed.
End chain_theory.

(** ** Abstract specification: a multi-version history

    The contract of a version store: every row has a list of timestamped states,
    newest first; a reader at [s] gets the newest state not younger than [s]. *)

Section history.
Context {V : Type}.

Abbreviation row_state := (option (gmap string V)).
Abbreviation history := (gmap Z (list (Z * row_state))).

Fixpoint hist_at (l : list (Z * row_state)) (s : Z) : row_state :=
  match l with
  | [] => None
  | (t, x) :: rest => if t <=? s then x else hist_at rest s
  end.

Definition hist_read (h : history) (r s : Z) : row_state :=
  match h !! r with Some l => hist_at l s | None => None end.

(** The calls that change a version store. *)
Inductive store_op :=
| OpInsert (r t : Z) (d : gmap string V)
| OpUpdate (r t : Z) (d : gmap string V)
| OpDelete (r t : Z)
| OpGc (oldest : Z).

Definition store_step (st : VersionStore V) (op : store_op) : VersionStore V * bool :=
  match op with
  | OpInsert r t d => (VersionStore_insert st r t d, true)
  | OpUpdate r t d => let '(st', res) := VersionStore_update st r t d in (st', is_ok res)
  | OpDelete r t => let '(st', res) := VersionStore_delete st r t in (st', is_ok res)
  | OpGc o => ((VersionStore_gc st o).1, true)
  end.

Fixpoint store_run (st : VersionStore V) (ops : list store_op) : VersionStore V * list bool :=
  match ops with
  | [] => (st, [])
  | op :: ops =>
      let '(st1, b) := store_step st op in
      let '(st2, bs) := store_run st1 ops in (st2, b :: bs)
  end.

(** What a call may do to the history.  An insert starts the row afresh; a
    failed update or delete is only allowed when the row is dead from [t] on. *)
Inductive hist_step (h : history) : store_op -> bool -> history -> Prop :=
| HInsert r t d : hist_step h (OpInsert r t d) true (<[r := [(t, Some d)]]> h)
| HUpdate r t d l : h !! r = Some l ->
    hist_step h (OpUpdate r t d) true (<[r := (t, Some d) :: l]> h)
| HUpdateErr r t d : (forall s, t <= s < TS_INF -> hist_read h r s = None) ->
    hist_step h (OpUpdate r t d) false h
| HDelete r t l : h !! r = Some l ->
    hist_step h (OpDelete r t) true (<[r := (t, None) :: l]> h)
| HDeleteErr r t : (forall s, t <= s < TS_INF -> hist_read h r s = None) ->
    hist_step h (OpDelete r t) false h
| HGc o : hist_step h (OpGc o) true h.

Inductive hist_run (h : history) : list store_op -> list bool -> history -> Prop :=
| hist_run_nil : hist_run h [] [] h
| hist_run_cons op b h1 ops bs h2 :
    hist_step h op b h1 -> hist_run h1 ops bs h2 -> hist_run h (op :: ops) (b :: bs) h2.

(** The newest timestamp written, and the oldest timestamp still readable. *)
Definition op_now (now : Z) (op : store_op) : Z :=
  match op with
  | OpInsert _ t _ | OpUpdate _ t _ | OpDelete _ t => Z.max now t
  | OpGc _ => now
  end.

Definition op_low (now low : Z) (op : store_op) : Z :=
  match op with OpGc o => Z.max low (Z.min o now) | _ => low end.

(** Writers use timestamps that do not go back; an insert may use any. *)
Definition op_timed (now : Z) (op : store_op) : Prop :=
  match op with
  | OpInsert _ t _ => t < TS_INF
  | OpUpdate _ t _ | OpDelete _ t => now <= t < TS_INF
  | OpGc _ => True
  end.

Fixpoint run_timed (now : Z) (ops : list store_op) : Prop :=
  match ops with
  | [] => True
  | op :: ops => op_timed now op /\ run_timed (op_now now op) ops
  end.

Fixpoint run_low (now low : Z) (ops : list store_op) : Z :=
  match ops with
  | [] => low
  | op :: ops => run_low (op_now now op) (op_low now low op) ops
  end.

(** The simulation relation. *)
Definition row_rel (now low : Z) (oc : option (VersionChain V)) (h : history) (r : Z) : Prop :=
  match oc with
  | Some c =>
      chain_wf c /\ chain_head_ts c <= now /\ is_Some (h !! r) /\
      forall s, low <= s < TS_INF -> chain_view c s = hist_read h r s
  | None => forall s, low <= s < TS_INF -> hist_read h r s = None
  end.

Definition store_rel (now low : Z) (st : VersionStore V) (h : history) : Prop :=
  forall r, row_rel now low (vs_chains st !! r) h r.

Lemma hist_read_insert h r l r' s :
  hist_read (<[r := l]> h) r' s = if decide (r = r') then hist_at l s else hist_read h r' s.
Proof. unfold hist_read. rewrite lookup_insert. by case_decide; subst. Qed.

Lemma store_read_view (st : VersionStore V) r s :
  VersionStore_read st r s =
    match vs_chains st !! r with Some c => chain_view c s | None => None end.
Proof. unfold VersionStore_read. case_match; [|done]. apply get_visible_view. Qed.

Lemma store_exists_read (st : VersionStore V) r s :
  VersionStore_exists st r s = bool_decide (is_Some (VersionStore_read st r s)).
Proof.
  rewrite store_read_view. unfold VersionStore_exists.
  destruct (vs_chains st !! r) as [c|].
  - rewrite is_deleted_view. by rewrite negb_involutive.
  - by rewrite bool_decide_eq_false_2 by by intros [? ?].
Qed.

Lemma row_rel_mono now now' low low' oc h r :
  row_rel now low oc h r -> now <= now' -> low <= low' -> row_rel now' low' oc h r.
Proof.
  destruct oc as [c|]; simpl.
  - intros (Hwf & Hh & Hs & Hv) ??. split_and!; [done|lia|done|]. intros; apply Hv; lia.
  - intros Hv ?? s Hs. apply Hv. lia.
Qed.

Lemma row_rel_frame now low oc h r r' l :
  row_rel now low oc h r' -> r <> r' -> row_rel now low oc (<[r := l]> h) r'.
Proof.
  intros H Hne. destruct oc as [c|]; simpl in *.
  - destruct H as (Hwf & Hh & Hs & Hv). split_and!; [done|done| |].
    + by rewrite lookup_insert_ne.
    + intros s Hs'. rewrite hist_read_insert, decide_False by done. by apply Hv.
  - intros s Hs. rewrite hist_read_insert, decide_False by done. by apply H.
Qed.

(** One new version on a tracked row. *)
Lemma row_rel_add now low c h r v l :
  row_rel now low (Some c) h r -> h !! r = Some l ->
  rv_end_ts v = TS_INF -> now <= rv_begin_ts v < TS_INF ->
  row_rel (rv_begin_ts v) low (Some (VersionChain_add_version c v))
    (<[r := (rv_begin_ts v, version_value v) :: l]> h) r.
Proof.
  intros (Hwf & Hh & Hs & Hv) Hl He Hb. simpl. split_and!.
  - apply add_version_wf; [done..|lia].
  - destruct c as [? [|? ?]]; by unfold chain_head_ts.
  - rewrite lookup_insert_eq. eauto.
  - intros s Hlow. rewrite add_version_view by (done || lia).
    rewrite hist_read_insert, decide_True by done. simpl.
    destruct (_ <=? s); [done|]. rewrite Hv by done. unfold hist_read. by rewrite Hl.
Qed.
End history.
Arguments store_op : clear implicits.

Section refinement.
Context {V : Type}.
Implicit Types (st : VersionStore V) (h : gmap Z (list (Z * option (gmap string V)))).

Lemma store_rel_write now low now' st h r c' l n :
  store_rel now low st h -> now <= now' ->
  row_rel now' low (Some c') (<[r := l]> h) r ->
  store_rel now' low (mkVersionStore (<[r := c']> (vs_chains st)) n) (<[r := l]> h).
Proof.
  intros Hrel Hn Hr r'. simpl. rewrite lookup_insert. case_decide as Hd; [by subst|].
  apply row_rel_frame; [|done]. eapply row_rel_mono; [apply Hrel|lia..].
Qed.

(** *** Consequences used by the collector and the transaction manager *)

Definition store_wf st : Prop := forall r c, vs_chains st !! r = Some c -> chain_wf c.

Lemma store_new_wf : store_wf VersionStore_new.
Proof. intros r c. simpl. by rewrite lookup_empty. Qed.

Lemma store_gc_lookup st o r :
  vs_chains (VersionStore_gc st o).1 !! r =
    c ← vs_chains st !! r;
    let c' := (VersionChain_gc c o).1 in if gc_keeps_chain o c' then Some c' else None.
Proof.
  simpl. rewrite map_lookup_filter, lookup_fmap.
  destruct (vs_chains st !! r) as [c|]; simpl; [|done].
  destruct (gc_keeps_chain o _); by case_guard.
Qed.

Lemma store_gc_wf st o : store_wf st -> store_wf (VersionStore_gc st o).1.
Proof.
  intros Hwf r c'. rewrite store_gc_lookup.
  destruct (vs_chains st !! r) as [c|] eqn:Hc; simpl; [|done].
  case_match; [|done]. intros [= <-]. apply chain_gc_wf. eauto.
Qed.

Lemma store_gc_read st o r s :
  store_wf st -> s < TS_INF ->
  o <= s \/ (forall c, vs_chains st !! r = Some c -> chain_head_ts c <= s) ->
  VersionStore_read (VersionStore_gc st o).1 r s = VersionStore_read st r s.
Proof.
  intros Hwf Hi Hs. rewrite !store_read_view, store_gc_lookup.
  destruct (vs_chains st !! r) as [c|] eqn:Hc; simpl; [|done].
  assert (o <= s \/ chain_head_ts c <= s) as Hs' by naive_solver.
  pose proof (Hwf _ _ Hc) as Hc'.
  destruct (gc_keeps_chain o _) eqn:Hk.
  - by apply chain_gc_view.
  - rewrite <-(chain_gc_view c o s) by done. symmetry.
    apply gc_dropped_view with o; [by apply chain_gc_wf|done| |done].
    by rewrite chain_gc_head_ts.
Qed.

(** The newest state of a row is what a reader at or after its head timestamp sees. *)
Lemma store_read_latest_read st r s :
  store_wf st -> s < TS_INF ->
  (forall c, vs_chains st !! r = Some c -> chain_head_ts c <= s) ->
  VersionStore_read_latest st r = VersionStore_read st r s.
Proof.
  intros Hwf Hi Hs. rewrite store_read_view. unfold VersionStore_read_latest.
  destruct (vs_chains st !! r) as [c|] eqn:Hc; [|done].
  rewrite head_view by (eauto || naive_solver).
  destruct (VersionChain_latest c); [|done]. unfold version_value. by case_match.
Qed.

Lemma store_rel_gc now low st h o :
  store_rel now low st h ->
  store_rel now (Z.max low (Z.min o now)) (VersionStore_gc st o).1 h.
Proof.
  intros Hrel r. specialize (Hrel r). rewrite store_gc_lookup.
  destruct (vs_chains st !! r) as [c|] eqn:Hc; simpl in *.
  - destruct Hrel as (Hwf & Hh & Hs & Hv).
    assert (Hview : forall s, Z.max low (Z.min o now) <= s < TS_INF ->
              chain_view (VersionChain_gc c o).1 s = hist_read h r s).
    { intros s Hs'. rewrite chain_gc_view by (done || lia). apply Hv. lia. }
    destruct (gc_keeps_chain o _) eqn:Hk; simpl.
    + split_and!; [by apply chain_gc_wf|by rewrite chain_gc_head_ts|done|done].
    + intros s Hs'. rewrite <-Hview by done.
      apply gc_dropped_view with o; [by apply chain_gc_wf|done| |lia].
      rewrite chain_gc_head_ts by done. lia.
  - intros s Hs. apply Hrel. lia.
Qed.

(** One call of the store is one step of the history. *)
Lemma store_step_sim now low st h op :
  store_rel now low st h -> low <= now -> op_timed now op ->
  exists h', hist_step h op (store_step st op).2 h' /\
    store_rel (op_now now op) (op_low now low op) (store_step st op).1 h'.
Proof.
  intros Hrel Hle Ht. destruct op as [r t d|r t d|r t|o]; simpl in *.
  - eexists; split; [constructor|]. apply store_rel_write with now; [done|lia|].
    simpl. split_and!; [by apply chain_new_wf|unfold chain_head_ts; simpl; lia| |].
    + rewrite lookup_insert_eq. eauto.
    + intros s Hs. rewrite hist_read_insert, decide_True by done.
      by rewrite chain_new_view by (done || lia).
  - pose proof (Hrel r) as Hr. unfold VersionStore_update.
    destruct (vs_chains st !! r) as [c|] eqn:Hc; simpl.
    + destruct (proj1 (proj2 (proj2 Hr))) as [l Hl].
      eexists; split; [by econstructor|]. rewrite Z.max_r by lia.
      apply store_rel_write with now; [done|lia|].
      by apply (row_rel_add now low c h r (RowVersion_new_update t d) l).
    + exists h. split; [constructor; intros; apply Hr; lia|].
      intros r'. eapply row_rel_mono; [apply Hrel|lia..].
  - pose proof (Hrel r) as Hr. unfold VersionStore_delete.
    destruct (vs_chains st !! r) as [c|] eqn:Hc; simpl.
    + destruct (proj1 (proj2 (proj2 Hr))) as [l Hl].
      eexists; split; [by econstructor|]. rewrite Z.max_r by lia.
      apply store_rel_write with now; [done|lia|].
      by apply (row_rel_add now low c h r (RowVersion_new_delete t) l).
    + exists h. split; [constructor; intros; apply Hr; lia|].
      intros r'. eapply row_rel_mono; [apply Hrel|lia..].
  - exists h. split; [constructor|]. by apply store_rel_gc.
Qed.

Lemma store_run_sim now low st h ops :
  store_rel now low st h -> low <= now -> run_timed now ops ->
  exists h' now', hist_run h ops (store_run st ops).2 h' /\
    store_rel now' (run_low now low ops) (store_run st ops).1 h'.
Proof.
  revert now low st h. induction ops as [|op ops IH]; intros now low st h Hrel Hle Ht.
  - exists h, now. split; [constructor|done].
  - simpl in *. destruct Ht as [Hop Ht].
    destruct (store_step_sim now low st h op Hrel Hle Hop) as (h1 & Hs1 & Hr1).
    destruct (store_step st op) as [st1 b]. simpl in *.
    destruct (IH _ _ _ _ Hr1) as (h2 & now2 & Hrun & Hr2); [destruct op; simpl in *; lia|done|].
    destruct (store_run st1 ops) as [st2 bs]. simpl in *.
    exists h2, now2. split; [by econstructor|done].
Qed.

(** C7 A version store refines a multi-version history: for every sequence of inserts,
    updates, deletes and collections in which updates and deletes carry timestamps
    that do not go back, there is a history in which each call did what it reported
    (a call fails only on a row that stays dead), and every reader at a timestamp not
    older than the collections sees in the store exactly that history. *)
Theorem version_store_refines_history (ops : list (store_op V)) :
  run_timed 0 ops ->
  exists h, hist_run ∅ ops (store_run VersionStore_new ops).2 h /\
    forall r s, run_low 0 0 ops <= s < TS_INF ->
      VersionStore_read (store_run VersionStore_new ops).1 r s = hist_read h r s /\
      VersionStore_exists (store_run VersionStore_new ops).1 r s
        = bool_decide (is_Some (hist_read h r s)).
Proof.
  intros Ht.
  destruct (store_run_sim 0 0 VersionStore_new ∅ ops) as (h & now & Hrun & Hrel); [|lia|done|].
  - intros r. unfold VersionStore_new. simpl. rewrite lookup_empty. simpl.
    intros. unfold hist_read. by rewrite lookup_empty.
  - exists h. split; [done|]. intros r s Hs.
    assert (VersionStore_read (store_run VersionStore_new ops).1 r s = hist_read h r s) as Heq.
    { rewrite store_read_view. specialize (Hrel r).
      destruct (vs_chains _ !! r) as [c|]; simpl in Hrel.
      - apply Hrel. done.
      - symmetry. by apply Hrel. }
    by rewrite store_exists_read, Heq.
Qed.
End refinement.

Definition demo_store_ops : list (store_op Z) :=
  [OpInsert 7 1 {["a" := 10]}; OpUpdate 7 3 {["a" := 11]}; OpDelete 8 4; OpGc 3;
   OpDelete 7 5; OpUpdate 9 6 ∅].

Lemma version_store_refines_history_witness :
  exists h, hist_run ∅ demo_store_ops [true; true; false; true; true; false] h /\
    hist_read h 7 4 = Some {["a" := 11]} /\ hist_read h 7 5 = None.
Proof.
  destruct (version_store_refines_history demo_store_ops) as (h & Hrun & Hread).
  - simpl. unfold TS_INF. repeat split; lia.
  - exists h. split; [exact Hrun|]. split.
    + rewrite <-(proj1 (Hread 7 4 ltac:(split; vm_compute; [discriminate|reflexivity]))).
      vm_compute. reflexivity.
    + rewrite <-(proj1 (Hread 7 5 ltac:(split; vm_compute; [discriminate|reflexivity]))).
      vm_compute. reflexivity.
Defined.
