(* ===== verification/Snapshot.v ===== *)
(** * Snapshots and the garbage collector

    Models [storage/mvcc/snapshot.rs] ([Snapshot], [SnapshotManager]) and
    [storage/mvcc/gc.rs] ([GarbageCollector]).  The process-global counters are
    threaded explicitly; wall-clock time is an argument. *)
From S2P Require Import Prelude VersionStore.
Local Open Scope Z_scope.

(** ** Snapshots *)

Record Snapshot := mkSnapshot {
  sn_id : Z;
  sn_read_ts : Z;
  sn_read_only : bool
}.

Definition Snapshot_is_visible (sn : Snapshot) (begin_ts end_ts : Z) : bool :=
  (begin_ts <=? sn_read_ts sn) && (sn_read_ts sn <? end_ts).

Record SnapshotManager := mkSnapshotManager {
  sm_active : gmap Z Snapshot;
  sm_oldest_active_ts : Z
}.

Definition SnapshotManager_new : SnapshotManager := mkSnapshotManager ∅ U64_MAX.

(** [NEXT_SNAPSHOT_ID.fetch_add(1)] *)
Definition next_snapshot_id (counter : Z) : Z * Z := (counter, wrap64 (counter + 1)).

(** The map insertion, then [oldest_active_ts.fetch_min(ts)]. *)
Definition SnapshotManager_register (sm : SnapshotManager) (snap : Snapshot) : SnapshotManager :=
  mkSnapshotManager (<[sn_id snap := snap]> (sm_active sm))
    (Z.min (sm_oldest_active_ts sm) (sn_read_ts snap)).

(** Arguments: [GLOBAL_TS] and [NEXT_SNAPSHOT_ID]; results: the snapshot, the new
    counters and the manager. *)
Definition create_snapshot (global_ts next_id : Z) (sm : SnapshotManager)
    : Snapshot * Z * SnapshotManager :=
  let '(id, next_id') := next_snapshot_id next_id in
  let snap := mkSnapshot id (current_timestamp global_ts) true in
  (snap, next_id', SnapshotManager_register sm snap).

Definition create_rw_snapshot (global_ts next_id : Z) (sm : SnapshotManager)
    : Snapshot * Z * Z * SnapshotManager :=
  let '(ts, global_ts') := next_timestamp global_ts in
  let '(id, next_id') := next_snapshot_id next_id in
  let snap := mkSnapshot id ts false in
  (snap, global_ts', next_id', SnapshotManager_register sm snap).

(** [active.values().map(|s| s.read_ts).min()] *)
Definition min_read_ts (active : gmap Z Snapshot) : option Z :=
  map_fold (fun _ s acc =>
    match acc with
    | None => Some (sn_read_ts s)
    | Some m => Some (Z.min m (sn_read_ts s))
    end) None active.

Definition SnapshotManager_release (sm : SnapshotManager) (snapshot_id : Z) : SnapshotManager :=
  let active := delete snapshot_id (sm_active sm) in
  mkSnapshotManager active (default U64_MAX (min_read_ts active)).

Definition oldest_active_timestamp (sm : SnapshotManager) : Z := sm_oldest_active_ts sm.

Definition SnapshotManager_active_count (sm : SnapshotManager) : nat := size (sm_active sm).

Definition has_active_snapshots (sm : SnapshotManager) : bool :=
  negb (bool_decide (sm_active sm = ∅)).

Definition get_snapshot (sm : SnapshotManager) (id : Z) : option Snapshot := sm_active sm !! id.

(** ** Garbage collector *)

Record GcConfig := mkGcConfig {
  gc_interval_millis : Z;
  gc_min_versions : Z;
  gc_enabled : bool
}.

(** 60 s, 1000 versions, enabled. *)
Definition GcConfig_default : GcConfig := mkGcConfig (60 * 1000) 1000 true.

Record GcStats := mkGcStats {
  gs_versions_removed : Z;
  gs_oldest_active_ts : Z
}.

Record GarbageCollector := mkGarbageCollector {
  gc_config : GcConfig;
  gc_last_run : Z;
  gc_running : bool;
  gc_total_removed : Z
}.

Definition GarbageCollector_new : GarbageCollector :=
  mkGarbageCollector GcConfig_default 0 false 0.

Section collector.
Context {V : Type}.

Definition GarbageCollector_should_run (gc : GarbageCollector) (st : VersionStore V)
    (now_millis : Z) : bool :=
  if negb (gc_enabled (gc_config gc)) then false
  else if gc_running gc then false
  else if vs_total_versions st <? gc_min_versions (gc_config gc) then false
  else gc_interval_millis (gc_config gc) <=? saturating_sub64 now_millis (gc_last_run gc).

(** The compare-exchange on [running], the store collection, the statistics. *)
Definition GarbageCollector_run (gc : GarbageCollector) (st : VersionStore V)
    (sm : SnapshotManager) (now_millis : Z)
    : GarbageCollector * VersionStore V * option GcStats :=
  if gc_running gc then (gc, st, None)
  else
    let oldest_active_ts := oldest_active_timestamp sm in
    let '(st', removed) := VersionStore_gc st oldest_active_ts in
    (mkGarbageCollector (gc_config gc) now_millis false
       (wrap64 (gc_total_removed gc + removed)),
     st', Some (mkGcStats removed oldest_active_ts)).

Definition GarbageCollector_maybe_run (gc : GarbageCollector) (st : VersionStore V)
    (sm : SnapshotManager) (now_millis : Z)
    : GarbageCollector * VersionStore V * option GcStats :=
  if GarbageCollector_should_run gc st now_millis
  then GarbageCollector_run gc st sm now_millis
  else (gc, st, None).
End collector.

(** ** Properties *)

(** The cached minimum is the minimum over the registered snapshots. *)
Definition is_oldest (active : gmap Z Snapshot) (m : Z) : Prop :=
  map_Forall (fun _ s => m <= sn_read_ts s) active /\
  (m = U64_MAX \/ exists id s, active !! id = Some s /\ sn_read_ts s = m).

Definition sm_wf (sm : SnapshotManager) : Prop :=
  is_oldest (sm_active sm) (sm_oldest_active_ts sm) /\
  map_Forall (fun id s => sn_id s = id /\ sn_read_ts s < TS_INF) (sm_active sm).

Lemma min_read_ts_spec active :
  match min_read_ts active with
  | None => active = ∅
  | Some m => map_Forall (fun _ s => m <= sn_read_ts s) active /\
              exists id s, active !! id = Some s /\ sn_read_ts s = m
  end.
Proof.
  unfold min_read_ts.
  induction active as [|i x m Hi Hf IH] using map_first_key_ind.
  - by rewrite map_fold_empty.
  - rewrite map_fold_insert_first_key by done.
    destruct (map_fold _ _ m) as [y|].
    + destruct IH as [Hall (id & s & Hs & He)]. split.
      * apply map_Forall_insert_2; [lia|].
        eapply map_Forall_impl; [exact Hall|]. simpl. lia.
      * destruct (decide (y <= sn_read_ts x)).
        -- exists id, s. split; [|lia]. rewrite lookup_insert_ne; [done|congruence].
        -- exists i, x. rewrite lookup_insert_eq. split; [done|lia].
    + subst m. split.
      * apply map_Forall_insert_2; [lia|]. apply map_Forall_empty.
      * exists i, x. by rewrite lookup_insert_eq.
Qed.

Lemma SnapshotManager_new_wf : sm_wf SnapshotManager_new.
Proof. split; [split|]; [apply map_Forall_empty|by left|apply map_Forall_empty]. Qed.

Lemma SnapshotManager_register_wf sm snap :
  sm_wf sm -> sm_active sm !! sn_id snap = None -> sn_read_ts snap < TS_INF ->
  sm_wf (SnapshotManager_register sm snap).
Proof.
  intros ([Hall Hm] & Hid) Hf Hts. unfold SnapshotManager_register.
  split; [split|]; simpl.
  - apply map_Forall_insert_2; [lia|]. eapply map_Forall_impl; [exact Hall|]. simpl. lia.
  - right. destruct (decide (sm_oldest_active_ts sm <= sn_read_ts snap)).
    + destruct Hm as [Hm|(id & s & Hs & He)]; [unfold TS_INF in *; lia|].
      exists id, s. split; [|lia]. rewrite lookup_insert_ne; [done|congruence].
    + exists (sn_id snap), snap. rewrite lookup_insert_eq. split; [done|lia].
  - by apply map_Forall_insert_2.
Qed.

Lemma SnapshotManager_release_wf sm id : sm_wf sm -> sm_wf (SnapshotManager_release sm id).
Proof.
  intros (_ & Hid). unfold SnapshotManager_release. split; simpl.
  - pose proof (min_read_ts_spec (delete id (sm_active sm))) as Hm.
    destruct (min_read_ts _) as [m|]; simpl.
    + destruct Hm as [? ?]. split; [done|by right].
    + rewrite Hm. split; [apply map_Forall_empty|by left].
  - by apply map_Forall_delete.
Qed.

Lemma oldest_active_le sm id s :
  sm_wf sm -> sm_active sm !! id = Some s -> oldest_active_timestamp sm <= sn_read_ts s.
Proof. intros ([Hall _] & _) Hs. by apply (Hall id). Qed.

(** [u64::MAX] is returned exactly when no snapshot is registered. *)
Lemma oldest_active_max sm :
  sm_wf sm -> oldest_active_timestamp sm = U64_MAX <-> sm_active sm = ∅.
Proof.
  intros ([Hall Hm] & Hid). unfold oldest_active_timestamp. split.
  - intros He. apply map_empty. intros id. destruct (sm_active sm !! id) as [s|] eqn:Hs; [|done].
    apply Hall in Hs as H1. apply Hid in Hs as [_ H2]. simpl in *. unfold TS_INF in *. lia.
  - intros He. rewrite He in Hm. destruct Hm as [Hm|(id & s & Hs & _)]; [done|].
    by rewrite lookup_empty in Hs.
Qed.

#[export] Hint Resolve SnapshotManager_new_wf SnapshotManager_register_wf
  SnapshotManager_release_wf : apex.

(** C8 Collection preserves active snapshots: a run of the collector changes nothing
    that any active snapshot can read, in any row. *)
Theorem gc_run_preserves_active_snapshots {V} gc (st : VersionStore V) sm now id snap r :
  store_wf st -> sm_wf sm -> get_snapshot sm id = Some snap ->
  let '(_, st', _) := GarbageCollector_run gc st sm now in
  VersionStore_read st' r (sn_read_ts snap) = VersionStore_read st r (sn_read_ts snap) /\
  VersionStore_exists st' r (sn_read_ts snap) = VersionStore_exists st r (sn_read_ts snap).
Proof.
  intros Hst Hsm Hs. unfold GarbageCollector_run.
  destruct (gc_running gc); [done|].
  destruct (VersionStore_gc st _) as [st' removed] eqn:Hgc.
  assert (VersionStore_read st' r (sn_read_ts snap) = VersionStore_read st r (sn_read_ts snap)) as He.
  { replace st' with (VersionStore_gc st (oldest_active_timestamp sm)).1 by by rewrite Hgc.
    apply store_gc_read; [done| |left; by eapply oldest_active_le].
    by destruct Hsm as [_ Hid]; apply Hid in Hs as [_ ?]. }
  by rewrite !store_exists_read, He.
Qed.

Definition demo_store : VersionStore Z :=
  (VersionStore_update (VersionStore_insert VersionStore_new 7 1 {["a" := 10]}) 7 3 {["a" := 11]}).1.

Lemma demo_store_wf : store_wf demo_store.
Proof.
  intros r c. unfold demo_store, VersionStore_update, VersionStore_insert. simpl.
  rewrite lookup_insert_eq. simpl. intros [[<- <-]|[Hne Hc]]%lookup_insert_Some.
  - apply add_version_wf; [apply chain_new_wf|..]; vm_compute; try split; done || discriminate.
  - rewrite lookup_insert_ne, lookup_empty in Hc by done. done.
Qed.

Lemma gc_run_preserves_active_snapshots_witness :
  let '(_, st', removed) := GarbageCollector_run GarbageCollector_new demo_store
    (SnapshotManager_register SnapshotManager_new (mkSnapshot 1 2 true)) 0 in
  VersionStore_read st' 7 2 = Some {["a" := 10]}.
Proof.
  pose proof (gc_run_preserves_active_snapshots GarbageCollector_new demo_store
    (SnapshotManager_register SnapshotManager_new (mkSnapshot 1 2 true)) 0 1 (mkSnapshot 1 2 true) 7
    demo_store_wf) as H.
  refine (eq_trans (proj1 (H _ _)) _).
  - apply SnapshotManager_register_wf; [apply SnapshotManager_new_wf|reflexivity|reflexivity].
  - reflexivity.
  - vm_compute. reflexivity.
Defined.
