(* ===== verification/TxnContext.v ===== *)
(** * Transaction contexts

    Models [txn/context.rs]: buffered writes, the read set, savepoints and the
    per-table bookkeeping a transaction keeps until it commits. *)
From S2P Require Import Prelude.
Local Open Scope Z_scope.

(** ** Data *)

(** A buffered write operation. *)
Inductive TxnWrite (V : Type) :=
| TxnInsert (table : string) (row_id : Z) (data : gmap string V)
| TxnUpdate (table : string) (row_id : Z) (old_data new_data : gmap string V)
| TxnDelete (table : string) (row_id : Z) (old_data : gmap string V).
Arguments TxnInsert {V}.
Arguments TxnUpdate {V}.
Arguments TxnDelete {V}.

Record ReadRecord := mkReadRecord {
  rr_table : string;
  rr_row_id : Z;
  rr_version_ts : Z
}.

Record TxnContext (V : Type) := mkTxnContext {
  tc_txn_id : Z;
  tc_snapshot_ts : Z;
  tc_read_set : list ReadRecord;
  tc_write_set : list (TxnWrite V);
  tc_write_keys : gset (string * Z);
  tc_pending_insert_counts : gmap string Z;
  tc_insert_base_ids : gmap string Z;
  tc_tables_touched : gset string;
  tc_read_only : bool;
  tc_finished : bool;
  tc_savepoints : list (string * nat)
}.
Arguments mkTxnContext {V}.
Arguments tc_txn_id {V}.
Arguments tc_snapshot_ts {V}.
Arguments tc_read_set {V}.
Arguments tc_write_set {V}.
Arguments tc_write_keys {V}.
Arguments tc_pending_insert_counts {V}.
Arguments tc_insert_base_ids {V}.
Arguments tc_tables_touched {V}.
Arguments tc_read_only {V}.
Arguments tc_finished {V}.
Arguments tc_savepoints {V}.

(** [Iterator::rposition]: the index of the last element satisfying [f]. *)
Fixpoint rposition {A} (f : A -> bool) (l : list A) : option nat :=
  match l with
  | [] => None
  | x :: l =>
      match rposition f l with
      | Some i => Some (S i)
      | None => if f x then Some 0%nat else None
      end
  end.

(** ** Operations *)

Section operations.
Context {V : Type}.
Implicit Types (ctx : TxnContext V) (w : TxnWrite V) (data : gmap string V).

Definition TxnWrite_table w : string :=
  match w with TxnInsert t _ _ | TxnUpdate t _ _ _ | TxnDelete t _ _ => t end.

Definition TxnWrite_row_id w : Z :=
  match w with TxnInsert _ r _ | TxnUpdate _ r _ _ | TxnDelete _ r _ => r end.

Definition TxnContext_new (txn_id snapshot_ts : Z) (read_only : bool) : TxnContext V :=
  mkTxnContext txn_id snapshot_ts [] [] ∅ ∅ ∅ ∅ read_only false [].

Definition set_finished ctx : TxnContext V :=
  mkTxnContext (tc_txn_id ctx) (tc_snapshot_ts ctx) (tc_read_set ctx) (tc_write_set ctx)
    (tc_write_keys ctx) (tc_pending_insert_counts ctx) (tc_insert_base_ids ctx)
    (tc_tables_touched ctx) (tc_read_only ctx) true (tc_savepoints ctx).

Definition record_read ctx (table : string) (row_id version_ts : Z) : TxnContext V :=
  mkTxnContext (tc_txn_id ctx) (tc_snapshot_ts ctx)
    (tc_read_set ctx ++ [mkReadRecord table row_id version_ts]) (tc_write_set ctx)
    (tc_write_keys ctx) (tc_pending_insert_counts ctx) (tc_insert_base_ids ctx)
    ({[table]} ∪ tc_tables_touched ctx) (tc_read_only ctx) (tc_finished ctx)
    (tc_savepoints ctx).

(** [*counts.entry(table).or_insert(0) += 1] *)
Definition count_insert (counts : gmap string Z) (table : string) : gmap string Z :=
  <[table := wrap64 (default 0 (counts !! table) + 1)]> counts.

(** What the three [buffer_*] calls share after their checks. *)
Definition push_write ctx (counts : gmap string Z) w : TxnContext V :=
  mkTxnContext (tc_txn_id ctx) (tc_snapshot_ts ctx) (tc_read_set ctx)
    (tc_write_set ctx ++ [w])
    ({[(TxnWrite_table w, TxnWrite_row_id w)]} ∪ tc_write_keys ctx)
    counts (tc_insert_base_ids ctx)
    ({[TxnWrite_table w]} ∪ tc_tables_touched ctx) (tc_read_only ctx) (tc_finished ctx)
    (tc_savepoints ctx).

Definition buffer_insert ctx (table : string) (row_id : Z) data
    : TxnContext V * Result unit :=
  if tc_read_only ctx then (ctx, Err PermissionDenied)
  else if bool_decide ((table, row_id) ∈ tc_write_keys ctx) then (ctx, Err AlreadyExists)
  else (push_write ctx (count_insert (tc_pending_insert_counts ctx) table)
          (TxnInsert table row_id data), Ok tt).

Definition buffer_update ctx (table : string) (row_id : Z) (old_data new_data : gmap string V)
    : TxnContext V * Result unit :=
  if tc_read_only ctx then (ctx, Err PermissionDenied)
  else (push_write ctx (tc_pending_insert_counts ctx)
          (TxnUpdate table row_id old_data new_data), Ok tt).

Definition buffer_delete ctx (table : string) (row_id : Z) (old_data : gmap string V)
    : TxnContext V * Result unit :=
  if tc_read_only ctx then (ctx, Err PermissionDenied)
  else (push_write ctx (tc_pending_insert_counts ctx)
          (TxnDelete table row_id old_data), Ok tt).

Definition pending_insert_count ctx (table : string) : Z :=
  default 0 (tc_pending_insert_counts ctx !! table).

Definition insert_base_id ctx (table : string) : option Z := tc_insert_base_ids ctx !! table.

(** [entry(table).or_insert(base_id)] *)
Definition remember_insert_base_id ctx (table : string) (base_id : Z) : TxnContext V :=
  mkTxnContext (tc_txn_id ctx) (tc_snapshot_ts ctx) (tc_read_set ctx) (tc_write_set ctx)
    (tc_write_keys ctx) (tc_pending_insert_counts ctx)
    (match tc_insert_base_ids ctx !! table with
     | Some _ => tc_insert_base_ids ctx
     | None => <[table := base_id]> (tc_insert_base_ids ctx)
     end)
    (tc_tables_touched ctx) (tc_read_only ctx) (tc_finished ctx) (tc_savepoints ctx).

Definition write_count ctx : nat := length (tc_write_set ctx).

Definition has_writes ctx : bool := negb (bool_decide (tc_write_set ctx = [])).

Definition undo_operations ctx : list (TxnWrite V) := reverse (tc_write_set ctx).

(** [mem::take(&mut self.write_set)] *)
Definition take_write_set ctx : TxnContext V * list (TxnWrite V) :=
  (mkTxnContext (tc_txn_id ctx) (tc_snapshot_ts ctx) (tc_read_set ctx) []
     (tc_write_keys ctx) (tc_pending_insert_counts ctx) (tc_insert_base_ids ctx)
     (tc_tables_touched ctx) (tc_read_only ctx) (tc_finished ctx) (tc_savepoints ctx),
   tc_write_set ctx).

Definition savepoint ctx (name : string) : TxnContext V :=
  mkTxnContext (tc_txn_id ctx) (tc_snapshot_ts ctx) (tc_read_set ctx) (tc_write_set ctx)
    (tc_write_keys ctx) (tc_pending_insert_counts ctx) (tc_insert_base_ids ctx)
    (tc_tables_touched ctx) (tc_read_only ctx) (tc_finished ctx)
    (tc_savepoints ctx ++ [(name, length (tc_write_set ctx))]).

(** One iteration of the loop of [rebuild_write_indexes]. *)
Definition index_write (idx : gset (string * Z) * gmap string Z) w
    : gset (string * Z) * gmap string Z :=
  let '(keys, counts) := idx in
  ({[(TxnWrite_table w, TxnWrite_row_id w)]} ∪ keys,
   match w with
   | TxnInsert table _ _ => count_insert counts table
   | _ => counts
   end).

Definition write_indexes (ws : list (TxnWrite V)) : gset (string * Z) * gmap string Z :=
  fold_left index_write ws (∅, ∅).

(** [self.write_set] and [self.savepoints] truncated, the indexes rebuilt. *)
Definition rebuild_write_indexes ctx (ws : list (TxnWrite V)) (sps : list (string * nat))
    : TxnContext V :=
  mkTxnContext (tc_txn_id ctx) (tc_snapshot_ts ctx) (tc_read_set ctx) ws
    (write_indexes ws).1 (write_indexes ws).2 (tc_insert_base_ids ctx)
    (tc_tables_touched ctx) (tc_read_only ctx) (tc_finished ctx) sps.

Definition rollback_to_savepoint ctx (name : string) : TxnContext V * Result unit :=
  match rposition (fun sp => bool_decide (sp.1 = name)) (tc_savepoints ctx) with
  | Some pos =>
      match tc_savepoints ctx !! pos with
      | Some (_, ws_len) =>
          (rebuild_write_indexes ctx (take ws_len (tc_write_set ctx))
             (take pos (tc_savepoints ctx)), Ok tt)
      | None => (ctx, Err NotFound)
      end
  | None => (ctx, Err NotFound)
  end.

Definition release_savepoint ctx (name : string) : TxnContext V * Result unit :=
  match rposition (fun sp => bool_decide (sp.1 = name)) (tc_savepoints ctx) with
  | Some pos =>
      (mkTxnContext (tc_txn_id ctx) (tc_snapshot_ts ctx) (tc_read_set ctx) (tc_write_set ctx)
         (tc_write_keys ctx) (tc_pending_insert_counts ctx) (tc_insert_base_ids ctx)
         (tc_tables_touched ctx) (tc_read_only ctx) (tc_finished ctx)
         (delete pos (tc_savepoints ctx)), Ok tt)
  | None => (ctx, Err NotFound)
  end.

Definition TxnContext_clear ctx : TxnContext V :=
  mkTxnContext (tc_txn_id ctx) (tc_snapshot_ts ctx) [] [] ∅ ∅ ∅ ∅ (tc_read_only ctx) true [].

(** ** The calls a statement makes on its context *)

Inductive ctx_op :=
| CtxRecordRead (table : string) (row_id version_ts : Z)
| CtxInsert (table : string) (row_id : Z) (data : gmap string V)
| CtxUpdate (table : string) (row_id : Z) (old_data new_data : gmap string V)
| CtxDelete (table : string) (row_id : Z) (old_data : gmap string V)
| CtxRememberBase (table : string) (base_id : Z)
| CtxSavepoint (name : string)
| CtxRollbackTo (name : string)
| CtxRelease (name : string).

Definition ctx_apply ctx (op : ctx_op) : TxnContext V * Result unit :=
  match op with
  | CtxRecordRead t r ts => (record_read ctx t r ts, Ok tt)
  | CtxInsert t r d => buffer_insert ctx t r d
  | CtxUpdate t r o n => buffer_update ctx t r o n
  | CtxDelete t r o => buffer_delete ctx t r o
  | CtxRememberBase t b => (remember_insert_base_id ctx t b, Ok tt)
  | CtxSavepoint n => (savepoint ctx n, Ok tt)
  | CtxRollbackTo n => rollback_to_savepoint ctx n
  | CtxRelease n => release_savepoint ctx n
  end.

(** A sequence of calls whose individual failures are ignored. *)
Definition ctx_run ctx (ops : list ctx_op) : TxnContext V :=
  fold_left (fun c op => (ctx_apply c op).1) ops ctx.
End operations.
Arguments ctx_op : clear implicits.

(** ** Well-formed contexts *)

Section theory.
Context {V : Type}.
Implicit Types (ctx : TxnContext V) (w : TxnWrite V) (ws : list (TxnWrite V)) (op : ctx_op V).

Definition write_key w : string * Z := (TxnWrite_table w, TxnWrite_row_id w).

(** Savepoint positions are in order and inside the write set. *)
Definition savepoints_wf (sps : list (string * nat)) (len : nat) : Prop :=
  (forall i j a b, (i < j)%nat -> sps !! i = Some a -> sps !! j = Some b -> (a.2 <= b.2)%nat) /\
  Forall (fun sp => (sp.2 <= len)%nat) sps.

(** An insert is the first write of its row. *)
Definition inserts_first ws : Prop :=
  forall i j t r d w, ws !! i = Some (TxnInsert t r d) -> (j < i)%nat -> ws !! j = Some w ->
    write_key w <> (t, r).

Definition ctx_wf ctx : Prop :=
  write_indexes (tc_write_set ctx) = (tc_write_keys ctx, tc_pending_insert_counts ctx) /\
  (tc_read_only ctx = true -> tc_write_set ctx = []) /\
  inserts_first (tc_write_set ctx) /\
  savepoints_wf (tc_savepoints ctx) (length (tc_write_set ctx)).

(** The parts no call on a context changes. *)
Definition ctx_same_txn ctx ctx' : Prop :=
  tc_txn_id ctx' = tc_txn_id ctx /\ tc_snapshot_ts ctx' = tc_snapshot_ts ctx /\
  tc_read_only ctx' = tc_read_only ctx /\ tc_finished ctx' = tc_finished ctx.

Lemma write_indexes_snoc ws w : write_indexes (ws ++ [w]) = index_write (write_indexes ws) w.
Proof. unfold write_indexes. by rewrite fold_left_app. Qed.

Lemma write_indexes_keys ws k : k ∈ (write_indexes ws).1 <-> exists w, w ∈ ws /\ write_key w = k.
Proof.
  induction ws as [|w ws IH] using rev_ind.
  - simpl. set_solver.
  - rewrite write_indexes_snoc. destruct (write_indexes ws) as [ks cs]. simpl in *.
    rewrite elem_of_union, elem_of_singleton, IH. setoid_rewrite elem_of_app.
    setoid_rewrite list_elem_of_singleton. unfold write_key. naive_solver.
Qed.

Definition is_insert_into (t : string) w : bool :=
  match w with TxnInsert t' _ _ => bool_decide (t' = t) | _ => false end.

Lemma wrap64_succ x : wrap64 (wrap64 x + 1) = wrap64 (x + 1).
Proof. unfold wrap64. by rewrite Zplus_mod_idemp_l. Qed.

Lemma count_insert_lookup cs t t' :
  default 0 (count_insert cs t !! t') =
    if decide (t = t') then wrap64 (default 0 (cs !! t') + 1) else default 0 (cs !! t').
Proof. unfold count_insert. rewrite lookup_insert. by case_decide; subst. Qed.

(** The per-table counter is the number of inserts buffered, as a [u64]. *)
Lemma write_indexes_counts ws t :
  default 0 ((write_indexes ws).2 !! t) =
    wrap64 (Z.of_nat (length (List.filter (is_insert_into t) ws))).
Proof.
  induction ws as [|w ws IH] using rev_ind; [done|].
  rewrite write_indexes_snoc, List.filter_app, length_app.
  destruct (write_indexes ws) as [ks cs]. simpl in *.
  destruct w as [t' r d|t' r o n|t' r o]; simpl; [|by rewrite Nat.add_0_r..].
  rewrite count_insert_lookup, IH. unfold is_insert_into.
  case_decide; [rewrite bool_decide_eq_true_2 by done|rewrite bool_decide_eq_false_2 by done];
    simpl; [|by rewrite Nat.add_0_r].
  rewrite wrap64_succ. f_equal. lia.
Qed.

Lemma rposition_Some {A} (f : A -> bool) l i :
  rposition f l = Some i -> exists x, l !! i = Some x /\ f x = true.
Proof.
  revert i. induction l as [|y l IH]; intros i; [done|]. simpl.
  destruct (rposition f l) as [j|].
  - intros [= <-]. apply (IH j eq_refl).
  - destruct (f y) eqn:Hy; [|done]. intros [= <-]. by exists y.
Qed.

Lemma rposition_None {A} (f : A -> bool) l :
  Forall (fun x => f x = false) l -> rposition f l = None.
Proof. induction 1 as [|x l Hx _ IH]; [done|]. simpl. by rewrite IH, Hx. Qed.

Lemma rposition_app_last {A} (f : A -> bool) l x k :
  f x = true -> Forall (fun y => f y = false) k -> rposition f (l ++ x :: k) = Some (length l).
Proof.
  intros Hx Hk. induction l as [|y l IH]; simpl.
  - by rewrite rposition_None, Hx.
  - by rewrite IH.
Qed.

Lemma savepoints_wf_take sps len pos sp :
  savepoints_wf sps len -> sps !! pos = Some sp -> savepoints_wf (take pos sps) sp.2.
Proof.
  intros [Ho Hb] Hsp. split.
  - intros i j a b Hij [Ha _]%lookup_take_Some [Hb' _]%lookup_take_Some. eauto.
  - apply Forall_lookup. intros i a [Ha ?]%lookup_take_Some. eauto.
Qed.

Lemma savepoints_wf_delete sps len pos :
  savepoints_wf sps len -> savepoints_wf (delete pos sps) len.
Proof.
  intros [Ho Hb]. rewrite Forall_lookup in Hb.
  assert (Hd : forall i a, delete pos sps !! i = Some a ->
            sps !! (if decide (i < pos)%nat then i else S i) = Some a).
  { intros i a. case_decide.
    - by rewrite list_lookup_delete_lt by done.
    - by rewrite list_lookup_delete_ge by lia. }
  split.
  - intros i j a b Hij Ha%Hd Hb'%Hd. eapply Ho; [|exact Ha|exact Hb'].
    repeat case_decide; lia.
  - apply Forall_lookup. intros i a Ha%Hd. eauto.
Qed.

Lemma inserts_first_prefix ws n : inserts_first ws -> inserts_first (take n ws).
Proof.
  intros H i j t r d w [Hi _]%lookup_take_Some Hji [Hj _]%lookup_take_Some. eauto.
Qed.

Lemma inserts_first_snoc ws w :
  inserts_first ws ->
  (forall t r d, w = TxnInsert t r d -> (t, r) ∉ (write_indexes ws).1) ->
  inserts_first (ws ++ [w]).
Proof.
  intros H Hw i j t r d w' Hi Hji Hj.
  assert (j < length ws)%nat as Hlen.
  { apply lookup_lt_Some in Hi. rewrite length_app in Hi. simpl in Hi. lia. }
  rewrite lookup_app_l in Hj by done.
  apply lookup_app_Some in Hi as [Hi|[Hge Hi]]; [eauto|].
  apply list_lookup_singleton_Some in Hi as [_ ->].
  intros Hk. apply (Hw _ _ _ eq_refl). apply write_indexes_keys.
  exists w'. split; [|done]. by eapply list_elem_of_lookup_2.
Qed.

Lemma ctx_new_wf txn_id ts ro : ctx_wf (TxnContext_new txn_id ts ro : TxnContext V).
Proof.
  unfold ctx_wf, inserts_first, savepoints_wf. simpl. split_and!; try done; by intros; simplify_eq.
Qed.

Lemma push_write_wf ctx w :
  ctx_wf ctx -> tc_read_only ctx = false ->
  (forall t r d, w = TxnInsert t r d -> (t, r) ∉ tc_write_keys ctx) ->
  ctx_wf (push_write ctx (index_write (tc_write_keys ctx, tc_pending_insert_counts ctx) w).2 w).
Proof.
  intros (Hidx & Hro & Hfirst & Hsp) Hr Hfresh. unfold ctx_wf, push_write. simpl. split_and!.
  - rewrite write_indexes_snoc, Hidx. done.
  - by rewrite Hr.
  - apply inserts_first_snoc; [done|]. by rewrite Hidx.
  - destruct Hsp as [Ho Hb]. split; [done|]. eapply Forall_impl; [exact Hb|].
    simpl. intros. rewrite length_app. lia.
Qed.

Lemma rollback_to_savepoint_wf ctx name :
  ctx_wf ctx -> ctx_wf (rollback_to_savepoint ctx name).1.
Proof.
  intros Hwf. unfold rollback_to_savepoint.
  destruct (rposition _ _) as [pos|]; [|done].
  destruct (tc_savepoints ctx !! pos) as [[n len]|] eqn:Hsp; [|done]. simpl.
  destruct Hwf as (Hidx & Hro & Hfirst & Hspwf). unfold ctx_wf. simpl. split_and!.
  - apply surjective_pairing.
  - intros Hr. by rewrite Hro, take_nil.
  - by apply inserts_first_prefix.
  - pose proof (savepoints_wf_take _ _ _ _ Hspwf Hsp) as [Ho Hb]. split; [done|].
    rewrite length_take_le; [done|].
    destruct Hspwf as [_ Hlen]. rewrite Forall_lookup in Hlen. by apply Hlen in Hsp.
Qed.

(** The invariant of [TxnContext], preserved by every call. *)
Lemma ctx_apply_wf ctx op : ctx_wf ctx -> ctx_wf (ctx_apply ctx op).1.
Proof.
  intros Hwf. destruct op as [t r ts|t r d|t r o n|t r o|t b|n|n|n]; simpl.
  - done.
  - unfold buffer_insert. destruct (tc_read_only ctx) eqn:Hr; [done|].
    case_bool_decide as Hk; [done|]. simpl.
    apply (push_write_wf ctx (TxnInsert t r d)); [done..|]. by intros ??? [= <- <- <-].
  - unfold buffer_update. destruct (tc_read_only ctx) eqn:Hr; [done|].
    by apply (push_write_wf ctx (TxnUpdate t r o n)).
  - unfold buffer_delete. destruct (tc_read_only ctx) eqn:Hr; [done|].
    by apply (push_write_wf ctx (TxnDelete t r o)).
  - done.
  - destruct Hwf as (? & ? & ? & [Ho Hb]). unfold ctx_wf. simpl. split_and!; [done..|]. split.
    + intros i j a b Hij Ha Hb'.
      apply lookup_app_Some in Hb' as [Hb'|[Hge Hb']].
      * rewrite lookup_app_l in Ha by (apply lookup_lt_Some in Hb'; lia). eauto.
      * apply list_lookup_singleton_Some in Hb' as [? <-]. simpl.
        rewrite lookup_app_l in Ha by lia. rewrite Forall_lookup in Hb. by apply Hb in Ha.
    + apply Forall_snoc. split; [done|]. simpl. lia.
  - by apply rollback_to_savepoint_wf.
  - unfold release_savepoint. destruct (rposition _ _) as [pos|]; [|done].
    destruct Hwf as (? & ? & ? & ?). unfold ctx_wf. simpl.
    split_and!; [done..|]. by apply savepoints_wf_delete.
Qed.

Lemma ctx_run_wf ctx ops : ctx_wf ctx -> ctx_wf (ctx_run ctx ops).
Proof.
  revert ctx. induction ops as [|op ops IH]; intros ctx Hwf; [done|].
  simpl. by apply IH, ctx_apply_wf.
Qed.

Lemma ctx_apply_same_txn ctx op : ctx_same_txn ctx (ctx_apply ctx op).1.
Proof.
  unfold ctx_same_txn. destruct op; simpl;
    unfold buffer_insert, buffer_update, buffer_delete, rollback_to_savepoint, release_savepoint;
    repeat case_match; done.
Qed.

Lemma ctx_run_same_txn ctx ops : ctx_same_txn ctx (ctx_run ctx ops).
Proof.
  revert ctx. induction ops as [|op ops IH]; intros ctx; [done|].
  simpl. specialize (IH (ctx_apply ctx op).1). pose proof (ctx_apply_same_txn ctx op).
  unfold ctx_same_txn in *. unfold ctx_run in *. intuition congruence.
Qed.

(** *** Savepoints *)

Definition ctx_op_savepoint op : option string :=
  match op with CtxSavepoint n | CtxRollbackTo n | CtxRelease n => Some n | _ => None end.

(** [op] names no savepoint among [names]. *)
Definition op_avoids (names : list string) op : Prop :=
  forall n, ctx_op_savepoint op = Some n -> n ∉ names.

(** The state reached between a savepoint and the rollback to it. *)
Definition ctx_extends ctx (name : string) ctx' : Prop :=
  (exists ws, tc_write_set ctx' = tc_write_set ctx ++ ws) /\
  exists sps, tc_savepoints ctx' =
      tc_savepoints ctx ++ (name, length (tc_write_set ctx)) :: sps /\
    Forall (fun sp => sp.1 <> name /\ (length (tc_write_set ctx) <= sp.2)%nat) sps.

Lemma rposition_extends ctx name ctx' n :
  ctx_extends ctx name ctx' -> n <> name -> n ∉ (tc_savepoints ctx).*1 ->
  forall pos, rposition (fun sp => bool_decide (sp.1 = n)) (tc_savepoints ctx') = Some pos ->
  (S (length (tc_savepoints ctx)) <= pos)%nat.
Proof.
  intros (_ & sps & Hsp & _) Hn Hout pos Hpos.
  apply rposition_Some in Hpos as ([n' k] & Hl & He). apply bool_decide_eq_true in He.
  simpl in He. subst n'. rewrite Hsp in Hl.
  apply lookup_app_Some in Hl as [Hl|[Hge Hl]].
  - exfalso. apply Hout. apply list_elem_of_fmap. exists (n, k). split; [done|].
    by eapply list_elem_of_lookup_2.
  - destruct (pos - length (tc_savepoints ctx))%nat eqn:Hd; simpl in Hl; [by simplify_eq|lia].
Qed.

Lemma ctx_extends_apply ctx name ctx' op :
  ctx_extends ctx name ctx' -> op_avoids (name :: (tc_savepoints ctx).*1) op ->
  ctx_extends ctx name (ctx_apply ctx' op).1.
Proof.
  intros Hext Hav.
  assert (Hpush : forall cs w, ctx_extends ctx name (push_write ctx' cs w)).
  { intros cs w. destruct Hext as ([ws Hws] & Hsp). split; [|done].
    exists (ws ++ [w]). simpl. by rewrite Hws, <-app_assoc. }
  pose proof (rposition_extends ctx name ctx') as Hpos.
  destruct op as [t r ts|t r d|t r o n|t r o|t b|n|n|n]; simpl.
  - done.
  - unfold buffer_insert. repeat case_match; try done. by apply Hpush.
  - unfold buffer_update. repeat case_match; try done. by apply Hpush.
  - unfold buffer_delete. repeat case_match; try done. by apply Hpush.
  - done.
  - destruct Hext as ([ws Hws] & sps & Hsp & Hall). split; [by exists ws|].
    exists (sps ++ [(n, length (tc_write_set ctx'))]). simpl. split.
    + by rewrite Hsp, <-app_assoc.
    + apply Forall_snoc. split; [done|]. simpl. split.
      * intros ->. apply (Hav name eq_refl). by left.
      * rewrite Hws, length_app. lia.
  - unfold rollback_to_savepoint.
    destruct (rposition _ _) as [pos|] eqn:Hp; [|done].
    assert (S (length (tc_savepoints ctx)) <= pos)%nat as Hge.
    { apply (Hpos n Hext); [| |done]; specialize (Hav n eq_refl); set_solver. }
    destruct (tc_savepoints ctx' !! pos) as [[n' len]|] eqn:Hl; [|done]. simpl.
    destruct Hext as ([ws Hws] & sps & Hsp & Hall).
    rewrite Hsp, lookup_app_r in Hl by lia.
    destruct (pos - length (tc_savepoints ctx))%nat as [|q] eqn:Hq; [lia|]. simpl in Hl.
    rewrite Forall_lookup in Hall. destruct (Hall _ _ Hl) as [_ Hlen]. simpl in Hlen.
    split; simpl.
    + exists (take (len - length (tc_write_set ctx)) ws).
      rewrite Hws, take_app, take_ge by done. done.
    + exists (take q sps). split.
      * rewrite Hsp, take_app, take_ge by lia. rewrite Hq. done.
      * apply Forall_take, Forall_lookup. done.
  - unfold release_savepoint.
    destruct (rposition _ _) as [pos|] eqn:Hp; [|done].
    assert (S (length (tc_savepoints ctx)) <= pos)%nat as Hge.
    { apply (Hpos n Hext); [| |done]; specialize (Hav n eq_refl); set_solver. }
    destruct Hext as ([ws Hws] & sps & Hsp & Hall). split; [by exists ws|]. simpl.
    exists (delete (pos - S (length (tc_savepoints ctx)))%nat sps). split.
    + rewrite Hsp, delete_app_r by lia.
      replace (pos - length (tc_savepoints ctx))%nat
        with (S (pos - S (length (tc_savepoints ctx))))%nat by lia. done.
    + by apply Forall_delete.
Qed.

(** C9 Rolling back to a savepoint restores the writes: after a savepoint and any
    buffered calls that name neither it nor an older savepoint, the rollback succeeds and
    restores the write set, its two indexes and the list of savepoints. *)
Theorem rollback_to_savepoint_restores ctx name ops :
  ctx_wf ctx -> Forall (op_avoids (name :: (tc_savepoints ctx).*1)) ops ->
  let '(ctx', res) := rollback_to_savepoint (ctx_run (savepoint ctx name) ops) name in
  res = Ok tt /\
  tc_write_set ctx' = tc_write_set ctx /\ tc_write_keys ctx' = tc_write_keys ctx /\
  tc_pending_insert_counts ctx' = tc_pending_insert_counts ctx /\
  tc_savepoints ctx' = tc_savepoints ctx /\ ctx_same_txn ctx ctx'.
Proof.
  intros Hwf Hops.
  assert (Hext : ctx_extends ctx name (ctx_run (savepoint ctx name) ops)).
  { assert (H0 : ctx_extends ctx name (savepoint ctx name)).
    { split; [exists []; by rewrite app_nil_r|]. by exists []. }
    revert H0. generalize (savepoint ctx name) as c.
    induction Hops as [|op ops Hop _ IH]; intros c Hc; [done|].
    simpl. by apply IH, ctx_extends_apply. }
  pose proof (ctx_run_same_txn (savepoint ctx name) ops) as Hsame.
  generalize dependent (ctx_run (savepoint ctx name) ops). intros c Hext Hsame.
  destruct Hext as ([ws Hws] & sps & Hsp & Hall). unfold rollback_to_savepoint.
  rewrite Hsp, rposition_app_last; simpl.
  2: by apply bool_decide_eq_true_2.
  2: { eapply Forall_impl; [exact Hall|]. intros [n k] [Hn _]. by apply bool_decide_eq_false_2. }
  rewrite lookup_app_r, Nat.sub_diag by lia. simpl.
  rewrite Hws, !take_app_length.
  destruct Hwf as (Hidx & _). by rewrite Hidx.
Qed.
End theory.

Definition demo_ctx : TxnContext Z := (buffer_insert (TxnContext_new 1 1 false) "t" 7 {["a" := 10]}).1.

Definition demo_ctx_ops : list (@ctx_op Z) :=
  [CtxUpdate "t" 7 {["a" := 10]} {["a" := 11]}; CtxSavepoint "inner"; CtxDelete "t" 7 {["a" := 11]};
   CtxRollbackTo "inner"; CtxInsert "t" 8 ∅].

Lemma rollback_to_savepoint_restores_witness :
  tc_write_set (rollback_to_savepoint (ctx_run (savepoint demo_ctx "sp") demo_ctx_ops) "sp").1
    = tc_write_set demo_ctx.
Proof.
  pose proof (rollback_to_savepoint_restores demo_ctx "sp" demo_ctx_ops) as H.
  destruct (rollback_to_savepoint _ _) as [ctx' res]. apply H.
  - exact (ctx_apply_wf (TxnContext_new 1 1 false) (CtxInsert "t" 7 {["a" := 10]}) (ctx_new_wf 1 1 false)).
  - repeat constructor; intros n; simpl; intros ?; simplify_eq; set_solver.
Defined.
