(* ===== verification/Conflict.v ===== *)
(** * Optimistic conflict detection

    Models [txn/conflict.rs].  The committed-write log keeps its order; the
    iteration order of the key set, unspecified in the source, is that of
    [elements]: it decides which conflict is reported, never whether one is. *)
From S2P Require Import Prelude TxnContext.
Local Open Scope Z_scope.

Inductive ConflictResult :=
| NoConflict
| ReadWriteConflict (table : string) (row_id conflicting_txn : Z)
| WriteWriteConflict (table : string) (row_id conflicting_txn : Z).

Definition ConflictResult_is_ok (r : ConflictResult) : bool :=
  match r with NoConflict => true | _ => false end.

Definition to_io_result (r : ConflictResult) : Result unit :=
  match r with
  | NoConflict => Ok tt
  | ReadWriteConflict _ _ _ => Err WouldBlock
  | WriteWriteConflict _ _ _ => Err WouldBlock
  end.

Record CommittedWrite := mkCommittedWrite {
  cw_txn_id : Z;
  cw_commit_ts : Z;
  cw_table : string;
  cw_row_id : Z
}.

Record ConflictDetector := mkConflictDetector {
  cd_committed_writes : list CommittedWrite;
  cd_active_writes : gmap (string * Z) Z;
  cd_watermark : Z
}.

Definition ConflictDetector_new : ConflictDetector := mkConflictDetector [] ∅ 0.

(** The test of the inner loops of [validate]. *)
Definition conflicts_with (table : string) (row_id snapshot_ts txn_id : Z)
    (cw : CommittedWrite) : bool :=
  bool_decide (cw_table cw = table) && (cw_row_id cw =? row_id) &&
  (snapshot_ts <? cw_commit_ts cw) && negb (cw_txn_id cw =? txn_id).

Section validate_loop.
Context {K : Type} (key : K -> string * Z).
Context (committed : list CommittedWrite) (snapshot_ts txn_id : Z).

(** A [for] loop over keys around a [for] loop over the log, left at the first hit. *)
Fixpoint first_conflict (keys : list K) : option (K * CommittedWrite) :=
  match keys with
  | [] => None
  | k :: keys =>
      match List.find (conflicts_with (key k).1 (key k).2 snapshot_ts txn_id) committed with
      | Some cw => Some (k, cw)
      | None => first_conflict keys
      end
  end.
End validate_loop.

Definition read_key (r : ReadRecord) : string * Z := (rr_table r, rr_row_id r).

Section detector.
Context {V : Type}.
Implicit Types (ctx : TxnContext V) (cd : ConflictDetector).

Definition validate cd ctx : ConflictResult :=
  let committed := cd_committed_writes cd in
  let snapshot_ts := tc_snapshot_ts ctx in
  match first_conflict read_key committed snapshot_ts (tc_txn_id ctx) (tc_read_set ctx) with
  | Some (read, cw) => ReadWriteConflict (rr_table read) (rr_row_id read) (cw_txn_id cw)
  | None =>
      match first_conflict (fun k : string * Z => k) committed snapshot_ts (tc_txn_id ctx)
              (elements (tc_write_keys ctx)) with
      | Some (k, cw) => WriteWriteConflict k.1 k.2 (cw_txn_id cw)
      | None => NoConflict
      end
  end.

(** [for key in write_keys { if active.get(key) == Some(&txn_id) { active.remove(key) } }] *)
Definition release_keys (active : gmap (string * Z) Z) (txn_id : Z) (keys : gset (string * Z))
    : gmap (string * Z) Z :=
  fold_left (fun a k => if decide (a !! k = Some txn_id) then delete k a else a)
    (elements keys) active.

Definition record_prepared_commit cd (txn_id : Z) (writes : list (TxnWrite V))
    (write_keys : gset (string * Z)) (commit_ts : Z) : ConflictDetector :=
  mkConflictDetector
    (cd_committed_writes cd ++
       ((fun w => mkCommittedWrite txn_id commit_ts (TxnWrite_table w) (TxnWrite_row_id w))
          <$> writes))
    (release_keys (cd_active_writes cd) txn_id write_keys)
    (cd_watermark cd).

Definition record_commit cd ctx (commit_ts : Z) : ConflictDetector :=
  record_prepared_commit cd (tc_txn_id ctx) (tc_write_set ctx) (tc_write_keys ctx) commit_ts.

Definition record_abort cd ctx : ConflictDetector :=
  mkConflictDetector (cd_committed_writes cd)
    (release_keys (cd_active_writes cd) (tc_txn_id ctx) (tc_write_keys ctx))
    (cd_watermark cd).

(** The first loop of [acquire_write_intent]. *)
Fixpoint first_intent (active : gmap (string * Z) Z) (txn_id : Z) (keys : list (string * Z))
    : option (string * Z * Z) :=
  match keys with
  | [] => None
  | k :: keys =>
      match active !! k with
      | Some other =>
          if negb (other =? txn_id) then Some (k, other) else first_intent active txn_id keys
      | None => first_intent active txn_id keys
      end
  end.

Definition acquire_write_intent cd ctx : ConflictDetector * ConflictResult :=
  match first_intent (cd_active_writes cd) (tc_txn_id ctx) (elements (tc_write_keys ctx)) with
  | Some (k, other) => (cd, WriteWriteConflict k.1 k.2 other)
  | None =>
      (mkConflictDetector (cd_committed_writes cd)
         (fold_left (fun a k => <[k := tc_txn_id ctx]> a) (elements (tc_write_keys ctx))
            (cd_active_writes cd))
         (cd_watermark cd),
       NoConflict)
  end.
End detector.

Definition advance_watermark (cd : ConflictDetector) (new_watermark : Z) : ConflictDetector :=
  mkConflictDetector
    (List.filter (fun cw => new_watermark <=? cw_commit_ts cw) (cd_committed_writes cd))
    (cd_active_writes cd) new_watermark.

Definition clear_committed_writes (cd : ConflictDetector) : ConflictDetector :=
  mkConflictDetector [] (cd_active_writes cd) (cd_watermark cd).

Definition committed_write_count (cd : ConflictDetector) : nat :=
  length (cd_committed_writes cd).

(** ** Properties *)

Definition cw_key (cw : CommittedWrite) : string * Z := (cw_table cw, cw_row_id cw).

(** [cw] is a commit of another transaction that the snapshot does not include. *)
Definition is_newer (snapshot_ts txn_id : Z) (cw : CommittedWrite) : Prop :=
  snapshot_ts < cw_commit_ts cw /\ cw_txn_id cw <> txn_id.

Lemma conflicts_with_spec k s t cw :
  conflicts_with k.1 k.2 s t cw = true <-> cw_key cw = k /\ is_newer s t cw.
Proof.
  destruct k as [tb r]. unfold conflicts_with, is_newer, cw_key. simpl.
  rewrite !andb_true_iff, bool_decide_eq_true, Z.eqb_eq, Z.ltb_lt, negb_true_iff, Z.eqb_neq.
  naive_solver.
Qed.

Lemma first_conflict_None {K} (key : K -> string * Z) committed s t keys :
  first_conflict key committed s t keys = None <->
  forall k cw, k ∈ keys -> cw ∈ committed -> is_newer s t cw -> cw_key cw <> key k.
Proof.
  induction keys as [|k keys IH]; simpl.
  - split; [|done]. intros _ k cw Hk. by apply elem_of_nil in Hk.
  - destruct (List.find _ committed) as [cw|] eqn:Hf.
    + split; [done|]. intros H. apply List.find_some in Hf as [Hin Hc].
      apply conflicts_with_spec in Hc as [Hk Hn].
      destruct (H k cw); [by left|by apply list_elem_of_In|done|done].
    + rewrite IH. split; [|intros H k' cw Hk'; apply H; by right].
      intros H k' cw [->|Hk']%elem_of_cons Hcw Hn Heq; [|by eapply H].
      apply list_elem_of_In in Hcw. pose proof (List.find_none _ _ Hf _ Hcw) as Hno.
      by rewrite (proj2 (conflicts_with_spec (key k) s t cw)) in Hno.
Qed.

Section detector_theory.
Context {V : Type}.
Implicit Types (ctx : TxnContext V) (cd : ConflictDetector).

(** Validation is exact: it succeeds iff no newer commit touches a row read or written. *)
Lemma validate_ok_iff cd ctx :
  ConflictResult_is_ok (validate cd ctx) = true <->
  forall cw, cw ∈ cd_committed_writes cd -> is_newer (tc_snapshot_ts ctx) (tc_txn_id ctx) cw ->
    cw_key cw ∉ read_key <$> tc_read_set ctx /\ cw_key cw ∉ tc_write_keys ctx.
Proof.
  unfold validate.
  destruct (first_conflict read_key _ _ _ _) as [[r cw]|] eqn:Hr.
  { split; [done|]. intros H. exfalso.
    assert (first_conflict read_key (cd_committed_writes cd) (tc_snapshot_ts ctx)
              (tc_txn_id ctx) (tc_read_set ctx) = None) as Hn; [|congruence].
    apply first_conflict_None. intros k c Hk Hc Hnew Heq.
    apply (proj1 (H c Hc Hnew)). rewrite Heq. apply list_elem_of_fmap. by exists k. }
  destruct (first_conflict (fun k : string * Z => k) _ _ _ _) as [[k cw]|] eqn:Hw.
  { split; [done|]. intros H. exfalso.
    assert (first_conflict (fun k : string * Z => k) (cd_committed_writes cd) (tc_snapshot_ts ctx)
              (tc_txn_id ctx) (elements (tc_write_keys ctx)) = None) as Hn; [|congruence].
    apply first_conflict_None. intros k' c Hk Hc Hnew Heq.
    apply (proj2 (H c Hc Hnew)). rewrite Heq. by apply elem_of_elements. }
  rewrite first_conflict_None in Hr. pose proof (proj1 (first_conflict_None (fun k => k) _ _ _ _) Hw) as Hwk.
  split; [|done]. intros _ cw Hcw Hn. split.
  - intros (r & Heq & Hin)%list_elem_of_fmap. by eapply Hr.
  - intros Hin. eapply (Hwk (cw_key cw)); [by apply elem_of_elements|done..].
Qed.

Lemma release_keys_lookup active t keys k :
  release_keys active t keys !! k =
    if decide (k ∈ keys /\ active !! k = Some t) then None else active !! k.
Proof.
  unfold release_keys.
  assert (forall l (a : gmap (string * Z) Z), fold_left (fun a k => if decide (a !! k = Some t) then delete k a else a) l a !! k
            = if decide (k ∈ l /\ a !! k = Some t) then None else a !! k) as H.
  { induction l as [|x l IH]; intros a; cbn [fold_left].
    - rewrite decide_False; [done|]. intros [Hk _]. by apply elem_of_nil in Hk.
    - rewrite IH. repeat case_decide; try done; destruct (decide (x = k)) as [->|Hne];
        rewrite ?lookup_delete_eq, ?lookup_delete_ne in * by done; set_solver. }
  rewrite H. repeat case_decide; try done; set_solver.
Qed.

Lemma insert_keys_lookup (active : gmap (string * Z) Z) t (keys : list (string * Z)) k :
  fold_left (fun a k => <[k := t]> a) keys active !! k =
    if decide (k ∈ keys) then Some t else active !! k.
Proof.
  revert active. induction keys as [|x l IH]; intros a; cbn [fold_left].
  - rewrite decide_False; [done|]. apply not_elem_of_nil.
  - rewrite IH. repeat case_decide; try done; try set_solver;
      rewrite lookup_insert; case_decide; set_solver.
Qed.

Lemma first_intent_None active t keys :
  first_intent active t keys = None <->
  forall k o, k ∈ keys -> active !! k = Some o -> o = t.
Proof.
  induction keys as [|x l IH]; simpl.
  - split; [|done]. intros _ k o Hk. by apply elem_of_nil in Hk.
  - destruct (active !! x) as [o|] eqn:Hx.
    + destruct (o =? t) eqn:Ho; simpl; zb.
      * rewrite IH. split; [|intros H k o' Hk; apply H; by right].
        intros H k o' [->|Hk]%elem_of_cons Ha; [congruence|eauto].
      * split; [done|]. intros H. destruct Ho. eapply H; [by left|done].
    + rewrite IH. split; [|intros H k o' Hk; apply H; by right].
      intros H k o' [->|Hk]%elem_of_cons Ha; [congruence|eauto].
Qed.

(** Acquiring intents succeeds iff no other transaction owns a key, and then owns them all. *)
Lemma acquire_write_intent_spec cd ctx :
  let '(cd', res) := acquire_write_intent cd ctx in
  (ConflictResult_is_ok res = true <->
    forall k o, k ∈ tc_write_keys ctx -> cd_active_writes cd !! k = Some o -> o = tc_txn_id ctx) /\
  cd_committed_writes cd' = cd_committed_writes cd /\
  (ConflictResult_is_ok res = false -> cd' = cd) /\
  (ConflictResult_is_ok res = true -> forall k, cd_active_writes cd' !! k =
     if decide (k ∈ tc_write_keys ctx) then Some (tc_txn_id ctx) else cd_active_writes cd !! k).
Proof.
  unfold acquire_write_intent.
  destruct (first_intent _ _ _) as [[k o]|] eqn:Hf.
  - split_and!; [|done..]. split; [done|]. intros H. exfalso.
    assert (first_intent (cd_active_writes cd) (tc_txn_id ctx)
              (elements (tc_write_keys ctx)) = None); [|congruence].
    apply first_intent_None. intros k' o' Hk. apply H. by apply elem_of_elements.
  - rewrite first_intent_None in Hf. split_and!; [|done..|].
    + split; [|done]. intros _ k o Hk. apply Hf. by apply elem_of_elements.
    + intros _ k. simpl. rewrite insert_keys_lookup.
      repeat case_decide; set_solver.
Qed.
End detector_theory.
