(* ===== verification/TxnManager.v ===== *)
(** * The transaction manager

    Models [txn/manager.rs] and [txn/commit.rs].  A manager value carries the
    process-global counters it draws from; [Instant] and [SystemTime] readings
    are arguments.  Every method is one definition with the lock-protected
    effects in source order. *)
From S2P Require Import Prelude VersionStore Snapshot TxnContext Conflict.
Local Open Scope Z_scope.

(** ** State *)

Inductive TxnStatus := Active | Validating | Committed | Aborted.

#[global] Instance TxnStatus_eq_dec : EqDecision TxnStatus.
Proof. solve_decision. Defined.

(** 30 seconds, in milliseconds. *)
Definition DEFAULT_TXN_TIMEOUT : Z := 30 * 1000.

Record ActiveTxn (V : Type) := mkActiveTxn {
  at_context : TxnContext V;
  at_snapshot : Snapshot;
  at_status : TxnStatus;
  at_last_activity : Z
}.
Arguments mkActiveTxn {V}.
Arguments at_context {V}.
Arguments at_snapshot {V}.
Arguments at_status {V}.
Arguments at_last_activity {V}.

(** [GLOBAL_TS], [NEXT_SNAPSHOT_ID] and [NEXT_TXN_ID]. *)
Record Globals := mkGlobals {
  g_ts : Z;
  g_snapshot_id : Z;
  g_txn_id : Z
}.

Record TxnManager (V : Type) := mkTxnManager {
  tm_globals : Globals;
  tm_active_txns : gmap Z (ActiveTxn V);
  tm_snapshot_manager : SnapshotManager;
  tm_conflict_detector : ConflictDetector;
  tm_version_stores : gmap string (VersionStore V);
  tm_gc : GarbageCollector;
  tm_total_committed : Z;
  tm_total_aborted : Z;
  tm_txn_timeout : Z
}.
Arguments mkTxnManager {V}.
Arguments tm_globals {V}.
Arguments tm_active_txns {V}.
Arguments tm_snapshot_manager {V}.
Arguments tm_conflict_detector {V}.
Arguments tm_version_stores {V}.
Arguments tm_gc {V}.
Arguments tm_total_committed {V}.
Arguments tm_total_aborted {V}.
Arguments tm_txn_timeout {V}.

Record PreparedCommit (V : Type) := mkPreparedCommit {
  pc_txn_id : Z;
  pc_writes : list (TxnWrite V)
}.
Arguments mkPreparedCommit {V}.
Arguments pc_txn_id {V}.
Arguments pc_writes {V}.

(** [NEXT_TXN_ID.fetch_add(1)] *)
Definition next_txn_id (counter : Z) : Z * Z := (counter, wrap64 (counter + 1)).

Section manager.
Context {V : Type}.
Implicit Types (tm : TxnManager V) (txn : ActiveTxn V) (ctx : TxnContext V).

(** The counters start at 1. *)
Definition TxnManager_new : TxnManager V :=
  mkTxnManager (mkGlobals 1 1 1) ∅ SnapshotManager_new ConflictDetector_new ∅
    GarbageCollector_new 0 0 DEFAULT_TXN_TIMEOUT.

(** *** Field updates *)

Definition set_globals tm (g : Globals) : TxnManager V :=
  mkTxnManager g (tm_active_txns tm) (tm_snapshot_manager tm) (tm_conflict_detector tm)
    (tm_version_stores tm) (tm_gc tm) (tm_total_committed tm) (tm_total_aborted tm)
    (tm_txn_timeout tm).

Definition set_active_txns tm (a : gmap Z (ActiveTxn V)) : TxnManager V :=
  mkTxnManager (tm_globals tm) a (tm_snapshot_manager tm) (tm_conflict_detector tm)
    (tm_version_stores tm) (tm_gc tm) (tm_total_committed tm) (tm_total_aborted tm)
    (tm_txn_timeout tm).

Definition set_snapshot_manager tm (sm : SnapshotManager) : TxnManager V :=
  mkTxnManager (tm_globals tm) (tm_active_txns tm) sm (tm_conflict_detector tm)
    (tm_version_stores tm) (tm_gc tm) (tm_total_committed tm) (tm_total_aborted tm)
    (tm_txn_timeout tm).

Definition set_conflict_detector tm (cd : ConflictDetector) : TxnManager V :=
  mkTxnManager (tm_globals tm) (tm_active_txns tm) (tm_snapshot_manager tm) cd
    (tm_version_stores tm) (tm_gc tm) (tm_total_committed tm) (tm_total_aborted tm)
    (tm_txn_timeout tm).

Definition set_version_stores tm (st : gmap string (VersionStore V)) : TxnManager V :=
  mkTxnManager (tm_globals tm) (tm_active_txns tm) (tm_snapshot_manager tm)
    (tm_conflict_detector tm) st (tm_gc tm) (tm_total_committed tm) (tm_total_aborted tm)
    (tm_txn_timeout tm).

Definition set_stores_gc tm (gc_st : GarbageCollector * gmap string (VersionStore V))
    : TxnManager V :=
  mkTxnManager (tm_globals tm) (tm_active_txns tm) (tm_snapshot_manager tm)
    (tm_conflict_detector tm) gc_st.2 gc_st.1 (tm_total_committed tm) (tm_total_aborted tm)
    (tm_txn_timeout tm).

Definition count_committed tm : TxnManager V :=
  mkTxnManager (tm_globals tm) (tm_active_txns tm) (tm_snapshot_manager tm)
    (tm_conflict_detector tm) (tm_version_stores tm) (tm_gc tm)
    (wrap64 (tm_total_committed tm + 1)) (tm_total_aborted tm) (tm_txn_timeout tm).

Definition count_aborted tm : TxnManager V :=
  mkTxnManager (tm_globals tm) (tm_active_txns tm) (tm_snapshot_manager tm)
    (tm_conflict_detector tm) (tm_version_stores tm) (tm_gc tm)
    (tm_total_committed tm) (wrap64 (tm_total_aborted tm + 1)) (tm_txn_timeout tm).

(** *** Version stores *)

(** The store of a table, created empty on first use, and the manager that holds it. *)
Definition get_version_store tm (table : string) : VersionStore V * TxnManager V :=
  match tm_version_stores tm !! table with
  | Some store => (store, tm)
  | None =>
      (VersionStore_new,
       set_version_stores tm (<[table := VersionStore_new]> (tm_version_stores tm)))
  end.

(** The [Arc] handed out by [get_version_store] is the map entry: a change to
    the store is a change of the entry. *)
Definition put_version_store tm (table : string) (store : VersionStore V) : TxnManager V :=
  set_version_stores tm (<[table := store]> (tm_version_stores tm)).

Definition prune_empty_version_stores tm : TxnManager V :=
  set_version_stores tm
    (filter (fun ts => (0 < VersionStore_row_count ts.2)%nat \/ 0 < vs_total_versions ts.2)
       (tm_version_stores tm)).

Definition version_store_count tm : nat := size (tm_version_stores tm).

(** *** Aborts *)

(** [last_activity.elapsed() > txn_timeout] *)
Definition idle_too_long tm txn (now : Z) : bool :=
  tm_txn_timeout tm <? saturating_sub64 now (at_last_activity txn).

(** The abort sequence of [prepare_commit], [rollback], [with_context] and
    [abort_timed_out_txns]: release the intents, drop the entry, release the
    snapshot, count. *)
Definition abort_entry tm (txn_id : Z) txn : TxnManager V :=
  let ctx := set_finished (at_context txn) in
  let tm := set_conflict_detector tm (record_abort (tm_conflict_detector tm) ctx) in
  let tm := set_active_txns tm (delete txn_id (tm_active_txns tm)) in
  let tm := set_snapshot_manager tm
              (SnapshotManager_release (tm_snapshot_manager tm) (sn_id (at_snapshot txn))) in
  count_aborted tm.

Definition abort_timed_out_txns tm (now : Z) : TxnManager V :=
  let timed_out :=
    (map_to_list (filter (fun it => at_status it.2 = Active /\ idle_too_long tm it.2 now = true)
                    (tm_active_txns tm))).*1 in
  fold_left (fun tm txn_id =>
    match tm_active_txns tm !! txn_id with
    | Some txn => abort_entry tm txn_id txn
    | None => tm
    end) timed_out tm.

(** *** Lifecycle *)

Definition TxnManager_begin tm (now : Z) : Z * TxnManager V :=
  let g := tm_globals tm in
  let '(txn_id, next_txn) := next_txn_id (g_txn_id g) in
  let '(snap, ts', next_snap, sm) :=
    create_rw_snapshot (g_ts g) (g_snapshot_id g) (tm_snapshot_manager tm) in
  let ctx := TxnContext_new txn_id (sn_read_ts snap) false in
  let tm := set_snapshot_manager (set_globals tm (mkGlobals ts' next_snap next_txn)) sm in
  let tm := set_active_txns tm
              (<[txn_id := mkActiveTxn ctx snap Active now]> (tm_active_txns tm)) in
  (txn_id, abort_timed_out_txns tm now).

Definition begin_read_only tm (now : Z) : Z * TxnManager V :=
  let g := tm_globals tm in
  let '(txn_id, next_txn) := next_txn_id (g_txn_id g) in
  let '(snap, next_snap, sm) :=
    create_snapshot (g_ts g) (g_snapshot_id g) (tm_snapshot_manager tm) in
  let ctx := TxnContext_new txn_id (sn_read_ts snap) true in
  let tm := set_snapshot_manager (set_globals tm (mkGlobals (g_ts g) next_snap next_txn)) sm in
  (txn_id, set_active_txns tm
             (<[txn_id := mkActiveTxn ctx snap Active now]> (tm_active_txns tm))).

Definition set_entry tm (txn_id : Z) txn : TxnManager V :=
  set_active_txns tm (<[txn_id := txn]> (tm_active_txns tm)).

Definition with_status txn (st : TxnStatus) : ActiveTxn V :=
  mkActiveTxn (at_context txn) (at_snapshot txn) st (at_last_activity txn).

(** Validation, intents, then the write set moves to the [PreparedCommit]. *)
Definition prepare_commit tm (txn_id : Z) : TxnManager V * Result (PreparedCommit V) :=
  match tm_active_txns tm !! txn_id with
  | None => (tm, Err NotFound)
  | Some txn =>
      if negb (bool_decide (at_status txn = Active)) then (tm, Err InvalidInput)
      else
        let txn := with_status txn Validating in
        let '(ctx', writes) := take_write_set (at_context txn) in
        let prepared :=
          (fun tm => (set_entry tm txn_id
                        (mkActiveTxn ctx' (at_snapshot txn) Validating (at_last_activity txn)),
                      Ok (mkPreparedCommit txn_id writes))) in
        if has_writes (at_context txn) then
          let validation_result := validate (tm_conflict_detector tm) (at_context txn) in
          if negb (ConflictResult_is_ok validation_result) then
            (abort_entry tm txn_id txn, Err WouldBlock)
          else
            let '(cd, intent_result) :=
              acquire_write_intent (tm_conflict_detector tm) (at_context txn) in
            let tm := set_conflict_detector tm cd in
            if negb (ConflictResult_is_ok intent_result) then
              (abort_entry tm txn_id txn, Err WouldBlock)
            else prepared tm
        else prepared tm
  end.

(** A base row unknown to the store is seeded with its old data at timestamp 1. *)
Definition seed_old_data (store : VersionStore V) (row_id : Z) (old_data : gmap string V)
    : VersionStore V :=
  match VersionStore_read_latest store row_id with
  | None => if bool_decide (old_data = ∅) then store
            else VersionStore_insert store row_id 1 old_data
  | Some _ => store
  end.

(** The body of the publication loop of [finalize_commit]. *)
Definition apply_write tm (commit_ts : Z) (w : TxnWrite V) : TxnManager V :=
  match w with
  | TxnInsert table row_id data =>
      let '(store, tm) := get_version_store tm table in
      put_version_store tm table (VersionStore_insert store row_id commit_ts data)
  | TxnDelete table row_id old_data =>
      let '(store, tm) := get_version_store tm table in
      let store := seed_old_data store row_id old_data in
      put_version_store tm table (VersionStore_delete store row_id commit_ts).1
  | TxnUpdate table row_id old_data new_data =>
      let '(store, tm) := get_version_store tm table in
      let store := seed_old_data store row_id old_data in
      put_version_store tm table (VersionStore_update store row_id commit_ts new_data).1
  end.

(** [for store in version_stores.values() { gc.maybe_run(store, ...) }] *)
Definition gc_stores (gc : GarbageCollector) (sm : SnapshotManager) (now_millis : Z)
    (stores : gmap string (VersionStore V)) : GarbageCollector * gmap string (VersionStore V) :=
  fold_left (fun acc it =>
    let '(gc, st, _) := GarbageCollector_maybe_run acc.1 it.2 sm now_millis in
    (gc, <[it.1 := st]> acc.2)) (map_to_list stores) (gc, stores).

(** The watermark step of [finalize_commit]. *)
Definition trim_conflict_log (cd : ConflictDetector) (oldest : Z) : ConflictDetector :=
  if oldest =? U64_MAX
  then clear_committed_writes (advance_watermark cd U64_MAX)
  else advance_watermark cd oldest.

Definition finalize_commit tm (prepared : PreparedCommit V) (now_millis : Z)
    : TxnManager V * Result (list (TxnWrite V)) :=
  let txn_id := pc_txn_id prepared in
  match tm_active_txns tm !! txn_id with
  | None => (tm, Err NotFound)
  | Some txn =>
      if negb (bool_decide (at_status txn = Validating)) then (tm, Err InvalidInput)
      else
        let g := tm_globals tm in
        let '(commit_ts, ts') := next_timestamp (g_ts g) in
        let tm := set_globals tm (mkGlobals ts' (g_snapshot_id g) (g_txn_id g)) in
        let tm := set_conflict_detector tm
                    (record_prepared_commit (tm_conflict_detector tm) txn_id
                       (pc_writes prepared) (tc_write_keys (at_context txn)) commit_ts) in
        let tm := set_active_txns tm (delete txn_id (tm_active_txns tm)) in
        let tm := fold_left (fun tm w => apply_write tm commit_ts w) (pc_writes prepared) tm in
        let tm := set_snapshot_manager tm
                    (SnapshotManager_release (tm_snapshot_manager tm)
                       (sn_id (at_snapshot txn))) in
        let tm := count_committed tm in
        let oldest := oldest_active_timestamp (tm_snapshot_manager tm) in
        let tm := set_conflict_detector tm
                    (trim_conflict_log (tm_conflict_detector tm) oldest) in
        let tm := set_stores_gc tm
                    (gc_stores (tm_gc tm) (tm_snapshot_manager tm) now_millis
                       (tm_version_stores tm)) in
        (prune_empty_version_stores tm, Ok (pc_writes prepared))
  end.

Definition commit_with_writes tm (txn_id now_millis : Z)
    : TxnManager V * Result (list (TxnWrite V)) :=
  match prepare_commit tm txn_id with
  | (tm, Ok prepared) => finalize_commit tm prepared now_millis
  | (tm, Err e) => (tm, Err e)
  end.

Definition TxnManager_commit tm (txn_id now_millis : Z) : TxnManager V * Result unit :=
  let '(tm, res) := commit_with_writes tm txn_id now_millis in
  (tm, match res with Ok _ => Ok tt | Err e => Err e end).

Definition is_live_txn tm (txn_id : Z) : bool :=
  bool_decide (is_Some (tm_active_txns tm !! txn_id)).

Definition rollback tm (txn_id : Z) : TxnManager V * Result unit :=
  match tm_active_txns tm !! txn_id with
  | None => (tm, Err NotFound)
  | Some txn => (abort_entry tm txn_id (with_status txn Aborted), Ok tt)
  end.

(** *** Reads *)

Definition get_snapshot_ts tm (txn_id : Z) : Result Z :=
  match tm_active_txns tm !! txn_id with
  | None => Err NotFound
  | Some txn => Ok (sn_read_ts (at_snapshot txn))
  end.

Definition is_visible tm (txn_id : Z) (table : string) (row_id : Z)
    : TxnManager V * Result bool :=
  match get_snapshot_ts tm txn_id with
  | Err e => (tm, Err e)
  | Ok snapshot_ts =>
      let '(store, tm) := get_version_store tm table in
      (tm, Ok (VersionStore_exists store row_id snapshot_ts))
  end.

Definition read_versioned tm (txn_id : Z) (table : string) (row_id : Z)
    : TxnManager V * Result (option (gmap string V)) :=
  match get_snapshot_ts tm txn_id with
  | Err e => (tm, Err e)
  | Ok snapshot_ts =>
      let '(store, tm) := get_version_store tm table in
      (tm, Ok (VersionStore_read store row_id snapshot_ts))
  end.

(** *** Context access *)

Definition with_context {R} tm (txn_id now : Z)
    (f : TxnContext V -> TxnContext V * Result R) : TxnManager V * Result R :=
  match tm_active_txns tm !! txn_id with
  | None => (tm, Err NotFound)
  | Some txn =>
      if negb (bool_decide (at_status txn = Active)) then (tm, Err InvalidInput)
      else if idle_too_long tm txn now then
        (abort_entry tm txn_id (with_status txn Aborted), Err TimedOut)
      else
        let '(ctx', res) := f (at_context txn) in
        (set_entry tm txn_id (mkActiveTxn ctx' (at_snapshot txn) (at_status txn) now), res)
  end.

(** *** Monitoring *)

Definition TxnManager_active_count tm : nat := size (tm_active_txns tm).

Definition is_active tm (txn_id : Z) : bool :=
  match tm_active_txns tm !! txn_id with
  | Some t => bool_decide (at_status t = Active)
  | None => false
  end.

Definition is_timed_out tm (txn_id now : Z) : bool :=
  match tm_active_txns tm !! txn_id with
  | Some t => idle_too_long tm t now
  | None => false
  end.
End manager.

(** ** Commit outcomes ([txn/commit.rs]) *)

Inductive CommitOutcome := OutcomeNotCommitted | OutcomeUnknown | OutcomeCommitted.

Definition CommitOutcome_as_str (o : CommitOutcome) : string :=
  match o with
  | OutcomeNotCommitted => "not_committed"
  | OutcomeUnknown => "unknown"
  | OutcomeCommitted => "committed"
  end.

(** The advice clause of [Display for CommitError]. *)
Definition CommitError_advice (o : CommitOutcome) : string :=
  match o with
  | OutcomeNotCommitted => "retry requires a new transaction and resolving the cause"
  | OutcomeUnknown => "do not replay DML; reopen and reconcile the transaction outcome"
  | OutcomeCommitted => "do not replay DML; logical commit completed, maintenance failed"
  end.
