(* ===== verification/TxnSystem.v ===== *)
(** * The transaction system: reachable states and isolation

    Closes the manager under the calls its clients make.  A state holds the
    manager, the [PreparedCommit] values the committers own, and a ghost history
    of finished commits; [sys_run] executes a sequence of calls. *)
From S2P Require Import Prelude VersionStore Snapshot TxnContext Conflict TxnManager.
Local Open Scope Z_scope.

(** ** Calls *)

Inductive call (V : Type) :=
| CallBegin (now : Z)
| CallBeginReadOnly (now : Z)
| CallContext (txn_id now : Z) (ops : list (ctx_op V))
| CallPrepare (txn_id : Z)
| CallFinalize (txn_id now_millis : Z)
| CallRollback (txn_id : Z)
| CallRead (txn_id : Z) (table : string) (row_id : Z).
Arguments CallBegin {V}.
Arguments CallBeginReadOnly {V}.
Arguments CallContext {V}.
Arguments CallPrepare {V}.
Arguments CallFinalize {V}.
Arguments CallRollback {V}.
Arguments CallRead {V}.

(** A finished commit. *)
Record commit_record := mkCommitRecord {
  cr_txn_id : Z;
  cr_snapshot_ts : Z;
  cr_commit_ts : Z;
  cr_keys : gset (string * Z)
}.

Record system (V : Type) := mkSystem {
  sys_mgr : TxnManager V;
  sys_prepared : gmap Z (PreparedCommit V);
  sys_history : list commit_record
}.
Arguments mkSystem {V}.
Arguments sys_mgr {V}.
Arguments sys_prepared {V}.
Arguments sys_history {V}.

Section system.
Context {V : Type}.
Implicit Types (tm : TxnManager V) (s : system V).

Definition sys_init : system V := mkSystem TxnManager_new ∅ [].

(** The record [finalize_commit] adds when it succeeds. *)
Definition finalize_record tm (txn_id : Z) : list commit_record :=
  match tm_active_txns tm !! txn_id with
  | Some txn =>
      [mkCommitRecord txn_id (tc_snapshot_ts (at_context txn)) (g_ts (tm_globals tm))
         (tc_write_keys (at_context txn))]
  | None => []
  end.

Definition sys_call s (c : call V) : system V :=
  let tm := sys_mgr s in
  match c with
  | CallBegin now => mkSystem (TxnManager_begin tm now).2 (sys_prepared s) (sys_history s)
  | CallBeginReadOnly now => mkSystem (begin_read_only tm now).2 (sys_prepared s) (sys_history s)
  | CallContext id now ops =>
      mkSystem (with_context tm id now (fun ctx => (ctx_run ctx ops, Ok tt))).1
        (sys_prepared s) (sys_history s)
  | CallPrepare id =>
      match prepare_commit tm id with
      | (tm', Ok pc) => mkSystem tm' (<[id := pc]> (sys_prepared s)) (sys_history s)
      | (tm', Err _) => mkSystem tm' (sys_prepared s) (sys_history s)
      end
  | CallFinalize id now_millis =>
      match sys_prepared s !! id with
      | None => s
      | Some pc =>
          match finalize_commit tm pc now_millis with
          | (tm', Ok _) =>
              mkSystem tm' (delete id (sys_prepared s))
                (finalize_record tm id ++ sys_history s)
          | (tm', Err _) => mkSystem tm' (delete id (sys_prepared s)) (sys_history s)
          end
      end
  | CallRollback id => mkSystem (rollback tm id).1 (sys_prepared s) (sys_history s)
  | CallRead id table row_id =>
      mkSystem (read_versioned tm id table row_id).1 (sys_prepared s) (sys_history s)
  end.

Definition sys_run s (cs : list (call V)) : system V := fold_left sys_call cs s.
End system.

(** ** The invariant *)

Section invariant.
Context {V : Type}.
Implicit Types (tm : TxnManager V) (s : system V) (txn : ActiveTxn V)
  (active : gmap Z (ActiveTxn V)) (sm : SnapshotManager) (g : Globals)
  (hist : list commit_record) (prep : gmap Z (PreparedCommit V)).

(** Every open transaction owns a registered snapshot. *)
Definition entry_snapshot g sm txn : Prop :=
  let sn := at_snapshot txn in let ctx := at_context txn in
  sm_active sm !! sn_id sn = Some sn /\ tc_snapshot_ts ctx = sn_read_ts sn /\
  sn_read_ts sn <= g_ts g /\ (tc_read_only ctx = false -> sn_read_ts sn < g_ts g).

Definition snap_inv g sm active : Prop :=
  sm_wf sm /\
  map_Forall (fun id _ => id < g_snapshot_id g) (sm_active sm) /\
  map_Forall (fun _ txn => entry_snapshot g sm txn) active /\
  forall i j t u, active !! i = Some t -> active !! j = Some u ->
    sn_id (at_snapshot t) = sn_id (at_snapshot u) -> i = j.

Definition writes_keys (ws : list (TxnWrite V)) : gset (string * Z) := (write_indexes ws).1.

(** An open transaction is active, or validating with its token outstanding. *)
Definition entry_status prep (id : Z) txn : Prop :=
  match at_status txn with
  | Active => ctx_wf (at_context txn)
  | Validating =>
      exists pc, prep !! id = Some pc /\ pc_txn_id pc = id /\
        tc_write_keys (at_context txn) = writes_keys (pc_writes pc) /\
        (tc_read_only (at_context txn) = true -> pc_writes pc = [])
  | _ => False
  end.

Definition entry_inv g prep active : Prop :=
  map_Forall (fun id txn => tc_txn_id (at_context txn) = id /\ id < g_txn_id g /\
                entry_status prep id txn) active.

(** An intent is held exactly by the validating writers. *)
Definition intent_inv active (aw : gmap (string * Z) Z) : Prop :=
  forall k t, aw !! k = Some t <->
    exists txn, active !! t = Some txn /\ at_status txn = Validating /\
      k ∈ tc_write_keys (at_context txn).

Definition cw_of (cw : CommittedWrite) (r : commit_record) : Prop :=
  cw_txn_id cw = cr_txn_id r /\ cw_commit_ts cw = cr_commit_ts r /\ cw_key cw ∈ cr_keys r.

(** The log only holds finished commits, and all those an open snapshot misses. *)
Definition log_inv g active (log : list CommittedWrite) hist : Prop :=
  Forall (fun cw => exists r, r ∈ hist /\ cw_of cw r) log /\
  Forall (fun r => cr_snapshot_ts r <= cr_commit_ts r < g_ts g /\ cr_txn_id r < g_txn_id g /\
            active !! cr_txn_id r = None) hist /\
  forall r k id txn, r ∈ hist -> k ∈ cr_keys r -> active !! id = Some txn ->
    tc_snapshot_ts (at_context txn) < cr_commit_ts r ->
    exists cw, cw ∈ log /\ cw_of cw r /\ cw_key cw = k.

(** The commits that share a row do not overlap, including those in progress. *)
Definition disjoint_lifetimes (r1 r2 : commit_record) : Prop :=
  cr_commit_ts r1 <= cr_snapshot_ts r2 \/ cr_commit_ts r2 <= cr_snapshot_ts r1.

Definition order_inv active hist : Prop :=
  (forall r k id txn, r ∈ hist -> k ∈ cr_keys r -> active !! id = Some txn ->
    at_status txn = Validating -> k ∈ tc_write_keys (at_context txn) ->
    cr_commit_ts r <= tc_snapshot_ts (at_context txn)) /\
  forall r1 r2 k, r1 ∈ hist -> r2 ∈ hist -> k ∈ cr_keys r1 -> k ∈ cr_keys r2 ->
    cr_txn_id r1 <> cr_txn_id r2 -> disjoint_lifetimes r1 r2.

(** Version stores are well-formed and hold no timestamp not handed out yet. *)
Definition store_inv (bound : Z) (st : VersionStore V) : Prop :=
  map_Forall (fun _ c => chain_wf c /\ chain_head_ts c < bound) (vs_chains st).

Definition stores_inv g (stores : gmap string (VersionStore V)) : Prop :=
  map_Forall (fun _ st => store_inv (g_ts g) st) stores.

Record inv tm prep hist : Prop := mkInv {
  inv_ts : 1 <= g_ts (tm_globals tm) /\ 1 <= g_snapshot_id (tm_globals tm) /\
           1 <= g_txn_id (tm_globals tm);
  inv_snap : snap_inv (tm_globals tm) (tm_snapshot_manager tm) (tm_active_txns tm);
  inv_entry : entry_inv (tm_globals tm) prep (tm_active_txns tm);
  inv_intent : intent_inv (tm_active_txns tm) (cd_active_writes (tm_conflict_detector tm));
  inv_log : log_inv (tm_globals tm) (tm_active_txns tm)
              (cd_committed_writes (tm_conflict_detector tm)) hist;
  inv_order : order_inv (tm_active_txns tm) hist;
  inv_stores : stores_inv (tm_globals tm) (tm_version_stores tm)
}.

Definition sys_inv s : Prop := inv (sys_mgr s) (sys_prepared s) (sys_history s).

(** No counter is about to wrap: fewer than [2^64 - 2] calls were made. *)
Definition counters_below (n : Z) g : Prop :=
  g_ts g <= n /\ g_snapshot_id g <= n /\ g_txn_id g <= n.

Lemma sys_init_inv : sys_inv sys_init.
Proof.
  split; simpl; try apply map_Forall_empty.
  - lia.
  - split_and!; [apply SnapshotManager_new_wf|apply map_Forall_empty..|].
    intros i j t u Hi. by rewrite lookup_empty in Hi.
  - intros k t. rewrite lookup_empty. split; [done|].
    intros (txn & Ht & _). by rewrite lookup_empty in Ht.
  - split_and!; [constructor..|]. intros r k id txn Hr. by apply elem_of_nil in Hr.
  - split; intros r; intros; by edestruct (not_elem_of_nil r).
Qed.

(** *** Removing an entry *)

Lemma snap_inv_remove g sm active id txn :
  snap_inv g sm active -> active !! id = Some txn ->
  snap_inv g (SnapshotManager_release sm (sn_id (at_snapshot txn))) (delete id active).
Proof.
  intros (Hwf & Hids & Hent & Hinj) Hid. split_and!.
  - by apply SnapshotManager_release_wf.
  - by apply map_Forall_delete.
  - intros i u [Hne Hu]%lookup_delete_Some. destruct (Hent _ _ Hu) as (Hs & ? & ? & ?).
    split_and!; [|done..]. simpl. rewrite lookup_delete_ne; [done|].
    intros Heq. destruct Hne. eauto.
  - intros i j t u [_ Ht]%lookup_delete_Some [_ Hu]%lookup_delete_Some. eauto.
Qed.

Lemma intent_inv_remove active aw id txn :
  intent_inv active aw -> active !! id = Some txn ->
  intent_inv (delete id active) (release_keys aw id (tc_write_keys (at_context txn))).
Proof.
  intros Hi Hid k t. rewrite release_keys_lookup. split.
  - case_decide as Hd; [done|]. intros Ht. destruct (proj1 (Hi k t) Ht) as (u & Hu & Hs & Hk).
    exists u. split_and!; [|done..]. apply lookup_delete_Some. split; [|done].
    intros ->. apply Hd. simplify_eq. done.
  - intros (u & [Hne Hu]%lookup_delete_Some & Hs & Hk).
    assert (aw !! k = Some t) as Ht by (apply Hi; eauto).
    case_decide as Hd; [|done]. destruct Hd. congruence.
Qed.

Lemma log_inv_remove g active log hist id :
  log_inv g active log hist -> log_inv g (delete id active) log hist.
Proof.
  intros (Hl & Hh & Hc). split_and!; [done| |].
  - eapply Forall_impl; [exact Hh|]. simpl. intros r (? & ? & Hn).
    split_and!; [lia..|]. apply lookup_delete_None. by right.
  - intros r k i txn Hr Hk [_ Hi]%lookup_delete_Some. eauto.
Qed.

Lemma order_inv_remove active hist id : order_inv active hist -> order_inv (delete id active) hist.
Proof.
  intros (Hv & Ho). split; [|done]. intros r k i txn Hr Hk [_ Hi]%lookup_delete_Some. eauto.
Qed.

(** Every abort path preserves the invariant. *)
Lemma abort_entry_inv tm prep hist id txn0 txn :
  inv tm prep hist -> tm_active_txns tm !! id = Some txn0 ->
  at_context txn = at_context txn0 -> at_snapshot txn = at_snapshot txn0 ->
  inv (abort_entry tm id txn) prep hist.
Proof.
  intros [] Hid Hctx Hsn. pose proof (proj1 (inv_entry0 _ _ Hid)) as Htid.
  split; simpl; rewrite ?Hctx, ?Hsn.
  - done.
  - by apply snap_inv_remove.
  - by apply map_Forall_delete.
  - rewrite Htid. by apply intent_inv_remove.
  - by apply log_inv_remove.
  - by apply order_inv_remove.
  - done.
Qed.

(** *** Opening an entry *)

Lemma snap_inv_open g g' sm active id txn :
  snap_inv g sm active ->
  sn_id (at_snapshot txn) = g_snapshot_id g -> sn_read_ts (at_snapshot txn) < TS_INF ->
  tc_snapshot_ts (at_context txn) = sn_read_ts (at_snapshot txn) ->
  sn_read_ts (at_snapshot txn) <= g_ts g' -> g_ts g <= g_ts g' ->
  g_snapshot_id g' = g_snapshot_id g + 1 ->
  (tc_read_only (at_context txn) = false -> sn_read_ts (at_snapshot txn) < g_ts g') ->
  snap_inv g' (SnapshotManager_register sm (at_snapshot txn)) (<[id := txn]> active).
Proof.
  intros (Hwf & Hids & Hent & Hinj) Hsid Hinf Hts Hle Hg Hnext Hro.
  assert (Hfresh : sm_active sm !! g_snapshot_id g = None).
  { destruct (sm_active sm !! g_snapshot_id g) as [x|] eqn:Hx; [|done].
    apply Hids in Hx. lia. }
  assert (Hold : forall i u, active !! i = Some u -> sn_id (at_snapshot u) <> g_snapshot_id g).
  { intros i u Hu Heq. destruct (Hent _ _ Hu) as [Hs _]. rewrite Heq in Hs. congruence. }
  split_and!.
  - apply SnapshotManager_register_wf; [done|by rewrite Hsid|done].
  - simpl. apply map_Forall_insert_2; [lia|].
    eapply map_Forall_impl; [exact Hids|]. simpl. lia.
  - apply map_Forall_insert_2.
    + split_and!; [simpl; by rewrite lookup_insert_eq|done..].
    + intros i u Hu. destruct (Hent _ _ Hu) as (Hs & ? & ? & Hr). simpl in *.
      split_and!; [|done|lia|intros Hf; specialize (Hr Hf); lia].
      simpl. rewrite lookup_insert_ne; [done|]. rewrite Hsid. intros Heq. by eapply Hold.
  - intros i j t u Ht Hu Heq.
    apply lookup_insert_Some in Ht as [[<- <-]|[_ Ht]];
      apply lookup_insert_Some in Hu as [[<- <-]|[_ Hu]]; [done|..|by eapply Hinj].
    + exfalso. apply (Hold _ _ Hu). congruence.
    + exfalso. apply (Hold _ _ Ht). congruence.
Qed.

(** Replacing or adding an entry that is not validating touches no intent. *)
Lemma intent_inv_insert active aw id txn :
  intent_inv active aw -> at_status txn = Active ->
  (forall u, active !! id = Some u -> at_status u <> Validating) ->
  intent_inv (<[id := txn]> active) aw.
Proof.
  intros Hi Hst Hold k t. rewrite (Hi k t). split.
  - intros (u & Hu & Hs & Hk). exists u. split_and!; [|done..].
    rewrite lookup_insert_ne; [done|]. intros ->. by eapply Hold.
  - intros (u & [[<- <-]|[_ Hu]]%lookup_insert_Some & Hs & Hk); [congruence|eauto].
Qed.

Lemma order_inv_insert active hist id txn :
  order_inv active hist -> at_status txn = Active -> order_inv (<[id := txn]> active) hist.
Proof.
  intros (Hv & Ho) Hst. split; [|done].
  intros r k i u Hr Hk [[<- <-]|[_ Hu]]%lookup_insert_Some Hs; [congruence|eauto].
Qed.

(** A new entry whose snapshot no finished commit escapes. *)
Lemma log_inv_open g g' active log hist id txn :
  log_inv g active log hist -> g_ts g <= g_ts g' -> g_txn_id g <= id -> id < g_txn_id g' ->
  g_ts g <= tc_snapshot_ts (at_context txn) ->
  log_inv g' (<[id := txn]> active) log hist.
Proof.
  intros (Hl & Hh & Hc) Hg Hid Hid' Hts. rewrite Forall_forall in Hh. split_and!; [done| |].
  - apply Forall_forall. intros r Hr. destruct (Hh _ Hr) as (? & ? & Hn).
    split_and!; [lia..|]. rewrite lookup_insert_ne by lia. done.
  - intros r k i u Hr Hk [[<- <-]|[_ Hu]]%lookup_insert_Some Hlt; [|eauto].
    destruct (Hh _ Hr). lia.
Qed.

Lemma stores_inv_mono g g' stores :
  stores_inv g stores -> g_ts g <= g_ts g' -> stores_inv g' stores.
Proof.
  intros Hs Hg. eapply map_Forall_impl; [exact Hs|]. intros t st Hst.
  eapply map_Forall_impl; [exact Hst|]. simpl. intros. naive_solver lia.
Qed.

Lemma entry_inv_mono g g' prep active :
  entry_inv g prep active -> g_txn_id g <= g_txn_id g' -> entry_inv g' prep active.
Proof.
  intros He Hg. eapply map_Forall_impl; [exact He|]. simpl. naive_solver lia.
Qed.

Lemma wrap64_next x : 1 <= x < TS_INF -> wrap64 (x + 1) = x + 1.
Proof. intros. apply wrap64_small. unfold u64, TS_INF in *. lia. Qed.

(** Registering a fresh transaction, read-write or read-only. *)
Lemma open_inv tm prep hist g' txn :
  let g := tm_globals tm in let id := g_txn_id g in
  inv tm prep hist ->
  at_status txn = Active -> at_context txn = TxnContext_new id (sn_read_ts (at_snapshot txn))
                              (tc_read_only (at_context txn)) ->
  sn_id (at_snapshot txn) = g_snapshot_id g -> sn_read_ts (at_snapshot txn) = g_ts g ->
  g_ts g < TS_INF -> g_ts g <= g_ts g' ->
  (tc_read_only (at_context txn) = false -> g_ts g < g_ts g') ->
  g_snapshot_id g' = g_snapshot_id g + 1 -> g_txn_id g' = g_txn_id g + 1 ->
  inv (set_entry (set_snapshot_manager (set_globals tm g')
                    (SnapshotManager_register (tm_snapshot_manager tm) (at_snapshot txn)))
         id txn) prep hist.
Proof.
  intros g id Hinv Hst Hctx Hsid Hts Hinf Hg Hro Hsn Hid.
  pose proof Hinv as [].
  assert (Hnone : tm_active_txns tm !! id = None).
  { destruct (tm_active_txns tm !! id) as [u|] eqn:Hu; [|done].
    apply inv_entry0 in Hu. unfold id, g in *. lia. }
  assert (Hsts : tc_snapshot_ts (at_context txn) = sn_read_ts (at_snapshot txn))
    by by rewrite Hctx.
  split; simpl; fold g in inv_ts0 |- *.
  - lia.
  - apply snap_inv_open with g; fold g; try lia; try done.
    intros Hr. specialize (Hro Hr). lia.
  - apply map_Forall_insert_2.
    + split_and!; [by rewrite Hctx|unfold id; lia|]. unfold entry_status. rewrite Hst, Hctx.
      apply ctx_new_wf.
    + eapply entry_inv_mono; [exact inv_entry0|]. fold g. lia.
  - apply intent_inv_insert; [done..|]. intros u Hu. congruence.
  - apply log_inv_open with g; fold g; try done; unfold id; lia.
  - by apply order_inv_insert.
  - by eapply stores_inv_mono.
Qed.

(** *** The calls, one by one *)

Lemma abort_timed_out_inv tm prep hist now :
  inv tm prep hist -> inv (abort_timed_out_txns tm now) prep hist.
Proof.
  unfold abort_timed_out_txns. generalize ((map_to_list (filter
    (fun it => at_status it.2 = Active /\ idle_too_long tm it.2 now = true)
    (tm_active_txns tm))).*1) as ids. intros ids. revert tm.
  induction ids as [|id ids IH]; intros tm Hinv; [done|]. simpl. apply IH.
  destruct (tm_active_txns tm !! id) as [txn|] eqn:Hid; [|done].
  by eapply abort_entry_inv.
Qed.

Lemma begin_inv tm prep hist now :
  inv tm prep hist -> counters_below (TS_INF - 1) (tm_globals tm) ->
  inv (TxnManager_begin tm now).2 prep hist.
Proof.
  intros Hinv (? & ? & ?). unfold TxnManager_begin. simpl. apply abort_timed_out_inv.
  pose proof (inv_ts _ _ _ Hinv) as (? & ? & ?).
  apply (open_inv tm prep hist _ (mkActiveTxn _ (mkSnapshot _ _ false) Active now));
    simpl; rewrite ?wrap64_next by lia; done || lia.
Qed.

Lemma begin_read_only_inv tm prep hist now :
  inv tm prep hist -> counters_below (TS_INF - 1) (tm_globals tm) ->
  inv (begin_read_only tm now).2 prep hist.
Proof.
  intros Hinv (? & ? & ?). unfold begin_read_only. simpl.
  pose proof (inv_ts _ _ _ Hinv) as (? & ? & ?).
  apply (open_inv tm prep hist _ (mkActiveTxn _ (mkSnapshot _ _ true) Active now));
    simpl; rewrite ?wrap64_next by lia; done || lia.
Qed.

(** Replacing the context of an active entry by one the same transaction reached. *)
Lemma context_update_inv tm prep hist id txn ctx' now :
  inv tm prep hist -> tm_active_txns tm !! id = Some txn -> at_status txn = Active ->
  ctx_wf ctx' -> ctx_same_txn (at_context txn) ctx' ->
  inv (set_entry tm id (mkActiveTxn ctx' (at_snapshot txn) Active now)) prep hist.
Proof.
  intros [] Hid Hst Hwf (Hti & Hts & Hro & Hfin). split; simpl.
  - done.
  - destruct inv_snap0 as (? & ? & Hent & Hinj). split_and!; [done..| |].
    + apply map_Forall_insert_2; [|done]. destruct (Hent _ _ Hid) as (? & ? & ? & ?).
      unfold entry_snapshot. simpl. rewrite Hts, Hro. done.
    + intros i j t u [[<- <-]|[_ Ht]]%lookup_insert_Some [[<- <-]|[_ Hu]]%lookup_insert_Some;
        simpl; intros Heq; eauto.
  - apply map_Forall_insert_2; [|done]. destruct (inv_entry0 _ _ Hid) as (? & ? & ?).
    simpl. rewrite Hti. split_and!; done.
  - apply intent_inv_insert; [done..|]. intros u Hu. congruence.
  - destruct inv_log0 as (Hl & Hh & Hc). rewrite Forall_forall in Hh. split_and!; [done| |].
    + apply Forall_forall. intros r Hr. destruct (Hh _ Hr) as (? & ? & Hn).
      split_and!; [lia..|]. rewrite lookup_insert_ne; [done|]. intros ->. congruence.
    + intros r k i u Hr Hk [[<- <-]|[_ Hu]]%lookup_insert_Some; simpl; [rewrite Hts|]; eauto.
  - by apply order_inv_insert.
  - done.
Qed.

Lemma with_context_inv tm prep hist id now ops :
  inv tm prep hist ->
  inv (with_context tm id now (fun ctx => (ctx_run ctx ops, Ok tt))).1 prep hist.
Proof.
  intros Hinv. unfold with_context.
  destruct (tm_active_txns tm !! id) as [txn|] eqn:Hid; [|done].
  case_bool_decide as Hst; simpl; [|done]. case_match; simpl.
  - by eapply abort_entry_inv.
  - rewrite Hst. apply context_update_inv; [done..| |apply ctx_run_same_txn].
    apply ctx_run_wf. destruct (inv_entry _ _ _ Hinv _ _ Hid) as (_ & _ & Hs).
    unfold entry_status in Hs. by rewrite Hst in Hs.
Qed.

Lemma rollback_inv tm prep hist id : inv tm prep hist -> inv (rollback tm id).1 prep hist.
Proof.
  intros Hinv. unfold rollback.
  destruct (tm_active_txns tm !! id) as [txn|] eqn:Hid; [|done]. by eapply abort_entry_inv.
Qed.

Lemma get_version_store_inv tm prep hist table :
  inv tm prep hist -> inv (get_version_store tm table).2 prep hist.
Proof.
  intros Hinv. unfold get_version_store. case_match; [done|]. destruct Hinv. split; simpl; try done.
  apply map_Forall_insert_2; [|done]. apply map_Forall_empty.
Qed.

Lemma read_versioned_inv tm prep hist id table r :
  inv tm prep hist -> inv (read_versioned tm id table r).1 prep hist.
Proof.
  intros Hinv. unfold read_versioned. case_match; [|done].
  pose proof (get_version_store_inv tm prep hist table Hinv) as Hi.
  by destruct (get_version_store tm table).
Qed.

(** *** Prepare *)

(** Moving a validated transaction to [Validating] with its intents acquired. *)
Lemma prepared_inv tm prep hist id txn cd :
  inv tm prep hist -> tm_active_txns tm !! id = Some txn -> at_status txn = Active ->
  cd_committed_writes cd = cd_committed_writes (tm_conflict_detector tm) ->
  (forall k, cd_active_writes cd !! k =
     if decide (k ∈ tc_write_keys (at_context txn)) then Some id
     else cd_active_writes (tm_conflict_detector tm) !! k) ->
  (forall k t, k ∈ tc_write_keys (at_context txn) ->
     cd_active_writes (tm_conflict_detector tm) !! k = Some t -> t = id) ->
  (forall r k, r ∈ hist -> k ∈ cr_keys r -> k ∈ tc_write_keys (at_context txn) ->
     cr_commit_ts r <= tc_snapshot_ts (at_context txn)) ->
  inv (set_entry (set_conflict_detector tm cd) id
         (mkActiveTxn (take_write_set (at_context txn)).1 (at_snapshot txn) Validating
            (at_last_activity txn)))
    (<[id := mkPreparedCommit id (take_write_set (at_context txn)).2]> prep) hist.
Proof.
  intros [] Hid Hst Hlog Haw Hown Hval. split; simpl.
  - done.
  - destruct inv_snap0 as (? & ? & Hent & Hinj). split_and!; [done..| |].
    + apply map_Forall_insert_2; [|done]. apply (Hent _ _ Hid).
    + intros i j t u [[<- <-]|[_ Ht]]%lookup_insert_Some [[<- <-]|[_ Hu]]%lookup_insert_Some;
        simpl; intros Heq; eauto.
  - intros i u [[<- <-]|[Hne Hu]]%lookup_insert_Some; simpl.
    + destruct (inv_entry0 _ _ Hid) as (? & ? & Hs). split_and!; [done..|].
      unfold entry_status in *. simpl. rewrite Hst in Hs. destruct Hs as (Hidx & Hro & _).
      eexists. rewrite lookup_insert_eq. split_and!; [done..| |done].
      unfold writes_keys. simpl. by rewrite Hidx.
    + destruct (inv_entry0 _ _ Hu) as (? & ? & Hs). split_and!; [done..|].
      unfold entry_status in *. destruct (at_status u); try done.
      by rewrite lookup_insert_ne.
  - intros k t. rewrite Haw. split.
    + case_decide as Hk.
      * intros [= <-]. eexists. rewrite lookup_insert_eq. done.
      * intros (u & Hu & Hs & Hku)%inv_intent0. exists u. split_and!; [|done..].
        rewrite lookup_insert_ne; [done|]. intros ->. congruence.
    + intros (u & [[<- <-]|[Hne Hu]]%lookup_insert_Some & Hs & Hk); simpl in *.
      * by rewrite decide_True.
      * assert (cd_active_writes (tm_conflict_detector tm) !! k = Some t) as Ha
          by (apply inv_intent0; eauto).
        case_decide as Hkk; [|done]. by rewrite (Hown _ _ Hkk Ha).
  - rewrite Hlog. destruct inv_log0 as (Hl & Hh & Hc). rewrite Forall_forall in Hh.
    split_and!; [done| |].
    + apply Forall_forall. intros r Hr. destruct (Hh _ Hr) as (? & ? & Hn).
      split_and!; [lia..|]. rewrite lookup_insert_ne; [done|]. intros ->. congruence.
    + intros r k i u Hr Hk [[<- <-]|[_ Hu]]%lookup_insert_Some; simpl; eauto.
  - destruct inv_order0 as (Hv & Ho). split; [|done].
    intros r k i u Hr Hk [[<- <-]|[_ Hu]]%lookup_insert_Some Hs Hku; simpl in *; eauto.
  - done.
Qed.

(** A snapshot-missing commit of one of the transaction's rows is in the log, so
    validation against the log is validation against the whole history. *)
Lemma validate_complete tm prep hist id txn :
  inv tm prep hist -> tm_active_txns tm !! id = Some txn ->
  ConflictResult_is_ok (validate (tm_conflict_detector tm) (at_context txn)) = true <->
  forall r k, r ∈ hist -> k ∈ cr_keys r -> tc_snapshot_ts (at_context txn) < cr_commit_ts r ->
    (k ∉ read_key <$> tc_read_set (at_context txn)) /\ k ∉ tc_write_keys (at_context txn).
Proof.
  intros [] Hid. pose proof (proj1 (inv_entry0 _ _ Hid)) as Htid.
  destruct inv_log0 as (Hl & Hh & Hc). rewrite Forall_forall in Hl. rewrite Forall_forall in Hh.
  rewrite validate_ok_iff, Htid. split.
  - intros Hv r k Hr Hk Hlt. destruct (Hc _ _ _ _ Hr Hk Hid Hlt) as (cw & Hcw & (Ht & Hts & _) & <-).
    apply Hv; [done|]. split; [lia|]. rewrite Ht. intros Heq.
    destruct (Hh _ Hr) as (_ & _ & Hn). congruence.
  - intros Hv cw Hcw [Hlt _]. destruct (Hl _ Hcw) as (r & Hr & _ & Hts & Hk).
    apply (Hv r); [done|done|lia].
Qed.

Lemma no_writes_no_keys (ctx : TxnContext V) :
  ctx_wf ctx -> has_writes ctx = false -> tc_write_keys ctx = ∅.
Proof.
  intros (Hidx & _) Hw. unfold has_writes in Hw. zb. case_bool_decide as Hnil; [|done].
  rewrite Hnil in Hidx. by injection Hidx.
Qed.

(** The outstanding tokens after a preparation. *)
Definition add_prepared prep (id : Z) (res : Result (PreparedCommit V)) :=
  match res with Ok pc => <[id := pc]> prep | Err _ => prep end.

Lemma prepare_commit_inv tm prep hist id :
  inv tm prep hist ->
  inv (prepare_commit tm id).1 (add_prepared prep id (prepare_commit tm id).2) hist.
Proof.
  intros Hinv. unfold prepare_commit.
  destruct (tm_active_txns tm !! id) as [txn|] eqn:Hid; [|done].
  case_bool_decide as Hst; [|done]. cbn [negb with_status at_context at_snapshot].
  destruct (take_write_set (at_context txn)) as [ctx' writes] eqn:Htake.
  assert (Hwf : ctx_wf (at_context txn)).
  { destruct (inv_entry _ _ _ Hinv _ _ Hid) as (_ & _ & Hs).
    unfold entry_status in Hs. by rewrite Hst in Hs. }
  pose proof (proj1 (inv_entry _ _ _ Hinv _ _ Hid)) as Htid.
  replace ctx' with (take_write_set (at_context txn)).1 by by rewrite Htake.
  replace writes with (take_write_set (at_context txn)).2 by by rewrite Htake.
  destruct (has_writes (at_context txn)) eqn:Hhw.
  - destruct (ConflictResult_is_ok (validate _ _)) eqn:Hval; simpl; [|by eapply abort_entry_inv].
    pose proof (acquire_write_intent_spec (tm_conflict_detector tm) (at_context txn)) as Hacq.
    destruct (acquire_write_intent _ _) as [cd res]. rewrite Htid in Hacq.
    destruct Hacq as (Hiff & Hlog & Hsame & Hown).
    destruct (ConflictResult_is_ok res) eqn:Hres; simpl.
    + apply prepared_inv; [done..|by apply Hown|by apply Hiff|].
      intros r k Hr Hk Hw. rewrite (validate_complete _ _ _ _ _ Hinv Hid) in Hval.
      destruct (decide (cr_commit_ts r <= tc_snapshot_ts (at_context txn))); [done|].
      destruct (Hval r k) as [_ Hn]; [done|done|lia|done].
    + rewrite Hsame by done. replace (set_conflict_detector tm _) with tm by by destruct tm.
      by eapply abort_entry_inv.
  - simpl. pose proof (no_writes_no_keys _ Hwf Hhw) as Hno.
    replace (set_entry tm id) with
      (set_entry (set_conflict_detector tm (tm_conflict_detector tm)) id) by by destruct tm.
    apply prepared_inv; [done..| | |]; rewrite Hno.
    + intros k. by rewrite decide_False by set_solver.
    + set_solver.
    + set_solver.
Qed.

(** *** Finalize: the version stores *)

Lemma store_inv_put b st r c n :
  store_inv b st -> chain_wf c -> chain_head_ts c < b ->
  store_inv b (mkVersionStore (<[r := c]> (vs_chains st)) n).
Proof. intros Hst Hc Hb. by apply map_Forall_insert_2. Qed.

Lemma seed_old_data_inv ts st r (old : gmap string V) :
  store_inv (ts + 1) st -> 1 <= ts < TS_INF -> store_inv (ts + 1) (seed_old_data st r old).
Proof.
  intros Hst Hts. unfold seed_old_data. repeat case_match; try done.
  apply store_inv_put; [done|apply chain_new_wf; simpl; done || lia|].
  unfold chain_head_ts. simpl. lia.
Qed.

(** A version added at the commit timestamp. *)
Lemma add_version_inv ts st r c v n :
  store_inv (ts + 1) st -> vs_chains st !! r = Some c -> 1 <= ts < TS_INF ->
  rv_begin_ts v = ts -> rv_end_ts v = TS_INF ->
  store_inv (ts + 1) (mkVersionStore (<[r := VersionChain_add_version c v]> (vs_chains st)) n).
Proof.
  intros Hst Hc Hts Hb He. destruct (Hst _ _ Hc) as [Hwf Hh].
  apply store_inv_put; [done|apply add_version_wf; [done..|lia]|].
  destruct c as [? [|? ?]]; unfold chain_head_ts; simpl; lia.
Qed.

Lemma apply_write_spec tm ts w :
  1 <= ts < TS_INF -> map_Forall (fun _ st => store_inv (ts + 1) st) (tm_version_stores tm) ->
  exists stores, apply_write tm ts w = set_version_stores tm stores /\
    map_Forall (fun _ st => store_inv (ts + 1) st) stores.
Proof.
  intros Hts Hall.
  assert (Hget : forall t, exists stores, (get_version_store tm t).2 = set_version_stores tm stores /\
      store_inv (ts + 1) (get_version_store tm t).1 /\
      map_Forall (fun _ st => store_inv (ts + 1) st) stores).
  { intros t. unfold get_version_store. destruct (tm_version_stores tm !! t) as [st|] eqn:Hst.
    - exists (tm_version_stores tm). split_and!; [by destruct tm|by apply (Hall t)|done].
    - eexists. split_and!; [done|apply map_Forall_empty|].
      apply map_Forall_insert_2; [apply map_Forall_empty|done]. }
  destruct w as [t r d|t r o d|t r o]; simpl; destruct (Hget t) as (stores & Heq & Hst & Hs);
    destruct (get_version_store tm t) as [st tm1]; simpl in *; subst tm1; eexists;
    (split; [done|]); (apply map_Forall_insert_2; [|done]).
  - apply store_inv_put; [done|apply chain_new_wf; simpl; done || lia|].
    unfold chain_head_ts. simpl. lia.
  - pose proof (seed_old_data_inv ts st r o Hst Hts) as Hseed. unfold VersionStore_update.
    case_match eqn:Hc; simpl; [|done]. by eapply add_version_inv.
  - pose proof (seed_old_data_inv ts st r o Hst Hts) as Hseed. unfold VersionStore_delete.
    case_match eqn:Hc; simpl; [|done]. by eapply add_version_inv.
Qed.

Lemma apply_writes_spec tm ts ws :
  1 <= ts < TS_INF -> map_Forall (fun _ st => store_inv (ts + 1) st) (tm_version_stores tm) ->
  exists stores, fold_left (fun tm w => apply_write tm ts w) ws tm = set_version_stores tm stores /\
    map_Forall (fun _ st => store_inv (ts + 1) st) stores.
Proof.
  intros Hts. revert tm. induction ws as [|w ws IH]; intros tm Hall; simpl.
  - exists (tm_version_stores tm). split; [by destruct tm|done].
  - destruct (apply_write_spec tm ts w Hts Hall) as (stores & -> & Hs).
    destruct (IH (set_version_stores tm stores) Hs) as (stores' & -> & Hs').
    by exists stores'.
Qed.

(** The collector visits every store once and leaves it alone or collects it at
    the oldest open snapshot. *)
Lemma gc_stores_lookup gc sm now (stores : gmap string (VersionStore V)) t :
  match stores !! t with
  | None => (gc_stores gc sm now stores).2 !! t = None
  | Some st => exists st', (gc_stores gc sm now stores).2 !! t = Some st' /\
      (st' = st \/ st' = (VersionStore_gc st (oldest_active_timestamp sm)).1)
  end.
Proof.
  unfold gc_stores.
  assert (Hgen : forall (l : list (string * VersionStore V)) gc (m : gmap string (VersionStore V)),
    NoDup l.*1 -> (forall k x, (k, x) ∈ l -> m !! k = Some x) ->
    match m !! t with
    | None => (fold_left (fun acc it =>
        let '(gc, st, _) := GarbageCollector_maybe_run acc.1 it.2 sm now in
        (gc, <[it.1 := st]> acc.2)) l (gc, m)).2 !! t = None
    | Some st => exists st', (fold_left (fun acc it =>
        let '(gc, st, _) := GarbageCollector_maybe_run acc.1 it.2 sm now in
        (gc, <[it.1 := st]> acc.2)) l (gc, m)).2 !! t = Some st' /\
        (st' = st \/ st' = (VersionStore_gc st (oldest_active_timestamp sm)).1 /\ t ∈ l.*1)
    end).
  { clear gc stores. induction l as [|[k x] l IH]; intros gc m Hnd Hl; simpl.
    - case_match; eauto.
    - apply NoDup_cons in Hnd as [Hk Hnd].
      destruct (GarbageCollector_maybe_run gc x sm now) as [[gc' x'] stats] eqn:Hrun.
      assert (Hx' : x' = x \/ x' = (VersionStore_gc x (oldest_active_timestamp sm)).1).
      { unfold GarbageCollector_maybe_run, GarbageCollector_run in Hrun.
        destruct (VersionStore_gc x _) eqn:Hg. repeat case_match; simplify_eq/=; auto. }
      specialize (IH gc' (<[k := x']> m) Hnd). rewrite lookup_insert in IH.
      case_decide as Hkt.
      + subst k. rewrite (Hl t x) by by left. destruct IH as (st' & Hst' & [->|[_ Hin]]); [| |done].
        * intros k y Hy. rewrite lookup_insert_ne; [apply Hl; by right|].
          intros ->. apply Hk. apply list_elem_of_fmap. by exists (k, y).
        * exists x'. split; [done|]. destruct Hx' as [->| ->]; [by left|right].
          split; [done|by left].
      + assert (Hl' : forall k' y, (k', y) ∈ l -> <[k:=x']> m !! k' = Some y).
        { intros k' y Hy. rewrite lookup_insert_ne; [apply Hl; by right|].
          intros ->. apply Hk. apply list_elem_of_fmap. by exists (k', y). }
        specialize (IH Hl'). destruct (m !! t); [|done].
        destruct IH as (st' & Hst' & Hor). exists st'. split; [done|].
        destruct Hor as [?|[? ?]]; [by left|right; split; [done|by right]]. }
  specialize (Hgen (map_to_list stores) gc stores (NoDup_fst_map_to_list _)
                (fun k x Hin => proj1 (elem_of_map_to_list _ _ _) Hin)).
  destruct (stores !! t); [|done]. naive_solver.
Qed.

Lemma store_inv_wf b st : store_inv b st -> store_wf st.
Proof. intros H r c Hc. by destruct (H r c Hc). Qed.

Lemma store_gc_inv b st o : store_inv b st -> store_inv b (VersionStore_gc st o).1.
Proof.
  intros Hst r c'. rewrite store_gc_lookup.
  destruct (vs_chains st !! r) as [c|] eqn:Hc; simpl; [|done].
  destruct (Hst _ _ Hc) as [Hwf Hh]. case_match; [|done]. intros [= <-].
  split; [by apply chain_gc_wf|]. by rewrite chain_gc_head_ts.
Qed.

Lemma gc_stores_inv b gc sm now (stores : gmap string (VersionStore V)) :
  map_Forall (fun _ st => store_inv b st) stores ->
  map_Forall (fun _ st => store_inv b st) (gc_stores gc sm now stores).2.
Proof.
  intros Hall t st' Hst'. pose proof (gc_stores_lookup gc sm now stores t) as Hl.
  destruct (stores !! t) as [st|] eqn:Hst; [|congruence].
  destruct Hl as (st2 & Heq & Hor). assert (st' = st2) as -> by congruence.
  apply Hall in Hst. destruct Hor as [->| ->]; [done|by apply store_gc_inv].
Qed.

(** *** Finalize: the whole step *)

Lemma snap_inv_mono g g' sm active :
  snap_inv g sm active -> g_ts g <= g_ts g' -> g_snapshot_id g <= g_snapshot_id g' ->
  snap_inv g' sm active.
Proof.
  intros (Hwf & Hids & Hent & Hinj) Hts Hid. split_and!; [done| |..|done].
  - eapply map_Forall_impl; [exact Hids|]. simpl. lia.
  - eapply map_Forall_impl; [exact Hent|]. simpl. intros i u (? & ? & ? & Hr).
    split_and!; [done..|lia|]. intros Hf. specialize (Hr Hf). lia.
Qed.

Definition commit_entries (txn_id commit_ts : Z) (ws : list (TxnWrite V)) : list CommittedWrite :=
  (fun w => mkCommittedWrite txn_id commit_ts (TxnWrite_table w) (TxnWrite_row_id w)) <$> ws.

Lemma commit_entries_spec id ts ws cw :
  cw ∈ commit_entries id ts ws <->
  cw_txn_id cw = id /\ cw_commit_ts cw = ts /\ cw_key cw ∈ writes_keys ws.
Proof.
  unfold commit_entries, writes_keys. rewrite list_elem_of_fmap, write_indexes_keys. split.
  - intros (w & -> & Hw). simpl. split_and!; [done..|]. exists w. by split.
  - intros (<- & <- & w & Hw & Hk). exists w. split; [|done]. destruct cw.
    unfold cw_key, write_key in Hk. simpl in *. by injection Hk as <- <-.
Qed.

(** The log after recording a commit. *)
Lemma log_inv_commit g g' active log hist id txn ws :
  log_inv g active log hist -> active !! id = Some txn -> id < g_txn_id g ->
  tc_snapshot_ts (at_context txn) <= g_ts g ->
  tc_write_keys (at_context txn) = writes_keys ws ->
  g_ts g < g_ts g' -> g_txn_id g = g_txn_id g' ->
  log_inv g' (delete id active) (log ++ commit_entries id (g_ts g) ws)
    (mkCommitRecord id (tc_snapshot_ts (at_context txn)) (g_ts g)
       (tc_write_keys (at_context txn)) :: hist).
Proof.
  intros (Hl & Hh & Hc) Hid Hlt Hsn Hkeys Hg Hgt. split_and!.
  - apply Forall_app. split.
    + eapply Forall_impl; [exact Hl|]. intros cw (r & Hr & Hcw). exists r.
      split; [by right|done].
    + apply Forall_forall. intros cw (<- & Hts & Hk)%commit_entries_spec.
      eexists. split; [by left|]. split_and!; simpl; [done..|]. by rewrite Hkeys.
  - constructor; simpl.
    + split_and!; [lia..|]. apply lookup_delete_None. by left.
    + eapply Forall_impl; [exact Hh|]. simpl. intros r (? & ? & Hn).
      split_and!; [lia..|]. apply lookup_delete_None. by right.
  - intros r k i u [->|Hr]%elem_of_cons Hk [Hne Hu]%lookup_delete_Some Hs; simpl in *.
    + exists (mkCommittedWrite id (g_ts g) k.1 k.2). destruct k as [tb r]. simpl.
      split_and!; [|split_and!; done|done].
      apply elem_of_app. right. apply commit_entries_spec. by rewrite <-Hkeys.
    + destruct (Hc r k i u Hr Hk Hu Hs) as (cw & Hcw & ? & ?). exists cw.
      split_and!; [|done..]. apply elem_of_app. by left.
Qed.

(** Trimming the log at the oldest open snapshot loses nothing an open
    transaction can conflict with. *)
Lemma log_inv_trim g sm active cd hist :
  log_inv g active (cd_committed_writes cd) hist -> snap_inv g sm active ->
  log_inv g active (cd_committed_writes (trim_conflict_log cd (oldest_active_timestamp sm))) hist.
Proof.
  intros (Hl & Hh & Hc) (Hwf & _ & Hent & _). unfold trim_conflict_log.
  destruct (_ =? U64_MAX) eqn:Hmax; zb.
  - apply oldest_active_max in Hmax; [|done]. split_and!; [constructor|done|].
    intros r k i u _ _ Hu. destruct (Hent _ _ Hu) as [Hs _]. rewrite Hmax in Hs.
    by rewrite lookup_empty in Hs.
  - simpl. split_and!; [|done|].
    + apply Forall_forall. intros cw Hcw. rewrite Forall_forall in Hl. apply Hl.
      apply list_elem_of_In in Hcw. apply List.filter_In in Hcw as [Hcw _].
      by apply list_elem_of_In.
    + intros r k i u Hr Hk Hu Hs. destruct (Hc r k i u Hr Hk Hu Hs) as (cw & Hcw & Hof & Hkk).
      exists cw. split_and!; [|done..]. apply list_elem_of_In, List.filter_In.
      split; [by apply list_elem_of_In|]. apply Z.leb_le.
      destruct (Hent _ _ Hu) as (Hsn & Hts & _). pose proof (oldest_active_le _ _ _ Hwf Hsn).
      destruct Hof as (_ & Hcts & _). lia.
Qed.

(** The new commit does not overlap an earlier one on its rows, and the rows of
    the transactions still validating are not its own. *)
Lemma order_inv_commit active aw hist id txn ts :
  order_inv active hist -> intent_inv active aw -> active !! id = Some txn ->
  at_status txn = Validating ->
  order_inv (delete id active)
    (mkCommitRecord id (tc_snapshot_ts (at_context txn)) ts (tc_write_keys (at_context txn)) :: hist).
Proof.
  intros (Hv & Ho) Hint Hid Hst. split.
  - intros r k i u [->|Hr]%elem_of_cons Hk [Hne Hu]%lookup_delete_Some Hs Hku; simpl in *.
    + assert (aw !! k = Some id) by (apply Hint; eauto).
      assert (aw !! k = Some i) by (apply Hint; eauto). congruence.
    + by eapply Hv.
  - intros r1 r2 k [->|H1]%elem_of_cons [->|H2]%elem_of_cons Hk1 Hk2 Hne; simpl in *; [done|..].
    + right. simpl. by eapply Hv.
    + left. simpl. by eapply Hv.
    + by eapply Ho.
Qed.

Lemma trim_active_writes cd o : cd_active_writes (trim_conflict_log cd o) = cd_active_writes cd.
Proof. unfold trim_conflict_log. by case_match. Qed.

Lemma entry_inv_finish g g' prep active id :
  entry_inv g prep active -> g_txn_id g = g_txn_id g' ->
  entry_inv g' (delete id prep) (delete id active).
Proof.
  intros He Hg i u [Hne Hu]%lookup_delete_Some. destruct (He _ _ Hu) as (? & ? & Hs).
  split_and!; [done|lia|]. unfold entry_status in *. destruct (at_status u); try done.
  by rewrite lookup_delete_ne.
Qed.

(** Publication, with the manager's fields spelled out. *)
Lemma finalize_commit_inv tm prep hist id pc now :
  inv tm prep hist -> counters_below (TS_INF - 1) (tm_globals tm) ->
  prep !! id = Some pc -> pc_txn_id pc = id ->
  match finalize_commit tm pc now with
  | (tm', Ok _) => inv tm' (delete id prep) (finalize_record tm id ++ hist)
  | (tm', Err _) => tm' = tm /\
      forall txn, tm_active_txns tm !! id = Some txn -> at_status txn <> Validating
  end.
Proof.
  intros Hinv (Hts & _ & _) Hpc Hpid. unfold finalize_commit, finalize_record. rewrite Hpid.
  destruct (tm_active_txns tm !! id) as [txn|] eqn:Hid; [|done].
  case_bool_decide as Hst; cbn [negb]; [|split; [done|]; by intros ? [= <-]].
  destruct Hinv as [Hg Hsnap Hent Hint Hlog Hord Hsto].
  destruct (Hent _ _ Hid) as (Htid & Hlt & Hs). unfold entry_status in Hs. rewrite Hst in Hs.
  destruct Hs as (pc' & Hpc' & _ & Hkeys & _). assert (pc' = pc) as -> by congruence.
  assert (Hsts : tc_snapshot_ts (at_context txn) <= g_ts (tm_globals tm)).
  { destruct Hsnap as (_ & _ & He & _). destruct (He _ _ Hid) as (_ & ? & ? & _). lia. }
  cbn [next_timestamp]. unfold next_timestamp. rewrite wrap64_next by lia.
  match goal with |- context [fold_left _ _ ?t] => set (tm1 := t) end.
  destruct (apply_writes_spec tm1 (g_ts (tm_globals tm)) (pc_writes pc)) as (stores & -> & Hstores);
    [lia|eapply (stores_inv_mono _ (mkGlobals (g_ts (tm_globals tm) + 1) 0 0)); [exact Hsto|simpl; lia]|].
  assert (Hsnap' : snap_inv (mkGlobals (g_ts (tm_globals tm) + 1) (g_snapshot_id (tm_globals tm))
      (g_txn_id (tm_globals tm))) (SnapshotManager_release (tm_snapshot_manager tm)
      (sn_id (at_snapshot txn))) (delete id (tm_active_txns tm))).
  { eapply snap_inv_mono; [by apply snap_inv_remove|simpl; lia..]. }
  split; simpl.
  - lia.
  - exact Hsnap'.
  - by eapply entry_inv_finish.
  - rewrite trim_active_writes. simpl. by apply intent_inv_remove.
  - apply (log_inv_trim _ (SnapshotManager_release (tm_snapshot_manager tm)
      (sn_id (at_snapshot txn))) _ (record_prepared_commit (tm_conflict_detector tm) id
      (pc_writes pc) (tc_write_keys (at_context txn)) (g_ts (tm_globals tm))));
      [|exact Hsnap'].
    eapply log_inv_commit; [exact Hlog|done..|simpl; lia|done].
  - by eapply order_inv_commit.
  - intros t st [Hst' _]%map_lookup_filter_Some. simpl.
    by eapply (gc_stores_inv _ _ _ _ _ Hstores).
Qed.

(** *** All calls *)

Definition sys_ok s : Prop :=
  sys_inv s /\ map_Forall (fun id pc => pc_txn_id pc = id) (sys_prepared s).

Lemma prepared_token tm id :
  match (prepare_commit tm id).2 with Ok pc => pc_txn_id pc = id | Err _ => True end.
Proof. unfold prepare_commit. repeat case_match; by simplify_eq/=. Qed.

Lemma sys_call_ok s c :
  sys_ok s -> counters_below (TS_INF - 1) (tm_globals (sys_mgr s)) -> sys_ok (sys_call s c).
Proof.
  intros [Hinv Htok] Hc. unfold sys_ok, sys_inv in *. destruct c; simpl.
  - split; [by apply begin_inv|done].
  - split; [by apply begin_read_only_inv|done].
  - split; [by apply with_context_inv|done].
  - pose proof (prepare_commit_inv _ _ _ txn_id Hinv) as Hp.
    pose proof (prepared_token (sys_mgr s) txn_id) as Ht.
    destruct (prepare_commit (sys_mgr s) txn_id) as [tm' [pc|e]]; simpl in *; [|done].
    split; [done|]. by apply map_Forall_insert_2.
  - destruct (sys_prepared s !! txn_id) as [pc|] eqn:Hpc; [|done].
    pose proof (finalize_commit_inv _ _ _ _ _ now_millis Hinv Hc Hpc (Htok _ _ Hpc)) as Hf.
    destruct (finalize_commit (sys_mgr s) pc now_millis) as [tm' [ws|e]]; simpl.
    + split; [done|]. by apply map_Forall_delete.
    + destruct Hf as [-> Hno]. split; [|by apply map_Forall_delete].
      destruct Hinv. split; try done. simpl. intros i u Hu.
      destruct (inv_entry0 _ _ Hu) as (? & ? & Hs). split_and!; [done..|].
      unfold entry_status in *. destruct (at_status u) eqn:Hst; try done.
      rewrite lookup_delete_ne; [done|]. intros ->. by eapply Hno.
  - split; [by apply rollback_inv|done].
  - split; [by apply read_versioned_inv|done].
Qed.

(** A call moves each counter forward by at most one. *)
Definition globals_step g g' : Prop :=
  g_ts g <= g_ts g' <= g_ts g + 1 /\ g_snapshot_id g <= g_snapshot_id g' <= g_snapshot_id g + 1 /\
  g_txn_id g <= g_txn_id g' <= g_txn_id g + 1.

Lemma globals_step_refl g : globals_step g g.
Proof. unfold globals_step. lia. Qed.

Lemma abort_timed_out_globals tm now :
  tm_globals (abort_timed_out_txns tm now) = tm_globals tm.
Proof.
  unfold abort_timed_out_txns. generalize ((map_to_list (filter
    (fun it => at_status it.2 = Active /\ idle_too_long tm it.2 now = true)
    (tm_active_txns tm))).*1) as ids. intros ids. revert tm.
  induction ids as [|id ids IH]; intros tm; [done|]. simpl. rewrite IH. by case_match.
Qed.

Lemma get_version_store_globals tm t : tm_globals (get_version_store tm t).2 = tm_globals tm.
Proof. unfold get_version_store. by case_match. Qed.

Lemma apply_writes_globals tm ts ws :
  tm_globals (fold_left (fun tm w => apply_write tm ts w) ws tm) = tm_globals tm.
Proof.
  revert tm. induction ws as [|w ws IH]; intros tm; [done|]. simpl. rewrite IH.
  destruct w as [t r d|t r o d|t r o]; simpl; pose proof (get_version_store_globals tm t);
    by destruct (get_version_store tm t).
Qed.

Lemma sys_call_globals s c :
  sys_inv s -> counters_below (TS_INF - 1) (tm_globals (sys_mgr s)) ->
  globals_step (tm_globals (sys_mgr s)) (tm_globals (sys_mgr (sys_call s c))).
Proof.
  intros Hinv (? & ? & ?). pose proof (inv_ts _ _ _ Hinv) as (? & ? & ?).
  pose proof (wrap64_next (g_ts (tm_globals (sys_mgr s))) ltac:(lia)).
  pose proof (wrap64_next (g_snapshot_id (tm_globals (sys_mgr s))) ltac:(lia)).
  pose proof (wrap64_next (g_txn_id (tm_globals (sys_mgr s))) ltac:(lia)).
  destruct c; simpl.
  - rewrite abort_timed_out_globals. unfold globals_step. simpl. lia.
  - unfold globals_step. simpl. lia.
  - unfold with_context. repeat case_match; apply globals_step_refl.
  - unfold prepare_commit. repeat case_match; simplify_eq/=; apply globals_step_refl.
  - destruct (sys_prepared s !! txn_id) as [pc|]; [|apply globals_step_refl].
    unfold finalize_commit. destruct (tm_active_txns _ !! _); [|apply globals_step_refl].
    case_bool_decide; [|apply globals_step_refl]. simpl. rewrite apply_writes_globals.
    unfold globals_step. simpl. lia.
  - unfold rollback. case_match; apply globals_step_refl.
  - unfold read_versioned. case_match; [|apply globals_step_refl].
    pose proof (get_version_store_globals (sys_mgr s) table) as Hg.
    destruct (get_version_store (sys_mgr s) table). simpl in *. rewrite Hg. apply globals_step_refl.
Qed.

Definition counters_above (n : Z) g : Prop :=
  n <= g_ts g /\ n <= g_snapshot_id g /\ n <= g_txn_id g.

(** Runs that end before a 64-bit counter can wrap. *)
Definition run_bounded (cs : list (call V)) : Prop := Z.of_nat (length cs) < TS_INF - 1.

Lemma sys_run_from s cs n :
  sys_ok s -> counters_below n (tm_globals (sys_mgr s)) ->
  n + Z.of_nat (length cs) <= TS_INF - 1 ->
  sys_ok (sys_run s cs) /\
  counters_below (n + Z.of_nat (length cs)) (tm_globals (sys_mgr (sys_run s cs))).
Proof.
  revert s n. induction cs as [|c cs IH]; intros s n Hok Hc Hn; simpl in *.
  - by rewrite Z.add_0_r.
  - assert (Hb : counters_below (TS_INF - 1) (tm_globals (sys_mgr s)))
      by (unfold counters_below in *; lia).
    pose proof (sys_call_globals s c (proj1 Hok) Hb) as Hg.
    destruct (IH (sys_call s c) (n + 1)) as [Hok' Hc'].
    + by apply sys_call_ok.
    + unfold counters_below, globals_step in *. lia.
    + lia.
    + split; [done|]. unfold counters_below in *. lia.
Qed.

Lemma sys_run_ok cs : run_bounded cs -> sys_ok (sys_run sys_init cs).
Proof.
  unfold run_bounded. intros Hb. apply (sys_run_from sys_init cs 1).
  - split; [apply sys_init_inv|apply map_Forall_empty].
  - unfold counters_below. simpl. lia.
  - lia.
Qed.
End invariant.
