(* ===== verification/TxnLedger.v ===== *)
(** * The books of the transaction manager

    A second invariant of reachable states, on top of [TxnSystem.sys_ok]: every
    transaction is open, committed or aborted exactly once, every registered
    snapshot belongs to an open transaction, and commit timestamps increase. *)
From S2P Require Import Prelude VersionStore Snapshot TxnContext Conflict TxnManager TxnSystem.
Local Open Scope Z_scope.

Section ledger.
Context {V : Type}.
Implicit Types (tm : TxnManager V) (s : system V) (txn : ActiveTxn V)
  (hist : list commit_record) (prep : gmap Z (PreparedCommit V)).

Definition newer_commit (r1 r2 : commit_record) : Prop := cr_commit_ts r2 < cr_commit_ts r1.

Record ledger tm hist : Prop := mkLedger {
  lg_committed : tm_total_committed tm = Z.of_nat (length hist);
  lg_aborted : 0 <= tm_total_aborted tm;
  lg_balance : g_txn_id (tm_globals tm) - 1 =
    tm_total_committed tm + tm_total_aborted tm + Z.of_nat (size (tm_active_txns tm));
  lg_owned : forall sid sn, sm_active (tm_snapshot_manager tm) !! sid = Some sn ->
    exists id txn, tm_active_txns tm !! id = Some txn /\ at_snapshot txn = sn;
  lg_sorted : StronglySorted newer_commit hist;
  lg_once : NoDup (cr_txn_id <$> hist)
}.

(** Dropping the entry that owns a snapshot drops the snapshot's last owner. *)
Lemma owned_remove g sm active id (txn : ActiveTxn V) :
  snap_inv g sm active -> active !! id = Some txn ->
  (forall sid sn, sm_active sm !! sid = Some sn ->
     exists i u, active !! i = Some u /\ at_snapshot u = sn) ->
  forall sid sn, sm_active (SnapshotManager_release sm (sn_id (at_snapshot txn))) !! sid = Some sn ->
    exists i u, delete id active !! i = Some u /\ at_snapshot u = sn.
Proof.
  intros ([_ Hfile] & _) Hid Hown sid sn Hs. simpl in Hs.
  apply lookup_delete_Some in Hs as [Hne Hs].
  destruct (Hown _ _ Hs) as (i & u & Hu & <-). exists i, u. split; [|done].
  rewrite lookup_delete_ne; [done|]. intros ->. simplify_eq.
  by destruct (Hfile _ _ Hs) as [? _].
Qed.

Lemma wrap64_incr x : 0 <= x < U64_MAX -> wrap64 (x + 1) = x + 1.
Proof. intros. apply wrap64_small. unfold u64. lia. Qed.

Lemma ledger_abort tm prep hist id txn0 txn :
  inv tm prep hist -> ledger tm hist -> g_txn_id (tm_globals tm) <= TS_INF ->
  tm_active_txns tm !! id = Some txn0 -> at_snapshot txn = at_snapshot txn0 ->
  ledger (abort_entry tm id txn) hist.
Proof.
  intros Hinv [] Hb Hid Hsn. unfold TS_INF in Hb.
  pose proof (map_size_delete_Some id _ (ex_intro _ _ Hid)) as Hsz.
  assert (size (tm_active_txns tm) <> 0%nat) as Hne.
  { intros Hz. apply map_size_empty_inv in Hz. rewrite Hz in Hid. by rewrite lookup_empty in Hid. }
  assert (0 <= tm_total_aborted tm < U64_MAX) by lia.
  split; simpl; rewrite ?wrap64_incr by done; try done; [lia|lia|].
  rewrite Hsn. by eapply owned_remove; [apply Hinv|..].
Qed.

Lemma ledger_timed_out tm prep hist now :
  inv tm prep hist -> ledger tm hist -> g_txn_id (tm_globals tm) <= TS_INF ->
  ledger (abort_timed_out_txns tm now) hist.
Proof.
  unfold abort_timed_out_txns. generalize ((map_to_list (filter
    (fun it => at_status it.2 = Active /\ idle_too_long tm it.2 now = true)
    (tm_active_txns tm))).*1) as ids. intros ids. revert tm.
  induction ids as [|id ids IH]; intros tm Hinv Hl Hb; [done|]. simpl.
  destruct (tm_active_txns tm !! id) as [txn|] eqn:Hid; [|by apply IH].
  apply IH; [by eapply abort_entry_inv|by eapply ledger_abort|done].
Qed.

(** A transaction registered under a fresh identifier. *)
Lemma ledger_open tm prep hist g' txn :
  let g := tm_globals tm in let id := g_txn_id g in
  inv tm prep hist -> ledger tm hist -> sn_id (at_snapshot txn) = g_snapshot_id g ->
  g_txn_id g' = id + 1 ->
  ledger (set_entry (set_snapshot_manager (set_globals tm g')
            (SnapshotManager_register (tm_snapshot_manager tm) (at_snapshot txn))) id txn) hist.
Proof.
  intros g id Hinv [] Hsid Hid.
  assert (Hnone : tm_active_txns tm !! id = None).
  { destruct (tm_active_txns tm !! id) as [u|] eqn:Hu; [|done].
    apply (inv_entry _ _ _ Hinv) in Hu. unfold id, g in *. lia. }
  split; simpl; try done.
  - rewrite map_size_insert_None by done. unfold id, g in *. lia.
  - intros sid sn [[<- <-]|[Hne Hs]]%lookup_insert_Some.
    + exists id, txn. by rewrite lookup_insert_eq.
    + destruct (lg_owned0 _ _ Hs) as (i & u & Hu & Ha). exists i, u. split; [|done].
      rewrite lookup_insert_ne; [done|congruence].
Qed.

(** Replacing an entry without changing its snapshot. *)
Lemma ledger_set_entry tm tm' hist id txn txn' :
  ledger tm hist -> tm_active_txns tm !! id = Some txn ->
  tm_active_txns tm' = <[id := txn']> (tm_active_txns tm) -> at_snapshot txn' = at_snapshot txn ->
  tm_total_committed tm' = tm_total_committed tm -> tm_total_aborted tm' = tm_total_aborted tm ->
  tm_globals tm' = tm_globals tm -> tm_snapshot_manager tm' = tm_snapshot_manager tm ->
  ledger tm' hist.
Proof.
  intros [] Hid Hact Hsn Hc Ha Hg Hsm. split; rewrite ?Hc, ?Ha, ?Hg, ?Hsm, ?Hact; try done.
  - by rewrite map_size_insert_Some by eauto.
  - intros sid sn Hs. destruct (lg_owned0 _ _ Hs) as (i & u & Hu & <-).
    destruct (decide (i = id)) as [->|Hne].
    + exists id, txn'. rewrite lookup_insert_eq. split; [done|congruence].
    + exists i, u. by rewrite lookup_insert_ne.
Qed.

Lemma ledger_finalize tm prep hist id pc now :
  inv tm prep hist -> ledger tm hist -> counters_below (TS_INF - 1) (tm_globals tm) ->
  prep !! id = Some pc -> pc_txn_id pc = id ->
  match finalize_commit tm pc now with
  | (tm', Ok _) => ledger tm' (finalize_record tm id ++ hist)
  | (tm', Err _) => True
  end.
Proof.
  intros Hinv [] (Hts & _ & Hb) Hpc Hpid. unfold TS_INF in *.
  unfold finalize_commit, finalize_record. rewrite Hpid.
  destruct (tm_active_txns tm !! id) as [txn|] eqn:Hid; [|done].
  case_bool_decide as Hst; cbn [negb]; [|done].
  unfold next_timestamp.
  match goal with |- context [fold_left _ _ ?t] => set (tm1 := t) end.
  destruct (apply_writes_spec tm1 (g_ts (tm_globals tm)) (pc_writes pc)) as (stores & -> & _).
  { pose proof (inv_ts _ _ _ Hinv). unfold TS_INF in *. lia. }
  { eapply (stores_inv_mono _ (mkGlobals (g_ts (tm_globals tm) + 1) 0 0));
      [apply (inv_stores _ _ _ Hinv)|simpl; lia]. }
  pose proof (map_size_delete_Some id _ (ex_intro _ _ Hid)) as Hsz.
  assert (size (tm_active_txns tm) <> 0%nat) as Hne.
  { intros Hz. apply map_size_empty_inv in Hz. rewrite Hz in Hid. by rewrite lookup_empty in Hid. }
  destruct (inv_log _ _ _ Hinv) as (_ & Hh & _). rewrite Forall_forall in Hh.
  split; simpl; rewrite ?wrap64_incr by lia; try done.
  - lia.
  - lia.
  - by eapply owned_remove; [apply Hinv|..].
  - constructor; [done|]. apply Forall_forall. intros r Hr. unfold newer_commit. simpl.
    destruct (Hh _ Hr). lia.
  - constructor; [|done]. intros (r & Heq & Hr)%list_elem_of_fmap.
    destruct (Hh _ Hr) as (_ & _ & Hn). congruence.
Qed.

Definition sys_ledger s : Prop := sys_ok s /\ ledger (sys_mgr s) (sys_history s).

Lemma ledger_frame tm tm' hist :
  ledger tm hist -> tm_total_committed tm' = tm_total_committed tm ->
  tm_total_aborted tm' = tm_total_aborted tm -> tm_globals tm' = tm_globals tm ->
  tm_snapshot_manager tm' = tm_snapshot_manager tm -> tm_active_txns tm' = tm_active_txns tm ->
  ledger tm' hist.
Proof. intros [] Hc Ha Hg Hsm Hact. by split; rewrite ?Hc, ?Ha, ?Hg, ?Hsm, ?Hact. Qed.

Lemma ledger_prepare tm prep hist id :
  inv tm prep hist -> ledger tm hist -> g_txn_id (tm_globals tm) <= TS_INF ->
  ledger (prepare_commit tm id).1 hist.
Proof.
  intros Hinv Hl Hb. unfold prepare_commit.
  destruct (tm_active_txns tm !! id) as [txn|] eqn:Hid; [|done].
  case_bool_decide as Hst; [|done]. cbn [negb with_status at_context at_snapshot].
  destruct (take_write_set (at_context txn)) as [ctx' writes].
  pose proof (acquire_write_intent_spec (tm_conflict_detector tm) (at_context txn)) as Hacq.
  destruct (acquire_write_intent _ _) as [cd res]. destruct Hacq as (_ & _ & Hsame & _).
  case_match; [case_match; [|case_match eqn:Hres]|]; simpl.
  - by eapply ledger_abort.
  - zb. rewrite Hsame by done. replace (set_conflict_detector tm _) with tm by by destruct tm.
    eapply ledger_abort; try done.
  - by eapply ledger_set_entry.
  - by eapply ledger_set_entry.
Qed.

Lemma sys_call_ledger s c :
  sys_ledger s -> counters_below (TS_INF - 1) (tm_globals (sys_mgr s)) -> sys_ledger (sys_call s c).
Proof.
  intros [Hok Hl] Hb. split; [by apply sys_call_ok|]. destruct Hok as [Hinv Htok].
  unfold sys_inv in Hinv. pose proof (inv_ts _ _ _ Hinv) as (? & ? & ?).
  pose proof Hb as (? & ? & ?).
  assert (Hlt : g_txn_id (tm_globals (sys_mgr s)) <= TS_INF) by lia.
  destruct c; simpl.
  - eapply ledger_timed_out.
    + apply (open_inv _ _ _ _ (mkActiveTxn _ (mkSnapshot _ _ false) Active now) Hinv);
        simpl; rewrite ?wrap64_next by lia; done || lia.
    + apply (ledger_open _ _ _ _ (mkActiveTxn _ (mkSnapshot _ _ false) Active now) Hinv); try done.
      simpl. by rewrite wrap64_next by lia.
    + simpl. rewrite wrap64_next by lia. lia.
  - apply (ledger_open _ _ _ _ (mkActiveTxn _ (mkSnapshot _ _ true) Active now) Hinv); try done.
    simpl. by rewrite wrap64_next by lia.
  - unfold with_context. destruct (tm_active_txns _ !! txn_id) as [txn|] eqn:Hid; [|done].
    case_match; [done|]. case_match; simpl; [by eapply ledger_abort|by eapply ledger_set_entry].
  - pose proof (ledger_prepare _ _ _ txn_id Hinv Hl Hlt) as Hp.
    by destruct (prepare_commit (sys_mgr s) txn_id) as [tm' [pc|e]].
  - destruct (sys_prepared s !! txn_id) as [pc|] eqn:Hpc; [|done].
    pose proof (ledger_finalize _ _ _ _ _ now_millis Hinv Hl Hb Hpc (Htok _ _ Hpc)) as Hf.
    pose proof (finalize_commit_inv _ _ _ _ _ now_millis Hinv Hb Hpc (Htok _ _ Hpc)) as Hg.
    destruct (finalize_commit (sys_mgr s) pc now_millis) as [tm' [ws|e]]; simpl; [done|].
    by destruct Hg as [-> _].
  - unfold rollback. destruct (tm_active_txns _ !! txn_id) as [txn|] eqn:Hid; [|done].
    by eapply ledger_abort.
  - unfold read_versioned, get_version_store. repeat case_match; simplify_eq/=;
      try done; by eapply ledger_frame.
Qed.

Lemma sys_init_ledger : sys_ledger (@sys_init V).
Proof.
  split; [split; [apply sys_init_inv|apply map_Forall_empty]|].
  split; simpl; try done; constructor.
Qed.

Lemma sys_run_ledger cs : run_bounded cs -> sys_ledger (sys_run (@sys_init V) cs).
Proof.
  unfold run_bounded. intros Hb.
  assert (Hgen : forall s n, sys_ledger s -> counters_below n (tm_globals (sys_mgr s)) ->
    n + Z.of_nat (length cs) <= TS_INF - 1 -> sys_ledger (sys_run s cs)).
  { clear Hb. induction cs as [|c cs IH]; intros s n Hok Hc Hn; [done|]. simpl in *.
    assert (Hb : counters_below (TS_INF - 1) (tm_globals (sys_mgr s)))
      by (unfold counters_below in *; lia).
    pose proof (sys_call_globals s c (proj1 (proj1 Hok)) Hb) as Hg.
    apply (IH _ (n + 1)); [|unfold counters_below, globals_step in *; lia|lia].
    by apply sys_call_ledger. }
  apply (Hgen _ 1); [apply sys_init_ledger|unfold counters_below; simpl; lia|lia].
Qed.
End ledger.
