(* ===== verification/TxnReads.v ===== *)
(** * What transactions read

    Reads through the version stores of a reachable manager: snapshots are stable
    while their transaction is open, publication is what finalization does, and
    nothing else publishes. *)
From S2P Require Import Prelude VersionStore Snapshot TxnContext Conflict TxnManager TxnSystem.
From S2P Require Import TxnLedger.
Local Open Scope Z_scope.

Section reads.
Context {V : Type}.
Implicit Types (tm : TxnManager V) (s : system V) (txn : ActiveTxn V) (w : TxnWrite V)
  (st : VersionStore V) (stores : gmap string (VersionStore V)) (ws : list (TxnWrite V)).

(** The value of row [r] of table [t] at snapshot [ts]; a missing store is empty. *)
Definition read_at stores (t : string) (r ts : Z) : option (gmap string V) :=
  match stores !! t with Some st => VersionStore_read st r ts | None => None end.

Definition store_of stores (t : string) : VersionStore V := default VersionStore_new (stores !! t).

Definition stores_wf (b : Z) stores : Prop := map_Forall (fun _ st => store_inv b st) stores.

Lemma read_new r ts : VersionStore_read (@VersionStore_new V) r ts = None.
Proof. unfold VersionStore_read. simpl. by rewrite lookup_empty. Qed.

Lemma read_at_store_of stores t r ts : read_at stores t r ts = VersionStore_read (store_of stores t) r ts.
Proof. unfold read_at, store_of. destruct (stores !! t); [done|]. by rewrite read_new. Qed.

Lemma store_of_wf b stores t : stores_wf b stores -> store_inv b (store_of stores t).
Proof.
  intros Hs. unfold store_of. destruct (stores !! t) as [st|] eqn:Ht; simpl; [by eapply Hs|].
  apply map_Forall_empty.
Qed.

Lemma read_versioned_read_at tm id t r txn :
  tm_active_txns tm !! id = Some txn ->
  (read_versioned tm id t r).2 =
    Ok (read_at (tm_version_stores tm) t r (sn_read_ts (at_snapshot txn))).
Proof.
  intros Hid. unfold read_versioned, get_snapshot_ts. rewrite Hid.
  unfold get_version_store, read_at. destruct (tm_version_stores tm !! t); simpl; [done|].
  by rewrite read_new.
Qed.

(** *** The parts of a finalization *)

Lemma read_at_prune tm t r ts :
  read_at (tm_version_stores (prune_empty_version_stores tm)) t r ts =
  read_at (tm_version_stores tm) t r ts.
Proof.
  unfold read_at. simpl. rewrite map_lookup_filter.
  destruct (tm_version_stores tm !! t) as [st|]; simpl; [|done].
  case_guard as Hg; simpl; [done|]. symmetry. rewrite store_read_view.
  destruct (vs_chains st !! r) as [c|] eqn:Hc; [|done]. exfalso. apply Hg. left.
  unfold VersionStore_row_count. apply Nat.neq_0_lt_0. intros Hz.
  apply map_size_empty_inv in Hz. rewrite Hz in Hc. by rewrite lookup_empty in Hc.
Qed.

Lemma read_at_gc b gc sm now stores t r ts :
  stores_wf b stores -> ts < TS_INF ->
  oldest_active_timestamp sm <= ts \/ b <= ts + 1 ->
  read_at (gc_stores gc sm now stores).2 t r ts = read_at stores t r ts.
Proof.
  intros Hwf Hi Hts. pose proof (gc_stores_lookup gc sm now stores t) as Hl. unfold read_at.
  destruct (stores !! t) as [st|] eqn:Hst; [|by rewrite Hl].
  destruct Hl as (st' & -> & [->| ->]); [done|]. apply Hwf in Hst as Hinv.
  apply store_gc_read; [by eapply store_inv_wf|done|].
  destruct Hts as [?|Hb]; [by left|right]. intros c Hc. destruct (Hinv _ _ Hc). lia.
Qed.

(** One published write, on its store. *)
Definition publish st (ts : Z) w : VersionStore V :=
  match w with
  | TxnInsert _ r d => VersionStore_insert st r ts d
  | TxnUpdate _ r o d => (VersionStore_update (seed_old_data st r o) r ts d).1
  | TxnDelete _ r o => (VersionStore_delete (seed_old_data st r o) r ts).1
  end.

Lemma apply_write_store_of tm ts w t :
  store_of (tm_version_stores (apply_write tm ts w)) t =
    if decide (t = TxnWrite_table w) then publish (store_of (tm_version_stores tm) t) ts w
    else store_of (tm_version_stores tm) t.
Proof.
  assert (Hput : forall t0 st', store_of (tm_version_stores
      (put_version_store (get_version_store tm t0).2 t0 st')) t =
      if decide (t = t0) then st' else store_of (tm_version_stores tm) t).
  { intros t0 st'. unfold store_of. simpl. rewrite lookup_insert. unfold get_version_store.
    repeat case_decide; subst; try done. case_match; simpl; [done|]. by rewrite lookup_insert_ne. }
  assert (Hget : forall t0, (get_version_store tm t0).1 = store_of (tm_version_stores tm) t0).
  { intros t0. unfold get_version_store, store_of. by case_match. }
  destruct w as [t0 r d|t0 r o d|t0 r o]; simpl; specialize (Hput t0); specialize (Hget t0);
    destruct (get_version_store tm t0) as [st tm1]; simpl in *;
    rewrite Hput; case_decide; subst; done.
Qed.

Lemma seed_lookup_ne st r r' (o : gmap string V) :
  r <> r' -> vs_chains (seed_old_data st r o) !! r' = vs_chains st !! r'.
Proof.
  intros Hne. unfold seed_old_data. repeat case_match; try done.
  simpl. by rewrite lookup_insert_ne.
Qed.

Lemma publish_other_row st ts w r' :
  TxnWrite_row_id w <> r' -> vs_chains (publish st ts w) !! r' = vs_chains st !! r'.
Proof.
  intros Hne. destruct w as [t r d|t r o d|t r o]; simpl in *.
  - by rewrite lookup_insert_ne.
  - unfold VersionStore_update. case_match; simpl; [rewrite lookup_insert_ne by done|];
      by apply seed_lookup_ne.
  - unfold VersionStore_delete. case_match; simpl; [rewrite lookup_insert_ne by done|];
      by apply seed_lookup_ne.
Qed.

Lemma publish_inv ts st w :
  store_inv (ts + 1) st -> 1 <= ts < TS_INF -> store_inv (ts + 1) (publish st ts w).
Proof.
  intros Hst Hts.
  destruct w as [t r d|t r o d|t r o]; simpl.
  - apply store_inv_put; [done|apply chain_new_wf; simpl; done || lia|].
    unfold chain_head_ts. simpl. lia.
  - pose proof (seed_old_data_inv ts st r o Hst Hts). unfold VersionStore_update.
    case_match eqn:Hc; simpl; [|done]. by eapply add_version_inv.
  - pose proof (seed_old_data_inv ts st r o Hst Hts). unfold VersionStore_delete.
    case_match eqn:Hc; simpl; [|done]. by eapply add_version_inv.
Qed.

(** *** Publication as seen by a reader *)

(** [w] extends the row's chain: it inserts a row the store does not track, or
    changes a row whose latest version is live. *)
Definition write_continues st w : Prop :=
  match w with
  | TxnInsert _ r _ => vs_chains st !! r = None
  | TxnUpdate _ r _ _ | TxnDelete _ r _ => is_Some (VersionStore_read_latest st r)
  end.

Lemma seed_live st r (o : gmap string V) :
  is_Some (VersionStore_read_latest st r) -> seed_old_data st r o = st.
Proof. intros [x Hx]. unfold seed_old_data. by rewrite Hx. Qed.

Lemma read_add_version st r ts v n z :
  forall c, vs_chains st !! r = Some c -> chain_wf c -> rv_end_ts v = TS_INF ->
  rv_begin_ts v = ts -> chain_head_ts c <= ts -> z < TS_INF ->
  VersionStore_read (mkVersionStore (<[r := VersionChain_add_version c v]> (vs_chains st)) n) r z =
    if ts <=? z then version_value v else VersionStore_read st r z.
Proof.
  intros c Hc Hwf He Hb Hh Hs. rewrite !store_read_view. simpl. rewrite lookup_insert_eq, Hc.
  by rewrite add_version_view, Hb by (done || lia).
Qed.

Lemma publish_continues ts st w r z :
  store_inv (ts + 1) st -> z < ts -> ts < TS_INF ->
  (TxnWrite_row_id w = r -> write_continues st w) ->
  VersionStore_read (publish st ts w) r z = VersionStore_read st r z.
Proof.
  intros Hst Hs Hts Hc. destruct (decide (TxnWrite_row_id w = r)) as [Hr|Hr].
  2: { rewrite !store_read_view. by rewrite publish_other_row. }
  specialize (Hc Hr).
  assert (Hlive : forall r', is_Some (VersionStore_read_latest st r') ->
            exists c, vs_chains st !! r' = Some c /\ chain_wf c /\ chain_head_ts c <= ts).
  { intros r' [x Hx]. unfold VersionStore_read_latest in Hx.
    destruct (vs_chains st !! r') as [c|] eqn:Hcc; [|done].
    destruct (Hst _ _ Hcc) as [? ?]. exists c. split_and!; [done..|lia]. }
  destruct w as [t r' d|t r' o d|t r' o]; simpl in *; subst r'.
  - rewrite !store_read_view. simpl. rewrite lookup_insert_eq, Hc.
    rewrite chain_new_view by (done || lia). simpl. by rewrite (proj2 (Z.leb_gt _ _)).
  - rewrite seed_live by done. destruct (Hlive _ Hc) as (c & Hcc & ? & ?).
    unfold VersionStore_update. rewrite Hcc. simpl.
    rewrite (read_add_version st r ts) by (done || lia). by rewrite (proj2 (Z.leb_gt _ _)).
  - rewrite seed_live by done. destruct (Hlive _ Hc) as (c & Hcc & ? & ?).
    unfold VersionStore_delete. rewrite Hcc. simpl.
    rewrite (read_add_version st r ts) by (done || lia). by rewrite (proj2 (Z.leb_gt _ _)).
Qed.

Definition apply_writes tm (ts : Z) ws : TxnManager V :=
  fold_left (fun tm w => apply_write tm ts w) ws tm.

Lemma apply_writes_stores_ext tm1 tm2 ts ws :
  tm_version_stores tm1 = tm_version_stores tm2 ->
  tm_version_stores (apply_writes tm1 ts ws) = tm_version_stores (apply_writes tm2 ts ws).
Proof.
  unfold apply_writes. revert tm1 tm2. induction ws as [|w ws IH]; intros tm1 tm2 Heq; [done|].
  simpl. apply IH.
  destruct w as [t r d|t r o d|t r o]; simpl; unfold get_version_store; rewrite Heq;
    destruct (tm_version_stores tm2 !! t); simpl; congruence.
Qed.

Lemma apply_writes_wf tm ts ws :
  1 <= ts < TS_INF -> stores_wf (ts + 1) (tm_version_stores tm) ->
  stores_wf (ts + 1) (tm_version_stores (apply_writes tm ts ws)).
Proof. intros Hts Hs. unfold apply_writes. by destruct (apply_writes_spec tm ts ws Hts Hs) as (stores & -> & ?). Qed.

Lemma apply_write_wf tm ts w :
  1 <= ts < TS_INF -> stores_wf (ts + 1) (tm_version_stores tm) ->
  stores_wf (ts + 1) (tm_version_stores (apply_write tm ts w)).
Proof. intros Hts Hs. by destruct (apply_write_spec tm ts w Hts Hs) as (stores & -> & ?). Qed.

(** Every write of [ws] to the row [k] extends the row's chain. *)
Fixpoint writes_continue (k : string * Z) tm (ts : Z) ws : Prop :=
  match ws with
  | [] => True
  | w :: ws =>
      (write_key w = k -> write_continues (store_of (tm_version_stores tm) k.1) w) /\
      writes_continue k (apply_write tm ts w) ts ws
  end.

Lemma apply_writes_read k tm ts ws z :
  1 <= ts < TS_INF -> stores_wf (ts + 1) (tm_version_stores tm) -> z < ts ->
  writes_continue k tm ts ws ->
  read_at (tm_version_stores (apply_writes tm ts ws)) k.1 k.2 z =
  read_at (tm_version_stores tm) k.1 k.2 z.
Proof.
  intros Hts. unfold apply_writes. revert tm. induction ws as [|w ws IH]; intros tm Hwf Hz Hc; [done|].
  simpl in *. destruct Hc as [Hw Hc]. rewrite IH by auto using apply_write_wf.
  rewrite !read_at_store_of, apply_write_store_of. case_decide as Ht; [|done].
  apply publish_continues; [by apply store_of_wf|done|lia|].
  intros Hr. apply Hw. unfold write_key. destruct k. simpl in *. by subst.
Qed.

(** A successful finalization publishes the prepared writes at the next
    timestamp; collection and pruning change nothing an open snapshot, or a later
    one, can read. *)
Lemma finalize_published tm prep hist id pc now tm' ws :
  inv tm prep hist -> counters_below (TS_INF - 1) (tm_globals tm) ->
  prep !! id = Some pc -> pc_txn_id pc = id -> finalize_commit tm pc now = (tm', Ok ws) ->
  let ts := g_ts (tm_globals tm) in
  ws = pc_writes pc /\ g_ts (tm_globals tm') = ts + 1 /\
  (exists txn, tm_active_txns tm !! id = Some txn /\ at_status txn = Validating) /\
  tm_active_txns tm' = delete id (tm_active_txns tm) /\
  forall t r z, z < TS_INF -> oldest_active_timestamp (tm_snapshot_manager tm') <= z \/ ts <= z ->
    read_at (tm_version_stores tm') t r z =
    read_at (tm_version_stores (apply_writes tm ts (pc_writes pc))) t r z.
Proof.
  intros Hinv (Hts & _ & _) Hpc Hpid. unfold finalize_commit. rewrite Hpid.
  destruct (tm_active_txns tm !! id) as [txn|] eqn:Hid; [|done].
  case_bool_decide as Hst; cbn [negb]; [|done].
  pose proof (inv_ts _ _ _ Hinv) as (? & _).
  unfold next_timestamp. rewrite wrap64_next by lia.
  match goal with |- context [fold_left _ _ ?t] => set (tm1 := t) end.
  assert (Hwf : stores_wf (g_ts (tm_globals tm) + 1) (tm_version_stores tm)).
  { eapply (stores_inv_mono _ (mkGlobals (g_ts (tm_globals tm) + 1) 0 0));
      [apply (inv_stores _ _ _ Hinv)|simpl; lia]. }
  pose proof (apply_writes_stores_ext tm1 tm (g_ts (tm_globals tm)) (pc_writes pc) eq_refl) as Hext.
  unfold apply_writes in Hext at 1.
  destruct (apply_writes_spec tm1 (g_ts (tm_globals tm)) (pc_writes pc)) as (stores & Heq & Hstores);
    [lia|exact Hwf|].
  rewrite Heq in Hext |- *. simpl in Hext. intros [= <- <-].
  split_and!; [done..|by exists txn|done|]. intros t r z Hi Hz.
  rewrite read_at_prune. simpl in *.
  rewrite (read_at_gc (g_ts (tm_globals tm) + 1)); [by rewrite Hext|done|done|].
  destruct Hz; [by left|right; lia].
Qed.

(** *** Open transactions keep their snapshot *)

Definition same_entry txn (u : ActiveTxn V) : Prop :=
  at_snapshot u = at_snapshot txn /\
  tc_read_only (at_context u) = tc_read_only (at_context txn).

(** An entry of the new state that is not newly opened was there before. *)
Definition persists tm tm' : Prop :=
  forall i u, tm_active_txns tm' !! i = Some u -> i < g_txn_id (tm_globals tm) ->
    exists txn, tm_active_txns tm !! i = Some txn /\ same_entry txn u.

Lemma persists_sub tm tm' : tm_active_txns tm' ⊆ tm_active_txns tm -> persists tm tm'.
Proof. intros Hs i u Hu _. exists u. split; [by eapply lookup_weaken|done]. Qed.

Lemma persists_insert tm tm' id txn :
  tm_active_txns tm' = <[id := txn]> (tm_active_txns tm) ->
  (id < g_txn_id (tm_globals tm) -> exists t0, tm_active_txns tm !! id = Some t0 /\ same_entry t0 txn) ->
  persists tm tm'.
Proof.
  intros Heq Hid i u Hu Hlt. rewrite Heq in Hu.
  apply lookup_insert_Some in Hu as [[<- <-]|[_ Hu]]; [by apply Hid|by exists u].
Qed.

Lemma abort_timed_out_sub tm now :
  tm_active_txns (abort_timed_out_txns tm now) ⊆ tm_active_txns tm.
Proof.
  unfold abort_timed_out_txns. generalize ((map_to_list (filter
    (fun it => at_status it.2 = Active /\ idle_too_long tm it.2 now = true)
    (tm_active_txns tm))).*1) as ids. intros ids. revert tm.
  induction ids as [|id ids IH]; intros tm; [done|]. simpl. etrans; [apply IH|].
  case_match; [|done]. simpl. apply delete_subseteq.
Qed.

Lemma get_version_store_active tm t :
  tm_active_txns (get_version_store tm t).2 = tm_active_txns tm.
Proof. unfold get_version_store. by case_match. Qed.

Lemma sys_call_persists s c :
  sys_ok s -> counters_below (TS_INF - 1) (tm_globals (sys_mgr s)) ->
  persists (sys_mgr s) (sys_mgr (sys_call s c)).
Proof.
  intros [Hinv Htok] Hb. destruct c; simpl.
  - intros i u Hu Hlt. eapply lookup_weaken in Hu; [|apply abort_timed_out_sub].
    simpl in Hu. rewrite lookup_insert_ne in Hu by lia. by exists u.
  - intros i u Hu Hlt. simpl in Hu. rewrite lookup_insert_ne in Hu by lia. by exists u.
  - unfold with_context. destruct (tm_active_txns _ !! txn_id) as [txn|] eqn:Hid;
      [|by apply persists_sub].
    case_match; [by apply persists_sub|]. case_match; simpl.
    + apply persists_sub. apply delete_subseteq.
    + eapply persists_insert; [done|]. intros _. exists txn. split; [done|]. split; [done|].
      apply ctx_run_same_txn.
  - assert (persists (sys_mgr s) (prepare_commit (sys_mgr s) txn_id).1) as Hp.
    { unfold prepare_commit. destruct (tm_active_txns _ !! txn_id) as [txn|] eqn:Hid;
        [|by apply persists_sub].
      case_bool_decide; [|by apply persists_sub]. cbn [negb with_status at_context at_snapshot].
      destruct (take_write_set (at_context txn)) as [ctx' ws] eqn:Ht.
      assert (Hsame : same_entry txn
        (mkActiveTxn ctx' (at_snapshot txn) Validating (at_last_activity txn))).
      { split; [done|]. unfold take_write_set in Ht. by simplify_eq/=. }
      repeat case_match; simplify_eq/=; try (apply persists_sub; apply delete_subseteq);
        (eapply persists_insert; [done|]; eauto). }
    by destruct (prepare_commit (sys_mgr s) txn_id) as [tm' [pc|e]].
  - destruct (sys_prepared s !! txn_id) as [pc|] eqn:Hpc; [|by apply persists_sub].
    destruct (finalize_commit (sys_mgr s) pc now_millis) as [tm' [ws|e]] eqn:Hf; simpl.
    + destruct (finalize_published _ _ _ _ _ _ _ _ Hinv Hb Hpc (Htok _ _ Hpc) Hf)
        as (_ & _ & _ & Hact & _).
      apply persists_sub. rewrite Hact. apply delete_subseteq.
    + pose proof (finalize_commit_inv _ _ _ _ _ now_millis Hinv Hb Hpc (Htok _ _ Hpc)) as Hg.
      rewrite Hf in Hg. destruct Hg as [-> _]. by apply persists_sub.
  - unfold rollback. case_match; [|by apply persists_sub]. apply persists_sub, delete_subseteq.
  - unfold read_versioned. case_match; [|by apply persists_sub].
    pose proof (get_version_store_active (sys_mgr s) table) as Ha.
    destruct (get_version_store (sys_mgr s) table). simpl in *. apply persists_sub. by rewrite Ha.
Qed.

(** *** One call, seen by an open transaction *)

(** What the caller of [finalize_commit] must respect for the row [k]. *)
Definition call_continues (k : string * Z) s (c : call V) : Prop :=
  match c with
  | CallFinalize id _ =>
      match sys_prepared s !! id with
      | Some pc => writes_continue k (sys_mgr s) (g_ts (tm_globals (sys_mgr s))) (pc_writes pc)
      | None => True
      end
  | _ => True
  end.

(** Calls other than a successful finalization leave the stores' contents alone. *)
Lemma quiet_stores s c t r z :
  match c with CallFinalize _ _ => False | _ => True end ->
  read_at (tm_version_stores (sys_mgr (sys_call s c))) t r z =
  read_at (tm_version_stores (sys_mgr s)) t r z.
Proof.
  intros Hc. destruct c; simpl; try done.
  - unfold abort_timed_out_txns. match goal with |- context [fold_left ?f ?ids ?tm] =>
      assert (forall l m, tm_version_stores (fold_left f l m) = tm_version_stores m) as -> end; [|done].
    induction l as [|i l IH]; intros m; [done|]. simpl. rewrite IH. by case_match.
  - unfold with_context. by repeat case_match.
  - unfold prepare_commit. repeat case_match; by simplify_eq/=.
  - unfold rollback. by case_match.
  - unfold read_versioned, get_version_store. repeat case_match; simplify_eq/=; try done.
    unfold read_at. rewrite lookup_insert. case_decide; [|done]. subst. by rewrite H1, read_new.
Qed.

Lemma sys_call_read_stable s c k id txn u :
  sys_ok s -> counters_below (TS_INF - 1) (tm_globals (sys_mgr s)) ->
  tm_active_txns (sys_mgr s) !! id = Some txn -> tc_read_only (at_context txn) = false ->
  tm_active_txns (sys_mgr (sys_call s c)) !! id = Some u -> at_snapshot u = at_snapshot txn ->
  call_continues k s c ->
  read_at (tm_version_stores (sys_mgr (sys_call s c))) k.1 k.2 (sn_read_ts (at_snapshot txn)) =
  read_at (tm_version_stores (sys_mgr s)) k.1 k.2 (sn_read_ts (at_snapshot txn)).
Proof.
  intros Hok Hb Hid Hro Hu Hsn Hc. pose proof (sys_call_ok s c Hok Hb) as [Hinv' _].
  destruct Hok as [Hinv Htok].
  destruct c; try (by apply quiet_stores). simpl in *.
  destruct (sys_prepared s !! txn_id) as [pc|] eqn:Hpc; [|done].
  destruct (finalize_commit (sys_mgr s) pc now_millis) as [tm' [ws|e]] eqn:Hf; simpl in *.
  - destruct (finalize_published _ _ _ _ _ _ _ _ Hinv Hb Hpc (Htok _ _ Hpc) Hf)
      as (-> & _ & _ & _ & Hread).
    destruct (inv_snap _ _ _ Hinv) as (_ & _ & Hent & _).
    destruct (Hent _ _ Hid) as (_ & _ & _ & Hlt). specialize (Hlt Hro).
    pose proof (inv_ts _ _ _ Hinv) as (? & _). destruct Hb as (? & _).
    destruct (inv_snap _ _ _ Hinv') as (Hwf' & _ & Hent' & _).
    destruct (Hent' _ _ Hu) as (Hreg & _). simpl in *.
    rewrite Hread; [|lia|left; rewrite <-Hsn; by eapply oldest_active_le].
    apply apply_writes_read; [lia| |done|done].
    eapply (stores_inv_mono _ (mkGlobals (g_ts (tm_globals (sys_mgr s)) + 1) 0 0));
      [apply (inv_stores _ _ _ Hinv)|simpl; lia].
  - pose proof (finalize_commit_inv _ _ _ _ _ now_millis Hinv Hb Hpc (Htok _ _ Hpc)) as Hg.
    rewrite Hf in Hg. by destruct Hg as [-> _].
Qed.

(** *** What a published write leaves behind *)

Definition written_value w : option (gmap string V) :=
  match w with
  | TxnInsert _ _ d => Some d
  | TxnUpdate _ _ _ d => Some d
  | TxnDelete _ _ _ => None
  end.

(** An update of a row the store may not know carries the row's old data. *)
Definition update_has_base w : Prop :=
  match w with TxnUpdate _ _ o _ => o <> ∅ | _ => True end.

Lemma seed_tracks st r (o : gmap string V) :
  o <> ∅ -> is_Some (vs_chains (seed_old_data st r o) !! r).
Proof.
  intros Ho. unfold seed_old_data. destruct (VersionStore_read_latest st r) as [x|] eqn:Hl.
  - unfold VersionStore_read_latest in Hl. destruct (vs_chains st !! r); [by eexists|done].
  - rewrite bool_decide_eq_false_2 by done. simpl. rewrite lookup_insert_eq. by eexists.
Qed.

Lemma publish_written ts st w z :
  store_inv (ts + 1) st -> 1 <= ts <= z -> z < TS_INF -> update_has_base w ->
  VersionStore_read (publish st ts w) (TxnWrite_row_id w) z = written_value w.
Proof.
  intros Hst Hts Hz Hbase.
  destruct w as [t r d|t r o d|t r o]; simpl in *.
  - rewrite store_read_view. simpl. rewrite lookup_insert_eq.
    rewrite chain_new_view by (done || lia). simpl. by rewrite (proj2 (Z.leb_le _ _)) by lia.
  - pose proof (seed_old_data_inv ts st r o Hst ltac:(lia)) as Hseed.
    destruct (seed_tracks st r o Hbase) as [c Hc]. destruct (Hseed _ _ Hc).
    unfold VersionStore_update. rewrite Hc. simpl.
    rewrite (read_add_version _ r ts _ _ z c) by (done || lia).
    by rewrite (proj2 (Z.leb_le _ _)) by lia.
  - pose proof (seed_old_data_inv ts st r o Hst ltac:(lia)) as Hseed.
    unfold VersionStore_delete. case_match eqn:Hc; simpl.
    + destruct (Hseed _ _ Hc). rewrite (read_add_version _ r ts _ _ z v) by (done || lia).
      by rewrite (proj2 (Z.leb_le _ _)) by lia.
    + rewrite store_read_view. by rewrite Hc.
Qed.

Lemma publish_frame ts st w r z :
  TxnWrite_row_id w <> r -> VersionStore_read (publish st ts w) r z = VersionStore_read st r z.
Proof. intros Hr. rewrite !store_read_view. by rewrite publish_other_row. Qed.

Lemma apply_writes_frame k tm ts ws z :
  Forall (fun w => write_key w <> k) ws ->
  read_at (tm_version_stores (apply_writes tm ts ws)) k.1 k.2 z =
  read_at (tm_version_stores tm) k.1 k.2 z.
Proof.
  unfold apply_writes. intros Hall. revert tm. induction Hall as [|w ws Hw _ IH]; intros tm; [done|].
  simpl. rewrite IH, !read_at_store_of, apply_write_store_of. case_decide as Ht; [|done].
  apply publish_frame. intros Hr. apply Hw. unfold write_key. destruct k. simpl in *. by subst.
Qed.

Lemma apply_writes_last tm ts ws1 w ws2 z :
  1 <= ts <= z -> z < TS_INF -> stores_wf (ts + 1) (tm_version_stores tm) ->
  Forall (fun w' => write_key w' <> write_key w) ws2 -> update_has_base w ->
  read_at (tm_version_stores (apply_writes tm ts (ws1 ++ w :: ws2)))
    (TxnWrite_table w) (TxnWrite_row_id w) z = written_value w.
Proof.
  intros Hts Hz Hwf Hws2 Hbase.
  replace (apply_writes tm ts (ws1 ++ w :: ws2))
    with (apply_writes (apply_write (apply_writes tm ts ws1) ts w) ts ws2)
    by (unfold apply_writes; by rewrite fold_left_app).
  rewrite (apply_writes_frame (write_key w)) by done. simpl.
  rewrite read_at_store_of, apply_write_store_of, decide_True by done.
  apply publish_written; [|lia|done|done]. apply store_of_wf. apply apply_writes_wf; [lia|done].
Qed.
(** What a row shows after one more published write: whether the version store
    tracks the row, and the value a later snapshot reads from it. An update whose
    old data is empty changes nothing on a row the store does not track. *)
Definition write_outcome (seen : bool * option (gmap string V)) w
    : bool * option (gmap string V) :=
  match w with
  | TxnInsert _ _ d => (true, Some d)
  | TxnUpdate _ _ o d => if seen.1 || negb (bool_decide (o = ∅)) then (true, Some d) else seen
  | TxnDelete _ _ o => (seen.1 || negb (bool_decide (o = ∅)), None)
  end.

(** The published writes of the row [k], one after the other. *)
Fixpoint published_value (k : string * Z) (seen : bool * option (gmap string V))
    (ws : list (TxnWrite V)) : option (gmap string V) :=
  match ws with
  | [] => seen.2
  | w :: ws' => published_value k (if decide (write_key w = k) then write_outcome seen w else seen) ws'
  end.

Definition row_tracked stores (k : string * Z) : bool :=
  bool_decide (is_Some (vs_chains (store_of stores k.1) !! k.2)).

(** What the row [k] shows to a snapshot at [z]. *)
Definition row_seen stores (z : Z) (k : string * Z) : bool * option (gmap string V) :=
  (row_tracked stores k, read_at stores k.1 k.2 z).

Lemma seed_tracked st r (o : gmap string V) :
  bool_decide (is_Some (vs_chains (seed_old_data st r o) !! r)) =
  bool_decide (is_Some (vs_chains st !! r)) || negb (bool_decide (o = ∅)).
Proof.
  destruct (decide (o = ∅)) as [->|Ho].
  - rewrite (bool_decide_eq_true_2 (∅ = ∅)) by done. rewrite orb_false_r.
    unfold seed_old_data. by case_match.
  - rewrite (bool_decide_eq_true_2 (is_Some _)) by by apply seed_tracks.
    rewrite (bool_decide_eq_false_2 (o = ∅)) by done. by rewrite orb_true_r.
Qed.

Lemma untracked_reads_nothing st r z : vs_chains st !! r = None -> VersionStore_read st r z = None.
Proof. intros H. unfold VersionStore_read. by rewrite H. Qed.

Lemma publish_outcome ts st w z :
  store_inv (ts + 1) st -> 1 <= ts <= z -> z < TS_INF ->
  (bool_decide (is_Some (vs_chains (publish st ts w) !! TxnWrite_row_id w)),
   VersionStore_read (publish st ts w) (TxnWrite_row_id w) z) =
  write_outcome (bool_decide (is_Some (vs_chains st !! TxnWrite_row_id w)),
                 VersionStore_read st (TxnWrite_row_id w) z) w.
Proof.
  intros Hst Hts Hz.
  destruct w as [t r d|t r o d|t r o]; simpl.
  - rewrite store_read_view. simpl. rewrite lookup_insert_eq, bool_decide_eq_true_2 by eauto.
    rewrite chain_new_view by (done || lia). simpl. by rewrite (proj2 (Z.leb_le _ _)) by lia.
  - pose proof (seed_old_data_inv ts st r o Hst ltac:(lia)) as Hseed.
    rewrite <-seed_tracked. unfold VersionStore_update.
    destruct (vs_chains (seed_old_data st r o) !! r) as [c|] eqn:Hc; simpl.
    + destruct (Hseed _ _ Hc). rewrite lookup_insert_eq, !bool_decide_eq_true_2 by eauto.
      rewrite (read_add_version _ r ts _ _ z c) by (done || lia).
      by rewrite (proj2 (Z.leb_le _ _)) by lia.
    + rewrite Hc. pose proof (seed_tracked st r o) as Ht. rewrite Hc in Ht.
      rewrite (bool_decide_eq_false_2 (is_Some None)) in Ht |- * by (by intros []).
      symmetry in Ht. apply orb_false_iff in Ht as [Hn _]. rewrite Hn.
      apply bool_decide_eq_false, eq_None_not_Some in Hn.
      by rewrite !untracked_reads_nothing.
  - pose proof (seed_old_data_inv ts st r o Hst ltac:(lia)) as Hseed.
    rewrite <-seed_tracked. unfold VersionStore_delete.
    destruct (vs_chains (seed_old_data st r o) !! r) as [c|] eqn:Hc; simpl.
    + destruct (Hseed _ _ Hc). rewrite lookup_insert_eq, !bool_decide_eq_true_2 by eauto.
      rewrite (read_add_version _ r ts _ _ z c) by (done || lia).
      by rewrite (proj2 (Z.leb_le _ _)) by lia.
    + rewrite Hc. by rewrite untracked_reads_nothing.
Qed.

(** Publishing the writes one by one leaves each row with its [published_value]. *)
Lemma apply_writes_published k tm ts ws z :
  1 <= ts <= z -> z < TS_INF -> stores_wf (ts + 1) (tm_version_stores tm) ->
  read_at (tm_version_stores (apply_writes tm ts ws)) k.1 k.2 z =
  published_value k (row_seen (tm_version_stores tm) z k) ws.
Proof.
  intros Hts Hz. revert tm. induction ws as [|w ws IH]; intros tm Hwf; [done|].
  change (apply_writes tm ts (w :: ws)) with (apply_writes (apply_write tm ts w) ts ws).
  rewrite IH by (apply (apply_writes_wf tm ts [w]); [lia|done]).
  cbn [published_value]. f_equal. unfold row_seen, row_tracked.
  rewrite !read_at_store_of, apply_write_store_of.
  destruct k as [t r]. cbn [fst snd]. destruct (decide (write_key w = (t, r))) as [Hk|Hk].
  - unfold write_key in Hk. injection Hk as <- <-. rewrite decide_True by done.
    apply publish_outcome; [by apply store_of_wf|done|done].
  - case_decide as Ht; [|done]. assert (TxnWrite_row_id w <> r).
    { intros <-. apply Hk. unfold write_key. by rewrite Ht. }
    by rewrite publish_other_row, publish_frame.
Qed.
End reads.
