(* ===== verification/TxnIsolation.v ===== *)
(** * Isolation and atomicity of the transaction manager

    The properties of every run of the manager: first committer wins, exact
    preparation, total finalization, stable snapshot reads, publication, and
    balanced books.  Each is followed by a run on which it is evaluated. *)
From S2P Require Import Prelude VersionStore Snapshot TxnContext Conflict TxnManager TxnSystem.
From S2P Require Import TxnLedger TxnReads.
Local Open Scope Z_scope.

Section isolation.
Context {V : Type}.
Implicit Types (s : system V) (cs : list (call V)).

(** The conditions [prepare_commit] must establish for [txn]: no commit its
    snapshot misses touches its rows, and no one else is committing one of them. *)
Definition certified s (txn : ActiveTxn V) : Prop :=
  let ctx := at_context txn in
  (forall r k, r ∈ sys_history s -> k ∈ cr_keys r -> tc_snapshot_ts ctx < cr_commit_ts r ->
     (k ∉ read_key <$> tc_read_set ctx) /\ k ∉ tc_write_keys ctx) /\
  (forall i u k, tm_active_txns (sys_mgr s) !! i = Some u -> at_status u = Validating ->
     k ∈ tc_write_keys (at_context u) -> k ∉ tc_write_keys ctx).

(** The calls of a run respect the row [k]. *)
Fixpoint run_continues (k : string * Z) s cs : Prop :=
  match cs with
  | [] => True
  | c :: cs => call_continues k s c /\ run_continues k (sys_call s c) cs
  end.

Lemma run_persists cs : forall s n i u,
  sys_ok s -> counters_below n (tm_globals (sys_mgr s)) ->
  n + Z.of_nat (length cs) <= TS_INF - 1 ->
  tm_active_txns (sys_mgr (sys_run s cs)) !! i = Some u -> i < g_txn_id (tm_globals (sys_mgr s)) ->
  exists txn, tm_active_txns (sys_mgr s) !! i = Some txn /\ same_entry txn u.
Proof.
  induction cs as [|c cs IH]; intros s n i u Hok Hb Hn Hu Hi; [by exists u|]. simpl in *.
  assert (Hb' : counters_below (TS_INF - 1) (tm_globals (sys_mgr s)))
    by (unfold counters_below in *; lia).
  pose proof (sys_call_globals s c (proj1 Hok) Hb') as Hg.
  destruct (IH (sys_call s c) (n + 1) i u) as (t1 & H1 & Hs1);
    [by apply sys_call_ok|unfold counters_below, globals_step in *; lia|lia|done
    |unfold globals_step in *; lia|].
  destruct (sys_call_persists s c Hok Hb' i t1 H1 Hi) as (t0 & H0 & Hs0).
  exists t0. split; [done|]. unfold same_entry in *. intuition congruence.
Qed.

Lemma run_read_stable cs : forall s n k id txn u,
  sys_ok s -> counters_below n (tm_globals (sys_mgr s)) ->
  n + Z.of_nat (length cs) <= TS_INF - 1 ->
  tm_active_txns (sys_mgr s) !! id = Some txn -> tc_read_only (at_context txn) = false ->
  tm_active_txns (sys_mgr (sys_run s cs)) !! id = Some u ->
  run_continues k s cs ->
  read_at (tm_version_stores (sys_mgr (sys_run s cs))) k.1 k.2 (sn_read_ts (at_snapshot txn)) =
  read_at (tm_version_stores (sys_mgr s)) k.1 k.2 (sn_read_ts (at_snapshot txn)).
Proof.
  induction cs as [|c cs IH]; intros s n k id txn u Hok Hb Hn Hid Hro Hu Hc; [done|]. simpl in *.
  assert (Hb' : counters_below (TS_INF - 1) (tm_globals (sys_mgr s)))
    by (unfold counters_below in *; lia).
  pose proof (sys_call_globals s c (proj1 Hok) Hb') as Hg.
  pose proof (sys_call_ok s c Hok Hb') as Hok'.
  assert (Hb1 : counters_below (n + 1) (tm_globals (sys_mgr (sys_call s c))))
    by (unfold counters_below, globals_step in *; lia).
  pose proof (proj1 (proj2 (inv_entry _ _ _ (proj1 Hok) _ _ Hid))) as Hlt.
  destruct (run_persists cs (sys_call s c) (n + 1) id u) as (t1 & H1 & _);
    [done..|lia|done|unfold globals_step in *; lia|].
  destruct (sys_call_persists s c Hok Hb' id t1 H1 Hlt) as (t0 & H0 & Hsn & Hr).
  assert (t0 = txn) as -> by congruence. destruct Hc as [Hc Hcs].
  rewrite <-(sys_call_read_stable s c k id txn t1) by done. rewrite <-Hsn.
  eapply (IH (sys_call s c) (n + 1) k id t1 u); try done; [lia|congruence].
Qed.

(** C1 First committer wins: in every run, two committed transactions that wrote a
    common row did not overlap; one committed before the other took its snapshot. *)
Theorem first_committer_wins cs r1 r2 k :
  run_bounded cs -> r1 ∈ sys_history (sys_run sys_init cs) ->
  r2 ∈ sys_history (sys_run sys_init cs) -> cr_txn_id r1 <> cr_txn_id r2 ->
  k ∈ cr_keys r1 -> k ∈ cr_keys r2 ->
  cr_commit_ts r1 <= cr_snapshot_ts r2 \/ cr_commit_ts r2 <= cr_snapshot_ts r1.
Proof.
  intros Hb H1 H2 Hne Hk1 Hk2. destruct (sys_run_ok cs Hb) as [Hinv _].
  destruct (inv_order _ _ _ Hinv) as [_ Ho]. by eapply Ho.
Qed.

(** C4 Exact preparation: in every reachable state [prepare_commit] refuses an
    unknown transaction with [NotFound] and one that is not active with
    [InvalidInput], leaving the state alone; otherwise it succeeds exactly when the
    transaction has no writes or is certified against the whole history of commits
    (although the log it consults is trimmed), and then hands out the write set and
    turns the entry to [Validating]; if not, it aborts the transaction. *)
Theorem prepare_commit_decides cs id :
  run_bounded cs ->
  let s := sys_run sys_init cs in let tm := sys_mgr s in
  match tm_active_txns tm !! id with
  | None => prepare_commit tm id = (tm, Err NotFound)
  | Some txn =>
      let '(tm', res) := prepare_commit tm id in
      if decide (at_status txn = Active) then
        (tc_write_set (at_context txn) = [] \/ certified s txn) /\
        res = Ok (mkPreparedCommit id (tc_write_set (at_context txn))) /\
        at_status <$> tm_active_txns tm' !! id = Some Validating
        \/ ~ (tc_write_set (at_context txn) = [] \/ certified s txn) /\
        res = Err WouldBlock /\ tm' = abort_entry tm id (with_status txn Validating)
      else tm' = tm /\ res = Err InvalidInput
  end.
Proof.
  intros Hb s tm. destruct (sys_run_ok cs Hb) as [Hinv _]. unfold sys_inv in Hinv. fold s tm in Hinv.
  unfold prepare_commit. destruct (tm_active_txns tm !! id) as [txn|] eqn:Hid; [|done].
  destruct (decide (at_status txn = Active)) as [Hst|Hst];
    [rewrite bool_decide_eq_true_2 by done|by rewrite bool_decide_eq_false_2 by done].
  cbn [negb with_status at_context at_snapshot at_last_activity].
  destruct (take_write_set (at_context txn)) as [ctx' ws] eqn:Ht.
  assert (ws = tc_write_set (at_context txn)) as -> by (unfold take_write_set in Ht; by simplify_eq/=).
  pose proof (proj1 (inv_entry _ _ _ Hinv _ _ Hid)) as Htid.
  destruct (has_writes (at_context txn)) eqn:Hw.
  2: { left. simpl. rewrite lookup_insert_eq. split_and!; [left|done..].
       unfold has_writes in Hw. zb. by case_bool_decide. }
  assert (Hne : tc_write_set (at_context txn) <> [])
    by (unfold has_writes in Hw; zb; by case_bool_decide).
  pose proof (validate_complete _ _ _ _ _ Hinv Hid) as Hval.
  destruct (ConflictResult_is_ok (validate _ _)); cbn [negb].
  2: { right. split_and!; [|done..]. intros [?|[Hc _]]; [done|].
       by specialize (proj2 Hval Hc). }
  pose proof (acquire_write_intent_spec (tm_conflict_detector tm) (at_context txn)) as Hacq.
  destruct (acquire_write_intent _ _) as [cd res]. rewrite Htid in Hacq.
  destruct Hacq as (Hiff & _ & Hsame & _).
  destruct (ConflictResult_is_ok res); cbn [negb].
  - left. simpl. rewrite lookup_insert_eq. split_and!; [|done..]. right. split; [by apply Hval|].
    intros i u k Hu Hs Hk Hkw.
    assert (cd_active_writes (tm_conflict_detector tm) !! k = Some i) as Ha
      by (apply (inv_intent _ _ _ Hinv); eauto).
    pose proof (proj1 Hiff eq_refl _ _ Hkw Ha) as ->. fold tm in Hu. congruence.
  - right. rewrite Hsame by done. split_and!; [|done|by destruct tm].
    intros [?|[_ Hc]]; [done|]. enough (false = true) by done. apply Hiff. intros k o Hk Ho.
    destruct (proj1 (inv_intent _ _ _ Hinv k o) Ho) as (u & Hu & Hs & Hku).
    by destruct (Hc _ _ _ Hu Hs Hku).
Qed.

(** C5 A prepared commit cannot fail: in every reachable state a validating
    transaction has its token outstanding, and finalizing it succeeds at any time,
    returns the prepared writes, removes the transaction and keeps every other one,
    and appends to the history one commit later than all earlier ones. *)
Theorem finalize_commit_succeeds cs id txn now :
  run_bounded cs ->
  let s := sys_run sys_init cs in let tm := sys_mgr s in
  tm_active_txns tm !! id = Some txn -> at_status txn = Validating ->
  exists pc, sys_prepared s !! id = Some pc /\
    (finalize_commit tm pc now).2 = Ok (pc_writes pc) /\
    tm_active_txns (finalize_commit tm pc now).1 = delete id (tm_active_txns tm) /\
    tm_total_committed (finalize_commit tm pc now).1 = wrap64 (tm_total_committed tm + 1) /\
    g_ts (tm_globals (finalize_commit tm pc now).1) = g_ts (tm_globals tm) + 1 /\
    Forall (fun r => cr_commit_ts r < g_ts (tm_globals tm)) (sys_history s).
Proof.
  intros Hb s tm Hid Hst. pose proof (sys_run_from sys_init cs 1) as Hrun.
  destruct Hrun as [[Hinv Htok] Hc]; [split; [apply sys_init_inv|apply map_Forall_empty]
    |unfold counters_below; simpl; lia|unfold run_bounded in Hb; lia|].
  fold s in Hinv, Htok, Hc. unfold sys_inv in Hinv. fold tm in Hinv, Hc. destruct Hc as (Hts & _).
  destruct (inv_entry _ _ _ Hinv _ _ Hid) as (_ & _ & Hs). unfold entry_status in Hs.
  rewrite Hst in Hs. destruct Hs as (pc & Hpc & Hpid & _). exists pc.
  unfold finalize_commit. rewrite Hpid. fold tm. rewrite Hid, bool_decide_eq_true_2 by done.
  cbn [negb]. unfold next_timestamp. rewrite wrap64_next.
  2: { pose proof (inv_ts _ _ _ Hinv) as (? & _). unfold run_bounded in Hb. lia. }
  match goal with |- context [fold_left _ _ ?t] => set (tm1 := t) end.
  destruct (apply_writes_spec tm1 (g_ts (tm_globals tm)) (pc_writes pc)) as (stores & -> & _).
  { pose proof (inv_ts _ _ _ Hinv) as (? & _). unfold run_bounded in Hb. lia. }
  { eapply (stores_inv_mono _ (mkGlobals (g_ts (tm_globals tm) + 1) 0 0));
      [apply (inv_stores _ _ _ Hinv)|simpl; lia]. }
  split_and!; [done..|].
  eapply Forall_impl; [apply (inv_log _ _ _ Hinv)|]. simpl. lia.
Qed.

(** C6 Nothing leaks: in every reachable state a write intent is held exactly by a
    validating transaction on one of its own rows, a registered snapshot belongs to
    an open transaction, and once no transaction is open there is no intent and no
    snapshot, so that collection may use the horizon [u64::MAX]. *)
Theorem nothing_leaks cs :
  run_bounded cs ->
  let tm := sys_mgr (sys_run (@sys_init V) cs) in
  (forall k t, cd_active_writes (tm_conflict_detector tm) !! k = Some t <->
     exists txn, tm_active_txns tm !! t = Some txn /\ at_status txn = Validating /\
       k ∈ tc_write_keys (at_context txn)) /\
  (forall sid sn, get_snapshot (tm_snapshot_manager tm) sid = Some sn <->
     sn_id sn = sid /\ exists id txn, tm_active_txns tm !! id = Some txn /\ at_snapshot txn = sn) /\
  (tm_active_txns tm = ∅ ->
     cd_active_writes (tm_conflict_detector tm) = ∅ /\
     has_active_snapshots (tm_snapshot_manager tm) = false /\
     oldest_active_timestamp (tm_snapshot_manager tm) = U64_MAX).
Proof.
  intros Hb tm. destruct (sys_run_ledger cs Hb) as [[Hinv _] Hl]. unfold sys_inv in Hinv.
  fold tm in Hinv, Hl. pose proof (inv_intent _ _ _ Hinv) as Hint.
  destruct (inv_snap _ _ _ Hinv) as (Hwf & _ & Hent & _).
  assert (Hreg : forall sid sn, get_snapshot (tm_snapshot_manager tm) sid = Some sn <->
     sn_id sn = sid /\ exists id txn, tm_active_txns tm !! id = Some txn /\ at_snapshot txn = sn).
  { intros sid sn. unfold get_snapshot. split.
    - intros Hs. split; [|by eapply lg_owned]. by destruct Hwf as [_ Hid]; apply Hid in Hs as [? _].
    - intros (<- & id & txn & Hid & <-). by destruct (Hent _ _ Hid) as (? & _). }
  split_and!; [done..|]. intros Hempty.
  assert (Hno : sm_active (tm_snapshot_manager tm) = ∅).
  { apply map_empty. intros sid. destruct (sm_active _ !! sid) as [sn|] eqn:Hs; [|done].
    apply Hreg in Hs as (_ & id & txn & Hid & _). rewrite Hempty in Hid.
    by rewrite lookup_empty in Hid. }
  split_and!.
  - apply map_empty. intros k. destruct (_ !! k) as [t|] eqn:Hk; [|done].
    apply Hint in Hk as (txn & Hid & _). rewrite Hempty in Hid. by rewrite lookup_empty in Hid.
  - unfold has_active_snapshots. by rewrite Hno, bool_decide_eq_true_2.
  - by apply oldest_active_max.
Qed.

(** The books balance: every transaction begun is committed, aborted or open,
    exactly once; the commit counter is the length of the history, no transaction
    commits twice, and commit timestamps strictly increase. *)
Theorem books_balance cs :
  run_bounded cs ->
  let s := sys_run (@sys_init V) cs in let tm := sys_mgr s in
  g_txn_id (tm_globals tm) - 1 =
    tm_total_committed tm + tm_total_aborted tm + Z.of_nat (TxnManager_active_count tm) /\
  tm_total_committed tm = Z.of_nat (length (sys_history s)) /\
  NoDup (cr_txn_id <$> sys_history s) /\
  StronglySorted (fun r1 r2 => cr_commit_ts r2 < cr_commit_ts r1) (sys_history s).
Proof. intros Hb s tm. destruct (sys_run_ledger cs Hb) as [_ []]. by split_and!. Qed.

(** C2 Snapshot reads are stable: while a read-write transaction stays open, no
    sequence of calls changes the value its snapshot reads from a row, provided the
    commits finalized meanwhile extend the row's version chain. *)
Theorem snapshot_reads_stable cs1 cs2 id txn t r :
  run_bounded (cs1 ++ cs2) ->
  let s1 := sys_run sys_init cs1 in let s2 := sys_run s1 cs2 in
  tm_active_txns (sys_mgr s1) !! id = Some txn -> tc_read_only (at_context txn) = false ->
  is_live_txn (sys_mgr s2) id = true -> run_continues (t, r) s1 cs2 ->
  (read_versioned (sys_mgr s2) id t r).2 = (read_versioned (sys_mgr s1) id t r).2.
Proof.
  intros Hb s1 s2 Hid Hro Hlive Hc. unfold run_bounded in Hb. rewrite length_app in Hb.
  apply bool_decide_eq_true in Hlive as [u Hu].
  destruct (sys_run_from (@sys_init V) cs1 1) as [Hok Hcnt];
    [split; [apply sys_init_inv|apply map_Forall_empty]|unfold counters_below; simpl; lia|lia|].
  fold s1 in Hok, Hcnt.
  pose proof (proj1 (proj2 (inv_entry _ _ _ (proj1 Hok) _ _ Hid))) as Hlt.
  destruct (run_persists cs2 s1 (1 + Z.of_nat (length cs1)) id u) as (t0 & H0 & Hsn & _);
    [done..|lia|done|done|].
  assert (t0 = txn) as -> by congruence.
  rewrite (read_versioned_read_at _ _ _ _ _ Hid), (read_versioned_read_at _ _ _ _ _ Hu), Hsn.
  f_equal. apply (run_read_stable cs2 s1 (1 + Z.of_nat (length cs1)) (t, r) id txn u); try done. lia.
Qed.

(** Only finalization publishes: no other call, whether it buffers writes, prepares,
    rolls back, times out or reads, changes what any snapshot reads from any row. *)
Theorem only_finalize_publishes s (c : call V) t r ts :
  (forall id now, c <> CallFinalize id now) ->
  read_at (tm_version_stores (sys_mgr (sys_call s c))) t r ts =
  read_at (tm_version_stores (sys_mgr s)) t r ts.
Proof. intros Hc. apply quiet_stores. destruct c; try done. by edestruct Hc. Qed.

(** C3 Finalization publishes: in every reachable state (reached by fewer
    than [u64::MAX - 1] calls), after a successful finalization a snapshot taken at or after the commit
    timestamp reads from each row what its prepared writes leave, applied in order: an
    insert leaves its data, a delete leaves no row, and an update leaves its new data,
    except that an update with empty old data is dropped on a row the version store
    does not track (neither before the commit, nor through an earlier write of the
    same commit). In particular the last write of a row is what is read, unless it is
    such an update, and a row without prepared writes reads as before. *)
Theorem finalize_publishes cs id pc now tm' ws :
  run_bounded cs ->
  let s := sys_run sys_init cs in let tm := sys_mgr s in
  sys_prepared s !! id = Some pc -> finalize_commit tm pc now = (tm', Ok ws) ->
  forall z, g_ts (tm_globals tm) <= z < TS_INF ->
  (forall k, read_at (tm_version_stores tm') k.1 k.2 z =
     published_value k (row_seen (tm_version_stores tm) z k) (pc_writes pc)) /\
  (forall ws1 w ws2, pc_writes pc = ws1 ++ w :: ws2 -> update_has_base w ->
     Forall (fun w' => write_key w' <> write_key w) ws2 ->
     read_at (tm_version_stores tm') (TxnWrite_table w) (TxnWrite_row_id w) z = written_value w) /\
  (forall k, Forall (fun w => write_key w <> k) (pc_writes pc) ->
     read_at (tm_version_stores tm') k.1 k.2 z = read_at (tm_version_stores tm) k.1 k.2 z).
Proof.
  intros Hb s tm Hpc Hf z Hz. pose proof (sys_run_from (@sys_init V) cs 1) as Hrun.
  destruct Hrun as [[Hinv Htok] Hc]; [split; [apply sys_init_inv|apply map_Forall_empty]
    |unfold counters_below; simpl; lia|unfold run_bounded in Hb; lia|].
  fold s in Hinv, Htok, Hc. unfold sys_inv in Hinv. fold tm in Hinv, Hc.
  assert (Hcb : counters_below (TS_INF - 1) (tm_globals tm))
    by (unfold counters_below, run_bounded in *; lia).
  destruct (finalize_published _ _ _ _ _ _ _ _ Hinv Hcb Hpc (Htok _ _ Hpc) Hf)
    as (_ & _ & _ & _ & Hread).
  pose proof (inv_ts _ _ _ Hinv) as (? & _).
  assert (stores_wf (g_ts (tm_globals tm) + 1) (tm_version_stores tm)) as Hwf.
  { eapply (stores_inv_mono _ (mkGlobals (g_ts (tm_globals tm) + 1) 0 0));
      [apply (inv_stores _ _ _ Hinv)|simpl; lia]. }
  split_and!.
  - intros k. rewrite Hread by (tauto || lia). by apply apply_writes_published; [lia..|].
  - intros ws1 w ws2 Hws Hbase Hlast. rewrite Hread by (tauto || lia). rewrite Hws.
    by apply apply_writes_last; [lia..| | |].
  - intros k Hk. rewrite Hread by (tauto || lia). by apply apply_writes_frame.
Qed.
End isolation.

(** ** Evaluated runs *)

Definition row7 (n : nat) : gmap string nat := {["a" := n]}.

Definition insert_then_commit (id : Z) (n : nat) : list (call nat) :=
  [CallBegin 0; CallContext id 0 [CtxInsert "t" 7 (row7 n)]; CallPrepare id; CallFinalize id 0].

(** Transaction 1 inserts row 7; transactions 2 and 3 then update it concurrently:
    2 commits, 3 is refused. *)
Definition contended_run : list (call nat) :=
  insert_then_commit 1 10 ++
  [CallBegin 0; CallBegin 0;
   CallContext 2 0 [CtxUpdate "t" 7 (row7 10) (row7 20)];
   CallContext 3 0 [CtxUpdate "t" 7 (row7 10) (row7 30)];
   CallPrepare 2; CallFinalize 2 0; CallPrepare 3].

Ltac decide_by_compute := refine (bool_decide_unpack _ _); vm_compute; exact I.
Ltac bounded_by_compute := unfold run_bounded; vm_compute; reflexivity.

#[global] Instance commit_record_eq_dec : EqDecision commit_record.
Proof. solve_decision. Defined.

Example contended_history :
  (fun r => (cr_txn_id r, cr_snapshot_ts r, cr_commit_ts r)) <$>
    sys_history (sys_run sys_init contended_run) = [(2, 3, 5); (1, 1, 2)].
Proof. vm_compute. reflexivity. Qed.

Lemma first_committer_wins_witness :
  let h := sys_history (sys_run sys_init contended_run) in
  exists r1 r2, r1 ∈ h /\ r2 ∈ h /\ ("t", 7) ∈ cr_keys r1 /\ ("t", 7) ∈ cr_keys r2 /\
    (cr_commit_ts r1 <= cr_snapshot_ts r2 \/ cr_commit_ts r2 <= cr_snapshot_ts r1).
Proof.
  exists (mkCommitRecord 2 3 5 {[("t", 7)]}), (mkCommitRecord 1 1 2 {[("t", 7)]}).
  assert (H1 : mkCommitRecord 2 3 5 {[("t", 7)]} ∈ sys_history (sys_run sys_init contended_run))
    by decide_by_compute.
  assert (H2 : mkCommitRecord 1 1 2 {[("t", 7)]} ∈ sys_history (sys_run sys_init contended_run))
    by decide_by_compute.
  split; [exact H1|]. split; [exact H2|]. split; [decide_by_compute|]. split; [decide_by_compute|].
  apply (first_committer_wins contended_run _ _ ("t", 7));
    [bounded_by_compute|exact H1|exact H2|discriminate|decide_by_compute..].
Defined.

Lemma prepare_commit_decides_witness :
  let s := sys_run sys_init (take 10 contended_run) in
  exists txn, tm_active_txns (sys_mgr s) !! 3 = Some txn /\ ~ certified s txn.
Proof.
  pose proof (prepare_commit_decides (take 10 contended_run) 3 ltac:(bounded_by_compute)) as H.
  destruct (tm_active_txns (sys_mgr (sys_run sys_init (take 10 contended_run))) !! 3)
    as [txn|] eqn:Ht; [|vm_compute in Ht; discriminate Ht].
  exists txn. split; [exact Ht|]. cbv zeta in H. rewrite Ht in H.
  destruct (prepare_commit _ 3) as [tm' res] eqn:Hp.
  destruct (decide (at_status txn = Active)) as [_|Hn].
  - destruct H as [(_ & Hres & _)|(Hno & _)].
    + rewrite Hres in Hp. vm_compute in Hp. discriminate Hp.
    + intros Hc. apply Hno. right. exact Hc.
  - exfalso. apply Hn. vm_compute in Ht. injection Ht as <-. reflexivity.
Defined.

Lemma finalize_commit_succeeds_witness :
  let s := sys_run sys_init (take 9 contended_run) in
  exists txn pc, tm_active_txns (sys_mgr s) !! 2 = Some txn /\ sys_prepared s !! 2 = Some pc /\
    (finalize_commit (sys_mgr s) pc 0).2 = Ok (pc_writes pc).
Proof.
  destruct (tm_active_txns (sys_mgr (sys_run sys_init (take 9 contended_run))) !! 2)
    as [txn|] eqn:Ht; [|vm_compute in Ht; discriminate Ht].
  assert (Hst : at_status txn = Validating).
  { vm_compute in Ht. injection Ht as <-. reflexivity. }
  destruct (finalize_commit_succeeds (take 9 contended_run) 2 txn 0) as (pc & Hpc & Hok & _);
    [bounded_by_compute|exact Ht|exact Hst|].
  exists txn, pc. split; [exact Ht|]. split; [exact Hpc|exact Hok].
Defined.

Lemma nothing_leaks_witness :
  cd_active_writes (tm_conflict_detector (sys_mgr (sys_run sys_init contended_run))) = ∅.
Proof.
  apply (nothing_leaks contended_run); [bounded_by_compute|vm_compute; reflexivity].
Defined.

Lemma books_balance_witness :
  tm_total_committed (sys_mgr (sys_run sys_init contended_run)) = 2.
Proof.
  rewrite (proj1 (proj2 (books_balance contended_run ltac:(bounded_by_compute)))).
  vm_compute. reflexivity.
Defined.

(** Transaction 3 keeps reading 10 while transaction 2 publishes 20. *)
Lemma snapshot_reads_stable_witness :
  let s1 := sys_run sys_init (take 6 contended_run) in
  (read_versioned (sys_mgr (sys_run s1 (take 4 (drop 6 contended_run)))) 3 "t" 7).2 =
    Ok (Some (row7 10)).
Proof.
  destruct (tm_active_txns (sys_mgr (sys_run sys_init (take 6 contended_run))) !! 3)
    as [txn|] eqn:Ht; [|vm_compute in Ht; discriminate Ht].
  cbv zeta. rewrite (snapshot_reads_stable (take 6 contended_run) (take 4 (drop 6 contended_run)) 3 txn).
  - vm_compute. reflexivity.
  - bounded_by_compute.
  - exact Ht.
  - vm_compute in Ht. injection Ht as <-. reflexivity.
  - vm_compute. reflexivity.
  - vm_compute. repeat split; eexists; reflexivity.
Defined.

Lemma finalize_publishes_witness :
  let s := sys_run sys_init (take 9 contended_run) in
  exists pc tm' ws, sys_prepared s !! 2 = Some pc /\ finalize_commit (sys_mgr s) pc 0 = (tm', Ok ws) /\
    read_at (tm_version_stores tm') "t" 7 5 = Some (row7 20).
Proof.
  cbv zeta. set (pc := mkPreparedCommit 2 [TxnUpdate "t" 7 (row7 10) (row7 20)]).
  assert (Hpc : sys_prepared (sys_run sys_init (take 9 contended_run)) !! 2 = Some pc)
    by (vm_compute; reflexivity).
  destruct (finalize_commit (sys_mgr (sys_run sys_init (take 9 contended_run))) pc 0)
    as [tm' [ws|e]] eqn:Hf; [|vm_compute in Hf; discriminate Hf].
  exists pc, tm', ws. split; [exact Hpc|]. split; [exact Hf|].
  refine (proj1 (proj2 (finalize_publishes (take 9 contended_run) 2 pc 0 tm' ws _ Hpc Hf 5 _))
    [] (TxnUpdate "t" 7 (row7 10) (row7 20)) [] eq_refl _ _).
  - bounded_by_compute.
  - vm_compute. split; [discriminate|reflexivity].
  - intros H. vm_compute in H. discriminate H.
  - constructor.
Defined.

(** Rolling back publishes nothing. *)
Lemma only_finalize_publishes_witness :
  read_at (tm_version_stores (sys_mgr (sys_call (sys_run sys_init (take 9 contended_run))
    (CallRollback 3)))) "t" 7 5 = Some (row7 10).
Proof.
  rewrite only_finalize_publishes by discriminate. vm_compute. reflexivity.
Defined.

(** An update buffered without old data commits, and leaves no trace on a row the
    version store does not track. *)
Example update_without_base_is_dropped :
  let s := sys_run sys_init [CallBegin 0; CallContext 1 0 [CtxUpdate "t" 7 ∅ (row7 20)];
                             CallPrepare 1; CallFinalize 1 0] in
  length (sys_history s) = 1%nat /\ read_at (tm_version_stores (sys_mgr s)) "t" 7 5 = None.
Proof. vm_compute. by split. Qed.
