(* ===== verification/TxnRaces.v ===== *)
(** * Where the transaction manager promises less

    Runs that leave the guarantees of [TxnIsolation]: the non-atomic [begin], the
    read-only snapshot taken at the next timestamp to be handed out, read
    validation across the prepare window, and the version count of a collected
    store. *)
From S2P Require Import Prelude VersionStore Snapshot TxnContext Conflict TxnManager TxnSystem.
From S2P Require Import TxnLedger TxnReads TxnIsolation.
Local Open Scope Z_scope.

Section split_begin.
Context {V : Type}.
Implicit Types (tm : TxnManager V).

(** [begin] takes no lock between allocating its timestamp and registering its
    snapshot: the two halves may be separated by calls of other threads. *)
Definition begin_allocate tm : Z * Snapshot * TxnManager V :=
  let g := tm_globals tm in
  let '(txn_id, next_txn) := next_txn_id (g_txn_id g) in
  let '(ts, ts') := next_timestamp (g_ts g) in
  let '(sid, next_snap) := next_snapshot_id (g_snapshot_id g) in
  (txn_id, mkSnapshot sid ts false, set_globals tm (mkGlobals ts' next_snap next_txn)).

Definition begin_register tm (txn_id : Z) (snap : Snapshot) (now : Z) : TxnManager V :=
  let ctx := TxnContext_new txn_id (sn_read_ts snap) false in
  let tm := set_snapshot_manager tm (SnapshotManager_register (tm_snapshot_manager tm) snap) in
  abort_timed_out_txns (set_entry tm txn_id (mkActiveTxn ctx snap Active now)) now.

Lemma begin_split tm now :
  TxnManager_begin tm now =
    let '(id, snap, tm') := begin_allocate tm in (id, begin_register tm' id snap now).
Proof. reflexivity. Qed.

(** What a reader at the next timestamp sees of the commit being published. *)
Lemma finalize_read_at_commit_ts tm prep hist id pc now tm' ws w ws1 ws2 :
  inv tm prep hist -> counters_below (TS_INF - 1) (tm_globals tm) ->
  prep !! id = Some pc -> pc_txn_id pc = id -> finalize_commit tm pc now = (tm', Ok ws) ->
  pc_writes pc = ws1 ++ w :: ws2 -> update_has_base w ->
  Forall (fun w' => write_key w' <> write_key w) ws2 ->
  read_at (tm_version_stores tm') (TxnWrite_table w) (TxnWrite_row_id w) (g_ts (tm_globals tm))
    = written_value w.
Proof.
  intros Hinv Hb Hpc Hid Hf Hws Hbase Hlast.
  destruct (finalize_published _ _ _ _ _ _ _ _ Hinv Hb Hpc Hid Hf) as (_ & _ & _ & _ & Hread).
  pose proof (inv_ts _ _ _ Hinv) as (? & _). destruct Hb as (? & _).
  rewrite Hread, Hws by (lia || (right; lia)). apply apply_writes_last; [lia..| |done|done].
  eapply (stores_inv_mono _ (mkGlobals (g_ts (tm_globals tm) + 1) 0 0));
    [apply (inv_stores _ _ _ Hinv)|simpl; lia].
Qed.
End split_begin.

(** *** Lost update through the split [begin] *)

(** Transaction 1 has inserted row 7 and is prepared. *)
Definition race_start : system nat := sys_run sys_init (take 3 (insert_then_commit 1 10)).

(** Transaction 2 allocates its timestamp; transaction 1 is finalized and, no
    snapshot being registered, clears the log; transaction 2 registers and deletes
    the row it cannot see. *)
Definition race_end : TxnManager nat :=
  let '(id, snap, tm) := begin_allocate (sys_mgr race_start) in
  let tm := (finalize_commit tm (mkPreparedCommit 1 [TxnInsert "t" 7 (row7 10)]) 0).1 in
  let tm := begin_register tm id snap 0 in
  (with_context tm id 0 (fun ctx => (ctx_run ctx [CtxUpdate "t" 7 (row7 5) (row7 6)], Ok tt))).1.

(** Splitting [begin] breaks first-committer-wins: when another thread finalizes
    between its timestamp allocation and its registration, a transaction whose
    snapshot does not see the commit is nevertheless allowed to prepare a write to
    the very row that commit wrote. *)
Theorem begin_race_admits_lost_update :
  (read_versioned race_end 2 "t" 7).2 = Ok None /\
  read_at (tm_version_stores race_end) "t" 7 3 = Some (row7 10) /\
  is_ok (prepare_commit race_end 2).2 = true.
Proof. vm_compute. split_and!; reflexivity. Qed.

(** *** Read-only snapshots *)

(** A read-only snapshot includes the next commit: [create_snapshot] reads the
    timestamp counter without advancing it, so a commit finalized after the
    snapshot was taken, if nothing drew a timestamp in between, carries exactly
    the snapshot's timestamp and becomes visible to it. *)
Theorem read_only_snapshot_sees_next_commit {V} cs id pc ro txn now tm' ws ws1 w ws2 :
  run_bounded cs ->
  let s := sys_run (@sys_init V) cs in
  sys_prepared s !! id = Some pc -> finalize_commit (sys_mgr s) pc now = (tm', Ok ws) ->
  tm_active_txns (sys_mgr s) !! ro = Some txn -> ro <> id ->
  sn_read_ts (at_snapshot txn) = current_timestamp (g_ts (tm_globals (sys_mgr s))) ->
  pc_writes pc = ws1 ++ w :: ws2 -> update_has_base w ->
  Forall (fun w' => write_key w' <> write_key w) ws2 ->
  (read_versioned tm' ro (TxnWrite_table w) (TxnWrite_row_id w)).2 = Ok (written_value w).
Proof.
  intros Hb s Hpc Hf Hro Hne Hts Hws Hbase Hlast.
  destruct (sys_run_from (@sys_init V) cs 1) as [[Hinv Htok] Hc];
    [split; [apply sys_init_inv|apply map_Forall_empty]|unfold counters_below; simpl; lia
    |unfold run_bounded in Hb; lia|].
  assert (Hcb : counters_below (TS_INF - 1) (tm_globals (sys_mgr s)))
    by (unfold counters_below, run_bounded, s in *; lia).
  destruct (finalize_published _ _ _ _ _ _ _ _ Hinv Hcb Hpc (Htok _ _ Hpc) Hf)
    as (_ & _ & _ & Hact & _).
  erewrite read_versioned_read_at; [|rewrite Hact, lookup_delete_ne by done; exact Hro].
  rewrite Hts. f_equal. by eapply finalize_read_at_commit_ts; try done; apply Htok.
Qed.

Lemma read_only_snapshot_sees_next_commit_witness :
  let cs := take 3 (insert_then_commit 1 10) ++ [CallBeginReadOnly 0] in
  let s := sys_run sys_init cs in
  let pc := mkPreparedCommit 1 [TxnInsert "t" 7 (row7 10)] in
  (read_versioned (sys_mgr s) 2 "t" 7).2 = Ok None /\
  (read_versioned (finalize_commit (sys_mgr s) pc 0).1 2 "t" 7).2 = Ok (Some (row7 10)).
Proof.
  cbv zeta. split; [vm_compute; reflexivity|].
  set (cs := take 3 (insert_then_commit 1 10) ++ [CallBeginReadOnly 0]).
  set (pc := mkPreparedCommit 1 [TxnInsert "t" 7 (row7 10)]).
  destruct (tm_active_txns (sys_mgr (sys_run sys_init cs)) !! 2) as [txn|] eqn:Ht;
    [|vm_compute in Ht; discriminate Ht].
  destruct (finalize_commit (sys_mgr (sys_run sys_init cs)) pc 0) as [tm' [ws|e]] eqn:Hf;
    [|vm_compute in Hf; discriminate Hf].
  apply (read_only_snapshot_sees_next_commit cs 1 pc 2 txn 0 tm' ws []
           (TxnInsert "t" 7 (row7 10)) []).
  - bounded_by_compute.
  - vm_compute. reflexivity.
  - exact Hf.
  - exact Ht.
  - discriminate.
  - vm_compute in Ht. injection Ht as <-. vm_compute. reflexivity.
  - reflexivity.
  - exact I.
  - constructor.
Defined.

(** *** Read validation across the prepare window *)

(** 1 reads row 1 and writes row 2, 2 reads row 2 and writes row 1; both prepare
    before either is finalized. *)
Definition skew_run : list (call nat) :=
  [CallBegin 0; CallBegin 0;
   CallContext 1 0 [CtxRecordRead "t" 1 0; CtxUpdate "t" 2 (row7 0) (row7 1)];
   CallContext 2 0 [CtxRecordRead "t" 2 0; CtxUpdate "t" 1 (row7 0) (row7 1)];
   CallPrepare 1; CallPrepare 2; CallFinalize 1 0; CallFinalize 2 0].

(** Read validation does not cover the prepare window: two transactions that each
    read the row the other writes both commit when both are prepared before either
    is finalized, because validation consults finished commits only. *)
Theorem prepare_window_admits_write_skew :
  (fun r => (cr_txn_id r, cr_snapshot_ts r, cr_commit_ts r)) <$>
    sys_history (sys_run sys_init skew_run) = [(2, 2, 4); (1, 1, 3)] /\
  (* prepared one after the other, the second is refused *)
  is_ok (prepare_commit (sys_mgr (sys_run sys_init
    (take 5 skew_run ++ [CallFinalize 1 0]))) 2).2 = false.
Proof. vm_compute. split; reflexivity. Qed.

(** *** The version count *)

Section version_count.
Context {V : Type}.
Implicit Types (st : VersionStore V).

(** The versions a store holds, counted. *)
Definition count_versions st : Z :=
  map_fold (fun _ c acc => acc + Z.of_nat (VersionChain_version_count c)) 0 (vs_chains st).
End version_count.

Definition collected_store : VersionStore nat :=
  (VersionStore_gc (VersionStore_delete (VersionStore_insert VersionStore_new 7 1 (row7 10)) 7 2).1
     U64_MAX).1.

(** Collecting a deleted row leaks its count: the store's chains are gone but
    [total_versions] stays positive, so pruning keeps the empty store forever. *)
Theorem gc_leaks_version_count :
  VersionStore_row_count collected_store = 0%nat /\ count_versions collected_store = 0 /\
  vs_total_versions collected_store = 1 /\
  version_store_count (prune_empty_version_stores
    (put_version_store TxnManager_new "t" collected_store)) = 1%nat.
Proof. vm_compute. split_and!; reflexivity. Qed.
