(* ===== verification/Bytes.v ===== *)
(** * Bytes and readers

    Byte sequences are lists of integers in [0, 256).  This file holds the standard
    library's [to_le_bytes]/[from_le_bytes], [str::from_utf8], and the readers the file
    formats are decoded with: a reader consumes a prefix of the unread bytes and either
    returns a value, reports [InvalidData], or panics on a slice out of range. *)
From S2P Require Import Prelude.
Local Open Scope Z_scope.

(** ** Little-endian integers *)

Fixpoint le_bytes_value (bytes : list Z) : Z :=
  match bytes with [] => 0 | b :: bytes => b + 256 * le_bytes_value bytes end.

Fixpoint le_bytes (n : nat) (x : Z) : list Z :=
  match n with O => [] | S n => x mod 256 :: le_bytes n (x / 256) end.

(** The number of values of an [n]-byte integer. *)
Definition width (n : nat) : Z := 256 ^ Z.of_nat n.

(** [to_le_bytes] of an [n]-byte integer, signed or not. *)
Definition to_le (n : nat) (x : Z) : list Z := le_bytes n (x mod width n).

(** [from_le_bytes] at an unsigned and at a signed type. *)
Definition u_from_le (bytes : list Z) : Z := le_bytes_value bytes.
Definition i_from_le (bytes : list Z) : Z :=
  let n := length bytes in
  let u := le_bytes_value bytes in
  if u <? width n / 2 then u else u - width n.

Definition is_byte (b : Z) : Prop := 0 <= b < 256.
Definition unsigned (n : nat) (x : Z) : Prop := 0 <= x < width n.
Definition signed (n : nat) (x : Z) : Prop := - (width n / 2) <= x < width n / 2.

Lemma le_bytes_value_le n x : 0 <= x < 256 ^ Z.of_nat n -> le_bytes_value (le_bytes n x) = x.
Proof.
  revert x. induction n as [|n IH]; intros x Hx; simpl le_bytes.
  - simpl in *. lia.
  - cbn [le_bytes_value]. rewrite IH.
    + pose proof (Z.div_mod x 256). lia.
    + rewrite Nat2Z.inj_succ, Z.pow_succ_r in Hx by lia. split; [apply Z.div_pos; lia|].
      apply Z.div_lt_upper_bound; lia.
Qed.

Lemma le_bytes_length n x : length (le_bytes n x) = n.
Proof. revert x. induction n as [|n IH]; intros x; simpl; [done|]. by rewrite IH. Qed.

Lemma le_bytes_are_bytes n x : Forall is_byte (le_bytes n x).
Proof.
  revert x. induction n as [|n IH]; intros x; simpl; constructor; [|apply IH].
  unfold is_byte. apply Z.mod_pos_bound. lia.
Qed.

Lemma le_bytes_value_range bytes : Forall is_byte bytes -> unsigned (length bytes) (le_bytes_value bytes).
Proof.
  unfold unsigned, width. induction 1 as [|b bytes Hb _ IH]; cbn [le_bytes_value length].
  - simpl. lia.
  - unfold is_byte in Hb. rewrite Nat2Z.inj_succ, Z.pow_succ_r by lia. lia.
Qed.

Lemma width_pos n : 0 < width n.
Proof. unfold width. apply Z.pow_pos_nonneg; lia. Qed.

Lemma width_even n : width (S n) = 2 * (width (S n) / 2).
Proof.
  unfold width. rewrite Nat2Z.inj_succ, Z.pow_succ_r by lia.
  replace (256 * 256 ^ Z.of_nat n) with (128 * 256 ^ Z.of_nat n * 2) by lia.
  rewrite Z.div_mul by lia. lia.
Qed.

Lemma to_le_length n x : length (to_le n x) = n.
Proof. apply le_bytes_length. Qed.

Lemma u_from_to_le n x : unsigned n x -> u_from_le (to_le n x) = x.
Proof.
  intros Hx. unfold u_from_le, to_le. pose proof (width_pos n).
  rewrite le_bytes_value_le by (apply Z.mod_pos_bound; done). by apply Z.mod_small.
Qed.

Lemma i_from_to_le n x : signed (S n) x -> i_from_le (to_le (S n) x) = x.
Proof.
  intros Hx. unfold i_from_le, to_le. pose proof (width_pos (S n)). pose proof (width_even (S n - 1)) as He.
  replace (S (S n - 1)) with (S n) in He by lia.
  rewrite le_bytes_length, le_bytes_value_le by (apply Z.mod_pos_bound; done).
  unfold signed in Hx. destruct (Z_lt_le_dec x 0).
  - rewrite <- (Z_mod_plus_full x 1), Z.mod_small by lia.
    destruct (Z.ltb_spec (x + 1 * width (S n)) (width (S n) / 2)); lia.
  - rewrite Z.mod_small by lia. destruct (Z.ltb_spec x (width (S n) / 2)); lia.
Qed.

(** ** Text *)

Fixpoint string_bytes (s : string) : list Z :=
  match s with
  | EmptyString => []
  | String c s => Z.of_N (Ascii.N_of_ascii c) :: string_bytes s
  end.

Fixpoint bytes_string (bytes : list Z) : string :=
  match bytes with
  | [] => EmptyString
  | b :: bytes => String (Ascii.ascii_of_N (Z.to_N b)) (bytes_string bytes)
  end.

Lemma bytes_string_bytes s : bytes_string (string_bytes s) = s.
Proof.
  induction s as [|c s IH]; simpl; [done|]. by rewrite N2Z.id, Ascii.ascii_N_embedding, IH.
Qed.

Lemma string_bytes_are_bytes s : Forall is_byte (string_bytes s).
Proof.
  induction s as [|c s IH]; simpl; constructor; [|done].
  unfold is_byte. pose proof (Ascii.N_ascii_bounded c). lia.
Qed.

Definition in_range (lo hi b : Z) : bool := (lo <=? b) && (b <=? hi).

(** A continuation byte. *)
Definition cont (b : Z) : bool := in_range 128 191 b.

(** [str::from_utf8], the table of well-formed sequences. *)
Fixpoint utf8_valid (bytes : list Z) : bool :=
  match bytes with
  | [] => true
  | a :: rest =>
      if a <? 128 then utf8_valid rest
      else if in_range 194 223 a then
        match rest with b :: rest => cont b && utf8_valid rest | _ => false end
      else if in_range 224 239 a then
        match rest with
        | b :: c :: rest =>
            in_range (if a =? 224 then 160 else 128) (if a =? 237 then 159 else 191) b &&
            cont c && utf8_valid rest
        | _ => false
        end
      else if in_range 240 244 a then
        match rest with
        | b :: c :: d :: rest =>
            in_range (if a =? 240 then 144 else 128) (if a =? 244 then 143 else 191) b &&
            cont c && cont d && utf8_valid rest
        | _ => false
        end
      else false
  end.

(** A Rust [String] is valid UTF-8. *)
Definition valid_str (s : string) : Prop := utf8_valid (string_bytes s) = true.

(** ** Readers *)

Inductive Outcome (A : Type) :=
| Done (a : A)
| Invalid                                             (* [Err(InvalidData)] *)
| Panic.                                              (* a slice or index out of range *)
Arguments Done {A} a.
Arguments Invalid {A}.
Arguments Panic {A}.

Definition outcome_bind {A B} (o : Outcome A) (k : A -> Outcome B) : Outcome B :=
  match o with Done a => k a | Invalid => Invalid | Panic => Panic end.

(** A reader over the bytes not yet consumed. *)
Definition Reader (A : Type) : Type := list Z -> Outcome (A * list Z).

Definition ret {A} (a : A) : Reader A := fun bs => Done (a, bs).
Definition invalid {A} : Reader A := fun _ => Invalid.
Definition bind {A B} (p : Reader A) (k : A -> Reader B) : Reader B :=
  fun bs => match p bs with Done (a, bs) => k a bs | Invalid => Invalid | Panic => Panic end.

Notation "'let!' x ':=' p 'in' k" := (bind p (fun x => k))
  (at level 10, x name, p at level 100, k at level 200) : apex_scope.
Local Open Scope apex_scope.

(** The next [n] bytes; what happens when there are fewer is the argument: [Panic] for
    [&data[pos..pos + n]], [Invalid] for [data.get(pos..pos + n)] with an error. *)
Definition next (short : Outcome (list Z * list Z)) (n : Z) : Reader (list Z) :=
  fun bs => if n <=? Z.of_nat (length bs)
            then Done (take (Z.to_nat n) bs, drop (Z.to_nat n) bs) else short.

Definition index (n : Z) : Reader (list Z) := next Panic n.
Definition get (n : Z) : Reader (list Z) := next Invalid n.

Definition read_u (short : Outcome (list Z * list Z)) (n : Z) : Reader Z :=
  let! b := next short n in ret (u_from_le b).
Definition read_i (short : Outcome (list Z * list Z)) (n : Z) : Reader Z :=
  let! b := next short n in ret (i_from_le b).

(** [str::from_utf8(..)?.to_string()] *)
Definition read_str (short : Outcome (list Z * list Z)) (n : Z) : Reader string :=
  let! b := next short n in
  if utf8_valid b then ret (bytes_string b) else invalid.

(** [for _ in 0..n], collecting. *)
Fixpoint read_n {A} (n : nat) (p : Reader A) : Reader (list A) :=
  match n with
  | O => ret []
  | S n => let! x := p in let! xs := read_n n p in ret (x :: xs)
  end.

(** ** What a reader makes of an encoding *)

(** [p] decodes [enc] to [v], whatever follows. *)
Definition reads {A} (p : Reader A) (enc : list Z) (v : A) : Prop :=
  forall rest, p (enc ++ rest) = Done (v, rest).

Section reads.
Context {A B : Type}.

Lemma reads_ret (a : A) : reads (ret a) [] a.
Proof. by intros rest. Qed.

Lemma reads_bind (p : Reader A) (k : A -> Reader B) e1 e2 a b :
  reads p e1 a -> reads (k a) e2 b -> reads (bind p k) (e1 ++ e2) b.
Proof. intros H1 H2 rest. unfold bind. rewrite <-app_assoc, H1. apply H2. Qed.

Lemma reads_last (p : Reader A) (f : A -> B) e a :
  reads p e a -> reads (bind p (fun a => ret (f a))) e (f a).
Proof. intros H rest. unfold bind. by rewrite H. Qed.

End reads.

Lemma reads_read_n {A C} (p : Reader A) (enc : C -> list Z) (dec : C -> A) l :
  Forall (fun c => reads p (enc c) (dec c)) l ->
  reads (read_n (length l) p) (l ≫= enc) (dec <$> l).
Proof.
  induction 1 as [|c l Hc Hl IH]; [by intros rest|].
  cbn [length read_n]. rewrite bind_cons, fmap_cons.
  eapply reads_bind; [exact Hc|]. exact (reads_last _ _ _ _ IH).
Qed.

Lemma reads_next short bs n : n = Z.of_nat (length bs) -> reads (next short n) bs bs.
Proof.
  intros -> rest. unfold next. rewrite length_app, Nat2Z.inj_add.
  destruct (Z.leb_spec (Z.of_nat (length bs)) (Z.of_nat (length bs) + Z.of_nat (length rest))); [|lia].
  by rewrite Nat2Z.id, take_app_length, drop_app_length.
Qed.

Lemma reads_u short n x : unsigned n x -> reads (read_u short (Z.of_nat n)) (to_le n x) x.
Proof.
  intros Hx rest. unfold read_u, bind. rewrite reads_next by (by rewrite to_le_length).
  unfold ret. by rewrite u_from_to_le.
Qed.

Lemma reads_i short n x : signed (S n) x -> reads (read_i short (Z.of_nat (S n))) (to_le (S n) x) x.
Proof.
  intros Hx rest. unfold read_i, bind. rewrite reads_next by (by rewrite to_le_length).
  unfold ret. by rewrite i_from_to_le.
Qed.

Lemma reads_str short s :
  valid_str s -> reads (read_str short (Z.of_nat (length (string_bytes s)))) (string_bytes s) s.
Proof.
  unfold valid_str. intros Hs rest. unfold read_str, bind. rewrite reads_next by done. rewrite Hs.
  unfold ret. by rewrite bytes_string_bytes.
Qed.


Lemma reads_byte short b : is_byte b -> reads (read_u short 1) [b] b.
Proof.
  intros Hb. pose proof (reads_u short 1 b) as H. unfold to_le, width in H. cbn [le_bytes] in H.
  change (256 ^ Z.of_nat 1) with 256 in H. unfold is_byte in Hb.
  rewrite Z.mod_mod, Z.mod_small in H by lia. apply H. done.
Qed.

Lemma reads_step {A B} (p : Reader A) (k : A -> Reader B) b e2 x a :
  reads p [b] a -> reads (k a) e2 x -> reads (bind p k) (b :: e2) x.
Proof. exact (reads_bind p k [b] e2 a x). Qed.

Lemma reads_last_eq {A B} (p : Reader A) (f : A -> B) e a b :
  reads p e a -> f a = b -> reads (bind p (fun a => ret (f a))) e b.
Proof. intros Hp <-. by apply reads_last. Qed.

Lemma reads_then {A B} (p : Reader A) (k : A -> Reader B) e a x :
  reads p e a -> k a = ret x -> reads (bind p k) e x.
Proof. intros Hp Hk rest. unfold bind. by rewrite Hp, Hk. Qed.

(** ** Readers consume *)

(** [p] never gives back more than it was given, and at least [n] bytes less. *)
Definition consumes {A} (n : nat) (p : Reader A) : Prop :=
  forall bs a rest, p bs = Done (a, rest) -> (length rest + n <= length bs)%nat.

Lemma consumes_next short n : (forall x, short <> Done x) -> consumes (Z.to_nat n) (next short n).
Proof.
  unfold consumes, next. intros Hs bs b rest H.
  destruct (Z.leb_spec n (Z.of_nat (length bs))); [|by destruct (Hs _ H)].
  simplify_eq. rewrite length_drop. lia.
Qed.

Lemma consumes_ret {A} (a : A) : consumes 0 (ret a).
Proof. intros bs x rest H. unfold ret in H. simplify_eq. lia. Qed.

Lemma consumes_bind {A B} (p : Reader A) (k : A -> Reader B) n m :
  consumes n p -> (forall a, consumes m (k a)) -> consumes (n + m) (bind p k).
Proof.
  unfold bind. intros Hp Hk bs b rest H. destruct (p bs) as [[a mid]| |] eqn:Hpb; [|done..].
  apply Hp in Hpb. apply Hk in H. lia.
Qed.

Lemma consumes_le {A} (p : Reader A) n m : (m <= n)%nat -> consumes n p -> consumes m p.
Proof. intros Hle Hp bs a rest H. apply Hp in H. lia. Qed.

Lemma consumes_read_n {A} (p : Reader A) n : consumes 0 p -> consumes 0 (read_n n p).
Proof.
  intros Hp. induction n as [|n IH]; cbn [read_n]; [apply consumes_ret|].
  apply (consumes_bind _ _ 0 0); [done|]. intros x. apply (consumes_bind _ _ 0 0); [done|].
  intros xs. apply consumes_ret.
Qed.

(** Two readers that agree on every suffix agree when they are repeated. *)
Lemma read_n_ext {A} (p q : Reader A) n bs :
  consumes 0 p -> (forall bs', (length bs' <= length bs)%nat -> p bs' = q bs') ->
  read_n n p bs = read_n n q bs.
Proof.
  intros Hp. revert bs. induction n as [|n IH]; intros bs Hpq; cbn [read_n]; [done|].
  unfold bind at 1 3. rewrite <-Hpq by done. destruct (p bs) as [[a rest]| |] eqn:Hpb; [|done..].
  apply Hp in Hpb. unfold bind. rewrite IH; [done|]. intros bs' Hle. apply Hpq. lia.
Qed.

Lemma consumes_bind_0 {A B} (p : Reader A) (k : A -> Reader B) :
  consumes 0 p -> (forall a, consumes 0 (k a)) -> consumes 0 (bind p k).
Proof. apply (consumes_bind _ _ 0 0). Qed.

Lemma consumes_invalid {A} : consumes 0 (@invalid A).
Proof. done. Qed.

Lemma consumes_panic {A} : consumes 0 (fun _ => @Panic (A * list Z)).
Proof. done. Qed.

Lemma consumes_get n : consumes 0 (get n).
Proof. eapply consumes_le; [|apply consumes_next]; [lia|done]. Qed.

Lemma consumes_index n : consumes 0 (index n).
Proof. eapply consumes_le; [|apply consumes_next]; [lia|done]. Qed.

#[export] Hint Resolve consumes_bind_0 consumes_invalid consumes_panic consumes_get consumes_index
  consumes_ret consumes_read_n : consumes.
#[export] Hint Unfold read_u read_i read_str : consumes.

Lemma bind_ext {A B} (p : Reader A) (k k' : A -> Reader B) bs :
  (forall a rest, p bs = Done (a, rest) -> k a rest = k' a rest) -> bind p k bs = bind p k' bs.
Proof. unfold bind. intros H. destruct (p bs) as [[a rest]| |]; auto. Qed.

Lemma consumes_read_u short n : (forall x, short <> Done x) -> consumes (Z.to_nat n) (read_u short n).
Proof.
  intros Hs. rewrite <-(Nat.add_0_r (Z.to_nat n)). apply consumes_bind; [by apply consumes_next|].
  intros b. apply consumes_ret.
Qed.
