(* ===== verification/Bits.v ===== *)
(** * Packed bits

    Bit [i] of a byte sequence is bit [i mod 8] of byte [i / 8]: the bitmaps, the boolean columns
    and the bit-packed integers of the storage use this order.  A byte sequence is determined by
    its little-endian value, and reading, setting and windowing bits are operations on it. *)
From S2P Require Import Prelude Bytes.
Local Open Scope Z_scope.
#[global] Arguments Nat.div : simpl never.
#[global] Arguments Nat.modulo : simpl never.

(** ** Reading and setting *)

(** [(data[row / 8] >> (row % 8)) & 1], when the byte is there *)
Definition packed_bit (data : list Z) (row : nat) : option Z :=
  (fun byte => Z.land (Z.shiftr byte (Z.of_nat (row mod 8))) 1) <$> data !! (row / 8)%nat.

(** [row / 8 < data.len() && (data[row / 8] >> (row % 8)) & 1 == 1] *)
Definition bit_set (data : list Z) (row : nat) : bool :=
  match packed_bit data row with Some bit => bit =? 1 | None => false end.

(** [data[row / 8] |= 1 << (row % 8)] *)
Definition or_bit (data : list Z) (row : nat) : option (list Z) :=
  (fun byte => <[(row / 8)%nat := Z.lor byte (Z.shiftl 1 (Z.of_nat (row mod 8)))]> data) <$> data !! (row / 8)%nat.

(** [data[row / 8] &= !(1 << (row % 8))] *)
Definition clear_bit (data : list Z) (row : nat) : option (list Z) :=
  (fun byte => <[(row / 8)%nat := Z.ldiff byte (Z.shiftl 1 (Z.of_nat (row mod 8)))]> data) <$> data !! (row / 8)%nat.

(** [(bits + 7) / 8] *)
Definition byte_len (bits : nat) : nat := ((bits + 7) / 8)%nat.

(** The value of a list of bits, the first the least significant. *)
Fixpoint bits_value (bits : list bool) : Z :=
  match bits with [] => 0 | b :: bits => Z.b2z b + 2 * bits_value bits end.

Definition pack_bits (bits : list bool) : list Z := le_bytes (byte_len (length bits)) (bits_value bits).

(** ** Byte sequences and their values *)

Lemma le_bytes_of_bytes bytes : Forall is_byte bytes -> le_bytes (length bytes) (le_bytes_value bytes) = bytes.
Proof.
  induction 1 as [|b bytes Hb _ IH]; [done|]. cbn [length le_bytes le_bytes_value]. unfold is_byte in Hb.
  rewrite (Z.mul_comm 256), Z_mod_plus_full, Z.mod_small by lia. rewrite Z.div_add, Z.div_small by lia.
  by rewrite Z.add_0_l, IH.
Qed.

Lemma width_bits n : width n = 2 ^ (8 * Z.of_nat n).
Proof. unfold width. change 256 with (2 ^ 8). by rewrite <-Z.pow_mul_r by lia. Qed.

Lemma le_bytes_lookup n x i : (i < n)%nat -> 0 <= x -> le_bytes n x !! i = Some (Z.shiftr x (8 * Z.of_nat i) mod 256).
Proof.
  revert x i. induction n as [|n IH]; intros x i Hi Hx; [lia|]. destruct i as [|i]; [done|].
  cbn [le_bytes lookup list_lookup]. change (le_bytes n (x / 256) !! i) with (le_bytes n (x / 256) !! i).
  rewrite IH by (try lia; apply Z.div_pos; lia). f_equal. f_equal.
  change 256 with (2 ^ 8) at 1. rewrite <-Z.shiftr_div_pow2, Z.shiftr_shiftr by lia. f_equal. lia.
Qed.

Lemma le_bytes_app n m x y :
  0 <= x < width n -> le_bytes n x ++ le_bytes m y = le_bytes (n + m) (x + width n * y).
Proof.
  revert x. induction n as [|n IH]; intros x Hx.
  - unfold width in *. simpl in *. f_equal. lia.
  - assert (Hw : width (S n) = 256 * width n) by (unfold width; by rewrite Nat2Z.inj_succ, Z.pow_succ_r by lia).
    rewrite Hw in *. cbn [le_bytes plus app]. f_equal.
    + rewrite <-Z.mul_assoc, (Z.mul_comm 256), Z_mod_plus_full. done.
    + rewrite IH.
      * f_equal. rewrite <-Z.mul_assoc, (Z.mul_comm 256), Z.div_add by lia. lia.
      * split; [apply Z.div_pos; lia|]. apply Z.div_lt_upper_bound; lia.
Qed.

Lemma le_bytes_zeros n : le_bytes n 0 = replicate n 0.
Proof. induction n as [|n IH]; [done|]. cbn [le_bytes replicate]. by rewrite Z.div_0_l, IH by lia. Qed.

(** ** Bits of the value *)

Lemma land_1 x : Z.land x 1 = Z.b2z (Z.testbit x 0).
Proof. change 1 with (Z.ones 1). rewrite Z.land_ones by lia. symmetry. apply Z.bit0_mod. Qed.

Lemma land_1_shiftr x k : 0 <= k -> Z.land (Z.shiftr x k) 1 = Z.b2z (Z.testbit x k).
Proof. intros Hk. by rewrite land_1, Z.shiftr_spec, Z.add_0_l by lia. Qed.

(** Bits at or above the width are clear. *)
Lemma testbit_above x k n : 0 <= x < 2 ^ k -> k <= n -> Z.testbit x n = false.
Proof.
  intros Hx Hn. destruct (Z.eq_dec x 0) as [->|Hnz]; [apply Z.bits_0|]. apply Z.bits_above_log2; [lia|].
  apply Z.log2_lt_pow2; [lia|]. eapply Z.lt_le_trans; [apply Hx|]. apply Z.pow_le_mono_r; lia.
Qed.

Lemma packed_bit_le n x i :
  0 <= x -> packed_bit (le_bytes n x) i =
    if (i / 8 <? n)%nat then Some (Z.b2z (Z.testbit x (Z.of_nat i))) else None.
Proof.
  intros Hx. unfold packed_bit. destruct (Nat.ltb_spec (i / 8) n) as [Hlt|Hge].
  - rewrite le_bytes_lookup by done. simpl. f_equal. change 256 with (2 ^ 8).
    rewrite <-Z.land_ones, land_1_shiftr by lia. f_equal.
    pose proof (Nat.div_mod_eq i 8). pose proof (Nat.mod_upper_bound i 8 ltac:(done)).
    rewrite Z.land_spec, Z.shiftr_spec, Z.ones_spec_low, andb_true_r by lia. f_equal. lia.
  - rewrite lookup_ge_None_2; [done|]. rewrite le_bytes_length. lia.
Qed.

Lemma bit_set_le n x i :
  0 <= x -> bit_set (le_bytes n x) i = (i / 8 <? n)%nat && Z.testbit x (Z.of_nat i).
Proof.
  intros Hx. unfold bit_set. rewrite packed_bit_le by done. destruct (_ <? _)%nat; [|done].
  by destruct (Z.testbit x (Z.of_nat i)).
Qed.

Lemma setbit_range x n k : 0 <= x < 2 ^ k -> 0 <= n < k -> 0 <= Z.setbit x n < 2 ^ k.
Proof.
  intros Hx Hn. assert (Hp : 0 <= Z.setbit x n) by (apply Z.lor_nonneg; split; [lia|apply Z.shiftl_nonneg; lia]). split; [done|].
  destruct (Z.eq_dec (Z.setbit x n) 0) as [->|Hnz]; [apply Z.pow_pos_nonneg; lia|].
  apply Z.log2_lt_pow2; [lia|]. unfold Z.setbit. rewrite Z.log2_lor by (try apply Z.shiftl_nonneg; lia).
  apply Z.max_lub_lt.
  - destruct (Z.eq_dec x 0) as [->|]; [simpl; lia|]. apply Z.log2_lt_pow2; lia.
  - rewrite Z.shiftl_1_l, Z.log2_pow2; lia.
Qed.

(** Two byte sequences with the same bits are equal. *)
Lemma bytes_ext a b :
  Forall is_byte a -> Forall is_byte b -> length a = length b ->
  (forall i, Z.testbit (le_bytes_value a) i = Z.testbit (le_bytes_value b) i) -> a = b.
Proof.
  intros Ha Hb Hlen Hbits. rewrite <-(le_bytes_of_bytes a), <-(le_bytes_of_bytes b) by done.
  rewrite Hlen. f_equal. apply Z.bits_inj. exact Hbits.
Qed.

Lemma le_bytes_value_testbit bytes i :
  Forall is_byte bytes -> Z.testbit (le_bytes_value bytes) (Z.of_nat i) = bit_set bytes i.
Proof.
  intros Hb. rewrite <-(le_bytes_of_bytes bytes) at 2 by done. pose proof (le_bytes_value_range _ Hb) as Hr.
  unfold unsigned in Hr. rewrite bit_set_le by lia.
  destruct (Nat.ltb_spec (i / 8) (length bytes)) as [Hlt|Hge]; [done|].
  rewrite width_bits in Hr. simpl. pose proof (Nat.div_mod_eq i 8). pose proof (Nat.mod_upper_bound i 8 ltac:(done)).
  eapply testbit_above; [exact Hr|lia].
Qed.

Lemma set_bit_byte byte k : is_byte byte -> 0 <= k < 8 -> is_byte (Z.lor byte (Z.shiftl 1 k)).
Proof. unfold is_byte. intros Hb Hk. apply (setbit_range byte k 8); lia. Qed.

Lemma packed_bit_insert data i j byte' :
  (i / 8 < length data)%nat ->
  packed_bit (<[(i / 8)%nat := byte']> data) j =
    if (j / 8 =? i / 8)%nat then Some (Z.land (Z.shiftr byte' (Z.of_nat (j mod 8))) 1) else packed_bit data j.
Proof.
  intros Hi. unfold packed_bit. destruct (Nat.eqb_spec (j / 8) (i / 8)) as [->|Hne].
  - by rewrite list_lookup_insert_eq by done.
  - by rewrite list_lookup_insert_ne by done.
Qed.

(** Changing bit [i] of the sequence is changing it in the value. *)
Lemma change_bit n x x' i byte byte' b :
  (i / 8 < n)%nat -> 0 <= x < width n -> 0 <= x' < width n -> le_bytes n x !! (i / 8)%nat = Some byte ->
  is_byte byte' ->
  (forall k, 0 <= k < 8 -> Z.testbit byte' k = if k =? Z.of_nat (i mod 8) then b else Z.testbit byte k) ->
  (forall j, 0 <= j -> Z.testbit x' j = if j =? Z.of_nat i then b else Z.testbit x j) ->
  <[(i / 8)%nat := byte']> (le_bytes n x) = le_bytes n x'.
Proof.
  intros Hi Hx Hx' Hbyte Hb' Hk Hj. set (data' := <[(i / 8)%nat := byte']> (le_bytes n x)).
  assert (Hd : Forall is_byte data') by (apply Forall_insert; [apply le_bytes_are_bytes|done]).
  apply bytes_ext; [done|apply le_bytes_are_bytes|by unfold data'; rewrite length_insert, !le_bytes_length|].
  intros j. destruct (Z.neg_nonneg_cases j) as [Hneg|Hnn]; [by rewrite !Z.testbit_neg_r by done|].
  rewrite (le_bytes_value_le n x') by done. rewrite Hj by done.
  rewrite <-(Z2Nat.id j) by done. generalize (Z.to_nat j). clear j Hnn. intros j.
  rewrite le_bytes_value_testbit by done. unfold bit_set, data'. rewrite packed_bit_insert by by rewrite le_bytes_length.
  pose proof (Nat.div_mod_eq j 8) as Hdj. pose proof (Nat.mod_upper_bound j 8 ltac:(done)) as Hmj.
  pose proof (Nat.div_mod_eq i 8) as Hdi. pose proof (packed_bit_le n x j ltac:(lia)) as Hp.
  destruct (Nat.eqb_spec (j / 8) (i / 8)) as [He|Hne].
  - rewrite land_1_shiftr, Hk by lia. unfold packed_bit in Hp. rewrite He, Hbyte in Hp.
    rewrite (proj2 (Nat.ltb_lt _ _) Hi) in Hp. simpl in Hp. injection Hp as Hp.
    rewrite land_1_shiftr in Hp by lia. apply Z.b2z_inj in Hp. rewrite Hp.
    destruct (Z.eqb_spec (Z.of_nat j) (Z.of_nat i)) as [Hij|Hij];
      destruct (Z.eqb_spec (Z.of_nat (j mod 8)) (Z.of_nat (i mod 8))) as [Hm|Hm]; try lia;
      [by destruct b|by destruct (Z.testbit x (Z.of_nat j))].
  - destruct (Z.eqb_spec (Z.of_nat j) (Z.of_nat i)) as [Hij|Hij]; [apply Nat2Z.inj in Hij; congruence|]. rewrite Hp.
    destruct (Nat.ltb_spec (j / 8) n) as [Hlt|Hge]; [by destruct (Z.testbit x (Z.of_nat j))|].
    symmetry. rewrite width_bits in Hx. eapply testbit_above; [exact Hx|lia].
Qed.

Lemma le_bytes_byte n x i : (i / 8 < n)%nat -> exists byte, le_bytes n x !! (i / 8)%nat = Some byte /\ is_byte byte.
Proof.
  intros Hi. destruct (lookup_lt_is_Some_2 (le_bytes n x) (i / 8)) as [byte Hbyte]; [by rewrite le_bytes_length|].
  exists byte. split; [done|]. exact (Forall_lookup_1 _ _ _ _ (le_bytes_are_bytes n x) Hbyte).
Qed.

(** Setting a bit of the sequence is setting it in the value. *)
Lemma or_bit_le n x i :
  (i / 8 < n)%nat -> 0 <= x < width n -> or_bit (le_bytes n x) i = Some (le_bytes n (Z.setbit x (Z.of_nat i))).
Proof.
  intros Hi Hx. unfold or_bit. destruct (le_bytes_byte n x i Hi) as (byte & Hbyte & Hb). rewrite Hbyte.
  simpl. f_equal. pose proof (Nat.mod_upper_bound i 8 ltac:(done)) as Hm. pose proof (Nat.div_mod_eq i 8).
  eapply (change_bit _ _ _ _ byte _ true); [done|done| |done|apply set_bit_byte; [done|lia]|..].
  - rewrite width_bits in *. apply setbit_range; lia.
  - intros k Hk. rewrite Z.lor_spec, Z.shiftl_1_l, Z.pow2_bits_eqb by lia. rewrite (Z.eqb_sym k).
    destruct (_ =? k); [apply orb_true_r|apply orb_false_r].
  - intros j Hj. rewrite Z.setbit_eqb, (Z.eqb_sym j) by lia. by destruct (_ =? j).
Qed.

Lemma ldiff_range x y : 0 <= x -> 0 <= Z.ldiff x y <= x.
Proof.
  intros Hx. apply Z.ldiff_le; [done|]. apply Z.bits_inj'. intros n Hn.
  rewrite !Z.ldiff_spec, Z.bits_0. by destruct (Z.testbit x n), (Z.testbit y n).
Qed.

(** Clearing a bit. *)
Lemma clear_bit_le n x i :
  (i / 8 < n)%nat -> 0 <= x < width n -> clear_bit (le_bytes n x) i = Some (le_bytes n (Z.clearbit x (Z.of_nat i))).
Proof.
  intros Hi Hx. unfold clear_bit. destruct (le_bytes_byte n x i Hi) as (byte & Hbyte & Hb). rewrite Hbyte.
  simpl. f_equal. pose proof (Nat.mod_upper_bound i 8 ltac:(done)) as Hm. unfold is_byte in Hb.
  eapply (change_bit _ _ _ _ byte _ false); [done|done| |done|..].
  - unfold Z.clearbit. pose proof (ldiff_range x (Z.shiftl 1 (Z.of_nat i)) ltac:(lia)). lia.
  - pose proof (ldiff_range byte (Z.shiftl 1 (Z.of_nat (i mod 8))) ltac:(lia)). unfold is_byte. lia.
  - intros k Hk. rewrite Z.ldiff_spec, Z.shiftl_1_l, Z.pow2_bits_eqb by lia. rewrite (Z.eqb_sym k).
    destruct (_ =? k); [apply andb_false_r|apply andb_true_r].
  - intros j Hj. rewrite Z.clearbit_eqb, (Z.eqb_sym j) by lia. destruct (_ =? j); [apply andb_false_r|apply andb_true_r].
Qed.

(** Bits joined above others are added. *)
Lemma lor_shiftl b c k : 0 <= b < 2 ^ k -> 0 <= k -> Z.lor b (Z.shiftl c k) = b + 2 ^ k * c.
Proof.
  intros Hb Hk. assert (Hand : Z.land b (Z.shiftl c k) = 0).
  { apply Z.bits_inj'. intros n Hn. rewrite Z.land_spec, Z.bits_0, Z.shiftl_spec by done.
    destruct (Z.lt_ge_cases n k); [rewrite (Z.testbit_neg_r c) by lia; apply andb_false_r|].
    by rewrite (testbit_above b k) by done. }
  rewrite <-Z.lxor_lor by done. rewrite <-Z.add_nocarry_lxor by done. rewrite Z.shiftl_mul_pow2 by done. lia.
Qed.

(** ** Lists of bits *)

Lemma byte_len_spec n : (8 * byte_len n < n + 8 /\ n <= 8 * byte_len n)%nat.
Proof.
  unfold byte_len. pose proof (Nat.div_mod_eq (n + 7) 8).
  pose proof (Nat.mod_upper_bound (n + 7) 8 ltac:(done)). lia.
Qed.

Lemma div8_byte_len i n : (i < n)%nat -> (i / 8 < byte_len n)%nat.
Proof. intros Hi. pose proof (byte_len_spec n). apply Nat.Div0.div_lt_upper_bound; lia. Qed.

Lemma byte_len_mono n m : (n <= m)%nat -> (byte_len n <= byte_len m)%nat.
Proof. intros. pose proof (byte_len_spec n). pose proof (byte_len_spec m). lia. Qed.

Lemma bits_value_range bits : 0 <= bits_value bits < 2 ^ Z.of_nat (length bits).
Proof.
  induction bits as [|b bits IH]; [done|]. cbn [bits_value length].
  rewrite Nat2Z.inj_succ, Z.pow_succ_r by lia. destruct b; simpl Z.b2z; lia.
Qed.

Lemma bits_value_unsigned bits n : (length bits <= 8 * n)%nat -> 0 <= bits_value bits < width n.
Proof.
  intros Hn. pose proof (bits_value_range bits). split; [lia|]. rewrite width_bits.
  eapply Z.lt_le_trans; [apply bits_value_range|]. apply Z.pow_le_mono_r; lia.
Qed.

Lemma bits_value_testbit bits i : Z.testbit (bits_value bits) (Z.of_nat i) = default false (bits !! i).
Proof.
  revert i. induction bits as [|b bits IH]; intros i; [apply Z.bits_0|]. cbn [bits_value].
  rewrite Z.add_comm. destruct i as [|i]; [apply Z.testbit_0_r|].
  change ((b :: bits) !! S i) with (bits !! i). rewrite <-(IH i), Nat2Z.inj_succ. apply Z.testbit_succ_r. lia.
Qed.

Lemma bits_value_app a b : bits_value (a ++ b) = bits_value a + 2 ^ Z.of_nat (length a) * bits_value b.
Proof.
  induction a as [|x a IH]; cbn [bits_value app length]; [rewrite Z.pow_0_r; lia|].
  rewrite IH, Nat2Z.inj_succ, Z.pow_succ_r by lia. lia.
Qed.

Lemma bits_value_snoc bits b :
  bits_value (bits ++ [b]) =
    if b then Z.setbit (bits_value bits) (Z.of_nat (length bits)) else bits_value bits.
Proof.
  rewrite bits_value_app. cbn [bits_value]. destruct b; simpl Z.b2z; [|lia].
  unfold Z.setbit. rewrite Z.shiftl_1_l, Z.mul_add_distr_l, Z.mul_1_r.
  replace (2 ^ Z.of_nat (length bits) * (2 * 0)) with 0 by lia. rewrite Z.add_0_r.
  rewrite <-Z.lxor_lor; [apply Z.add_nocarry_lxor|]; apply Z.bits_inj'; intros n Hn;
    rewrite Z.land_spec, Z.bits_0, Z.pow2_bits_eqb by lia;
    (destruct (Z.eqb_spec (Z.of_nat (length bits)) n) as [<-|]; [|apply andb_false_r]);
    by rewrite bits_value_testbit, lookup_ge_None_2 by lia.
Qed.

Lemma pack_bits_length bits : length (pack_bits bits) = byte_len (length bits).
Proof. apply le_bytes_length. Qed.

Lemma pack_bits_are_bytes bits : Forall is_byte (pack_bits bits).
Proof. apply le_bytes_are_bytes. Qed.

(** Bits past the end are clear. *)
Lemma bit_set_bits n bits i :
  (length bits <= 8 * n)%nat -> bit_set (le_bytes n (bits_value bits)) i = default false (bits !! i).
Proof.
  intros Hn. pose proof (bits_value_range bits). rewrite bit_set_le, bits_value_testbit by lia.
  destruct (Nat.ltb_spec (i / 8) n) as [Hlt|Hge]; [done|].
  rewrite lookup_ge_None_2; [done|]. pose proof (Nat.div_mod_eq i 8). lia.
Qed.

Lemma bit_set_pack bits i : bit_set (pack_bits bits) i = default false (bits !! i).
Proof. apply bit_set_bits. apply byte_len_spec. Qed.

Lemma packed_bit_pack bits i : (i < length bits)%nat -> packed_bit (pack_bits bits) i = Z.b2z <$> bits !! i.
Proof.
  intros Hi. pose proof (bits_value_range bits). unfold pack_bits.
  rewrite packed_bit_le, bits_value_testbit by lia.
  rewrite (proj2 (Nat.ltb_lt _ _)) by by apply div8_byte_len.
  destruct (lookup_lt_is_Some_2 bits i Hi) as [b ->]. done.
Qed.

(** Growing with zero bytes keeps the value. *)
Lemma le_bytes_grow n k x : 0 <= x < width n -> le_bytes n x ++ replicate k 0 = le_bytes (n + k) x.
Proof. intros Hx. rewrite <-le_bytes_zeros, le_bytes_app by done. f_equal. lia. Qed.

Lemma or_bit_bits n bits b :
  (length bits < 8 * n)%nat ->
  (if b : bool then or_bit (le_bytes n (bits_value bits)) (length bits) else Some (le_bytes n (bits_value bits))) =
    Some (le_bytes n (bits_value (bits ++ [b]))).
Proof.
  intros Hn. rewrite bits_value_snoc. destruct b; [|done]. apply or_bit_le.
  - apply Nat.Div0.div_lt_upper_bound. lia.
  - apply bits_value_unsigned. lia.
Qed.

(** ** Windows *)

Lemma le_bytes_value_app a b : le_bytes_value (a ++ b) = le_bytes_value a + width (length a) * le_bytes_value b.
Proof.
  induction a as [|x a IH]; cbn [le_bytes_value app length]; [change (width 0) with 1; lia|].
  rewrite IH. unfold width. rewrite Nat2Z.inj_succ, Z.pow_succ_r by lia. lia.
Qed.

(** The value of [k] bytes from byte [j]: those bits of the value. *)
Lemma le_bytes_value_window bytes j k :
  Forall is_byte bytes -> (j + k <= length bytes)%nat ->
  le_bytes_value (take k (drop j bytes)) = Z.shiftr (le_bytes_value bytes) (8 * Z.of_nat j) mod width k.
Proof.
  intros Hb Hlen. rewrite Z.shiftr_div_pow2, <-width_bits by lia.
  rewrite <-(take_drop j bytes) at 2. rewrite le_bytes_value_app, length_take, Nat.min_l by lia.
  pose proof (le_bytes_value_range (take j bytes) ltac:(by apply Forall_take)) as Hj.
  unfold unsigned in Hj. rewrite length_take, Nat.min_l in Hj by lia. pose proof (width_pos j).
  rewrite Z.mul_comm, Z.div_add, Z.div_small, Z.add_0_l by lia.
  rewrite <-(take_drop k (drop j bytes)) at 2.
  pose proof (le_bytes_value_range (take k (drop j bytes)) ltac:(by apply Forall_take, Forall_drop)) as Hk.
  unfold unsigned in Hk. rewrite le_bytes_value_app. rewrite length_take, length_drop, Nat.min_l in * by lia.
  by rewrite Z.mul_comm, Z_mod_plus_full, Z.mod_small.
Qed.

Lemma bits_value_clear bits i b :
  bits !! i = Some b -> Z.clearbit (bits_value bits) (Z.of_nat i) = bits_value (<[i := false]> bits).
Proof.
  intros Hb. apply Z.bits_inj'. intros n Hn. rewrite <-(Z2Nat.id n) by done. rewrite Z.clearbit_eqb by lia.
  rewrite !bits_value_testbit. destruct (Z.eqb_spec (Z.of_nat i) (Z.of_nat (Z.to_nat n))) as [He|Hne].
  - apply Nat2Z.inj in He as <-. apply lookup_lt_Some in Hb. rewrite list_lookup_insert_eq by done. apply andb_false_r.
  - rewrite list_lookup_insert_ne by lia. apply andb_true_r.
Qed.

(** ** Fields *)

(** The [w] bits from bit [pos] on. *)
Definition field (x : Z) (w pos : nat) : Z := Z.shiftr x (Z.of_nat pos) mod 2 ^ Z.of_nat w.

Lemma field_range x w pos : 0 <= field x w pos < 2 ^ Z.of_nat w.
Proof. apply Z.mod_pos_bound. apply Z.pow_pos_nonneg; lia. Qed.

Lemma field_testbit x w pos n :
  0 <= n -> Z.testbit (field x w pos) n = (n <? Z.of_nat w) && Z.testbit x (n + Z.of_nat pos).
Proof.
  intros Hn. unfold field. rewrite <-Z.land_ones, Z.land_spec, Z.shiftr_spec by lia.
  rewrite Z.testbit_ones_nonneg by lia. apply andb_comm.
Qed.

Lemma field_ext x w pos v :
  (forall n, 0 <= n -> Z.testbit v n = (n <? Z.of_nat w) && Z.testbit x (n + Z.of_nat pos)) -> v = field x w pos.
Proof. intros Hv. apply Z.bits_inj'. intros n Hn. by rewrite Hv, field_testbit. Qed.

Lemma land_mask v w n : 0 <= n -> Z.testbit (Z.land v (2 ^ Z.of_nat w - 1)) n = (n <? Z.of_nat w) && Z.testbit v n.
Proof.
  intros Hn. replace (2 ^ Z.of_nat w - 1) with (Z.ones (Z.of_nat w)) by (rewrite Z.ones_equiv; lia).
  rewrite Z.land_spec, Z.testbit_ones_nonneg by lia. apply andb_comm.
Qed.

Lemma bit_set_window bytes j k i :
  bit_set (take k (drop j bytes)) i = (i <? 8 * k)%nat && bit_set bytes (8 * j + i).
Proof.
  unfold bit_set, packed_bit. replace ((8 * j + i) / 8)%nat with (j + i / 8)%nat
    by (rewrite (Nat.mul_comm 8 j), Nat.div_add_l; lia).
  replace ((8 * j + i) mod 8)%nat with (i mod 8)%nat
    by (rewrite Nat.add_comm, (Nat.mul_comm 8 j); symmetry; apply Nat.Div0.mod_add).
  pose proof (Nat.div_mod_eq i 8). pose proof (Nat.mod_upper_bound i 8 ltac:(done)).
  destruct (Nat.ltb_spec i (8 * k)) as [Hlt|Hge].
  - rewrite lookup_take_lt, lookup_drop by lia. done.
  - rewrite lookup_take_ge by lia. done.
Qed.

Lemma bit_set_above bytes i : (8 * length bytes <= i)%nat -> bit_set bytes i = false.
Proof.
  intros Hi. unfold bit_set, packed_bit. rewrite lookup_ge_None_2; [done|].
  apply Nat.div_le_lower_bound; lia.
Qed.

(** A field read from the bytes that cover it, or from all the bytes that are left. *)
Lemma field_window bytes w pos j k v :
  Forall is_byte bytes -> (8 * j <= pos)%nat -> (pos + w <= 8 * (j + k) \/ length bytes <= j + k)%nat ->
  v = Z.land (Z.shiftr (le_bytes_value (take k (drop j bytes))) (Z.of_nat (pos - 8 * j))) (2 ^ Z.of_nat w - 1) ->
  v = field (le_bytes_value bytes) w pos.
Proof.
  intros Hb Hj Hk ->. apply field_ext. intros n Hn. rewrite land_mask, Z.shiftr_spec by done.
  destruct (Z.ltb_spec n (Z.of_nat w)) as [Hlt|]; [|done]. rewrite !andb_true_l.
  rewrite <-(Z2Nat.id n) by done. rewrite <-!Nat2Z.inj_add.
  rewrite !le_bytes_value_testbit by (done || by apply Forall_take, Forall_drop).
  rewrite bit_set_window. replace (8 * j + (Z.to_nat n + (pos - 8 * j)))%nat with (Z.to_nat n + pos)%nat by lia.
  destruct (Nat.ltb_spec (Z.to_nat n + (pos - 8 * j)) (8 * k)) as [|Hge]; [done|]. simpl. symmetry.
  apply bit_set_above. destruct Hk; lia.
Qed.

(** The next bit of a field. *)
Lemma field_S x w pos : 0 <= x ->
  field x (S w) pos = if Z.testbit x (Z.of_nat (pos + w)) then Z.lor (field x w pos) (2 ^ Z.of_nat w) else field x w pos.
Proof.
  intros Hx. symmetry. apply field_ext. intros n Hn.
  assert (Hb : Z.testbit (if Z.testbit x (Z.of_nat (pos + w)) then Z.lor (field x w pos) (2 ^ Z.of_nat w) else field x w pos) n =
    Z.testbit (field x w pos) n || (Z.testbit x (Z.of_nat (pos + w)) && (Z.of_nat w =? n))).
  { destruct (Z.testbit x (Z.of_nat (pos + w))); [by rewrite Z.lor_spec, Z.pow2_bits_eqb by lia|by rewrite orb_false_r]. }
  rewrite Hb, field_testbit by done. destruct (Z.eqb_spec (Z.of_nat w) n) as [<-|Hne].
  - rewrite Z.ltb_irrefl, (proj2 (Z.ltb_lt _ _)), andb_true_r by lia. simpl. f_equal. lia.
  - rewrite andb_false_r, orb_false_r. f_equal.
    destruct (Z.ltb_spec n (Z.of_nat w)), (Z.ltb_spec n (Z.of_nat (S w))); lia || done.
Qed.

(** A field of a list of bits. *)
Lemma field_bits a b c : field (bits_value (a ++ b ++ c)) (length b) (length a) = bits_value b.
Proof.
  symmetry. apply field_ext. intros n Hn. rewrite <-(Z2Nat.id n) by done. rewrite <-Nat2Z.inj_add, !bits_value_testbit.
  destruct (Z.ltb_spec (Z.of_nat (Z.to_nat n)) (Z.of_nat (length b))) as [Hlt|Hge]; simpl.
  - rewrite lookup_app_r, lookup_app_l by lia. do 2 f_equal. lia.
  - by rewrite lookup_ge_None_2 by lia.
Qed.
