(* ===== verification/Float.v ===== *)
(** * IEEE 754 numbers as bit patterns

    [f32] and [f64] values are their bits ([to_bits]); the comparison, the widening
    conversion and the conversion from integers that the data model uses are
    written out on them.  [partial_cmp] of the language compares signed
    magnitudes, treats the two zeros as equal and NaN as incomparable; [as f64]
    rounds to nearest, ties to even. *)
From S2P Require Import Prelude.
Local Open Scope Z_scope.

Definition F64_SIGN : Z := 9223372036854775808.        (* 2^63 *)
Definition F64_INF : Z := 9218868437227405312.         (* 0x7FF0_0000_0000_0000 *)

(** The bits without the sign. *)
Definition f64_magnitude (b : Z) : Z := b mod F64_SIGN.

Definition f64_negative (b : Z) : bool := F64_SIGN <=? b.

Definition f64_is_nan (b : Z) : bool := F64_INF <? f64_magnitude b.

(** The position of a number on the ordered line of bit patterns. *)
Definition f64_key (b : Z) : Z :=
  if f64_negative b then - f64_magnitude b else f64_magnitude b.

(** [f64::partial_cmp] *)
Definition f64_partial_cmp (a b : Z) : option comparison :=
  if f64_is_nan a || f64_is_nan b then None else Some (f64_key a ?= f64_key b).

(** [==] on [f64] *)
Definition f64_eq (a b : Z) : bool :=
  match f64_partial_cmp a b with Some Eq => true | _ => false end.

(** The significand of a positive integer with leading bit [e], rounded to 53 bits. *)
Definition f64_significand (m e : Z) : Z :=
  if e <=? 52 then m * 2 ^ (52 - e)
  else
    let unit := 2 ^ (e - 52) in
    let q := m / unit in
    let r := m mod unit in
    if (unit <? 2 * r) || ((unit =? 2 * r) && Z.odd q) then q + 1 else q.

(** A carry out of the significand moves into the exponent field. *)
Definition f64_of_pos (m : Z) : Z :=
  let e := Z.log2 m in (e + 1022) * 2 ^ 52 + f64_significand m e.

(** [n as f64] for an integer of at most 64 bits. *)
Definition f64_of_Z (n : Z) : Z :=
  if n =? 0 then 0 else if n <? 0 then F64_SIGN + f64_of_pos (- n) else f64_of_pos n.

(** [x as f64] for [x : f32]: exponent rebased, subnormals normalised, NaN
    payloads shifted and quieted. *)
Definition f64_of_f32 (b : Z) : Z :=
  let sign := (b / 2 ^ 31) * F64_SIGN in
  let e := (b / 2 ^ 23) mod 2 ^ 8 in
  let m := b mod 2 ^ 23 in
  if e =? 255 then
    sign + F64_INF + (if m =? 0 then 0 else Z.lor (m * 2 ^ 29) (2 ^ 51))
  else if e =? 0 then
    if m =? 0 then sign
    else let l := Z.log2 m in
      (* m * 2^-149, leading bit l *)
      sign + (l + 874) * 2 ^ 52 + (m * 2 ^ (52 - l) - 2 ^ 52)
  else sign + (e + 896) * 2 ^ 52 + m * 2 ^ 29.

(** A positive ratio [p / q] rounded to the nearest number of [mant] fraction bits whose
    smallest unit is [2^emin], ties to even; an overflow is the infinity [inf]. *)
Definition round_ratio (mant emin inf p q : Z) : Z :=
  let k := Z.log2 p - Z.log2 q in
  let e := if q * 2 ^ Z.max k 0 <=? p * 2 ^ Z.max (- k) 0 then k else k - 1 in
  let u := Z.max emin (e - mant) in
  let num := p * 2 ^ Z.max (- u) 0 in
  let den := q * 2 ^ Z.max u 0 in
  let sig := num / den in
  let r := num mod den in
  let sig := if (den <? 2 * r) || ((den =? 2 * r) && Z.odd sig) then sig + 1 else sig in
  Z.min inf ((u - emin) * 2 ^ mant + sig).

Definition f64_of_ratio : Z -> Z -> Z := round_ratio 52 (-1074) F64_INF.

Definition F32_SIGN : Z := 2147483648.
Definition F32_INF : Z := 2139095040.                  (* 0x7F80_0000 *)

Definition f32_of_ratio : Z -> Z -> Z := round_ratio 23 (-149) F32_INF.

(** [-x] flips the sign. *)
Definition f64_neg (b : Z) : Z := if f64_negative b then b - F64_SIGN else b + F64_SIGN.
Definition f32_neg (b : Z) : Z := if F32_SIGN <=? b then b - F32_SIGN else b + F32_SIGN.

(** [n as f32] for an integer. *)
Definition f32_of_Z (n : Z) : Z :=
  if n =? 0 then 0 else if n <? 0 then F32_SIGN + f32_of_ratio (- n) 1 else f32_of_ratio n 1.

(** [x as f32] for [x : f64] that is not NaN: infinities and zeros keep their sign. *)
Definition f32_of_f64 (b : Z) : Z :=
  let sign := if f64_negative b then F32_SIGN else 0 in
  let m := f64_magnitude b in
  if m =? 0 then sign
  else if F64_INF <=? m then sign + F32_INF
  else
    let exponent := m / 2 ^ 52 in
    let fraction := m mod 2 ^ 52 in
    let e := Z.max exponent 1 - 1075 in
    let significand := if exponent =? 0 then fraction else fraction + 2 ^ 52 in
    sign + f32_of_ratio (significand * 2 ^ Z.max e 0) (2 ^ Z.max (- e) 0).

(** ** Comparison *)

Lemma f64_partial_cmp_refl a : f64_is_nan a = false -> f64_partial_cmp a a = Some Eq.
Proof. intros Ha. unfold f64_partial_cmp. rewrite Ha. simpl. by rewrite Z.compare_refl. Qed.

Lemma f64_partial_cmp_sym a b :
  f64_partial_cmp b a = CompOpp <$> f64_partial_cmp a b.
Proof.
  unfold f64_partial_cmp. rewrite orb_comm. destruct (_ || _); [done|]. simpl.
  by rewrite (Z.compare_antisym (f64_key a)).
Qed.

(** ** Integers as floats *)

Lemma pow52_split e : 0 <= e <= 52 -> 2 ^ 52 = 2 ^ e * 2 ^ (52 - e).
Proof. intros. rewrite <-Z.pow_add_r by lia. f_equal. lia. Qed.

Lemma significand_range m e :
  0 <= e -> 2 ^ e <= m < 2 ^ (e + 1) -> 2 ^ 52 <= f64_significand m e <= 2 ^ 53.
Proof.
  intros He Hm. rewrite Z.pow_add_r in Hm by lia. unfold f64_significand.
  change (2 ^ 53) with (2 ^ 52 * 2). destruct (e <=? 52) eqn:Hle; zb.
  - rewrite (pow52_split e) by lia. assert (0 < 2 ^ (52 - e)) by (apply Z.pow_pos_nonneg; lia). nia.
  - assert (Hu : 0 < 2 ^ (e - 52)) by (apply Z.pow_pos_nonneg; lia).
    assert (Hs : 2 ^ e = 2 ^ 52 * 2 ^ (e - 52)) by (rewrite <-Z.pow_add_r by lia; f_equal; lia).
    assert (Hlo : 2 ^ 52 <= m / 2 ^ (e - 52)) by (apply Z.div_le_lower_bound; lia).
    assert (Hhi : m / 2 ^ (e - 52) < 2 ^ 52 * 2) by (apply Z.div_lt_upper_bound; lia).
    destruct (_ || _); lia.
Qed.

Lemma significand_exact m e : 0 <= e <= 52 -> m < 2 ^ (e + 1) -> f64_significand m e < 2 ^ 53.
Proof.
  intros He Hm. rewrite Z.pow_add_r in Hm by lia. unfold f64_significand.
  rewrite (proj2 (Z.leb_le _ _)) by lia. change (2 ^ 53) with (2 ^ 52 * 2).
  rewrite (pow52_split e) by lia. assert (0 < 2 ^ (52 - e)) by (apply Z.pow_pos_nonneg; lia). nia.
Qed.

(** Rounding to nearest is monotone. *)
Lemma significand_mono m m' e : 0 <= m <= m' -> 0 <= e -> f64_significand m e <= f64_significand m' e.
Proof.
  intros Hm He. unfold f64_significand. destruct (e <=? 52) eqn:Hle; zb.
  - assert (0 < 2 ^ (52 - e)) by (apply Z.pow_pos_nonneg; lia). nia.
  - assert (Hu : 0 < 2 ^ (e - 52)) by (apply Z.pow_pos_nonneg; lia).
    set (u := 2 ^ (e - 52)) in *.
    pose proof (Z.div_mod m u ltac:(lia)) as H1. pose proof (Z.mod_pos_bound m u Hu) as H2.
    pose proof (Z.div_mod m' u ltac:(lia)) as H3. pose proof (Z.mod_pos_bound m' u Hu) as H4.
    assert (m / u <= m' / u) by (apply Z.div_le_mono; lia).
    destruct (Z.eq_dec (m / u) (m' / u)) as [Heq|Hne].
    + rewrite <-Heq in *. assert (m mod u <= m' mod u) by lia.
      destruct (u <? 2 * (m mod u)) eqn:E1, (u <? 2 * (m' mod u)) eqn:E2,
        (u =? 2 * (m mod u)) eqn:E3, (u =? 2 * (m' mod u)) eqn:E4, (Z.odd (m / u));
        simpl; zb; lia.
    + destruct (_ || _), (_ || _); lia.
Qed.

Lemma log2_bounds m : 0 < m -> 0 <= Z.log2 m /\ 2 ^ Z.log2 m <= m < 2 ^ (Z.log2 m + 1).
Proof. intros Hm. split; [apply Z.log2_nonneg|]. rewrite Z.add_1_r. by apply Z.log2_spec. Qed.

Lemma f64_of_pos_mono m m' : 0 < m <= m' -> f64_of_pos m <= f64_of_pos m'.
Proof.
  intros Hm. unfold f64_of_pos.
  destruct (log2_bounds m) as [H0 Hb]; [lia|]. destruct (log2_bounds m') as [H0' Hb']; [lia|].
  pose proof (Z.log2_le_mono m m' ltac:(lia)) as Hl.
  pose proof (significand_range m _ H0 Hb). pose proof (significand_range m' _ H0' Hb').
  destruct (Z.eq_dec (Z.log2 m) (Z.log2 m')) as [Heq|Hne].
  - rewrite <-Heq. pose proof (significand_mono m m' (Z.log2 m)). lia.
  - change (2 ^ 53) with (2 ^ 52 * 2) in *. nia.
Qed.

(** Up to 2^53 the conversion is injective. *)
Lemma f64_of_pos_strict m m' : 0 < m < m' -> m' <= 2 ^ 53 -> f64_of_pos m < f64_of_pos m'.
Proof.
  intros Hm Hmax. unfold f64_of_pos.
  destruct (log2_bounds m) as [H0 Hb]; [lia|]. destruct (log2_bounds m') as [H0' Hb']; [lia|].
  pose proof (Z.log2_le_mono m m' ltac:(lia)) as Hl.
  assert (Hl52 : Z.log2 m <= 52).
  { assert (Z.log2 m < 53); [|lia]. apply Z.log2_lt_pow2; lia. }
  pose proof (significand_range m' _ H0' Hb').
  pose proof (significand_exact m (Z.log2 m) ltac:(lia) ltac:(lia)) as Hex.
  destruct (Z.eq_dec (Z.log2 m) (Z.log2 m')) as [Heq|Hne].
  - rewrite <-Heq. unfold f64_significand. rewrite (proj2 (Z.leb_le _ _)) by lia.
    assert (0 < 2 ^ (52 - Z.log2 m)) by (apply Z.pow_pos_nonneg; lia). nia.
  - change (2 ^ 53) with (2 ^ 52 * 2) in *. nia.
Qed.

Lemma f64_of_pos_range m : 0 < m < 2 ^ 64 -> 0 < f64_of_pos m < F64_INF.
Proof.
  intros Hm. unfold f64_of_pos. destruct (log2_bounds m) as [H0 Hb]; [lia|].
  pose proof (significand_range m _ H0 Hb) as Hs.
  assert (Z.log2 m < 64) by (apply Z.log2_lt_pow2; lia).
  unfold F64_INF. change (2 ^ 53) with 9007199254740992 in Hs.
  change (2 ^ 52) with 4503599627370496 in *. lia.
Qed.

Lemma f64_of_Z_key n :
  - 2 ^ 64 < n < 2 ^ 64 ->
  f64_is_nan (f64_of_Z n) = false /\
  f64_key (f64_of_Z n) =
    if n =? 0 then 0 else if n <? 0 then - f64_of_pos (- n) else f64_of_pos n.
Proof.
  intros Hn. unfold f64_of_Z, f64_is_nan, f64_key, f64_negative, f64_magnitude.
  destruct (n =? 0) eqn:H0; [done|]. destruct (n <? 0) eqn:Hlt; zb.
  - pose proof (f64_of_pos_range (- n) ltac:(lia)) as Hr. unfold F64_INF, F64_SIGN in *.
    assert (Hmod : (9223372036854775808 + f64_of_pos (- n)) mod 9223372036854775808
              = f64_of_pos (- n)).
    { rewrite Z.add_comm, <-Zplus_mod_idemp_r, Z.mod_same, Z.add_0_r by lia.
      apply Z.mod_small. lia. }
    rewrite Hmod, (proj2 (Z.leb_le _ _)) by lia. split; [|done]. apply Z.ltb_ge. lia.
  - pose proof (f64_of_pos_range n ltac:(lia)) as Hr. unfold F64_INF, F64_SIGN in *.
    rewrite (Z.mod_small (f64_of_pos n)), (proj2 (Z.leb_gt _ _)) by lia.
    split; [|done]. apply Z.ltb_ge. lia.
Qed.

Lemma f64_of_Z_mono a b :
  - 2 ^ 64 < a -> a <= b -> b < 2 ^ 64 -> f64_key (f64_of_Z a) <= f64_key (f64_of_Z b).
Proof.
  intros Ha Hab Hb. rewrite (proj2 (f64_of_Z_key a ltac:(lia))), (proj2 (f64_of_Z_key b ltac:(lia))).
  destruct (a =? 0) eqn:Ea, (b =? 0) eqn:Eb, (a <? 0) eqn:La, (b <? 0) eqn:Lb; zb; try lia.
  - pose proof (f64_of_pos_range b ltac:(lia)). lia.
  - pose proof (f64_of_pos_range (- a) ltac:(lia)). lia.
  - pose proof (f64_of_pos_mono (- b) (- a) ltac:(lia)). lia.
  - pose proof (f64_of_pos_range (- a) ltac:(lia)). pose proof (f64_of_pos_range b ltac:(lia)). lia.
  - apply f64_of_pos_mono. lia.
Qed.

Lemma f64_of_Z_strict a b :
  - 2 ^ 53 <= a -> a < b -> b <= 2 ^ 53 -> f64_key (f64_of_Z a) < f64_key (f64_of_Z b).
Proof.
  intros Ha Hab Hb. rewrite (proj2 (f64_of_Z_key a ltac:(lia))), (proj2 (f64_of_Z_key b ltac:(lia))).
  destruct (a =? 0) eqn:Ea, (b =? 0) eqn:Eb, (a <? 0) eqn:La, (b <? 0) eqn:Lb; zb; try lia.
  - pose proof (f64_of_pos_range b ltac:(lia)). lia.
  - pose proof (f64_of_pos_range (- a) ltac:(lia)). lia.
  - pose proof (f64_of_pos_strict (- b) (- a) ltac:(lia) ltac:(lia)). lia.
  - pose proof (f64_of_pos_range (- a) ltac:(lia)). pose proof (f64_of_pos_range b ltac:(lia)). lia.
  - apply f64_of_pos_strict; lia.
Qed.

(** Comparing 53-bit integers as floats is exact. *)
Lemma f64_of_Z_cmp_exact a b :
  - 2 ^ 53 <= a <= 2 ^ 53 -> - 2 ^ 53 <= b <= 2 ^ 53 ->
  f64_partial_cmp (f64_of_Z a) (f64_of_Z b) = Some (a ?= b).
Proof.
  intros Ha Hb. unfold f64_partial_cmp.
  rewrite (proj1 (f64_of_Z_key a ltac:(lia))), (proj1 (f64_of_Z_key b ltac:(lia))). simpl. f_equal.
  destruct (Z.compare_spec a b) as [->|Hlt|Hgt].
  - apply Z.compare_refl.
  - apply Z.compare_lt_iff. apply f64_of_Z_strict; lia.
  - apply Z.compare_gt_iff. apply f64_of_Z_strict; lia.
Qed.

(** Beyond, it never inverts an order. *)
Lemma f64_of_Z_cmp_weak a b c :
  - 2 ^ 64 < a < 2 ^ 64 -> - 2 ^ 64 < b < 2 ^ 64 ->
  f64_partial_cmp (f64_of_Z a) (f64_of_Z b) = Some c -> c = Eq \/ c = (a ?= b).
Proof.
  intros Ha Hb. unfold f64_partial_cmp.
  rewrite (proj1 (f64_of_Z_key a ltac:(lia))), (proj1 (f64_of_Z_key b ltac:(lia))). simpl.
  intros [= <-]. destruct (Z.compare_spec a b) as [->|Hlt|Hgt].
  - left. apply Z.compare_refl.
  - pose proof (f64_of_Z_mono a b ltac:(lia) ltac:(lia) ltac:(lia)) as Hm.
    apply Z.lt_eq_cases in Hm as [Hm| ->]; [right; by apply Z.compare_lt_iff|left; apply Z.compare_refl].
  - pose proof (f64_of_Z_mono b a ltac:(lia) ltac:(lia) ltac:(lia)) as Hm.
    apply Z.lt_eq_cases in Hm as [Hm|Hm]; [right; by apply Z.compare_gt_iff|left].
    rewrite Hm. apply Z.compare_refl.
Qed.

(** ** Floats as rationals

    A finite float is [f64_num / f64_den]; [fract], truncation and the exact comparison with
    an integer are stated on that ratio. *)

Definition f64_is_finite (b : Z) : bool := f64_magnitude b <? F64_INF.

Definition f64_sig (b : Z) : Z :=
  let m := f64_magnitude b in
  if m / 2 ^ 52 =? 0 then m mod 2 ^ 52 else m mod 2 ^ 52 + 2 ^ 52.

(** The weight of the last bit of the significand is [2^scale]. *)
Definition f64_scale (b : Z) : Z := Z.max (f64_magnitude b / 2 ^ 52) 1 - 1075.

Definition f64_num (b : Z) : Z :=
  (if f64_negative b then -1 else 1) * (f64_sig b * 2 ^ Z.max (f64_scale b) 0).

Definition f64_den (b : Z) : Z := 2 ^ Z.max (- f64_scale b) 0.

(** [x.fract() == 0.0] for a finite [x] *)
Definition f64_integral (b : Z) : bool := f64_num b mod f64_den b =? 0.

(** [x as i64]: truncation, saturating; NaN is 0. *)
Definition f64_to_i64 (b : Z) : Z :=
  if f64_is_nan b then 0
  else if f64_is_finite b then
    Z.max (- F64_SIGN) (Z.min (F64_SIGN - 1) (Z.quot (f64_num b) (f64_den b)))
  else if f64_negative b then - F64_SIGN else F64_SIGN - 1.

(** [x.ceil() as i64] and [x.floor() as i64]. *)
Definition f64_rounded_i64 (round : Z -> Z -> Z) (b : Z) : Z :=
  if f64_is_nan b then 0
  else if f64_is_finite b then
    Z.max (- F64_SIGN) (Z.min (F64_SIGN - 1) (round (f64_num b) (f64_den b)))
  else if f64_negative b then - F64_SIGN else F64_SIGN - 1.

Definition f64_ceil_i64 : Z -> Z := f64_rounded_i64 (fun n d => - (- n / d)).
Definition f64_floor_i64 : Z -> Z := f64_rounded_i64 Z.div.

(** [x.abs()] *)
Definition f64_abs (b : Z) : Z := f64_magnitude b.

Definition f64_lt (a b : Z) : bool := match f64_partial_cmp a b with Some Lt => true | _ => false end.
Definition f64_le (a b : Z) : bool :=
  match f64_partial_cmp a b with Some Lt | Some Eq => true | _ => false end.

(** The order of an integer and a float as numbers. *)
Definition Z_cmp_f64 (x b : Z) : option comparison :=
  if f64_is_nan b then None
  else if f64_is_finite b then Some (x * f64_den b ?= f64_num b)
  else Some (if f64_negative b then Gt else Lt).

(** *** The ratio of a finite float *)

Lemma f64_den_pos b : 0 < f64_den b.
Proof. unfold f64_den. apply Z.pow_pos_nonneg; lia. Qed.

(** The magnitude as exponent field and fraction. *)
Lemma f64_fields b :
  let e := f64_magnitude b / 2 ^ 52 in let f := f64_magnitude b mod 2 ^ 52 in
  f64_magnitude b = e * 2 ^ 52 + f /\ 0 <= f < 2 ^ 52 /\ 0 <= e < 2048.
Proof.
  simpl. assert (Hm : 0 <= f64_magnitude b < F64_SIGN) by (apply Z.mod_pos_bound; done).
  unfold F64_SIGN in Hm. pose proof (Z.div_mod (f64_magnitude b) (2 ^ 52) ltac:(lia)).
  pose proof (Z.mod_pos_bound (f64_magnitude b) (2 ^ 52) ltac:(lia)).
  change (2 ^ 52) with 4503599627370496 in *. lia.
Qed.

Lemma f64_sig_range b : 0 <= f64_sig b < 2 ^ 53.
Proof.
  unfold f64_sig. destruct (f64_fields b) as (_ & Hf & _).
  change (2 ^ 53) with (2 ^ 52 * 2). case_match; lia.
Qed.

Lemma f64_finite_exponent b : f64_is_finite b = true -> f64_magnitude b / 2 ^ 52 < 2047.
Proof.
  unfold f64_is_finite, F64_INF. intros H. zb. destruct (f64_fields b) as (? & ? & ?).
  change (2 ^ 52) with 4503599627370496 in *. lia.
Qed.

Lemma f64_finite_not_nan b : f64_is_finite b = true -> f64_is_nan b = false.
Proof. unfold f64_is_finite, f64_is_nan. intros H. zb. apply Z.ltb_ge. lia. Qed.

(** The sign flips the numerator only. *)
Definition f64_sign (b : Z) : Z := if f64_negative b then -1 else 1.

Lemma f64_num_sign b : f64_num b = f64_sign b * f64_num (f64_abs b).
Proof.
  unfold f64_num, f64_sign, f64_abs. assert (Hm : f64_magnitude (f64_magnitude b) = f64_magnitude b).
  { unfold f64_magnitude. by rewrite Z.mod_mod by done. }
  assert (Hn : f64_negative (f64_magnitude b) = false).
  { apply Z.leb_gt. unfold f64_magnitude. by apply Z.mod_pos_bound. }
  rewrite Hn. unfold f64_sig, f64_scale. rewrite Hm. case_match; lia.
Qed.

Lemma f64_abs_den b : f64_den (f64_abs b) = f64_den b.
Proof. unfold f64_den, f64_scale, f64_abs, f64_magnitude. by rewrite Z.mod_mod by done. Qed.

Lemma f64_key_sign b : f64_key b = f64_sign b * f64_magnitude b.
Proof. unfold f64_key, f64_sign. case_match; lia. Qed.

(** *** Comparing an integer with a float *)

(** The position of a non-negative integer on the line of bit patterns. *)
Definition int_key (n : Z) : Z := if n =? 0 then 0 else f64_of_pos n.

Lemma int_key_mono a b : 0 <= a <= b -> b < 2 ^ 64 -> int_key a <= int_key b.
Proof.
  intros Ha Hb. unfold int_key. destruct (a =? 0) eqn:Ea, (b =? 0) eqn:Eb; zb; try lia.
  - pose proof (f64_of_pos_range b). lia.
  - apply f64_of_pos_mono. lia.
Qed.

Lemma int_key_strict a b : 0 <= a < b -> b <= 2 ^ 53 -> int_key a < int_key b.
Proof.
  intros Ha Hb. unfold int_key. destruct (a =? 0) eqn:Ea, (b =? 0) eqn:Eb; zb; try lia.
  - pose proof (f64_of_pos_range b). lia.
  - apply f64_of_pos_strict; lia.
Qed.

(** An integer whose leading bit is [e <= 52], as a float. *)
Lemma f64_of_pos_small n e : 0 <= e <= 52 -> 2 ^ e <= n < 2 ^ (e + 1) ->
  f64_of_pos n = (e + 1022) * 2 ^ 52 + n * 2 ^ (52 - e).
Proof.
  intros He Hn. assert (Hl : Z.log2 n = e) by (apply Z.log2_unique; [lia|]; by rewrite <-Z.add_1_r).
  unfold f64_of_pos, f64_significand. rewrite Hl, (proj2 (Z.leb_le _ _)) by lia. done.
Qed.

(** A float of magnitude below 2^53 lies between its floor and the next integer. *)
Lemma int_key_floor b :
  f64_scale b <= 0 ->
  let n := f64_sig b / f64_den b in
  int_key n <= f64_magnitude b /\ (int_key n = f64_magnitude b <-> f64_sig b mod f64_den b = 0) /\
  f64_magnitude b < int_key (n + 1) /\ 0 <= n < 2 ^ 53.
Proof.
  intros Hs n. pose proof (f64_den_pos b) as Hd. pose proof (f64_sig_range b) as Hsig.
  pose proof (Z.div_mod (f64_sig b) (f64_den b) ltac:(lia)) as Hdm. fold n in Hdm.
  pose proof (Z.mod_pos_bound (f64_sig b) (f64_den b) Hd) as Hr.
  assert (Hn : 0 <= n < 2 ^ 53) by nia.
  destruct (f64_fields b) as (Hm & Hf & He).
  assert (Hden : f64_den b = 2 ^ (1075 - Z.max (f64_magnitude b / 2 ^ 52) 1))
    by (unfold f64_den; f_equal; unfold f64_scale in *; lia).
  unfold f64_scale in Hs. unfold f64_sig in *.
  set (E := f64_magnitude b / 2 ^ 52) in *. set (f := f64_magnitude b mod 2 ^ 52) in *.
  assert (Hbig : 52 < 1075 - Z.max E 1 -> 2 ^ 53 <= f64_den b)
    by (intros; rewrite Hden; apply Z.pow_le_mono_r; lia).
  change (2 ^ 53) with (2 * 2 ^ 52) in *. set (P := 2 ^ 52) in *. assert (HP : P = 4503599627370496) by done.
  destruct (Z.eq_dec n 0) as [H0|H0].
  - rewrite H0 in *. change (int_key 0) with 0. change (int_key (0 + 1)) with (1023 * P).
    destruct (Z.eqb_spec E 0) as [HE|HE]; [split_and!; lia|].
    assert (~ (1075 - Z.max E 1 <= 52)); [|split_and!; lia].
    intros Hle. assert (f64_den b <= P) by (rewrite Hden; unfold P; apply Z.pow_le_mono_r; lia). nia.
  - assert (Hk : 1075 - Z.max E 1 <= 52) by (destruct (Z.le_gt_cases (1075 - Z.max E 1) 52); [done|]; nia).
    destruct (Z.eqb_spec E 0) as [HE|HE]; [lia|]. rewrite Z.max_l in * by lia.
    set (e := E - 1023). assert (Hpe : 2 ^ e * f64_den b = P)
      by (rewrite Hden, <-Z.pow_add_r by lia; unfold P; f_equal; lia).
    assert (Hpe1 : 2 ^ (e + 1) = 2 * 2 ^ e) by (rewrite Z.add_1_r, Z.pow_succ_r; lia).
    assert (Hne : 2 ^ e <= n < 2 ^ (e + 1)) by nia.
    assert (He52 : 2 ^ (52 - e) = f64_den b) by (rewrite Hden; f_equal; lia).
    assert (Hkn : int_key n = (e + 1022) * P + n * f64_den b).
    { unfold int_key. rewrite (proj2 (Z.eqb_neq _ _)) by done. rewrite <-He52. apply f64_of_pos_small; lia. }
    rewrite Hkn. assert (Heq : e = E - 1023) by done. refine (conj _ (conj _ (conj _ Hn))); [nia|split; nia|].
    unfold int_key. rewrite (proj2 (Z.eqb_neq _ _)) by lia.
    destruct (Z.lt_ge_cases (n + 1) (2 ^ (e + 1))) as [Hlt|Hge].
    + rewrite (f64_of_pos_small (n + 1) e), He52 by lia. fold P. lia.
    + assert (Hn1 : n + 1 = 2 ^ (e + 1)) by lia. rewrite Hn1. unfold f64_of_pos, f64_significand.
      rewrite Z.log2_pow2 by lia. assert (Hsg : P <= (if e + 1 <=? 52 then 2 ^ (e + 1) * 2 ^ (52 - (e + 1)) else P)).
      { case_match; zb; [|lia]. rewrite <-Z.pow_add_r by lia. unfold P. apply Z.pow_le_mono_r; lia. }
      destruct (e + 1 <=? 52) eqn:Hle; zb; [fold P; lia|].
      assert (He5 : e = 52) by lia. rewrite He5. match goal with |- context [if ?c then _ else _] =>
        replace c with false by reflexivity end. change (2 ^ (52 + 1) / 2 ^ (52 + 1 - 52)) with P. fold P. lia.
Qed.

(** Where the scale is not positive, converting the integer first loses nothing. *)
Lemma int_key_cmp b x :
  f64_scale b <= 0 -> 0 <= x < 2 ^ 64 ->
  (int_key x ?= f64_magnitude b) = (x * f64_den b ?= f64_sig b).
Proof.
  intros Hs Hx. destruct (int_key_floor b Hs) as (Hle & Heq & Hlt & Hn).
  set (n := f64_sig b / f64_den b) in *. pose proof (f64_den_pos b) as Hd.
  pose proof (Z.div_mod (f64_sig b) (f64_den b) ltac:(lia)) as Hdm. fold n in Hdm.
  pose proof (Z.mod_pos_bound (f64_sig b) (f64_den b) Hd) as Hr.
  destruct (Z.lt_trichotomy x n) as [Hxn|[->|Hxn]].
  - pose proof (int_key_strict x n). transitivity Lt; [apply Z.compare_lt_iff|symmetry; apply Z.compare_lt_iff]; nia.
  - destruct (Z.eq_dec (f64_sig b mod f64_den b) 0) as [H0|H0].
    + transitivity Eq; [by apply Z.compare_eq_iff, Heq|symmetry; apply Z.compare_eq_iff; nia].
    + transitivity Lt; [apply Z.compare_lt_iff; lia|symmetry; apply Z.compare_lt_iff; nia].
  - pose proof (int_key_mono (n + 1) x).
    transitivity Gt; [apply Z.compare_gt_iff|symmetry; apply Z.compare_gt_iff]; nia.
Qed.

Lemma f64_sig_zero b : f64_sig b = 0 <-> f64_magnitude b = 0.
Proof.
  destruct (f64_fields b) as (Hm & Hf & He). unfold f64_sig. change (2 ^ 52) with 4503599627370496 in *.
  case_match; zb; lia.
Qed.

Lemma compare_neg (a b c d : Z) : (a ?= b) = (c ?= d) -> (- a ?= - b) = (- c ?= - d).
Proof.
  intros H. by rewrite !Z.compare_opp, (Z.compare_antisym a b), (Z.compare_antisym c d), H.
Qed.

(** Below 2^53, or away from the integers, [x as f64] compared with a float has the order of
    the numbers. *)
Lemma int_as_f64_cmp x b :
  - 2 ^ 64 < x < 2 ^ 64 -> f64_is_finite b = true -> f64_scale b <= 0 ->
  f64_partial_cmp (f64_of_Z x) b = Z_cmp_f64 x b.
Proof.
  intros Hx Hfin Hs. unfold f64_partial_cmp, Z_cmp_f64.
  destruct (f64_of_Z_key x Hx) as [-> Hk]. rewrite (f64_finite_not_nan b Hfin), Hfin. simpl. f_equal. rewrite Hk.
  unfold f64_key, f64_num. rewrite Z.max_r, Z.mul_1_r by done.
  pose proof (f64_sig_range b) as Hsig. pose proof (f64_sig_zero b) as Hz. pose proof (f64_den_pos b) as Hd.
  assert (Hm : 0 <= f64_magnitude b) by by apply Z.mod_pos_bound.
  assert (Hc : (if x =? 0 then 0 else if x <? 0 then - f64_of_pos (- x) else f64_of_pos x)
    = if x <? 0 then - int_key (- x) else int_key x).
  { unfold int_key. destruct (Z.eqb_spec x 0) as [->|H0]; [done|]. rewrite (proj2 (Z.eqb_neq (- x) 0)); [done|lia]. }
  rewrite Hc. clear Hc Hk. destruct (x <? 0) eqn:Hneg; zb.
  - assert (0 < int_key (- x)) by (unfold int_key; rewrite (proj2 (Z.eqb_neq (- x) 0)) by lia;
      apply f64_of_pos_range; lia).
    destruct (f64_negative b).
    + replace (x * f64_den b) with (- (- x * f64_den b)) by lia.
      replace (-1 * (f64_sig b * 2 ^ 0)) with (- f64_sig b) by lia.
      apply compare_neg, int_key_cmp; lia.
    + transitivity Lt; [apply Z.compare_lt_iff|symmetry; apply Z.compare_lt_iff]; nia.
  - assert (0 <= int_key x) by (pose proof (int_key_mono 0 x); change (int_key 0) with 0 in *; lia).
    destruct (f64_negative b); [|rewrite int_key_cmp by lia; f_equal; lia].
    destruct (Z.eq_dec (f64_magnitude b) 0) as [Hm0|Hm0].
    + rewrite Hm0. apply Hz in Hm0. rewrite Hm0. destruct (Z.eq_dec x 0) as [->|Hx0]; [done|].
      assert (0 < int_key x) by (unfold int_key; rewrite (proj2 (Z.eqb_neq x 0)) by lia;
        apply f64_of_pos_range; lia).
      transitivity Gt; [apply Z.compare_gt_iff|symmetry; apply Z.compare_gt_iff]; nia.
    + assert (f64_sig b <> 0) by tauto.
      transitivity Gt; [apply Z.compare_gt_iff|symmetry; apply Z.compare_gt_iff]; nia.
Qed.


(** An infinite bound is beyond every integer, NaN has no order. *)
Lemma int_as_f64_cmp_any x b :
  - 2 ^ 64 < x < 2 ^ 64 -> (f64_is_finite b = true -> f64_scale b <= 0) ->
  f64_partial_cmp (f64_of_Z x) b = Z_cmp_f64 x b.
Proof.
  intros Hx Hs. destruct (f64_is_finite b) eqn:Hfin; [by apply int_as_f64_cmp; [..|apply Hs]|].
  unfold f64_partial_cmp, Z_cmp_f64. destruct (f64_of_Z_key x Hx) as [-> Hk]. simpl. rewrite Hfin.
  destruct (f64_is_nan b); [done|]. f_equal. rewrite Hk. unfold f64_is_finite in Hfin. zb.
  unfold f64_key. pose proof (f64_of_pos_range x). pose proof (f64_of_pos_range (- x)). unfold F64_INF in *.
  destruct (x =? 0) eqn:E0, (x <? 0) eqn:El, (f64_negative b); zb;
    first [apply Z.compare_gt_iff; lia|apply Z.compare_lt_iff; lia].
Qed.

(** *** Integral floats *)

(** [-2^63 <= x < 2^63] in the order of floats, and [|x| < 2^53]. *)
Definition f64_in_i64 (b : Z) : bool := f64_le (f64_of_Z (- F64_SIGN)) b && f64_lt b (f64_of_Z F64_SIGN).
Definition f64_exact_int (b : Z) : bool := f64_lt (f64_abs b) (f64_of_Z (2 ^ 53)).

Lemma f64_exact_scale b : f64_is_finite b = true -> f64_exact_int b = true -> f64_scale b <= 0.
Proof.
  unfold f64_exact_int, f64_lt, f64_partial_cmp, f64_abs. intros Hfin H.
  destruct (_ || _); [done|]. destruct (_ ?= _) eqn:Hc; try done.
  assert (Hk : f64_key (f64_magnitude b) = f64_magnitude b).
  { assert (0 <= f64_magnitude b < F64_SIGN) by by apply Z.mod_pos_bound.
    unfold f64_key, f64_negative. rewrite (proj2 (Z.leb_gt _ _)) by lia.
    unfold f64_magnitude at 1. apply Z.mod_small. lia. }
  rewrite Hk in Hc. vm_compute (f64_key (f64_of_Z _)) in Hc.
  apply (proj1 (Z.compare_lt_iff _ _)) in Hc. destruct (f64_fields b) as (Hm & Hf & He).
  unfold f64_scale. change (2 ^ 52) with 4503599627370496 in *. lia.
Qed.

Lemma f64_fraction_scale b : f64_integral b = false -> f64_scale b <= 0.
Proof.
  unfold f64_integral. intros H. zb. destruct (Z.le_gt_cases (f64_scale b) 0); [done|]. exfalso. apply H.
  unfold f64_den. rewrite Z.max_r by lia. apply Z.mod_1_r.
Qed.

Lemma i64_bound_keys :
  f64_is_nan (f64_of_Z (- F64_SIGN)) = false /\ f64_is_nan (f64_of_Z F64_SIGN) = false /\
  f64_key (f64_of_Z (- F64_SIGN)) = - (1086 * 2 ^ 52) /\ f64_key (f64_of_Z F64_SIGN) = 1086 * 2 ^ 52.
Proof. vm_compute. done. Qed.

(** The range test of the source bounds the ratio. *)
Lemma f64_in_i64_range b :
  f64_is_finite b = true -> f64_in_i64 b = true ->
  - F64_SIGN * f64_den b <= f64_num b < F64_SIGN * f64_den b.
Proof.
  unfold f64_in_i64, f64_le, f64_lt, f64_partial_cmp. intros Hfin [Hlo Hhi]%andb_true_iff.
  destruct i64_bound_keys as (Kl1 & Kh1 & Kl2 & Kh2). rewrite (f64_finite_not_nan b Hfin) in *.
  assert (Hl : - (1086 * 2 ^ 52) <= f64_key b).
  { rewrite Kl1, Kl2 in Hlo. change (false || false) with false in Hlo. destruct (_ ?= f64_key b) eqn:Hc; try done;
      [apply (proj1 (Z.compare_eq_iff _ _)) in Hc|apply (proj1 (Z.compare_lt_iff _ _)) in Hc]; lia. }
  assert (Hh : f64_key b < 1086 * 2 ^ 52).
  { rewrite Kh1, Kh2 in Hhi. change (false || false) with false in Hhi. by destruct (f64_key b ?= _) eqn:Hc. }
  clear Hlo Hhi. unfold f64_key, f64_num in *. destruct (f64_fields b) as (Hm & Hf & He).
  pose proof (f64_den_pos b) as Hd. pose proof (f64_sig_range b) as Hsig.
  assert (Hp : f64_magnitude b < 1086 * 2 ^ 52 -> f64_sig b * 2 ^ Z.max (f64_scale b) 0 < F64_SIGN).
  { intros Hlt. assert (2 ^ Z.max (f64_scale b) 0 <= 2 ^ 10).
    { apply Z.pow_le_mono_r; [lia|]. unfold f64_scale. change (2 ^ 52) with 4503599627370496 in *. lia. }
    change (2 ^ 10) with 1024 in *. change (2 ^ 53) with 9007199254740992 in *. unfold F64_SIGN. nia. }
  assert (0 <= f64_sig b * 2 ^ Z.max (f64_scale b) 0) by (apply Z.mul_nonneg_nonneg; [lia|]; apply Z.pow_nonneg; lia).
  destruct (f64_negative b); [|unfold F64_SIGN in *; nia].
  destruct (Z.lt_ge_cases (f64_magnitude b) (1086 * 2 ^ 52)) as [Hlt|Hge]; [unfold F64_SIGN in *; nia|].
  assert (Hmag : f64_magnitude b = 1086 * 2 ^ 52) by lia. unfold f64_den, f64_scale, f64_sig in *.
  rewrite Hmag in *. vm_compute. split; [discriminate|done].
Qed.

(** [as i64] of an integral float in range is its value. *)
Lemma f64_to_i64_value b :
  f64_is_finite b = true -> f64_integral b = true -> f64_in_i64 b = true ->
  f64_num b = f64_den b * f64_to_i64 b /\ - F64_SIGN <= f64_to_i64 b < F64_SIGN.
Proof.
  intros Hfin Hint Hin. pose proof (f64_in_i64_range b Hfin Hin) as Hr. pose proof (f64_den_pos b) as Hd.
  unfold f64_integral in Hint. zb. apply Z.div_exact in Hint; [|lia].
  set (n := f64_num b / f64_den b) in *. unfold f64_to_i64. rewrite (f64_finite_not_nan b Hfin), Hfin.
  rewrite Hint, Z.mul_comm, Z.quot_mul by lia.
  assert (- F64_SIGN <= n < F64_SIGN) by nia. rewrite (Z.min_r _ n), (Z.max_r _ n) by lia. lia.
Qed.

Lemma Z_cmp_integral x b :
  f64_is_finite b = true -> f64_integral b = true -> f64_in_i64 b = true ->
  Z_cmp_f64 x b = Some (x ?= f64_to_i64 b).
Proof.
  intros Hfin Hint Hin. destruct (f64_to_i64_value b Hfin Hint Hin) as [Hn _].
  unfold Z_cmp_f64. rewrite (f64_finite_not_nan b Hfin), Hfin, Hn. f_equal.
  pose proof (f64_den_pos b). rewrite Z.mul_comm. symmetry. apply Zmult_compare_compat_l. lia.
Qed.

(** A float below 2^53 is in the range of [i64]. *)
Lemma f64_exact_in_i64 b : f64_is_finite b = true -> f64_exact_int b = true -> f64_in_i64 b = true.
Proof.
  intros Hfin Hex. pose proof (f64_exact_scale b Hfin Hex) as Hs.
  unfold f64_in_i64, f64_le, f64_lt, f64_partial_cmp. rewrite (f64_finite_not_nan b Hfin).
  destruct i64_bound_keys as (-> & -> & -> & ->). change (false || false) with false.
  assert (Hm : 0 <= f64_magnitude b < 1086 * 2 ^ 52).
  { split; [by apply Z.mod_pos_bound|]. destruct (f64_fields b) as (Hm & Hf & He).
    unfold f64_scale in Hs. change (2 ^ 52) with 4503599627370496 in *. lia. }
  assert (Hk : - f64_magnitude b <= f64_key b <= f64_magnitude b) by (unfold f64_key; case_match; lia).
  rewrite (proj2 (Z.compare_lt_iff _ _)); [|lia]. by rewrite (proj2 (Z.compare_lt_iff _ _)); [|lia].
Qed.


Example f64_one : f64_of_Z 1 = 4607182418800017408.      (* 0x3FF0... *)
Proof. reflexivity. Qed.
Example f64_minus_three : f64_of_Z (-3) = 13837309855095848960.
Proof. reflexivity. Qed.
Example f64_ties_to_even : f64_of_Z (2 ^ 53 + 1) = f64_of_Z (2 ^ 53).
Proof. reflexivity. Qed.
Example f32_half : f64_of_f32 1056964608 = 4602678819172646912.   (* 0.5 *)
Proof. reflexivity. Qed.
Example f32_smallest : f64_of_f32 1 = 3936146074321813504.   (* 2^-149 *)
Proof. reflexivity. Qed.

Example rounding_examples :
  f64_of_ratio 1 10 = 4591870180066957722 /\ f64_of_ratio 1 (2 ^ 1074) = 1 /\
  f64_of_ratio (10 ^ 400) 1 = F64_INF /\ f32_of_f64 4591870180066957722 = 1036831949 /\
  f32_of_Z 16777217 = f32_of_Z 16777216.
Proof. vm_compute. done. Qed.
