(* ===== verification/Values.v ===== *)
(** * The data model

    Models [data/types.rs] ([DataType]), [data/value.rs] ([Value]) and
    [data/row.rs] ([Row]).  Floats are bit patterns, strings are byte strings;
    [serde_json::Value] is an abstract type with the operations the code calls. *)
From S2P Require Import Prelude Float.
Local Open Scope Z_scope.

(** ** Data types *)

Inductive DataType :=
| DtNull | DtBool | DtInt8 | DtInt16 | DtInt32 | DtInt64
| DtUInt8 | DtUInt16 | DtUInt32 | DtUInt64 | DtFloat32 | DtFloat64
| DtString | DtBinary | DtJson | DtTimestamp | DtDate | DtArray
| DtDecimal | DtFloat16Vector | DtBlob | DtFloat32Vector | DtBFloat16Vector
| DtInt8Vector | DtUInt8Vector | DtBit1Vector
| DtTurboQuant2Vector | DtTurboQuant3Vector | DtTurboQuant4Vector
| DtUuid | DtDecimal128 | DtTime | DtInterval | DtTimestampTz.

#[global] Instance DataType_eq_dec : EqDecision DataType.
Proof. solve_decision. Defined.

(** [DataType as u8] *)
Definition DataType_code (t : DataType) : Z :=
  match t with
  | DtNull => 0 | DtBool => 1 | DtInt8 => 2 | DtInt16 => 3 | DtInt32 => 4 | DtInt64 => 5
  | DtUInt8 => 6 | DtUInt16 => 7 | DtUInt32 => 8 | DtUInt64 => 9 | DtFloat32 => 10
  | DtFloat64 => 11 | DtString => 12 | DtBinary => 13 | DtJson => 14 | DtTimestamp => 15
  | DtDate => 16 | DtArray => 17 | DtDecimal => 18 | DtFloat16Vector => 19 | DtBlob => 20
  | DtFloat32Vector => 21 | DtBFloat16Vector => 22 | DtInt8Vector => 23 | DtUInt8Vector => 24
  | DtBit1Vector => 25 | DtTurboQuant2Vector => 26 | DtTurboQuant3Vector => 27
  | DtTurboQuant4Vector => 28 | DtUuid => 29 | DtDecimal128 => 30 | DtTime => 31
  | DtInterval => 32 | DtTimestampTz => 33
  end.

Definition DataType_fixed_size (t : DataType) : option Z :=
  match t with
  | DtNull => Some 0
  | DtBool => Some 1
  | DtInt8 | DtUInt8 => Some 1
  | DtInt16 | DtUInt16 => Some 2
  | DtInt32 | DtUInt32 | DtFloat32 => Some 4
  | DtInt64 | DtUInt64 | DtFloat64 | DtTimestamp | DtTimestampTz | DtTime | DtInterval => Some 8
  | DtDate => Some 4
  | DtDecimal | DtUuid | DtDecimal128 => Some 16
  | DtString | DtBinary | DtJson | DtArray | DtBlob => None
  | DtFloat16Vector | DtFloat32Vector | DtBFloat16Vector | DtInt8Vector | DtUInt8Vector
  | DtBit1Vector | DtTurboQuant2Vector | DtTurboQuant3Vector | DtTurboQuant4Vector => None
  end.

Definition DataType_is_numeric (t : DataType) : bool :=
  match t with
  | DtInt8 | DtInt16 | DtInt32 | DtInt64 | DtUInt8 | DtUInt16 | DtUInt32 | DtUInt64
  | DtFloat32 | DtFloat64 | DtDecimal => true
  | _ => false
  end.

Definition DataType_is_variable_length (t : DataType) : bool :=
  match t with DtString | DtBinary | DtJson | DtArray | DtBlob => true | _ => false end.

Definition DataType_is_decimal (t : DataType) : bool :=
  match t with DtDecimal => true | _ => false end.

Definition DataType_is_time_family (t : DataType) : bool :=
  match t with DtTimestamp | DtTimestampTz | DtDate | DtTime | DtInterval => true | _ => false end.

(** *** SQL names *)

(** [str::to_uppercase] on ASCII text, the alphabet of SQL type names. *)
Definition ascii_upper (c : Ascii.ascii) : Ascii.ascii :=
  let n := Ascii.N_of_ascii c in
  if (97 <=? n)%N && (n <=? 122)%N then Ascii.ascii_of_N (n - 32)%N else c.

Fixpoint to_uppercase (s : string) : string :=
  match s with
  | EmptyString => EmptyString
  | String c s => String (ascii_upper c) (to_uppercase s)
  end.

Definition one_of (s : string) (names : list string) : bool := existsb (String.eqb s) names.

(** The arms of the [match] of [from_sql_type], in order. *)
Definition sql_type_names : list (list string * DataType) :=
  [ (["BOOLEAN"; "BOOL"], DtBool);
    (["TINYINT"; "INT1"], DtInt8);
    (["SMALLINT"; "INT2"], DtInt16);
    (["INTEGER"; "INT"; "INT4"], DtInt32);
    (["BIGINT"; "INT8"; "LONG"], DtInt64);
    (["UTINYINT"], DtUInt8);
    (["USMALLINT"], DtUInt16);
    (["UINTEGER"], DtUInt32);
    (["UBIGINT"], DtUInt64);
    (["FLOAT"; "REAL"; "FLOAT4"], DtFloat32);
    (["DOUBLE"; "FLOAT8"], DtFloat64);
    (["VARCHAR"; "TEXT"; "STRING"; "CHAR"], DtString);
    (["BLOB"; "LARGEBINARY"; "LARGE_BINARY"; "LONGBLOB"], DtBlob);
    (["BYTEA"; "BINARY"; "VARBINARY"; "BYTES"], DtBinary);
    (["JSON"], DtJson);
    (["DECIMAL"; "NUMERIC"], DtDecimal);
    (["TIMESTAMP"; "DATETIME"], DtTimestamp);
    (["TIMESTAMPTZ"; "TIMESTAMP WITH TIME ZONE"], DtTimestampTz);
    (["DATE"], DtDate);
    (["TIME"], DtTime);
    (["INTERVAL"], DtInterval);
    (["FLOAT32_VECTOR"; "F32_VECTOR"], DtFloat32Vector);
    (["FLOAT16_VECTOR"; "FLOAT16VECTOR"; "F16_VECTOR"], DtFloat16Vector);
    (["BFLOAT16_VECTOR"; "BF16_VECTOR"], DtBFloat16Vector);
    (["INT8_VECTOR"; "I8_VECTOR"], DtInt8Vector);
    (["UINT8_VECTOR"; "U8_VECTOR"], DtUInt8Vector);
    (["BIT1_VECTOR"; "BINARY1_VECTOR"], DtBit1Vector);
    (["TURBOQUANT2_VECTOR"; "TQ2_VECTOR"], DtTurboQuant2Vector);
    (["TURBOQUANT3_VECTOR"; "TQ3_VECTOR"], DtTurboQuant3Vector);
    (["TURBOQUANT4_VECTOR"; "TQ4_VECTOR"], DtTurboQuant4Vector) ]%string.

Definition DataType_from_sql_type (sql_type : string) : option DataType :=
  let sql_type := to_uppercase sql_type in
  snd <$> List.find (fun arm => one_of sql_type (fst arm)) sql_type_names.

Definition DataType_to_sql_type (t : DataType) : string :=
  match t with
  | DtNull => "NULL" | DtBool => "BOOLEAN" | DtInt8 => "TINYINT" | DtInt16 => "SMALLINT"
  | DtInt32 => "INTEGER" | DtInt64 => "BIGINT" | DtUInt8 => "UTINYINT" | DtUInt16 => "USMALLINT"
  | DtUInt32 => "UINTEGER" | DtUInt64 => "UBIGINT" | DtFloat32 => "FLOAT" | DtFloat64 => "DOUBLE"
  | DtString => "VARCHAR" | DtBinary => "BINARY" | DtBlob => "BLOB" | DtJson => "JSON"
  | DtTimestamp => "TIMESTAMP" | DtTimestampTz => "TIMESTAMPTZ" | DtDate => "DATE"
  | DtTime => "TIME" | DtInterval => "INTERVAL" | DtArray => "ARRAY" | DtDecimal => "DECIMAL"
  | DtUuid => "UUID" | DtDecimal128 => "DECIMAL128" | DtFloat16Vector => "FLOAT16_VECTOR"
  | DtFloat32Vector => "FLOAT32_VECTOR" | DtBFloat16Vector => "BFLOAT16_VECTOR"
  | DtInt8Vector => "INT8_VECTOR" | DtUInt8Vector => "UINT8_VECTOR" | DtBit1Vector => "BIT1_VECTOR"
  | DtTurboQuant2Vector => "TURBOQUANT2_VECTOR" | DtTurboQuant3Vector => "TURBOQUANT3_VECTOR"
  | DtTurboQuant4Vector => "TURBOQUANT4_VECTOR"
  end%string.

(** The types a SQL name reaches. *)
Definition has_sql_name (t : DataType) : bool :=
  match t with DtNull | DtArray | DtUuid | DtDecimal128 => false | _ => true end.

Lemma ascii_upper_idem c : ascii_upper (ascii_upper c) = ascii_upper c.
Proof. by destruct c as [[] [] [] [] [] [] [] []]. Qed.

Lemma to_uppercase_idem s : to_uppercase (to_uppercase s) = to_uppercase s.
Proof. induction s as [|c s IH]; [done|]. simpl. by rewrite ascii_upper_idem, IH. Qed.

(** SQL type names round-trip: printing a type and parsing the name back, in any
    mix of cases, gives the type, except for the four types that have no SQL name. *)
Theorem sql_type_roundtrip t s :
  to_uppercase s = DataType_to_sql_type t ->
  DataType_from_sql_type s = if has_sql_name t then Some t else None.
Proof.
  intros Hs. unfold DataType_from_sql_type. rewrite Hs. by destruct t.
Qed.

Lemma sql_type_roundtrip_witness : DataType_from_sql_type "Bigint" = Some DtInt64.
Proof. apply (sql_type_roundtrip DtInt64 "Bigint"). reflexivity. Defined.

(** ** Values *)

Inductive Value (J : Type) :=
| VNull
| VBool (b : bool)
| VInt8 (v : Z) | VInt16 (v : Z) | VInt32 (v : Z) | VInt64 (v : Z)
| VUInt8 (v : Z) | VUInt16 (v : Z) | VUInt32 (v : Z) | VUInt64 (v : Z)
| VFloat32 (bits : Z) | VFloat64 (bits : Z)
| VString (s : string)
| VBinary (b : list Z) | VBlob (b : list Z) | VFixedList (b : list Z)
| VJson (j : J)
| VTimestamp (t : Z) | VDate (d : Z)
| VArray (vs : list (Value J))
| VTime (t : Z) | VInterval (t : Z).
Arguments VNull {J}.
Arguments VBool {J}.
Arguments VInt8 {J}.
Arguments VInt16 {J}.
Arguments VInt32 {J}.
Arguments VInt64 {J}.
Arguments VUInt8 {J}.
Arguments VUInt16 {J}.
Arguments VUInt32 {J}.
Arguments VUInt64 {J}.
Arguments VFloat32 {J}.
Arguments VFloat64 {J}.
Arguments VString {J}.
Arguments VBinary {J}.
Arguments VBlob {J}.
Arguments VFixedList {J}.
Arguments VJson {J}.
Arguments VTimestamp {J}.
Arguments VDate {J}.
Arguments VArray {J}.
Arguments VTime {J}.
Arguments VInterval {J}.

Definition I64_MAX : Z := 9223372036854775807.

Section values.
Context {J : Type}.
Implicit Types (v : Value J).

Definition Value_data_type v : DataType :=
  match v with
  | VNull => DtNull
  | VBool _ => DtBool
  | VInt8 _ => DtInt8 | VInt16 _ => DtInt16 | VInt32 _ => DtInt32 | VInt64 _ => DtInt64
  | VUInt8 _ => DtUInt8 | VUInt16 _ => DtUInt16 | VUInt32 _ => DtUInt32 | VUInt64 _ => DtUInt64
  | VFloat32 _ => DtFloat32 | VFloat64 _ => DtFloat64
  | VString _ => DtString
  | VBinary _ => DtBinary | VBlob _ => DtBlob | VFixedList _ => DtBinary
  | VJson _ => DtJson
  | VTimestamp _ => DtTimestamp | VDate _ => DtDate
  | VArray _ => DtArray
  | VTime _ => DtTime | VInterval _ => DtInterval
  end.

Definition Value_is_null v : bool := match v with VNull => true | _ => false end.

Definition as_i64 v : option Z :=
  match v with
  | VInt8 x | VInt16 x | VInt32 x | VInt64 x => Some x
  | VUInt8 x | VUInt16 x | VUInt32 x => Some x
  | VUInt64 x => if x <=? I64_MAX then Some x else None
  | VTimestamp x | VDate x | VTime x | VInterval x => Some x
  | _ => None
  end.

Definition as_f64 v : option Z :=
  match v with
  | VFloat32 b => Some (f64_of_f32 b)
  | VFloat64 b => Some b
  | VInt8 x | VInt16 x | VInt32 x | VInt64 x => Some (f64_of_Z x)
  | VUInt8 x | VUInt16 x | VUInt32 x | VUInt64 x => Some (f64_of_Z x)
  | _ => None
  end.

Definition as_str v : option string := match v with VString s => Some s | _ => None end.

Definition as_bool v : option bool := match v with VBool b => Some b | _ => None end.

Definition bool_cmp (a b : bool) : comparison :=
  match a, b with
  | true, false => Gt | false, true => Lt | _, _ => Eq
  end.

(** The last arm of [partial_cmp]: numeric, then textual comparison. *)
Definition numeric_partial_cmp (a b : Value J) : option comparison :=
  match as_f64 a, as_f64 b with
  | Some fa, Some fb => f64_partial_cmp fa fb
  | _, _ =>
      match as_str a, as_str b with
      | Some sa, Some sb => Some (String.compare sa sb)
      | _, _ => None
      end
  end.

(** [impl PartialOrd for Value] *)
Definition Value_partial_cmp (a b : Value J) : option comparison :=
  match a, b with
  | VNull, VNull => Some Eq
  | VNull, _ => Some Lt
  | _, VNull => Some Gt
  | VBool x, VBool y => Some (bool_cmp x y)
  | VInt64 x, VInt64 y => Some (x ?= y)
  | VTimestamp x, VTimestamp y => Some (x ?= y)
  | VDate x, VDate y => Some (x ?= y)
  | VTime x, VTime y => Some (x ?= y)
  | VInterval x, VInterval y => Some (x ?= y)
  | VFloat64 x, VFloat64 y => f64_partial_cmp x y
  | VString x, VString y => Some (String.compare x y)
  | _, _ => numeric_partial_cmp a b
  end.

(** The derived [PartialEq]; [json_eq] is that of [serde_json::Value]. *)
Fixpoint Value_eq (json_eq : J -> J -> bool) (a b : Value J) : bool :=
  match a, b with
  | VNull, VNull => true
  | VBool x, VBool y => Bool.eqb x y
  | VInt8 x, VInt8 y | VInt16 x, VInt16 y | VInt32 x, VInt32 y | VInt64 x, VInt64 y
  | VUInt8 x, VUInt8 y | VUInt16 x, VUInt16 y | VUInt32 x, VUInt32 y | VUInt64 x, VUInt64 y
  | VTimestamp x, VTimestamp y | VDate x, VDate y | VTime x, VTime y
  | VInterval x, VInterval y => x =? y
  | VFloat32 x, VFloat32 y => f64_eq (f64_of_f32 x) (f64_of_f32 y)
  | VFloat64 x, VFloat64 y => f64_eq x y
  | VString x, VString y => String.eqb x y
  | VBinary x, VBinary y | VBlob x, VBlob y | VFixedList x, VFixedList y =>
      bool_decide (x = y)
  | VJson x, VJson y => json_eq x y
  | VArray xs, VArray ys =>
      (fix go (xs ys : list (Value J)) : bool :=
         match xs, ys with
         | [], [] => true
         | x :: xs, y :: ys => Value_eq json_eq x y && go xs ys
         | _, _ => false
         end) xs ys
  | _, _ => false
  end.

(** The range of the machine integer behind a variant. *)
Definition int_range (lo hi x : Z) : Prop := lo <= x <= hi.

Definition Value_wf v : Prop :=
  match v with
  | VInt8 x => int_range (- 2 ^ 7) (2 ^ 7 - 1) x
  | VInt16 x => int_range (- 2 ^ 15) (2 ^ 15 - 1) x
  | VInt32 x | VDate x => int_range (- 2 ^ 31) (2 ^ 31 - 1) x
  | VInt64 x | VTimestamp x | VTime x | VInterval x => int_range (- 2 ^ 63) (2 ^ 63 - 1) x
  | VUInt8 x => int_range 0 (2 ^ 8 - 1) x
  | VUInt16 x => int_range 0 (2 ^ 16 - 1) x
  | VUInt32 x => int_range 0 (2 ^ 32 - 1) x
  | VUInt64 x => int_range 0 (2 ^ 64 - 1) x
  | VFloat32 b => int_range 0 (2 ^ 32 - 1) b
  | VFloat64 b => int_range 0 (2 ^ 64 - 1) b
  | _ => True
  end.

(** The number an integer variant holds. *)
Definition Value_int v : option Z :=
  match v with
  | VInt8 x | VInt16 x | VInt32 x | VInt64 x | VUInt8 x | VUInt16 x | VUInt32 x | VUInt64 x =>
      Some x
  | _ => None
  end.

Lemma Value_int_range v x : Value_wf v -> Value_int v = Some x -> - 2 ^ 64 < x < 2 ^ 64.
Proof. destruct v; simpl; try done; unfold int_range; intros ? [= <-]; lia. Qed.

Lemma Value_int_as_f64 v x : Value_int v = Some x -> as_f64 v = Some (f64_of_Z x).
Proof. by destruct v; simpl; intros [= <-]. Qed.

(** Integers of the same variant [Int64] are compared exactly, others as floats. *)
Lemma Value_int_cmp a b x y :
  Value_int a = Some x -> Value_int b = Some y ->
  Value_partial_cmp a b = Some (x ?= y) \/
  Value_partial_cmp a b = f64_partial_cmp (f64_of_Z x) (f64_of_Z y).
Proof. destruct a; try discriminate; destruct b; try discriminate; intros [= <-] [= <-]; auto. Qed.

Lemma bool_cmp_antisym a b : bool_cmp b a = CompOpp (bool_cmp a b).
Proof. by destruct a, b. Qed.

Lemma as_f64_as_str v f : as_f64 v = Some f -> as_str v = None.
Proof. by destruct v. Qed.

Lemma numeric_partial_cmp_sym a b :
  numeric_partial_cmp b a = CompOpp <$> numeric_partial_cmp a b.
Proof.
  unfold numeric_partial_cmp. destruct (as_f64 a) as [fa|], (as_f64 b) as [fb|];
    [apply f64_partial_cmp_sym|destruct (as_str a), (as_str b)..]; try done;
    simpl; f_equal; apply String.compare_antisym.
Qed.

Lemma Value_partial_cmp_sym a b : Value_partial_cmp b a = CompOpp <$> Value_partial_cmp a b.
Proof.
  pose proof (numeric_partial_cmp_sym a b) as Hn.
  destruct a, b; first [exact Hn|exact eq_refl|idtac]; clear Hn; simpl;
    first [apply f64_partial_cmp_sym|f_equal; apply bool_cmp_antisym
          |f_equal; apply Z.compare_antisym|f_equal; apply String.compare_antisym].
Qed.
End values.

(** Integer values are ordered as numbers: comparing two integer values of any
    widths never inverts their order, is exact up to 2^53 in absolute value, and
    swapping the operands reverses the answer. *)
Theorem value_int_order {J} (a b : Value J) x y :
  Value_wf a -> Value_wf b -> Value_int a = Some x -> Value_int b = Some y ->
  exists c, Value_partial_cmp a b = Some c /\ (c = Eq \/ c = (x ?= y)) /\
    Value_partial_cmp b a = Some (CompOpp c) /\
    (- 2 ^ 53 <= x <= 2 ^ 53 -> - 2 ^ 53 <= y <= 2 ^ 53 -> c = (x ?= y)).
Proof.
  intros Ha Hb Hx Hy. pose proof (Value_int_range _ _ Ha Hx). pose proof (Value_int_range _ _ Hb Hy).
  rewrite (Value_partial_cmp_sym a b).
  destruct (Value_int_cmp _ _ _ _ Hx Hy) as [-> | ->].
  - exists (x ?= y). split_and!; auto.
  - destruct (f64_partial_cmp (f64_of_Z x) (f64_of_Z y)) as [c|] eqn:Hc.
    + exists c. split_and!; [done|by eapply f64_of_Z_cmp_weak|done|].
      intros ? ?. rewrite f64_of_Z_cmp_exact in Hc by done. congruence.
    + exfalso. unfold f64_partial_cmp in Hc.
      by rewrite (proj1 (f64_of_Z_key x ltac:(done))), (proj1 (f64_of_Z_key y ltac:(done))) in Hc.
Qed.

Lemma value_int_order_witness :
  Value_partial_cmp (VInt8 (-3)) (@VUInt64 unit 200) = Some Lt.
Proof.
  destruct (value_int_order (VInt8 (-3)) (@VUInt64 unit 200) (-3) 200) as (c & Hc & _ & _ & He).
  - simpl. unfold int_range. lia.
  - simpl. unfold int_range. lia.
  - reflexivity.
  - reflexivity.
  - rewrite Hc, He by lia. reflexivity.
Defined.

(** Beyond 2^53 the order of [UInt64] values disagrees with equality: values that
    are not equal compare as [Equal], because only [Int64] has an exact arm. *)
Theorem value_uint_order_collapses :
  let a := @VUInt64 unit (2 ^ 53) in let b := VUInt64 (2 ^ 53 + 1) in
  Value_wf a /\ Value_wf b /\ Value_partial_cmp a b = Some Eq /\
  Value_eq (fun _ _ => true) a b = false /\
  Value_partial_cmp (@VInt64 unit (2 ^ 53)) (VInt64 (2 ^ 53 + 1)) = Some Lt.
Proof. vm_compute. split_and!; discriminate || reflexivity. Qed.

(** ** Rows *)

Record Row (J : Type) := mkRow {
  row_id : Z;
  row_fields : gmap string (Value J)
}.
Arguments mkRow {J}.
Arguments row_id {J}.
Arguments row_fields {J}.

Section rows.
Context {J : Type}.
Implicit Types (r : Row J) (v : Value J).

Definition Row_new (id : Z) : Row J := mkRow id ∅.

Definition Row_from_fields (id : Z) (fields : gmap string (Value J)) : Row J := mkRow id fields.

Definition Row_get r (field : string) : option (Value J) := row_fields r !! field.

Definition Row_set r (field : string) v : Row J := mkRow (row_id r) (<[field := v]> (row_fields r)).

Definition Row_has_field r (field : string) : bool := bool_decide (is_Some (row_fields r !! field)).

Definition Row_len r : nat := size (row_fields r).

Definition Row_is_empty r : bool := bool_decide (row_fields r = ∅).

(** [for (key, value) in &other.fields { self.fields.insert(..) }] *)
Definition Row_merge r (other : Row J) : Row J :=
  mkRow (row_id r) (map_fold (fun k v m => <[k := v]> m) (row_fields r) (row_fields other)).

Definition Row_remove r (field : string) : Row J * option (Value J) :=
  (mkRow (row_id r) (delete field (row_fields r)), row_fields r !! field).

(** Merging a row overwrites exactly the fields the other row has: afterwards a
    field reads as in the other row when present there and as before otherwise, the
    row keeps its identifier, and merging the same row again changes nothing. *)
Theorem row_merge_overwrites r other field :
  Row_get (Row_merge r other) field =
    match Row_get other field with Some v => Some v | None => Row_get r field end /\
  row_id (Row_merge r other) = row_id r /\
  Row_merge (Row_merge r other) other = Row_merge r other.
Proof.
  assert (Hu : forall m1 m2 : gmap string (Value J),
             map_fold (fun k v m => <[k := v]> m) m1 m2 = m2 ∪ m1).
  { intros m1 m2. induction m2 as [|i x m Hi Hf IH] using map_first_key_ind.
    - by rewrite map_fold_empty, (left_id_L ∅ (∪)).
    - rewrite map_fold_insert_first_key by done. by rewrite IH, insert_union_l. }
  unfold Row_merge, Row_get. simpl. rewrite !Hu. split_and!; [|done|].
  - rewrite lookup_union. destruct (row_fields other !! field), (row_fields r !! field); done.
  - f_equal. by rewrite (assoc_L (∪)), (idemp_L (∪)).
Qed.
End rows.
