(* ===== verification/WalFormat.v ===== *)
(** * Write-ahead log: the record format

    Models [WalRecord] of [storage/incremental.rs]: the encoding of values, rows and
    records and their decoding, checksum included.  The decoder has three outcomes,
    because some of its slices are checked and some panic.  The checksum
    ([crc32fast::hash]) and JSON text ([serde_json]) are parameters. *)
From S2P Require Import Prelude Bytes Float Values.
Local Open Scope Z_scope.
Local Open Scope apex_scope.

(** [storage/on_demand/types.rs] *)
Inductive ColumnValue :=
| CNull
| CBool (b : bool)
| CInt64 (v : Z)
| CFloat64 (bits : Z)
| CString (s : string)
| CBinary (b : list Z)
| CBlob (b : list Z)
| CFixedList (b : list Z).

Definition Row : Type := gmap string ColumnValue.

Definition WAL_MAGIC : list Z := string_bytes "APEXWAL" ++ [0].
Definition WAL_VERSION : Z := 2.
Definition WAL_VERSION_V1 : Z := 1.
Definition WAL_HEADER_SIZE : Z := 24.

Definition RECORD_INSERT : Z := 1.
Definition RECORD_DELETE : Z := 2.
Definition RECORD_CHECKPOINT : Z := 3.
Definition RECORD_BATCH_INSERT : Z := 4.
Definition RECORD_TXN_BEGIN : Z := 5.
Definition RECORD_TXN_COMMIT : Z := 6.
Definition RECORD_TXN_ROLLBACK : Z := 7.
Definition RECORD_INSERT_TXN : Z := 8.
Definition RECORD_DELETE_TXN : Z := 9.
Definition RECORD_UPDATE_TXN : Z := 10.

Inductive WalRecord (J : Type) :=
| WalInsert (id : Z) (data : Row) (txn_id : Z)
| WalBatchInsert (start_id : Z) (rows : list Row) (txn_id : Z)
| WalDelete (id txn_id : Z)
| WalUpdate (id : Z) (data : gmap string (Value J)) (txn_id : Z)
| WalCheckpoint (row_count : Z)
| WalTxnBegin (txn_id : Z)
| WalTxnCommit (txn_id : Z)
| WalTxnRollback (txn_id : Z).
Arguments WalInsert {J}.
Arguments WalBatchInsert {J}.
Arguments WalDelete {J}.
Arguments WalUpdate {J}.
Arguments WalCheckpoint {J}.
Arguments WalTxnBegin {J}.
Arguments WalTxnCommit {J}.
Arguments WalTxnRollback {J}.

(** ** Encoding *)

Definition len {A} (l : list A) : Z := Z.of_nat (length l).

(** [(bytes.len() as u32).to_le_bytes()] and the bytes. *)
Definition write_bytes (b : list Z) : list Z := to_le 4 (len b) ++ b.

Definition write_column_value (v : ColumnValue) : list Z :=
  match v with
  | CNull => [0]
  | CBool b => [1; if b then 1 else 0]
  | CInt64 v => 2 :: to_le 8 v
  | CFloat64 v => 3 :: to_le 8 v
  | CString s => 4 :: write_bytes (string_bytes s)
  | CBinary b => 5 :: write_bytes b
  | CBlob b => 6 :: write_bytes b
  | CFixedList b => 5 :: write_bytes b
  end.

(** A column name: a [u16] length and the bytes. *)
Definition write_name (name : string) : list Z :=
  to_le 2 (len (string_bytes name)) ++ string_bytes name.

Definition write_cell (cell : string * ColumnValue) : list Z :=
  write_name cell.1 ++ write_column_value cell.2.

Definition write_row (row : Row) : list Z :=
  to_le 4 (Z.of_nat (size row)) ++ (map_to_list row ≫= write_cell).

Section format.
Context {J : Type} (json_to_string : J -> list Z) (json_from_slice : list Z -> option J)
  (crc32 : list Z -> Z).
Implicit Types (r : WalRecord J) (v : Value J).

Fixpoint write_value v : list Z :=
  match v with
  | VNull => [0]
  | VBool b => [1; if b then 1 else 0]
  | VInt8 x => 2 :: to_le 1 x
  | VInt16 x => 3 :: to_le 2 x
  | VInt32 x => 4 :: to_le 4 x
  | VInt64 x => 5 :: to_le 8 x
  | VUInt8 x => 6 :: to_le 1 x
  | VUInt16 x => 7 :: to_le 2 x
  | VUInt32 x => 8 :: to_le 4 x
  | VUInt64 x => 9 :: to_le 8 x
  | VFloat32 x => 10 :: to_le 4 x
  | VFloat64 x => 11 :: to_le 8 x
  | VString s => 12 :: write_bytes (string_bytes s)
  | VBinary b => 13 :: write_bytes b
  | VBlob b => 14 :: write_bytes b
  | VFixedList b => 15 :: write_bytes b
  | VJson j => 16 :: write_bytes (json_to_string j)
  | VTimestamp x => 17 :: to_le 8 x
  | VDate x => 18 :: to_le 4 x
  | VTime x => 20 :: to_le 8 x
  | VInterval x => 21 :: to_le 8 x
  | VArray vs => 19 :: to_le 4 (len vs) ++ flat_map write_value vs
  end.

Definition write_value_cell (cell : string * Value J) : list Z :=
  write_name cell.1 ++ to_le 4 (len (write_value cell.2)) ++ write_value cell.2.

Definition write_value_row (row : gmap string (Value J)) : list Z :=
  to_le 4 (Z.of_nat (size row)) ++ (map_to_list row ≫= write_value_cell).

(** The record without its checksum, stamped with the clock. *)
Definition record_body (timestamp : Z) r : list Z :=
  let frame ty data_buf := ty :: to_le 8 timestamp ++ to_le 4 (len data_buf) ++ data_buf in
  let fixed ty n data := ty :: to_le 8 timestamp ++ to_le 4 n ++ data in
  match r with
  | WalInsert id data txn_id =>
      if negb (txn_id =? 0) then
        frame RECORD_INSERT_TXN (to_le 8 id ++ to_le 8 txn_id ++ write_row data)
      else frame RECORD_INSERT (to_le 8 id ++ write_row data)
  | WalBatchInsert start_id rows _ =>
      frame RECORD_BATCH_INSERT (to_le 8 start_id ++ to_le 4 (len rows) ++ (rows ≫= write_row))
  | WalDelete id txn_id =>
      if negb (txn_id =? 0) then fixed RECORD_DELETE_TXN 16 (to_le 8 id ++ to_le 8 txn_id)
      else fixed RECORD_DELETE 8 (to_le 8 id)
  | WalUpdate id data txn_id =>
      frame RECORD_UPDATE_TXN (to_le 8 id ++ to_le 8 txn_id ++ write_value_row data)
  | WalCheckpoint row_count => fixed RECORD_CHECKPOINT 8 (to_le 8 row_count)
  | WalTxnBegin txn_id => fixed RECORD_TXN_BEGIN 8 (to_le 8 txn_id)
  | WalTxnCommit txn_id => fixed RECORD_TXN_COMMIT 8 (to_le 8 txn_id)
  | WalTxnRollback txn_id => fixed RECORD_TXN_ROLLBACK 8 (to_le 8 txn_id)
  end.

Definition WalRecord_to_bytes (timestamp : Z) r : list Z :=
  let buf := record_body timestamp r in
  buf ++ to_le 4 (crc32 buf).

(** ** Decoding *)

(** [read_bytes] of [read_value]: the slices are checked. *)
Definition read_bytes : Reader (list Z) := let! n := read_u Invalid 4 in get n.

(** The fuel bounds the nesting; [S (length bytes)] is enough ([read_value_fuel]). *)
Fixpoint read_value_at (fuel : nat) : Reader (Value J) :=
  match fuel with
  | O => fun _ => Panic
  | S fuel =>
      let! tag := read_u Invalid 1 in
      match tag with
      | 0 => ret VNull
      | 1 => let! b := read_u Invalid 1 in ret (VBool (negb (b =? 0)))
      | 2 => let! x := read_i Invalid 1 in ret (VInt8 x)
      | 3 => let! x := read_i Invalid 2 in ret (VInt16 x)
      | 4 => let! x := read_i Invalid 4 in ret (VInt32 x)
      | 5 => let! x := read_i Invalid 8 in ret (VInt64 x)
      | 6 => let! x := read_u Invalid 1 in ret (VUInt8 x)
      | 7 => let! x := read_u Invalid 2 in ret (VUInt16 x)
      | 8 => let! x := read_u Invalid 4 in ret (VUInt32 x)
      | 9 => let! x := read_u Invalid 8 in ret (VUInt64 x)
      | 10 => let! x := read_u Invalid 4 in ret (VFloat32 x)
      | 11 => let! x := read_u Invalid 8 in ret (VFloat64 x)
      | 12 =>
          let! b := read_bytes in
          if utf8_valid b then ret (VString (bytes_string b)) else invalid
      | 13 => let! b := read_bytes in ret (VBinary b)
      | 14 => let! b := read_bytes in ret (VBlob b)
      | 15 => let! b := read_bytes in ret (VFixedList b)
      | 16 =>
          let! b := read_bytes in
          match json_from_slice b with Some j => ret (VJson j) | None => invalid end
      | 17 => let! x := read_i Invalid 8 in ret (VTimestamp x)
      | 18 => let! x := read_i Invalid 4 in ret (VDate x)
      | 20 => let! x := read_i Invalid 8 in ret (VTime x)
      | 21 => let! x := read_i Invalid 8 in ret (VInterval x)
      | 19 =>
          let! count := read_u Invalid 4 in
          let! vs := read_n (Z.to_nat count) (read_value_at fuel) in
          ret (VArray vs)
      | _ => invalid
      end
  end.

Definition read_value (bytes : list Z) : Outcome (Value J * list Z) :=
  read_value_at (S (length bytes)) bytes.

(** One cell of a row; an INSERT with a transaction id has no arm for type 6. *)
Definition read_cell (blob : bool) : Reader (string * ColumnValue) :=
  let! name_len := read_u Panic 2 in
  let! name := read_str Panic name_len in
  let! value_type := read_u Panic 1 in
  match value_type with
  | 0 => ret (name, CNull)
  | 1 => let! b := read_u Panic 1 in ret (name, CBool (negb (b =? 0)))
  | 2 => let! x := read_i Panic 8 in ret (name, CInt64 x)
  | 3 => let! x := read_u Panic 8 in ret (name, CFloat64 x)
  | 4 =>
      let! n := read_u Panic 4 in
      let! s := read_str Panic n in ret (name, CString s)
  | 5 =>
      let! n := read_u Panic 4 in
      let! b := index n in ret (name, CBinary b)
  | 6 =>
      if blob then
        let! n := read_u Panic 4 in
        let! b := index n in ret (name, CBlob b)
      else invalid
  | _ => invalid
  end.

(** [row_data.insert(name, value)] for each cell in turn. *)
Definition collect_row {A} (cells : list (string * A)) : gmap string A :=
  fold_left (fun row cell => <[cell.1 := cell.2]> row) cells ∅.

Definition read_row (blob : bool) : Reader Row :=
  let! col_count := read_u Panic 4 in
  let! cells := read_n (Z.to_nat col_count) (read_cell blob) in
  ret (collect_row cells).

Definition read_insert : Reader (WalRecord J) :=
  let! id := read_u Panic 8 in
  let! data := read_row true in
  ret (WalInsert id data 0).

Definition read_insert_txn : Reader (WalRecord J) :=
  let! id := read_u Panic 8 in
  let! txn_id := read_u Panic 8 in
  let! data := read_row false in
  ret (WalInsert id data txn_id).

Definition read_batch_insert : Reader (WalRecord J) :=
  let! start_id := read_u Panic 8 in
  let! row_count := read_u Panic 4 in
  let! rows := read_n (Z.to_nat row_count) (read_row true) in
  ret (WalBatchInsert start_id rows 0).

Definition read_value_cell : Reader (string * Value J) :=
  let! name_len := read_u Invalid 2 in
  let! name := read_str Invalid name_len in
  let! value_len := read_u Invalid 4 in
  let! value_bytes := get value_len in
  match read_value value_bytes with
  | Done (value, []) => ret (name, value)
  | Done (_, _ :: _) => invalid
  | Invalid => invalid
  | Panic => fun _ => Panic
  end.

Definition read_update : Reader (WalRecord J) :=
  let! id := read_u Invalid 8 in
  let! txn_id := read_u Invalid 8 in
  let! col_count := read_u Invalid 4 in
  let! cells := read_n (Z.to_nat col_count) read_value_cell in
  ret (WalUpdate id (collect_row cells) txn_id).

(** The [match] on the record type; bytes of [data] left over are ignored. *)
Definition read_data (record_type : Z) : Reader (WalRecord J) :=
  match record_type with
  | 1 => read_insert
  | 8 => read_insert_txn
  | 4 => read_batch_insert
  | 2 => let! id := read_u Panic 8 in ret (WalDelete id 0)
  | 9 => let! id := read_u Panic 8 in let! txn_id := read_u Panic 8 in ret (WalDelete id txn_id)
  | 10 => read_update
  | 3 => let! row_count := read_u Panic 8 in ret (WalCheckpoint row_count)
  | 5 => let! txn_id := read_u Panic 8 in ret (WalTxnBegin txn_id)
  | 6 => let! txn_id := read_u Panic 8 in ret (WalTxnCommit txn_id)
  | 7 => let! txn_id := read_u Panic 8 in ret (WalTxnRollback txn_id)
  | _ => invalid
  end.

(** Returns the record and the number of bytes it took. *)
Definition from_bytes_versioned (bytes : list Z) (wal_version : Z) : Outcome (WalRecord J * Z) :=
  match bytes with
  | [] => Invalid
  | record_type :: _ =>
      if len bytes <? 13 then Invalid
      else
        let record_len := u_from_le (take 4 (drop 9 bytes)) in
        let total_len := 13 + record_len in
        if negb (total_len <=? len bytes) then Invalid
        else
          let data := take (Z.to_nat record_len) (drop 13 bytes) in
          outcome_bind (read_data record_type data) (fun '(record, _) =>
            if WAL_VERSION <=? wal_version then
              if len bytes <? total_len + 4 then Invalid
              else
                let stored_crc := u_from_le (take 4 (drop (Z.to_nat total_len) bytes)) in
                let computed_crc := crc32 (take (Z.to_nat total_len) bytes) in
                if negb (stored_crc =? computed_crc) then Invalid
                else Done (record, total_len + 4)
            else Done (record, total_len))
  end.

Definition from_bytes (bytes : list Z) : Outcome (WalRecord J * Z) :=
  from_bytes_versioned bytes WAL_VERSION_V1.
End format.

(** ** What can be encoded

    Lengths are cut to 16 or 32 bits without a check, so a row must respect them.  A
    vector comes back as the binary value it shares its tag with, and a batch without
    its transaction id. *)

Definition short_bytes (b : list Z) : Prop := len b < width 4.

Definition name_ok (name : string) : Prop :=
  valid_str name /\ len (string_bytes name) < width 2.

Definition cell_ok (v : ColumnValue) : Prop :=
  match v with
  | CNull | CBool _ => True
  | CInt64 x => signed 8 x
  | CFloat64 x => unsigned 8 x
  | CString s => valid_str s /\ short_bytes (string_bytes s)
  | CBinary b | CBlob b | CFixedList b => short_bytes b
  end.

Definition is_blob (v : ColumnValue) : bool := match v with CBlob _ => true | _ => false end.

Definition row_ok (row : Row) : Prop :=
  Z.of_nat (size row) < width 4 /\ map_Forall (fun name v => name_ok name /\ cell_ok v) row.

Definition wire_value (v : ColumnValue) : ColumnValue :=
  match v with CFixedList b => CBinary b | v => v end.

Definition wire_row (row : Row) : Row := wire_value <$> row.

Section encodable.
Context {J : Type} (json_to_string : J -> list Z).

Fixpoint value_ok (v : Value J) : Prop :=
  match v with
  | VNull | VBool _ => True
  | VInt8 x => signed 1 x
  | VInt16 x => signed 2 x
  | VInt32 x | VDate x => signed 4 x
  | VInt64 x | VTimestamp x | VTime x | VInterval x => signed 8 x
  | VUInt8 x => unsigned 1 x
  | VUInt16 x => unsigned 2 x
  | VUInt32 x | VFloat32 x => unsigned 4 x
  | VUInt64 x | VFloat64 x => unsigned 8 x
  | VString s => valid_str s /\ short_bytes (string_bytes s)
  | VBinary b | VBlob b | VFixedList b => short_bytes b
  | VJson j => short_bytes (json_to_string j)
  | VArray vs => len vs < width 4 /\ foldr (fun v P => value_ok v /\ P) True vs
  end.

Definition record_ok (r : WalRecord J) : Prop :=
  len (record_body json_to_string 0 r) < width 4 /\
  match r with
  | WalInsert id data txn_id =>
      unsigned 8 id /\ unsigned 8 txn_id /\ row_ok data /\
      (txn_id <> 0 -> map_Forall (fun _ v => is_blob v = false) data)
  | WalBatchInsert start_id rows _ =>
      unsigned 8 start_id /\ len rows < width 4 /\ Forall row_ok rows
  | WalDelete id txn_id => unsigned 8 id /\ unsigned 8 txn_id
  | WalUpdate id data txn_id =>
      unsigned 8 id /\ unsigned 8 txn_id /\ Z.of_nat (size data) < width 4 /\
      map_Forall (fun name v => name_ok name /\ value_ok v /\
                                short_bytes (write_value json_to_string v)) data
  | WalCheckpoint x | WalTxnBegin x | WalTxnCommit x | WalTxnRollback x => unsigned 8 x
  end.

(** A transactional INSERT with a BLOB cell: written, but not readable. *)
Definition txn_blob (r : WalRecord J) : bool :=
  match r with
  | WalInsert _ data txn_id =>
      negb (txn_id =? 0) && bool_decide (map_Exists (fun _ cell => is_blob cell = true) data)
  | _ => false
  end.

(** The lengths and integers of a record fit their fields. *)
Definition record_fits (r : WalRecord J) : Prop :=
  match r with
  | WalInsert id data txn_id =>
      len (record_body json_to_string 0 r) < width 4 /\ unsigned 8 id /\ unsigned 8 txn_id /\ row_ok data
  | _ => record_ok r
  end.

Lemma record_fits_ok r : record_fits r -> txn_blob r = false -> record_ok r.
Proof.
  destruct r as [id data txn| | | | | | |]; try done. intros (Hlen & Hid & Htxn & Hrow) Hb.
  split_and!; [done..|]. intros Hne n v Hv.
  simpl in Hb. destruct (Z.eqb_spec txn 0) as [|_]; [done|]. simpl in Hb.
  apply bool_decide_eq_false in Hb. destruct (is_blob v) eqn:Hv'; [|done].
  destruct Hb. by exists n, v.
Qed.

Definition wire (r : WalRecord J) : WalRecord J :=
  match r with
  | WalInsert id data txn_id => WalInsert id (wire_row data) txn_id
  | WalBatchInsert start_id rows _ => WalBatchInsert start_id (wire_row <$> rows) 0
  | r => r
  end.
End encodable.

(** ** Round trips *)

Lemma len_nonneg {A} (l : list A) : 0 <= len l.
Proof. unfold len. lia. Qed.
#[export] Hint Resolve len_nonneg : apex.

Lemma unsigned_len {A} n (l : list A) : len l < width n -> unsigned n (len l).
Proof. split; [apply len_nonneg|done]. Qed.
#[export] Hint Resolve unsigned_len : apex.

Lemma reads_bytes_panic b :
  short_bytes b -> reads (let! n := read_u Panic 4 in index n) (write_bytes b) b.
Proof.
  intros Hb. eapply reads_bind; [apply (reads_u _ 4); auto with apex|]. by apply reads_next.
Qed.

Lemma reads_bytes b : short_bytes b -> reads read_bytes (write_bytes b) b.
Proof.
  intros Hb. eapply reads_bind; [apply (reads_u _ 4); auto with apex|]. by apply reads_next.
Qed.

Lemma reads_sized {A} (p : Z -> Reader A) b a :
  short_bytes b -> reads (p (len b)) b a ->
  reads (let! n := read_u Panic 4 in p n) (write_bytes b) a.
Proof. intros Hb Hp. eapply reads_bind; [apply (reads_u _ 4); auto with apex|done]. Qed.

Lemma reads_cell blob name v :
  name_ok name -> cell_ok v -> (blob = false -> is_blob v = false) ->
  reads (read_cell blob) (write_cell (name, v)) (name, wire_value v).
Proof.
  intros [Hname Hlen] Hv Hblob. unfold read_cell, write_cell, write_name. cbn [fst snd].
  rewrite <-app_assoc. eapply reads_bind; [apply (reads_u _ 2); auto with apex|].
  eapply reads_bind; [by apply reads_str|].
  destruct v; cbn [write_column_value wire_value cell_ok] in *; 
    (eapply reads_step; [apply reads_byte; unfold is_byte; lia|]); cbn [bind].
  - apply reads_ret.
  - eapply (reads_last_eq _ (fun b => (name, CBool (negb (b =? 0)))));
      [apply (reads_byte _ (if b then 1 else 0)); by destruct b|by destruct b].
  - apply (reads_last _ (fun x => (name, CInt64 x))). by apply (reads_i _ 7).
  - apply (reads_last _ (fun x => (name, CFloat64 x))). by apply (reads_u _ 8).
  - destruct Hv. apply (reads_sized (fun n => let! s := read_str Panic n in ret (name, CString s))); [done|].
    apply (reads_last _ (fun s => (name, CString s))). by apply reads_str.
  - apply (reads_sized (fun n => let! b := index n in ret (name, CBinary b))); [done|].
    apply (reads_last _ (fun b => (name, CBinary b))). by apply reads_next.
  - destruct blob; [|by specialize (Hblob eq_refl)].
    apply (reads_sized (fun n => let! b := index n in ret (name, CBlob b))); [done|].
    apply (reads_last _ (fun b => (name, CBlob b))). by apply reads_next.
  - apply (reads_sized (fun n => let! b := index n in ret (name, CBinary b))); [done|].
    apply (reads_last _ (fun b => (name, CBinary b))). by apply reads_next.
Qed.

Lemma collect_row_spec {A} (cells : list (string * A)) :
  NoDup cells.*1 -> collect_row cells = list_to_map cells.
Proof.
  intros Hnd. unfold collect_row.
  enough (forall acc, (forall k, k ∈ cells.*1 -> acc !! k = None) ->
            fold_left (fun row cell => <[cell.1 := cell.2]> row) cells acc
            = list_to_map cells ∪ acc) as ->.
  { by rewrite (right_id_L ∅ (∪)). }
  { done. }
  induction cells as [|[k v] cells IH]; intros acc Hacc; cbn [fold_left list_to_map].
  - simpl. by rewrite (left_id_L ∅ (∪)).
  - rewrite fmap_cons in Hnd. apply NoDup_cons in Hnd as [Hk Hnd]. cbn [fst snd] in *.
    rewrite IH; [|done|].
    + rewrite <-insert_union_r by by apply not_elem_of_list_to_map_1.
      simpl. by rewrite insert_union_l.
    + intros k' Hk'. rewrite lookup_insert_ne by (intros ->; done). apply Hacc. by right.
Qed.

Lemma collect_row_map {A B} (f : A -> B) (row : gmap string A) :
  collect_row ((fun c => (c.1, f c.2)) <$> map_to_list row) = f <$> row.
Proof.
  rewrite collect_row_spec.
  - apply map_eq. intros k. rewrite lookup_fmap.
    destruct (row !! k) as [v|] eqn:Hk; cbn [fmap option_fmap option_map].
    + apply elem_of_list_to_map_1.
      * rewrite <-list_fmap_compose. exact (NoDup_fst_map_to_list row).
      * apply list_elem_of_fmap. exists (k, v). split; [done|]. by apply elem_of_map_to_list.
    + apply not_elem_of_list_to_map_1. rewrite <-list_fmap_compose.
      intros (kv & -> & Hin)%list_elem_of_fmap. destruct kv as [k' v].
      apply elem_of_map_to_list in Hin. simpl in Hk. congruence.
  - rewrite <-list_fmap_compose. exact (NoDup_fst_map_to_list row).
Qed.

Lemma reads_row blob row :
  row_ok row -> (blob = false -> map_Forall (fun _ v => is_blob v = false) row) ->
  reads (read_row blob) (write_row row) (wire_row row).
Proof.
  intros [Hsize Hcells] Hblob. unfold read_row, write_row.
  eapply reads_bind; [apply (reads_u _ 4); split; [lia|done]|].
  rewrite <-(collect_row_map wire_value). apply (reads_last _ collect_row).
  rewrite Nat2Z.id, <-(length_map_to_list row). apply reads_read_n.
  apply List.Forall_forall. intros [name v] Hin.
  apply list_elem_of_In, elem_of_map_to_list in Hin. destruct (Hcells _ _ Hin).
  apply reads_cell; [done..|]. intros Hb. exact (Hblob Hb _ _ Hin).
Qed.

Lemma flat_map_bind {A B} (f : A -> list B) l : flat_map f l = l ≫= f.
Proof. induction l as [|a l IH]; [done|]. rewrite bind_cons. cbn [flat_map]. by f_equal. Qed.

Lemma Forall_foldr {A} (P : A -> Prop) l : foldr (fun a Q => P a /\ Q) True l <-> Forall P l.
Proof. induction l as [|a l IH]; simpl; rewrite ?Forall_nil, ?Forall_cons; [done|]. by rewrite IH. Qed.

Lemma bind_length_elem {A B} (f : A -> list B) l x : x ∈ l -> (length (f x) <= length (l ≫= f))%nat.
Proof.
  induction 1 as [x l|x y l _ IH]; rewrite bind_cons, length_app; lia.
Qed.

Section roundtrip.
Context {J : Type} (json_to_string : J -> list Z) (json_from_slice : list Z -> option J)
  (crc32 : list Z -> Z).
Implicit Types (r : WalRecord J) (v : Value J).
Hypothesis json_roundtrip : forall j, json_from_slice (json_to_string j) = Some j.
Hypothesis crc32_range : forall bytes, unsigned 4 (crc32 bytes).

Local Abbreviation wv := (write_value json_to_string).
Local Abbreviation rv := (read_value_at json_from_slice).

Lemma reads_value fuel v :
  value_ok json_to_string v -> (length (wv v) < fuel)%nat ->
  reads (rv fuel) (wv v) v.
Proof.
  revert v. induction fuel as [|fuel IH]; intros v Hv Hf; [lia|].
  destruct v; cbn [write_value read_value_at value_ok] in *;
    (eapply reads_step; [apply reads_byte; unfold is_byte; lia|]); cbn [bind];
    first
      [ apply reads_ret
      | eapply (reads_last _ _); first [by apply (reads_i _ 0)|by apply (reads_i _ 1)
          |by apply (reads_i _ 3)|by apply (reads_i _ 7)]
      | eapply (reads_last _ _); first [by apply (reads_u _ 1)|by apply (reads_u _ 2)
          |by apply (reads_u _ 4)|by apply (reads_u _ 8)]
      | eapply (reads_last _ _); by apply reads_bytes
      | idtac ].
  - eapply (reads_last_eq _ (fun b => VBool (negb (b =? 0))));
      [apply (reads_byte _ (if b then 1 else 0)); by destruct b|by destruct b].
  - destruct Hv as [Hs Hl]. eapply reads_then; [by apply reads_bytes|]. cbn beta.
    unfold valid_str in Hs. by rewrite Hs, bytes_string_bytes.
  - eapply reads_then; [by apply reads_bytes|]. cbn beta. by rewrite json_roundtrip.
  - destruct Hv as [Hl Hvs%Forall_foldr].
    eapply reads_bind; [apply (reads_u _ 4); auto with apex|].
    apply (reads_last _ VArray). unfold len. rewrite Nat2Z.id.
    rewrite flat_map_bind in *. 
    pose proof (reads_read_n (rv fuel) wv (fun v => v) vs) as Hn. rewrite list_fmap_id in Hn.
    apply Hn, List.Forall_forall. intros v Hin. apply IH.
    + by eapply (proj1 (List.Forall_forall _ _)).
    + apply list_elem_of_In in Hin. apply (bind_length_elem wv) in Hin.
      cbn [length] in Hf. rewrite length_app in Hf. lia.
Qed.

Lemma read_value_at_consumes fuel : consumes 0 (rv fuel).
Proof.
  induction fuel as [|fuel IH]; cbn [read_value_at]; [done|].
  unfold read_bytes, read_u, read_i. fold (get 1). apply consumes_bind_0; [auto with consumes|].
  intros tag. repeat case_goal; eauto with consumes.
  all: apply consumes_bind_0; [eauto with consumes|intros b]; case_goal; auto with consumes.
Qed.

(** The fuel of [read_value] is enough: more of it changes nothing. *)
Lemma read_value_at_fuel f1 f2 bytes :
  (length bytes < f1)%nat -> (length bytes < f2)%nat -> rv f1 bytes = rv f2 bytes.
Proof.
  revert f2 bytes. induction f1 as [|f1 IH]; intros [|f2] bytes H1 H2; [lia..|].
  cbn [read_value_at]. apply bind_ext. intros tag rest Htag.
  apply consumes_read_u in Htag; [|done]. repeat case_goal; try done.
  apply bind_ext. intros count rest' Hcount. apply consumes_read_u in Hcount; [|done].
  unfold bind. rewrite (read_n_ext (rv f1) (rv f2)); [done|apply read_value_at_consumes|].
  intros bs' Hbs'. apply IH; lia.
Qed.

Lemma read_value_fuel fuel bytes :
  (length bytes < fuel)%nat -> rv fuel bytes = read_value json_from_slice bytes.
Proof. intros Hf. apply read_value_at_fuel; lia. Qed.
Lemma read_value_write v : value_ok json_to_string v -> read_value json_from_slice (wv v) = Done (v, []).
Proof.
  intros Hv. unfold read_value. rewrite <-(app_nil_r (wv v)) at 2. apply reads_value; [done|lia].
Qed.

Lemma reads_value_cell name v :
  name_ok name -> value_ok json_to_string v -> short_bytes (wv v) ->
  reads (read_value_cell json_from_slice) (write_value_cell json_to_string (name, v)) (name, v).
Proof.
  intros [Hname Hlen] Hv Hs. unfold read_value_cell, write_value_cell, write_name. cbn [fst snd].
  rewrite <-app_assoc. eapply reads_bind; [apply (reads_u _ 2); auto with apex|].
  eapply reads_bind; [by apply reads_str|].
  eapply reads_bind; [apply (reads_u _ 4); auto with apex|].
  eapply reads_then; [by apply reads_next|]. cbn beta. by rewrite read_value_write.
Qed.

Lemma reads_value_row (row : gmap string (Value J)) :
  Z.of_nat (size row) < width 4 ->
  map_Forall (fun name v => name_ok name /\ value_ok json_to_string v /\ short_bytes (wv v)) row ->
  reads (let! n := read_u Invalid 4 in
         let! cells := read_n (Z.to_nat n) (read_value_cell json_from_slice) in
         ret (collect_row cells))
    (write_value_row json_to_string row) row.
Proof.
  intros Hsize Hcells. eapply reads_bind; [apply (reads_u _ 4); split; [lia|done]|].
  apply (reads_last_eq _ collect_row _ ((fun c => (c.1, c.2)) <$> map_to_list row)).
  - rewrite Nat2Z.id, <-(length_map_to_list row). apply reads_read_n.
    apply List.Forall_forall. intros [name v] Hin.
    apply list_elem_of_In, elem_of_map_to_list in Hin. destruct (Hcells _ _ Hin) as (?&?&?).
    by apply reads_value_cell.
  - rewrite (collect_row_map (fun v => v)). apply map_fmap_id.
Qed.

Definition framed (ty ts : Z) (data : list Z) : list Z := ty :: to_le 8 ts ++ to_le 4 (len data) ++ data.

Lemma framed_length ty ts data : length (framed ty ts data) = (13 + length data)%nat.
Proof. unfold framed. cbn [length]. rewrite !length_app, !to_le_length. lia. Qed.

Lemma record_body_length ts r :
  length (record_body json_to_string ts r) = length (record_body json_to_string 0 r).
Proof.
  unfold record_body. destruct r; try case_goal; cbn [length];
    by rewrite !length_app, !to_le_length.
Qed.

(** The shape of an encoded record, and what the decoder makes of its data. *)
Lemma record_body_framed ts r :
  record_ok json_to_string r ->
  exists ty data, record_body json_to_string ts r = framed ty ts data /\
                  unsigned 4 (len data) /\
                  read_data json_from_slice ty data = Done (wire r, []).
Proof.
  intros [Hlen Hok]. unfold len in Hlen. rewrite <-(record_body_length ts) in Hlen.
  enough (exists ty data, record_body json_to_string ts r = framed ty ts data /\
            reads (read_data json_from_slice ty) data (wire r)) as (ty & data & Hb & Hr).
  { exists ty, data. split_and!; [done| |].
    - rewrite Hb, framed_length in Hlen. apply unsigned_len. unfold len. lia.
    - rewrite <-(app_nil_r data). apply Hr. }
  destruct r as [id data txn|id rows txn|id txn|id data txn|n|t|t|t]; cbn [record_body wire].
  - destruct Hok as (Hid & Htxn & Hrow & Hblob). destruct (Z.eqb_spec txn 0) as [->|Hne]; cbn [negb].
    + eexists RECORD_INSERT, _. split; [reflexivity|].
      eapply reads_bind; [by apply (reads_u _ 8)|].
      apply (reads_last _ (fun data => WalInsert id data 0)). by apply reads_row.
    + eexists RECORD_INSERT_TXN, _. split; [reflexivity|].
      eapply reads_bind; [by apply (reads_u _ 8)|]. eapply reads_bind; [by apply (reads_u _ 8)|].
      apply (reads_last _ (fun data => WalInsert id data txn)). apply reads_row; auto.
  - destruct Hok as (Hid & Hn & Hrows). eexists RECORD_BATCH_INSERT, _. split; [reflexivity|].
    eapply reads_bind; [by apply (reads_u _ 8)|].
    eapply reads_bind; [apply (reads_u _ 4); auto with apex|].
    apply (reads_last _ (fun rows => WalBatchInsert id rows 0)).
    unfold len. rewrite Nat2Z.id. apply reads_read_n.
    eapply Forall_impl; [exact Hrows|]. intros row Hrow. by apply reads_row.
  - destruct Hok as (Hid & Htxn). destruct (Z.eqb_spec txn 0) as [->|Hne]; cbn [negb].
    + exists RECORD_DELETE, (to_le 8 id). split; [reflexivity|].
      apply (reads_last _ (fun id => WalDelete id 0)). by apply (reads_u _ 8).
    + exists RECORD_DELETE_TXN, (to_le 8 id ++ to_le 8 txn). split; [reflexivity|].
      eapply reads_bind; [by apply (reads_u _ 8)|].
      apply (reads_last _ (fun txn => WalDelete id txn)). by apply (reads_u _ 8).
  - destruct Hok as (Hid & Htxn & Hsize & Hcells). eexists RECORD_UPDATE_TXN, _. split; [reflexivity|].
    eapply reads_bind; [by apply (reads_u _ 8)|]. eapply reads_bind; [by apply (reads_u _ 8)|].
    intros rest. pose proof (reads_value_row data Hsize Hcells rest) as Hrow.
    revert Hrow. unfold bind, ret. intros Hrow. repeat case_goal; by simplify_eq.
  - exists RECORD_CHECKPOINT, (to_le 8 n). split; [reflexivity|].
    apply (reads_last _ WalCheckpoint). by apply (reads_u _ 8).
  - exists RECORD_TXN_BEGIN, (to_le 8 t). split; [reflexivity|].
    apply (reads_last _ WalTxnBegin). by apply (reads_u _ 8).
  - exists RECORD_TXN_COMMIT, (to_le 8 t). split; [reflexivity|].
    apply (reads_last _ WalTxnCommit). by apply (reads_u _ 8).
  - exists RECORD_TXN_ROLLBACK, (to_le 8 t). split; [reflexivity|].
    apply (reads_last _ WalTxnRollback). by apply (reads_u _ 8).
Qed.
Local Abbreviation decode := (from_bytes_versioned json_from_slice crc32).
Local Abbreviation encode := (WalRecord_to_bytes json_to_string crc32).

(** [from_bytes_versioned] on a complete record header. *)
Lemma decode_header ty ts n tail version :
  unsigned 4 n ->
  let head := ty :: to_le 8 ts ++ to_le 4 n in
  decode (head ++ tail) version =
  if negb (n <=? len tail) then Invalid
  else
    outcome_bind (read_data json_from_slice ty (take (Z.to_nat n) tail)) (fun '(record, _) =>
      if WAL_VERSION <=? version then
        if len tail <? n + 4 then Invalid
        else if negb (u_from_le (take 4 (drop (Z.to_nat n) tail)) =?
                      crc32 (head ++ take (Z.to_nat n) tail)) then Invalid
        else Done (record, 13 + n + 4)
      else Done (record, 13 + n)).
Proof.
  intros Hn head.
  assert (length head = 13%nat) as Hhead
    by (unfold head; cbn [length]; rewrite length_app, !to_le_length; done).
  assert (forall k, (k <= length head)%nat -> drop k (head ++ tail) = drop k head ++ tail) as Hdrop
    by (intros k Hk; by apply drop_app_le).
  assert (take 4 (drop 9 (head ++ tail)) = to_le 4 n) as Hlen.
  { unfold head. change (ty :: to_le 8 ts ++ to_le 4 n) with ((ty :: to_le 8 ts) ++ to_le 4 n).
    rewrite <-app_assoc, drop_app_length' by (cbn [length]; by rewrite to_le_length).
    by rewrite take_app_length' by by rewrite to_le_length. }
  assert (drop 13 (head ++ tail) = tail) as H13 by by rewrite drop_app_length'.
  unfold from_bytes_versioned. rewrite Hlen, u_from_to_le by done. rewrite H13.
  destruct (head ++ tail) as [|b bytes] eqn:Hbytes; [by unfold head in Hbytes|].
  assert (b = ty) as -> by (unfold head in Hbytes; cbn [app] in Hbytes; congruence).
  rewrite <-Hbytes. unfold len in *. rewrite length_app, Hhead.
  unfold unsigned in Hn.
  destruct (Z.ltb_spec (Z.of_nat (13 + length tail)) 13); [lia|].
  replace (13 + n <=? Z.of_nat (13 + length tail)) with (n <=? Z.of_nat (length tail))
    by (destruct (Z.leb_spec n (Z.of_nat (length tail))),
                 (Z.leb_spec (13 + n) (Z.of_nat (13 + length tail))); lia || done).
  replace (Z.of_nat (13 + length tail) <? 13 + n + 4) with (Z.of_nat (length tail) <? n + 4)
    by (destruct (Z.ltb_spec (Z.of_nat (length tail)) (n + 4)),
                 (Z.ltb_spec (Z.of_nat (13 + length tail)) (13 + n + 4)); lia || done).
  replace (Z.to_nat (13 + n)) with (length head + Z.to_nat n)%nat by lia.
  by rewrite take_app_add, drop_app_add.
Qed.
Lemma encode_framed ts r :
  record_ok json_to_string r ->
  exists ty data, let head := ty :: to_le 8 ts ++ to_le 4 (len data) in
    encode ts r = head ++ data ++ to_le 4 (crc32 (head ++ data)) /\
    unsigned 4 (len data) /\ read_data json_from_slice ty data = Done (wire r, []).
Proof.
  intros (ty & data & Hb & Hn & Hr)%(record_body_framed ts). exists ty, data. split_and!; [|done..].
  unfold WalRecord_to_bytes. rewrite Hb. unfold framed. cbn [app]. by rewrite <-!app_assoc.
Qed.

Lemma encode_length ts r : length (encode ts r) = length (encode 0 r).
Proof.
  unfold WalRecord_to_bytes. by rewrite !length_app, !to_le_length, record_body_length.
Qed.

Lemma decode_encode ts r rest :
  record_ok json_to_string r ->
  decode (encode ts r ++ rest) WAL_VERSION = Done (wire r, len (encode ts r)).
Proof.
  intros (ty & data & Henc & Hn & Hr)%(encode_framed ts). cbn zeta in Henc.
  rewrite Henc, <-!app_assoc, decode_header by done. unfold len in *.
  rewrite Nat2Z.id, !length_app, !to_le_length, take_app_length, drop_app_length, Hr.
  destruct (Z.leb_spec (Z.of_nat (length data)) (Z.of_nat (length data + (4 + length rest)))); [|lia].
  cbn [negb outcome_bind]. change (WAL_VERSION <=? WAL_VERSION) with true. cbn iota.
  destruct (Z.ltb_spec (Z.of_nat (length data + (4 + length rest))) (Z.of_nat (length data) + 4)); [lia|].
  rewrite take_app_length' by by rewrite to_le_length.
  rewrite u_from_to_le, Z.eqb_refl by apply crc32_range. cbn [negb]. do 2 f_equal.
  cbn [length]. rewrite length_app, !to_le_length. lia.
Qed.

Lemma decode_torn ts r n :
  record_ok json_to_string r -> (n < length (encode ts r))%nat ->
  decode (take n (encode ts r)) WAL_VERSION = Invalid.
Proof.
  intros (ty & data & Henc & Hn & Hr)%(encode_framed ts) Hlt. cbn zeta in Henc. rewrite Henc in *.
  set (head := ty :: to_le 8 ts ++ to_le 4 (len data)) in *.
  assert (length head = 13%nat) as Hhead
    by (unfold head; cbn [length]; rewrite length_app, !to_le_length; done).
  rewrite !length_app, to_le_length, Hhead in Hlt.
  destruct (decide (n < 13)%nat) as [Hn13|Hn13].
  - rewrite take_app_le by lia. unfold from_bytes_versioned, len.
    destruct (take n head) as [|b bytes] eqn:Ht; [done|]. rewrite <-Ht, length_take.
    destruct (Z.ltb_spec (Z.of_nat (n `min` length head)) 13); [done|lia].
  - replace n with (length head + (n - 13))%nat by lia.
    rewrite take_app_add. unfold head. rewrite decode_header by done. unfold len.
    rewrite Nat2Z.id, length_take, length_app, to_le_length.
    destruct (Z.leb_spec (Z.of_nat (length data))
                (Z.of_nat ((n - 13) `min` (length data + 4)))); cbn [negb]; [|done].
    rewrite take_take, Nat.min_l, take_app_length, Hr by lia. cbn [outcome_bind].
    change (WAL_VERSION <=? WAL_VERSION) with true. cbn iota.
    destruct (Z.ltb_spec (Z.of_nat ((n - 13) `min` (length data + 4))) (Z.of_nat (length data) + 4));
      [done|lia].
Qed.

(** A reader that fails on a cell fails on the row. *)
Lemma read_n_invalid {A C} (p : Reader A) (enc : C -> list Z) (dec : C -> A) (bad : C -> Prop) l rest :
  Forall (fun c => reads p (enc c) (dec c) \/ (bad c /\ forall rest, p (enc c ++ rest) = Invalid)) l ->
  Exists (fun c => forall rest, p (enc c ++ rest) = Invalid) l ->
  read_n (length l) p ((l ≫= enc) ++ rest) = Invalid.
Proof.
  induction l as [|c l IH]; intros Hall Hex; [by apply Exists_nil in Hex|].
  apply Forall_cons_1 in Hall as [Hc Hall]. rewrite bind_cons. cbn [length read_n].
  unfold bind at 1. rewrite <-app_assoc. destruct Hc as [Hc|[_ Hc]]; [|by rewrite Hc].
  rewrite Hc. unfold bind. rewrite IH; [done..|].
  apply Exists_cons in Hex as [Hbad|Hex]; [|done]. specialize (Hbad []). rewrite Hc in Hbad. done.
Qed.

Lemma read_cell_blob name b rest :
  name_ok name -> read_cell false (write_cell (name, CBlob b) ++ rest) = Invalid.
Proof.
  intros [Hname Hlen]. unfold read_cell, write_cell, write_name. cbn [fst snd write_column_value].
  rewrite <-!app_assoc. unfold bind at 1. rewrite (reads_u _ 2) by auto with apex.
  unfold bind at 1. unfold len. rewrite reads_str by done.
  unfold bind at 1. change (6 :: write_bytes b) with ([6] ++ write_bytes b).
  rewrite <-app_assoc. by rewrite reads_byte by (unfold is_byte; lia).
Qed.

Lemma read_row_blob row rest :
  row_ok row -> map_Exists (fun _ cell => is_blob cell = true) row ->
  read_row false (write_row row ++ rest) = Invalid.
Proof.
  intros [Hsize Hcells] (name & cell & Hv & Hblob). unfold read_row, write_row.
  rewrite <-app_assoc. unfold bind at 1. rewrite (reads_u _ 4) by (split; [lia|done]).
  rewrite Nat2Z.id, <-(length_map_to_list row). unfold bind.
  rewrite (read_n_invalid _ write_cell (fun c => (c.1, wire_value c.2)) (fun c => is_blob c.2 = true)); [done| |].
  - apply List.Forall_forall. intros [n w] Hin. apply list_elem_of_In, elem_of_map_to_list in Hin.
    destruct (Hcells _ _ Hin). destruct (is_blob w) eqn:Hw.
    + right. split; [done|]. intros rest'. destruct w; try done. by apply read_cell_blob.
    + left. by apply reads_cell.
  - apply Exists_exists. exists (name, cell). split; [by apply elem_of_map_to_list|].
    intros rest'. destruct cell; try done. apply read_cell_blob. by destruct (Hcells _ _ Hv).
Qed.

(** A transactional INSERT that holds a BLOB cannot be read back: its decoder has no
    arm for the BLOB tag that [write_row] emits, so the record, and with it everything
    later in the log, is taken for the torn end of the file. *)
Lemma txn_insert_with_blob_unreadable ts id txn_id data rest :
  unsigned 8 id -> row_ok data -> unsigned 8 txn_id -> txn_id <> 0 ->
  len (record_body json_to_string 0 (WalInsert (J:=J) id data txn_id)) < width 4 ->
  map_Exists (fun _ cell => is_blob cell = true) data ->
  decode (encode ts (WalInsert id data txn_id) ++ rest) WAL_VERSION = Invalid.
Proof.
  intros Hid [Hsize Hcells] Htxn Hne Hlen Hblob.
  unfold len in Hlen. rewrite <-(record_body_length ts) in Hlen.
  unfold WalRecord_to_bytes, record_body in *.
  destruct (Z.eqb_spec txn_id 0) as [|_]; [done|]. cbn [negb] in *.
  set (data_buf := to_le 8 id ++ to_le 8 txn_id ++ write_row data) in *.
  assert (unsigned 4 (len data_buf)) as Hn.
  { apply unsigned_len. cbn [length] in Hlen. rewrite !length_app, !to_le_length in Hlen.
    unfold len. lia. }
  set (crc := to_le 4 _). rewrite <-app_assoc.
  assert (forall tail, (RECORD_INSERT_TXN :: to_le 8 ts ++ to_le 4 (len data_buf) ++ data_buf) ++ tail
            = (RECORD_INSERT_TXN :: to_le 8 ts ++ to_le 4 (len data_buf)) ++ data_buf ++ tail) as ->
    by (intros; cbn [app]; by rewrite <-!app_assoc).
  rewrite decode_header by done. unfold len. rewrite Nat2Z.id, take_app_length. case_goal; [done|].
  unfold data_buf, read_data, read_insert_txn, RECORD_INSERT_TXN.
  unfold bind at 1. rewrite (reads_u _ 8) by done. unfold bind at 1. rewrite (reads_u _ 8) by done.
  unfold bind. rewrite <-(app_nil_r (write_row data)). by rewrite read_row_blob.
Qed.


(** A damaged length is not always reported: an INSERT whose length field is too small
    for its row id makes the decoder panic, because the record is parsed before its
    checksum is compared. *)
Theorem short_insert_panics ts n tail version :
  0 <= n < 8 -> n <= len tail ->
  decode ((RECORD_INSERT :: to_le 8 ts ++ to_le 4 n) ++ tail) version = Panic.
Proof.
  intros Hn Hle. rewrite decode_header by (unfold unsigned; change (width 4) with 4294967296; lia).
  destruct (Z.leb_spec n (len tail)); [|lia]. cbn [negb].
  unfold read_data, RECORD_INSERT, read_insert, bind, read_u, bind, next.
  unfold len in *. rewrite length_take.
  destruct (Z.leb_spec 8 (Z.of_nat (Z.to_nat n `min` length tail))); [lia|done].
Qed.
End roundtrip.

(** ** A concrete checksum *)

Module WalConcrete.
(** One byte of CRC-32 (IEEE, reflected), bit by bit. *)
Fixpoint crc_bits (n : nat) (c : Z) : Z :=
  match n with
  | O => c
  | S n => crc_bits n (if Z.odd c then Z.lxor (Z.shiftr c 1) 3988292384 else Z.shiftr c 1)
  end.

Definition crc32 (bytes : list Z) : Z :=
  Z.lxor (fold_left (fun c b => crc_bits 8 (Z.lxor c b)) bytes 4294967295) 4294967295 mod width 4.

(** JSON reduced to one document. *)
Definition json_text (_ : unit) : list Z := string_bytes "null".
Definition json_parse (_ : list Z) : option unit := Some tt.

Lemma crc32_range bytes : unsigned 4 (crc32 bytes).
Proof. unfold crc32, unsigned. apply Z.mod_pos_bound. done. Qed.

Lemma json_roundtrip j : json_parse (json_text j) = Some j.
Proof. by destruct j. Qed.

Example crc32_check : crc32 (string_bytes "123456789") = 3421780262.
Proof. reflexivity. Qed.

Definition row : Row := {[ "k" := CInt64 (-7); "v" := CFixedList [1; 2] ]}.

Lemma map_Forall_cells (P : string -> ColumnValue -> Prop) (cells : list (string * ColumnValue))
    (r : gmap string ColumnValue) :
  map_to_list r = cells -> Forall (fun c => P c.1 c.2) cells -> map_Forall P r.
Proof.
  intros Hr Hall name v Hv. apply elem_of_map_to_list in Hv. rewrite Hr in Hv.
  apply list_elem_of_In in Hv. exact (proj1 (List.Forall_forall _ _) Hall _ Hv).
Qed.

Lemma insert_row_fits : record_fits json_text (WalInsert (J:=unit) 5 row 1).
Proof.
  split_and!; [vm_compute; reflexivity|done..|].
  split; [done|]. apply (map_Forall_cells _ [("k", CInt64 (-7)); ("v", CFixedList [1; 2])]); [done|].
  repeat apply List.Forall_cons; try apply List.Forall_nil; by repeat split.
Qed.

Lemma insert_row_ok : record_ok json_text (WalInsert (J:=unit) 5 row 1).
Proof. apply record_fits_ok; [exact insert_row_fits|vm_compute; reflexivity]. Qed.

(** A row with a BLOB. *)
Definition blob_row : Row := {[ "b" := CBlob [255] ]}.

Lemma blob_row_fits : record_fits json_text (WalInsert (J:=unit) 5 blob_row 3).
Proof.
  split_and!; [vm_compute; reflexivity|done..|].
  split; [done|]. apply (map_Forall_cells _ [("b", CBlob [255])]); [done|].
  repeat apply List.Forall_cons; try apply List.Forall_nil; by repeat split.
Qed.
End WalConcrete.


Lemma short_insert_panics_witness :
  from_bytes_versioned WalConcrete.json_parse WalConcrete.crc32
    ((RECORD_INSERT :: to_le 8 100 ++ to_le 4 3) ++ [0; 0; 0; 0; 0; 0; 0]) WAL_VERSION = Panic.
Proof.
  apply (short_insert_panics WalConcrete.json_parse WalConcrete.crc32 100 3
    [0; 0; 0; 0; 0; 0; 0] WAL_VERSION); [lia|done].
Defined.
