(* ===== verification/WalLog.v ===== *)
(** * Write-ahead log: writer, reader, crashes

    Models [WalWriter], [WalReader] and [ConcurrentWalWriter] of
    [storage/incremental.rs].  A file is its bytes; the writer's [BufWriter] (64 KiB, the
    capacity off Windows) is modelled, so bytes are in the buffer, in the file, or
    durable.  A crash keeps a prefix of the file that includes the durable bytes; I/O
    errors are not modelled.  Timestamps are arguments. *)
From S2P Require Import Prelude Bytes Float Values WalFormat.
Local Open Scope Z_scope.
Local Open Scope apex_scope.

Record WalWriter := mkWalWriter {
  ww_file : list Z;                                   (* handed to the operating system *)
  ww_buffer : list Z;                                 (* in the [BufWriter] *)
  ww_record_count : Z;
}.

Definition BUFFER_CAPACITY : Z := 64 * 1024.

(** [BufWriter::flush] *)
Definition WalWriter_flush (w : WalWriter) : WalWriter :=
  mkWalWriter (ww_file w ++ ww_buffer w) [] (ww_record_count w).

(** [BufWriter::write_all] *)
Definition write_all (w : WalWriter) (bytes : list Z) : WalWriter :=
  let spare (w : WalWriter) := BUFFER_CAPACITY - len (ww_buffer w) in
  if len bytes <? spare w then mkWalWriter (ww_file w) (ww_buffer w ++ bytes) (ww_record_count w)
  else
    let w := if spare w <? len bytes then WalWriter_flush w else w in
    if BUFFER_CAPACITY <=? len bytes
    then mkWalWriter (ww_file w ++ bytes) (ww_buffer w) (ww_record_count w)
    else mkWalWriter (ww_file w) (ww_buffer w ++ bytes) (ww_record_count w).

Definition count_record (w : WalWriter) : WalWriter :=
  mkWalWriter (ww_file w) (ww_buffer w) (ww_record_count w + 1).

Definition wal_header (start_id : Z) : list Z :=
  WAL_MAGIC ++ to_le 4 WAL_VERSION ++ to_le 8 start_id ++ to_le 4 0.

(** The file is truncated, then the header is written and flushed. *)
Definition WalWriter_create (start_id : Z) : WalWriter :=
  let w := mkWalWriter [] [] 0 in
  let w := write_all w WAL_MAGIC in
  let w := write_all w (to_le 4 WAL_VERSION) in
  let w := write_all w (to_le 8 start_id) in
  let w := write_all w (to_le 4 0) in
  WalWriter_flush w.

(** Opens at the end of the file; the record count is an estimate. *)
Definition WalWriter_open (file : list Z) : Result WalWriter :=
  if len file <? WAL_HEADER_SIZE then Err UnexpectedEof
  else if negb (bool_decide (take 8 file = WAL_MAGIC)) then Err InvalidData
  else
    let end_pos := len file in
    let record_count :=
      if WAL_HEADER_SIZE <? end_pos then (end_pos - WAL_HEADER_SIZE) / 100 else 0 in
    Ok (mkWalWriter file [] record_count).

Definition needs_compaction (w : WalWriter) (threshold : Z) : bool := threshold <=? ww_record_count w.

Section log.
Context {J : Type} (json_to_string : J -> list Z) (json_from_slice : list Z -> option J)
  (crc32 : list Z -> Z).
Implicit Types (w : WalWriter) (r : WalRecord J).

Definition WalWriter_append w (timestamp : Z) r : WalWriter :=
  count_record (write_all w (WalRecord_to_bytes json_to_string crc32 timestamp r)).

(** One row, serialized without building a record. *)
Definition append_row w (timestamp id : Z) (data : Row) : WalWriter :=
  let buf := RECORD_INSERT :: to_le 8 timestamp in
  let data_buf := to_le 8 id ++ to_le 4 (Z.of_nat (size data)) in
  let data_buf :=
    fold_left (fun data_buf (cell : string * ColumnValue) =>
      let name_bytes := string_bytes cell.1 in
      let data_buf := data_buf ++ to_le 2 (len name_bytes) ++ name_bytes in
      data_buf ++
      match cell.2 with
      | CNull => [0]
      | CBool b => [1; if b then 1 else 0]
      | CInt64 v => 2 :: to_le 8 v
      | CFloat64 v => 3 :: to_le 8 v
      | CString s => 4 :: to_le 4 (len (string_bytes s)) ++ string_bytes s
      | CBinary b => 5 :: to_le 4 (len b) ++ b
      | CBlob b => 6 :: to_le 4 (len b) ++ b
      | CFixedList b => 5 :: to_le 4 (len b) ++ b
      end) (map_to_list data) data_buf in
  let buf := buf ++ to_le 4 (len data_buf) ++ data_buf in
  count_record (write_all w (buf ++ to_le 4 (crc32 buf))).

(** ** The reader *)

Record WalReader := mkWalReader { wr_data : list Z; wr_pos : Z; wr_version : Z }.

(** The argument is the file's content, [None] when there is no file. *)
Definition WalReader_open (file : option (list Z)) : Result WalReader :=
  match file with
  | None => Ok (mkWalReader [] WAL_HEADER_SIZE WAL_VERSION)
  | Some data =>
      if (WAL_HEADER_SIZE <=? len data) && bool_decide (take 8 data = WAL_MAGIC) then
        Ok (mkWalReader data WAL_HEADER_SIZE (u_from_le (take 4 (drop 8 data))))
      else if len data =? 0 then Ok (mkWalReader [] WAL_HEADER_SIZE WAL_VERSION)
      else Err InvalidData
  end.

(** The loop of [read_all_with_offsets]; a record takes at least 13 bytes, so the length of
    what is left bounds the iterations ([read_records_fuel]). *)
Fixpoint read_records (fuel : nat) (version pos : Z) (bytes : list Z)
    : Outcome (list (Z * WalRecord J)) :=
  match fuel with
  | O => Panic
  | S fuel =>
      match bytes with
      | [] => Done []
      | _ =>
          match from_bytes_versioned json_from_slice crc32 bytes version with
          | Done (record, n) =>
              outcome_bind (read_records fuel version (pos + n) (drop (Z.to_nat n) bytes))
                (fun records => Done ((pos, record) :: records))
          | Invalid => Done []
          | Panic => Panic
          end
      end
  end.

Definition read_all_with_offsets (rd : WalReader) : Outcome (list (Z * WalRecord J)) :=
  let bytes := drop (Z.to_nat (wr_pos rd)) (wr_data rd) in
  read_records (S (length bytes)) (wr_version rd) (wr_pos rd) bytes.

Definition read_all (rd : WalReader) : Outcome (list (WalRecord J)) :=
  outcome_bind (read_all_with_offsets rd) (fun records => Done records.*2).

Definition WalReader_start_id (rd : WalReader) : Z :=
  if WAL_HEADER_SIZE <=? len (wr_data rd) then u_from_le (take 8 (drop 12 (wr_data rd))) else 0.

(** ** Runs of a writer

    [log_run start_id w durable records synced]: [w] is the state of a writer created
    with [start_id] to which [records] have been appended; [durable] bytes of its file
    survive any crash, and the first [synced] records were appended before the last
    [sync]. *)
Inductive log_run (start_id : Z) : WalWriter -> nat -> list (Z * WalRecord J) -> nat -> Prop :=
| run_create : log_run start_id (WalWriter_create start_id) 0 [] 0
| run_append w durable records synced ts r :
    log_run start_id w durable records synced -> record_ok json_to_string r ->
    log_run start_id (WalWriter_append w ts r) durable (records ++ [(ts, r)]) synced
| run_append_row w durable records synced ts id data :
    log_run start_id w durable records synced ->
    record_ok json_to_string (WalInsert id data 0) ->
    log_run start_id (append_row w ts id data) durable (records ++ [(ts, WalInsert id data 0)]) synced
| run_flush w durable records synced :
    log_run start_id w durable records synced ->
    log_run start_id (WalWriter_flush w) durable records synced
| run_sync w durable records synced :
    log_run start_id w durable records synced ->
    log_run start_id (WalWriter_flush w) (length (ww_file (WalWriter_flush w))) records (length records).

(** What a crash can leave of the file. *)
Definition crash_image w (durable : nat) (file : list Z) : Prop :=
  exists n, (durable <= n)%nat /\ file = take n (ww_file w).

(** The records of a log with the offsets they start at. *)
Fixpoint log_offsets (pos : Z) (records : list (Z * WalRecord J)) : list (Z * WalRecord J) :=
  match records with
  | [] => []
  | (ts, r) :: records =>
      (pos, wire r) :: log_offsets (pos + len (WalRecord_to_bytes json_to_string crc32 ts r)) records
  end.

Definition log_bytes (records : list (Z * WalRecord J)) : list Z :=
  records ≫= fun tr => WalRecord_to_bytes json_to_string crc32 tr.1 tr.2.
End log.

(** ** The concurrent writer: a queue in front of the file *)

Section concurrent.
Context {J : Type} (json_to_string : J -> list Z) (crc32 : list Z -> Z).

Record ConcurrentWalWriter := mkConcurrentWal {
  cwl_file : list Z;
  cwl_buffer : list (WalRecord J);
  cwl_flush_threshold : Z;
  cwl_pending_count : Z;
  cwl_total_written : Z;
  cwl_shutdown : bool;
}.

Definition ConcurrentWal_create (flush_threshold : Z) : ConcurrentWalWriter :=
  mkConcurrentWal (wal_header 0) [] flush_threshold 0 0 false.

Definition ConcurrentWal_flush (c : ConcurrentWalWriter) (timestamp : Z) : ConcurrentWalWriter :=
  match cwl_buffer c with
  | [] => c
  | pending =>
      let count := len pending in
      mkConcurrentWal
        (cwl_file c ++ (pending ≫= WalRecord_to_bytes json_to_string crc32 timestamp)) []
        (cwl_flush_threshold c) (wrap64 (cwl_pending_count c - count))
        (wrap64 (cwl_total_written c + count)) (cwl_shutdown c)
  end.

Definition ConcurrentWal_push (c : ConcurrentWalWriter) (records : list (WalRecord J)) : ConcurrentWalWriter :=
  mkConcurrentWal (cwl_file c) (cwl_buffer c ++ records) (cwl_flush_threshold c)
    (wrap64 (cwl_pending_count c + len records)) (cwl_total_written c) (cwl_shutdown c).

Definition ConcurrentWal_append (c : ConcurrentWalWriter) (timestamp : Z) (record : WalRecord J)
    : ConcurrentWalWriter :=
  let c := if cwl_flush_threshold c <=? len (cwl_buffer c) then ConcurrentWal_flush c timestamp else c in
  ConcurrentWal_push c [record].

Definition ConcurrentWal_append_batch (c : ConcurrentWalWriter) (timestamp : Z)
    (records : list (WalRecord J)) : ConcurrentWalWriter :=
  match records with
  | [] => c
  | _ =>
      let c := if cwl_flush_threshold c <=? len (cwl_buffer c) + len records
               then ConcurrentWal_flush c timestamp else c in
      ConcurrentWal_push c records
  end.
End concurrent.
Arguments ConcurrentWalWriter J : clear implicits.

(** ** The writer keeps every byte *)

Definition contents (w : WalWriter) : list Z := ww_file w ++ ww_buffer w.

Lemma flush_contents w : ww_file (WalWriter_flush w) = contents w.
Proof. done. Qed.

Lemma write_all_spec w bytes :
  contents (write_all w bytes) = contents w ++ bytes /\
  exists more, ww_file (write_all w bytes) = ww_file w ++ more.
Proof.
  unfold contents, write_all. repeat case_goal; cbn [ww_file ww_buffer WalWriter_flush];
    rewrite <-?app_assoc; eauto; split; eauto; try by (exists []; rewrite app_nil_r).
  - by rewrite app_nil_r.
  - (* the whole capacity at once, without a flush: the buffer was empty *)
    zb. unfold len in *. destruct (ww_buffer w); [|cbn [length] in *; lia].
    by rewrite app_nil_r.
Qed.

Lemma create_contents start_id : ww_file (WalWriter_create start_id) = wal_header start_id.
Proof.
  unfold WalWriter_create. rewrite flush_contents.
  rewrite !(fun w b => proj1 (write_all_spec w b)). unfold wal_header. cbn [contents ww_file ww_buffer app].
  by rewrite <-!app_assoc.
Qed.

Lemma wal_header_length start_id : length (wal_header start_id) = 24%nat.
Proof. unfold wal_header. rewrite !length_app, !to_le_length. done. Qed.

Lemma fold_left_app {A} (g : list Z -> A -> list Z) (f : A -> list Z) l acc :
  (forall acc x, g acc x = acc ++ f x) -> fold_left g l acc = acc ++ (l ≫= f).
Proof.
  intros Hg. revert acc. induction l as [|x l IH]; intros acc; cbn [fold_left]; [by rewrite app_nil_r|].
  rewrite IH, bind_cons, Hg. by rewrite <-app_assoc.
Qed.

Section theory.
Context {J : Type} (json_to_string : J -> list Z) (json_from_slice : list Z -> option J)
  (crc32 : list Z -> Z).
Implicit Types (w : WalWriter) (r : WalRecord J) (records : list (Z * WalRecord J)).
Hypothesis json_roundtrip : forall j, json_from_slice (json_to_string j) = Some j.
Hypothesis crc32_range : forall bytes, unsigned 4 (crc32 bytes).

Local Abbreviation append := (WalWriter_append json_to_string crc32).
Local Abbreviation encode := (WalRecord_to_bytes json_to_string crc32).
Local Abbreviation offsets := (log_offsets json_to_string crc32).
Local Abbreviation bytes_of := (log_bytes json_to_string crc32).
Local Abbreviation loop := (read_records json_from_slice crc32).

Lemma append_row_append w ts id data :
  append_row crc32 w ts id data = append w ts (WalInsert id data 0).
Proof.
  unfold append_row, WalWriter_append, WalRecord_to_bytes. cbn [record_body Z.eqb negb].
  rewrite (fold_left_app _ write_cell).
  - unfold write_row. by rewrite <-!app_assoc.
  - intros acc [name v]. unfold write_cell, write_name. rewrite <-!app_assoc. by destruct v.
Qed.

(** ** Reading a log back *)

Lemma encode_at_least_13 ts r : (13 <= length (encode ts r))%nat.
Proof.
  unfold WalRecord_to_bytes. rewrite length_app.
  enough (13 <= length (record_body json_to_string ts r))%nat by lia.
  unfold record_body. destruct r; try case_goal; cbn [length];
    rewrite !length_app, !to_le_length; lia.
Qed.

Lemma bytes_of_snoc records ts r : bytes_of (records ++ [(ts, r)]) = bytes_of records ++ encode ts r.
Proof. unfold log_bytes. rewrite bind_app. cbn. by rewrite app_nil_r. Qed.

Lemma bytes_of_cons records ts r : bytes_of ((ts, r) :: records) = encode ts r ++ bytes_of records.
Proof. done. Qed.

(** Reading a log cut at byte [n] returns its first [k] records: those that are whole. *)
Lemma read_cut records pos n fuel :
  Forall (fun tr => record_ok json_to_string tr.2) records ->
  (length (take n (bytes_of records)) < fuel)%nat ->
  exists k, loop fuel WAL_VERSION pos (take n (bytes_of records)) = Done (take k (offsets pos records)) /\
    (k <= length records)%nat /\
    (forall j, (j <= length records)%nat -> (length (bytes_of (take j records)) <= n)%nat -> (j <= k)%nat).
Proof.
  revert pos n fuel. induction records as [|[ts r] records IH]; intros pos n fuel Hok Hfuel.
  { exists O. change (bytes_of []) with (@nil Z) in *. rewrite take_nil in *.
    destruct fuel as [|fuel]; [simpl in *; lia|]. split_and!; [done..|]. simpl. lia. }
  apply Forall_cons_1 in Hok as [Hr Hok]. rewrite bytes_of_cons in *. simpl in Hr.
  destruct fuel as [|fuel]; [lia|]. pose proof (encode_at_least_13 ts r) as H13.
  destruct (decide (n < length (encode ts r))%nat) as [Hlt|Hge].
  - exists O. rewrite take_app_le by lia. cbn [read_records].
    destruct (take n (encode ts r)) as [|b bs] eqn:Ht; rewrite <-?Ht.
    + split_and!; [done|lia|]. intros [|j] Hj; [lia|]. cbn [take]. rewrite bytes_of_cons, length_app. lia.
    + rewrite (decode_torn json_to_string json_from_slice crc32 json_roundtrip ts r n Hr Hlt).
      split_and!; [done|lia|]. intros [|j] Hj; [lia|]. cbn [take]. rewrite bytes_of_cons, length_app. lia.
  - replace n with (length (encode ts r) + (n - length (encode ts r)))%nat in * by lia.
    set (m := (n - length (encode ts r))%nat) in *. rewrite take_app_add in *.
    destruct (IH (pos + len (encode ts r)) m fuel Hok) as (k & Hk & Hle & Hmax).
    { rewrite length_app in Hfuel. lia. }
    exists (S k). cbn [read_records].
    destruct (encode ts r ++ take m (bytes_of records)) as [|b bs] eqn:Ht.
    { apply (f_equal length) in Ht. rewrite length_app in Ht. simpl in Ht. lia. }
    rewrite <-Ht, (decode_encode json_to_string json_from_slice crc32 json_roundtrip crc32_range ts r _ Hr).
    unfold len at 2. rewrite Nat2Z.id, drop_app_length, Hk. cbn [outcome_bind log_offsets take].
    split_and!; [done|simpl; lia|]. intros [|j] Hj; [lia|]. cbn [take]. rewrite bytes_of_cons, length_app.
    intros Hbytes. cbn [length] in Hj. specialize (Hmax j). lia.
Qed.

(** ** Runs of the writer *)

Lemma reader_opens start_id rest :
  WalReader_open (Some (wal_header start_id ++ rest)) =
  Ok (mkWalReader (wal_header start_id ++ rest) WAL_HEADER_SIZE WAL_VERSION).
Proof.
  unfold WalReader_open, len. rewrite length_app, wal_header_length.
  destruct (Z.leb_spec WAL_HEADER_SIZE (Z.of_nat (24 + length rest))); [|unfold WAL_HEADER_SIZE in *; lia].
  reflexivity.
Qed.

Lemma read_log start_id records n :
  Forall (fun tr => record_ok json_to_string tr.2) records -> (24 <= n)%nat ->
  exists rd k,
    WalReader_open (Some (take n (wal_header start_id ++ bytes_of records))) = Ok rd /\
    read_all_with_offsets json_from_slice crc32 rd = Done (take k (offsets WAL_HEADER_SIZE records)) /\
    (k <= length records)%nat /\
    (forall j, (j <= length records)%nat -> (24 + length (bytes_of (take j records)) <= n)%nat -> (j <= k)%nat).
Proof.
  intros Hok Hn. replace n with (length (wal_header start_id) + (n - 24))%nat
    by (rewrite wal_header_length; lia).
  rewrite take_app_add.
  destruct (read_cut records WAL_HEADER_SIZE (n - 24)
              (S (length (take (n - 24) (bytes_of records)))) Hok) as (k & Hk & Hle & Hmax); [lia|].
  eexists _, k. split_and!; [apply reader_opens| |done|].
  - unfold read_all_with_offsets. cbn [wr_pos wr_data wr_version].
    rewrite drop_app_length' by (rewrite wal_header_length; done). exact Hk.
  - intros j Hj Hbytes. apply Hmax; [done|]. rewrite wal_header_length in Hbytes. lia.
Qed.

Record run_inv start_id w (durable : nat) records (synced : nat) : Prop := {
  ri_contents : contents w = wal_header start_id ++ bytes_of records;
  ri_durable : (durable <= length (ww_file w))%nat;
  ri_synced : (synced <= length records)%nat;
  ri_prefix : synced = O \/ (24 + length (bytes_of (take synced records)) <= durable)%nat;
  ri_ok : Forall (fun tr => record_ok json_to_string tr.2) records;
}.

Lemma run_inv_append start_id w durable records synced ts r :
  run_inv start_id w durable records synced -> record_ok json_to_string r ->
  run_inv start_id (append w ts r) durable (records ++ [(ts, r)]) synced.
Proof.
  intros [Hc Hd Hs Hp Hok] Hr. destruct (write_all_spec w (encode ts r)) as [Hw [more Hfile]].
  unfold WalWriter_append. split.
  - unfold contents in *. cbn [ww_file ww_buffer count_record]. rewrite Hw, Hc, bytes_of_snoc.
    by rewrite <-app_assoc.
  - cbn [ww_file count_record]. rewrite Hfile, length_app. lia.
  - rewrite length_app. lia.
  - rewrite take_app_le by done. done.
  - apply Forall_app. by split; [|constructor].
Qed.

Lemma run_invariant start_id w durable records synced :
  log_run json_to_string crc32 start_id w durable records synced ->
  run_inv start_id w durable records synced.
Proof.
  induction 1 as [|w durable records synced ts r _ IH Hr|w durable records synced ts id data _ IH Hr
                  |w durable records synced _ [Hc Hd Hs Hp Hok]|w durable records synced _ [Hc Hd Hs Hp Hok]].
  - split; [|simpl; lia|simpl; lia|by left|by constructor].
    unfold contents. rewrite create_contents. reflexivity.
  - by apply run_inv_append.
  - rewrite append_row_append. by apply run_inv_append.
  - split; [| |done..]; unfold contents in *; cbn [ww_file ww_buffer WalWriter_flush].
    + by rewrite app_nil_r.
    + rewrite length_app. lia.
  - split; [| | | |done]; unfold contents in *; cbn [ww_file ww_buffer WalWriter_flush].
    + by rewrite app_nil_r.
    + done.
    + done.
    + right. rewrite take_ge, Hc, length_app, wal_header_length by done. lia.
Qed.


Lemma reader_start_id start_id rest :
  unsigned 8 start_id ->
  WalReader_start_id (mkWalReader (wal_header start_id ++ rest) WAL_HEADER_SIZE WAL_VERSION) = start_id.
Proof.
  intros Hs. unfold WalReader_start_id. cbn [wr_data]. unfold len. rewrite length_app, wal_header_length.
  destruct (Z.leb_spec WAL_HEADER_SIZE (Z.of_nat (24 + length rest))); [|unfold WAL_HEADER_SIZE in *; lia].
  change (drop 12 (wal_header start_id ++ rest)) with (to_le 8 start_id ++ to_le 4 0 ++ rest).
  rewrite take_app_length' by by rewrite to_le_length. by apply u_from_to_le.
Qed.

Lemma log_offsets_records pos records : (offsets pos records).*2 = wire <$> records.*2.
Proof.
  revert pos. induction records as [|[ts r] records IH]; intros pos; [done|].
  cbn [log_offsets]. rewrite !fmap_cons. cbn [snd]. by rewrite IH.
Qed.

Lemma log_offsets_length pos records : length (offsets pos records) = length records.
Proof. by rewrite <-(length_fmap snd), log_offsets_records, !length_fmap. Qed.

(** Nothing is lost without a crash: after a flush the file replays to every record
    appended, in order, and gives back the id the log was created with. *)
Theorem wal_replays_flushed_log start_id w durable records synced :
  unsigned 8 start_id ->
  log_run json_to_string crc32 start_id w durable records synced ->
  exists rd, WalReader_open (Some (ww_file (WalWriter_flush w))) = Ok rd /\
    WalReader_start_id rd = start_id /\
    read_all json_from_slice crc32 rd = Done (wire <$> records.*2).
Proof.
  intros Hid [Hc _ _ _ Hok]%run_invariant. rewrite flush_contents, Hc.
  destruct (read_log start_id records (length (wal_header start_id ++ bytes_of records)) Hok)
    as (rd & k & Hrd & Hread & Hle & Hmax); [rewrite length_app, wal_header_length; lia|].
  rewrite take_ge in Hrd by done. exists rd. split; [done|].
  rewrite reader_opens in Hrd. injection Hrd as <-. split; [by apply reader_start_id|].
  unfold read_all. rewrite Hread. cbn [outcome_bind]. rewrite take_ge, log_offsets_records; [done|].
  rewrite log_offsets_length. apply Hmax; [done|].
  rewrite take_ge, length_app, wal_header_length by done. lia.
Qed.

(** Empty log, two readings. *)
Lemma open_short_log file :
  len file < WAL_HEADER_SIZE -> WalWriter_open file = Err UnexpectedEof.
Proof. unfold WalWriter_open. intros H. by destruct (Z.ltb_spec (len file) WAL_HEADER_SIZE); [|lia]. Qed.

(** A crash while a log is being created (its file exists and is still shorter than the
    header) leaves a log that recovery reads as empty when no byte was written, but that
    can no longer be opened for writing. *)
Theorem interrupted_create_blocks_writer start_id n :
  (n < 24)%nat ->
  WalWriter_open (take n (wal_header start_id)) = Err UnexpectedEof /\
  WalReader_open (Some (take 0 (wal_header start_id))) =
    Ok (mkWalReader [] WAL_HEADER_SIZE WAL_VERSION).
Proof.
  intros Hn. split; [|done]. apply open_short_log.
  unfold len, WAL_HEADER_SIZE. rewrite length_take, wal_header_length. lia.
Qed.
End theory.

(** ** The loop's fuel *)

Section fuel.
Context {J : Type} (json_from_slice : list Z -> option J) (crc32 : list Z -> Z).

Lemma decode_advances bytes version (r : WalRecord J) n :
  Forall is_byte bytes ->
  from_bytes_versioned json_from_slice crc32 bytes version = Done (r, n) -> 13 <= n.
Proof.
  intros Hb. unfold from_bytes_versioned. destruct bytes as [|b bytes]; [done|].
  case_goal; [done|]. cbn zeta. set (m := u_from_le _).
  assert (0 <= m) as Hm.
  { unfold m, u_from_le. apply le_bytes_value_range. apply Forall_take, Forall_drop, Hb. }
  case_goal; [done|]. unfold outcome_bind. destruct (read_data _ _ _) as [[rec rest]| |]; [|done..].
  repeat case_goal; intros H; simplify_eq; lia.
Qed.

(** More fuel than there are bytes changes nothing, so [read_all_with_offsets] always ends
    with the loop's own verdict. *)
Lemma read_records_fuel f1 f2 version pos bytes :
  Forall is_byte bytes -> (length bytes < f1)%nat -> (length bytes < f2)%nat ->
  read_records json_from_slice crc32 f1 version pos bytes =
  read_records json_from_slice crc32 f2 version pos bytes.
Proof.
  revert f2 pos bytes. induction f1 as [|f1 IH]; intros [|f2] pos bytes Hb H1 H2; [lia..|].
  cbn [read_records]. destruct bytes as [|b bytes]; [done|].
  destruct (from_bytes_versioned _ _ _ _) as [[r n]| |] eqn:Hd; [|done..].
  apply decode_advances in Hd; [|done].
  rewrite (IH f2); [done|by apply Forall_drop|rewrite length_drop; cbn [length] in *; lia..].
Qed.
End fuel.

(** ** The concurrent writer *)

Section concurrent_theory.
Context {J : Type} (json_to_string : J -> list Z) (crc32 : list Z -> Z).
Local Abbreviation bytes_of := (log_bytes json_to_string crc32).

Inductive ConcurrentOp :=
| OpAppend (timestamp : Z) (record : WalRecord J)
| OpAppendBatch (timestamp : Z) (records : list (WalRecord J))
| OpFlush (timestamp : Z).

Definition run_op (c : ConcurrentWalWriter J) (op : ConcurrentOp) : ConcurrentWalWriter J :=
  match op with
  | OpAppend ts r => ConcurrentWal_append json_to_string crc32 c ts r
  | OpAppendBatch ts rs => ConcurrentWal_append_batch json_to_string crc32 c ts rs
  | OpFlush ts => ConcurrentWal_flush json_to_string crc32 c ts
  end.

Definition op_records (op : ConcurrentOp) : list (WalRecord J) :=
  match op with OpAppend _ r => [r] | OpAppendBatch _ rs => rs | OpFlush _ => [] end.

(** The queue and the file hold the records handed over, in order and once. *)
Definition concurrent_inv (c : ConcurrentWalWriter J) (records : list (WalRecord J)) : Prop :=
  exists written,
    cwl_file c = wal_header 0 ++ bytes_of written /\
    written.*2 ++ cwl_buffer c = records /\
    cwl_pending_count c = wrap64 (len (cwl_buffer c)) /\
    cwl_total_written c = wrap64 (len written).

Lemma wrap64_add a b : wrap64 (wrap64 a + b) = wrap64 (a + b).
Proof. unfold wrap64. apply Z.add_mod_idemp_l. done. Qed.

Lemma flush_inv c ts records :
  concurrent_inv c records ->
  concurrent_inv (ConcurrentWal_flush json_to_string crc32 c ts) records /\
  cwl_buffer (ConcurrentWal_flush json_to_string crc32 c ts) = [].
Proof.
  intros (written & Hf & Hr & Hp & Ht). unfold ConcurrentWal_flush.
  destruct (cwl_buffer c) as [|r0 rs] eqn:Hb; [split; [exists written; by rewrite Hb|done]|].
  split; [|done]. exists (written ++ ((fun r => (ts, r)) <$> r0 :: rs)).
  cbn [cwl_file cwl_buffer cwl_pending_count cwl_total_written]. split_and!.
  - rewrite Hf, <-app_assoc. f_equal. unfold log_bytes. rewrite bind_app. f_equal.
    generalize (r0 :: rs). induction l as [|r l IH]; [done|]. rewrite fmap_cons, !bind_cons. by rewrite IH.
  - rewrite fmap_app, <-list_fmap_compose, app_nil_r. rewrite <-Hr. f_equal. by apply list_fmap_id.
  - rewrite Hp, ?Hb. unfold Z.sub. rewrite wrap64_add. f_equal. unfold len. cbn [length]. lia.
  - rewrite Ht, wrap64_add. f_equal. unfold len. rewrite length_app, length_fmap. cbn [length]. lia.
Qed.

Lemma push_inv c more records :
  concurrent_inv c records -> concurrent_inv (ConcurrentWal_push c more) (records ++ more).
Proof.
  intros (written & Hf & <- & Hp & Ht). exists written.
  cbn [ConcurrentWal_push cwl_file cwl_buffer cwl_pending_count cwl_total_written]. split_and!; [done| | |done].
  - by rewrite app_assoc.
  - rewrite Hp, wrap64_add. f_equal. unfold len. rewrite length_app. lia.
Qed.

Lemma run_op_inv c op records :
  concurrent_inv c records -> concurrent_inv (run_op c op) (records ++ op_records op).
Proof.
  intros Hc. destruct op as [ts r|ts [|r rs]|ts]; cbn [run_op op_records].
  - unfold ConcurrentWal_append. apply push_inv. case_goal; [by apply flush_inv|done].
  - by rewrite app_nil_r.
  - unfold ConcurrentWal_append_batch. apply push_inv. case_goal; [by apply flush_inv|done].
  - rewrite app_nil_r. by apply flush_inv.
Qed.

(** The queueing writer neither drops, repeats nor reorders a record: after any calls
    and a flush, the file holds every record handed over, in order, nothing is pending
    and the counter says how many were written. *)
Theorem concurrent_wal_fifo threshold ops ts :
  let c := ConcurrentWal_flush json_to_string crc32
             (fold_left run_op ops (ConcurrentWal_create threshold)) ts in
  exists written,
    cwl_file c = wal_header 0 ++ bytes_of written /\
    written.*2 = ops ≫= op_records /\
    cwl_buffer c = [] /\ cwl_pending_count c = 0 /\
    cwl_total_written c = wrap64 (len (ops ≫= op_records)).
Proof.
  intros c. assert (concurrent_inv (fold_left run_op ops (ConcurrentWal_create threshold)) (ops ≫= op_records)) as Hinv.
  { enough (forall c records, concurrent_inv c records ->
              concurrent_inv (fold_left run_op ops c) (records ++ (ops ≫= op_records))) as H.
    { apply (H _ []). exists []. by rewrite app_nil_r. }
    induction ops as [|op ops IH]; intros c' records Hc; [by rewrite app_nil_r|].
    cbn [fold_left]. rewrite bind_cons, app_assoc. apply IH. by apply run_op_inv. }
  apply (flush_inv _ ts) in Hinv as [(written & Hf & Hr & Hp & Ht) Hb]. fold c in Hf, Hr, Hp, Ht, Hb.
  rewrite Hb, app_nil_r in Hr. exists written. split_and!; [done..|by rewrite Hp, Hb|].
  rewrite Ht, <-Hr. unfold len. by rewrite length_fmap.
Qed.
End concurrent_theory.

(** ** Concrete runs *)

Module WalRun.
Import WalConcrete.

(** A log of one committed transaction. *)
Definition log : list (Z * WalRecord unit) :=
  [(100, WalTxnBegin 1); (100, WalInsert 5 row 1); (101, WalTxnCommit 1)].

Definition writer : WalWriter :=
  fold_left (fun w tr => WalWriter_append json_text crc32 w tr.1 tr.2) log (WalWriter_create 1).

Lemma log_ok : Forall (fun tr => record_ok json_text tr.2) log.
Proof.
  repeat apply List.Forall_cons; try apply List.Forall_nil; [by split; [vm_compute|split]| |by split; [vm_compute|split]].
  exact insert_row_ok.
Qed.

Lemma log_runs : log_run json_text crc32 1 (WalWriter_flush writer) (length (ww_file (WalWriter_flush writer))) log 3.
Proof.
  pose proof log_ok as Hok. repeat apply Forall_cons_1 in Hok as [? Hok].
  apply (run_sync json_text crc32 1 writer 0 log 0).
  apply (run_append json_text crc32 1 _ 0 [(100, WalTxnBegin 1); (100, WalInsert 5 row 1)]); [|done].
  apply (run_append json_text crc32 1 _ 0 [(100, WalTxnBegin 1)]); [|done].
  apply (run_append json_text crc32 1 _ 0 []); [|done]. apply run_create.
Qed.
End WalRun.


Lemma wal_replays_flushed_log_witness :
  exists rd, WalReader_open (Some (ww_file (WalWriter_flush (WalWriter_flush WalRun.writer)))) = Ok rd /\
    WalReader_start_id rd = 1 /\
    read_all WalConcrete.json_parse WalConcrete.crc32 rd = Done (wire <$> WalRun.log.*2).
Proof.
  assert (unsigned 8 1) as Hid by done.
  exact (wal_replays_flushed_log WalConcrete.json_text WalConcrete.json_parse WalConcrete.crc32
    WalConcrete.json_roundtrip WalConcrete.crc32_range 1 _ _ _ _ Hid WalRun.log_runs).
Defined.

(** Reopening does not repair a torn tail: when a crash has cut the log inside a record,
    [WalWriter::open] appends after the fragment, and the reader stops at the fragment, so
    a transaction committed and flushed after the restart is not in the replayed log. *)
Theorem torn_tail_hides_later_commits :
  let torn := take 60 (ww_file (WalWriter_flush WalRun.writer)) in
  match WalWriter_open torn with
  | Ok w =>
      let w := WalWriter_append WalConcrete.json_text WalConcrete.crc32 w 200 (WalTxnBegin 2) in
      let w := WalWriter_append WalConcrete.json_text WalConcrete.crc32 w 200 (WalDelete 5 2) in
      let w := WalWriter_append WalConcrete.json_text WalConcrete.crc32 w 200 (WalTxnCommit 2) in
      match WalReader_open (Some (ww_file (WalWriter_flush w))) with
      | Ok rd => read_all WalConcrete.json_parse WalConcrete.crc32 rd = Done [WalTxnBegin 1]
      | Err _ => False
      end
  | Err _ => False
  end.
Proof. vm_compute. reflexivity. Qed.

Lemma interrupted_create_blocks_writer_witness :
  WalWriter_open [] = Err UnexpectedEof /\
  WalReader_open (Some []) = Ok (mkWalReader [] WAL_HEADER_SIZE WAL_VERSION).
Proof. apply (interrupted_create_blocks_writer 1 0). lia. Defined.
