(* ===== verification/WalRecovery.v ===== *)
(** * Recovery from the write-ahead log

    Models the recovery scan of [storage/on_demand/storage_core.rs]
    ([wal_applied_offset], [wal_needs_recovery], [write_wal_marker],
    [scan_wal_for_recovery] and the delta-file steps of [recover_committed_records]) and
    the records a commit writes ([execute_commit_txn] of
    [query/executor/dml/coordination.rs]).  The scan works on the records and offsets
    [WalLog] reads; which transactions are live in this process is an argument.  The
    delta file is the list of its complete batches. *)
From S2P Require Import Prelude Bytes Float Values TxnContext WalFormat WalLog.
Local Open Scope Z_scope.

(** ** The applied-watermark sidecar *)

Definition wal_applied_offset (meta : option (list Z)) (wal_len : Z) : Z :=
  match meta with
  | Some bytes =>
      if len bytes =? 8 then
        let offset := u_from_le bytes in
        if (WAL_HEADER_SIZE <=? offset) && (offset <=? wal_len) then offset else WAL_HEADER_SIZE
      else WAL_HEADER_SIZE
  | None => WAL_HEADER_SIZE
  end.

Definition wal_needs_recovery (meta : option (list Z)) (wal_len : Z) : bool :=
  if wal_len <=? WAL_HEADER_SIZE then false else negb (wal_applied_offset meta wal_len =? wal_len).

(** Returns the new sidecar; [None] for a log that does not exist. *)
Definition write_wal_marker (meta : option (list Z)) (wal_len : option Z) : option (list Z) :=
  match wal_len with
  | Some n => if WAL_HEADER_SIZE <? n then Some (to_le 8 n) else meta
  | None => meta
  end.

Section scan.
Context {J : Type}.
Local Abbreviation Record := (WalRecord J).
Implicit Types (all : list (Z * WalRecord J)).

Definition PendingUpdate : Type := Z * (Z * gmap string (Value J)).     (* offset, (row, data) *)

Record WalRecoveryScan := mkScan {
  sc_records : list Record;
  sc_uncommitted_insert_ids : gset Z;
  sc_committed_delete_ids : list Z;
  sc_committed_updates : list (Z * gmap string (Value J));
  sc_recovered_next_id : Z;
}.

Definition committed_txns (records : list Record) : gset Z :=
  list_to_set (omap (fun r => match r with WalTxnCommit t => Some t | _ => None end) records).

(** The watermark counts only when it is the end of the log or the start of a record. *)
Definition usable_offset (applied_offset wal_len : Z) all : Z :=
  if (applied_offset =? wal_len) || existsb (fun e => e.1 =? applied_offset) all
  then applied_offset else WAL_HEADER_SIZE.

Definition batch_ids (start_id : Z) (rows : list Row) : list Z :=
  (fun i => start_id + Z.of_nat i) <$> seq 0 (length rows).

Definition dead_txn (committed : gset Z) (live : Z -> bool) (txn_id : Z) : bool :=
  negb (txn_id =? 0) && negb (bool_decide (txn_id ∈ committed)) && negb (live txn_id).

Definition uncommitted_insert_ids (committed : gset Z) (live : Z -> bool) (records : list Record) : gset Z :=
  list_to_set (records ≫= fun r =>
    match r with
    | WalInsert id _ txn_id => if dead_txn committed live txn_id then [id] else []
    | WalBatchInsert start_id rows txn_id =>
        if dead_txn committed live txn_id then batch_ids start_id rows else []
    | _ => []
    end).

Definition committed_delete_ids (committed : gset Z) (live : Z -> bool) (records : list Record) : list Z :=
  omap (fun r =>
    match r with
    | WalDelete id txn_id =>
        if negb (txn_id =? 0) && bool_decide (txn_id ∈ committed) && negb (live txn_id)
        then Some id else None
    | _ => None
    end) records.

(** The loop that pairs each UPDATE with the Begin/Commit interval it is in. *)
Definition update_step (applied_offset : Z) (live : Z -> bool)
    (st : gmap Z (list PendingUpdate) * list PendingUpdate) (e : Z * Record)
    : gmap Z (list PendingUpdate) * list PendingUpdate :=
  let '(pending, committed) := st in
  match e.2 with
  | WalTxnBegin t => (<[t := []]> pending, committed)
  | WalUpdate id data t =>
      if applied_offset <=? e.1 then
        match pending !! t with
        | Some updates => (<[t := updates ++ [(e.1, (id, data))]]> pending, committed)
        | None => (pending, committed)
        end
      else (pending, committed)
  | WalTxnCommit t =>
      match pending !! t with
      | Some updates => (delete t pending, if negb (live t) then committed ++ updates else committed)
      | None => (pending, committed)
      end
  | WalTxnRollback t => (delete t pending, committed)
  | _ => (pending, committed)
  end.

Definition by_offset (a b : PendingUpdate) : Prop := a.1 <= b.1.
#[global] Instance by_offset_dec : RelDecision by_offset := fun a b => Z_le_dec a.1 b.1.

Definition committed_updates (applied_offset : Z) (live : Z -> bool) all
    : list (Z * gmap string (Value J)) :=
  let '(_, committed) := fold_left (update_step applied_offset live) all (∅, []) in
  (merge_sort by_offset committed).*2.

(** Records a reconstruction of the table replays. *)
Definition replayable (committed : gset Z) (base_next_id : Z) (r : Record) : bool :=
  let committed_or_auto txn_id := (txn_id =? 0) || bool_decide (txn_id ∈ committed) in
  match r with
  | WalInsert id _ txn_id => committed_or_auto txn_id && (base_next_id <=? id)
  | WalBatchInsert start_id rows txn_id =>
      let end_id := start_id + len rows in
      committed_or_auto txn_id && (base_next_id <? end_id)
  | WalDelete id txn_id => committed_or_auto txn_id && (id <? base_next_id)
  | _ => true
  end.

Definition max_wal_id (records : list Record) : option Z :=
  fold_left (fun m r =>
    let id := match r with
              | WalInsert id _ _ => Some id
              | WalBatchInsert start_id rows _ => Some (start_id + len rows - 1)
              | _ => None
              end in
    match id with
    | None => m
    | Some id => match m with None => Some id | Some m => Some (Z.max m id) end
    end) records None.

Definition scan_wal_for_recovery (meta : option (list Z)) (wal_len : Z) (live : Z -> bool)
    (base_next_id : Z) all : WalRecoveryScan :=
  let applied_offset := usable_offset (wal_applied_offset meta wal_len) wal_len all in
  let committed := committed_txns all.*2 in
  let records := List.filter (replayable committed base_next_id) all.*2 in
  mkScan records
    (uncommitted_insert_ids committed live all.*2)
    (committed_delete_ids committed live all.*2)
    (committed_updates applied_offset live all)
    (match max_wal_id records with Some id => id + 1 | None => base_next_id end).

(** ** The delta file *)

Fixpoint drop_while {A} (f : A -> bool) (l : list A) : list A :=
  match l with [] => [] | x :: l' => if f x then drop_while f l' else l end.

(** Step 1 of [recover_committed_records]: complete trailing batches whose rows all belong
    to uncommitted transactions are cut off. *)
Definition cut_uncommitted_batches (uncommitted : gset Z) (batches : list (list (Z * Row)))
    : list (list (Z * Row)) :=
  if bool_decide (uncommitted = ∅) then batches
  else reverse (drop_while (fun batch => forallb (fun row => bool_decide (row.1 ∈ uncommitted)) batch)
                  (reverse batches)).

(** Step 2: committed inserts of the replayed records. *)
Definition inserts_under (committed : gset Z) (live : Z -> bool) (records : list Record) : list (Z * Row) :=
  let wanted txn_id := ((txn_id =? 0) || bool_decide (txn_id ∈ committed)) && negb (live txn_id) in
  records ≫= fun r =>
    match r with
    | WalInsert id data txn_id => if wanted txn_id then [(id, data)] else []
    | WalBatchInsert start_id rows txn_id =>
        if wanted txn_id then zip (batch_ids start_id rows) rows else []
    | _ => []
    end.

Definition committed_inserts (live : Z -> bool) (records : list Record) : list (Z * Row) :=
  inserts_under (committed_txns records) live records.

(** The rows appended to the delta file.  [delta_max] is the high-water mark of the file
    (0 when there is none). *)
Definition missing_inserts (live : Z -> bool) (base_next_id delta_max : Z) (records : list Record)
    (batches : list (list (Z * Row))) : list (Z * Row) :=
  let inserts := committed_inserts live records in
  let max_insert_id := foldr Z.max 0 inserts.*1 in
  let candidates := List.filter (fun row => base_next_id <=? row.1) inserts in
  match candidates with
  | [] => []
  | _ =>
      let base_max_id := saturating_sub64 base_next_id 1 in
      if Z.max delta_max base_max_id <? max_insert_id then
        let delta_ids : gset Z := list_to_set (concat batches).*1 in
        List.filter (fun row => negb (bool_decide (row.1 ∈ delta_ids))) candidates
      else []
  end.

(** Steps 1 and 2 of [recover_committed_records]: the batches of the delta file
    afterwards. *)
Definition recover_delta (live : Z -> bool) (base_next_id delta_max : Z) (scan : WalRecoveryScan)
    (batches : list (list (Z * Row))) : list (list (Z * Row)) :=
  let kept := cut_uncommitted_batches (sc_uncommitted_insert_ids scan) batches in
  match missing_inserts live base_next_id delta_max (sc_records scan) kept with
  | [] => kept
  | missing => kept ++ [missing]
  end.

(** ** What a commit writes *)

(** [u as i64] *)
Definition as_i64_wrap (u : Z) : Z := if u <? 2 ^ 63 then u else u - 2 ^ 64.

(** The cell logged for a value of an inserted row. *)
Definition txn_wal_value (v : Value J) : ColumnValue :=
  match v with
  | VNull => CNull
  | VBool b => CBool b
  | VInt64 i => CInt64 i
  | VInt32 i => CInt64 i
  | VFloat64 f => CFloat64 f
  | VString s => CString s
  | VUInt64 u => CInt64 (as_i64_wrap u)
  | _ => CNull
  end.

Definition txn_wal_record (txn_id : Z) (w : TxnWrite (Value J)) : Record :=
  match w with
  | TxnInsert _ row_id data => WalInsert row_id (txn_wal_value <$> data) txn_id
  | TxnDelete _ row_id _ => WalDelete row_id txn_id
  | TxnUpdate _ row_id _ new_data => WalUpdate row_id new_data txn_id
  end.

(** The log records of one table, in the order the phases of a commit append them. *)
Definition txn_wal_records (txn_id : Z) (table : string) (writes : list (TxnWrite (Value J))) : list Record :=
  WalTxnBegin txn_id ::
  (txn_wal_record txn_id <$> List.filter (fun w => String.eqb (TxnWrite_table w) table) writes) ++
  [WalTxnCommit txn_id].
End scan.
Arguments WalRecoveryScan J : clear implicits.

(** ** Which updates are replayed *)

Section updates.
Context {J : Type}.
Local Abbreviation Record := (WalRecord J).
Implicit Types (all : list (Z * WalRecord J)) (acc : list (@PendingUpdate J)).

(** The first boundary of transaction [t] in the rest of the log. *)
Fixpoint next_boundary (t : Z) all : option Record :=
  match all with
  | [] => None
  | (_, (WalTxnBegin t' | WalTxnCommit t' | WalTxnRollback t') as r) :: all =>
      if t' =? t then Some r else next_boundary t all
  | _ :: all => next_boundary t all
  end.

Definition commits_next (t : Z) all : bool :=
  match next_boundary t all with Some (WalTxnCommit _) => true | _ => false end.

(** The updates a recovery must apply, in log order: those inside a Begin/Commit interval
    of a transaction not running in this process, from the watermark on.  [opened] are the
    transactions with an unfinished Begin before this point. *)
Fixpoint updates_to_replay (applied_offset : Z) (live : Z -> bool) (opened : gset Z) all
    : list (@PendingUpdate J) :=
  match all with
  | [] => []
  | (offset, r) :: all =>
      let rest opened := updates_to_replay applied_offset live opened all in
      match r with
      | WalTxnBegin t => rest ({[t]} ∪ opened)
      | WalTxnCommit t | WalTxnRollback t => rest (opened ∖ {[t]})
      | WalUpdate id data t =>
          if bool_decide (t ∈ opened) && (applied_offset <=? offset) && commits_next t all && negb (live t)
          then (offset, (id, data)) :: rest opened
          else rest opened
      | _ => rest opened
      end
  end.

Section loop.
Variables (applied_offset : Z) (live : Z -> bool).
Local Abbreviation step := (update_step (J:=J) applied_offset live).
Local Abbreviation replay := (updates_to_replay applied_offset live).

(** What the pending updates will contribute, given the rest of the log. *)
Definition contribution all (e : Z * list (@PendingUpdate J)) : list (@PendingUpdate J) :=
  if commits_next e.1 all && negb (live e.1) then e.2 else [].

Definition contributions all (pending : gmap Z (list (@PendingUpdate J))) : list (@PendingUpdate J) :=
  map_to_list pending ≫= contribution all.

Lemma contributions_insert all pending t us :
  contributions all (<[t := us]> pending) ≡ₚ contribution all (t, us) ++ contributions all (delete t pending).
Proof.
  unfold contributions. rewrite <-insert_delete_eq, map_to_list_insert by apply lookup_delete_eq.
  by rewrite bind_cons.
Qed.

Lemma contributions_take_out all pending t us :
  pending !! t = Some us ->
  contributions all pending ≡ₚ contribution all (t, us) ++ contributions all (delete t pending).
Proof. intros Ht. rewrite <-(insert_id pending t us) at 1 by done. apply contributions_insert. Qed.

(** A record that is no boundary of the pending transactions changes no contribution. *)
Lemma contributions_ext all all' pending :
  (forall t us, pending !! t = Some us -> commits_next t all = commits_next t all') ->
  contributions all pending = contributions all' pending.
Proof.
  intros H. unfold contributions. 
  assert (forall l, (forall e, e ∈ l -> contribution all e = contribution all' e) ->
            l ≫= contribution all = l ≫= contribution all') as Hext.
  { induction l as [|e l IH]; intros Hl; [done|]. rewrite !bind_cons, Hl, IH; [done| |by left].
    intros e' He'. apply Hl. by right. }
  apply Hext. intros [t us] Hin%elem_of_map_to_list. unfold contribution. cbn [fst snd].
  by rewrite (H t us Hin).
Qed.

Lemma contributions_boundary all all' pending t :
  (forall t', t' <> t -> commits_next t' all = commits_next t' all') ->
  contributions all (delete t pending) = contributions all' (delete t pending).
Proof.
  intros H. apply contributions_ext. intros t' us Ht'. apply H. intros ->.
  by rewrite lookup_delete_eq in Ht'.
Qed.

Lemma commits_next_skip t offset r all :
  (forall t', r <> WalTxnBegin t' /\ r <> WalTxnCommit t' /\ r <> WalTxnRollback t') ->
  commits_next t ((offset, r) :: all) = commits_next t all.
Proof. intros H. unfold commits_next. destruct r; try done; by destruct (H txn_id) as (?&?&?). Qed.

Lemma update_loop all pending acc :
  (fold_left step all (pending, acc)).2 ≡ₚ
  acc ++ contributions all pending ++ replay (dom pending) all.
Proof.
  revert pending acc. induction all as [|[offset r] all IH]; intros pending acc; cbn [fold_left].
  { cbn [snd updates_to_replay].
    assert (contributions [] pending = []) as ->.
    { unfold contributions. induction (map_to_list pending) as [|e l IHl]; [done|].
      rewrite bind_cons, IHl. done. }
    by rewrite !app_nil_r. }
  unfold update_step at 2. cbn [fst snd].
  destruct r as [id data t|id rows t|id t|id data t|n|t|t|t]; cbn [updates_to_replay];
    try (rewrite (contributions_ext (_ :: all) all pending) by done; exact (IH pending acc)).
  - (* Update *)
    rewrite (contributions_ext ((offset, WalUpdate id data t) :: all) all pending) by done.
    destruct (applied_offset <=? offset) eqn:Ho.
    + destruct (pending !! t) as [us|] eqn:Ht.
      * rewrite IH, dom_insert_lookup_L by done. f_equiv.
        rewrite (contributions_insert all), (contributions_take_out all pending t us) by done.
        rewrite bool_decide_true by (by eapply elem_of_dom_2). cbn [andb].
        unfold contribution. cbn [fst snd]. destruct (commits_next t all && negb (live t)); [|done].
        rewrite <-!app_assoc. f_equiv. cbn [app]. by rewrite Permutation_middle.
      * rewrite IH. rewrite bool_decide_false by (by rewrite not_elem_of_dom). done.
    + rewrite IH, andb_false_r. done.
  - (* Begin *)
    rewrite IH, dom_insert_L. f_equiv. f_equiv. rewrite contributions_insert.
    assert (contribution all (t, []) = []) as -> by (unfold contribution; by destruct (_ && _)).
    cbn [app]. rewrite (contributions_boundary all ((offset, WalTxnBegin t) :: all)).
    2:{ intros t' Hne. unfold commits_next. cbn [next_boundary]. by destruct (Z.eqb_spec t t'). }
    destruct (pending !! t) as [us|] eqn:Ht; [|by rewrite delete_id].
    rewrite (contributions_take_out _ pending t us) by done.
    unfold contribution, commits_next. cbn [fst snd next_boundary]. by rewrite Z.eqb_refl.
  - (* Commit *)
    destruct (pending !! t) as [us|] eqn:Ht.
    + rewrite IH, dom_delete_L. rewrite (contributions_take_out _ pending t us) by done.
      rewrite (contributions_boundary all ((offset, WalTxnCommit t) :: all)).
      2:{ intros t' Hne. unfold commits_next. cbn [next_boundary]. by destruct (Z.eqb_spec t t'). }
      unfold contribution, commits_next. cbn [fst snd next_boundary]. rewrite Z.eqb_refl. cbn [andb].
      destruct (negb (live t)); [by rewrite <-!app_assoc|done].
    + rewrite IH, difference_disjoint_L by (rewrite disjoint_singleton_r; by rewrite not_elem_of_dom).
      rewrite (contributions_ext all ((offset, WalTxnCommit t) :: all) pending); [done|].
      intros t' us Ht'. unfold commits_next. cbn [next_boundary].
      destruct (Z.eqb_spec t t') as [->|]; [congruence|done].
  - (* Rollback *)
    rewrite IH, dom_delete_L. f_equiv.
    rewrite (contributions_boundary all ((offset, WalTxnRollback t) :: all)).
    2:{ intros t' Hne. unfold commits_next. cbn [next_boundary]. by destruct (Z.eqb_spec t t'). }
    destruct (pending !! t) as [us|] eqn:Ht; [|by rewrite delete_id].
    rewrite (contributions_take_out _ pending t us) by done.
    unfold contribution, commits_next. cbn [fst snd next_boundary]. by rewrite Z.eqb_refl.
Qed.
End loop.

#[local] Instance by_offset_total : Total (@by_offset J).
Proof. intros a b. unfold by_offset. lia. Qed.

#[local] Instance by_offset_trans : Transitive (@by_offset J).
Proof. intros a b c. unfold by_offset. lia. Qed.

Lemma replay_offsets applied_offset live opened all m :
  StronglySorted Z.lt (m :: all.*1) ->
  StronglySorted Z.lt (m :: (updates_to_replay applied_offset live opened all).*1).
Proof.
  revert opened m. induction all as [|[offset r] all IH]; intros opened m Hs; [done|].
  rewrite fmap_cons in Hs. cbn [fst] in Hs.
  assert (StronglySorted Z.lt (offset :: all.*1) /\ m < offset) as [Hrest Hm].
  { apply StronglySorted_inv in Hs as [Hs Hall]. by apply Forall_cons_1 in Hall as [? _]. }
  assert (forall opened, StronglySorted Z.lt (m :: (updates_to_replay applied_offset live opened all).*1)) as Hskip.
  { intros o. apply IH. apply StronglySorted_inv in Hs as [Hs Hall].
    apply StronglySorted_inv in Hs as [Hs _]. apply Forall_cons_1 in Hall as [_ Hall].
    by constructor. }
  cbn [updates_to_replay]. destruct r; auto. case_goal; [|auto].
  rewrite fmap_cons. cbn [fst]. specialize (IH opened _ Hrest).
  constructor; [done|]. constructor; [done|]. apply StronglySorted_inv in IH as [_ Hall].
  eapply Forall_impl; [exact Hall|]. intros x. cbn beta. lia.
Qed.

Lemma committed_updates_spec applied_offset live all :
  StronglySorted Z.lt all.*1 ->
  committed_updates applied_offset live all = (updates_to_replay applied_offset live ∅ all).*2.
Proof.
  intros Hs. unfold committed_updates.
  pose proof (update_loop applied_offset live all ∅ []) as Hp.
  destruct (fold_left _ all _) as [pending raw]. cbn [snd app] in Hp.
  rewrite dom_empty_L in Hp. unfold contributions in Hp. rewrite map_to_list_empty in Hp. cbn [app] in Hp.
  f_equal. set (u := updates_to_replay applied_offset live ∅ all) in *.
  assert (StronglySorted Z.lt u.*1) as Hu.
  { destruct all as [|[offset r] all']; [constructor|].
    pose proof (replay_offsets applied_offset live ∅ ((offset, r) :: all') (offset - 1)) as H.
    apply StronglySorted_inv in H as [H _]; [done|]. constructor; [done|].
    rewrite fmap_cons in *. apply StronglySorted_inv in Hs as [_ Hall]. constructor; [cbn; lia|].
    eapply Forall_impl; [exact Hall|]. cbn. lia. }
  assert (merge_sort by_offset raw ≡ₚ u) as Hperm by by rewrite merge_sort_Permutation, Hp.
  apply (StronglySorted_unique_strong by_offset); [|apply Sorted_StronglySorted; [apply _|apply Sorted_merge_sort; apply _]| |done].
  - intros x y Hx Hy Hxy Hyx. rewrite Hperm in Hx. unfold by_offset in *.
    clear -Hu Hx Hy Hxy Hyx. induction u as [|e u IH]; [by apply elem_of_nil in Hx|].
    rewrite fmap_cons in Hu. apply StronglySorted_inv in Hu as [Hu Hall].
    assert (forall z, z ∈ u -> e.1 < z.1) as Hlt.
    { intros z Hz. apply (proj1 (List.Forall_forall _ _) Hall). apply list_elem_of_In.
      by apply list_elem_of_fmap_2. }
    apply elem_of_cons in Hx as [->|Hx], Hy as [->|Hy]; [done| | |by apply IH].
    + specialize (Hlt _ Hy). lia.
    + specialize (Hlt _ Hx). lia.
  - clear -Hu. induction u as [|e u IH]; [constructor|].
    rewrite fmap_cons in Hu. apply StronglySorted_inv in Hu as [Hu Hall]. constructor; [auto|].
    apply List.Forall_forall. intros z Hz. unfold by_offset. apply Z.lt_le_incl.
    apply (proj1 (List.Forall_forall _ _) Hall). by apply in_map.
Qed.

(** C14 Recovery replays exactly the committed updates: from any log read back (offsets
    increasing), the updates re-applied are those inside a Begin/Commit interval of a
    transaction that is not running in this process, from the watermark on, in log order;
    a transaction id used again later does not mix two transactions up. *)
Theorem recovery_updates_exact meta wal_len live base_next_id all :
  StronglySorted Z.lt all.*1 ->
  sc_committed_updates (scan_wal_for_recovery meta wal_len live base_next_id all) =
  (updates_to_replay (usable_offset (wal_applied_offset meta wal_len) wal_len all) live ∅ all).*2.
Proof. intros Hs. by apply committed_updates_spec. Qed.
End updates.

(** ** All or nothing *)

Section atomicity.
Context {J : Type}.
Local Abbreviation Record := (WalRecord J).
Local Abbreviation Write := (TxnWrite (Value J)).
Implicit Types (all old new : list (Z * WalRecord J)) (ws : list (TxnWrite (Value J))).

Definition update_of (w : Write) : option (Z * gmap string (Value J)) :=
  match w with TxnUpdate _ id _ data => Some (id, data) | _ => None end.
Definition delete_of (w : Write) : option Z :=
  match w with TxnDelete _ id _ => Some id | _ => None end.
Definition insert_of (w : Write) : option (Z * Row) :=
  match w with TxnInsert _ id data => Some (id, txn_wal_value <$> data) | _ => None end.

(** The transaction a record belongs to. *)
Definition record_txn (r : Record) : Z :=
  match r with
  | WalInsert _ _ t | WalBatchInsert _ _ t | WalDelete _ t | WalUpdate _ _ t
  | WalTxnBegin t | WalTxnCommit t | WalTxnRollback t => t
  | WalCheckpoint _ => 0
  end.

Definition fresh (t : Z) old : Prop := Forall (fun e => record_txn e.2 <> t) old.

Lemma next_boundary_app t old new :
  next_boundary t (old ++ new) =
  match next_boundary t old with Some r => Some r | None => next_boundary t new end.
Proof.
  induction old as [|[o r] old IH]; [done|].
  destruct r; cbn [app next_boundary]; try exact IH; destruct (txn_id =? t); done.
Qed.

Lemma next_boundary_other t t' new :
  Forall (fun e => record_txn e.2 = t) new -> t' <> t -> next_boundary t' new = None.
Proof.
  intros Hall Hne. induction Hall as [|[o r] new Hr _ IH]; [done|]. cbn [next_boundary].
  cbn [snd] in Hr. destruct r; try done; cbn [record_txn] in Hr; destruct (Z.eqb_spec txn_id t'); congruence.
Qed.

(** Appending the records of a new transaction leaves the updates of the old ones alone. *)
Lemma replay_app applied live opened t old new :
  fresh t old -> Forall (fun e => record_txn e.2 = t) new ->
  exists opened', updates_to_replay applied live opened (old ++ new) =
    updates_to_replay applied live opened old ++ updates_to_replay applied live opened' new.
Proof.
  intros Hold Hnew. revert opened. induction Hold as [|[o r] old Hr Hold IH]; intros opened; [by exists opened|].
  cbn [snd] in Hr.
  assert (forall t', t' <> t -> commits_next t' (old ++ new) = commits_next t' old) as Hnext.
  { intros t' Hne. unfold commits_next. rewrite next_boundary_app, (next_boundary_other t t' new) by done.
    by destruct (next_boundary t' old). }
  cbn [app updates_to_replay]. destruct r as [id data t'|id rows t'|id t'|id data t'|n|t'|t'|t'];
    try apply IH. cbn [record_txn] in Hr. rewrite Hnext by done.
  destruct (IH opened) as [opened' ->]. exists opened'. by case_match.
Qed.

Lemma replay_body applied live opened t ws nb tail :
  nb.*2 = txn_wal_record t <$> ws -> Forall (fun e => applied <= e.1) nb ->
  t ∈ opened -> live t = false ->
  (updates_to_replay applied live opened (nb ++ tail)).*2 =
  (if commits_next t tail then omap update_of ws else []) ++
  (updates_to_replay applied live opened tail).*2.
Proof.
  intros Hnb Happ Hopen Hlive. revert nb Hnb Happ. induction ws as [|w ws IH]; intros nb Hnb Happ.
  - apply fmap_nil_inv in Hnb as ->. cbn [omap list_omap app]. by destruct (commits_next t tail).
  - destruct nb as [|[o r] nb]; [done|]. rewrite !fmap_cons in Hnb. cbn [snd] in Hnb.
    injection Hnb as Hr Hnb. apply Forall_cons_1 in Happ as [Ho Happ]. cbn [fst] in Ho.
    assert (commits_next t (nb ++ tail) = commits_next t tail) as Hnext.
    { clear -Hnb. unfold commits_next. rewrite next_boundary_app.
      assert (next_boundary t nb = None) as ->; [|done].
      revert nb Hnb. induction ws as [|w ws IH]; intros [|[o r] nb] Hnb; try done.
      rewrite !fmap_cons in Hnb. injection Hnb as Hr Hnb. cbn [snd] in Hr. subst r.
      destruct w; cbn [next_boundary txn_wal_record]; by apply IH. }
    specialize (IH nb Hnb Happ). subst r.
    destruct w as [tbl id data|tbl id od nd|tbl id od]; cbn [txn_wal_record app updates_to_replay]; [exact IH| |exact IH].
    rewrite bool_decide_true, Hnext, Hlive by done.
    destruct (Z.leb_spec applied o); [|lia]. cbn [andb negb].
    destruct (commits_next t tail) eqn:Ht; cbn [andb]; rewrite ?fmap_cons, IH; done.
Qed.

(** The records of a commit, up to where the log stops. *)
Lemma take_txn_records t table ws k :
  let mine := List.filter (fun w => String.eqb (TxnWrite_table w) table) ws in
  take k (txn_wal_records t table ws) =
  match k with
  | O => []
  | S j => WalTxnBegin t :: (txn_wal_record t <$> take j mine) ++
           (if (length mine <? j)%nat then [WalTxnCommit t] else [])
  end.
Proof.
  intros mine. destruct k as [|j]; [done|]. unfold txn_wal_records. fold mine. cbn [take]. f_equal.
  rewrite fmap_take. destruct (Nat.ltb_spec (length mine) j).
  - rewrite !take_ge; rewrite ?length_app, ?length_fmap; [done|lia|simpl; lia].
  - rewrite take_app_le by by rewrite length_fmap. by rewrite app_nil_r.
Qed.

Definition txn_complete (t : Z) (table : string) ws (k : nat) : bool :=
  (length (txn_wal_records t table ws) <=? k)%nat.

Lemma txn_complete_spec t table ws j :
  txn_complete t table ws (S j) =
  (length (List.filter (fun w => String.eqb (TxnWrite_table w) table) ws) <? j)%nat.
Proof.
  unfold txn_complete, txn_wal_records. cbn [length]. rewrite length_app, length_fmap. cbn [length].
  destruct (Nat.ltb_spec (length (List.filter (fun w => String.eqb (TxnWrite_table w) table) ws)) j),
    (Nat.leb_spec (S (length (List.filter (fun w => String.eqb (TxnWrite_table w) table) ws) + 1)) (S j)); done || lia.
Qed.

Lemma committed_txns_app (a b : list Record) : committed_txns (a ++ b) = committed_txns a ∪ committed_txns b.
Proof. unfold committed_txns. by rewrite omap_app, list_to_set_app_L. Qed.

Lemma committed_txns_body t (body : list Write) : committed_txns (txn_wal_record t <$> body) = ∅.
Proof.
  unfold committed_txns. induction body as [|w body IH]; [done|].
  rewrite fmap_cons. by destruct w.
Qed.

Lemma committed_txns_replayable c base (rs : list Record) :
  committed_txns (List.filter (replayable c base) rs) = committed_txns rs.
Proof.
  unfold committed_txns. f_equal. induction rs as [|r rs IH]; [done|]. cbn [List.filter].
  destruct r; cbn [omap list_omap]; try (by case_goal); cbn [replayable omap list_omap]; by rewrite IH.
Qed.

(** The committed set seen by the old records and by the new transaction. *)
Record committed_sets (t : Z) (complete : bool) (c c' : gset Z) : Prop := {
  cs_old : forall t', t' <> t -> bool_decide (t' ∈ c') = bool_decide (t' ∈ c);
  cs_new : bool_decide (t ∈ c') = complete;
}.

Lemma fresh_not_committed t old : fresh t old -> t ∉ committed_txns old.*2.
Proof.
  unfold committed_txns. induction 1 as [|[o r] old Hr _ IH]; [set_solver|].
  rewrite fmap_cons. cbn [snd] in *. destruct r; cbn [omap list_omap record_txn] in *; set_solver.
Qed.

Lemma committed_after t table ws k old new :
  new.*2 = take k (txn_wal_records t table ws) -> fresh t old ->
  committed_sets t (txn_complete t table ws k) (committed_txns old.*2) (committed_txns (old ++ new).*2).
Proof.
  intros Hnew Hold. rewrite fmap_app, committed_txns_app, Hnew, take_txn_records.
  apply fresh_not_committed in Hold. destruct k as [|j].
  { change (committed_txns (J:=J) []) with (∅ : gset Z). rewrite (right_id_L ∅ (∪)).
    split; [done|]. by rewrite bool_decide_false. }
  rewrite txn_complete_spec. change (WalTxnBegin t :: ?l) with ([WalTxnBegin (J:=J) t] ++ l).
  rewrite !committed_txns_app, committed_txns_body.
  destruct (_ <? _)%nat.
  - split; [|by rewrite bool_decide_true by (unfold committed_txns; set_solver)].
    intros t' Hne. apply bool_decide_ext. unfold committed_txns at 2 3. cbn. set_solver.
  - split; [|by rewrite bool_decide_false by (unfold committed_txns at 2 3; set_solver)].
    intros t' Hne. apply bool_decide_ext. unfold committed_txns at 2 3. cbn. set_solver.
Qed.

Section parts.
Context (t : Z) (complete : bool) (c c' : gset Z) (live : Z -> bool) (base : Z).
Hypotheses (Hc : committed_sets t complete c c') (Ht : t <> 0) (Hlive : live t = false).

Lemma deletes_old old : fresh t old -> committed_delete_ids c' live old.*2 = committed_delete_ids c live old.*2.
Proof.
  unfold committed_delete_ids. induction 1 as [|[o r] old Hr _ IH]; [done|]. rewrite fmap_cons. cbn [snd] in *.
  destruct r; cbn [omap list_omap record_txn] in *; rewrite ?(cs_old _ _ _ _ Hc), ?IH by done; done.
Qed.

Lemma deletes_body body :
  committed_delete_ids c' live (txn_wal_record t <$> body) = if complete then omap delete_of body else [].
Proof.
  unfold committed_delete_ids. induction body as [|w body IH]; [by destruct complete|].
  rewrite fmap_cons. destruct w; cbn [omap list_omap txn_wal_record delete_of]; try exact IH.
  rewrite (cs_new _ _ _ _ Hc), Hlive. destruct (Z.eqb_spec t 0); [done|]. cbn [negb andb].
  destruct complete; cbn [andb]; by rewrite IH.
Qed.

Lemma uncommitted_old old :
  fresh t old -> uncommitted_insert_ids c' live old.*2 = uncommitted_insert_ids c live old.*2.
Proof.
  unfold uncommitted_insert_ids. intros Hold. f_equal.
  induction Hold as [|[o r] old Hr _ IH]; [done|]. rewrite fmap_cons, !bind_cons, IH. f_equal. cbn [snd] in *.
  destruct r; unfold dead_txn; cbn [record_txn] in *; rewrite ?(cs_old _ _ _ _ Hc) by done; done.
Qed.

Lemma uncommitted_body body :
  uncommitted_insert_ids c' live (txn_wal_record t <$> body) =
  if complete then ∅ else list_to_set (omap insert_of body).*1.
Proof.
  unfold uncommitted_insert_ids. induction body as [|w body IH]; [by destruct complete|].
  rewrite fmap_cons, bind_cons, list_to_set_app_L, IH.
  destruct w; cbn [omap list_omap txn_wal_record insert_of]; try (by rewrite list_to_set_nil, (left_id_L ∅ (∪))).
  unfold dead_txn. rewrite (cs_new _ _ _ _ Hc), Hlive. destruct (Z.eqb_spec t 0); [done|]. cbn [negb andb].
  destruct complete; cbn; set_solver.
Qed.

Lemma inserts_old old :
  fresh t old ->
  List.filter (replayable c' base) old.*2 = List.filter (replayable c base) old.*2.
Proof.
  induction 1 as [|[o r] old Hr _ IH]; [done|]. rewrite fmap_cons. cbn [List.filter snd] in *. rewrite IH.
  destruct r; cbn [replayable record_txn] in *; rewrite ?(cs_old _ _ _ _ Hc) by done; done.
Qed.

Lemma inserts_under_old old :
  fresh t old ->
  inserts_under c' live (List.filter (replayable c base) old.*2) =
  inserts_under c live (List.filter (replayable c base) old.*2).
Proof.
  unfold inserts_under. induction 1 as [|[o r] old Hr _ IH]; [done|]. rewrite fmap_cons. cbn [List.filter snd] in *.
  destruct (replayable c base r); [|done]. rewrite !bind_cons, IH. f_equal.
  destruct r; cbn [record_txn] in *; rewrite ?(cs_old _ _ _ _ Hc) by done; done.
Qed.

Lemma inserts_body body :
  inserts_under c' live (List.filter (replayable c' base) (txn_wal_record t <$> body)) =
  if complete then List.filter (fun row => base <=? row.1) (omap insert_of body) else [].
Proof.
  unfold inserts_under. induction body as [|w body IH]; [by destruct complete|].
  rewrite fmap_cons. destruct w; cbn [txn_wal_record List.filter replayable omap list_omap insert_of].
  - rewrite (cs_new _ _ _ _ Hc). destruct (Z.eqb_spec t 0); [done|]. cbn [orb].
    destruct complete eqn:Hcomp; cbn [andb]; [|exact IH].
    cbn [List.filter fst]. destruct (base <=? row_id); [|exact IH].
    rewrite bind_cons, IH, (cs_new _ _ _ _ Hc), Hlive. destruct (Z.eqb_spec t 0); [done|]. done.
  - rewrite bind_cons. exact IH.
  - destruct (_ && _); [rewrite bind_cons|]; exact IH.
Qed.
End parts.

Lemma new_records_txn t table ws k new :
  new.*2 = take k (txn_wal_records t table ws) -> Forall (fun e => record_txn e.2 = t) new.
Proof.
  intros Hnew. enough (Forall (fun r => record_txn r = t) new.*2) as H
    by (clear -H; induction new as [|e new IH]; [constructor|]; rewrite fmap_cons in H;
        apply Forall_cons_1 in H as [? ?]; constructor; auto).
  rewrite Hnew. apply Forall_take. unfold txn_wal_records. constructor; [done|].
  apply Forall_app. split; [|by repeat constructor].
  apply Forall_fmap. apply List.Forall_forall. intros w _. by destruct w.
Qed.

Lemma updates_of_new applied live opened t table ws k new :
  new.*2 = take k (txn_wal_records t table ws) -> Forall (fun e => applied <= e.1) new ->
  live t = false ->
  (updates_to_replay applied live opened new).*2 =
  if txn_complete t table ws k
  then omap update_of (List.filter (fun w => String.eqb (TxnWrite_table w) table) ws) else [].
Proof.
  intros Hnew Happ Hlive. rewrite take_txn_records in Hnew. destruct k as [|j].
  { by apply fmap_nil_inv in Hnew as ->. }
  rewrite txn_complete_spec. destruct new as [|[o r] new]; [done|]. rewrite fmap_cons in Hnew. cbn [snd] in Hnew.
  injection Hnew as -> Hnew. apply Forall_cons_1 in Happ as [_ Happ]. cbn [updates_to_replay].
  apply fmap_app_inv in Hnew as (nb & tail & Hnb & Htail & ->). symmetry in Hnb, Htail.
  apply Forall_app in Happ as [Happ _].
  rewrite (replay_body applied live _ t _ nb tail Hnb Happ); [|set_solver|done].
  destruct (Nat.ltb_spec (length (List.filter (fun w => String.eqb (TxnWrite_table w) table) ws)) j).
  - destruct tail as [|[o' r'] tail]; [done|]. rewrite fmap_cons in Htail. injection Htail as -> Htail.
    apply fmap_nil_inv in Htail as ->. unfold commits_next. cbn [next_boundary]. rewrite Z.eqb_refl.
    cbn [updates_to_replay]. rewrite take_ge by lia. by rewrite app_nil_r.
  - by apply fmap_nil_inv in Htail as ->.
Qed.

Lemma deletes_app c live (a b : list Record) :
  committed_delete_ids c live (a ++ b) = committed_delete_ids c live a ++ committed_delete_ids c live b.
Proof. apply omap_app. Qed.

Lemma uncommitted_app c live (a b : list Record) :
  uncommitted_insert_ids c live (a ++ b) = uncommitted_insert_ids c live a ∪ uncommitted_insert_ids c live b.
Proof. unfold uncommitted_insert_ids. by rewrite bind_app, list_to_set_app_L. Qed.

Lemma inserts_app c live f (a b : list Record) :
  inserts_under c live (List.filter f (a ++ b)) =
  inserts_under c live (List.filter f a) ++ inserts_under c live (List.filter f b).
Proof. unfold inserts_under. by rewrite List.filter_app, bind_app. Qed.

(** What the scan makes of the new transaction's own records. *)
Lemma effects_of_new c c' live base t table ws k :
  committed_sets t (txn_complete t table ws k) c c' -> t <> 0 -> live t = false ->
  let rs := take k (txn_wal_records t table ws) in
  let mine := List.filter (fun w => String.eqb (TxnWrite_table w) table) ws in
  committed_delete_ids c' live rs =
    (if txn_complete t table ws k then omap delete_of mine else []) /\
  inserts_under c' live (List.filter (replayable c' base) rs) =
    (if txn_complete t table ws k then List.filter (fun row => base <=? row.1) (omap insert_of mine) else []) /\
  uncommitted_insert_ids c' live rs =
    (if txn_complete t table ws k then ∅ else list_to_set (omap insert_of (take (k - 1) mine)).*1).
Proof.
  intros Hc Ht Hlive rs mine. unfold rs. rewrite take_txn_records. fold mine. destruct k as [|j]; [done|].
  pose proof (txn_complete_spec t table ws j) as Hj. fold mine in Hj.
  change (WalTxnBegin t :: ?l) with ([WalTxnBegin (J:=J) t] ++ l).
  rewrite !deletes_app, !inserts_app, !uncommitted_app.
  rewrite (deletes_body _ _ _ _ _ Hc Ht Hlive), (inserts_body _ _ _ _ _ _ Hc Ht Hlive),
    (uncommitted_body _ _ _ _ _ Hc Ht Hlive).
  rewrite Hj. replace (S j - 1)%nat with j by lia.
  destruct (Nat.ltb_spec (length mine) j); cbn; rewrite ?app_nil_r.
  - rewrite take_ge by lia. split_and!; [done..|set_solver].
  - split_and!; [done..|set_solver].
Qed.

(** What the scan makes of a log that ends with a prefix of the transaction's records. *)
Lemma scan_of_commit meta wal_len live base_next_id t table ws k old new :
  new.*2 = take k (txn_wal_records t table ws) ->
  fresh t old -> t <> 0 -> live t = false ->
  StronglySorted Z.lt (old ++ new).*1 ->
  let applied := usable_offset (wal_applied_offset meta wal_len) wal_len (old ++ new) in
  Forall (fun e => applied <= e.1) new ->
  let scan := scan_wal_for_recovery meta wal_len live base_next_id (old ++ new) in
  let mine := List.filter (fun w => String.eqb (TxnWrite_table w) table) ws in
  let before := committed_txns old.*2 in
  if txn_complete t table ws k then
    sc_committed_updates scan = (updates_to_replay applied live ∅ old).*2 ++ omap update_of mine /\
    sc_committed_delete_ids scan = committed_delete_ids before live old.*2 ++ omap delete_of mine /\
    committed_inserts live (sc_records scan) =
      inserts_under before live (List.filter (replayable before base_next_id) old.*2) ++
      List.filter (fun row => base_next_id <=? row.1) (omap insert_of mine) /\
    sc_uncommitted_insert_ids scan = uncommitted_insert_ids before live old.*2
  else
    sc_committed_updates scan = (updates_to_replay applied live ∅ old).*2 /\
    sc_committed_delete_ids scan = committed_delete_ids before live old.*2 /\
    committed_inserts live (sc_records scan) =
      inserts_under before live (List.filter (replayable before base_next_id) old.*2) /\
    sc_uncommitted_insert_ids scan = uncommitted_insert_ids before live old.*2 ∪
      list_to_set (omap insert_of (take (k - 1) mine)).*1.
Proof.
  intros Hnew Hold Ht Hlive Hsorted applied Happ scan mine before.
  pose proof (committed_after t table ws k old new Hnew Hold) as Hc. fold before in Hc.
  set (after := committed_txns (old ++ new).*2) in Hc.
  assert (sc_committed_updates scan = (updates_to_replay applied live ∅ old).*2 ++
            (if txn_complete t table ws k then omap update_of mine else [])) as Hu.
  { cbn [scan scan_wal_for_recovery sc_committed_updates]. fold applied.
    rewrite committed_updates_spec by done.
    destruct (replay_app applied live ∅ t old new Hold) as [opened ->]; [by eapply new_records_txn|].
    rewrite fmap_app. f_equal. by apply updates_of_new. }
  destruct (effects_of_new (committed_txns old.*2) after live base_next_id t table ws k Hc Ht Hlive)
    as (Hd & Hi & Hun). fold mine in Hd, Hi, Hun. rewrite <-Hnew in Hd, Hi, Hun.
  assert (sc_committed_delete_ids scan = committed_delete_ids before live old.*2 ++
            (if txn_complete t table ws k then omap delete_of mine else [])) as Hdel.
  { cbn [scan scan_wal_for_recovery sc_committed_delete_ids]. fold after.
    rewrite fmap_app, deletes_app, Hd. f_equal. by eapply deletes_old. }
  assert (committed_inserts live (sc_records scan) =
            inserts_under before live (List.filter (replayable before base_next_id) old.*2) ++
            (if txn_complete t table ws k
             then List.filter (fun row => base_next_id <=? row.1) (omap insert_of mine) else [])) as Hins.
  { cbn [scan scan_wal_for_recovery sc_records]. fold after. unfold committed_inserts.
    rewrite committed_txns_replayable. fold after. rewrite fmap_app, inserts_app, Hi. f_equal.
    erewrite inserts_old by done. by eapply inserts_under_old. }
  assert (sc_uncommitted_insert_ids scan = uncommitted_insert_ids before live old.*2 ∪
            (if txn_complete t table ws k then ∅
             else list_to_set (omap insert_of (take (k - 1) mine)).*1)) as Hunc.
  { cbn [scan scan_wal_for_recovery sc_uncommitted_insert_ids]. fold after.
    rewrite fmap_app, uncommitted_app, Hun. f_equal. by eapply uncommitted_old. }
  rewrite Hu, Hdel, Hins, Hunc. destruct (txn_complete t table ws k); rewrite ?app_nil_r; [|done].
  by rewrite (right_id_L ∅ (∪)).
Qed.
End atomicity.

(** ** The delta file after recovery *)

Section delta.
Context {J : Type}.
Implicit Types (records : list (WalRecord J)) (batches : list (list (Z * Row))).

Definition delta_rows batches : list Z := (concat batches).*1.

Lemma foldr_max_ge l x : x ∈ l -> x <= foldr Z.max 0 l.
Proof. induction 1; cbn [foldr]; lia. Qed.

Lemma missing_spec live base delta_max records batches row :
  row ∈ missing_inserts live base delta_max records batches ->
  row ∈ committed_inserts live records /\ base <= row.1 /\ row.1 ∉ delta_rows batches.
Proof.
  unfold missing_inserts. set (cands := List.filter _ _).
  assert (row ∈ List.filter (fun row => negb (bool_decide (row.1 ∈ (list_to_set (concat batches).*1 : gset Z)))) cands ->
          row ∈ committed_inserts live records /\ base <= row.1 /\ row.1 ∉ delta_rows batches) as H.
  { intros [Hin Hneg]%list_elem_of_In%filter_In. apply filter_In in Hin as [Hin Hb%Z.leb_le].
    apply negb_true_iff, bool_decide_eq_false in Hneg. split_and!; [by apply list_elem_of_In|done|].
    intros Hd. apply Hneg. by apply elem_of_list_to_set. }
  destruct cands as [|c cs]; [by intros ?%elem_of_nil|]. case_goal; [done|by intros ?%elem_of_nil].
Qed.

(** What recovery appends to the delta file: only committed rows the file does not hold,
    so running it again appends nothing; and every committed row above the base file is
    there afterwards, provided those not above the file's high-water mark already were. *)
Theorem recovery_completes_delta live base delta_max records batches :
  1 <= base ->
  (forall row, row ∈ committed_inserts live records -> base <= row.1 -> row.1 <= delta_max ->
     row.1 ∈ delta_rows batches) ->
  let missing := missing_inserts live base delta_max records batches in
  (forall row, row ∈ committed_inserts live records -> base <= row.1 ->
     row.1 ∈ delta_rows (batches ++ [missing])) /\
  (forall row, row ∈ missing -> row ∈ committed_inserts live records /\ row.1 ∉ delta_rows batches) /\
  (forall delta_max', missing_inserts live base delta_max' records (batches ++ [missing]) = []).
Proof.
  intros Hbase Hpresent missing.
  assert (forall row, row ∈ committed_inserts live records -> base <= row.1 ->
     row.1 ∈ delta_rows (batches ++ [missing])) as Hall.
  { intros row Hrow Hb. unfold delta_rows. rewrite concat_app, fmap_app. cbn [concat]. rewrite app_nil_r.
    destruct (decide (row.1 ∈ delta_rows batches)) as [Hd|Hd]; [apply elem_of_app; by left|].
    apply elem_of_app. right. apply list_elem_of_fmap. exists row. split; [done|].
    unfold missing, missing_inserts.
    assert (row ∈ List.filter (fun row => base <=? row.1) (committed_inserts live records)) as Hc.
    { apply list_elem_of_In, filter_In. split; [by apply list_elem_of_In|by apply Z.leb_le]. }
    set (cands := List.filter _ (committed_inserts live records)) in *.
    destruct (Z.ltb_spec (Z.max delta_max (saturating_sub64 base 1))
                (foldr Z.max 0 (committed_inserts live records).*1)) as [Hlt|Hge].
    - assert (row ∈ List.filter (fun row => negb (bool_decide (row.1 ∈ (list_to_set (concat batches).*1 : gset Z)))) cands).
      { apply list_elem_of_In, filter_In. split; [by apply list_elem_of_In|].
        apply negb_true_iff, bool_decide_eq_false. intros Hin%elem_of_list_to_set. done. }
      destruct cands; [by apply elem_of_nil in Hc|done].
    - exfalso. assert (row.1 <= foldr Z.max 0 (committed_inserts live records).*1) as Hmax.
      { apply foldr_max_ge. by apply list_elem_of_fmap_2. }
      unfold saturating_sub64 in Hge. apply Hd, Hpresent; [done..|lia]. }
  split_and!; [done| |].
  - intros row Hrow. apply missing_spec in Hrow as (? & _ & ?). done.
  - intros delta_max'. destruct (missing_inserts _ _ delta_max' _ _) as [|row rows] eqn:Hm; [done|].
    assert (row ∈ missing_inserts live base delta_max' records (batches ++ [missing])) as Hin
      by (rewrite Hm; by left).
    apply missing_spec in Hin as (Hrow & Hb & Hnot). by destruct (Hnot (Hall row Hrow Hb)).
Qed.

Lemma drop_while_suffix {A} (f : A -> bool) (l : list A) :
  exists dropped, l = dropped ++ drop_while f l /\ Forall (fun x => f x = true) dropped /\
    match drop_while f l with [] => True | x :: _ => f x = false end.
Proof.
  induction l as [|x l (d & Hl & Hd & Hs)]; [by exists []|]. cbn [drop_while].
  destruct (f x) eqn:Hx; [|by exists []].
  exists (x :: d). split_and!; [by rewrite Hl at 1|by constructor|done].
Qed.

(** Step 1 cuts exactly the longest run of trailing batches made of uncommitted rows. *)
Lemma cut_uncommitted_spec uncommitted batches :
  exists cut, batches = cut_uncommitted_batches uncommitted batches ++ cut /\
    Forall (fun batch => Forall (fun row : Z * Row => row.1 ∈ uncommitted) batch) cut /\
    (uncommitted <> ∅ -> match last (cut_uncommitted_batches uncommitted batches) with
     | Some batch => ~ Forall (fun row : Z * Row => row.1 ∈ uncommitted) batch | None => True end).
Proof.
  unfold cut_uncommitted_batches. destruct (decide (uncommitted = ∅)) as [He|He].
  { rewrite bool_decide_true by done. exists []. rewrite app_nil_r. split_and!; [done..|by intros []]. }
  rewrite bool_decide_false by done.
  set (f := fun batch => forallb _ batch).
  assert (forall batch, f batch = true <-> Forall (fun row : Z * Row => row.1 ∈ uncommitted) batch) as Hf.
  { intros batch. unfold f. rewrite forallb_forall, List.Forall_forall.
    split; intros H row Hin; [exact (bool_decide_eq_true_1 _ (H row Hin))|by apply bool_decide_eq_true_2, H]. }
  destruct (drop_while_suffix f (reverse batches)) as (d & Hl & Hd & Hs).
  exists (reverse d). split_and!.
  - rewrite <-reverse_app, <-Hl. by rewrite reverse_involutive.
  - apply Forall_reverse. eapply Forall_impl; [exact Hd|]. intros batch. apply Hf.
  - intros _. rewrite last_reverse. destruct (drop_while f (reverse batches)) as [|b bs]; [done|].
    cbn [head]. rewrite <-Hf, Hs. done.
Qed.
End delta.

(** ** A commit after a crash *)

Section commit.
Context {J : Type}.
Implicit Types (old new : list (Z * WalRecord J)) (batches : list (list (Z * Row))).

Lemma recovered_rows live base delta_max (scan : WalRecoveryScan J) batches :
  let kept := cut_uncommitted_batches (sc_uncommitted_insert_ids scan) batches in
  concat (recover_delta live base delta_max scan batches) =
  concat kept ++ missing_inserts live base delta_max (sc_records scan) kept.
Proof.
  intros kept. unfold recover_delta. fold kept.
  destruct (missing_inserts _ _ _ _ kept) as [|row rows]; [by rewrite app_nil_r|].
  rewrite concat_app. cbn [concat]. by rewrite app_nil_r.
Qed.

(** Recovery adds committed rows only. *)
Lemma recovered_only_committed live base delta_max (scan : WalRecoveryScan J) batches row :
  row ∈ concat (recover_delta live base delta_max scan batches) ->
  row ∈ concat batches \/ row ∈ committed_inserts live (sc_records scan).
Proof.
  rewrite recovered_rows. intros [Hk|Hm]%elem_of_app.
  - left. destruct (cut_uncommitted_spec (sc_uncommitted_insert_ids scan) batches) as (cut & Hcut & _).
    rewrite Hcut, concat_app. apply elem_of_app. by left.
  - right. by apply missing_spec in Hm as (? & _ & _).
Qed.

(** The delta file holds the committed rows up to its high-water mark. *)
Definition delta_in_order live base delta_max (scan : WalRecoveryScan J) batches : Prop :=
  forall row, row ∈ committed_inserts live (sc_records scan) -> base <= row.1 -> row.1 <= delta_max ->
    row.1 ∈ delta_rows (cut_uncommitted_batches (sc_uncommitted_insert_ids scan) batches).

Lemma recovered_all_committed live base delta_max (scan : WalRecoveryScan J) batches row :
  1 <= base -> delta_in_order live base delta_max scan batches ->
  row ∈ committed_inserts live (sc_records scan) -> base <= row.1 ->
  row.1 ∈ delta_rows (recover_delta live base delta_max scan batches).
Proof.
  intros Hbase Hord Hrow Hb. unfold delta_rows. rewrite recovered_rows.
  destruct (recovery_completes_delta live base delta_max (sc_records scan) _ Hbase Hord) as (Hall & _).
  specialize (Hall row Hrow Hb). unfold delta_rows in Hall. rewrite concat_app in Hall.
  cbn [concat] in Hall. by rewrite app_nil_r in Hall.
Qed.

End commit.

(** ** Where recovery falls short *)

(** The watermark vouches for the whole log: once a commit has recorded the length of
    its log, an open does not scan it, and later scans re-apply no update before that
    point, whether or not the updates of an earlier, failed commit were ever applied. *)
Theorem marker_covers_whole_log meta n wal_len :
  WAL_HEADER_SIZE < n -> n < 2 ^ 64 -> n <= wal_len ->
  let meta' := write_wal_marker meta (Some n) in
  wal_needs_recovery meta' n = false /\ wal_applied_offset meta' wal_len = n.
Proof.
  intros Hn Hmax Hle. unfold write_wal_marker.
  destruct (Z.ltb_spec WAL_HEADER_SIZE n); [|lia]. cbn zeta.
  assert (forall len', n <= len' -> wal_applied_offset (Some (to_le 8 n)) len' = n) as Hoff.
  { intros len' Hlen'. unfold wal_applied_offset, len. rewrite to_le_length. cbn [Z.eqb Z.of_nat].
    change (Z.of_nat 8 =? 8) with true. cbn iota.
    rewrite u_from_to_le by (split; [unfold WAL_HEADER_SIZE in *; lia|exact Hmax]).
    destruct (Z.leb_spec WAL_HEADER_SIZE n); [|lia]. destruct (Z.leb_spec n len'); [done|lia]. }
  split; [|by apply Hoff]. unfold wal_needs_recovery. rewrite Hoff by lia. rewrite Z.eqb_refl. by case_goal.
Qed.

Lemma marker_covers_whole_log_witness :
  wal_needs_recovery (write_wal_marker None (Some 100)) 100 = false /\
  wal_applied_offset (write_wal_marker None (Some 100)) 140 = 100.
Proof. apply (marker_covers_whole_log None 100 140); unfold WAL_HEADER_SIZE; lia. Defined.

Module RecoveryRun.
Definition cell (v : Z) : gmap string (Value unit) := {[ "k" := VInt64 v ]}.
Definition writes : list (TxnWrite (Value unit)) :=
  [TxnInsert "t" 6 (cell 60); TxnInsert "u" 9 (cell 90); TxnUpdate "t" 2 (cell 0) (cell 20);
   TxnDelete "t" 3 (cell 30)].
Definition numbered (records : list (WalRecord unit)) (first : Z) : list (Z * WalRecord unit) :=
  zip ((fun i => first + 30 * Z.of_nat i) <$> seq 0 (length records)) records.
Definition no_live (_ : Z) : bool := false.

(** Transaction 7 has committed before. *)
Definition before : list (Z * WalRecord unit) :=
  numbered (txn_wal_records 7 "t" [TxnUpdate "t" 1 (cell 0) (cell 10)]) 24.
End RecoveryRun.

Lemma recovery_updates_exact_witness :
  sc_committed_updates (scan_wal_for_recovery None 200 RecoveryRun.no_live 5 RecoveryRun.before) =
  (updates_to_replay 24 RecoveryRun.no_live ∅ RecoveryRun.before).*2.
Proof.
  apply (recovery_updates_exact None 200 RecoveryRun.no_live 5 RecoveryRun.before).
  vm_compute. repeat constructor.
Defined.


Lemma recovery_completes_delta_witness :
  6 ∈ delta_rows ([] ++ [missing_inserts RecoveryRun.no_live 5 0 (txn_wal_records 1 "t" RecoveryRun.writes) []]).
Proof.
  refine (proj1 (recovery_completes_delta RecoveryRun.no_live 5 0 (txn_wal_records 1 "t" RecoveryRun.writes) [] _ _)
            (6, txn_wal_value <$> RecoveryRun.cell 60) _ _).
  - lia.
  - intros row Hrow Hb Hle. lia.
  - change (committed_inserts RecoveryRun.no_live (txn_wal_records 1 "t" RecoveryRun.writes)) with
      [(6, txn_wal_value <$> RecoveryRun.cell 60)]. by left.
  - cbn. lia.
Defined.

(** Row ids do not follow commit order: when a transaction with a higher row id has
    been applied and one with a lower id has only reached its commit marker, the high-water
    check of recovery skips the committed row, and it is lost. *)
Theorem out_of_order_commit_not_recovered :
  let records := txn_wal_records 2 "t" [TxnInsert "t" 6 (RecoveryRun.cell 60)] ++
                 txn_wal_records 1 "t" [TxnInsert "t" 5 (RecoveryRun.cell 50)] in
  let delta := [[(6, txn_wal_value <$> RecoveryRun.cell 60)]] in
  let scan := scan_wal_for_recovery None 400 RecoveryRun.no_live 1 (RecoveryRun.numbered records 24) in
  (committed_inserts RecoveryRun.no_live (sc_records scan)).*1 = [6; 5] /\
  missing_inserts RecoveryRun.no_live 1 6 (sc_records scan) delta = [].
Proof. vm_compute. done. Qed.

(** Inserts and deletes, unlike updates, are classified by transaction id alone: after a
    restart has handed out an id again, the rows of an unfinished transaction count as
    committed because an earlier transaction with that id was. *)
Theorem reused_txn_id_revives_insert :
  let records := txn_wal_records 1 "t" [TxnInsert "t" 5 (RecoveryRun.cell 50)] ++
                 take 2 (txn_wal_records 1 "t" [TxnInsert "t" 6 (RecoveryRun.cell 60)]) in
  let scan := scan_wal_for_recovery None 400 RecoveryRun.no_live 1 (RecoveryRun.numbered records 24) in
  sc_uncommitted_insert_ids scan = ∅ /\
  (missing_inserts RecoveryRun.no_live 1 5 (sc_records scan) [[(5, txn_wal_value <$> RecoveryRun.cell 50)]]).*1 = [6].
Proof. vm_compute. done. Qed.
