(* ===== verification/IndexKey.v ===== *)
(** * Index keys

    Models [IndexKey] of [storage/index/btree.rs]: the conversion from values, the
    hand-written [Ord] and [semantically_eq].  The order is compared with the
    lexicographic order of a canonical encoding, which makes it a total preorder on
    keys without NaN. *)
From S2P Require Import Prelude Float Values Bytes.
From stdpp Require Import countable.
Local Open Scope Z_scope.

Inductive IndexKey :=
| KNull
| KBool (b : bool)
| KInt (v : Z)
| KUInt (v : Z)
| KFloat (bits : Z)
| KStr (s : string)
| KBytes (b : list Z)
| KTuple (version : Z) (values : list IndexKey).

Section key_ind.
Variable P : IndexKey -> Prop.
Hypothesis Hnull : P KNull.
Hypothesis Hbool : forall b, P (KBool b).
Hypothesis Hint : forall v, P (KInt v).
Hypothesis Huint : forall v, P (KUInt v).
Hypothesis Hfloat : forall v, P (KFloat v).
Hypothesis Hstr : forall s, P (KStr s).
Hypothesis Hbytes : forall b, P (KBytes b).
Hypothesis Htuple : forall n ks, Forall P ks -> P (KTuple n ks).

(** Induction through the elements of tuples. *)
Fixpoint key_ind' (k : IndexKey) : P k :=
  match k with
  | KNull => Hnull | KBool b => Hbool b | KInt v => Hint v | KUInt v => Huint v
  | KFloat v => Hfloat v | KStr s => Hstr s | KBytes b => Hbytes b
  | KTuple n ks => Htuple n ks
      ((fix go (l : list IndexKey) : Forall P l :=
          match l with
          | [] => List.Forall_nil _
          | k :: l => List.Forall_cons _ _ _ (key_ind' k) (go l)
          end) ks)
  end.
End key_ind.

(** *** Decidable equality and countability, through generic trees *)

Definition key_leaf : Type := bool + (Z + (string + list Z)).

Fixpoint key_to_tree (k : IndexKey) : gen_tree key_leaf :=
  match k with
  | KNull => GenNode 0 []
  | KBool b => GenNode 1 [GenLeaf (inl b)]
  | KInt v => GenNode 2 [GenLeaf (inr (inl v))]
  | KUInt v => GenNode 3 [GenLeaf (inr (inl v))]
  | KFloat v => GenNode 4 [GenLeaf (inr (inl v))]
  | KStr s => GenNode 5 [GenLeaf (inr (inr (inl s)))]
  | KBytes b => GenNode 6 [GenLeaf (inr (inr (inr b)))]
  | KTuple n ks => GenNode 7 (GenLeaf (inr (inl n)) :: (key_to_tree <$> ks))
  end.

Fixpoint key_of_tree (t : gen_tree key_leaf) : IndexKey :=
  match t with
  | GenNode 1 [GenLeaf (inl b)] => KBool b
  | GenNode 2 [GenLeaf (inr (inl v))] => KInt v
  | GenNode 3 [GenLeaf (inr (inl v))] => KUInt v
  | GenNode 4 [GenLeaf (inr (inl v))] => KFloat v
  | GenNode 5 [GenLeaf (inr (inr (inl s)))] => KStr s
  | GenNode 6 [GenLeaf (inr (inr (inr b)))] => KBytes b
  | GenNode 7 (GenLeaf (inr (inl n)) :: ts) => KTuple n (key_of_tree <$> ts)
  | _ => KNull
  end.

Lemma key_of_to_tree k : key_of_tree (key_to_tree k) = k.
Proof.
  induction k as [| | | | | | |n ks IH] using key_ind'; try done.
  assert (key_of_tree <$> (key_to_tree <$> ks) = ks) as Hks.
  { induction IH as [|k ks Hk _ IH]; [done|]. by rewrite !fmap_cons, Hk, IH. }
  exact (f_equal (KTuple n) Hks).
Qed.

Lemma key_to_tree_inj a b : key_to_tree a = key_to_tree b -> a = b.
Proof. intros H. by rewrite <-(key_of_to_tree a), <-(key_of_to_tree b), H. Qed.

#[global] Instance IndexKey_eq_dec : EqDecision IndexKey.
Proof.
  refine (fun a b => cast_if (decide (key_to_tree a = key_to_tree b))).
  - by apply key_to_tree_inj.
  - by intros ->.
Defined.

#[global] Instance IndexKey_countable : Countable IndexKey.
Proof. apply (inj_countable' key_to_tree key_of_tree), key_of_to_tree. Defined.

(** ** Construction *)

Section from_value.
Context {J : Type} (json_to_string : J -> string).

Definition key_from_value (val : Value J) : IndexKey :=
  match val with
  | VNull => KNull
  | VBool b => KBool b
  | VInt8 v | VInt16 v | VInt32 v | VInt64 v => KInt v
  | VUInt8 v | VUInt16 v | VUInt32 v | VUInt64 v => KUInt v
  | VFloat32 f => KFloat (f64_of_f32 f)
  | VFloat64 f => KFloat f
  | VString s => KStr s
  | VBinary b => KBytes b
  | VBlob b => KBytes b
  | VTimestamp t => KInt t
  | VDate d => KInt d
  | VTime t => KInt t
  | VInterval t => KInt t
  | VJson j => KStr (json_to_string j)
  | VArray _ => KNull
  | VFixedList _ => KNull
  end.
End from_value.

(** ** Order *)

(** Lexicographic order, that of [Vec] and of byte slices. *)
Fixpoint lex {A} (cmp : A -> A -> comparison) (a b : list A) : comparison :=
  match a, b with
  | [], [] => Eq
  | [], _ :: _ => Lt
  | _ :: _, [] => Gt
  | x :: a, y :: b => match cmp x y with Eq => lex cmp a b | c => c end
  end.

Definition disc_index (k : IndexKey) : Z :=
  match k with
  | KNull => 0 | KBool _ => 1 | KInt _ => 2 | KUInt _ => 3 | KFloat _ => 4
  | KStr _ => 5 | KBytes _ => 6 | KTuple _ _ => 7
  end.

(** [a as u64] of an [i64]. *)
Definition as_u64 (v : Z) : Z := wrap64 v.

(** [impl Ord for IndexKey] *)
Fixpoint IndexKey_cmp (a b : IndexKey) : comparison :=
  match a, b with
  | KNull, KNull => Eq
  | KNull, _ => Lt
  | _, KNull => Gt
  | KBool a, KBool b => bool_cmp a b
  | KInt a, KInt b => a ?= b
  | KUInt a, KUInt b => a ?= b
  | KInt a, KUInt b => if a <? 0 then Lt else as_u64 a ?= b
  | KUInt a, KInt b => if b <? 0 then Gt else a ?= as_u64 b
  | KFloat a, KFloat b => default Eq (f64_partial_cmp a b)
  | KStr a, KStr b => String.compare a b
  | KBytes a, KBytes b => lex Z.compare a b
  | KTuple av a, KTuple bv b =>
      match av ?= bv with Eq => lex IndexKey_cmp a b | c => c end
  | _, _ => disc_index a ?= disc_index b
  end.

Definition semantically_eq (a b : IndexKey) : bool :=
  match a, b with
  | KInt l, KUInt r => (0 <=? l) && (as_u64 l =? r)
  | KUInt l, KInt r => (0 <=? r) && (l =? as_u64 r)
  | KFloat l, KInt r => f64_eq l (f64_of_Z r)
  | KInt r, KFloat l => f64_eq l (f64_of_Z r)
  | KFloat l, KUInt r => f64_eq l (f64_of_Z r)
  | KUInt r, KFloat l => f64_eq l (f64_of_Z r)
  | _, _ => bool_decide (a = b)
  end.

Definition key_lt (a b : IndexKey) : bool :=
  match IndexKey_cmp a b with Lt => true | _ => false end.

Definition key_le (a b : IndexKey) : bool :=
  match IndexKey_cmp a b with Gt => false | _ => true end.

(** *** The canonical encoding

    A prefix-free image of a key; on NaN-free keys the order of keys is the
    lexicographic order of their images. *)

Fixpoint key_ok (k : IndexKey) : Prop :=
  match k with
  | KInt v => - 2 ^ 63 <= v < 2 ^ 63
  | KUInt v => 0 <= v < 2 ^ 64
  | KFloat b => f64_is_nan b = false
  | KBytes b => Forall (fun x => 0 <= x) b
  | KTuple _ ks => (fix go (l : list IndexKey) : Prop :=
      match l with [] => True | k :: l => key_ok k /\ go l end) ks
  | _ => True
  end.

Lemma key_ok_tuple n ks : key_ok (KTuple n ks) <-> Forall key_ok ks.
Proof.
  simpl. induction ks as [|k ks IH]; [by split|]. rewrite IH. split.
  - intros [? ?]. by constructor.
  - intros Hall. exact (Forall_cons_1 _ _ _ Hall).
Qed.

(** A byte sequence, shifted by one and closed by zero. *)
Definition enc_bytes (b : list Z) : list Z := ((fun x => x + 1) <$> b) ++ [0].

Fixpoint key_enc (k : IndexKey) : list Z :=
  match k with
  | KNull => [0]
  | KBool b => [1; if b then 1 else 0]
  | KInt v | KUInt v => [2; v]
  | KFloat b => [4; f64_key b]
  | KStr s => 5 :: enc_bytes (string_bytes s)
  | KBytes b => 6 :: enc_bytes b
  | KTuple n ks => 7 :: n :: foldr (fun k acc => 1 :: key_enc k ++ acc) [0] ks
  end.

Abbreviation zlex := (lex Z.compare).

Lemma string_bytes_nonneg s : Forall (fun x => 0 <= x) (string_bytes s).
Proof. induction s; simpl; constructor; [lia|done]. Qed.

Lemma string_compare_bytes s1 s2 : String.compare s1 s2 = zlex (string_bytes s1) (string_bytes s2).
Proof.
  revert s2. induction s1 as [|c s1 IH]; intros [|d s2]; try done. simpl. rewrite IH.
  unfold Ascii.compare. by rewrite N2Z.inj_compare.
Qed.

Lemma enc_bytes_lex a b x y :
  Forall (fun z => 0 <= z) a -> Forall (fun z => 0 <= z) b ->
  zlex (enc_bytes a ++ x) (enc_bytes b ++ y) =
    match zlex a b with Eq => zlex x y | c => c end.
Proof.
  unfold enc_bytes. revert b. induction a as [|p a IH]; intros [|q b] Ha Hb;
    cbn -[Z.add Z.compare]; change (?f <$> ?l) with (map f l) in *.
  - done.
  - apply Forall_cons_1 in Hb as [Hq _]. by rewrite (proj2 (Z.compare_lt_iff 0 (q + 1))) by lia.
  - apply Forall_cons_1 in Ha as [Hp _]. by rewrite (proj2 (Z.compare_gt_iff (p + 1) 0)) by lia.
  - apply Forall_cons_1 in Ha as [_ Ha]. apply Forall_cons_1 in Hb as [_ Hb].
    replace (p + 1 ?= q + 1) with (p ?= q)
      by (rewrite (Z.add_comm p), (Z.add_comm q), Zcompare_plus_compat; done).
    destruct (p ?= q); try done. by apply IH.
Qed.

Lemma as_u64_id v : 0 <= v < 2 ^ 63 -> as_u64 v = v.
Proof. intros. apply wrap64_small. unfold u64, U64_MAX. lia. Qed.

(** The order of keys is the order of their encodings. *)
Lemma key_enc_lex a : forall b x y, key_ok a -> key_ok b ->
  zlex (key_enc a ++ x) (key_enc b ++ y) =
    match IndexKey_cmp a b with Eq => zlex x y | c => c end.
Proof.
  induction a as [|p|p|p|p|p|p|n ks IH] using key_ind'; intros b x y Ha Hb;
    destruct b as [|q|q|q|q|q|q|m ls]; try reflexivity.
  - by destruct p, q.
  - simpl in *. destruct (p <? 0) eqn:Hp; zb.
    + by rewrite (proj2 (Z.compare_lt_iff p q)) by lia.
    + rewrite as_u64_id by lia. by destruct (p ?= q).
  - simpl in *. destruct (q <? 0) eqn:Hq; zb.
    + by rewrite (proj2 (Z.compare_gt_iff p q)) by lia.
    + rewrite as_u64_id by lia. by destruct (p ?= q).
  - cbn in Ha, Hb. cbn -[f64_key f64_partial_cmp]. unfold f64_partial_cmp. rewrite Ha, Hb. simpl.
    by destruct (f64_key p ?= f64_key q).
  - simpl. rewrite enc_bytes_lex by apply string_bytes_nonneg. by rewrite string_compare_bytes.
  - simpl. by apply enc_bytes_lex.
  - rewrite key_ok_tuple in Ha, Hb. simpl. destruct (n ?= m); try done.
    revert ls Hb. induction IH as [|k ks Hk _ IHks]; intros [|l ls] Hb; try reflexivity.
    apply Forall_cons_1 in Ha as [Hka Ha]. apply Forall_cons_1 in Hb as [Hlb Hb].
    simpl. rewrite <-!app_assoc, Hk by done. destruct (IndexKey_cmp k l); try done. by apply IHks.
Qed.

Lemma zlex_eq a b : zlex a b = Eq <-> a = b.
Proof.
  revert b. induction a as [|x a IH]; intros [|y b]; try done. simpl.
  destruct (Z.compare_spec x y) as [->|Hlt|Hgt].
  - rewrite IH. split; congruence.
  - split; [done|]. intros [= -> _]. lia.
  - split; [done|]. intros [= -> _]. lia.
Qed.

Lemma zlex_antisym a b : zlex b a = CompOpp (zlex a b).
Proof.
  revert b. induction a as [|x a IH]; intros [|y b]; try done. simpl.
  rewrite (Z.compare_antisym x y). destruct (x ?= y); [apply IH|done..].
Qed.

Lemma zlex_trans a b c : zlex a b = Lt -> zlex b c = Lt -> zlex a c = Lt.
Proof.
  revert b c. induction a as [|x a IH]; intros [|y b] [|z c]; try done. simpl.
  destruct (Z.compare_spec x y) as [->|Hxy|Hxy]; try done;
    destruct (Z.compare_spec y z) as [->|Hyz|Hyz]; try done; intros H1 H2;
    first [by eapply IH|by rewrite (proj2 (Z.compare_lt_iff _ _)) by lia|done].
Qed.

Lemma IndexKey_cmp_enc a b :
  key_ok a -> key_ok b -> IndexKey_cmp a b = zlex (key_enc a) (key_enc b).
Proof.
  intros Ha Hb. pose proof (key_enc_lex a b [] [] Ha Hb) as H. rewrite !app_nil_r in H.
  rewrite H. by destruct (IndexKey_cmp a b).
Qed.

Lemma IndexKey_cmp_eq a b :
  key_ok a -> key_ok b -> IndexKey_cmp a b = Eq <-> key_enc a = key_enc b.
Proof. intros Ha Hb. rewrite IndexKey_cmp_enc by done. apply zlex_eq. Qed.

Lemma IndexKey_cmp_antisym a b :
  key_ok a -> key_ok b -> IndexKey_cmp b a = CompOpp (IndexKey_cmp a b).
Proof. intros Ha Hb. rewrite !IndexKey_cmp_enc by done. apply zlex_antisym. Qed.

Lemma IndexKey_lt_trans a b c :
  key_ok a -> key_ok b -> key_ok c ->
  IndexKey_cmp a b = Lt -> IndexKey_cmp b c = Lt -> IndexKey_cmp a c = Lt.
Proof. intros Ha Hb Hc. rewrite !IndexKey_cmp_enc by done. apply zlex_trans. Qed.

Lemma IndexKey_cmp_compat a b c :
  key_ok a -> key_ok b -> key_ok c -> IndexKey_cmp a b = Eq -> IndexKey_cmp a c = IndexKey_cmp b c.
Proof.
  intros Ha Hb Hc Heq. rewrite !IndexKey_cmp_enc by done.
  by rewrite (proj1 (IndexKey_cmp_eq a b Ha Hb) Heq).
Qed.

Lemma key_le_spec a b : key_le a b = true <-> IndexKey_cmp a b <> Gt.
Proof. unfold key_le. by destruct (IndexKey_cmp a b). Qed.

(** Index keys are totally preordered: on keys without NaN the hand-written [Ord]
    is reflexive, antisymmetric and transitive, and keys that compare equal (an
    [Int] and the [UInt] of the same value, the two float zeros, or tuples of
    such) are interchangeable in every comparison. *)
Theorem index_key_order a b c :
  key_ok a -> key_ok b -> key_ok c ->
  IndexKey_cmp a a = Eq /\
  IndexKey_cmp b a = CompOpp (IndexKey_cmp a b) /\
  (key_le a b = true -> key_le b c = true -> key_le a c = true) /\
  (IndexKey_cmp a b = Eq -> IndexKey_cmp a c = IndexKey_cmp b c).
Proof.
  intros Ha Hb Hc. split_and!.
  - by apply IndexKey_cmp_eq.
  - by apply IndexKey_cmp_antisym.
  - unfold key_le. intros H1 H2.
    destruct (IndexKey_cmp a b) eqn:E1; try done.
    + by rewrite (IndexKey_cmp_compat a b c).
    + destruct (IndexKey_cmp b c) eqn:E2; try done.
      * pose proof (IndexKey_cmp_compat b c a Hb Hc Ha E2) as E3.
        rewrite (IndexKey_cmp_antisym c a) by done. rewrite <-E3, (IndexKey_cmp_antisym a b) by done.
        by rewrite E1.
      * by rewrite (IndexKey_lt_trans a b c).
  - by apply IndexKey_cmp_compat.
Qed.

Lemma index_key_order_witness :
  IndexKey_cmp (KTuple 1 [KInt 5; KStr "a"]) (KTuple 1 [KUInt 6; KNull]) =
  IndexKey_cmp (KTuple 1 [KUInt 5; KStr "a"]) (KTuple 1 [KUInt 6; KNull]).
Proof.
  apply (index_key_order (KTuple 1 [KInt 5; KStr "a"]) (KTuple 1 [KUInt 5; KStr "a"])
           (KTuple 1 [KUInt 6; KNull])).
  - simpl. lia.
  - simpl. lia.
  - simpl. lia.
  - reflexivity.
Defined.

(** NaN breaks the order of keys: a NaN key compares equal to two keys that differ,
    so the order the B-tree relies on is not transitive on float columns holding NaN. *)
Theorem nan_key_breaks_order :
  let one := KFloat (f64_of_Z 1) in let two := KFloat (f64_of_Z 2) in
  let nan := KFloat (F64_INF + 1) in
  IndexKey_cmp one nan = Eq /\ IndexKey_cmp nan two = Eq /\ IndexKey_cmp one two = Lt.
Proof. vm_compute. split_and!; reflexivity. Qed.
