(* ===== verification/Postings.v ===== *)
(** * Postings: what an index promises

    An index, whatever its structure, is a bag of postings (key image, row).  The
    class [PostingIndex] states the operations of [IndexInstance]
    ([storage/index/index_manager.rs]) and their laws against that bag; the B-tree
    and the hash index are its instances. *)
From S2P Require Import Prelude Values IndexKey.
Local Open Scope Z_scope.

Section bags.
Context {A : Type} `{EqDecision A}.
Implicit Types (b : list (A * Z)) (a : A) (r : Z).

(** The rows filed under [a], in order. *)
Definition rows_at b a : list Z := snd <$> List.filter (fun p => bool_decide (p.1 = a)) b.

Fixpoint remove_posting (p : A * Z) b : list (A * Z) :=
  match b with
  | [] => []
  | q :: b => if decide (q = p) then b else q :: remove_posting p b
  end.

Lemma rows_at_app b1 b2 a : rows_at (b1 ++ b2) a = rows_at b1 a ++ rows_at b2 a.
Proof. unfold rows_at. by rewrite List.filter_app, fmap_app. Qed.

Lemma rows_at_cons p b a :
  rows_at (p :: b) a = if bool_decide (p.1 = a) then p.2 :: rows_at b a else rows_at b a.
Proof. unfold rows_at. simpl. by case_bool_decide. Qed.

Lemma filter_perm (f : A * Z -> bool) b1 b2 : b1 ≡ₚ b2 -> List.filter f b1 ≡ₚ List.filter f b2.
Proof.
  induction 1 as [|x l l' _ IH|x y l|l1 l2 l3 _ IH1 _ IH2]; cbn.
  - done.
  - case_match; [by constructor|done].
  - repeat case_match; done || constructor.
  - by etrans.
Qed.

Lemma rows_at_perm b1 b2 a : b1 ≡ₚ b2 -> rows_at b1 a ≡ₚ rows_at b2 a.
Proof. intros H. by apply fmap_Permutation, filter_perm. Qed.

#[global] Instance rows_at_proper :
  Proper ((≡ₚ) ==> eq ==> (≡ₚ)) rows_at.
Proof. intros b1 b2 Hb a ? <-. by apply rows_at_perm. Qed.

Lemma rows_at_elem b a r : r ∈ rows_at b a <-> (a, r) ∈ b.
Proof.
  unfold rows_at. rewrite list_elem_of_fmap. split.
  - intros ([a' r'] & -> & Hin). apply list_elem_of_In, List.filter_In in Hin as [Hin He].
    apply bool_decide_eq_true in He. simpl in He. subst. by apply list_elem_of_In.
  - intros Hin. exists (a, r). split; [done|]. apply list_elem_of_In, List.filter_In.
    split; [by apply list_elem_of_In|]. by apply bool_decide_eq_true_2.
Qed.

Lemma remove_posting_perm p b : p ∈ b -> b ≡ₚ p :: remove_posting p b.
Proof.
  induction b as [|q b IH]; intros Hp; [by apply elem_of_nil in Hp|]. simpl.
  case_decide as Hq; [by subst|]. apply elem_of_cons in Hp as [->|Hp]; [done|].
  rewrite (IH Hp) at 1. by rewrite Permutation_swap.
Qed.

Lemma remove_posting_absent p b : p ∉ b -> remove_posting p b = b.
Proof.
  induction b as [|q b IH]; intros Hp; [done|]. simpl. apply not_elem_of_cons in Hp as [Hne Hp].
  rewrite decide_False by done. by rewrite IH.
Qed.
End bags.

(** The operations of an index and their laws; [ix_image] is what two keys must
    share to be the same key of the index, [ix_bag] the postings held. *)
Class PostingIndex (I A : Type) `{EqDecision A} := {
  ix_image : IndexKey -> A;
  ix_bag : I -> list (A * Z);
  ix_ok : I -> Prop;
  ix_unique : I -> bool;
  ix_insert : I -> IndexKey -> Z -> I * Result unit;
  ix_remove : I -> IndexKey -> Z -> I * bool;
  ix_get : I -> IndexKey -> option (list Z);
  ix_clear : I -> I;

  ix_insert_law idx k r : ix_ok idx -> key_ok k ->
    let '(idx', res) := ix_insert idx k r in
    ix_ok idx' /\ ix_unique idx' = ix_unique idx /\
    if ix_unique idx && negb (bool_decide (rows_at (ix_bag idx) (ix_image k) = []))
    then idx' = idx /\ res = Err AlreadyExists
    else res = Ok tt /\ ix_bag idx' ≡ₚ (ix_image k, r) :: ix_bag idx;
  ix_remove_law idx k r : ix_ok idx -> key_ok k ->
    let '(idx', res) := ix_remove idx k r in
    ix_ok idx' /\ ix_unique idx' = ix_unique idx /\
    res = bool_decide ((ix_image k, r) ∈ ix_bag idx) /\
    ix_bag idx' ≡ₚ remove_posting (ix_image k, r) (ix_bag idx);
  ix_get_law idx k : ix_ok idx -> key_ok k ->
    ix_get idx k =
      match rows_at (ix_bag idx) (ix_image k) with [] => None | rows => Some rows end;
  ix_clear_law idx : ix_ok (ix_clear idx) /\ ix_bag (ix_clear idx) = [] /\
    ix_unique (ix_clear idx) = ix_unique idx
}.

(** ** A sequence of operations on an index *)

Section client.
Context {I A : Type} `{PostingIndex I A}.
Implicit Types (idx : I) (b : list (A * Z)).

Inductive index_op :=
| IxInsert (k : IndexKey) (r : Z)
| IxRemove (k : IndexKey) (r : Z)
| IxClear.

Definition op_key_ok (op : index_op) : Prop :=
  match op with IxInsert k _ | IxRemove k _ => key_ok k | IxClear => True end.

(** The flag is the success of an insert, the answer of a remove. *)
Definition index_step idx (op : index_op) : I * bool :=
  match op with
  | IxInsert k r => let '(idx, res) := ix_insert idx k r in (idx, is_ok res)
  | IxRemove k r => ix_remove idx k r
  | IxClear => (ix_clear idx, true)
  end.

Definition bag_step (unique : bool) b (op : index_op) : list (A * Z) * bool :=
  match op with
  | IxInsert k r =>
      if unique && negb (bool_decide (rows_at b (ix_image k) = [])) then (b, false)
      else ((ix_image k, r) :: b, true)
  | IxRemove k r =>
      (remove_posting (ix_image k, r) b, bool_decide ((ix_image k, r) ∈ b))
  | IxClear => ([], true)
  end.

Fixpoint index_run idx (ops : list index_op) : I * list bool :=
  match ops with
  | [] => (idx, [])
  | op :: ops =>
      let '(idx, res) := index_step idx op in
      let '(idx, results) := index_run idx ops in (idx, res :: results)
  end.

Fixpoint bag_run (unique : bool) b (ops : list index_op) : list (A * Z) * list bool :=
  match ops with
  | [] => (b, [])
  | op :: ops =>
      let '(b, res) := bag_step unique b op in
      let '(b, results) := bag_run unique b ops in (b, res :: results)
  end.

Lemma rows_at_nil_perm b1 b2 a : b1 ≡ₚ b2 -> rows_at b1 a = [] <-> rows_at b2 a = [].
Proof.
  intros Hp. pose proof (rows_at_perm b1 b2 a Hp) as Hr.
  split; intros Hn; rewrite Hn in Hr; [by apply Permutation_nil in Hr|].
  symmetry in Hr. by apply Permutation_nil in Hr.
Qed.

Lemma remove_posting_proper (p : A * Z) b1 b2 :
  b1 ≡ₚ b2 -> remove_posting p b1 ≡ₚ remove_posting p b2.
Proof.
  intros Hp. destruct (decide (p ∈ b1)) as [Hin|Hin].
  - apply (Permutation_cons_inv (a := p)).
    rewrite <-!remove_posting_perm; [done|by rewrite <-Hp|done].
  - rewrite !remove_posting_absent; [done|by rewrite <-Hp|done].
Qed.

Lemma index_step_sim idx b op :
  ix_ok idx -> ix_bag idx ≡ₚ b -> op_key_ok op ->
  let '(idx', res) := index_step idx op in
  let '(b', res') := bag_step (ix_unique idx) b op in
  ix_ok idx' /\ ix_unique idx' = ix_unique idx /\ res = res' /\ ix_bag idx' ≡ₚ b'.
Proof.
  intros Hok Hb Hk. destruct op as [k r|k r|]; simpl in *.
  - pose proof (ix_insert_law idx k r Hok Hk) as Hlaw.
    destruct (ix_insert idx k r) as [idx' res]. destruct Hlaw as (Hok' & Hu & Hlaw).
    rewrite (bool_decide_ext _ _ (rows_at_nil_perm _ _ (ix_image k) Hb)) in Hlaw.
    destruct (_ && _); destruct Hlaw as [H1 H2]; subst; split_and!; try done.
    by rewrite H2, Hb.
  - pose proof (ix_remove_law idx k r Hok Hk) as Hlaw.
    destruct (ix_remove idx k r) as [idx' res]. destruct Hlaw as (Hok' & Hu & -> & Hlaw).
    split_and!; [done..| |].
    + apply bool_decide_ext. by rewrite Hb.
    + rewrite Hlaw. by apply remove_posting_proper.
  - destruct (ix_clear_law idx) as (? & -> & ?). done.
Qed.

Lemma index_run_sim ops idx b :
  ix_ok idx -> ix_bag idx ≡ₚ b -> Forall op_key_ok ops ->
  let '(idx', results) := index_run idx ops in
  let '(b', results') := bag_run (ix_unique idx) b ops in
  ix_ok idx' /\ ix_unique idx' = ix_unique idx /\ results = results' /\ ix_bag idx' ≡ₚ b'.
Proof.
  revert idx b. induction ops as [|op ops IH]; intros idx b Hok Hb Hops; [done|].
  apply Forall_cons_1 in Hops as [Hop Hops]. simpl.
  pose proof (index_step_sim idx b op Hok Hb Hop) as Hs.
  destruct (index_step idx op) as [idx1 res], (bag_step (ix_unique idx) b op) as [b1 res'].
  destruct Hs as (Hok1 & Hu & -> & Hb1). specialize (IH idx1 b1 Hok1 Hb1 Hops). rewrite Hu in IH.
  destruct (index_run idx1 ops) as [idx2 results], (bag_run (ix_unique idx) b1 ops) as [b2 results'].
  destruct IH as (? & ? & -> & ?). split_and!; done.
Qed.

Lemma bag_step_unique b op a :
  (length (rows_at b a) <= 1)%nat -> (length (rows_at (bag_step true b op).1 a) <= 1)%nat.
Proof.
  intros Hb. destruct op as [k r|k r|]; simpl.
  - case_bool_decide as Hn; simpl; [|done]. rewrite rows_at_cons. simpl.
    case_bool_decide as Ha; [subst|done]. rewrite Hn. simpl. lia.
  - destruct (decide ((ix_image k, r) ∈ b)) as [Hin|Hin].
    + rewrite (rows_at_perm _ _ a (remove_posting_perm _ _ Hin)) in Hb.
      change (?x :: ?l) with ([x] ++ l) in Hb. rewrite rows_at_app, length_app in Hb. lia.
    + by rewrite remove_posting_absent.
  - unfold rows_at. simpl. lia.
Qed.

Lemma bag_run_unique ops b a :
  (length (rows_at b a) <= 1)%nat -> (length (rows_at (bag_run true b ops).1 a) <= 1)%nat.
Proof.
  revert b. induction ops as [|op ops IH]; intros b Hb; [done|]. simpl.
  pose proof (bag_step_unique b op a Hb). destruct (bag_step true b op) as [b1 res].
  specialize (IH b1). destruct (bag_run true b1 ops). by apply IH.
Qed.

(** A unique index keeps its promise: whatever its structure, after any sequence of
    inserts, removals and clears a unique index holds at most one row per key. *)
Theorem unique_index_at_most_one idx ops k :
  ix_ok idx -> ix_unique idx = true -> ix_bag idx = [] -> Forall op_key_ok ops -> key_ok k ->
  (length (default [] (ix_get (index_run idx ops).1 k)) <= 1)%nat.
Proof.
  intros Hok Hu Hb Hops Hk.
  assert (Hbag : ix_bag idx ≡ₚ []) by by rewrite Hb.
  pose proof (index_run_sim ops idx [] Hok Hbag Hops) as Hsim. rewrite Hu in Hsim.
  pose proof (bag_run_unique ops [] (ix_image k) ltac:(unfold rows_at; simpl; lia)) as Hone.
  destruct (index_run idx ops) as [idx' res], (bag_run true [] ops) as [b' res'].
  destruct Hsim as (Hok' & _ & _ & Hb'). simpl in *. rewrite ix_get_law by done.
  pose proof (Permutation_length (rows_at_perm _ _ (ix_image k) Hb')) as Hlen.
  destruct (rows_at (ix_bag idx') (ix_image k)); simpl in *; lia.
Qed.
End client.
