(* ===== verification/BTreeIndex.v ===== *)
(** * The B-tree index

    Models [BTreeIndex] of [storage/index/btree.rs].  The standard library's
    [BTreeMap] is an association list searched and kept in order with the keys'
    [Ord]; two keys that compare equal are the same entry and the stored key stays
    the first one inserted.  [None] as the result of a range scan is the panic of
    [BTreeMap::range] on a start above the end. *)
From S2P Require Import Prelude Float Values IndexKey Postings.
Local Open Scope Z_scope.

Definition Tree : Type := list (IndexKey * list Z).

(** *** [BTreeMap] *)

Fixpoint tree_get (t : Tree) (k : IndexKey) : option (list Z) :=
  match t with
  | [] => None
  | (k', ids) :: t =>
      match IndexKey_cmp k k' with
      | Eq => Some ids
      | Lt => None
      | Gt => tree_get t k
      end
  end.

(** The entry of [k] replaced by [f] of it. *)
Fixpoint tree_alter (f : option (list Z) -> option (list Z)) (t : Tree) (k : IndexKey) : Tree :=
  match t with
  | [] => match f None with Some ids => [(k, ids)] | None => [] end
  | (k', ids) :: t' =>
      match IndexKey_cmp k k' with
      | Eq => match f (Some ids) with Some ids' => (k', ids') :: t' | None => t' end
      | Lt => match f None with Some ids' => (k, ids') :: t | None => t end
      | Gt => (k', ids) :: tree_alter f t' k
      end
  end.

(** [entry(key).or_insert_with(Vec::new).push(row_id)] *)
Definition tree_push (t : Tree) (k : IndexKey) (row_id : Z) : Tree :=
  tree_alter (fun ids => Some (default [] ids ++ [row_id])) t k.

Definition tree_rows (t : Tree) : list Z := concat (snd <$> t).

(** [for (_, ids) in tree.range(..) { result.extend_from_slice(ids) }] *)
Definition tree_select (p : IndexKey -> bool) (t : Tree) : list Z :=
  tree_rows (List.filter (fun e => p e.1) t).

(** [iter().position(|&id| id == row_id)] *)
Fixpoint position (l : list Z) (x : Z) : option nat :=
  match l with
  | [] => None
  | y :: l => if y =? x then Some 0%nat else S <$> position l x
  end.

(** [Vec::swap_remove] at a valid position. *)
Definition swap_remove (l : list Z) (i : nat) : list Z :=
  match last l with
  | Some x => take (length l - 1) (<[i := x]> l)
  | None => l
  end.

Record BTreeIndex := mkBTreeIndex {
  bt_column_name : string;
  bt_unique : bool;
  bt_tree : Tree;
  bt_entry_count : Z;
  bt_path : option string;
  bt_dirty : bool
}.

(** The fields serde writes: all but [path] and [dirty]. *)
Record BTreeImage := mkBTreeImage {
  bi_column_name : string;
  bi_unique : bool;
  bi_tree : Tree;
  bi_entry_count : Z
}.

Section operations.
Implicit Types (idx : BTreeIndex) (key : IndexKey).

Definition BTreeIndex_new (column_name : string) (unique : bool) : BTreeIndex :=
  mkBTreeIndex column_name unique [] 0 None false.

Definition BTreeIndex_with_path (column_name : string) (unique : bool) (path : string) : BTreeIndex :=
  mkBTreeIndex column_name unique [] 0 (Some path) false.

Definition BTreeIndex_len idx : Z := bt_entry_count idx.
Definition BTreeIndex_is_empty idx : bool := bt_entry_count idx =? 0.
Definition BTreeIndex_distinct_keys idx : nat := length (bt_tree idx).

(** A changed tree and count; the index becomes dirty. *)
Definition bt_update idx (t : Tree) (count : Z) : BTreeIndex :=
  mkBTreeIndex (bt_column_name idx) (bt_unique idx) t count (bt_path idx) true.

Definition BTreeIndex_insert idx key (row_id : Z) : BTreeIndex * Result unit :=
  let inserted :=
    (bt_update idx (tree_push (bt_tree idx) key row_id) (wrap64 (bt_entry_count idx + 1)), Ok tt) in
  if bt_unique idx then
    match tree_get (bt_tree idx) key with
    | Some (_ :: _) => (idx, Err AlreadyExists)
    | _ => inserted
    end
  else inserted.

Definition BTreeIndex_remove idx key (row_id : Z) : BTreeIndex * bool :=
  match tree_get (bt_tree idx) key with
  | Some ids =>
      match position ids row_id with
      | Some pos =>
          let ids := swap_remove ids pos in
          (bt_update idx
             (tree_alter (fun _ => if bool_decide (ids = []) then None else Some ids)
                (bt_tree idx) key)
             (wrap64 (bt_entry_count idx - 1)), true)
      | None => (idx, false)
      end
  | None => (idx, false)
  end.

Definition BTreeIndex_bulk_insert idx (pairs : list (IndexKey * Z)) : BTreeIndex :=
  bt_update idx (fold_left (fun t p => tree_push t p.1 p.2) pairs (bt_tree idx))
    (fold_left (fun n _ => wrap64 (n + 1)) pairs (bt_entry_count idx)).

Definition BTreeIndex_get idx key : option (list Z) := tree_get (bt_tree idx) key.

Definition range_inclusive idx (start end_ : IndexKey) : option (list Z) :=
  if key_lt end_ start then None
  else Some (tree_select (fun k => key_le start k && key_le k end_) (bt_tree idx)).

Definition range_exclusive idx (start end_ : IndexKey) : option (list Z) :=
  if key_lt end_ start then None
  else Some (tree_select (fun k => key_le start k && key_lt k end_) (bt_tree idx)).

Definition greater_than idx key : list Z :=
  tree_select (fun k => key_le key k && key_lt key k) (bt_tree idx).

Definition greater_than_or_equal idx key : list Z :=
  tree_select (fun k => key_le key k) (bt_tree idx).

Definition less_than idx key : list Z := tree_select (fun k => key_lt k key) (bt_tree idx).

Definition less_than_or_equal idx key : list Z := tree_select (fun k => key_le k key) (bt_tree idx).

(** [values.iter().zip(prefix).all(|(v, e)| v.semantically_eq(e))] *)
Definition zip_all_eq (values prefix : list IndexKey) : bool :=
  forallb (fun vp => semantically_eq vp.1 vp.2) (combine values prefix).

(** The tests of the loop body of [tuple_prefix], the key kept when none [continue]s. *)
Definition tuple_matches (prefix : list IndexKey) (range : option (IndexKey * IndexKey))
    (key : IndexKey) : bool :=
  match key with
  | KTuple 1 values =>
      if (length values <? length prefix)%nat || negb (zip_all_eq values prefix) then false
      else
        match range with
        | Some (low, high) =>
            match values !! length prefix with
            | Some value => negb (key_lt value low || key_lt high value)
            | None => false
            end
        | None => true
        end
  | _ => false
  end.

Definition BTreeIndex_tuple_prefix idx (prefix : list IndexKey)
    (range : option (IndexKey * IndexKey)) : list Z :=
  tree_select (tuple_matches prefix range) (bt_tree idx).

Definition BTreeIndex_clear idx : BTreeIndex := bt_update idx [] 0.

(** [save]: the image written, when the index is dirty and has a path. *)
Definition BTreeIndex_save idx : BTreeIndex * option (string * BTreeImage) :=
  if negb (bt_dirty idx) then (idx, None)
  else
    match bt_path idx with
    | Some path =>
        (mkBTreeIndex (bt_column_name idx) (bt_unique idx) (bt_tree idx) (bt_entry_count idx)
           (bt_path idx) false,
         Some (path, mkBTreeImage (bt_column_name idx) (bt_unique idx) (bt_tree idx)
                       (bt_entry_count idx)))
    | None => (idx, None)
    end.

Definition BTreeIndex_load (path : string) (image : BTreeImage) : BTreeIndex :=
  mkBTreeIndex (bi_column_name image) (bi_unique image) (bi_tree image) (bi_entry_count image)
    (Some path) false.
End operations.

(** ** The tree as a sorted bag of postings *)

(** A posting is the encoding of a key and a row; equal keys have equal encodings. *)
Abbreviation posting := (list Z * Z)%type.

Definition postings_of (k : IndexKey) (ids : list Z) : list posting :=
  (fun r => (key_enc k, r)) <$> ids.

Definition bag (t : Tree) : list posting := concat ((fun e => postings_of e.1 e.2) <$> t).

Definition entry_lt (a b : IndexKey * list Z) : Prop :=
  zlex (key_enc a.1) (key_enc b.1) = Lt.

Definition tree_wf (t : Tree) : Prop :=
  StronglySorted entry_lt t /\ Forall (fun e => key_ok e.1 /\ e.2 <> []) t.

Lemma tree_nil_wf : tree_wf [].
Proof. split; constructor. Qed.

Lemma tree_wf_cons k ids t :
  tree_wf ((k, ids) :: t) <->
  tree_wf t /\ key_ok k /\ ids <> [] /\ Forall (fun e => zlex (key_enc k) (key_enc e.1) = Lt) t.
Proof.
  unfold tree_wf. split.
  - intros [Hs Hf]. inversion Hs; subst. apply Forall_cons_1 in Hf as [[? ?] ?]. done.
  - intros ([Hs Hf] & ? & ? & ?). split; constructor; done.
Qed.

Lemma bag_cons k ids t : bag ((k, ids) :: t) = postings_of k ids ++ bag t.
Proof. done. Qed.

Lemma rows_at_postings k ids e :
  rows_at (postings_of k ids) e = if bool_decide (key_enc k = e) then ids else [].
Proof.
  unfold rows_at, postings_of. induction ids as [|r ids IH]; simpl; [by case_match|].
  case_bool_decide; simpl; [f_equal|]; exact IH.
Qed.

Lemma rows_at_above e t :
  Forall (fun x => zlex e (key_enc x.1) = Lt) t -> rows_at (bag t) e = [].
Proof.
  induction 1 as [|[k ids] t Hk _ IH]; [done|]. rewrite bag_cons, rows_at_app, IH.
  rewrite rows_at_postings, bool_decide_eq_false_2; [done|]. intros <-. simpl in Hk.
  by rewrite (proj2 (zlex_eq _ _) eq_refl) in Hk.
Qed.

(** Point lookup is exact. *)
Lemma tree_get_spec t k :
  tree_wf t -> key_ok k ->
  tree_get t k = match rows_at (bag t) (key_enc k) with [] => None | ids => Some ids end.
Proof.
  intros Hwf Hk. induction t as [|[k' ids] t IH]; [done|].
  apply tree_wf_cons in Hwf as (Hwf & Hk' & Hne & Hlt). simpl.
  rewrite IndexKey_cmp_enc by done. rewrite bag_cons, rows_at_app, rows_at_postings.
  destruct (zlex (key_enc k) (key_enc k')) eqn:Hc.
  - apply zlex_eq in Hc. rewrite Hc, bool_decide_eq_true_2 by done.
    rewrite rows_at_above, app_nil_r by done. by destruct ids.
  - rewrite bool_decide_eq_false_2.
    2: { intros Heq. rewrite Heq, (proj2 (zlex_eq _ _) eq_refl) in Hc. done. }
    rewrite rows_at_above; [done|]. eapply Forall_impl; [exact Hlt|].
    simpl. intros x Hx. by eapply zlex_trans.
  - rewrite bool_decide_eq_false_2; [by apply IH|].
    intros Heq. by rewrite Heq, (proj2 (zlex_eq _ _) eq_refl) in Hc.
Qed.

Lemma tree_alter_bag f t k :
  Forall (fun e => key_ok e.1) t -> key_ok k ->
  exists rest, bag t ≡ₚ postings_of k (default [] (tree_get t k)) ++ rest /\
    bag (tree_alter f t k) ≡ₚ postings_of k (default [] (f (tree_get t k))) ++ rest.
Proof.
  intros Hok Hk. induction t as [|[k' ids] t IH]; simpl.
  - exists []. split; [done|]. by destruct (f None).
  - apply Forall_cons_1 in Hok as [Hk' Hok]. simpl in Hk'.
    destruct (IndexKey_cmp k k') eqn:Hc.
    + apply IndexKey_cmp_eq in Hc; [|done..]. exists (bag t).
      assert (He : forall l, postings_of k l = postings_of k' l)
        by (intros; unfold postings_of; by rewrite Hc).
      split; [by rewrite bag_cons, <-He|]. destruct (f (Some ids)); simpl; [|done].
      by rewrite bag_cons, <-He.
    + exists (bag ((k', ids) :: t)). split; [done|]. by destruct (f None).
    + destruct (IH Hok) as (rest & H1 & H2). exists (postings_of k' ids ++ rest).
      split; rewrite bag_cons, ?H1, ?H2; by rewrite Permutation_app_swap_app.
Qed.

Lemma tree_alter_Forall (P : IndexKey -> Prop) f t k :
  P k -> Forall (fun e => P e.1) t -> Forall (fun e => P e.1) (tree_alter f t k).
Proof.
  intros Hk. induction 1 as [|[k' ids] t Hk' Ht IH]; simpl; repeat case_match;
    repeat constructor; done.
Qed.

Lemma tree_alter_wf f t k :
  tree_wf t -> key_ok k -> (forall o, f o <> Some []) -> tree_wf (tree_alter f t k).
Proof.
  intros Hwf Hk Hf. induction t as [|[k' ids] t IH].
  - simpl. destruct (f None) as [ids|] eqn:Hn; [|apply tree_nil_wf].
    apply tree_wf_cons. split_and!; [apply tree_nil_wf|done| |constructor].
    intros ->. by apply (Hf None).
  - pose proof (proj1 (tree_wf_cons _ _ _) Hwf) as (Hwf' & Hk' & Hne & Hlt). simpl.
    destruct (IndexKey_cmp k k') eqn:Hc.
    + destruct (f (Some ids)) as [ids'|] eqn:Hi; [|done]. apply tree_wf_cons.
      split_and!; [done..| |done]. intros ->. by apply (Hf (Some ids)).
    + destruct (f None) as [ids'|] eqn:Hn; [|done]. rewrite IndexKey_cmp_enc in Hc by done.
      apply tree_wf_cons. split_and!; [done..| |].
      * intros ->. by apply (Hf None).
      * constructor; [done|]. eapply Forall_impl; [exact Hlt|].
        simpl. intros x Hx. by eapply zlex_trans.
    + apply tree_wf_cons. split_and!; [by apply IH|done..|].
      rewrite IndexKey_cmp_enc in Hc by done.
      apply (tree_alter_Forall (fun e => zlex (key_enc k') (key_enc e) = Lt)); [|done].
      by rewrite zlex_antisym, Hc.
Qed.

Lemma tree_wf_ok t : tree_wf t -> Forall (fun e => key_ok e.1) t.
Proof. intros [_ Hf]. eapply Forall_impl; [exact Hf|]. by intros ? [? _]. Qed.

Lemma tree_push_bag t k r : tree_wf t -> key_ok k -> bag (tree_push t k r) ≡ₚ (key_enc k, r) :: bag t.
Proof.
  intros Hwf Hk. unfold tree_push.
  destruct (tree_alter_bag (fun ids => Some (default [] ids ++ [r])) t k) as (rest & H1 & H2);
    [by apply tree_wf_ok|done|].
  rewrite H2, H1. simpl. unfold postings_of. rewrite fmap_app. simpl.
  by rewrite <-app_assoc, Permutation_app_swap_app.
Qed.

Lemma tree_push_wf t k r : tree_wf t -> key_ok k -> tree_wf (tree_push t k r).
Proof.
  intros. apply tree_alter_wf; [done..|]. intros o [= Ho]. by destruct (default [] o).
Qed.

(** *** Removal *)

Lemma position_spec l x :
  match position l x with
  | Some i => l !! i = Some x
  | None => x ∉ l
  end.
Proof.
  induction l as [|y l IH]; simpl; [apply not_elem_of_nil|].
  destruct (y =? x) eqn:Hy; zb; [by subst|].
  destruct (position l x); simpl; [done|]. by apply not_elem_of_cons.
Qed.

(** [swap_remove] removes one occurrence. *)
Lemma swap_remove_perm l i x : l !! i = Some x -> l ≡ₚ x :: swap_remove l i.
Proof.
  intros Hi. unfold swap_remove. destruct l as [|y l _] using rev_ind; [done|].
  rewrite last_snoc, length_app. simpl.
  replace (length l + 1 - 1)%nat with (length l) by lia.
  destruct (decide (i < length l)%nat) as [Hlt|Hge].
  - rewrite insert_app_l by done. rewrite take_app_length' by by rewrite length_insert.
    rewrite lookup_app_l in Hi by done.
    rewrite insert_take_drop by done. rewrite <-(take_drop_middle l i x Hi) at 1.
    rewrite <-!Permutation_middle, Permutation_app_comm. simpl. by rewrite Permutation_swap.
  - apply lookup_app_Some in Hi as [Hi|[_ Hi]]; [by apply lookup_lt_Some in Hi|].
    apply list_lookup_singleton_Some in Hi as [Hi ->].
    replace i with (length l) by lia.
    rewrite insert_app_r_alt by lia. rewrite Nat.sub_diag. simpl.
    rewrite take_app_length. by rewrite Permutation_app_comm.
Qed.

(** ** The index implements a bag of postings *)

Definition btree_ok (idx : BTreeIndex) : Prop :=
  tree_wf (bt_tree idx) /\ bt_entry_count idx = wrap64 (Z.of_nat (length (bag (bt_tree idx)))).

Lemma wrap64_succ_nat n : wrap64 (wrap64 (Z.of_nat n) + 1) = wrap64 (Z.of_nat (S n)).
Proof. unfold wrap64. rewrite Zplus_mod_idemp_l. f_equal. lia. Qed.

Lemma wrap64_pred_nat n : wrap64 (wrap64 (Z.of_nat (S n)) - 1) = wrap64 (Z.of_nat n).
Proof. unfold wrap64. rewrite Zminus_mod_idemp_l. f_equal. lia. Qed.

Lemma btree_push_ok idx k r :
  btree_ok idx -> key_ok k ->
  btree_ok (bt_update idx (tree_push (bt_tree idx) k r) (wrap64 (bt_entry_count idx + 1))) /\
  bag (tree_push (bt_tree idx) k r) ≡ₚ (key_enc k, r) :: bag (bt_tree idx).
Proof.
  intros [Hwf Hc] Hk. pose proof (tree_push_bag _ k r Hwf Hk) as Hb. split; [|done].
  split; simpl; [by apply tree_push_wf|]. rewrite Hc, wrap64_succ_nat, Hb. done.
Qed.

Lemma btree_insert_law idx k r :
  btree_ok idx -> key_ok k ->
  let '(idx', res) := BTreeIndex_insert idx k r in
  btree_ok idx' /\ bt_unique idx' = bt_unique idx /\
  if bt_unique idx && negb (bool_decide (rows_at (bag (bt_tree idx)) (key_enc k) = []))
  then idx' = idx /\ res = Err AlreadyExists
  else res = Ok tt /\ bag (bt_tree idx') ≡ₚ (key_enc k, r) :: bag (bt_tree idx).
Proof.
  intros Hok Hk. destruct (btree_push_ok idx k r Hok Hk) as [Hok' Hb].
  unfold BTreeIndex_insert. rewrite (tree_get_spec _ _ (proj1 Hok) Hk).
  destruct (bt_unique idx) eqn:Hu; [|by split_and!].
  destruct (rows_at (bag (bt_tree idx)) (key_enc k)) as [|x l].
  - by rewrite bool_decide_eq_true_2.
  - by rewrite bool_decide_eq_false_2.
Qed.

Lemma postings_of_elem k ids r : (key_enc k, r) ∈ postings_of k ids <-> r ∈ ids.
Proof.
  unfold postings_of. rewrite list_elem_of_fmap. split; [|eauto]. by intros (x & [= ->] & ?).
Qed.

Lemma tree_get_elem t k ids r :
  tree_wf t -> key_ok k -> tree_get t k = Some ids -> (key_enc k, r) ∈ bag t <-> r ∈ ids.
Proof.
  intros Hwf Hk Hg. rewrite (tree_get_spec _ _ Hwf Hk) in Hg. rewrite <-rows_at_elem.
  destruct (rows_at (bag t) (key_enc k)); by simplify_eq.
Qed.

(** Writing back the entry left by [swap_remove]. *)
Lemma tree_remove_bag t k ids pos r :
  tree_wf t -> key_ok k -> tree_get t k = Some ids -> ids !! pos = Some r ->
  let ids' := swap_remove ids pos in
  let t' := tree_alter (fun _ => if bool_decide (ids' = []) then None else Some ids') t k in
  tree_wf t' /\ bag t ≡ₚ (key_enc k, r) :: bag t'.
Proof.
  intros Hwf Hk Hg Hp ids' t'. split.
  { apply tree_alter_wf; [done..|]. intros o. by case_bool_decide; intros [= ?]. }
  destruct (tree_alter_bag (fun _ => if bool_decide (ids' = []) then None else Some ids') t k)
    as (rest & H1 & H2); [by apply tree_wf_ok|done|].
  fold t' in H2. rewrite H1, H2, Hg. simpl.
  replace (default [] (if bool_decide (ids' = []) then None else Some ids')) with ids'
    by by case_bool_decide.
  unfold postings_of. by rewrite (fmap_Permutation _ _ _ (swap_remove_perm _ _ _ Hp)).
Qed.

Lemma btree_remove_law idx k r :
  btree_ok idx -> key_ok k ->
  let '(idx', res) := BTreeIndex_remove idx k r in
  btree_ok idx' /\ bt_unique idx' = bt_unique idx /\
  res = bool_decide ((key_enc k, r) ∈ bag (bt_tree idx)) /\
  bag (bt_tree idx') ≡ₚ remove_posting (key_enc k, r) (bag (bt_tree idx)).
Proof.
  intros [Hwf Hc] Hk. unfold BTreeIndex_remove.
  destruct (tree_get (bt_tree idx) k) as [ids|] eqn:Hg.
  - pose proof (position_spec ids r) as Hp. destruct (position ids r) as [pos|].
    + destruct (tree_remove_bag _ _ _ _ _ Hwf Hk Hg Hp) as [Hwf' Hb].
      assert (Hin : (key_enc k, r) ∈ bag (bt_tree idx)).
      { apply (tree_get_elem _ _ _ _ Hwf Hk Hg). by eapply list_elem_of_lookup_2. }
      simpl. split_and!; [split; [done|]|done|by rewrite bool_decide_eq_true_2|].
      * simpl. rewrite Hc, Hb. simpl. by rewrite wrap64_pred_nat.
      * apply (Permutation_cons_inv (a := (key_enc k, r))).
        by rewrite <-remove_posting_perm, <-Hb.
    + assert (Hin : (key_enc k, r) ∉ bag (bt_tree idx)).
      { by rewrite (tree_get_elem _ _ _ _ Hwf Hk Hg). }
      by rewrite bool_decide_eq_false_2, remove_posting_absent.
  - assert (Hin : (key_enc k, r) ∉ bag (bt_tree idx)).
    { rewrite <-rows_at_elem. rewrite (tree_get_spec _ _ Hwf Hk) in Hg.
      destruct (rows_at _ _); [apply not_elem_of_nil|done]. }
    by rewrite bool_decide_eq_false_2, remove_posting_absent.
Qed.

#[global, program] Instance BTreeIndex_postings : PostingIndex BTreeIndex (list Z) := {
  ix_image := key_enc;
  ix_bag idx := bag (bt_tree idx);
  ix_ok := btree_ok;
  ix_unique := bt_unique;
  ix_insert := BTreeIndex_insert;
  ix_remove := BTreeIndex_remove;
  ix_get := BTreeIndex_get;
  ix_clear := BTreeIndex_clear
}.
Next Obligation. apply btree_insert_law. Qed.
Next Obligation. apply btree_remove_law. Qed.
Next Obligation. intros idx k [Hwf _] Hk. by apply tree_get_spec. Qed.
Next Obligation. intros idx. split_and!; [split; [apply tree_nil_wf|done]|done|done]. Qed.

(** *** Ranges *)

(** The rows of the postings whose key satisfies a test. *)
Definition rows_where (b : list posting) (p : list Z -> bool) : list Z :=
  snd <$> List.filter (fun x => p x.1) b.

Lemma rows_where_perm b1 b2 p : b1 ≡ₚ b2 -> rows_where b1 p ≡ₚ rows_where b2 p.
Proof. intros H. by apply fmap_Permutation, filter_perm. Qed.

(** A scan selects the postings whose key passes the test on encodings. *)
Lemma tree_select_bag (p : IndexKey -> bool) (q : list Z -> bool) t :
  (forall k, key_ok k -> p k = q (key_enc k)) -> Forall (fun e => key_ok e.1) t ->
  tree_select p t = rows_where (bag t) q.
Proof.
  intros Hpq. induction 1 as [|[k ids] t Hk _ IH]; [done|]. simpl in Hk.
  unfold tree_select, rows_where in *. simpl. rewrite bag_cons, List.filter_app, fmap_app, <-IH.
  rewrite (Hpq k Hk). clear IH. unfold postings_of.
  assert (Hids : forall l, snd <$> List.filter (fun x : posting => q x.1) ((fun r => (key_enc k, r)) <$> l)
            = if q (key_enc k) then l else []).
  { induction l as [|r l IHl]; simpl; [by case_match|].
    destruct (q (key_enc k)); simpl; [f_equal|]; exact IHl. }
  rewrite Hids. by destruct (q (key_enc k)).
Qed.

Definition enc_le (a b : list Z) : bool := match zlex a b with Gt => false | _ => true end.
Definition enc_lt (a b : list Z) : bool := match zlex a b with Lt => true | _ => false end.

Lemma key_le_enc a b : key_ok a -> key_ok b -> key_le a b = enc_le (key_enc a) (key_enc b).
Proof. intros. unfold key_le, enc_le. by rewrite IndexKey_cmp_enc. Qed.

Lemma key_lt_enc a b : key_ok a -> key_ok b -> key_lt a b = enc_lt (key_enc a) (key_enc b).
Proof. intros. unfold key_lt, enc_lt. by rewrite IndexKey_cmp_enc. Qed.

Lemma btree_new_ok c u : btree_ok (BTreeIndex_new c u).
Proof. split; [apply tree_nil_wf|done]. Qed.

(** C19 The B-tree index refines a bag of postings: after any sequence of single inserts,
    removals and clears whose keys hold no NaN float (and integers and bytes in range), the
    answers given, the entry count (as a [u64]) and the rows found under every such key are
    those of the plain list of (key, row) pairs, an insert into a unique index being refused
    exactly when the key is present.  A NaN key compares equal to every float, so the order
    is not one with it (see [nan_key_breaks_order]). *)
Theorem btree_refines_bag column unique ops :
  Forall op_key_ok ops ->
  let '(idx, results) := index_run (BTreeIndex_new column unique) ops in
  let '(b, results') := bag_run unique [] ops in
  results = results' /\
  BTreeIndex_len idx = wrap64 (Z.of_nat (length b)) /\
  forall key, key_ok key -> default [] (BTreeIndex_get idx key) ≡ₚ rows_at b (key_enc key).
Proof.
  intros Hops. pose proof (index_run_sim ops (BTreeIndex_new column unique) []
    (btree_new_ok column unique) (Permutation_refl _) Hops) as Hsim. simpl in Hsim.
  destruct (index_run _ ops) as [idx results], (bag_run unique [] ops) as [b results'].
  destruct Hsim as ([Hwf Hc] & _ & -> & Hb). split_and!; [done|by unfold BTreeIndex_len; rewrite Hc, Hb|].
  intros key Hk. unfold BTreeIndex_get. rewrite (tree_get_spec _ _ Hwf Hk), <-Hb.
  by destruct (rows_at _ _).
Qed.

(** Range scans are exact: on an index reached by any sequence of operations, each
    scan returns the rows of exactly the keys in the range, and the two-sided scans
    panic, instead of returning nothing, when the start is above the end. *)
Theorem btree_ranges_exact column unique ops low high :
  Forall op_key_ok ops -> key_ok low -> key_ok high ->
  let idx := (index_run (BTreeIndex_new column unique) ops).1 in
  let b := (bag_run unique [] ops).1 in
  (range_inclusive idx low high = None <-> key_lt high low = true) /\
  (forall rows, range_inclusive idx low high = Some rows ->
     rows ≡ₚ rows_where b (fun e => enc_le (key_enc low) e && enc_le e (key_enc high))) /\
  (forall rows, range_exclusive idx low high = Some rows ->
     rows ≡ₚ rows_where b (fun e => enc_le (key_enc low) e && enc_lt e (key_enc high))) /\
  greater_than idx low ≡ₚ rows_where b (fun e => enc_lt (key_enc low) e) /\
  greater_than_or_equal idx low ≡ₚ rows_where b (fun e => enc_le (key_enc low) e) /\
  less_than idx high ≡ₚ rows_where b (fun e => enc_lt e (key_enc high)) /\
  less_than_or_equal idx high ≡ₚ rows_where b (fun e => enc_le e (key_enc high)).
Proof.
  intros Hops Hl Hh. pose proof (index_run_sim ops (BTreeIndex_new column unique) []
    (btree_new_ok column unique) (Permutation_refl _) Hops) as Hsim. simpl in Hsim.
  destruct (index_run _ ops) as [idx results], (bag_run unique [] ops) as [b results'].
  destruct Hsim as ([Hwf _] & _ & _ & Hb). simpl. apply tree_wf_ok in Hwf.
  assert (Hsel : forall p q, (forall k, key_ok k -> p k = q (key_enc k)) ->
            tree_select p (bt_tree idx) ≡ₚ rows_where b q).
  { intros p q Hpq. rewrite (tree_select_bag p q) by done. by apply rows_where_perm. }
  unfold range_inclusive, range_exclusive. split_and!.
  - by case_match.
  - case_match; [done|]. intros rows [= <-]. apply Hsel. intros k Hk. by rewrite !key_le_enc.
  - case_match; [done|]. intros rows [= <-]. apply Hsel. intros k Hk.
    by rewrite key_le_enc, key_lt_enc.
  - apply Hsel. intros k Hk. rewrite key_le_enc, key_lt_enc by done.
    unfold enc_le, enc_lt. by destruct (zlex _ _).
  - apply Hsel. intros k Hk. by rewrite key_le_enc.
  - apply Hsel. intros k Hk. by rewrite key_lt_enc.
  - apply Hsel. intros k Hk. by rewrite key_le_enc.
Qed.

Definition demo_ops : list index_op :=
  [IxInsert (KInt 5) 1; IxInsert (KInt 9) 2; IxInsert (KUInt 5) 3; IxRemove (KInt 9) 2; IxInsert (KInt 7) 4].

Lemma demo_ops_ok : Forall op_key_ok demo_ops.
Proof. repeat constructor; simpl; lia. Qed.

Lemma btree_refines_bag_witness :
  default [] (BTreeIndex_get (index_run (BTreeIndex_new "c" false) demo_ops).1 (KInt 5)) ≡ₚ [3; 1].
Proof.
  pose proof (btree_refines_bag "c" false demo_ops demo_ops_ok) as H.
  destruct (index_run _ demo_ops) as [idx results], (bag_run false [] demo_ops) as [b results'] eqn:Hb.
  destruct H as (_ & _ & H). vm_compute in Hb. injection Hb as <- <-. simpl.
  etrans; [apply H; simpl; lia|]. vm_compute. reflexivity.
Defined.

Lemma btree_ranges_exact_witness :
  range_inclusive (index_run (BTreeIndex_new "c" false) demo_ops).1 (KInt 6) (KInt 5) = None /\
  less_than (index_run (BTreeIndex_new "c" false) demo_ops).1 (KInt 7) ≡ₚ [1; 3].
Proof.
  destruct (btree_ranges_exact "c" false demo_ops (KInt 6) (KInt 5) demo_ops_ok
              ltac:(simpl; lia) ltac:(simpl; lia)) as (Hp & _).
  split; [apply Hp; reflexivity|]. vm_compute. reflexivity.
Defined.

Lemma unique_index_at_most_one_witness :
  (length (default [] (ix_get (index_run (BTreeIndex_new "c" true) demo_ops).1 (KUInt 5))) <= 1)%nat.
Proof.
  apply unique_index_at_most_one.
  - apply btree_new_ok.
  - reflexivity.
  - reflexivity.
  - apply demo_ops_ok.
  - simpl. lia.
Defined.
