(* ===== verification/HashIndex.v ===== *)
(** * The hash index

    Models [storage/index/hash_index.rs].  The hash map is a finite map under the
    keys' [Eq], that is, structural equality; its iteration order is that of
    [map_to_list] and never observable: the one scan sorts its result. *)
From S2P Require Import Prelude Float Values IndexKey Postings BTreeIndex.
Local Open Scope Z_scope.

Record HashIndex := mkHashIndex {
  hx_column_name : string;
  hx_unique : bool;
  hx_map : gmap IndexKey (list Z);
  hx_entry_count : Z;
  hx_path : option string;
  hx_dirty : bool
}.

(** [HashIndexSer] *)
Record HashImage := mkHashImage {
  hi_column_name : string;
  hi_unique : bool;
  hi_entries : list (IndexKey * list Z);
  hi_entry_count : Z
}.

Section operations.
Implicit Types (idx : HashIndex) (key : IndexKey).

Definition HashIndex_new (column_name : string) (unique : bool) : HashIndex :=
  mkHashIndex column_name unique ∅ 0 None false.

Definition HashIndex_with_path (column_name : string) (unique : bool) (path : string) : HashIndex :=
  mkHashIndex column_name unique ∅ 0 (Some path) false.

Definition HashIndex_len idx : Z := hx_entry_count idx.
Definition HashIndex_is_empty idx : bool := hx_entry_count idx =? 0.
Definition HashIndex_distinct_keys idx : nat := size (hx_map idx).

Definition hx_update idx (m : gmap IndexKey (list Z)) (count : Z) : HashIndex :=
  mkHashIndex (hx_column_name idx) (hx_unique idx) m count (hx_path idx) true.

(** [entry(key).or_insert_with(Vec::new).push(row_id)] *)
Definition map_push (m : gmap IndexKey (list Z)) key (row_id : Z) : gmap IndexKey (list Z) :=
  <[key := default [] (m !! key) ++ [row_id]]> m.

Definition HashIndex_insert idx key (row_id : Z) : HashIndex * Result unit :=
  let inserted :=
    (hx_update idx (map_push (hx_map idx) key row_id) (wrap64 (hx_entry_count idx + 1)), Ok tt) in
  if hx_unique idx then
    match hx_map idx !! key with
    | Some (_ :: _) => (idx, Err AlreadyExists)
    | _ => inserted
    end
  else inserted.

Definition HashIndex_remove idx key (row_id : Z) : HashIndex * bool :=
  match hx_map idx !! key with
  | Some ids =>
      match position ids row_id with
      | Some pos =>
          let ids := swap_remove ids pos in
          (hx_update idx
             (if bool_decide (ids = []) then delete key (hx_map idx) else <[key := ids]> (hx_map idx))
             (wrap64 (hx_entry_count idx - 1)), true)
      | None => (idx, false)
      end
  | None => (idx, false)
  end.

Definition HashIndex_bulk_insert idx (pairs : list (IndexKey * Z)) : HashIndex :=
  hx_update idx (fold_left (fun m p => map_push m p.1 p.2) pairs (hx_map idx))
    (fold_left (fun n _ => wrap64 (n + 1)) pairs (hx_entry_count idx)).

Definition HashIndex_get idx key : option (list Z) := hx_map idx !! key.

Definition HashIndex_contains_key idx key : bool := bool_decide (is_Some (hx_map idx !! key)).

(** The matching postings, [sort_unstable]d. *)
Definition HashIndex_tuple_prefix idx (prefix : list IndexKey) : list Z :=
  merge_sort Z.le
    (concat (snd <$> List.filter (fun e => tuple_matches prefix None e.1) (map_to_list (hx_map idx)))).

Definition HashIndex_clear idx : HashIndex := hx_update idx ∅ 0.

Definition HashIndex_save idx : HashIndex * option (string * HashImage) :=
  if negb (hx_dirty idx) then (idx, None)
  else
    match hx_path idx with
    | Some path =>
        (mkHashIndex (hx_column_name idx) (hx_unique idx) (hx_map idx) (hx_entry_count idx)
           (hx_path idx) false,
         Some (path, mkHashImage (hx_column_name idx) (hx_unique idx) (map_to_list (hx_map idx))
                       (hx_entry_count idx)))
    | None => (idx, None)
    end.

(** [for (k, v) in ser.entries { map.insert(k, v); }] *)
Definition HashIndex_load (path : string) (image : HashImage) : HashIndex :=
  mkHashIndex (hi_column_name image) (hi_unique image)
    (fold_left (fun m e => <[e.1 := e.2]> m) (hi_entries image) ∅)
    (hi_entry_count image) (Some path) false.
End operations.

(** ** The map as a bag of postings *)

Definition hash_postings (e : IndexKey * list Z) : list (IndexKey * Z) := (fun r => (e.1, r)) <$> e.2.

Definition hash_bag (m : gmap IndexKey (list Z)) : list (IndexKey * Z) :=
  concat (hash_postings <$> map_to_list m).

Definition hash_ok (idx : HashIndex) : Prop :=
  map_Forall (fun _ ids => ids <> []) (hx_map idx) /\
  hx_entry_count idx = wrap64 (Z.of_nat (length (hash_bag (hx_map idx)))).

Lemma concat_perm {A} (l k : list (list A)) : l ≡ₚ k -> concat l ≡ₚ concat k.
Proof.
  induction 1 as [|x l k _ IH|x y l|l1 l2 l3 _ IH1 _ IH2]; simpl; [done|by rewrite IH| |by etrans].
  by rewrite Permutation_app_swap_app.
Qed.

(** The postings of one key, and the others. *)
Lemma hash_bag_lookup m k :
  hash_bag m ≡ₚ hash_postings (k, default [] (m !! k)) ++ hash_bag (delete k m).
Proof.
  unfold hash_bag. destruct (m !! k) as [ids|] eqn:Hk; simpl.
  - rewrite <-(concat_perm _ _ (fmap_Permutation hash_postings _ _ (map_to_list_delete _ _ _ Hk))).
    done.
  - by rewrite delete_id.
Qed.

Lemma rows_at_hash_postings k ids k' :
  rows_at (hash_postings (k, ids)) k' = if bool_decide (k = k') then ids else [].
Proof.
  unfold hash_postings. simpl. induction ids as [|r ids IH]; [by case_match|].
  rewrite fmap_cons, rows_at_cons, IH. simpl. by case_bool_decide.
Qed.

Lemma rows_at_absent l k :
  k ∉ l.*1 -> rows_at (concat (hash_postings <$> l)) k = [].
Proof.
  induction l as [|[k' ids] l IH]; intros Hk; [done|].
  csimpl in *. apply not_elem_of_cons in Hk as [Hne Hk]. simpl in *.
  rewrite rows_at_app, rows_at_hash_postings, bool_decide_eq_false_2 by done. by apply IH.
Qed.

Lemma rows_at_present l k ids :
  NoDup l.*1 -> (k, ids) ∈ l -> rows_at (concat (hash_postings <$> l)) k = ids.
Proof.
  induction l as [|[k' ids'] l IH]; intros Hnd Hin; [by apply elem_of_nil in Hin|].
  csimpl in *. apply NoDup_cons in Hnd as [Hk Hnd]. simpl in *.
  rewrite rows_at_app, rows_at_hash_postings. apply elem_of_cons in Hin as [[= -> ->]|Hin].
  - rewrite bool_decide_eq_true_2 by done. rewrite rows_at_absent by done. by rewrite app_nil_r.
  - rewrite bool_decide_eq_false_2; [by apply IH|]. intros ->. apply Hk.
    apply list_elem_of_fmap. by exists (k, ids).
Qed.

Lemma rows_at_hash_bag m k : rows_at (hash_bag m) k = default [] (m !! k).
Proof.
  unfold hash_bag. destruct (m !! k) as [ids|] eqn:Hk; simpl.
  - apply rows_at_present; [apply NoDup_fst_map_to_list|by apply elem_of_map_to_list].
  - apply rows_at_absent. intros ([k' ids] & -> & Hin)%list_elem_of_fmap.
    apply elem_of_map_to_list in Hin. simpl in *. congruence.
Qed.

(** Storing the rows of one key. *)
Lemma hash_bag_insert m k ids :
  hash_bag (<[k := ids]> m) ≡ₚ hash_postings (k, ids) ++ hash_bag (delete k m).
Proof. rewrite (hash_bag_lookup _ k), lookup_insert_eq. simpl. by rewrite delete_insert_eq. Qed.

Lemma hash_push_bag m k r : hash_bag (map_push m k r) ≡ₚ (k, r) :: hash_bag m.
Proof.
  unfold map_push. rewrite hash_bag_insert, (hash_bag_lookup m k). unfold hash_postings. simpl.
  rewrite fmap_app. simpl. by rewrite <-app_assoc, Permutation_app_swap_app.
Qed.

Lemma hash_insert_law idx k r :
  hash_ok idx ->
  let '(idx', res) := HashIndex_insert idx k r in
  hash_ok idx' /\ hx_unique idx' = hx_unique idx /\
  if hx_unique idx && negb (bool_decide (rows_at (hash_bag (hx_map idx)) k = []))
  then idx' = idx /\ res = Err AlreadyExists
  else res = Ok tt /\ hash_bag (hx_map idx') ≡ₚ (k, r) :: hash_bag (hx_map idx).
Proof.
  intros [Hne Hc]. pose proof (hash_push_bag (hx_map idx) k r) as Hb.
  assert (Hok' : hash_ok (hx_update idx (map_push (hx_map idx) k r) (wrap64 (hx_entry_count idx + 1)))).
  { split; simpl.
    - apply map_Forall_insert_2; [|done]. by destruct (default [] _).
    - by rewrite Hc, wrap64_succ_nat, Hb. }
  unfold HashIndex_insert. rewrite rows_at_hash_bag.
  destruct (hx_unique idx) eqn:Hu; [|by split_and!].
  destruct (hx_map idx !! k) as [[|x l]|]; simpl; by split_and!.
Qed.

Lemma hash_remove_bag m k ids pos r :
  m !! k = Some ids -> ids !! pos = Some r ->
  let ids' := swap_remove ids pos in
  hash_bag m ≡ₚ (k, r) :: hash_bag (if bool_decide (ids' = []) then delete k m else <[k := ids']> m).
Proof.
  intros Hk Hp ids'. rewrite (hash_bag_lookup m k), Hk. simpl.
  assert (Hi : hash_postings (k, ids) ≡ₚ (k, r) :: hash_postings (k, ids')).
  { unfold hash_postings. simpl. by rewrite (fmap_Permutation _ _ _ (swap_remove_perm _ _ _ Hp)). }
  rewrite Hi. simpl. constructor. case_bool_decide as He; [by rewrite He|].
  by rewrite hash_bag_insert.
Qed.

Lemma hash_remove_law idx k r :
  hash_ok idx ->
  let '(idx', res) := HashIndex_remove idx k r in
  hash_ok idx' /\ hx_unique idx' = hx_unique idx /\
  res = bool_decide ((k, r) ∈ hash_bag (hx_map idx)) /\
  hash_bag (hx_map idx') ≡ₚ remove_posting (k, r) (hash_bag (hx_map idx)).
Proof.
  intros [Hne Hc]. unfold HashIndex_remove.
  assert (Hin : (k, r) ∈ hash_bag (hx_map idx) <-> r ∈ default [] (hx_map idx !! k))
    by by rewrite <-rows_at_hash_bag, rows_at_elem.
  destruct (hx_map idx !! k) as [ids|] eqn:Hk; simpl in Hin.
  - pose proof (position_spec ids r) as Hp. destruct (position ids r) as [pos|].
    + pose proof (hash_remove_bag _ _ _ _ _ Hk Hp) as Hb.
      assert (r ∈ ids) by (by eapply list_elem_of_lookup_2).
      simpl. split_and!; [split|done|by rewrite bool_decide_eq_true_2 by tauto|].
      * simpl. case_bool_decide; [by apply map_Forall_delete|by apply map_Forall_insert_2].
      * simpl. rewrite Hc, Hb. simpl. by rewrite wrap64_pred_nat.
      * apply (Permutation_cons_inv (a := (k, r))).
        by rewrite <-remove_posting_perm, <-Hb by tauto.
    + by rewrite bool_decide_eq_false_2, remove_posting_absent by tauto.
  - assert ((k, r) ∉ hash_bag (hx_map idx)) by (rewrite Hin; apply not_elem_of_nil).
    by rewrite bool_decide_eq_false_2, remove_posting_absent.
Qed.

#[global, program] Instance HashIndex_postings : PostingIndex HashIndex IndexKey := {
  ix_image k := k;
  ix_bag idx := hash_bag (hx_map idx);
  ix_ok := hash_ok;
  ix_unique := hx_unique;
  ix_insert := HashIndex_insert;
  ix_remove := HashIndex_remove;
  ix_get := HashIndex_get;
  ix_clear := HashIndex_clear
}.
Next Obligation. intros idx k r Hok _. by apply hash_insert_law. Qed.
Next Obligation. intros idx k r Hok _. by apply hash_remove_law. Qed.
Next Obligation.
  intros idx k [Hne _] _. unfold HashIndex_get. rewrite rows_at_hash_bag.
  destruct (hx_map idx !! k) as [[|r l]|] eqn:Hk; [|done..]. by apply Hne in Hk.
Qed.
Next Obligation. intros idx. split_and!; [split; [apply map_Forall_empty|done]|done|done]. Qed.

Lemma hash_new_ok c u : hash_ok (HashIndex_new c u).
Proof. split; [apply map_Forall_empty|done]. Qed.

(** The hash index refines the same bag of postings as the B-tree, keys being
    compared structurally: every answer, the entry count and every lookup agree. *)
Theorem hash_refines_bag column unique ops :
  Forall op_key_ok ops ->
  let '(idx, results) := index_run (HashIndex_new column unique) ops in
  let '(b, results') := bag_run (I := HashIndex) unique [] ops in
  results = results' /\
  HashIndex_len idx = wrap64 (Z.of_nat (length b)) /\
  forall key, default [] (HashIndex_get idx key) ≡ₚ rows_at b key.
Proof.
  intros Hops. pose proof (index_run_sim ops (HashIndex_new column unique) []
    (hash_new_ok column unique) (Permutation_refl _) Hops) as Hsim. simpl in Hsim.
  destruct (index_run _ ops) as [idx results], (bag_run unique [] ops) as [b results'].
  destruct Hsim as ([Hne Hc] & _ & -> & Hb). split_and!; [done|by unfold HashIndex_len; rewrite Hc, Hb|].
  intros key. unfold HashIndex_get. by rewrite <-rows_at_hash_bag, Hb.
Qed.

Lemma hash_refines_bag_witness :
  default [] (HashIndex_get (index_run (HashIndex_new "c" false) demo_ops).1 (KInt 5)) ≡ₚ [1].
Proof.
  pose proof (hash_refines_bag "c" false demo_ops demo_ops_ok) as H.
  destruct (index_run _ demo_ops) as [idx results], (bag_run false [] demo_ops) as [b results'] eqn:Hb.
  destruct H as (_ & _ & H). vm_compute in Hb. injection Hb as <- <-. simpl.
  etrans; [apply H|]. vm_compute. reflexivity.
Defined.
