(* ===== verification/IndexManager.v ===== *)
(** * The index manager

    Models [storage/index/index_manager.rs]: the catalog, the lazily loaded index
    instances, their maintenance by DML and the lookups of the planner.  Index files
    are a finite map from path to bytes; the bincode codec is a parameter ([Codec]).
    Hash-map iteration, unspecified in the source, is in the order of the finite
    map.  File-system failures are not modelled.  [None] as the result of a lookup
    is a panic. *)
From S2P Require Import Prelude Float Values IndexKey Postings BTreeIndex HashIndex.
Local Open Scope Z_scope.

Inductive IndexType := IdxBTree | IdxHash.

#[global] Instance IndexType_eq_dec : EqDecision IndexType.
Proof. solve_decision. Defined.

Definition IndexType_from_str (s : string) : option IndexType :=
  let s := to_lowercase s in
  if one_of s ["btree"; "b-tree"; "b_tree"]%string then Some IdxBTree
  else if one_of s ["hash"]%string then Some IdxHash else None.

Record IndexMeta := mkIndexMeta {
  im_name : string;
  im_column_name : string;
  im_index_type : IndexType;
  im_unique : bool;
  im_data_type : DataType;
  im_created_at : Z;
  im_columns : list string;
  im_key_format_version : Z
}.

Definition effective_columns (m : IndexMeta) : list string :=
  match im_columns m with [] => [im_column_name m] | cs => cs end.

Definition is_composite (m : IndexMeta) : bool := (1 <? length (im_columns m))%nat.

Definition TYPED_TUPLE_VERSION : Z := 1.

Inductive IndexInstance := InstBTree (idx : BTreeIndex) | InstHash (idx : HashIndex).

Definition Instance_insert (i : IndexInstance) (key : IndexKey) (row_id : Z)
    : IndexInstance * Result unit :=
  match i with
  | InstBTree idx => let '(idx, res) := BTreeIndex_insert idx key row_id in (InstBTree idx, res)
  | InstHash idx => let '(idx, res) := HashIndex_insert idx key row_id in (InstHash idx, res)
  end.

Definition Instance_remove (i : IndexInstance) (key : IndexKey) (row_id : Z)
    : IndexInstance * bool :=
  match i with
  | InstBTree idx => let '(idx, res) := BTreeIndex_remove idx key row_id in (InstBTree idx, res)
  | InstHash idx => let '(idx, res) := HashIndex_remove idx key row_id in (InstHash idx, res)
  end.

Definition Instance_get (i : IndexInstance) (key : IndexKey) : option (list Z) :=
  match i with InstBTree idx => BTreeIndex_get idx key | InstHash idx => HashIndex_get idx key end.

Definition Instance_tuple_prefix (i : IndexInstance) (prefix : list IndexKey) : list Z :=
  match i with
  | InstBTree idx => BTreeIndex_tuple_prefix idx prefix None
  | InstHash idx => HashIndex_tuple_prefix idx prefix
  end.

Definition Instance_clear (i : IndexInstance) : IndexInstance :=
  match i with
  | InstBTree idx => InstBTree (BTreeIndex_clear idx)
  | InstHash idx => InstHash (HashIndex_clear idx)
  end.

(** A catalog entry without the key format version. *)
Record LegacyIndexMeta := mkLegacyIndexMeta {
  lm_name : string;
  lm_column_name : string;
  lm_index_type : IndexType;
  lm_unique : bool;
  lm_data_type : DataType;
  lm_created_at : Z;
  lm_columns : list string
}.

(** bincode on the image types and on the catalog. *)
Record Codec (B : Type) := mkCodec {
  encode_btree : BTreeImage -> B;
  decode_btree : B -> option BTreeImage;
  encode_hash : HashImage -> B;
  decode_hash : B -> option HashImage;
  encode_catalog : gmap string IndexMeta -> B;
  decode_catalog : B -> option (gmap string IndexMeta);
  decode_legacy : B -> option (gmap string LegacyIndexMeta)
}.
Arguments mkCodec {B}.
Arguments encode_btree {B}.
Arguments decode_btree {B}.
Arguments encode_hash {B}.
Arguments decode_hash {B}.
Arguments encode_catalog {B}.
Arguments decode_catalog {B}.
Arguments decode_legacy {B}.

Record IndexManager := mkIndexManager {
  ix_in_memory : bool;
  ix_table_name : string;
  ix_base_dir : string;
  ix_catalog : gmap string IndexMeta;
  ix_instances : gmap string IndexInstance;
  ix_column_map : gmap string (list string);
  ix_dirty : bool
}.

Inductive PredicateHint (J : Type) :=
| HintEq (v : Value J)
| HintRange (low high : Value J)
| HintGt (v : Value J)
| HintGte (v : Value J)
| HintLt (v : Value J)
| HintLte (v : Value J)
| HintIn (vs : list (Value J)).
Arguments HintEq {J}.
Arguments HintRange {J}.
Arguments HintGt {J}.
Arguments HintGte {J}.
Arguments HintLt {J}.
Arguments HintLte {J}.
Arguments HintIn {J}.

Record IndexLookupResult := mkLookupResult { lr_row_ids : list Z; lr_exact : bool }.

Section manager.
Context {J B : Type} (json_to_string : J -> string) (codec : Codec B).
Implicit Types (m : IndexManager) (files : gmap string B) (values : gmap string (Value J)).

Definition from_value : Value J -> IndexKey := key_from_value json_to_string.

Definition composite_key (columns : list string) values : option IndexKey :=
  match columns with
  | [c] => from_value <$> values !! c
  | _ => KTuple TYPED_TUPLE_VERSION <$> mapM (fun c => from_value <$> values !! c) columns
  end.

Definition IndexManager_new (table_name base_dir : string) (in_memory : bool) : IndexManager :=
  mkIndexManager in_memory table_name (base_dir ++ "/indexes") ∅ ∅ ∅ false.

(** [column_index_map.entry(column).or_insert_with(Vec::new).push(name)] *)
Definition register_column (name : string) (cm : gmap string (list string)) (column : string)
    : gmap string (list string) :=
  <[column := default [] (cm !! column) ++ [name]]> cm.

(** The upgrade of a catalog entry written by an older build. *)
Definition upgrade_meta (l : LegacyIndexMeta) : IndexMeta :=
  mkIndexMeta (lm_name l) (lm_column_name l) (lm_index_type l) (lm_unique l) (lm_data_type l)
    (lm_created_at l) (lm_columns l) 0.

Definition catalog_path (idx_dir table_name : string) : string :=
  (idx_dir ++ "/" ++ table_name ++ ".idxcat")%string.

Definition load_catalog (bytes : B) : Result (gmap string IndexMeta) :=
  match decode_catalog codec bytes with
  | Some catalog => Ok catalog
  | None =>
      match decode_legacy codec bytes with
      | Some legacy => Ok (upgrade_meta <$> legacy)
      | None => Err InvalidData
      end
  end.

(** [is_memory]: [is_memory_path(base_dir)]. *)
Definition IndexManager_load (table_name base_dir : string) (is_memory : bool) files : Result IndexManager :=
  let fresh := IndexManager_new table_name base_dir is_memory in
  if is_memory then Ok fresh
  else
    match files !! catalog_path (base_dir ++ "/indexes") table_name with
    | None => Ok fresh
    | Some data =>
        match load_catalog data with
        | Err e => Err e
        | Ok catalog =>
            Ok (mkIndexManager false table_name (base_dir ++ "/indexes") catalog ∅
                  (fold_left (fun cm e => fold_left (register_column e.1) (effective_columns e.2) cm)
                     (map_to_list catalog) ∅)
                  false)
        end
    end.

Definition set_instances m (i : gmap string IndexInstance) : IndexManager :=
  mkIndexManager (ix_in_memory m) (ix_table_name m) (ix_base_dir m) (ix_catalog m) i
    (ix_column_map m) (ix_dirty m).

Definition put_instance m (name : string) (i : IndexInstance) : IndexManager :=
  set_instances m (<[name := i]> (ix_instances m)).

Definition index_file_path m (name : string) (t : IndexType) : string :=
  let ext := match t with IdxBTree => "btidx" | IdxHash => "hashidx" end in
  (ix_base_dir m ++ "/" ++ ix_table_name m ++ "_" ++ name ++ "." ++ ext)%string.

(** *** Catalog queries *)

Definition has_index_on m (column : string) : bool := bool_decide (is_Some (ix_column_map m !! column)).

(** [column_index_map.get(column).into_iter().flatten().any(|name| catalog.get(name)..)] *)
Definition any_index m (column : string) (p : IndexMeta -> bool) : bool :=
  existsb (fun name => match ix_catalog m !! name with Some meta => p meta | None => false end)
    (default [] (ix_column_map m !! column)).

Definition has_single_column_index_on m (column : string) : bool :=
  any_index m column (fun meta => negb (is_composite meta)).

Definition has_single_column_btree_on m (column : string) : bool :=
  any_index m column
    (fun meta => negb (is_composite meta) && bool_decide (im_index_type meta = IdxBTree)).

Definition has_usable_index_for_predicate m (column : string) (is_range : bool) : bool :=
  any_index m column (fun meta => negb (is_composite meta) &&
    (negb is_range || bool_decide (im_index_type meta = IdxBTree))).

Definition is_composite_on (columns : list string) (meta : IndexMeta) : bool :=
  is_composite meta && bool_decide (effective_columns meta = columns).

Definition has_composite_index m (columns : list string) : bool :=
  (1 <? length columns)%nat &&
  existsb (fun e => is_composite_on columns e.2) (map_to_list (ix_catalog m)).

Definition catalog_is_empty m : bool := bool_decide (ix_catalog m = ∅).

(** *** Lifecycle *)

Definition create_index_multi m (name : string) (columns : list string) (t : IndexType)
    (unique : bool) (dt : DataType) (now : Z) : IndexManager * Result unit :=
  match columns with
  | [] => (m, Err InvalidInput)
  | first_col :: _ =>
      match ix_catalog m !! name with
      | Some _ => (m, Err AlreadyExists)
      | None =>
          let meta := mkIndexMeta name first_col t unique dt now columns
                        (if (1 <? length columns)%nat then TYPED_TUPLE_VERSION else 0) in
          let path := index_file_path m name t in
          let instance :=
            match t with
            | IdxBTree => InstBTree (BTreeIndex_with_path first_col unique path)
            | IdxHash => InstHash (HashIndex_with_path first_col unique path)
            end in
          (mkIndexManager (ix_in_memory m) (ix_table_name m) (ix_base_dir m)
             (<[name := meta]> (ix_catalog m)) (<[name := instance]> (ix_instances m))
             (fold_left (register_column name) columns (ix_column_map m)) true, Ok tt)
      end
  end.

Definition create_index m (name column : string) (t : IndexType) (unique : bool) (dt : DataType)
    (now : Z) : IndexManager * Result unit :=
  create_index_multi m name [column] t unique dt now.

(** [names.retain(|n| n != name)], and the entry dropped when it becomes empty. *)
Definition unregister_column (name : string) (cm : gmap string (list string)) (column : string)
    : gmap string (list string) :=
  match cm !! column with
  | Some names =>
      let names := List.filter (fun n => negb (String.eqb n name)) names in
      if bool_decide (names = []) then delete column cm else <[column := names]> cm
  | None => cm
  end.

(** The new manager and the files left. *)
Definition drop_index m files (name : string) : IndexManager * gmap string B * Result unit :=
  match ix_catalog m !! name with
  | None => (m, files, Err NotFound)
  | Some meta =>
      (mkIndexManager (ix_in_memory m) (ix_table_name m) (ix_base_dir m)
         (delete name (ix_catalog m)) (delete name (ix_instances m))
         (fold_left (unregister_column name) (effective_columns meta) (ix_column_map m)) true,
       delete (index_file_path m name (im_index_type meta)) files, Ok tt)
  end.

(** What [ensure_loaded] makes of an index that is not in memory. *)
Definition load_instance m files (name : string) (meta : IndexMeta) : Result IndexInstance :=
  let path := index_file_path m name (im_index_type meta) in
  match files !! path with
  | Some bytes =>
      match im_index_type meta with
      | IdxBTree =>
          match decode_btree codec bytes with
          | Some image => Ok (InstBTree (BTreeIndex_load path image))
          | None => Err InvalidData
          end
      | IdxHash =>
          match decode_hash codec bytes with
          | Some image => Ok (InstHash (HashIndex_load path image))
          | None => Err InvalidData
          end
      end
  | None =>
      match im_index_type meta with
      | IdxBTree => Ok (InstBTree (BTreeIndex_with_path (im_column_name meta) (im_unique meta) path))
      | IdxHash => Ok (InstHash (HashIndex_with_path (im_column_name meta) (im_unique meta) path))
      end
  end.

Definition ensure_loaded m files (name : string) : IndexManager * Result IndexInstance :=
  match ix_instances m !! name with
  | Some i => (m, Ok i)
  | None =>
      match ix_catalog m !! name with
      | None => (m, Err NotFound)
      | Some meta =>
          match load_instance m files name meta with
          | Ok i => (put_instance m name i, Ok i)
          | Err e => (m, Err e)
          end
      end
  end.

(** *** Maintenance *)

(** The names collected by the first loop of [on_insert] and [on_delete]. *)
Definition seen_indexes m values : gset string :=
  list_to_set (concat ((fun e => default [] (ix_column_map m !! e.1)) <$> map_to_list values)).

Definition index_columns m (name : string) : list string :=
  match ix_catalog m !! name with Some meta => effective_columns meta | None => [] end.

(** The body of the second loop of [on_insert]. *)
Definition insert_into m files (name : string) (row_id : Z) values : IndexManager * Result unit :=
  match composite_key (index_columns m name) values with
  | None => (m, Ok tt)
  | Some key =>
      match ensure_loaded m files name with
      | (m, Err e) => (m, Err e)
      | (m, Ok i) => let '(i, res) := Instance_insert i key row_id in (put_instance m name i, res)
      end
  end.

(** The body of the second loop of [on_delete]. *)
Definition remove_from m files (name : string) (row_id : Z) values : IndexManager * Result unit :=
  match composite_key (index_columns m name) values with
  | None => (m, Ok tt)
  | Some key =>
      match ensure_loaded m files name with
      | (m, Err e) => (m, Err e)
      | (m, Ok i) => (put_instance m name (Instance_remove i key row_id).1, Ok tt)
      end
  end.

(** A [for] loop whose body may return early with [?]. *)
Fixpoint for_each (f : IndexManager -> string -> IndexManager * Result unit) (names : list string) m
    : IndexManager * Result unit :=
  match names with
  | [] => (m, Ok tt)
  | n :: names =>
      match f m n with
      | (m, Ok _) => for_each f names m
      | (m, Err e) => (m, Err e)
      end
  end.

Definition on_insert m files (row_id : Z) values : IndexManager * Result unit :=
  for_each (fun m name => insert_into m files name row_id values) (elements (seen_indexes m values)) m.

Definition on_delete m files (row_id : Z) values : IndexManager * Result unit :=
  for_each (fun m name => remove_from m files name row_id values) (elements (seen_indexes m values)) m.

(** [old_values.get(c).zip(new_values.get(c)).map(|(old, new)| old != new).unwrap_or(false)] *)
Definition column_changed (json_eq : J -> J -> bool) (old new : gmap string (Value J))
    (column : string) : bool :=
  match old !! column, new !! column with
  | Some o, Some n => negb (Value_eq json_eq o n)
  | _, _ => false
  end.

Definition update_in (json_eq : J -> J -> bool) m (name : string) (row_id : Z)
    (old new : gmap string (Value J)) : IndexManager * Result unit :=
  let columns := index_columns m name in
  if negb (existsb (column_changed json_eq old new) columns) then (m, Ok tt)
  else
    match ix_instances m !! name with
    | None => (m, Ok tt)
    | Some i =>
        let i := match composite_key columns old with
                 | Some key => (Instance_remove i key row_id).1
                 | None => i
                 end in
        match composite_key columns new with
        | Some key => let '(i, res) := Instance_insert i key row_id in (put_instance m name i, res)
        | None => (put_instance m name i, Ok tt)
        end
    end.

Definition on_update (json_eq : J -> J -> bool) m (row_id : Z) (old new : gmap string (Value J))
    : IndexManager * Result unit :=
  for_each (fun m name => update_in json_eq m name row_id old new)
    (map_to_list (ix_catalog m)).*1 m.

(** *** Lookup *)

Definition is_equality (p : PredicateHint J) : bool :=
  match p with HintEq _ | HintIn _ => true | _ => false end.

Definition select_best_index m (names : list string) (p : PredicateHint J) : option string :=
  let usable := List.filter (fun n =>
    match ix_catalog m !! n with Some meta => negb (is_composite meta) | None => false end) names in
  let of_type t := List.find (fun n =>
    match ix_catalog m !! n with
    | Some meta => bool_decide (im_index_type meta = t)
    | None => false
    end) usable in
  if is_equality p then
    match of_type IdxHash with Some n => Some n | None => head usable end
  else of_type IdxBTree.

(** The [match] on the predicate: [None] is a panic, [Some None] no answer. *)
Definition instance_lookup (i : IndexInstance) (p : PredicateHint J) : option (option (list Z)) :=
  match p with
  | HintEq v => Some (Some (default [] (Instance_get i (from_value v))))
  | HintIn vs => Some (Some (concat ((fun v => default [] (Instance_get i (from_value v))) <$> vs)))
  | _ =>
      match i with
      | InstHash _ => Some None
      | InstBTree bt =>
          match p with
          | HintRange low high => Some <$> range_inclusive bt (from_value low) (from_value high)
          | HintGt v => Some (Some (greater_than bt (from_value v)))
          | HintGte v => Some (Some (greater_than_or_equal bt (from_value v)))
          | HintLt v => Some (Some (less_than bt (from_value v)))
          | HintLte v => Some (Some (less_than_or_equal bt (from_value v)))
          | _ => Some None
          end
      end
  end.

Definition lookup_result (rows : option (list Z)) : option IndexLookupResult :=
  (fun ids => mkLookupResult ids true) <$> rows.

Definition IndexManager_lookup m files (column : string) (p : PredicateHint J)
    : IndexManager * option (Result (option IndexLookupResult)) :=
  match ix_column_map m !! column with
  | None => (m, Some (Ok None))
  | Some names =>
      match select_best_index m names p with
      | None => (m, Some (Ok None))
      | Some name =>
          match ensure_loaded m files name with
          | (m, Err e) => (m, Some (Err e))
          | (m, Ok i) => (m, (fun rows => Ok (lookup_result rows)) <$> instance_lookup i p)
          end
      end
  end.

(** [catalog.iter().find(..)] for the composite index on exactly these columns. *)
Definition find_composite m (columns : list string) : option (string * IndexMeta) :=
  List.find (fun e => is_composite_on columns e.2) (map_to_list (ix_catalog m)).

Definition lookup_composite m files (columns : list string) values
    : IndexManager * Result (option IndexLookupResult) :=
  if (length columns <? 2)%nat || existsb (fun c => negb (bool_decide (is_Some (values !! c)))) columns
  then (m, Ok None)
  else
    match find_composite m columns with
    | None => (m, Ok None)
    | Some (name, meta) =>
        if negb (im_key_format_version meta =? TYPED_TUPLE_VERSION) then (m, Err InvalidData)
        else
          match composite_key columns values with
          | None => (m, Err InvalidInput)
          | Some key =>
              match ensure_loaded m files name with
              | (m, Err e) => (m, Err e)
              | (m, Ok i) =>
                  let rows :=
                    match Instance_get i key with
                    | Some ids => ids
                    | None =>
                        match key with
                        | KTuple 1 ks => Instance_tuple_prefix i ks
                        | _ => []
                        end
                    end in
                  (m, Ok (lookup_result (Some rows)))
              end
          end
    end.

(** The leading columns with an equality value, as keys. *)
Fixpoint leading_keys (columns : list string) (eqs : gmap string (Value J)) : list IndexKey :=
  match columns with
  | [] => []
  | c :: columns =>
      match eqs !! c with
      | Some v => from_value v :: leading_keys columns eqs
      | None => []
      end
  end.

Definition lookup_composite_prefix m files (columns : list string) (eqs : gmap string (Value J))
    (range : option (string * Value J * Value J)) : IndexManager * Result (option IndexLookupResult) :=
  match find_composite m columns with
  | None => (m, Ok None)
  | Some (name, meta) =>
      if negb (im_key_format_version meta =? TYPED_TUPLE_VERSION) then (m, Err InvalidData)
      else
        let prefix := leading_keys columns eqs in
        if bool_decide (prefix = []) || (length prefix =? length columns)%nat then (m, Ok None)
        else
          let range_keys :=
            match range with
            | Some (column, low, high) =>
                if bool_decide (columns !! length prefix = Some column)
                then Some (from_value low, from_value high) else None
            | None => None
            end in
          match ensure_loaded m files name with
          | (m, Err e) => (m, Err e)
          | (m, Ok i) =>
              match i, range_keys with
              | InstBTree bt, _ =>
                  (m, Ok (lookup_result (Some (BTreeIndex_tuple_prefix bt prefix range_keys))))
              | InstHash hx, None => (m, Ok (lookup_result (Some (HashIndex_tuple_prefix hx prefix))))
              | InstHash _, Some _ => (m, Ok None)
              end
          end
  end.

(** *** Persistence *)

(** One instance: its new state, and the files after its [save]. *)
Definition Instance_save files (i : IndexInstance) : gmap string B * IndexInstance :=
  match i with
  | InstBTree idx =>
      let '(idx, out) := BTreeIndex_save idx in
      (match out with Some (p, image) => <[p := encode_btree codec image]> files | None => files end,
       InstBTree idx)
  | InstHash idx =>
      let '(idx, out) := HashIndex_save idx in
      (match out with Some (p, image) => <[p := encode_hash codec image]> files | None => files end,
       InstHash idx)
  end.

(** The catalog if it changed, then every instance. *)
Definition IndexManager_save m files : IndexManager * gmap string B :=
  let m' := mkIndexManager (ix_in_memory m) (ix_table_name m) (ix_base_dir m) (ix_catalog m)
              (ix_instances m) (ix_column_map m) false in
  if ix_in_memory m then (m', files)
  else
    let files :=
      if ix_dirty m
      then <[catalog_path (ix_base_dir m) (ix_table_name m) := encode_catalog codec (ix_catalog m)]> files
      else files in
    let '(insts, files) :=
      map_fold (fun name i acc =>
        let '(files, i) := Instance_save acc.2 i in (<[name := i]> acc.1, files))
        (∅, files) (ix_instances m) in
    (set_instances m' insts, files).

Definition clear_one m files (name : string) : IndexManager * Result unit :=
  match ensure_loaded m files name with
  | (m, Ok i) => (put_instance m name (Instance_clear i), Ok tt)
  | (m, Err e) => (m, Err e)
  end.

Definition rebuild_all m files : IndexManager * Result unit :=
  for_each (fun m name => clear_one m files name) (map_to_list (ix_catalog m)).*1 m.
End manager.

(** ** Indexes follow their table *)

Section theory.
Context {J B : Type} (json_to_string : J -> string) (codec : Codec B).
Implicit Types (m : IndexManager) (files : gmap string B) (values : gmap string (Value J))
  (i : IndexInstance) (table : gmap Z (gmap string (Value J))).

Abbreviation row_key := (composite_key json_to_string).

Definition inst_ok i : Prop :=
  match i with InstBTree idx => btree_ok idx | InstHash idx => hash_ok idx end.

(** When two keys are one key of the index. *)
Definition same_key i (a b : IndexKey) : bool :=
  match i with
  | InstBTree _ => bool_decide (key_enc a = key_enc b)
  | InstHash _ => bool_decide (a = b)
  end.

(** The rows filed under a key. *)
Definition inst_rows i (k : IndexKey) : list Z :=
  match i with
  | InstBTree idx => rows_at (bag (bt_tree idx)) (key_enc k)
  | InstHash idx => rows_at (hash_bag (hx_map idx)) k
  end.

Definition same_kind i j : Prop :=
  match i, j with InstBTree _, InstBTree _ | InstHash _, InstHash _ => True | _, _ => False end.

Lemma same_key_kind i j a b : same_kind i j -> same_key i a b = same_key j a b.
Proof. by destruct i, j. Qed.

Lemma inst_get_rows i k :
  inst_ok i -> key_ok k ->
  Instance_get i k = match inst_rows i k with [] => None | rows => Some rows end.
Proof.
  destruct i as [idx|idx]; simpl; intros Hok Hk.
  - apply (@ix_get_law _ _ _ BTreeIndex_postings idx k Hok Hk).
  - apply (@ix_get_law _ _ _ HashIndex_postings idx k Hok Hk).
Qed.

Lemma inst_insert_rows i k r i' :
  inst_ok i -> key_ok k -> Instance_insert i k r = (i', Ok tt) ->
  inst_ok i' /\ same_kind i i' /\
  forall k', inst_rows i' k' ≡ₚ (if same_key i k k' then [r] else []) ++ inst_rows i k'.
Proof.
  destruct i as [idx|idx]; simpl; intros Hok Hk.
  - pose proof (@ix_insert_law _ _ _ BTreeIndex_postings idx k r Hok Hk) as Hlaw. simpl in Hlaw.
    destruct (BTreeIndex_insert idx k r) as [idx' res]. intros [= <- ->].
    destruct Hlaw as (Hok' & _ & Hlaw). split_and!; [done..|]. intros k'. simpl.
    destruct (_ && _); destruct Hlaw as [? Hb]; [done|].
    rewrite Hb, rows_at_cons. unfold same_key. simpl. by case_bool_decide.
  - pose proof (@ix_insert_law _ _ _ HashIndex_postings idx k r Hok Hk) as Hlaw. simpl in Hlaw.
    destruct (HashIndex_insert idx k r) as [idx' res]. intros [= <- ->].
    destruct Hlaw as (Hok' & _ & Hlaw). split_and!; [done..|]. intros k'. simpl.
    destruct (_ && _); destruct Hlaw as [? Hb]; [done|].
    rewrite Hb, rows_at_cons. unfold same_key. simpl. by case_bool_decide.
Qed.

Lemma remove_rows {A} `{EqDecision A} (b : list (A * Z)) a r a' :
  (a, r) ∈ b ->
  rows_at b a' ≡ₚ (if bool_decide (a = a') then [r] else []) ++ rows_at (remove_posting (a, r) b) a'.
Proof.
  intros Hin. rewrite (remove_posting_perm _ _ Hin) at 1. rewrite rows_at_cons. simpl.
  by case_bool_decide.
Qed.

(** Removing a posting that is there. *)
Lemma inst_remove_rows i k r :
  inst_ok i -> key_ok k -> r ∈ inst_rows i k ->
  let i' := (Instance_remove i k r).1 in
  inst_ok i' /\ same_kind i i' /\
  forall k', inst_rows i k' ≡ₚ (if same_key i k k' then [r] else []) ++ inst_rows i' k'.
Proof.
  destruct i as [idx|idx]; simpl; intros Hok Hk Hr; rewrite rows_at_elem in Hr.
  - pose proof (@ix_remove_law _ _ _ BTreeIndex_postings idx k r Hok Hk) as Hlaw. simpl in Hlaw.
    destruct (BTreeIndex_remove idx k r) as [idx' res]. destruct Hlaw as (Hok' & _ & _ & Hb).
    split_and!; [done..|]. intros k'. simpl. rewrite Hb. by apply remove_rows.
  - pose proof (@ix_remove_law _ _ _ HashIndex_postings idx k r Hok Hk) as Hlaw. simpl in Hlaw.
    destruct (HashIndex_remove idx k r) as [idx' res]. destruct Hlaw as (Hok' & _ & _ & Hb).
    split_and!; [done..|]. intros k'. simpl. rewrite Hb. by apply remove_rows.
Qed.

(** *** Agreement of an index with a table *)

(** The rows whose key on [cols] is [k] for the index [i]. *)
Definition matching_row i (cols : list string) (k : IndexKey)
    (e : Z * gmap string (Value J)) : bool :=
  match row_key cols e.2 with Some k' => same_key i k' k | None => false end.

Definition rows_with i (cols : list string) table (k : IndexKey) : list Z :=
  fst <$> List.filter (matching_row i cols k) (map_to_list table).

Definition agrees i (cols : list string) table : Prop :=
  inst_ok i /\ forall k, key_ok k -> inst_rows i k ≡ₚ rows_with i cols table k.

Lemma filter_perm' {A} (f : A -> bool) l k : l ≡ₚ k -> List.filter f l ≡ₚ List.filter f k.
Proof.
  induction 1 as [|x l l' _ IH|x y l|l1 l2 l3 _ IH1 _ IH2]; cbn.
  - done.
  - case_match; [by constructor|done].
  - repeat case_match; done || constructor.
  - by etrans.
Qed.

Lemma rows_with_insert i cols table r values k :
  table !! r = None ->
  rows_with i cols (<[r := values]> table) k ≡ₚ
    (if matching_row i cols k (r, values) then [r] else []) ++ rows_with i cols table k.
Proof.
  intros Hr. unfold rows_with.
  rewrite (filter_perm' _ _ _ (map_to_list_insert table r values Hr)). simpl.
  by destruct (matching_row i cols k (r, values)).
Qed.

Lemma matching_row_kind i j cols k e :
  same_kind i j -> matching_row i cols k e = matching_row j cols k e.
Proof.
  intros Hk. unfold matching_row. destruct (row_key cols e.2); [|done]. by apply same_key_kind.
Qed.

Lemma rows_with_kind i j cols table k :
  same_kind i j -> rows_with i cols table k = rows_with j cols table k.
Proof.
  intros Hk. unfold rows_with. f_equal. apply List.filter_ext.
  intros e. by apply matching_row_kind.
Qed.

Lemma agrees_insert i cols table r values key i' :
  agrees i cols table -> table !! r = None -> row_key cols values = Some key -> key_ok key ->
  Instance_insert i key r = (i', Ok tt) -> agrees i' cols (<[r := values]> table).
Proof.
  intros [Hok Hag] Hr Hkey Hk Hins.
  destruct (inst_insert_rows i key r i' Hok Hk Hins) as (Hok' & Hkind & Hrows).
  split; [done|]. intros k Hkk.
  rewrite <-(rows_with_kind i i') by done. rewrite rows_with_insert by done.
  rewrite Hrows, (Hag k Hkk). unfold matching_row. simpl. by rewrite Hkey.
Qed.

Lemma agrees_skip i cols table r values :
  agrees i cols table -> table !! r = None -> row_key cols values = None ->
  agrees i cols (<[r := values]> table).
Proof.
  intros [Hok Hag] Hr Hkey. split; [done|]. intros k Hk. rewrite rows_with_insert by done.
  rewrite (Hag k Hk). unfold matching_row. simpl. by rewrite Hkey.
Qed.

Lemma same_key_refl i k : same_key i k k = true.
Proof. destruct i; by apply bool_decide_eq_true_2. Qed.

Lemma agrees_remove i cols table r values key :
  agrees i cols table -> table !! r = Some values -> row_key cols values = Some key -> key_ok key ->
  agrees (Instance_remove i key r).1 cols (delete r table).
Proof.
  intros [Hok Hag] Hr Hkey Hk.
  assert (Hsplit : forall k, rows_with i cols table k ≡ₚ
    (if same_key i key k then [r] else []) ++ rows_with i cols (delete r table) k).
  { intros k. rewrite <-(insert_delete_id table r values Hr) at 1.
    rewrite rows_with_insert by apply lookup_delete_eq. unfold matching_row. simpl. by rewrite Hkey. }
  assert (Hin : r ∈ inst_rows i key).
  { rewrite (Hag key Hk), Hsplit, same_key_refl. by left. }
  destruct (inst_remove_rows i key r Hok Hk Hin) as (Hok' & Hkind & Hrows).
  split; [done|]. intros k Hkk. rewrite <-(rows_with_kind i) by done.
  apply (Permutation_app_inv_l (if same_key i key k then [r] else [])).
  by rewrite <-Hrows, <-Hsplit, Hag.
Qed.

Lemma agrees_skip_delete i cols table r values :
  agrees i cols table -> table !! r = Some values -> row_key cols values = None ->
  agrees i cols (delete r table).
Proof.
  intros [Hok Hag] Hr Hkey. split; [done|]. intros k Hk. rewrite (Hag k Hk).
  rewrite <-(insert_delete_id table r values Hr) at 1.
  rewrite rows_with_insert by apply lookup_delete_eq. unfold matching_row. simpl. by rewrite Hkey.
Qed.

(** *** The manager's view of an index, loaded or not *)

Definition view m files (name : string) : option IndexInstance :=
  match ix_instances m !! name with
  | Some i => Some i
  | None =>
      match ix_catalog m !! name with
      | Some meta => match load_instance codec m files name meta with Ok i => Some i | Err _ => None end
      | None => None
      end
  end.

(** Only the loaded instances differ. *)
Definition same_frame m m' : Prop := m' = set_instances m (ix_instances m').

Lemma same_frame_refl m : same_frame m m.
Proof. by destruct m. Qed.

Lemma same_frame_trans m1 m2 m3 : same_frame m1 m2 -> same_frame m2 m3 -> same_frame m1 m3.
Proof. unfold same_frame. intros H1 H2. rewrite H2, H1. done. Qed.

Lemma same_frame_put m name i : same_frame m (put_instance m name i).
Proof. done. Qed.

Lemma view_put m files name i n :
  view (put_instance m name i) files n = if decide (n = name) then Some i else view m files n.
Proof.
  unfold view. simpl. rewrite lookup_insert. case_decide as H1; case_decide as H2; subst; try done.
Qed.

Lemma ensure_loaded_view m files name m' i :
  ensure_loaded codec m files name = (m', Ok i) ->
  same_frame m m' /\ view m files name = Some i /\ forall n, view m' files n = view m files n.
Proof.
  unfold ensure_loaded. destruct (ix_instances m !! name) as [i0|] eqn:Hi.
  - intros [= <- <-]. split_and!; [apply same_frame_refl|by unfold view; rewrite Hi|done].
  - destruct (ix_catalog m !! name) as [meta|] eqn:Hc; [|done].
    destruct (load_instance codec m files name meta) as [i0|e] eqn:Hl; [|done].
    intros [= <- <-].
    assert (Hv : view m files name = Some i0) by by unfold view; rewrite Hi, Hc, Hl.
    split_and!; [done|done|]. intros n. rewrite view_put. by case_decide; subst.
Qed.

(** What one iteration of a maintenance loop does to the views. *)
Definition step_spec m m' files (name : string) (done_ : option IndexInstance -> Prop) : Prop :=
  same_frame m m' /\ (forall n, n <> name -> view m' files n = view m files n) /\
  done_ (view m' files name).

Lemma insert_into_spec m files name r values m' :
  insert_into json_to_string codec m files name r values = (m', Ok tt) ->
  match row_key (index_columns m name) values with
  | None => m' = m
  | Some key => step_spec m m' files name (fun v => exists i i',
      view m files name = Some i /\ Instance_insert i key r = (i', Ok tt) /\ v = Some i')
  end.
Proof.
  unfold insert_into. destruct (row_key _ _) as [key|]; [|by intros [= <-]].
  destruct (ensure_loaded codec m files name) as [m1 [i|e]] eqn:He; [|done].
  destruct (ensure_loaded_view _ _ _ _ _ He) as (Hf & Hv & Hn).
  destruct (Instance_insert i key r) as [i' res] eqn:Hins. intros [= <- ->]. split_and!.
  - by eapply same_frame_trans; [exact Hf|apply same_frame_put].
  - intros n Hne. by rewrite view_put, decide_False.
  - exists i, i'. rewrite view_put, decide_True by done. done.
Qed.

Lemma remove_from_spec m files name r values m' :
  remove_from json_to_string codec m files name r values = (m', Ok tt) ->
  match row_key (index_columns m name) values with
  | None => m' = m
  | Some key => step_spec m m' files name (fun v => exists i,
      view m files name = Some i /\ v = Some (Instance_remove i key r).1)
  end.
Proof.
  unfold remove_from. destruct (row_key _ _) as [key|]; [|by intros [= <-]].
  destruct (ensure_loaded codec m files name) as [m1 [i|e]] eqn:He; [|done].
  destruct (ensure_loaded_view _ _ _ _ _ He) as (Hf & Hv & Hn).
  intros [= <-]. split_and!.
  - by eapply same_frame_trans; [exact Hf|apply same_frame_put].
  - intros n Hne. by rewrite view_put, decide_False.
  - exists i. rewrite view_put, decide_True by done. done.
Qed.

(** Every cataloged index agrees with the table. *)
Definition indexes_agree m files table : Prop :=
  forall name meta, ix_catalog m !! name = Some meta ->
    exists i, view m files name = Some i /\ agrees i (effective_columns meta) table.

(** Every column of an index leads to it. *)
Definition column_map_ok m : Prop :=
  forall name meta c, ix_catalog m !! name = Some meta -> c ∈ effective_columns meta ->
    name ∈ default [] (ix_column_map m !! c).

Definition row_keys_ok m values : Prop :=
  forall name meta key, ix_catalog m !! name = Some meta ->
    row_key (effective_columns meta) values = Some key -> key_ok key.

Lemma effective_columns_head meta : exists c, c ∈ effective_columns meta.
Proof. unfold effective_columns. destruct (im_columns meta) as [|c l]; eexists; by left. Qed.

Lemma row_key_column cols values key c :
  row_key cols values = Some key -> c ∈ cols -> is_Some (values !! c).
Proof.
  intros Hk Hc. unfold composite_key in Hk.
  assert (Hm : forall l ks, mapM (fun c => from_value json_to_string <$> values !! c) l = Some ks ->
            c ∈ l -> is_Some (values !! c)).
  { intros l ks Hl Hin. apply mapM_Some_1 in Hl.
    destruct (list_elem_of_lookup_1 l c Hin) as [j Hj].
    destruct (Forall2_lookup_l _ _ _ _ _ Hl Hj) as (y & _ & Hy).
    destruct (values !! c); [by eexists|done]. }
  destruct cols as [|c0 [|c1 l]].
  - by apply elem_of_nil in Hc.
  - apply list_elem_of_singleton in Hc. subst. destruct (values !! c0); [by eexists|done].
  - destruct (mapM _ _) as [ks|] eqn:Hl; [|done]. by eapply Hm.
Qed.

(** A row with a key for an index reaches that index. *)
Lemma row_key_seen m values name meta key :
  column_map_ok m -> ix_catalog m !! name = Some meta ->
  row_key (effective_columns meta) values = Some key -> name ∈ seen_indexes m values.
Proof.
  intros Hcm Hcat Hk. destruct (effective_columns_head meta) as [c Hc].
  destruct (row_key_column _ _ _ _ Hk Hc) as [v Hv]. unfold seen_indexes.
  apply elem_of_list_to_set, list_elem_of_In, in_concat.
  exists (default [] (ix_column_map m !! c)). split; apply list_elem_of_In; [|by eapply Hcm].
  apply list_elem_of_fmap. exists (c, v). split; [done|]. by apply elem_of_map_to_list.
Qed.

(** A maintenance loop that turns agreement with one table into agreement with
    another, index by index, under an invariant of the loop. *)
Lemma for_each_agree (Inv : IndexManager -> Prop) m0 files table table'
    (f : IndexManager -> string -> IndexManager * Result unit) :
  (forall m name m', same_frame m0 m -> Inv m -> f m name = (m', Ok tt) ->
     Inv m' /\ same_frame m m' /\ (forall n, n <> name -> view m' files n = view m files n) /\
     forall meta i, ix_catalog m0 !! name = Some meta -> view m files name = Some i ->
       agrees i (effective_columns meta) table ->
       exists i', view m' files name = Some i' /\ agrees i' (effective_columns meta) table') ->
  forall names m m', NoDup names -> same_frame m0 m -> Inv m -> for_each f names m = (m', Ok tt) ->
  (forall n meta, ix_catalog m0 !! n = Some meta -> exists i, view m files n = Some i /\
     agrees i (effective_columns meta) (if decide (n ∈ names) then table else table')) ->
  same_frame m0 m' /\ indexes_agree m' files table'.
Proof.
  intros Hstep. induction names as [|name names IH]; intros m m' Hnd Hf Hinv Hrun Hag.
  - simpl in Hrun. injection Hrun as <-. split; [done|]. intros n meta Hn.
    rewrite Hf in Hn. simpl in Hn. destruct (Hag n meta Hn) as (i & Hv & Ha). exists i.
    rewrite decide_False in Ha by apply not_elem_of_nil. done.
  - apply NoDup_cons in Hnd as [Hnot Hnd]. simpl in Hrun.
    destruct (f m name) as [m1 [[]|e]] eqn:Hfm; [|done].
    destruct (Hstep m name m1 Hf Hinv Hfm) as (Hinv1 & Hf1 & Hother & Hself).
    apply (IH m1 m' Hnd); [by eapply same_frame_trans|done|done|].
    intros n meta Hn. destruct (Hag n meta Hn) as (i & Hv & Ha).
    destruct (decide (n = name)) as [->|Hne].
    + rewrite decide_True in Ha by by left. rewrite decide_False by done. by eapply Hself.
    + rewrite Hother by done. exists i. split; [done|].
      destruct (decide (n ∈ names)) as [Hin|Hin].
      * by rewrite decide_True in Ha by by right.
      * rewrite decide_False in Ha; [done|]. by apply not_elem_of_cons.
Qed.

Lemma index_columns_catalog m name meta :
  ix_catalog m !! name = Some meta -> index_columns m name = effective_columns meta.
Proof. intros H. unfold index_columns. by rewrite H. Qed.

Lemma on_insert_agree m files table r values m' :
  column_map_ok m -> indexes_agree m files table -> row_keys_ok m values -> table !! r = None ->
  on_insert json_to_string codec m files r values = (m', Ok tt) ->
  same_frame m m' /\ indexes_agree m' files (<[r := values]> table).
Proof.
  intros Hcm Hag Hkeys Hr Hrun.
  refine (for_each_agree (fun _ => True) m files table (<[r := values]> table) _ _
    (elements (seen_indexes m values)) m m' (NoDup_elements _) (same_frame_refl m) I Hrun _).
  - intros m1 name m2 Hf _ Hins. pose proof (insert_into_spec _ _ _ _ _ _ Hins) as Hspec.
    assert (Hcols : index_columns m1 name = index_columns m name) by by rewrite Hf.
    rewrite Hcols in Hspec. destruct (row_key (index_columns m name) values) as [key|] eqn:Hk.
    + destruct Hspec as (Hf2 & Hother & (i & i' & Hv & Hi & Hv')). split_and!; [done..|].
      intros meta i0 Hcat Hv0 Ha. assert (i0 = i) as -> by congruence. exists i'. split; [done|].
      rewrite (index_columns_catalog _ _ _ Hcat) in Hk.
      eapply agrees_insert; [done..| |done]. by eapply Hkeys.
    + subst m2. split_and!; [done|apply same_frame_refl|done|]. intros meta i Hcat Hv Ha.
      exists i. split; [done|]. rewrite (index_columns_catalog _ _ _ Hcat) in Hk.
      by apply agrees_skip.
  - intros n meta Hcat. destruct (Hag n meta Hcat) as (i & Hv & Ha). exists i. split; [done|].
    case_decide as Hin; [done|]. apply agrees_skip; [done..|].
    destruct (row_key (effective_columns meta) values) as [key|] eqn:Hk; [|done].
    destruct Hin. apply elem_of_elements. by eapply row_key_seen.
Qed.

Lemma on_delete_agree m files table r values m' :
  column_map_ok m -> indexes_agree m files table -> row_keys_ok m values ->
  table !! r = Some values ->
  on_delete json_to_string codec m files r values = (m', Ok tt) ->
  same_frame m m' /\ indexes_agree m' files (delete r table).
Proof.
  intros Hcm Hag Hkeys Hr Hrun.
  refine (for_each_agree (fun _ => True) m files table (delete r table) _ _
    (elements (seen_indexes m values)) m m' (NoDup_elements _) (same_frame_refl m) I Hrun _).
  - intros m1 name m2 Hf _ Hins. pose proof (remove_from_spec _ _ _ _ _ _ Hins) as Hspec.
    assert (Hcols : index_columns m1 name = index_columns m name) by by rewrite Hf.
    rewrite Hcols in Hspec. destruct (row_key (index_columns m name) values) as [key|] eqn:Hk.
    + destruct Hspec as (Hf2 & Hother & (i & Hv & Hv')). split_and!; [done..|].
      intros meta i0 Hcat Hv0 Ha. assert (i0 = i) as -> by congruence.
      eexists. split; [done|]. rewrite (index_columns_catalog _ _ _ Hcat) in Hk.
      eapply agrees_remove; [done..|]. by eapply Hkeys.
    + subst m2. split_and!; [done|apply same_frame_refl|done|]. intros meta i Hcat Hv Ha.
      exists i. split; [done|]. rewrite (index_columns_catalog _ _ _ Hcat) in Hk.
      by eapply agrees_skip_delete.
  - intros n meta Hcat. destruct (Hag n meta Hcat) as (i & Hv & Ha). exists i. split; [done|].
    case_decide as Hin; [done|]. eapply agrees_skip_delete; [done..|].
    destruct (row_key (effective_columns meta) values) as [key|] eqn:Hk; [|done].
    destruct Hin. apply elem_of_elements. by eapply row_key_seen.
Qed.

(** *** Updates *)

Lemma agrees_replace i cols table r old new :
  agrees i cols table -> table !! r = Some old -> row_key cols old = row_key cols new ->
  agrees i cols (<[r := new]> table).
Proof.
  intros [Hok Hag] Hr Hkey. split; [done|]. intros k Hk. rewrite (Hag k Hk).
  rewrite <-(insert_delete_id table r old Hr) at 1. rewrite <-(insert_delete_eq table r new).
  rewrite !rows_with_insert by apply lookup_delete_eq. unfold matching_row. simpl. by rewrite Hkey.
Qed.

(** The two sides of an update both give the columns of the index, and columns that
    compare equal have the same key. *)
Definition update_seen (json_eq : J -> J -> bool) m (old new : gmap string (Value J)) : Prop :=
  forall name meta c, ix_catalog m !! name = Some meta -> c ∈ effective_columns meta ->
    exists o n, old !! c = Some o /\ new !! c = Some n /\
      (Value_eq json_eq o n = true -> from_value json_to_string o = from_value json_to_string n).

Definition all_loaded m : Prop :=
  forall name meta, ix_catalog m !! name = Some meta -> is_Some (ix_instances m !! name).

Lemma unchanged_key json_eq m name meta old new :
  update_seen json_eq m old new -> ix_catalog m !! name = Some meta ->
  existsb (column_changed json_eq old new) (effective_columns meta) = false ->
  row_key (effective_columns meta) old = row_key (effective_columns meta) new.
Proof.
  intros Hseen Hcat Hno.
  assert (Hsame : forall c, c ∈ effective_columns meta ->
    from_value json_to_string <$> old !! c = from_value json_to_string <$> new !! c).
  { intros c Hc. destruct (Hseen name meta c Hcat Hc) as (o & n & Ho & Hn & Heq).
    assert (Hch : column_changed json_eq old new c = false).
    { destruct (column_changed json_eq old new c) eqn:Hcc; [|done].
      rewrite <-Hno. symmetry. apply existsb_exists. exists c. by rewrite <-list_elem_of_In. }
    unfold column_changed in Hch. rewrite Ho, Hn in *. simpl.
    by rewrite Heq by by apply negb_false_iff. }
  clear Hno. revert Hsame. generalize (effective_columns meta) as cols. intros cols Hsame.
  assert (Hm : mapM (fun c => from_value json_to_string <$> old !! c) cols =
               mapM (fun c => from_value json_to_string <$> new !! c) cols).
  { clear -Hsame. induction cols as [|c cols IH]; [done|]. cbn [mapM].
    rewrite Hsame by by left. by rewrite IH by (intros; apply Hsame; by right). }
  unfold composite_key. destruct cols as [|c [|]]; [done| |by rewrite Hm]. apply Hsame. by left.
Qed.

(** What an update does to one loaded index whose columns changed. *)
Lemma update_instance_agree json_eq m m1 table r old new name i m2 :
  update_seen json_eq m old new -> table !! r = Some old -> row_keys_ok m old -> row_keys_ok m new ->
  (let i := match row_key (index_columns m name) old with
            | Some key => (Instance_remove i key r).1
            | None => i
            end in
   match row_key (index_columns m name) new with
   | Some key => let '(i, res) := Instance_insert i key r in (put_instance m1 name i, res)
   | None => (put_instance m1 name i, Ok tt)
   end) = (m2, Ok tt) ->
  exists i', m2 = put_instance m1 name i' /\
    forall meta, ix_catalog m !! name = Some meta -> agrees i (effective_columns meta) table ->
      agrees i' (effective_columns meta) (<[r := new]> table).
Proof.
  intros Hseen Hr Hko Hkn. simpl.
  set (i1 := match row_key (index_columns m name) old with Some _ => _ | None => _ end).
  assert (Hrem : forall meta, ix_catalog m !! name = Some meta -> agrees i (effective_columns meta) table ->
            agrees i1 (effective_columns meta) (delete r table)).
  { intros meta Hcat Ha. unfold i1. rewrite (index_columns_catalog _ _ _ Hcat).
    destruct (row_key (effective_columns meta) old) as [key|] eqn:Hk.
    - eapply agrees_remove; [done..|]. by eapply Hko.
    - by eapply agrees_skip_delete. }
  destruct (row_key (index_columns m name) new) as [key|] eqn:Hk.
  - destruct (Instance_insert i1 key r) as [i' res] eqn:Hins. intros [= <- ->].
    exists i'. split; [done|]. intros meta Hcat Ha. rewrite <-insert_delete_eq.
    rewrite (index_columns_catalog _ _ _ Hcat) in Hk.
    eapply agrees_insert; [by apply Hrem|by apply lookup_delete_eq|done| |done]. by eapply Hkn.
  - intros [= <-]. exists i1. split; [done|]. intros meta Hcat Ha. rewrite <-insert_delete_eq.
    rewrite (index_columns_catalog _ _ _ Hcat) in Hk.
    apply agrees_skip; [by apply Hrem|by apply lookup_delete_eq|done].
Qed.

(** Updates keep the indexes: when every cataloged index is loaded and the two
    sides of the update give the indexed columns, an update that the manager accepts
    leaves every index, loaded values changed or not, in agreement with the table in
    which the row is replaced. *)
Theorem updates_keep_indexes json_eq m files table r old new m' :
  all_loaded m -> update_seen json_eq m old new -> indexes_agree m files table ->
  table !! r = Some old -> row_keys_ok m old -> row_keys_ok m new ->
  on_update json_to_string json_eq m r old new = (m', Ok tt) ->
  same_frame m m' /\ indexes_agree m' files (<[r := new]> table).
Proof.
  intros Hload Hseen Hag Hr Hko Hkn Hrun.
  refine (for_each_agree all_loaded m files table (<[r := new]> table) _ _
    (map_to_list (ix_catalog m)).*1 m m' (NoDup_fst_map_to_list _) (same_frame_refl m) Hload Hrun _).
  - intros m1 name m2 Hf Hl Hupd. unfold update_in in Hupd.
    assert (Hcols : index_columns m1 name = index_columns m name) by by rewrite Hf. rewrite Hcols in Hupd.
    destruct (existsb _ _) eqn:Hch; simpl in Hupd.
    + destruct (ix_instances m1 !! name) as [i|] eqn:Hi.
      2: { injection Hupd as <-. split_and!; [done|apply same_frame_refl|done|].
           intros meta i Hcat _ _. destruct (Hl name meta) as [i0 Hi0]; [|congruence]. by rewrite Hf. }
      assert (Hput : exists i', m2 = put_instance m1 name i' /\
        forall meta, ix_catalog m !! name = Some meta -> agrees i (effective_columns meta) table ->
          agrees i' (effective_columns meta) (<[r := new]> table)).
      { eapply update_instance_agree; [exact Hseen|exact Hr|exact Hko|exact Hkn|exact Hupd]. }
      destruct Hput as (i' & -> & Hput). split_and!.
      * intros n meta Hn. simpl. destruct (decide (name = n)) as [->|Hne];
          [rewrite lookup_insert_eq; by eexists|rewrite lookup_insert_ne by done; by eapply Hl].
      * apply same_frame_put.
      * intros n Hne. by rewrite view_put, decide_False.
      * intros meta i0 Hcat Hv Ha. exists i'. rewrite view_put, decide_True by done. split; [done|].
        apply Hput; [done|]. unfold view in Hv. rewrite Hi in Hv. by simplify_eq.
    + injection Hupd as <-. split_and!; [done|apply same_frame_refl|done|].
      intros meta i Hcat Hv Ha. exists i. split; [done|]. eapply agrees_replace; [done..|].
      eapply unchanged_key; [done..|]. by rewrite <-(index_columns_catalog m name).
  - intros n meta Hcat. destruct (Hag n meta Hcat) as (i & Hv & Ha). exists i. split; [done|].
    rewrite decide_True; [done|]. apply list_elem_of_fmap. exists (n, meta).
    split; [done|]. by apply elem_of_map_to_list.
Qed.

(** A sequence of row changes reported to the manager. *)
Inductive row_change :=
| RowInserted (r : Z) (values : gmap string (Value J))
| RowDeleted (r : Z).

(** The reported deletion carries the deleted row's values. *)
Fixpoint maintain m files table (cs : list row_change)
    : option (IndexManager * gmap Z (gmap string (Value J))) :=
  match cs with
  | [] => Some (m, table)
  | RowInserted r values :: cs =>
      match table !! r, on_insert json_to_string codec m files r values with
      | None, (m, Ok _) => maintain m files (<[r := values]> table) cs
      | _, _ => None
      end
  | RowDeleted r :: cs =>
      match table !! r with
      | Some values =>
          match on_delete json_to_string codec m files r values with
          | (m, Ok _) => maintain m files (delete r table) cs
          | (_, Err _) => None
          end
      | None => maintain m files table cs
      end
  end.

Definition table_keys_ok m table : Prop := map_Forall (fun _ values => row_keys_ok m values) table.

Definition change_ok m (c : row_change) : Prop :=
  match c with RowInserted _ values => row_keys_ok m values | RowDeleted _ => True end.

Lemma maintain_agree cs : forall m files table m' table',
  column_map_ok m -> indexes_agree m files table -> table_keys_ok m table ->
  Forall (change_ok m) cs -> maintain m files table cs = Some (m', table') ->
  same_frame m m' /\ indexes_agree m' files table'.
Proof.
  induction cs as [|c cs IH]; intros m files table m' table' Hcm Hag Htk Hcs Hrun.
  { simpl in Hrun. injection Hrun as <- <-. split; [apply same_frame_refl|done]. }
  apply Forall_cons_1 in Hcs as [Hc Hcs].
  assert (Hnext : forall m1 table1, same_frame m m1 -> indexes_agree m1 files table1 ->
    table_keys_ok m table1 -> maintain m1 files table1 cs = Some (m', table') ->
    same_frame m m' /\ indexes_agree m' files table').
  { intros m1 table1 Hf Ha Ht Hm. destruct (IH m1 files table1 m' table') as [Hf' Ha']; try done.
    - intros n meta c0. rewrite Hf. apply Hcm.
    - intros r values Hr n meta key. rewrite Hf. by apply (Ht r).
    - eapply Forall_impl; [exact Hcs|]. intros [r values|r]; [|done].
      intros Hok n meta key. rewrite Hf. apply Hok.
    - split; [by eapply same_frame_trans|done]. }
  destruct c as [r values|r]; simpl in *.
  - destruct (table !! r) eqn:Hr; [done|].
    destruct (on_insert _ _ _ _ _ _) as [m1 [[]|e]] eqn:Hins; [|done].
    destruct (on_insert_agree _ _ _ _ _ _ Hcm Hag Hc Hr Hins) as [Hf Ha].
    eapply Hnext; [done..| |done]. by apply map_Forall_insert_2.
  - destruct (table !! r) as [values|] eqn:Hr; [|by eapply IH].
    destruct (on_delete _ _ _ _ _ _) as [m1 [[]|e]] eqn:Hdel; [|done].
    destruct (on_delete_agree _ _ _ _ _ _ Hcm Hag (Htk r values Hr) Hr Hdel) as [Hf Ha].
    eapply Hnext; [done..| |done]. by apply map_Forall_delete.
Qed.

(** *** The column map *)

(** A column leads to exactly the indexes that cover it. *)
Definition column_map_exact m : Prop :=
  forall c name, name ∈ default [] (ix_column_map m !! c) <->
    exists meta, ix_catalog m !! name = Some meta /\ c ∈ effective_columns meta.

Lemma register_columns_spec name cols cm c n :
  n ∈ default [] (fold_left (register_column name) cols cm !! c) <->
  n ∈ default [] (cm !! c) \/ (n = name /\ c ∈ cols).
Proof.
  revert cm. induction cols as [|x cols IH]; intros cm; cbn [fold_left].
  - split; [auto|]. intros [?|[_ Hc]]; [done|by apply elem_of_nil in Hc].
  - rewrite IH. unfold register_column. rewrite lookup_insert, elem_of_cons.
    case_decide as Hx; simpl; [subst; rewrite elem_of_app, list_elem_of_singleton|]; naive_solver.
Qed.

Lemma unregister_columns_spec name cols cm c n :
  n ∈ default [] (fold_left (unregister_column name) cols cm !! c) <->
  n ∈ default [] (cm !! c) /\ ~ (n = name /\ c ∈ cols).
Proof.
  revert cm. induction cols as [|x cols IH]; intros cm; cbn [fold_left].
  - split; [|naive_solver]. intros ?. split; [done|]. intros [_ Hc]. by apply elem_of_nil in Hc.
  - rewrite IH, elem_of_cons.
    assert (Hx : n ∈ default [] (unregister_column name cm x !! c) <->
              n ∈ default [] (cm !! c) /\ ~ (n = name /\ c = x)).
    { unfold unregister_column. destruct (cm !! x) as [names|] eqn:Hcm.
      - assert (Hf : n ∈ List.filter (fun n => negb (String.eqb n name)) names <->
                  n ∈ names /\ n <> name).
        { rewrite !list_elem_of_In, List.filter_In, negb_true_iff, String.eqb_neq. done. }
        case_bool_decide as He; [rewrite lookup_delete|rewrite lookup_insert]; case_decide as Hd;
          [subst; rewrite Hcm; simpl; rewrite He in Hf|naive_solver|subst; rewrite Hcm; simpl|naive_solver].
        + split; [intros H0; by apply elem_of_nil in H0|]. intros [H1 H2]. apply Hf. naive_solver.
        + rewrite Hf. naive_solver.
      - split; [|naive_solver]. intros Hn. split; [done|]. intros [-> ->]. rewrite Hcm in Hn.
        by apply elem_of_nil in Hn. }
    rewrite Hx. naive_solver.
Qed.

Inductive catalog_op :=
| OpCreate (name : string) (columns : list string) (t : IndexType) (unique : bool) (dt : DataType)
    (now : Z)
| OpDrop (name : string).

Definition catalog_step (st : IndexManager * gmap string B) (op : catalog_op)
    : IndexManager * gmap string B :=
  match op with
  | OpCreate name columns t unique dt now =>
      ((create_index_multi st.1 name columns t unique dt now).1, st.2)
  | OpDrop name => (drop_index st.1 st.2 name).1
  end.

Lemma catalog_step_exact st op :
  column_map_exact st.1 -> column_map_exact (catalog_step st op).1.
Proof.
  destruct st as [m files]. intros Hex. destruct op as [name cols t u dt now|name]; simpl in *.
  - unfold create_index_multi. destruct cols as [|c0 cols]; [done|].
    destruct (ix_catalog m !! name) as [meta|] eqn:Hcat; [done|].
    intros c n. cbn [ix_column_map ix_catalog fst]. rewrite register_columns_spec, (Hex c n).
    rewrite lookup_insert. split.
    + intros [(meta & Hn & Hc)|[-> Hc]].
      * exists meta. rewrite decide_False; [done|]. intros ->. congruence.
      * eexists. rewrite decide_True by done. by split.
    + intros (meta & Hn & Hc). case_decide; [|left; by exists meta].
      simplify_eq. right. done.
  - unfold drop_index. destruct (ix_catalog m !! name) as [meta|] eqn:Hcat; [|done].
    intros c n. cbn [ix_column_map ix_catalog fst]. rewrite unregister_columns_spec, (Hex c n). split.
    + intros [(meta' & Hn & Hc) Hno]. exists meta'. split; [|done].
      apply lookup_delete_Some. split; [|done]. intros ->. apply Hno. simplify_eq. done.
    + intros (meta' & [Hne Hn]%lookup_delete_Some & Hc). split; [by exists meta'|].
      intros [-> _]. done.
Qed.

(** The column map is exact: after any sequence of index creations and drops,
    successful or refused, a column leads to exactly the cataloged indexes that
    cover it, so that maintenance and planning miss none and find no dropped one. *)
Theorem column_map_stays_exact table_name base_dir in_memory files ops :
  let m := (fold_left catalog_step ops (IndexManager_new table_name base_dir in_memory, files)).1 in
  forall c name, name ∈ default [] (ix_column_map m !! c) <->
    exists meta, ix_catalog m !! name = Some meta /\ c ∈ effective_columns meta.
Proof.
  assert (Hgen : forall st, column_map_exact st.1 -> column_map_exact (fold_left catalog_step ops st).1).
  { induction ops as [|op ops IH]; intros st Hst; [done|]. simpl. by apply IH, catalog_step_exact. }
  apply (Hgen (_, files)). intros c name. simpl. rewrite lookup_empty. simpl. split.
  - intros Hn. by apply elem_of_nil in Hn.
  - intros (meta & Hm & _). by rewrite lookup_empty in Hm.
Qed.

(** *** Equality lookups *)

Lemma select_best_spec m names p name :
  select_best_index (J := J) m names p = Some name ->
  name ∈ names /\ exists meta, ix_catalog m !! name = Some meta /\ is_composite meta = false.
Proof.
  unfold select_best_index.
  set (usable := List.filter _ names).
  assert (Husable : forall n, n ∈ usable -> n ∈ names /\
            exists meta, ix_catalog m !! n = Some meta /\ is_composite meta = false).
  { intros n Hn. apply list_elem_of_In, List.filter_In in Hn as [Hn Hm].
    split; [by apply list_elem_of_In|]. destruct (ix_catalog m !! n) as [meta|]; [|done].
    exists meta. split; [done|]. by apply negb_true_iff. }
  assert (Hfind : forall q n, List.find q usable = Some n -> n ∈ usable).
  { intros q n Hq. apply List.find_some in Hq as [Hin _]. by apply list_elem_of_In. }
  destruct (is_equality p).
  - destruct (List.find _ usable) as [n|] eqn:Hf.
    + intros [= <-]. apply Husable. by eapply Hfind.
    + intros Hh. apply Husable. destruct usable; [done|]. injection Hh as <-. by left.
  - intros Hf. apply Husable. by eapply Hfind.
Qed.

Lemma single_column meta c :
  is_composite meta = false -> c ∈ effective_columns meta -> effective_columns meta = [c].
Proof.
  unfold is_composite, effective_columns. destruct (im_columns meta) as [|x [|y l]]; simpl.
  - intros _ ->%list_elem_of_singleton. done.
  - intros _ ->%list_elem_of_singleton. done.
  - intros H. by apply Nat.ltb_ge in H; lia.
Qed.

(** The rows of the table whose value in [column] has the key of [v], for the
    equality of the index that answers. *)
Definition rows_equal i (column : string) (v : Value J) table : list Z :=
  fst <$> List.filter (fun e : Z * gmap string (Value J) =>
    match e.2 !! column with
    | Some v' => same_key i (from_value json_to_string v') (from_value json_to_string v)
    | None => false
    end) (map_to_list table).

Lemma rows_with_single i column v table :
  rows_with i [column] table (from_value json_to_string v) = rows_equal i column v table.
Proof.
  unfold rows_with, rows_equal. f_equal. apply List.filter_ext. intros [r values].
  unfold matching_row, row_key. simpl. by destruct (values !! column).
Qed.

(** C18 Indexes follow their table: starting from indexes that agree with the table and a
    column map that leads to exactly the indexes of each column, after any sequence of row
    insertions and deletions reported to the manager and accepted, an equality lookup on a
    column answers, if it answers, exactly the rows of the table whose value in that column
    has the key looked up, whichever index is selected, loaded or not; and it never panics.
    The indexed values, of the table, of the insertions and of the lookup, give keys
    without NaN floats and with integers and bytes in range; a NaN key would break
    the order of the tree (see [nan_key_breaks_order]). *)
Theorem indexes_follow_table cs m files table m' table' column v :
  column_map_exact m -> indexes_agree m files table -> table_keys_ok m table ->
  Forall (change_ok m) cs -> maintain m files table cs = Some (m', table') ->
  key_ok (from_value json_to_string v) ->
  exists m2 answer, IndexManager_lookup json_to_string codec m' files column (HintEq v) =
    (m2, Some (Ok answer)) /\
  forall res, answer = Some res -> exists name i, view m' files name = Some i /\
    lr_row_ids res ≡ₚ rows_equal i column v table'.
Proof.
  intros Hex Hag Htk Hcs Hrun Hv.
  assert (Hcm : column_map_ok m) by (intros name meta c Hcat Hc; apply Hex; by exists meta).
  destruct (maintain_agree cs m files table m' table' Hcm Hag Htk Hcs Hrun) as [Hf Hag'].
  unfold IndexManager_lookup. destruct (ix_column_map m' !! column) as [names|] eqn:Hcol;
    [|by exists m', None].
  destruct (select_best_index m' names (HintEq v)) as [name|] eqn:Hsel; [|by exists m', None].
  destruct (select_best_spec _ _ _ _ Hsel) as (Hname & meta & Hcat & Hcomp).
  destruct (Hag' name meta Hcat) as (i & Hview & Hok & Hrows).
  assert (Hcols : effective_columns meta = [column]).
  { apply single_column; [done|]. rewrite Hf in Hcol, Hcat. simpl in Hcol, Hcat.
    assert (name ∈ default [] (ix_column_map m !! column)) as Hin by by rewrite Hcol.
    apply Hex in Hin as (meta' & Hm' & Hc). by simplify_eq. }
  assert (Hload : exists m2, ensure_loaded codec m' files name = (m2, Ok i)).
  { unfold ensure_loaded. unfold view in Hview. rewrite Hcat in Hview |- *.
    destruct (ix_instances m' !! name) as [i0|]; [injection Hview as ->; by eexists|].
    destruct (load_instance codec m' files name meta) as [i0|e]; [|done].
    injection Hview as ->. by eexists. }
  destruct Hload as [m2 ->]. simpl. eexists m2, _. split; [done|].
  intros res [= <-]. exists name, i. split; [done|]. simpl.
  rewrite inst_get_rows by done.
  replace (default [] (match inst_rows i (from_value json_to_string v) with
    | [] => None | rows => Some rows end)) with (inst_rows i (from_value json_to_string v))
    by by destruct (inst_rows i (from_value json_to_string v)).
  rewrite Hrows by done. by rewrite Hcols, rows_with_single.
Qed.
End theory.

(** ** A concrete manager *)

(** The codec that keeps the images. *)
Inductive FileImage :=
| FileBTree (i : BTreeImage)
| FileHash (i : HashImage)
| FileCatalog (c : gmap string IndexMeta).

Definition image_codec : Codec FileImage :=
  mkCodec FileBTree (fun b => match b with FileBTree i => Some i | _ => None end)
          FileHash (fun b => match b with FileHash i => Some i | _ => None end)
          FileCatalog (fun b => match b with FileCatalog c => Some c | _ => None end)
          (fun _ => None).

Definition no_json (j : unit) : string := EmptyString.
Definition no_files : gmap string FileImage := ∅.
Definition age_row (n : Z) : gmap string (Value unit) := {["age"%string := VInt64 n]}.

Definition demo_manager : IndexManager :=
  (create_index (IndexManager_new "t" "db" false) "by_age" "age" IdxBTree true DtInt64 0).1.

Definition demo_changes : list (@row_change unit) :=
  [RowInserted 1 (age_row 30); RowInserted 2 (age_row 40); RowDeleted 1; RowInserted 3 (age_row 30)].

Lemma demo_catalog name meta :
  ix_catalog demo_manager !! name = Some meta -> name = "by_age"%string /\ effective_columns meta = ["age"%string].
Proof.
  change (ix_catalog demo_manager) with (<["by_age"%string :=
    mkIndexMeta "by_age" "age" IdxBTree true DtInt64 0 ["age"%string] 0]> (∅ : gmap string IndexMeta)).
  intros [[<- <-]|[_ H]]%lookup_insert_Some; [done|]. by rewrite lookup_empty in H.
Qed.

Lemma demo_column_map_exact : column_map_exact demo_manager.
Proof.
  apply (catalog_step_exact (B := unit) (IndexManager_new "t" "db" false, ∅)
           (OpCreate "by_age" ["age"%string] IdxBTree true DtInt64 0)).
  intros c name. simpl. rewrite lookup_empty. simpl. split.
  - intros H. by apply elem_of_nil in H.
  - intros (meta & H & _). by rewrite lookup_empty in H.
Qed.

Lemma demo_agree : indexes_agree no_json image_codec demo_manager no_files ∅.
Proof.
  intros name meta [-> Hcols]%demo_catalog. rewrite Hcols.
  eexists. split; [reflexivity|]. split; [|done]. split; [|reflexivity]. split; constructor.
Qed.

Lemma demo_row_keys n : - 2 ^ 63 <= n < 2 ^ 63 -> row_keys_ok no_json demo_manager (age_row n).
Proof.
  intros Hn name meta key [_ ->]%demo_catalog. simpl.
  unfold age_row. rewrite lookup_singleton_eq. intros [= <-]. exact Hn.
Qed.

Lemma indexes_follow_table_witness : exists m' table',
  maintain no_json image_codec demo_manager no_files ∅ demo_changes = Some (m', table') /\
  exists m2 res, IndexManager_lookup no_json image_codec m' no_files "age" (HintEq (VInt64 30)) =
    (m2, Some (Ok (Some res))) /\ lr_row_ids res = [3].
Proof.
  assert (Hcs : Forall (change_ok no_json demo_manager) demo_changes).
  { repeat constructor; apply demo_row_keys; lia. }
  assert (Hv : key_ok (from_value no_json (VInt64 30))) by (simpl; lia).
  pose proof (fun m' table' => indexes_follow_table no_json image_codec demo_changes demo_manager no_files ∅
    m' table' "age"%string (VInt64 30) demo_column_map_exact demo_agree (map_Forall_empty _) Hcs) as H.
  eexists _, _. split; [vm_compute; reflexivity|].
  destruct (H _ _ ltac:(vm_compute; reflexivity) Hv) as (m2 & answer & Heq & _).
  vm_compute in Heq. injection Heq as <- <-. eexists _, _. split; [vm_compute; reflexivity|reflexivity].
Defined.

Definition demo_loaded : IndexManager := (on_insert no_json image_codec demo_manager no_files 1 (age_row 30)).1.

Definition unit_eq (a b : unit) : bool := true.

Lemma updates_keep_indexes_witness : exists m',
  on_update no_json unit_eq demo_loaded 1 (age_row 30) (age_row 31) = (m', Ok tt) /\
  indexes_agree no_json image_codec m' no_files (<[1 := age_row 31]> {[1 := age_row 30]}).
Proof.
  eexists. split; [vm_compute; reflexivity|].
  assert (Hcat : ix_catalog demo_loaded = ix_catalog demo_manager) by (vm_compute; reflexivity).
  assert (Hcm : column_map_ok demo_manager).
  { intros name meta c Hc Hin. apply demo_column_map_exact. exists meta. exact (conj Hc Hin). }
  assert (Hkeys : forall n, - 2 ^ 63 <= n < 2 ^ 63 -> row_keys_ok no_json demo_loaded (age_row n)).
  { intros n Hn name meta key. rewrite Hcat. exact (demo_row_keys n Hn name meta key). }
  apply (updates_keep_indexes no_json image_codec unit_eq demo_loaded no_files _ 1 (age_row 30) (age_row 31)).
  - intros name meta. rewrite Hcat. intros [-> _]%demo_catalog. by eexists.
  - intros name meta c. rewrite Hcat. intros [-> ->]%demo_catalog ->%list_elem_of_singleton.
    eexists _, _. split; [reflexivity|]. split; [reflexivity|]. done.
  - destruct (on_insert_agree no_json image_codec demo_manager no_files ∅ 1 (age_row 30) demo_loaded)
      as [_ Ha]; [exact Hcm|exact demo_agree|apply demo_row_keys; lia|done|vm_compute; reflexivity|exact Ha].
  - done.
  - apply Hkeys. lia.
  - apply Hkeys. lia.
  - vm_compute. reflexivity.
Defined.

(** An update reaches only the indexes in memory: after the indexes are saved and
    the manager reopened, the update of an indexed column is accepted and changes
    nothing, and the lookup that follows, which loads the saved file, answers the
    row for its old value and not for the new one.  And an update refused by a unique
    index has already removed the row's old posting. *)
Theorem update_misses_unloaded_index :
  let '(m, files) := IndexManager_save image_codec demo_loaded no_files in
  let rows m n := match (IndexManager_lookup no_json image_codec m files "age" (HintEq (VInt64 n))).2 with
                  | Some (Ok (Some res)) => lr_row_ids res | _ => [] end in
  let two := (on_insert no_json image_codec m files 2 (age_row 40)).1 in
  let '(refused, res) := on_update no_json unit_eq two 1 (age_row 30) (age_row 40) in
  match IndexManager_load image_codec "t" "db" false files with
  | Ok reopened =>
      on_update no_json unit_eq reopened 1 (age_row 30) (age_row 31) = (reopened, Ok tt) /\
      rows reopened 30 = [1] /\ rows reopened 31 = []
  | Err _ => False
  end /\
  res = Err AlreadyExists /\ rows two 30 = [1] /\ rows refused 30 = [] /\ rows refused 40 = [2].
Proof. vm_compute. repeat split; reflexivity. Qed.
