(* ===== verification/DeltaStore.v ===== *)
(** * The delta store

    Models [storage/delta/update_log.rs]: the delete bitmap (a sorted vector and its
    cached set), the pending cell updates, their persistence in one file through a
    bincode codec (a parameter), and proves that the store implements an abstract
    overlay of deletes and cells, on disk as in memory. *)
From S2P Require Import Prelude Float Values.
Local Open Scope Z_scope.

(** ** The delete bitmap *)

Record DeleteBitmap := mkDeleteBitmap {
  db_deleted : list Z;
  db_lookup : option (gset Z)
}.

(** [slice::binary_search] on a sorted slice: where the value is, or where it would go. *)
Fixpoint binary_search (l : list Z) (x : Z) : nat + nat :=
  match l with
  | [] => inr 0%nat
  | y :: l =>
      if y <? x then
        match binary_search l x with inl i => inl (S i) | inr i => inr (S i) end
      else if y =? x then inl 0%nat else inr 0%nat
  end.

(** [Vec::insert] *)
Definition vec_insert (l : list Z) (pos : nat) (x : Z) : list Z := take pos l ++ x :: drop pos l.

Definition DeleteBitmap_new : DeleteBitmap := mkDeleteBitmap [] (Some ∅).

Definition rebuild_lookup (bm : DeleteBitmap) : DeleteBitmap :=
  mkDeleteBitmap (db_deleted bm) (Some (list_to_set (db_deleted bm))).

(** The [match self.deleted.binary_search(..)] of [delete]. *)
Definition insert_sorted (l : list Z) (row_id : Z) : list Z :=
  match binary_search l row_id with inl _ => l | inr pos => vec_insert l pos row_id end.

Definition DeleteBitmap_delete (bm : DeleteBitmap) (row_id : Z) : DeleteBitmap :=
  match db_lookup bm with
  | Some s =>
      if bool_decide (row_id ∈ s) then bm
      else mkDeleteBitmap (insert_sorted (db_deleted bm) row_id) (Some ({[row_id]} ∪ s))
  | None => rebuild_lookup (mkDeleteBitmap (insert_sorted (db_deleted bm) row_id) None)
  end.

Definition DeleteBitmap_is_deleted (bm : DeleteBitmap) (row_id : Z) : bool :=
  match db_lookup bm with
  | Some s => bool_decide (row_id ∈ s)
  | None => match binary_search (db_deleted bm) row_id with inl _ => true | inr _ => false end
  end.

Definition DeleteBitmap_count (bm : DeleteBitmap) : nat := length (db_deleted bm).
Definition DeleteBitmap_is_empty (bm : DeleteBitmap) : bool := bool_decide (db_deleted bm = []).
Definition DeleteBitmap_deleted_ids (bm : DeleteBitmap) : list Z := db_deleted bm.
Definition DeleteBitmap_clear (bm : DeleteBitmap) : DeleteBitmap := mkDeleteBitmap [] (Some ∅).

Definition DeleteBitmap_undelete (bm : DeleteBitmap) (row_id : Z) : DeleteBitmap :=
  mkDeleteBitmap
    (match binary_search (db_deleted bm) row_id with
     | inl pos => delete pos (db_deleted bm)
     | inr _ => db_deleted bm
     end)
    ((fun s => s ∖ {[row_id]}) <$> db_lookup bm).

Definition ensure_lookup (bm : DeleteBitmap) : DeleteBitmap :=
  match db_lookup bm with None => rebuild_lookup bm | Some _ => bm end.

(** ** The store *)

Record DeltaRecord (J : Type) := mkDeltaRecord {
  dr_row_id : Z;
  dr_column_name : string;
  dr_new_value : Value J;
  dr_txn_id : Z;
  dr_timestamp : Z
}.
Arguments mkDeltaRecord {J}.
Arguments dr_row_id {J}.
Arguments dr_column_name {J}.
Arguments dr_new_value {J}.
Arguments dr_txn_id {J}.
Arguments dr_timestamp {J}.

Record DeltaStore (J : Type) := mkDeltaStore {
  ds_delete_bitmap : DeleteBitmap;
  ds_updates : gmap Z (gmap string (DeltaRecord J));
  ds_log : list (DeltaRecord J);
  ds_dirty : bool;
  ds_next_txn_id : Z
}.
Arguments mkDeltaStore {J}.
Arguments ds_delete_bitmap {J}.
Arguments ds_updates {J}.
Arguments ds_log {J}.
Arguments ds_dirty {J}.
Arguments ds_next_txn_id {J}.

(** [DeltaStorePersisted]; serde skips the bitmap's [lookup]. *)
Record DeltaStorePersisted (J : Type) := mkPersisted {
  dp_deleted : list Z;
  dp_log : list (DeltaRecord J);
  dp_next_txn_id : Z
}.
Arguments mkPersisted {J}.
Arguments dp_deleted {J}.
Arguments dp_log {J}.
Arguments dp_next_txn_id {J}.

Section store.
Context {J : Type}.
Implicit Types (st : DeltaStore J) (row_id : Z) (v : Value J).

Abbreviation Updates := (gmap Z (gmap string (DeltaRecord J))).

Definition DeltaStore_new : DeltaStore J := mkDeltaStore DeleteBitmap_new ∅ [] false 1.

(** [updates.entry(record.row_id).or_insert_with(HashMap::new).insert(column, record)] *)
Definition put_update (u : Updates) (r : DeltaRecord J) : Updates :=
  <[dr_row_id r := <[dr_column_name r := r]> (default ∅ (u !! dr_row_id r))]> u.

Definition delete_row st row_id : DeltaStore J :=
  mkDeltaStore (DeleteBitmap_delete (ds_delete_bitmap st) row_id) (delete row_id (ds_updates st))
    (ds_log st) true (ds_next_txn_id st).

(** The loop of [delete_rows]. *)
Definition delete_rows_loop (row_ids : list Z) (acc : DeleteBitmap * Updates) : DeleteBitmap * Updates :=
  fold_left (fun acc row_id => (DeleteBitmap_delete acc.1 row_id, delete row_id acc.2)) row_ids acc.

Definition delete_rows st (row_ids : list Z) : DeltaStore J * Z :=
  let before := DeleteBitmap_count (ds_delete_bitmap st) in
  let '(bm, u) := delete_rows_loop row_ids (ds_delete_bitmap st, ds_updates st) in
  let deleted := Z.of_nat (DeleteBitmap_count bm) - Z.of_nat before in
  (mkDeltaStore bm u (ds_log st) (if 0 <? deleted then true else ds_dirty st) (ds_next_txn_id st),
   deleted).

Definition update_cell st row_id (column_name : string) v : DeltaStore J :=
  let txn_id := ds_next_txn_id st in
  mkDeltaStore (ds_delete_bitmap st)
    (put_update (ds_updates st) (mkDeltaRecord row_id column_name v txn_id 0))
    (ds_log st) true (wrap64 (txn_id + 1)).

(** The source iterates the hash map in an unspecified order. *)
Definition update_row st row_id (values : gmap string (Value J)) : DeltaStore J :=
  fold_left (fun st e => update_cell st row_id e.1 e.2) (map_to_list values) st.

Definition batch_update_rows st (batch : list (Z * string * Value J)) : DeltaStore J :=
  let '(u, next) :=
    fold_left (fun acc e =>
        (put_update acc.1 (mkDeltaRecord e.1.1 e.1.2 e.2 acc.2 0), wrap64 (acc.2 + 1)))
      batch (ds_updates st, ds_next_txn_id st) in
  mkDeltaStore (ds_delete_bitmap st) u (ds_log st)
    (match batch with [] => ds_dirty st | _ => true end) next.

Definition is_deleted st row_id : bool := DeleteBitmap_is_deleted (ds_delete_bitmap st) row_id.

Definition get_updated_value st row_id (column_name : string) : option (Value J) :=
  cols ← ds_updates st !! row_id; r ← cols !! column_name; Some (dr_new_value r).

Definition get_row_updates st row_id : option (gmap string (DeltaRecord J)) := ds_updates st !! row_id.
Definition has_updates st row_id : bool := bool_decide (is_Some (ds_updates st !! row_id)).

(** The order of [updated_cells]: row id, then column name. *)
Definition cell_le (a b : Z * string * Value J) : Prop :=
  a.1.1 < b.1.1 \/ (a.1.1 = b.1.1 /\ String.leb a.1.2 b.1.2 = true).

#[global] Instance cell_le_dec a b : Decision (cell_le a b).
Proof. unfold cell_le. apply _. Defined.

Definition updated_cells st : list (Z * string * Value J) :=
  merge_sort cell_le (map_to_list (ds_updates st) ≫= fun e =>
    (fun c : string * DeltaRecord J => (e.1, dr_column_name c.2, dr_new_value c.2)) <$> map_to_list e.2).

Definition delete_count st : nat := DeleteBitmap_count (ds_delete_bitmap st).

Definition update_count st : nat :=
  sum_list ((fun e : Z * gmap string (DeltaRecord J) => size e.2) <$> map_to_list (ds_updates st)).

Definition DeltaStore_is_empty st : bool :=
  DeleteBitmap_is_empty (ds_delete_bitmap st) && bool_decide (ds_updates st = ∅).

Definition DeltaStore_snapshot st : DeltaStore J :=
  mkDeltaStore (ds_delete_bitmap st) (ds_updates st) [] false (ds_next_txn_id st).

Definition updates_column st (column_name : string) : bool :=
  existsb (fun e : Z * gmap string (DeltaRecord J) =>
    existsb (fun c : string * DeltaRecord J => eq_ignore_ascii_case c.1 column_name)
      (map_to_list e.2)) (map_to_list (ds_updates st)).

Definition rows_with_string_update st (column_name value : string) : list Z :=
  omap (fun e : Z * gmap string (DeltaRecord J) =>
    match List.find (fun c : string * DeltaRecord J => eq_ignore_ascii_case c.1 column_name)
            (map_to_list e.2) with
    | Some (_, r) =>
        match dr_new_value r with
        | VString s => if String.eqb s value then Some e.1 else None
        | _ => None
        end
    | None => None
    end) (map_to_list (ds_updates st)).

Definition DeltaStore_clear st : DeltaStore J :=
  mkDeltaStore (DeleteBitmap_clear (ds_delete_bitmap st)) ∅ [] true 1.

(** The product cannot overflow: it is only computed up to 10000 deltas. *)
Definition needs_compaction st (base_row_count : Z) : bool :=
  let delta_count := wrap64 (Z.of_nat (delete_count st) + Z.of_nat (update_count st)) in
  (10000 <? delta_count) ||
  ((0 <? base_row_count) && (base_row_count <? wrap64 (delta_count * 5))).

(** *** Persistence *)

Section persistence.
Context {B : Type} (serialize : DeltaStorePersisted J -> B)
  (deserialize : B -> option (DeltaStorePersisted J)).

(** What [save] writes: the collapsed updates. *)
Definition collapsed_log st : list (DeltaRecord J) :=
  map_to_list (ds_updates st) ≫= fun e => (map_to_list e.2).*2.

Definition persisted st : DeltaStorePersisted J :=
  mkPersisted (db_deleted (ds_delete_bitmap st)) (collapsed_log st) (ds_next_txn_id st).

(** The store and its file after [save]; I/O errors are not modelled. *)
Definition DeltaStore_save st (file : option B) : DeltaStore J * option B :=
  if negb (ds_dirty st) then (st, file)
  else
    (mkDeltaStore (ds_delete_bitmap st) (ds_updates st) (ds_log st) false (ds_next_txn_id st),
     Some (serialize (persisted st))).

Definition DeltaStore_load (file : option B) : Result (DeltaStore J) :=
  match file with
  | None => Ok DeltaStore_new
  | Some data =>
      match deserialize data with
      | None => Err InvalidData
      | Some p =>
          Ok (mkDeltaStore (ensure_lookup (mkDeleteBitmap (dp_deleted p) None))
                (fold_left put_update (dp_log p) ∅) (dp_log p) false (dp_next_txn_id p))
      end
  end.
End persistence.
End store.

(** ** The bitmap is a set *)

Definition bitmap_ok (bm : DeleteBitmap) : Prop :=
  StronglySorted Z.lt (db_deleted bm) /\
  forall s, db_lookup bm = Some s -> s = list_to_set (db_deleted bm).

Lemma binary_search_spec l x :
  StronglySorted Z.lt l ->
  match binary_search l x with
  | inl i => l !! i = Some x
  | inr i => (i <= length l)%nat /\ Forall (fun y => y < x) (take i l) /\ Forall (fun y => x < y) (drop i l)
  end.
Proof.
  induction 1 as [|y l Hs IH Hy]; simpl; [by repeat constructor|].
  destruct (Z.ltb_spec y x) as [Hlt|Hge].
  - destruct (binary_search l x) as [i|i]; simpl; [done|]. destruct IH as (Hi & Ht & Hd).
    split; [lia|]. split; [by constructor|done].
  - destruct (Z.eqb_spec y x) as [->|Hne]; [done|]. simpl. split; [lia|]. split; [constructor|].
    constructor; [lia|]. eapply Forall_impl; [exact Hy|]. simpl. lia.
Qed.

Lemma binary_search_elem l x :
  StronglySorted Z.lt l -> match binary_search l x with inl _ => x ∈ l | inr _ => x ∉ l end.
Proof.
  intros Hs. pose proof (binary_search_spec l x Hs) as H. destruct (binary_search l x) as [i|i].
  - by eapply list_elem_of_lookup_2.
  - destruct H as (_ & Ht & Hd). rewrite <-(take_drop i l), elem_of_app. rewrite Forall_forall in Ht, Hd.
    intros [Hx|Hx]; [apply Ht in Hx|apply Hd in Hx]; lia.
Qed.

Lemma sorted_app_cons (l k : list Z) x :
  StronglySorted Z.lt (l ++ k) -> Forall (fun y => y < x) l -> Forall (fun y => x < y) k ->
  StronglySorted Z.lt (l ++ x :: k).
Proof.
  induction l as [|y l IH]; simpl; intros Hs Hl Hk.
  - by constructor.
  - apply StronglySorted_inv in Hs as [Hs Hy]. apply Forall_cons in Hl as [Hyx Hl].
    constructor; [by apply IH|]. rewrite Forall_app in Hy |- *. destruct Hy as [Hy1 Hy2].
    split; [done|]. by constructor.
Qed.

Lemma insert_sorted_spec l x :
  StronglySorted Z.lt l ->
  StronglySorted Z.lt (insert_sorted l x) /\
  (list_to_set (insert_sorted l x) : gset Z) = {[x]} ∪ list_to_set l.
Proof.
  intros Hs. pose proof (binary_search_spec l x Hs) as H. pose proof (binary_search_elem l x Hs) as He.
  unfold insert_sorted, vec_insert. destruct (binary_search l x) as [i|i].
  - split; [done|]. set_solver.
  - destruct H as (_ & Ht & Hd). split.
    + apply sorted_app_cons; [by rewrite take_drop|done..].
    + rewrite <-(take_drop i l) at 3. rewrite !list_to_set_app_L. simpl. set_solver.
Qed.

Lemma sorted_NoDup l : StronglySorted Z.lt l -> NoDup l.
Proof.
  induction 1 as [|y l _ IH Hy]; constructor; [|done]. rewrite Forall_forall in Hy.
  intros Hin. apply Hy in Hin. lia.
Qed.

Definition deleted_set (bm : DeleteBitmap) : gset Z := list_to_set (db_deleted bm).

Lemma bitmap_new_ok : bitmap_ok DeleteBitmap_new.
Proof. split; [constructor|]. by intros s [= <-]. Qed.

Lemma bitmap_delete_ok bm r :
  bitmap_ok bm ->
  bitmap_ok (DeleteBitmap_delete bm r) /\
  deleted_set (DeleteBitmap_delete bm r) = {[r]} ∪ deleted_set bm.
Proof.
  intros [Hs Hl]. destruct (insert_sorted_spec (db_deleted bm) r Hs) as [Hs' Hset].
  unfold DeleteBitmap_delete, deleted_set. destruct (db_lookup bm) as [s|] eqn:Hlk.
  - specialize (Hl s eq_refl). case_bool_decide as Hin; subst s.
    + split; [|set_solver]. split; [done|]. intros s. rewrite Hlk. naive_solver.
    + split; [|done]. split; [done|]. intros s [= <-]. by rewrite <-Hset.
  - split; [|done]. split; [done|]. by intros s [= <-].
Qed.

Lemma bitmap_is_deleted_spec bm r :
  bitmap_ok bm -> DeleteBitmap_is_deleted bm r = bool_decide (r ∈ deleted_set bm).
Proof.
  intros [Hs Hl]. unfold DeleteBitmap_is_deleted, deleted_set.
  destruct (db_lookup bm) as [s|]; [by rewrite (Hl s eq_refl)|].
  pose proof (binary_search_elem (db_deleted bm) r Hs) as He.
  destruct (binary_search _ r); symmetry; [apply bool_decide_eq_true|apply bool_decide_eq_false];
    by rewrite elem_of_list_to_set.
Qed.

Lemma bitmap_count_spec bm : bitmap_ok bm -> DeleteBitmap_count bm = size (deleted_set bm).
Proof. intros [Hs _]. symmetry. by apply size_list_to_set, sorted_NoDup. Qed.

Lemma bitmap_undelete_ok bm r :
  bitmap_ok bm ->
  bitmap_ok (DeleteBitmap_undelete bm r) /\
  deleted_set (DeleteBitmap_undelete bm r) = deleted_set bm ∖ {[r]}.
Proof.
  intros [Hs Hl]. pose proof (sorted_NoDup _ Hs) as Hnd.
  pose proof (binary_search_spec (db_deleted bm) r Hs) as H.
  pose proof (binary_search_elem (db_deleted bm) r Hs) as He.
  assert (Hset : StronglySorted Z.lt (db_deleted (DeleteBitmap_undelete bm r)) /\
            deleted_set (DeleteBitmap_undelete bm r) = deleted_set bm ∖ {[r]}).
  { unfold DeleteBitmap_undelete, deleted_set. simpl. destruct (binary_search _ r) as [i|i].
    - clear Hl He. revert i H Hnd. induction Hs as [|y l Hs IH Hy]; intros i Hi Hnd; [done|].
      apply NoDup_cons in Hnd as [Hyl Hnd]. destruct i as [|i]; simpl in *.
      + injection Hi as ->. split; [done|]. set_solver.
      + destruct (IH i Hi Hnd) as [IHs IHe].
        split; [constructor; [done|by apply Forall_delete]|].
        assert (y <> r) by (intros ->; by apply Hyl, (list_elem_of_lookup_2 _ i)). set_solver.
    - split; [done|]. set_solver. }
  destruct Hset as [Hs' Hset]. split; [split; [done|]|done]. intros s. simpl.
  destruct (db_lookup bm) as [s0|]; [|done]. simpl. intros [= <-]. rewrite (Hl s0 eq_refl). by symmetry.
Qed.

(** ** The pending cells *)

Section theory.
Context {J : Type}.
Implicit Types (st : DeltaStore J) (u : gmap Z (gmap string (DeltaRecord J))) (r : Z) (c : string)
  (v : Value J) (rec : DeltaRecord J).

(** The record pending for a cell. *)
Definition cell u r c : option (DeltaRecord J) := cols ← u !! r; cols !! c.

Lemma get_updated_cell st r c : get_updated_value st r c = dr_new_value <$> cell (ds_updates st) r c.
Proof. unfold get_updated_value, cell. by destruct (ds_updates st !! r). Qed.

Lemma cell_put u rec r c :
  cell (put_update u rec) r c =
    if decide (dr_row_id rec = r /\ dr_column_name rec = c) then Some rec else cell u r c.
Proof.
  unfold cell, put_update. destruct (decide (dr_row_id rec = r)) as [<-|Hr].
  - rewrite lookup_insert_eq. simpl. destruct (decide (dr_column_name rec = c)) as [<-|Hc].
    + by rewrite lookup_insert_eq, decide_True.
    + rewrite lookup_insert_ne, decide_False by naive_solver.
      destruct (u !! dr_row_id rec); simpl; [done|apply lookup_empty].
  - by rewrite lookup_insert_ne, decide_False by naive_solver.
Qed.

Lemma cell_delete u r0 r c : cell (delete r0 u) r c = if decide (r0 = r) then None else cell u r c.
Proof. unfold cell. rewrite lookup_delete. by case_decide. Qed.

(** Records are filed under their own row and column; no row is kept without cells. *)
Definition updates_wf u : Prop :=
  (forall r c rec, cell u r c = Some rec -> dr_row_id rec = r /\ dr_column_name rec = c) /\
  forall r, u !! r <> Some ∅.

Lemma updates_wf_empty : updates_wf ∅.
Proof. split; [intros r c rec|intros r]; unfold cell; by rewrite lookup_empty. Qed.

Lemma updates_wf_put u rec : updates_wf u -> updates_wf (put_update u rec).
Proof.
  intros [Hk Hne]. split.
  - intros r c rec'. rewrite cell_put. case_decide as Hd; [by intros [= <-]|]. apply Hk.
  - intros r. unfold put_update. rewrite lookup_insert. case_decide; [|done].
    intros [= Hins]. by apply insert_non_empty in Hins.
Qed.

Lemma updates_wf_delete u r : updates_wf u -> updates_wf (delete r u).
Proof.
  intros [Hk Hne]. split.
  - intros r' c rec'. rewrite cell_delete. case_decide; [done|]. apply Hk.
  - intros r'. rewrite lookup_delete. by case_decide.
Qed.

Lemma updates_row_cell u r : updates_wf u -> is_Some (u !! r) <-> exists c, is_Some (cell u r c).
Proof.
  intros [_ Hne]. unfold cell. split.
  - intros [cols Hc]. destruct (map_choose cols) as (c & rec & Hcell).
    { intros ->. by apply (Hne r). }
    exists c. rewrite Hc. simpl. rewrite Hcell. by eexists.
  - intros [c Hc]. destruct (u !! r); [by eexists|]. by destruct Hc.
Qed.

(** *** The abstract overlay *)

Record overlay := mkOverlay {
  ov_deleted : gset Z;
  ov_cell : Z -> string -> option (Value J)
}.

Definition set_cell (f : Z -> string -> option (Value J)) r0 c0 v0 : Z -> string -> option (Value J) :=
  fun r c => if decide (r0 = r /\ c0 = c) then Some v0 else f r c.

Definition clear_row (f : Z -> string -> option (Value J)) r0 : Z -> string -> option (Value J) :=
  fun r c => if decide (r0 = r) then None else f r c.

Inductive delta_op :=
| DeltaDelete r
| DeltaDeleteMany (rs : list Z)
| DeltaUpdateCell r c v
| DeltaUpdateRow r (values : gmap string (Value J))
| DeltaBatch (batch : list (Z * string * Value J))
| DeltaSnapshot
| DeltaClear.

Definition delta_apply st (op : delta_op) : DeltaStore J :=
  match op with
  | DeltaDelete r => delete_row st r
  | DeltaDeleteMany rs => (delete_rows st rs).1
  | DeltaUpdateCell r c v => update_cell st r c v
  | DeltaUpdateRow r values => update_row st r values
  | DeltaBatch batch => batch_update_rows st batch
  | DeltaSnapshot => DeltaStore_snapshot st
  | DeltaClear => DeltaStore_clear st
  end.

(** What each call means: a row update overrides the columns it names, a batch is
    its updates in order. *)
Definition overlay_apply (o : overlay) (op : delta_op) : overlay :=
  match op with
  | DeltaDelete r => mkOverlay ({[r]} ∪ ov_deleted o) (clear_row (ov_cell o) r)
  | DeltaDeleteMany rs =>
      mkOverlay (list_to_set rs ∪ ov_deleted o)
        (fun r c => if bool_decide (r ∈ rs) then None else ov_cell o r c)
  | DeltaUpdateCell r c v => mkOverlay (ov_deleted o) (set_cell (ov_cell o) r c v)
  | DeltaUpdateRow r values =>
      mkOverlay (ov_deleted o)
        (fun r' c => match values !! c with
                     | Some v => if decide (r = r') then Some v else ov_cell o r' c
                     | None => ov_cell o r' c
                     end)
  | DeltaBatch batch =>
      mkOverlay (ov_deleted o) (fold_left (fun f e => set_cell f e.1.1 e.1.2 e.2) batch (ov_cell o))
  | DeltaSnapshot => o
  | DeltaClear => mkOverlay ∅ (fun _ _ => None)
  end.

Definition store_ok st : Prop := bitmap_ok (ds_delete_bitmap st) /\ updates_wf (ds_updates st).

Definition implements st (o : overlay) : Prop :=
  deleted_set (ds_delete_bitmap st) = ov_deleted o /\
  forall r c, get_updated_value st r c = ov_cell o r c.

Lemma delete_rows_loop_spec rs bm u :
  bitmap_ok bm -> updates_wf u ->
  let '(bm', u') := delete_rows_loop rs (bm, u) in
  bitmap_ok bm' /\ updates_wf u' /\ deleted_set bm' = list_to_set rs ∪ deleted_set bm /\
  forall r c, cell u' r c = if bool_decide (r ∈ rs) then None else cell u r c.
Proof.
  revert bm u. induction rs as [|r0 rs IH]; intros bm u Hb Hu; simpl.
  - split_and!; [done..|set_solver|]. done.
  - destruct (bitmap_delete_ok bm r0 Hb) as [Hb' Hset].
    specialize (IH _ _ Hb' (updates_wf_delete u r0 Hu)). unfold delete_rows_loop in *. simpl in *.
    destruct (fold_left _ _ _) as [bm' u']. destruct IH as (Hb2 & Hu2 & Hset2 & Hc).
    split_and!; [done..|rewrite Hset2, Hset; set_solver|]. intros r c. rewrite Hc, cell_delete.
    repeat case_bool_decide; try case_decide; set_solver.
Qed.

Lemma fold_update_cell_spec r l st :
  store_ok st ->
  let st' := fold_left (fun st e => update_cell st r e.1 e.2) l st in
  store_ok st' /\ ds_delete_bitmap st' = ds_delete_bitmap st /\
  forall r' c, get_updated_value st' r' c =
    fold_left (fun f (e : string * Value J) => set_cell f r e.1 e.2) l (get_updated_value st) r' c.
Proof.
  revert st. induction l as [|[c0 v0] l IH]; intros st [Hb Hu]; simpl; [done|].
  assert (Hok : store_ok (update_cell st r c0 v0)) by (split; [done|by apply updates_wf_put]).
  destruct (IH _ Hok) as (Hok' & Hb' & Hv). split_and!; [done..|]. intros r' c. rewrite Hv.
  enough (Hfold : forall f g, (forall r c, f r c = g r c) ->
    fold_left (fun f (e : string * Value J) => set_cell f r e.1 e.2) l f r' c =
    fold_left (fun f (e : string * Value J) => set_cell f r e.1 e.2) l g r' c).
  { apply Hfold. intros r1 c1. unfold set_cell. rewrite !get_updated_cell. simpl. rewrite cell_put. simpl.
    by case_decide. }
  clear. induction l as [|e l IH]; intros f g Hfg; simpl; [done|]. apply IH.
  intros r1 c1. unfold set_cell. by case_decide.
Qed.

Lemma fold_set_row r (l : list (string * Value J)) f r' c :
  NoDup l.*1 ->
  fold_left (fun f (e : string * Value J) => set_cell f r e.1 e.2) l f r' c =
    match (list_to_map l : gmap string (Value J)) !! c with
    | Some v => if decide (r = r') then Some v else f r' c
    | None => f r' c
    end.
Proof.
  revert f. induction l as [|[c0 v0] l IH]; intros f Hnd; simpl; [by rewrite lookup_empty|].
  apply NoDup_cons in Hnd as [Hc0 Hnd]. rewrite IH by done. unfold set_cell. simpl in Hc0.
  rewrite lookup_insert. destruct (decide (c0 = c)) as [->|Hne].
  - apply not_elem_of_list_to_map_1 in Hc0. rewrite Hc0. repeat case_decide; naive_solver.
  - case_match; repeat case_decide; naive_solver.
Qed.

Lemma batch_spec batch u next :
  updates_wf u ->
  let '(u', _) := fold_left (fun acc e =>
      (put_update acc.1 (mkDeltaRecord e.1.1 e.1.2 e.2 acc.2 0), wrap64 (acc.2 + 1))) batch (u, next) in
  updates_wf u' /\
  forall f, (forall r c, dr_new_value <$> cell u r c = f r c) -> forall r c,
    dr_new_value <$> cell u' r c = fold_left (fun f (e : Z * string * Value J) => set_cell f e.1.1 e.1.2 e.2) batch f r c.
Proof.
  revert u next. induction batch as [|[[r0 c0] v0] batch IH]; intros u next Hu; simpl; [done|].
  specialize (IH _ (wrap64 (next + 1)) (updates_wf_put u (mkDeltaRecord r0 c0 v0 next 0) Hu)).
  destruct (fold_left _ _ _) as [u' next']. destruct IH as [Hu' Hf]. split; [done|].
  intros f Hcell. apply Hf. intros r c. rewrite cell_put. unfold set_cell. simpl. by case_decide.
Qed.

Lemma delta_apply_implements st o op :
  store_ok st -> implements st o ->
  store_ok (delta_apply st op) /\ implements (delta_apply st op) (overlay_apply o op).
Proof.
  intros Hok [Hd Hc]. pose proof Hok as [Hb Hu].
  destruct op as [r|rs|r c v|r values|batch| |]; simpl.
  - destruct (bitmap_delete_ok (ds_delete_bitmap st) r Hb) as [Hb' Hset].
    split; [split; [done|by apply updates_wf_delete]|]. split; simpl; [by rewrite Hset, Hd|].
    intros r' c. rewrite get_updated_cell. simpl. rewrite cell_delete. unfold clear_row.
    rewrite <-Hc, get_updated_cell. by case_decide.
  - unfold delete_rows. pose proof (delete_rows_loop_spec rs _ _ Hb Hu) as H.
    destruct (delete_rows_loop _ _) as [bm u]. destruct H as (Hb' & Hu' & Hset & Hcell).
    split; [done|]. split; simpl; [by rewrite Hset, Hd|]. intros r c.
    rewrite get_updated_cell. simpl. rewrite Hcell, <-Hc, get_updated_cell. by case_bool_decide.
  - split; [split; [done|by apply updates_wf_put]|]. split; [done|]. intros r' c'.
    rewrite get_updated_cell. simpl. rewrite cell_put. unfold set_cell. simpl.
    rewrite <-Hc, get_updated_cell. by case_decide.
  - destruct (fold_update_cell_spec r (map_to_list values) st Hok) as (Hok' & Hb' & Hv).
    split; [done|]. split; simpl; [by unfold update_row; rewrite Hb'|]. intros r' c.
    unfold update_row. rewrite Hv, fold_set_row, list_to_map_to_list by apply NoDup_fst_map_to_list.
    by rewrite Hc.
  - unfold batch_update_rows. pose proof (batch_spec batch (ds_updates st) (ds_next_txn_id st) Hu) as H.
    destruct (fold_left _ _ _) as [u next]. destruct H as [Hu' Hf]. split; [done|].
    split; [done|]. intros r c. rewrite get_updated_cell. simpl. apply Hf.
    intros r' c'. by rewrite <-Hc, get_updated_cell.
  - done.
  - split; [split; [split; [constructor|by intros s [= <-]]|apply updates_wf_empty]|].
    split; [done|]. intros r c. rewrite get_updated_cell. unfold cell. simpl. by rewrite lookup_empty.
Qed.
Definition delta_run (ops : list delta_op) : DeltaStore J := fold_left delta_apply ops DeltaStore_new.

Definition overlay_run (ops : list delta_op) : overlay :=
  fold_left overlay_apply ops (mkOverlay ∅ (fun _ _ => None)).

Lemma delta_run_implements ops :
  store_ok (delta_run ops) /\ implements (delta_run ops) (overlay_run ops).
Proof.
  assert (Hgen : forall st o, store_ok st -> implements st o ->
    store_ok (fold_left delta_apply ops st) /\
    implements (fold_left delta_apply ops st) (fold_left overlay_apply ops o)).
  { induction ops as [|op ops IH]; intros st o Hok Hi; [done|]. simpl.
    destruct (delta_apply_implements st o op Hok Hi) as [Hok' Hi']. by apply IH. }
  apply Hgen; [split; [apply bitmap_new_ok|apply updates_wf_empty]|]. split; [done|].
  intros r c. rewrite get_updated_cell. unfold cell. simpl. by rewrite lookup_empty.
Qed.

(** C10 The delta store implements the overlay: after any sequence of deletes, cell, row
    and batch updates, snapshots and clears, the store answers every query as the
    abstract overlay does: the deleted rows (in order, each once, and their number),
    the value pending for each cell, and the rows that have one. *)
Theorem delta_store_implements_overlay (ops : list delta_op) :
  let st := delta_run ops in
  let o := overlay_run ops in
  (forall r, is_deleted st r = bool_decide (r ∈ ov_deleted o)) /\
  StronglySorted Z.lt (DeleteBitmap_deleted_ids (ds_delete_bitmap st)) /\
  (forall r, r ∈ DeleteBitmap_deleted_ids (ds_delete_bitmap st) <-> r ∈ ov_deleted o) /\
  delete_count st = size (ov_deleted o) /\
  (forall r c, get_updated_value st r c = ov_cell o r c) /\
  (forall r, has_updates st r = true <-> exists c, is_Some (ov_cell o r c)).
Proof.
  simpl. destruct (delta_run_implements ops) as [[Hb Hu] [Hd Hc]].
  unfold is_deleted, delete_count, has_updates. rewrite <-Hd, <-(bitmap_count_spec _ Hb).
  split_and!; [intros r; by apply bitmap_is_deleted_spec|apply Hb|
    intros r; unfold deleted_set; by rewrite elem_of_list_to_set|done|done|].
  intros r. rewrite bool_decide_eq_true, updates_row_cell by done.
  split; intros [c Hs]; exists c; rewrite <-Hc, get_updated_cell in *; by rewrite fmap_is_Some in *.
Qed.

(** *** Every pending cell, once and in order *)

Lemma elem_collapsed st rec :
  updates_wf (ds_updates st) ->
  rec ∈ collapsed_log st <-> cell (ds_updates st) (dr_row_id rec) (dr_column_name rec) = Some rec.
Proof.
  intros [Hk _]. unfold collapsed_log. rewrite list_elem_of_bind. split.
  - intros ([r cols] & Hrec & Hr). apply list_elem_of_fmap in Hrec as ([c rec'] & -> & Hc). simpl in *.
    apply elem_of_map_to_list in Hr. apply elem_of_map_to_list in Hc.
    assert (Hcell : cell (ds_updates st) r c = Some rec') by (unfold cell; by rewrite Hr).
    by destruct (Hk _ _ _ Hcell) as [-> ->].
  - unfold cell. destruct (ds_updates st !! dr_row_id rec) as [cols|] eqn:Hr; [|done]. simpl. intros Hc.
    exists (dr_row_id rec, cols). split; [|by apply elem_of_map_to_list].
    apply list_elem_of_fmap. exists (dr_column_name rec, rec). split; [done|]. by apply elem_of_map_to_list.
Qed.

Lemma collapsed_NoDup st : updates_wf (ds_updates st) -> NoDup (collapsed_log st).
Proof.
  intros [Hk _]. unfold collapsed_log.
  assert (Hcell : forall r cols c rec, (r, cols) ∈ map_to_list (ds_updates st) ->
    (c, rec) ∈ map_to_list cols -> dr_row_id rec = r /\ dr_column_name rec = c).
  { intros r cols c rec Hr Hc. apply elem_of_map_to_list in Hr. apply elem_of_map_to_list in Hc.
    apply Hk. unfold cell. by rewrite Hr. }
  apply NoDup_bind; [| |apply NoDup_map_to_list].
  - intros [r1 cols1] [r2 cols2] rec H1 H2 ([c1 rec1] & -> & Hc1)%list_elem_of_fmap
      ([c2 rec2] & Heq & Hc2)%list_elem_of_fmap. simpl in *. subst rec2.
    destruct (Hcell _ _ _ _ H1 Hc1) as [<- _]. destruct (Hcell _ _ _ _ H2 Hc2) as [Hr2 _]. subst.
    apply elem_of_map_to_list in H1. apply elem_of_map_to_list in H2. by simplify_eq.
  - intros [r cols] Hr. apply NoDup_fmap_2_strong; [|apply NoDup_map_to_list].
    intros [c1 rec1] [c2 rec2] H1 H2 Heq. simpl in *. subst.
    destruct (Hcell _ _ _ _ Hr H1) as [_ <-]. by destruct (Hcell _ _ _ _ Hr H2) as [_ <-].
Qed.

Definition record_cell rec : Z * string * Value J := (dr_row_id rec, dr_column_name rec, dr_new_value rec).

Lemma updated_cells_collapsed st :
  updates_wf (ds_updates st) -> updated_cells st ≡ₚ record_cell <$> collapsed_log st.
Proof.
  intros [Hk _]. unfold updated_cells, collapsed_log. rewrite merge_sort_Permutation.
  apply reflexive_eq.
  assert (Hl : Forall (fun e => ds_updates st !! e.1 = Some e.2) (map_to_list (ds_updates st))).
  { apply Forall_forall. intros [r cols]. by rewrite elem_of_map_to_list. }
  induction Hl as [|[r cols] l Hr _ IH]; [done|]. rewrite !bind_cons, fmap_app, <-IH. simpl in *. f_equal.
  rewrite <-list_fmap_compose. apply List.map_ext_in. intros [c rec] Hc.
  apply list_elem_of_In, elem_of_map_to_list in Hc. unfold record_cell. simpl.
  destruct (Hk r c rec) as [-> _]; [|done]. unfold cell. by rewrite Hr.
Qed.

Lemma collapsed_length st : length (collapsed_log st) = update_count st.
Proof.
  unfold collapsed_log, update_count. induction (map_to_list (ds_updates st)) as [|e l IH]; [done|].
  rewrite bind_cons, length_app, IH. simpl. by rewrite length_fmap, length_map_to_list.
Qed.

#[local] Instance cell_le_total : Total (cell_le (J := J)).
Proof.
  intros [[r1 c1] v1] [[r2 c2] v2]. unfold cell_le. simpl.
  destruct (Ztrichotomy r1 r2) as [H|[->|H]]; [by left; left| |by right; left; lia].
  destruct (String.leb_total c1 c2); [left|right]; by right.
Qed.

#[local] Instance cell_le_trans : Transitive (cell_le (J := J)).
Proof.
  intros [[r1 c1] v1] [[r2 c2] v2] [[r3 c3] v3]. unfold cell_le. simpl.
  intros [H1|[-> H1]] [H2|[-> H2]]; [left; lia|by left|by left|right]. split; [done|].
  by eapply string_leb_trans.
Qed.

(** [updated_cells] lists the overlay: after any sequence of calls it holds every
    pending cell with its latest value, each cell once, ordered by row and then
    column, and [update_count] is their number. *)
Theorem updated_cells_exact (ops : list delta_op) :
  let cells := updated_cells (delta_run ops) in
  StronglySorted cell_le cells /\ NoDup cells.*1 /\
  (forall r c v, (r, c, v) ∈ cells <-> ov_cell (overlay_run ops) r c = Some v) /\
  length cells = update_count (delta_run ops).
Proof.
  simpl. destruct (delta_run_implements ops) as [[_ Hu] [_ Hc]].
  pose proof (updated_cells_collapsed _ Hu) as Hperm. split_and!.
  - apply StronglySorted_merge_sort; apply _.
  - rewrite Hperm, <-list_fmap_compose. apply NoDup_fmap_2_strong; [|by apply collapsed_NoDup].
    intros rec1 rec2 H1%elem_collapsed H2%elem_collapsed; [|done..]. simpl. intros [= Hr Hn].
    congruence.
  - intros r c v. rewrite Hperm, <-Hc, get_updated_cell, list_elem_of_fmap. split.
    + intros (rec & [= -> -> ->] & Hrec). apply elem_collapsed in Hrec; [|done]. by rewrite Hrec.
    + intros (rec & Hrec & Hval)%fmap_Some. exists rec. pose proof Hu as [Hk _].
      destruct (Hk _ _ _ Hrec) as [Hr Hn]. split; [unfold record_cell; congruence|].
      apply elem_collapsed; [done|]. by rewrite Hr, Hn.
  - by rewrite Hperm, length_fmap, collapsed_length.
Qed.
End theory.

(** ** Persistence *)

Section disk.
Context {J B : Type} (serialize : DeltaStorePersisted J -> B)
  (deserialize : B -> option (DeltaStorePersisted J)).
Hypothesis deserialize_serialize : forall p, deserialize (serialize p) = Some p.
Implicit Types (st : DeltaStore J) (r : Z) (c : string) (rec : DeltaRecord J).

(** Two stores a reader cannot tell apart: updates of deleted rows do not count. *)
Definition same_overlay st1 st2 : Prop :=
  db_deleted (ds_delete_bitmap st1) = db_deleted (ds_delete_bitmap st2) /\
  ds_next_txn_id st1 = ds_next_txn_id st2 /\
  forall r c, r ∉ db_deleted (ds_delete_bitmap st1) ->
    get_updated_value st1 r c = get_updated_value st2 r c.

Lemma same_overlay_refl st : same_overlay st st.
Proof. done. Qed.

Lemma same_overlay_trans st1 st2 st3 :
  same_overlay st1 st2 -> same_overlay st2 st3 -> same_overlay st1 st3.
Proof.
  intros (Hd & Hn & Hc) (Hd' & Hn' & Hc'). split_and!; [congruence..|]. intros r c Hr.
  rewrite Hc by done. apply Hc'. by rewrite <-Hd.
Qed.

Lemma fold_put_other l u r c :
  Forall (fun rec => ~ (dr_row_id rec = r /\ dr_column_name rec = c)) l ->
  cell (fold_left put_update l u : gmap Z (gmap string (DeltaRecord J))) r c = cell u r c.
Proof.
  revert u. induction l as [|rec l IH]; intros u Hl; [done|]. apply Forall_cons in Hl as [Hr Hl].
  simpl. by rewrite IH, cell_put, decide_False.
Qed.

(** Replaying records that are all current in [u0] rebuilds their cells. *)
Lemma fold_put_current l u0 : forall u r c,
  Forall (fun rec => cell u0 (dr_row_id rec) (dr_column_name rec) = Some rec) l ->
  (exists rec, rec ∈ l /\ dr_row_id rec = r /\ dr_column_name rec = c) ->
  cell (fold_left put_update l u : gmap Z (gmap string (DeltaRecord J))) r c = cell u0 r c.
Proof.
  induction l as [|rec l IH]; intros u r c Hl (rec' & Hin & Hk); [by apply elem_of_nil in Hin|].
  apply Forall_cons in Hl as [Hr Hl]. simpl.
  destruct (decide (Exists (fun rec => dr_row_id rec = r /\ dr_column_name rec = c) l)) as [He|Hne].
  - apply IH; [done|]. by apply Exists_exists in He.
  - apply not_Exists_Forall in Hne; [|intros ?; apply _]. rewrite fold_put_other by done.
    apply elem_of_cons in Hin as [->|Hin].
    + rewrite cell_put, decide_True by done. destruct Hk as [<- <-]. by symmetry.
    + rewrite Forall_forall in Hne. by destruct (Hne _ Hin).
Qed.

Lemma replay_collapsed st r c :
  updates_wf (ds_updates st) ->
  cell (fold_left put_update (collapsed_log st) ∅) r c = cell (ds_updates st) r c.
Proof.
  intros Hu. assert (Hall : Forall (fun rec => cell (ds_updates st) (dr_row_id rec) (dr_column_name rec)
                                    = Some rec) (collapsed_log st)).
  { apply Forall_forall. intros rec. by apply elem_collapsed. }
  destruct (cell (ds_updates st) r c) as [rec|] eqn:Hrec.
  - rewrite <-Hrec. apply fold_put_current; [done|]. pose proof Hu as [Hk _].
    destruct (Hk _ _ _ Hrec) as [Hr Hc]. exists rec. split; [|done]. apply elem_collapsed; [done|].
    by rewrite Hr, Hc.
  - rewrite fold_put_other; [unfold cell; by rewrite lookup_empty|].
    eapply Forall_impl; [exact Hall|]. simpl. intros rec Hc [<- <-]. congruence.
Qed.

Lemma load_persisted st :
  store_ok st -> exists st0, DeltaStore_load deserialize (Some (serialize (persisted st))) = Ok st0 /\
    store_ok st0 /\ same_overlay st0 st.
Proof.
  intros [[Hs Hl] Hu]. simpl. rewrite deserialize_serialize. eexists. split; [done|]. split.
  - split; [split; [done|]; by intros s [= <-]|]. simpl. generalize (collapsed_log st) as l. intros l.
    assert (Hgen : forall u : gmap Z (gmap string (DeltaRecord J)), updates_wf u ->
              updates_wf (fold_left put_update l u)).
    { induction l as [|rec l IH]; intros u Hwf; [done|]. by apply IH, updates_wf_put. }
    apply Hgen, updates_wf_empty.
  - split_and!; [done..|]. intros r c _. rewrite !get_updated_cell. simpl. by rewrite replay_collapsed.
Qed.

Lemma bitmap_delete_again bm r :
  bitmap_ok bm -> r ∈ deleted_set bm -> db_deleted (DeleteBitmap_delete bm r) = db_deleted bm.
Proof.
  intros [Hs Hl] Hr. unfold DeleteBitmap_delete, deleted_set in *. destruct (db_lookup bm) as [s|].
  - rewrite (Hl s eq_refl). by rewrite bool_decide_eq_true_2.
  - simpl. unfold insert_sorted. pose proof (binary_search_elem _ r Hs) as He.
    rewrite elem_of_list_to_set in Hr. by destruct (binary_search _ r).
Qed.

Lemma delete_rows_loop_again rs bm (u : gmap Z (gmap string (DeltaRecord J))) :
  bitmap_ok bm -> Forall (fun r => r ∈ deleted_set bm) rs ->
  db_deleted (delete_rows_loop rs (bm, u)).1 = db_deleted bm.
Proof.
  revert bm u. induction rs as [|r rs IH]; intros bm u Hb Hrs; [done|].
  apply Forall_cons in Hrs as [Hr Hrs]. destruct (bitmap_delete_ok bm r Hb) as [Hb' Hset].
  unfold delete_rows_loop in *. simpl. rewrite IH; [by apply bitmap_delete_again|done|].
  eapply Forall_impl; [exact Hrs|]. simpl. rewrite Hset. set_solver.
Qed.

(** A call either makes the store dirty or changes nothing a reader can tell. *)
Lemma delta_apply_dirty st op :
  store_ok st -> op <> DeltaSnapshot ->
  ds_dirty (delta_apply st op) = true \/
  (ds_dirty (delta_apply st op) = ds_dirty st /\ same_overlay st (delta_apply st op)).
Proof.
  intros [Hb Hu] Hop. destruct op as [r|rs|r c v|r values|batch| |]; simpl; [by left| |by left| | |done|by left].
  - unfold delete_rows. pose proof (delete_rows_loop_spec rs _ _ Hb Hu) as H.
    pose proof (delete_rows_loop_again rs (ds_delete_bitmap st) (ds_updates st) Hb) as Hagain.
    destruct (delete_rows_loop _ _) as [bm u]. destruct H as (Hb' & Hu' & Hset & Hcell). simpl in *.
    destruct (Z.ltb_spec 0 (Z.of_nat (DeleteBitmap_count bm) - Z.of_nat (DeleteBitmap_count (ds_delete_bitmap st))))
      as [Hlt|Hge]; [by left|right]. split; [done|].
    assert (Hsub : (list_to_set rs : gset Z) ⊆ deleted_set (ds_delete_bitmap st)).
    { rewrite !bitmap_count_spec, Hset in Hge by done.
      assert (Heq : deleted_set (ds_delete_bitmap st) =
                    list_to_set rs ∪ deleted_set (ds_delete_bitmap st)).
      { apply set_subseteq_size_eq; [set_solver|lia]. }
      set_solver. }
    split_and!; [|done|].
    + symmetry. apply Hagain. apply Forall_forall. intros r Hr. apply Hsub. set_solver.
    + intros r c Hr. rewrite !get_updated_cell. simpl. rewrite Hcell, bool_decide_eq_false_2; [done|].
      intros Hin. apply Hr. unfold deleted_set in Hsub. set_solver.
  - unfold update_row. destruct (map_to_list values) as [|e l]; [by right|left]. simpl.
    assert (Hgen : forall st, ds_dirty st = true ->
              ds_dirty (fold_left (fun st e => update_cell st r e.1 e.2) l st) = true).
    { induction l as [|e' l IH]; intros st' Hd; [done|]. simpl. by apply IH. }
    by apply Hgen.
  - unfold batch_update_rows. destruct batch as [|e batch]; [right; by split|left].
    by destruct (fold_left _ _ _).
Qed.

(** A store and its file. *)
Inductive disk_op :=
| DiskCall (op : @delta_op J)
| DiskSave.

Definition disk_apply (d : DeltaStore J * option B) (op : disk_op) : DeltaStore J * option B :=
  match op with
  | DiskCall op => (delta_apply d.1 op, d.2)
  | DiskSave => DeltaStore_save serialize d.1 d.2
  end.

Definition disk_run (ops : list disk_op) : DeltaStore J * option B :=
  fold_left disk_apply ops (DeltaStore_new, None).

(** A clean store agrees with its file. *)
Definition disk_ok (d : DeltaStore J * option B) : Prop :=
  store_ok d.1 /\
  (ds_dirty d.1 = false -> exists st0, DeltaStore_load deserialize d.2 = Ok st0 /\ store_ok st0 /\
    same_overlay st0 d.1).

Lemma disk_apply_ok d op : disk_ok d -> op <> DiskCall DeltaSnapshot -> disk_ok (disk_apply d op).
Proof.
  destruct d as [st file]. intros [Hok Hd] Hop. destruct op as [op|]; simpl in *.
  - assert (Hok' : store_ok (delta_apply st op)).
    { apply (delta_apply_implements st (mkOverlay (deleted_set (ds_delete_bitmap st)) (get_updated_value st)));
        done. }
    split; [done|]. simpl. intros Hclean.
    assert (Hop' : op <> DeltaSnapshot) by congruence.
    destruct (delta_apply_dirty st op Hok Hop') as [Ht|[Hsame Hov]]; [congruence|].
    destruct Hd as (st0 & Hl & Hok0 & Hs0); [congruence|]. exists st0. split_and!; [done..|].
    by eapply same_overlay_trans.
  - unfold DeltaStore_save. destruct (ds_dirty st) eqn:Hdirty; simpl; [|split; [done|]; intros _; exact (Hd eq_refl)].
    split; [done|]. intros _. exact (load_persisted st Hok).
Qed.

(** What is saved is what is loaded: after any sequence of calls and saves, saving
    once more and reopening gives a store with the same deleted rows, the same
    transaction counter and the same value for every cell of a row that is not
    deleted, although a clean store is not written again. *)
Theorem delta_store_roundtrip (ops : list disk_op) :
  Forall (fun op => op <> DiskCall DeltaSnapshot) ops ->
  let '(st, file) := disk_run ops in
  exists st', DeltaStore_load deserialize (DeltaStore_save serialize st file).2 = Ok st' /\
    (forall r, is_deleted st' r = is_deleted st r) /\
    DeleteBitmap_deleted_ids (ds_delete_bitmap st') = DeleteBitmap_deleted_ids (ds_delete_bitmap st) /\
    (forall r c, is_deleted st r = false -> get_updated_value st' r c = get_updated_value st r c) /\
    ds_next_txn_id st' = ds_next_txn_id st.
Proof.
  intros Hops. assert (Hok : disk_ok (disk_run ops)).
  { unfold disk_run. assert (H0 : disk_ok (DeltaStore_new, None)).
    { split; [split; [apply bitmap_new_ok|apply updates_wf_empty]|]. intros _.
      exists DeltaStore_new. split_and!; [done|split; [apply bitmap_new_ok|apply updates_wf_empty]|done]. }
    revert H0. generalize (DeltaStore_new (J := J), None : option B) as d.
    induction Hops as [|op ops Hop _ IH]; intros d Hd; [done|]. simpl. by apply IH, disk_apply_ok. }
  apply (disk_apply_ok _ DiskSave) in Hok as [Hok Hload]; [|done].
  destruct (disk_run ops) as [st file]. simpl in *.
  assert (Hst : ds_dirty (DeltaStore_save serialize st file).1 = false /\
            ds_delete_bitmap (DeltaStore_save serialize st file).1 = ds_delete_bitmap st /\
            ds_updates (DeltaStore_save serialize st file).1 = ds_updates st /\
            ds_next_txn_id (DeltaStore_save serialize st file).1 = ds_next_txn_id st).
  { unfold DeltaStore_save. by destruct (ds_dirty st) eqn:Hd. }
  destruct (DeltaStore_save serialize st file) as [st1 file1]. simpl in *.
  destruct Hst as (Hclean & Hbm & Hup & Hnx). destruct (Hload Hclean) as (st' & Hl & [Hb' _] & Hs & Hn & Hc).
  exists st'. unfold is_deleted. rewrite Hbm in Hs. destruct Hok as [Hb _]. rewrite Hbm in Hb.
  assert (Hdel : forall r, DeleteBitmap_is_deleted (ds_delete_bitmap st') r =
                           DeleteBitmap_is_deleted (ds_delete_bitmap st) r).
  { intros r. rewrite !bitmap_is_deleted_spec by done. unfold deleted_set. by rewrite Hs. }
  split_and!; [done..| |congruence]. intros r c Hr.
  rewrite Hc; [by rewrite !get_updated_cell, Hup|]. intros Hin.
  rewrite <-Hdel, bitmap_is_deleted_spec in Hr by done. apply bool_decide_eq_false in Hr.
  apply Hr. unfold deleted_set. by rewrite elem_of_list_to_set.
Qed.
End disk.

Definition demo_delta_ops : list (@disk_op unit) :=
  [DiskCall (DeltaUpdateCell 7 "k" (VInt64 11)); DiskCall (DeltaDeleteMany [4; 2; 4]); DiskSave;
   DiskCall (DeltaUpdateCell 2 "k" (VInt64 5)); DiskSave; DiskCall (DeltaDeleteMany [2])].

Lemma delta_store_roundtrip_witness :
  exists st', DeltaStore_load (fun p => Some p)
      (DeltaStore_save (fun p => p) (disk_run (fun p => p) demo_delta_ops).1
        (disk_run (fun p => p) demo_delta_ops).2).2 = Ok st' /\
    is_deleted st' 2 = true /\ get_updated_value st' 7 "k" = Some (VInt64 11).
Proof.
  pose proof (delta_store_roundtrip (J := unit) (fun p => p) (fun p => Some p) (fun p => eq_refl)
    demo_delta_ops) as H.
  destruct (disk_run (fun p => p) demo_delta_ops) as [st file] eqn:Hrun.
  destruct H as (st' & Hl & Hd & _ & Hc & _).
  - repeat constructor; discriminate.
  - exists st'. vm_compute in Hrun. injection Hrun as <- <-. split; [exact Hl|].
    rewrite Hd, Hc by (vm_compute; reflexivity). split; vm_compute; reflexivity.
Defined.
