(* ===== verification/DeltaMerge.v ===== *)
(** * Merging the delta store into a batch

    Models [storage/delta/merge.rs]: the overlay of pending deletes and updates on an
    Arrow record batch, with its shortcuts.  The arrays the source builds itself are
    lists of optional values; every other array type is opaque, and Arrow's [take],
    [nullif] and [RecordBatch::try_new] are parameters.  [None] is a panic. *)
From S2P Require Import Prelude Float Values DeltaStore.
Local Open Scope Z_scope.

Inductive ArrowType :=
| AtInt64 | AtUInt64 | AtFloat64 | AtUtf8 | AtBoolean
| AtDictionary (key value : ArrowType)
| AtOther (name : string).

#[global] Instance ArrowType_eq_dec : EqDecision ArrowType.
Proof. solve_decision. Defined.

(** [O] is the type of the arrays without a typed branch. *)
Inductive ArrayRef (O : Type) :=
| ArrInt64 (l : list (option Z))
| ArrUInt64 (l : list (option Z))
| ArrFloat64 (l : list (option Z))
| ArrUtf8 (l : list (option string))
| ArrBoolean (l : list (option bool))
| ArrDictionary (keys : list (option Z)) (values : list (option string))
| ArrOther (o : O).
Arguments ArrInt64 {O}.
Arguments ArrUInt64 {O}.
Arguments ArrFloat64 {O}.
Arguments ArrUtf8 {O}.
Arguments ArrBoolean {O}.
Arguments ArrDictionary {O}.
Arguments ArrOther {O}.

Record Field := mkField { f_name : string; f_type : ArrowType; f_nullable : bool }.

Record RecordBatch (O : Type) := mkBatch {
  rb_fields : list Field;
  rb_columns : list (ArrayRef O);
  rb_num_rows : nat
}.
Arguments mkBatch {O}.
Arguments rb_fields {O}.
Arguments rb_columns {O}.
Arguments rb_num_rows {O}.

Definition PROBE_MAX_ROWS : Z := 8192.

(** Computations that may panic ([None]) or fail. *)
Definition bind_panic {A B} (r : option (Result A)) (k : A -> option (Result B)) : option (Result B) :=
  match r with Some (Ok a) => k a | Some (Err e) => Some (Err e) | None => None end.

Section merge.
Context {J O : Type}.
Context (other_type : O -> ArrowType).
Context (take_array : ArrayRef O -> list Z -> Result (ArrayRef O)).
Context (nullif : ArrayRef O -> list bool -> Result (ArrayRef O)).
Context (try_new : list Field -> list (ArrayRef O) -> Result (RecordBatch O)).
Context (new_empty : list Field -> RecordBatch O).
Implicit Types (delta : DeltaStore J) (ids : list Z) (kept : list nat) (col : string).

Definition array_type (a : ArrayRef O) : ArrowType :=
  match a with
  | ArrInt64 _ => AtInt64 | ArrUInt64 _ => AtUInt64 | ArrFloat64 _ => AtFloat64
  | ArrUtf8 _ => AtUtf8 | ArrBoolean _ => AtBoolean
  | ArrDictionary _ _ => AtDictionary (AtOther "UInt32") AtUtf8
  | ArrOther o => other_type o
  end.

Definition batch_touches_delta ids delta : bool :=
  let deleted := DeleteBitmap_deleted_ids (ds_delete_bitmap delta) in
  let updated := (map_to_list (ds_updates delta)).*1 in
  let overlay_rows := (length deleted + length updated)%nat in
  if (overlay_rows =? 0)%nat then false
  else if (overlay_rows <=? 8)%nat then existsb (fun id => bool_decide (id ∈ ids)) (deleted ++ updated)
  else
    let batch_ids : gset Z := list_to_set ids in
    existsb (fun id => bool_decide (id ∈ batch_ids)) (deleted ++ updated).

(** The body of the loops of [merge_int64] and its five siblings: [of_value] is what
    an update appends, [at_pos] what the base array holds. *)
Definition merge_cell {A} (of_value : Value J -> option A) (at_pos : nat -> option (option A))
    col ids delta (pos : nat) : option (option A) :=
  row_id ← ids !! pos;
  match get_updated_value delta row_id col with
  | Some updated => Some (of_value updated)
  | None => at_pos pos
  end.

Definition merge_loop {A} (of_value : Value J -> option A) (at_pos : nat -> option (option A))
    col kept ids delta : option (list (option A)) :=
  mapM (merge_cell of_value at_pos col ids delta) kept.

(** [builder.finish()] *)
Definition finish {A} (mk : list (option A) -> ArrayRef O) (l : option (list (option A)))
    : option (Result (ArrayRef O)) :=
  Ok ∘ mk <$> l.

Definition merge_int64 (base : ArrayRef O) col kept ids delta : option (Result (ArrayRef O)) :=
  match base with
  | ArrInt64 arr => finish ArrInt64 (merge_loop as_i64 (fun pos => arr !! pos) col kept ids delta)
  | _ => None
  end.

Definition uint64_of (v : Value J) : option Z :=
  match v with VUInt64 x => Some x | VInt64 x => Some (wrap64 x) | _ => None end.

Definition merge_uint64 (base : ArrayRef O) col kept ids delta : option (Result (ArrayRef O)) :=
  match base with
  | ArrUInt64 arr => finish ArrUInt64 (merge_loop uint64_of (fun pos => arr !! pos) col kept ids delta)
  | _ => None
  end.

Definition merge_float64 (base : ArrayRef O) col kept ids delta : option (Result (ArrayRef O)) :=
  match base with
  | ArrFloat64 arr => finish ArrFloat64 (merge_loop as_f64 (fun pos => arr !! pos) col kept ids delta)
  | _ => None
  end.

Definition merge_string (base : ArrayRef O) col kept ids delta : option (Result (ArrayRef O)) :=
  match base with
  | ArrUtf8 arr => finish ArrUtf8 (merge_loop as_str (fun pos => arr !! pos) col kept ids delta)
  | _ => None
  end.

(** The decoded cell; a null key or an unusable dictionary entry is null. *)
Definition dictionary_cell (values : list (option string)) (key : option Z) : option string :=
  match key with
  | None => None
  | Some k => match values !! Z.to_nat k with Some s => s | None => None end
  end.

Definition dictionary_at (keys : list (option Z)) (values : list (option string)) (pos : nat)
    : option (option string) :=
  dictionary_cell values <$> keys !! pos.

Definition merge_dictionary_string (base : ArrayRef O) col kept ids delta
    : option (Result (ArrayRef O)) :=
  match base with
  | ArrDictionary keys values =>
      finish ArrUtf8 (merge_loop as_str (dictionary_at keys values) col kept ids delta)
  | _ => Some (Err InvalidData)
  end.

Definition merge_bool (base : ArrayRef O) col kept ids delta : option (Result (ArrayRef O)) :=
  match base with
  | ArrBoolean arr => finish ArrBoolean (merge_loop as_bool (fun pos => arr !! pos) col kept ids delta)
  | _ => None
  end.

Definition null_assigned col ids delta (pos : nat) : option bool :=
  row_id ← ids !! pos;
  Some (match get_updated_value delta row_id col with Some VNull => true | _ => false end).

(** The array errors become [InvalidData]. *)
Definition invalid_data {A} (r : Result A) : Result A :=
  match r with Ok a => Ok a | Err _ => Err InvalidData end.

Definition overlay_null_updates (taken : ArrayRef O) col kept ids delta
    : option (Result (ArrayRef O)) :=
  if negb (updates_column delta col) then Some (Ok taken)
  else
    mask ← mapM (null_assigned col ids delta) kept;
    Some (if negb (existsb id mask) then Ok taken else invalid_data (nullif taken mask)).

Definition merge_column (base : ArrayRef O) col (data_type : ArrowType) kept ids delta
    : option (Result (ArrayRef O)) :=
  let other :=
    bind_panic (Some (invalid_data (take_array base ((fun p => wrap32 (Z.of_nat p)) <$> kept))))
      (fun taken => overlay_null_updates taken col kept ids delta) in
  match data_type with
  | AtInt64 => merge_int64 base col kept ids delta
  | AtUInt64 => merge_uint64 base col kept ids delta
  | AtFloat64 => merge_float64 base col kept ids delta
  | AtUtf8 => merge_string base col kept ids delta
  | AtBoolean => merge_bool base col kept ids delta
  | AtDictionary _ AtUtf8 =>
      if updates_column delta col then merge_dictionary_string base col kept ids delta else other
  | _ => other
  end.

(** Step 3 of [merge]. *)
Fixpoint merge_columns (fields : list Field) (columns : list (ArrayRef O)) (all_kept : bool)
    kept ids delta : option (Result (list (ArrayRef O))) :=
  match fields with
  | [] => Some (Ok [])
  | f :: fields =>
      match columns with
      | [] => None
      | base :: columns =>
          bind_panic
            (if all_kept && negb (updates_column delta (f_name f)) then Some (Ok base)
             else merge_column base (f_name f) (f_type f) kept ids delta)
            (fun new_col =>
               bind_panic (merge_columns fields columns all_kept kept ids delta)
                 (fun rest => Some (Ok (new_col :: rest))))
      end
  end.

Definition align_field (f : Field) (column : ArrayRef O) : Field :=
  if bool_decide (f_type f = array_type column) then f
  else mkField (f_name f) (array_type column) true.

(** The positions whose row is not deleted. *)
Fixpoint kept_from (pos : nat) ids delta : list nat :=
  match ids with
  | [] => []
  | id :: ids => if is_deleted delta id then kept_from (S pos) ids delta else pos :: kept_from (S pos) ids delta
  end.

Definition DeltaMerger_merge (base : RecordBatch O) delta ids : option (Result (RecordBatch O)) :=
  if DeltaStore_is_empty delta then Some (Ok base)
  else
    let num_rows := rb_num_rows base in
    if (num_rows =? 0)%nat || negb (length ids =? num_rows)%nat then Some (Ok base)
    else if (Z.of_nat num_rows <=? PROBE_MAX_ROWS) && negb (batch_touches_delta ids delta) then Some (Ok base)
    else
      let kept := kept_from 0 ids delta in
      if (length kept =? 0)%nat then Some (Ok (new_empty (rb_fields base)))
      else
        let all_kept := (length kept =? num_rows)%nat in
        bind_panic (merge_columns (rb_fields base) (rb_columns base) all_kept kept ids delta)
          (fun columns =>
             Some (invalid_data (try_new (zip_with align_field (rb_fields base) columns) columns))).

(** [apply_deletes]; the index of [base_row_ids] and the [unwrap] of [take] may panic. *)
Definition apply_deletes (base : RecordBatch O) (bitmap : DeleteBitmap) ids
    : option (Result (RecordBatch O)) :=
  if DeleteBitmap_is_empty bitmap then Some (Ok base)
  else
    let num_rows := rb_num_rows base in
    let range := Z.of_nat <$> seq 0 (Z.to_nat (wrap32 (Z.of_nat num_rows))) in
    flags ← mapM (fun i => id ← ids !! Z.to_nat i; Some (i, negb (DeleteBitmap_is_deleted bitmap id))) range;
    let keep_indices := (List.filter snd flags).*1 in
    if (length keep_indices =? num_rows)%nat then Some (Ok base)
    else
      columns ← mapM (fun column => match take_array column keep_indices with Ok c => Some c | Err _ => None end)
                  (rb_columns base);
      Some (invalid_data (try_new (rb_fields base) columns)).
End merge.

(** ** The merge is the overlay *)

Inductive Cell (C : Type) :=
| CellInt (x : Z) | CellUInt (x : Z) | CellFloat (x : Z) | CellStr (s : string) | CellBool (b : bool)
| CellOther (x : C).
Arguments CellInt {C}.
Arguments CellUInt {C}.
Arguments CellFloat {C}.
Arguments CellStr {C}.
Arguments CellBool {C}.
Arguments CellOther {C}.

Section theory.
Context {J O C : Type}.
Context (other_type : O -> ArrowType) (other_cells : O -> list (option C)).
Implicit Types (delta : DeltaStore J) (ids : list Z) (col : string).

Abbreviation array_type := (array_type other_type).

Definition lift {A} (f : A -> Cell C) (x : option A) : option (Cell C) := f <$> x.

(** The contents of an array; [None] is null. *)
Definition cells (a : ArrayRef O) : list (option (Cell C)) :=
  match a with
  | ArrInt64 l => lift CellInt <$> l
  | ArrUInt64 l => lift CellUInt <$> l
  | ArrFloat64 l => lift CellFloat <$> l
  | ArrUtf8 l => lift CellStr <$> l
  | ArrBoolean l => lift CellBool <$> l
  | ArrDictionary keys values =>
      lift CellStr <$> (dictionary_cell values <$> keys)
  | ArrOther o => lift CellOther <$> other_cells o
  end.

(** The cell that assigning [v] to a column stored as [a] gives, from the old cell:
    the column's conversion, except that a column without a typed branch only takes
    nulls. *)
Definition assign (a : ArrayRef O) (v : Value J) (old : option (Cell C)) : option (Cell C) :=
  match a with
  | ArrInt64 _ => CellInt <$> as_i64 v
  | ArrUInt64 _ => CellUInt <$> uint64_of v
  | ArrFloat64 _ => CellFloat <$> as_f64 v
  | ArrUtf8 _ | ArrDictionary _ _ => CellStr <$> as_str v
  | ArrBoolean _ => CellBool <$> as_bool v
  | ArrOther _ => match v with VNull => None | _ => old end
  end.

(** A column seen through the store: deleted rows dropped, pending cells assigned. *)
Definition overlay_cells (conv : Value J -> option (Cell C) -> option (Cell C)) col ids delta
    (base : list (option (Cell C))) : list (option (Cell C)) :=
  omap (fun e : Z * option (Cell C) =>
    if is_deleted delta e.1 then None
    else Some (match get_updated_value delta e.1 col with Some v => conv v e.2 | None => e.2 end))
    (zip ids base).

Definition overlay_column col ids delta (a : ArrayRef O) : list (option (Cell C)) :=
  overlay_cells (assign a) col ids delta (cells a).

(** A loop over the kept positions. *)
Lemma kept_from_mapM {X Y} delta (f : nat -> option Y) (g : Z -> X -> Y) ids : forall k (l : list X),
  length l = length ids ->
  (forall i id x, ids !! i = Some id -> l !! i = Some x -> f (k + i)%nat = Some (g id x)) ->
  mapM f (kept_from k ids delta) =
    Some (omap (fun e : Z * X => if is_deleted delta e.1 then None else Some (g e.1 e.2)) (zip ids l)).
Proof.
  induction ids as [|id ids IH]; intros k [|x l] Hlen Hf; try done.
  specialize (IH (S k) l ltac:(simpl in Hlen; lia)).
  assert (Hrest : forall i id x, ids !! i = Some id -> l !! i = Some x -> f (S k + i)%nat = Some (g id x)).
  { intros i id' x' Hi Hx. replace (S k + i)%nat with (k + S i)%nat by lia. by apply Hf. }
  specialize (IH Hrest). simpl. destruct (is_deleted delta id); [done|].
  change (mapM f (k :: kept_from (S k) ids delta)) with
    (y ← f k; ys ← mapM f (kept_from (S k) ids delta); Some (y :: ys)).
  rewrite IH. pose proof (Hf 0%nat id x eq_refl eq_refl) as H0. rewrite Nat.add_0_r in H0.
  rewrite H0. done.
Qed.

Lemma merge_loop_cells {A} (inj : A -> Cell C) of_value at_pos (arr : list (option A)) conv col ids delta :
  length arr = length ids ->
  (forall pos, at_pos pos = arr !! pos) -> (forall v x, conv v x = lift inj (of_value v)) ->
  exists l, merge_loop of_value at_pos col (kept_from 0 ids delta) ids delta = Some l /\
    lift inj <$> l = overlay_cells conv col ids delta (lift inj <$> arr).
Proof.
  intros Hlen Hat Hconv. eexists. split.
  - apply (kept_from_mapM delta _ (fun id x => match get_updated_value delta id col with
      | Some v => of_value v | None => x end) ids 0 arr Hlen).
    intros i id x Hi Hx. unfold merge_cell. simpl. rewrite Hi. simpl.
    destruct (get_updated_value delta id col); [done|]. by rewrite Hat.
  - clear Hat. unfold overlay_cells. revert arr Hlen.
    induction ids as [|id ids IH]; intros [|x arr] Hlen; try done.
    simpl. destruct (is_deleted delta id); simpl; [apply IH; simpl in Hlen; lia|].
    rewrite IH by (simpl in Hlen; lia). f_equal.
    destruct (get_updated_value delta id col); [by rewrite Hconv|done].
Qed.

Lemma updates_column_none delta col r :
  updates_column delta col = false -> get_updated_value delta r col = None.
Proof.
  intros Hc. destruct (get_updated_value delta r col) as [v|] eqn:Hv; [|done].
  exfalso. apply not_true_iff_false in Hc. apply Hc. unfold get_updated_value in Hv.
  destruct (ds_updates delta !! r) as [cols|] eqn:Hr; [|done]. simpl in Hv.
  destruct (cols !! col) as [rec|] eqn:Hcol; [|done].
  apply existsb_exists. exists (r, cols).
  split; [by apply list_elem_of_In, elem_of_map_to_list|]. apply existsb_exists.
  exists (col, rec). split; [by apply list_elem_of_In, elem_of_map_to_list|].
  apply eq_ignore_ascii_case_refl.
Qed.

(** Rows the store does not mention are left alone. *)
Lemma overlay_cells_id conv col ids delta (base : list (option (Cell C))) :
  length base = length ids ->
  Forall (fun id => is_deleted delta id = false /\ get_updated_value delta id col = None) ids ->
  overlay_cells conv col ids delta base = base.
Proof.
  unfold overlay_cells. intros Hlen Hids. revert base Hlen.
  induction Hids as [|id ids [Hd Hu] _ IH]; intros [|x base] Hlen; try done.
  simpl. rewrite Hd, Hu, IH by (simpl in Hlen; lia). done.
Qed.

Lemma batch_untouched delta ids col :
  store_ok delta -> batch_touches_delta ids delta = false ->
  Forall (fun id => is_deleted delta id = false /\ get_updated_value delta id col = None) ids.
Proof.
  intros [Hb Hu] Ht. apply Forall_forall. intros id Hid.
  assert (Hno : id ∉ DeleteBitmap_deleted_ids (ds_delete_bitmap delta) ++ (map_to_list (ds_updates delta)).*1).
  { intros Hin. unfold batch_touches_delta in Ht.
    destruct (Nat.eqb_spec (length (DeleteBitmap_deleted_ids (ds_delete_bitmap delta)) +
      length (map_to_list (ds_updates delta)).*1) 0) as [H0|_].
    { rewrite <-length_app in H0. apply nil_length_inv in H0. rewrite H0 in Hin. by apply elem_of_nil in Hin. }
    apply list_elem_of_In in Hin.
    destruct (_ <=? 8)%nat; rewrite <-not_true_iff_false, existsb_exists in Ht; apply Ht; exists id;
      (split; [done|]); apply bool_decide_eq_true_2; set_solver. }
  rewrite elem_of_app in Hno. split.
  - unfold is_deleted. rewrite bitmap_is_deleted_spec by done. apply bool_decide_eq_false.
    intros Hin. apply Hno. left. unfold deleted_set in Hin. by rewrite elem_of_list_to_set in Hin.
  - unfold get_updated_value. destruct (ds_updates delta !! id) as [cols|] eqn:Hr; [|done].
    destruct Hno. right. apply list_elem_of_fmap. exists (id, cols).
    split; [done|]. by apply elem_of_map_to_list.
Qed.
(** *** Arrow *)

Context (take_array : ArrayRef O -> list Z -> Result (ArrayRef O)).
Context (nullif : ArrayRef O -> list bool -> Result (ArrayRef O)).
Context (try_new : list Field -> list (ArrayRef O) -> Result (RecordBatch O)).
Context (new_empty : list Field -> RecordBatch O).

(** [take] gathers the rows of valid indices and keeps the type. *)
Definition take_gathers : Prop := forall a idx,
  Forall (fun i => 0 <= i < Z.of_nat (length (cells a))) idx ->
  exists a', take_array a idx = Ok a' /\ array_type a' = array_type a /\
    cells a' = (fun i => mjoin (cells a !! Z.to_nat i)) <$> idx.

(** [nullif] clears the cells under the mask. *)
Definition nullif_masks : Prop := forall a mask,
  length mask = length (cells a) ->
  exists a', nullif a mask = Ok a' /\ array_type a' = array_type a /\
    cells a' = zip_with (fun (b : bool) x => if b then None else x) mask (cells a).

(** [try_new] accepts columns of one length and of the declared types, without nulls
    where the field allows none. *)
Definition column_fits (n : nat) (f : Field) (a : ArrayRef O) : Prop :=
  f_type f = array_type a /\ length (cells a) = n /\
  (f_nullable f = false -> Forall (fun x => x <> None) (cells a)).

Definition try_new_accepts : Prop := forall fields columns n,
  columns <> [] -> Forall2 (column_fits n) fields columns ->
  try_new fields columns = Ok (mkBatch fields columns n).

Hypothesis Htake : take_gathers.
Hypothesis Hnullif : nullif_masks.
Hypothesis Hnew : try_new_accepts.

(** An array without a typed branch has a type without one. *)
Definition opaque_type (t : ArrowType) : Prop :=
  match t with AtOther _ => True | AtDictionary _ v => v <> AtUtf8 | _ => False end.

Definition column_ok (n : nat) (f : Field) (a : ArrayRef O) : Prop :=
  f_type f = array_type a /\ length (cells a) = n /\
  match a with ArrOther o => opaque_type (other_type o) | _ => True end.

Lemma kept_from_bound delta ids k : Forall (fun p => (k <= p < k + length ids)%nat) (kept_from k ids delta).
Proof.
  revert k. induction ids as [|id ids IH]; intros k; simpl; [constructor|].
  assert (Hr : Forall (fun p => (k <= p < k + S (length ids))%nat) (kept_from (S k) ids delta)).
  { eapply Forall_impl; [apply IH|]. simpl. lia. }
  destruct (is_deleted delta id); [done|]. constructor; [lia|done].
Qed.

(** The rows gathered by [take] are those of the rows kept. *)
Lemma kept_gather delta ids (base : list (option (Cell C))) :
  length base = length ids ->
  (fun p => mjoin (base !! p)) <$> kept_from 0 ids delta =
    omap (fun e : Z * option (Cell C) => if is_deleted delta e.1 then None else Some e.2) (zip ids base).
Proof.
  intros Hlen.
  pose proof (kept_from_mapM delta (fun p => Some (mjoin (base !! p))) (fun _ x => x) ids 0 base Hlen) as H.
  assert (Hm : forall l, mapM (fun p => Some (mjoin (base !! p))) l = Some ((fun p => mjoin (base !! p)) <$> l)).
  { intros l. induction l as [|p l IH]; [done|]. cbn [mapM]. simpl. by rewrite IH. }
  rewrite Hm in H. specialize (H ltac:(intros i id x _ Hx; simpl; by rewrite Hx)). by simplify_eq.
Qed.

Lemma take_kept delta ids a :
  length (cells a) = length ids -> Z.of_nat (length ids) <= 2 ^ 32 ->
  exists a', take_array a ((fun p => wrap32 (Z.of_nat p)) <$> kept_from 0 ids delta) = Ok a' /\
    array_type a' = array_type a /\
    cells a' = omap (fun e : Z * option (Cell C) => if is_deleted delta e.1 then None else Some e.2)
                 (zip ids (cells a)).
Proof.
  intros Hlen Hsmall.
  assert (Heq : (fun p => wrap32 (Z.of_nat p)) <$> kept_from 0 ids delta = Z.of_nat <$> kept_from 0 ids delta).
  { apply list_fmap_ext. intros i p Hp. pose proof (kept_from_bound delta ids 0) as Hb.
    rewrite Forall_lookup in Hb. specialize (Hb i p Hp). unfold wrap32. apply Z.mod_small. lia. }
  rewrite Heq. destruct (Htake a (Z.of_nat <$> kept_from 0 ids delta)) as (a' & Ha & Ht & Hc).
  - apply Forall_fmap. eapply Forall_impl; [apply (kept_from_bound delta ids 0)|]. simpl. lia.
  - exists a'. split_and!; [done..|]. rewrite Hc, <-list_fmap_compose, <-kept_gather by done.
    apply list_fmap_ext. intros i p _. simpl. by rewrite Nat2Z.id.
Qed.
Lemma overlay_no_updates conv col ids delta (base : list (option (Cell C))) :
  (forall id, get_updated_value delta id col = None) ->
  overlay_cells conv col ids delta base =
    omap (fun e : Z * option (Cell C) => if is_deleted delta e.1 then None else Some e.2) (zip ids base).
Proof.
  intros Hno. unfold overlay_cells. induction (zip ids base) as [|e l IH]; [done|].
  simpl. rewrite Hno. destruct (is_deleted delta e.1); [exact IH|]. f_equal. exact IH.
Qed.

(** Masking the gathered cells is the overlay of a column that only takes nulls. *)
Lemma mask_overlay o col ids delta (base : list (option (Cell C))) :
  let mask := omap (fun e : Z * option (Cell C) => if is_deleted delta e.1 then None else
      Some (match get_updated_value delta e.1 col with Some VNull => true | _ => false end)) (zip ids base) in
  let taken := omap (fun e : Z * option (Cell C) => if is_deleted delta e.1 then None else Some e.2)
      (zip ids base) in
  length mask = length taken /\
  zip_with (fun (b : bool) x => if b then None else x) mask taken =
    overlay_cells (assign (ArrOther o)) col ids delta base.
Proof.
  unfold overlay_cells. simpl. induction (zip ids base) as [|[id x] l [IHl IHz]]; [done|]. simpl.
  destruct (is_deleted delta id); simpl; [done|]. split; [f_equal; exact IHl|].
  f_equal; [by destruct (get_updated_value delta id col) as [[]|]|exact IHz].
Qed.

Lemma mask_none (mask : list bool) (l : list (option (Cell C))) :
  length mask = length l -> existsb id mask = false ->
  zip_with (fun (b : bool) x => if b then None else x) mask l = l.
Proof.
  revert l. induction mask as [|b mask IH]; intros [|x l] Hlen Hm; try done.
  simpl in *. apply orb_false_iff in Hm as [-> Hm]. by rewrite IH by (done || lia).
Qed.

Lemma overlay_null_spec o delta ids col taken :
  length (cells (ArrOther o)) = length ids ->
  cells taken = omap (fun e : Z * option (Cell C) => if is_deleted delta e.1 then None else Some e.2)
      (zip ids (cells (ArrOther o))) ->
  exists a', overlay_null_updates nullif taken col (kept_from 0 ids delta) ids delta = Some (Ok a') /\
    cells a' = overlay_column col ids delta (ArrOther o).
Proof.
  intros Hlen Hc. unfold overlay_null_updates, overlay_column.
  destruct (updates_column delta col) eqn:Hu; simpl.
  - pose proof (kept_from_mapM delta (null_assigned col ids delta)
      (fun id _ => match get_updated_value delta id col with Some VNull => true | _ => false end)
      ids 0 (cells (ArrOther o)) Hlen) as Hm.
    rewrite Hm by (intros i id x Hi Hx; unfold null_assigned; simpl; by rewrite Hi). simpl.
    pose proof (mask_overlay o col ids delta (cells (ArrOther o))) as Hmo. cbv zeta in Hmo.
    rewrite <-Hc in Hmo. destruct Hmo as [Hl Hz].
    destruct (existsb _ _) eqn:Hany; simpl.
    + destruct (Hnullif taken _ Hl) as (a' & Ha' & _ & Ha). exists a'. split; [exact (f_equal (Some ∘ invalid_data) Ha')|].
      etrans; [exact Ha|exact Hz].
    + exists taken. split; [done|]. etrans; [|exact Hz]. symmetry. by apply mask_none.
  - exists taken. split; [done|]. rewrite Hc, overlay_no_updates; [done|].
    intros id. by apply updates_column_none.
Qed.

Abbreviation merge_column := (merge_column take_array nullif).

Lemma finish_loop {A} (mk : list (option A) -> ArrayRef O) (inj : A -> Cell C) of_value at_pos
    (arr : list (option A)) a col ids delta :
  (forall l, cells (mk l) = lift inj <$> l) -> cells a = lift inj <$> arr -> length (cells a) = length ids ->
  (forall pos, at_pos pos = arr !! pos) -> (forall v x, assign a v x = lift inj (of_value v)) ->
  exists a', finish mk (merge_loop of_value at_pos col (kept_from 0 ids delta) ids delta) = Some (Ok a') /\
    cells a' = overlay_column col ids delta a.
Proof.
  intros Hmk Ha Hlen Hat Has. rewrite Ha, length_fmap in Hlen.
  destruct (merge_loop_cells inj of_value at_pos arr (assign a) col ids delta Hlen Hat Has) as (l & -> & Hl).
  exists (mk l). split; [done|]. unfold overlay_column. by rewrite Hmk, Ha, Hl.
Qed.

Lemma merge_column_spec delta ids f a :
  column_ok (length ids) f a -> Z.of_nat (length ids) <= 2 ^ 32 ->
  exists a', merge_column a (f_name f) (f_type f) (kept_from 0 ids delta) ids delta = Some (Ok a') /\
    cells a' = overlay_column (f_name f) ids delta a.
Proof.
  intros (Ht & Hlen & Hop) Hsmall.
  destruct (take_kept delta ids a Hlen Hsmall) as (taken & Htk & _ & Hct).
  unfold DeltaMerge.merge_column. rewrite Ht, Htk. simpl.
  destruct a as [arr|arr|arr|arr|arr|keys values|o]; simpl in Hop |- *.
  - by apply (finish_loop ArrInt64 CellInt _ _ arr).
  - by apply (finish_loop ArrUInt64 CellUInt _ _ arr).
  - by apply (finish_loop ArrFloat64 CellFloat _ _ arr).
  - by apply (finish_loop ArrUtf8 CellStr _ _ arr).
  - by apply (finish_loop ArrBoolean CellBool _ _ arr).
  - destruct (updates_column delta (f_name f)) eqn:Hu.
    + apply (finish_loop ArrUtf8 CellStr _ _ (dictionary_cell values <$> keys)); try done.
      intros pos. unfold dictionary_at. by rewrite list_lookup_fmap.
    + unfold overlay_null_updates. rewrite Hu. simpl. exists taken. split; [done|].
      unfold overlay_column. rewrite Hct, overlay_no_updates; [done|].
      intros id. by apply updates_column_none.
  - pose proof (overlay_null_spec o delta ids (f_name f) taken Hlen Hct) as Hother.
    destruct (other_type o) as [| | | | |key value|name]; try done. destruct value; done.
Qed.
Lemma kept_from_length delta ids k :
  (length (kept_from k ids delta) <= length ids)%nat /\
  (length (kept_from k ids delta) = length ids -> Forall (fun id => is_deleted delta id = false) ids).
Proof.
  revert k. induction ids as [|id ids IH]; intros k; simpl; [by split|].
  destruct (IH (S k)) as [Hle Heq]. destruct (is_deleted delta id) eqn:Hd; simpl.
  - split; [lia|]. intros. lia.
  - split; [lia|]. intros [= H]. constructor; [done|by apply Heq].
Qed.

Lemma overlay_length conv col ids delta (base : list (option (Cell C))) k :
  length base = length ids ->
  length (overlay_cells conv col ids delta base) = length (kept_from k ids delta).
Proof.
  unfold overlay_cells. revert k base. induction ids as [|id ids IH]; intros k [|x base] Hlen; try done.
  simpl. destruct (is_deleted delta id); simpl; [|f_equal]; apply IH; simpl in Hlen; lia.
Qed.

Lemma merge_columns_spec delta ids fields columns all_kept :
  Forall2 (column_ok (length ids)) fields columns -> Z.of_nat (length ids) <= 2 ^ 32 ->
  (all_kept = true -> Forall (fun id => is_deleted delta id = false) ids) ->
  exists columns',
    merge_columns take_array nullif fields columns all_kept (kept_from 0 ids delta) ids delta
      = Some (Ok columns') /\
    Forall2 (fun (fa : Field * ArrayRef O) a' => cells a' = overlay_column (f_name fa.1) ids delta fa.2)
      (zip fields columns) columns'.
Proof.
  intros Hcols Hsmall Hall. induction Hcols as [|f a fields columns Hf _ IH]; simpl.
  { by exists []. }
  destruct IH as (rest & -> & Hrest).
  assert (Hone : exists a', (if all_kept && negb (updates_column delta (f_name f)) then Some (Ok a)
            else merge_column a (f_name f) (f_type f) (kept_from 0 ids delta) ids delta) = Some (Ok a') /\
            cells a' = overlay_column (f_name f) ids delta a).
  { destruct (all_kept && _) eqn:Hfast; [|by apply merge_column_spec].
    apply andb_true_iff in Hfast as [-> Hu%negb_true_iff]. exists a. split; [done|].
    symmetry. apply overlay_cells_id; [by destruct Hf as (_ & ? & _)|].
    eapply Forall_impl; [by apply Hall|]. simpl. intros id Hid. split; [done|].
    by apply updates_column_none. }
  destruct Hone as (a' & -> & Ha'). exists (a' :: rest). split; [done|]. by constructor.
Qed.

(** Assigning a null to a column that forbids nulls is left aside. *)
Definition nulls_allowed (delta : DeltaStore J) ids (base : RecordBatch O) : Prop :=
  Forall2 (fun f a => f_nullable f = false -> Forall (fun x => x <> None) (overlay_column (f_name f) ids delta a))
    (rb_fields base) (rb_columns base).

Definition batch_ok (base : RecordBatch O) : Prop :=
  rb_columns base <> [] /\ Forall2 (column_ok (rb_num_rows base)) (rb_fields base) (rb_columns base).

(** An empty batch of a schema. *)
Definition new_empty_empties : Prop := forall fields,
  rb_num_rows (new_empty fields) = 0%nat /\ rb_fields (new_empty fields) = fields /\
  Forall2 (fun _ a => cells a = []) fields (rb_columns (new_empty fields)).
Hypothesis Hempty : new_empty_empties.

(** What a merged batch holds: column by column, the overlay of the base batch. *)
Definition is_overlay (delta : DeltaStore J) ids (base merged : RecordBatch O) : Prop :=
  f_name <$> rb_fields merged = f_name <$> rb_fields base /\
  rb_num_rows merged = length (List.filter (fun id => negb (is_deleted delta id)) ids) /\
  Forall2 (fun (fa : Field * ArrayRef O) a' => cells a' = overlay_column (f_name fa.1) ids delta fa.2)
    (zip (rb_fields base) (rb_columns base)) (rb_columns merged).

Lemma kept_count delta ids k :
  length (kept_from k ids delta) = length (List.filter (fun id => negb (is_deleted delta id)) ids).
Proof. revert k. induction ids as [|id ids IH]; intros k; simpl; [done|]. by destruct (is_deleted delta id); simpl; rewrite IH. Qed.

(** The base batch is its own overlay when the store does not touch its rows. *)
Lemma is_overlay_untouched delta ids base :
  batch_ok base -> length ids = rb_num_rows base ->
  (forall col, Forall (fun id => is_deleted delta id = false /\ get_updated_value delta id col = None) ids) ->
  is_overlay delta ids base base.
Proof.
  intros [_ Hcols] Hlen Hun. split_and!; [done| |].
  - rewrite filter_true_id; [done|]. eapply Forall_impl; [apply (Hun EmptyString)|]. simpl. by intros id [-> _].
  - rewrite <-Hlen in Hcols. clear Hlen. induction Hcols as [|f a fields columns Hf _ IH]; simpl; constructor; [|done].
    symmetry. apply overlay_cells_id; [by destruct Hf as (_ & ? & _)|apply Hun].
Qed.

Lemma zip_align fields columns (P : Field * ArrayRef O -> ArrayRef O -> Prop) columns' :
  Forall2 P (zip fields columns) columns' -> length fields = length columns ->
  f_name <$> zip_with (align_field other_type) fields columns' = f_name <$> fields.
Proof.
  revert columns columns'. induction fields as [|f fields IH]; intros [|a columns] columns' H Hlen; try done.
  inversion H as [|? a' ? columns'' _ Hrest]; subst. simpl. f_equal; [|by eapply IH; [|injection Hlen]].
  unfold align_field. by case_bool_decide.
Qed.

Lemma aligned_fits delta ids fields columns columns' n :
  Forall2 (column_ok (length ids)) fields columns ->
  Forall2 (fun f a => f_nullable f = false -> Forall (fun x => x <> None) (overlay_column (f_name f) ids delta a))
    fields columns ->
  Forall2 (fun (fa : Field * ArrayRef O) a' => cells a' = overlay_column (f_name fa.1) ids delta fa.2)
    (zip fields columns) columns' ->
  n = length (kept_from 0 ids delta) ->
  Forall2 (column_fits n) (zip_with (align_field other_type) fields columns') columns'.
Proof.
  intros Hcols. revert columns'. induction Hcols as [|f a fields columns Hf _ IH]; intros columns' Hn Hm ->.
  { inversion Hm; subst. constructor. }
  inversion Hm as [|? a' ? columns'' Ha Hrest]; subst. simpl in Ha.
  apply Forall2_cons in Hn as [Hnull Hn]. simpl. constructor; [|by apply IH].
  destruct Hf as (Ht & Hlen & _). unfold align_field, column_fits. split_and!.
  - by case_bool_decide.
  - rewrite Ha. by apply overlay_length.
  - case_bool_decide; [|done]. rewrite Ha. done.
Qed.

(** C11 Merging is the overlay: for a store its operations can leave and a batch of at least one column and at most 2^32 rows
    whose columns have their declared types and the length of the batch, given one row id
    per row, the merge returns, by whichever of its shortcuts, the batch without the
    deleted rows and with every pending cell assigned, in row order, columns and their
    names kept; it neither panics nor fails.  A cell assigned to an Int64, UInt64,
    Float64, Utf8, Boolean or string dictionary column is the pending value converted to that
    type, NULL when it does not convert; a column of another Arrow type takes NULL, and
    keeps its base cell for any other pending value, as the code documents.  The case
    left out is a column declared NOT NULL that ends with a NULL: Arrow then refuses the
    batch.  [take], [nullif] and the batch constructor are Arrow's. *)
Theorem merge_applies_overlay delta ids base :
  store_ok delta -> batch_ok base -> length ids = rb_num_rows base ->
  Z.of_nat (rb_num_rows base) <= 2 ^ 32 -> nulls_allowed delta ids base ->
  exists merged,
    DeltaMerger_merge other_type take_array nullif try_new new_empty base delta ids = Some (Ok merged) /\
    is_overlay delta ids base merged.
Proof.
  intros Hok Hb Hlen Hsmall Hnulls. unfold DeltaMerger_merge.
  destruct (DeltaStore_is_empty delta) eqn:He.
  { exists base. split; [done|]. apply is_overlay_untouched; [done..|]. intros col.
    apply andb_true_iff in He as [Hd Hu%bool_decide_eq_true]. apply Forall_forall. intros id _. split.
    - unfold is_deleted. rewrite bitmap_is_deleted_spec by apply Hok. apply bool_decide_eq_true in Hd.
      unfold deleted_set. rewrite Hd. by apply bool_decide_eq_false_2, not_elem_of_empty.
    - unfold get_updated_value. by rewrite Hu, lookup_empty. }
  rewrite Hlen, Nat.eqb_refl. simpl. rewrite orb_false_r.
  destruct (Nat.eqb_spec (rb_num_rows base) 0) as [H0|H0].
  { exists base. split; [done|]. apply is_overlay_untouched; [done..|]. intros col.
    rewrite H0 in Hlen. apply nil_length_inv in Hlen as ->. constructor. }
  destruct ((Z.of_nat (rb_num_rows base) <=? PROBE_MAX_ROWS) && _) eqn:Hprobe.
  { exists base. split; [done|]. apply is_overlay_untouched; [done..|]. intros col.
    apply andb_true_iff in Hprobe as [_ Ht%negb_true_iff]. by apply batch_untouched. }
  destruct (Nat.eqb_spec (length (kept_from 0 ids delta)) 0) as [Hk|Hk].
  { exists (new_empty (rb_fields base)). split; [done|]. destruct (Hempty (rb_fields base)) as (Hn & Hf & Hc).
    split_and!; [by rewrite Hf|by rewrite Hn, <-(kept_count delta ids 0)|].
    destruct Hb as [_ Hcols]. rewrite <-Hlen in Hcols. clear Hnulls Hn Hf.
    revert Hc. generalize (rb_columns (new_empty (rb_fields base))) as cs.
    induction Hcols as [|f a fields columns Hf _ IH]; intros cs Hc; inversion Hc; subst; simpl; constructor;
      [|by apply IH]. simpl. destruct Hf as (_ & Hla & _).
    assert (Hl : length (overlay_column (f_name f) ids delta a) = 0%nat)
      by by unfold overlay_column; rewrite (overlay_length _ _ _ _ _ 0).
    apply nil_length_inv in Hl. congruence. }
  destruct Hb as [Hne Hcols]. rewrite <-Hlen in Hcols, Hsmall.
  destruct (merge_columns_spec delta ids (rb_fields base) (rb_columns base)
    (length (kept_from 0 ids delta) =? rb_num_rows base)%nat Hcols Hsmall) as (columns' & -> & Hm).
  { intros Hall%Nat.eqb_eq. apply (kept_from_length delta ids 0). congruence. }
  simpl. rewrite (Hnew _ _ (length (kept_from 0 ids delta))).
  - simpl. eexists. split; [done|]. split_and!; simpl; [|by rewrite kept_count|done].
    eapply zip_align; [exact Hm|]. by eapply Forall2_length.
  - intros ->. apply Forall2_nil_inv_r in Hm. clear Hnulls.
    destruct (rb_fields base), (rb_columns base); try done; inversion Hcols.
  - by eapply aligned_fits.
Qed.
(** *** The deletes-only path *)

Lemma delete_flags delta ids0 ids : forall k,
  (forall i, (i < length ids)%nat -> ids0 !! (k + i)%nat = ids !! i) ->
  exists flags,
    mapM (fun i => id ← ids0 !! Z.to_nat i;
            Some (i, negb (DeleteBitmap_is_deleted (ds_delete_bitmap delta) id)))
      (Z.of_nat <$> seq k (length ids)) = Some flags /\
    (List.filter snd flags).*1 = Z.of_nat <$> kept_from k ids delta.
Proof.
  induction ids as [|id ids IH]; intros k Hk; [by exists []|].
  destruct (IH (S k)) as (flags & Hf & Hi).
  { intros i Hlt. replace (S k + i)%nat with (k + S i)%nat by lia. apply Hk. simpl. lia. }
  exists ((Z.of_nat k, negb (is_deleted delta id)) :: flags). split.
  - cbn [length seq]. rewrite fmap_cons. cbn [mapM]. rewrite Nat2Z.id.
    pose proof (Hk 0%nat ltac:(simpl; lia)) as H0. rewrite Nat.add_0_r in H0. rewrite H0. simpl.
    by rewrite Hf.
  - cbn [List.filter snd kept_from]. destruct (is_deleted delta id); [exact Hi|].
    cbn [negb]. by rewrite !fmap_cons, Hi.
Qed.

Lemma take_columns delta ids columns n :
  Forall (fun a => length (cells a) = length ids) columns -> Z.of_nat (length ids) <= 2 ^ 32 ->
  n = length (kept_from 0 ids delta) ->
  exists columns',
    mapM (fun column => match take_array column (Z.of_nat <$> kept_from 0 ids delta) with
                        | Ok c => Some c | Err _ => None end) columns = Some columns' /\
    Forall2 (fun a a' => array_type a' = array_type a /\
      cells a' = omap (fun e : Z * option (Cell C) => if is_deleted delta e.1 then None else Some e.2)
                   (zip ids (cells a))) columns columns'.
Proof.
  intros Hcols Hsmall ->. induction Hcols as [|a columns Ha _ IH]; [by exists []|].
  destruct IH as (rest & Hr & Hrest). destruct (take_kept delta ids a Ha Hsmall) as (a' & Hta & Hty & Hc).
  assert (Heq : (fun p => wrap32 (Z.of_nat p)) <$> kept_from 0 ids delta = Z.of_nat <$> kept_from 0 ids delta).
  { apply list_fmap_ext. intros i p Hp. pose proof (kept_from_bound delta ids 0) as Hb.
    rewrite Forall_lookup in Hb. specialize (Hb i p Hp). unfold wrap32. apply Z.mod_small. lia. }
  rewrite Heq in Hta. exists (a' :: rest). cbn [mapM]. rewrite Hta. simpl. rewrite Hr.
  split; [done|]. by constructor.
Qed.

(** Deletes only: when the store has no pending update, the faster path returns the
    same overlay, without panic or failure. *)
Theorem apply_deletes_is_overlay delta ids base :
  store_ok delta -> ds_updates delta = ∅ -> batch_ok base -> length ids = rb_num_rows base ->
  Z.of_nat (rb_num_rows base) < 2 ^ 32 -> nulls_allowed delta ids base ->
  exists merged,
    apply_deletes take_array try_new base (ds_delete_bitmap delta) ids = Some (Ok merged) /\
    is_overlay delta ids base merged.
Proof.
  intros Hok Hup Hb Hlen Hsmall Hnulls.
  assert (Hno : forall col id, get_updated_value delta id col = None).
  { intros col id. unfold get_updated_value. by rewrite Hup, lookup_empty. }
  unfold apply_deletes. destruct (DeleteBitmap_is_empty _) eqn:He.
  { exists base. split; [done|]. apply is_overlay_untouched; [done..|]. intros col. apply Forall_forall.
    intros id _. split; [|done]. unfold is_deleted. rewrite bitmap_is_deleted_spec by apply Hok.
    apply bool_decide_eq_true in He. unfold deleted_set. rewrite He.
    by apply bool_decide_eq_false_2, not_elem_of_empty. }
  unfold wrap32. rewrite Z.mod_small, Nat2Z.id, <-Hlen by lia.
  destruct (delete_flags delta ids ids 0 ltac:(done)) as (flags & -> & Hkeep). simpl. rewrite Hkeep, length_fmap.
  destruct (Nat.eqb_spec (length (kept_from 0 ids delta)) (length ids)) as [Hall|Hsome].
  { exists base. split; [done|]. apply is_overlay_untouched; [done..|]. intros col.
    apply kept_from_length in Hall. eapply Forall_impl; [exact Hall|]. simpl. by intros id ->. }
  destruct Hb as [Hne Hcols]. rewrite <-Hlen in Hcols, Hsmall.
  destruct (take_columns delta ids (rb_columns base) _ ltac:(
    clear -Hcols; induction Hcols as [|f a fs cs (_ & Hl & _) _ IH]; constructor; done)
    ltac:(lia) eq_refl) as (columns' & -> & Hm). simpl.
  assert (Hm2 : Forall2 (fun (fa : Field * ArrayRef O) a' =>
            cells a' = overlay_column (f_name fa.1) ids delta fa.2)
            (zip (rb_fields base) (rb_columns base)) columns').
  { clear -Hm Hcols Hno. revert columns' Hm. induction Hcols as [|f a fs cs _ _ IH]; intros columns' Hm;
      inversion Hm as [|? a' ? cs' [_ Hc] Hrest]; subst; simpl; constructor; [|by apply IH].
    simpl. unfold overlay_column. rewrite Hc, overlay_no_updates; [done|]. apply Hno. }
  rewrite (Hnew _ _ (length (kept_from 0 ids delta))).
  - eexists. split; [done|]. split_and!; [done|by rewrite kept_count|done].
  - intros ->. by apply Forall2_nil_inv_r in Hm.
  - unfold nulls_allowed in Hnulls. clear -Hm Hm2 Hnulls Hcols. revert columns' Hm Hm2.
    induction Hcols as [|f a fs cs (Ht & Hl & _) _ IH]; intros columns' Hm Hm2;
      inversion Hm as [|? a' ? cs' [Hty Hc] Hrest]; subst; [constructor|].
    inversion Hm2 as [|? ? ? ? Ha Hrest2]; subst. apply Forall2_cons in Hnulls as [Hn Hnulls].
    constructor; [|by apply IH]. simpl in Ha. split_and!; [congruence|rewrite Ha; by apply overlay_length|].
    by rewrite Ha.
Qed.
End theory.

(** ** A concrete Arrow *)

Section concrete.
Let Opaque : Type := list (option Z).

Definition opaque_type_of (_ : Opaque) : ArrowType := AtOther "Binary".

Definition gather {A} (l : list (option A)) (idx : list Z) : list (option A) :=
  (fun i => mjoin (l !! Z.to_nat i)) <$> idx.

Definition list_take (a : ArrayRef Opaque) (idx : list Z) : Result (ArrayRef Opaque) :=
  Ok match a with
     | ArrInt64 l => ArrInt64 (gather l idx)
     | ArrUInt64 l => ArrUInt64 (gather l idx)
     | ArrFloat64 l => ArrFloat64 (gather l idx)
     | ArrUtf8 l => ArrUtf8 (gather l idx)
     | ArrBoolean l => ArrBoolean (gather l idx)
     | ArrDictionary keys values => ArrDictionary (gather keys idx) values
     | ArrOther l => ArrOther (gather l idx)
     end.

Definition mask_list {A} (mask : list bool) (l : list (option A)) : list (option A) :=
  zip_with (fun (b : bool) x => if b then None else x) mask l.

Definition list_nullif (a : ArrayRef Opaque) (mask : list bool) : Result (ArrayRef Opaque) :=
  Ok match a with
     | ArrInt64 l => ArrInt64 (mask_list mask l)
     | ArrUInt64 l => ArrUInt64 (mask_list mask l)
     | ArrFloat64 l => ArrFloat64 (mask_list mask l)
     | ArrUtf8 l => ArrUtf8 (mask_list mask l)
     | ArrBoolean l => ArrBoolean (mask_list mask l)
     | ArrDictionary keys values => ArrDictionary (mask_list mask keys) values
     | ArrOther l => ArrOther (mask_list mask l)
     end.

Definition list_cells : ArrayRef Opaque -> list (option (Cell Z)) := cells (fun l => l).

Definition list_try_new (fields : list Field) (columns : list (ArrayRef Opaque)) : Result (RecordBatch Opaque) :=
  match columns with
  | [] => Err InvalidInput
  | c :: _ => Ok (mkBatch fields columns (length (list_cells c)))
  end.

Definition list_new_empty (fields : list Field) : RecordBatch Opaque :=
  mkBatch fields ((fun _ => ArrInt64 []) <$> fields) 0.

Lemma gather_map {A B} (f : option A -> option B) (l : list (option A)) idx :
  f None = None -> f <$> gather l idx = (fun i => mjoin ((f <$> l) !! Z.to_nat i)) <$> idx.
Proof.
  intros Hf. unfold gather. rewrite <-list_fmap_compose. apply list_fmap_ext. intros _ i _. simpl.
  rewrite list_lookup_fmap. by destruct (l !! Z.to_nat i).
Qed.

Lemma mask_map {A B} (f : option A -> option B) mask (l : list (option A)) :
  f None = None -> f <$> mask_list mask l = mask_list mask (f <$> l).
Proof.
  intros Hf. unfold mask_list. revert l. induction mask as [|b mask IH]; intros [|x l]; try done.
  cbn [zip_with]. rewrite !fmap_cons. cbn [zip_with]. rewrite IH. by destruct b; rewrite ?Hf.
Qed.

Lemma list_take_gathers : take_gathers opaque_type_of (fun l : Opaque => l) list_take.
Proof.
  intros a idx _. destruct a as [l|l|l|l|l|l vs|l]; eexists; (split; [done|]); (split; [done|]); simpl;
    try by apply gather_map.
  rewrite <-list_fmap_compose, (gather_map (lift CellStr ∘ dictionary_cell vs)) by done.
  apply list_fmap_ext. intros _ i _. simpl. by rewrite list_fmap_compose.
Qed.

Lemma list_nullif_masks : nullif_masks opaque_type_of (fun l : Opaque => l) list_nullif.
Proof.
  intros a mask _. destruct a as [l|l|l|l|l|l vs|l]; eexists; (split; [done|]); (split; [done|]); simpl;
    try by apply mask_map.
  rewrite <-list_fmap_compose, (mask_map (lift CellStr ∘ dictionary_cell vs)) by done.
  by rewrite list_fmap_compose.
Qed.

Lemma list_try_new_accepts : try_new_accepts opaque_type_of (fun l : Opaque => l) list_try_new.
Proof.
  intros fields columns n Hne Hfits. destruct Hfits as [|f c fields columns (_ & Hlen & _) _]; [done|].
  simpl. by rewrite <-Hlen.
Qed.

Lemma list_new_empty_empties : new_empty_empties (fun l : Opaque => l) list_new_empty.
Proof. intros fields. split_and!; [done..|]. simpl. induction fields; by constructor. Qed.

Definition demo_batch : RecordBatch Opaque :=
  mkBatch [mkField "_id" AtUInt64 false; mkField "name" AtUtf8 true; mkField "payload" (AtOther "Binary") true]
    [ArrUInt64 [Some 1; Some 2; Some 3]; ArrUtf8 [Some "a"%string; None; Some "c"%string];
     ArrOther [Some 10; Some 20; Some 30]] 3.

Definition demo_overlay_ops : list (@delta_op unit) :=
  [DeltaDelete 2; DeltaUpdateCell 3 "name" (VString "x"); DeltaUpdateCell 1 "payload" VNull].

Lemma merge_applies_overlay_witness : exists merged,
  DeltaMerger_merge opaque_type_of list_take list_nullif list_try_new list_new_empty demo_batch
    (delta_run demo_overlay_ops) [1; 2; 3] = Some (Ok merged) /\
  rb_columns merged = [ArrUInt64 [Some 1; Some 3]; ArrUtf8 [Some "a"%string; Some "x"%string];
                       ArrOther [None; Some 30]].
Proof.
  destruct (merge_applies_overlay opaque_type_of (fun l : Opaque => l) list_take list_nullif list_try_new
    list_new_empty list_take_gathers list_nullif_masks list_try_new_accepts list_new_empty_empties
    (delta_run demo_overlay_ops) [1; 2; 3] demo_batch) as (merged & Hm & _).
  - apply delta_run_implements.
  - split; [done|]. repeat constructor.
  - reflexivity.
  - simpl. lia.
  - unfold nulls_allowed. simpl. repeat apply Forall2_cons_2; try apply Forall2_nil_2; intros Hn;
      try discriminate Hn. vm_compute. repeat constructor; discriminate.
  - exists merged. split; [exact Hm|]. vm_compute in Hm. injection Hm as <-. reflexivity.
Defined.

Lemma apply_deletes_is_overlay_witness : exists merged,
  apply_deletes list_take list_try_new demo_batch
    (ds_delete_bitmap (delta_run (J := unit) [DeltaDelete 2])) [1; 2; 3] = Some (Ok merged) /\
  rb_columns merged = [ArrUInt64 [Some 1; Some 3]; ArrUtf8 [Some "a"%string; Some "c"%string];
                       ArrOther [Some 10; Some 30]].
Proof.
  destruct (apply_deletes_is_overlay opaque_type_of (fun l : Opaque => l) list_take list_try_new
    list_take_gathers list_try_new_accepts
    (delta_run (J := unit) [DeltaDelete 2]) [1; 2; 3] demo_batch) as (merged & Hm & _).
  - apply delta_run_implements.
  - reflexivity.
  - split; [done|]. repeat constructor.
  - reflexivity.
  - simpl. lia.
  - unfold nulls_allowed. simpl. repeat apply Forall2_cons_2; try apply Forall2_nil_2; intros Hn;
      try discriminate Hn. vm_compute. repeat constructor; discriminate.
  - exists merged. split; [exact Hm|]. vm_compute in Hm. injection Hm as <-. reflexivity.
Defined.
End concrete.
