(* ===== verification/Scan.v ===== *)
(** * The typed scan protocol

    Models [storage/scan.rs]: typed literals and predicates, their resolution against the
    arrays of a batch into specialised leaves, the row selection of a morsel, its gathering and
    the stream of morsels.  The reference semantics that the leaves implement is at the end of
    the definitions.  Arrow's [downcast_ref::<LargeStringArray>] on an array without a typed
    constructor is the parameter [as_large_utf8]; [take] and [try_new] are those of [DeltaMerge]. *)
From S2P Require Import Prelude Float Values DeltaStore DeltaMerge.
From Stdlib Require Import Ascii.
Local Open Scope Z_scope.

(** ** Literals, predicates *)

Inductive ScanValue :=
| SvInt (v : Z)
| SvUInt (v : Z)
| SvFloat (bits : Z)
| SvString (s : string)
| SvBool (b : bool).

Definition MAX_CONSECUTIVE_INTEGER : Z := 9007199254740992.

Definition lossless_f64 (v : ScanValue) : option Z :=
  match v with
  | SvInt v => if Z.abs v <=? MAX_CONSECUTIVE_INTEGER then Some (f64_of_Z v) else None
  | SvUInt v => if v <=? MAX_CONSECUTIVE_INTEGER then Some (f64_of_Z v) else None
  | SvFloat b => if f64_is_finite b then Some b else None
  | _ => None
  end.

(** [i64::try_from] of a [u64] *)
Definition i64_try_from (v : Z) : option Z := if v <=? I64_MAX then Some v else None.

Definition lossless_i64 (v : ScanValue) : option Z :=
  match v with
  | SvInt v => Some v
  | SvUInt v => i64_try_from v
  | _ => None
  end.

Record ScanBound := mkBound { sb_value : ScanValue; sb_inclusive : bool }.

Definition ScanBound_inclusive (v : ScanValue) : ScanBound := mkBound v true.

Inductive ScanComparison := CmpEq | CmpNotEq | CmpLt | CmpLe | CmpGt | CmpGe.

#[global] Instance ScanComparison_eq_dec : EqDecision ScanComparison.
Proof. solve_decision. Defined.

Inductive ScanPredicate :=
| PCompare (column : string) (op : ScanComparison) (value : ScanValue)
| PBetween (column : string) (lower upper : option ScanBound)
| PIn (column : string) (values : list ScanValue)
| PIsNull (column : string) (negated : bool).

Definition ScanPredicate_column (p : ScanPredicate) : string :=
  match p with
  | PCompare column _ _ | PBetween column _ _ | PIn column _ | PIsNull column _ => column
  end.

Inductive ScanPredicateExpr :=
| PredLeaf (p : ScanPredicate)
| PredAnd (l r : ScanPredicateExpr)
| PredOr (l r : ScanPredicateExpr).

Fixpoint visit_columns {A} (visitor : string -> A -> A) (p : ScanPredicateExpr) (acc : A) : A :=
  match p with
  | PredLeaf p => visitor (ScanPredicate_column p) acc
  | PredAnd l r | PredOr l r => visit_columns visitor r (visit_columns visitor l acc)
  end.

(** ** Column names *)

Fixpoint trim_start (c : Ascii.ascii) (s : string) : string :=
  match s with
  | String d rest => if Ascii.eqb d c then trim_start c rest else s
  | EmptyString => EmptyString
  end.

(** [str::trim_matches(c)] *)
Definition trim_matches (c : Ascii.ascii) (s : string) : string :=
  String.rev (trim_start c (String.rev (trim_start c s))).

Fixpoint has_char (c : Ascii.ascii) (s : string) : bool :=
  match s with String d rest => Ascii.eqb d c || has_char c rest | EmptyString => false end.

(** [s.rsplit(c).next()], which always yields a piece. *)
Fixpoint last_segment (c : Ascii.ascii) (s : string) : string :=
  match s with
  | String d rest =>
      if has_char c rest then last_segment c rest else if Ascii.eqb d c then rest else s
  | EmptyString => EmptyString
  end.

Definition quote_char : Ascii.ascii := "034"%char.

Definition clean_column_name (column : string) : string :=
  trim_matches quote_char (last_segment "."%char (trim_matches quote_char column)).

Definition eq_ignore_ascii_case (a b : string) : bool := String.eqb (to_uppercase a) (to_uppercase b).

(** ** Resolved columns *)

Inductive ResolvedColumn :=
| RcInt64 (array : list (option Z))
| RcUInt64 (array : list (option Z))
| RcFloat64 (array : list (option Z))
| RcBool (array : list (option bool))
| RcString (array : list (option string))
| RcLargeString (array : list (option string))
| RcStringDictionary (keys : list (option Z)) (values : list (option string)).

(** The entry of a row, [None] when it is null. *)
Definition entry {A} (array : list (option A)) (row : nat) : option A := mjoin (array !! row).

(** [array.is_null(row)] *)
Definition null_at {A} (array : list (option A)) (row : nat) : bool :=
  match entry array row with Some _ => false | None => true end.

Definition rc_is_null (col : ResolvedColumn) (row : nat) : bool :=
  match col with
  | RcInt64 array | RcUInt64 array | RcFloat64 array => null_at array row
  | RcBool array => null_at array row
  | RcString array | RcLargeString array => null_at array row
  | RcStringDictionary keys _ => null_at keys row
  end.

Definition str_value (col : ResolvedColumn) (row : nat) : option string :=
  match col with
  | RcString array | RcLargeString array => entry array row
  | RcStringDictionary keys values => dictionary_cell values (entry keys row)
  | _ => None
  end.

(** [f64::fract() == 0.0] within the range of [i64]. *)
Definition comparison_i64 (v : ScanValue) : option Z :=
  match v with
  | SvInt v => Some v
  | SvUInt v => i64_try_from v
  | SvFloat b =>
      if f64_is_finite b && f64_integral b && f64_in_i64 b then Some (f64_to_i64 b) else None
  | _ => None
  end.

Definition is_some {A} (o : option A) : bool := match o with Some _ => true | None => false end.

Definition accepts_text (v : ScanValue) : bool := match v with SvString _ => true | _ => false end.
Definition accepts_bool (v : ScanValue) : bool := match v with SvBool _ => true | _ => false end.
Definition accepts_unsigned (v : ScanValue) : bool :=
  match v with SvUInt _ => true | SvInt v => 0 <=? v | _ => false end.

Definition accepts_comparison (col : ResolvedColumn) (v : ScanValue) : bool :=
  match col with
  | RcInt64 _ => is_some (comparison_i64 v)
  | RcUInt64 _ => accepts_unsigned v
  | RcFloat64 _ => match v with SvInt _ | SvFloat _ => true | _ => false end
  | RcBool _ => accepts_bool v
  | RcString _ | RcLargeString _ | RcStringDictionary _ _ => accepts_text v
  end.

Definition accepts_between (col : ResolvedColumn) (v : ScanValue) : bool :=
  match col with
  | RcInt64 _ =>
      match v with SvInt _ | SvFloat _ => true | SvUInt v => is_some (i64_try_from v) | _ => false end
  | RcUInt64 _ => accepts_unsigned v
  | RcFloat64 _ => match v with SvInt _ | SvFloat _ => true | _ => false end
  | RcBool _ => accepts_bool v
  | RcString _ | RcLargeString _ | RcStringDictionary _ _ => accepts_text v
  end.

Definition accepts_in (col : ResolvedColumn) (v : ScanValue) : bool :=
  match col with
  | RcInt64 _ => match v with SvInt _ => true | SvUInt v => is_some (i64_try_from v) | _ => false end
  | RcUInt64 _ => match v with SvUInt _ => true | _ => false end
  | RcFloat64 _ => match v with SvFloat _ => true | _ => false end
  | RcBool _ => accepts_bool v
  | RcString _ | RcLargeString _ | RcStringDictionary _ _ => accepts_text v
  end.

Definition compare_i64 (value : Z) (target : ScanValue) : option comparison :=
  match target with
  | SvInt t => Some (value ?= t)
  | SvUInt t => match i64_try_from t with Some t => Some (value ?= t) | None => Some Lt end
  | SvFloat b => f64_partial_cmp (f64_of_Z value) b
  | _ => None
  end.

Definition compare_u64 (value : Z) (target : ScanValue) : option comparison :=
  match target with
  | SvInt t => if t <? 0 then Some Gt else Some (value ?= t)
  | SvUInt t => Some (value ?= t)
  | SvFloat b => f64_partial_cmp (f64_of_Z value) b
  | _ => None
  end.

Definition compare_f64 (value : Z) (target : ScanValue) : option comparison :=
  match target with
  | SvInt t | SvUInt t => f64_partial_cmp value (f64_of_Z t)
  | SvFloat b => f64_partial_cmp value b
  | _ => None
  end.

Definition compare_text (value : string) (target : ScanValue) : option comparison :=
  match target with SvString t => Some (String.compare value t) | _ => None end.

Definition rc_compare (col : ResolvedColumn) (row : nat) (v : ScanValue) : option comparison :=
  match col with
  | RcInt64 array => x ← entry array row; compare_i64 x v
  | RcUInt64 array => x ← entry array row; compare_u64 x v
  | RcFloat64 array => x ← entry array row; compare_f64 x v
  | RcBool array => x ← entry array row; match v with SvBool b => Some (bool_cmp x b) | _ => None end
  | RcString array | RcLargeString array => x ← entry array row; compare_text x v
  | RcStringDictionary keys values => x ← dictionary_cell values (entry keys row); compare_text x v
  end.

Definition compare_scalar (col : ResolvedColumn) (row : nat) (v : ScanValue) : option comparison :=
  match col, v with
  | RcInt64 array, SvFloat _ => x ← entry array row; t ← comparison_i64 v; Some (x ?= t)
  | _, _ => rc_compare col row v
  end.

(** ** Specialised leaves *)

(** Magnitude below which integer-valued floats are exact integers. *)
Definition EXACT_INTEGER_MAGNITUDE : Z := 4845873199050653696.    (* 2^53 as f64 *)

Definition int_side (v : ScanValue) (inclusive : bool) : option (Z * bool) :=
  match v with
  | SvInt v => Some (v, inclusive)
  | SvUInt v => (fun v => (v, inclusive)) <$> i64_try_from v
  | SvFloat b =>
      if f64_is_finite b && f64_integral b && f64_lt (f64_abs b) EXACT_INTEGER_MAGNITUDE
      then Some (f64_to_i64 b, inclusive) else None
  | _ => None
  end.

Definition uint_side (v : ScanValue) (inclusive : bool) : option (Z * bool) :=
  match v with
  | SvUInt v => Some (v, inclusive)
  | SvInt v => if 0 <=? v then Some (v, inclusive) else None
  | _ => None
  end.

Definition float_side (v : ScanValue) (inclusive : bool) : option (Z * bool) :=
  match v with
  | SvInt v => Some (f64_of_Z v, inclusive)
  | SvFloat b => if f64_is_finite b then Some (b, inclusive) else None
  | _ => None
  end.

(** The sides of a range: lower, upper. *)
Definition Bounds : Type := option (Z * bool) * option (Z * bool).

Definition bounds_from_side (bound : Z) (op : ScanComparison) : Bounds :=
  match op with
  | CmpEq => (Some (bound, true), Some (bound, true))
  | CmpGt => (Some (bound, false), None)
  | CmpGe => (Some (bound, true), None)
  | CmpLt => (None, Some (bound, false))
  | CmpLe => (None, Some (bound, true))
  | CmpNotEq => (None, None)
  end.

(** [int_compare_bounds], [uint_compare_bounds] and [float_compare_bounds] have this body. *)
Definition compare_bounds (side : ScanValue -> bool -> option (Z * bool)) (op : ScanComparison)
    (v : ScanValue) : option Bounds :=
  if decide (op = CmpNotEq) then None
  else s ← side v true; Some (bounds_from_side s.1 op).

Definition int_compare_bounds := compare_bounds int_side.
Definition uint_compare_bounds := compare_bounds uint_side.
Definition float_compare_bounds := compare_bounds float_side.

(** The sides of a BETWEEN: [None] when a bound has no exact typed side. *)
Definition between_side (side : ScanValue -> bool -> option (Z * bool)) (bound : option ScanBound)
    : option (option (Z * bool)) :=
  match bound with
  | None => Some None
  | Some b => Some <$> side (sb_value b) (sb_inclusive b)
  end.

Inductive ResolvedPredicate :=
| RIntRange (array : list (option Z)) (bounds : Bounds)
| RUIntRange (array : list (option Z)) (bounds : Bounds)
| RFloatRange (array : list (option Z)) (bounds : Bounds)
| RStringEq (col : ResolvedColumn) (value : string)
| RDictEq (col : ResolvedColumn) (key : Z)
| RDictIn (col : ResolvedColumn) (keys : list Z)
| RCompare (col : ResolvedColumn) (op : ScanComparison) (value : ScanValue)
| RBetween (col : ResolvedColumn) (lower upper : option ScanBound)
| RIn (col : ResolvedColumn) (values : list ScanValue)
| RIsNull (col : ResolvedColumn) (negated : bool).

(** The first key whose value is the text. *)
Definition dict_key (values : list (option string)) (text : string) : option Z :=
  (fun e => Z.of_nat e.1) <$> list_find (fun s => s = Some text) values.

Definition dict_eq_or_string_eq (col : ResolvedColumn) (text : string) : ResolvedPredicate :=
  match col with
  | RcStringDictionary _ values =>
      match dict_key values text with
      | Some key => RDictEq col (wrap32 key)
      | None => RStringEq col text
      end
  | _ => RStringEq col text
  end.

(** [Vec::dedup] *)
Fixpoint dedup (l : list Z) : list Z :=
  match l with
  | x :: (y :: _) as t => if x =? y then dedup t else x :: dedup t
  | _ => l
  end.

Definition sort_dedup (l : list Z) : list Z := dedup (merge_sort Z.le l).

Definition scan_text (v : ScanValue) : option string := match v with SvString s => Some s | _ => None end.

Definition dict_keys (values : list (option string)) (texts : list string) : list Z :=
  sort_dedup (omap (fun text => wrap32 <$> dict_key values text) texts).

Definition between_leaf (col : ResolvedColumn) (lower upper : option ScanBound) : option ResolvedPredicate :=
  let accepts bound := match bound with Some b => accepts_between col (sb_value b) | None => true end in
  if accepts lower && accepts upper then Some (RBetween col lower upper) else None.

Definition range_or_between (side : ScanValue -> bool -> option (Z * bool))
    (range : Bounds -> ResolvedPredicate) (col : ResolvedColumn) (lower upper : option ScanBound)
    : option ResolvedPredicate :=
  match between_side side lower, between_side side upper with
  | Some lower, Some upper => Some (range (lower, upper))
  | _, _ => between_leaf col lower upper
  end.

(** The specialised leaf of a comparison, if the column has one for the literal. *)
Definition specialized_compare (col : ResolvedColumn) (op : ScanComparison) (v : ScanValue)
    : option ResolvedPredicate :=
  match col with
  | RcInt64 array => RIntRange array <$> int_compare_bounds op v
  | RcUInt64 array => RUIntRange array <$> uint_compare_bounds op v
  | RcFloat64 array => RFloatRange array <$> float_compare_bounds op v
  | RcStringDictionary _ _ =>
      if decide (op = CmpEq) then dict_eq_or_string_eq col <$> scan_text v else None
  | RcString _ | RcLargeString _ =>
      if decide (op = CmpEq) then RStringEq col <$> scan_text v else None
  | RcBool _ => None
  end.

(** [ResolvedPredicate::new] once the column is found. *)
Definition resolve_leaf (col : ResolvedColumn) (p : ScanPredicate) : option ResolvedPredicate :=
  match p with
  | PCompare _ op v =>
      match specialized_compare col op v with
      | Some leaf => Some leaf
      | None => if accepts_comparison col v then Some (RCompare col op v) else None
      end
  | PBetween _ lower upper =>
      match col with
      | RcInt64 array => range_or_between int_side (RIntRange array) col lower upper
      | RcUInt64 array => range_or_between uint_side (RUIntRange array) col lower upper
      | RcFloat64 array => range_or_between float_side (RFloatRange array) col lower upper
      | _ => between_leaf col lower upper
      end
  | PIn _ values =>
      match col, mapM scan_text values with
      | RcStringDictionary _ dict_values, Some texts => Some (RDictIn col (dict_keys dict_values texts))
      | _, _ => if forallb (accepts_in col) values then Some (RIn col values) else None
      end
  | PIsNull _ negated => Some (RIsNull col negated)
  end.

(** *** Matching a row *)

(** [lower.is_none_or(..) && upper.is_none_or(..)] with the order [lt]/[le]. *)
Definition within (lt le : Z -> Z -> bool) (bounds : Bounds) (value : Z) : bool :=
  match bounds.1 with
  | None => true
  | Some (bound, inclusive) => if inclusive : bool then le bound value else lt bound value
  end &&
  match bounds.2 with
  | None => true
  | Some (bound, inclusive) => if inclusive : bool then le value bound else lt value bound
  end.

Definition comparison_matches (ordering : comparison) (op : ScanComparison) : bool :=
  match op, ordering with
  | CmpEq, Eq | CmpLt, Lt | CmpGt, Gt => true
  | CmpNotEq, (Lt | Gt) | CmpLe, (Lt | Eq) | CmpGe, (Gt | Eq) => true
  | _, _ => false
  end.

Definition bound_above (ordering : option comparison) (inclusive : bool) : bool :=
  match ordering with Some Gt => true | Some Eq => inclusive | _ => false end.

Definition bound_below (ordering : option comparison) (inclusive : bool) : bool :=
  match ordering with Some Lt => true | Some Eq => inclusive | _ => false end.

(** A dictionary leaf on another column is [unreachable!()]. *)
Definition leaf_matches (leaf : ResolvedPredicate) (row : nat) : bool :=
  match leaf with
  | RIntRange array bounds | RUIntRange array bounds =>
      match entry array row with Some value => within Z.ltb Z.leb bounds value | None => false end
  | RFloatRange array bounds =>
      match entry array row with Some value => within f64_lt f64_le bounds value | None => false end
  | RStringEq col text => match str_value col row with Some s => String.eqb s text | None => false end
  | RDictEq (RcStringDictionary keys _) key =>
      match entry keys row with Some k => k =? key | None => false end
  | RDictEq _ _ => false
  | RDictIn (RcStringDictionary dict _) keys =>
      match entry dict row with
      | Some k => match binary_search keys k with inl _ => true | inr _ => false end
      | None => false
      end
  | RDictIn _ _ => false
  | RCompare col op v =>
      match compare_scalar col row v with Some o => comparison_matches o op | None => false end
  | RBetween col lower upper =>
      if rc_is_null col row then false
      else
        match lower with Some b => bound_above (rc_compare col row (sb_value b)) (sb_inclusive b) | None => true end &&
        match upper with Some b => bound_below (rc_compare col row (sb_value b)) (sb_inclusive b) | None => true end
  | RIn col values =>
      negb (rc_is_null col row) &&
      existsb (fun v => match rc_compare col row v with Some Eq => true | _ => false end) values
  | RIsNull col negated => xorb (rc_is_null col row) negated
  end.

(** ** Morsels *)

Inductive SelectionVector := SelAll (len : nat) | SelIndices (indices : list Z).

Definition SelectionVector_len (s : SelectionVector) : nat :=
  match s with SelAll len => len | SelIndices indices => length indices end.

(** [None] where the source indexes out of bounds. *)
Definition SelectionVector_row (s : SelectionVector) (position : nat) : option Z :=
  match s with SelAll _ => Some (Z.of_nat position) | SelIndices indices => indices !! position end.

Fixpoint flatten_conjunctions (p : ScanPredicateExpr) (leaves : list ScanPredicate)
    : bool * list ScanPredicate :=
  match p with
  | PredLeaf p => (true, leaves ++ [p])
  | PredAnd l r =>
      let '(pure, leaves) := flatten_conjunctions l leaves in
      if pure : bool then flatten_conjunctions r leaves else (false, leaves)
  | PredOr _ _ => (false, leaves)
  end.

Inductive ResolvedPredicateExpr :=
| RPredicate (leaf : ResolvedPredicate)
| RAnd (l r : ResolvedPredicateExpr)
| ROr (l r : ResolvedPredicateExpr).

Fixpoint resolved_matches (p : ResolvedPredicateExpr) (row : nat) : bool :=
  match p with
  | RPredicate leaf => leaf_matches leaf row
  | RAnd l r => resolved_matches l row && resolved_matches r row
  | ROr l r => resolved_matches l row || resolved_matches r row
  end.

(** Outcome of pulling one morsel from a stream. *)
Inductive BatchMorselOutcome (M : Type) := OutMorsel (m : M) | OutUnsupported.
Arguments OutMorsel {M} m.
Arguments OutUnsupported {M}.

Section morsel.
Context {O : Type} (as_large_utf8 : O -> option (list (option string))).
Context (take_array : ArrayRef O -> list Z -> Result (ArrayRef O)).
Context (try_new : list Field -> list (ArrayRef O) -> Result (RecordBatch O)).

Abbreviation ColumnView := (Field * ArrayRef O)%type.

Record Morsel := mkMorsel {
  m_row_offset : Z;
  m_row_count : nat;
  m_columns : list ColumnView;
  m_selection : SelectionVector
}.

Definition from_batch (batch : RecordBatch O) (row_offset : Z) : Morsel :=
  mkMorsel row_offset (rb_num_rows batch) (zip (rb_fields batch) (rb_columns batch))
    (SelAll (rb_num_rows batch)).

(** [Morsel::column_by_name] *)
Definition column_by_name (m : Morsel) (name : string) : option (ArrayRef O) :=
  (fun e => e.2.2) <$> list_find (fun c : ColumnView => f_name c.1 = name) (m_columns m).

Definition ResolvedColumn_new (array : ArrayRef O) : option ResolvedColumn :=
  match array with
  | ArrInt64 l => Some (RcInt64 l)
  | ArrUInt64 l => Some (RcUInt64 l)
  | ArrFloat64 l => Some (RcFloat64 l)
  | ArrBoolean l => Some (RcBool l)
  | ArrUtf8 l => Some (RcString l)
  | ArrDictionary keys values => Some (RcStringDictionary keys values)
  | ArrOther o => RcLargeString <$> as_large_utf8 o
  end.

(** The first column of the name, letter case ignored. *)
Definition find_column (columns : list ColumnView) (column : string) : option (ArrayRef O) :=
  (fun e => e.2.2) <$>
    list_find (fun c : ColumnView => eq_ignore_ascii_case (f_name c.1) (clean_column_name column) = true) columns.

Definition ResolvedPredicate_new (p : ScanPredicate) (columns : list ColumnView) : option ResolvedPredicate :=
  array ← find_column columns (ScanPredicate_column p);
  col ← ResolvedColumn_new array;
  resolve_leaf col p.

Fixpoint ResolvedPredicateExpr_new (p : ScanPredicateExpr) (columns : list ColumnView)
    : option ResolvedPredicateExpr :=
  match p with
  | PredLeaf p => RPredicate <$> ResolvedPredicate_new p columns
  | PredAnd l r =>
      l ← ResolvedPredicateExpr_new l columns; r ← ResolvedPredicateExpr_new r columns; Some (RAnd l r)
  | PredOr l r =>
      l ← ResolvedPredicateExpr_new l columns; r ← ResolvedPredicateExpr_new r columns; Some (ROr l r)
  end.

(** The rows that pass [keep], as [u32] indices. *)
Definition selected_rows (n : nat) (keep : nat -> bool) : list Z :=
  (fun row => wrap32 (Z.of_nat row)) <$> List.filter keep (seq 0 n).

(** [None] hands the request to the general evaluator. *)
Definition select (m : Morsel) (predicate : option ScanPredicateExpr) : option Morsel :=
  match predicate with
  | None => Some m
  | Some p =>
      let n := m_row_count m in
      if (n =? 0)%nat then Some m
      else
        let '(pure, conjuncts) := flatten_conjunctions p [] in
        indices ← (if pure : bool then
            leaves ← mapM (fun leaf => ResolvedPredicate_new leaf (m_columns m)) conjuncts;
            Some (selected_rows n (fun row => forallb (fun leaf => leaf_matches leaf row) leaves))
          else
            resolved ← ResolvedPredicateExpr_new p (m_columns m);
            Some (selected_rows n (resolved_matches resolved)));
        let selection := if (length indices =? n)%nat then SelAll n else SelIndices indices in
        Some (mkMorsel (m_row_offset m) n (m_columns m) selection)
  end.

(** [collect::<io::Result<Vec<_>>>] *)
Fixpoint collect_results {A} (l : list (Result A)) : Result (list A) :=
  match l with
  | [] => Ok []
  | r :: l => result_bind r (fun a => result_bind (collect_results l) (fun l => Ok (a :: l)))
  end.

Definition into_record_batch (m : Morsel) : Result (RecordBatch O) :=
  let arrays :=
    match m_selection m with
    | SelAll _ => Ok (m_columns m).*2
    | SelIndices indices =>
        collect_results ((fun column => invalid_data (take_array column indices)) <$> (m_columns m).*2)
    end in
  result_bind arrays (fun arrays => invalid_data (try_new (m_columns m).*1 arrays)).

(** *** The stream of morsels *)

Record BatchMorselStream := mkStream {
  bs_inner : list (Result (RecordBatch O));
  bs_predicate : option ScanPredicateExpr;
  bs_row_offset : Z
}.

Definition BatchMorselStream_new inner predicate : BatchMorselStream := mkStream inner predicate 0.

Definition stream_next (s : BatchMorselStream) : option (Result (BatchMorselOutcome Morsel)) * BatchMorselStream :=
  match bs_inner s with
  | [] => (None, s)
  | Err e :: rest => (Some (Err e), mkStream rest (bs_predicate s) (bs_row_offset s))
  | Ok batch :: rest =>
      let offset := bs_row_offset s in
      let s := mkStream rest (bs_predicate s) (saturating_add64 offset (Z.of_nat (rb_num_rows batch))) in
      match select (from_batch batch offset) (bs_predicate s) with
      | Some m => (Some (Ok (OutMorsel m)), s)
      | None => (Some (Ok OutUnsupported), s)
      end
  end.

(** Draining the stream; [fuel] bounds the number of batches. *)
Fixpoint drain (fuel : nat) (s : BatchMorselStream) : list (Result (BatchMorselOutcome Morsel)) :=
  match fuel with
  | 0%nat => []
  | S fuel => match stream_next s with (Some out, s) => out :: drain fuel s | (None, _) => [] end
  end.

Definition stream_items (s : BatchMorselStream) : list (Result (BatchMorselOutcome Morsel)) :=
  drain (length (bs_inner s)) s.
End morsel.
Arguments mkMorsel {O}.
Arguments m_row_offset {O}.
Arguments m_row_count {O}.
Arguments m_columns {O}.
Arguments m_selection {O}.
Arguments mkStream {O}.
Arguments bs_inner {O}.
Arguments bs_predicate {O}.
Arguments bs_row_offset {O}.

(** ** Reference semantics

    A predicate on the cells of a row: numbers compare as numbers (an integer with a float
    column as the column's type), text by bytes; a null cell satisfies [IS NULL] only. *)

Section reference.
Context {C : Type}.

Definition cell_cmp (c : Cell C) (v : ScanValue) : option comparison :=
  match c, v with
  | CellInt x, (SvInt y | SvUInt y) | CellUInt x, (SvInt y | SvUInt y) => Some (x ?= y)
  | CellInt x, SvFloat b | CellUInt x, SvFloat b => Z_cmp_f64 x b
  | CellFloat a, (SvInt y | SvUInt y) => f64_partial_cmp a (f64_of_Z y)
  | CellFloat a, SvFloat b => f64_partial_cmp a b
  | CellStr s, SvString t => Some (String.compare s t)
  | CellBool a, SvBool b => Some (bool_cmp a b)
  | _, _ => None
  end.

Definition leaf_holds (cell : option (Cell C)) (p : ScanPredicate) : bool :=
  match cell, p with
  | None, PIsNull _ negated => negb negated
  | Some _, PIsNull _ negated => negated
  | None, _ => false
  | Some c, PCompare _ op v =>
      match cell_cmp c v with Some o => comparison_matches o op | None => false end
  | Some c, PBetween _ lower upper =>
      match lower with Some b => bound_above (cell_cmp c (sb_value b)) (sb_inclusive b) | None => true end &&
      match upper with Some b => bound_below (cell_cmp c (sb_value b)) (sb_inclusive b) | None => true end
  | Some c, PIn _ values =>
      existsb (fun v => match cell_cmp c v with Some Eq => true | _ => false end) values
  end.

Fixpoint expr_holds (row : string -> option (Cell C)) (p : ScanPredicateExpr) : bool :=
  match p with
  | PredLeaf p => leaf_holds (row (ScanPredicate_column p)) p
  | PredAnd l r => expr_holds row l && expr_holds row r
  | PredOr l r => expr_holds row l || expr_holds row r
  end.

(** The cell of a resolved column. *)
Definition rc_cell (col : ResolvedColumn) (row : nat) : option (Cell C) :=
  match col with
  | RcInt64 array => CellInt <$> entry array row
  | RcUInt64 array => CellUInt <$> entry array row
  | RcFloat64 array => CellFloat <$> entry array row
  | RcBool array => CellBool <$> entry array row
  | RcString array | RcLargeString array => CellStr <$> entry array row
  | RcStringDictionary keys values => CellStr <$> dictionary_cell values (entry keys row)
  end.

(** What Arrow's arrays guarantee: integers of their width, and dictionary keys within the
    values.  The values of a dictionary may repeat or be null. *)
Definition i64 (x : Z) : Prop := - F64_SIGN <= x < F64_SIGN.

Definition dictionary_wf (keys : list (option Z)) (values : list (option string)) : Prop :=
  Forall (fun k => match k with Some k => 0 <= k < Z.of_nat (length values) | None => True end) keys /\
  Z.of_nat (length values) <= 2 ^ 32.

Definition rc_wf (col : ResolvedColumn) : Prop :=
  match col with
  | RcInt64 array => Forall (fun x => match x with Some x => i64 x | None => True end) array
  | RcUInt64 array => Forall (fun x => match x with Some x => u64 x | None => True end) array
  | RcStringDictionary keys values => dictionary_wf keys values
  | _ => True
  end.

(** A float bound of [BETWEEN] on an integer column lies below 2^53 in magnitude. *)
Definition literal_exact (col : ResolvedColumn) (v : ScanValue) : Prop :=
  match col, v with
  | (RcInt64 _ | RcUInt64 _), SvFloat b => f64_is_finite b = true -> f64_exact_int b = true
  | _, _ => True
  end.

Definition bound_exact (col : ResolvedColumn) (bound : option ScanBound) : Prop :=
  match bound with Some b => literal_exact col (sb_value b) | None => True end.

(** No two keys of a dictionary have the same text. *)
Definition distinct_texts (values : list (option string)) : Prop :=
  forall i j text, values !! i = Some (Some text) -> values !! j = Some (Some text) -> i = j.

Definition dictionary_distinct (col : ResolvedColumn) : Prop :=
  match col with RcStringDictionary _ values => distinct_texts values | _ => True end.

(** No key of a dictionary stands for a null. *)
Definition dictionary_null_free (col : ResolvedColumn) : Prop :=
  match col with RcStringDictionary _ values => Forall (fun s => s <> None) values | _ => True end.

(** What a leaf asks of its column: equality and IN look for the first key of a text, the
    null tests look at the keys alone. *)
Definition leaf_exact (col : ResolvedColumn) (p : ScanPredicate) : Prop :=
  match p with
  | PBetween _ lower upper => bound_exact col lower /\ bound_exact col upper /\ dictionary_null_free col
  | PCompare _ CmpEq _ | PIn _ _ => dictionary_distinct col
  | PIsNull _ _ => dictionary_null_free col
  | _ => True
  end.
End reference.

(** ** Leaves implement the reference *)

(** An order given by its strict and weak tests, as the range leaves use it. *)
Class LeafOrder (cmp : Z -> Z -> option comparison) (lt le : Z -> Z -> bool) : Prop := {
  lt_above a b : lt a b = bound_above (cmp b a) false;
  le_above a b : le a b = bound_above (cmp b a) true;
  lt_below a b : lt a b = bound_below (cmp a b) false;
  le_below a b : le a b = bound_below (cmp a b) true
}.

#[global] Instance int_leaf_order : LeafOrder (fun a b => Some (a ?= b)) Z.ltb Z.leb.
Proof.
  split; intros a b; unfold Z.ltb, Z.leb; rewrite ?(Z.compare_antisym a b); by destruct (a ?= b).
Qed.

#[global] Instance float_leaf_order : LeafOrder f64_partial_cmp f64_lt f64_le.
Proof.
  split; intros a b; unfold f64_lt, f64_le; rewrite ?(f64_partial_cmp_sym a b);
    by destruct (f64_partial_cmp a b) as [[]|].
Qed.

Section leaves.
Context `{Hord : LeafOrder cmp slt sle}.

Definition above_holds (x : Z) (bound : option (Z * bool)) : bool :=
  match bound with Some (t, inclusive) => bound_above (cmp x t) inclusive | None => true end.
Definition below_holds (x : Z) (bound : option (Z * bool)) : bool :=
  match bound with Some (t, inclusive) => bound_below (cmp x t) inclusive | None => true end.

Lemma within_spec bounds x : within slt sle bounds x = above_holds x bounds.1 && below_holds x bounds.2.
Proof using Hord.
  destruct bounds as [[[t i]|] [[t' i']|]]; unfold within, above_holds, below_holds; simpl; f_equal;
    try (destruct i; [apply le_above|apply lt_above]); destruct i'; [apply le_below|apply lt_below|apply le_below|apply lt_below].
Qed.

Lemma within_compare t op x :
  op <> CmpNotEq ->
  within slt sle (bounds_from_side t op) x =
    match cmp x t with Some o => comparison_matches o op | None => false end.
Proof using Hord.
  intros Hop. rewrite within_spec. unfold above_holds, below_holds.
  by destruct op; try done; simpl; destruct (cmp x t) as [[]|].
Qed.
End leaves.

(** A side stands for its literal: comparing with it is comparing with the literal. *)
Definition side_for {C} (mk : Z -> Cell C) (cmp : Z -> Z -> option comparison) (P : Z -> Prop)
    (side : ScanValue -> bool -> option (Z * bool)) : Prop :=
  forall v inclusive t i, side v inclusive = Some (t, i) ->
    i = inclusive /\ forall x, P x -> cell_cmp (mk x) v = cmp x t.

Section sides.
Context {C : Type}.

Lemma int_side_for : side_for (C := C) CellInt (fun a b => Some (a ?= b)) i64 int_side.
Proof.
  intros v inclusive t i. destruct v as [v|v|b|s|b]; simpl; try done.
  - by intros [= <- <-].
  - destruct (i64_try_from v) as [w|] eqn:Hw; [|done]. intros [= <- <-].
    unfold i64_try_from in Hw. case_match; [|done]. by injection Hw as <-.
  - destruct (_ && _) eqn:Hc; [|done]. intros [= <- <-].
    apply andb_true_iff in Hc as [[Hfin Hint]%andb_true_iff Hex]. split; [done|]. intros x _.
    apply Z_cmp_integral; [done..|]. by apply f64_exact_in_i64.
Qed.

Lemma uint_side_for : side_for (C := C) CellUInt (fun a b => Some (a ?= b)) u64 uint_side.
Proof.
  intros v inclusive t i. destruct v as [v|v|b|s|b]; simpl; try done; [|by intros [= <- <-]].
  case_match; [|done]. by intros [= <- <-].
Qed.

Lemma float_side_for : side_for (C := C) CellFloat f64_partial_cmp (fun _ => True) float_side.
Proof.
  intros v inclusive t i. destruct v as [v|v|b|s|b]; simpl; try done; [by intros [= <- <-]|].
  case_match; [|done]. by intros [= <- <-].
Qed.
End sides.

Section compare.
Context {C : Type}.
Implicit Types (col : ResolvedColumn) (v : ScanValue) (row : nat).

Abbreviation cell_of := (rc_cell (C := C)).

Lemma entry_wf {A} (P : A -> Prop) (array : list (option A)) row x :
  Forall (fun o => match o with Some x => P x | None => True end) array -> entry array row = Some x -> P x.
Proof.
  unfold entry. intros Hwf Hx. destruct (array !! row) as [o|] eqn:Ho; [|done]. simpl in Hx. subst o.
  exact (Forall_lookup_1 _ _ _ _ Hwf Ho).
Qed.

Lemma compare_i64_spec x v :
  i64 x -> literal_exact (RcInt64 []) v -> compare_i64 x v = cell_cmp (C := C) (CellInt x) v.
Proof.
  unfold i64, F64_SIGN. intros Hx Hv. destruct v as [v|v|b|s|b]; try done; simpl in *.
  - unfold i64_try_from, I64_MAX. destruct (v <=? _) eqn:Hle; [done|]. zb. f_equal.
    symmetry. apply Z.compare_lt_iff. lia.
  - apply int_as_f64_cmp_any; [lia|]. intros Hfin. by apply f64_exact_scale, Hv.
Qed.

Lemma compare_u64_spec x v :
  u64 x -> literal_exact (RcUInt64 []) v -> compare_u64 x v = cell_cmp (C := C) (CellUInt x) v.
Proof.
  unfold u64, U64_MAX. intros Hx Hv. destruct v as [v|v|b|s|b]; try done; simpl in *.
  - destruct (v <? 0) eqn:Hlt; [|done]. zb. f_equal. symmetry. apply Z.compare_gt_iff. lia.
  - apply int_as_f64_cmp_any; [lia|]. intros Hfin. by apply f64_exact_scale, Hv.
Qed.

Lemma rc_compare_spec col row v :
  rc_wf col -> literal_exact col v -> rc_compare col row v = c ← cell_of col row; cell_cmp c v.
Proof.
  intros Hwf Hv. destruct col as [l|l|l|l|l|l|keys values]; simpl in *.
  - destruct (entry l row) as [x|] eqn:Hx; [|done]. simpl. apply compare_i64_spec; [|done].
    by eapply (entry_wf _ _ _ _ Hwf).
  - destruct (entry l row) as [x|] eqn:Hx; [|done]. simpl. apply compare_u64_spec; [|done].
    by eapply (entry_wf _ _ _ _ Hwf).
  - destruct (entry l row); simpl; [by destruct v|done].
  - destruct (entry l row); simpl; [by destruct v|done].
  - destruct (entry l row); simpl; [by destruct v|done].
  - destruct (entry l row); simpl; [by destruct v|done].
  - destruct (dictionary_cell values (entry keys row)); simpl; [by destruct v|done].
Qed.

(** The literals that a comparison accepts are compared exactly. *)
Lemma compare_scalar_spec col row v :
  rc_wf col -> accepts_comparison col v = true ->
  compare_scalar col row v = c ← cell_of col row; cell_cmp c v.
Proof.
  intros Hwf Ha. destruct col as [l|l|l|l|l|l|keys values];
    try (apply rc_compare_spec; [done|]; by destruct v).
  destruct v as [v|v|b|s|b]; try (by apply rc_compare_spec). simpl in *.
  destruct (entry l row) as [x|]; [|done]. simpl. destruct (_ && _) eqn:Hc; [|done].
  apply andb_true_iff in Hc as [[Hfin Hint]%andb_true_iff Hin]. simpl. by rewrite Z_cmp_integral.
Qed.

Lemma rc_is_null_spec col row :
  rc_wf col -> dictionary_null_free col -> rc_is_null col row = match cell_of col row with Some _ => false | None => true end.
Proof.
  intros Hwf Hvals. destruct col as [l|l|l|l|l|l|keys values]; simpl in *; unfold null_at;
    try by destruct (entry l row).
  destruct (entry keys row) as [k|] eqn:Hk; [|done]. simpl. destruct Hwf as (Hkeys & _).
  apply (entry_wf (fun k => 0 <= k < Z.of_nat (length values))) in Hk; [|done].
  destruct (lookup_lt_is_Some_2 values (Z.to_nat k) ltac:(lia)) as [s Hs]. rewrite Hs.
  pose proof (Forall_lookup_1 _ _ _ _ Hvals Hs). by destruct s.
Qed.

(** A row with a cell is not null. *)
Lemma cell_not_null col row c : cell_of col row = Some c -> rc_is_null col row = false.
Proof.
  destruct col as [l|l|l|l|l|l|keys values]; simpl; unfold null_at; try by destruct (entry l row).
  by destruct (entry keys row).
Qed.

(** *** Dictionary leaves *)

Lemma dict_key_spec values text :
  match dict_key values text with
  | Some key => 0 <= key < Z.of_nat (length values) /\ values !! Z.to_nat key = Some (Some text)
  | None => Some text ∉ values
  end.
Proof.
  unfold dict_key. destruct (list_find _ values) as [[i s]|] eqn:Hf; simpl.
  - apply list_find_Some in Hf as (Hi & -> & _). apply lookup_lt_Some in Hi as Hlt.
    rewrite Nat2Z.id. split; [lia|done].
  - apply list_find_None in Hf. intros Hin. rewrite Forall_forall in Hf. by apply (Hf _ Hin).
Qed.

(** A row holds the text exactly when its key is the text's. *)
Lemma dict_row_key keys values row k text :
  dictionary_wf keys values -> distinct_texts values -> entry keys row = Some k ->
  dictionary_cell values (Some k) = Some text <-> wrap32 <$> dict_key values text = Some k.
Proof.
  intros Hwf Hnd Hk. pose proof Hwf as (Hkeys & Hlen).
  apply (entry_wf (fun k => 0 <= k < Z.of_nat (length values))) in Hk; [|done].
  pose proof (dict_key_spec values text) as Hd. simpl.
  destruct (lookup_lt_is_Some_2 values (Z.to_nat k) ltac:(lia)) as [s Hs]. rewrite Hs.
  destruct (dict_key values text) as [key|]; simpl.
  - destruct Hd as [Hr Hkey]. unfold wrap32. rewrite Z.mod_small by lia. split.
    + intros ->. assert (Z.to_nat key = Z.to_nat k) by by eapply Hnd. f_equal. lia.
    + intros [= ->]. congruence.
  - split; [|done]. intros ->. destruct Hd. by eapply list_elem_of_lookup_2.
Qed.
End compare.

(** *** Sorted keys *)

Lemma dedup_spec l : Sorted Z.le l -> StronglySorted Z.lt (dedup l) /\ forall x, x ∈ dedup l <-> x ∈ l.
Proof.
  intros Hs. apply Sorted_StronglySorted in Hs; [|intros a b c; lia]. induction Hs as [|x l Hs IH Hx].
  { split; [constructor|done]. }
  destruct l as [|y l]; [split; [repeat constructor|done]|]. destruct IH as [IHs IHe].
  change (dedup (x :: y :: l)) with (if x =? y then dedup (y :: l) else x :: dedup (y :: l)).
  destruct (Z.eqb_spec x y) as [->|Hne].
  - split; [done|]. intros z. rewrite IHe, (elem_of_cons (y :: l)). set_solver.
  - split; [constructor; [done|]|].
    + apply Forall_forall. intros z Hz. apply IHe in Hz. rewrite Forall_forall in Hx. apply StronglySorted_inv in Hs as [_ Hy].
      rewrite Forall_forall in Hy. pose proof (Hx y ltac:(set_solver)).
      apply elem_of_cons in Hz as [->|Hz]; [lia|]. pose proof (Hy z Hz). lia.
    + intros z. rewrite !elem_of_cons in *. rewrite IHe. set_solver.
Qed.

Lemma sort_dedup_spec l : StronglySorted Z.lt (sort_dedup l) /\ forall x, x ∈ sort_dedup l <-> x ∈ l.
Proof.
  unfold sort_dedup. destruct (dedup_spec (merge_sort Z.le l)) as [Hs He].
  - apply Sorted_merge_sort. intros a b. lia.
  - split; [done|]. intros x. by rewrite He, merge_sort_Permutation.
Qed.

Lemma binary_search_bool l x :
  StronglySorted Z.lt l ->
  match binary_search l x with inl _ => true | inr _ => false end = bool_decide (x ∈ l).
Proof.
  intros Hs. pose proof (binary_search_elem l x Hs). destruct (binary_search l x);
    [by rewrite bool_decide_eq_true_2|by rewrite bool_decide_eq_false_2].
Qed.

Section resolve.
Context {C : Type}.
Implicit Types (col : ResolvedColumn) (row : nat).

Abbreviation cell_of := (rc_cell (C := C)).

(** A leaf is the predicate on the row's cell. *)
Definition implements_leaf col (leaf : ResolvedPredicate) (p : ScanPredicate) : Prop :=
  forall row, leaf_matches leaf row = leaf_holds (cell_of col row) p.

Lemma range_leaf_compare {mk : Z -> Cell C} `{Hord : LeafOrder cmp slt sle} {P : Z -> Prop} side array column op v b row :
  side_for mk cmp P side -> Forall (fun o => match o with Some x => P x | None => True end) array ->
  compare_bounds side op v = Some b ->
  match entry array row with Some x => within slt sle b x | None => false end =
    leaf_holds (mk <$> entry array row) (PCompare column op v).
Proof.
  intros Hside Hwf. unfold compare_bounds. destruct (decide _) as [|Hop]; [done|].
  destruct (side v true) as [[t i]|] eqn:Ht; [|done]. simpl. intros [= <-].
  destruct (Hside _ _ _ _ Ht) as [_ Hcmp]. destruct (entry array row) as [x|] eqn:Hx; [|done]. simpl.
  rewrite (within_compare (cmp := cmp)) by done. by rewrite Hcmp by by eapply (entry_wf _ _ _ _ Hwf).
Qed.

Lemma range_leaf_between {mk : Z -> Cell C} `{Hord : LeafOrder cmp slt sle} {P : Z -> Prop} side array column
    lower upper bl bu row :
  side_for mk cmp P side -> Forall (fun o => match o with Some x => P x | None => True end) array ->
  between_side side lower = Some bl -> between_side side upper = Some bu ->
  match entry array row with Some x => within slt sle (bl, bu) x | None => false end =
    leaf_holds (mk <$> entry array row) (PBetween column lower upper).
Proof.
  intros Hside Hwf Hl Hu. destruct (entry array row) as [x|] eqn:Hx; [|done]. simpl.
  apply (entry_wf _ _ _ _ Hwf) in Hx. rewrite (within_spec (cmp := cmp)). simpl. f_equal.
  - destruct lower as [[v i]|]; simpl in Hl; [|by injection Hl as <-].
    destruct (side v i) as [[t i']|] eqn:Ht; [|done]. injection Hl as <-.
    destruct (Hside _ _ _ _ Ht) as [-> Hcmp]. simpl. by rewrite Hcmp.
  - destruct upper as [[v i]|]; simpl in Hu; [|by injection Hu as <-].
    destruct (side v i) as [[t i']|] eqn:Ht; [|done]. injection Hu as <-.
    destruct (Hside _ _ _ _ Ht) as [-> Hcmp]. simpl. by rewrite Hcmp.
Qed.

Lemma between_leaf_spec col column lower upper leaf :
  rc_wf col -> leaf_exact col (PBetween column lower upper) ->
  between_leaf col lower upper = Some leaf -> implements_leaf col leaf (PBetween column lower upper).
Proof.
  intros Hwf (Hl & Hu & Hnf). unfold between_leaf. destruct (_ && _) eqn:Ha; [|done]. intros [= <-] row. simpl.
  rewrite (rc_is_null_spec (C := C)) by done. destruct (cell_of col row) as [c|] eqn:Hc; [|done].
  destruct lower as [[v i]|], upper as [[w j]|]; simpl in *;
    rewrite ?(rc_compare_spec (C := C)), ?Hc by done; done.
Qed.

Lemma string_compare_eq s t : String.compare s t = Eq <-> s = t.
Proof.
  split; [apply String.compare_eq_iff|intros <-].
  pose proof (String.compare_antisym s s). by destruct (String.compare s s).
Qed.

(** Equality with a text literal, on a string cell. *)
Lemma text_cell_eq o text column :
  leaf_holds (CellStr (C := C) <$> o) (PCompare column CmpEq (SvString text)) = bool_decide (o = Some text).
Proof.
  destruct o as [s|]; [simpl|by rewrite bool_decide_eq_false_2]. pose proof (string_compare_eq s text) as Hc.
  destruct (String.compare s text); simpl; symmetry;
    [apply bool_decide_eq_true_2; f_equal; tauto| |]; apply bool_decide_eq_false_2; intros [= ->]; destruct Hc as [_ Hc]; by specialize (Hc eq_refl).
Qed.

Lemma string_leaf_spec col text column :
  (forall row, cell_of col row = CellStr <$> str_value col row) ->
  implements_leaf col (RStringEq col text) (PCompare column CmpEq (SvString text)).
Proof.
  intros Hs row. rewrite Hs, text_cell_eq. simpl. destruct (str_value col row) as [s|];
    [|by rewrite bool_decide_eq_false_2]. destruct (String.eqb_spec s text) as [->|Hne];
    [by rewrite bool_decide_eq_true_2|rewrite bool_decide_eq_false_2; congruence].
Qed.

Lemma dict_leaf_spec keys values text column :
  dictionary_wf keys values -> distinct_texts values ->
  implements_leaf (RcStringDictionary keys values) (dict_eq_or_string_eq (RcStringDictionary keys values) text)
    (PCompare column CmpEq (SvString text)).
Proof.
  intros Hwf Hnd. unfold dict_eq_or_string_eq. destruct (dict_key values text) as [key|] eqn:Hk;
    [|by apply string_leaf_spec].
  intros row. simpl (cell_of _ _). rewrite text_cell_eq. simpl.
  destruct (entry keys row) as [k|] eqn:He; [|by rewrite bool_decide_eq_false_2].
  rewrite (bool_decide_ext _ _ (dict_row_key keys values row k text Hwf Hnd He)), Hk. simpl.
  destruct (Z.eqb_spec k (wrap32 key)) as [->|Hne];
    [by rewrite bool_decide_eq_true_2|rewrite bool_decide_eq_false_2; congruence].
Qed.

Lemma mapM_scan_text values texts : mapM scan_text values = Some texts -> values = SvString <$> texts.
Proof.
  revert texts. induction values as [|v values IH]; intros texts; simpl; [by intros [= <-]|].
  destruct v; try done. simpl. destruct (mapM scan_text values) as [ts|]; [|done]. simpl. intros [= <-].
  simpl. f_equal. by apply IH.
Qed.

Lemma dict_in_spec keys values texts column :
  dictionary_wf keys values -> distinct_texts values ->
  implements_leaf (RcStringDictionary keys values)
    (RDictIn (RcStringDictionary keys values) (dict_keys values texts)) (PIn column (SvString <$> texts)).
Proof.
  intros Hwf Hnd row. simpl. destruct (entry keys row) as [k|] eqn:He; [|done].
  destruct (sort_dedup_spec (omap (fun text => wrap32 <$> dict_key values text) texts)) as [Hs Hin].
  rewrite binary_search_bool by done.
  assert (Hiff : k ∈ dict_keys values texts <-> exists text, text ∈ texts /\ dictionary_cell values (Some k) = Some text).
  { unfold dict_keys. rewrite Hin, list_elem_of_omap. split.
    - intros (text & Ht & Hkey). exists text. split; [done|]. by apply (dict_row_key keys values row k text Hwf Hnd He).
    - intros (text & Ht & Hc). exists text. split; [done|]. by apply (dict_row_key keys values row k text Hwf Hnd He) in Hc. }
  apply eq_bool_prop_intro. rewrite bool_decide_spec, Hiff. clear Hiff Hin Hs.
  change (match values !! Z.to_nat k with Some s => s | None => None end) with (dictionary_cell values (Some k)).
  destruct (dictionary_cell values (Some k)) as [s|]; simpl; [|naive_solver].
  rewrite existb_True, Exists_exists. split.
  - intros (text & Ht & [= ->]). exists (SvString text). split; [by apply list_elem_of_fmap_2|].
    simpl. by rewrite (proj2 (string_compare_eq text text)).
  - intros (v & Hv & Heq). apply list_elem_of_fmap in Hv as (text & -> & Ht). exists text. split; [done|].
    simpl in Heq. destruct (String.compare s text) eqn:Hc; try done. by apply string_compare_eq in Hc as ->.
Qed.
Lemma range_or_between_spec {mk : Z -> Cell C} `{Hord : LeafOrder cmp slt sle} {P : Z -> Prop} side range col array column
    lower upper leaf :
  rc_wf col -> leaf_exact col (PBetween column lower upper) ->
  side_for mk cmp P side -> Forall (fun o => match o with Some x => P x | None => True end) array ->
  (forall row, cell_of col row = mk <$> entry array row) ->
  (forall bounds row, leaf_matches (range bounds) row =
    match entry array row with Some x => within slt sle bounds x | None => false end) ->
  range_or_between side range col lower upper = Some leaf -> implements_leaf col leaf (PBetween column lower upper).
Proof.
  intros Hwf Hex Hside Harr Hcell Hrange. unfold range_or_between.
  destruct (between_side side lower) as [bl|] eqn:Hl; [|by apply between_leaf_spec].
  destruct (between_side side upper) as [bu|] eqn:Hu; [|by apply between_leaf_spec].
  intros [= <-] row. rewrite Hrange, Hcell. by eapply range_leaf_between.
Qed.

Lemma compare_leaf_spec col column op v :
  rc_wf col -> accepts_comparison col v = true -> implements_leaf col (RCompare col op v) (PCompare column op v).
Proof.
  intros Hwf Ha row. simpl. rewrite (compare_scalar_spec (C := C)) by done. by destruct (cell_of col row).
Qed.

Lemma in_leaf_spec col column values :
  rc_wf col -> forallb (accepts_in col) values = true -> implements_leaf col (RIn col values) (PIn column values).
Proof.
  intros Hwf Ha row. simpl.
  assert (Hc : forall v, In v values -> rc_compare col row v = c ← cell_of col row; cell_cmp c v).
  { intros v Hv. rewrite forallb_forall in Ha. specialize (Ha v Hv). apply rc_compare_spec; [done|].
    by destruct col, v. }
  assert (Hnull : cell_of col row = None -> forallb (fun v => bool_decide (rc_compare col row v = None)) values = true).
  { intros Hn. apply forallb_forall. intros v Hv. apply bool_decide_eq_true_2. by rewrite Hc, Hn. }
  clear Ha. destruct (cell_of col row) as [c|] eqn:Hcell; [simpl|].
  2: { specialize (Hnull eq_refl). apply andb_false_iff. right. clear -Hnull.
       induction values as [|v values IH]; [done|]. simpl in *. apply andb_true_iff in Hnull as [Hv Hn].
       apply bool_decide_eq_true in Hv. rewrite Hv. by apply IH. }
  rewrite (cell_not_null _ _ _ Hcell). clear Hnull Hcell. simpl. induction values as [|v values IH]; [done|]. simpl. rewrite Hc by by left. simpl.
  f_equal. apply IH. intros w Hw. apply Hc. by right.
Qed.

Lemma specialized_spec col column op v leaf :
  rc_wf col -> leaf_exact col (PCompare column op v) -> specialized_compare col op v = Some leaf -> implements_leaf col leaf (PCompare column op v).
Proof.
  intros Hwf Hex. destruct col as [l|l|l|l|l|l|keys values]; simpl; try done.
  - intros (b & Hb & ->)%fmap_Some row. eapply range_leaf_compare; [apply int_side_for|done|exact Hb].
  - intros (b & Hb & ->)%fmap_Some row. eapply range_leaf_compare; [apply uint_side_for|done|exact Hb].
  - intros (b & Hb & ->)%fmap_Some row. eapply (range_leaf_compare (P := fun _ => True));
      [apply float_side_for|by apply Forall_forall; intros []|exact Hb].
  - case_decide; [subst op|done]. destruct v; try done. intros [= <-]. by apply string_leaf_spec.
  - case_decide; [subst op|done]. destruct v; try done. intros [= <-]. by apply string_leaf_spec.
  - case_decide; [subst op|done]. destruct v; try done. intros [= <-]. by apply dict_leaf_spec.
Qed.

(** Every leaf, specialised or generic, is the predicate. *)
Lemma resolve_leaf_spec col p leaf :
  rc_wf col -> leaf_exact col p -> resolve_leaf col p = Some leaf -> implements_leaf col leaf p.
Proof.
  intros Hwf Hex. destruct p as [column op v|column lower upper|column values|column negated].
  - simpl. destruct (specialized_compare col op v) as [l|] eqn:Hs; [intros [= <-]; by apply specialized_spec|].
    case_match; [|done]. intros [= <-]. by apply compare_leaf_spec.
  - destruct col as [l|l|l|l|l|l|keys values]; try by apply between_leaf_spec.
    + eapply (range_or_between_spec (cmp := fun a b => Some (a ?= b))); [done|done|apply int_side_for|done|done|done].
    + eapply (range_or_between_spec (cmp := fun a b => Some (a ?= b))); [done|done|apply uint_side_for|done|done|done].
    + eapply (range_or_between_spec (cmp := f64_partial_cmp) (P := fun _ => True)); [done|done|apply float_side_for| |done|done].
      by apply Forall_forall; intros [].
  - assert (Hgen : (if forallb (accepts_in col) values then Some (RIn col values) else None) = Some leaf ->
      implements_leaf col leaf (PIn column values)).
    { case_match; [|done]. intros [= <-]. by apply in_leaf_spec. }
    destruct col as [l|l|l|l|l|l|keys vals]; try exact Hgen. cbn [resolve_leaf].
    destruct (mapM scan_text values) as [texts|] eqn:Ht; [|exact Hgen]. intros [= <-].
    rewrite (mapM_scan_text _ _ Ht). by apply dict_in_spec.
  - intros [= <-] row. simpl. rewrite (rc_is_null_spec (C := C)) by done.
    destruct (cell_of col row); by destruct negated.
Qed.
End resolve.

(** ** Selection is the filter *)

Section selection.
Context {O C : Type} (as_large_utf8 : O -> option (list (option string))).
Implicit Types (columns : list (Field * ArrayRef O)) (p : ScanPredicateExpr).

Abbreviation new_column := (ResolvedColumn_new as_large_utf8).
Abbreviation new_leaf := (ResolvedPredicate_new as_large_utf8).

(** The cell that a name denotes in a row of the columns. *)
Definition row_of columns (row : nat) (column : string) : option (Cell C) :=
  col ← find_column columns column ≫= new_column; rc_cell col row.

Fixpoint pred_leaves p : list ScanPredicate :=
  match p with
  | PredLeaf p => [p]
  | PredAnd l r | PredOr l r => pred_leaves l ++ pred_leaves r
  end.

(** The columns of the leaves are well-formed and their bounds exact. *)
Definition leaf_ready columns (leaf : ScanPredicate) : Prop :=
  forall array col, find_column columns (ScanPredicate_column leaf) = Some array ->
    new_column array = Some col -> rc_wf col /\ leaf_exact col leaf.

Definition ready columns p : Prop := Forall (leaf_ready columns) (pred_leaves p).

Definition selection_rows (s : SelectionVector) : list Z :=
  match s with SelAll len => Z.of_nat <$> seq 0 len | SelIndices indices => indices end.

Lemma new_leaf_spec columns leaf resolved row :
  leaf_ready columns leaf -> new_leaf leaf columns = Some resolved ->
  leaf_matches resolved row = leaf_holds (row_of columns row (ScanPredicate_column leaf)) leaf.
Proof.
  unfold ResolvedPredicate_new, row_of. intros Hready.
  destruct (find_column columns (ScanPredicate_column leaf)) as [array|] eqn:Hf; [|done].
  simpl. destruct (new_column array) as [col|] eqn:Hc; [|done]. simpl. intros Hr.
  destruct (Hready _ _ Hf Hc) as [Hwf Hex].
  exact (resolve_leaf_spec (C := C) _ _ _ Hwf Hex Hr row).
Qed.

Lemma new_expr_spec columns p resolved row :
  ready columns p -> ResolvedPredicateExpr_new as_large_utf8 p columns = Some resolved ->
  resolved_matches resolved row = expr_holds (row_of columns row) p.
Proof.
  unfold ready. revert resolved. induction p as [leaf|l IHl r IHr|l IHl r IHr]; intros resolved; simpl.
  - intros Hready (x & Hx & ->)%fmap_Some. simpl. apply Forall_cons_1 in Hready as [Hready _].
    by apply new_leaf_spec.
  - rewrite Forall_app. intros [Hl Hr]. destruct (ResolvedPredicateExpr_new _ l _) as [x|]; [|done]. simpl.
    destruct (ResolvedPredicateExpr_new _ r _) as [y|]; [|done]. intros [= <-]. simpl. by rewrite IHl, IHr.
  - rewrite Forall_app. intros [Hl Hr]. destruct (ResolvedPredicateExpr_new _ l _) as [x|]; [|done]. simpl.
    destruct (ResolvedPredicateExpr_new _ r _) as [y|]; [|done]. intros [= <-]. simpl. by rewrite IHl, IHr.
Qed.

(** A pure conjunction is the list of its leaves. *)
Lemma flatten_spec p leaves out :
  flatten_conjunctions p leaves = (true, out) ->
  out = leaves ++ pred_leaves p /\
  forall row : string -> option (Cell C),
    expr_holds row p = forallb (fun leaf => leaf_holds (row (ScanPredicate_column leaf)) leaf) (pred_leaves p).
Proof.
  revert leaves out. induction p as [leaf|l IHl r IHr|l IHl r IHr]; intros leaves out; simpl; [| |done].
  - intros [= <-]. split; [done|]. intros row. by rewrite andb_true_r.
  - destruct (flatten_conjunctions l leaves) as [[] mid] eqn:Hl; [|done]. intros Hr.
    destruct (IHl _ _ Hl) as [-> El]. destruct (IHr _ _ Hr) as [-> Er]. split; [by rewrite <-app_assoc|].
    intros row. by rewrite forallb_app, El, Er.
Qed.

Lemma selected_rows_spec n (keep keep' : nat -> bool) :
  Z.of_nat n <= 2 ^ 32 -> (forall row, keep row = keep' row) ->
  selected_rows n keep = Z.of_nat <$> List.filter keep' (seq 0 n).
Proof.
  intros Hn Hk. unfold selected_rows. rewrite (List.filter_ext _ _ Hk). apply list_fmap_ext.
  intros i row Hrow. apply list_elem_of_lookup_2, list_elem_of_In, filter_In in Hrow as [Hrow _].
  apply in_seq in Hrow. unfold wrap32. apply Z.mod_small. lia.
Qed.

Lemma filter_length_all {A} (f : A -> bool) l : length (List.filter f l) = length l -> List.filter f l = l.
Proof.
  induction l as [|x l IH]; simpl; [done|]. destruct (f x); simpl.
  - intros [= H]. f_equal. by apply IH.
  - intros H. pose proof (List.filter_length_le f l). lia.
Qed.

Lemma selection_rows_of l n :
  (exists keep, l = Z.of_nat <$> List.filter keep (seq 0 n)) ->
  selection_rows (if (length l =? n)%nat then SelAll n else SelIndices l) = l.
Proof.
  intros [keep ->]. rewrite length_fmap. destruct (Nat.eqb_spec (length (List.filter keep (seq 0 n))) n) as [He|]; [|done].
  simpl. by rewrite filter_length_all by by rewrite length_seq.
Qed.

(** C23 A typed scan selects exactly the rows on which its predicate holds: whichever leaves the
    predicate is resolved to (integer, float and dictionary shortcuts, flat conjunctions or
    the recursive evaluator), the selection lists in order the rows that satisfy the predicate's
    reference semantics, on any batch of up to 2^32 rows that the scan accepts, when nothing
    was filtered before.  Three cases are left out, because the shortcuts are not exact
    there: a float bound of BETWEEN of magnitude 2^53 or more on an integer column (it is
    compared through [f64]); equality or IN on a dictionary column in
    which two keys have the same text (the first key is looked for); IS NULL or
    BETWEEN on a dictionary column with a null among its values (the keys alone are tested
    for null). *)
Theorem select_exact m p m' :
  select as_large_utf8 m (Some p) = Some m' -> m_selection m = SelAll (m_row_count m) ->
  Z.of_nat (m_row_count m) <= 2 ^ 32 -> ready (m_columns m) p ->
  m_columns m' = m_columns m /\ m_row_count m' = m_row_count m /\ m_row_offset m' = m_row_offset m /\
  selection_rows (m_selection m') =
    Z.of_nat <$> List.filter (fun row => expr_holds (row_of (m_columns m) row) p) (seq 0 (m_row_count m)).
Proof.
  unfold select. intros Hsel Hall Hn Hready. set (n := m_row_count m) in *.
  destruct (Nat.eqb_spec n 0) as [H0|H0].
  { injection Hsel as <-. rewrite Hall. by rewrite H0. }
  destruct (flatten_conjunctions p []) as [pure conjuncts] eqn:Hf.
  assert (Hrows : exists indices, m' = mkMorsel (m_row_offset m) n (m_columns m)
      (if (length indices =? n)%nat then SelAll n else SelIndices indices) /\
      indices = Z.of_nat <$> List.filter (fun row => expr_holds (row_of (m_columns m) row) p) (seq 0 n)).
  { destruct pure.
    - destruct (flatten_spec _ _ _ Hf) as [-> Hholds]. simpl in Hsel.
      destruct (mapM _ (pred_leaves p)) as [leaves|] eqn:Hm; [|done]. simpl in Hsel. injection Hsel as <-.
      eexists. split; [done|]. apply selected_rows_spec; [done|]. intros row. rewrite Hholds. clear Hf Hholds.
      apply mapM_Some in Hm. unfold ready in Hready. induction Hm as [|leaf resolved ls rs Hl _ IH]; [done|].
      apply Forall_cons in Hready as [Hleaf Hready]. simpl. rewrite IH by done. f_equal. by apply new_leaf_spec.
    - destruct (ResolvedPredicateExpr_new as_large_utf8 p (m_columns m)) as [resolved|] eqn:Hr; [|done].
      simpl in Hsel. injection Hsel as <-. eexists. split; [done|]. apply selected_rows_spec; [done|].
      intros row. by apply new_expr_spec. }
  destruct Hrows as (indices & -> & Hi). simpl. split_and!; [done..|].
  rewrite selection_rows_of by by exists (fun row => expr_holds (row_of (m_columns m) row) p). done.
Qed.
End selection.

(** Four rows, an integer column with a null and a dictionary column: [a >= 2 OR s = 'x'] selects
    the first, the third and the last row. *)
Definition example_morsel : Morsel :=
  from_batch (mkBatch [mkField "a" AtInt64 true; mkField "s" (AtDictionary (AtOther "UInt32") AtUtf8) true]
    [ArrInt64 [Some 1; None; Some 5; Some 2];
     @ArrDictionary Empty_set [Some 1; Some 0; Some 0; None] [Some "y"; Some "x"]] 4) 0.

Definition example_predicate : ScanPredicateExpr :=
  PredOr (PredLeaf (PCompare "a" CmpGe (SvInt 2))) (PredLeaf (PCompare "s" CmpEq (SvString "x"))).

Lemma select_exact_witness :
  exists m', select (fun _ => None) example_morsel (Some example_predicate) = Some m' /\
    selection_rows (m_selection m') = [0; 2; 3] /\
    selection_rows (m_selection m') =
      Z.of_nat <$> List.filter (fun row =>
        expr_holds (row_of (C := unit) (fun _ => None) (m_columns example_morsel) row) example_predicate) (seq 0 4).
Proof.
  eexists. split; [vm_compute; reflexivity|]. split; [reflexivity|].
  refine (proj2 (proj2 (proj2 (select_exact (C := unit) (fun _ => None) example_morsel example_predicate _ _ _ _ _))));
    [vm_compute; reflexivity|reflexivity|vm_compute; discriminate|].
  apply Forall_cons; split; [|apply Forall_cons; split; [|apply Forall_nil; exact I]];
    intros array col Ha Hc; vm_compute in Ha; injection Ha as <-; injection Hc as <-.
  - split; [repeat constructor; vm_compute; discriminate|exact I].
  - split; [split; [repeat constructor; lia|vm_compute; discriminate]|].
    intros [|[|i]] [|[|j]] text Hi Hj; simplify_eq/=; done.
Defined.
