(* ===== verification/Columns.v ===== *)
(** * Columns in memory

    Models [storage/on_demand/types.rs]: the column types with their codes, the column buffers
    [ColumnData] and their operations, and [row_width] of [compute/vector_quantization.rs].  Byte
    strings are lists of byte values, [u64] offsets and [u32] indices are integers; a failed index
    or slice, which panics, is [None].  The rows that a buffer stands for are given by [repr]. *)
From S2P Require Import Prelude Bytes Bits Float Values.
Local Open Scope Z_scope.

(** ** Column types *)

Inductive ColumnType :=
| TNull | TBool | TInt8 | TInt16 | TInt32 | TInt64 | TUInt8 | TUInt16 | TUInt32 | TUInt64
| TFloat32 | TFloat64 | TString | TBinary | TStringDict | TTimestamp | TDate
| TFixedList | TFloat16List | TBFloat16List | TInt8Vector | TUInt8Vector | TBit1Vector
| TTurboQuant2Vector | TTurboQuant3Vector | TTurboQuant4Vector
| TBlob | TJson | TUuid | TDecimal128 | TTime | TTimestampTz | TInterval | TList | TExtension.

#[global] Instance ColumnType_eq_dec : EqDecision ColumnType.
Proof. solve_decision. Defined.

(** [ColumnType as u8] *)
Definition ColumnType_code (t : ColumnType) : Z :=
  match t with
  | TNull => 0 | TBool => 1 | TInt8 => 2 | TInt16 => 3 | TInt32 => 4 | TInt64 => 5 | TUInt8 => 6
  | TUInt16 => 7 | TUInt32 => 8 | TUInt64 => 9 | TFloat32 => 10 | TFloat64 => 11 | TString => 12
  | TBinary => 13 | TStringDict => 14 | TTimestamp => 15 | TDate => 16 | TFixedList => 17
  | TFloat16List => 18 | TBlob => 19 | TBFloat16List => 20 | TInt8Vector => 21 | TUInt8Vector => 22
  | TBit1Vector => 23 | TTurboQuant2Vector => 24 | TTurboQuant3Vector => 25 | TTurboQuant4Vector => 26
  | TJson => 27 | TUuid => 28 | TDecimal128 => 29 | TTime => 30 | TTimestampTz => 31 | TInterval => 32
  | TList => 33 | TExtension => 34
  end.

Definition ColumnType_from_u8 (v : Z) : option ColumnType :=
  match v with
  | 0 => Some TNull | 1 => Some TBool | 2 => Some TInt8 | 3 => Some TInt16 | 4 => Some TInt32
  | 5 => Some TInt64 | 6 => Some TUInt8 | 7 => Some TUInt16 | 8 => Some TUInt32 | 9 => Some TUInt64
  | 10 => Some TFloat32 | 11 => Some TFloat64 | 12 => Some TString | 13 => Some TBinary
  | 14 => Some TStringDict | 15 => Some TTimestamp | 16 => Some TDate | 17 => Some TFixedList
  | 18 => Some TFloat16List | 19 => Some TBlob | 20 => Some TBFloat16List | 21 => Some TInt8Vector
  | 22 => Some TUInt8Vector | 23 => Some TBit1Vector | 24 => Some TTurboQuant2Vector
  | 25 => Some TTurboQuant3Vector | 26 => Some TTurboQuant4Vector | 27 => Some TJson | 28 => Some TUuid
  | 29 => Some TDecimal128 | 30 => Some TTime | 31 => Some TTimestampTz | 32 => Some TInterval
  | 33 => Some TList | 34 => Some TExtension
  | _ => None
  end.

Definition ColumnType_from_data_type (t : DataType) : Result ColumnType :=
  match t with
  | DtInt64 | DtInt32 | DtInt16 | DtInt8 | DtUInt64 | DtUInt32 | DtUInt16 | DtUInt8 => Ok TInt64
  | DtFloat64 | DtFloat32 => Ok TFloat64
  | DtString => Ok TString
  | DtBool => Ok TBool
  | DtBinary => Ok TBinary
  | DtBlob => Ok TBlob
  | DtJson => Ok TJson
  | DtDecimal | DtDecimal128 => Ok TDecimal128
  | DtUuid => Ok TUuid
  | DtTimestamp => Ok TTimestamp
  | DtTimestampTz => Ok TTimestampTz
  | DtDate => Ok TDate
  | DtTime => Ok TTime
  | DtInterval => Ok TInterval
  | DtFloat16Vector => Ok TFloat16List
  | DtFloat32Vector => Ok TFixedList
  | DtBFloat16Vector => Ok TBFloat16List
  | DtInt8Vector => Ok TInt8Vector
  | DtUInt8Vector => Ok TUInt8Vector
  | DtBit1Vector => Ok TBit1Vector
  | DtTurboQuant2Vector => Ok TTurboQuant2Vector
  | DtTurboQuant3Vector => Ok TTurboQuant3Vector
  | DtTurboQuant4Vector => Ok TTurboQuant4Vector
  | DtArray => Ok TList
  | DtNull => Err InvalidInput
  end.

Definition point_lookup_decodable (t : ColumnType) : bool :=
  match t with
  | TBool | TInt8 | TInt16 | TInt32 | TInt64 | TUInt8 | TUInt16 | TUInt32 | TUInt64 | TFloat32
  | TFloat64 | TString | TStringDict | TBinary | TBlob | TJson | TTimestamp | TTimestampTz | TDate
  | TTime | TInterval | TList | TExtension => true
  | _ => false
  end.

Definition fixed_size (t : ColumnType) : Z :=
  match t with
  | TBool | TInt8 | TUInt8 => 1
  | TInt16 | TUInt16 => 2
  | TInt32 | TUInt32 | TFloat32 => 4
  | TInt64 | TUInt64 | TFloat64 | TTimestamp | TTimestampTz | TDate | TTime | TInterval => 8
  | _ => 0
  end.

Definition is_variable_length (t : ColumnType) : bool :=
  match t with
  | TString | TBinary | TStringDict | TFixedList | TFloat16List | TBFloat16List | TInt8Vector
  | TUInt8Vector | TBit1Vector | TTurboQuant2Vector | TTurboQuant3Vector | TTurboQuant4Vector
  | TBlob | TJson | TList | TExtension => true
  | _ => false
  end.

Definition is_time_family (t : ColumnType) : bool :=
  match t with TTimestamp | TTimestampTz | TDate | TTime | TInterval => true | _ => false end.

(** ** Vector codecs *)

Inductive VectorCodec :=
| VFloat32 | VFloat16 | VBFloat16 | VInt8 | VUInt8 | VBit1 | VTurboQuant2 | VTurboQuant3 | VTurboQuant4.

#[global] Instance VectorCodec_eq_dec : EqDecision VectorCodec.
Proof. solve_decision. Defined.

Definition vector_codec (t : ColumnType) : option VectorCodec :=
  match t with
  | TFixedList => Some VFloat32
  | TFloat16List => Some VFloat16
  | TBFloat16List => Some VBFloat16
  | TInt8Vector => Some VInt8
  | TUInt8Vector => Some VUInt8
  | TBit1Vector => Some VBit1
  | TTurboQuant2Vector => Some VTurboQuant2
  | TTurboQuant3Vector => Some VTurboQuant3
  | TTurboQuant4Vector => Some VTurboQuant4
  | _ => None
  end.

Definition VectorCodec_bits (codec : VectorCodec) : option Z :=
  match codec with VTurboQuant2 => Some 2 | VTurboQuant3 => Some 3 | VTurboQuant4 => Some 4 | _ => None end.

(** [usize::div_ceil] *)
Definition Z_div_ceil (a b : Z) : Z := (a + b - 1) / b.

Definition turbo_padded_dim (dim : Z) : Result Z :=
  if dim =? 0 then Err InvalidInput
  else let p := 2 ^ Z.log2_up dim in if p <=? U64_MAX then Ok p else Err InvalidInput.

Definition packed_len (count bits : Z) : Z := Z_div_ceil (Z.min (count * bits) U64_MAX) 8.

(** [checked_mul]/[checked_add] with the overflow error *)
Definition checked (x : Z) : Result Z := if x <=? U64_MAX then Ok x else Err InvalidData.

Definition row_width (codec : VectorCodec) (dim : Z) : Result Z :=
  match codec with
  | VFloat32 => checked (dim * 4)
  | VFloat16 | VBFloat16 => checked (dim * 2)
  | VInt8 => checked (dim + 4)
  | VUInt8 => checked (dim + 8)
  | VBit1 => checked (Z_div_ceil dim 8 + 4)
  | VTurboQuant2 | VTurboQuant3 | VTurboQuant4 =>
      result_bind (turbo_padded_dim dim) (fun padded =>
        checked (packed_len padded (default 0 (VectorCodec_bits codec)) + 4))
  end.

(** [.expect(..)] *)
Definition expect {A} (r : Result A) : option A := match r with Ok a => Some a | Err _ => None end.

(** ** Buffers *)

Inductive ColumnData :=
| CdBool (data : list Z) (len : nat)
| CdInt64 (values : list Z)
| CdFloat64 (values : list Z)
| CdString (offsets data : list Z)
| CdBinary (offsets data : list Z)
| CdStringDict (indices dict_offsets dict_data : list Z)
| CdFixedList (data : list Z) (dim : Z)
| CdFloat16List (data : list Z) (dim : Z)
| CdQuantizedList (data : list Z) (dim : Z) (codec : VectorCodec).

(** [&data[s..e]] *)
Definition slice {A} (data : list A) (s e : Z) : option (list A) :=
  if (0 <=? s) && (s <=? e) && (e <=? Z.of_nat (length data))
  then Some (take (Z.to_nat (e - s)) (drop (Z.to_nat s) data)) else None.

(** [&data[offsets[i]..offsets[i + 1]]] *)
Definition value_at (offsets data : list Z) (i : nat) : option (list Z) :=
  s ← offsets !! i; e ← offsets !! S i; slice data s e.

Definition len_of {A} (l : list A) : Z := Z.of_nat (length l).

Definition ColumnData_new (t : ColumnType) : ColumnData :=
  match t with
  | TBool => CdBool [] 0
  | TInt8 | TInt16 | TInt32 | TInt64 | TUInt8 | TUInt16 | TUInt32 | TUInt64
  | TTimestamp | TTimestampTz | TDate | TTime | TInterval | TNull => CdInt64 []
  | TFloat32 | TFloat64 => CdFloat64 []
  | TString | TJson => CdString [0] []
  | TBinary | TBlob | TUuid | TDecimal128 | TList | TExtension => CdBinary [0] []
  | TStringDict => CdStringDict [] [0] []
  | TFixedList => CdFixedList [] 0
  | TFloat16List => CdFloat16List [] 0
  | TBFloat16List => CdQuantizedList [] 0 VBFloat16
  | TInt8Vector => CdQuantizedList [] 0 VInt8
  | TUInt8Vector => CdQuantizedList [] 0 VUInt8
  | TBit1Vector => CdQuantizedList [] 0 VBit1
  | TTurboQuant2Vector => CdQuantizedList [] 0 VTurboQuant2
  | TTurboQuant3Vector => CdQuantizedList [] 0 VTurboQuant3
  | TTurboQuant4Vector => CdQuantizedList [] 0 VTurboQuant4
  end.

(** [data.len() / width]; a zero width panics. *)
Definition rows_of_width (data : list Z) (width : Z) : option nat :=
  if width =? 0 then None else Some (Z.to_nat (len_of data / width)).

Definition ColumnData_len (c : ColumnData) : option nat :=
  match c with
  | CdBool _ len => Some len
  | CdInt64 v | CdFloat64 v => Some (length v)
  | CdString offsets _ | CdBinary offsets _ => Some (length offsets - 1)%nat
  | CdStringDict indices _ _ => Some (length indices)
  | CdFixedList data dim => if dim =? 0 then Some 0%nat else rows_of_width data (dim * 4)
  | CdFloat16List data dim => if dim =? 0 then Some 0%nat else rows_of_width data (dim * 2)
  | CdQuantizedList data dim codec =>
      if dim =? 0 then Some 0%nat else width ← expect (row_width codec dim); rows_of_width data width
  end.

Definition vector_dim (c : ColumnData) : option Z :=
  match c with
  | CdFixedList _ dim | CdFloat16List _ dim | CdQuantizedList _ dim _ => if 0 <? dim then Some dim else None
  | _ => None
  end.

Definition column_type (c : ColumnData) : ColumnType :=
  match c with
  | CdBool _ _ => TBool
  | CdInt64 _ => TInt64
  | CdFloat64 _ => TFloat64
  | CdString _ _ => TString
  | CdBinary _ _ => TBinary
  | CdStringDict _ _ _ => TStringDict
  | CdFixedList _ _ => TFixedList
  | CdFloat16List _ _ => TFloat16List
  | CdQuantizedList _ _ codec =>
      match codec with
      | VBFloat16 => TBFloat16List | VInt8 => TInt8Vector | VUInt8 => TUInt8Vector | VBit1 => TBit1Vector
      | VTurboQuant2 => TTurboQuant2Vector | VTurboQuant3 => TTurboQuant3Vector
      | VTurboQuant4 => TTurboQuant4Vector | VFloat32 => TFixedList | VFloat16 => TFloat16List
      end
  end.

(** ** Appending values *)

Definition push_i64 (c : ColumnData) (value : Z) : ColumnData :=
  match c with CdInt64 v => CdInt64 (v ++ [value]) | _ => c end.

Definition push_f64 (c : ColumnData) (value : Z) : ColumnData :=
  match c with CdFloat64 v => CdFloat64 (v ++ [value]) | _ => c end.

(** The bit of the next row; a byte is pushed when there is none for it. *)
Definition push_bit (data : list Z) (len : nat) (value : bool) : option (list Z) :=
  let data := if (length data <=? len / 8)%nat then data ++ [0] else data in
  if value then or_bit data len else Some data.

Definition push_bool (c : ColumnData) (value : bool) : option ColumnData :=
  match c with
  | CdBool data len => data ← push_bit data len value; Some (CdBool data (S len))
  | _ => Some c
  end.

Definition push_value (offsets data value : list Z) : list Z * list Z :=
  let data := data ++ value in (offsets ++ [len_of data], data).

Definition push_string (c : ColumnData) (value : list Z) : ColumnData :=
  match c with
  | CdString offsets data => let '(offsets, data) := push_value offsets data value in CdString offsets data
  | _ => c
  end.

Definition push_bytes (c : ColumnData) (value : list Z) : ColumnData :=
  match c with
  | CdBinary offsets data => let '(offsets, data) := push_value offsets data value in CdBinary offsets data
  | _ => c
  end.

Definition extend_i64 (c : ColumnData) (values : list Z) : ColumnData :=
  match c with
  | CdInt64 v => CdInt64 (v ++ values)
  | CdFloat64 v => CdFloat64 (v ++ (f64_of_Z <$> values))
  | _ => c
  end.

Definition extend_f64 (c : ColumnData) (values : list Z) : ColumnData :=
  match c with CdFloat64 v => CdFloat64 (v ++ values) | _ => c end.

Definition push_values (offsets data : list Z) (values : list (list Z)) : list Z * list Z :=
  foldl (fun st value => push_value st.1 st.2 value) (offsets, data) values.

Definition extend_strings (c : ColumnData) (values : list (list Z)) : ColumnData :=
  match c with
  | CdString offsets data => let '(offsets, data) := push_values offsets data values in CdString offsets data
  | _ => c
  end.

Definition extend_bytes (c : ColumnData) (values : list (list Z)) : ColumnData :=
  match c with
  | CdBinary offsets data => let '(offsets, data) := push_values offsets data values in CdBinary offsets data
  | _ => c
  end.

(** The bits of [values] from bit [len] on, the bytes being there. *)
Fixpoint or_bits (data : list Z) (len : nat) (values : list bool) : option (list Z) :=
  match values with
  | [] => Some data
  | value :: values => data ← (if value : bool then or_bit data len else Some data); or_bits data (S len) values
  end.

Definition extend_bools (c : ColumnData) (values : list bool) : option ColumnData :=
  match c with
  | CdBool data len =>
      match values with
      | [] => Some c
      | _ =>
          let new_len := (len + length values)%nat in
          data ← or_bits (resize (byte_len new_len) 0 data) len values;
          Some (CdBool data new_len)
      end
  | _ => Some c
  end.

(** [push_fixed_list] and [push_float16_list]; the width of the first row fixes the dimension. *)
Definition list_dim (dim : Z) (bytes : list Z) (size : Z) : Z :=
  if (dim =? 0) && (len_of bytes mod size =? 0) then wrap32 (len_of bytes / size) else dim.

Definition push_fixed_list (c : ColumnData) (bytes : list Z) : ColumnData :=
  match c with CdFixedList data dim => CdFixedList (data ++ bytes) (list_dim dim bytes 4) | _ => c end.

Definition push_float16_list (c : ColumnData) (bytes : list Z) : ColumnData :=
  match c with CdFloat16List data dim => CdFloat16List (data ++ bytes) (list_dim dim bytes 2) | _ => c end.

(** ** Whole columns *)

Definition clone_empty (c : ColumnData) : ColumnData :=
  match c with
  | CdBool _ _ => CdBool [] 0
  | CdInt64 _ => CdInt64 []
  | CdFloat64 _ => CdFloat64 []
  | CdString _ _ => CdString [0] []
  | CdBinary _ _ => CdBinary [0] []
  | CdStringDict _ _ _ => CdStringDict [] [0] []
  | CdFixedList _ dim => CdFixedList [] dim
  | CdFloat16List _ dim => CdFloat16List [] dim
  | CdQuantizedList _ dim codec => CdQuantizedList [] dim codec
  end.

(** [push] of every bit, growing the bytes on the way. *)
Fixpoint push_bits (data : list Z) (len : nat) (values : list bool) : option (list Z) :=
  match values with
  | [] => Some data
  | value :: values => data ← push_bit data len value; push_bits data (S len) values
  end.

Definition append_bits (data : list Z) (len : nat) (other_data : list Z) (other_len : nat) : option (list Z) :=
  if (other_len =? 0)%nat then Some data
  else if (len mod 8 =? 0)%nat then
    let other_byte_len := byte_len other_len in
    let copy_len := (other_byte_len `min` length other_data)%nat in
    let data := data ++ take copy_len other_data in
    Some (if (copy_len <? other_byte_len)%nat
          then resize (length data + (other_byte_len - copy_len)) 0 data else data)
  else push_bits data len (bit_set other_data <$> seq 0 other_len).

(** [offsets.push(base + other[i])] for [i] from 1; a [u64] addition. *)
Definition append_offsets (offsets other : list Z) : list Z :=
  let base := default 0 (last offsets) in
  offsets ++ ((fun o => wrap64 (base + o)) <$> drop 1 other).

(** Buffers of fixed-width rows are joined when their dimensions agree. *)
Definition append_list (data : list Z) (dim : Z) (other_data : list Z) (other_dim : Z) : list Z * Z :=
  let dim := if (dim =? 0) && (0 <? other_dim) then other_dim else dim in
  if dim =? other_dim then (data ++ other_data, dim) else (data, dim).

(** [offsets.reserve(other.len() - 1)] of an empty vector panics in [capacity overflow]. *)
Definition append (c other : ColumnData) : option ColumnData :=
  match c, other with
  | CdBool data len, CdBool other_data other_len =>
      data ← append_bits data len other_data other_len; Some (CdBool data (len + other_len))
  | CdInt64 v, CdInt64 other_v => Some (CdInt64 (v ++ other_v))
  | CdFloat64 v, CdFloat64 other_v => Some (CdFloat64 (v ++ other_v))
  | CdString offsets data, CdString other_offsets other_data =>
      if (length other_offsets =? 0)%nat then None
      else Some (CdString (append_offsets offsets other_offsets) (data ++ other_data))
  | CdBinary offsets data, CdBinary other_offsets other_data =>
      if (length other_offsets =? 0)%nat then None
      else Some (CdBinary (append_offsets offsets other_offsets) (data ++ other_data))
  | CdStringDict indices dict_offsets dict_data, CdStringDict other_indices other_offsets other_data =>
      if (length other_offsets =? 0)%nat then None
      else
        let offset := if (0 <? length dict_offsets)%nat then wrap32 (len_of dict_offsets) - 1 else 0 in
        Some (CdStringDict (indices ++ ((fun idx => wrap32 (idx + offset)) <$> other_indices))
          (append_offsets dict_offsets other_offsets) (dict_data ++ other_data))
  | CdFixedList data dim, CdFixedList other_data other_dim =>
      let '(data, dim) := append_list data dim other_data other_dim in Some (CdFixedList data dim)
  | CdFloat16List data dim, CdFloat16List other_data other_dim =>
      let '(data, dim) := append_list data dim other_data other_dim in Some (CdFloat16List data dim)
  | CdQuantizedList data dim codec, CdQuantizedList other_data other_dim other_codec =>
      if decide (codec = other_codec) then
        let '(data, dim) := append_list data dim other_data other_dim in Some (CdQuantizedList data dim codec)
      else Some c
  | _, _ => Some c
  end.

(** The values of the rows, the null ones emptied. *)
Definition null_values (offsets data nulls : list Z) : option (list Z * list Z) :=
  foldl (fun st i => '(new_offsets, new_data) ← st;
    if bit_set nulls i then Some (new_offsets ++ [len_of new_data], new_data)
    else value ← value_at offsets data i; Some (push_value new_offsets new_data value))
    (Some ([0], [])) (seq 0 (length offsets - 1)).

Definition apply_null_bitmap (c : ColumnData) (nulls : list Z) : option ColumnData :=
  match c with
  | CdString offsets data =>
      if (length offsets <? 2)%nat then Some c
      else '(offsets, data) ← null_values offsets data nulls; Some (CdString offsets data)
  | CdBinary offsets data =>
      if (length offsets <? 2)%nat then Some c
      else '(offsets, data) ← null_values offsets data nulls; Some (CdBinary offsets data)
  | CdInt64 v => Some (CdInt64 (imap (fun i x => if bit_set nulls i then 0 else x) v))
  | CdFloat64 v => Some (CdFloat64 (imap (fun i x => if bit_set nulls i then 0 else x) v))
  | CdBool bits len =>
      Some (CdBool (foldl (fun bits i =>
        if bit_set nulls i && (i / 8 <? length bits)%nat then default bits (clear_bit bits i) else bits)
        bits (seq 0 len)) len)
  | _ => Some c
  end.

(** Rows gathered from a buffer of fixed-width rows; a missing row is zeros. *)
Definition gather_rows (data : list Z) (stride : Z) (indices : list nat) : list Z :=
  indices ≫= fun i =>
    let start := Z.of_nat i * stride in
    if (0 <? stride) && (start + stride <=? len_of data)
    then take (Z.to_nat stride) (drop (Z.to_nat start) data) else replicate (Z.to_nat stride) 0.

(** Rows gathered from offsets and data; a missing row is left out. *)
Definition gather_values (offsets data : list Z) (indices : list nat) : option (list Z * list Z) :=
  foldl (fun st i => '(new_offsets, new_data) ← st;
    if (S i <? length offsets)%nat then
      value ← value_at offsets data i; Some (push_value new_offsets new_data value)
    else Some (new_offsets, new_data))
    (Some ([0], [])) indices.

Definition filter_by_indices (c : ColumnData) (indices : list nat) : option ColumnData :=
  match c with
  | CdBool data _ =>
      let n := length indices in
      data ← or_bits (replicate (byte_len n) 0) 0 (bit_set data <$> indices); Some (CdBool data n)
  | CdFixedList data dim => Some (CdFixedList (gather_rows data (dim * 4) indices) dim)
  | CdFloat16List data dim => Some (CdFloat16List (gather_rows data (dim * 2) indices) dim)
  | CdQuantizedList data dim codec =>
      stride ← expect (row_width codec dim); Some (CdQuantizedList (gather_rows data stride indices) dim codec)
  | CdInt64 v => Some (CdInt64 ((fun i => default 0 (v !! i)) <$> indices))
  | CdFloat64 v => Some (CdFloat64 ((fun i => default 0 (v !! i)) <$> indices))
  | CdString offsets data =>
      '(offsets, data) ← gather_values offsets data indices; Some (CdString offsets data)
  | CdBinary offsets data =>
      '(offsets, data) ← gather_values offsets data indices; Some (CdBinary offsets data)
  | CdStringDict row_indices dict_offsets dict_data =>
      Some (CdStringDict (omap (fun i => row_indices !! i) indices) dict_offsets dict_data)
  end.

(** [&data[s * stride..e * stride]] of the rows that are there. *)
Definition slice_rows (data : list Z) (stride : Z) (start stop : nat) : option (list Z) :=
  let row_count := if stride =? 0 then 0 else len_of data / stride in
  slice data (Z.min (Z.of_nat start) row_count * stride) (Z.min (Z.of_nat stop) row_count * stride).

(** [&v[start.min(v.len())..end.min(v.len())]] *)
Definition slice_clamped (v : list Z) (start stop : nat) : option (list Z) :=
  slice v (Z.of_nat (start `min` length v)) (Z.of_nat (stop `min` length v)).

Definition slice_values (offsets data : list Z) (start stop : nat) : option (list Z * list Z) :=
  let row_count := (length offsets - 1)%nat in
  let s := (start `min` row_count)%nat in
  let e := (stop `min` row_count)%nat in
  if (e <=? s)%nat then Some ([0], [])
  else
    base ← offsets !! s;
    data_end ← offsets !! e;
    data ← slice data base (Z.min data_end (len_of data));
    Some ((fun o => wrap64 (o - base)) <$> take (S e - s) (drop s offsets), data).

Definition slice_range (c : ColumnData) (start stop : nat) : option ColumnData :=
  match c with
  | CdFixedList data dim => data ← slice_rows data (dim * 4) start stop; Some (CdFixedList data dim)
  | CdFloat16List data dim => data ← slice_rows data (dim * 2) start stop; Some (CdFloat16List data dim)
  | CdQuantizedList data dim codec =>
      stride ← expect (row_width codec dim);
      data ← slice_rows data stride start stop; Some (CdQuantizedList data dim codec)
  | CdBool data len =>
      let s := (start `min` len)%nat in
      let e := (stop `min` len)%nat in
      let count := (e - s)%nat in
      data ← or_bits (replicate (byte_len count) 0) 0 (bit_set data <$> seq s count); Some (CdBool data count)
  | CdInt64 v => v ← slice_clamped v start stop; Some (CdInt64 v)
  | CdFloat64 v => v ← slice_clamped v start stop; Some (CdFloat64 v)
  | CdString offsets data =>
      '(offsets, data) ← slice_values offsets data start stop; Some (CdString offsets data)
  | CdBinary offsets data =>
      '(offsets, data) ← slice_values offsets data start stop; Some (CdBinary offsets data)
  | CdStringDict indices dict_offsets dict_data =>
      indices ← slice_clamped indices start stop; Some (CdStringDict indices dict_offsets dict_data)
  end.

Definition estimate_memory_bytes (c : ColumnData) : Z :=
  match c with
  | CdBool data _ | CdFixedList data _ | CdFloat16List data _ | CdQuantizedList data _ _ => len_of data
  | CdInt64 v | CdFloat64 v => len_of v * 8
  | CdString offsets data | CdBinary offsets data => len_of offsets * 4 + len_of data
  | CdStringDict indices dict_offsets dict_data =>
      len_of indices * 4 + len_of dict_offsets * 4 + len_of dict_data
  end.

(** ** Dictionary encoding of a string column *)

(** A loop over the values of [start..stop]. *)
Definition scan_values {A} (step : A -> list Z -> A) (init : A) (offsets data : list Z) (range : nat * nat) : option A :=
  foldl (fun acc i => acc ← acc; value ← value_at offsets data i; Some (step acc value)) (Some init)
    (seq range.1 (range.2 - range.1)).

(** The rows that [should_dict_encode] samples: from [i] in steps, until enough distinct strings
    are seen; [fuel] bounds the rows. *)
Fixpoint sample_strings (fuel : nat) (offsets data : list Z) (row_count step limit : nat) (i : nat)
    (unique : gset (list Z)) : option (gset (list Z)) :=
  match fuel with
  | 0%nat => Some unique
  | S fuel =>
      if (i <? row_count)%nat && (size unique <? limit)%nat then
        start ← offsets !! i; stop ← offsets !! S i;
        unique ← (if stop <=? len_of data then value ← slice data start stop; Some ({[value]} ∪ unique)
                  else Some unique);
        sample_strings fuel offsets data row_count step limit (i + step) unique
      else Some unique
  end.

Definition should_dict_encode (column : ColumnData) : option bool :=
  match column with
  | CdString offsets data =>
      let row_count := (length offsets - 1)%nat in
      if (row_count <? 100)%nat then Some false
      else
        let sample_size := (row_count `min` 1000)%nat in
        let step := if (sample_size <? row_count)%nat then (row_count / sample_size)%nat else 1%nat in
        unique ← sample_strings row_count offsets data row_count step (sample_size / 5) 0 ∅;
        let estimated_cardinality := size unique in
        Some ((estimated_cardinality <? sample_size / 5)%nat || (Z.of_nat estimated_cardinality <? 10000))
  | _ => Some false
  end.

(** The state of the encoding loop: the indices of the rows so far, the offsets and data of the
    dictionary, and the index of each entry. *)
Record DictState := mkDict {
  dict_row_indices : list Z;
  dict_offsets_new : list Z;
  dict_data_new : list Z;
  dict_map : gmap (list Z) Z;
  next_dict_idx : Z
}.

Definition dict_push (st : DictState) (bytes : list Z) : DictState :=
  match dict_map st !! bytes with
  | Some idx => mkDict (dict_row_indices st ++ [idx]) (dict_offsets_new st) (dict_data_new st) (dict_map st)
                  (next_dict_idx st)
  | None =>
      let idx := next_dict_idx st in
      let data := dict_data_new st ++ bytes in
      mkDict (dict_row_indices st ++ [idx]) (dict_offsets_new st ++ [Z.of_nat (length data)]) data
        (<[bytes := idx]> (dict_map st)) ((idx + 1) mod 2 ^ 32)
  end.

(** [to_dict_encoded]: [None] for a panic, [Some None] for a column of another kind. *)
Definition to_dict_encoded (column : ColumnData) : option (option ColumnData) :=
  match column with
  | CdString offsets data =>
      let row_count := (length offsets - 1)%nat in
      if (row_count =? 0)%nat then Some (Some (CdStringDict [] [0] []))
      else
        st ← scan_values dict_push (mkDict [] [0] [] ∅ 1) offsets data (0%nat, row_count);
        Some (Some (CdStringDict (dict_row_indices st) (dict_offsets_new st) (dict_data_new st)))
  | _ => Some None
  end.

(** One row of the decoding loop. *)
Definition dict_expand (dict_offsets dict_data : list Z) (acc : list Z * list Z) (idx : Z) : option (list Z * list Z) :=
  let '(offsets, data) := acc in
  if (idx =? 0) || (Z.of_nat (length dict_offsets) <=? idx)
  then Some (offsets ++ [Z.of_nat (length data)], data)
  else
    start ← dict_offsets !! Z.to_nat (idx - 1);
    stop ← dict_offsets !! Z.to_nat idx;
    let data := if (stop <=? Z.of_nat (length dict_data)) && (start <=? stop)
                then data ++ take (Z.to_nat (stop - start)) (drop (Z.to_nat start) dict_data) else data in
    Some (offsets ++ [Z.of_nat (length data)], data).

Definition decode_string_dict (column : ColumnData) : option ColumnData :=
  match column with
  | CdStringDict indices dict_offsets dict_data =>
      '(offsets, data) ← foldl (fun acc idx => acc ← acc; dict_expand dict_offsets dict_data acc idx)
        (Some ([0], [])) indices;
      Some (CdString offsets data)
  | _ => Some column
  end.

(** [to_dict_encoded] of a string column never fails, so [unwrap_or(self)] is not reached. *)
Definition maybe_dict_encode (column : ColumnData) : option ColumnData :=
  beneficial ← should_dict_encode column;
  if beneficial : bool then encoded ← to_dict_encoded column; Some (default column encoded) else Some column.

Definition get_dict_index (column : ColumnData) (row : nat) : option Z :=
  match column with CdStringDict indices _ _ => indices !! row | _ => None end.

Lemma len_of_nonneg {A} (l : list A) : 0 <= len_of l.
Proof. unfold len_of. lia. Qed.

(** A loop over values is a fold over them. *)
Lemma scan_values_fold {A} (step : A -> list Z -> A) init offsets data range :
  scan_values step init offsets data range =
    foldl step init <$> mapM (value_at offsets data) (seq range.1 (range.2 - range.1)).
Proof.
  unfold scan_values. generalize (seq range.1 (range.2 - range.1)). intros rows. revert init.
  induction rows as [|i rows IH]; intros init; [done|]. simpl.
  destruct (value_at offsets data i) as [v|]; simpl.
  - rewrite IH. by destruct (mapM _ rows).
  - clear IH. induction rows as [|j rows IH]; [done|]. simpl. exact IH.
Qed.
