(* ===== verification/ColumnRows.v ===== *)
(** * The rows that column buffers hold

    [repr c l] says that the buffer [c] of [Columns] holds the rows [l]; the operations on buffers
    are those on lists of rows: appending concatenates, filtering gathers, slicing takes a range,
    clearing nulls empties rows and dictionary encoding changes nothing. *)
From S2P Require Import Prelude Bytes Bits Float Values Columns.
Local Open Scope Z_scope.

(** ** The rows of a buffer *)

Inductive Datum := DNull | DBool (b : bool) | DInt (v : Z) | DFloat (bits : Z) | DBytes (bytes : list Z).

(** The offsets of consecutive values from [base] on. *)
Fixpoint offsets_from (base : Z) (vs : list (list Z)) : list Z :=
  base :: match vs with [] => [] | v :: vs => offsets_from (base + len_of v) vs end.

Definition values_repr (offsets data : list Z) (vs : list (list Z)) : Prop :=
  offsets = offsets_from 0 vs /\ data = concat vs.

Definition rows_repr (data : list Z) (stride : Z) (vs : list (list Z)) : Prop :=
  data = concat vs /\ Forall (fun v => len_of v = stride) vs /\ 0 < stride.

(** A buffer of fixed-width rows; without a dimension it is empty. *)
Definition list_repr (data : list Z) (dim : Z) (stride : Result Z) (l : list Datum) : Prop :=
  (dim = 0 /\ data = [] /\ l = []) \/
  (0 < dim /\ exists width vs, stride = Ok width /\ rows_repr data width vs /\ l = DBytes <$> vs).

(** What a dictionary index stands for. *)
Definition dict_datum (dict : list (list Z)) (idx : Z) : Datum :=
  if idx =? 0 then DNull
  else match dict !! Z.to_nat (idx - 1) with Some v => DBytes v | None => DNull end.

(** The buffer [c] holds the rows [l]. *)
Definition repr (c : ColumnData) (l : list Datum) : Prop :=
  match c with
  | CdBool data len => exists bits, data = pack_bits bits /\ len = length bits /\ l = DBool <$> bits
  | CdInt64 v => l = DInt <$> v
  | CdFloat64 v => l = DFloat <$> v
  | CdString offsets data | CdBinary offsets data =>
      exists vs, values_repr offsets data vs /\ l = DBytes <$> vs
  | CdStringDict indices dict_offsets dict_data =>
      exists dict, values_repr dict_offsets dict_data dict /\
        Forall (fun idx => 0 <= idx <= len_of dict) indices /\ l = dict_datum dict <$> indices
  | CdFixedList data dim => list_repr data dim (Ok (dim * 4)) l
  | CdFloat16List data dim => list_repr data dim (Ok (dim * 2)) l
  | CdQuantizedList data dim codec => list_repr data dim (row_width codec dim) l
  end.

#[global] Instance DBytes_inj : Inj (=) (=) DBytes.
Proof. by intros x y [= ->]. Qed.

(** *** Values and their offsets *)

Lemma len_of_app {A} (a b : list A) : len_of (a ++ b) = len_of a + len_of b.
Proof. unfold len_of. rewrite length_app. lia. Qed.

Lemma offsets_from_length base vs : length (offsets_from base vs) = S (length vs).
Proof. revert base. induction vs as [|v vs IH]; intros base; [done|]. simpl. by rewrite IH. Qed.

Lemma offsets_from_lookup base vs i :
  (i <= length vs)%nat -> offsets_from base vs !! i = Some (base + len_of (concat (take i vs))).
Proof.
  revert base i. induction vs as [|v vs IH]; intros base i Hi; simpl in Hi.
  - assert (i = 0)%nat as -> by lia. simpl. f_equal. unfold len_of. simpl. lia.
  - destruct i as [|i]; simpl; [f_equal; unfold len_of; simpl; lia|].
    rewrite IH by lia. f_equal. rewrite len_of_app. lia.
Qed.

Lemma offsets_from_app base vs ws :
  offsets_from base (vs ++ ws) =
    offsets_from base vs ++ drop 1 (offsets_from (base + len_of (concat vs)) ws).
Proof.
  revert base. induction vs as [|v vs IH]; intros base; simpl.
  - replace (base + len_of []) with base by (unfold len_of; simpl; lia). by destruct ws.
  - rewrite IH, len_of_app. do 2 f_equal. by rewrite Z.add_assoc.
Qed.

Lemma offsets_from_shift base vs : (fun o => base + o) <$> offsets_from 0 vs = offsets_from base vs.
Proof.
  enough (H : forall b, (fun o => base + o) <$> offsets_from b vs = offsets_from (base + b) vs).
  { rewrite H. f_equal. lia. }
  induction vs as [|v vs IH]; intros b; [done|]. simpl. rewrite IH. by rewrite Z.add_assoc.
Qed.

Lemma offsets_from_last base vs : last (offsets_from base vs) = Some (base + len_of (concat vs)).
Proof.
  rewrite last_lookup, offsets_from_length. simpl. rewrite offsets_from_lookup by lia.
  by rewrite firstn_all.
Qed.

Lemma concat_take_drop (vs : list (list Z)) s e :
  (s <= e)%nat -> concat (take e vs) = concat (take s vs) ++ concat (take (e - s) (drop s vs)).
Proof.
  intros Hse. rewrite <-concat_app. f_equal. replace e with (s + (e - s))%nat at 1 by lia.
  by rewrite take_take_drop.
Qed.

Lemma slice_middle {A} (a b c : list A) : slice (a ++ b ++ c) (len_of a) (len_of a + len_of b) = Some b.
Proof.
  unfold slice, len_of. rewrite !length_app.
  replace ((0 <=? Z.of_nat (length a)) && _ && _) with true.
  - f_equal. rewrite Nat2Z.id, drop_app_length.
    replace (Z.to_nat (Z.of_nat (length a) + Z.of_nat (length b) - Z.of_nat (length a))) with (length b) by lia.
    apply take_app_length.
  - symmetry. rewrite !andb_true_iff, !Z.leb_le. lia.
Qed.

(** The bytes between two offsets are those of the values between. *)
Lemma slice_concat (vs : list (list Z)) s e :
  (s <= e)%nat ->
  slice (concat vs) (len_of (concat (take s vs))) (len_of (concat (take e vs))) =
    Some (concat (take (e - s) (drop s vs))).
Proof.
  intros Hse. rewrite (concat_take_drop vs s e), len_of_app by done.
  assert (Hvs : concat vs = concat (take s vs) ++ concat (take (e - s) (drop s vs)) ++ concat (drop e vs)).
  { rewrite app_assoc, <-concat_take_drop, <-concat_app, take_drop by done. done. }
  rewrite Hvs at 1. apply slice_middle.
Qed.

Lemma value_at_repr (vs : list (list Z)) i : value_at (offsets_from 0 vs) (concat vs) i = vs !! i.
Proof.
  unfold value_at. destruct (decide (i < length vs)%nat) as [Hi|Hi].
  - rewrite !offsets_from_lookup by lia. cbn [mbind option_bind]. rewrite !Z.add_0_l, slice_concat by lia.
    destruct (lookup_lt_is_Some_2 vs i Hi) as [v Hv]. rewrite Hv.
    replace (S i - i)%nat with 1%nat by lia. rewrite (drop_S vs v i Hv). simpl. by rewrite app_nil_r.
  - rewrite (lookup_ge_None_2 vs) by lia. rewrite (lookup_ge_None_2 _ (S i)) by (rewrite offsets_from_length; lia).
    by destruct (_ !! i).
Qed.

Lemma push_value_repr offsets data vs v :
  values_repr offsets data vs ->
  values_repr (push_value offsets data v).1 (push_value offsets data v).2 (vs ++ [v]).
Proof.
  intros [-> ->]. unfold push_value, values_repr. simpl. split.
  - rewrite offsets_from_app. simpl. by rewrite len_of_app.
  - rewrite concat_app. simpl. by rewrite app_nil_r.
Qed.

Lemma push_values_repr offsets data vs ws :
  values_repr offsets data vs ->
  values_repr (push_values offsets data ws).1 (push_values offsets data ws).2 (vs ++ ws).
Proof.
  unfold push_values. revert offsets data vs. induction ws as [|w ws IH]; intros offsets data vs H; [by rewrite app_nil_r|].
  cbn [foldl]. cbn [fst snd]. pose proof (push_value_repr _ _ _ w H) as Hp.
  destruct (push_value offsets data w) as [o d]. rewrite cons_middle, app_assoc. by apply IH.
Qed.

Lemma append_offsets_repr (vs ws : list (list Z)) :
  len_of (concat (vs ++ ws)) < U64_MOD ->
  append_offsets (offsets_from 0 vs) (offsets_from 0 ws) = offsets_from 0 (vs ++ ws).
Proof.
  intros Hfit. unfold append_offsets. rewrite offsets_from_last, offsets_from_app. simpl default. f_equal.
  rewrite <-(offsets_from_shift (0 + len_of (concat vs)) ws), <-fmap_drop. apply list_fmap_ext.
  intros i o Hi. apply wrap64_small. rewrite concat_app, len_of_app in Hfit. pose proof (len_of_nonneg (concat vs)).
  rewrite lookup_drop in Hi. change (1 + i)%nat with (S i) in Hi.
  assert (S i <= length ws)%nat as Hlt by (apply lookup_lt_Some in Hi; rewrite offsets_from_length in Hi; lia).
  rewrite offsets_from_lookup in Hi by done. injection Hi as <-. rewrite !Z.add_0_l.
  pose proof (concat_take_drop ws (S i) (length ws) Hlt) as Hc. rewrite firstn_all in Hc.
  rewrite Hc, len_of_app in Hfit. pose proof (len_of_nonneg (concat (take (S i) ws))).
  pose proof (len_of_nonneg (concat (take (length ws - S i) (drop (S i) ws)))).
  unfold u64, U64_MAX, U64_MOD in *. lia.
Qed.

Lemma gather_values_repr vs indices :
  exists offsets data, gather_values (offsets_from 0 vs) (concat vs) indices = Some (offsets, data) /\
    values_repr offsets data (omap (fun i => vs !! i) indices).
Proof.
  unfold gather_values.
  assert (H : forall offsets data ws, values_repr offsets data ws -> exists o d,
    foldl (fun st i => '(new_offsets, new_data) ← st;
      if (S i <? length (offsets_from 0 vs))%nat then
        value ← value_at (offsets_from 0 vs) (concat vs) i; Some (push_value new_offsets new_data value)
      else Some (new_offsets, new_data)) (Some (offsets, data)) indices = Some (o, d) /\
    values_repr o d (ws ++ omap (fun i => vs !! i) indices)).
  { induction indices as [|i indices IH]; intros offsets data ws Hw; simpl.
    - exists offsets, data. by rewrite app_nil_r.
    - rewrite offsets_from_length, value_at_repr. destruct (vs !! i) as [v|] eqn:Hv.
      + apply lookup_lt_Some in Hv. rewrite (proj2 (Nat.ltb_lt _ _)) by lia. simpl.
        pose proof (push_value_repr _ _ _ v Hw) as Hp. destruct (push_value offsets data v) as [o d].
        destruct (IH _ _ _ Hp) as (o' & d' & Hf & Hr). exists o', d'. rewrite offsets_from_length in Hf.
        split; [exact Hf|]. by rewrite <-app_assoc in Hr.
      + apply lookup_ge_None in Hv. rewrite (proj2 (Nat.ltb_ge _ _)) by lia.
        destruct (IH _ _ _ Hw) as (o' & d' & Hf & Hr). exists o', d'. rewrite offsets_from_length in Hf. by split. }
  destruct (H [0] [] []) as (o & d & Hf & Hr); [by split|]. eauto.
Qed.

Lemma slice_values_repr vs start stop :
  len_of (concat vs) < U64_MOD ->
  exists offsets data, slice_values (offsets_from 0 vs) (concat vs) start stop = Some (offsets, data) /\
    values_repr offsets data (take (stop - start) (drop start vs)).
Proof.
  intros Hfit. unfold slice_values. rewrite offsets_from_length. simpl. rewrite Nat.sub_0_r.
  set (s := (start `min` length vs)%nat). set (e := (stop `min` length vs)%nat).
  assert (Hrows : take (stop - start) (drop start vs) = take (e - s) (drop s vs)).
  { destruct (Nat.le_gt_cases (length vs) start) as [Hge|Hlt].
    - rewrite (drop_ge vs start), (drop_ge vs s) by lia. by rewrite !take_nil.
    - replace s with start by lia. destruct (Nat.le_gt_cases stop (length vs)) as [Hle|Hgt].
      + by replace e with stop by lia.
      + rewrite !take_ge; [done|rewrite length_drop; lia..]. }
  rewrite Hrows. destruct (Nat.leb_spec e s) as [Hle|Hlt].
  { exists [0], []. replace (e - s)%nat with 0%nat by lia. by split. }
  rewrite !offsets_from_lookup by lia. cbn [mbind option_bind]. rewrite !Z.add_0_l.
  assert (Hlen : forall i, len_of (concat (take i vs)) <= len_of (concat vs)).
  { intros i. rewrite <-(take_drop i vs) at 2. rewrite concat_app, len_of_app.
    pose proof (len_of_nonneg (concat (drop i vs))). lia. }
  rewrite Z.min_l, slice_concat by (apply Hlen || lia). cbn [mbind option_bind].
  eexists _, _. split; [done|]. split; [|done]. apply list_eq. intros i.
  rewrite list_lookup_fmap. destruct (decide (i < S e - s)%nat) as [Hi|Hi].
  - rewrite lookup_take_lt, lookup_drop, !offsets_from_lookup by (rewrite ?length_take, ?length_drop; lia).
    simpl. f_equal. rewrite !Z.add_0_l, take_take, Nat.min_l by lia.
    rewrite (concat_take_drop vs s (s + i)), len_of_app by lia. replace (s + i - s)%nat with i by lia.
    rewrite Z.add_comm, Z.add_simpl_r. apply wrap64_small.
    pose proof (len_of_nonneg (concat (take i (drop s vs)))).
    pose proof (Hlen (s + i)%nat) as Hl. rewrite (concat_take_drop vs s (s + i)), len_of_app in Hl by lia.
    replace (s + i - s)%nat with i in Hl by lia. pose proof (len_of_nonneg (concat (take s vs))).
    unfold u64, U64_MAX, U64_MOD in *. lia.
  - rewrite lookup_take_ge by lia. simpl. symmetry. apply lookup_ge_None_2.
    rewrite offsets_from_length, length_take, length_drop. lia.
Qed.

(** The row of [l], emptied when its bit of [nulls] is set. *)
Definition null_datum (d : Datum) : Datum :=
  match d with DNull => DNull | DBool _ => DBool false | DInt _ => DInt 0 | DFloat _ => DFloat 0 | DBytes _ => DBytes [] end.

Lemma null_values_repr vs nulls :
  exists offsets data, null_values (offsets_from 0 vs) (concat vs) nulls = Some (offsets, data) /\
    values_repr offsets data (imap (fun i v => if bit_set nulls i then [] else v) vs).
Proof.
  unfold null_values. rewrite offsets_from_length. simpl. rewrite Nat.sub_0_r.
  assert (H : forall n, (n <= length vs)%nat -> exists o d,
    foldl (fun st i => '(new_offsets, new_data) ← st;
      if bit_set nulls i then Some (new_offsets ++ [len_of new_data], new_data)
      else value ← value_at (offsets_from 0 vs) (concat vs) i; Some (push_value new_offsets new_data value))
      (Some ([0], [])) (seq 0 n) = Some (o, d) /\
    values_repr o d (imap (fun i v => if bit_set nulls i then [] else v) (take n vs))).
  { induction n as [|n IH]; intros Hn; [by exists [0], []|].
    destruct (IH ltac:(lia)) as (o & d & Hf & Hr). rewrite seq_S, foldl_app, Hf. simpl.
    destruct (lookup_lt_is_Some_2 vs n ltac:(lia)) as [v Hv]. rewrite value_at_repr, Hv.
    rewrite (take_S_r _ _ _ Hv), imap_app. simpl. rewrite length_take, Nat.min_l, Nat.add_0_r by lia.
    destruct (bit_set nulls n); simpl.
    - pose proof (push_value_repr _ _ _ [] Hr) as Hp. unfold push_value in Hp. simpl in Hp.
      rewrite app_nil_r in Hp. eauto.
    - pose proof (push_value_repr _ _ _ v Hr) as Hp. destruct (push_value o d v). eauto. }
  destruct (H (length vs) ltac:(done)) as (o & d & Hf & Hr). rewrite firstn_all in Hr. eauto.
Qed.

(** *** Fixed-width rows *)

Section fixed.
Context (width : Z) (Hwidth : 0 < width).
Implicit Types vs : list (list Z).

Abbreviation of_width vs := (Forall (fun v => len_of v = width) vs).

Lemma len_of_rows vs : of_width vs -> len_of (concat vs) = len_of vs * width.
Proof using.
  induction 1 as [|v vs Hv _ IH]; [done|]. simpl. rewrite len_of_app, IH, Hv. unfold len_of. simpl. lia.
Qed.

Lemma len_of_take_rows vs i : of_width vs -> (i <= length vs)%nat -> len_of (concat (take i vs)) = Z.of_nat i * width.
Proof using.
  intros Hvs Hi. rewrite len_of_rows by by apply Forall_take. unfold len_of. by rewrite length_take, Nat.min_l.
Qed.

Lemma rows_of_width_repr vs : of_width vs -> rows_of_width (concat vs) width = Some (length vs).
Proof using Hwidth.
  intros Hvs. unfold rows_of_width. destruct (Z.eqb_spec width 0); [lia|].
  rewrite len_of_rows, Z.div_mul by (done || lia). unfold len_of. by rewrite Nat2Z.id.
Qed.

Lemma slice_row vs i v : of_width vs -> vs !! i = Some v ->
  take (Z.to_nat width) (drop (Z.to_nat (Z.of_nat i * width)) (concat vs)) = v.
Proof using.
  intros Hvs Hv. pose proof (Forall_lookup_1 _ _ _ _ Hvs Hv) as Hlen. apply lookup_lt_Some in Hv as Hi.
  rewrite <-(take_drop_middle vs i v Hv), concat_app. simpl.
  rewrite <-(len_of_take_rows vs i) by (done || lia). unfold len_of at 1. rewrite Nat2Z.id, drop_app_length.
  rewrite <-Hlen. unfold len_of. by rewrite Nat2Z.id, take_app_length.
Qed.

Lemma gather_rows_repr vs indices :
  of_width vs -> Forall (fun i => (i < length vs)%nat) indices ->
  rows_repr (gather_rows (concat vs) width indices) width (omap (fun i => vs !! i) indices).
Proof using Hwidth.
  intros Hvs. unfold rows_repr, gather_rows.
  induction 1 as [|i indices Hi _ IH]; [done|]. destruct IH as (Hc & Hw & _).
  destruct (lookup_lt_is_Some_2 vs i Hi) as [v Hv]. rewrite bind_cons. simpl. rewrite Hv. simpl.
  rewrite Hc. replace ((0 <? width) && _) with true.
  - rewrite (slice_row vs i v) by done. split_and!; [done| |done]. constructor; [|done].
    exact (Forall_lookup_1 _ _ _ _ Hvs Hv).
  - symmetry. rewrite andb_true_iff, Z.ltb_lt, Z.leb_le, len_of_rows by done. unfold len_of. nia.
Qed.

Lemma slice_rows_repr vs start stop :
  of_width vs -> (start <= stop)%nat ->
  exists data, slice_rows (concat vs) width start stop = Some data /\
    rows_repr data width (take (stop - start) (drop start vs)).
Proof using Hwidth.
  intros Hvs Hle. unfold slice_rows. destruct (Z.eqb_spec width 0); [lia|].
  rewrite len_of_rows, Z.div_mul by (done || lia).
  set (s := (start `min` length vs)%nat). set (e := (stop `min` length vs)%nat).
  replace (Z.min (Z.of_nat start) (len_of vs)) with (Z.of_nat s) by (unfold len_of; lia).
  replace (Z.min (Z.of_nat stop) (len_of vs)) with (Z.of_nat e) by (unfold len_of; lia).
  rewrite <-(len_of_take_rows vs s), <-(len_of_take_rows vs e), slice_concat by (done || lia). eexists. split; [done|].
  assert (Hrows : take (stop - start) (drop start vs) = take (e - s) (drop s vs)).
  { destruct (Nat.le_gt_cases (length vs) start) as [Hge|Hlt].
    - rewrite (drop_ge vs start), (drop_ge vs s) by lia. by rewrite !take_nil.
    - replace s with start by lia. destruct (Nat.le_gt_cases stop (length vs)) as [Hle'|Hgt].
      + by replace e with stop by lia.
      + rewrite !take_ge; [done|rewrite length_drop; lia..]. }
  rewrite Hrows. split_and!; [done|by apply Forall_take, Forall_drop|done].
Qed.
End fixed.

(** *** Bits *)

Lemma or_bits_repr n pre values :
  (length pre + length values <= 8 * n)%nat ->
  or_bits (le_bytes n (bits_value pre)) (length pre) values = Some (le_bytes n (bits_value (pre ++ values))).
Proof.
  revert pre. induction values as [|b values IH]; intros pre Hn; simpl in *; [by rewrite app_nil_r|].
  rewrite or_bit_bits by lia. simpl. specialize (IH (pre ++ [b])). rewrite length_app in IH. simpl in IH.
  rewrite Nat.add_1_r in IH. rewrite IH by lia. by rewrite <-app_assoc.
Qed.

Lemma or_bits_zeros values : or_bits (replicate (byte_len (length values)) 0) 0 values = Some (pack_bits values).
Proof.
  rewrite <-le_bytes_zeros. apply (or_bits_repr _ []). pose proof (byte_len_spec (length values)). simpl. lia.
Qed.

Lemma pack_bits_grow bits n :
  (byte_len (length bits) <= n)%nat ->
  pack_bits bits ++ replicate (n - byte_len (length bits)) 0 = le_bytes n (bits_value bits).
Proof.
  intros Hn. unfold pack_bits. rewrite le_bytes_grow by (apply bits_value_unsigned, byte_len_spec). f_equal. lia.
Qed.

Lemma push_bit_repr bits b : push_bit (pack_bits bits) (length bits) b = Some (pack_bits (bits ++ [b])).
Proof.
  unfold push_bit. pose proof (byte_len_spec (length bits)). pose proof (byte_len_spec (S (length bits))).
  assert (Hg : (if (length (pack_bits bits) <=? length bits / 8)%nat then pack_bits bits ++ [0] else pack_bits bits) =
    le_bytes (byte_len (S (length bits))) (bits_value bits)).
  { rewrite pack_bits_length. pose proof (Nat.div_mod_eq (length bits) 8).
    pose proof (Nat.mod_upper_bound (length bits) 8 ltac:(done)).
    rewrite <-pack_bits_grow by (apply byte_len_mono; lia).
    destruct (Nat.leb_spec (byte_len (length bits)) (length bits / 8)) as [Hle|Hlt].
    - by replace (byte_len (S (length bits)) - byte_len (length bits))%nat with 1%nat by lia.
    - replace (byte_len (S (length bits)) - byte_len (length bits))%nat with 0%nat by lia. simpl.
      by rewrite app_nil_r. }
  rewrite Hg, or_bit_bits by lia. unfold pack_bits. rewrite length_app. simpl. by rewrite Nat.add_1_r.
Qed.

Lemma push_bits_repr bits values :
  push_bits (pack_bits bits) (length bits) values = Some (pack_bits (bits ++ values)).
Proof.
  revert bits. induction values as [|b values IH]; intros bits; simpl; [by rewrite app_nil_r|].
  rewrite push_bit_repr. simpl. specialize (IH (bits ++ [b])). rewrite length_app, Nat.add_1_r in IH.
  by rewrite IH, <-app_assoc.
Qed.

Lemma bits_of_pack bits : bit_set (pack_bits bits) <$> seq 0 (length bits) = bits.
Proof.
  apply list_eq. intros i. rewrite list_lookup_fmap. destruct (decide (i < length bits)%nat) as [Hi|Hi].
  - rewrite lookup_seq_lt by done. simpl. rewrite bit_set_pack.
    destruct (lookup_lt_is_Some_2 bits i Hi) as [b Hb]. by rewrite Hb.
  - rewrite lookup_seq_ge, lookup_ge_None_2 by lia. done.
Qed.

Lemma append_bits_repr a b :
  append_bits (pack_bits a) (length a) (pack_bits b) (length b) = Some (pack_bits (a ++ b)).
Proof.
  unfold append_bits. destruct (Nat.eqb_spec (length b) 0) as [Hb|Hb].
  { apply nil_length_inv in Hb as ->. by rewrite app_nil_r. }
  destruct (Nat.eqb_spec (length a mod 8) 0) as [Ha|Ha]; [|by rewrite bits_of_pack, push_bits_repr].
  rewrite pack_bits_length, Nat.min_id, Nat.ltb_irrefl, firstn_all2 by (by rewrite pack_bits_length).
  f_equal. unfold pack_bits. pose proof (byte_len_spec (length a)). pose proof (byte_len_spec (length b)).
  pose proof (Nat.div_mod_eq (length a) 8).
  rewrite le_bytes_app by (apply bits_value_unsigned, byte_len_spec). f_equal.
  - rewrite length_app. pose proof (byte_len_spec (length a + length b)). lia.
  - rewrite bits_value_app, width_bits. do 3 f_equal. lia.
Qed.

(** The loop that clears the bits of null rows. *)
Lemma clear_bits_repr bits nulls :
  foldl (fun data i =>
    if bit_set nulls i && (i / 8 <? length data)%nat then default data (clear_bit data i) else data)
    (pack_bits bits) (seq 0 (length bits)) =
  pack_bits (imap (fun i b => if bit_set nulls i then false else b) bits).
Proof.
  assert (H : forall n, (n <= length bits)%nat -> foldl (fun data i =>
    if bit_set nulls i && (i / 8 <? length data)%nat then default data (clear_bit data i) else data)
    (pack_bits bits) (seq 0 n) =
    pack_bits (imap (fun i b => if bit_set nulls i then false else b) (take n bits) ++ drop n bits)).
  { induction n as [|n IH]; intros Hn; [done|].
    rewrite seq_S, foldl_app, IH by lia. simpl. destruct (lookup_lt_is_Some_2 bits n ltac:(lia)) as [b Hb].
    rewrite (take_S_r _ _ _ Hb), imap_app, (drop_S _ _ _ Hb). simpl. rewrite length_take, Nat.min_l, Nat.add_0_r by lia.
    set (done_rows := imap _ (take n bits)).
    assert (Hd : length done_rows = n) by (unfold done_rows; rewrite length_imap, length_take; lia).
    assert (Hl : length (done_rows ++ b :: drop (S n) bits) = length bits)
      by (rewrite length_app, Hd; simpl; rewrite length_drop; lia).
    rewrite <-app_assoc. simpl. destruct (bit_set nulls n); simpl; [|done].
    rewrite pack_bits_length, Hl, (proj2 (Nat.ltb_lt _ _)) by by apply div8_byte_len.
    unfold pack_bits. rewrite Hl, clear_bit_le; [|by apply div8_byte_len|apply bits_value_unsigned; rewrite Hl; apply byte_len_spec].
    simpl. rewrite (bits_value_clear _ n b) by by rewrite lookup_app_r, Hd, Nat.sub_diag by lia.
    rewrite insert_app_r_alt, Hd, Nat.sub_diag by lia. simpl. f_equal. rewrite length_app, Hd. simpl. rewrite length_drop. f_equal. lia. }
  rewrite H by done. by rewrite firstn_all, drop_all, app_nil_r.
Qed.

(** ** The operations on rows *)

Definition dims_agree (dim other_dim : Z) : Prop := dim = 0 \/ other_dim = 0 \/ dim = other_dim.

(** The buffers are of one kind, their sizes fit the offsets and indices, the dimensions agree, and
    a dictionary column joined to a non-empty dictionary has no null index. *)
Definition appendable (c d : ColumnData) : Prop :=
  match c, d with
  | CdBool _ _, CdBool _ _ | CdInt64 _, CdInt64 _ | CdFloat64 _, CdFloat64 _ => True
  | CdString _ data, CdString _ other_data | CdBinary _ data, CdBinary _ other_data =>
      len_of data + len_of other_data < U64_MOD
  | CdStringDict _ dict_offsets dict_data, CdStringDict other_indices other_offsets other_data =>
      len_of dict_data + len_of other_data < U64_MOD /\ len_of dict_offsets + len_of other_offsets <= 2 ^ 32 /\
      (dict_offsets = [0] \/ Forall (fun idx => idx <> 0) other_indices)
  | CdFixedList _ dim, CdFixedList _ other_dim | CdFloat16List _ dim, CdFloat16List _ other_dim => dims_agree dim other_dim
  | CdQuantizedList _ dim codec, CdQuantizedList _ other_dim other_codec =>
      codec = other_codec /\ dims_agree dim other_dim
  | _, _ => False
  end.

(** A vector codec without a row width for the column's dimension: an empty TurboQuant column. *)
Definition has_stride (c : ColumnData) : Prop :=
  match c with CdQuantizedList _ dim codec => is_ok (row_width codec dim) = true | _ => True end.

Lemma values_append offsets data vs other_offsets other_data ws :
  values_repr offsets data vs -> values_repr other_offsets other_data ws ->
  len_of data + len_of other_data < U64_MOD ->
  (length other_offsets =? 0)%nat = false /\
  values_repr (append_offsets offsets other_offsets) (data ++ other_data) (vs ++ ws).
Proof.
  intros [-> ->] [-> ->] Hfit. split; [by rewrite offsets_from_length|].
  unfold values_repr. rewrite append_offsets_repr, concat_app by by rewrite concat_app, len_of_app. done.
Qed.

Lemma list_append (stride : Z -> Result Z) data dim other_data other_dim l k :
  list_repr data dim (stride dim) l -> list_repr other_data other_dim (stride other_dim) k ->
  dims_agree dim other_dim ->
  list_repr (append_list data dim other_data other_dim).1 (append_list data dim other_data other_dim).2
    (stride (append_list data dim other_data other_dim).2) (l ++ k).
Proof.
  unfold append_list. intros [(-> & -> & ->)|(Hd & w & vs & Hs & (-> & Hvs & Hw) & ->)] Hk Ha.
  - simpl. destruct (Z.ltb_spec 0 other_dim).
    + rewrite Z.eqb_refl. exact Hk.
    + destruct Hk as [(-> & -> & ->)|(Hpos & _)]; [by left|lia].
  - destruct (Z.eqb_spec dim 0) as [->|_]; [lia|]. simpl.
    destruct Hk as [(-> & -> & ->)|(Hd' & w' & ws & Hs' & (-> & Hws & Hw') & ->)].
    + rewrite (proj2 (Z.eqb_neq _ _)) by lia. rewrite app_nil_r. right. split; [done|]. by exists w, vs.
    + assert (dim = other_dim) as <- by (unfold dims_agree in Ha; lia). rewrite Z.eqb_refl. right.
      assert (w' = w) as -> by congruence. split; [done|]. exists w, (vs ++ ws). split; [done|]. rewrite fmap_app.
      split; [|done]. split_and!; [by rewrite concat_app|by apply Forall_app|done].
Qed.

Lemma dict_datum_app_l dict ext idx : 0 <= idx <= len_of dict -> dict_datum (dict ++ ext) idx = dict_datum dict idx.
Proof.
  unfold dict_datum, len_of. intros Hi. destruct (Z.eqb_spec idx 0) as [|Hne]; [done|].
  by rewrite lookup_app_l by lia.
Qed.

Lemma dict_datum_app_r dict ext idx :
  0 < idx <= len_of ext -> dict_datum (dict ++ ext) (idx + len_of dict) = dict_datum ext idx.
Proof.
  unfold dict_datum, len_of. intros Hi.
  rewrite (proj2 (Z.eqb_neq (idx + _) 0)), (proj2 (Z.eqb_neq idx 0)) by lia. rewrite lookup_app_r by lia.
  by replace (Z.to_nat (idx + Z.of_nat (length dict) - 1) - length dict)%nat with (Z.to_nat (idx - 1)) by lia.
Qed.

Lemma dict_append indices dict_offsets dict_data other_indices other_offsets other_data l k :
  let c := CdStringDict indices dict_offsets dict_data in
  let d := CdStringDict other_indices other_offsets other_data in
  repr c l -> repr d k -> appendable c d -> exists e, append c d = Some e /\ repr e (l ++ k).
Proof.
  intros c d (dict & Hv & Hi & ->) (ext & Hv' & Hi' & ->) (Hfit & Hsize & Hnull).
  destruct (values_append _ _ _ _ _ _ Hv Hv' Hfit) as [Hne Happ]. unfold append, c, d. rewrite Hne.
  pose proof Hv as [Ho _]. pose proof Hv' as [Ho' _].
  assert (Hlen : len_of dict_offsets = len_of dict + 1) by (rewrite Ho; unfold len_of; rewrite offsets_from_length; lia).
  assert (Hlen' : len_of other_offsets = len_of ext + 1) by (rewrite Ho'; unfold len_of; rewrite offsets_from_length; lia).
  rewrite (proj2 (Nat.ltb_lt _ _)) by (unfold len_of in Hlen; lia). eexists. split; [done|].
  pose proof (len_of_nonneg dict). pose proof (len_of_nonneg ext).
  assert (Hoff : wrap32 (len_of dict_offsets) - 1 = len_of dict)
    by (rewrite Hlen; unfold wrap32; rewrite Z.mod_small by lia; lia).
  rewrite Hoff.
  assert (Hshift : forall idx, idx ∈ other_indices -> wrap32 (idx + len_of dict) = idx + len_of dict /\
    0 <= idx <= len_of ext /\ dict_datum (dict ++ ext) (idx + len_of dict) = dict_datum ext idx).
  { intros idx Hin. rewrite Forall_forall in Hi'. specialize (Hi' _ Hin).
    split; [unfold wrap32; apply Z.mod_small; lia|]. split; [done|].
    destruct Hnull as [Hempty|Hnn].
    - assert (dict = []) as -> by (destruct dict; [done|]; rewrite Hempty in Hlen; unfold len_of in *; simpl in *; lia).
      by rewrite Z.add_0_r.
    - rewrite Forall_forall in Hnn. specialize (Hnn _ Hin). apply dict_datum_app_r. lia. }
  exists (dict ++ ext). split; [done|]. rewrite len_of_app, fmap_app. split.
  - apply Forall_app. split.
    + eapply Forall_impl; [exact Hi|]. simpl. lia.
    + apply Forall_fmap, Forall_forall. intros idx Hin. destruct (Hshift idx Hin) as (Hw & Hr & _). simpl. lia.
  - f_equal.
    + apply list_fmap_ext. intros i idx Hix. symmetry. apply dict_datum_app_l.
      exact (Forall_lookup_1 _ _ _ _ Hi Hix).
    + rewrite <-list_fmap_compose. apply list_fmap_ext. intros i idx Hix. simpl.
      destruct (Hshift idx) as (Hw & _ & Hd); [by eapply list_elem_of_lookup_2|]. by rewrite Hw, Hd.
Qed.

(** Appending a buffer concatenates the rows. *)
Lemma append_rows c d l k :
  repr c l -> repr d k -> appendable c d -> exists e, append c d = Some e /\ repr e (l ++ k).
Proof.
  destruct c as [data len|v|v|offsets data|offsets data|indices offs data|data dim|data dim|data dim codec],
    d as [data' len'|v'|v'|offsets' data'|offsets' data'|indices' offs' data'|data' dim'|data' dim'|data' dim' codec'];
    try done; intros Hc Hd Ha.
  - destruct Hc as (a & -> & -> & ->), Hd as (b & -> & -> & ->). unfold append. rewrite append_bits_repr.
    eexists. split; [done|]. exists (a ++ b). by rewrite length_app, fmap_app.
  - simpl in *. subst. eexists. split; [done|]. simpl. by rewrite fmap_app.
  - simpl in *. subst. eexists. split; [done|]. simpl. by rewrite fmap_app.
  - destruct Hc as (vs & Hv & ->), Hd as (ws & Hw & ->). destruct (values_append _ _ _ _ _ _ Hv Hw Ha) as [Hn Hr].
    unfold append. rewrite Hn. eexists. split; [done|]. exists (vs ++ ws). by rewrite fmap_app.
  - destruct Hc as (vs & Hv & ->), Hd as (ws & Hw & ->). destruct (values_append _ _ _ _ _ _ Hv Hw Ha) as [Hn Hr].
    unfold append. rewrite Hn. eexists. split; [done|]. exists (vs ++ ws). by rewrite fmap_app.
  - by apply dict_append.
  - pose proof (list_append (fun dim => Ok (dim * 4)) _ _ _ _ _ _ Hc Hd Ha) as H. unfold append.
    destruct (append_list _ _ _ _). by eexists.
  - pose proof (list_append (fun dim => Ok (dim * 2)) _ _ _ _ _ _ Hc Hd Ha) as H. unfold append.
    destruct (append_list _ _ _ _). by eexists.
  - destruct Ha as [-> Ha]. pose proof (list_append (row_width codec') _ _ _ _ _ _ Hc Hd Ha) as H. unfold append.
    rewrite decide_True by done. destruct (append_list _ _ _ _). by eexists.
Qed.

Lemma fmap_omap_lookup {A B} (f : A -> B) (l : list A) (indices : list nat) :
  f <$> omap (fun i => l !! i) indices = omap (fun i => (f <$> l) !! i) indices.
Proof.
  induction indices as [|i indices IH]; [done|]. csimpl. rewrite list_lookup_fmap.
  destruct (l !! i); csimpl; by rewrite <-IH.
Qed.

Lemma omap_in_range {A} (l : list A) (d : A) (indices : list nat) :
  Forall (fun i => (i < length l)%nat) indices ->
  (fun i => default d (l !! i)) <$> indices = omap (fun i => l !! i) indices.
Proof.
  induction 1 as [|i indices Hi _ IH]; [done|]. csimpl. destruct (lookup_lt_is_Some_2 l i Hi) as [x Hx].
  rewrite Hx. csimpl. by rewrite IH.
Qed.

Lemma list_gather stride data dim l indices :
  list_repr data dim stride l -> Forall (fun i => (i < length l)%nat) indices ->
  forall width, stride = Ok width -> list_repr (gather_rows data width indices) dim stride (omap (fun i => l !! i) indices).
Proof.
  intros [(-> & -> & ->)|(Hd & w & vs & Hs & (-> & Hvs & Hw) & ->)] Hi width Hok.
  - destruct indices as [|i indices]; [by left|]. apply Forall_cons_1 in Hi as [Hi _]. simpl in Hi. lia.
  - assert (width = w) as -> by congruence. right. split; [done|]. rewrite length_fmap in Hi.
    eexists w, _. split; [done|]. split; [by apply gather_rows_repr|]. symmetry. apply fmap_omap_lookup.
Qed.

Lemma list_slice stride data dim l start stop :
  list_repr data dim stride l -> (start <= stop)%nat -> forall width, stride = Ok width ->
  exists data', slice_rows data width start stop = Some data' /\
    list_repr data' dim stride (take (stop - start) (drop start l)).
Proof.
  intros [(-> & -> & ->)|(Hd & w & vs & Hs & (-> & Hvs & Hw) & ->)] Hle width Hok.
  - exists []. rewrite drop_nil, take_nil. split; [|by left]. unfold slice_rows.
    assert (Hz : (if width =? 0 then 0 else len_of (@nil Z) / width) = 0) by by case_match.
    rewrite Hz, !Z.min_r by lia. by rewrite Z.mul_0_l.
  - assert (width = w) as -> by congruence. destruct (slice_rows_repr w Hw vs start stop Hvs Hle) as (data & Hdata & Hr).
    exists data. split; [done|]. right. split; [done|]. eexists w, _. split; [done|]. split; [done|].
    by rewrite fmap_take, fmap_drop.
Qed.

(** Filtering by row numbers gathers the rows. *)
Lemma filter_gathers c l indices :
  repr c l -> Forall (fun i => (i < length l)%nat) indices -> has_stride c ->
  exists e, filter_by_indices c indices = Some e /\ repr e (omap (fun i => l !! i) indices).
Proof.
  destruct c as [data len|v|v|offsets data|offsets data|row_indices offs data|data dim|data dim|data dim codec];
    intros Hc Hi Hs.
  - destruct Hc as (bits & -> & -> & ->). unfold filter_by_indices. cbv zeta.
    rewrite <-(length_fmap (bit_set (pack_bits bits)) indices), or_bits_zeros. eexists. split; [done|].
    eexists _. split_and!; [done|done|]. rewrite length_fmap in Hi.
    rewrite <-fmap_omap_lookup, <-(omap_in_range _ false) by done. f_equal. apply list_fmap_ext.
    intros k i _. symmetry. apply bit_set_pack.
  - simpl in Hc. subst l. rewrite length_fmap in Hi. eexists. split; [done|]. simpl.
    by rewrite (omap_in_range v), fmap_omap_lookup.
  - simpl in Hc. subst l. rewrite length_fmap in Hi. eexists. split; [done|]. simpl.
    by rewrite (omap_in_range v), fmap_omap_lookup.
  - destruct Hc as (vs & [-> ->] & ->). destruct (gather_values_repr vs indices) as (o & d & Hg & Hr).
    unfold filter_by_indices. rewrite Hg. eexists. split; [done|]. eexists. split; [done|].
    symmetry. apply fmap_omap_lookup.
  - destruct Hc as (vs & [-> ->] & ->). destruct (gather_values_repr vs indices) as (o & d & Hg & Hr).
    unfold filter_by_indices. rewrite Hg. eexists. split; [done|]. eexists. split; [done|].
    symmetry. apply fmap_omap_lookup.
  - destruct Hc as (dict & Hv & Hin & ->). eexists. split; [done|]. exists dict. split; [done|]. split.
    + apply Forall_forall. intros idx (i & _ & Hx)%list_elem_of_omap. exact (Forall_lookup_1 _ _ _ _ Hin Hx).
    + symmetry. apply fmap_omap_lookup.
  - eexists. split; [done|]. by apply (list_gather _ _ _ _ _ Hc Hi).
  - eexists. split; [done|]. by apply (list_gather _ _ _ _ _ Hc Hi).
  - simpl in Hs. unfold filter_by_indices. destruct (row_width codec dim) as [w|e] eqn:Hw; [|done].
    simpl. eexists. split; [done|]. by apply (list_gather _ _ _ _ _ Hc Hi).
Qed.

Lemma slice_clamped_repr v start stop :
  (start <= stop)%nat -> slice_clamped v start stop = Some (take (stop - start) (drop start v)).
Proof.
  intros Hle. unfold slice_clamped, slice.
  replace ((0 <=? _) && _ && _) with true by (symmetry; rewrite !andb_true_iff, !Z.leb_le; lia).
  f_equal. rewrite Nat2Z.id. destruct (Nat.le_gt_cases (length v) start) as [Hge|Hlt].
  - by rewrite !drop_ge, !take_nil by lia.
  - rewrite (Nat.min_l start) by lia. destruct (Nat.le_gt_cases stop (length v)) as [Hs|Hs].
    + f_equal. lia.
    + rewrite !take_ge; [done|rewrite length_drop; lia..].
Qed.

Lemma slice_bits bits start stop :
  (start <= stop)%nat ->
  let s := (start `min` length bits)%nat in
  let count := ((stop `min` length bits) - s)%nat in
  bit_set (pack_bits bits) <$> seq s count = take (stop - start) (drop start bits).
Proof.
  intros Hle s count. apply list_eq. intros i. rewrite list_lookup_fmap.
  destruct (decide (i < count)%nat) as [Hi|Hi].
  - rewrite lookup_seq_lt by done. simpl. rewrite bit_set_pack, lookup_take_lt, lookup_drop by lia.
    replace (start + i)%nat with (s + i)%nat by lia.
    destruct (lookup_lt_is_Some_2 bits (s + i) ltac:(lia)) as [b ->]. done.
  - rewrite lookup_seq_ge by lia. simpl. symmetry. apply lookup_ge_None_2. rewrite length_take, length_drop. lia.
Qed.

(** Slicing takes the rows of the range. *)
Lemma slice_takes_range c l start stop :
  repr c l -> (start <= stop)%nat -> has_stride c ->
  match c with CdString _ data | CdBinary _ data => len_of data < U64_MOD | _ => True end ->
  exists e, slice_range c start stop = Some e /\ repr e (take (stop - start) (drop start l)).
Proof.
  destruct c as [data len|v|v|offsets data|offsets data|row_indices offs data|data dim|data dim|data dim codec];
    intros Hc Hle Hs Hfit; unfold slice_range.
  - destruct Hc as (bits & -> & -> & ->). pose proof (slice_bits bits start stop Hle) as Hb. cbv zeta in Hb.
    set (s := (start `min` length bits)%nat) in *. set (count := ((stop `min` length bits) - s)%nat) in *.
    pose proof (or_bits_zeros (bit_set (pack_bits bits) <$> seq s count)) as Ho. rewrite length_fmap, length_seq in Ho.
    cbv zeta. rewrite Ho. eexists. split; [done|]. eexists. split_and!; [done|by rewrite length_fmap, length_seq|].
    by rewrite Hb, fmap_take, fmap_drop.
  - simpl in Hc. subst l. rewrite slice_clamped_repr by done. eexists. split; [done|]. simpl. by rewrite fmap_take, fmap_drop.
  - simpl in Hc. subst l. rewrite slice_clamped_repr by done. eexists. split; [done|]. simpl. by rewrite fmap_take, fmap_drop.
  - destruct Hc as (vs & [-> ->] & ->). destruct (slice_values_repr vs start stop Hfit) as (o & d & Hg & Hr).
    rewrite Hg. eexists. split; [done|]. eexists. split; [done|]. by rewrite fmap_take, fmap_drop.
  - destruct Hc as (vs & [-> ->] & ->). destruct (slice_values_repr vs start stop Hfit) as (o & d & Hg & Hr).
    rewrite Hg. eexists. split; [done|]. eexists. split; [done|]. by rewrite fmap_take, fmap_drop.
  - destruct Hc as (dict & Hv & Hin & ->). rewrite slice_clamped_repr by done. eexists. split; [done|].
    exists dict. split; [done|]. split; [by apply Forall_take, Forall_drop|]. by rewrite fmap_take, fmap_drop.
  - destruct (list_slice _ _ _ _ _ _ Hc Hle _ eq_refl) as (d & Hd & Hr). rewrite Hd. by eexists.
  - destruct (list_slice _ _ _ _ _ _ Hc Hle _ eq_refl) as (d & Hd & Hr). rewrite Hd. by eexists.
  - simpl in Hs. destruct (row_width codec dim) as [w|e] eqn:Hw; [|done]. simpl.
    destruct (list_slice _ _ _ _ _ _ Hc Hle _ Hw) as (d & Hd & Hr). rewrite Hd. eexists. split; [done|]. exact Hr.
Qed.

(** The kinds of column whose null rows are cleared. *)
Definition clears_nulls (c : ColumnData) : bool :=
  match c with CdBool _ _ | CdInt64 _ | CdFloat64 _ | CdString _ _ | CdBinary _ _ => true | _ => false end.

Lemma imap_fmap_datum {A} (f : A -> Datum) (g : A -> A) vs nulls :
  (forall v, null_datum (f v) = f (g v)) ->
  f <$> imap (fun i v => if bit_set nulls i then g v else v) vs =
    imap (fun i d => if bit_set nulls i then null_datum d else d) (f <$> vs).
Proof.
  intros Hf. apply list_eq. intros i. rewrite list_lookup_fmap, !list_lookup_imap, list_lookup_fmap.
  destruct (vs !! i) as [v|]; simpl; [|done]. f_equal. destruct (bit_set nulls i); [by rewrite Hf|done].
Qed.

(** Clearing the null rows of a bitmap leaves the others. *)
Lemma null_bitmap_clears_rows c l nulls :
  repr c l -> exists e, apply_null_bitmap c nulls = Some e /\
    repr e (if clears_nulls c then imap (fun i d => if bit_set nulls i then null_datum d else d) l else l).
Proof.
  destruct c as [data len|v|v|offsets data|offsets data|row_indices offs data|data dim|data dim|data dim codec];
    intros Hc; try (by eexists).
  - destruct Hc as (bits & -> & -> & ->). unfold apply_null_bitmap. rewrite clear_bits_repr.
    eexists. split; [done|]. eexists. split_and!; [done|by rewrite length_imap|].
    symmetry. by apply (imap_fmap_datum DBool (fun _ => false)).
  - simpl in Hc. subst l. eexists. split; [done|]. simpl. symmetry. by apply (imap_fmap_datum DInt (fun _ => 0)).
  - simpl in Hc. subst l. eexists. split; [done|]. simpl. symmetry. by apply (imap_fmap_datum DFloat (fun _ => 0)).
  - destruct Hc as (vs & [-> ->] & ->). unfold apply_null_bitmap. destruct (Nat.ltb_spec (length (offsets_from 0 vs)) 2) as [Hlt|Hge].
    + rewrite offsets_from_length in Hlt. destruct vs; [|simpl in Hlt; lia]. eexists. split; [done|]. by exists [].
    + destruct (null_values_repr vs nulls) as (o & d & Hn & Hr). rewrite Hn. eexists. split; [done|].
      eexists. split; [done|]. symmetry. by apply (imap_fmap_datum DBytes (fun _ => [])).
  - destruct Hc as (vs & [-> ->] & ->). unfold apply_null_bitmap. destruct (Nat.ltb_spec (length (offsets_from 0 vs)) 2) as [Hlt|Hge].
    + rewrite offsets_from_length in Hlt. destruct vs; [|simpl in Hlt; lia]. eexists. split; [done|]. by exists [].
    + destruct (null_values_repr vs nulls) as (o & d & Hn & Hr). rewrite Hn. eexists. split; [done|].
      eexists. split; [done|]. symmetry. by apply (imap_fmap_datum DBytes (fun _ => [])).
Qed.

(** What a filter, a range and a null bitmap make of the rows. *)
Definition taken (l : list Datum) (start stop : nat) : list Datum := take (stop - start) (drop start l).
Definition gathered (l : list Datum) (indices : list nat) : list Datum := omap (fun i => l !! i) indices.
Definition cleared (nulls : list Z) (l : list Datum) : list Datum :=
  imap (fun i d => if bit_set nulls i then null_datum d else d) l.

(** C22 Column buffers implement lists of rows: on a buffer that holds the rows [l], appending a
    compatible buffer that holds [k] gives one that holds [l ++ k], filtering by row numbers
    one that holds exactly those rows in that order, slicing one that holds the rows of the
    range, and applying a null bitmap to a Bool, Int64, Float64, String or Binary buffer one
    in which the marked rows are the type's default and the others unchanged, whereas a
    dictionary or vector buffer keeps all its rows, as the code leaves those alone; none of
    them panics.  Compatible buffers are of one kind, with text together below 2^64 bytes,
    vectors of one dimension (or a dimension not set yet) and one codec, and a dictionary
    buffer joined to a dictionary that is not empty holds no NULL index, since the code
    shifts that index too (see [append_shifts_null_index]); the row width of a
    quantized buffer is defined, and text is below 2^64 bytes. *)
Theorem buffers_implement_rows c l :
  repr c l -> has_stride c ->
  match c with CdString _ data | CdBinary _ data => len_of data < U64_MOD | _ => True end ->
  (forall d k, repr d k -> appendable c d -> exists e, append c d = Some e /\ repr e (l ++ k)) /\
  (forall indices, Forall (fun i => (i < length l)%nat) indices ->
    exists e, filter_by_indices c indices = Some e /\ repr e (gathered l indices)) /\
  (forall start stop, (start <= stop)%nat -> exists e, slice_range c start stop = Some e /\ repr e (taken l start stop)) /\
  (forall nulls, exists e, apply_null_bitmap c nulls = Some e /\
    repr e (if clears_nulls c then cleared nulls l else l)).
Proof.
  intros Hc Hs Hfit. split_and!.
  - intros d k. by apply append_rows.
  - intros indices Hi. by apply filter_gathers.
  - intros start stop Hle. by apply slice_takes_range.
  - intros nulls. by apply null_bitmap_clears_rows.
Qed.

(** Three strings, the second null: its text goes, and a slice and a concatenation see the rest. *)
Lemma buffers_implement_rows_witness :
  let c := CdString [0; 1; 3; 4] [97; 98; 98; 99] in
  let l := DBytes <$> [[97]; [98; 98]; [99]] in
  repr c l /\
  (exists e, append c c = Some e /\ repr e (l ++ l)) /\
  (exists e, filter_by_indices c [2; 0]%nat = Some e /\ repr e (DBytes <$> [[99]; [97]])) /\
  (exists e, slice_range c 1 9 = Some e /\ repr e (DBytes <$> [[98; 98]; [99]])) /\
  exists e, apply_null_bitmap c [2] = Some e /\ repr e (DBytes <$> [[97]; []; [99]]).
Proof.
  intros c l. assert (Hc : repr c l) by (exists [[97]; [98; 98]; [99]]; done).
  destruct (buffers_implement_rows c l Hc I eq_refl) as (Ha & Hf & Hs & Hn). split; [exact Hc|].
  split; [by apply Ha|]. split; [apply (Hf [2; 0]%nat); repeat constructor; simpl; lia|].
  split; [by apply (Hs 1%nat 9%nat); lia|exact (Hn [2])].
Defined.

(** ** Dictionaries *)

(** The encoder after the rows [ws]: a dictionary of the distinct values so far, in the order of
    their first row. *)
Definition dict_inv (st : DictState) (dict ws : list (list Z)) : Prop :=
  values_repr (dict_offsets_new st) (dict_data_new st) dict /\ NoDup dict /\
  next_dict_idx st = len_of dict + 1 /\ (length dict <= length ws)%nat /\
  (forall v idx, dict_map st !! v = Some idx <-> 1 <= idx /\ dict !! Z.to_nat (idx - 1) = Some v) /\
  Forall (fun idx => 0 <= idx <= len_of dict) (dict_row_indices st) /\
  dict_datum dict <$> dict_row_indices st = DBytes <$> ws.

Lemma dict_datum_at dict idx v :
  1 <= idx -> dict !! Z.to_nat (idx - 1) = Some v -> idx <= len_of dict /\ dict_datum dict idx = DBytes v.
Proof.
  intros Hi Hv. unfold dict_datum, len_of. rewrite (proj2 (Z.eqb_neq _ _)), Hv by lia.
  apply lookup_lt_Some in Hv. split; [lia|done].
Qed.

Lemma dict_push_inv st dict ws v :
  dict_inv st dict ws -> Z.of_nat (length ws) + 2 < 2 ^ 32 -> exists dict', dict_inv (dict_push st v) dict' (ws ++ [v]).
Proof.
  intros (Hv & Hnd & Hnext & Hlen & Hmap & Hrange & Hrows) Hfit. unfold dict_push.
  destruct (dict_map st !! v) as [idx|] eqn:Hlook.
  - exists dict. apply Hmap in Hlook as [Hge Hat]. destruct (dict_datum_at _ _ _ Hge Hat) as [Hle Hd].
    unfold dict_inv. simpl. rewrite !fmap_app, length_app, Hrows. simpl. rewrite Hd.
    split_and!; try done; [lia|]. apply Forall_app. split; [done|]. constructor; [lia|done].
  - exists (dict ++ [v]).
    assert (Hnot : v ∉ dict).
    { intros (i & Hi)%list_elem_of_lookup. enough (Hs : dict_map st !! v = Some (Z.of_nat i + 1)) by congruence.
      apply Hmap. split; [lia|]. by replace (Z.to_nat (Z.of_nat i + 1 - 1)) with i by lia. }
    pose proof (push_value_repr _ _ _ v Hv) as Hp.
    assert (Hend : (dict ++ [v]) !! Z.to_nat (next_dict_idx st - 1) = Some v).
    { rewrite Hnext. unfold len_of. rewrite lookup_app_r by lia.
      by replace (Z.to_nat (Z.of_nat (length dict) + 1 - 1) - length dict)%nat with 0%nat by lia. }
    assert (Hge : 1 <= next_dict_idx st) by (rewrite Hnext; unfold len_of; lia).
    destruct (dict_datum_at _ _ _ Hge Hend) as [Hle Hd].
    unfold dict_inv. simpl. rewrite !fmap_app. simpl. rewrite Hd. split_and!.
    + exact Hp.
    + apply NoDup_app. split; [done|]. split; [|apply NoDup_singleton]. intros x Hx ->%list_elem_of_singleton. done.
    + rewrite Hnext, len_of_app. unfold len_of. simpl. rewrite Z.mod_small by lia. lia.
    + rewrite !length_app. simpl. lia.
    + intros w idx. destruct (decide (w = v)) as [->|Hne].
      * rewrite lookup_insert_eq. split.
        -- by intros [= <-].
        -- intros [Hi Hat]. f_equal. rewrite Hnext. apply lookup_app_Some in Hat as [Hat|[Hl Hat]].
           ++ destruct Hnot. by eapply list_elem_of_lookup_2.
           ++ apply list_lookup_singleton_Some in Hat as [Hz _]. unfold len_of. lia.
      * rewrite lookup_insert_ne by done. rewrite Hmap. split; intros [Hi Hat]; (split; [done|]).
        -- by apply lookup_app_l_Some.
        -- apply lookup_app_Some in Hat as [Hat|[Hl Hat]]; [done|].
           apply list_lookup_singleton_Some in Hat as [_ Hat]. congruence.
    + apply Forall_app. rewrite len_of_app in *. split.
      * eapply Forall_impl; [exact Hrange|]. simpl. pose proof (len_of_nonneg [v]). lia.
      * constructor; [lia|done].
    + f_equal. rewrite <-Hrows. apply list_fmap_ext. intros i idx Hi. apply dict_datum_app_l.
      exact (Forall_lookup_1 _ _ _ _ Hrange Hi).
Qed.

Lemma dict_pushes_inv ws : forall st dict ws0,
  dict_inv st dict ws0 -> Z.of_nat (length (ws0 ++ ws)) + 2 < 2 ^ 32 ->
  exists dict', dict_inv (foldl dict_push st ws) dict' (ws0 ++ ws).
Proof.
  induction ws as [|w ws IH]; intros st dict ws0 H Hfit; [rewrite app_nil_r; by exists dict|].
  rewrite length_app in Hfit. simpl in Hfit.
  destruct (dict_push_inv st dict ws0 w H ltac:(lia)) as [dict' H'].
  destruct (IH _ _ _ H') as [dict'' H''].
  { rewrite !length_app. simpl. lia. }
  exists dict''. by rewrite <-app_assoc in H''.
Qed.

Lemma values_of_repr vs :
  mapM (value_at (offsets_from 0 vs) (concat vs)) (seq 0 (length vs)) = Some vs.
Proof.
  apply mapM_Some. apply Forall2_same_length_lookup. split; [apply length_seq|]. intros i j v Hi Hv.
  apply lookup_seq in Hi as [-> _]. by rewrite value_at_repr.
Qed.

(** Dictionary encoding keeps the rows; the dictionary has no duplicate. *)
Lemma dict_encode_rows offsets data vs :
  values_repr offsets data vs -> Z.of_nat (length vs) + 2 < 2 ^ 32 ->
  exists indices dict_offsets dict_data dict,
    to_dict_encoded (CdString offsets data) = Some (Some (CdStringDict indices dict_offsets dict_data)) /\
    values_repr dict_offsets dict_data dict /\ NoDup dict /\
    repr (CdStringDict indices dict_offsets dict_data) (DBytes <$> vs).
Proof.
  intros [-> ->] Hfit. unfold to_dict_encoded. rewrite offsets_from_length. simpl. rewrite Nat.sub_0_r.
  destruct (Nat.eqb_spec (length vs) 0) as [Hz|Hnz].
  { apply nil_length_inv in Hz as ->. exists [], [0], [], []. split_and!; [done|done|apply NoDup_nil_2|].
    exists []. by split. }
  rewrite scan_values_fold. cbn [fst snd]. rewrite Nat.sub_0_r, values_of_repr. simpl.
  destruct (dict_pushes_inv vs (mkDict [] [0] [] ∅ 1) [] []) as [dict (Hv & Hnd & _ & _ & _ & Hr & Hrows)].
  { split_and!; try done; [apply NoDup_nil_2|]. intros v idx. simpl. rewrite lookup_empty. split; [done|]. by intros [_ ?]. }
  { done. }
  eexists _, _, _, dict. split_and!; [done|done|done|]. exists dict. split_and!; [done|done|]. by rewrite Hrows.
Qed.

(** A null row becomes an empty string. *)
Definition text_datum (d : Datum) : Datum := match d with DNull => DBytes [] | d => d end.

Lemma dict_decode_rows indices dict_offsets dict_data l :
  repr (CdStringDict indices dict_offsets dict_data) l ->
  exists offsets data, decode_string_dict (CdStringDict indices dict_offsets dict_data) = Some (CdString offsets data) /\
    repr (CdString offsets data) (text_datum <$> l).
Proof.
  intros (dict & [-> ->] & Hrange & ->). unfold decode_string_dict.
  set (text := fun idx => match dict_datum dict idx with DBytes v => v | _ => [] end).
  assert (Hstep : forall o d ws idx, values_repr o d ws -> 0 <= idx <= len_of dict ->
    exists o' d', dict_expand (offsets_from 0 dict) (concat dict) (o, d) idx = Some (o', d') /\
      values_repr o' d' (ws ++ [text idx])).
  { intros o d ws idx Hr Hi. pose proof (push_value_repr _ _ _ (text idx) Hr) as Hp. unfold push_value in Hp.
    unfold dict_expand. rewrite offsets_from_length. unfold text, dict_datum in *.
    destruct (Z.eqb_spec idx 0) as [->|Hne]; simpl in Hp |- *.
    - rewrite app_nil_r in Hp. by eexists _, _.
    - unfold len_of in Hi. destruct (Z.leb_spec (Z.of_nat (S (length dict))) idx); [lia|].
      rewrite !offsets_from_lookup by lia. cbn [mbind option_bind]. rewrite !Z.add_0_l.
      pose proof (slice_concat dict (Z.to_nat (idx - 1)) (Z.to_nat idx) ltac:(lia)) as Hs.
      destruct (lookup_lt_is_Some_2 dict (Z.to_nat (idx - 1)) ltac:(lia)) as [v Hv].
      replace (Z.to_nat idx - Z.to_nat (idx - 1))%nat with 1%nat in Hs by lia.
      rewrite (drop_S dict v _ Hv) in Hs. simpl in Hs. rewrite app_nil_r in Hs. unfold slice in Hs.
      destruct (_ && _) eqn:Hc in Hs; [|done]. injection Hs as Hs. zb. unfold len_of in *.
      rewrite Hv in Hp. rewrite !(proj2 (Z.leb_le _ _)) by lia. cbn [andb]. rewrite Hs, Hv. by eexists _, _. }
  assert (Hall : forall idxs o d ws, values_repr o d ws -> Forall (fun idx => 0 <= idx <= len_of dict) idxs ->
    exists o' d', foldl (fun acc idx => acc ← acc; dict_expand (offsets_from 0 dict) (concat dict) acc idx)
      (Some (o, d)) idxs = Some (o', d') /\ values_repr o' d' (ws ++ (text <$> idxs))).
  { induction idxs as [|idx idxs IH]; intros o d ws Hr Hf; [exists o, d; by rewrite app_nil_r|].
    apply Forall_cons_1 in Hf as [Hi Hf]. destruct (Hstep _ _ _ _ Hr Hi) as (o' & d' & Hx & Hr').
    destruct (IH _ _ _ Hr' Hf) as (o'' & d'' & Hy & Hr''). exists o'', d''. cbn [foldl mbind option_bind]. rewrite Hx.
    rewrite <-app_assoc in Hr''. by split. }
  destruct (Hall indices [0] [] [] ltac:(by split) Hrange) as (o & d & Hf & Hr). rewrite Hf.
  eexists _, _. split; [done|]. eexists. split; [exact Hr|]. simpl. rewrite <-!list_fmap_compose.
  apply list_fmap_ext. intros i idx _. unfold compose, text, dict_datum. simpl.
  destruct (idx =? 0); [done|]. by destruct (dict !! _).
Qed.

(** Dictionary encoding of a string column loses nothing: [to_dict_encoded] succeeds on every
    string buffer of fewer than 2^32 - 2 rows, the encoded buffer holds the same rows, and
    [decode_string_dict] gives a string buffer with the same values back. *)
Theorem dict_encoding_roundtrip offsets data vs :
  values_repr offsets data vs -> Z.of_nat (length vs) + 2 < 2 ^ 32 ->
  exists dict_column, to_dict_encoded (CdString offsets data) = Some (Some dict_column) /\
    repr dict_column (DBytes <$> vs) /\
    exists o d, decode_string_dict dict_column = Some (CdString o d) /\ values_repr o d vs.
Proof.
  intros Hv Hfit. destruct (dict_encode_rows _ _ _ Hv Hfit) as (i & o & d & dict & He & _ & _ & Hr).
  eexists. split; [exact He|]. split; [exact Hr|].
  destruct (dict_decode_rows _ _ _ _ Hr) as (o' & d' & Hd & (ws & Hw & Heq)). eexists _, _. split; [exact Hd|].
  simpl in Heq. rewrite <-list_fmap_compose in Heq. enough (ws = vs) by congruence.
  by apply (inj (fmap DBytes)).
Qed.

Lemma dict_encoding_roundtrip_witness :
  exists dict_column, to_dict_encoded (CdString [0; 1; 3; 4; 4] [97; 98; 99; 97]) = Some (Some dict_column) /\
    repr dict_column (DBytes <$> [[97]; [98; 99]; [97]; []]) /\
    exists o d, decode_string_dict dict_column = Some (CdString o d) /\ values_repr o d [[97]; [98; 99]; [97]; []].
Proof. apply (dict_encoding_roundtrip [0; 1; 3; 4; 4] [97; 98; 99; 97]); [by split|done]. Defined.

(** A null row appended to a column whose dictionary is not empty becomes the last value of that
    dictionary: the index 0 is shifted like the others. *)
Lemma append_shifts_null_index indices dict_offsets dict_data dict v :
  values_repr dict_offsets dict_data (dict ++ [v]) -> len_of dict + 2 < 2 ^ 32 -> len_of dict_data < U64_MOD ->
  Forall (fun idx => 0 <= idx <= len_of (dict ++ [v])) indices ->
  exists e, append (CdStringDict indices dict_offsets dict_data) (CdStringDict [0] [0] []) = Some e /\
    repr e ((dict_datum (dict ++ [v]) <$> indices) ++ [DBytes v]).
Proof.
  intros Hv Hsize Hfit Hi. pose proof Hv as [Ho _]. eexists. split; [done|]. exists (dict ++ [v]).
  pose proof (len_of_nonneg dict).
  assert (Hlen : len_of dict_offsets = len_of dict + 2)
    by (rewrite Ho; unfold len_of; rewrite offsets_from_length, length_app; simpl; lia).
  rewrite (proj2 (Nat.ltb_lt _ _)) by (unfold len_of in *; lia).
  assert (Hidx : wrap32 (0 + (wrap32 (len_of dict_offsets) - 1)) = len_of dict + 1)
    by (rewrite Hlen; unfold wrap32; rewrite (Z.mod_small (len_of dict + 2)) by lia; rewrite Z.mod_small; lia).
  cbn [fmap list_fmap map]. rewrite Hidx. rewrite len_of_app in *. split_and!.
  - destruct (values_append _ _ _ [0] [] [] Hv ltac:(by split) ltac:(by rewrite Z.add_0_r)) as [_ Ha].
    rewrite !app_nil_r in Ha. by rewrite app_nil_r.
  - apply Forall_app. split; [done|]. constructor; [|done]. unfold len_of. simpl. lia.
  - rewrite fmap_app. f_equal. cbn [fmap list_fmap map]. f_equal. unfold dict_datum.
    rewrite (proj2 (Z.eqb_neq _ _)) by lia. unfold len_of. rewrite lookup_app_r by lia.
    by replace (Z.to_nat (Z.of_nat (length dict) + 1 - 1) - length dict)%nat with 0%nat by lia.
Qed.

(** ** Whether to dictionary-encode *)

Lemma sample_strings_size fuel vs row_count step limit i unique :
  (row_count <= length vs)%nat -> (size unique <= limit)%nat ->
  exists u, sample_strings fuel (offsets_from 0 vs) (concat vs) row_count step limit i unique = Some u /\
    (size u <= limit)%nat.
Proof.
  intros Hrows. revert i unique. induction fuel as [|fuel IH]; intros i unique Hsize; [by exists unique|]. simpl.
  destruct (_ && _) eqn:Hc; [|by exists unique]. apply andb_true_iff in Hc as [Hi Hl].
  apply Nat.ltb_lt in Hi, Hl. pose proof (value_at_repr vs i) as Hv. unfold value_at in Hv.
  rewrite !offsets_from_lookup in Hv |- * by lia. cbn [mbind option_bind] in Hv |- *.
  destruct (lookup_lt_is_Some_2 vs i ltac:(lia)) as [v Hat]. rewrite Hat in Hv. rewrite Hv.
  assert (Hs : (size ({[v]} ∪ unique : gset (list Z)) <= limit)%nat).
  { pose proof (size_union_alt {[v]} unique) as Hu. rewrite size_singleton in Hu.
    assert (size (unique ∖ {[v]}) <= size unique)%nat by (apply subseteq_size; set_solver). lia. }
  destruct (_ <=? _); cbn [mbind option_bind]; by apply IH.
Qed.

(** The cardinality test never fails: from 100 rows on, every string column is encoded. *)
Lemma should_dict_encode_rows offsets data vs :
  values_repr offsets data vs ->
  should_dict_encode (CdString offsets data) = Some (100 <=? length vs)%nat.
Proof.
  intros [-> ->]. unfold should_dict_encode. rewrite offsets_from_length.
  replace (S (length vs) - 1)%nat with (length vs) by lia. cbv zeta.
  destruct (Nat.ltb_spec (length vs) 100) as [Hlt|Hge]; [by rewrite (proj2 (Nat.leb_gt _ _))|].
  rewrite (proj2 (Nat.leb_le _ _)) by done.
  destruct (sample_strings_size (length vs) vs (length vs)
    (if (length vs `min` 1000 <? length vs)%nat then (length vs / (length vs `min` 1000))%nat else 1%nat)
    ((length vs `min` 1000) / 5) 0 ∅) as (u & Hu & Hs); [done|rewrite size_empty; lia|].
  rewrite Hu. cbn [mbind option_bind]. f_equal. apply orb_true_iff. right. apply Z.ltb_lt.
  assert ((length vs `min` 1000) / 5 <= 1000)%nat; [|lia]. apply Nat.Div0.div_le_upper_bound. lia.
Qed.
