(* ===== verification/ColumnCodec.v ===== *)
(** * The plain column format

    Models [to_bytes], [write_to], [from_bytes_typed] and [skip_bytes_typed] of
    [storage/on_demand/types.rs].  Lengths and positions are [usize]: sums and products of what a
    file says wrap around, as in a release build, and a vector of more than [isize::MAX] bytes
    panics.  Copies between integer vectors and bytes are little-endian. *)
From S2P Require Import Prelude Bytes Bits Values Columns ColumnRows.
Local Open Scope Z_scope.
Local Open Scope apex_scope.

(** ** Writing *)

Definition i64s_bytes (v : list Z) : list Z := v ≫= to_le 8.
Definition u32s_bytes (v : list Z) : list Z := v ≫= to_le 4.

Definition offsets_to_u32 (offsets : list Z) : list Z := wrap32 <$> offsets.

Definition of_option {A} (o : option A) : Outcome A := match o with Some a => Done a | None => Panic end.
Definition of_result {A} (r : Result A) : Outcome A := match r with Ok a => Done a | Err _ => Invalid end.

Definition list_bytes (count : nat) (dim : Z) (data : list Z) : list Z :=
  to_le 8 (Z.of_nat count) ++ to_le 4 dim ++ data.

Definition text_bytes (offsets data : list Z) : list Z :=
  let disk_offsets := offsets_to_u32 offsets in
  to_le 8 (Z.of_nat (length offsets - 1)) ++ u32s_bytes disk_offsets ++ to_le 8 (len_of data) ++ data.

Definition dict_bytes (indices dict_offsets dict_data : list Z) : list Z :=
  let disk_dict_offsets := offsets_to_u32 dict_offsets in
  to_le 8 (len_of indices) ++ to_le 8 (len_of disk_dict_offsets) ++ u32s_bytes indices ++
  u32s_bytes disk_dict_offsets ++ to_le 8 (len_of dict_data) ++ dict_data.

(** The row count of a buffer of fixed-width rows. *)
Definition row_count_of (data : list Z) (dim width : Z) : option nat :=
  if dim =? 0 then Some 0%nat else rows_of_width data width.

Definition to_bytes (c : ColumnData) : option (list Z) :=
  match c with
  | CdBool data len =>
      let n := byte_len len in
      let buf := to_le 8 (Z.of_nat len) ++ take (n `min` length data) data in
      Some (if (length data <? n)%nat then resize (8 + n) 0 buf else buf)
  | CdInt64 v | CdFloat64 v => Some (to_le 8 (len_of v) ++ i64s_bytes v)
  | CdString offsets data | CdBinary offsets data => Some (text_bytes offsets data)
  | CdStringDict indices dict_offsets dict_data => Some (dict_bytes indices dict_offsets dict_data)
  | CdFixedList data dim => count ← row_count_of data dim (dim * 4); Some (list_bytes count dim data)
  | CdFloat16List data dim => count ← row_count_of data dim (dim * 2); Some (list_bytes count dim data)
  | CdQuantizedList data dim codec =>
      count ← (if dim =? 0 then Some 0%nat else width ← expect (row_width codec dim); rows_of_width data width);
      Some (list_bytes count dim data)
  end.

(** The bytes that [write_to] writes, the writer never failing. *)
Definition write_to (c : ColumnData) : Outcome (list Z) :=
  match c with
  | CdBool data len =>
      let n := byte_len len in
      Done (to_le 8 (Z.of_nat len) ++ take (n `min` length data) data ++
            (if (length data <? n)%nat then replicate (n - length data) 0 else []))
  | CdInt64 v | CdFloat64 v => Done (to_le 8 (len_of v) ++ i64s_bytes v)
  | CdString offsets data | CdBinary offsets data => Done (text_bytes offsets data)
  | CdStringDict indices dict_offsets dict_data => Done (dict_bytes indices dict_offsets dict_data)
  | CdFixedList data dim =>
      outcome_bind (of_option (row_count_of data dim (dim * 4))) (fun count => Done (list_bytes count dim data))
  | CdFloat16List data dim =>
      outcome_bind (of_option (row_count_of data dim (dim * 2))) (fun count => Done (list_bytes count dim data))
  | CdQuantizedList data dim codec =>
      outcome_bind
        (if dim =? 0 then Done 0%nat
         else outcome_bind (of_result (row_width codec dim)) (fun width => of_option (rows_of_width data width)))
        (fun count => Done (list_bytes count dim data))
  end.

(** ** Reading *)

(** [read_u64!] *)
Definition take_u64 : Reader Z := read_u Invalid 8.

(** [bytes[pos..pos + n]] behind the test [pos + n > bytes.len()]. *)
Definition take_checked (pos n : Z) : Reader (list Z) := fun bs =>
  let stop := wrap64 (pos + n) in
  if pos + len_of bs <? stop then Invalid
  else if stop <? pos then Panic
  else Done (take (Z.to_nat n) bs, drop (Z.to_nat n) bs).

(** [isize::MAX + 1] *)
Definition ISIZE_MOD : Z := 9223372036854775808.

(** A vector of [count] elements of [size] bytes filled from the file, behind the same test. *)
Definition take_vec (pos count size : Z) : Reader (list Z) := fun bs =>
  let n := wrap64 (count * size) in
  if pos + len_of bs <? wrap64 (pos + n) then Invalid
  else if ISIZE_MOD <=? count * size then Panic
  else next Panic n bs.

(** The elements of a copied vector. *)
Definition elements (dec : list Z -> Z) (size : nat) (count : Z) (bytes : list Z) : list Z :=
  (fun k => dec (take size (drop (k * size) bytes))) <$> seq 0 (Z.to_nat count).

Definition i64_elements : Z -> list Z -> list Z := elements i_from_le 8.
Definition u64_elements : Z -> list Z -> list Z := elements u_from_le 8.
Definition u32_elements : Z -> list Z -> list Z := elements u_from_le 4.

(** Count, offsets, data length and data of a text or binary column. *)
Definition read_text : Reader (list Z * list Z) :=
  let! count := take_u64 in
  let n := wrap64 (count + 1) in
  let! disk_offsets := take_vec 8 n 4 in
  let! data_len := take_u64 in
  let! data := take_checked (8 + wrap64 (n * 4) + 8) data_len in
  ret (u32_elements n disk_offsets, data).

Definition read_list (width : Z -> Outcome Z) : Reader (list Z * Z) :=
  let! count := take_u64 in
  let! dim := read_u Invalid 4 in
  let! byte_len := (fun bs => match width dim with
                              | Done w => Done (wrap64 (count * w), bs) | Invalid => Invalid | Panic => Panic end) in
  let! data := take_checked 12 byte_len in
  ret (data, dim).

(** [count.checked_mul(codec.row_width(dim)?)] *)
Definition read_quantized (codec : VectorCodec) : Reader (list Z * Z) :=
  let! count := take_u64 in
  let! dim := read_u Invalid 4 in
  let! byte_len := (fun bs => match result_bind (row_width codec dim) (fun w => checked (count * w)) with
                              | Ok n => Done (n, bs) | Err _ => Invalid end) in
  let! data := take_checked 12 byte_len in
  ret (data, dim).

Definition from_bytes_typed (t : ColumnType) : Reader ColumnData :=
  match t with
  | TBool =>
      let! len := take_u64 in
      let! data := take_checked 8 (wrap64 (len + 7) / 8) in
      ret (CdBool data (Z.to_nat len))
  | TInt64 | TInt8 | TInt16 | TInt32 | TUInt8 | TUInt16 | TUInt32 | TUInt64
  | TTimestamp | TTimestampTz | TDate | TTime | TInterval =>
      let! count := take_u64 in
      let! v := take_vec 8 count 8 in
      ret (CdInt64 (i64_elements count v))
  | TFloat64 | TFloat32 =>
      let! count := take_u64 in
      let! v := take_vec 8 count 8 in
      ret (CdFloat64 (u64_elements count v))
  | TString | TJson => let! text := read_text in ret (CdString text.1 text.2)
  | TBinary | TBlob | TUuid | TDecimal128 | TList | TExtension =>
      let! text := read_text in ret (CdBinary text.1 text.2)
  | TStringDict =>
      let! row_count := take_u64 in
      let! dict_size := take_u64 in
      let! indices := take_vec 16 row_count 4 in
      let! dict_offsets := take_vec (16 + wrap64 (row_count * 4)) dict_size 4 in
      let! dict_data_len := take_u64 in
      let! dict_data := take_checked (16 + wrap64 (row_count * 4) + wrap64 (dict_size * 4) + 8) dict_data_len in
      ret (CdStringDict (u32_elements row_count indices) (u32_elements dict_size dict_offsets) dict_data)
  | TFixedList => let! l := read_list (fun dim => Done (dim * 4)) in ret (CdFixedList l.1 l.2)
  | TFloat16List => let! l := read_list (fun dim => Done (dim * 2)) in ret (CdFloat16List l.1 l.2)
  | TBFloat16List => let! l := read_quantized VBFloat16 in ret (CdQuantizedList l.1 l.2 VBFloat16)
  | TInt8Vector => let! l := read_quantized VInt8 in ret (CdQuantizedList l.1 l.2 VInt8)
  | TUInt8Vector => let! l := read_quantized VUInt8 in ret (CdQuantizedList l.1 l.2 VUInt8)
  | TBit1Vector => let! l := read_quantized VBit1 in ret (CdQuantizedList l.1 l.2 VBit1)
  | TTurboQuant2Vector => let! l := read_quantized VTurboQuant2 in ret (CdQuantizedList l.1 l.2 VTurboQuant2)
  | TTurboQuant3Vector => let! l := read_quantized VTurboQuant3 in ret (CdQuantizedList l.1 l.2 VTurboQuant3)
  | TTurboQuant4Vector => let! l := read_quantized VTurboQuant4 in ret (CdQuantizedList l.1 l.2 VTurboQuant4)
  | TNull =>
      let! count := take_u64 in
      let! _ := (fun bs => let n := Z.min (wrap64 (count * 8)) (len_of bs) in
                           Done (tt, drop (Z.to_nat n) bs)) in
      fun bs => if ISIZE_MOD <=? count * 8 then Panic
                else Done (CdInt64 (replicate (Z.to_nat count) 0), bs)
  end.

(** *** Skipping *)

(** [read_u64!] at a position *)
Definition u64_at (bytes : list Z) (pos : Z) : Outcome Z :=
  let stop := wrap64 (pos + 8) in
  if len_of bytes <? stop then Invalid
  else if stop <? pos then Panic
  else Done (u_from_le (take 8 (drop (Z.to_nat pos) bytes))).

(** [pos += n] *)
Definition advance (pos n : Z) : Z := wrap64 (pos + n).

(** The position after a count, a dimension and the rows. *)
Definition skip_list (bytes : list Z) (width : Z -> Outcome Z) : Outcome Z :=
  outcome_bind (u64_at bytes 0) (fun count =>
  if len_of bytes <? 12 then Invalid
  else
    let dim := u_from_le (take 4 (drop 8 bytes)) in
    outcome_bind (width dim) (fun w => Done (advance 12 (wrap64 (count * w))))).

Definition skip_quantized (bytes : list Z) (codec : VectorCodec) : Outcome Z :=
  outcome_bind (u64_at bytes 0) (fun count =>
  if len_of bytes <? 12 then Invalid
  else
    let dim := u_from_le (take 4 (drop 8 bytes)) in
    outcome_bind (of_result (result_bind (row_width codec dim) (fun w => checked (count * w)))) (fun n =>
    of_result (checked (12 + n)))).

Definition skip_position (bytes : list Z) (t : ColumnType) : Outcome Z :=
  match t with
  | TBool => outcome_bind (u64_at bytes 0) (fun len => Done (advance 8 (wrap64 (len + 7) / 8)))
  | TInt64 | TInt8 | TInt16 | TInt32 | TUInt8 | TUInt16 | TUInt32 | TUInt64
  | TTimestamp | TTimestampTz | TDate | TTime | TInterval | TFloat64 | TFloat32 | TNull =>
      outcome_bind (u64_at bytes 0) (fun count => Done (advance 8 (wrap64 (count * 8))))
  | TString | TJson | TBinary | TBlob | TUuid | TDecimal128 | TList | TExtension =>
      outcome_bind (u64_at bytes 0) (fun count =>
      let pos := advance 8 (wrap64 (wrap64 (count + 1) * 4)) in
      outcome_bind (u64_at bytes pos) (fun data_len => Done (advance (pos + 8) data_len)))
  | TStringDict =>
      outcome_bind (u64_at bytes 0) (fun row_count =>
      outcome_bind (u64_at bytes 8) (fun dict_size =>
      let pos := advance (advance 16 (wrap64 (row_count * 4))) (wrap64 (dict_size * 4)) in
      outcome_bind (u64_at bytes pos) (fun dict_data_len => Done (advance (pos + 8) dict_data_len))))
  | TFixedList => skip_list bytes (fun dim => Done (dim * 4))
  | TFloat16List => skip_list bytes (fun dim => Done (dim * 2))
  | TBFloat16List => skip_quantized bytes VBFloat16
  | TInt8Vector => skip_quantized bytes VInt8
  | TUInt8Vector => skip_quantized bytes VUInt8
  | TBit1Vector => skip_quantized bytes VBit1
  | TTurboQuant2Vector => skip_quantized bytes VTurboQuant2
  | TTurboQuant3Vector => skip_quantized bytes VTurboQuant3
  | TTurboQuant4Vector => skip_quantized bytes VTurboQuant4
  end.

Definition skip_bytes_typed (bytes : list Z) (t : ColumnType) : Outcome Z :=
  outcome_bind (skip_position bytes t) (fun pos => if len_of bytes <? pos then Invalid else Done pos).

(** ** Reading what was written *)

Lemma reads_take_checked pos n data :
  n = len_of data -> 0 <= pos -> pos + n < U64_MOD -> reads (take_checked pos n) data data.
Proof.
  intros -> Hpos Hfit rest. unfold take_checked. pose proof (len_of_nonneg data).
  rewrite wrap64_small by (unfold u64, U64_MAX, U64_MOD in *; lia). rewrite len_of_app. pose proof (len_of_nonneg rest).
  rewrite !(proj2 (Z.ltb_ge _ _)) by lia. unfold len_of. by rewrite Nat2Z.id, take_app_length, drop_app_length.
Qed.

Lemma reads_take_vec pos count size data :
  len_of data = count * size -> 0 <= pos -> count * size < ISIZE_MOD -> pos + count * size < U64_MOD ->
  reads (take_vec pos count size) data data.
Proof.
  intros Hlen Hpos Hsize Hfit rest. unfold take_vec. pose proof (len_of_nonneg data) as Hnn. rewrite Hlen in Hnn.
  rewrite (wrap64_small (count * size)), wrap64_small by (unfold u64, U64_MAX, U64_MOD, ISIZE_MOD in *; lia).
  rewrite len_of_app.
  pose proof (len_of_nonneg rest). rewrite (proj2 (Z.ltb_ge _ _)), (proj2 (Z.leb_gt _ _)) by lia.
  apply reads_next. by rewrite <-Hlen.
Qed.

Lemma reads_u64 x : u64 x -> reads take_u64 (to_le 8 x) x.
Proof. intros Hx. apply (reads_u Invalid 8). unfold unsigned, width. unfold u64, U64_MAX in Hx. simpl. lia. Qed.

Lemma reads_len {A} (l : list A) : len_of l < U64_MOD -> reads take_u64 (to_le 8 (len_of l)) (len_of l).
Proof. intros Hl. apply reads_u64. pose proof (len_of_nonneg l). unfold u64, U64_MAX, U64_MOD in *. lia. Qed.

Lemma elements_encoded dec (enc : Z -> list Z) size v :
  Forall (fun x => length (enc x) = size /\ dec (enc x) = x) v -> elements dec size (len_of v) (v ≫= enc) = v.
Proof.
  intros Hv. unfold elements, len_of. rewrite Nat2Z.id.
  induction Hv as [|x v [Hlen Hdec] _ IH]; [done|].
  change (length (x :: v)) with (S (length v)). rewrite <-cons_seq, <-fmap_S_seq, fmap_cons. rewrite bind_cons. f_equal.
  - simpl. rewrite drop_0, <-Hlen, take_app_length. done.
  - rewrite <-list_fmap_compose. rewrite <-IH at 2. apply list_fmap_ext. intros i k _. unfold compose.
    replace (S k * size)%nat with (length (enc x) + k * size)%nat by lia. by rewrite drop_app_add.
Qed.

Lemma encoded_length {A} (enc : A -> list Z) size v : (forall x, length (enc x) = size) -> len_of (v ≫= enc) = len_of v * Z.of_nat size.
Proof.
  intros Hlen. induction v as [|x v IH]; [done|]. rewrite bind_cons, len_of_app, IH. unfold len_of. simpl. rewrite Hlen. lia.
Qed.

Lemma i64s_elements v : Forall (signed 8) v -> i64_elements (len_of v) (i64s_bytes v) = v.
Proof.
  intros Hv. apply elements_encoded. eapply Forall_impl; [exact Hv|]. intros x Hx.
  split; [apply to_le_length|by apply i_from_to_le].
Qed.

Lemma u64s_elements v : Forall (unsigned 8) v -> u64_elements (len_of v) (i64s_bytes v) = v.
Proof.
  intros Hv. apply elements_encoded. eapply Forall_impl; [exact Hv|]. intros x Hx.
  split; [apply to_le_length|by apply u_from_to_le].
Qed.

Lemma u32s_elements v : Forall (unsigned 4) v -> u32_elements (len_of v) (u32s_bytes v) = v.
Proof.
  intros Hv. apply elements_encoded. eapply Forall_impl; [exact Hv|]. intros x Hx.
  split; [apply to_le_length|by apply u_from_to_le].
Qed.

Lemma i64s_length v : len_of (i64s_bytes v) = len_of v * 8.
Proof. apply (encoded_length _ 8). intros x. apply to_le_length. Qed.
Lemma u32s_length v : len_of (u32s_bytes v) = len_of v * 4.
Proof. apply (encoded_length _ 4). intros x. apply to_le_length. Qed.

(** Offsets below 2^32 are stored as they are. *)
Lemma offsets_to_u32_id offsets : Forall (unsigned 4) offsets -> offsets_to_u32 offsets = offsets.
Proof.
  intros Ho. unfold offsets_to_u32. rewrite <-(list_fmap_id offsets) at 2. apply list_fmap_ext.
  intros i o Hi. pose proof (Forall_lookup_1 _ _ _ _ Ho Hi) as H. unfold unsigned, width in H. simpl in H.
  unfold wrap32. apply Z.mod_small. simpl. lia.
Qed.

Lemma offsets_unsigned vs : len_of (concat vs) < 2 ^ 32 -> Forall (unsigned 4) (offsets_from 0 vs).
Proof.
  intros Hfit. apply Forall_forall. intros o (i & Hi)%list_elem_of_lookup. apply lookup_lt_Some in Hi as Hlt.
  rewrite offsets_from_length in Hlt. rewrite offsets_from_lookup in Hi by lia. injection Hi as <-.
  pose proof (len_of_nonneg (concat (take i vs))). rewrite <-(take_drop i vs), concat_app, len_of_app in Hfit.
  pose proof (len_of_nonneg (concat (drop i vs))). unfold unsigned, width. simpl. lia.
Qed.

(** The sizes that a column may have: below 2^56 rows, text and dictionary data below 4 GiB. *)
Definition MAX_ROWS : Z := 2 ^ 56.

Definition storable (c : ColumnData) : Prop :=
  match c with
  | CdBool _ len => Z.of_nat len < MAX_ROWS
  | CdInt64 v => len_of v < MAX_ROWS /\ Forall (signed 8) v
  | CdFloat64 v => len_of v < MAX_ROWS /\ Forall (unsigned 8) v
  | CdString offsets data | CdBinary offsets data => len_of offsets < MAX_ROWS /\ len_of data < 2 ^ 32
  | CdStringDict indices dict_offsets dict_data =>
      len_of indices < MAX_ROWS /\ len_of dict_offsets < 2 ^ 32 /\ len_of dict_data < 2 ^ 32
  | CdFixedList data dim | CdFloat16List data dim | CdQuantizedList data dim _ =>
      len_of data < MAX_ROWS /\ dim < 2 ^ 32
  end.

(** The buffer is of the kind that the column type stores. *)
Definition holds_type (t : ColumnType) (c : ColumnData) : bool :=
  match t, c with
  | TBool, CdBool _ _ => true
  | (TInt64 | TInt8 | TInt16 | TInt32 | TUInt8 | TUInt16 | TUInt32 | TUInt64
    | TTimestamp | TTimestampTz | TDate | TTime | TInterval), CdInt64 _ => true
  | (TFloat64 | TFloat32), CdFloat64 _ => true
  | (TString | TJson), CdString _ _ => true
  | (TBinary | TBlob | TUuid | TDecimal128 | TList | TExtension), CdBinary _ _ => true
  | TStringDict, CdStringDict _ _ _ => true
  | TFixedList, CdFixedList _ _ => true
  | TFloat16List, CdFloat16List _ _ => true
  | (TBFloat16List | TInt8Vector | TUInt8Vector | TBit1Vector | TTurboQuant2Vector | TTurboQuant3Vector
    | TTurboQuant4Vector), CdQuantizedList _ _ codec => bool_decide (vector_codec t = Some codec)
  | _, _ => false
  end.

Ltac size_lia := unfold u64, MAX_ROWS, U64_MOD, U64_MAX, ISIZE_MOD, len_of in *; lia.

Lemma reads_text offsets data vs :
  values_repr offsets data vs -> len_of offsets < MAX_ROWS -> len_of data < 2 ^ 32 ->
  reads read_text (text_bytes offsets data) (offsets, data).
Proof.
  intros [Ho Hd] Hrows Hdata. pose proof (offsets_unsigned vs ltac:(by rewrite <-Hd)) as Hu. rewrite <-Ho in Hu.
  assert (Hlen : len_of offsets = Z.of_nat (length offsets - 1) + 1)
    by (rewrite Ho; unfold len_of; rewrite offsets_from_length; lia).
  unfold text_bytes, read_text. rewrite offsets_to_u32_id by done.
  eapply reads_bind; [apply reads_u64; size_lia|]. rewrite <-Hlen, !(wrap64_small (len_of offsets)) by size_lia.
  eapply reads_bind.
  { apply reads_take_vec; [apply u32s_length|size_lia..]. }
  eapply reads_bind; [apply reads_len; size_lia|].
  eapply reads_last_eq.
  - apply reads_take_checked; [done|rewrite wrap64_small by size_lia; size_lia..].
  - by rewrite u32s_elements.
Qed.

Lemma reads_dict indices dict_offsets dict_data dict :
  values_repr dict_offsets dict_data dict -> Forall (fun idx => 0 <= idx <= len_of dict) indices ->
  storable (CdStringDict indices dict_offsets dict_data) ->
  reads (from_bytes_typed TStringDict) (dict_bytes indices dict_offsets dict_data)
    (CdStringDict indices dict_offsets dict_data).
Proof.
  intros [Ho Hd] Hi (Hrows & Hsize & Hdata). pose proof (offsets_unsigned dict ltac:(by rewrite <-Hd)) as Hu.
  rewrite <-Ho in Hu. assert (Hlen : len_of dict_offsets = len_of dict + 1)
    by (rewrite Ho; unfold len_of; rewrite offsets_from_length; lia).
  assert (Hidx : Forall (unsigned 4) indices).
  { eapply Forall_impl; [exact Hi|]. intros idx Hr. unfold unsigned, width. size_lia. }
  unfold dict_bytes. rewrite offsets_to_u32_id by done. cbn [from_bytes_typed].
  eapply reads_bind; [apply reads_len; size_lia|]. eapply reads_bind; [apply reads_len; size_lia|].
  eapply reads_bind; [apply reads_take_vec; [apply u32s_length|size_lia..]|].
  eapply reads_bind.
  { apply reads_take_vec; [apply u32s_length|rewrite ?wrap64_small by size_lia; size_lia..]. }
  eapply reads_bind; [apply reads_len; size_lia|].
  eapply reads_last_eq.
  - apply reads_take_checked; [done|rewrite !wrap64_small by size_lia; size_lia..].
  - by rewrite !u32s_elements.
Qed.

(** The row count written before a buffer of fixed-width rows gives back its length. *)
Lemma list_count data dim w l :
  list_repr data dim (Ok w) l -> exists count, row_count_of data dim w = Some count /\ Z.of_nat count * w = len_of data.
Proof.
  unfold row_count_of. intros [(-> & -> & ->)|(Hd & w' & vs & [= <-] & (-> & Hvs & Hw) & ->)].
  - exists 0%nat. split; [done|]. by unfold len_of.
  - rewrite (proj2 (Z.eqb_neq _ _)) by lia. exists (length vs). split; [by apply rows_of_width_repr|].
    by rewrite (len_of_rows w).
Qed.

Lemma dim_nonneg data dim stride l : list_repr data dim stride l -> 0 <= dim.
Proof. intros [(-> & _)|(Hd & _)]; lia. Qed.

Lemma reads_list stride data dim w count :
  stride dim = Done w -> 0 <= dim < 2 ^ 32 -> Z.of_nat count * w = len_of data -> len_of data < MAX_ROWS ->
  Z.of_nat count < MAX_ROWS ->
  reads (read_list stride) (list_bytes count dim data) (data, dim).
Proof.
  intros Hw Hdim Hcount Hlen Hc. unfold read_list, list_bytes. pose proof (len_of_nonneg data).
  eapply reads_bind; [apply reads_u64; size_lia|].
  eapply reads_bind; [apply (reads_u Invalid 4); unfold unsigned, width; change (256 ^ Z.of_nat 4) with (2 ^ 32); lia|].
  eapply (reads_bind _ _ [] _ (len_of data)).
  { intros rest. rewrite Hw, Hcount, wrap64_small by size_lia. done. }
  eapply reads_last_eq; [apply reads_take_checked; [done|size_lia..]|done].
Qed.

Lemma reads_quantized codec data dim w count :
  row_width codec dim = Ok w -> 0 <= dim < 2 ^ 32 -> Z.of_nat count * w = len_of data -> len_of data < MAX_ROWS ->
  Z.of_nat count < MAX_ROWS ->
  reads (read_quantized codec) (list_bytes count dim data) (data, dim).
Proof.
  intros Hw Hdim Hcount Hlen Hc. unfold read_quantized, list_bytes. pose proof (len_of_nonneg data).
  eapply reads_bind; [apply reads_u64; size_lia|].
  eapply reads_bind; [apply (reads_u Invalid 4); unfold unsigned, width; change (256 ^ Z.of_nat 4) with (2 ^ 32); lia|].
  eapply (reads_bind _ _ [] _ (len_of data)).
  { intros rest. rewrite Hw. simpl. unfold checked. rewrite Hcount, (proj2 (Z.leb_le _ _)) by size_lia. done. }
  eapply reads_last_eq; [apply reads_take_checked; [done|size_lia..]|done].
Qed.

(** A count of rows is at most the length of the data. *)
Lemma list_count_small data dim w l count :
  list_repr data dim (Ok w) l -> row_count_of data dim w = Some count -> len_of data < MAX_ROWS -> Z.of_nat count < MAX_ROWS.
Proof.
  unfold row_count_of. intros [(-> & -> & ->)|(Hd & w' & vs & [= <-] & (-> & Hvs & Hw) & ->)] Hc Hlen.
  - injection Hc as <-. size_lia.
  - rewrite (proj2 (Z.eqb_neq _ _)), (rows_of_width_repr w) in Hc by (done || lia). injection Hc as <-.
    rewrite (len_of_rows w) in Hlen by done. unfold len_of in Hlen. nia.
Qed.

Lemma bool_bytes bits :
  to_bytes (CdBool (pack_bits bits) (length bits)) = Some (to_le 8 (Z.of_nat (length bits)) ++ pack_bits bits).
Proof. simpl. by rewrite pack_bits_length, Nat.min_id, Nat.ltb_irrefl, firstn_all2 by by rewrite pack_bits_length. Qed.

Lemma list_roundtrip width data dim w l :
  list_repr data dim (Ok w) l -> width dim = Done w -> len_of data < MAX_ROWS -> dim < 2 ^ 32 ->
  exists count, row_count_of data dim w = Some count /\ reads (read_list width) (list_bytes count dim data) (data, dim).
Proof.
  intros Hr Hw Hlen Hdim. destruct (list_count _ _ _ _ Hr) as (count & Hc & Hmul). exists count. split; [done|].
  eapply reads_list; [exact Hw| |exact Hmul|done|by eapply list_count_small]. pose proof (dim_nonneg _ _ _ _ Hr). lia.
Qed.

Lemma quantized_roundtrip codec data dim l :
  list_repr data dim (row_width codec dim) l -> is_ok (row_width codec dim) = true -> len_of data < MAX_ROWS ->
  dim < 2 ^ 32 ->
  exists bytes, to_bytes (CdQuantizedList data dim codec) = Some bytes /\ reads (read_quantized codec) bytes (data, dim).
Proof.
  intros Hr Hok Hlen Hdim. destruct (row_width codec dim) as [w|] eqn:Hw; [|done].
  destruct (list_count _ _ _ _ Hr) as (count & Hc & Hmul). exists (list_bytes count dim data). split.
  - simpl. rewrite Hw. unfold row_count_of in Hc. simpl. by rewrite Hc.
  - eapply reads_quantized; [exact Hw| |exact Hmul|done|by eapply list_count_small].
    pose proof (dim_nonneg _ _ _ _ Hr). lia.
Qed.

(** A stored column is read back, whatever follows it. *)
Lemma plain_roundtrip c l t :
  repr c l -> storable c -> has_stride c -> holds_type t c = true ->
  exists bytes, to_bytes c = Some bytes /\ reads (from_bytes_typed t) bytes c.
Proof.
  intros Hr Hs Hw Ht. destruct c as [data len|v|v|offsets data|offsets data|indices offs data|data dim|data dim|data dim codec].
  - destruct t; try done. destruct Hr as (bits & -> & -> & ->). rewrite bool_bytes. eexists. split; [done|].
    cbn [from_bytes_typed]. simpl in Hs. pose proof (byte_len_spec (length bits)) as Hb.
    assert (Hlen : wrap64 (Z.of_nat (length bits) + 7) / 8 = len_of (pack_bits bits)).
    { rewrite wrap64_small by size_lia. unfold len_of. rewrite pack_bits_length. unfold byte_len.
      rewrite Nat2Z.inj_div. f_equal. lia. }
    eapply reads_bind; [apply reads_u64; size_lia|].
    eapply reads_last_eq; [apply reads_take_checked; [exact Hlen|lia|]|by rewrite Nat2Z.id].
    rewrite Hlen. unfold len_of. rewrite pack_bits_length. size_lia.
  - destruct Hs as [Hrows Hv].
    assert (Hread : reads (from_bytes_typed TInt64) (to_le 8 (len_of v) ++ i64s_bytes v) (CdInt64 v)).
    { cbn [from_bytes_typed]. pose proof (len_of_nonneg v). eapply reads_bind; [apply reads_len; size_lia|].
      eapply reads_last_eq; [apply reads_take_vec; [apply i64s_length|size_lia..]|by rewrite i64s_elements]. }
    destruct t; try done; by eexists.
  - destruct Hs as [Hrows Hv].
    assert (Hread : reads (from_bytes_typed TFloat64) (to_le 8 (len_of v) ++ i64s_bytes v) (CdFloat64 v)).
    { cbn [from_bytes_typed]. pose proof (len_of_nonneg v). eapply reads_bind; [apply reads_len; size_lia|].
      eapply reads_last_eq; [apply reads_take_vec; [apply i64s_length|size_lia..]|by rewrite u64s_elements]. }
    destruct t; try done; by eexists.
  - destruct Hr as (vs & Hv & ->), Hs as [Hrows Hdata]. pose proof (reads_text _ _ _ Hv Hrows Hdata) as Hread.
    destruct t; try done; eexists; (split; [done|]); by eapply reads_last_eq.
  - destruct Hr as (vs & Hv & ->), Hs as [Hrows Hdata]. pose proof (reads_text _ _ _ Hv Hrows Hdata) as Hread.
    destruct t; try done; eexists; (split; [done|]); by eapply reads_last_eq.
  - destruct t; try done. destruct Hr as (dict & Hv & Hi & ->). eexists. split; [done|]. by eapply reads_dict.
  - destruct t; try done. destruct Hs as [Hlen Hdim].
    destruct (list_roundtrip (fun dim => Done (dim * 4)) _ _ _ _ Hr eq_refl Hlen Hdim) as (count & Hc & Hread).
    simpl. rewrite Hc. eexists. split; [done|]. by eapply reads_last_eq.
  - destruct t; try done. destruct Hs as [Hlen Hdim].
    destruct (list_roundtrip (fun dim => Done (dim * 2)) _ _ _ _ Hr eq_refl Hlen Hdim) as (count & Hc & Hread).
    simpl. rewrite Hc. eexists. split; [done|]. by eapply reads_last_eq.
  - destruct Hs as [Hlen Hdim]. destruct (quantized_roundtrip _ _ _ _ Hr Hw Hlen Hdim) as (bytes & Hb & Hread).
    exists bytes. split; [done|].
    destruct t; try done; apply bool_decide_eq_true in Ht; simpl in Ht; injection Ht as <-; by eapply reads_last_eq.
Qed.

(** [write_to] writes [to_bytes]. *)
Lemma write_to_bytes c bytes : to_bytes c = Some bytes -> write_to c = Done bytes.
Proof.
  destruct c as [data len|v|v|offsets data|offsets data|indices offs data|data dim|data dim|data dim codec];
    unfold to_bytes, write_to; try (by intros [= <-]).
  - intros [= <-]. f_equal. destruct (Nat.ltb_spec (length data) (byte_len len)) as [Hlt|Hge]; [|by rewrite app_nil_r].
    rewrite Nat.min_r by lia. by rewrite firstn_all, resize_ge by lia.
  - destruct (row_count_of data dim (dim * 4)); [|done]. by intros [= <-].
  - destruct (row_count_of data dim (dim * 2)); [|done]. by intros [= <-].
  - destruct (dim =? 0); [by intros [= <-]|]. destruct (row_width codec dim) as [w|e]; [|done]. simpl.
    destruct (rows_of_width data w); [|done]. by intros [= <-].
Qed.

(** ** Skipping agrees with reading *)

Section skipping.
Context (bytes : list Z) (Hsmall : len_of bytes < ISIZE_MOD).

Lemma drop_len pos : 0 <= pos <= len_of bytes -> len_of (drop (Z.to_nat pos) bytes) = len_of bytes - pos.
Proof using. unfold len_of. rewrite length_drop. lia. Qed.

Lemma drop_further pos n : 0 <= pos -> 0 <= n -> drop (Z.to_nat n) (drop (Z.to_nat pos) bytes) = drop (Z.to_nat (pos + n)) bytes.
Proof using. intros. rewrite drop_drop. f_equal. lia. Qed.

Lemma u64_at_read pos x rest :
  0 <= pos <= len_of bytes -> take_u64 (drop (Z.to_nat pos) bytes) = Done (x, rest) ->
  u64_at bytes pos = Done x /\ rest = drop (Z.to_nat (pos + 8)) bytes /\ pos + 8 <= len_of bytes.
Proof using Hsmall.
  intros Hpos. unfold take_u64, read_u, bind, next. change (Z.of_nat (length (drop (Z.to_nat pos) bytes)))
    with (len_of (drop (Z.to_nat pos) bytes)). rewrite drop_len by done.
  destruct (Z.leb_spec 8 (len_of bytes - pos)) as [Hle|]; [|done]. unfold ret. intros [= <- <-].
  unfold u64_at. rewrite wrap64_small by size_lia. rewrite !(proj2 (Z.ltb_ge _ _)) by lia.
  split; [done|]. split; [|lia]. by rewrite drop_further by lia.
Qed.

Lemma take_checked_read pos n d rest :
  0 <= pos <= len_of bytes -> u64 n -> take_checked pos n (drop (Z.to_nat pos) bytes) = Done (d, rest) ->
  advance pos n = pos + n /\ rest = drop (Z.to_nat (pos + n)) bytes /\ pos + n <= len_of bytes.
Proof using Hsmall.
  intros Hpos Hn. unfold take_checked. rewrite drop_len by done. replace (pos + (len_of bytes - pos)) with (len_of bytes) by lia.
  destruct (Z.ltb_spec (len_of bytes) (wrap64 (pos + n))) as [|Hle]; [done|].
  destruct (Z.ltb_spec (wrap64 (pos + n)) pos) as [|Hge]; [done|]. intros [= _ <-].
  assert (Hw : wrap64 (pos + n) = pos + n).
  { unfold wrap64 in *. destruct (Z.lt_ge_cases (pos + n) U64_MOD) as [Hlt|Hge'].
    - apply Z.mod_small. unfold u64 in Hn. lia.
    - rewrite <-(Z_mod_plus_full _ (-1)) in Hge. rewrite Z.mod_small in Hge by (unfold u64, U64_MAX, U64_MOD, ISIZE_MOD in *; lia).
      unfold u64, U64_MAX, U64_MOD in *. lia. }
  unfold advance. rewrite Hw in *. unfold u64 in Hn. by rewrite drop_further by lia.
Qed.

Lemma take_vec_read pos count size d rest :
  0 <= pos <= len_of bytes -> 0 <= count * size -> take_vec pos count size (drop (Z.to_nat pos) bytes) = Done (d, rest) ->
  advance pos (wrap64 (count * size)) = pos + wrap64 (count * size) /\ 0 <= wrap64 (count * size) /\
  rest = drop (Z.to_nat (pos + wrap64 (count * size))) bytes /\ pos + wrap64 (count * size) <= len_of bytes.
Proof using Hsmall.
  intros Hpos Hn. unfold take_vec. rewrite drop_len by done. replace (pos + (len_of bytes - pos)) with (len_of bytes) by lia.
  destruct (Z.ltb_spec (len_of bytes) (wrap64 (pos + wrap64 (count * size)))) as [|Hle]; [done|].
  destruct (Z.leb_spec ISIZE_MOD (count * size)) as [|Hlt]; [done|].
  rewrite (wrap64_small (count * size)) in * by size_lia. unfold advance.
  rewrite (wrap64_small (pos + count * size)) in * by size_lia.
  unfold next. destruct (Z.leb_spec (count * size) (Z.of_nat (length (drop (Z.to_nat pos) bytes)))); [|done].
  intros [= _ <-]. by rewrite drop_further by lia.
Qed.

Lemma take_u64_range bs x rest : Forall is_byte bs -> take_u64 bs = Done (x, rest) -> u64 x.
Proof using.
  intros Hb. unfold take_u64, read_u, bind, next. destruct (8 <=? Z.of_nat (length bs)) eqn:Hl; [|done].
  unfold ret. intros [= <- _]. apply Z.leb_le in Hl.
  pose proof (le_bytes_value_range (take (Z.to_nat 8) bs) ltac:(by apply Forall_take)) as Hr.
  rewrite length_take, Nat.min_l in Hr by lia. unfold unsigned, width in Hr. change (256 ^ Z.of_nat (Z.to_nat 8)) with U64_MOD in Hr.
  unfold u_from_le, u64, U64_MAX, U64_MOD in *. lia.
Qed.
End skipping.

Lemma bind_done {A B} (p : Reader A) (k : A -> Reader B) bs b rest :
  bind p k bs = Done (b, rest) -> exists a mid, p bs = Done (a, mid) /\ k a mid = Done (b, rest).
Proof. unfold bind. destruct (p bs) as [[a mid]| |]; [|done..]. eauto. Qed.

Section skip_kinds.
Context (bytes : list Z) (Hsmall : len_of bytes < ISIZE_MOD) (Hbytes : Forall is_byte bytes).

(** The reader ends where skipping does. *)
Definition ends_at (pos : Outcome Z) (rest : list Z) : Prop :=
  exists p, pos = Done p /\ rest = drop (Z.to_nat p) bytes /\ 0 <= p <= len_of bytes.

Lemma first_u64 x rest : take_u64 bytes = Done (x, rest) ->
  u64 x /\ u64_at bytes 0 = Done x /\ rest = drop (Z.to_nat 8) bytes /\ 8 <= len_of bytes.
Proof using Hsmall Hbytes.
  intros H. split; [by eapply take_u64_range|]. pose proof (len_of_nonneg bytes).
  apply (u64_at_read _ Hsmall 0); [lia|done].
Qed.

Lemma u64_at_range pos x rest : take_u64 (drop (Z.to_nat pos) bytes) = Done (x, rest) -> u64 x.
Proof using Hbytes. intros H. eapply take_u64_range; [|exact H]. by apply Forall_drop. Qed.

Lemma wrap64_div n d : 0 < d -> 0 <= wrap64 n / d <= U64_MAX.
Proof using.
  intros Hd. pose proof (wrap64_range n) as Hr. unfold u64 in Hr. split; [apply Z.div_pos; lia|].
  apply Z.div_le_upper_bound; nia.
Qed.

Lemma skip_bool c rest : from_bytes_typed TBool bytes = Done (c, rest) -> ends_at (skip_position bytes TBool) rest.
Proof using Hsmall Hbytes.
  cbn [from_bytes_typed skip_position]. intros (len & mid & H1 & (d & fin & H2 & [= _ <-])%bind_done)%bind_done.
  destruct (first_u64 _ _ H1) as (Hu & -> & -> & Hle).
  apply (take_checked_read _ Hsmall) in H2 as (Ha & -> & Hend); [|lia|apply wrap64_div; lia].
  simpl. eexists. split; [by rewrite Ha|]. split; [done|]. pose proof (wrap64_div (len + 7) 8). lia.
Qed.

Lemma skip_ints dec c rest :
  (let! count := take_u64 in let! v := take_vec 8 count 8 in ret (dec count v : ColumnData)) bytes = Done (c, rest) ->
  ends_at (outcome_bind (u64_at bytes 0) (fun count => Done (advance 8 (wrap64 (count * 8))))) rest.
Proof using Hsmall Hbytes.
  intros (len & mid & H1 & (d & fin & H2 & [= _ <-])%bind_done)%bind_done.
  destruct (first_u64 _ _ H1) as (Hu & -> & -> & Hle).
  apply (take_vec_read _ Hsmall) in H2 as (Ha & Hnn & -> & Hend); [|lia|unfold u64 in Hu; lia].
  simpl. eexists. split; [by rewrite Ha|]. split; [done|lia].
Qed.

Lemma skip_text t x rest :
  read_text bytes = Done (x, rest) ->
  t ∈ [TString; TJson; TBinary; TBlob; TUuid; TDecimal128; TList; TExtension] -> ends_at (skip_position bytes t) rest.
Proof using Hsmall Hbytes.
  intros (count & mid & H1 & (o & mid2 & H2 & (dl & mid3 & H3 & (d & fin & H4 & [= _ <-])%bind_done)%bind_done)%bind_done)%bind_done Ht.
  destruct (first_u64 _ _ H1) as (Hu & Hat & -> & Hle).
  apply (take_vec_read _ Hsmall) in H2 as (Ha & Hnn & -> & Hend); [|lia|pose proof (wrap64_range (count + 1)) as Hr; unfold u64 in Hr; lia].
  pose proof (u64_at_range _ _ _ H3) as Hdl. apply (u64_at_read _ Hsmall) in H3 as (Hat2 & -> & Hend2); [|lia].
  apply (take_checked_read _ Hsmall) in H4 as (Ha2 & -> & Hend3); [|lia|done].
  assert (Hskip : skip_position bytes t =
    outcome_bind (u64_at bytes 0) (fun count =>
    let pos := advance 8 (wrap64 (wrap64 (count + 1) * 4)) in
    outcome_bind (u64_at bytes pos) (fun data_len => Done (advance (pos + 8) data_len))))
    by (repeat (apply elem_of_cons in Ht as [->|Ht]; [done|]); by apply elem_of_nil in Ht).
  rewrite Hskip, Hat. simpl. rewrite Ha, Hat2. simpl. eexists. split; [by rewrite Ha2|]. split; [done|].
  unfold u64 in Hdl. lia.
Qed.

Lemma skip_dict c rest : from_bytes_typed TStringDict bytes = Done (c, rest) -> ends_at (skip_position bytes TStringDict) rest.
Proof using Hsmall Hbytes.
  cbn [from_bytes_typed skip_position].
  intros (rows & m1 & H1 & (size & m2 & H2 & (i & m3 & H3 & (o & m4 & H4 & (dl & m5 & H5 &
    (d & m6 & H6 & [= _ <-])%bind_done)%bind_done)%bind_done)%bind_done)%bind_done)%bind_done.
  destruct (first_u64 _ _ H1) as (Hu & Hat & -> & Hle).
  pose proof (u64_at_range _ _ _ H2) as Hsz. apply (u64_at_read _ Hsmall) in H2 as (Hat2 & -> & Hle2); [|lia].
  change (8 + 8) with 16 in *. unfold u64 in Hu, Hsz.
  apply (take_vec_read _ Hsmall) in H3 as (Ha & Hnn & -> & Hend); [|lia|lia].
  apply (take_vec_read _ Hsmall) in H4 as (Ha2 & Hnn2 & -> & Hend2); [|lia|lia].
  pose proof (u64_at_range _ _ _ H5) as Hdl. apply (u64_at_read _ Hsmall) in H5 as (Hat3 & -> & Hend3); [|lia].
  apply (take_checked_read _ Hsmall) in H6 as (Ha3 & -> & Hend4); [|lia|done].
  rewrite Hat. simpl. rewrite Hat2. simpl. rewrite Ha, Ha2, Hat3. simpl. eexists. split; [by rewrite Ha3|].
  split; [done|]. unfold u64 in Hdl. lia.
Qed.

Lemma read_dim mid dim rest :
  8 <= len_of bytes -> mid = drop (Z.to_nat 8) bytes -> read_u Invalid 4 mid = Done (dim, rest) ->
  (len_of bytes <? 12) = false /\ dim = u_from_le (take 4 (drop 8 bytes)) /\ rest = drop (Z.to_nat 12) bytes /\
  0 <= dim < 2 ^ 32 /\ 12 <= len_of bytes.
Proof using Hbytes.
  intros Hle ->. unfold read_u, bind, next. change (Z.of_nat (length (drop (Z.to_nat 8) bytes)))
    with (len_of (drop (Z.to_nat 8) bytes)). rewrite drop_len by lia.
  destruct (Z.leb_spec 4 (len_of bytes - 8)) as [Hd|]; [|done]. unfold ret. intros [= <- <-].
  rewrite (proj2 (Z.ltb_ge _ _)) by lia. split_and!; try done; [by rewrite drop_drop| | |lia].
  all: pose proof (le_bytes_value_range (take (Z.to_nat 4) (drop (Z.to_nat 8) bytes)) ltac:(by apply Forall_take, Forall_drop)) as Hr;
    rewrite length_take, length_drop in Hr; unfold len_of in *; rewrite Nat.min_l in Hr by lia; unfold unsigned, width in Hr;
    change (256 ^ Z.of_nat (Z.to_nat 4)) with (2 ^ 32) in Hr; unfold u_from_le; lia.
Qed.

Lemma skip_list_read stride x rest :
  read_list stride bytes = Done (x, rest) -> ends_at (skip_list bytes stride) rest.
Proof using Hsmall Hbytes.
  intros (count & m1 & H1 & (dim & m2 & H2 & (n & m3 & H3 & (d & m4 & H4 & [= _ <-])%bind_done)%bind_done)%bind_done)%bind_done.
  destruct (first_u64 _ _ H1) as (Hu & Hat & -> & Hle).
  apply read_dim in H2 as (H12 & Hdim & -> & _ & Hle2); [|done..]. unfold skip_list. rewrite Hat, H12. cbn [outcome_bind]. cbv zeta.
  rewrite <-Hdim. destruct (stride dim) as [w| |]; [|done..]. injection H3 as <- <-. cbn [outcome_bind].
  apply (take_checked_read _ Hsmall) in H4 as (Ha & -> & Hend); [|lia|apply wrap64_range].
  eexists. split; [by rewrite Ha|]. split; [done|]. pose proof (wrap64_range (count * w)) as Hr. unfold u64 in Hr. lia.
Qed.

Lemma skip_quantized_read codec x rest :
  read_quantized codec bytes = Done (x, rest) -> ends_at (skip_quantized bytes codec) rest.
Proof using Hsmall Hbytes.
  intros (count & m1 & H1 & (dim & m2 & H2 & (n & m3 & H3 & (d & m4 & H4 & [= _ <-])%bind_done)%bind_done)%bind_done)%bind_done.
  destruct (first_u64 _ _ H1) as (Hu & Hat & -> & Hle).
  apply read_dim in H2 as (H12 & Hdim & -> & Hrange & Hle2); [|done..]. unfold skip_quantized. rewrite Hat, H12. cbn [outcome_bind]. cbv zeta.
  rewrite <-Hdim. destruct (result_bind _ _) as [w|] eqn:Hw; [|done]. injection H3 as <- <-. cbn [outcome_bind of_result].
  assert (Hn : 0 <= w <= U64_MAX).
  { apply result_bind_ok in Hw as (rw & Hrw & Hc). unfold checked in Hc. destruct (Z.leb_spec (count * rw) U64_MAX); [|done].
    injection Hc as <-. split; [|done]. enough (0 <= rw) by (unfold u64 in Hu; nia).
    assert (Hck : forall y, 0 <= y -> checked y = Ok rw -> 0 <= rw) by (unfold checked; intros y Hy; case_match; [by intros [= <-]|done]).
    assert (Hdiv : forall a, 0 <= a -> 0 <= Z_div_ceil a 8) by (intros a Ha; apply Z.div_pos; lia).
    destruct codec; simpl in Hrw; try (eapply Hck; [|exact Hrw]; specialize (Hdiv dim); lia);
      apply result_bind_ok in Hrw as (p & Hp & Hrw); (eapply Hck; [|exact Hrw]); unfold packed_len;
      (match goal with |- 0 <= Z_div_ceil ?a 8 + 4 => specialize (Hdiv a); enough (0 <= a) by lia end);
      unfold turbo_padded_dim in Hp; destruct (dim =? 0); try done; case_match; try done; injection Hp as <-;
      apply Z.min_glb; unfold U64_MAX; try lia; apply Z.mul_nonneg_nonneg; try lia; apply Z.pow_nonneg; lia. }
  apply (take_checked_read _ Hsmall) in H4 as (Ha & -> & Hend); [|lia|done]. unfold checked.
  rewrite (proj2 (Z.leb_le _ _)) by (unfold ISIZE_MOD, U64_MAX in *; lia). simpl. eexists. split; [done|]. split; [done|]. lia.
Qed.
End skip_kinds.

(** Skipping a column consumes what reading it does, on any bytes; a [Null] column, which may
    be truncated, is the exception. *)
Lemma skip_agrees bytes t c rest :
  len_of bytes < ISIZE_MOD -> Forall is_byte bytes -> t <> TNull ->
  from_bytes_typed t bytes = Done (c, rest) -> skip_bytes_typed bytes t = Done (len_of bytes - len_of rest).
Proof.
  intros Hsmall Hb Ht Hread.
  assert (Hend : ends_at bytes (skip_position bytes t) rest).
  { destruct t; try done; try (by eapply skip_bool); try (exact (skip_ints _ Hsmall Hb _ _ _ Hread)); try (by eapply skip_dict);
      cbn [from_bytes_typed] in Hread; apply bind_done in Hread as (x & mid & Hx & [= _ <-]);
      try (by eapply skip_text; [done..|set_solver]); try (by eapply skip_list_read); by eapply skip_quantized_read. }
  destruct Hend as (p & Hp & -> & Hr). unfold skip_bytes_typed. rewrite Hp. simpl.
  rewrite (proj2 (Z.ltb_ge _ _)) by lia. f_equal. rewrite drop_len by done. lia.
Qed.
