(* ===== verification/BitPack.v ===== *)
(** * Bit-packed integers

    Models the [BITPACK] encoding of [storage/on_demand/mod.rs]: the encoder, the word-at-a-time
    decoder, the point decoder, the field reader, the range count and the aggregation kernels.
    Shifts by the width of the word or more are taken modulo the width, as in a release build;
    a read outside a slice is [None].  Every reader is shown to read the fields of the packed
    bytes' value. *)
From S2P Require Import Prelude Bytes Bits Float Values Columns ColumnRows ColumnCodec.
Local Open Scope Z_scope.

(** [x as i64] of an integer taken modulo 2^64 *)
Definition wrap_i64 (x : Z) : Z := let u := wrap64 x in if u <? F64_SIGN then u else u - U64_MOD.

(** [1u64 << n] *)
Definition shl1_64 (n : Z) : Z := 2 ^ (n mod 64).

(** ** Encoding *)

(** The [width] low bits of [delta], the first the lowest. *)
Definition delta_bits (width : nat) (delta : Z) : list bool :=
  (fun b => Z.testbit delta (Z.of_nat b)) <$> seq 0 width.

(** The loop that sets the bits of each value from bit [i * width] on. *)
Fixpoint pack_values (packed : list Z) (width : nat) (i : nat) (deltas : list Z) : option (list Z) :=
  match deltas with
  | [] => Some packed
  | delta :: deltas =>
      packed ← or_bits packed (i * width) (delta_bits width delta);
      pack_values packed width (S i) deltas
  end.

Definition BITPACK_HEADER (count width min_val : Z) : list Z := to_le 8 count ++ to_le 1 width ++ to_le 8 min_val.

(** [None] for a panic, [Some None] when packing does not pay. *)
Definition bitpack_encode_i64 (data : list Z) : option (option (list Z)) :=
  if (length data <? 16)%nat then Some None
  else
    let min_val := foldl Z.min (default 0 (head data)) data in
    let max_val := foldl Z.max (default 0 (head data)) data in
    if min_val =? max_val then Some None
    else
      let range := max_val - min_val in
      if U64_MAX <? range then Some None
      else
        let width := Z.log2 range + 1 in
        if (width =? 0) || (48 <=? width) then Some None
        else
          let packed_bytes := wrap64 (wrap64 (len_of data * width) + 7) / 8 in
          let total_size := 17 + packed_bytes in
          let plain_size := 8 + len_of data * 8 in
          if plain_size * 7 / 10 <=? total_size then Some None
          else
            packed ← pack_values (replicate (Z.to_nat packed_bytes) 0) (Z.to_nat width) 0
              ((fun x => wrap64 (x - min_val)) <$> data);
            Some (Some (BITPACK_HEADER (len_of data) width min_val ++ packed)).

(** ** Decoding *)

(** The little-endian word at byte [8 * wi]; reading outside the slice is undefined. *)
Definition read_word (packed : list Z) (wi : nat) : option Z :=
  if (8 * wi + 8 <=? length packed)%nat then Some (le_bytes_value (take 8 (drop (8 * wi) packed))) else None.

(** [(1u64 << bit_width) - 1] *)
Definition width_mask (width : nat) : Z := shl1_64 (Z.of_nat width) - 1.

Definition fast_value (packed : list Z) (width : nat) (i : nat) : option Z :=
  let bit_offset := (i * width)%nat in
  let wi := (bit_offset / 64)%nat in
  let off := Z.of_nat (bit_offset mod 64) in
  lo ← read_word packed wi;
  if off =? 0 then Some (Z.land lo (width_mask width))
  else
    hi ← read_word packed (S wi);
    Some (Z.land (Z.lor (Z.shiftr lo off) (wrap64 (Z.shiftl hi (64 - off)))) (width_mask width)).

(** The bits from [bit_offset] on, one by one. *)
Definition slow_value (packed : list Z) (bit_offset width : nat) : option Z :=
  foldl (fun delta b => delta ← delta; bit ← packed_bit packed (bit_offset + b);
    Some (if bit =? 1 then Z.lor delta (shl1_64 (Z.of_nat b)) else delta)) (Some 0) (seq 0 width).

(** How many values the word loop may read. *)
Definition fast_count (packed : list Z) (width : nat) : nat :=
  if (16 <=? length packed)%nat then ((length packed - 16) / 8 * 64 / width)%nat else 0%nat.

Definition bitpack_fill (packed : list Z) (count width : nat) (min_val : Z) : option (list Z) :=
  if (width =? 0)%nat || (count =? 0)%nat then Some (replicate count min_val)
  else
    let fast_n := (fast_count packed width `min` count)%nat in
    fast ← mapM (fast_value packed width) (seq 0 fast_n);
    slow ← mapM (fun i => slow_value packed (i * width) width) (seq fast_n (count - fast_n));
    Some ((fun delta => wrap_i64 (min_val + delta)) <$> fast ++ slow).

(** The number of bytes of the packed values. *)
Definition packed_bytes_of (count width : Z) : Z := wrap64 (wrap64 (count * width) + 7) / 8.

(** The header fields, when there are 17 bytes. *)
Definition header_fields (bytes : list Z) : Z * Z * Z :=
  (u_from_le (take 8 bytes), u_from_le (take 1 (drop 8 bytes)), i_from_le (take 8 (drop 9 bytes))).

Definition bitpack_decode_i64 (bytes : list Z) : Outcome (list Z * Z) :=
  if len_of bytes <? 17 then Invalid
  else
    let '(count, width, min_val) := header_fields bytes in
    let packed_bytes := packed_bytes_of count width in
    if len_of bytes <? 17 + packed_bytes then Invalid
    else if ISIZE_MOD <=? count * 8 then Panic
    else
      let packed := take (Z.to_nat packed_bytes) (drop 17 bytes) in
      match bitpack_fill packed (Z.to_nat count) (Z.to_nat width) min_val with
      | Some values => Done (values, 17 + packed_bytes)
      | None => Panic
      end.

(** [None] for a panic; the inner option is the function's. *)
Definition bitpack_decode_at_idx (bytes : list Z) (idx : nat) : option (option Z) :=
  if len_of bytes <? 17 then Some None
  else
    let '(count, width, min_val) := header_fields bytes in
    if count <=? Z.of_nat idx then Some None
    else if width =? 0 then Some (Some min_val)
    else
      let packed_bytes := packed_bytes_of count width in
      if len_of bytes <? 17 + packed_bytes then Some None
      else
        let packed := take (Z.to_nat packed_bytes) (drop 17 bytes) in
        delta ← slow_value packed (idx * Z.to_nat width) (Z.to_nat width);
        Some (Some (wrap_i64 (min_val + delta))).

Definition bitpack_header (bytes : list Z) : option (nat * nat * Z * list Z) :=
  if len_of bytes <? 17 then None
  else
    let '(count, width, min_val) := header_fields bytes in
    if 63 <? width then None
    else
      let packed_bytes := packed_bytes_of count width in
      if len_of bytes <? 17 + packed_bytes then None
      else Some (Z.to_nat count, Z.to_nat width, min_val, take (Z.to_nat packed_bytes) (drop 17 bytes)).

(** [word |= (byte as u64) << (8 * k)] over the bytes *)
Definition or_bytes (bytes : list Z) : Z :=
  foldl (fun word e => Z.lor word (wrap64 (Z.shiftl e.2 ((8 * Z.of_nat e.1) mod 64)))) 0 (imap pair bytes).

Definition bitpack_read_bits (packed : list Z) (bit_pos width : nat) : option Z :=
  if (width =? 0)%nat then Some 0
  else if (63 <? width)%nat then None
  else
    let byte := (bit_pos / 8)%nat in
    let shift := (bit_pos mod 8)%nat in
    let needed := byte_len (shift + width) in
    if (length packed <? byte + needed)%nat then None
    else
      let word := or_bytes (take needed (drop byte packed)) in
      Some (Z.land (Z.shiftr word (Z.of_nat shift)) (2 ^ Z.of_nat width - 1)).

Definition in_f64_range (low high : Z) (value : Z) : bool :=
  let v := f64_of_Z value in f64_le low v && f64_le v high.

Definition bitpack_count_in_range (bytes : list Z) (low high : Z) : option nat :=
  '(count, width, min_val, packed) ← bitpack_header bytes;
  if (width =? 0)%nat then Some (if in_f64_range low high min_val then count else 0%nat)
  else
    deltas ← mapM (fun i => bitpack_read_bits packed (i * width) width) (seq 0 count);
    Some (length (List.filter (fun delta => in_f64_range low high (wrap_i64 (min_val + delta))) deltas)).

(** ** Aggregation *)

(** The running sum (modulo 2^64), minimum and maximum of deltas. *)
Record DeltaAgg := mkAgg { sum_delta : Z; min_delta : Z; max_delta : Z }.

Definition agg_zero : DeltaAgg := mkAgg 0 U64_MAX 0.

Definition agg_add (a : DeltaAgg) (delta : Z) : DeltaAgg :=
  mkAgg (wrap64 (sum_delta a + delta)) (Z.min (min_delta a) delta) (Z.max (max_delta a) delta).

Definition agg_merge (a b : DeltaAgg) : DeltaAgg :=
  mkAgg (wrap64 (sum_delta a + sum_delta b)) (Z.min (min_delta a) (min_delta b)) (Z.max (max_delta a) (max_delta b)).

(** Eight fields of [width] bits from [width] bytes. *)
Definition group_deltas (bytes : list Z) (width : nat) : list Z :=
  let word := u_from_le bytes in
  (fun k => Z.land (Z.shiftr word (Z.of_nat (k * width))) (2 ^ Z.of_nat width - 1)) <$> seq 0 8.

(** The groups of eight in independent lanes, up to a group that is not there. *)
Fixpoint group_lanes (n g : nat) (packed : list Z) (width : nat) (lanes : list DeltaAgg) : list DeltaAgg :=
  match n with
  | 0%nat => lanes
  | S n =>
      let off := (g * width)%nat in
      if (length packed <? off + width)%nat then lanes
      else group_lanes n (S g) packed width
             (zip_with agg_add lanes (group_deltas (take width (drop off packed)) width))
  end.

(** A field in two bytes, the missing second byte being zero. *)
Definition two_byte_field (packed : list Z) (width i : nat) : option Z :=
  let bit_offset := (i * width)%nat in
  let byte_idx := (bit_offset / 8)%nat in
  b0 ← packed !! byte_idx;
  let b1 := default 0 (packed !! S byte_idx) in
  Some (Z.land (Z.shiftr (Z.lor b0 (Z.shiftl b1 8)) (Z.of_nat (bit_offset mod 8))) (2 ^ Z.of_nat width - 1)).

(** For 6 and 7 bits: the lanes, then the remaining values.  At 6 bits a missing first byte is
    zero, at 7 bits it panics. *)
Definition agg_lanes (packed : list Z) (width count : nat) : option DeltaAgg :=
  let n_full := (count / 8)%nat in
  let lanes := group_lanes n_full 0 packed width (replicate 8 agg_zero) in
  let acc := foldl agg_merge agg_zero lanes in
  foldl (fun acc i => acc ← acc;
    match two_byte_field packed width i with
    | Some delta => Some (agg_add acc delta)
    | None => if (width =? 6)%nat then Some (agg_add acc 0) else None
    end) (Some acc) (seq (n_full * 8) (count - n_full * 8)).

(** The up to three bytes at [byte_idx]; none ends the loop. *)
Definition three_bytes (packed : list Z) (byte_idx : nat) : option Z :=
  match take 3 (drop byte_idx packed) with [] => None | bytes => Some (u_from_le bytes) end.

Fixpoint agg_words (n i : nat) (packed : list Z) (width : nat) (acc : DeltaAgg) : DeltaAgg :=
  match n with
  | 0%nat => acc
  | S n =>
      let bit_offset := (i * width)%nat in
      match three_bytes packed (bit_offset / 8) with
      | None => acc
      | Some word =>
          agg_words n (S i) packed width
            (agg_add acc (Z.land (Z.shiftr word (Z.of_nat (bit_offset mod 8))) (width_mask width)))
      end
  end.

(** [if delta < min_delta { .. }], [if delta > max_delta { .. }] *)
Definition agg_bits (packed : list Z) (width count : nat) : option DeltaAgg :=
  foldl (fun acc i => acc ← acc; delta ← slow_value packed (i * width) width; Some (agg_add acc delta))
    (Some agg_zero) (seq 0 count).

Definition bitpack_agg_i64 (bytes : list Z) : option (option (Z * Z * Z * Z * Z)) :=
  if len_of bytes <? 17 then Some None
  else
    let '(count, width, min_val) := header_fields bytes in
    if width =? 0 then Some (Some (wrap_i64 (wrap_i64 count * min_val), min_val, min_val, count, 17))
    else
      let packed_bytes := packed_bytes_of count width in
      if len_of bytes <? 17 + packed_bytes then Some None
      else
        let packed := take (Z.to_nat packed_bytes) (drop 17 bytes) in
        let n := Z.to_nat count in
        agg ← (if (width =? 6) || (width =? 7) then agg_lanes packed (Z.to_nat width) n
               else if width =? 8 then Some (foldl agg_add agg_zero (take n packed))
               else if width <=? 16 then Some (agg_words n 0 packed (Z.to_nat width) agg_zero)
               else agg_bits packed (Z.to_nat width) n);
        Some (Some (wrap_i64 (wrap_i64 count * min_val + sum_delta agg),
          wrap_i64 (min_val + (if 0 <? count then min_delta agg else 0)),
          wrap_i64 (min_val + (if 0 <? count then max_delta agg else 0)), count, 17 + packed_bytes)).

(** ** The readers read fields *)

Section readers.
Context (packed : list Z) (Hbytes : Forall is_byte packed).

Abbreviation value := (le_bytes_value packed).

Lemma value_nonneg : 0 <= value.
Proof using Hbytes. pose proof (le_bytes_value_range _ Hbytes) as H. unfold unsigned in H. lia. Qed.

Lemma packed_bit_value i : (i < 8 * length packed)%nat -> packed_bit packed i = Some (Z.b2z (Z.testbit value (Z.of_nat i))).
Proof using Hbytes.
  intros Hi. rewrite <-(le_bytes_of_bytes packed) at 1 by done. rewrite packed_bit_le by apply value_nonneg.
  rewrite (proj2 (Nat.ltb_lt _ _)); [done|]. apply Nat.Div0.div_lt_upper_bound. lia.
Qed.

Lemma slow_value_field off width :
  (off + width <= 8 * length packed)%nat -> (width <= 64)%nat -> slow_value packed off width = Some (field value width off).
Proof using Hbytes.
  unfold slow_value. induction width as [|w IH]; intros Hoff Hw.
  - simpl. unfold field. by rewrite Z.mod_1_r.
  - rewrite seq_S, foldl_app, IH by lia. simpl. rewrite packed_bit_value by lia. simpl. f_equal.
    rewrite field_S by apply value_nonneg. unfold shl1_64. rewrite Z.mod_small by lia.
    by destruct (Z.testbit value (Z.of_nat (off + w))).
Qed.

Lemma read_word_spec wi :
  (8 * wi + 8 <= length packed)%nat -> read_word packed wi = Some (field value 64 (64 * wi)).
Proof using Hbytes.
  intros Hwi. unfold read_word. rewrite (proj2 (Nat.leb_le _ _)) by done. f_equal.
  rewrite le_bytes_value_window by (done || lia). unfold field. f_equal. f_equal. lia.
Qed.

Lemma fast_value_field width i :
  (width <= 63)%nat -> (8 * (i * width / 64) + 16 <= length packed)%nat ->
  fast_value packed width i = Some (field value width (i * width)).
Proof using Hbytes.
  intros Hw Hi. unfold fast_value. set (pos := (i * width)%nat) in *.
  pose proof (Nat.div_mod_eq pos 64) as Hdm. pose proof (Nat.mod_upper_bound pos 64 ltac:(done)) as Hm.
  set (wi := (pos / 64)%nat) in *. set (off := (pos mod 64)%nat) in *.
  rewrite !read_word_spec by lia. cbn [mbind option_bind]. unfold width_mask, shl1_64. rewrite Z.mod_small by lia.
  destruct (Z.eqb_spec (Z.of_nat off) 0) as [Ho|Ho]; f_equal; apply field_ext; intros n Hn; rewrite land_mask by done;
    (destruct (Z.ltb_spec n (Z.of_nat width)) as [Hlt|]; [|done]); rewrite !andb_true_l.
  - rewrite field_testbit by done. rewrite (proj2 (Z.ltb_lt _ _)) by lia. simpl. f_equal. lia.
  - rewrite Z.lor_spec, Z.shiftr_spec, field_testbit by lia. unfold wrap64, U64_MOD.
    change 18446744073709551616 with (2 ^ 64). rewrite Z.mod_pow2_bits_low by lia.
    rewrite Z.shiftl_spec by lia.
    destruct (Z.ltb_spec (n + Z.of_nat off) (Z.of_nat 64)) as [Hlow|Hhigh].
    + rewrite (Z.testbit_neg_r _ (n - _)) by lia. rewrite orb_false_r. simpl. f_equal. lia.
    + rewrite field_testbit by lia. rewrite (proj2 (Z.ltb_lt _ _)) by lia. simpl. f_equal. lia.
Qed.

(** The values from [count] fields. *)
Definition fields (width count : nat) : list Z := (fun i => field value width (i * width)) <$> seq 0 count.

Lemma mapM_seq_Some {A} (f : nat -> option A) (g : nat -> A) s n :
  (forall i, (s <= i < s + n)%nat -> f i = Some (g i)) -> mapM f (seq s n) = Some (g <$> seq s n).
Proof using.
  revert s. induction n as [|n IH]; intros s Hf; [done|]. cbn [seq mapM]. rewrite Hf by lia. simpl.
  rewrite IH; [done|]. intros i Hi. apply Hf. lia.
Qed.

Lemma bitpack_fill_fields count width min_val :
  (0 < width <= 63)%nat -> (count * width <= 8 * length packed)%nat ->
  bitpack_fill packed count width min_val = Some ((fun delta => wrap_i64 (min_val + delta)) <$> fields width count).
Proof using Hbytes.
  intros Hw Hlen. unfold bitpack_fill. destruct (Nat.eqb_spec width 0); [lia|]. simpl.
  destruct (Nat.eqb_spec count 0) as [->|Hc]; [done|].
  set (fast_n := (fast_count packed width `min` count)%nat).
  assert (Hfast : forall i, (i < fast_n)%nat -> (8 * (i * width / 64) + 16 <= length packed)%nat).
  { intros i Hi. unfold fast_n, fast_count in Hi. destruct (Nat.leb_spec 16 (length packed)) as [H16|]; [|lia].
    set (words := ((length packed - 16) / 8)%nat) in *.
    assert (Hwords : (8 * words <= length packed - 16)%nat) by apply Nat.Div0.mul_div_le.
    pose proof (Nat.Div0.mul_div_le (words * 64) width). set (q := (words * 64 / width)%nat) in *.
    assert (i * width < words * 64)%nat by nia.
    assert (i * width / 64 < words)%nat by (apply Nat.Div0.div_lt_upper_bound; lia). lia. }
  rewrite (mapM_seq_Some _ (fun i => field value width (i * width)) 0 fast_n)
    by (intros i Hi; apply fast_value_field; [lia|apply Hfast; lia]).
  cbn [mbind option_bind].
  rewrite (mapM_seq_Some _ (fun i => field value width (i * width)) fast_n (count - fast_n))
    by (intros i Hi; apply slow_value_field; [pose proof (Nat.mul_le_mono_r (S i) count width ltac:(lia)); lia|lia]).
  cbn [mbind option_bind]. f_equal. f_equal. unfold fields. rewrite <-fmap_app. f_equal.
  replace count with (fast_n + (count - fast_n))%nat at 2 by lia. by rewrite seq_app.
Qed.

(** Up to eight bytes OR-ed into a word are their value. *)
Lemma or_bytes_value bytes :
  Forall is_byte bytes -> (length bytes <= 8)%nat -> or_bytes bytes = le_bytes_value bytes.
Proof using.
  unfold or_bytes. induction bytes as [|b bytes IH] using rev_ind; intros Hb Hlen; [done|].
  apply Forall_snoc in Hb as [Hb Hbyte]. rewrite length_app in Hlen. simpl in Hlen.
  rewrite imap_app, foldl_app, IH by (done || lia). simpl. rewrite Nat.add_0_r, le_bytes_value_app. simpl.
  rewrite Z.mod_small by lia. unfold is_byte in Hbyte.
  pose proof (le_bytes_value_range _ Hb) as Hr. unfold unsigned in Hr.
  assert (Hw : 0 < width (length bytes) <= 2 ^ 56)
    by (split; [apply width_pos|rewrite width_bits; apply Z.pow_le_mono_r; lia]).
  rewrite wrap64_small.
  - rewrite Z.add_0_r, lor_shiftl, <-width_bits by (rewrite <-?width_bits; lia). done.
  - rewrite Z.shiftl_mul_pow2, <-width_bits by lia. unfold u64, U64_MAX. nia.
Qed.

Lemma bitpack_read_bits_field pos width :
  (width <= 63)%nat -> (pos mod 8 + width <= 64)%nat -> (pos + width <= 8 * length packed)%nat ->
  bitpack_read_bits packed pos width = Some (field value width pos).
Proof using Hbytes.
  intros Hw Hshift Hlen. unfold bitpack_read_bits. destruct (Nat.eqb_spec width 0) as [->|Hnz].
  { unfold field. by rewrite Z.mod_1_r. }
  rewrite (proj2 (Nat.ltb_ge _ _)) by lia. pose proof (Nat.div_mod_eq pos 8) as Hdm.
  pose proof (byte_len_spec (pos mod 8 + width)) as Hbl.
  rewrite (proj2 (Nat.ltb_ge _ _)) by lia. f_equal.
  rewrite or_bytes_value; [|by apply Forall_take, Forall_drop|rewrite length_take; lia].
  eapply (field_window _ _ _ (pos / 8) (byte_len (pos mod 8 + width))); [done|lia|left; lia|].
  do 3 f_equal. lia.
Qed.
End readers.

(** ** What the encoder writes *)

Lemma delta_bits_length width delta : length (delta_bits width delta) = width.
Proof. unfold delta_bits. by rewrite length_fmap, length_seq. Qed.

Lemma delta_bits_value width delta : 0 <= delta < 2 ^ Z.of_nat width -> bits_value (delta_bits width delta) = delta.
Proof.
  intros Hd. apply Z.bits_inj'. intros n Hn. rewrite <-(Z2Nat.id n) by done. rewrite bits_value_testbit.
  unfold delta_bits. rewrite list_lookup_fmap. destruct (decide (Z.to_nat n < width)%nat) as [Hlt|Hge].
  - by rewrite lookup_seq_lt by done.
  - rewrite lookup_seq_ge by lia. simpl. symmetry. eapply testbit_above; [exact Hd|lia].
Qed.

Lemma packed_bits_length width deltas : length (deltas ≫= delta_bits width) = (length deltas * width)%nat.
Proof. induction deltas as [|d deltas IH]; [done|]. rewrite bind_cons, length_app, IH, delta_bits_length. simpl. lia. Qed.

Lemma pack_values_spec n width deltas : forall pre i,
  length pre = (i * width)%nat -> (length pre + length deltas * width <= 8 * n)%nat ->
  pack_values (le_bytes n (bits_value pre)) width i deltas = Some (le_bytes n (bits_value (pre ++ (deltas ≫= delta_bits width)))).
Proof.
  induction deltas as [|d deltas IH]; intros pre i Hpre Hn; [by rewrite app_nil_r|].
  cbn [length] in Hn. cbn [pack_values]. rewrite <-Hpre, or_bits_repr by (rewrite delta_bits_length; lia). cbn [mbind option_bind].
  rewrite IH by (rewrite length_app, delta_bits_length; lia). rewrite bind_cons. by rewrite <-app_assoc.
Qed.

(** The fields of packed values are the values. *)
Lemma packed_fields n width deltas :
  (length deltas * width <= 8 * n)%nat -> Forall (fun d => 0 <= d < 2 ^ Z.of_nat width) deltas ->
  fields (le_bytes n (bits_value (deltas ≫= delta_bits width))) width (length deltas) = deltas.
Proof.
  intros Hn Hd. unfold fields. rewrite le_bytes_value_le
    by (apply (bits_value_unsigned _ n); rewrite packed_bits_length; lia).
  apply list_eq. intros i. rewrite list_lookup_fmap. destruct (decide (i < length deltas)%nat) as [Hi|Hi].
  - rewrite lookup_seq_lt by done. simpl. destruct (lookup_lt_is_Some_2 deltas i Hi) as [d Hat]. rewrite Hat. f_equal.
    rewrite <-(take_drop_middle deltas i d Hat) at 1. rewrite bind_app, bind_cons.
    pose proof (field_bits (take i deltas ≫= delta_bits width) (delta_bits width d) (drop (S i) deltas ≫= delta_bits width)) as Hf.
    rewrite delta_bits_length, packed_bits_length, length_take, Nat.min_l in Hf by lia. rewrite Hf.
    apply delta_bits_value. exact (Forall_lookup_1 _ _ _ _ Hd Hat).
  - rewrite lookup_seq_ge, lookup_ge_None_2 by lia. done.
Qed.

Definition min_of (data : list Z) : Z := foldl Z.min (default 0 (head data)) data.
Definition max_of (data : list Z) : Z := foldl Z.max (default 0 (head data)) data.

Lemma min_of_spec data : data <> [] -> min_of data ∈ data /\ forall x, x ∈ data -> min_of data <= x.
Proof.
  unfold min_of. destruct data as [|x data]; [done|]. intros _. split.
  - destruct (foldl_min_in (x :: data) (default 0 (head (x :: data)))) as [H|H]; [rewrite H; set_solver|done].
  - intros y Hy. apply foldl_min_le. by right.
Qed.

Lemma max_of_spec data : data <> [] -> max_of data ∈ data /\ forall x, x ∈ data -> x <= max_of data.
Proof.
  unfold max_of. destruct data as [|x data]; [done|]. intros _. split.
  - destruct (foldl_max_in (x :: data) (default 0 (head (x :: data)))) as [H|H]; [rewrite H; set_solver|done].
  - intros y Hy. apply foldl_max_ge. by right.
Qed.

(** [bytes] packs [data]: a header and the deltas from the minimum in [w]-bit fields. *)
Definition packs (data bytes : list Z) (w : nat) (packed : list Z) : Prop :=
  (0 < w < 48)%nat /\ data <> [] /\ bytes = BITPACK_HEADER (len_of data) (Z.of_nat w) (min_of data) ++ packed /\
  Forall is_byte packed /\ (length data * w <= 8 * length packed < length data * w + 8)%nat /\
  fields packed w (length data) = (fun x => x - min_of data) <$> data /\
  17 + len_of packed < (8 + len_of data * 8) * 7 / 10.

Lemma bitpack_encode_spec data :
  len_of data < MAX_ROWS -> Forall (signed 8) data ->
  bitpack_encode_i64 data = Some None \/
  exists bytes w packed, bitpack_encode_i64 data = Some (Some bytes) /\ packs data bytes w packed.
Proof.
  intros Hlen Hdata. unfold bitpack_encode_i64. fold (min_of data) (max_of data).
  destruct (Nat.ltb_spec (length data) 16) as [|H16]; [by left|]. cbv zeta.
  destruct (Z.eqb_spec (min_of data) (max_of data)) as [|Hne]; [by left|].
  set (range := max_of data - min_of data). destruct (Z.ltb_spec U64_MAX range) as [|Hrange]; [by left|].
  destruct (_ || _) eqn:Hw; [by left|]. apply orb_false_iff in Hw as [Hw0 Hw48].
  apply Z.eqb_neq in Hw0. apply Z.leb_gt in Hw48.
  assert (Hnn : data <> []) by (destruct data; [simpl in H16; lia|done]).
  destruct (min_of_spec data Hnn) as [Hmin Hlow]. destruct (max_of_spec data Hnn) as [Hmax Hhigh].
  assert (Hpos : 0 < range) by (unfold range; specialize (Hlow _ Hmax); lia).
  pose proof (Z.log2_nonneg range) as Hlog. pose proof (Z.log2_spec range Hpos) as [_ Hspec].
  set (w := Z.to_nat (Z.log2 range + 1)). assert (Hwz : Z.log2 range + 1 = Z.of_nat w) by (unfold w; lia).
  rewrite Hwz in *. assert (Hbits : 0 <= len_of data * Z.of_nat w <= len_of data * 48) by (unfold len_of; nia).
  rewrite (wrap64_small (len_of data * Z.of_nat w)), wrap64_small by size_lia.
  destruct (_ <=? _) eqn:Hsize; [by left|]. apply Z.leb_gt in Hsize. right.
  set (deltas := (fun x => wrap64 (x - min_of data)) <$> data).
  assert (Hdeltas : deltas = (fun x => x - min_of data) <$> data /\ Forall (fun d => 0 <= d < 2 ^ Z.of_nat w) deltas).
  { assert (Hx : forall x, x ∈ data -> wrap64 (x - min_of data) = x - min_of data /\ 0 <= x - min_of data < 2 ^ Z.of_nat w).
    { intros x Hx. specialize (Hlow x Hx). specialize (Hhigh x Hx).
      assert (Hs : x - min_of data < 2 ^ Z.of_nat w) by (rewrite <-Hwz, Z.add_1_r; unfold range in *; lia).
      split; [|lia]. apply wrap64_small. unfold u64, range in *. lia. }
    split.
    - apply list_fmap_ext. intros i x Hi. apply Hx. by eapply list_elem_of_lookup_2.
    - apply Forall_fmap, Forall_forall. intros x Hi. simpl. destruct (Hx x Hi) as [-> Hr]. done. }
  destruct Hdeltas as [Hde Hdr].
  set (n := Z.to_nat ((len_of data * Z.of_nat w + 7) / 8)) in *.
  assert (Hn : (length data * w <= 8 * n < length data * w + 8)%nat).
  { unfold n, len_of. pose proof (Z.div_mod (Z.of_nat (length data) * Z.of_nat w + 7) 8 ltac:(lia)).
    pose proof (Z.mod_pos_bound (Z.of_nat (length data) * Z.of_nat w + 7) 8 ltac:(lia)). lia. }
  assert (Hdl : length deltas = length data) by (unfold deltas; by rewrite length_fmap).
  rewrite <-le_bytes_zeros. pose proof (pack_values_spec n w deltas [] 0 eq_refl) as Hp.
  simpl in Hp. rewrite Hp by (rewrite Hdl; lia). cbn [mbind option_bind]. eexists _, w, _. split; [done|].
  split; [lia|]. split; [done|]. split; [done|]. split; [apply le_bytes_are_bytes|]. rewrite le_bytes_length. split; [done|]. split.
  - rewrite <-Hdl, packed_fields, Hde by (done || rewrite Hdl; lia). done.
  - unfold len_of at 1. rewrite le_bytes_length. unfold n. rewrite Z2Nat.id by (apply Z.div_pos; unfold len_of; lia). lia.
Qed.

(** ** The kernels on what the encoder writes *)

Section kernels.
Context (data bytes : list Z) (w : nat) (packed : list Z).
Context (Hpacks : packs data bytes w packed) (Hlen : len_of data < MAX_ROWS) (Hdata : Forall (signed 8) data).
Context (rest : list Z).

Abbreviation n := (length data).
Abbreviation deltas := (fields packed w n).

Lemma deltas_of x : x ∈ data -> 0 <= x - min_of data <= U64_MAX /\ wrap_i64 (min_of data + (x - min_of data)) = x.
Proof using Hpacks Hdata.
  destruct Hpacks as (Hw & Hnn & _). destruct (min_of_spec data Hnn) as [Hin Hmin]. intros Hx. specialize (Hmin x Hx).
  rewrite Forall_forall in Hdata. pose proof (Hdata _ Hx) as Hs. pose proof (Hdata _ Hin) as Hs'.
  unfold signed, width in Hs, Hs'. change (256 ^ Z.of_nat 8 / 2) with F64_SIGN in *. unfold F64_SIGN, U64_MAX in *.
  split; [lia|]. replace (min_of data + (x - min_of data)) with x by lia. unfold wrap_i64, wrap64, F64_SIGN, U64_MOD.
  destruct (Z.lt_ge_cases x 0).
  - rewrite <-(Z_mod_plus_full x 1), Z.mod_small by lia. rewrite (proj2 (Z.ltb_ge _ _)) by lia. lia.
  - rewrite Z.mod_small by lia. by rewrite (proj2 (Z.ltb_lt _ _)) by lia.
Qed.

Lemma decoded_deltas : (fun delta => wrap_i64 (min_of data + delta)) <$> deltas = data.
Proof using Hpacks Hdata.
  pose proof Hpacks as (_ & _ & _ & _ & _ & Hf & _). rewrite Hf, <-list_fmap_compose.
  transitivity (id <$> data); [|apply list_fmap_id]. apply list_fmap_ext. intros i x Hi. unfold compose.
  apply deltas_of. by eapply list_elem_of_lookup_2.
Qed.

Lemma header_read :
  header_fields (bytes ++ rest) = (len_of data, Z.of_nat w, min_of data) /\
  drop 17 (bytes ++ rest) = packed ++ rest /\ len_of (bytes ++ rest) = 17 + len_of packed + len_of rest /\
  packed_bytes_of (len_of data) (Z.of_nat w) = len_of packed.
Proof using Hpacks Hlen Hdata.
  destruct Hpacks as (Hw & Hnn & -> & Hb & Hn & _). destruct (min_of_spec data Hnn) as [Hin _].
  pose proof (proj1 (Forall_forall _ _) Hdata _ Hin) as Hs. pose proof (len_of_nonneg data).
  unfold BITPACK_HEADER, header_fields. rewrite <-!app_assoc.
  assert (H8 : forall (a : Z) l, take 8 (to_le 8 a ++ l) = to_le 8 a).
  { intros a l. by rewrite take_app_length' by by rewrite to_le_length. }
  assert (Hd8 : forall (a : Z) l, drop 8 (to_le 8 a ++ l) = l).
  { intros a l. by rewrite drop_app_length' by by rewrite to_le_length. }
  assert (H1 : forall l, take 1 (to_le 1 (Z.of_nat w) ++ l) = to_le 1 (Z.of_nat w)).
  { intros l. by rewrite take_app_length' by by rewrite to_le_length. }
  assert (Hd1 : forall l, drop 1 (to_le 1 (Z.of_nat w) ++ l) = l).
  { intros l. by rewrite drop_app_length' by by rewrite to_le_length. }
  change 17%nat with (8 + (1 + 8))%nat. change 9%nat with (8 + 1)%nat.
  rewrite <-!drop_drop, H8, !Hd8, H1, !Hd1, H8, !Hd8. split_and!.
  - rewrite !u_from_to_le, i_from_to_le; [done|done|unfold unsigned, width; simpl; lia|].
    unfold unsigned, width. change (256 ^ Z.of_nat 8) with U64_MOD. size_lia.
  - done.
  - rewrite !len_of_app. unfold len_of. rewrite !to_le_length. lia.
  - unfold packed_bytes_of. assert (0 <= len_of data * Z.of_nat w <= len_of data * 48) by (unfold len_of; nia).
    rewrite (wrap64_small (len_of data * Z.of_nat w)), wrap64_small by size_lia. unfold len_of.
    symmetry. apply Z.div_unique with (Z.of_nat n * Z.of_nat w + 7 - 8 * Z.of_nat (length packed)); lia.
Qed.

Lemma take_packed : take (Z.to_nat (len_of packed)) (drop 17 (bytes ++ rest)) = packed.
Proof using Hpacks Hlen Hdata.
  destruct header_read as (_ & -> & _). unfold len_of. by rewrite Nat2Z.id, take_app_length.
Qed.

Lemma enough : (len_of (bytes ++ rest) <? 17) = false /\ (len_of (bytes ++ rest) <? 17 + len_of packed) = false.
Proof using Hpacks Hlen Hdata.
  destruct header_read as (_ & _ & -> & _). pose proof (len_of_nonneg packed). pose proof (len_of_nonneg rest).
  rewrite !(proj2 (Z.ltb_ge _ _)) by lia. done.
Qed.

Lemma bitpack_decode_packs : bitpack_decode_i64 (bytes ++ rest) = Done (data, len_of bytes).
Proof using Hpacks Hlen Hdata.
  unfold bitpack_decode_i64. destruct header_read as (Hh & _ & _ & Hp), enough as [H17 He].
  rewrite H17, Hh, Hp, He, (proj2 (Z.leb_gt _ _)) by (pose proof (len_of_nonneg data); size_lia).
  pose proof Hpacks as (Hw & Hnn & Hbytes & Hb & Hn & _). rewrite take_packed, Nat2Z.id.
  unfold len_of at 1. rewrite Nat2Z.id, bitpack_fill_fields, decoded_deltas by (done || lia). f_equal. f_equal.
  rewrite Hbytes. unfold BITPACK_HEADER. rewrite !len_of_app. unfold len_of. rewrite !to_le_length. lia.
Qed.

Lemma bitpack_at_idx_packs idx : bitpack_decode_at_idx (bytes ++ rest) idx = Some (data !! idx).
Proof using Hpacks Hlen Hdata.
  unfold bitpack_decode_at_idx. destruct header_read as (Hh & _ & _ & Hp), enough as [H17 He].
  rewrite H17, Hh. pose proof Hpacks as (Hw & Hnn & Hbytes & Hb & Hn & _).
  destruct (Z.leb_spec (len_of data) (Z.of_nat idx)) as [Hge|Hlt].
  { rewrite lookup_ge_None_2 by (unfold len_of in Hge; lia). done. }
  rewrite (proj2 (Z.eqb_neq _ _)), Hp, He, take_packed, Nat2Z.id by lia. unfold len_of in Hlt.
  pose proof (Nat.mul_le_mono_r (S idx) n w ltac:(lia)).
  rewrite slow_value_field by (done || lia). cbn [mbind option_bind].
  rewrite <-decoded_deltas at 2. unfold fields. rewrite !list_lookup_fmap, lookup_seq_lt by lia. done.
Qed.

Lemma bitpack_count_packs low high :
  bitpack_count_in_range (bytes ++ rest) low high = Some (length (List.filter (in_f64_range low high) data)).
Proof using Hpacks Hlen Hdata.
  unfold bitpack_count_in_range, bitpack_header. destruct header_read as (Hh & _ & _ & Hp), enough as [H17 He].
  rewrite H17, Hh. pose proof Hpacks as (Hw & Hnn & Hbytes & Hb & Hn & _).
  rewrite (proj2 (Z.ltb_ge _ _)), Hp, He, take_packed by lia. cbn [mbind option_bind]. rewrite Nat2Z.id.
  unfold len_of. rewrite Nat2Z.id, (proj2 (Nat.eqb_neq _ _)) by lia.
  rewrite (mapM_seq_Some _ (fun i => field (le_bytes_value packed) w (i * w)) 0 n).
  - cbn [mbind option_bind]. f_equal. change ((fun i => _) <$> seq 0 n) with deltas.
    rewrite <-decoded_deltas at 2. generalize deltas. intros l. induction l as [|d l IH]; [done|]. simpl.
    destruct (in_f64_range low high (wrap_i64 (min_of data + d))); simpl; by rewrite IH.
  - intros i Hi. apply bitpack_read_bits_field; [done|lia| |].
    + pose proof (Nat.mod_upper_bound (i * w) 8 ltac:(done)). lia.
    + pose proof (Nat.mul_le_mono_r (S i) n w ltac:(lia)). lia.
Qed.
End kernels.

(** ** The aggregation kernels *)

Definition agg_of (deltas : list Z) : DeltaAgg := foldl agg_add agg_zero deltas.

Lemma agg_eq a b : sum_delta a = sum_delta b -> min_delta a = min_delta b -> max_delta a = max_delta b -> a = b.
Proof. destruct a, b. simpl. by intros -> -> ->. Qed.

Lemma wrap64_add_l a b : wrap64 (wrap64 a + b) = wrap64 (a + b).
Proof. apply Z.add_mod_idemp_l. done. Qed.

Lemma wrap64_add_r a b : wrap64 (a + wrap64 b) = wrap64 (a + b).
Proof. apply Z.add_mod_idemp_r. done. Qed.

(** Merging is adding in any order. *)
Lemma agg_merge_add a b delta : agg_merge a (agg_add b delta) = agg_add (agg_merge a b) delta.
Proof. apply agg_eq; simpl; [|lia..]. rewrite wrap64_add_l, wrap64_add_r. f_equal. lia. Qed.

Lemma agg_add_comm a x y : agg_add (agg_add a x) y = agg_add (agg_add a y) x.
Proof. apply agg_eq; simpl; [|lia..]. rewrite !wrap64_add_l. f_equal. lia. Qed.

Lemma agg_add_merge a b delta : agg_merge (agg_add a delta) b = agg_add (agg_merge a b) delta.
Proof. apply agg_eq; simpl; [|lia..]. rewrite !wrap64_add_l. f_equal. lia. Qed.

Lemma foldl_merge_add lanes : forall a delta, foldl agg_merge (agg_add a delta) lanes = agg_add (foldl agg_merge a lanes) delta.
Proof.
  induction lanes as [|l lanes IH]; intros a delta; [done|]. simpl. by rewrite agg_add_merge, IH.
Qed.

Lemma foldl_add_comm ds : forall a delta, foldl agg_add (agg_add a delta) ds = agg_add (foldl agg_add a ds) delta.
Proof. induction ds as [|d ds IH]; intros a delta; [done|]. simpl. by rewrite agg_add_comm, IH. Qed.

(** Adding to the lanes is adding to their merge. *)
Lemma lanes_add lanes : forall ds a, length lanes = length ds ->
  foldl agg_merge a (zip_with agg_add lanes ds) = foldl agg_add (foldl agg_merge a lanes) ds.
Proof.
  induction lanes as [|l lanes IH]; intros [|d ds] a Hlen; try done. simpl in *.
  rewrite IH by lia. by rewrite agg_merge_add, foldl_merge_add.
Qed.

Lemma fold_fields (f : nat -> option Z) (g : nat -> Z) acc l :
  (forall i, i ∈ l -> f i = Some (g i)) ->
  foldl (fun acc i => acc ← acc; delta ← f i; Some (agg_add acc delta)) (Some acc) l =
    Some (foldl agg_add acc (g <$> l)).
Proof.
  revert acc. induction l as [|i l IH]; intros acc Hf; [done|]. cbn [foldl mbind option_bind fmap list_fmap map].
  rewrite Hf by set_solver. cbn [mbind option_bind]. rewrite IH; [done|]. intros j Hj. apply Hf. set_solver.
Qed.

Section agg.
Context (packed : list Z) (Hbytes : Forall is_byte packed).
Abbreviation value := (le_bytes_value packed).

Lemma group_fields w g :
  ((g + 1) * w <= length packed)%nat ->
  group_deltas (take w (drop (g * w) packed)) w = (fun i => field value w (i * w)) <$> seq (g * 8) 8.
Proof using Hbytes.
  intros Hg. unfold group_deltas. apply list_eq. intros k. rewrite !list_lookup_fmap.
  destruct (decide (k < 8)%nat) as [Hk|Hk]; [|by rewrite !lookup_seq_ge by lia].
  rewrite !lookup_seq_lt by done. simpl. f_equal.
  eapply (field_window _ _ _ (g * w) w); [done|nia|left; nia|]. unfold u_from_le. do 3 f_equal. nia.
Qed.

Lemma group_lanes_agg w n : forall g lanes,
  ((g + n) * w <= length packed)%nat -> length lanes = 8%nat ->
  foldl agg_merge agg_zero (group_lanes n g packed w lanes) =
    foldl agg_add (foldl agg_merge agg_zero lanes) ((fun i => field value w (i * w)) <$> seq (g * 8) (n * 8)).
Proof using Hbytes.
  induction n as [|n IH]; intros g lanes Hlen Hl; [done|]. cbn [group_lanes].
  rewrite (proj2 (Nat.ltb_ge _ _)) by nia. rewrite group_fields by nia.
  rewrite IH; [|nia|rewrite length_zip_with, Hl, length_fmap, length_seq; lia].
  rewrite lanes_add by (by rewrite Hl, length_fmap, length_seq).
  rewrite <-foldl_app, <-fmap_app. f_equal.
Qed.

Lemma merge_zeros : foldl agg_merge agg_zero (replicate 8 agg_zero) = agg_zero.
Proof using. done. Qed.

Lemma two_byte_field_spec w i :
  (w <= 9)%nat -> (i * w + w <= 8 * length packed)%nat -> (0 < w)%nat ->
  two_byte_field packed w i = Some (field value w (i * w)).
Proof using Hbytes.
  intros Hw Hi Hpos. unfold two_byte_field. set (pos := (i * w)%nat) in *.
  pose proof (Nat.div_mod_eq pos 8) as Hdm. pose proof (Nat.mod_upper_bound pos 8 ltac:(done)) as Hm.
  destruct (lookup_lt_is_Some_2 packed (pos / 8) ltac:(lia)) as [b0 Hb0]. rewrite Hb0. simpl. f_equal.
  eapply (field_window _ _ _ (pos / 8) 2); [done|lia|left; lia|]. do 2 f_equal; [|f_equal; lia].
  rewrite (drop_S _ _ _ Hb0). simpl.
  assert (Hb : is_byte b0) by exact (Forall_lookup_1 _ _ _ _ Hbytes Hb0). unfold is_byte in Hb.
  assert (Hor : forall b1, Z.lor b0 (Z.shiftl b1 8) = b0 + 256 * b1) by (intros b1; by apply lor_shiftl).
  destruct (packed !! S (pos / 8)) as [b1|] eqn:Hb1.
  - pose proof (Forall_lookup_1 _ _ _ _ Hbytes Hb1) as Hr. unfold is_byte in Hr. rewrite (drop_S _ _ _ Hb1). simpl.
    rewrite Hor. lia.
  - apply lookup_ge_None in Hb1. rewrite drop_ge by done. simpl. rewrite Hor. lia.
Qed.

Lemma agg_lanes_spec w n :
  (w = 6 \/ w = 7)%nat -> (n * w <= 8 * length packed)%nat -> agg_lanes packed w n = Some (agg_of (fields packed w n)).
Proof using Hbytes.
  intros Hw Hn. unfold agg_lanes. pose proof (Nat.div_mod_eq n 8) as Hdm.
  set (q := (n / 8)%nat) in *. pose proof (Nat.mod_upper_bound n 8 ltac:(done)).
  rewrite group_lanes_agg, merge_zeros by (rewrite ?length_replicate; nia). simpl Nat.mul at 1.
  assert (Htail : forall l acc, (forall i, i ∈ l -> (i < n)%nat) ->
    foldl (fun acc i => acc ← acc; match two_byte_field packed w i with
      | Some delta => Some (agg_add acc delta)
      | None => if (w =? 6)%nat then Some (agg_add acc 0) else None end) (Some acc) l =
    Some (foldl agg_add acc ((fun i => field value w (i * w)) <$> l))).
  { induction l as [|i l IH]; intros acc Hl; [done|]. cbn [foldl mbind option_bind fmap list_fmap map].
    pose proof (Hl i (list_elem_of_here _ _)) as Hi. pose proof (Nat.mul_le_mono_r (S i) n w ltac:(lia)).
    rewrite two_byte_field_spec by lia. apply IH. intros j Hj. apply Hl. by right. }
  rewrite Htail by (intros i Hi; apply elem_of_seq in Hi; lia). unfold agg_of, fields.
  rewrite <-foldl_app, <-fmap_app. do 3 f_equal. rewrite Nat.mul_0_l.
  replace n with (q * 8 + (n - q * 8))%nat at 2 by lia. by rewrite seq_app.
Qed.

Lemma agg_words_spec w n : forall i acc,
  (0 < w <= 16)%nat -> ((i + n) * w <= 8 * length packed)%nat ->
  agg_words n i packed w acc = foldl agg_add acc ((fun i => field value w (i * w)) <$> seq i n).
Proof using Hbytes.
  induction n as [|n IH]; intros i acc Hw Hn; [done|]. cbn [agg_words]. set (pos := (i * w)%nat) in *.
  pose proof (Nat.div_mod_eq pos 8) as Hdm. pose proof (Nat.mod_upper_bound pos 8 ltac:(done)) as Hm.
  unfold three_bytes. destruct (take 3 (drop (pos / 8) packed)) as [|b l] eqn:Ht.
  { exfalso. apply (f_equal length) in Ht. rewrite length_take, length_drop in Ht. simpl length in Ht.
    pose proof (Nat.mul_le_mono_r (S i) (i + S n) w ltac:(lia)). lia. }
  rewrite IH by (done || lia). cbn [seq fmap list_fmap map foldl]. f_equal. f_equal.
  eapply (field_window _ _ _ (pos / 8) 3); [done|lia|left; lia|]. rewrite Ht. unfold width_mask, shl1_64.
  rewrite Z.mod_small by lia. do 3 f_equal. lia.
Qed.

Lemma agg_bits_spec w n :
  (w <= 64)%nat -> (n * w <= 8 * length packed)%nat -> agg_bits packed w n = Some (agg_of (fields packed w n)).
Proof using Hbytes.
  intros Hw Hn. unfold agg_bits. rewrite (fold_fields _ (fun i => field value w (i * w))); [done|].
  intros i Hi%elem_of_seq. pose proof (Nat.mul_le_mono_r (S i) n w ltac:(lia)). apply slow_value_field; [done|lia|done].
Qed.

Lemma byte_fields n : (n <= length packed)%nat -> take n packed = fields packed 8 n.
Proof using Hbytes.
  intros Hn. apply list_eq. intros i. unfold fields. rewrite list_lookup_fmap.
  destruct (decide (i < n)%nat) as [Hi|Hi]; [|by rewrite lookup_take_ge, lookup_seq_ge by lia].
  rewrite lookup_take_lt, lookup_seq_lt by done. simpl.
  rewrite <-(le_bytes_of_bytes packed) at 1 by done. rewrite le_bytes_lookup by (lia || by apply value_nonneg).
  f_equal. unfold field. f_equal. f_equal. lia.
Qed.

(** Whichever kernel the width selects. *)
Lemma agg_kernel_spec w n :
  (0 < w <= 63)%nat -> (n * w <= 8 * length packed)%nat ->
  (if (Z.of_nat w =? 6) || (Z.of_nat w =? 7) then agg_lanes packed w n
   else if Z.of_nat w =? 8 then Some (foldl agg_add agg_zero (take n packed))
   else if Z.of_nat w <=? 16 then Some (agg_words n 0 packed w agg_zero)
   else agg_bits packed w n) = Some (agg_of (fields packed w n)).
Proof using Hbytes.
  intros Hw Hn. destruct (Z.eqb_spec (Z.of_nat w) 6), (Z.eqb_spec (Z.of_nat w) 7); simpl; try (apply agg_lanes_spec; lia).
  destruct (Z.eqb_spec (Z.of_nat w) 8).
  - assert (w = 8)%nat as -> by lia. by rewrite byte_fields by lia.
  - destruct (Z.leb_spec (Z.of_nat w) 16); [by rewrite agg_words_spec by lia|]. apply agg_bits_spec; lia.
Qed.
End agg.

(** *** Against the data *)

Definition sum_of (l : list Z) : Z := foldr Z.add 0 l.

Lemma agg_of_spec ds :
  sum_delta (agg_of ds) = wrap64 (sum_of ds) /\ min_delta (agg_of ds) = foldl Z.min U64_MAX ds /\
  max_delta (agg_of ds) = foldl Z.max 0 ds.
Proof.
  unfold agg_of. assert (H : forall a, sum_delta a = wrap64 (sum_delta a) ->
    sum_delta (foldl agg_add a ds) = wrap64 (sum_delta a + sum_of ds) /\
    min_delta (foldl agg_add a ds) = foldl Z.min (min_delta a) ds /\
    max_delta (foldl agg_add a ds) = foldl Z.max (max_delta a) ds).
  { induction ds as [|d ds IH]; intros a Ha; simpl; [by rewrite Z.add_0_r|].
    destruct (IH (agg_add a d)) as (Hs & Hmin & Hmax).
    { simpl. symmetry. apply wrap64_small. apply wrap64_range. }
    rewrite Hs, Hmin, Hmax. simpl. rewrite wrap64_add_l. split; [f_equal; lia|done]. }
  apply (H agg_zero). done.
Qed.

Lemma wrap_i64_mod x y : wrap64 x = wrap64 y -> wrap_i64 x = wrap_i64 y.
Proof. unfold wrap_i64. by intros ->. Qed.

Lemma wrap64_wrap_i64 x : wrap64 (wrap_i64 x) = wrap64 x.
Proof.
  unfold wrap_i64. destruct (_ <? _); [apply wrap64_small, wrap64_range|].
  unfold wrap64, U64_MOD. rewrite <-(Z_mod_plus_full _ 1). rewrite Z.mul_1_l, Z.sub_add. apply Z.mod_mod. done.
Qed.

Lemma wrap64_mul_wrap_i64 a b : wrap64 (wrap_i64 a * b) = wrap64 (a * b).
Proof.
  transitivity (wrap64 (wrap64 (wrap_i64 a) * b)); [symmetry; by apply Z.mul_mod_idemp_l|].
  rewrite wrap64_wrap_i64. by apply Z.mul_mod_idemp_l.
Qed.

Section agg_packs.
Context (data bytes : list Z) (w : nat) (packed : list Z).
Context (Hpacks : packs data bytes w packed) (Hlen : len_of data < MAX_ROWS) (Hdata : Forall (signed 8) data).
Context (rest : list Z).

Lemma min_shift : min_of data + foldl Z.min U64_MAX ((fun x => x - min_of data) <$> data) = min_of data.
Proof using Hpacks Hdata.
  destruct Hpacks as (_ & Hnn & _). destruct (min_of_spec data Hnn) as [Hin Hmin].
  set (ds := (fun x => x - min_of data) <$> data).
  assert (Hz : 0 ∈ ds) by (apply list_elem_of_fmap; exists (min_of data); split; [lia|done]).
  pose proof (foldl_min_le ds U64_MAX 0 (or_intror Hz)). destruct (foldl_min_in ds U64_MAX) as [He|He].
  - unfold U64_MAX in *. lia.
  - apply list_elem_of_fmap in He as (x & He & Hx). specialize (Hmin x Hx). lia.
Qed.

Lemma max_shift : min_of data + foldl Z.max 0 ((fun x => x - min_of data) <$> data) = max_of data.
Proof using Hpacks Hdata.
  destruct Hpacks as (_ & Hnn & _). destruct (min_of_spec data Hnn) as [Hin Hmin].
  destruct (max_of_spec data Hnn) as [Hxin Hmax]. set (ds := (fun x => x - min_of data) <$> data).
  assert (Hz : max_of data - min_of data ∈ ds) by (apply list_elem_of_fmap; by exists (max_of data)).
  pose proof (foldl_max_ge ds 0 _ (or_intror Hz)). destruct (foldl_max_in ds 0) as [He|He].
  - specialize (Hmin _ Hxin). lia.
  - apply list_elem_of_fmap in He as (x & He & Hx). specialize (Hmax x Hx). lia.
Qed.

Lemma sum_shift c : sum_of ((fun x => x - c) <$> data) + len_of data * c = sum_of data.
Proof using.
  clear Hpacks Hlen Hdata. induction data as [|x l IH]; [done|].
  assert (He : len_of (x :: l) = 1 + len_of l) by (unfold len_of; simpl; lia). rewrite He, fmap_cons.
  change (x - c + sum_of ((fun x => x - c) <$> l) + (1 + len_of l) * c = x + sum_of l). rewrite <-IH. ring.
Qed.

Lemma bitpack_agg_packs :
  bitpack_agg_i64 (bytes ++ rest) =
    Some (Some (wrap_i64 (sum_of data), min_of data, max_of data, len_of data, len_of bytes)).
Proof using Hpacks Hlen Hdata.
  unfold bitpack_agg_i64. destruct (header_read _ _ _ _ Hpacks Hlen Hdata rest) as (Hh & _ & _ & Hp).
  destruct (enough _ _ _ _ Hpacks Hlen Hdata rest) as [H17 He].
  rewrite H17, Hh, Hp, He, (take_packed _ _ _ _ Hpacks Hlen Hdata). pose proof Hpacks as (Hw & Hnn & Hb & Hbytes & Hn & Hf & _).
  rewrite (proj2 (Z.eqb_neq _ _)) by lia. rewrite Nat2Z.id.
  assert (Hnat : Z.to_nat (len_of data) = length data) by (unfold len_of; apply Nat2Z.id). rewrite Hnat.
  rewrite agg_kernel_spec by (done || lia). cbn [mbind option_bind]. rewrite Hf.
  destruct (agg_of_spec ((fun x => x - min_of data) <$> data)) as (Hs & Hmin & Hmax). rewrite Hs, Hmin, Hmax.
  assert (Hpos : (0 <? len_of data) = true) by (apply Z.ltb_lt; unfold len_of; destruct data; [done|simpl; lia]).
  rewrite Hpos, min_shift, max_shift.
  destruct (min_of_spec data Hnn) as [Hin _]. destruct (max_of_spec data Hnn) as [Hxin _].
  assert (Hid : forall x, x ∈ data -> wrap_i64 x = x).
  { intros x Hx. destruct (deltas_of _ _ _ _ Hpacks Hdata x Hx) as [_ Hd]. rewrite <-Hd at 2. f_equal. lia. }
  rewrite (Hid (min_of data)), (Hid (max_of data)) by done.
  assert (Hsum : wrap_i64 (wrap_i64 (len_of data) * min_of data + wrap64 (sum_of ((fun x => x - min_of data) <$> data))) =
    wrap_i64 (sum_of data)).
  { apply wrap_i64_mod. rewrite wrap64_add_r. set (ds := sum_of _).
    transitivity (wrap64 (wrap64 (wrap_i64 (len_of data) * min_of data) + ds)); [by rewrite wrap64_add_l|].
    rewrite wrap64_mul_wrap_i64, wrap64_add_l. f_equal. unfold ds. rewrite Z.add_comm. apply sum_shift. }
  assert (Hend : 17 + len_of packed = len_of bytes)
    by (rewrite Hb; unfold BITPACK_HEADER; rewrite !len_of_app; unfold len_of; rewrite !to_le_length; lia).
  by rewrite Hsum, Hend.
Qed.
End agg_packs.

(** C24 The kernels on bit-packed integers agree with the data: on the bytes that [bitpack_encode_i64]
    produced, followed by anything, the full decoder gives the data back and the number of bytes,
    the point lookup gives each row, the counting kernel the number of rows in a float range, and
    the aggregation kernel, with its unrolled group and word paths, the wrapping sum, minimum,
    maximum and count of the decoded rows. *)
Theorem bitpack_kernels_exact data bytes rest :
  bitpack_encode_i64 data = Some (Some bytes) -> len_of data < MAX_ROWS -> Forall (signed 8) data ->
  bitpack_decode_i64 (bytes ++ rest) = Done (data, len_of bytes) /\
  (forall idx, bitpack_decode_at_idx (bytes ++ rest) idx = Some (data !! idx)) /\
  (forall low high, bitpack_count_in_range (bytes ++ rest) low high =
    Some (length (List.filter (in_f64_range low high) data))) /\
  bitpack_agg_i64 (bytes ++ rest) =
    Some (Some (wrap_i64 (sum_of data), min_of data, max_of data, len_of data, len_of bytes)).
Proof.
  intros Henc Hlen Hdata. destruct (bitpack_encode_spec data Hlen Hdata) as [He|(b & w & packed & He & Hp)]; [congruence|].
  assert (b = bytes) as -> by congruence. split_and!.
  - by eapply bitpack_decode_packs.
  - intros idx. by eapply bitpack_at_idx_packs.
  - intros low high. by eapply bitpack_count_packs.
  - by eapply bitpack_agg_packs.
Qed.

(** Twenty rows with a spread of 5 bits, and bytes after the block. *)
Definition packed_example : list Z := (fun i => 1000 + Z.of_nat i) <$> seq 0 20.

Lemma bitpack_kernels_exact_witness :
  exists bytes, bitpack_encode_i64 packed_example = Some (Some bytes) /\
    bitpack_decode_i64 (bytes ++ [7; 7]) = Done (packed_example, 30) /\
    bitpack_decode_at_idx (bytes ++ [7; 7]) 19 = Some (Some 1019) /\
    bitpack_agg_i64 (bytes ++ [7; 7]) = Some (Some (20190, 1000, 1019, 20, 30)).
Proof.
  eexists. split; [vm_compute; reflexivity|].
  match goal with |- context [bitpack_decode_i64 (?b ++ _)] => set (bytes := b) end.
  destruct (bitpack_kernels_exact packed_example bytes [7; 7]) as (Hd & Hi & _ & Ha);
    [vm_compute; reflexivity|done|repeat constructor; done|].
  split; [exact Hd|]. split; [exact (Hi 19%nat)|]. exact Ha.
Defined.
