(* ===== verification/StringDict.v ===== *)
(** * Dictionary-encoded string columns on disk

    Models [StringDictView] of [storage/on_demand/mod.rs]: the borrowed view over the plain and
    the compact layout of a dictionary column, its accessors, the search for the index of a value
    and the scan for the rows of an index.  [memchr]'s substring search and byte iterator are
    parameters, with what their documentation promises as hypotheses.  A parsed view's slices have
    the lengths that its counts say, so indexing them does not fail. *)
From S2P Require Import Prelude Bytes Bits Values Columns ColumnRows ColumnCodec.
Local Open Scope Z_scope.

(** ** The view *)

Record StringDictView := mkView {
  sv_row_count : nat;
  sv_dict_size : nat;
  sv_index_width : nat;
  sv_indices : list Z;
  sv_dict_offsets : list Z;
  sv_dict_data : list Z;
  sv_consumed : Z
}.

(** The unsigned integer of [size] bytes at element [i]. *)
Definition element_at (size : nat) (bytes : list Z) (i : nat) : Z := u_from_le (take size (drop (i * size) bytes)).

Definition check_or_invalid (b : bool) {A} (k : Outcome A) : Outcome A := if b then Invalid else k.

Definition StringDictView_parse (data : list Z) (compact : bool) : Outcome StringDictView :=
  let header_len := if compact then 17 else 16 in
  check_or_invalid (len_of data <? header_len) (
  let row_count := u_from_le (take 8 data) in
  let dict_size := u_from_le (take 8 (drop 8 data)) in
  let index_width := if compact then u_from_le (take 1 (drop 16 data)) else 4 in
  check_or_invalid (negb ((index_width =? 1) || (index_width =? 2) || (index_width =? 4))) (
  outcome_bind (of_result (checked (row_count * index_width))) (fun indices_len =>
  outcome_bind (of_result (checked (dict_size * 4))) (fun dict_offsets_len =>
  outcome_bind (of_result (checked (header_len + indices_len))) (fun dict_offsets_start =>
  outcome_bind (of_result (checked (dict_offsets_start + dict_offsets_len))) (fun dict_data_len_offset =>
  let dict_data_start := wrap64 (dict_data_len_offset + 8) in
  check_or_invalid (len_of data <? dict_data_start) (
  if dict_data_start <? dict_data_len_offset then Panic
  else
    let at_ := fun pos n => take (Z.to_nat n) (drop (Z.to_nat pos) data) in
    let dict_data_len := u_from_le (at_ dict_data_len_offset 8) in
    outcome_bind (of_result (checked (dict_data_start + dict_data_len))) (fun consumed =>
    check_or_invalid (len_of data <? consumed) (
    Done (mkView (Z.to_nat row_count) (Z.to_nat dict_size) (Z.to_nat index_width)
      (at_ header_len indices_len) (at_ dict_offsets_start dict_offsets_len)
      (at_ dict_data_start dict_data_len) consumed))))))))))
  .

Section view.
Context (view : StringDictView).

Definition sv_index (row : nat) : option Z :=
  if (row <? sv_row_count view)%nat then Some (element_at (sv_index_width view) (sv_indices view) row) else None.

Definition sv_offset (index : nat) : option Z :=
  if (index <? sv_dict_size view)%nat then Some (element_at 4 (sv_dict_offsets view) index) else None.

Definition sv_value (dict_index : Z) : option (list Z) :=
  let index := Z.to_nat dict_index in
  if (index =? 0)%nat || (sv_dict_size view <=? index)%nat then None
  else
    start ← sv_offset (index - 1);
    stop ← sv_offset index;
    if (start <=? stop) && (stop <=? len_of (sv_dict_data view))
    then Some (take (Z.to_nat (stop - start)) (drop (Z.to_nat start) (sv_dict_data view))) else None.

Definition value_is (index : nat) (target : list Z) : bool := bool_decide (sv_value (Z.of_nat index) = Some target).

(** The binary search over the offsets: the index found, or the final [low]. *)
Fixpoint search_offset (fuel : nat) (start : Z) (target : list Z) (low high : nat) : Z + nat :=
  match fuel with
  | 0%nat => inr low
  | S fuel =>
      if (low <? high)%nat then
        let mid := ((low + high) / 2)%nat in
        match default 0 (sv_offset mid) ?= start with
        | Lt => search_offset fuel start target (S mid) high
        | Gt => search_offset fuel start target low mid
        | Eq => if value_is (S mid) target then inl (Z.of_nat (S mid)) else inr high
        end
      else inr low
  end.

(** The value that starts at byte [start], if it is the target. *)
Definition index_at (start : Z) (target : list Z) : option Z :=
  let last := (sv_dict_size view - 1)%nat in
  match search_offset (sv_dict_size view) start target 0 last with
  | inl found => Some found
  | inr low =>
      if (low <? last)%nat && bool_decide (sv_offset low = Some start) && value_is (S low) target
      then Some (Z.of_nat (S low)) else None
  end.

(** [memchr::memmem::find(haystack, needle)] *)
Context (memmem_find : list Z -> list Z -> option nat).

(** The occurrences of the target in the data from [search_from] on; [fuel] bounds them. *)
Fixpoint find_occurrence (fuel : nat) (target : list Z) (search_from : nat) : option Z :=
  match fuel with
  | 0%nat => None
  | S fuel =>
      if (search_from <? length (sv_dict_data view))%nat then
        relative ← memmem_find (drop search_from (sv_dict_data view)) target;
        let start := (search_from + relative)%nat in
        match index_at (Z.of_nat start) target with
        | Some index => Some index
        | None => find_occurrence fuel target (S start)
        end
      else None
  end.

Definition find_value (target : list Z) : option Z :=
  match target with
  | [] => (fun e => Z.of_nat e.2) <$> list_find (fun index => value_is index [] = true) (seq 1 (sv_dict_size view - 1))
  | _ => find_occurrence (length (sv_dict_data view)) target 0
  end.

(** [memchr::memchr_iter(byte, haystack)], the rows it yields *)
Context (memchr_iter : Z -> list Z -> list nat).

(** The rows passed to the callback while it asks for more. *)
Definition index_eq_rows (target : Z) (limit : nat) : list nat :=
  let count := (sv_row_count view `min` limit)%nat in
  let chunks := List.filter (fun row => element_at (sv_index_width view) (sv_indices view) row =? target) (seq 0 count) in
  if (sv_index_width view =? 1)%nat && (target <=? 255) then memchr_iter target (take count (sv_indices view))
  else if (sv_index_width view =? 2)%nat && (target <=? 65535) then chunks
  else if (sv_index_width view =? 4)%nat then chunks
  else [].

Fixpoint call_while {A} (matched : A -> nat -> A * bool) (acc : A) (rows : list nat) : A :=
  match rows with
  | [] => acc
  | row :: rows => let '(acc, continue) := matched acc row in if continue : bool then call_while matched acc rows else acc
  end.

Definition for_each_index_eq {A} (target : Z) (limit : nat) (matched : A -> nat -> A * bool) (acc : A) : A :=
  call_while matched acc (index_eq_rows target limit).

Definition sv_decode : ColumnData :=
  CdStringDict
    (if (sv_index_width view =? 4)%nat then element_at 4 (sv_indices view) <$> seq 0 (sv_row_count view)
     else (fun row => default 0 (sv_index row)) <$> seq 0 (sv_row_count view))
    (element_at 4 (sv_dict_offsets view) <$> seq 0 (sv_dict_size view)) (sv_dict_data view).
End view.

(** ** The value search *)

(** The documentation of [memmem::find]: the first position where the needle occurs. *)
Definition occurs_at (haystack needle : list Z) (i : nat) : Prop :=
  exists suffix, drop i haystack = needle ++ suffix.

Definition memmem_spec (memmem_find : list Z -> list Z -> option nat) : Prop :=
  forall haystack needle, needle <> [] ->
    match memmem_find haystack needle with
    | Some i => occurs_at haystack needle i /\ forall j, (j < i)%nat -> ~ occurs_at haystack needle j
    | None => forall j, ~ occurs_at haystack needle j
    end.

(** The documentation of [memchr_iter]: the positions of the byte, in order. *)
Definition memchr_spec (memchr_iter : Z -> list Z -> list nat) : Prop :=
  forall byte haystack, memchr_iter byte haystack =
    List.filter (fun i => bool_decide (haystack !! i = Some byte)) (seq 0 (length haystack)).

(** The view shows the dictionary [dict]. *)
Definition shows (view : StringDictView) (dict : list (list Z)) : Prop :=
  sv_dict_size view = S (length dict) /\ sv_dict_data view = concat dict /\
  forall i, (i <= length dict)%nat -> sv_offset view i = Some (len_of (concat (take i dict))).

Section search.
Context (view : StringDictView) (dict : list (list Z)) (Hshows : shows view dict).

Lemma shows_value k v : dict !! k = Some v -> sv_value view (Z.of_nat (S k)) = Some v.
Proof using Hshows.
  destruct Hshows as (Hsize & Hdata & Hoff). intros Hv. apply lookup_lt_Some in Hv as Hk. unfold sv_value.
  rewrite Nat2Z.id, Hsize, (proj2 (Nat.leb_gt _ _)) by lia. simpl. rewrite Nat.sub_0_r, !Hoff, Hdata by lia.
  cbn [mbind option_bind]. pose proof (slice_concat dict k (S k) ltac:(lia)) as Hs. unfold slice in Hs.
  destruct (_ && _) eqn:Hc in Hs; [|done]. injection Hs as Hs. zb.
  rewrite (proj2 (Z.leb_le _ _)), (proj2 (Z.leb_le _ _)) by (unfold len_of in *; lia). cbn [andb]. f_equal. rewrite Hs.
  replace (S k - k)%nat with 1%nat by lia. rewrite (drop_S dict v k Hv). simpl. by rewrite app_nil_r.
Qed.

Lemma shows_value_inv index v : sv_value view index = Some v -> exists k, index = Z.of_nat (S k) /\ dict !! k = Some v.
Proof using Hshows.
  intros Hv. assert (Hk : exists k, Z.to_nat index = S k /\ (k < length dict)%nat).
  { destruct Hshows as (Hsize & _). unfold sv_value in Hv. rewrite Hsize in Hv.
    destruct (Nat.eqb_spec (Z.to_nat index) 0); [done|]. destruct (Nat.leb_spec (S (length dict)) (Z.to_nat index)); [done|].
    exists (Z.to_nat index - 1)%nat. lia. }
  destruct Hk as (k & Hk & Hlt). exists k. split; [lia|]. destruct (lookup_lt_is_Some_2 dict k Hlt) as [v' Hv'].
  pose proof (shows_value k v' Hv') as H. replace index with (Z.of_nat (S k)) in Hv by lia. congruence.
Qed.

Lemma value_is_spec k target : value_is view (S k) target = true <-> dict !! k = Some target.
Proof using Hshows.
  unfold value_is. rewrite bool_decide_eq_true. split.
  - intros Hv. apply shows_value_inv in Hv as (k' & Hk & Hv). assert (k' = k) as -> by lia. done.
  - apply shows_value.
Qed.

(** Whatever the search returns is the target's index. *)
Lemma search_offset_sound fuel : forall start target low high index,
  search_offset view fuel start target low high = inl index -> sv_value view index = Some target.
Proof using Hshows.
  induction fuel as [|fuel IH]; intros start target low high index; cbn [search_offset]; [done|].
  destruct (_ <? _)%nat; [|done]. destruct (_ ?= _); [|by apply IH|by apply IH].
  destruct (value_is _ _ _) eqn:Hv; [|done]. intros [= <-]. apply value_is_spec in Hv. by apply shows_value.
Qed.

Lemma index_at_sound start target index : index_at view start target = Some index -> sv_value view index = Some target.
Proof using Hshows.
  unfold index_at. destruct (search_offset _ _ _ _ _ _) as [found|low] eqn:Hs.
  - intros [= <-]. by eapply search_offset_sound.
  - destruct (_ && _) eqn:Hc; [|done]. intros [= <-]. apply andb_true_iff in Hc as [_ Hv].
    apply value_is_spec in Hv. by apply shows_value.
Qed.

(** Without empty values the offsets increase, and the search finds the value at its offset. *)
Context (Hnonempty : Forall (fun v => v <> []) dict).

Lemma offsets_increase i j : (i < j <= length dict)%nat -> len_of (concat (take i dict)) < len_of (concat (take j dict)).
Proof using Hnonempty.
  intros Hij. rewrite (concat_take_drop dict i j), len_of_app by lia.
  destruct (lookup_lt_is_Some_2 dict i ltac:(lia)) as [v Hv]. rewrite (drop_S dict v i Hv).
  destruct (j - i)%nat as [|m] eqn:Hm; [lia|]. simpl. rewrite len_of_app.
  pose proof (Forall_lookup_1 _ _ _ _ Hnonempty Hv) as Hne. simpl in Hne.
  pose proof (len_of_nonneg (concat (take m (drop (S i) dict)))). destruct v; [done|]. unfold len_of. simpl. lia.
Qed.

Lemma search_offset_complete k target fuel : forall low high,
  dict !! k = Some target -> (low <= k < high)%nat -> (high <= length dict)%nat -> (high - low < fuel)%nat ->
  search_offset view fuel (len_of (concat (take k dict))) target low high = inl (Z.of_nat (S k)).
Proof using Hshows Hnonempty.
  intros low high Hk. revert low high. induction fuel as [|fuel IH]; intros low high Hr Hh Hf; [lia|].
  cbn [search_offset]. rewrite (proj2 (Nat.ltb_lt _ _)) by lia. set (mid := ((low + high) / 2)%nat).
  assert (Hmid : (low <= mid < high)%nat).
  { unfold mid. pose proof (Nat.div_mod_eq (low + high) 2). pose proof (Nat.mod_upper_bound (low + high) 2 ltac:(done)). lia. }
  destruct Hshows as (_ & _ & Hoff). rewrite Hoff by lia. simpl default.
  destruct (Nat.lt_trichotomy mid k) as [Hlt|[->|Hgt]].
  - rewrite (proj2 (Z.compare_lt_iff _ _)) by (apply offsets_increase; lia). apply IH; lia.
  - rewrite Z.compare_refl. by rewrite (proj2 (value_is_spec k target) Hk).
  - rewrite (proj2 (Z.compare_gt_iff _ _)) by (apply offsets_increase; lia). apply IH; lia.
Qed.

Lemma index_at_complete k target :
  dict !! k = Some target -> index_at view (len_of (concat (take k dict))) target = Some (Z.of_nat (S k)).
Proof using Hshows Hnonempty.
  intros Hk. apply lookup_lt_Some in Hk as Hlt. unfold index_at. destruct Hshows as (Hsize & _). rewrite Hsize.
  rewrite (search_offset_complete k) by (done || lia). done.
Qed.

Context (memmem_find : list Z -> list Z -> option nat) (Hfind : memmem_spec memmem_find).

Lemma find_occurrence_sound fuel : forall target from index,
  find_occurrence view memmem_find fuel target from = Some index -> sv_value view index = Some target.
Proof using Hshows.
  clear Hnonempty Hfind. induction fuel as [|fuel IH]; intros target from index; cbn [find_occurrence]; [done|].
  destruct (_ <? _)%nat; [|done]. destruct (memmem_find _ _) as [r|]; [|done]. cbn [mbind option_bind].
  destruct (index_at _ _ _) as [i|] eqn:Hi; [|apply IH]. intros [= <-]. by eapply index_at_sound.
Qed.

Lemma occurs_from from target start :
  occurs_at (concat dict) target start -> (from <= start)%nat -> occurs_at (drop from (concat dict)) target (start - from).
Proof using.
  intros [suffix Hs] Hle. exists suffix. rewrite drop_drop. by replace (from + (start - from))%nat with start by lia.
Qed.

Lemma find_occurrence_complete k target fuel : forall from,
  dict !! k = Some target -> target <> [] -> (Z.of_nat from <= len_of (concat (take k dict))) ->
  (length (concat dict) - from <= fuel)%nat -> exists index, find_occurrence view memmem_find fuel target from = Some index.
Proof using Hshows Hnonempty Hfind.
  intros from Hk Hne. set (at_ := length (concat (take k dict))). pose proof (Forall_lookup_1 _ _ _ _ Hnonempty Hk).
  assert (Hocc : occurs_at (concat dict) target at_).
  { exists (concat (drop (S k) dict)). unfold at_. rewrite <-(take_drop_middle dict k target Hk) at 2.
    rewrite concat_app. simpl. by rewrite drop_app_length. }
  assert (Hlong : (at_ < length (concat dict))%nat).
  { destruct Hocc as [suffix Hs]. apply (f_equal length) in Hs. rewrite length_drop, length_app in Hs.
    destruct target; [done|]. simpl in Hs. lia. }
  revert from. induction fuel as [|fuel IH]; intros from Hfrom Hfuel; unfold len_of in Hfrom; fold at_ in Hfrom; [lia|].
  cbn [find_occurrence]. pose proof Hshows as (_ & Hdata & _). rewrite Hdata, (proj2 (Nat.ltb_lt _ _)) by lia.
  pose proof (occurs_from from target at_ Hocc ltac:(lia)) as Hhere.
  pose proof (Hfind (drop from (concat dict)) target Hne) as Hspec.
  destruct (memmem_find _ _) as [r|]; [|by destruct (Hspec _ Hhere)]. cbn [mbind option_bind].
  destruct Hspec as [Hr Hfirst].
  assert (Hrel : (r <= at_ - from)%nat).
  { destruct (Nat.le_gt_cases r (at_ - from)) as [|Hgt]; [done|]. by destruct (Hfirst _ Hgt). }
  destruct (index_at view (Z.of_nat (from + r)) target) as [index|] eqn:Hi; [by exists index|].
  destruct (decide (from + r = at_)%nat) as [He|Hlt].
  - exfalso. pose proof (index_at_complete k target Hk) as Hc. unfold len_of in Hc. fold at_ in Hc. rewrite <-He in Hc. congruence.
  - apply IH; unfold len_of; fold at_; lia.
Qed.
End search.

(** The dictionary index that an equality filter uses is found: in a dictionary without an empty
    value, [find_value] of a value that occurs returns its index, and it never returns the index
    of another value; so it returns none exactly when the value does not occur. *)
Theorem find_value_exact view dict memmem_find target :
  shows view dict -> Forall (fun v => v <> []) dict -> NoDup dict -> memmem_spec memmem_find ->
  forall k, find_value view memmem_find target = Some (Z.of_nat (S k)) <-> dict !! k = Some target.
Proof.
  intros Hshows Hne Hnd Hfind k.
  assert (Hnil : target = [] -> forall i, dict !! i <> Some target).
  { intros -> i Hi. by apply (Forall_lookup_1 _ _ _ _ Hne Hi). }
  destruct target as [|b target].
  { split; [|intros Hi; by destruct (Hnil eq_refl k)]. unfold find_value. destruct (list_find _ _) as [[i j]|] eqn:Hf; [|done].
    apply list_find_Some in Hf as (_ & Hv & _). unfold value_is in Hv. apply bool_decide_eq_true in Hv.
    apply (shows_value_inv _ _ Hshows) in Hv as (k' & _ & Hk'). by destruct (Hnil eq_refl k'). }
  unfold find_value. split.
  - intros Hf. apply (find_occurrence_sound _ _ Hshows) in Hf. apply (shows_value_inv _ _ Hshows) in Hf as (k' & Hk & Hv).
    by assert (k' = k) as -> by lia.
  - intros Hk. destruct (find_occurrence_complete view dict Hshows Hne memmem_find Hfind k _ (length (sv_dict_data view)) 0 Hk)
      as [index Hf]; [done|unfold len_of; lia|destruct Hshows as (_ & -> & _); lia|].
    rewrite Hf. f_equal. apply (find_occurrence_sound _ _ Hshows) in Hf.
    apply (shows_value_inv _ _ Hshows) in Hf as (k' & -> & Hv). do 2 f_equal. by eapply NoDup_lookup.
Qed.

(** ** The compact layout *)

(** The index width that [write_column_encoded] chooses; none is the plain layout. *)
Definition compact_width (indices : list Z) : option nat :=
  let max_index := foldl Z.max 0 indices in
  if max_index <=? 255 then Some 1%nat else if max_index <=? 65535 then Some 2%nat else None.

Definition compact_dict_bytes (width : nat) (indices dict_offsets dict_data : list Z) : list Z :=
  to_le 8 (len_of indices) ++ to_le 8 (len_of dict_offsets) ++ [Z.of_nat width] ++
  (indices ≫= to_le width) ++ u32s_bytes (offsets_to_u32 dict_offsets) ++ to_le 8 (len_of dict_data) ++ dict_data.

(** A run of bytes after others. *)
Lemma take_drop_mid {A} (a b c : list A) n m : n = length b -> m = length a -> take n (drop m (a ++ b ++ c)) = b.
Proof. intros -> ->. by rewrite drop_app_length, take_app_length. Qed.

Lemma element_at_encoded size v i x :
  v !! i = Some x -> unsigned size x -> element_at size (v ≫= to_le size) i = x.
Proof.
  intros Hi Hx. unfold element_at. rewrite <-(take_drop_middle v i x Hi), bind_app, bind_cons.
  rewrite take_drop_mid; [by apply u_from_to_le|by rewrite to_le_length|].
  pose proof (encoded_length (to_le size) size (take i v) (to_le_length size)) as Hl.
  unfold len_of in Hl. rewrite length_take in Hl. apply lookup_lt_Some in Hi. rewrite Nat.min_l in Hl by lia. lia.
Qed.

Section layout.
Context (width : nat) (indices dict_offsets dict_data : list Z) (dict : list (list Z)).
Context (Hdict : values_repr dict_offsets dict_data dict).
Context (Hindices : Forall (fun idx => 0 <= idx <= len_of dict) indices).
Context (Hstore : storable (CdStringDict indices dict_offsets dict_data)).
Context (rest : list Z).

(** The view of a stored column, in either layout. *)
Definition stored_view (header : Z) : StringDictView :=
  mkView (length indices) (length dict_offsets) width (indices ≫= to_le width) (u32s_bytes dict_offsets) dict_data
    (header + len_of indices * Z.of_nat width + len_of dict_offsets * 4 + 8 + len_of dict_data).

Lemma offsets_are_u32 : Forall (unsigned 4) dict_offsets.
Proof using Hdict Hstore.
  destruct Hdict as [-> Hd], Hstore as (_ & _ & Hlen). apply offsets_unsigned. by rewrite <-Hd.
Qed.

Lemma stored_shows header : shows (stored_view header) dict.
Proof using Hdict Hstore.
  pose proof offsets_are_u32 as Hu. destruct Hdict as [Ho Hd]. unfold shows, stored_view, sv_offset. simpl.
  assert (Hlen : length dict_offsets = S (length dict)) by (rewrite Ho; apply offsets_from_length).
  split; [done|]. split; [done|]. intros i Hi. rewrite (proj2 (Nat.ltb_lt _ _)) by lia. f_equal.
  apply element_at_encoded; [|].
  - rewrite Ho, offsets_from_lookup by done. by rewrite Z.add_0_l.
  - eapply (Forall_lookup_1 _ dict_offsets); [exact Hu|]. rewrite Ho, offsets_from_lookup by done. by rewrite Z.add_0_l.
Qed.

Lemma indices_fit : (width = 4%nat \/ exists w, compact_width indices = Some w /\ width = w) ->
  Forall (unsigned width) indices.
Proof using Hindices Hstore Hdict.
  intros Hw. destruct Hdict as [Ho _], Hstore as (_ & Hsize & _).
  assert (Hlen : len_of dict_offsets = len_of dict + 1) by (rewrite Ho; unfold len_of; rewrite offsets_from_length; lia).
  apply Forall_forall. intros idx Hi. pose proof (proj1 (Forall_forall _ _) Hindices _ Hi) as Hr. cbv beta in Hr.
  unfold unsigned, Bytes.width. destruct Hw as [->|(w & Hw & ->)]; [change (256 ^ Z.of_nat 4) with (2 ^ 32); lia|].
  unfold compact_width in Hw. assert (Hmax : idx <= foldl Z.max 0 indices).
  { apply foldl_max_ge. by right. }
  destruct (Z.leb_spec (foldl Z.max 0 indices) 255); [injection Hw as <-; simpl; lia|].
  destruct (Z.leb_spec (foldl Z.max 0 indices) 65535); [injection Hw as <-; simpl; lia|done].
Qed.

Lemma indices_length w : len_of (indices ≫= to_le w) = len_of indices * Z.of_nat w.
Proof using. apply encoded_length, to_le_length. Qed.

Lemma parse_stored (compact : bool) tag data :
  (width = 1 \/ width = 2 \/ width = 4)%nat ->
  data = to_le 8 (len_of indices) ++ to_le 8 (len_of dict_offsets) ++ tag ++ (indices ≫= to_le width) ++
    u32s_bytes dict_offsets ++ to_le 8 (len_of dict_data) ++ dict_data ++ rest ->
  tag = (if compact then [Z.of_nat width] else []) -> (compact = false -> width = 4%nat) ->
  StringDictView_parse data compact = Done (stored_view (if compact then 17 else 16)).
Proof using Hstore.
  intros Hw Hdata Htag Hplain. destruct Hstore as (Hrows & Hsize & Hlen).
  pose proof (len_of_nonneg indices). pose proof (len_of_nonneg dict_offsets). pose proof (len_of_nonneg dict_data).
  pose proof (len_of_nonneg rest).
  assert (Hil : len_of (indices ≫= to_le width) = len_of indices * Z.of_nat width) by apply indices_length.
  assert (Hiw : 0 <= len_of indices * Z.of_nat width <= len_of indices * 4) by nia.
  pose proof (u32s_length dict_offsets) as Hol. set (header := if compact then 17 else 16).
  assert (Hheader : header = 16 + len_of tag) by (rewrite Htag; by destruct compact).
  assert (Hhr : 16 <= header <= 17) by (unfold header; destruct compact; lia).
  assert (H8 : forall x, len_of (to_le 8 x) = 8) by (intros x; unfold len_of; by rewrite to_le_length).
  assert (Htotal : len_of data = header + len_of indices * Z.of_nat width + len_of dict_offsets * 4 + 8 + len_of dict_data + len_of rest)
    by (rewrite Hdata, !len_of_app, !H8; lia).
  assert (Hu : forall {A} (l : list A), len_of l < U64_MOD -> u_from_le (to_le 8 (len_of l)) = len_of l).
  { intros A l Hl. apply u_from_to_le. pose proof (len_of_nonneg l). unfold unsigned, Bytes.width.
    change (256 ^ Z.of_nat 8) with U64_MOD. lia. }
  assert (Hmid : forall pre mid post n m, data = pre ++ mid ++ post -> n = len_of mid -> m = len_of pre ->
    take (Z.to_nat n) (drop (Z.to_nat m) data) = mid).
  { intros pre mid post n m -> -> ->. unfold len_of. rewrite !Nat2Z.id. by apply take_drop_mid. }
  unfold StringDictView_parse. fold header. cbv zeta.
  assert (Hc : take 8 data = to_le 8 (len_of indices)) by (rewrite Hdata; by rewrite take_app_length' by by rewrite to_le_length).
  assert (Hs : take 8 (drop 8 data) = to_le 8 (len_of dict_offsets)).
  { apply (Hmid (to_le 8 (len_of indices)) _ _ 8 8 Hdata); by rewrite H8. }
  assert (Hwidth : (if compact then u_from_le (take 1 (drop 16 data)) else 4) = Z.of_nat width).
  { destruct compact; [|by rewrite (Hplain eq_refl)]. rewrite Htag in Hdata.
    assert (Ht : take 1 (drop 16 data) = [Z.of_nat width]).
    { apply (Hmid (to_le 8 (len_of indices) ++ to_le 8 (len_of dict_offsets)) _
        ((indices ≫= to_le width) ++ u32s_bytes dict_offsets ++ to_le 8 (len_of dict_data) ++ dict_data ++ rest) 1 16);
        [by rewrite Hdata, <-!app_assoc|done|by rewrite len_of_app, !H8]. }
    rewrite Ht. unfold u_from_le. simpl. lia. }
  rewrite Hc, Hs, Hwidth, !Hu by size_lia. unfold check_or_invalid.
  rewrite (proj2 (Z.ltb_ge (len_of data) header)) by lia.
  assert (Hok : negb ((Z.of_nat width =? 1) || (Z.of_nat width =? 2) || (Z.of_nat width =? 4)) = false)
    by (destruct Hw as [->|[->| ->]]; done).
  rewrite Hok. unfold checked at 1. rewrite (proj2 (Z.leb_le _ _)) by size_lia. cbn [of_result outcome_bind].
  unfold checked at 1. rewrite (proj2 (Z.leb_le _ _)) by size_lia. cbn [of_result outcome_bind].
  unfold checked at 1. rewrite (proj2 (Z.leb_le _ _)) by size_lia. cbn [of_result outcome_bind].
  unfold checked at 1. rewrite (proj2 (Z.leb_le _ _)) by size_lia. cbn [of_result outcome_bind].
  rewrite wrap64_small by size_lia.
  rewrite (proj2 (Z.ltb_ge (len_of data) _)), (proj2 (Z.ltb_ge (_ + 8) _)) by lia.
  assert (Hdl : take (Z.to_nat 8) (drop (Z.to_nat (header + len_of indices * Z.of_nat width + len_of dict_offsets * 4)) data) =
    to_le 8 (len_of dict_data)).
  { apply (Hmid (to_le 8 (len_of indices) ++ to_le 8 (len_of dict_offsets) ++ tag ++ (indices ≫= to_le width) ++
      u32s_bytes dict_offsets) _ (dict_data ++ rest)); [by rewrite Hdata, <-!app_assoc|by rewrite H8|].
    rewrite !len_of_app, !H8, Hil, Hol. lia. }
  rewrite Hdl, Hu by size_lia. unfold checked at 1. rewrite (proj2 (Z.leb_le _ _)) by size_lia. cbn [of_result outcome_bind].
  rewrite (proj2 (Z.ltb_ge (len_of data) _)) by lia. unfold stored_view.
  assert (Hi : take (Z.to_nat (len_of indices * Z.of_nat width)) (drop (Z.to_nat header) data) = (indices ≫= to_le width)).
  { apply (Hmid (to_le 8 (len_of indices) ++ to_le 8 (len_of dict_offsets) ++ tag) _
      (u32s_bytes dict_offsets ++ to_le 8 (len_of dict_data) ++ dict_data ++ rest)); [by rewrite Hdata, <-!app_assoc|done|].
    rewrite !len_of_app, !H8. lia. }
  assert (Ho : take (Z.to_nat (len_of dict_offsets * 4)) (drop (Z.to_nat (header + len_of indices * Z.of_nat width)) data) =
    u32s_bytes dict_offsets).
  { apply (Hmid (to_le 8 (len_of indices) ++ to_le 8 (len_of dict_offsets) ++ tag ++ (indices ≫= to_le width)) _
      (to_le 8 (len_of dict_data) ++ dict_data ++ rest)); [by rewrite Hdata, <-!app_assoc|done|].
    rewrite !len_of_app, !H8, Hil. lia. }
  assert (Hd : take (Z.to_nat (len_of dict_data)) (drop (Z.to_nat (header + len_of indices * Z.of_nat width + len_of dict_offsets * 4 + 8)) data) =
    dict_data).
  { apply (Hmid (to_le 8 (len_of indices) ++ to_le 8 (len_of dict_offsets) ++ tag ++ (indices ≫= to_le width) ++
      u32s_bytes dict_offsets ++ to_le 8 (len_of dict_data)) _ rest); [by rewrite Hdata, <-!app_assoc|done|].
    rewrite !len_of_app, !H8, Hil, Hol. lia. }
  rewrite Hi, Ho, Hd. unfold len_of at 1 2. rewrite !Nat2Z.id. done.
Qed.

Lemma stored_decode header :
  Forall (unsigned width) indices -> sv_decode (stored_view header) = CdStringDict indices dict_offsets dict_data.
Proof using Hdict Hstore.
  intros Hi. pose proof offsets_are_u32 as Hu. unfold sv_decode. simpl.
  assert (Hel : forall size v, Forall (unsigned size) v -> element_at size (v ≫= to_le size) <$> seq 0 (length v) = v).
  { intros size v Hv. apply list_eq. intros i. rewrite list_lookup_fmap. destruct (decide (i < length v)%nat) as [Hlt|Hge].
    - rewrite lookup_seq_lt by done. simpl. destruct (lookup_lt_is_Some_2 v i Hlt) as [x Hx]. rewrite Hx. f_equal.
      apply element_at_encoded; [done|]. exact (Forall_lookup_1 _ _ _ _ Hv Hx).
    - rewrite lookup_seq_ge, lookup_ge_None_2 by lia. done. }
  unfold u32s_bytes. rewrite (Hel 4%nat) by done. f_equal. destruct (Nat.eqb_spec width 4) as [He|_].
  - rewrite <-He. by apply Hel.
  - transitivity (element_at width (indices ≫= to_le width) <$> seq 0 (length indices)); [|by apply Hel].
    apply list_fmap_ext. intros k row Hk. unfold sv_index. simpl.
    apply lookup_seq in Hk as [-> Hlt]. by rewrite (proj2 (Nat.ltb_lt _ _)).
Qed.
End layout.

(** The rows that a filter visits are those of the index, in order. *)
Lemma index_eq_rows_spec memchr_iter width indices dict_offsets dict_data header target limit :
  memchr_spec memchr_iter -> (width = 1 \/ width = 2 \/ width = 4)%nat -> Forall (unsigned width) indices ->
  index_eq_rows (stored_view width indices dict_offsets dict_data header) memchr_iter target limit =
    List.filter (fun row => bool_decide (indices !! row = Some target)) (seq 0 (length indices `min` limit)).
Proof.
  intros Hiter Hw Hi. unfold index_eq_rows. simpl. set (count := (length indices `min` limit)%nat).
  assert (Hel : forall row, row ∈ seq 0 count ->
    (element_at width (indices ≫= to_le width) row =? target) = bool_decide (indices !! row = Some target)).
  { intros row Hrow%elem_of_seq. destruct (lookup_lt_is_Some_2 indices row ltac:(lia)) as [x Hx]. rewrite Hx.
    rewrite (element_at_encoded _ _ _ x) by (done || exact (Forall_lookup_1 _ _ _ _ Hi Hx)).
    destruct (Z.eqb_spec x target) as [->|Hne]; [by rewrite bool_decide_eq_true_2|rewrite bool_decide_eq_false_2; congruence]. }
  assert (Hchunks : List.filter (fun row => element_at width (indices ≫= to_le width) row =? target) (seq 0 count) =
    List.filter (fun row => bool_decide (indices !! row = Some target)) (seq 0 count)).
  { apply List.filter_ext_in. intros row Hrow. apply Hel. by apply list_elem_of_In. }
  assert (Hempty : forall bound, Forall (fun x => x < bound) indices -> bound <= target ->
    List.filter (fun row => bool_decide (indices !! row = Some target)) (seq 0 count) = []).
  { intros bound Hb Ht. rewrite (List.filter_ext_in _ (fun _ => false)); [apply List.filter_false|].
    intros row _. apply bool_decide_eq_false_2. intros Hx. pose proof (Forall_lookup_1 _ _ _ _ Hb Hx) as Hlt. cbv beta in Hlt. lia. }
  destruct Hw as [->|[->| ->]]; simpl; [| |by rewrite Hchunks].
  - destruct (Z.leb_spec target 255) as [_|Hgt]; simpl.
    + assert (Hbytes : (indices ≫= to_le 1) = indices).
      { clear -Hi. induction Hi as [|x l Hx _ IH]; [done|]. rewrite bind_cons, IH. unfold unsigned, width in Hx. simpl in Hx.
        unfold to_le, width. simpl. by rewrite Z.mod_mod, Z.mod_small by lia. }
      rewrite Hbytes, Hiter, length_take, Nat.min_l by lia. apply List.filter_ext_in. intros row Hrow%in_seq.
      by rewrite lookup_take_lt by lia.
    + symmetry. apply (Hempty 256); [|lia]. eapply Forall_impl; [exact Hi|]. unfold unsigned, width. simpl. lia.
  - destruct (Z.leb_spec target 65535) as [_|Hgt]; simpl; [by rewrite Hchunks|].
    symmetry. apply (Hempty 65536); [|lia]. eapply Forall_impl; [exact Hi|]. unfold unsigned, width. simpl. lia.
Qed.

(** A forward search, the first occurrence. *)
Fixpoint is_prefix (needle haystack : list Z) : bool :=
  match needle, haystack with
  | [], _ => true
  | x :: needle, y :: haystack => (x =? y) && is_prefix needle haystack
  | _, [] => false
  end.

Fixpoint naive_find (haystack needle : list Z) : option nat :=
  if is_prefix needle haystack then Some 0%nat
  else match haystack with [] => None | _ :: haystack => S <$> naive_find haystack needle end.

Lemma is_prefix_spec needle haystack : is_prefix needle haystack = true <-> exists suffix, haystack = needle ++ suffix.
Proof.
  revert haystack. induction needle as [|x needle IH]; intros haystack; simpl; [naive_solver|].
  destruct haystack as [|y haystack]; [naive_solver|]. rewrite andb_true_iff, Z.eqb_eq, IH. naive_solver.
Qed.

Lemma naive_find_spec : memmem_spec naive_find.
Proof.
  intros haystack needle _. unfold occurs_at. induction haystack as [|x haystack IH]; cbn [naive_find].
  - destruct (is_prefix needle []) eqn:Hp.
    + apply is_prefix_spec in Hp. split; [done|]. intros j Hj. lia.
    + intros j [suffix Hs]. rewrite drop_nil in Hs. assert (is_prefix needle [] = true) by (apply is_prefix_spec; eauto). congruence.
  - destruct (is_prefix needle (x :: haystack)) eqn:Hp.
    + apply is_prefix_spec in Hp. split; [done|]. intros j Hj. lia.
    + assert (Hn : ~ exists suffix, x :: haystack = needle ++ suffix).
      { intros Hs. apply is_prefix_spec in Hs. congruence. }
      destruct (naive_find haystack needle) as [i|]; simpl.
      * destruct IH as [Hi Hf]. split; [done|]. intros [|j] Hj; [done|]. apply Hf. lia.
      * intros [|j]; [done|]. apply IH.
Qed.

(** ** An empty value hides its successor *)

(** The texts "a", "" and "b". *)
Definition texts_with_empty : list (list Z) := [[97]; []; [98]].

(** An empty string in a dictionary hides the value that follows it: for the column with the
    rows "a", "" and "b", dictionary-encoded and stored in the compact layout, the third row has
    index 3 and index 3 is the value "b", but [find_value] of "b" finds nothing, whatever
    correct substring search is used; an equality filter on "b" then selects no row. *)
Theorem find_value_misses_after_empty memmem_find :
  memmem_spec memmem_find ->
  exists indices dict_offsets dict_data view,
    to_dict_encoded (CdString (offsets_from 0 texts_with_empty) (concat texts_with_empty)) =
      Some (Some (CdStringDict indices dict_offsets dict_data)) /\
    StringDictView_parse (compact_dict_bytes 1 indices dict_offsets dict_data) true = Done view /\
    sv_index view 2 = Some 3 /\ sv_value view 3 = Some [98] /\ find_value view memmem_find [98] = None.
Proof.
  intros Hfind. do 3 eexists. exists (stored_view 1 [1; 2; 3] [0; 1; 1; 2] [97; 98] 17).
  split; [vm_compute; reflexivity|]. split; [vm_compute; reflexivity|]. split; [vm_compute; reflexivity|].
  split; [vm_compute; reflexivity|]. unfold find_value. cbn [find_occurrence stored_view sv_dict_data length].
  change (0 <? 2)%nat with true. cbn [drop].
  pose proof (Hfind [97; 98] [98] ltac:(done)) as Hs. destruct (memmem_find [97; 98] [98]) as [i|] eqn:Hf; [|done].
  destruct Hs as [[suffix Hocc] Hfirst].
  assert (i = 1)%nat as ->.
  { destruct i as [|[|i]]; [by injection Hocc|done|]. apply (f_equal length) in Hocc.
    rewrite length_drop, length_app in Hocc. simpl in Hocc. lia. }
  cbn [mbind option_bind]. change (index_at _ (Z.of_nat (0 + 1)) [98]) with (@None Z). reflexivity.
Qed.

Lemma find_value_misses_after_empty_witness :
  exists indices dict_offsets dict_data view,
    to_dict_encoded (CdString (offsets_from 0 texts_with_empty) (concat texts_with_empty)) =
      Some (Some (CdStringDict indices dict_offsets dict_data)) /\
    StringDictView_parse (compact_dict_bytes 1 indices dict_offsets dict_data) true = Done view /\
    sv_index view 2 = Some 3 /\ sv_value view 3 = Some [98] /\ find_value view naive_find [98] = None.
Proof. exact (find_value_misses_after_empty naive_find naive_find_spec). Defined.

(** The dictionary "a", "bc", "b" of a column: its third value is found after a false occurrence
    inside the second. *)
Lemma find_value_exact_witness :
  find_value (stored_view 1 [1; 2; 3] [0; 1; 3; 4] [97; 98; 99; 98] 17) naive_find [98] = Some 3 /\
  find_value (stored_view 1 [1; 2; 3] [0; 1; 3; 4] [97; 98; 99; 98] 17) naive_find [98; 99] = Some 2.
Proof.
  assert (Hs : shows (stored_view 1 [1; 2; 3] [0; 1; 3; 4] [97; 98; 99; 98] 17) [[97]; [98; 99]; [98]]).
  { apply stored_shows; [done|]. by vm_compute. }
  assert (Hnd : NoDup [[97]; [98; 99]; [98]]) by (apply (bool_decide_unpack _); vm_compute; exact I).
  assert (Hne : Forall (fun v : list Z => v <> []) [[97]; [98; 99]; [98]]) by (repeat constructor; done).
  split.
  - by apply (find_value_exact _ _ naive_find [98] Hs Hne Hnd naive_find_spec 2).
  - by apply (find_value_exact _ _ naive_find [98; 99] Hs Hne Hnd naive_find_spec 1).
Defined.
