(* ===== verification/ColumnEncoding.v ===== *)
(** * Encoded columns

    Models the column encodings of [storage/on_demand/mod.rs]: the id section of a row group, the
    float dictionary, run-length encoding of integers and booleans, the 4-byte floats, and the
    functions that choose an encoding, read, partially read and skip an encoded column.  Lengths
    are [usize]; sums and products of what a file says wrap around, as in a release build.  Runs
    are counted without the wrap-around of their [u32] counter, which needs 2^32 equal rows. *)
From S2P Require Import Prelude Bytes Bits Float Values Columns ColumnRows ColumnCodec BitPack StringDict.
Local Open Scope Z_scope.
Local Open Scope apex_scope.

(** ** Encodings *)

Definition COL_ENCODING_PLAIN : Z := 0.
Definition COL_ENCODING_RLE : Z := 1.
Definition COL_ENCODING_BITPACK : Z := 2.
Definition COL_ENCODING_RLE_BOOL : Z := 3.
Definition COL_ENCODING_COMPACT_DICTIONARY : Z := 4.
Definition COL_ENCODING_FLOAT_DICTIONARY : Z := 5.
Definition COL_ENCODING_PLAIN_F32 : Z := 6.

(** ** The id section of a row group *)

Definition RG_IDS_PLAIN : Z := 0.
Definition RG_IDS_IMPLICIT_CONTIGUOUS : Z := 1.

Definition rg_id_section_len (row_count : nat) (id_encoding : Z) : Z :=
  if id_encoding =? RG_IDS_IMPLICIT_CONTIGUOUS then 0 else wrap64 (Z.of_nat row_count * 8).

Definition saturating_add (a b : Z) : Z := Z.min (a + b) U64_MAX.

Definition ids_are_contiguous (ids : list Z) : bool :=
  match ids with
  | [] => true
  | first :: _ => forallb (fun e => e.2 =? saturating_add first (Z.of_nat e.1)) (imap pair ids)
  end.

Definition rg_id_encoding_for (ids : list Z) (allow_implicit : bool) : Z :=
  if allow_implicit && ids_are_contiguous ids then RG_IDS_IMPLICIT_CONTIGUOUS else RG_IDS_PLAIN.

(** The environment variable [APEX_IMPLICIT_IDS], [None] when it is not set. *)
Definition implicit_ids_allowed (variable : option string) : bool :=
  match variable with Some value => negb (String.eqb value "0") | None => true end.

Definition rg_id_at (body : list Z) (row_count : nat) (min_id id_encoding : Z) (row : nat) : option Z :=
  if (row_count <=? row)%nat then None
  else if id_encoding =? RG_IDS_IMPLICIT_CONTIGUOUS then
    if min_id + Z.of_nat row <=? U64_MAX then Some (min_id + Z.of_nat row) else None
  else if U64_MAX <? Z.of_nat row * 8 then None
  else
    bytes ← slice body (Z.of_nat row * 8) (Z.of_nat row * 8 + 8); Some (u_from_le bytes).

(** ** Float dictionaries *)

Record FloatDictView := mkFloatView {
  fv_row_count : nat;
  fv_dict_size : nat;
  fv_index_width : nat;
  fv_indices : list Z;
  fv_values : list Z;
  fv_consumed : Z
}.

Definition FloatDictView_parse (data : list Z) : Outcome FloatDictView :=
  check_or_invalid (len_of data <? 13) (
  let row_count := u_from_le (take 8 data) in
  let dict_size := u_from_le (take 4 (drop 8 data)) in
  let index_width := u_from_le (take 1 (drop 12 data)) in
  check_or_invalid ((dict_size =? 0) || negb ((index_width =? 1) || (index_width =? 2))) (
  outcome_bind (of_result (checked (row_count * index_width))) (fun indices_len =>
  outcome_bind (of_result (checked (dict_size * 8))) (fun values_len =>
  outcome_bind (of_result (checked (13 + indices_len))) (fun values_start =>
  outcome_bind (of_result (checked (values_start + values_len))) (fun consumed =>
  check_or_invalid (len_of data <? consumed) (
  Done (mkFloatView (Z.to_nat row_count) (Z.to_nat dict_size) (Z.to_nat index_width)
    (take (Z.to_nat indices_len) (drop 13 data))
    (take (Z.to_nat values_len) (drop (Z.to_nat values_start) data)) consumed)))))))).

Definition fv_index (view : FloatDictView) (row : nat) : option Z :=
  if (row <? fv_row_count view)%nat then Some (element_at (fv_index_width view) (fv_indices view) row) else None.

Definition fv_dictionary_value (view : FloatDictView) (index : Z) : option Z :=
  if index <? Z.of_nat (fv_dict_size view) then Some (element_at 8 (fv_values view) (Z.to_nat index)) else None.

Definition fv_value (view : FloatDictView) (row : nat) : option Z :=
  fv_index view row ≫= fv_dictionary_value view.

Definition fv_decode (view : FloatDictView) : ColumnData :=
  CdFloat64 ((fun row => default 0 (fv_value view row)) <$> seq 0 (fv_row_count view)).

(** The sample: [false] once more than half of it is distinct. *)
Fixpoint sample_repeats (limit : nat) (seen : gset Z) (values : list Z) : bool :=
  match values with
  | [] => true
  | bits :: values =>
      let seen := {[bits]} ∪ seen in
      if (limit <? size seen)%nat then false else sample_repeats limit seen values
  end.

(** The map from bits to index, the distinct values and the indices of the rows. *)
Definition float_dict_push (acc : option (gmap Z Z * list Z * list Z)) (bits : Z)
    : option (gmap Z Z * list Z * list Z) :=
  '(map, values, indices) ← acc;
  match map !! bits with
  | Some index => Some (map, values, indices ++ [index])
  | None =>
      if 65536 <=? len_of values then None
      else Some (<[bits := len_of values]> map, values ++ [bits], indices ++ [len_of values])
  end.

Definition float_dict_bytes (count : Z) (width : nat) (indices values : list Z) : list Z :=
  to_le 8 count ++ to_le 4 (len_of values) ++ to_le 1 (Z.of_nat width) ++ (indices ≫= to_le width) ++ i64s_bytes values.

Definition dictionary_encode_f64 (data : list Z) : option (list Z) :=
  if len_of data <? 32768 then None
  else
    let sample_len := Z.to_nat (Z.min (len_of data) 4096) in
    if negb (sample_repeats (sample_len / 2) ∅ (take sample_len data)) then None
    else
      '(_, values, indices) ← foldl float_dict_push (Some (∅, [], [])) data;
      let index_width := if len_of values <=? 256 then 1%nat else 2%nat in
      let encoded_size := 13 + len_of indices * Z.of_nat index_width + len_of values * 8 in
      if (8 + len_of data * 8) * 7 / 10 <=? encoded_size then None
      else Some (float_dict_bytes (len_of data) index_width indices values).

(** ** Run lengths *)

(** How often a value repeats at the front. *)
Fixpoint run_length (v : Z) (l : list Z) : nat :=
  match l with x :: l => if x =? v then S (run_length v l) else 0%nat | [] => 0%nat end.

(** The runs of a list, [fuel] its length. *)
Fixpoint rle_runs (fuel : nat) (l : list Z) : list (Z * Z) :=
  match fuel, l with
  | S fuel, v :: l => let n := run_length v l in (v, Z.of_nat (S n)) :: rle_runs fuel (drop n l)
  | _, _ => []
  end.

(** The header and the runs, with values of [size] bytes; none without 30% of savings. *)
Definition rle_bytes (size : nat) (count plain_size : Z) (runs : list (Z * Z)) : option (list Z) :=
  let rle_size := 16 + len_of runs * (Z.of_nat size + 4) in
  if plain_size * 7 / 10 <=? rle_size then None
  else Some (to_le 8 count ++ to_le 8 (len_of runs) ++ (runs ≫= fun run => to_le size run.1 ++ to_le 4 run.2)).

Definition rle_encode_i64 (data : list Z) : option (list Z) :=
  if (length data <? 16)%nat then None
  else rle_bytes 8 (len_of data) (8 + len_of data * 8) (rle_runs (length data) data).

(** Count and runs, after the two length checks. *)
Definition rle_header (run_size : Z) (bytes : list Z) : Outcome (Z * Z) :=
  check_or_invalid (len_of bytes <? 16) (
  let count := u_from_le (take 8 bytes) in
  let num_runs := u_from_le (take 8 (drop 8 bytes)) in
  check_or_invalid (len_of bytes <? wrap64 (16 + wrap64 (num_runs * run_size))) (Done (count, num_runs))).

Definition read_run (value : Reader Z) : Reader (Z * Z) :=
  let! v := value in let! n := read_u Panic 4 in ret (v, n).

Definition rle_decode_i64 (bytes : list Z) : Outcome (list Z * Z) :=
  outcome_bind (rle_header 12 bytes) (fun header =>
  if ISIZE_MOD <=? header.1 * 8 then Panic
  else
    outcome_bind (read_n (Z.to_nat header.2) (read_run (read_i Panic 8)) (drop 16 bytes)) (fun read =>
    Done (read.1 ≫= (fun run => replicate (Z.to_nat run.2) run.1), 16 + header.2 * 12))).

(** [None] when a bit lies past the end of the data. *)
Definition rle_encode_bool (data : list Z) (len : nat) : option (option (list Z)) :=
  if (len <? 16)%nat then Some None
  else
    bits ← mapM (packed_bit data) (seq 0 len);
    Some (rle_bytes 1 (Z.of_nat len) (8 + Z.of_nat (byte_len len)) (rle_runs len bits)).

(** Setting the bits of a run of ones. *)
Definition set_run (acc : option (list Z * nat)) (run : Z * Z) : option (list Z * nat) :=
  '(data, bit_idx) ← acc;
  let n := Z.to_nat run.2 in
  data ← (if run.1 =? 1 then or_bits data bit_idx (replicate n true) else Some data);
  Some (data, (bit_idx + n)%nat).

Definition rle_decode_bool (bytes : list Z) : Outcome (ColumnData * Z) :=
  outcome_bind (rle_header 5 bytes) (fun header =>
  outcome_bind (read_n (Z.to_nat header.2) (read_run (read_u Panic 1)) (drop 16 bytes)) (fun read =>
  let packed_byte_len := Z.to_nat (wrap64 (header.1 + 7) / 8) in
  outcome_bind (of_option (foldl set_run (Some (replicate packed_byte_len 0, 0%nat)) read.1)) (fun data =>
  Done (CdBool data.1 (Z.to_nat header.1), 16 + header.2 * 5)))).

(** ** Floats of four bytes *)

Definition f32_payload_len (bytes : list Z) : Outcome Z :=
  check_or_invalid (len_of bytes <? 8) (
  outcome_bind (of_result (checked (u_from_le (take 8 bytes) * 4))) (fun n =>
  let byte_len := wrap64 (8 + n) in
  check_or_invalid (len_of bytes <? byte_len) (Done byte_len))).

Definition decode_plain_f32 (bytes : list Z) : Outcome ColumnData :=
  outcome_bind (f32_payload_len bytes) (fun byte_len =>
  let count := wrap64 (byte_len - 8) / 4 in
  if ISIZE_MOD <=? count * 8 then Panic
  else Done (CdFloat64 (f64_of_f32 <$> elements u_from_le 4 count (drop 8 bytes)))).

Definition f32_is_finite (bits : Z) : bool := bits mod F32_SIGN <? F32_INF.

(** [value as f32], a NaN quieted. *)
Definition narrow_f64 (bits : Z) : Z :=
  if f64_is_nan bits
  then (if f64_negative bits then F32_SIGN else 0) + F32_INF + Z.lor (f64_magnitude bits mod 2 ^ 52 / 2 ^ 29) (2 ^ 22)
  else f32_of_f64 bits.

(** None when a finite value becomes infinite. *)
Definition narrow_value (bits : Z) : option Z :=
  let narrowed := narrow_f64 bits in
  if negb (f32_is_finite narrowed) && f64_is_finite bits then None else Some narrowed.

Definition narrow_payload (data : list Z) : option (list Z) :=
  values ← mapM narrow_value data; Some (to_le 8 (len_of data) ++ u32s_bytes values).

(** ** Writing *)

(** The options, whether [Float32] columns are narrowed. *)
Record ColumnEncodingOptions := mkOptions { narrow_float32 : bool }.

Definition offsets_exceed_u32 (c : ColumnData) : bool :=
  match c with
  | CdString offsets _ | CdBinary offsets _ | CdStringDict _ offsets _ => existsb (fun o => 4294967295 <? o) offsets
  | _ => false
  end.

Definition is_float32 (t : ColumnType) : bool := match t with TFloat32 => true | _ => false end.

Definition write_plain (c : ColumnData) : Outcome (list Z) :=
  outcome_bind (write_to c) (fun bytes => Done (COL_ENCODING_PLAIN :: bytes)).

(** The bytes that [write_column_encoded] writes, the writer never failing. *)
Definition write_column_encoded (c : ColumnData) (t : ColumnType) (options : ColumnEncodingOptions)
    : Outcome (list Z) :=
  check_or_invalid (offsets_exceed_u32 c)
  match c with
  | CdFloat64 data =>
      match dictionary_encode_f64 data with
      | Some encoded => Done (COL_ENCODING_FLOAT_DICTIONARY :: encoded)
      | None =>
          match (if narrow_float32 options && is_float32 t then narrow_payload data else None) with
          | Some payload => Done (COL_ENCODING_PLAIN_F32 :: payload)
          | None => write_plain c
          end
      end
  | CdInt64 data =>
      match rle_encode_i64 data with
      | Some rle =>
          outcome_bind (of_option (bitpack_encode_i64 data)) (fun packed =>
          match packed with
          | Some packed =>
              Done (if len_of packed <? len_of rle then COL_ENCODING_BITPACK :: packed else COL_ENCODING_RLE :: rle)
          | None => Done (COL_ENCODING_RLE :: rle)
          end)
      | None =>
          outcome_bind (of_option (bitpack_encode_i64 data)) (fun packed =>
          match packed with
          | Some packed => Done (COL_ENCODING_BITPACK :: packed)
          | None => write_plain c
          end)
      end
  | CdBool data len =>
      outcome_bind (of_option (rle_encode_bool data len)) (fun rle =>
      match rle with
      | Some rle => Done (COL_ENCODING_RLE_BOOL :: rle)
      | None => write_plain c
      end)
  | CdStringDict indices dict_offsets dict_data =>
      match compact_width indices with
      | Some width => Done (COL_ENCODING_COMPACT_DICTIONARY :: compact_dict_bytes width indices dict_offsets dict_data)
      | None => write_plain c
      end
  | _ => write_plain c
  end.

(** ** Reading *)

(** The integer types that the readers decode from runs and bits. *)
Definition packs_integers (t : ColumnType) : bool :=
  match t with
  | TInt64 | TInt8 | TInt16 | TInt32 | TUInt8 | TUInt16 | TUInt32 | TUInt64 | TTimestamp | TDate => true
  | _ => false
  end.

Definition is_string_dict (t : ColumnType) : bool := match t with TStringDict => true | _ => false end.
Definition is_float (t : ColumnType) : bool := match t with TFloat64 | TFloat32 => true | _ => false end.

(** [from_bytes_typed] and the bytes it consumes. *)
Definition read_plain (bytes : list Z) (t : ColumnType) : Outcome (ColumnData * Z) :=
  outcome_bind (from_bytes_typed t bytes) (fun read => Done (read.1, len_of bytes - len_of read.2)).

(** The payload after the encoding byte: the column and the bytes consumed. *)
Definition read_payload (encoding : Z) (data_bytes : list Z) (t : ColumnType) : Outcome (ColumnData * Z) :=
  if encoding =? COL_ENCODING_PLAIN_F32 then
    outcome_bind (decode_plain_f32 data_bytes) (fun c =>
    outcome_bind (f32_payload_len data_bytes) (fun n => Done (c, n)))
  else if (encoding =? COL_ENCODING_RLE) && packs_integers t then
    outcome_bind (rle_decode_i64 data_bytes) (fun read => Done (CdInt64 read.1, read.2))
  else if (encoding =? COL_ENCODING_BITPACK) && packs_integers t then
    outcome_bind (bitpack_decode_i64 data_bytes) (fun read => Done (CdInt64 read.1, read.2))
  else if encoding =? COL_ENCODING_RLE_BOOL then rle_decode_bool data_bytes
  else if (encoding =? COL_ENCODING_COMPACT_DICTIONARY) && is_string_dict t then
    outcome_bind (StringDictView_parse data_bytes true) (fun view => Done (sv_decode view, sv_consumed view))
  else if (encoding =? COL_ENCODING_FLOAT_DICTIONARY) && is_float t then
    outcome_bind (FloatDictView_parse data_bytes) (fun view => Done (fv_decode view, fv_consumed view))
  else read_plain data_bytes t.

Definition read_column_encoded (bytes : list Z) (t : ColumnType) : Outcome (ColumnData * Z) :=
  match bytes with
  | [] => Invalid
  | encoding :: data_bytes =>
      outcome_bind (read_payload encoding data_bytes t) (fun read => Done (read.1, wrap64 (1 + read.2)))
  end.

Definition skip_column_encoded (bytes : list Z) (t : ColumnType) : Outcome Z :=
  match bytes with
  | [] => Invalid
  | encoding :: data_bytes =>
      let num_runs := u_from_le (take 8 (drop 8 data_bytes)) in
      if encoding =? COL_ENCODING_RLE then
        check_or_invalid (len_of data_bytes <? 16) (Done (wrap64 (1 + 16 + num_runs * 12)))
      else if encoding =? COL_ENCODING_BITPACK then
        check_or_invalid (len_of data_bytes <? 17)
          (Done (1 + 17 + packed_bytes_of (u_from_le (take 8 data_bytes)) (u_from_le (take 1 (drop 8 data_bytes)))))
      else if encoding =? COL_ENCODING_RLE_BOOL then
        check_or_invalid (len_of data_bytes <? 16) (Done (wrap64 (1 + 16 + num_runs * 5)))
      else
        outcome_bind
          (if encoding =? COL_ENCODING_PLAIN_F32 then f32_payload_len data_bytes
           else if (encoding =? COL_ENCODING_COMPACT_DICTIONARY) && is_string_dict t then
             outcome_bind (StringDictView_parse data_bytes true) (fun view => Done (sv_consumed view))
           else if (encoding =? COL_ENCODING_FLOAT_DICTIONARY) && is_float t then
             outcome_bind (FloatDictView_parse data_bytes) (fun view => Done (fv_consumed view))
           else skip_bytes_typed data_bytes t)
          (fun n => Done (wrap64 (1 + n)))
  end.

(** ** Reading the first rows *)

(** A copy past the end of the bytes, undefined in the code, is a panic. *)
Definition copied (bytes : list Z) (pos count size : Z) : Outcome (list Z) :=
  if (ISIZE_MOD <=? count * size) || (len_of bytes <? pos + count * size) then Panic
  else Done (take (Z.to_nat (count * size)) (drop (Z.to_nat pos) bytes)).

(** The first [limit] rows and, with the encoding byte, the bytes of the whole column. *)
Definition bitpack_partial (data_bytes : list Z) (limit : nat) : Outcome (ColumnData * Z) :=
  let '(count, width, min_val) := header_fields data_bytes in
  let packed_bytes := packed_bytes_of count width in
  let actual := (Z.to_nat (Z.min count (Z.of_nat limit)))%nat in
  if ISIZE_MOD <=? Z.of_nat actual * 8 then Panic
  else
    outcome_bind
      (if width =? 0 then Done (replicate actual min_val)
       else if 17 + packed_bytes <=? len_of data_bytes then
         let packed := take (Z.to_nat packed_bytes) (drop 17 data_bytes) in
         of_option (mapM (fun i => delta ← slow_value packed (i * Z.to_nat width) (Z.to_nat width);
                                   Some (wrap_i64 (min_val + delta))) (seq 0 actual))
       else Done [])
      (fun values => Done (CdInt64 values, 1 + 17 + packed_bytes)).

(** [if col.len() > limit { col.slice_range(0, limit) } else { col }] *)
Definition limit_rows (c : ColumnData) (limit : nat) : Outcome ColumnData :=
  outcome_bind (of_option (ColumnData_len c)) (fun len =>
  if (limit <? len)%nat then of_option (slice_range c 0 limit) else Done c).

Definition text_partial (bytes : list Z) (limit : Z) : Outcome ColumnData :=
  outcome_bind (u64_at bytes 0) (fun count =>
  let actual := Z.min count limit in
  let all_offsets_len := wrap64 (wrap64 (count + 1) * 4) in
  check_or_invalid (len_of bytes <? wrap64 (8 + all_offsets_len)) (
  let n := wrap64 (actual + 1) in
  outcome_bind (copied bytes 8 n 4) (fun disk_offsets =>
  let offsets := u32_elements n disk_offsets in
  let data_len_off := wrap64 (8 + all_offsets_len) in
  check_or_invalid (len_of bytes <? wrap64 (data_len_off + 8)) (
  let data_start := wrap64 (data_len_off + 8) in
  outcome_bind (of_option (head offsets)) (fun base =>
  outcome_bind (of_option (offsets !! Z.to_nat actual)) (fun stop =>
  check_or_invalid (len_of bytes <? wrap64 (data_start + stop)) (
  outcome_bind (of_option (slice bytes (data_start + base) (data_start + stop))) (fun text =>
  Done (CdString (if 0 <? base then (fun o => wrap64 (o - base)) <$> offsets else offsets) text))))))))).

Definition dict_partial (bytes : list Z) (limit : Z) : Outcome ColumnData :=
  outcome_bind (u64_at bytes 0) (fun row_count =>
  outcome_bind (u64_at bytes 8) (fun dict_size =>
  let actual := Z.min row_count limit in
  let all_indices_len := wrap64 (row_count * 4) in
  check_or_invalid (len_of bytes <? wrap64 (16 + all_indices_len)) (
  outcome_bind (copied bytes 16 actual 4) (fun indices =>
  let dict_off_start := wrap64 (16 + all_indices_len) in
  let dict_offsets_len := wrap64 (dict_size * 4) in
  check_or_invalid (len_of bytes <? wrap64 (dict_off_start + dict_offsets_len)) (
  outcome_bind (copied bytes dict_off_start dict_size 4) (fun dict_offsets =>
  let dict_data_len_off := wrap64 (dict_off_start + dict_offsets_len) in
  outcome_bind (u64_at bytes dict_data_len_off) (fun dict_data_len =>
  let dict_data_start := dict_data_len_off + 8 in
  check_or_invalid (len_of bytes <? wrap64 (dict_data_start + dict_data_len)) (
  outcome_bind (of_option (slice bytes dict_data_start (wrap64 (dict_data_start + dict_data_len)))) (fun dict_data =>
  Done (CdStringDict (u32_elements actual indices) (u32_elements dict_size dict_offsets) dict_data)))))))))).

(** The first rows of a plain column and the bytes of the whole, [total] for the kinds that are not
    read whole. *)
Definition plain_partial (bytes : list Z) (t : ColumnType) (limit : nat) (total : Z) : Outcome (ColumnData * Z) :=
  let fixed (dec : Z -> list Z -> ColumnData) : Reader ColumnData :=
    let! count := take_u64 in
    let actual := Z.min count (Z.of_nat limit) in
    let! v := take_vec 8 actual 8 in ret (dec actual v) in
  let run (p : Reader ColumnData) := outcome_bind (p bytes) (fun read => Done (read.1, total)) in
  let whole (c : Outcome ColumnData) := outcome_bind c (fun c => Done (c, total)) in
  match t with
  | TFloat64 | TFloat32 => run (fixed (fun n v => CdFloat64 (u64_elements n v)))
  | TBool =>
      run (let! len := take_u64 in
           let actual := Z.min len (Z.of_nat limit) in
           let! data := take_checked 8 (wrap64 (actual + 7) / 8) in ret (CdBool data (Z.to_nat actual)))
  | TString | TJson => whole (text_partial bytes (Z.of_nat limit))
  | TStringDict => whole (dict_partial bytes (Z.of_nat limit))
  | _ =>
      if packs_integers t then run (fixed (fun n v => CdInt64 (i64_elements n v)))
      else
        outcome_bind (read_plain bytes t) (fun read =>
        outcome_bind (limit_rows read.1 limit) (fun c => Done (c, wrap64 (1 + read.2))))
  end.

Definition read_column_encoded_partial (bytes : list Z) (t : ColumnType) (limit : nat) : Outcome (ColumnData * Z) :=
  match bytes with
  | [] => Invalid
  | encoding :: data_bytes =>
      if (encoding =? COL_ENCODING_BITPACK) && packs_integers t && (17 <=? len_of data_bytes)
      then bitpack_partial data_bytes limit
      else if negb (encoding =? COL_ENCODING_PLAIN) then
        outcome_bind (read_column_encoded bytes t) (fun read =>
        outcome_bind (limit_rows read.1 limit) (fun c => Done (c, read.2)))
      else
        outcome_bind (skip_bytes_typed data_bytes t) (fun consumed =>
        plain_partial data_bytes t limit (wrap64 (1 + consumed)))
  end.

(** ** Runs *)

Definition expand (run : Z * Z) : list Z := replicate (Z.to_nat run.2) run.1.

Lemma run_length_spec v l : take (run_length v l) l = replicate (run_length v l) v /\ (run_length v l <= length l)%nat.
Proof.
  induction l as [|x l [IH Hle]]; [done|]. simpl. destruct (Z.eqb_spec x v) as [->|_]; [|split; [done|lia]].
  simpl. rewrite IH. split; [done|lia].
Qed.

(** The runs spell the list; each has a value of it and is neither empty nor longer. *)
Lemma rle_runs_expand fuel l : (length l <= fuel)%nat -> rle_runs fuel l ≫= expand = l.
Proof.
  revert l. induction fuel as [|fuel IH]; intros [|v l] Hf; simpl in Hf; try done; [lia|]. cbn [rle_runs].
  destruct (run_length_spec v l) as [Hrun Hle]. rewrite bind_cons, IH by (rewrite length_drop; lia). unfold expand at 1.
  cbn [fst snd]. rewrite Nat2Z.id. cbn [replicate app]. f_equal. by rewrite <-Hrun, take_drop.
Qed.

Lemma rle_runs_bounded fuel l :
  Forall (fun run => run.1 ∈ l /\ 0 < run.2 <= len_of l) (rle_runs fuel l).
Proof.
  revert l. induction fuel as [|fuel IH]; intros [|v l]; cbn [rle_runs]; try by constructor.
  destruct (run_length_spec v l) as [_ Hle]. constructor; cbn [fst snd].
  - split; [left|]. unfold len_of. simpl. lia.
  - eapply Forall_impl; [apply IH|]. intros [x n] [Hx Hn]. cbn [fst snd] in *. split.
    + right. eapply elem_of_subseteq; [|exact Hx]. apply subseteq_drop.
    + revert Hn. unfold len_of. rewrite length_drop. simpl. lia.
Qed.

Lemma rle_runs_length fuel l : (length (rle_runs fuel l) <= length l)%nat.
Proof.
  revert l. induction fuel as [|fuel IH]; intros [|v l]; simpl; try lia. specialize (IH (drop (run_length v l) l)).
  rewrite length_drop in IH. lia.
Qed.

Lemma reads_run value size run :
  reads value (to_le size run.1) run.1 -> 0 <= run.2 < 2 ^ 32 ->
  reads (read_run value) (to_le size run.1 ++ to_le 4 run.2) run.
Proof.
  intros Hv Hn. unfold read_run. eapply reads_bind; [exact Hv|]. destruct run as [v n].
  eapply reads_last_eq; [apply (reads_u Panic 4)|done]. exact Hn.
Qed.

(** The header of a run-length block is read back, and then its runs. *)
Lemma rle_block size value count plain_size l bytes rest :
  rle_bytes size count plain_size (rle_runs (length l) l) = Some bytes -> (1 <= size <= 8)%nat ->
  0 <= count < MAX_ROWS -> len_of l < 2 ^ 32 -> Forall (fun x => reads value (to_le size x) x) l ->
  let runs := rle_runs (length l) l in
  len_of bytes = 16 + len_of runs * (Z.of_nat size + 4) /\
  rle_header (Z.of_nat size + 4) (bytes ++ rest) = Done (count, len_of runs) /\
  u_from_le (take 8 (drop 8 (bytes ++ rest))) = len_of runs /\
  read_n (Z.to_nat (len_of runs)) (read_run value) (drop 16 (bytes ++ rest)) = Done (runs, rest).
Proof.
  unfold rle_bytes. cbv zeta. destruct (_ <=? _); [done|].
  intros Henc%(inj Some) Hsize Hcount Hl Hv. symmetry in Henc. subst bytes.
  set (runs := rle_runs (length l) l). set (body := runs ≫= fun run => to_le size run.1 ++ to_le 4 run.2).
  pose proof (rle_runs_length (length l) l) as Hlen. fold runs in Hlen. pose proof (len_of_nonneg runs).
  assert (Hruns : len_of runs < 2 ^ 32) by (unfold len_of in *; lia).
  assert (Hbody : len_of body = len_of runs * (Z.of_nat size + 4)).
  { unfold body. rewrite (encoded_length _ (size + 4)%nat); [lia|]. intros run. by rewrite length_app, !to_le_length. }
  assert (H8 : forall x, len_of (to_le 8 x) = 8) by (intros x; unfold len_of; by rewrite to_le_length).
  assert (Hu : forall x, 0 <= x < MAX_ROWS -> u_from_le (to_le 8 x) = x).
  { intros x Hx. apply u_from_to_le. unfold unsigned, width, MAX_ROWS in *. change (256 ^ Z.of_nat 8) with U64_MOD.
    unfold U64_MOD. lia. }
  assert (Hdrop : forall a, drop 16 ((to_le 8 count ++ to_le 8 (len_of runs) ++ body) ++ a) = body ++ a).
  { intros a. rewrite <-!app_assoc, app_assoc. by rewrite drop_app_length' by by rewrite length_app, !to_le_length. }
  assert (Hn : take 8 (drop 8 ((to_le 8 count ++ to_le 8 (len_of runs) ++ body) ++ rest)) = to_le 8 (len_of runs)).
  { rewrite <-!app_assoc. apply take_drop_mid; by rewrite to_le_length. }
  split_and!.
  - rewrite !len_of_app, !H8, Hbody. lia.
  - unfold rle_header, check_or_invalid. pose proof (len_of_nonneg rest). rewrite Hn.
    rewrite !len_of_app, !H8, Hbody, (proj2 (Z.ltb_ge _ _)) by nia. rewrite <-!app_assoc.
    rewrite take_app_length' by (by rewrite to_le_length). rewrite !Hu by (unfold MAX_ROWS in *; lia).
    rewrite (wrap64_small (len_of runs * _)), wrap64_small by (unfold u64, U64_MAX; nia).
    by rewrite (proj2 (Z.ltb_ge _ _)) by lia.
  - rewrite Hn. apply Hu. unfold MAX_ROWS. lia.
  - rewrite Hdrop. unfold len_of at 1. rewrite Nat2Z.id.
    pose proof (reads_read_n (read_run value) (fun run => to_le size run.1 ++ to_le 4 run.2) id runs) as Hr.
    rewrite list_fmap_id in Hr. apply Hr. clear Hr. apply Forall_forall. intros run Hin.
    destruct (proj1 (Forall_forall _ _) (rle_runs_bounded (length l) l) run Hin) as [Hx Hr].
    change (id run) with run. apply reads_run; [|lia]. exact (proj1 (Forall_forall _ _) Hv _ Hx).
Qed.

Lemma rle_i64_roundtrip data bytes rest :
  rle_encode_i64 data = Some bytes -> len_of data < 2 ^ 32 -> Forall (signed 8) data ->
  rle_decode_i64 (bytes ++ rest) = Done (data, len_of bytes) /\
  len_of bytes = 16 + u_from_le (take 8 (drop 8 (bytes ++ rest))) * 12 /\ 16 <= len_of bytes.
Proof.
  unfold rle_encode_i64. destruct (_ <? _)%nat; [done|]. intros Henc Hlen Hdata. pose proof (len_of_nonneg data).
  destruct (rle_block 8 (read_i Panic 8) _ _ _ _ rest Henc) as (Hl & Hh & Hn & Hr); [lia|unfold MAX_ROWS; lia|done| |].
  { eapply Forall_impl; [exact Hdata|]. intros x Hx. by apply (reads_i Panic 7). }
  change (Z.of_nat 8 + 4) with 12 in *. set (runs := rle_runs (length data) data) in *. pose proof (len_of_nonneg runs).
  split; [|rewrite Hn; lia]. unfold rle_decode_i64. rewrite Hh. cbn [outcome_bind fst snd].
  rewrite (proj2 (Z.leb_gt _ _)) by (unfold ISIZE_MOD; lia). rewrite Hr. cbn [outcome_bind fst]. rewrite Hl. f_equal. f_equal.
  by apply rle_runs_expand.
Qed.

(** *** Booleans *)

Lemma or_bits_app data i a b : or_bits data i (a ++ b) = (data ← or_bits data i a; or_bits data (i + length a) b).
Proof.
  revert data i. induction a as [|x a IH]; intros data i; simpl; [by rewrite Nat.add_0_r|].
  destruct (if x then _ else _) as [d|]; [|done]. simpl. rewrite IH. by rewrite Nat.add_succ_r.
Qed.

Lemma or_bits_false data i n : or_bits data i (replicate n false) = Some data.
Proof. revert i. induction n as [|n IH]; intros i; [done|]. simpl. apply IH. Qed.

Lemma set_run_bits data i run :
  set_run (Some (data, i)) run =
    (fun data => (data, (i + length (expand run))%nat)) <$> or_bits data i ((fun b => b =? 1) <$> expand run).
Proof.
  destruct run as [v n]. unfold expand, set_run. cbn [fst snd mbind option_bind].
  rewrite fmap_replicate, length_replicate.
  assert (Hrun : (if v =? 1 then or_bits data i (replicate (Z.to_nat n) true) else Some data) =
    or_bits data i (replicate (Z.to_nat n) (v =? 1))).
  { destruct (v =? 1); [done|]. by rewrite or_bits_false. }
  rewrite Hrun. by destruct (or_bits _ _ _).
Qed.

Lemma set_runs_bits data i runs :
  Forall (fun run => run.1 = 0 \/ run.1 = 1) runs ->
  foldl set_run (Some (data, i)) runs =
    (fun data => (data, (i + length (runs ≫= expand))%nat)) <$>
      or_bits data i ((fun b => b =? 1) <$> (runs ≫= expand)).
Proof.
  intros Hbits. revert data i. induction Hbits as [|run runs Hv _ IH]; intros data i; [by rewrite Nat.add_0_r|].
  cbn [foldl]. rewrite set_run_bits, bind_cons, fmap_app, or_bits_app, length_fmap, length_app.
  destruct (or_bits data i _) as [d|]; cbn [mbind option_bind fmap option_fmap option_map].
  - by rewrite IH, Nat.add_assoc.
  - clear. induction runs as [|run runs IH]; [done|]. exact IH.
Qed.

Lemma packed_bits_pack bits : mapM (packed_bit (pack_bits bits)) (seq 0 (length bits)) = Some (Z.b2z <$> bits).
Proof.
  apply mapM_Some. apply Forall2_same_length_lookup. split; [by rewrite length_fmap, length_seq|].
  intros i row x Hi Hx. apply lookup_seq in Hi as [-> Hlt]. rewrite packed_bit_pack by done.
  by rewrite list_lookup_fmap in Hx.
Qed.

Lemma rle_bool_roundtrip bits bytes rest :
  rle_encode_bool (pack_bits bits) (length bits) = Some (Some bytes) -> Z.of_nat (length bits) < 2 ^ 32 ->
  rle_decode_bool (bytes ++ rest) = Done (CdBool (pack_bits bits) (length bits), len_of bytes) /\
  len_of bytes = 16 + u_from_le (take 8 (drop 8 (bytes ++ rest))) * 5 /\ 16 <= len_of bytes.
Proof.
  unfold rle_encode_bool. destruct (_ <? _)%nat; [done|]. rewrite packed_bits_pack. cbn [mbind option_bind].
  intros Henc%(inj Some) Hlen. set (values := Z.b2z <$> bits) in *.
  assert (Hvl : length values = length bits) by apply length_fmap.
  replace (rle_runs (length bits) values) with (rle_runs (length values) values) in Henc by (by rewrite Hvl).
  assert (Hbyte : Forall (fun x => reads (read_u Panic 1) (to_le 1 x) x) values).
  { apply Forall_fmap, Forall_forall. intros b _. apply (reads_u Panic 1). by destruct b. }
  destruct (rle_block 1 (read_u Panic 1) _ _ _ _ rest Henc) as (Hl & Hh & Hn & Hr);
    [lia|unfold MAX_ROWS; lia|unfold len_of; lia|done|].
  change (Z.of_nat 1 + 4) with 5 in *. set (runs := rle_runs (length values) values) in *. pose proof (len_of_nonneg runs).
  split; [|rewrite Hn; lia]. unfold rle_decode_bool. rewrite Hh. cbn [outcome_bind fst snd]. rewrite Hr. cbn [outcome_bind fst].
  rewrite wrap64_small by (unfold u64, U64_MAX; lia).
  assert (Hbits : Forall (fun run : Z * Z => run.1 = 0 \/ run.1 = 1) runs).
  { eapply Forall_impl; [apply rle_runs_bounded|]. intros run [(b & -> & _)%list_elem_of_fmap _].
    destruct b; [by right|by left]. }
  rewrite set_runs_bits by done.
  assert (Hexp : runs ≫= expand = values) by by apply rle_runs_expand. rewrite Hexp.
  assert (Hback : (fun b => b =? 1) <$> values = bits).
  { unfold values. rewrite <-list_fmap_compose. rewrite <-(list_fmap_id bits) at 2. apply list_fmap_ext. by intros i []. }
  rewrite Hback.
  assert (Hb : Z.to_nat ((Z.of_nat (length bits) + 7) / 8) = byte_len (length bits)).
  { unfold byte_len. rewrite <-(Nat2Z.inj_add _ 7), <-(Nat2Z.inj_div _ 8). apply Nat2Z.id. }
  rewrite Hb, or_bits_zeros. cbn [fmap option_fmap option_map of_option outcome_bind fst]. rewrite Hl, Nat2Z.id. done.
Qed.

(** *** Float dictionaries *)

(** The encoder after the rows [rows]: the distinct values, and an index for each row. *)
Definition float_dict_inv (acc : gmap Z Z * list Z * list Z) (rows : list Z) : Prop :=
  let '(map, values, indices) := acc in
  len_of values <= 65536 /\ Forall (fun v => v ∈ rows) values /\
  (forall bits i, map !! bits = Some i -> 0 <= i /\ values !! Z.to_nat i = Some bits) /\
  Forall2 (fun i bits => 0 <= i /\ values !! Z.to_nat i = Some bits) indices rows.

Lemma float_dict_push_inv acc rows bits acc' :
  float_dict_inv acc rows -> float_dict_push (Some acc) bits = Some acc' -> float_dict_inv acc' (rows ++ [bits]).
Proof.
  destruct acc as [[map values] indices]. intros (Hsize & Hin & Hmap & Hrows). unfold float_dict_push.
  cbn [mbind option_bind]. destruct (map !! bits) as [i|] eqn:Hb.
  - intros [= <-]. apply Hmap in Hb. split_and!; [done| |done|by apply Forall2_app; [|by constructor]].
    eapply Forall_impl; [exact Hin|]. set_solver.
  - destruct (Z.leb_spec 65536 (len_of values)) as [|Hlt]; [done|]. intros [= <-]. unfold float_dict_inv, len_of in *.
    assert (Hnew : (values ++ [bits]) !! Z.to_nat (Z.of_nat (length values)) = Some bits)
      by by rewrite Nat2Z.id, lookup_app_r, Nat.sub_diag by lia.
    assert (Hold : forall i v, values !! Z.to_nat i = Some v -> (values ++ [bits]) !! Z.to_nat i = Some v)
      by (intros i v Hv; by apply lookup_app_l_Some).
    split_and!.
    + rewrite length_app. cbn [length]. lia.
    + apply Forall_app. split; [|repeat constructor; set_solver]. eapply Forall_impl; [exact Hin|]. set_solver.
    + intros v i. destruct (decide (v = bits)) as [->|Hne].
      * rewrite lookup_insert_eq. intros [= <-]. split; [lia|done].
      * rewrite lookup_insert_ne by congruence. intros (H0 & Hv)%Hmap. auto.
    + apply Forall2_app; [|repeat constructor; [lia|done]]. eapply Forall2_impl; [exact Hrows|]. intros i v [H0 Hv]. auto.
Qed.

Lemma float_dict_fold_inv data acc rows acc' :
  float_dict_inv acc rows -> foldl float_dict_push (Some acc) data = Some acc' -> float_dict_inv acc' (rows ++ data).
Proof.
  revert acc rows. induction data as [|bits data IH]; intros acc rows Hinv; cbn [foldl].
  - intros [= <-]. by rewrite app_nil_r.
  - destruct (float_dict_push (Some acc) bits) as [acc2|] eqn:Hp.
    + intros Hf. rewrite cons_middle, app_assoc. eapply IH; [|exact Hf]. by eapply float_dict_push_inv.
    + intros Hf. exfalso. clear -Hf. induction data; [done|]. auto.
Qed.

(** Reading back a float dictionary. *)
Lemma float_dict_view width indices values data rest :
  (width = 1 \/ width = 2)%nat -> 0 < len_of values <= 65536 -> len_of data < MAX_ROWS ->
  (width = 1%nat -> len_of values <= 256) -> Forall (unsigned 8) values ->
  Forall2 (fun i bits => 0 <= i /\ values !! Z.to_nat i = Some bits) indices data ->
  let bytes := float_dict_bytes (len_of data) width indices values in
  exists view, FloatDictView_parse (bytes ++ rest) = Done view /\ fv_consumed view = len_of bytes /\
    fv_decode view = CdFloat64 data.
Proof.
  intros Hwidth Hvs Hrows Hw1 Hvalues Hidx. cbv zeta. unfold float_dict_bytes.
  pose proof (Forall2_length _ _ _ Hidx) as Hlen. pose proof (len_of_nonneg data) as Hd0. pose proof (len_of_nonneg rest).
  assert (Hl : forall n x, len_of (to_le n x) = Z.of_nat n) by (intros n x; unfold len_of; by rewrite to_le_length).
  set (ibytes := indices ≫= to_le width). set (vbytes := i64s_bytes values).
  assert (Hil : len_of ibytes = len_of data * Z.of_nat width).
  { unfold ibytes. rewrite (encoded_length _ width) by apply to_le_length. unfold len_of. by rewrite Hlen. }
  assert (Hvl : len_of vbytes = len_of values * 8) by apply i64s_length.
  assert (Hiw : 0 <= len_of data * Z.of_nat width <= len_of data * 2) by (destruct Hwidth as [->| ->]; lia).
  set (header := to_le 8 (len_of data) ++ to_le 4 (len_of values) ++ to_le 1 (Z.of_nat width)).
  assert (Hh : len_of header = 13) by (unfold header; rewrite !len_of_app, !Hl; lia).
  set (bytes := (to_le 8 (len_of data) ++ to_le 4 (len_of values) ++ to_le 1 (Z.of_nat width) ++ ibytes ++ vbytes) ++ rest).
  assert (Hbytes : bytes = header ++ ibytes ++ vbytes ++ rest) by (unfold bytes, header; by rewrite <-!app_assoc).
  assert (Htotal : len_of bytes = 13 + len_of data * Z.of_nat width + len_of values * 8 + len_of rest)
    by (rewrite Hbytes, !len_of_app; lia).
  assert (H0 : u_from_le (take 8 bytes) = len_of data).
  { unfold bytes. rewrite <-!app_assoc, take_app_length' by by rewrite to_le_length. apply u_from_to_le.
    unfold unsigned, Bytes.width. change (256 ^ Z.of_nat 8) with U64_MOD. size_lia. }
  assert (H8 : u_from_le (take 4 (drop 8 bytes)) = len_of values).
  { unfold bytes. rewrite <-!app_assoc, take_drop_mid by by rewrite to_le_length. apply u_from_to_le.
    unfold unsigned, Bytes.width. change (256 ^ Z.of_nat 4) with (2 ^ 32). lia. }
  assert (H12 : u_from_le (take 1 (drop 12 bytes)) = Z.of_nat width).
  { unfold bytes. rewrite <-!app_assoc, (app_assoc (to_le 8 _)).
    rewrite take_drop_mid; [|by rewrite to_le_length|by rewrite length_app, !to_le_length].
    apply u_from_to_le. destruct Hwidth as [->| ->]; done. }
  assert (Hib : take (Z.to_nat (len_of data * Z.of_nat width)) (drop 13 bytes) = ibytes).
  { rewrite Hbytes. apply take_drop_mid; unfold len_of in *; lia. }
  assert (Hvb : take (Z.to_nat (len_of values * 8)) (drop (Z.to_nat (13 + len_of data * Z.of_nat width)) bytes) = vbytes).
  { rewrite Hbytes, app_assoc. apply take_drop_mid; [|rewrite length_app]; unfold len_of in *; lia. }
  unfold FloatDictView_parse, check_or_invalid. cbv zeta. rewrite H0, H8, H12, (proj2 (Z.ltb_ge _ _)) by lia.
  rewrite (proj2 (Z.eqb_neq (len_of values) 0)) by lia.
  assert (Hok : negb ((Z.of_nat width =? 1) || (Z.of_nat width =? 2)) = false) by (destruct Hwidth as [->| ->]; done).
  rewrite Hok. cbn [orb]. unfold checked at 1. rewrite (proj2 (Z.leb_le _ _)) by size_lia. cbn [of_result outcome_bind].
  unfold checked at 1. rewrite (proj2 (Z.leb_le _ _)) by size_lia. cbn [of_result outcome_bind].
  unfold checked at 1. rewrite (proj2 (Z.leb_le _ _)) by size_lia. cbn [of_result outcome_bind].
  unfold checked at 1. rewrite (proj2 (Z.leb_le _ _)) by size_lia. cbn [of_result outcome_bind].
  rewrite (proj2 (Z.ltb_ge _ _)) by lia. eexists. split; [done|]. split; [cbn [fv_consumed]; rewrite !len_of_app, !Hl; lia|].
  rewrite Hib, Hvb. unfold ibytes, vbytes, i64s_bytes, fv_decode, fv_value, fv_index, fv_dictionary_value. cbn [fv_row_count fv_dict_size fv_index_width fv_indices fv_values].
  f_equal. assert (Hn : Z.to_nat (len_of data) = length data) by apply Nat2Z.id. rewrite Hn.
  apply list_eq. intros row. rewrite list_lookup_fmap. destruct (decide (row < length data)%nat) as [Hlt|Hge].
  - rewrite lookup_seq_lt by done. cbn [fmap option_fmap option_map]. rewrite Nat.add_0_l.
    destruct (lookup_lt_is_Some_2 data row Hlt) as [bits Hbits]. rewrite Hbits.
    destruct (Forall2_lookup_r _ _ _ _ _ Hidx Hbits) as (i & Hi & Hi0 & Hv). pose proof (lookup_lt_Some _ _ _ Hv).
    rewrite (proj2 (Nat.ltb_lt _ _)) by done.
    assert (Hu : unsigned width i).
    { unfold unsigned, Bytes.width. destruct Hwidth as [->| ->];
        [specialize (Hw1 eq_refl); change (256 ^ Z.of_nat 1) with 256|change (256 ^ Z.of_nat 2) with 65536]; unfold len_of in *; lia. }
    rewrite Nat2Z.id, (element_at_encoded _ _ _ i) by done. cbn [mbind option_bind].
    assert (Hb : (i <? Z.of_nat (Z.to_nat (len_of values))) = true) by (apply Z.ltb_lt; unfold len_of; lia). rewrite Hb.
    cbn [default from_option]. f_equal. apply element_at_encoded; [done|]. exact (Forall_lookup_1 _ _ _ _ Hvalues Hv).
  - rewrite lookup_seq_ge, lookup_ge_None_2 by lia. done.
Qed.

Lemma float_dict_roundtrip data bytes rest :
  dictionary_encode_f64 data = Some bytes -> len_of data < MAX_ROWS -> Forall (unsigned 8) data ->
  exists view, FloatDictView_parse (bytes ++ rest) = Done view /\ fv_consumed view = len_of bytes /\
    fv_decode view = CdFloat64 data.
Proof.
  unfold dictionary_encode_f64. destruct (Z.ltb_spec (len_of data) 32768) as [|Hbig]; [done|]. cbv zeta.
  destruct (negb _); [done|]. destruct (foldl _ _ _) as [[[map values] indices]|] eqn:Hf; [|done]. cbn [mbind option_bind].
  case_match; [done|]. intros Henc%(inj Some) Hlen Hdata. symmetry in Henc. subst bytes.
  apply (float_dict_fold_inv _ _ []) in Hf as (Hsize & Hin & _ & Hrows).
  2: { split_and!; [done|by constructor| |constructor]. intros bits i Hi. by rewrite lookup_empty in Hi. }
  simpl in Hrows, Hin.
  apply float_dict_view; [by case_match; auto| |done| | |done].
  - split; [|done]. destruct values; [|unfold len_of; simpl; lia].
    destruct data as [|bits data]; [done|]. by apply Forall2_cons_inv_r in Hrows as (i & indices' & [_ Hv] & _).
  - destruct (Z.leb_spec (len_of values) 256); done.
  - apply Forall_forall. intros v Hv. rewrite Forall_forall in Hdata, Hin. by apply Hdata, Hin.
Qed.

(** *** Narrowed floats *)

Lemma round_ratio_range mant emin inf p q : 0 <= p -> 0 < q -> 0 <= mant -> 0 <= inf -> 0 <= round_ratio mant emin inf p q <= inf.
Proof.
  intros Hp Hq Hm Hi. unfold round_ratio. cbv zeta. set (e := if _ : bool then _ else _).
  set (num := p * _). set (den := q * _). assert (Hden : 0 < den) by (apply Z.mul_pos_pos; [done|apply Z.pow_pos_nonneg; lia]).
  assert (Hnum : 0 <= num) by (apply Z.mul_nonneg_nonneg; [done|apply Z.pow_nonneg; lia]).
  assert (Hsig : 0 <= num / den) by (apply Z.div_pos; lia).
  assert (0 <= (Z.max emin (e - mant) - emin) * 2 ^ mant) by (apply Z.mul_nonneg_nonneg; [lia|apply Z.pow_nonneg; lia]).
  case_match; lia.
Qed.

Lemma narrow_f64_range bits : unsigned 4 (narrow_f64 bits).
Proof.
  unfold unsigned, width, narrow_f64. change (256 ^ Z.of_nat 4) with (2 ^ 32).
  assert (Hsign : forall b : bool, 0 <= (if b then F32_SIGN else 0) <= 2 ^ 31) by (intros []; unfold F32_SIGN; lia).
  specialize (Hsign (f64_negative bits)). destruct (f64_is_nan bits).
  - assert (Hf : 0 <= f64_magnitude bits mod 2 ^ 52 / 2 ^ 29 < 2 ^ 23).
    { pose proof (Z.mod_pos_bound (f64_magnitude bits) (2 ^ 52) ltac:(lia)). split; [apply Z.div_pos; lia|].
      apply Z.div_lt_upper_bound; lia. }
    assert (Hor : 0 <= Z.lor (f64_magnitude bits mod 2 ^ 52 / 2 ^ 29) (2 ^ 22) < 2 ^ 23).
    { set (x := _ / _) in *. assert (Hn : 0 <= Z.lor x (2 ^ 22)) by (apply Z.lor_nonneg; lia). split; [done|].
      destruct (Z.eq_dec (Z.lor x (2 ^ 22)) 0) as [->|Hne]; [lia|]. apply Z.log2_lt_pow2; [lia|].
      rewrite Z.log2_lor by lia. apply Z.max_lub_lt; [|done].
      destruct (Z.eq_dec x 0) as [->|]; [done|]. apply Z.log2_lt_pow2; lia. }
    unfold F32_INF. lia.
  - unfold f32_of_f64. cbv zeta. destruct (_ =? 0); [lia|]. destruct (_ <=? _); [unfold F32_INF; lia|].
    set (p := _ * 2 ^ Z.max _ 0). set (q := 2 ^ Z.max (- _) 0). unfold f32_of_ratio.
    assert (Hr : 0 <= round_ratio 23 (-149) F32_INF p q <= F32_INF); [|unfold F32_INF in *; lia].
    apply round_ratio_range; [|apply Z.pow_pos_nonneg; lia|lia|done].
    pose proof (Z.mod_pos_bound (f64_magnitude bits) (2 ^ 52) ltac:(lia)) as Hm. clear q Hsign.
    apply Z.mul_nonneg_nonneg; [clear p|apply Z.pow_nonneg; lia]. destruct (_ =? 0); lia.
Qed.

Lemma narrow_payload_spec data payload :
  narrow_payload data = Some payload -> payload = to_le 8 (len_of data) ++ u32s_bytes (narrow_f64 <$> data).
Proof.
  unfold narrow_payload. destruct (mapM narrow_value data) as [values|] eqn:Hm; [|done]. intros Hp%(inj Some). subst payload.
  do 2 f_equal. apply mapM_Some in Hm. induction Hm as [|b v bs vs Hv _ IH]; [done|]. rewrite fmap_cons, <-IH. f_equal.
  revert Hv. unfold narrow_value. case_match; congruence.
Qed.

Lemma narrow_roundtrip data payload rest :
  narrow_payload data = Some payload -> len_of data < MAX_ROWS ->
  f32_payload_len (payload ++ rest) = Done (len_of payload) /\
  decode_plain_f32 (payload ++ rest) = Done (CdFloat64 (f64_of_f32 ∘ narrow_f64 <$> data)).
Proof.
  intros ->%narrow_payload_spec Hlen. set (values := narrow_f64 <$> data). pose proof (len_of_nonneg data).
  assert (Hv : len_of values = len_of data) by (unfold values, len_of; by rewrite length_fmap).
  assert (Hu : Forall (unsigned 4) values) by (apply Forall_fmap, Forall_forall; intros; apply narrow_f64_range).
  assert (H8 : len_of (to_le 8 (len_of data)) = 8) by (unfold len_of; by rewrite to_le_length).
  pose proof (u32s_length values) as Hb. pose proof (len_of_nonneg rest).
  assert (Hl : f32_payload_len ((to_le 8 (len_of data) ++ u32s_bytes values) ++ rest) = Done (8 + len_of data * 4)).
  { unfold f32_payload_len, check_or_invalid. rewrite !len_of_app, H8, Hb, (proj2 (Z.ltb_ge _ _)) by lia.
    rewrite <-app_assoc, take_app_length' by by rewrite to_le_length.
    rewrite u_from_to_le by (unfold unsigned, width; change (256 ^ Z.of_nat 8) with U64_MOD; size_lia).
    unfold checked. rewrite (proj2 (Z.leb_le _ _)) by size_lia. cbn [of_result outcome_bind].
    rewrite wrap64_small by size_lia. by rewrite (proj2 (Z.ltb_ge _ _)) by lia. }
  split; [rewrite Hl, len_of_app, H8, Hb; f_equal; lia|].
  unfold decode_plain_f32. rewrite Hl. cbn [outcome_bind].
  assert (Hc : wrap64 (8 + len_of data * 4 - 8) / 4 = len_of values).
  { rewrite wrap64_small by size_lia. replace (8 + len_of data * 4 - 8) with (len_of data * 4) by lia. rewrite Z.div_mul; lia. }
  rewrite Hc, (proj2 (Z.leb_gt _ _)) by size_lia. f_equal. f_equal.
  rewrite <-app_assoc, drop_app_length' by by rewrite to_le_length. rewrite list_fmap_compose. f_equal.
  change (elements u_from_le 4 (len_of values) (u32s_bytes values ++ rest) = values).
  transitivity (u32_elements (len_of values) (u32s_bytes values)); [|by apply u32s_elements].
  unfold u32_elements, elements. apply list_fmap_ext. intros i k Hk.
  apply lookup_seq in Hk as [-> Hlt]. f_equal. unfold len_of in *. rewrite drop_app_le, take_app_le; [done| |]; rewrite ?length_drop; lia.
Qed.

(** ** Reading and skipping what was written *)

(** The bytes are a stored column: reading and skipping them, whatever follows, ends behind them. *)
Definition stored_as (bytes : list Z) (t : ColumnType) (c : ColumnData) : Prop :=
  forall rest, Forall is_byte (bytes ++ rest) -> len_of (bytes ++ rest) < ISIZE_MOD ->
  read_column_encoded (bytes ++ rest) t = Done (c, len_of bytes) /\
  skip_column_encoded (bytes ++ rest) t = Done (len_of bytes).

Lemma stored_payload encoding payload t c :
  (forall rest, Forall is_byte (payload ++ rest) -> len_of (payload ++ rest) < ISIZE_MOD ->
    read_payload encoding (payload ++ rest) t = Done (c, len_of payload) /\
    skip_column_encoded (encoding :: payload ++ rest) t = Done (wrap64 (1 + len_of payload))) ->
  stored_as (encoding :: payload) t c.
Proof.
  intros H rest Hb Hlen. cbn [app] in *. apply Forall_cons_1 in Hb as [_ Hb].
  assert (Hcons : forall l : list Z, len_of (encoding :: l) = 1 + len_of l) by (intros l; unfold len_of; cbn [length]; lia).
  rewrite Hcons in Hlen. pose proof (len_of_nonneg rest). pose proof (len_of_nonneg payload).
  destruct (H rest Hb ltac:(lia)) as [Hr Hs]. rewrite len_of_app in Hlen.
  assert (Hw : wrap64 (1 + len_of payload) = len_of (encoding :: payload))
    by (rewrite Hcons; apply wrap64_small; unfold u64, U64_MAX, ISIZE_MOD in *; lia).
  rewrite Hw in Hs. split; [|exact Hs]. cbn [read_column_encoded]. rewrite Hr. cbn [outcome_bind fst snd]. by rewrite Hw.
Qed.

Lemma stored_plain c t payload :
  to_bytes c = Some payload -> reads (from_bytes_typed t) payload c -> t <> TNull ->
  write_plain c = Done (COL_ENCODING_PLAIN :: payload) /\ stored_as (COL_ENCODING_PLAIN :: payload) t c.
Proof.
  intros Hb Hread Ht. split; [unfold write_plain; by rewrite (write_to_bytes _ _ Hb)|].
  apply stored_payload. intros rest Hbytes Hlen. split.
  - unfold read_payload. cbn -[from_bytes_typed]. unfold read_plain. rewrite Hread. cbn [outcome_bind fst snd].
    rewrite len_of_app. do 2 f_equal. lia.
  - cbn -[skip_bytes_typed wrap64]. rewrite (skip_agrees _ _ _ _ Hlen Hbytes Ht (Hread rest)). cbn [outcome_bind].
    rewrite len_of_app. do 2 f_equal. lia.
Qed.

Lemma stored_rle data t payload :
  rle_encode_i64 data = Some payload -> len_of data < 2 ^ 32 -> Forall (signed 8) data -> packs_integers t = true ->
  stored_as (COL_ENCODING_RLE :: payload) t (CdInt64 data).
Proof.
  intros Henc Hlen Hdata Ht. apply stored_payload. intros rest _ _.
  destruct (rle_i64_roundtrip _ _ rest Henc Hlen Hdata) as (Hd & Hl & H16).
  pose proof (len_of_nonneg rest). split.
  - unfold read_payload. rewrite Ht. cbn -[rle_decode_i64]. by rewrite Hd.
  - cbn -[skip_bytes_typed wrap64 drop take]. unfold check_or_invalid. rewrite len_of_app, (proj2 (Z.ltb_ge _ _)) by lia.
    by rewrite Hl, Z.add_assoc.
Qed.

Lemma bitpack_decode_consumed bytes data n :
  bitpack_decode_i64 bytes = Done (data, n) ->
  (len_of bytes <? 17) = false /\ n = 17 + packed_bytes_of (u_from_le (take 8 bytes)) (u_from_le (take 1 (drop 8 bytes))).
Proof.
  unfold bitpack_decode_i64, header_fields. destruct (len_of bytes <? 17); [done|]. destruct (_ <? _); [done|].
  destruct (_ <=? _); [done|]. destruct (bitpack_fill _ _ _ _); [|done]. intros [= _ <-]. done.
Qed.

Lemma stored_bitpack data t payload :
  bitpack_encode_i64 data = Some (Some payload) -> len_of data < MAX_ROWS -> Forall (signed 8) data ->
  packs_integers t = true -> stored_as (COL_ENCODING_BITPACK :: payload) t (CdInt64 data).
Proof.
  intros Henc Hlen Hdata Ht. destruct (bitpack_encode_spec data Hlen Hdata) as [He|(b & w & packed & He & Hp)]; [congruence|].
  assert (b = payload) as -> by congruence. apply stored_payload. intros rest _ Hsmall.
  pose proof (bitpack_decode_packs _ _ _ _ Hp Hlen Hdata rest) as Hd.
  destruct (bitpack_decode_consumed _ _ _ Hd) as [H17 Hn]. split.
  - unfold read_payload. rewrite Ht. cbn -[bitpack_decode_i64]. by rewrite Hd.
  - cbn -[skip_bytes_typed wrap64 drop take packed_bytes_of Z.add]. unfold check_or_invalid. rewrite H17, wrap64_small; [f_equal; lia|].
    rewrite len_of_app in Hsmall. pose proof (len_of_nonneg rest). pose proof (len_of_nonneg payload). size_lia.
Qed.

Lemma stored_rle_bool bits t payload :
  rle_encode_bool (pack_bits bits) (length bits) = Some (Some payload) -> Z.of_nat (length bits) < 2 ^ 32 ->
  stored_as (COL_ENCODING_RLE_BOOL :: payload) t (CdBool (pack_bits bits) (length bits)).
Proof.
  intros Henc Hlen. apply stored_payload. intros rest _ _.
  destruct (rle_bool_roundtrip _ _ rest Henc Hlen) as (Hd & Hl & H16). pose proof (len_of_nonneg rest). split.
  - unfold read_payload. cbn -[rle_decode_bool]. by rewrite Hd.
  - cbn -[skip_bytes_typed wrap64 drop take]. unfold check_or_invalid. rewrite len_of_app, (proj2 (Z.ltb_ge _ _)) by lia.
    by rewrite Hl, Z.add_assoc.
Qed.

Lemma stored_dictionary indices dict_offsets dict_data dict width :
  values_repr dict_offsets dict_data dict -> Forall (fun idx => 0 <= idx <= len_of dict) indices ->
  storable (CdStringDict indices dict_offsets dict_data) -> compact_width indices = Some width ->
  stored_as (COL_ENCODING_COMPACT_DICTIONARY :: compact_dict_bytes width indices dict_offsets dict_data) TStringDict
    (CdStringDict indices dict_offsets dict_data).
Proof.
  intros Hdict Hidx Hstore Hw. apply stored_payload. intros rest _ _.
  assert (Hwidth : (width = 1 \/ width = 2 \/ width = 4)%nat).
  { revert Hw. unfold compact_width. cbv zeta. case_match; [intros [= <-]; auto|]. case_match; [|done]. intros [= <-]. auto. }
  assert (Hbytes : compact_dict_bytes width indices dict_offsets dict_data ++ rest =
    to_le 8 (len_of indices) ++ to_le 8 (len_of dict_offsets) ++ [Z.of_nat width] ++ (indices ≫= to_le width) ++
    u32s_bytes dict_offsets ++ to_le 8 (len_of dict_data) ++ dict_data ++ rest).
  { unfold compact_dict_bytes. rewrite offsets_to_u32_id; [by rewrite <-!app_assoc|].
    destruct Hdict as [-> ->], Hstore as (_ & _ & Hl). by apply offsets_unsigned. }
  assert (Hp : StringDictView_parse (compact_dict_bytes width indices dict_offsets dict_data ++ rest) true =
    Done (stored_view width indices dict_offsets dict_data 17)) by by eapply (parse_stored _ _ _ _ Hstore rest true [Z.of_nat width]).
  assert (Hl : len_of (compact_dict_bytes width indices dict_offsets dict_data) =
    sv_consumed (stored_view width indices dict_offsets dict_data 17)).
  { assert (H8 : forall x, len_of (to_le 8 x) = 8) by (intros x; unfold len_of; by rewrite to_le_length).
    assert (H1 : len_of [Z.of_nat width] = 1) by done.
    assert (Ho : len_of (offsets_to_u32 dict_offsets) = len_of dict_offsets) by (unfold len_of, offsets_to_u32; by rewrite length_fmap).
    unfold compact_dict_bytes, stored_view. cbn [sv_consumed].
    rewrite !len_of_app, indices_length, u32s_length, Ho, !H8, H1. lia. }
  clear Hbytes. set (payload := compact_dict_bytes _ _ _ _) in *. clearbody payload. split.
  - unfold read_payload. cbn -[StringDictView_parse sv_decode]. rewrite Hp. cbn [outcome_bind]. rewrite Hl.
    by rewrite (stored_decode _ _ _ _ _ Hdict Hstore) by (eapply indices_fit; eauto).
  - cbn -[StringDictView_parse wrap64 drop take]. rewrite Hp. cbn [outcome_bind]. by rewrite Hl.
Qed.

Lemma stored_float_dictionary data t payload :
  dictionary_encode_f64 data = Some payload -> len_of data < MAX_ROWS -> Forall (unsigned 8) data -> is_float t = true ->
  stored_as (COL_ENCODING_FLOAT_DICTIONARY :: payload) t (CdFloat64 data).
Proof.
  intros Henc Hlen Hdata Ht. apply stored_payload. intros rest _ _.
  destruct (float_dict_roundtrip _ _ rest Henc Hlen Hdata) as (view & Hp & Hc & Hd). split.
  - unfold read_payload. rewrite Ht. cbn -[FloatDictView_parse]. rewrite Hp. cbn [outcome_bind]. by rewrite Hd, Hc.
  - cbn -[FloatDictView_parse wrap64 drop take]. rewrite Ht. cbn -[FloatDictView_parse wrap64]. rewrite Hp. cbn [outcome_bind].
    by rewrite Hc.
Qed.

Lemma stored_narrow data t payload :
  narrow_payload data = Some payload -> len_of data < MAX_ROWS ->
  stored_as (COL_ENCODING_PLAIN_F32 :: payload) t (CdFloat64 (f64_of_f32 ∘ narrow_f64 <$> data)).
Proof.
  intros Henc Hlen. apply stored_payload. intros rest _ _. destruct (narrow_roundtrip _ _ rest Henc Hlen) as [Hl Hd]. split.
  - unfold read_payload. cbn -[decode_plain_f32 f32_payload_len]. by rewrite Hd, Hl.
  - cbn -[f32_payload_len wrap64 drop take]. by rewrite Hl.
Qed.

(** What a narrowed column becomes; every other column is stored as it is. *)
Definition as_stored (options : ColumnEncodingOptions) (t : ColumnType) (c : ColumnData) : ColumnData :=
  match c with
  | CdFloat64 data =>
      match dictionary_encode_f64 data, narrow_payload data with
      | None, Some _ => if narrow_float32 options && is_float32 t then CdFloat64 (f64_of_f32 ∘ narrow_f64 <$> data) else c
      | _, _ => c
      end
  | _ => c
  end.

(** Run counters have 32 bits. *)
Definition countable (c : ColumnData) : Prop :=
  match c with
  | CdInt64 v => len_of v < 2 ^ 32
  | CdBool _ len => Z.of_nat len < 2 ^ 32
  | _ => True
  end.

Lemma offsets_fit vs : len_of (concat vs) < 2 ^ 32 -> existsb (fun o => 4294967295 <? o) (offsets_from 0 vs) = false.
Proof.
  intros Hlen. apply offsets_unsigned in Hlen. induction Hlen as [|o os Ho _ IH]; [done|]. cbn [existsb]. rewrite IH, orb_false_r.
  apply Z.ltb_ge. unfold unsigned, width in Ho. change (256 ^ Z.of_nat 4) with 4294967296 in Ho. lia.
Qed.

Lemma storable_offsets c l : repr c l -> storable c -> offsets_exceed_u32 c = false.
Proof.
  destruct c; try done; intros Hr Hs.
  - destruct Hr as (vs & [-> ->] & _), Hs as [_ Hs]. by apply offsets_fit.
  - destruct Hr as (vs & [-> ->] & _), Hs as [_ Hs]. by apply offsets_fit.
  - destruct Hr as (vs & [-> ->] & _), Hs as (_ & _ & Hs). by apply offsets_fit.
Qed.

Lemma write_column c l t options :
  repr c l -> storable c -> countable c -> has_stride c -> holds_type t c = true ->
  exists bytes, write_column_encoded c t options = Done bytes /\
    (packs_integers t = true \/ match c with CdInt64 _ => head bytes = Some COL_ENCODING_PLAIN | _ => True end ->
     stored_as bytes t (as_stored options t c)).
Proof.
  intros Hr Hs Hc Hw Ht. assert (Hnull : t <> TNull) by (intros ->; by destruct c).
  destruct (plain_roundtrip c l t Hr Hs Hw Ht) as (b & Hb & Hread).
  destruct (stored_plain c t b Hb Hread Hnull) as [Hwrite Hplain].
  unfold write_column_encoded. rewrite (storable_offsets c l) by done. unfold check_or_invalid, as_stored.
  destruct c as [data len|v|v|offsets data|offsets data|indices offs data|data dim|data dim|data dim codec]; try (by eexists).
  - destruct Hr as (bits & -> & -> & _). destruct (rle_encode_bool _ _) as [[payload|]|] eqn:He; cbn [of_option outcome_bind].
    + eexists. split; [done|]. intros _. by apply stored_rle_bool.
    + rewrite Hwrite. eexists. split; [done|]. by intros _.
    + exfalso. revert He. unfold rle_encode_bool. case_match; [done|]. by rewrite packed_bits_pack.
  - destruct Hs as [Hmax Hv]. destruct (rle_encode_i64 v) as [rle|] eqn:He; [|];
      (destruct (bitpack_encode_spec v Hmax Hv) as [Hbp|(pb & w & packed & Hbp & Hp)]; rewrite Hbp; cbn [of_option outcome_bind]).
    + eexists. split; [done|]. intros [Hi|Hd]; [|done]. by apply stored_rle.
    + eexists. split; [done|]. intros [Hi|Hd]; [|by case_match].
      case_match; [by apply stored_bitpack|by apply stored_rle].
    + rewrite Hwrite. eexists. split; [done|]. by intros _.
    + eexists. split; [done|]. intros [Hi|Hd]; [|done]. by apply stored_bitpack.
  - destruct Hs as [Hmax Hv]. assert (Hf : is_float t = true) by (by destruct t).
    destruct (dictionary_encode_f64 v) as [payload|] eqn:He.
    { eexists. split; [done|]. intros _. by apply stored_float_dictionary. }
    destruct (narrow_float32 options && is_float32 t) eqn:Hn; destruct (narrow_payload v) as [payload|] eqn:Hp;
      try (rewrite Hwrite; eexists; split; [done|]; by intros _).
    eexists. split; [done|]. intros _. by apply stored_narrow.
  - destruct Hr as (dict & Hdict & Hidx & _). destruct t; try done. destruct (compact_width indices) as [width|] eqn:Hcw.
    + eexists. split; [done|]. intros _. by eapply stored_dictionary.
    + rewrite Hwrite. eexists. split; [done|]. by intros _.
Qed.

(** The integer types that the readers do not decode. *)
Definition undecoded (t : ColumnType) : bool := match t with TTime | TTimestampTz | TInterval => true | _ => false end.

Lemma packed_prefix v payload :
  rle_encode_i64 v = Some payload \/ bitpack_encode_i64 v = Some (Some payload) -> len_of v < 2 ^ 32 -> Forall (signed 8) v ->
  exists body, payload = to_le 8 (len_of v) ++ body /\ len_of payload < 8 + len_of v * 8.
Proof.
  intros Henc Hlen Hv. pose proof (len_of_nonneg v).
  assert (Hplain : (8 + len_of v * 8) * 7 / 10 < 8 + len_of v * 8) by (apply Z.div_lt_upper_bound; lia).
  destruct Henc as [Henc|Henc].
  - revert Henc. unfold rle_encode_i64, rle_bytes.
    case_match; [done|]. cbv zeta. destruct (Z.leb_spec ((8 + len_of v * 8) * 7 / 10) (16 + len_of (rle_runs (length v) v) * (Z.of_nat 8 + 4))) as [|Hsave]; [done|].
    intros Hp%(inj Some). symmetry in Hp. subst payload. eexists. split; [done|]. set (runs := rle_runs _ _) in *.
    rewrite !len_of_app. rewrite (encoded_length _ 12%nat) by (intros run; by rewrite length_app, !to_le_length).
    assert (H8 : forall x, len_of (to_le 8 x) = 8) by (intros x; unfold len_of; by rewrite to_le_length). rewrite !H8. lia.
  - destruct (bitpack_encode_spec v) as [He|(b & w & packed & He & Hp)]; [unfold MAX_ROWS; lia|done|congruence|].
    assert (b = payload) as -> by congruence. destruct Hp as (_ & _ & -> & _ & _ & _ & Hsave). eexists.
    unfold BITPACK_HEADER. split; [by rewrite <-!app_assoc|]. rewrite !len_of_app. unfold len_of in *. rewrite !to_le_length. lia.
Qed.

(** A reader that takes a packed payload for plain integers wants more bytes than it has. *)
Lemma packed_as_plain v t payload rest c n :
  rle_encode_i64 v = Some payload \/ bitpack_encode_i64 v = Some (Some payload) -> len_of v < 2 ^ 32 -> Forall (signed 8) v ->
  undecoded t = true ->
  (len_of rest = 0 -> read_plain (payload ++ rest) t = Invalid) /\
  (read_plain (payload ++ rest) t = Done (c, n) -> len_of payload < n).
Proof.
  intros Henc Hlen Hv Ht. destruct (packed_prefix _ _ Henc Hlen Hv) as (body & -> & Hshort). pose proof (len_of_nonneg v).
  assert (Hread : read_plain ((to_le 8 (len_of v) ++ body) ++ rest) t =
    outcome_bind (take_vec 8 (len_of v) 8 (body ++ rest)) (fun read =>
      Done (CdInt64 (i64_elements (len_of v) read.1), len_of ((to_le 8 (len_of v) ++ body) ++ rest) - len_of read.2))).
  { unfold read_plain. rewrite <-app_assoc. assert (Hu : u64 (len_of v)) by (unfold u64, U64_MAX; lia).
    destruct t; try done; cbn [from_bytes_typed]; unfold bind at 1; rewrite (reads_u64 (len_of v) Hu); unfold bind, ret;
      by destruct (take_vec 8 (len_of v) 8 (body ++ rest)) as [[]| |]. }
  rewrite Hread. assert (H8 : len_of (to_le 8 (len_of v)) = 8) by (unfold len_of; by rewrite to_le_length).
  rewrite !len_of_app, H8 in *. unfold take_vec.
  rewrite len_of_app, (wrap64_small (len_of v * 8)), wrap64_small by size_lia. split.
  - intros Hrest. by rewrite Hrest, (proj2 (Z.ltb_lt _ _)) by lia.
  - destruct (Z.ltb_spec (8 + (len_of body + len_of rest)) (8 + len_of v * 8)); [done|].
    rewrite (proj2 (Z.leb_gt _ _)) by size_lia. unfold next. rewrite length_app.
    rewrite (proj2 (Z.leb_le _ _)) by (unfold len_of in *; lia). intros [= _ <-]. unfold len_of in *. rewrite length_drop, length_app. lia.
Qed.

(** A packed column of times is lost: when [write_column_encoded] stores an integer column of
    type [Time], [TimestampTz] or [Interval] run-length encoded or bit-packed, which it does
    whenever that saves 30%, [read_column_encoded] takes the payload for plain integers: it
    refuses the column when nothing follows, and otherwise consumes bytes of what follows. *)
Lemma time_columns_unreadable v t options bytes :
  undecoded t = true -> len_of v < 2 ^ 32 -> Forall (signed 8) v ->
  write_column_encoded (CdInt64 v) t options = Done bytes -> head bytes <> Some COL_ENCODING_PLAIN ->
  read_column_encoded bytes t = Invalid /\
  forall rest c n, len_of (bytes ++ rest) < ISIZE_MOD -> read_column_encoded (bytes ++ rest) t = Done (c, n) -> len_of bytes < n.
Proof.
  intros Ht Hlen Hv Hwrite Hhead.
  assert (Hcase : exists encoding payload, bytes = encoding :: payload /\
    (encoding = COL_ENCODING_RLE \/ encoding = COL_ENCODING_BITPACK) /\
    (rle_encode_i64 v = Some payload \/ bitpack_encode_i64 v = Some (Some payload))).
  { revert Hwrite. unfold write_column_encoded, check_or_invalid. cbn [offsets_exceed_u32].
    destruct (rle_encode_i64 v) as [rle|] eqn:Hrle;
      destruct (bitpack_encode_i64 v) as [[packed|]|] eqn:Hbp; cbn [of_option outcome_bind]; try done.
    - case_match; intros [= <-]; eauto 10.
    - intros [= <-]. eauto 10.
    - intros [= <-]. eauto 10.
    - unfold write_plain. intros Hp. exfalso. apply Hhead. destruct (write_to (CdInt64 v)) as [b| |]; try done.
      apply (f_equal (fun o => match o with Done b => head b | _ => None end)) in Hp. exact (eq_sym Hp). }
  destruct Hcase as (encoding & payload & -> & Hencoding & Henc).
  assert (Hpay : forall rest, read_payload encoding (payload ++ rest) t = read_plain (payload ++ rest) t).
  { intros rest. unfold read_payload. assert (packs_integers t = false) as -> by (by destruct t).
    assert (is_string_dict t = false) as -> by (by destruct t). assert (is_float t = false) as -> by (by destruct t).
    by destruct Hencoding as [-> | ->]. }
  split.
  - destruct (packed_as_plain v t payload [] (CdInt64 []) 0 Henc Hlen Hv Ht) as [H _]. cbn [read_column_encoded].
    specialize (Hpay []). rewrite app_nil_r in Hpay, H. by rewrite Hpay, H.
  - intros rest c n Hsmall. cbn [app read_column_encoded]. rewrite Hpay.
    assert (Hcons : forall l : list Z, len_of (encoding :: l) = 1 + len_of l) by (intros l; unfold len_of; cbn [length]; lia).
    destruct (read_plain (payload ++ rest) t) as [[c' m]| |] eqn:Hr; [|done..]. cbn [outcome_bind fst snd]. intros [= _ <-].
    assert (Hm : len_of payload < m) by by apply (packed_as_plain v t payload rest c' m Henc Hlen Hv Ht).
    assert (Hle : m <= len_of (payload ++ rest)).
    { revert Hr. unfold read_plain. destruct (from_bytes_typed t _) as [[c'' r]| |]; [|done..]. intros [= _ <-].
      pose proof (len_of_nonneg r). cbn [snd]. lia. }
    change ((encoding :: payload) ++ rest) with (encoding :: payload ++ rest) in Hsmall. rewrite Hcons in Hsmall |- *.
    pose proof (len_of_nonneg payload). rewrite wrap64_small by (unfold u64, U64_MAX, ISIZE_MOD in *; lia). lia.
Qed.

(** An integer column of a type whose packed columns are not decoded, written packed. *)
Definition packed_undecoded (t : ColumnType) (c : ColumnData) (bytes : list Z) : bool :=
  undecoded t &&
  match c with CdInt64 _ => negb (bool_decide (head bytes = Some COL_ENCODING_PLAIN)) | _ => false end.

(** C21 An encoded column is read back and skipped exactly: for every buffer of the kind its type
    stores, [write_column_encoded] succeeds, whichever of the plain, run-length, bit-packed,
    dictionary or 4-byte layouts it picks, and on the bytes written, followed by anything,
    [read_column_encoded] gives the same buffer (floats narrowed to [f32] when the table opted
    into that) and ends where [skip_column_encoded] does, right behind the column; with one
    exception, which the theorem states too: a [Time], [TimestampTz] or [Interval] column
    that the writer run-length encoded or bit-packed is refused by the reader when nothing
    follows it, and otherwise the reader runs past its end.  The buffers have fewer
    than 2^56 rows (integer and boolean ones fewer than 2^32, the width of the run counters),
    less than 4 GiB of text or dictionary data, values of their width, and, for
    quantized vectors, a dimension their codec has a row width for. *)
Theorem column_roundtrip c l t options :
  repr c l -> storable c -> countable c -> has_stride c -> holds_type t c = true ->
  exists bytes, write_column_encoded c t options = Done bytes /\
    if packed_undecoded t c bytes then
      read_column_encoded bytes t = Invalid /\
      forall rest c' n, len_of (bytes ++ rest) < ISIZE_MOD ->
        read_column_encoded (bytes ++ rest) t = Done (c', n) -> len_of bytes < n
    else stored_as bytes t (as_stored options t c).
Proof.
  intros Hr Hs Hc Hw Ht. destruct (write_column c l t options Hr Hs Hc Hw Ht) as (bytes & Hwrite & Hstored).
  exists bytes. split; [done|]. destruct (packed_undecoded t c bytes) eqn:Hp.
  - apply andb_true_iff in Hp as [Hu Hp]. destruct c; try done. apply negb_true_iff, bool_decide_eq_false in Hp.
    destruct Hs as [_ Hs]. by eapply time_columns_unreadable.
  - apply Hstored. apply andb_false_iff in Hp as [Hu|Hp].
    + destruct c; auto. left. by destruct t.
    + destruct c; auto. right. apply negb_false_iff, bool_decide_eq_true in Hp. done.
Qed.

(** Eight hundred booleans in two runs are stored in 27 bytes and read back in front of other bytes. *)
Definition two_runs : list bool := replicate 400 true ++ replicate 400 false.

Lemma column_roundtrip_witness :
  exists bytes, write_column_encoded (CdBool (pack_bits two_runs) 800) TBool (mkOptions false) = Done bytes /\
    len_of bytes = 27 /\ read_column_encoded (bytes ++ [1; 2; 3]) TBool = Done (CdBool (pack_bits two_runs) 800, 27).
Proof.
  destruct (column_roundtrip (CdBool (pack_bits two_runs) 800) (DBool <$> two_runs) TBool (mkOptions false)) as (bytes & Hw & Hs);
    [by exists two_runs|done|done|done|done|].
  assert (Hb : bytes = [3; 32; 3; 0; 0; 0; 0; 0; 0; 2; 0; 0; 0; 0; 0; 0; 0; 1; 144; 1; 0; 0; 0; 144; 1; 0; 0]).
  { vm_compute in Hw. by injection Hw as <-. }
  change (packed_undecoded TBool _ bytes) with false in Hs. cbv iota in Hs.
  subst bytes. eexists. split; [exact Hw|]. split; [done|].
  apply (Hs [1; 2; 3]); [|done]. repeat constructor; done.
Defined.

(** Twenty times noon, in microseconds. *)
Lemma time_columns_unreadable_witness :
  exists bytes, write_column_encoded (CdInt64 (replicate 20 43200000000)) TTime (mkOptions false) = Done bytes /\
    head bytes = Some COL_ENCODING_RLE /\ read_column_encoded bytes TTime = Invalid.
Proof.
  eexists. split; [vm_compute; reflexivity|]. split; [reflexivity|].
  refine (proj1 (time_columns_unreadable (replicate 20 43200000000) TTime (mkOptions false) _ _ _ _ _ _));
    [done|done|apply Forall_replicate; done|vm_compute; reflexivity|discriminate].
Defined.
