(* ===== verification/ZoneMaps.v ===== *)
(** * Zone maps

    Models the per-row-group value ranges: the entries of [storage/on_demand/header.rs]
    ([RgColumnZoneMap]), the order-preserving keys and the scans that compute the entries in
    [storage/on_demand/read_write.rs].  Byte strings are lists of byte values; [None] is a slice
    out of bounds.  Rayon's [reduce] is a left fold of the partial results. *)
From S2P Require Import Prelude Float Bytes Bits Values Columns IndexKey.
Local Open Scope Z_scope.

(** ** Zone-map entries *)

Record RgColumnZoneMap := mkZone {
  zm_col_idx : Z;
  zm_min_bits : Z;
  zm_max_bits : Z;
  zm_has_nulls : bool;
  zm_is_float : bool;
  zm_is_string_prefix : bool;
  zm_is_string_tail : bool
}.

(** [bits as i64] of a [u64]; [as_u64] is the converse. *)
Definition bits_i64 (x : Z) : Z := if x <? F64_SIGN then x else x - U64_MOD.

Definition zm_min_f (zm : RgColumnZoneMap) : Z := as_u64 (zm_min_bits zm).
Definition zm_max_f (zm : RgColumnZoneMap) : Z := as_u64 (zm_max_bits zm).

Definition may_contain_int (zm : RgColumnZoneMap) (op : string) (val : Z) : bool :=
  if one_of op ["="; "=="]%string then (zm_min_bits zm <=? val) && (val <=? zm_max_bits zm)
  else if String.eqb op ">" then val <? zm_max_bits zm
  else if String.eqb op ">=" then val <=? zm_max_bits zm
  else if String.eqb op "<" then zm_min_bits zm <? val
  else if String.eqb op "<=" then zm_min_bits zm <=? val
  else true.

Definition may_contain_float (zm : RgColumnZoneMap) (op : string) (val : Z) : bool :=
  if one_of op ["="; "=="]%string then f64_le (zm_min_f zm) val && f64_le val (zm_max_f zm)
  else if String.eqb op ">" then f64_lt val (zm_max_f zm)
  else if String.eqb op ">=" then f64_le val (zm_max_f zm)
  else if String.eqb op "<" then f64_lt (zm_min_f zm) val
  else if String.eqb op "<=" then f64_le (zm_min_f zm) val
  else true.

Definition may_overlap_int_range (zm : RgColumnZoneMap) (low high : Z) : bool :=
  (low <=? zm_max_bits zm) && (zm_min_bits zm <=? high).

Definition may_overlap_float_range (zm : RgColumnZoneMap) (low high : Z) : bool :=
  f64_le low (zm_max_f zm) && f64_le (zm_min_f zm) high.

(** ** Keys *)

(** [u64::from_be_bytes] *)
Definition u_from_be (bytes : list Z) : Z := fold_left (fun acc b => acc * 256 + b) bytes 0.

Definition string_byte_key (value : list Z) (offset : nat) : Z :=
  let part := take 8 (drop offset value) in
  let window := part ++ replicate (8 - length part) 0 in
  bits_i64 (Z.lxor (u_from_be window) F64_SIGN).

Definition string_prefix_key (value : list Z) : Z := string_byte_key value 0.
Definition string_tail_key (value : list Z) : Z := string_byte_key value 8.

(** ** Rows of a column *)

Definition slice_or_empty {A} (data : list A) (start stop : nat) : list A :=
  let lo := (start `min` length data)%nat in
  let hi := (stop `min` length data)%nat in
  if (lo <? hi)%nat then take (hi - lo) (drop lo data) else [].

Definition null_bitmap_any_set (nulls : list (list Z)) (col_idx start stop : nat) : bool :=
  match nulls !! col_idx with
  | None => false
  | Some bitmap =>
      existsb (fun row => match packed_bit bitmap row with Some bit => negb (bit =? 0) | None => false end)
        (seq start (stop - start))
  end.

(** ** Computing the entries *)

Definition I64_MIN : Z := - F64_SIGN.

(** [StringRange]: the [values] counter only tells whether there was any. *)
Record ValueRange := mkRange { vr_min : Z; vr_max : Z; vr_values : nat }.

Definition EMPTY : ValueRange := mkRange I64_MAX I64_MIN 0.

Definition range_merge (a b : ValueRange) : ValueRange :=
  mkRange (Z.min (vr_min a) (vr_min b)) (Z.max (vr_max a) (vr_max b)) (vr_values a + vr_values b).

Definition range_add (r : ValueRange) (x : Z) : ValueRange :=
  mkRange (Z.min (vr_min r) x) (Z.max (vr_max r) x) (S (vr_values r)).

Definition ZONE_MAP_PAR_MIN_VALUES : nat := 2 ^ 14.
Definition ZONE_MAP_PAR_PARTS : nat := 4.

(** [usize::div_ceil] *)
Definition div_ceil (a b : nat) : nat := ((a + b - 1) / b)%nat.

Definition zone_scan_ranges (lo hi : nat) : list (nat * nat) :=
  let count := (hi - lo)%nat in
  if (count <? ZONE_MAP_PAR_MIN_VALUES)%nat then [(lo, hi)]
  else
    let step := div_ceil count ZONE_MAP_PAR_PARTS in
    (fun k => let start := (lo + k * step)%nat in (start, ((start + step) `min` hi)%nat))
      <$> seq 0 (div_ceil count step).

(** One scan, or the parallel scans of the parts merged from [EMPTY]. *)
Definition scan_parts {A} (merge : A -> A -> A) (empty : A) (scan : nat * nat -> option A) (lo hi : nat) : option A :=
  match zone_scan_ranges lo hi with
  | [range] => scan range
  | ranges => parts ← mapM scan ranges; Some (foldl merge empty parts)
  end.

Definition value_len (value : list Z) : Z := Z.of_nat (length value).

Definition add_length_and_key (acc : ValueRange * ValueRange) (value : list Z) : ValueRange * ValueRange :=
  (range_add acc.1 (value_len value), range_add acc.2 (string_prefix_key value)).

Definition merge_pair (a b : ValueRange * ValueRange) : ValueRange * ValueRange :=
  (range_merge a.1 b.1, range_merge a.2 b.2).

Definition string_zone_data (offsets data : list Z) (lo hi : nat) : option (ValueRange * ValueRange) :=
  scan_parts merge_pair (EMPTY, EMPTY) (scan_values add_length_and_key (EMPTY, EMPTY) offsets data) lo hi.

Definition string_tail_data (offsets data : list Z) (lo hi : nat) : option ValueRange :=
  scan_parts range_merge EMPTY
    (scan_values (fun r value => range_add r (string_tail_key value)) EMPTY offsets data) lo hi.

Definition int_zone (col_idx : nat) (mn mx : Z) (has_nulls : bool) : RgColumnZoneMap :=
  mkZone (wrap16 (Z.of_nat col_idx)) mn mx has_nulls false false false.
Definition float_zone (col_idx : nat) (mn mx : Z) (has_nulls : bool) : RgColumnZoneMap :=
  mkZone (wrap16 (Z.of_nat col_idx)) (bits_i64 mn) (bits_i64 mx) has_nulls true false false.
Definition prefix_zone (col_idx : nat) (mn mx : Z) (has_nulls : bool) : RgColumnZoneMap :=
  mkZone (wrap16 (Z.of_nat col_idx)) mn mx has_nulls false true false.
Definition tail_zone (col_idx : nat) (mn mx : Z) (has_nulls : bool) : RgColumnZoneMap :=
  mkZone (wrap16 (Z.of_nat col_idx)) mn mx has_nulls false false true.

(** What [push_string_zone_entries] appends. *)
Definition string_zone_entries (col_idx : nat) (has_nulls : bool) (offsets data : list Z) (lo hi : nat)
    : option (list RgColumnZoneMap) :=
  '(lengths, keys) ← string_zone_data offsets data lo hi;
  if (vr_values lengths =? 0)%nat then Some []
  else
    tails ← (if vr_min keys =? vr_max keys then
        tails ← string_tail_data offsets data lo hi;
        Some (if vr_min tails =? vr_max tails then []
              else [tail_zone col_idx (vr_min tails) (vr_max tails) has_nulls])
      else Some []);
    Some (int_zone col_idx (vr_min lengths) (vr_max lengths) has_nulls ::
          prefix_zone col_idx (vr_min keys) (vr_max keys) has_nulls :: tails).

Definition F64_NEG_INF : Z := F64_SIGN + F64_INF.

(** The range of the floats; NaN never compares, so it moves neither end. *)
Definition float_range (values : list Z) : Z * Z :=
  foldl (fun acc v => (if f64_lt v acc.1 then v else acc.1, if f64_lt acc.2 v then v else acc.2))
    (F64_INF, F64_NEG_INF) values.

Definition bool_bit_range (data : list Z) (len start stop : nat) : option (option (Z * Z)) :=
  let lo := (start `min` len)%nat in
  let hi := (stop `min` len)%nat in
  if (hi <=? lo)%nat then Some None
  else
    bits ← mapM (packed_bit data) (seq lo (hi - lo));
    Some (Some (foldl (fun acc bit => (if bit <? acc.1 then bit else acc.1, if acc.2 <? bit then bit else acc.2))
      (1, 0) bits)).

Definition column_zone_maps (column : ColumnData) (nulls : option (list (list Z))) (col_idx start stop : nat)
    : option (list RgColumnZoneMap) :=
  let has_nulls := match nulls with Some nulls => null_bitmap_any_set nulls col_idx start stop | None => false end in
  match column with
  | CdInt64 data =>
      match slice_or_empty data start stop with
      | [] => Some []
      | slice => Some [int_zone col_idx (foldl Z.min I64_MAX slice) (foldl Z.max I64_MIN slice) has_nulls]
      end
  | CdFloat64 data =>
      match slice_or_empty data start stop with
      | [] => Some []
      | slice => let '(mn, mx) := float_range slice in Some [float_zone col_idx mn mx has_nulls]
      end
  | CdString offsets data =>
      let lo := (start `min` (length offsets - 1))%nat in
      let hi := (stop `min` (length offsets - 1))%nat in
      if (lo <? hi)%nat then string_zone_entries col_idx has_nulls offsets data lo hi else Some []
  | CdStringDict _ dict_offsets dict_data =>
      let hi := (length dict_offsets - 1)%nat in
      if (0 <? hi)%nat then string_zone_entries col_idx has_nulls dict_offsets dict_data 0 hi else Some []
  | CdBool data len =>
      range ← bool_bit_range data len start stop;
      Some (match range with Some (mn, mx) => [int_zone col_idx mn mx has_nulls] | None => [] end)
  | _ => Some []
  end.

(** The columns are independent; in parallel or not, the entries come in column order. *)
Definition compute_rg_zone_maps (columns : list ColumnData) (nulls : list (list Z)) (start stop : nat)
    : option (list RgColumnZoneMap) :=
  parts ← mapM (fun e => column_zone_maps e.2 (Some nulls) e.1 start stop) (imap pair columns);
  Some (concat parts).

(** ** Ranges *)

(** The range of a list of values. *)
Definition range_of (xs : list Z) : ValueRange := foldl range_add EMPTY xs.

#[global] Instance in_value_range : ElemOf Z ValueRange := fun x r => vr_min r <= x <= vr_max r.

Lemma range_add_merge xs : forall r,
  vr_min r <= I64_MAX -> I64_MIN <= vr_max r -> foldl range_add r xs = range_merge r (range_of xs).
Proof.
  unfold range_of. induction xs as [|x xs IH] using rev_ind; intros r Hmin Hmax.
  - simpl. destruct r. unfold range_merge. simpl in *. f_equal; lia.
  - rewrite !foldl_app, IH by done. simpl. unfold range_add, range_merge. simpl. f_equal; lia.
Qed.

Lemma range_of_bounds xs : vr_min (range_of xs) <= I64_MAX /\ I64_MIN <= vr_max (range_of xs).
Proof.
  induction xs as [|x xs IH] using rev_ind; [done|]. unfold range_of in *. rewrite foldl_app. simpl. lia.
Qed.

Lemma range_of_app xs ys : range_of (xs ++ ys) = range_merge (range_of xs) (range_of ys).
Proof. unfold range_of at 1. rewrite foldl_app. apply range_add_merge; apply range_of_bounds. Qed.

Lemma range_of_elem xs x : x ∈ xs -> x ∈ range_of xs.
Proof.
  induction xs as [|y xs IH] using rev_ind; [set_solver|]. unfold range_of in *. rewrite foldl_app, elem_of_app.
  unfold elem_of, in_value_range in *. simpl. intros [Hx|Hx]; [specialize (IH Hx); lia|].
  apply elem_of_cons in Hx as [->|Hx]; [lia|set_solver].
Qed.

Lemma range_of_values xs : vr_values (range_of xs) = length xs.
Proof.
  induction xs as [|x xs IH] using rev_ind; [done|]. unfold range_of in *.
  rewrite foldl_app, length_app. simpl. lia.
Qed.

(** ** Splitting a scan *)

(** An accumulator whose scan of a concatenation is the merge of the scans. *)
Class ScanAcc {A} (step : A -> list Z -> A) (empty : A) (merge : A -> A -> A) : Prop := {
  scan_merge xs ys : foldl step empty (xs ++ ys) = merge (foldl step empty xs) (foldl step empty ys);
  scan_empty xs : merge empty (foldl step empty xs) = foldl step empty xs
}.

Lemma foldl_range_key (key : list Z -> Z) xs r :
  foldl (fun r value => range_add r (key value)) r xs = foldl range_add r (key <$> xs).
Proof. revert r. induction xs as [|x xs IH]; intros r; [done|]. simpl. apply IH. Qed.

#[global] Instance range_acc key : ScanAcc (fun r value => range_add r (key value)) EMPTY range_merge.
Proof.
  split.
  - intros xs ys. rewrite !foldl_range_key, fmap_app. apply range_of_app.
  - intros xs. rewrite foldl_range_key. symmetry. by apply range_add_merge.
Qed.

Lemma foldl_pair xs a : foldl add_length_and_key a xs =
  (foldl (fun r value => range_add r (value_len value)) a.1 xs,
   foldl (fun r value => range_add r (string_prefix_key value)) a.2 xs).
Proof. revert a. induction xs as [|x xs IH]; intros [a b]; [done|]. simpl. by rewrite IH. Qed.

#[global] Instance pair_acc : ScanAcc add_length_and_key (EMPTY, EMPTY) merge_pair.
Proof.
  split; intros xs; [intros ys|]; rewrite !foldl_pair; unfold merge_pair; simpl.
  - by rewrite !scan_merge.
  - by rewrite !scan_empty.
Qed.

(** The ranges cut [lo..hi] in order. *)
Lemma zone_scan_ranges_cut lo hi :
  (zone_scan_ranges lo hi ≫= fun r => seq r.1 (r.2 - r.1)) = seq lo (hi - lo).
Proof.
  unfold zone_scan_ranges. destruct (Nat.ltb_spec (hi - lo) ZONE_MAP_PAR_MIN_VALUES) as [|Hbig]; [by simpl; rewrite app_nil_r|].
  set (count := (hi - lo)%nat) in *. set (step := div_ceil count ZONE_MAP_PAR_PARTS).
  assert (Hc : (0 < count)%nat).
  { assert (0 < ZONE_MAP_PAR_MIN_VALUES)%nat; [|lia]. unfold ZONE_MAP_PAR_MIN_VALUES.
    pose proof (Nat.pow_nonzero 2 14). lia. }
  assert (Hs : (0 < step)%nat).
  { unfold step, div_ceil, ZONE_MAP_PAR_PARTS. pose proof (Nat.div_mod_eq (count + 4 - 1) 4).
    pose proof (Nat.mod_upper_bound (count + 4 - 1) 4). lia. }
  assert (Hpre : forall m,
    (((fun k => let start := (lo + k * step)%nat in (start, ((start + step) `min` hi)%nat)) <$> seq 0 m)
      ≫= fun r => seq r.1 (r.2 - r.1)) = seq lo ((m * step) `min` count)).
  { induction m as [|m IH]; [done|]. rewrite seq_S, fmap_app, bind_app, IH. simpl. rewrite app_nil_r.
    replace ((step + m * step) `min` count)%nat
      with ((m * step) `min` count + (((lo + m * step + step) `min` hi) - (lo + m * step)))%nat by lia.
    rewrite seq_app. f_equal. destruct (Nat.le_gt_cases count (m * step)) as [Hle|Hlt].
    - replace (((lo + m * step + step) `min` hi) - (lo + m * step))%nat with 0%nat by lia. done.
    - by replace ((m * step) `min` count)%nat with (m * step)%nat by lia. }
  rewrite Hpre. f_equal. unfold div_ceil. pose proof (Nat.div_mod_eq (count + step - 1) step).
  pose proof (Nat.mod_upper_bound (count + step - 1) step). nia.
Qed.

Lemma mapM_app {A B} (f : A -> option B) l k :
  mapM f (l ++ k) = xs ← mapM f l; ys ← mapM f k; Some (xs ++ ys).
Proof.
  induction l as [|x l IH]; simpl; [by destruct (mapM f k)|].
  destruct (f x); [|done]. simpl. rewrite IH. destruct (mapM f l); [|done]. simpl. by destruct (mapM f k).
Qed.

Lemma merge_parts `{Hacc : ScanAcc A step emp mrg} offsets data ranges xs :
  (parts ← mapM (scan_values step emp offsets data) ranges; Some (foldl mrg (foldl step emp xs) parts)) =
  (fun ys => foldl step emp (xs ++ ys)) <$>
    mapM (value_at offsets data) (ranges ≫= fun r => seq r.1 (r.2 - r.1)).
Proof.
  revert xs. induction ranges as [|r ranges IH]; intros xs; simpl; [by rewrite app_nil_r|].
  rewrite mapM_app, scan_values_fold. destruct (mapM (value_at offsets data) (seq _ _)) as [ys|]; [|done]. simpl.
  specialize (IH (xs ++ ys)). rewrite scan_merge in IH.
  destruct (mapM (scan_values step emp offsets data) ranges) as [parts|]; simpl in *; rewrite IH;
    destruct (mapM (value_at offsets data) _); simpl; by rewrite <-?app_assoc.
Qed.

(** Splitting a scan over threads is not observable. *)
Lemma scan_parts_whole `{Hacc : ScanAcc A step emp mrg} offsets data lo hi :
  scan_parts mrg emp (scan_values step emp offsets data) lo hi =
    scan_values step emp offsets data (lo, hi).
Proof.
  assert (Hparts : (parts ← mapM (scan_values step emp offsets data) (zone_scan_ranges lo hi);
      Some (foldl mrg emp parts)) = scan_values step emp offsets data (lo, hi)).
  { pose proof (merge_parts offsets data (zone_scan_ranges lo hi) []) as Hm. simpl in Hm.
    by rewrite Hm, zone_scan_ranges_cut, scan_values_fold. }
  unfold scan_parts. pose proof (zone_scan_ranges_cut lo hi) as Hcut.
  destruct (zone_scan_ranges lo hi) as [|r [|r' rs]]; [exact Hparts| |exact Hparts].
  simpl in Hcut. rewrite app_nil_r in Hcut. by rewrite !scan_values_fold, Hcut.
Qed.

(** The values of the rows [lo..hi]. *)
Definition values_in (offsets data : list Z) (lo hi : nat) : option (list (list Z)) :=
  mapM (value_at offsets data) (seq lo (hi - lo)).

Lemma string_zone_data_spec offsets data lo hi :
  string_zone_data offsets data lo hi =
    (fun values => (range_of (value_len <$> values), range_of (string_prefix_key <$> values)))
      <$> values_in offsets data lo hi.
Proof.
  unfold string_zone_data. rewrite scan_parts_whole, scan_values_fold. unfold values_in. simpl.
  destruct (mapM _ _) as [values|]; [|done]. simpl. f_equal. by rewrite foldl_pair, !foldl_range_key.
Qed.

Lemma string_tail_data_spec offsets data lo hi :
  string_tail_data offsets data lo hi =
    (fun values => range_of (string_tail_key <$> values)) <$> values_in offsets data lo hi.
Proof.
  unfold string_tail_data. rewrite scan_parts_whole, scan_values_fold. unfold values_in. simpl.
  destruct (mapM _ _) as [values|]; [|done]. simpl. f_equal. apply foldl_range_key.
Qed.

(** ** Keys keep the order *)

(** The big-endian value of the first [n] bytes, zero-padded. *)
Fixpoint be_padded (n : nat) (l : list Z) : Z :=
  match n, l with
  | S n, b :: l => b * 256 ^ Z.of_nat n + be_padded n l
  | _, _ => 0
  end.

Lemma be_padded_range n l : Forall is_byte l -> 0 <= be_padded n l < 256 ^ Z.of_nat n.
Proof.
  revert l. induction n as [|n IH]; intros l Hl; [done|]. assert (0 < 256 ^ Z.of_nat n) by (apply Z.pow_pos_nonneg; lia).
  rewrite Nat2Z.inj_succ, Z.pow_succ_r by lia.
  destruct Hl as [|b l Hb Hl]; simpl; [lia|]. specialize (IH l Hl). unfold is_byte in Hb. nia.
Qed.

Lemma be_padded_mono n a b :
  Forall is_byte a -> Forall is_byte b -> lex Z.compare a b <> Gt -> be_padded n a <= be_padded n b.
Proof.
  revert a b. induction n as [|n IH]; intros a b Ha Hb Hlex; [done|].
  destruct Ha as [|x a Hx Ha], Hb as [|y b Hy Hb].
  - done.
  - apply (be_padded_range (S n) (y :: b)). by constructor.
  - done.
  - simpl in *. pose proof (be_padded_range n a Ha). pose proof (be_padded_range n b Hb).
    destruct (Z.compare_spec x y) as [->|Hlt|Hgt].
    + specialize (IH a b Ha Hb Hlex). lia.
    + unfold is_byte in *. nia.
    + done.
Qed.

Lemma u_from_be_padded n l : (length l <= n)%nat ->
  forall acc, fold_left (fun acc b => acc * 256 + b) (l ++ replicate (n - length l) 0) acc =
    acc * 256 ^ Z.of_nat n + be_padded n l.
Proof.
  revert l. induction n as [|n IH]; intros l Hl acc.
  - destruct l; simpl in *; lia.
  - rewrite Nat2Z.inj_succ, Z.pow_succ_r by lia. destruct l as [|b l]; simpl in Hl |- *.
    + specialize (IH [] ltac:(simpl; lia) (acc * 256 + 0)). simpl in IH. rewrite Nat.sub_0_r in IH. rewrite IH.
      destruct n; simpl; ring.
    + rewrite IH by lia. ring.
Qed.

Lemma be_padded_take n l : be_padded n (take n l) = be_padded n l.
Proof. revert l. induction n as [|n IH]; intros [|b l]; simpl; [done..|]. by rewrite IH. Qed.

(** Flipping the sign bit of a [u64] and reading it as [i64] shifts it. *)
Lemma flip_sign w : 0 <= w < U64_MOD -> bits_i64 (Z.lxor w F64_SIGN) = w - F64_SIGN.
Proof.
  unfold U64_MOD. intros Hw.
  assert (Hsmall : forall v, 0 <= v < F64_SIGN -> Z.lxor v F64_SIGN = v + F64_SIGN).
  { intros v Hv. symmetry. apply Z.add_nocarry_lxor. apply Z.bits_inj'. intros n Hn.
    rewrite Z.land_spec, Z.bits_0. change F64_SIGN with (2 ^ 63). rewrite Z.pow2_bits_eqb by lia.
    destruct (Z.eqb_spec 63 n) as [<-|]; [|apply andb_false_r]. rewrite andb_true_r.
    destruct (Z.eq_dec v 0) as [->|Hv0]; [apply Z.bits_0|]. apply Z.bits_above_log2; [lia|].
    apply Z.log2_lt_pow2; [lia|]. change (2 ^ 63) with F64_SIGN. lia. }
  destruct (Z.lt_ge_cases w F64_SIGN) as [Hlt|Hge].
  - rewrite Hsmall by lia. unfold bits_i64, U64_MOD. rewrite (proj2 (Z.ltb_ge _ _)) by lia. unfold F64_SIGN. lia.
  - assert (Hx : Z.lxor w F64_SIGN = w - F64_SIGN).
    { replace w with (w - F64_SIGN + F64_SIGN) at 1 by lia. rewrite <-Hsmall by (unfold F64_SIGN in *; lia).
      by rewrite Z.lxor_assoc, Z.lxor_nilpotent, Z.lxor_0_r. }
    rewrite Hx. unfold bits_i64. rewrite (proj2 (Z.ltb_lt _ _)); [done|unfold F64_SIGN in *; lia].
Qed.

Lemma string_byte_key_spec value offset :
  Forall is_byte value -> string_byte_key value offset = be_padded 8 (drop offset value) - F64_SIGN.
Proof.
  intros Hb. unfold string_byte_key, u_from_be.
  assert (Hd : Forall is_byte (drop offset value)) by by apply Forall_drop.
  rewrite (u_from_be_padded 8 (take 8 (drop offset value))) by apply firstn_le_length. rewrite Z.mul_0_l, Z.add_0_l, be_padded_take.
  apply flip_sign. pose proof (be_padded_range 8 _ Hd). done.
Qed.

(** The prefix key never inverts the byte order. *)
Lemma prefix_key_mono a b :
  Forall is_byte a -> Forall is_byte b -> lex Z.compare a b <> Gt -> string_prefix_key a <= string_prefix_key b.
Proof.
  intros Ha Hb Hlex. unfold string_prefix_key. rewrite !string_byte_key_spec by done.
  pose proof (be_padded_mono 8 a b Ha Hb Hlex). by rewrite !drop_0; lia.
Qed.
