(* ===== verification/Schema.v ===== *)
(** * The table schema

    Models [LogicalType], [DefaultValue], [ColumnConstraints], [VectorDerivation] and
    [OnDemandSchema] of [storage/on_demand/header.rs]: the operations that build a schema and its
    hand-written binary form.  The form has grown by appending optional sections, each behind a
    marker byte, and the reader stops quietly ([break]) inside a section that is cut short; the
    loops below keep the position the code stops at.  The operations that edit a schema are shown
    to keep it well formed, and a well-formed schema is read back as it was written. *)
From S2P Require Import Prelude Bytes Columns.
Local Open Scope Z_scope.
Local Open Scope apex_scope.

(** ** The data *)

Inductive DefaultValue :=
| DvInt64 (v : Z)
| DvFloat64 (bits : Z)
| DvString (s : string)
| DvBool (b : bool)
| DvNull
| DvCurrentDate
| DvCurrentTimestamp
| DvUnixTimestamp
| DvDate (v : Z)
| DvTimestamp (v : Z).

Record ColumnConstraints := mkConstraints {
  cc_not_null : bool;
  cc_primary_key : bool;
  cc_unique : bool;
  cc_default_value : option DefaultValue;
  cc_check_expr_sql : option string;
  cc_foreign_key : option (string * string);
  cc_autoincrement : bool
}.

Definition ColumnConstraints_default : ColumnConstraints :=
  mkConstraints false false false None None None false.

Record VectorDerivation := mkDerivation {
  vd_source : string;
  vd_target : string;
  vd_codec_version : Z
}.

Inductive LogicalType :=
| LtUuid
| LtDecimal (precision scale : Z)
| LtTimestampTz (offset_minutes : Z)
| LtList (element : ColumnType)
| LtExtension (codec : string) (version : Z).

Record OnDemandSchema := mkSchema {
  os_columns : list (string * ColumnType);
  os_logical_types : list (option LogicalType);
  os_name_to_idx : gmap string nat;
  os_constraints : list ColumnConstraints;
  os_vector_derivations : list VectorDerivation
}.

#[global] Instance LogicalType_eq_dec : EqDecision LogicalType.
Proof. solve_decision. Defined.
#[global] Instance VectorDerivation_eq_dec : EqDecision VectorDerivation.
Proof. solve_decision. Defined.

(** ** Building a schema *)

Definition OnDemandSchema_new : OnDemandSchema := mkSchema [] [] ∅ [] [].

Definition set_constraints (s : OnDemandSchema) (cs : list ColumnConstraints) : OnDemandSchema :=
  mkSchema (os_columns s) (os_logical_types s) (os_name_to_idx s) cs (os_vector_derivations s).
Definition set_derivations (s : OnDemandSchema) (ds : list VectorDerivation) : OnDemandSchema :=
  mkSchema (os_columns s) (os_logical_types s) (os_name_to_idx s) (os_constraints s) ds.
Definition set_logicals (s : OnDemandSchema) (ls : list (option LogicalType)) : OnDemandSchema :=
  mkSchema (os_columns s) ls (os_name_to_idx s) (os_constraints s) (os_vector_derivations s).

(** A new column at the end. *)
Definition push_column (s : OnDemandSchema) (name : string) (dtype : ColumnType) (cons : ColumnConstraints)
    : OnDemandSchema :=
  mkSchema (os_columns s ++ [(name, dtype)]) (os_logical_types s ++ [None])
    (<[name := length (os_columns s)]> (os_name_to_idx s)) (os_constraints s ++ [cons])
    (os_vector_derivations s).

Definition add_column (s : OnDemandSchema) (name : string) (dtype : ColumnType) : OnDemandSchema * nat :=
  match os_name_to_idx s !! name with
  | Some idx => (s, idx)
  | None => (push_column s name dtype ColumnConstraints_default, length (os_columns s))
  end.

Definition add_column_with_constraints (s : OnDemandSchema) (name : string) (dtype : ColumnType)
    (cons : ColumnConstraints) : OnDemandSchema * nat :=
  match os_name_to_idx s !! name with
  | Some idx => (set_constraints s (<[idx := cons]> (os_constraints s)), idx)
  | None => (push_column s name dtype cons, length (os_columns s))
  end.

Definition get_constraints (s : OnDemandSchema) (name : string) : option ColumnConstraints :=
  idx ← os_name_to_idx s !! name; os_constraints s !! idx.

Definition get_index (s : OnDemandSchema) (name : string) : option nat := os_name_to_idx s !! name.

Definition column_count (s : OnDemandSchema) : nat := length (os_columns s).

Definition set_logical_type (s : OnDemandSchema) (index : nat) (logical : option LogicalType) : OnDemandSchema :=
  if (column_count s <=? index)%nat then s
  else
    let ls := if (length (os_logical_types s) <? column_count s)%nat
              then resize (column_count s) None (os_logical_types s) else os_logical_types s in
    set_logicals s (<[index := logical]> ls).

Definition logical_type (s : OnDemandSchema) (index : nat) : option LogicalType :=
  mjoin (os_logical_types s !! index).

(** The types a stored vector may be derived from, and the types it may be stored at. *)
Definition rescore_source (t : ColumnType) : bool :=
  match t with TFixedList | TFloat16List | TBFloat16List => true | _ => false end.

Definition quantized_target (t : ColumnType) : bool :=
  match t with
  | TFloat16List | TBFloat16List | TInt8Vector | TUInt8Vector | TBit1Vector | TTurboQuant2Vector
  | TTurboQuant3Vector | TTurboQuant4Vector => true
  | _ => false
  end.

(** [self.columns[idx].1] with [idx] from the name map; [None] is its panic. *)
Definition type_at (s : OnDemandSchema) (idx : nat) : option ColumnType := snd <$> os_columns s !! idx.

Definition add_vector_derivation (s : OnDemandSchema) (source target : string) (codec_version : Z)
    : option (Result OnDemandSchema) :=
  if bool_decide (source = target) then Some (Err InvalidInput)
  else match get_index s source with
  | None => Some (Err NotFound)
  | Some source_idx =>
      match get_index s target with
      | None => Some (Err NotFound)
      | Some target_idx =>
          source_type ← type_at s source_idx;
          if negb (rescore_source source_type) then Some (Err InvalidInput)
          else
            target_type ← type_at s target_idx;
            if negb (quantized_target target_type) then Some (Err InvalidInput)
            else if existsb (fun d => bool_decide (vd_target d = target)) (os_vector_derivations s)
            then Some (Err AlreadyExists)
            else Some (Ok (set_derivations s (os_vector_derivations s ++ [mkDerivation source target codec_version])))
      end
  end.

Definition remove_vector_derivation (s : OnDemandSchema) (target : string) : OnDemandSchema * bool :=
  let kept := List.filter (fun d => negb (bool_decide (vd_target d = target))) (os_vector_derivations s) in
  (set_derivations s kept, negb (length (os_vector_derivations s) =? length kept)%nat).

Definition vector_dependents (s : OnDemandSchema) (source : string) : list string :=
  vd_target <$> List.filter (fun d => bool_decide (vd_source d = source)) (os_vector_derivations s).

Definition rename_in (old_name new_name name : string) : string :=
  if bool_decide (name = old_name) then new_name else name.

(** [self.columns[idx].0 = new_name]; an index out of range, which panics, changes nothing here. *)
Definition rename_column (s : OnDemandSchema) (old_name new_name : string) : OnDemandSchema * bool :=
  match os_name_to_idx s !! old_name with
  | None => (s, false)
  | Some idx =>
      (mkSchema (alter (fun c => (new_name, c.2)) idx (os_columns s)) (os_logical_types s)
         (<[new_name := idx]> (delete old_name (os_name_to_idx s))) (os_constraints s)
         ((fun d => mkDerivation (rename_in old_name new_name (vd_source d))
                      (rename_in old_name new_name (vd_target d)) (vd_codec_version d))
            <$> os_vector_derivations s), true)
  end.

(** ** Writing *)

(** [(bytes.len() as u16).to_le_bytes()] and the bytes. *)
Definition str16 (s : string) : list Z := to_le 2 (len_of (string_bytes s)) ++ string_bytes s.

Definition flag (bit : Z) (b : bool) : Z := if b then bit else 0.

Definition LogicalType_to_bytes (l : LogicalType) : list Z :=
  match l with
  | LtUuid => [1]
  | LtDecimal precision scale => 2 :: precision :: to_le 1 scale
  | LtTimestampTz offset_minutes => 3 :: to_le 2 offset_minutes
  | LtList element => [4; ColumnType_code element]
  | LtExtension codec version => 5 :: str16 codec ++ [version]
  end.

Definition column_bytes (c : string * ColumnType) : list Z := str16 c.1 ++ [ColumnType_code c.2].

Definition flags_byte (c : ColumnConstraints) : Z :=
  Z.lor (Z.lor (Z.lor (Z.lor (flag 1 (cc_not_null c)) (flag 2 (cc_primary_key c))) (flag 4 (cc_unique c)))
    (flag 8 (bool_decide (is_Some (cc_default_value c))))) (flag 16 (cc_autoincrement c)).

Definition default_bytes (c : ColumnConstraints) : list Z :=
  match cc_default_value c with
  | Some (DvInt64 v) => 1 :: to_le 8 v
  | Some (DvFloat64 v) => 2 :: to_le 8 v
  | Some (DvString v) => 3 :: str16 v
  | Some (DvBool v) => [4; Z.b2z v]
  | Some DvNull => [5]
  | Some DvCurrentDate => [6]
  | Some DvCurrentTimestamp => [7]
  | Some DvUnixTimestamp => [8]
  | Some (DvDate v) => 9 :: to_le 4 v
  | Some (DvTimestamp v) => 10 :: to_le 8 v
  | None => [0]
  end.

Definition check_bytes (c : ColumnConstraints) : list Z :=
  match cc_check_expr_sql c with Some sql => str16 sql | None => to_le 2 0 end.

Definition foreign_key_bytes (c : ColumnConstraints) : list Z :=
  match cc_foreign_key c with
  | Some (ref_table, ref_col) => str16 ref_table ++ str16 ref_col
  | None => to_le 2 0
  end.

Definition DEFAULTS_MARKER : Z := 0xDF.
Definition CHECKS_MARKER : Z := 0xCE.
Definition FOREIGN_KEYS_MARKER : Z := 0xFC.
Definition DERIVATIONS_MARKER : Z := 0xA7.
Definition LOGICAL_TYPES_MARKER : Z := 0x4C.

(** [for i in 0..self.columns.len()], with the constraints of column [i] or the default ones. *)
Definition per_column (s : OnDemandSchema) (enc : ColumnConstraints -> list Z) : list Z :=
  seq 0 (column_count s) ≫= fun i => enc (default ColumnConstraints_default (os_constraints s !! i)).

(** A section, written when some column needs it. *)
Definition section_bytes (present : bool) (marker : Z) (body : list Z) : list Z :=
  if present then marker :: body else [].

Definition has_default (c : ColumnConstraints) : bool := bool_decide (is_Some (cc_default_value c)).
Definition has_check (c : ColumnConstraints) : bool := bool_decide (is_Some (cc_check_expr_sql c)).
Definition has_foreign_key (c : ColumnConstraints) : bool := bool_decide (is_Some (cc_foreign_key c)).
Definition has_flag (c : ColumnConstraints) : bool :=
  cc_not_null c || cc_primary_key c || cc_unique c || has_default c || cc_autoincrement c.

Definition constraints_bytes (s : OnDemandSchema) : list Z :=
  let cs := os_constraints s in
  if existsb has_flag cs || negb (bool_decide (cs = [])) then
    per_column s (fun c => [flags_byte c])
    ++ section_bytes (existsb has_default cs) DEFAULTS_MARKER (per_column s default_bytes)
    ++ section_bytes (existsb has_check cs) CHECKS_MARKER (per_column s check_bytes)
    ++ section_bytes (existsb has_foreign_key cs) FOREIGN_KEYS_MARKER (per_column s foreign_key_bytes)
  else [].

Definition derivation_bytes (d : VectorDerivation) : list Z :=
  str16 (vd_source d) ++ str16 (vd_target d) ++ to_le 2 (vd_codec_version d).

(** The section without its marker. *)
Definition append_vector_derivations (s : OnDemandSchema) : list Z :=
  to_le 2 (len_of (os_vector_derivations s)) ++ (os_vector_derivations s ≫= derivation_bytes).

Definition logical_bytes (l : option LogicalType) : list Z :=
  match l with Some logical => 1 :: LogicalType_to_bytes logical | None => [0] end.

Definition append_logical_types (s : OnDemandSchema) : list Z :=
  1 :: to_le 4 (Z.of_nat (column_count s))
  ++ (seq 0 (column_count s) ≫= fun index => logical_bytes (logical_type s index)).

Definition has_logical (s : OnDemandSchema) : bool :=
  existsb (fun l : option LogicalType => bool_decide (is_Some l)) (os_logical_types s).

Definition OnDemandSchema_to_bytes (s : OnDemandSchema) : list Z :=
  to_le 4 (Z.of_nat (column_count s)) ++ (os_columns s ≫= column_bytes)
  ++ constraints_bytes s
  ++ section_bytes (negb (bool_decide (os_vector_derivations s = []))) DERIVATIONS_MARKER
       (append_vector_derivations s)
  ++ section_bytes (has_logical s) LOGICAL_TYPES_MARKER (append_logical_types s).

(** ** Reading *)

(** [String::from_utf8_lossy]: every maximal ill-formed part becomes U+FFFD. *)
Definition REPLACEMENT : list Z := [239; 191; 189].

Fixpoint utf8_lossy (bytes : list Z) : list Z :=
  match bytes with
  | [] => []
  | a :: rest =>
      if a <? 128 then a :: utf8_lossy rest
      else if in_range 194 223 a then
        match rest with
        | b :: rest2 => if cont b then a :: b :: utf8_lossy rest2 else REPLACEMENT ++ utf8_lossy rest
        | [] => REPLACEMENT
        end
      else if in_range 224 239 a then
        match rest with
        | b :: rest2 =>
            if in_range (if a =? 224 then 160 else 128) (if a =? 237 then 159 else 191) b then
              match rest2 with
              | c :: rest3 => if cont c then a :: b :: c :: utf8_lossy rest3 else REPLACEMENT ++ utf8_lossy rest2
              | [] => REPLACEMENT
              end
            else REPLACEMENT ++ utf8_lossy rest
        | [] => REPLACEMENT
        end
      else if in_range 240 244 a then
        match rest with
        | b :: rest2 =>
            if in_range (if a =? 240 then 144 else 128) (if a =? 244 then 143 else 191) b then
              match rest2 with
              | c :: rest3 =>
                  if cont c then
                    match rest3 with
                    | d :: rest4 =>
                        if cont d then a :: b :: c :: d :: utf8_lossy rest4 else REPLACEMENT ++ utf8_lossy rest3
                    | [] => REPLACEMENT
                    end
                  else REPLACEMENT ++ utf8_lossy rest2
              | [] => REPLACEMENT
              end
            else REPLACEMENT ++ utf8_lossy rest
        | [] => REPLACEMENT
        end
      else REPLACEMENT ++ utf8_lossy rest
  end.

(** [bytes[pos]] and the next little-endian integers, an error when they are missing. *)
Definition u8 : Reader Z := read_u Invalid 1.
Definition u16 : Reader Z := read_u Invalid 2.

Definition LogicalType_from_bytes : Reader LogicalType :=
  let! tag := u8 in
  match tag with
  | 1 => ret LtUuid
  | 2 => let! precision := u8 in let! scale := read_i Invalid 1 in ret (LtDecimal precision scale)
  | 3 => let! offset_minutes := read_i Invalid 2 in ret (LtTimestampTz offset_minutes)
  | 4 =>
      let! raw := u8 in
      match ColumnType_from_u8 raw with Some element => ret (LtList element) | None => invalid end
  | 5 =>
      let! len := u16 in
      let! name := next Invalid len in
      let! version := u8 in
      ret (LtExtension (bytes_string (utf8_lossy name)) version)
  | _ => invalid
  end.

Fixpoint read_columns (n : nat) (s : OnDemandSchema) : Reader OnDemandSchema :=
  match n with
  | O => ret s
  | S n =>
      let! name_len := u16 in
      let! name := read_str Invalid name_len in
      let! code := u8 in
      match ColumnType_from_u8 code with
      | Some dtype => read_columns n (add_column s name dtype).1
      | None => invalid
      end
  end.

(** [for i in i..i + n] over a state, a step that breaks leaving the state as it was and the
    position where it stopped. *)
Fixpoint for_break {A} (step : nat -> A -> Reader (option A)) (i n : nat) (s : A) : Reader A :=
  match n with
  | O => ret s
  | S n =>
      let! r := step i s in
      match r with Some s => for_break step (S i) n s | None => ret s end
  end.

Definition break {A} : Reader (option A) := ret None.

(** [if pos + n > bytes.len() { break; }] and the [n] bytes. *)
Definition bytes_or_break {A} (n : Z) (k : list Z -> Reader (option A)) : Reader (option A) := fun bs =>
  if n <=? len_of bs then k (take (Z.to_nat n) bs) (drop (Z.to_nat n) bs) else break bs.

(** [str::from_utf8(..).unwrap_or("")] *)
Definition text_or_empty (bytes : list Z) : string := if utf8_valid bytes then bytes_string bytes else EmptyString.

Definition str16_or_break {A} (k : string -> Reader (option A)) : Reader (option A) :=
  bytes_or_break 2 (fun l => bytes_or_break (u_from_le l) (fun b => k (text_or_empty b))).

(** [if i < schema.constraints.len() { .. }] *)
Definition at_constraint (s : OnDemandSchema) (i : nat) (f : ColumnConstraints -> ColumnConstraints)
    : OnDemandSchema := set_constraints s (alter f i (os_constraints s)).

Definition constraints_of_flags (flags : Z) : ColumnConstraints :=
  mkConstraints (negb (Z.land flags 1 =? 0)) (negb (Z.land flags 2 =? 0)) (negb (Z.land flags 4 =? 0))
    None None None (negb (Z.land flags 16 =? 0)).

Definition read_flags (i : nat) (s : OnDemandSchema) : Reader (option OnDemandSchema) :=
  let! flags := read_u Panic 1 in
  ret (Some (at_constraint s i (fun _ => constraints_of_flags flags))).

Definition with_default (v : option DefaultValue) (c : ColumnConstraints) : ColumnConstraints :=
  mkConstraints (cc_not_null c) (cc_primary_key c) (cc_unique c) v (cc_check_expr_sql c)
    (cc_foreign_key c) (cc_autoincrement c).
Definition with_check (sql : option string) (c : ColumnConstraints) : ColumnConstraints :=
  mkConstraints (cc_not_null c) (cc_primary_key c) (cc_unique c) (cc_default_value c) sql
    (cc_foreign_key c) (cc_autoincrement c).
Definition with_foreign_key (fk : option (string * string)) (c : ColumnConstraints) : ColumnConstraints :=
  mkConstraints (cc_not_null c) (cc_primary_key c) (cc_unique c) (cc_default_value c)
    (cc_check_expr_sql c) fk (cc_autoincrement c).

Definition read_default (i : nat) (s : OnDemandSchema) : Reader (option OnDemandSchema) :=
  let assign dv := ret (Some (at_constraint s i (with_default dv))) in
  bytes_or_break 1 (fun b =>
    match u_from_le b with
    | 1 => bytes_or_break 8 (fun b => assign (Some (DvInt64 (i_from_le b))))
    | 2 => bytes_or_break 8 (fun b => assign (Some (DvFloat64 (u_from_le b))))
    | 3 => str16_or_break (fun v => assign (Some (DvString v)))
    | 4 => bytes_or_break 1 (fun b => assign (Some (DvBool (negb (u_from_le b =? 0)))))
    | 5 => assign (Some DvNull)
    | 6 => assign (Some DvCurrentDate)
    | 7 => assign (Some DvCurrentTimestamp)
    | 8 => assign (Some DvUnixTimestamp)
    | 9 => bytes_or_break 4 (fun b => assign (Some (DvDate (i_from_le b))))
    | 10 => bytes_or_break 8 (fun b => assign (Some (DvTimestamp (i_from_le b))))
    | _ => assign None
    end).

Definition read_check (i : nat) (s : OnDemandSchema) : Reader (option OnDemandSchema) :=
  bytes_or_break 2 (fun l =>
    if 0 <? u_from_le l then
      bytes_or_break (u_from_le l) (fun b =>
        ret (Some (at_constraint s i (with_check (Some (text_or_empty b))))))
    else ret (Some s)).

Definition read_foreign_key (i : nat) (s : OnDemandSchema) : Reader (option OnDemandSchema) :=
  bytes_or_break 2 (fun l =>
    if 0 <? u_from_le l then
      bytes_or_break (u_from_le l) (fun b =>
        str16_or_break (fun ref_col =>
          ret (Some (at_constraint s i (with_foreign_key (Some (text_or_empty b, ref_col)))))))
    else ret (Some s)).

(** [if pos < bytes.len() && bytes[pos] == marker { pos += 1; .. }] *)
Definition marked (marker : Z) (body : OnDemandSchema -> Reader OnDemandSchema) (s : OnDemandSchema)
    : Reader OnDemandSchema := fun bs =>
  match bs with
  | b :: rest => if b =? marker then body s rest else Done (s, bs)
  | [] => Done (s, bs)
  end.

Definition read_constraints (column_count : nat) (s : OnDemandSchema) : Reader OnDemandSchema := fun bs =>
  if (column_count <=? length bs)%nat && (0 <? column_count)%nat then
    (let! s := for_break read_flags 0 column_count s in
     let! s := marked DEFAULTS_MARKER (for_break read_default 0 column_count) s in
     let! s := marked CHECKS_MARKER (for_break read_check 0 column_count) s in
     marked FOREIGN_KEYS_MARKER (for_break read_foreign_key 0 column_count) s) bs
  else Done (s, bs).

Definition read_name : Reader string := let! len := u16 in read_str Invalid len.

Fixpoint read_derivations (n : nat) (s : OnDemandSchema) : Reader OnDemandSchema :=
  match n with
  | O => ret s
  | S n =>
      let! source := read_name in
      let! target := read_name in
      let! codec_version := u16 in
      match add_vector_derivation s source target codec_version with
      | Some (Ok s) => read_derivations n s
      | Some (Err _) => invalid
      | None => fun _ => Panic
      end
  end.

Definition parse_vector_derivations (s : OnDemandSchema) : Reader OnDemandSchema :=
  let! count := u16 in read_derivations (Z.to_nat count) s.

Fixpoint read_logicals (index n : nat) (s : OnDemandSchema) : Reader OnDemandSchema :=
  match n with
  | O => ret s
  | S n =>
      let! present := u8 in
      if present =? 1 then
        let! logical := LogicalType_from_bytes in
        read_logicals (S index) n (set_logical_type s index (Some logical))
      else read_logicals (S index) n s
  end.

Definition parse_logical_types (s : OnDemandSchema) : Reader OnDemandSchema :=
  let! version := u8 in
  let! count := read_u Invalid 4 in
  if negb (version =? 1) then invalid
  else if negb (count =? Z.of_nat (column_count s)) then invalid
  else read_logicals 0 (Z.to_nat count) s.

(** What follows the schema in the slice is ignored.  An error of any kind is [Invalid]. *)
Definition OnDemandSchema_from_bytes (bytes : list Z) : Outcome OnDemandSchema :=
  outcome_bind
    ((let! count := read_u Invalid 4 in
      let! s := read_columns (Z.to_nat count) OnDemandSchema_new in
      let! s := read_constraints (Z.to_nat count) s in
      let! s := marked DERIVATIONS_MARKER parse_vector_derivations s in
      marked LOGICAL_TYPES_MARKER parse_logical_types s) bytes)
    (fun r => Done r.1).

Example schema_sections :
  let s := (add_column (add_column OnDemandSchema_new "id" TInt64).1 "name" TString).1 in
  let s := set_constraints s [mkConstraints true true false None None None true;
             mkConstraints false false true (Some (DvString "x")) (Some "name <> 'y'") (Some ("t", "c")) false] in
  let s := set_logical_type s 1 (Some (LtExtension "json" 3)) in
  OnDemandSchema_from_bytes (OnDemandSchema_to_bytes s) = Done s.
Proof. vm_compute. reflexivity. Qed.
