(* ===== verification/SchemaFacts.v ===== *)
(** * Well-formed schemas

    The operations of [Schema.v] keep the name map, the aligned vectors and the registered vector
    derivations in step; [schema_wf] is that invariant and [encodable] says that the names, the
    constraint texts and the parameters fit the widths of the binary form.  A schema built by the
    operations is read back from its own bytes.  Renaming a column to a name another column already
    has is the operation that breaks the invariant, and the file is then refused. *)
From S2P Require Import Prelude Bytes Columns Schema.
Local Open Scope Z_scope.
Local Open Scope apex_scope.

(** ** The invariant *)

Definition column_name (s : OnDemandSchema) (i : nat) : option string := fst <$> os_columns s !! i.

Definition named_type (s : OnDemandSchema) (name : string) : option ColumnType :=
  i ← get_index s name; type_at s i.

Definition derivation_ok (s : OnDemandSchema) (d : VectorDerivation) : Prop :=
  vd_source d <> vd_target d /\
  (exists t, named_type s (vd_source d) = Some t /\ rescore_source t = true) /\
  (exists t, named_type s (vd_target d) = Some t /\ quantized_target t = true).

Record schema_wf (s : OnDemandSchema) : Prop := {
  sw_index : forall name i, os_name_to_idx s !! name = Some i <-> column_name s i = Some name;
  sw_logicals : length (os_logical_types s) = column_count s;
  sw_constraints : length (os_constraints s) = column_count s;
  sw_derivations : Forall (derivation_ok s) (os_vector_derivations s);
  sw_targets : NoDup (vd_target <$> os_vector_derivations s)
}.

(** ** What the binary form can hold *)

Definition short_text (s : string) : Prop := valid_str s /\ unsigned 2 (len_of (string_bytes s)).

Definition nonempty_text (s : string) : Prop := short_text s /\ s <> EmptyString.

Definition default_ok (v : DefaultValue) : Prop :=
  match v with
  | DvInt64 v | DvTimestamp v => signed 8 v
  | DvFloat64 bits => unsigned 8 bits
  | DvString s => short_text s
  | DvDate v => signed 4 v
  | _ => True
  end.

Definition constraints_ok (c : ColumnConstraints) : Prop :=
  (forall v, cc_default_value c = Some v -> default_ok v) /\
  (forall sql, cc_check_expr_sql c = Some sql -> nonempty_text sql) /\
  (forall t col, cc_foreign_key c = Some (t, col) -> nonempty_text t /\ short_text col).

Definition logical_ok (l : LogicalType) : Prop :=
  match l with
  | LtDecimal precision scale => unsigned 1 precision /\ signed 1 scale
  | LtTimestampTz offset_minutes => signed 2 offset_minutes
  | LtExtension codec version => short_text codec /\ unsigned 1 version
  | _ => True
  end.

Record encodable (s : OnDemandSchema) : Prop := {
  en_names : Forall (fun c => short_text c.1) (os_columns s);
  en_constraints : Forall constraints_ok (os_constraints s);
  en_logicals : Forall (fun l => forall t, l = Some t -> logical_ok t) (os_logical_types s);
  en_versions : Forall (fun d => unsigned 2 (vd_codec_version d)) (os_vector_derivations s)
}.

(** ** The operations as one step *)

Inductive SchemaOp :=
| SoAdd (name : string) (dtype : ColumnType)
| SoAddWith (name : string) (dtype : ColumnType) (cc : ColumnConstraints)
| SoSetLogical (index : nat) (logical : option LogicalType)
| SoDerive (source target : string) (codec_version : Z)
| SoUnderive (target : string)
| SoRename (old_name new_name : string).

(** A refused registration leaves the schema as it was. *)
Definition schema_apply (s : OnDemandSchema) (op : SchemaOp) : OnDemandSchema :=
  match op with
  | SoAdd name dtype => (add_column s name dtype).1
  | SoAddWith name dtype cc => (add_column_with_constraints s name dtype cc).1
  | SoSetLogical index logical => set_logical_type s index logical
  | SoDerive source target v =>
      match add_vector_derivation s source target v with Some (Ok s') => s' | _ => s end
  | SoUnderive target => (remove_vector_derivation s target).1
  | SoRename old_name new_name => (rename_column s old_name new_name).1
  end.

(** The arguments fit the binary form, and a column is not renamed to another column's name. *)
Definition op_ok (s : OnDemandSchema) (op : SchemaOp) : Prop :=
  match op with
  | SoAdd name _ => short_text name
  | SoAddWith name _ cc => short_text name /\ constraints_ok cc
  | SoSetLogical _ logical => forall t, logical = Some t -> logical_ok t
  | SoDerive _ _ v => unsigned 2 v
  | SoUnderive _ => True
  | SoRename old_name new_name =>
      short_text new_name /\ (get_index s new_name = None \/ new_name = old_name)
  end.

Fixpoint ops_ok (s : OnDemandSchema) (ops : list SchemaOp) : Prop :=
  match ops with [] => True | op :: ops => op_ok s op /\ ops_ok (schema_apply s op) ops end.

Definition schema_run (s : OnDemandSchema) (ops : list SchemaOp) : OnDemandSchema := foldl schema_apply s ops.

(** ** Lemmas on the operations *)

Lemma column_name_lt s i name : column_name s i = Some name -> (i < column_count s)%nat.
Proof. unfold column_name. intros (c & Hc & _)%fmap_Some. by eapply lookup_lt_Some. Qed.

Lemma type_at_some s i : (i < column_count s)%nat -> is_Some (type_at s i).
Proof. intros Hi. unfold type_at. by apply fmap_is_Some, lookup_lt_is_Some. Qed.

Lemma get_index_type s name i : schema_wf s -> get_index s name = Some i -> is_Some (type_at s i).
Proof. intros Hs Hi. apply type_at_some. eapply column_name_lt. by apply (sw_index _ Hs). Qed.

Lemma derivation_ok_mono s s' d :
  (forall name t, named_type s name = Some t -> named_type s' name = Some t) ->
  derivation_ok s d -> derivation_ok s' d.
Proof. intros Hm (Hne & (t & Ht & Hr) & (u & Hu & Hq)). split; [done|]. split; eauto. Qed.

Lemma schema_new_wf : schema_wf OnDemandSchema_new.
Proof.
  split; [|done..|constructor|constructor]. intros name i. unfold column_name. simpl.
  rewrite lookup_empty. by split.
Qed.

Section push_column.
Context (s : OnDemandSchema) (name : string) (dtype : ColumnType) (cc : ColumnConstraints).
Context (Hs : schema_wf s) (Hnew : os_name_to_idx s !! name = None).

Lemma push_named_type n t : named_type s n = Some t -> named_type (push_column s name dtype cc) n = Some t.
Proof.
  unfold named_type. intros (i & Hi & Ht)%bind_Some. unfold get_index in *. simpl.
  rewrite lookup_insert_ne by congruence. rewrite Hi. simpl. unfold type_at in *. simpl.
  by rewrite lookup_app_l by (eapply column_name_lt, (sw_index _ Hs); done).
Qed.

Lemma push_column_wf : schema_wf (push_column s name dtype cc).
Proof using Hs Hnew.
  split; simpl.
  - intros n i. unfold column_name. simpl. destruct (decide (n = name)) as [->|Hne].
    + rewrite lookup_insert_eq. split.
      * intros [= <-]. by rewrite list_lookup_middle.
      * intros Hi. f_equal. destruct (decide (i < length (os_columns s))%nat) as [Hlt|Hge].
        { rewrite lookup_app_l in Hi by done. apply (sw_index _ Hs) in Hi. congruence. }
        rewrite lookup_app_r in Hi by lia. destruct (i - length (os_columns s))%nat eqn:E; [lia|done].
    + rewrite lookup_insert_ne by done. rewrite (sw_index _ Hs n i). unfold column_name.
      destruct (decide (i < length (os_columns s))%nat) as [Hlt|Hge]; [by rewrite lookup_app_l|].
      rewrite lookup_app_r by lia. rewrite lookup_ge_None_2 by lia.
      destruct (i - length (os_columns s))%nat eqn:E; simpl; split; intros H; simplify_eq.
  - rewrite length_app, (sw_logicals _ Hs). unfold column_count. simpl. by rewrite length_app.
  - rewrite length_app, (sw_constraints _ Hs). unfold column_count. simpl. by rewrite length_app.
  - eapply Forall_impl; [apply (sw_derivations _ Hs)|]. intros d. apply derivation_ok_mono, push_named_type.
  - apply (sw_targets _ Hs).
Qed.

End push_column.

(** Replacing the aligned vectors keeps the names. *)
Lemma set_constraints_wf s cs : schema_wf s -> length cs = column_count s -> schema_wf (set_constraints s cs).
Proof. intros [] Hl. by split. Qed.

Lemma set_logicals_wf s ls : schema_wf s -> length ls = column_count s -> schema_wf (set_logicals s ls).
Proof. intros [] Hl. by split. Qed.

Lemma set_logical_type_in s i l : schema_wf s ->
  set_logical_type s i l =
  if (column_count s <=? i)%nat then s else set_logicals s (<[i := l]> (os_logical_types s)).
Proof.
  intros Hs. unfold set_logical_type. rewrite (sw_logicals _ Hs), Nat.ltb_irrefl. done.
Qed.

Lemma existsb_target ds target :
  existsb (fun d => bool_decide (vd_target d = target)) ds = false <-> target ∉ (vd_target <$> ds).
Proof.
  rewrite list_elem_of_fmap. split.
  - intros H (d & -> & Hd). rewrite <-not_true_iff_false in H. apply H, existsb_exists.
    exists d. rewrite bool_decide_eq_true. split; [by apply list_elem_of_In|done].
  - intros H. apply not_true_iff_false. intros (d & Hd & Ht%bool_decide_eq_true)%existsb_exists.
    apply H. exists d. by rewrite list_elem_of_In.
Qed.

(** Registering succeeds exactly on a good derivation to a new target. *)
Lemma add_vector_derivation_ok s src tgt v :
  schema_wf s -> derivation_ok s (mkDerivation src tgt v) ->
  tgt ∉ (vd_target <$> os_vector_derivations s) ->
  add_vector_derivation s src tgt v =
  Some (Ok (set_derivations s (os_vector_derivations s ++ [mkDerivation src tgt v]))).
Proof.
  intros Hs (Hne & (t & Ht & Hr) & (u & Hu & Hq)) Hnew. unfold add_vector_derivation. simpl in *.
  apply bind_Some in Ht as (i & Hi & Ht). apply bind_Some in Hu as (j & Hj & Hu).
  rewrite bool_decide_eq_false_2 by done. rewrite Hi, Hj. simpl. rewrite Ht. simpl. rewrite Hr. simpl.
  rewrite Hu. simpl. rewrite Hq. simpl. apply existsb_target in Hnew. by rewrite Hnew.
Qed.

Lemma add_vector_derivation_inv s src tgt v s' :
  add_vector_derivation s src tgt v = Some (Ok s') ->
  s' = set_derivations s (os_vector_derivations s ++ [mkDerivation src tgt v]) /\
  derivation_ok s (mkDerivation src tgt v) /\ tgt ∉ (vd_target <$> os_vector_derivations s).
Proof.
  unfold add_vector_derivation. case_bool_decide as Hne; [done|].
  destruct (get_index s src) as [i|] eqn:Hi; [|done]. destruct (get_index s tgt) as [j|] eqn:Hj; [|done].
  destruct (type_at s i) as [t|] eqn:Ht; [|done]. simpl. destruct (rescore_source t) eqn:Hr; [|done]. simpl.
  destruct (type_at s j) as [u|] eqn:Hu; [|done]. simpl. destruct (quantized_target u) eqn:Hq; [|done]. simpl.
  destruct (existsb _ _) eqn:He; [done|]. intros [= <-]. split; [done|]. apply existsb_target in He.
  split; [|done]. split; [done|]. split; simpl; [exists t|exists u]; split; try done;
    apply bind_Some; eauto.
Qed.

(** In a well-formed schema registering never panics. *)
Lemma add_vector_derivation_total s src tgt v : schema_wf s -> is_Some (add_vector_derivation s src tgt v).
Proof.
  intros Hs. unfold add_vector_derivation. case_bool_decide; [done|].
  destruct (get_index s src) as [i|] eqn:Hi; [|done]. destruct (get_index s tgt) as [j|] eqn:Hj; [|done].
  destruct (get_index_type _ _ _ Hs Hi) as (t & ->). simpl. destruct (rescore_source t); [|done]. simpl.
  destruct (get_index_type _ _ _ Hs Hj) as (u & ->). simpl. destruct (quantized_target u); [|done]. simpl.
  by destruct (existsb _ _).
Qed.

Lemma set_derivations_wf s ds :
  schema_wf s -> Forall (derivation_ok s) ds -> NoDup (vd_target <$> ds) -> schema_wf (set_derivations s ds).
Proof. intros [] Hds Hnd. by split. Qed.

Lemma derive_wf s src tgt v s' :
  schema_wf s -> add_vector_derivation s src tgt v = Some (Ok s') -> schema_wf s'.
Proof.
  intros Hs (-> & Hd & Hn)%add_vector_derivation_inv. apply set_derivations_wf; [done|..].
  - apply Forall_app. split; [apply (sw_derivations _ Hs)|by constructor].
  - rewrite fmap_app. apply NoDup_app. split; [apply (sw_targets _ Hs)|].
    split; [|apply NoDup_singleton]. intros x Hx ->%list_elem_of_singleton. done.
Qed.

Lemma NoDup_fmap_filter {A B} (f : A -> B) (p : A -> bool) l :
  NoDup (f <$> l) -> NoDup (f <$> List.filter p l).
Proof.
  induction l as [|x l IH]; [done|]. simpl. intros [Hx Hl]%NoDup_cons. destruct (p x); [|by apply IH].
  simpl. apply NoDup_cons. split; [|by apply IH]. intros (y & Hy & Hin)%list_elem_of_fmap. apply Hx.
  apply list_elem_of_In, List.filter_In in Hin as [Hin _]. rewrite Hy. by apply list_elem_of_fmap_2, list_elem_of_In.
Qed.

Lemma underive_wf s tgt : schema_wf s -> schema_wf (remove_vector_derivation s tgt).1.
Proof.
  intros Hs. apply set_derivations_wf; [done|..].
  - eapply List.incl_Forall; [apply List.incl_filter|apply (sw_derivations _ Hs)].
  - apply NoDup_fmap_filter, (sw_targets _ Hs).
Qed.

(** ** Renaming *)

Section rename.
Context (s : OnDemandSchema) (old_name new_name : string) (idx : nat).
Context (Hs : schema_wf s) (Hold : os_name_to_idx s !! old_name = Some idx).
Context (Hnew : get_index s new_name = None \/ new_name = old_name).

#[local] Abbreviation renamed := ((rename_column s old_name new_name).1).

Lemma renamed_is : renamed =
  mkSchema (alter (fun c => (new_name, c.2)) idx (os_columns s)) (os_logical_types s)
    (<[new_name := idx]> (delete old_name (os_name_to_idx s))) (os_constraints s)
    ((fun d => mkDerivation (rename_in old_name new_name (vd_source d))
                 (rename_in old_name new_name (vd_target d)) (vd_codec_version d)) <$> os_vector_derivations s).
Proof using Hold. unfold rename_column. by rewrite Hold. Qed.

Lemma renamed_name i : column_name renamed i = if decide (i = idx) then Some new_name else column_name s i.
Proof using Hs Hold.
  rewrite renamed_is. unfold column_name. simpl. destruct (decide (i = idx)) as [->|Hne].
  - rewrite list_lookup_alter_eq. apply (sw_index _ Hs) in Hold. apply fmap_Some in Hold as (c & -> & _). done.
  - by rewrite list_lookup_alter_ne.
Qed.

Lemma renamed_type_at i : type_at renamed i = type_at s i.
Proof using Hs Hold.
  rewrite renamed_is. unfold type_at. simpl. destruct (decide (i = idx)) as [->|Hne].
  - rewrite list_lookup_alter_eq. by destruct (os_columns s !! idx).
  - by rewrite list_lookup_alter_ne.
Qed.

Lemma not_new name i : os_name_to_idx s !! name = Some i -> name <> old_name -> name <> new_name.
Proof using Hnew.
  intros Hi Hne He. destruct Hnew as [Hn|Hn]; [|congruence]. unfold get_index in Hn. rewrite He in Hi. congruence.
Qed.

Lemma renamed_index name i : os_name_to_idx renamed !! name = Some i <-> column_name renamed i = Some name.
Proof using Hs Hold Hnew.
  rewrite renamed_name, renamed_is. simpl. destruct (decide (name = new_name)) as [Hname|Hne].
  - rewrite Hname, lookup_insert_eq. destruct (decide (i = idx)) as [Hi|Hi]; [rewrite Hi; done|].
    split; [congruence|]. intros Hc%(sw_index _ Hs). destruct (decide (new_name = old_name)) as [Heq|Hno]; [rewrite Heq in Hc; congruence|].
    by destruct (not_new new_name i).
  - rewrite lookup_insert_ne by done. destruct (decide (name = old_name)) as [Hno|Hno].
    + rewrite Hno, lookup_delete_eq. split; [done|]. destruct (decide (i = idx)) as [Hi|Hi]; [congruence|].
      intros Hc%(sw_index _ Hs). congruence.
    + rewrite lookup_delete_ne by done. rewrite (sw_index _ Hs name i).
      destruct (decide (i = idx)) as [Hi|Hi]; [|done]. rewrite Hi. apply (sw_index _ Hs) in Hold. split; congruence.
Qed.

Lemma renamed_column_type name t :
  named_type s name = Some t -> named_type renamed (rename_in old_name new_name name) = Some t.
Proof using Hs Hold Hnew.
  unfold named_type. intros (i & Hi & Ht)%bind_Some. apply bind_Some. exists i.
  rewrite renamed_type_at. split; [|done]. unfold get_index, rename_in in *. rewrite renamed_is. simpl.
  case_bool_decide as Hn; [subst; rewrite lookup_insert_eq; congruence|].
  rewrite lookup_insert_ne by (symmetry; eapply not_new; done). by rewrite lookup_delete_ne by done.
Qed.

Lemma rename_in_inj x y i j :
  os_name_to_idx s !! x = Some i -> os_name_to_idx s !! y = Some j ->
  rename_in old_name new_name x = rename_in old_name new_name y -> x = y.
Proof using Hnew.
  unfold rename_in. intros Hx Hy. case_bool_decide as Hxo; case_bool_decide as Hyo; intros He; try congruence.
  - by destruct (not_new y j Hy Hyo).
  - by destruct (not_new x i Hx Hxo).
Qed.

Lemma target_exists d : d ∈ os_vector_derivations s -> exists j, os_name_to_idx s !! vd_target d = Some j.
Proof using Hs.
  intros Hd. pose proof (sw_derivations _ Hs) as Hds. rewrite Forall_forall in Hds.
  destruct (Hds _ Hd) as (_ & _ & t & (j & Hj & _)%bind_Some & _). by exists j.
Qed.

Lemma rename_wf : schema_wf renamed.
Proof using Hs Hold Hnew.
  split.
  - apply renamed_index.
  - rewrite renamed_is. simpl. rewrite (sw_logicals _ Hs). unfold column_count. simpl. by rewrite length_alter.
  - rewrite renamed_is. simpl. rewrite (sw_constraints _ Hs). unfold column_count. simpl. by rewrite length_alter.
  - rewrite renamed_is at 2. simpl. apply Forall_fmap. apply Forall_forall. intros d Hd.
    pose proof (sw_derivations _ Hs) as Hds. rewrite Forall_forall in Hds.
    destruct (Hds _ Hd) as (Hne & (t & Ht & Hr) & (u & Hu & Hq)).
    split; [|split; eauto using renamed_column_type]. simpl.
    apply bind_Some in Ht as (i & Hi & _). apply bind_Some in Hu as (j & Hj & _).
    intros He. apply Hne. by apply (rename_in_inj _ _ i j).
  - rewrite renamed_is. simpl. rewrite <-list_fmap_compose.
    change (NoDup ((rename_in old_name new_name ∘ vd_target) <$> os_vector_derivations s)).
    rewrite list_fmap_compose. apply NoDup_fmap_2_strong; [|apply (sw_targets _ Hs)].
    intros x y (d & -> & Hd)%list_elem_of_fmap (e & -> & He)%list_elem_of_fmap Heq.
    destruct (target_exists _ Hd) as (i & Hi). destruct (target_exists _ He) as (j & Hj).
    by apply (rename_in_inj _ _ i j).
Qed.

End rename.

(** ** Every operation *)

Lemma schema_apply_wf s op : schema_wf s -> op_ok s op -> schema_wf (schema_apply s op).
Proof.
  intros Hs Hop. destruct op as [n t|n t cc|i l|src tgt v|tgt|old new]; simpl in *.
  - unfold add_column. destruct (_ !! n) eqn:Hn; [done|]. by apply push_column_wf.
  - unfold add_column_with_constraints. destruct (_ !! n) eqn:Hn; simpl; [|by apply push_column_wf].
    apply set_constraints_wf; [done|]. by rewrite length_insert, (sw_constraints _ Hs).
  - rewrite set_logical_type_in by done. destruct (_ <=? i)%nat; [done|]. apply set_logicals_wf; [done|].
    by rewrite length_insert, (sw_logicals _ Hs).
  - destruct (add_vector_derivation s src tgt v) as [[s'|e]|] eqn:Hd; [by eapply derive_wf|done..].
  - by apply underive_wf.
  - destruct (os_name_to_idx s !! old) as [idx|] eqn:Hold.
    + apply (rename_wf s old new idx); tauto.
    + unfold rename_column. by rewrite Hold.
Qed.

Lemma schema_apply_encodable s op : schema_wf s -> encodable s -> op_ok s op -> encodable (schema_apply s op).
Proof.
  intros Hs [H1 H2 H3 H4] Hop. destruct op as [n t|n t cc|i l|src tgt v|tgt|old new]; simpl in *.
  - unfold add_column. destruct (_ !! n) eqn:Hn; [done|].
    split; simpl; rewrite ?Forall_app; repeat split; auto; repeat constructor; try done.
  - unfold add_column_with_constraints. destruct Hop as [Hn Hc]. destruct (_ !! n) eqn:Hi; simpl.
    + split; simpl; auto. by apply Forall_insert.
    + split; simpl; rewrite ?Forall_app; repeat split; auto; repeat constructor; try done; apply Hc.
  - rewrite set_logical_type_in by done. destruct (_ <=? i)%nat; [done|]. split; simpl; auto.
    by apply Forall_insert.
  - destruct (add_vector_derivation s src tgt v) as [[s'|e]|] eqn:Hd; [|done..].
    apply add_vector_derivation_inv in Hd as (-> & _). split; simpl; auto.
    apply Forall_app. split; [done|]. by constructor.
  - split; simpl; auto. eapply List.incl_Forall; [apply List.incl_filter|done].
  - unfold rename_column. destruct (os_name_to_idx s !! old) as [idx|] eqn:Hold; [|done].
    destruct Hop as [Hn _]. split; simpl; auto.
    + apply Forall_alter; [done|]. by intros c _ _.
    + by apply Forall_fmap.
Qed.

Lemma schema_run_ok s ops :
  schema_wf s -> encodable s -> ops_ok s ops -> schema_wf (schema_run s ops) /\ encodable (schema_run s ops).
Proof.
  revert s. induction ops as [|op ops IH]; intros s Hs He; simpl; [done|]. intros [Hop Hops].
  apply IH; auto using schema_apply_wf, schema_apply_encodable.
Qed.

Lemma schema_new_encodable : encodable OnDemandSchema_new.
Proof. split; constructor. Qed.
