(* ===== verification/SchemaRoundTrip.v ===== *)
(** * A schema is read back as it was written

    Every section of the binary form of [Schema.v] decodes to the part of the schema it was written
    from, and a section that was not written is recognised as absent.  Together: a well-formed
    schema whose texts fit their length fields survives [to_bytes] and [from_bytes], and with it
    every schema the operations build.  The last part records what the form loses: texts longer
    than the length field, an empty CHECK text, and a schema with two columns of one name. *)
From S2P Require Import Prelude Bytes Columns Schema SchemaFacts.
Local Open Scope Z_scope.
Local Open Scope apex_scope.

(** ** Texts *)

Lemma utf8_lossy_valid bytes : utf8_valid bytes = true -> utf8_lossy bytes = bytes.
Proof.
  remember (length bytes) as n eqn:Hn. revert bytes Hn.
  induction (lt_wf n) as [n _ IH]. intros bytes ->. destruct bytes as [|a rest]; [done|]. cbn [utf8_valid utf8_lossy].
  assert (Hrec : forall l, (length l <= length rest)%nat -> utf8_valid l = true -> utf8_lossy l = l)
    by (intros l Hl; eapply IH; [|reflexivity]; simpl; lia).
  destruct (a <? 128); [intros H; by rewrite Hrec|]. destruct (in_range 194 223 a).
  { destruct rest as [|b rest]; [done|]. intros [-> H]%andb_true_iff. rewrite Hrec; [done|simpl; lia|done]. }
  destruct (in_range 224 239 a).
  { destruct rest as [|b [|c rest]]; [done|done|]. intros [[-> ->]%andb_true_iff H]%andb_true_iff.
    rewrite Hrec; [done|simpl; lia|done]. }
  destruct (in_range 240 244 a); [|done].
  destruct rest as [|b [|c [|d rest]]]; [done|done|done|].
  intros [[[-> ->]%andb_true_iff ->]%andb_true_iff H]%andb_true_iff. rewrite Hrec; [done|simpl; lia|done].
Qed.

Lemma reads_u8 b : is_byte b -> reads u8 [b] b.
Proof. apply reads_byte. Qed.

Lemma reads_u16 x : unsigned 2 x -> reads u16 (to_le 2 x) x.
Proof. apply (reads_u Invalid 2). Qed.

Lemma reads_name s : short_text s -> reads read_name (str16 s) s.
Proof.
  intros [Hv Hl]. eapply reads_bind; [by apply reads_u16|]. by apply reads_str.
Qed.

Lemma ColumnType_code_roundtrip t : is_byte (ColumnType_code t) /\ ColumnType_from_u8 (ColumnType_code t) = Some t.
Proof. split; [unfold is_byte; by destruct t|by destruct t]. Qed.

Lemma reads_logical l : logical_ok l -> reads LogicalType_from_bytes (LogicalType_to_bytes l) l.
Proof.
  intros Hl. destruct l as [|precision scale|offset|element|codec version]; simpl in Hl; cbn [LogicalType_to_bytes];
    unfold LogicalType_from_bytes; (eapply reads_step; [by apply reads_u8|]).
  - apply reads_ret.
  - destruct Hl as [Hp Hs]. eapply reads_step; [by apply reads_u8|]. apply reads_last. by apply (reads_i Invalid 0).
  - apply reads_last. by apply (reads_i Invalid 1).
  - destruct (ColumnType_code_roundtrip element) as [Hb Hc].
    eapply (reads_bind _ _ [_] []); [by apply reads_u8|]. rewrite Hc. apply reads_ret.
  - destruct Hl as [[Hv Hc] Hver]. unfold str16. rewrite <-app_assoc.
    eapply reads_bind; [by apply reads_u16|]. eapply reads_bind; [by apply reads_next|].
    eapply (reads_last_eq _ _ [version] version); [by apply reads_u8|].
    by rewrite utf8_lossy_valid, bytes_string_bytes.
Qed.

(** ** Columns *)

Definition add_named (s : OnDemandSchema) (c : string * ColumnType) : OnDemandSchema := (add_column s c.1 c.2).1.

Lemma reads_columns cs s :
  Forall (fun c => short_text c.1) cs -> reads (read_columns (length cs) s) (cs ≫= column_bytes) (foldl add_named s cs).
Proof.
  intros Hcs. revert s. induction Hcs as [|[n t] cs Hc _ IH]; intros s; [apply reads_ret|].
  cbn [length read_columns foldl]. rewrite bind_cons. unfold column_bytes at 1, str16. cbn [fst snd] in *.
  destruct Hc as [Hv Hl]. destruct (ColumnType_code_roundtrip t) as [Hb Ht].
  rewrite <-!app_assoc. eapply reads_bind; [by apply reads_u16|]. eapply reads_bind; [by apply reads_str|].
  eapply reads_bind; [by apply reads_u8|]. rewrite Ht. apply IH.
Qed.

(** Two well-formed schemas with the same columns have the same name map. *)
Lemma index_unique s s' :
  schema_wf s -> schema_wf s' -> os_columns s = os_columns s' -> os_name_to_idx s = os_name_to_idx s'.
Proof.
  intros Hs Hs' Hc. apply map_eq. intros n. apply option_eq. intros i.
  rewrite (sw_index _ Hs n i), (sw_index _ Hs' n i). unfold column_name. by rewrite Hc.
Qed.

Lemma names_nodup s : schema_wf s -> NoDup (os_columns s).*1.
Proof.
  intros Hs. apply NoDup_alt. intros i j n Hi Hj. rewrite list_lookup_fmap in Hi, Hj.
  apply (sw_index _ Hs) in Hi. apply (sw_index _ Hs) in Hj. congruence.
Qed.

(** The columns alone: no constraints, no parameters, no derivations. *)
Definition bare (s : OnDemandSchema) : Prop :=
  os_logical_types s = replicate (column_count s) None /\
  os_constraints s = replicate (column_count s) ColumnConstraints_default /\
  os_vector_derivations s = [].

Lemma add_columns_bare cs :
  NoDup cs.*1 -> let s := foldl add_named OnDemandSchema_new cs in
  schema_wf s /\ os_columns s = cs /\ bare s.
Proof.
  induction cs as [|[n t] cs IH] using rev_ind; simpl; [intros _; split; [apply schema_new_wf|done]|].
  rewrite fmap_app, foldl_app. intros (Hcs & Hn & _)%NoDup_app. destruct IH as (Hwf & Hc & Hl & Hk & Hd); [done|].
  set (s := foldl add_named OnDemandSchema_new cs) in *.
  assert (Hnew : os_name_to_idx s !! n = None).
  { apply eq_None_not_Some. intros (i & Hi). apply (sw_index _ Hwf) in Hi. unfold column_name in Hi. rewrite Hc in Hi.
    apply (Hn n); [|by constructor]. rewrite <-list_lookup_fmap in Hi. by eapply list_elem_of_lookup_2. }
  assert (Hadd : add_named s (n, t) = push_column s n t ColumnConstraints_default)
    by (unfold add_named, add_column; simpl; by rewrite Hnew).
  simpl. rewrite Hadd. split; [by apply push_column_wf|]. simpl. split; [by rewrite Hc|].
  unfold bare, column_count in *. simpl. rewrite length_app, Nat.add_1_r, !replicate_S_end, Hl, Hk, Hd. done.
Qed.

(** ** Loops over the constraints *)

Lemma seq_bind {A B} (g : option A -> list B) (l : list A) :
  (seq 0 (length l) ≫= fun i => g (l !! i)) = l ≫= fun x => g (Some x).
Proof.
  assert (H : forall front, (seq (length front) (length l) ≫= fun i => g ((front ++ l) !! i)) = l ≫= fun x => g (Some x)).
  { induction l as [|x l IH]; intros front; [done|]. cbn [length seq]. rewrite !bind_cons. f_equal.
    - by rewrite list_lookup_middle.
    - specialize (IH (front ++ [x])). rewrite length_app, Nat.add_1_r, <-app_assoc in IH. exact IH. }
  apply (H []).
Qed.

Lemma per_column_constraints s enc : schema_wf s -> per_column s enc = os_constraints s ≫= enc.
Proof. intros Hs. unfold per_column. rewrite <-(sw_constraints _ Hs). apply (seq_bind (fun o => enc (default _ o))). Qed.

Section sections.
Context (s : OnDemandSchema).

(** A loop that rewrites the constraints one column at a time. *)
Lemma reads_for_break step enc (pre post : ColumnConstraints -> ColumnConstraints) cs :
  Forall (fun c => forall i s', os_constraints s' !! i = Some (pre c) ->
    reads (step i s') (enc c) (Some (at_constraint s' i (fun _ => post c)))) cs ->
  forall front, reads (for_break step (length front) (length cs) (set_constraints s ((post <$> front) ++ (pre <$> cs))))
    (cs ≫= enc) (set_constraints s (post <$> (front ++ cs))).
Proof.
  induction 1 as [|c cs Hc _ IH]; intros front; cbn [length for_break].
  { simpl. rewrite !app_nil_r. apply reads_ret. }
  rewrite bind_cons. eapply reads_bind.
  - apply Hc. simpl. apply list_lookup_middle. by rewrite length_fmap.
  - specialize (IH (front ++ [c])). rewrite length_app, Nat.add_1_r, <-app_assoc in IH.
    replace (at_constraint _ _ _) with (set_constraints s ((post <$> front ++ [c]) ++ (pre <$> cs))); [exact IH|].
    unfold at_constraint, set_constraints. simpl. f_equal.
    rewrite fmap_app, <-app_assoc. simpl.
    rewrite <-(length_fmap post front), <-(Nat.add_0_r (length (post <$> front))). by rewrite alter_app_r.
Qed.

Lemma reads_all step enc (pre post : ColumnConstraints -> ColumnConstraints) cs :
  Forall (fun c => forall i s', os_constraints s' !! i = Some (pre c) ->
    reads (step i s') (enc c) (Some (at_constraint s' i (fun _ => post c)))) cs ->
  reads (for_break step 0 (length cs) (set_constraints s (pre <$> cs))) (cs ≫= enc) (set_constraints s (post <$> cs)).
Proof. intros H. exact (reads_for_break step enc pre post cs H []). Qed.

End sections.

(** An optional section: read when it was written, passed over when it was not. *)
Lemma marked_reads marker body s s' enc present rest :
  (present = true -> reads (body s) enc s') -> (present = false -> s' = s) -> head rest <> Some marker ->
  marked marker body s (section_bytes present marker enc ++ rest) = Done (s', rest).
Proof.
  intros Hp Ha Hr. unfold marked. destruct present; simpl.
  - rewrite Z.eqb_refl. by apply Hp.
  - rewrite Ha by done. destruct rest as [|b rest]; [done|]. destruct (Z.eqb_spec b marker) as [->|]; done.
Qed.

Lemma head_section m present marker enc rest :
  m <> marker -> head rest <> Some m -> head (section_bytes present marker enc ++ rest) <> Some m.
Proof. intros Hne Hr. destruct present; simpl; [congruence|done]. Qed.

Lemma head_nil m : head (@nil Z) <> Some m.
Proof. done. Qed.

#[local] Hint Resolve head_section head_nil : core.

(** ** The constraint sections *)

(** What has been read after the flags, the defaults, the CHECK texts and the foreign keys. *)
Definition after_flags (c : ColumnConstraints) : ColumnConstraints :=
  mkConstraints (cc_not_null c) (cc_primary_key c) (cc_unique c) None None None (cc_autoincrement c).
Definition after_defaults (c : ColumnConstraints) : ColumnConstraints :=
  with_default (cc_default_value c) (after_flags c).
Definition after_checks (c : ColumnConstraints) : ColumnConstraints :=
  with_check (cc_check_expr_sql c) (after_defaults c).

Lemma at_constraint_ext s i f x y :
  os_constraints s !! i = Some x -> f x = y -> at_constraint s i f = at_constraint s i (fun _ => y).
Proof.
  intros Hx Hy. unfold at_constraint. f_equal. apply list_alter_ext; [|done]. intros x' Hx'. congruence.
Qed.

(** A step that assigns through [f] assigns the next stage. *)
Lemma reads_assign s i f x y :
  os_constraints s !! i = Some x -> f x = y ->
  reads (ret (Some (at_constraint s i f))) [] (Some (at_constraint s i (fun _ => y))).
Proof. intros Hx Hy. rewrite (at_constraint_ext _ _ _ _ _ Hx Hy). apply reads_ret. Qed.

(** A step that assigns nothing. *)
Lemma reads_keep s i x :
  os_constraints s !! i = Some x -> reads (ret (Some s)) [] (Some (at_constraint s i (fun _ => x))).
Proof.
  intros Hx. replace (at_constraint s i (fun _ => x)) with s; [apply reads_ret|].
  rewrite <-(at_constraint_ext s i id x x) by done. unfold at_constraint. rewrite list_alter_id; [by destruct s|].
  done.
Qed.

Lemma reads_or_break {A} (k : list Z -> Reader (option A)) n b e x :
  n = len_of b -> reads (k b) e x -> reads (bytes_or_break n k) (b ++ e) x.
Proof.
  intros -> Hk rest. unfold bytes_or_break. rewrite <-app_assoc. unfold len_of.
  rewrite length_app, Nat2Z.id. destruct (Z.leb_spec (Z.of_nat (length b)) (Z.of_nat (length b + length (e ++ rest)))); [|lia].
  rewrite take_app_length, drop_app_length. apply Hk.
Qed.

Lemma reads_or_break_end {A} (k : list Z -> Reader (option A)) n b x :
  n = len_of b -> reads (k b) [] x -> reads (bytes_or_break n k) b x.
Proof. intros Hn Hk. rewrite <-(app_nil_r b). by apply reads_or_break. Qed.

Lemma len_to_le n x : Z.of_nat n = len_of (to_le n x).
Proof. unfold len_of. by rewrite to_le_length. Qed.

Lemma text_or_empty_bytes s : valid_str s -> text_or_empty (string_bytes s) = s.
Proof. unfold valid_str, text_or_empty. intros ->. apply bytes_string_bytes. Qed.

Lemma reads_str16_or_break {A} (k : string -> Reader (option A)) s e x :
  short_text s -> reads (k s) e x -> reads (str16_or_break k) (str16 s ++ e) x.
Proof.
  intros [Hv Hl] Hk. unfold str16_or_break, str16. rewrite <-app_assoc.
  apply reads_or_break; [apply (len_to_le 2)|]. rewrite u_from_to_le by done.
  apply reads_or_break; [done|]. by rewrite text_or_empty_bytes.
Qed.

Lemma flags_byte_spec c : is_byte (flags_byte c) /\ constraints_of_flags (flags_byte c) = after_flags c.
Proof.
  destruct c as [nn pk u d ck fk ai]. unfold flags_byte, after_flags. simpl.
  destruct nn, pk, u, ai, d; (split; [vm_compute; by split|by vm_compute]).
Qed.

Lemma read_flags_spec c i s (x : ColumnConstraints) :
  os_constraints s !! i = Some x ->
  reads (read_flags i s) [flags_byte c] (Some (at_constraint s i (fun _ => after_flags c))).
Proof.
  intros _. destruct (flags_byte_spec c) as [Hb Hc]. unfold read_flags.
  eapply reads_last_eq; [by apply reads_byte|]. by rewrite Hc.
Qed.

Lemma read_default_spec c i s :
  constraints_ok c -> os_constraints s !! i = Some (after_flags c) ->
  reads (read_default i s) (default_bytes c) (Some (at_constraint s i (fun _ => after_defaults c))).
Proof.
  intros (Hd & _ & _) Hx. unfold read_default, default_bytes.
  assert (Hassign : forall v, v = cc_default_value c ->
    reads (ret (Some (at_constraint s i (with_default v)))) [] (Some (at_constraint s i (fun _ => after_defaults c))))
    by (intros v ->; by apply (reads_assign _ _ _ _ _ Hx)).
  assert (Hint : forall n f v, signed (S n) v -> Some (f v) = cc_default_value c ->
    reads (bytes_or_break (Z.of_nat (S n)) (fun b => ret (Some (at_constraint s i (with_default (Some (f (i_from_le b)))))))) (to_le (S n) v)
      (Some (at_constraint s i (fun _ => after_defaults c)))).
  { intros n f v Hv He. apply reads_or_break_end; [apply len_to_le|].
    rewrite i_from_to_le by done. by apply Hassign. }
  destruct (cc_default_value c) as [v|]; [specialize (Hd v eq_refl)|];
    [destruct v; simpl in Hd|]; (eapply (reads_or_break _ 1 [_]); [done|]); simpl.
  - by apply (Hint 7%nat).
  - apply (reads_or_break_end _ 8); [apply (len_to_le 8)|].
    rewrite u_from_to_le by done. by apply Hassign.
  - rewrite <-(app_nil_r (str16 _)). apply reads_str16_or_break; [done|]. by apply Hassign.
  - apply (reads_or_break_end _ 1 [_]); [done|]. apply Hassign. by destruct b.
  - by apply Hassign.
  - by apply Hassign.
  - by apply Hassign.
  - by apply Hassign.
  - by apply (Hint 3%nat).
  - by apply (Hint 7%nat).
  - by apply Hassign.
Qed.

(** A length that is not zero belongs to a text that is not empty. *)
Lemma nonempty_length s : s <> EmptyString -> (0 <? len_of (string_bytes s)) = true.
Proof. intros Hs. by destruct s. Qed.

Lemma unsigned_zero n : unsigned n 0.
Proof. split; [done|apply width_pos]. Qed.

Lemma read_check_spec c i s :
  constraints_ok c -> os_constraints s !! i = Some (after_defaults c) ->
  reads (read_check i s) (check_bytes c) (Some (at_constraint s i (fun _ => after_checks c))).
Proof.
  intros (_ & Hd & _) Hx. unfold read_check, check_bytes.
  destruct (cc_check_expr_sql c) as [sql|] eqn:Hc; [destruct (Hd sql eq_refl) as [[Hv Hl] Hne]; unfold str16|].
  - apply reads_or_break; [apply (len_to_le 2)|]. rewrite u_from_to_le, nonempty_length by done.
    apply reads_or_break_end; [done|]. rewrite text_or_empty_bytes by done. apply (reads_assign _ _ _ _ _ Hx). unfold after_checks. by rewrite Hc.
  - apply reads_or_break_end; [apply (len_to_le 2)|]. rewrite u_from_to_le by apply unsigned_zero. simpl.
    replace (after_checks c) with (after_defaults c); [by apply reads_keep|].
    unfold after_checks. rewrite Hc. done.
Qed.

Lemma read_foreign_key_spec c i s :
  constraints_ok c -> os_constraints s !! i = Some (after_checks c) ->
  reads (read_foreign_key i s) (foreign_key_bytes c) (Some (at_constraint s i (fun _ => c))).
Proof.
  intros (_ & _ & Hd) Hx. unfold read_foreign_key, foreign_key_bytes.
  destruct (cc_foreign_key c) as [[t col]|] eqn:Hc; [destruct (Hd t col eq_refl) as [[[Hv Hl] Hne] Hcol]|].
  - unfold str16 at 1. rewrite <-app_assoc. apply reads_or_break; [apply (len_to_le 2)|].
    rewrite u_from_to_le, nonempty_length by done. apply reads_or_break; [done|].
    rewrite <-(app_nil_r (str16 _)). apply reads_str16_or_break; [done|].
    rewrite text_or_empty_bytes by done. apply (reads_assign _ _ _ _ _ Hx). rewrite <-Hc. by destruct c.
  - apply reads_or_break_end; [apply (len_to_le 2)|]. rewrite u_from_to_le by apply unsigned_zero. simpl.
    assert (Hsame : after_checks c = c) by (destruct c; simpl in Hc; by subst).
    rewrite Hsame in Hx. by apply reads_keep.
Qed.

(** ** The derivations *)

Lemma reads_derivations s ds :
  schema_wf s -> Forall (derivation_ok s) ds -> NoDup (vd_target <$> (os_vector_derivations s ++ ds)) ->
  Forall (fun d => short_text (vd_source d) /\ short_text (vd_target d) /\ unsigned 2 (vd_codec_version d)) ds ->
  reads (read_derivations (length ds) s) (ds ≫= derivation_bytes) (set_derivations s (os_vector_derivations s ++ ds)).
Proof.
  revert s. induction ds as [|d ds IH]; intros s Hs Hok Hnd Hshort; cbn [length read_derivations].
  { rewrite app_nil_r. destruct s. apply reads_ret. }
  rewrite bind_cons. apply Forall_cons in Hok as [Hd Hok]. apply Forall_cons in Hshort as [(Hsrc & Htgt & Hv) Hshort].
  assert (Hnew : vd_target d ∉ (vd_target <$> os_vector_derivations s)).
  { rewrite fmap_app in Hnd. simpl in Hnd. apply NoDup_app in Hnd as (_ & Hdisj & _). intros Hin.
    apply (Hdisj _ Hin). by constructor. }
  destruct d as [src tgt v]. cbn [vd_source vd_target vd_codec_version] in *. pose proof (add_vector_derivation_ok s src tgt v Hs Hd Hnew) as Hadd.
  unfold derivation_bytes at 1. cbn [vd_source vd_target vd_codec_version]. rewrite <-!app_assoc.
  eapply reads_bind; [by apply reads_name|]. eapply reads_bind; [by apply reads_name|].
  eapply reads_bind; [by apply reads_u16|]. rewrite Hadd.
  pose proof (derive_wf _ _ _ _ _ Hs Hadd) as Hwf.
  specialize (IH _ Hwf). simpl in IH. rewrite <-!app_assoc in IH. apply IH; try done.
Qed.

(** Every registered name is a column's name, so it fits too. *)
Lemma column_short s n t : schema_wf s -> encodable s -> named_type s n = Some t -> short_text n.
Proof.
  intros Hs He (i & Hi & _)%bind_Some. apply (sw_index _ Hs) in Hi. unfold column_name in Hi.
  apply fmap_Some in Hi as (c & Hc & ->). pose proof (en_names _ He) as Hn. rewrite Forall_lookup in Hn. eauto.
Qed.

Lemma derivations_short s : schema_wf s -> encodable s ->
  Forall (fun d => short_text (vd_source d) /\ short_text (vd_target d) /\ unsigned 2 (vd_codec_version d))
    (os_vector_derivations s).
Proof.
  intros Hs He. apply Forall_forall. intros d Hd.
  pose proof (sw_derivations _ Hs) as Hok. pose proof (en_versions _ He) as Hv. rewrite Forall_forall in Hok, Hv.
  destruct (Hok _ Hd) as (_ & (t & Ht & _) & (u & Hu & _)).
  split; [by eapply column_short|]. split; [by eapply column_short|by apply Hv].
Qed.

(** ** The logical types *)

Lemma reads_logicals ls s front :
  Forall (fun l => forall t, l = Some t -> logical_ok t) ls ->
  schema_wf s -> os_logical_types s = front ++ replicate (length ls) None ->
  reads (read_logicals (length front) (length ls) s) (ls ≫= logical_bytes) (set_logicals s (front ++ ls)).
Proof.
  intros Hok. revert s front. induction Hok as [|l ls Hl Hok IH]; intros s front Hs Hf; cbn [length read_logicals].
  { simpl in *. rewrite <-Hf. destruct s. apply reads_ret. }
  rewrite bind_cons. simpl in Hf.
  assert (Hlen : (length front < column_count s)%nat).
  { rewrite <-(sw_logicals _ Hs), Hf, length_app. simpl. lia. }
  destruct l as [t|]; cbn [logical_bytes].
  - eapply (reads_step _ _ 1); [by apply reads_u8|]. eapply reads_bind; [by apply reads_logical, Hl|].
    rewrite set_logical_type_in by done. destruct (Nat.leb_spec (column_count s) (length front)); [lia|].
    rewrite Hf, insert_app_r_alt, Nat.sub_diag by lia. simpl.
    specialize (IH (set_logicals s (front ++ Some t :: replicate (length ls) None)) (front ++ [Some t])).
    rewrite length_app, Nat.add_1_r, <-!app_assoc in IH. apply IH; [|done].
    apply set_logicals_wf; [done|]. rewrite <-(sw_logicals _ Hs), Hf, !length_app. done.
  - eapply (reads_step _ _ 0); [by apply reads_u8|]. specialize (IH s (front ++ [None])).
    rewrite length_app, Nat.add_1_r, <-!app_assoc in IH. by apply IH.
Qed.

(** ** The whole schema *)

Lemma existsb_false {A} (p : A -> bool) l : existsb p l = false -> Forall (fun x => p x = false) l.
Proof. induction l as [|x l IH]; simpl; [constructor|]. intros [Hx Hl]%orb_false_iff. constructor; auto. Qed.

Lemma section_absent {A} (f : A -> ColumnConstraints) (g : A -> ColumnConstraints) (p : A -> bool) l :
  (forall c, p c = false -> g c = f c) -> existsb p l = false -> g <$> l = f <$> l.
Proof.
  intros Hp Hl%existsb_false. apply list_fmap_ext. intros i c Hc. rewrite Forall_lookup in Hl. eauto.
Qed.

Lemma no_option {A} (o : option A) : bool_decide (is_Some o) = false -> o = None.
Proof. intros H%bool_decide_eq_false. by apply eq_None_not_Some. Qed.

Lemma length_singletons {A B} (f : A -> B) l : length (l ≫= fun x => [f x]) = length l.
Proof. induction l as [|x l IH]; [done|]. rewrite bind_cons, length_app, IH. done. Qed.

Section whole.
Context (s : OnDemandSchema) (Hs : schema_wf s) (He : encodable s).

#[local] Abbreviation cs := (os_constraints s).

(** A loop that takes every column from one stage to the next. *)
Lemma reads_stage b step enc pre post :
  (forall c i s', constraints_ok c -> os_constraints s' !! i = Some (pre c) ->
     reads (step i s') (enc c) (Some (at_constraint s' i (fun _ => post c)))) ->
  reads (for_break step 0 (column_count s) (set_constraints b (pre <$> cs))) (per_column s enc)
    (set_constraints b (post <$> cs)).
Proof using Hs He.
  intros Hstep. rewrite per_column_constraints, <-(sw_constraints _ Hs) by done. apply reads_all.
  eapply Forall_impl; [apply (en_constraints _ He)|]. intros c Hc i s' Hx. by apply Hstep.
Qed.

Lemma absent_stage b (p : ColumnConstraints -> bool) (pre post : ColumnConstraints -> ColumnConstraints) :
  (forall c, p c = false -> post c = pre c) -> existsb p cs = false ->
  set_constraints b (post <$> cs) = set_constraints b (pre <$> cs).
Proof. intros Hp Hx. by rewrite (section_absent pre post p). Qed.

(** The flags and the sections behind them. *)
Lemma reads_constraints b rest :
  head rest <> Some DEFAULTS_MARKER -> head rest <> Some CHECKS_MARKER -> head rest <> Some FOREIGN_KEYS_MARKER ->
  os_constraints b = replicate (column_count s) ColumnConstraints_default ->
  read_constraints (column_count s) b (constraints_bytes s ++ rest) = Done (set_constraints b cs, rest).
Proof using Hs He.
  intros Hr1 Hr2 Hr3 Hb. pose proof (sw_constraints _ Hs) as Hlen.
  destruct (decide (column_count s = 0)%nat) as [Hz|Hz].
  { unfold read_constraints, constraints_bytes. rewrite Hz in *. apply nil_length_inv in Hlen as ->.
    rewrite andb_false_r. simpl in *. rewrite <-Hb. by destruct b. }
  unfold constraints_bytes. rewrite bool_decide_eq_false_2, orb_true_r by (intros Hn; rewrite Hn in Hlen; simpl in Hlen; lia).
  rewrite <-!app_assoc. unfold read_constraints.
  assert (Hcount : forall l, (column_count s <=? length (per_column s (fun c => [flags_byte c]) ++ l))%nat
                     && (0 <? column_count s)%nat = true).
  { intros l. rewrite length_app, per_column_constraints, length_singletons, Hlen by done.
    apply andb_true_iff. split; [apply Nat.leb_le; lia|apply Nat.ltb_lt; lia]. }
  rewrite Hcount. clear Hcount.
  assert (Hstart : b = set_constraints b ((fun _ => ColumnConstraints_default) <$> cs)).
  { rewrite (const_fmap _ _ ColumnConstraints_default), Hlen, <-Hb by done. by destruct b. }
  rewrite Hstart at 1. unfold bind.
  rewrite (reads_stage b read_flags (fun c => [flags_byte c]) (fun _ => ColumnConstraints_default) after_flags)
    by (intros c i s' _; apply read_flags_spec).
  rewrite (marked_reads _ _ _ (set_constraints b (after_defaults <$> cs))).
  2:{ intros _. apply reads_stage. intros c i s'. apply read_default_spec. }
  2:{ apply absent_stage. intros c Hc%no_option. unfold after_defaults. by rewrite Hc. }
  2:{ by repeat apply head_section. }
  rewrite (marked_reads _ _ _ (set_constraints b (after_checks <$> cs))).
  2:{ intros _. apply reads_stage. intros c i s'. apply read_check_spec. }
  2:{ apply absent_stage. intros c Hc%no_option. unfold after_checks. by rewrite Hc. }
  2:{ by repeat apply head_section. }
  rewrite (marked_reads _ _ _ (set_constraints b (id <$> cs))).
  2:{ intros _. apply reads_stage. intros c i s'. apply read_foreign_key_spec. }
  2:{ apply absent_stage. intros [] Hc%no_option. simpl in Hc. by subst. }
  2:{ done. }
  by rewrite list_fmap_id.
Qed.

Lemma reads_derivations_section b :
  os_columns b = os_columns s -> os_name_to_idx b = os_name_to_idx s -> schema_wf b -> os_vector_derivations b = [] ->
  unsigned 2 (len_of (os_vector_derivations s)) ->
  reads (parse_vector_derivations b) (append_vector_derivations s) (set_derivations b (os_vector_derivations s)).
Proof using Hs He.
  intros Hc Hn Hb Hd Hl. unfold parse_vector_derivations, append_vector_derivations.
  eapply reads_bind; [by apply reads_u16|]. unfold len_of. rewrite Nat2Z.id.
  pose proof (reads_derivations b (os_vector_derivations s)) as H. rewrite Hd in H. apply H; [done|..].
  - eapply Forall_impl; [apply (sw_derivations _ Hs)|]. intros d. apply derivation_ok_mono.
    intros n t. unfold named_type, get_index, type_at. by rewrite Hc, Hn.
  - apply (sw_targets _ Hs).
  - by apply derivations_short.
Qed.

Lemma reads_logicals_section b :
  column_count b = column_count s -> schema_wf b -> os_logical_types b = replicate (column_count s) None ->
  unsigned 4 (Z.of_nat (column_count s)) ->
  reads (parse_logical_types b) (append_logical_types s) (set_logicals b (os_logical_types s)).
Proof using Hs He.
  intros Hc Hb Hl Hn. unfold parse_logical_types, append_logical_types.
  eapply (reads_step _ _ 1); [by apply reads_u8|]. eapply reads_bind; [by apply (reads_u Invalid 4)|]. simpl.
  rewrite Hc, Z.eqb_refl. simpl. rewrite Nat2Z.id.
  replace (fun index => logical_bytes (logical_type s index))
    with (fun index => logical_bytes (mjoin (os_logical_types s !! index))) by done.
  rewrite <-(sw_logicals _ Hs) at 1 2. rewrite (seq_bind (fun o => logical_bytes (mjoin o))).
  apply (reads_logicals (os_logical_types s) b []); [apply (en_logicals _ He)|done|]. by rewrite (sw_logicals _ Hs).
Qed.

Lemma schema_reads :
  unsigned 4 (Z.of_nat (column_count s)) -> unsigned 2 (len_of (os_vector_derivations s)) ->
  OnDemandSchema_from_bytes (OnDemandSchema_to_bytes s) = Done s.
Proof using Hs He.
  intros Hn Hd. unfold OnDemandSchema_from_bytes, OnDemandSchema_to_bytes.
  pose proof (names_nodup _ Hs) as Hnd.
  destruct (add_columns_bare _ Hnd) as (Hb & Hcols & Hlog & Hcons & Hder).
  set (b := foldl add_named OnDemandSchema_new (os_columns s)) in *.
  assert (Hcount : column_count b = column_count s) by (unfold column_count; by rewrite Hcols).
  assert (Hidx : os_name_to_idx b = os_name_to_idx s) by (by apply index_unique).
  rewrite Hcount in *.
  set (V := section_bytes (negb (bool_decide (os_vector_derivations s = []))) DERIVATIONS_MARKER _).
  set (L := section_bytes (has_logical s) LOGICAL_TYPES_MARKER _).
  assert (HL : forall m, m <> LOGICAL_TYPES_MARKER -> head L <> Some m)
    by (intros m Hm; rewrite <-(app_nil_r L); by apply head_section).
  assert (HV : forall m, m <> DERIVATIONS_MARKER -> m <> LOGICAL_TYPES_MARKER -> head (V ++ L) <> Some m)
    by (intros m Hm Hm'; apply head_section; auto).
  unfold bind. rewrite (reads_u Invalid 4) by done. rewrite Nat2Z.id.
  rewrite (reads_columns (os_columns s) OnDemandSchema_new (en_names _ He)). fold b.
  rewrite reads_constraints by (done || by apply HV).
  set (b1 := set_constraints b cs).
  assert (Hb1 : schema_wf b1) by (apply set_constraints_wf; [done|by rewrite (sw_constraints _ Hs), Hcount]).
  unfold V. rewrite (marked_reads _ _ b1 (set_derivations b1 (os_vector_derivations s))).
  2:{ intros _. by apply reads_derivations_section. }
  2:{ intros Hv%negb_false_iff%bool_decide_eq_true. by rewrite Hv, <-Hder. }
  2:{ by apply HL. }
  set (b2 := set_derivations b1 _).
  assert (Hb2 : schema_wf b2).
  { apply set_derivations_wf; [done|..|apply (sw_targets _ Hs)].
    eapply Forall_impl; [apply (sw_derivations _ Hs)|]. intros d. apply derivation_ok_mono.
    intros n t. unfold named_type, get_index, type_at. simpl. by rewrite Hcols, Hidx. }
  unfold L. rewrite <-(app_nil_r (section_bytes _ _ _)). rewrite (marked_reads _ _ b2 (set_logicals b2 (os_logical_types s))).
  - unfold set_logicals. simpl. rewrite Hcols, Hidx. by destruct s.
  - intros _. by apply reads_logicals_section.
  - intros Hl. unfold has_logical in Hl. apply existsb_false in Hl.
    replace (os_logical_types s) with (os_logical_types b2); [by destruct b2|].
    simpl. rewrite Hlog, <-(sw_logicals _ Hs). apply replicate_as_elem_of. split; [done|].
    intros x Hx. rewrite Forall_forall in Hl. by apply no_option, Hl.
  - done.
Qed.

End whole.

(** ** Two columns of one name *)

(** Whatever follows the columns in the bytes, the columns stay as they were read. *)
Definition keeps (cols : list (string * ColumnType)) (p : Reader OnDemandSchema) : Prop :=
  forall bs s rest, p bs = Done (s, rest) -> os_columns s = cols.

Definition keeps_opt (cols : list (string * ColumnType)) (p : Reader (option OnDemandSchema)) : Prop :=
  forall bs s rest, p bs = Done (Some s, rest) -> os_columns s = cols.

Section keeps.
Context (cols : list (string * ColumnType)).

Lemma keeps_ret s : os_columns s = cols -> keeps cols (ret s).
Proof. intros Hs bs s' rest. unfold ret. intros [= <- _]. done. Qed.

Lemma keeps_some s : os_columns s = cols -> keeps_opt cols (ret (Some s)).
Proof. intros Hs bs s' rest. unfold ret. intros [= <- _]. done. Qed.

Lemma keeps_bind {A} (p : Reader A) k : (forall a, keeps cols (k a)) -> keeps cols (bind p k).
Proof. intros Hk bs s rest. unfold bind. destruct (p bs) as [[a mid]| |]; [apply Hk|done..]. Qed.

Lemma keeps_opt_bind {A} (p : Reader A) k : (forall a, keeps_opt cols (k a)) -> keeps_opt cols (bind p k).
Proof. intros Hk bs s rest. unfold bind. destruct (p bs) as [[a mid]| |]; [apply Hk|done..]. Qed.

Lemma keeps_then p k : keeps cols p -> (forall s, os_columns s = cols -> keeps cols (k s)) -> keeps cols (bind p k).
Proof.
  intros Hp Hk bs s rest. unfold bind. destruct (p bs) as [[a mid]| |] eqn:Ha; [|done..]. apply Hk. by eapply Hp.
Qed.

Lemma keeps_break : keeps_opt cols break.
Proof. done. Qed.

Lemma keeps_or_break n k : (forall b, keeps_opt cols (k b)) -> keeps_opt cols (bytes_or_break n k).
Proof. intros Hk bs s rest. unfold bytes_or_break. destruct (_ <=? _); [apply Hk|done]. Qed.

Lemma keeps_str16 k : (forall b, keeps_opt cols (k b)) -> keeps_opt cols (str16_or_break k).
Proof. intros Hk. do 2 (apply keeps_or_break; intros ?). apply Hk. Qed.

Lemma keeps_for_break step i n s :
  (forall i s, os_columns s = cols -> keeps_opt cols (step i s)) -> os_columns s = cols ->
  keeps cols (for_break step i n s).
Proof.
  intros Hstep. revert i s. induction n as [|n IH]; intros i s Hs; cbn [for_break]; [by apply keeps_ret|].
  intros bs s' rest. unfold bind. destruct (step i s bs) as [[[s1|] mid]| |] eqn:H1; [|by apply keeps_ret|done..].
  apply IH. eapply Hstep; [exact Hs|exact H1].
Qed.

Lemma keeps_marked marker body s :
  (os_columns s = cols -> keeps cols (body s)) -> os_columns s = cols -> keeps cols (marked marker body s).
Proof.
  intros Hb Hs bs s' rest. unfold marked. destruct bs as [|b bs]; [by intros [= <- _]|].
  destruct (b =? marker); [by apply Hb|by intros [= <- _]].
Qed.

Create HintDb keeps.
#[local] Hint Resolve keeps_some keeps_break : keeps.

Ltac keeps_step :=
  repeat first [ apply keeps_or_break; intros ? | apply keeps_str16; intros ? | apply keeps_opt_bind; intros ?
               | case_match | solve [auto with keeps] ].

Lemma read_constraints_keeps n s : os_columns s = cols -> keeps cols (read_constraints n s).
Proof.
  intros Hs bs s' rest. unfold read_constraints. destruct (_ && _); [|by intros [= <- _]].
  revert bs s' rest. change (keeps cols
    (let! s := for_break read_flags 0 n s in
     let! s := marked DEFAULTS_MARKER (for_break read_default 0 n) s in
     let! s := marked CHECKS_MARKER (for_break read_check 0 n) s in
     marked FOREIGN_KEYS_MARKER (for_break read_foreign_key 0 n) s)).
  apply keeps_then; [apply keeps_for_break; [|done]; intros i s1 H1; unfold read_flags; keeps_step|]. intros s1 H1.
  apply keeps_then; [apply keeps_marked; [|done]; intros _; apply keeps_for_break; [|done];
    intros i s2 H2; unfold read_default; keeps_step|]. intros s2 H2.
  apply keeps_then; [apply keeps_marked; [|done]; intros _; apply keeps_for_break; [|done];
    intros i s3 H3; unfold read_check; keeps_step|]. intros s3 H3.
  apply keeps_marked; [|done]. intros _. apply keeps_for_break; [|done].
  intros i s4 H4. unfold read_foreign_key. keeps_step.
Qed.

Lemma parse_vector_derivations_keeps s : os_columns s = cols -> keeps cols (parse_vector_derivations s).
Proof.
  intros Hs. unfold parse_vector_derivations. apply keeps_bind. intros n.
  generalize (Z.to_nat n). clear n. intros n. revert s Hs. induction n as [|n IH]; intros s Hs; cbn [read_derivations].
  { by apply keeps_ret. }
  do 3 (apply keeps_bind; intros ?). destruct (add_vector_derivation _ _ _ _) as [[s'|e]|] eqn:Hd; [|done..].
  apply IH. by apply add_vector_derivation_inv in Hd as (-> & _).
Qed.

Lemma set_logical_type_columns s i l : os_columns (set_logical_type s i l) = os_columns s.
Proof. unfold set_logical_type. by destruct (_ <=? i)%nat. Qed.

Lemma parse_logical_types_keeps s : os_columns s = cols -> keeps cols (parse_logical_types s).
Proof.
  intros Hs. unfold parse_logical_types. do 2 (apply keeps_bind; intros ?).
  destruct (negb _); [done|]. destruct (negb _); [done|].
  generalize (Z.to_nat a0) 0%nat. intros n i. revert s i Hs. induction n as [|n IH]; intros s i Hs; cbn [read_logicals].
  { by apply keeps_ret. }
  apply keeps_bind. intros present. destruct (present =? 1); [|by apply IH].
  apply keeps_bind. intros l. apply IH. by rewrite set_logical_type_columns.
Qed.

End keeps.

Lemma add_named_le s c : (column_count (add_named s c) <= S (column_count s))%nat.
Proof.
  unfold add_named, add_column, column_count. destruct (_ !! c.1); simpl; [lia|]. rewrite length_app. simpl. lia.
Qed.

Lemma add_columns_le cs s : (column_count (foldl add_named s cs) <= column_count s + length cs)%nat.
Proof.
  revert s. induction cs as [|c cs IH]; intros s; simpl; [lia|].
  pose proof (IH (add_named s c)). pose proof (add_named_le s c). lia.
Qed.

(** A repeated name is read into the column that already has it. *)
Lemma add_columns_lt cs s :
  schema_wf s -> ~ NoDup ((os_columns s).*1 ++ cs.*1) ->
  (column_count (foldl add_named s cs) < column_count s + length cs)%nat.
Proof.
  revert s. induction cs as [|c cs IH]; intros s Hs Hnd; simpl in *.
  { destruct Hnd. rewrite app_nil_r. by apply names_nodup. }
  destruct (os_name_to_idx s !! c.1) as [i|] eqn:Hc.
  - assert (Ha : add_named s c = s) by (unfold add_named, add_column; by rewrite Hc).
    rewrite Ha. pose proof (add_columns_le cs s). lia.
  - assert (Ha : add_named s c = push_column s c.1 c.2 ColumnConstraints_default)
      by (unfold add_named, add_column; by rewrite Hc).
    rewrite Ha. pose proof (IH _ (push_column_wf s c.1 c.2 ColumnConstraints_default Hs Hc)) as Hlt.
    unfold column_count in *. simpl in Hlt. rewrite fmap_app, <-app_assoc, length_app in Hlt. simpl in Hlt.
    specialize (Hlt Hnd). lia.
Qed.

Lemma repeated_name_loses_column s s' :
  Forall (fun c => short_text c.1) (os_columns s) -> unsigned 4 (Z.of_nat (column_count s)) ->
  ~ NoDup (os_columns s).*1 ->
  OnDemandSchema_from_bytes (OnDemandSchema_to_bytes s) = Done s' -> (column_count s' < column_count s)%nat.
Proof.
  intros Hn Hc Hnd. unfold OnDemandSchema_from_bytes, OnDemandSchema_to_bytes.
  pose proof (add_columns_lt (os_columns s) OnDemandSchema_new schema_new_wf Hnd) as Hlt. simpl in Hlt.
  set (b := foldl add_named OnDemandSchema_new (os_columns s)) in *.
  unfold bind at 1. rewrite (reads_u Invalid 4) by done. rewrite Nat2Z.id.
  unfold bind at 1. rewrite (reads_columns (os_columns s) OnDemandSchema_new Hn). fold b.
  set (rest := constraints_bytes s ++ _). clearbody rest.
  assert (Hk : keeps (os_columns b)
    (let! s0 := read_constraints (column_count s) b in
     let! s0 := marked DERIVATIONS_MARKER parse_vector_derivations s0 in
     marked LOGICAL_TYPES_MARKER parse_logical_types s0)).
  { apply keeps_then; [by apply read_constraints_keeps|]. intros s1 H1.
    apply keeps_then; [apply keeps_marked; [|done]; by apply parse_vector_derivations_keeps|]. intros s2 H2.
    apply keeps_marked; [|done]. by apply parse_logical_types_keeps. }
  destruct (bind _ _ rest) as [[s1 r]| |] eqn:H1; [|done..]. simpl. intros [= <-].
  apply Hk in H1. unfold column_count in *. rewrite H1. exact Hlt.
Qed.

(** Renaming a column to a name another column has repeats that name. *)
Lemma rename_collision_repeats s old_name new_name i j :
  schema_wf s -> get_index s old_name = Some i -> get_index s new_name = Some j -> old_name <> new_name ->
  ~ NoDup (os_columns (rename_column s old_name new_name).1).*1.
Proof.
  intros Hs Hi Hj Hne Hnd. assert (Hij : i <> j).
  { intros ->. apply (sw_index _ Hs) in Hi. apply (sw_index _ Hs) in Hj. congruence. }
  apply Hij. apply (NoDup_lookup _ i j new_name Hnd).
  - rewrite list_lookup_fmap. change (column_name (rename_column s old_name new_name).1 i = Some new_name).
    rewrite (renamed_name _ _ _ _ Hs Hi). by rewrite decide_True.
  - rewrite list_lookup_fmap. change (column_name (rename_column s old_name new_name).1 j = Some new_name).
    rewrite (renamed_name _ _ _ _ Hs Hi), decide_False by done. by apply (sw_index _ Hs).
Qed.

(** ** Properties *)

(** C25 A schema built from the empty one by adding columns (with or without constraints),
    attaching parameterised types, registering and dropping derived vectors and renaming columns
    to unused names is read back from its own bytes exactly, whatever constraints, defaults, CHECK
    texts, foreign keys and logical types it carries, as long as the texts fit their 16-bit
    length fields. *)
Theorem schema_survives (ops : list SchemaOp) (Hops : ops_ok OnDemandSchema_new ops) :
  let s := schema_run OnDemandSchema_new ops in
  unsigned 4 (Z.of_nat (column_count s)) -> unsigned 2 (len_of (os_vector_derivations s)) ->
  schema_wf s /\ OnDemandSchema_from_bytes (OnDemandSchema_to_bytes s) = Done s.
Proof.
  intros s Hn Hd. destruct (schema_run_ok OnDemandSchema_new ops) as [Hs He];
    auto using schema_new_wf, schema_new_encodable, schema_reads.
Qed.

Definition schema_demo : list SchemaOp :=
  [SoAdd "id" TInt64;
   SoAddWith "name" TString (mkConstraints true false true (Some (DvString "n/a")) (Some "length(name) > 1") (Some ("people", "")) false);
   SoAdd "v" TFixedList; SoAdd "q" TInt8Vector; SoDerive "v" "q" 2; SoRename "v" "vec";
   SoSetLogical 0 (Some (LtDecimal 10 (-2))); SoRename "missing" "id2"].

Lemma short_name s : utf8_valid (string_bytes s) && (len_of (string_bytes s) <? 65536) = true -> short_text s.
Proof. intros [Hv Hl]%andb_true_iff. split; [done|]. unfold unsigned, width, len_of in *. simpl. lia. Qed.

Lemma schema_demo_ok : ops_ok OnDemandSchema_new schema_demo.
Proof.
  unfold schema_demo. cbn [ops_ok op_ok].
  repeat match goal with
  | |- _ /\ _ => split
  | |- short_text _ => by apply short_name
  | |- constraints_ok _ => split; [|split]; cbn; intros; simplify_eq; cbn
  | |- nonempty_text _ => split
  | |- forall t, Some _ = Some t -> _ => intros t [= <-]; cbn
  | |- unsigned _ _ => by vm_compute
  | |- signed _ _ => by vm_compute
  | |- _ \/ _ => left; by vm_compute
  | _ => done
  end.
Qed.

Lemma schema_survives_witness :
  ops_ok OnDemandSchema_new schema_demo /\
  OnDemandSchema_from_bytes (OnDemandSchema_to_bytes (schema_run OnDemandSchema_new schema_demo))
  = Done (schema_run OnDemandSchema_new schema_demo) /\
  (os_columns (schema_run OnDemandSchema_new schema_demo)).*1 = ["id"; "name"; "vec"; "q"].
Proof.
  split; [exact schema_demo_ok|]. split; [|by vm_compute].
  apply (schema_survives schema_demo schema_demo_ok); by vm_compute.
Defined.
