(* ===== verification/FileFormat.v ===== *)
(** * The table file

    Models the rest of [storage/on_demand/header.rs]: the 256-byte file header, the row-group
    directory, the zone-map, column-offset and chunk sections of the footer, and the legacy column
    index; the validation and the opening sequence of [storage_core.rs]; and the in-place footer
    rewrite behind ALTER TABLE ([update_v4_footer_schema] of [read_write.rs]).  A file is the list
    of its bytes.  The checksum ([crc32fast::hash]) is a parameter. *)
From S2P Require Import Prelude Bytes Columns ZoneMaps Schema.
Local Open Scope Z_scope.
Local Open Scope apex_scope.

(** ** Constants *)

Definition MAGIC : list Z := string_bytes "APEXV3" ++ [0; 0].
Definition MAGIC_V4_FOOTER : list Z := string_bytes "APXFOOT" ++ [0].
Definition ZONE_MAP_MAGIC : list Z := string_bytes "ZMAP".
Definition RCIX_MAGIC : list Z := string_bytes "RCIX".
Definition CHUNK_MAGIC : list Z := string_bytes "CHNK".
Definition FORMAT_VERSION_V4 : Z := 4.
Definition FORMAT_VERSION_V5 : Z := 5.
Definition FORMAT_VERSION_MAX : Z := FORMAT_VERSION_V5.
Definition HEADER_SIZE : nat := 256.
Definition ROW_GROUP_META_SIZE : Z := 40.

Definition supported_file_version (version : Z) : bool :=
  (FORMAT_VERSION_V4 <=? version) && (version <=? FORMAT_VERSION_MAX).

(** ** The data *)

Record OnDemandHeader := mkHeader {
  oh_version : Z;
  oh_flags : Z;
  oh_row_count : Z;
  oh_column_count : Z;
  oh_row_group_size : Z;
  oh_schema_offset : Z;
  oh_column_index_offset : Z;
  oh_id_column_offset : Z;
  oh_created_at : Z;
  oh_modified_at : Z;
  oh_checksum : Z;
  oh_footer_offset : Z;
  oh_row_group_count : Z
}.

Record RowGroupMeta := mkRowGroup {
  rg_offset : Z;
  rg_data_size : Z;
  rg_row_count : Z;
  rg_min_id : Z;
  rg_max_id : Z;
  rg_deletion_count : Z
}.

(** A chunk is its length. *)
Record ChunkedColumn := mkChunked {
  ck_chunks : list Z;
  ck_flat_len : Z;
  ck_flat_off : Z
}.

Record V4Footer := mkFooter {
  vf_schema : OnDemandSchema;
  vf_row_groups : list RowGroupMeta;
  vf_zone_maps : list (list RgColumnZoneMap);
  vf_col_offsets : list (list Z);
  vf_chunk_tables : list (list (option ChunkedColumn))
}.

Record ColumnIndexEntry := mkColumnIndex {
  ci_data_offset : Z;
  ci_data_length : Z;
  ci_null_offset : Z;
  ci_null_length : Z
}.

(** ** The header *)

(** The bytes the checksum covers. *)
Definition header_core (h : OnDemandHeader) : list Z :=
  MAGIC ++ to_le 4 (oh_version h) ++ to_le 4 (oh_flags h) ++ to_le 8 (oh_row_count h)
  ++ to_le 4 (oh_column_count h) ++ to_le 4 (oh_row_group_size h) ++ to_le 8 (oh_schema_offset h)
  ++ to_le 8 (oh_column_index_offset h) ++ to_le 8 (oh_id_column_offset h)
  ++ to_le 8 (oh_created_at h) ++ to_le 8 (oh_modified_at h).

Definition HEADER_CORE_SIZE : nat := 72.

Section checksum.
Context (crc32 : list Z -> Z).

Definition OnDemandHeader_to_bytes (h : OnDemandHeader) : list Z :=
  resize HEADER_SIZE 0
    (header_core h ++ to_le 4 (crc32 (header_core h)) ++ to_le 8 (oh_footer_offset h)
     ++ to_le 4 (oh_row_group_count h)).

(** The argument is an array of [HEADER_SIZE] bytes. *)
Definition OnDemandHeader_from_bytes (bytes : list Z) : Outcome OnDemandHeader :=
  outcome_bind
    ((let! magic := index 8 in
      if negb (bool_decide (magic = MAGIC)) then invalid
      else
        let! version := read_u Panic 4 in
        if FORMAT_VERSION_MAX <? version then invalid
        else
          let! flags := read_u Panic 4 in
          let! row_count := read_u Panic 8 in
          let! column_count := read_u Panic 4 in
          let! row_group_size := read_u Panic 4 in
          let! schema_offset := read_u Panic 8 in
          let! column_index_offset := read_u Panic 8 in
          let! id_column_offset := read_u Panic 8 in
          let! created_at := read_i Panic 8 in
          let! modified_at := read_i Panic 8 in
          let! checksum := read_u Panic 4 in
          if negb (crc32 (take HEADER_CORE_SIZE bytes) =? checksum) then invalid
          else
            let! footer_offset := read_u Panic 8 in
            let! row_group_count := read_u Panic 4 in
            ret (mkHeader version flags row_count column_count row_group_size schema_offset
                   column_index_offset id_column_offset created_at modified_at checksum footer_offset
                   row_group_count)) bytes)
    (fun r => Done r.1).

End checksum.

(** ** Row groups and the column index *)

Definition RowGroupMeta_to_bytes (rg : RowGroupMeta) : list Z :=
  to_le 8 (rg_offset rg) ++ to_le 8 (rg_data_size rg) ++ to_le 4 (rg_row_count rg)
  ++ to_le 8 (rg_min_id rg) ++ to_le 8 (rg_max_id rg) ++ to_le 4 (rg_deletion_count rg).

Definition RowGroupMeta_from_bytes : Reader RowGroupMeta :=
  let! offset := read_u Panic 8 in
  let! data_size := read_u Panic 8 in
  let! row_count := read_u Panic 4 in
  let! min_id := read_u Panic 8 in
  let! max_id := read_u Panic 8 in
  let! deletion_count := read_u Panic 4 in
  ret (mkRowGroup offset data_size row_count min_id max_id deletion_count).

Definition active_rows (rg : RowGroupMeta) : Z := Z.max 0 (rg_row_count rg - rg_deletion_count rg).

Definition ColumnIndexEntry_to_bytes (c : ColumnIndexEntry) : list Z :=
  to_le 8 (ci_data_offset c) ++ to_le 8 (ci_data_length c) ++ to_le 8 (ci_null_offset c)
  ++ to_le 8 (ci_null_length c).

Definition ColumnIndexEntry_from_bytes : Reader ColumnIndexEntry :=
  let! data_offset := read_u Panic 8 in
  let! data_length := read_u Panic 8 in
  let! null_offset := read_u Panic 8 in
  let! null_length := read_u Panic 8 in
  ret (mkColumnIndex data_offset data_length null_offset null_length).

(** ** The footer's sections *)

(** [rows.len() as u16] and the entries. *)
Definition counted {A} (enc : A -> list Z) (row : list A) : list Z := to_le 2 (len_of row) ++ (row ≫= enc).

(** A section of per-row-group rows, written when there are any. *)
Definition group_section {A} (magic : list Z) (enc : A -> list Z) (groups : list (list A)) : list Z :=
  if bool_decide (groups = []) then [] else magic ++ to_le 4 (len_of groups) ++ (groups ≫= counted enc).

Definition zone_flags (zm : RgColumnZoneMap) : Z :=
  Z.lor (Z.lor (Z.lor (Z.b2z (zm_has_nulls zm)) (Z.shiftl (Z.b2z (zm_is_float zm)) 1))
    (Z.shiftl (Z.b2z (zm_is_string_prefix zm)) 2)) (Z.shiftl (Z.b2z (zm_is_string_tail zm)) 3).

Definition zone_bytes (zm : RgColumnZoneMap) : list Z :=
  to_le 2 (zm_col_idx zm) ++ to_le 8 (zm_min_bits zm) ++ to_le 8 (zm_max_bits zm) ++ [zone_flags zm].

Definition chunked_bytes (col : option ChunkedColumn) : list Z :=
  match col with
  | Some chunked =>
      to_le 4 (ck_flat_len chunked) ++ to_le 4 (ck_flat_off chunked) ++ to_le 4 (len_of (ck_chunks chunked))
      ++ (ck_chunks chunked ≫= to_le 4)
  | None => to_le 4 0 ++ to_le 4 0 ++ to_le 4 0
  end.

(** Everything before the size and the closing magic. *)
Definition footer_body (f : V4Footer) : list Z :=
  let schema_bytes := OnDemandSchema_to_bytes (vf_schema f) in
  to_le 8 (len_of schema_bytes) ++ schema_bytes
  ++ to_le 4 (len_of (vf_row_groups f)) ++ (vf_row_groups f ≫= RowGroupMeta_to_bytes)
  ++ group_section ZONE_MAP_MAGIC zone_bytes (vf_zone_maps f)
  ++ group_section RCIX_MAGIC (to_le 4) (vf_col_offsets f)
  ++ group_section CHUNK_MAGIC chunked_bytes (vf_chunk_tables f).

Definition V4Footer_to_bytes (f : V4Footer) : list Z :=
  footer_body f ++ to_le 8 (len_of (footer_body f) + 8 + 8) ++ MAGIC_V4_FOOTER.

(** [pos + 4 <= bytes.len() && &bytes[pos..pos + 4] == magic] *)
Definition with_magic {A} (magic : list Z) (absent : A) (body : Reader A) : Reader A := fun bs =>
  if (4 <=? len_of bs) && bool_decide (take 4 bs = magic) then body (drop 4 bs) else Done (absent, bs).

(** [for _ in 0..n], pushing onto a vector and stopping at a break. *)
Definition collect {A} (step : list A -> Reader (option (list A))) (n : Z) : Reader (list A) :=
  for_break (fun _ acc => step acc) 0 (Z.to_nat n) [].

(** One row group's vector: its length, its entries as far as they go. *)
Definition read_group {A} (entry : list A -> Reader (option (list A))) (acc : list (list A))
    : Reader (option (list (list A))) :=
  bytes_or_break 2 (fun l => let! row := collect entry (u_from_le l) in ret (Some (acc ++ [row]))).

Definition zone_of (b : list Z) : RgColumnZoneMap :=
  let flags := u_from_le (take 1 (drop 18 b)) in
  mkZone (u_from_le (take 2 b)) (i_from_le (take 8 (drop 2 b))) (i_from_le (take 8 (drop 10 b)))
    (negb (Z.land flags 1 =? 0)) (negb (Z.land flags 2 =? 0)) (negb (Z.land flags 4 =? 0))
    (negb (Z.land flags 8 =? 0)).

Definition read_zone (acc : list RgColumnZoneMap) : Reader (option (list RgColumnZoneMap)) :=
  bytes_or_break 19 (fun b => ret (Some (acc ++ [zone_of b]))).

Definition read_offset (acc : list Z) : Reader (option (list Z)) :=
  bytes_or_break 4 (fun b => ret (Some (acc ++ [u_from_le b]))).

Definition read_chunked (acc : list (option ChunkedColumn)) : Reader (option (list (option ChunkedColumn))) :=
  bytes_or_break 12 (fun b =>
    let count := u_from_le (take 4 (drop 8 b)) in
    if count =? 0 then ret (Some (acc ++ [None]))
    else fun bs =>
      if len_of bs <? count * 4 then break bs
      else (let! chunks := read_n (Z.to_nat count) (read_u Panic 4) in
            ret (Some (acc ++ [Some (mkChunked chunks (u_from_le (take 4 b)) (u_from_le (take 4 (drop 4 b))))]))) bs).

(** The zone-map count is read without a bound check; the other two sections check. *)
Definition read_zone_maps : Reader (list (list RgColumnZoneMap)) :=
  with_magic ZONE_MAP_MAGIC [] (let! n := read_u Panic 4 in collect (read_group read_zone) n).

Definition checked_groups {A} (entry : list A -> Reader (option (list A))) : Reader (list (list A)) := fun bs =>
  if 4 <=? len_of bs then (let! n := read_u Panic 4 in collect (read_group entry) n) bs else Done ([], bs).

Definition read_col_offsets : Reader (list (list Z)) := with_magic RCIX_MAGIC [] (checked_groups read_offset).

Definition read_chunk_tables : Reader (list (list (option ChunkedColumn))) :=
  with_magic CHUNK_MAGIC [] (checked_groups read_chunked).

(** [if pos + ROW_GROUP_META_SIZE > bytes.len() { return Err(..) }] *)
Definition read_row_group : Reader RowGroupMeta := fun bs =>
  if len_of bs <? ROW_GROUP_META_SIZE then Invalid else RowGroupMeta_from_bytes bs.

Definition V4Footer_from_bytes (bytes : list Z) : Outcome V4Footer :=
  if len_of bytes <? 20 then Invalid
  else
    outcome_bind
      ((let! schema_len := read_u Panic 8 in
        let! schema_bytes := get schema_len in
        fun bs =>
          outcome_bind (OnDemandSchema_from_bytes schema_bytes) (fun schema =>
            (let! rg_count := read_u Invalid 4 in
             let! row_groups := read_n (Z.to_nat rg_count) read_row_group in
             let! zone_maps := read_zone_maps in
             let! col_offsets := read_col_offsets in
             let! chunk_tables := read_chunk_tables in
             ret (mkFooter schema row_groups zone_maps col_offsets chunk_tables)) bs)) bytes)
      (fun r => Done r.1).

(** [u64] sums wrap. *)
Definition total_active_rows (f : V4Footer) : Z :=
  foldl (fun acc rg => wrap64 (acc + active_rows rg)) 0 (vf_row_groups f).
Definition total_rows (f : V4Footer) : Z :=
  foldl (fun acc rg => wrap64 (acc + rg_row_count rg)) 0 (vf_row_groups f).

(** ** Opening a file *)

(** The [try_fold] over the row groups: live rows, or [None]. *)
Definition add_live_rows (total : option Z) (group : RowGroupMeta) : option Z :=
  total ← total;
  if rg_row_count group <? rg_deletion_count group then None
  else
    let sum := total + (rg_row_count group - rg_deletion_count group) in
    if sum <? U64_MOD then Some sum else None.

Definition footer_rows (f : V4Footer) : option Z := foldl add_live_rows (Some 0) (vf_row_groups f).

Definition group_in_bounds (header : OnDemandHeader) (group : RowGroupMeta) : bool :=
  let last := rg_offset group + rg_data_size group in
  (last <? U64_MOD) && (Z.of_nat HEADER_SIZE <=? rg_offset group) && (last <=? oh_footer_offset header).

Definition validate_v4_layout (header : OnDemandHeader) (footer : V4Footer) (file_len : Z) : Outcome Z :=
  if (oh_footer_offset header <? Z.of_nat HEADER_SIZE) || (file_len <? oh_footer_offset header) then Invalid
  else if negb (oh_column_count header =? Z.of_nat (column_count (vf_schema footer))) then Invalid
  else if negb (bool_decide (footer_rows footer = Some (oh_row_count header))) then Invalid
  else if negb (forallb (group_in_bounds header) (vf_row_groups footer)) then Invalid
  else Done (oh_row_count header).

Section file.
Context (crc32 : list Z -> Z).

(** The header and the footer of an existing file.  The code re-reads both a few times before it
    gives up, for a writer that is publishing; on a file that does not change every attempt gives
    this result. *)
Definition open_layout (file : list Z) : Outcome (OnDemandHeader * V4Footer * Z) :=
  if len_of file <? Z.of_nat HEADER_SIZE then Invalid
  else
    outcome_bind (OnDemandHeader_from_bytes crc32 (take HEADER_SIZE file)) (fun header =>
      if oh_footer_offset header =? 0 then Invalid
      else if negb ((Z.of_nat HEADER_SIZE <=? oh_footer_offset header) && (oh_footer_offset header <=? len_of file))
      then Invalid
      else
        outcome_bind (V4Footer_from_bytes (drop (Z.to_nat (oh_footer_offset header)) file)) (fun footer =>
          outcome_bind (validate_v4_layout header footer (len_of file)) (fun id_count =>
            Done (header, footer, id_count)))).

(** [footer.row_groups.iter().filter(..).map(|rg| rg.max_id).max().map(|m| m + 1)]; 1 is [FIRST_ROW_ID]. *)
Definition next_id_of (f : V4Footer) : Z :=
  match filter (fun rg => 0 < rg_row_count rg) (vf_row_groups f) with
  | [] => 1
  | rg :: rgs => wrap64 (foldl (fun m rg => Z.max m (rg_max_id rg)) (rg_max_id rg) rgs + 1)
  end.

Definition set_column_count (h : OnDemandHeader) (n : Z) : OnDemandHeader :=
  mkHeader (oh_version h) (oh_flags h) (oh_row_count h) n (oh_row_group_size h) (oh_schema_offset h)
    (oh_column_index_offset h) (oh_id_column_offset h) (oh_created_at h) (oh_modified_at h) (oh_checksum h)
    (oh_footer_offset h) (oh_row_group_count h).

(** The file and the in-memory header after the footer is rewritten in place with [schema]: the
    footer at its old offset with a second size and magic behind it, the tail cut off, and the
    header written over the first bytes. *)
Definition update_v4_footer_schema (header : OnDemandHeader) (schema : OnDemandSchema) (file : list Z)
    : Outcome (OnDemandHeader * list Z) :=
  let offset := Z.to_nat (oh_footer_offset header) in
  if negb (supported_file_version (oh_version header)) || (oh_footer_offset header =? 0) then Invalid
  else if len_of file <? oh_footer_offset header then Panic
  else
    outcome_bind (V4Footer_from_bytes (drop offset file)) (fun footer =>
      let footer := mkFooter schema (vf_row_groups footer) (vf_zone_maps footer) (vf_col_offsets footer)
                      (vf_chunk_tables footer) in
      let new_footer_bytes := V4Footer_to_bytes footer in
      let file := take offset file ++ new_footer_bytes ++ to_le 8 (len_of new_footer_bytes) ++ MAGIC_V4_FOOTER in
      let header := set_column_count header (Z.of_nat (column_count schema) mod 2 ^ 32) in
      Done (header, OnDemandHeader_to_bytes crc32 header ++ drop HEADER_SIZE file)).

End file.
