(* ===== verification/FileRoundTrip.v ===== *)
(** * A table file opens to what was written

    The header, the row-group directory and every section of the footer of [FileFormat.v] decode to
    what they were encoded from, whatever follows the footer in the file; a file laid out as the
    writers lay it out therefore opens to its header and footer, and opens again with the new
    schema after the footer was rewritten in place.  A rename that repeats a column name is written
    without complaint and leaves a file that never opens again. *)
From S2P Require Import Prelude Bytes Bits Float Columns ZoneMaps Schema SchemaFacts SchemaRoundTrip FileFormat WalFormat.
Local Open Scope Z_scope.
Local Open Scope apex_scope.

(** ** What the fields can hold *)

Definition header_ok (h : OnDemandHeader) : Prop :=
  0 <= oh_version h <= FORMAT_VERSION_MAX /\ unsigned 4 (oh_flags h) /\ unsigned 8 (oh_row_count h) /\
  unsigned 4 (oh_column_count h) /\ unsigned 4 (oh_row_group_size h) /\ unsigned 8 (oh_schema_offset h) /\
  unsigned 8 (oh_column_index_offset h) /\ unsigned 8 (oh_id_column_offset h) /\ signed 8 (oh_created_at h) /\
  signed 8 (oh_modified_at h) /\ unsigned 8 (oh_footer_offset h) /\ unsigned 4 (oh_row_group_count h).

Definition row_group_ok (rg : RowGroupMeta) : Prop :=
  unsigned 8 (rg_offset rg) /\ unsigned 8 (rg_data_size rg) /\ unsigned 4 (rg_row_count rg) /\
  unsigned 8 (rg_min_id rg) /\ unsigned 8 (rg_max_id rg) /\ unsigned 4 (rg_deletion_count rg).

Definition zone_ok (zm : RgColumnZoneMap) : Prop :=
  unsigned 2 (zm_col_idx zm) /\ signed 8 (zm_min_bits zm) /\ signed 8 (zm_max_bits zm).

(** A chunked column has a chunk. *)
Definition chunked_ok (col : option ChunkedColumn) : Prop :=
  match col with
  | Some c => unsigned 4 (ck_flat_len c) /\ unsigned 4 (ck_flat_off c) /\ ck_chunks c <> [] /\
              unsigned 4 (len_of (ck_chunks c)) /\ Forall (unsigned 4) (ck_chunks c)
  | None => True
  end.

(** The counts of a per-row-group section fit, and so do its entries. *)
Definition groups_ok {A} (ok : A -> Prop) (groups : list (list A)) : Prop :=
  unsigned 4 (len_of groups) /\ Forall (fun row => unsigned 2 (len_of row) /\ Forall ok row) groups.

(** The largest footer whose size field cannot be taken for a section. *)
Definition MAX_FOOTER : Z := 2 ^ 30.

Definition tables_ok (f : V4Footer) : Prop :=
  unsigned 4 (len_of (vf_row_groups f)) /\ Forall row_group_ok (vf_row_groups f) /\
  groups_ok zone_ok (vf_zone_maps f) /\ groups_ok (unsigned 4) (vf_col_offsets f) /\
  groups_ok chunked_ok (vf_chunk_tables f) /\ len_of (V4Footer_to_bytes f) < MAX_FOOTER.

Definition schema_ok (s : OnDemandSchema) : Prop :=
  schema_wf s /\ encodable s /\ unsigned 4 (Z.of_nat (column_count s)) /\
  unsigned 2 (len_of (os_vector_derivations s)).

(** ** Readers in sequence *)

Lemma bind_reads {A B} (p : Reader A) (k : A -> Reader B) e a rest :
  reads p e a -> bind p k (e ++ rest) = k a rest.
Proof. intros Hp. unfold bind. by rewrite Hp. Qed.

Ltac take_field :=
  first [ erewrite (bind_reads (read_u Panic 8) _ (to_le 8 _)) by (apply (reads_u Panic 8); done)
        | erewrite (bind_reads (read_u Panic 4) _ (to_le 4 _)) by (apply (reads_u Panic 4); done)
        | erewrite (bind_reads (read_i Panic 8) _ (to_le 8 _)) by (apply (reads_i Panic 7); done) ].

Lemma reads_row_group rg : row_group_ok rg -> reads read_row_group (RowGroupMeta_to_bytes rg) rg.
Proof.
  intros (H1 & H2 & H3 & H4 & H5 & H6) rest. unfold read_row_group.
  assert (Hlen : (len_of (RowGroupMeta_to_bytes rg ++ rest) <? ROW_GROUP_META_SIZE) = false).
  { unfold len_of, RowGroupMeta_to_bytes, ROW_GROUP_META_SIZE. rewrite !length_app, !to_le_length. apply Z.ltb_ge. lia. }
  rewrite Hlen. unfold RowGroupMeta_to_bytes, RowGroupMeta_from_bytes. rewrite <-!app_assoc.
  do 6 take_field. by destruct rg.
Qed.

Lemma column_index_reads c :
  unsigned 8 (ci_data_offset c) -> unsigned 8 (ci_data_length c) -> unsigned 8 (ci_null_offset c) ->
  unsigned 8 (ci_null_length c) -> reads ColumnIndexEntry_from_bytes (ColumnIndexEntry_to_bytes c) c.
Proof.
  intros H1 H2 H3 H4 rest. unfold ColumnIndexEntry_to_bytes, ColumnIndexEntry_from_bytes. rewrite <-!app_assoc.
  do 4 take_field. by destruct c.
Qed.

(** ** The header *)

Definition with_checksum (h : OnDemandHeader) (c : Z) : OnDemandHeader :=
  mkHeader (oh_version h) (oh_flags h) (oh_row_count h) (oh_column_count h) (oh_row_group_size h)
    (oh_schema_offset h) (oh_column_index_offset h) (oh_id_column_offset h) (oh_created_at h)
    (oh_modified_at h) c (oh_footer_offset h) (oh_row_group_count h).

Lemma header_core_length h : length (header_core h) = HEADER_CORE_SIZE.
Proof. unfold header_core. rewrite !length_app, !to_le_length. reflexivity. Qed.

Section header.
Context (crc32 : list Z -> Z) (Hcrc : forall bytes, unsigned 4 (crc32 bytes)).

Lemma header_bytes_split h : exists zeros,
  OnDemandHeader_to_bytes crc32 h =
  header_core h ++ to_le 4 (crc32 (header_core h)) ++ to_le 8 (oh_footer_offset h)
  ++ to_le 4 (oh_row_group_count h) ++ zeros.
Proof.
  unfold OnDemandHeader_to_bytes. set (l := header_core h ++ _).
  assert (Hl : length l = 88%nat) by (unfold l; rewrite !length_app, header_core_length, !to_le_length; reflexivity).
  rewrite resize_ge by (rewrite Hl; unfold HEADER_SIZE; lia). eexists. unfold l. by rewrite <-!app_assoc.
Qed.

Lemma header_bytes_length h : length (OnDemandHeader_to_bytes crc32 h) = HEADER_SIZE.
Proof. apply length_resize. Qed.

Lemma header_reads h :
  header_ok h ->
  OnDemandHeader_from_bytes crc32 (OnDemandHeader_to_bytes crc32 h) = Done (with_checksum h (crc32 (header_core h))).
Proof using Hcrc.
  intros (Hv & H1 & H2 & H3 & H4 & H5 & H6 & H7 & H8 & H9 & H10 & H11).
  destruct (header_bytes_split h) as (zeros & ->). unfold OnDemandHeader_from_bytes.
  rewrite <-(header_core_length h), take_app_length.
  set (c := crc32 (header_core h)). assert (Hc : unsigned 4 c) by apply Hcrc. clearbody c.
  unfold header_core. rewrite <-!app_assoc.
  erewrite (bind_reads (index 8) _ MAGIC) by (by apply reads_next). rewrite bool_decide_eq_true_2 by done. cbn [negb].
  assert (Hver : unsigned 4 (oh_version h)) by (unfold unsigned, width, FORMAT_VERSION_MAX, FORMAT_VERSION_V5 in *; simpl; lia).
  take_field. destruct (Z.ltb_spec FORMAT_VERSION_MAX (oh_version h)); [lia|].
  do 10 take_field. rewrite Z.eqb_refl. cbn [negb]. do 2 take_field. by destruct h.
Qed.

End header.

(** ** The footer's sections *)

Section groups.
Context {A : Type} (ok : A -> Prop) (enc : A -> list Z) (step : list A -> Reader (option (list A))).
Hypothesis step_reads : forall acc x, ok x -> reads (step acc) (enc x) (Some (acc ++ [x])).

Lemma reads_pushes i xs acc :
  Forall ok xs -> reads (for_break (fun _ acc => step acc) i (length xs) acc) (xs ≫= enc) (acc ++ xs).
Proof using step_reads.
  intros Hxs. revert i acc. induction Hxs as [|x xs Hx _ IH]; intros i acc; cbn [length for_break].
  { rewrite app_nil_r. apply reads_ret. }
  rewrite bind_cons. eapply reads_bind; [by apply step_reads|].
  specialize (IH (S i) (acc ++ [x])). by rewrite <-app_assoc in IH.
Qed.

Lemma reads_collect xs : Forall ok xs -> reads (collect step (len_of xs)) (xs ≫= enc) xs.
Proof using step_reads. intros Hxs. unfold collect, len_of. rewrite Nat2Z.id. by apply (reads_pushes 0 xs []). Qed.

Lemma reads_group acc row :
  unsigned 2 (len_of row) /\ Forall ok row -> reads (read_group step acc) (counted enc row) (Some (acc ++ [row])).
Proof using step_reads.
  intros [Hl Hrow]. unfold read_group, counted. apply (reads_or_break _ 2); [apply (len_to_le 2)|].
  rewrite u_from_to_le by done. eapply reads_last_eq; [by apply reads_collect|done].
Qed.

End groups.

Lemma reads_groups {A} (ok : A -> Prop) enc step (groups : list (list A)) :
  (forall acc x, ok x -> reads (step acc) (enc x) (Some (acc ++ [x]))) -> groups_ok ok groups ->
  reads (let! n := read_u Panic 4 in collect (read_group step) n)
    (to_le 4 (len_of groups) ++ (groups ≫= counted enc)) groups.
Proof.
  intros Hstep [Hl Hg]. eapply reads_bind; [by apply (reads_u Panic 4)|].
  eapply reads_collect; [|exact Hg]. intros acc row Hrow. by apply (reads_group ok).
Qed.

Definition not_magic (magic rest : list Z) : Prop := take 4 rest <> magic.

Lemma with_magic_reads {A} magic (body : Reader (list (list A))) (enc : A -> list Z) groups rest :
  length magic = 4%nat ->
  (forall rest, body (to_le 4 (len_of groups) ++ (groups ≫= counted enc) ++ rest) = Done (groups, rest)) ->
  not_magic magic rest ->
  with_magic magic [] body (group_section magic enc groups ++ rest) = Done (groups, rest).
Proof.
  intros Hm Hb Hr. unfold with_magic, group_section. case_bool_decide as Hg.
  - subst. simpl. rewrite (bool_decide_eq_false_2 (take 4 rest = magic)) by done. by rewrite andb_false_r.
  - rewrite <-!app_assoc. rewrite <-Hm, take_app_length, drop_app_length.
    rewrite bool_decide_eq_true_2 by done. unfold len_of at 1. rewrite length_app, Hm.
    destruct (Z.leb_spec 4 (Z.of_nat (4 + length (to_le 4 (len_of groups) ++ (groups ≫= counted enc) ++ rest)))); [|lia].
    cbn [andb]. apply Hb.
Qed.

Lemma section_not_magic {A} m magic (enc : A -> list Z) groups rest :
  length magic = 4%nat -> m <> magic -> not_magic m rest -> not_magic m (group_section magic enc groups ++ rest).
Proof.
  intros Hl Hne Hr. unfold group_section, not_magic. case_bool_decide; [done|].
  rewrite <-!app_assoc, <-Hl, take_app_length. congruence.
Qed.

(** A size field below 2^30 is none of the three magics. *)
Lemma size_not_magic m n rest :
  0 <= n < MAX_FOOTER -> (exists b, m !! 3%nat = Some b /\ 64 <= b) -> not_magic m (to_le 8 n ++ rest).
Proof.
  intros Hn (b & Hb & Hb64) <-. rewrite lookup_take_lt in Hb by lia.
  rewrite lookup_app_l in Hb by (rewrite to_le_length; lia). unfold to_le in Hb.
  assert (Hw : 0 <= n < width 8) by (change (width 8) with 18446744073709551616; change MAX_FOOTER with 1073741824 in Hn; lia).
  rewrite Z.mod_small in Hb by done.
  cbn [le_bytes lookup list_lookup] in Hb. simplify_eq. change MAX_FOOTER with 1073741824 in Hn.
  rewrite !Z.div_div in Hb64 by lia. change (256 * (256 * 256)) with 16777216 in Hb64.
  rewrite Z.mod_small in Hb64; [|split; [apply Z.div_pos; lia|apply Z.div_lt_upper_bound; lia]].
  assert (n / 16777216 < 64) by (apply Z.div_lt_upper_bound; lia). lia.
Qed.

(** ** Entries *)

Lemma zone_flags_spec a b c d e f g :
  let flags := zone_flags (mkZone a b c d e f g) in
  is_byte flags /\ negb (Z.land flags 1 =? 0) = d /\ negb (Z.land flags 2 =? 0) = e /\
  negb (Z.land flags 4 =? 0) = f /\ negb (Z.land flags 8 =? 0) = g.
Proof. unfold zone_flags. simpl. destruct d, e, f, g; vm_compute; by repeat split. Qed.

(** The [i]th field of a fixed layout. *)
Lemma field_skip {A} n (a b : list A) : length a = n -> drop n (a ++ b) = b.
Proof. intros <-. apply drop_app_length. Qed.

Lemma field_take {A} n (a b : list A) : length a = n -> take n (a ++ b) = a.
Proof. intros <-. apply take_app_length. Qed.

Lemma zone_of_bytes zm : zone_ok zm -> zone_of (zone_bytes zm) = zm.
Proof.
  intros (H1 & H2 & H3). destruct zm as [idx mn mx n f p t]. cbn in H1, H2, H3. unfold zone_of, zone_bytes.
  cbn [zm_col_idx zm_min_bits zm_max_bits].
  destruct (zone_flags_spec idx mn mx n f p t) as (Hb & F1 & F2 & F3 & F4).
  set (fl := zone_flags _) in *. clearbody fl.
  rewrite (field_take 2) by apply to_le_length. rewrite (field_skip 2) by apply to_le_length.
  rewrite (field_take 8) by apply to_le_length.
  replace (drop 10 (to_le 2 idx ++ to_le 8 mn ++ to_le 8 mx ++ [fl])) with (to_le 8 mx ++ [fl]).
  2:{ rewrite app_assoc. symmetry. apply field_skip. by rewrite length_app, !to_le_length. }
  replace (drop 18 (to_le 2 idx ++ to_le 8 mn ++ to_le 8 mx ++ [fl])) with [fl].
  2:{ rewrite !app_assoc. symmetry. apply field_skip. by rewrite !length_app, !to_le_length. }
  rewrite (field_take 8) by apply to_le_length.
  rewrite u_from_to_le, !i_from_to_le by done.
  replace (u_from_le (take 1 [fl])) with fl by (simpl; lia). by rewrite F1, F2, F3, F4.
Qed.

Lemma read_zone_spec acc zm : zone_ok zm -> reads (read_zone acc) (zone_bytes zm) (Some (acc ++ [zm])).
Proof.
  intros Hz. unfold read_zone. apply reads_or_break_end.
  - unfold len_of, zone_bytes. rewrite !length_app, !to_le_length. done.
  - rewrite zone_of_bytes by done. apply reads_ret.
Qed.

Lemma read_offset_spec acc x : unsigned 4 x -> reads (read_offset acc) (to_le 4 x) (Some (acc ++ [x])).
Proof.
  intros Hx. unfold read_offset. apply reads_or_break_end; [apply (len_to_le 4)|].
  rewrite u_from_to_le by done. apply reads_ret.
Qed.

Lemma encoded_u32s_length (l : list Z) : length (l ≫= to_le 4) = (4 * length l)%nat.
Proof. induction l as [|x l IH]; [done|]. rewrite bind_cons, length_app, to_le_length, IH. simpl. lia. Qed.

Lemma read_chunked_spec acc col :
  chunked_ok col -> reads (read_chunked acc) (chunked_bytes col) (Some (acc ++ [col])).
Proof.
  intros Hc. unfold read_chunked. destruct col as [[chunks len off]|]; unfold chunked_bytes; cbn [ck_chunks ck_flat_len ck_flat_off].
  - destruct Hc as (H1 & H2 & Hne & H3 & H4). cbn in H1, H2, Hne, H3, H4.
    rewrite (app_assoc (to_le 4 off)), app_assoc. apply reads_or_break.
    { unfold len_of. rewrite !length_app, !to_le_length. done. }
    rewrite (field_take 4) by apply to_le_length. rewrite (field_skip 4) by apply to_le_length.
    rewrite (field_take 4) by apply to_le_length.
    replace (drop 8 (to_le 4 len ++ to_le 4 off ++ to_le 4 (len_of chunks))) with (to_le 4 (len_of chunks)).
    2:{ rewrite app_assoc. symmetry. apply field_skip. by rewrite length_app, !to_le_length. }
    rewrite take_ge by (by rewrite to_le_length). rewrite !u_from_to_le by done.
    destruct (Z.eqb_spec (len_of chunks) 0) as [Hz|Hz]; [destruct chunks; unfold len_of in Hz; simpl in *; [done|lia]|].
    intros rest. assert (Hl : (len_of ((chunks ≫= to_le 4) ++ rest) <? len_of chunks * 4) = false).
    { apply Z.ltb_ge. unfold len_of. rewrite length_app, encoded_u32s_length. lia. }
    rewrite Hl. clear Hl. unfold len_of. rewrite Nat2Z.id. revert rest. change (reads
      (let! cs := read_n (length chunks) (read_u Panic 4) in ret (Some (acc ++ [Some (mkChunked cs len off)])))
      (chunks ≫= to_le 4) (Some (acc ++ [Some (mkChunked chunks len off)]))).
    eapply reads_last_eq; [apply (reads_read_n _ (to_le 4) id)|by rewrite list_fmap_id].
    eapply Forall_impl; [exact H4|]. intros x Hx. by apply (reads_u Panic 4).
  - change (to_le 4 0 ++ to_le 4 0 ++ to_le 4 0) with (replicate 12 0). apply reads_or_break_end; [done|].
    simpl. apply reads_ret.
Qed.

(** ** The footer *)

Lemma checked_groups_reads {A} (ok : A -> Prop) enc step (groups : list (list A)) rest :
  (forall acc x, ok x -> reads (step acc) (enc x) (Some (acc ++ [x]))) -> groups_ok ok groups ->
  checked_groups step (to_le 4 (len_of groups) ++ (groups ≫= counted enc) ++ rest) = Done (groups, rest).
Proof.
  intros Hstep Hg. unfold checked_groups. unfold len_of at 1. rewrite length_app, to_le_length.
  destruct (Z.leb_spec 4 (Z.of_nat (4 + length ((groups ≫= counted enc) ++ rest)))); [|lia].
  rewrite app_assoc. by apply (reads_groups ok).
Qed.

(** What the footer is after its schema. *)
Definition footer_tail : Reader (list RowGroupMeta * list (list RgColumnZoneMap) * list (list Z)
                                 * list (list (option ChunkedColumn))) :=
  let! rg_count := read_u Invalid 4 in
  let! row_groups := read_n (Z.to_nat rg_count) read_row_group in
  let! zone_maps := read_zone_maps in
  let! col_offsets := read_col_offsets in
  let! chunk_tables := read_chunk_tables in
  ret (row_groups, zone_maps, col_offsets, chunk_tables).

Definition tail_bytes (f : V4Footer) : list Z :=
  to_le 4 (len_of (vf_row_groups f)) ++ (vf_row_groups f ≫= RowGroupMeta_to_bytes)
  ++ group_section ZONE_MAP_MAGIC zone_bytes (vf_zone_maps f)
  ++ group_section RCIX_MAGIC (to_le 4) (vf_col_offsets f)
  ++ group_section CHUNK_MAGIC chunked_bytes (vf_chunk_tables f).

Lemma tail_reads f n rest :
  tables_ok f -> 0 <= n < MAX_FOOTER -> exists rest',
  footer_tail (tail_bytes f ++ to_le 8 n ++ rest) =
  Done (vf_row_groups f, vf_zone_maps f, vf_col_offsets f, vf_chunk_tables f, rest').
Proof.
  intros (Hn & Hrg & Hz & Ho & Hc & _) Hsize. exists (to_le 8 n ++ rest). unfold footer_tail, tail_bytes.
  set (after := to_le 8 n ++ rest).
  assert (Hafter : forall m b, m !! 3%nat = Some b -> 64 <= b -> not_magic m after)
    by (intros m b Hb H64; apply size_not_magic; eauto).
  rewrite <-!app_assoc. erewrite bind_reads by (by apply (reads_u Invalid 4)).
  unfold len_of. rewrite Nat2Z.id.
  erewrite bind_reads.
  2:{ apply (reads_read_n _ RowGroupMeta_to_bytes id). eapply Forall_impl; [exact Hrg|]. intros rg. apply reads_row_group. }
  rewrite list_fmap_id. unfold bind at 1, read_zone_maps. rewrite with_magic_reads; [|done| |].
  2:{ intros r. rewrite app_assoc. apply (reads_groups zone_ok); [apply read_zone_spec|done]. }
  2:{ apply section_not_magic; [done|done|]. apply section_not_magic; [done|done|]. by eapply Hafter. }
  unfold bind at 1, read_col_offsets. rewrite with_magic_reads; [|done| |].
  2:{ intros r. apply (checked_groups_reads (unsigned 4)); [apply read_offset_spec|done]. }
  2:{ apply section_not_magic; [done|done|]. by eapply Hafter. }
  unfold bind at 1, read_chunk_tables. rewrite with_magic_reads; [done|done| |].
  - intros r. apply (checked_groups_reads chunked_ok); [apply read_chunked_spec|done].
  - by eapply Hafter.
Qed.

(** The footer reader is the schema reader and then the tail. *)
Lemma footer_from_parts schema_bytes tail :
  unsigned 8 (len_of schema_bytes) -> (20 <= length (to_le 8 (len_of schema_bytes) ++ schema_bytes ++ tail))%nat ->
  V4Footer_from_bytes (to_le 8 (len_of schema_bytes) ++ schema_bytes ++ tail) =
  outcome_bind (OnDemandSchema_from_bytes schema_bytes) (fun schema =>
    outcome_bind (footer_tail tail) (fun r =>
      let '(rgs, zms, offs, cts, _) := r in Done (mkFooter schema rgs zms offs cts))).
Proof.
  intros Hs Hl. unfold V4Footer_from_bytes.
  destruct (Z.ltb_spec (len_of (to_le 8 (len_of schema_bytes) ++ schema_bytes ++ tail)) 20) as [Hlt|_];
    [unfold len_of in Hl, Hlt; lia|].
  erewrite bind_reads by (by apply (reads_u Panic 8)). erewrite bind_reads by (by apply reads_next).
  destruct (OnDemandSchema_from_bytes schema_bytes) as [schema| |]; [|done..]. cbn [outcome_bind].
  unfold footer_tail, bind, ret.
  destruct (read_u Invalid 4 tail) as [[n b1]| |]; [|done..].
  destruct (read_n (Z.to_nat n) read_row_group b1) as [[rgs b2]| |]; [|done..].
  destruct (read_zone_maps b2) as [[zms b3]| |]; [|done..].
  destruct (read_col_offsets b3) as [[offs b4]| |]; [|done..].
  by destruct (read_chunk_tables b4) as [[cts b5]| |].
Qed.

Lemma footer_bytes_split f rest :
  V4Footer_to_bytes f ++ rest =
  to_le 8 (len_of (OnDemandSchema_to_bytes (vf_schema f))) ++ OnDemandSchema_to_bytes (vf_schema f)
  ++ tail_bytes f ++ to_le 8 (len_of (V4Footer_to_bytes f)) ++ MAGIC_V4_FOOTER ++ rest.
Proof.
  assert (Hlen : len_of (V4Footer_to_bytes f) = len_of (footer_body f) + 8 + 8).
  { unfold V4Footer_to_bytes. unfold len_of at 1. rewrite length_app, length_app, to_le_length.
    change (length MAGIC_V4_FOOTER) with 8%nat. unfold len_of. lia. }
  rewrite Hlen. unfold V4Footer_to_bytes. generalize (to_le 8 (len_of (footer_body f) + 8 + 8)). intros sz.
  unfold footer_body, tail_bytes. by rewrite <-!app_assoc.
Qed.

(** What a footer with any schema is read as: the schema's own bytes decide. *)
Lemma footer_read f rest :
  tables_ok f ->
  V4Footer_from_bytes (V4Footer_to_bytes f ++ rest) =
  outcome_bind (OnDemandSchema_from_bytes (OnDemandSchema_to_bytes (vf_schema f))) (fun schema =>
    Done (mkFooter schema (vf_row_groups f) (vf_zone_maps f) (vf_col_offsets f) (vf_chunk_tables f))).
Proof.
  intros Hok. assert (Hsize : 0 <= len_of (V4Footer_to_bytes f) < MAX_FOOTER)
    by (split; [apply len_of_nonneg|apply Hok]).
  rewrite footer_bytes_split, footer_from_parts.
  - destruct (tail_reads f _ (MAGIC_V4_FOOTER ++ rest) Hok Hsize) as (r & ->). done.
  - pose proof (footer_bytes_split f []) as He. rewrite app_nil_r in He. rewrite He in Hsize.
    unfold len_of in *. rewrite !length_app in Hsize. change MAX_FOOTER with 1073741824 in Hsize.
    unfold unsigned. change (width 8) with 18446744073709551616. lia.
  - rewrite !length_app, !to_le_length. change (length MAGIC_V4_FOOTER) with 8%nat. unfold tail_bytes.
    rewrite !length_app, to_le_length. lia.
Qed.

(** ** Files *)

Section files.
Context (crc32 : list Z -> Z).

(** A file as the writers lay it out: header, row groups, footer, and whatever trails it. *)
Definition table_file (h : OnDemandHeader) (body : list Z) (f : V4Footer) (trail : list Z) : list Z :=
  OnDemandHeader_to_bytes crc32 h ++ body ++ V4Footer_to_bytes f ++ trail.

(** The header and the footer agree with each other and with the file. *)
Definition layout_ok (h : OnDemandHeader) (body : list Z) (f : V4Footer) : Prop :=
  header_ok h /\ oh_footer_offset h = Z.of_nat HEADER_SIZE + len_of body /\
  oh_column_count h = Z.of_nat (column_count (vf_schema f)) /\
  footer_rows f = Some (oh_row_count h) /\ forallb (group_in_bounds h) (vf_row_groups f) = true.

Hypothesis crc32_range : forall bytes, unsigned 4 (crc32 bytes).

Lemma table_file_parts h body f trail :
  oh_footer_offset h = Z.of_nat HEADER_SIZE + len_of body ->
  take HEADER_SIZE (table_file h body f trail) = OnDemandHeader_to_bytes crc32 h /\
  drop (Z.to_nat (oh_footer_offset h)) (table_file h body f trail) = V4Footer_to_bytes f ++ trail /\
  take (Z.to_nat (oh_footer_offset h)) (table_file h body f trail) = OnDemandHeader_to_bytes crc32 h ++ body /\
  Z.of_nat HEADER_SIZE <= oh_footer_offset h <= len_of (table_file h body f trail).
Proof.
  intros Ho. pose proof (header_bytes_length crc32 h) as Hh. unfold table_file.
  assert (Hn : Z.to_nat (oh_footer_offset h) = length (OnDemandHeader_to_bytes crc32 h ++ body))
    by (rewrite length_app, Hh, Ho; unfold len_of; lia).
  split; [rewrite <-Hh; apply take_app_length|]. rewrite Hn, app_assoc.
  split; [apply drop_app_length|]. split; [apply take_app_length|].
  rewrite Ho. unfold len_of. rewrite length_app, length_app, Hh. lia.
Qed.

(** Opening such a file is decided by the schema's bytes and the cross checks. *)
Lemma open_layout_file h body f trail :
  header_ok h -> oh_footer_offset h = Z.of_nat HEADER_SIZE + len_of body -> tables_ok f ->
  open_layout crc32 (table_file h body f trail) =
  outcome_bind (OnDemandSchema_from_bytes (OnDemandSchema_to_bytes (vf_schema f))) (fun schema =>
    let h' := with_checksum h (crc32 (header_core h)) in
    let f' := mkFooter schema (vf_row_groups f) (vf_zone_maps f) (vf_col_offsets f) (vf_chunk_tables f) in
    outcome_bind (validate_v4_layout h' f' (len_of (table_file h body f trail))) (fun id_count => Done (h', f', id_count))).
Proof using crc32_range.
  intros Hh Ho Hf. destruct (table_file_parts h body f trail Ho) as (Ht & Hd & _ & Hlen).
  set (file := table_file h body f trail) in *. clearbody file. unfold open_layout.
  destruct (Z.ltb_spec (len_of file) (Z.of_nat HEADER_SIZE)); [unfold HEADER_SIZE in *; lia|].
  rewrite Ht, header_reads by done. cbn [outcome_bind]. set (h' := with_checksum h _).
  change (oh_footer_offset h') with (oh_footer_offset h).
  destruct (Z.eqb_spec (oh_footer_offset h) 0); [unfold HEADER_SIZE in *; lia|].
  replace (_ && _) with true by (symmetry; apply andb_true_iff; split; apply Z.leb_le; lia). cbn [negb].
  rewrite Hd, footer_read by done.
  destruct (OnDemandSchema_from_bytes _) as [s| |]; reflexivity.
Qed.

Lemma validate_ok h f file_len :
  Z.of_nat HEADER_SIZE <= oh_footer_offset h <= file_len ->
  oh_column_count h = Z.of_nat (column_count (vf_schema f)) ->
  footer_rows f = Some (oh_row_count h) -> forallb (group_in_bounds h) (vf_row_groups f) = true ->
  validate_v4_layout h f file_len = Done (oh_row_count h).
Proof.
  intros Ho Hc Hr Hb. unfold validate_v4_layout.
  replace (_ || _) with false by (symmetry; apply orb_false_iff; split; apply Z.ltb_ge; lia).
  by rewrite Hc, Z.eqb_refl, Hr, bool_decide_eq_true_2, Hb.
Qed.

Lemma opens_to h body f trail :
  layout_ok h body f -> tables_ok f -> schema_ok (vf_schema f) ->
  open_layout crc32 (table_file h body f trail) =
  Done (with_checksum h (crc32 (header_core h)), f, oh_row_count h).
Proof using crc32_range.
  intros (Hh & Ho & Hc & Hr & Hb) Hf (Hs & He & Hn & Hd).
  rewrite open_layout_file, schema_reads by done. cbn [outcome_bind].
  pose proof (table_file_parts h body f trail Ho) as (_ & _ & _ & Hlen).
  destruct f as [s rgs zms offs cts]. cbn [vf_schema vf_row_groups vf_zone_maps vf_col_offsets vf_chunk_tables] in *.
  by rewrite validate_ok.
Qed.

(** ** Rewriting the footer in place *)

Definition with_schema (f : V4Footer) (s : OnDemandSchema) : V4Footer :=
  mkFooter s (vf_row_groups f) (vf_zone_maps f) (vf_col_offsets f) (vf_chunk_tables f).

(** The trailer the rewrite puts behind the footer's own. *)
Definition second_trailer (f : V4Footer) : list Z := to_le 8 (len_of (V4Footer_to_bytes f)) ++ MAGIC_V4_FOOTER.

Lemma rewrite_footer h body f trail s :
  layout_ok h body f -> tables_ok f -> schema_ok (vf_schema f) -> supported_file_version (oh_version h) = true ->
  unsigned 4 (Z.of_nat (column_count s)) ->
  let h' := set_column_count h (Z.of_nat (column_count s)) in
  update_v4_footer_schema crc32 h s (table_file h body f trail) =
  Done (h', table_file h' body (with_schema f s) (second_trailer (with_schema f s))).
Proof using crc32_range.
  intros (Hh & Ho & _) Hf (Hs & He & Hn & Hd) Hv Hcount h'. unfold update_v4_footer_schema. rewrite Hv. cbn [negb orb].
  destruct (table_file_parts h body f trail Ho) as (_ & Hdrop & Htake & Hlen).
  destruct (Z.eqb_spec (oh_footer_offset h) 0); [unfold HEADER_SIZE in *; lia|].
  destruct (Z.ltb_spec (len_of (table_file h body f trail)) (oh_footer_offset h)); [lia|].
  rewrite Hdrop, Htake, footer_read, schema_reads by done. cbn [outcome_bind].
  rewrite Z.mod_small by (unfold unsigned, width in Hcount; simpl in Hcount; lia). fold h'. do 2 f_equal.
Qed.

Lemma set_column_count_ok h n : header_ok h -> unsigned 4 n -> header_ok (set_column_count h n).
Proof. unfold header_ok. simpl. tauto. Qed.

End files.

(** ** Properties *)

(** C26 A file laid out as the writers lay it out -- the 256-byte header, the row groups, the
    footer with its schema, row-group directory, zone maps, column offsets and chunk tables, and
    whatever follows -- opens to exactly that header and footer, provided the two agree on the
    columns and the live rows.  After ALTER TABLE rewrote the footer in place with another
    well-formed schema, the file opens to the new schema and to every table of the old footer. *)
Theorem table_file_reopens (crc32 : list Z -> Z) (Hcrc : forall bytes, unsigned 4 (crc32 bytes))
    (h : OnDemandHeader) (body : list Z) (f : V4Footer) (trail : list Z) (s : OnDemandSchema)
    (Hlayout : layout_ok h body f) (Hf : tables_ok f) (Hschema : schema_ok (vf_schema f))
    (Hv : supported_file_version (oh_version h) = true) (Hs : schema_ok s) (Hfs : tables_ok (with_schema f s)) :
  let file := table_file crc32 h body f trail in
  let h' := set_column_count h (Z.of_nat (column_count s)) in
  open_layout crc32 file = Done (with_checksum h (crc32 (header_core h)), f, oh_row_count h) /\
  exists file', update_v4_footer_schema crc32 h s file = Done (h', file') /\
    open_layout crc32 file' =
    Done (with_checksum h' (crc32 (header_core h')), with_schema f s, oh_row_count h).
Proof.
  intros file h'. split; [by apply opens_to|]. destruct Hs as (Hs & He & Hn & Hd).
  eexists. split; [by apply rewrite_footer|]. fold h'.
  destruct Hlayout as (Hh & Ho & Hc & Hr & Hb).
  rewrite (opens_to crc32 Hcrc h'); [done| |done|done].
  split; [by apply set_column_count_ok|]. done.
Qed.

(** Renaming a column to the name of another column is accepted, and the footer rewrite writes
    the schema with the repeated name; the reader folds the two columns into one, so the header
    and the footer no longer agree on the number of columns and the file never opens again. *)
Theorem rename_collision_unopenable (crc32 : list Z -> Z) (Hcrc : forall bytes, unsigned 4 (crc32 bytes))
    (h : OnDemandHeader) (body : list Z) (f : V4Footer) (trail : list Z) (old_name new_name : string) (i j : nat)
    (Hlayout : layout_ok h body f) (Hf : tables_ok f) (Hschema : schema_ok (vf_schema f))
    (Hv : supported_file_version (oh_version h) = true)
    (Hold : get_index (vf_schema f) old_name = Some i) (Hnew : get_index (vf_schema f) new_name = Some j)
    (Hne : old_name <> new_name) :
  let s := (rename_column (vf_schema f) old_name new_name).1 in
  tables_ok (with_schema f s) ->
  (rename_column (vf_schema f) old_name new_name).2 = true /\
  exists h' file', update_v4_footer_schema crc32 h s (table_file crc32 h body f trail) = Done (h', file') /\
    forall r, open_layout crc32 file' <> Done r.
Proof.
  intros s Hfs. split; [unfold rename_column, get_index in *; by rewrite Hold|].
  pose proof Hschema as (Hs & He & Hn & Hd).
  assert (Hcols : os_columns s = alter (fun c => (new_name, c.2)) i (os_columns (vf_schema f)))
    by (unfold s; by rewrite (renamed_is _ _ _ _ Hold)).
  assert (Hcount : column_count s = column_count (vf_schema f)) by (unfold column_count; by rewrite Hcols, length_alter).
  do 2 eexists. split; [apply rewrite_footer; try done; by rewrite Hcount|].
  destruct Hlayout as (Hh & Ho & _). intros r.
  rewrite (open_layout_file crc32 Hcrc); [|apply set_column_count_ok; [done|by rewrite Hcount]|done|done].
  destruct (OnDemandSchema_from_bytes _) as [s'| |] eqn:Hread; [|done..]. cbn [outcome_bind].
  apply repeated_name_loses_column in Hread.
  - unfold validate_v4_layout. cbn. destruct (_ || _); [done|].
    destruct (Z.eqb_spec (Z.of_nat (column_count s)) (Z.of_nat (column_count s'))); [|done].
    change (vf_schema (with_schema f s)) with s in Hread. lia.
  - change (vf_schema (with_schema f s)) with s. rewrite Hcols. apply Forall_alter; [apply (en_names _ He)|].
    intros c _ _. simpl. destruct (get_index_type _ _ _ Hs Hnew) as (t & Ht). eapply column_short; [done..|].
    unfold named_type. rewrite Hnew. exact Ht.
  - change (vf_schema (with_schema f s)) with s. by rewrite Hcount.
  - by apply (rename_collision_repeats _ _ _ i j).
Qed.

(** ** A concrete table *)

Definition demo_schema : OnDemandSchema := schema_run OnDemandSchema_new schema_demo.

Definition demo_footer : V4Footer :=
  mkFooter demo_schema [mkRowGroup 256 40 10 1 10 3; mkRowGroup 296 8 2 11 12 0]
    [[mkZone 0 (-5) 90 false false false false; mkZone 1 7 8 true false true false]; []]
    [[0; 16; 24; 32]; []] [[None; Some (mkChunked [12; 20] 32 16)]; []].

Definition demo_body : list Z := replicate 48 7.

Definition demo_header : OnDemandHeader :=
  mkHeader 5 4 9 4 65536 256 0 0 1700000000 1700000001 0 304 2.

Definition extended_schema : OnDemandSchema := schema_run OnDemandSchema_new (schema_demo ++ [SoAdd "extra" TBool]).

Lemma run_schema_ok ops :
  ops_ok OnDemandSchema_new ops ->
  unsigned 4 (Z.of_nat (column_count (schema_run OnDemandSchema_new ops))) ->
  unsigned 2 (len_of (os_vector_derivations (schema_run OnDemandSchema_new ops))) ->
  schema_ok (schema_run OnDemandSchema_new ops).
Proof.
  intros Hops Hn Hd. destruct (schema_run_ok OnDemandSchema_new ops) as [Hs He];
    auto using schema_new_wf, schema_new_encodable. by split.
Qed.

Lemma ops_ok_snoc s ops op : ops_ok s ops -> op_ok (schema_run s ops) op -> ops_ok s (ops ++ [op]).
Proof.
  revert s. induction ops as [|o ops IH]; intros s; simpl; [done|]. intros [Ho Hops] Hop. split; [done|]. by apply IH.
Qed.

Lemma demo_schema_ok : schema_ok demo_schema.
Proof. apply run_schema_ok; [exact schema_demo_ok|by vm_compute..]. Qed.

Lemma extended_schema_ok : schema_ok extended_schema.
Proof.
  apply run_schema_ok; [|by vm_compute..]. apply ops_ok_snoc; [exact schema_demo_ok|by apply short_name].
Qed.

Lemma demo_layout_ok : layout_ok demo_header demo_body demo_footer.
Proof. unfold layout_ok, header_ok. repeat split; by vm_compute. Qed.

Lemma demo_tables_ok s : len_of (V4Footer_to_bytes (with_schema demo_footer s)) < MAX_FOOTER -> tables_ok (with_schema demo_footer s).
Proof.
  intros Hl. unfold tables_ok, groups_ok, row_group_ok, zone_ok, chunked_ok. cbn.
  repeat match goal with
  | |- _ /\ _ => split
  | |- Forall _ _ => constructor
  | |- unsigned _ _ => by vm_compute
  | |- signed _ _ => by vm_compute
  | _ => done
  end.
Qed.

Lemma table_file_reopens_witness :
  let file := table_file WalConcrete.crc32 demo_header demo_body demo_footer [] in
  exists h file' h' h'',
  open_layout WalConcrete.crc32 file = Done (h, demo_footer, 9) /\
  update_v4_footer_schema WalConcrete.crc32 demo_header extended_schema file = Done (h', file') /\
  open_layout WalConcrete.crc32 file' = Done (h'', with_schema demo_footer extended_schema, 9).
Proof.
  destruct (table_file_reopens WalConcrete.crc32 WalConcrete.crc32_range demo_header demo_body demo_footer []
    extended_schema demo_layout_ok (demo_tables_ok demo_schema eq_refl) demo_schema_ok eq_refl extended_schema_ok
    (demo_tables_ok extended_schema eq_refl)) as (H1 & file' & H2 & H3).
  do 4 eexists. split; [exact H1|]. split; [exact H2|exact H3].
Defined.

Lemma rename_collision_unopenable_witness :
  let s := (rename_column (vf_schema demo_footer) "name" "id").1 in
  (rename_column (vf_schema demo_footer) "name" "id").2 = true /\
  exists h' file',
  update_v4_footer_schema WalConcrete.crc32 demo_header s
    (table_file WalConcrete.crc32 demo_header demo_body demo_footer []) = Done (h', file') /\
  forall r, open_layout WalConcrete.crc32 file' <> Done r.
Proof.
  apply (rename_collision_unopenable WalConcrete.crc32 WalConcrete.crc32_range demo_header demo_body
    demo_footer [] "name" "id" 1 0 demo_layout_ok (demo_tables_ok demo_schema eq_refl) demo_schema_ok).
  - reflexivity.
  - vm_compute. reflexivity.
  - vm_compute. reflexivity.
  - discriminate.
  - apply demo_tables_ok. vm_compute. reflexivity.
Defined.

(** A text of 65,536 bytes or more writes a length of zero modulo 2^16: the default is read back
    empty and its bytes are left to be taken for the next sections. *)
Example long_default_lost :
  let s := (add_column_with_constraints OnDemandSchema_new "c" TString
              (mkConstraints false false false
                 (Some (DvString (bytes_string (replicate (Z.to_nat 65536) 120)))) None None false)).1 in
  outcome_bind (OnDemandSchema_from_bytes (OnDemandSchema_to_bytes s))
    (fun s => Done (cc_default_value <$> os_constraints s)) = Done [Some (DvString "")].
Proof. vm_compute. reflexivity. Qed.
