(* ===== verification/ZonePruning.v ===== *)
(** * Skipping row groups

    Models the row-group stream of [storage/on_demand/mmap_scan/projection.rs] ([RgBatchStream],
    [scan_rg_batches_ranges]) with the zone-map tests that let it skip a row group
    ([zone_compare_disjoint] to [zone_map_rg_disjoint]), and the point-lookup tests of
    [mmap_scan/predicate.rs] ([string_zone_excludes]).  Reading a row group into a batch is a
    parameter.  The theorems say when a skipped row group cannot hold a matching row, and record the
    two cases where it can: text compared with [<>], and rows with a pending cell update. *)
From S2P Require Import Prelude Float Bytes Bits Values IndexKey DeltaStore DeltaMerge Scan Columns ColumnRows ZoneMaps Schema FileFormat.
Local Open Scope Z_scope.

(** ** Ranges and the tests on them *)

Inductive ZoneRange :=
| ZrInt (mn mx : Z)
| ZrFloat (mn mx : Z)
| ZrBool (mn mx : bool)
| ZrString (mn mx : Z)
| ZrStringLen (mn mx : Z)
| ZrStringTail (mn mx : Z).

Definition EXACT_INT : Z := 2 ^ 53.

(** The arm shared by the integer literals. *)
Definition int_disjoint (op : ScanComparison) (mn mx v : Z) : bool :=
  match op with
  | CmpEq => (v <? mn) || (mx <? v)
  | CmpNotEq => (mn =? mx) && (mn =? v)
  | CmpLt => v <=? mn
  | CmpLe => v <? mn
  | CmpGt => mx <=? v
  | CmpGe => mx <? v
  end.

(** The arm shared by the literals compared as floats. *)
Definition float_disjoint (op : ScanComparison) (mn mx v : Z) : bool :=
  match op with
  | CmpEq => f64_lt v mn || f64_lt mx v
  | CmpNotEq => false
  | CmpLt => f64_le v mn
  | CmpLe => f64_lt v mn
  | CmpGt => f64_le mx v
  | CmpGe => f64_lt mx v
  end.

Definition zone_compare_disjoint (range : ZoneRange) (op : ScanComparison) (value : ScanValue) : bool :=
  match range, value with
  | ZrInt mn mx, SvInt v => int_disjoint op mn mx v
  | ZrFloat mn mx, SvFloat v => f64_is_finite v && float_disjoint op mn mx v
  | ZrFloat mn mx, SvInt v => (Z.abs v <=? EXACT_INT) && float_disjoint op mn mx (f64_of_Z v)
  | ZrInt mn mx, SvUInt v =>
      match i64_try_from v with None => false | Some v => int_disjoint op mn mx v end
  | ZrFloat mn mx, SvUInt v => (v <=? EXACT_INT) && float_disjoint op mn mx (f64_of_Z v)
  | ZrString mn mx, SvString v =>
      let key := string_prefix_key (string_bytes v) in
      match op with
      | CmpEq => (key <? mn) || (mx <? key)
      | CmpNotEq => (mn =? mx) && (mn =? key)
      | CmpLt | CmpLe => key <? mn
      | CmpGt | CmpGe => mx <? key
      end
  | ZrBool mn mx, SvBool v =>
      match op with
      | CmpEq => (negb v && mn) || (v && negb mx)
      | CmpNotEq => Bool.eqb mn mx && Bool.eqb mn v
      | _ => false
      end
  | ZrStringLen mn mx, SvString v =>
      let len := len_of (string_bytes v) in
      match op with CmpEq => (len <? mn) || (mx <? len) | _ => false end
  | ZrStringTail mn mx, SvString v =>
      let key := string_tail_key (string_bytes v) in
      match op with CmpEq => (key <? mn) || (mx <? key) | _ => false end
  | _, _ => false
  end.

(** The zone lies below an inclusive lower bound. *)
Definition zone_below (range : ZoneRange) (bound : ScanBound) : bool :=
  sb_inclusive bound &&
  match range, sb_value bound with
  | ZrInt _ mx, SvInt v => mx <? v
  | ZrInt _ mx, SvUInt v => match i64_try_from v with Some v => mx <? v | None => false end
  | ZrFloat _ mx, SvUInt v => (v <=? EXACT_INT) && f64_lt mx (f64_of_Z v)
  | ZrFloat _ mx, SvFloat v => f64_is_finite v && f64_lt mx v
  | ZrFloat _ mx, SvInt v => (Z.abs v <=? EXACT_INT) && f64_lt mx (f64_of_Z v)
  | _, _ => false
  end.

(** The zone lies above an inclusive upper bound. *)
Definition zone_above (range : ZoneRange) (bound : ScanBound) : bool :=
  sb_inclusive bound &&
  match range, sb_value bound with
  | ZrInt mn _, SvInt v => v <? mn
  | ZrInt mn _, SvUInt v => match i64_try_from v with Some v => v <? mn | None => false end
  | ZrFloat mn _, SvUInt v => (v <=? EXACT_INT) && f64_lt (f64_of_Z v) mn
  | ZrFloat mn _, SvFloat v => f64_is_finite v && f64_lt v mn
  | ZrFloat mn _, SvInt v => (Z.abs v <=? EXACT_INT) && f64_lt (f64_of_Z v) mn
  | _, _ => false
  end.

Definition when_bound (test : ScanBound -> bool) (bound : option ScanBound) : bool :=
  match bound with Some b => test b | None => false end.

Definition zone_between_disjoint (range : ZoneRange) (lower upper : option ScanBound) : bool :=
  match range with
  | ZrString mn mx =>
      when_bound (fun b => match sb_value b with
                           | SvString v => mx <? string_prefix_key (string_bytes v) | _ => false end) lower
      || when_bound (fun b => match sb_value b with
                              | SvString v => string_prefix_key (string_bytes v) <? mn | _ => false end) upper
  | _ => when_bound (zone_below range) lower || when_bound (zone_above range) upper
  end.

(** [disjoint_for] *)
Definition range_disjoint (predicate : ScanPredicate) (range : ZoneRange) : bool :=
  match predicate with
  | PCompare _ op value => zone_compare_disjoint range op value
  | PBetween _ lower upper => zone_between_disjoint range lower upper
  | PIn _ values => forallb (fun value => zone_compare_disjoint range CmpEq value) values
  | PIsNull _ _ => false
  end.

Definition is_string_column (t : ColumnType) : bool :=
  match t with TString | TStringDict => true | _ => false end.

(** What an entry of a string column ranges over. *)
Definition string_range (zm : RgColumnZoneMap) : ZoneRange :=
  if zm_is_string_prefix zm then ZrString (zm_min_bits zm) (zm_max_bits zm)
  else if zm_is_string_tail zm then ZrStringTail (zm_min_bits zm) (zm_max_bits zm)
  else ZrStringLen (zm_min_bits zm) (zm_max_bits zm).

(** And of any other column. *)
Definition value_range (t : ColumnType) (zm : RgColumnZoneMap) : ZoneRange :=
  if bool_decide (t = TBool) then ZrBool (negb (zm_min_bits zm =? 0)) (negb (zm_max_bits zm =? 0))
  else if zm_is_float zm then ZrFloat (zm_min_f zm) (zm_max_f zm)
  else ZrInt (zm_min_bits zm) (zm_max_bits zm).

Definition of_column (col_idx : nat) (zm : RgColumnZoneMap) : bool := zm_col_idx zm =? Z.of_nat col_idx.

(** The index found by name is in range, so the type is there ([schema_wf]). *)
Definition zone_predicate_disjoint (rg_idx : nat) (footer : V4Footer) (predicate : ScanPredicate) : bool :=
  match vf_zone_maps footer !! rg_idx with
  | None => false
  | Some rg_zmaps =>
      match get_index (vf_schema footer) (clean_column_name (ScanPredicate_column predicate)) with
      | None => false
      | Some col_idx =>
          let col_type := default TNull (type_at (vf_schema footer) col_idx) in
          if is_string_column col_type then
            existsb (fun zm => of_column col_idx zm && negb (zm_is_float zm)
                               && range_disjoint predicate (string_range zm)) rg_zmaps
          else
            match List.find (of_column col_idx) rg_zmaps with
            | None => false
            | Some zm => range_disjoint predicate (value_range col_type zm)
            end
      end
  end.

Fixpoint zone_map_rg_disjoint (rg_idx : nat) (footer : V4Footer) (predicate : ScanPredicateExpr) : bool :=
  match predicate with
  | PredLeaf leaf => zone_predicate_disjoint rg_idx footer leaf
  | PredAnd l r => zone_map_rg_disjoint rg_idx footer l || zone_map_rg_disjoint rg_idx footer r
  | PredOr l r => zone_map_rg_disjoint rg_idx footer l && zone_map_rg_disjoint rg_idx footer r
  end.

(** ** Point lookups *)

Definition key_outside (zm : RgColumnZoneMap) (key : Z) : bool := (key <? zm_min_bits zm) || (zm_max_bits zm <? key).

(** [values] is not empty. *)
Definition single_string_zone_excludes (zm : RgColumnZoneMap) (values : list (list Z)) : bool :=
  if zm_is_string_tail zm then forallb (fun value => key_outside zm (string_tail_key value)) values
  else if zm_is_string_prefix zm then forallb (fun value => key_outside zm (string_prefix_key value)) values
  else
    let lens := len_of <$> values in
    let min_len := match lens with [] => 0 | l :: ls => foldl Z.min l ls end in
    let max_len := match lens with [] => 0 | l :: ls => foldl Z.max l ls end in
    (max_len <? zm_min_bits zm) || (zm_max_bits zm <? min_len).

Definition string_zone_excludes (zmaps : list RgColumnZoneMap) (col_idx : nat) (values : list (list Z)) : bool :=
  match values with
  | [] => false
  | _ => existsb (fun zm => of_column col_idx zm && negb (zm_is_float zm) && single_string_zone_excludes zm values) zmaps
  end.

(** ** The row-group stream *)

Section stream.
Context {B : Type} (read_rg : nat -> Result B).

Record RgBatchStream := mkRgStream {
  rs_footer : V4Footer;
  rs_col_indices : list nat;
  rs_include_id : bool;
  rs_predicate : option ScanPredicateExpr;
  rs_next_rg : nat;
  rs_end_rg : nat
}.

(** The footer is what [get_or_load_footer] found. *)
Definition RgBatchStream_new (footer : option V4Footer) (column_names : option (list string)) (include_id : bool)
    (predicate : option ScanPredicateExpr) : option RgBatchStream :=
  footer ← footer;
  let col_indices :=
    match column_names with
    | Some names => omap (get_index (vf_schema footer)) (List.filter (fun n => negb (String.eqb n "_id")) names)
    | None => seq 0 (column_count (vf_schema footer))
    end in
  if total_active_rows footer =? 0 then None
  else Some (mkRgStream footer col_indices include_id predicate 0 (length (vf_row_groups footer))).

Definition with_range (s : RgBatchStream) (start_rg end_rg : nat) : RgBatchStream :=
  mkRgStream (rs_footer s) (rs_col_indices s) (rs_include_id s) (rs_predicate s) start_rg end_rg.

Definition at_rg (s : RgBatchStream) (rg : nat) : RgBatchStream := with_range s rg (rs_end_rg s).

(** The row groups the loop passes over. *)
Definition skipped (s : RgBatchStream) (rg_idx : nat) (rg_meta : RowGroupMeta) : bool :=
  (rg_row_count rg_meta =? 0) || (active_rows rg_meta =? 0)
  || match rs_predicate s with
     | Some predicate => zone_map_rg_disjoint rg_idx (rs_footer s) predicate
     | None => false
     end.

(** The [loop] of [next]: [None] at the end; an index past the row groups panics. *)
Fixpoint next_from (fuel : nat) (s : RgBatchStream) : Outcome (option (Result B) * RgBatchStream) :=
  match fuel with
  | O => Done (None, s)
  | S fuel =>
      let rg_idx := rs_next_rg s in
      if (rs_end_rg s <=? rg_idx)%nat then Done (None, s)
      else
        let s := at_rg s (S rg_idx) in
        match vf_row_groups (rs_footer s) !! rg_idx with
        | None => Panic
        | Some rg_meta => if skipped s rg_idx rg_meta then next_from fuel s else Done (Some (read_rg rg_idx), s)
        end
  end.

Definition RgBatchStream_next (s : RgBatchStream) : Outcome (option (Result B) * RgBatchStream) :=
  next_from (S (rs_end_rg s - rs_next_rg s)) s.

(** [for batch in stream]: the batches until the first [None]. *)
Fixpoint drain_stream (fuel : nat) (s : RgBatchStream) : Outcome (list (Result B)) :=
  match fuel with
  | O => Done []
  | S fuel =>
      outcome_bind (RgBatchStream_next s) (fun r =>
        match r.1 with
        | None => Done []
        | Some batch => outcome_bind (drain_stream fuel r.2) (fun rest => Done (batch :: rest))
        end)
  end.

Definition stream_batches (s : RgBatchStream) : Outcome (list (Result B)) :=
  drain_stream (S (rs_end_rg s - rs_next_rg s)) s.

(** The ranges [start..end] of [scan_rg_batches_ranges]; the fuel is the number of row groups. *)
Fixpoint rg_ranges (fuel start total chunk : nat) : list (nat * nat) :=
  match fuel with
  | O => []
  | S fuel =>
      if (start <? total)%nat then
        let stop := ((start + chunk) `min` total)%nat in
        (start, stop) :: rg_ranges fuel stop total chunk
      else []
  end.

Definition scan_rg_batches_ranges (footer : option V4Footer) (column_names : option (list string))
    (include_id : bool) (predicate : option ScanPredicateExpr) (range_count : nat) : option (list RgBatchStream) :=
  base ← RgBatchStream_new footer column_names include_id predicate;
  let total := length (vf_row_groups (rs_footer base)) in
  if (range_count <? 2)%nat || (total <? 2)%nat then Some [base]
  else
    let part := (range_count `min` total)%nat in
    let chunk := ((total + part - 1) / part)%nat in
    Some ((fun r => with_range base r.1 r.2) <$> rg_ranges total 0 total chunk).

End stream.

(** ** A disjoint range holds no matching value *)

(** The range says something true of the cell.  Cells of another kind do not matter where no
    literal the range is tested against compares with them. *)
Definition covers {C} (range : ZoneRange) (c : Cell C) : Prop :=
  match range, c with
  | ZrInt mn mx, CellInt x => mn <= x <= mx
  | ZrInt _ _, (CellUInt _ | CellFloat _) => False
  | ZrFloat mn mx, CellFloat a => f64_is_nan a = false -> f64_le mn a = true /\ f64_le a mx = true
  | ZrFloat _ _, (CellInt _ | CellUInt _) => False
  | ZrBool mn mx, CellBool b => (mn = true -> b = true) /\ (b = true -> mx = true)
  | ZrString mn mx, CellStr s => mn <= string_prefix_key (string_bytes s) <= mx
  | ZrStringLen mn mx, CellStr s => mn <= len_of (string_bytes s) <= mx
  | ZrStringTail mn mx, CellStr s => mn <= string_tail_key (string_bytes s) <= mx
  | _, _ => True
  end.

(** Every comparison but [<>] with a text. *)
Definition prunable (p : ScanPredicate) : Prop :=
  match p with PCompare _ CmpNotEq (SvString _) => False | _ => True end.

Lemma f64_le_keys a b : f64_le a b = true <-> f64_is_nan a = false /\ f64_is_nan b = false /\ f64_key a <= f64_key b.
Proof.
  unfold f64_le, f64_partial_cmp. destruct (f64_is_nan a), (f64_is_nan b); simpl; try naive_solver.
  destruct (Z.compare_spec (f64_key a) (f64_key b)); naive_solver lia.
Qed.

Lemma f64_lt_keys a b : f64_lt a b = true <-> f64_is_nan a = false /\ f64_is_nan b = false /\ f64_key a < f64_key b.
Proof.
  unfold f64_lt, f64_partial_cmp. destruct (f64_is_nan a), (f64_is_nan b); simpl; try naive_solver.
  destruct (Z.compare_spec (f64_key a) (f64_key b)); naive_solver lia.
Qed.

Lemma cmp_holds_keys a v op :
  match f64_partial_cmp a v with Some o => comparison_matches o op | None => false end = true ->
  f64_is_nan a = false /\ f64_is_nan v = false /\ comparison_matches (f64_key a ?= f64_key v) op = true.
Proof. unfold f64_partial_cmp. destruct (f64_is_nan a), (f64_is_nan v); simpl; naive_solver. Qed.

Lemma matches_spec x y op :
  comparison_matches (x ?= y) op = true <->
  match op with CmpEq => x = y | CmpNotEq => x <> y | CmpLt => x < y | CmpLe => x <= y | CmpGt => y < x | CmpGe => y <= x end.
Proof. destruct (Z.compare_spec x y), op; simpl; split; try done; lia. Qed.

Lemma int_disjoint_sound mn mx v op x :
  mn <= x <= mx -> int_disjoint op mn mx v = true -> comparison_matches (x ?= v) op = false.
Proof.
  intros Hx Hd. apply not_true_is_false. rewrite matches_spec. destruct op; simpl in Hd; lia.
Qed.

Lemma float_disjoint_sound mn mx v op a :
  (f64_is_nan a = false -> f64_le mn a = true /\ f64_le a mx = true) -> float_disjoint op mn mx v = true ->
  match f64_partial_cmp a v with Some o => comparison_matches o op | None => false end = false.
Proof.
  intros Hc Hd. apply not_true_is_false. intros (Ha & Hv & Hm)%cmp_holds_keys. destruct (Hc Ha) as [Hlo Hhi].
  apply f64_le_keys in Hlo as (_ & _ & Hlo). apply f64_le_keys in Hhi as (_ & _ & Hhi).
  apply matches_spec in Hm. destruct op; simpl in Hd; [|done|..].
  - apply orb_true_iff in Hd as [(_ & _ & Hd)%f64_lt_keys|(_ & _ & Hd)%f64_lt_keys]; lia.
  - apply f64_le_keys in Hd as (_ & _ & Hd). lia.
  - apply f64_lt_keys in Hd as (_ & _ & Hd). lia.
  - apply f64_le_keys in Hd as (_ & _ & Hd). lia.
  - apply f64_lt_keys in Hd as (_ & _ & Hd). lia.
Qed.

(** Text in order has prefix keys in order. *)
Lemma string_keys_mono s t :
  String.compare s t <> Gt -> string_prefix_key (string_bytes s) <= string_prefix_key (string_bytes t).
Proof.
  rewrite string_compare_bytes. apply prefix_key_mono; apply string_bytes_are_bytes.
Qed.

Lemma string_compare_flip s t : String.compare s t = CompOpp (String.compare t s).
Proof. apply String.compare_antisym. Qed.

(** A value whose order is decided by the range's keys. *)
Lemma string_disjoint_sound mn mx s t op :
  mn <= string_prefix_key (string_bytes s) <= mx -> op <> CmpNotEq ->
  zone_compare_disjoint (ZrString mn mx) op (SvString t) = true ->
  comparison_matches (String.compare s t) op = false.
Proof.
  intros Hs Hop Hd. simpl in Hd. apply not_true_is_false. intros Hm.
  assert (Hle : String.compare s t <> Gt -> string_prefix_key (string_bytes s) <= string_prefix_key (string_bytes t))
    by apply string_keys_mono.
  assert (Hge : String.compare s t <> Lt -> string_prefix_key (string_bytes t) <= string_prefix_key (string_bytes s)).
  { intros H. apply string_keys_mono. rewrite string_compare_flip. by destruct (String.compare s t). }
  destruct (String.compare s t), op; simpl in Hm; try done; simpl in *;
    try specialize (Hle ltac:(done)); try specialize (Hge ltac:(done)); lia.
Qed.

Section sound.
Context {C : Type} (c : Cell C) (range : ZoneRange) (Hc : covers range c).

Lemma compare_sound column op v :
  prunable (PCompare column op v) -> zone_compare_disjoint range op v = true ->
  leaf_holds (Some c) (PCompare column op v) = false.
Proof using Hc.
  intros Hp Hd. simpl.
  destruct range as [mn mx|mn mx|mn mx|mn mx|mn mx|mn mx], v as [y|y|b|t|b]; try done; simpl in Hd;
    destruct c as [x|x|a|s|q|o]; try done; simpl in Hc |- *.
  - by eapply int_disjoint_sound.
  - unfold i64_try_from in Hd. destruct (y <=? I64_MAX); [|done]. by eapply int_disjoint_sound.
  - apply andb_true_iff in Hd as [_ Hd]. by eapply float_disjoint_sound.
  - apply andb_true_iff in Hd as [_ Hd]. by eapply float_disjoint_sound.
  - apply andb_true_iff in Hd as [_ Hd]. by eapply float_disjoint_sound.
  - destruct Hc as [H1 H2]. destruct mn, mx, q, b, op; simpl in *; naive_solver.
  - apply (string_disjoint_sound mn mx); [done|by intros ->|exact Hd].
  - destruct op; try done. destruct (String.compare s t) eqn:E; try done. apply string_compare_eq in E as ->. simpl in *; lia.
  - destruct op; try done. destruct (String.compare s t) eqn:E; try done. apply string_compare_eq in E as ->. simpl in *; lia.
Qed.

(** An empty range of equality tests decides IN. *)
Lemma in_sound column values :
  forallb (fun v => zone_compare_disjoint range CmpEq v) values = true ->
  leaf_holds (Some c) (PIn column values) = false.
Proof using Hc.
  intros Hd. simpl. apply not_true_is_false. intros (v & Hv & Hm)%existsb_exists.
  rewrite forallb_forall in Hd. specialize (Hd v Hv).
  pose proof (compare_sound column CmpEq v) as Hs. simpl in Hs. destruct (cell_cmp c v) as [[]|]; try done.
  specialize (Hs ltac:(by destruct v) Hd). done.
Qed.

End sound.

Lemma float_cmp_lt a v : f64_is_nan a = true \/ f64_key a < f64_key v -> bound_above (f64_partial_cmp a v) true = false.
Proof.
  intros Ha. unfold f64_partial_cmp. destruct (f64_is_nan a) eqn:E; [done|]. destruct Ha as [|Ha]; [done|].
  destruct (f64_is_nan v); [done|]. simpl. by destruct (Z.compare_spec (f64_key a) (f64_key v)); try lia.
Qed.

Lemma float_cmp_gt a v : f64_is_nan a = true \/ f64_key v < f64_key a -> bound_below (f64_partial_cmp a v) true = false.
Proof.
  intros Ha. unfold f64_partial_cmp. destruct (f64_is_nan a) eqn:E; [done|]. destruct Ha as [|Ha]; [done|].
  destruct (f64_is_nan v); [done|]. simpl. by destruct (Z.compare_spec (f64_key a) (f64_key v)); try lia.
Qed.

Section bounds.
Context {C : Type} (c : Cell C).

(** A float in a zone below (above) a number is below (above) it. *)
Lemma float_below mn mx v a :
  (f64_is_nan a = false -> f64_le mn a = true /\ f64_le a mx = true) -> f64_lt mx v = true ->
  bound_above (f64_partial_cmp a v) true = false.
Proof.
  intros Ha (_ & _ & Hv)%f64_lt_keys. apply float_cmp_lt. destruct (f64_is_nan a); [by left|right].
  destruct (Ha eq_refl) as [_ (_ & _ & H)%f64_le_keys]. lia.
Qed.

Lemma float_above mn mx v a :
  (f64_is_nan a = false -> f64_le mn a = true /\ f64_le a mx = true) -> f64_lt v mn = true ->
  bound_below (f64_partial_cmp a v) true = false.
Proof.
  intros Ha (_ & _ & Hv)%f64_lt_keys. apply float_cmp_gt. destruct (f64_is_nan a); [by left|right].
  destruct (Ha eq_refl) as [(_ & _ & H)%f64_le_keys _]. lia.
Qed.

Lemma below_sound range b :
  covers range c -> zone_below range b = true -> bound_above (cell_cmp c (sb_value b)) (sb_inclusive b) = false.
Proof.
  intros Hc [Hi Hb]%andb_true_iff. rewrite Hi.
  destruct range as [mn mx|mn mx|mn mx|mn mx|mn mx|mn mx], (sb_value b) as [y|y|y|t|q]; try done;
    destruct c as [x|x|a|s|q|o]; try done; simpl in Hc |- *.
  - destruct (Z.compare_spec x y); try done; lia.
  - unfold i64_try_from in Hb. destruct (y <=? I64_MAX); [|done]. destruct (Z.compare_spec x y); try done; lia.
  - apply andb_true_iff in Hb as [_ Hb]. by eapply float_below.
  - apply andb_true_iff in Hb as [_ Hb]. by eapply float_below.
  - apply andb_true_iff in Hb as [_ Hb]. by eapply float_below.
Qed.

Lemma above_sound range b :
  covers range c -> zone_above range b = true -> bound_below (cell_cmp c (sb_value b)) (sb_inclusive b) = false.
Proof.
  intros Hc [Hi Hb]%andb_true_iff. rewrite Hi.
  destruct range as [mn mx|mn mx|mn mx|mn mx|mn mx|mn mx], (sb_value b) as [y|y|y|t|q]; try done;
    destruct c as [x|x|a|s|q|o]; try done; simpl in Hc |- *.
  - destruct (Z.compare_spec x y); try done; lia.
  - unfold i64_try_from in Hb. destruct (y <=? I64_MAX); [|done]. destruct (Z.compare_spec x y); try done; lia.
  - apply andb_true_iff in Hb as [_ Hb]. by eapply float_above.
  - apply andb_true_iff in Hb as [_ Hb]. by eapply float_above.
  - apply andb_true_iff in Hb as [_ Hb]. by eapply float_above.
Qed.

(** Text below a bound's key is below the bound, whether the bound is inclusive or not. *)
Lemma string_below s t incl :
  string_prefix_key (string_bytes s) < string_prefix_key (string_bytes t) ->
  bound_above (Some (String.compare s t)) incl = false.
Proof.
  intros Hk. destruct (String.compare s t) eqn:E; [| done|]; exfalso.
  - apply string_compare_eq in E as ->. lia.
  - assert (Hm : String.compare t s <> Gt) by (rewrite string_compare_flip, E; done).
    apply string_keys_mono in Hm. lia.
Qed.

Lemma string_above s t incl :
  string_prefix_key (string_bytes t) < string_prefix_key (string_bytes s) ->
  bound_below (Some (String.compare s t)) incl = false.
Proof.
  intros Hk. destruct (String.compare s t) eqn:E; [|exfalso|done].
  - apply string_compare_eq in E as ->. lia.
  - assert (Hm : String.compare s t <> Gt) by (by rewrite E). apply string_keys_mono in Hm. lia.
Qed.

Lemma between_sound range column lower upper :
  covers range c -> zone_between_disjoint range lower upper = true ->
  leaf_holds (Some c) (PBetween column lower upper) = false.
Proof.
  intros Hc Hd. simpl. apply andb_false_iff.
  assert (Hgen : when_bound (zone_below range) lower || when_bound (zone_above range) upper = true ->
    match lower with Some b => bound_above (cell_cmp c (sb_value b)) (sb_inclusive b) | None => true end = false \/
    match upper with Some b => bound_below (cell_cmp c (sb_value b)) (sb_inclusive b) | None => true end = false).
  { intros [H|H]%orb_true_iff; [left; destruct lower|right; destruct upper]; try done;
      [by eapply below_sound|by eapply above_sound]. }
  destruct range as [mn mx|mn mx|mn mx|mn mx|mn mx|mn mx]; try (by apply Hgen).
  clear Hgen. simpl in Hd. destruct c as [x|x|a|s|q|o]; simpl in Hc |- *.
  4:{ apply orb_true_iff in Hd as [H|H].
      - left. destruct lower as [b|]; [|done]. simpl in *. destruct (sb_value b); try done. apply string_below. lia.
      - right. destruct upper as [b|]; [|done]. simpl in *. destruct (sb_value b); try done. apply string_above. lia. }
  all: apply orb_true_iff in Hd as [H|H]; [left; destruct lower as [b|]|right; destruct upper as [b|]]; try done;
    simpl in *; by destruct (sb_value b).
Qed.

Lemma leaf_sound range p :
  covers range c -> prunable p -> range_disjoint p range = true -> leaf_holds (Some c) p = false.
Proof.
  intros Hc Hp Hd. destruct p; simpl in Hd.
  - by eapply compare_sound.
  - by eapply between_sound.
  - by eapply in_sound.
  - done.
Qed.

End bounds.

(** ** The entries of a column cover its rows *)

(** The cell of a stored value. *)
Definition cell_of_datum {C} (d : Datum) : option (Cell C) :=
  match d with
  | DNull => None
  | DBool b => Some (CellBool b)
  | DInt v => Some (CellInt v)
  | DFloat bits => Some (CellFloat bits)
  | DBytes bytes => Some (CellStr (bytes_string bytes))
  end.

(** Bytes are bytes and float patterns have 64 bits. *)
Definition datum_ok (d : Datum) : Prop :=
  match d with DBytes bytes => Forall is_byte bytes | DFloat bits => unsigned 8 bits | _ => True end.

(** Whatever type the schema gives the column, the entry says something true of the cell. *)
Definition zone_covers {C} (zm : RgColumnZoneMap) (c : Cell C) : Prop :=
  (zm_is_float zm = false -> covers (string_range zm) c) /\ forall t, covers (value_range t zm) c.

Lemma string_bytes_string bytes : Forall is_byte bytes -> string_bytes (bytes_string bytes) = bytes.
Proof.
  induction 1 as [|b bytes Hb _ IH]; [done|]. simpl. rewrite IH. f_equal. unfold is_byte in Hb.
  rewrite Ascii.N_ascii_embedding by lia. lia.
Qed.

Lemma slice_elem {A} (l : list A) start stop i x :
  l !! i = Some x -> (start <= i < stop)%nat -> x ∈ slice_or_empty l start stop.
Proof.
  intros Hx Hi. assert (Hl := lookup_lt_Some _ _ _ Hx). unfold slice_or_empty.
  destruct (Nat.ltb_spec (start `min` length l) (stop `min` length l)); [|lia].
  apply list_elem_of_lookup. exists (i - start)%nat.
  rewrite lookup_take_lt by lia. rewrite lookup_drop. rewrite <-Hx. f_equal. lia.
Qed.

Section column.
Context {C : Type}.

Lemma int_zone_covers idx slice hn x :
  x ∈ slice -> zone_covers (int_zone idx (foldl Z.min I64_MAX slice) (foldl Z.max I64_MIN slice) hn) (CellInt x : Cell C).
Proof.
  intros Hx. split; [done|]. intros t. unfold value_range. case_bool_decide; [done|]. simpl. split.
  - apply foldl_min_le. by right.
  - apply foldl_max_ge. by right.
Qed.

Lemma float_range_keeps xs acc a :
  f64_is_nan a = false ->
  f64_is_nan acc.1 = false -> f64_is_nan acc.2 = false ->
  let r := foldl (fun acc v => (if f64_lt v acc.1 then v else acc.1, if f64_lt acc.2 v then v else acc.2)) acc xs in
  f64_key r.1 <= f64_key acc.1 /\ f64_key acc.2 <= f64_key r.2 /\
  f64_is_nan r.1 = false /\ f64_is_nan r.2 = false /\
  (a ∈ xs -> f64_key r.1 <= f64_key a <= f64_key r.2).
Proof.
  intros Ha. revert acc. induction xs as [|x xs IH]; intros [lo hi] Hlo Hhi; simpl in *.
  { split_and!; try done. by intros ?%elem_of_nil. }
  set (acc := (if f64_lt x lo then x else lo, if f64_lt hi x then x else hi)).
  assert (H1 : f64_is_nan acc.1 = false /\ f64_key acc.1 <= f64_key lo /\ (f64_is_nan x = false -> f64_key acc.1 <= f64_key x)).
  { unfold acc. simpl. destruct (f64_lt x lo) eqn:E; [apply f64_lt_keys in E as (Hx & _ & Hk); split_and!; done || lia|].
    split_and!; [done|lia|]. intros Hx. apply not_true_iff_false in E. rewrite f64_lt_keys in E.
    destruct (Z.le_gt_cases (f64_key lo) (f64_key x)); [done|]. destruct E. done. }
  assert (H2 : f64_is_nan acc.2 = false /\ f64_key hi <= f64_key acc.2 /\ (f64_is_nan x = false -> f64_key x <= f64_key acc.2)).
  { unfold acc. simpl. destruct (f64_lt hi x) eqn:E; [apply f64_lt_keys in E as (_ & Hx & Hk); split_and!; done || lia|].
    split_and!; [done|lia|]. intros Hx. apply not_true_iff_false in E. rewrite f64_lt_keys in E.
    destruct (Z.le_gt_cases (f64_key x) (f64_key hi)); [done|]. destruct E. done. }
  clearbody acc. destruct H1 as (N1 & L1 & X1). destruct H2 as (N2 & L2 & X2).
  destruct (IH acc N1 N2) as (I1 & I2 & I3 & I4 & I5). split_and!; try done; try lia.
  intros [->|Hin]%elem_of_cons; [|by apply I5]. specialize (X1 Ha). specialize (X2 Ha). lia.
Qed.

Lemma bits_i64_back x : unsigned 8 x -> as_u64 (bits_i64 x) = x.
Proof.
  unfold unsigned, as_u64, wrap64, bits_i64. change (width 8) with U64_MOD. intros Hx.
  destruct (x <? F64_SIGN); [by apply Z.mod_small|].
  rewrite <-(Z_mod_plus_full _ 1), Z.mul_1_l. replace (x - U64_MOD + U64_MOD) with x by lia. by apply Z.mod_small.
Qed.

Lemma float_range_unsigned xs : Forall (unsigned 8) xs -> unsigned 8 (float_range xs).1 /\ unsigned 8 (float_range xs).2.
Proof.
  intros Hxs. unfold float_range.
  assert (H : forall acc, unsigned 8 acc.1 -> unsigned 8 acc.2 ->
    unsigned 8 (foldl (fun acc v => (if f64_lt v acc.1 then v else acc.1, if f64_lt acc.2 v then v else acc.2)) acc xs).1 /\
    unsigned 8 (foldl (fun acc v => (if f64_lt v acc.1 then v else acc.1, if f64_lt acc.2 v then v else acc.2)) acc xs).2).
  { induction Hxs as [|x xs Hx _ IH]; intros [lo hi] Hlo Hhi; simpl in *; [done|].
    apply IH; simpl; [by destruct (f64_lt x lo)|by destruct (f64_lt hi x)]. }
  apply H; by vm_compute.
Qed.

Lemma float_zone_covers idx slice hn a :
  Forall (unsigned 8) slice -> a ∈ slice ->
  zone_covers (float_zone idx (float_range slice).1 (float_range slice).2 hn) (CellFloat a : Cell C).
Proof.
  intros Hs Ha. split; [done|]. intros t. unfold value_range. case_bool_decide; [done|]. simpl. intros Hn.
  destruct (float_range_unsigned _ Hs) as [U1 U2]. unfold zm_min_f, zm_max_f. simpl. rewrite !bits_i64_back by done.
  destruct (float_range_keeps slice (F64_INF, F64_NEG_INF) a Hn) as (_ & _ & N1 & N2 & Hrange); [by vm_compute..|].
  fold (float_range slice) in N1, N2, Hrange. rewrite !f64_le_keys. specialize (Hrange Ha). simpl in *. tauto.
Qed.

(** Every entry of a string column covers every value the scan saw. *)
Lemma string_entries_cover idx hn offsets data lo hi zms values v :
  string_zone_entries idx hn offsets data lo hi = Some zms -> values_in offsets data lo hi = Some values ->
  v ∈ values -> Forall is_byte v -> Forall (fun zm => zone_covers zm (CellStr (bytes_string v) : Cell C)) zms.
Proof.
  unfold string_zone_entries. rewrite string_zone_data_spec. intros Hz Hv Hin Hb. rewrite Hv in Hz. simpl in Hz.
  destruct (_ =? 0)%nat; [simplify_eq; constructor|].
  assert (Hval : forall t zm, zm_is_float zm = false -> covers (value_range t zm) (CellStr (bytes_string v) : Cell C)).
  { intros t zm Hf. unfold value_range. rewrite Hf. by case_bool_decide. }
  assert (Hkey : forall key : list Z -> Z, vr_min (range_of (key <$> values)) <= key v <= vr_max (range_of (key <$> values))).
  { intros key. apply (range_of_elem (key <$> values) (key v)). by apply list_elem_of_fmap_2. }
  apply bind_Some in Hz as (tails & Ht & [= <-]). constructor; [|constructor].
  - split; [|intros t; by apply Hval]. intros _. simpl. rewrite string_bytes_string by done. apply (Hkey value_len).
  - split; [|intros t; by apply Hval]. intros _. simpl. rewrite string_bytes_string by done. apply (Hkey string_prefix_key).
  - destruct (_ =? _); [|simplify_eq; constructor]. rewrite string_tail_data_spec, Hv in Ht. simpl in Ht.
    destruct (_ =? _); simplify_eq; [constructor|]. constructor; [|constructor]. split; [|intros t; by apply Hval].
    intros _. simpl. rewrite string_bytes_string by done. apply (Hkey string_tail_key).
Qed.

Lemma values_in_repr vs lo hi : (hi <= length vs)%nat ->
  values_in (offsets_from 0 vs) (concat vs) lo hi = Some (take (hi - lo) (drop lo vs)).
Proof.
  intros Hh. unfold values_in. apply mapM_Some_2. apply Forall2_same_length_lookup_2.
  { rewrite length_seq, length_take, length_drop. lia. }
  intros i row v [-> Hi]%lookup_seq Hv. rewrite value_at_repr, <-Hv. rewrite lookup_take_lt, lookup_drop by lia. done.
Qed.

End column.

Section columns.
Context {C : Type}.

Lemma bit_range_keeps bits acc b :
  acc.1 = 0 \/ acc.1 = 1 -> acc.2 = 0 \/ acc.2 = 1 ->
  let r := foldl (fun acc bit => (if bit <? acc.1 then bit else acc.1, if acc.2 <? bit then bit else acc.2)) acc (Z.b2z <$> bits) in
  r.1 <= acc.1 /\ acc.2 <= r.2 /\ (r.1 = 0 \/ r.1 = 1) /\ (r.2 = 0 \/ r.2 = 1) /\
  (b ∈ bits -> r.1 <= Z.b2z b <= r.2).
Proof.
  revert acc. induction bits as [|x bits IH]; intros [lo hi] Hlo Hhi; csimpl in *.
  { split_and!; try done; try lia. by intros ?%elem_of_nil. }
  set (acc := (if Z.b2z x <? lo then Z.b2z x else lo, if hi <? Z.b2z x then Z.b2z x else hi)).
  assert (Ha : (acc.1 = 0 \/ acc.1 = 1) /\ (acc.2 = 0 \/ acc.2 = 1) /\ acc.1 <= lo /\ hi <= acc.2 /\ acc.1 <= Z.b2z x <= acc.2).
  { unfold acc. simpl. destruct (Z.ltb_spec (Z.b2z x) lo), (Z.ltb_spec hi (Z.b2z x)), x; simpl in *; lia. }
  clearbody acc. destruct Ha as (A1 & A2 & A3 & A4 & A5).
  destruct (IH acc A1 A2) as (I1 & I2 & I3 & I4 & I5). split_and!; try done; try lia.
  intros [->|Hin]%elem_of_cons; [lia|by apply I5].
Qed.

Lemma bools_read bits lo hi : (lo <= hi <= length bits)%nat ->
  mapM (packed_bit (pack_bits bits)) (seq lo (hi - lo)) = Some (Z.b2z <$> take (hi - lo) (drop lo bits)).
Proof.
  intros Hh. apply mapM_Some_2. apply Forall2_same_length_lookup_2.
  { rewrite length_seq, length_fmap, length_take, length_drop. lia. }
  intros i row v [-> Hi]%lookup_seq Hv. rewrite packed_bit_pack by lia. rewrite <-Hv, list_lookup_fmap.
  by rewrite lookup_take_lt, lookup_drop by lia.
Qed.

Lemma bool_zone_covers idx hn bits start stop range i b :
  bool_bit_range (pack_bits bits) (length bits) start stop = Some range ->
  bits !! i = Some b -> (start <= i < stop)%nat ->
  Forall (fun zm => zone_covers zm (CellBool b : Cell C))
    (match range with Some (mn, mx) => [int_zone idx mn mx hn] | None => [] end).
Proof.
  intros Hr Hb Hi. assert (Hl := lookup_lt_Some _ _ _ Hb). unfold bool_bit_range in Hr.
  destruct (Nat.leb_spec (stop `min` length bits) (start `min` length bits)); [lia|].
  rewrite bools_read in Hr by lia. cbn [mbind option_bind] in Hr. simplify_eq.
  set (part := take _ (drop _ bits)).
  assert (Hin : b ∈ part).
  { pose proof (slice_elem bits start stop i b Hb Hi) as Hs. unfold slice_or_empty in Hs.
    destruct (Nat.ltb_spec (start `min` length bits) (stop `min` length bits)); [exact Hs|lia]. }
  clearbody part. destruct (bit_range_keeps part (1, 0) b) as (_ & _ & H1 & H2 & H3); [by right|by left|].
  specialize (H3 Hin). destruct (foldl _ (1, 0) _) as [mn mx]. simpl in H1, H2, H3.
  constructor; [|constructor]. split; [done|]. intros t. unfold value_range. simpl. case_bool_decide; [|done].
  split.
  - intros Hm%negb_true_iff%Z.eqb_neq. destruct b; [done|]. simpl in H3. lia.
  - intros ->. simpl in H3. apply negb_true_iff, Z.eqb_neq. lia.
Qed.

Lemma in_sublist {A} (P : A -> Prop) (l : list A) a n : Forall P l -> Forall P (take n (drop a l)).
Proof. intros H. by apply Forall_take, Forall_drop. Qed.

Lemma slice_or_empty_Forall {A} (P : A -> Prop) (l : list A) start stop : Forall P l -> Forall P (slice_or_empty l start stop).
Proof. intros H. unfold slice_or_empty. destruct (_ <? _)%nat; [by apply in_sublist|constructor]. Qed.

Lemma column_zone_covers column nulls idx start stop zms rows i d (c : Cell C) :
  column_zone_maps column nulls idx start stop = Some zms -> repr column rows ->
  rows !! i = Some d -> (start <= i < stop)%nat -> Forall datum_ok rows -> cell_of_datum d = Some c ->
  Forall (fun zm => zone_covers zm c) zms.
Proof.
  intros Hz Hr Hd Hi Hok Hc. unfold column_zone_maps in Hz.
  set (hn := match nulls with Some nulls => null_bitmap_any_set nulls idx start stop | None => false end) in *. clearbody hn.
  destruct column as [bools len|ints|floats|offsets data|offsets data|indices offsets data|data dim|data dim|data dim codec];
    try (simplify_eq; constructor); simpl in Hr.
  - destruct Hr as (bits & -> & -> & ->). rewrite list_lookup_fmap in Hd. apply fmap_Some in Hd as (b & Hb & ->).
    simpl in Hc. simplify_eq. apply bind_Some in Hz as (range & Hrange & [= <-]).
    by apply (bool_zone_covers idx hn bits start stop range i).
  - subst rows. rewrite list_lookup_fmap in Hd. apply fmap_Some in Hd as (x & Hx & ->). simpl in Hc. simplify_eq.
    pose proof (slice_elem ints start stop i x Hx Hi) as Hin.
    destruct (slice_or_empty ints start stop) as [|y slice] eqn:E; [by apply elem_of_nil in Hin|]. simplify_eq.
    constructor; [|constructor]. by apply (int_zone_covers idx (y :: slice)).
  - subst rows. rewrite list_lookup_fmap in Hd. apply fmap_Some in Hd as (x & Hx & ->). simpl in Hc. simplify_eq.
    pose proof (slice_elem floats start stop i x Hx Hi) as Hin. rewrite Forall_fmap in Hok.
    pose proof (slice_or_empty_Forall (unsigned 8) floats start stop Hok) as Hs.
    destruct (slice_or_empty floats start stop) as [|y slice] eqn:E; [by apply elem_of_nil in Hin|].
    destruct (float_range (y :: slice)) as [mn mx] eqn:Hm. simplify_eq.
    constructor; [|constructor]. pose proof (float_zone_covers (C := C) idx (y :: slice) hn x Hs Hin) as H.
    by rewrite Hm in H.
  - destruct Hr as (vs & [-> ->] & ->). rewrite list_lookup_fmap in Hd. apply fmap_Some in Hd as (v & Hv & ->).
    simpl in Hc. simplify_eq. assert (Hl := lookup_lt_Some _ _ _ Hv). rewrite offsets_from_length in Hz. simpl in Hz.
    rewrite Nat.sub_0_r in Hz. destruct (Nat.ltb_spec (start `min` length vs) (stop `min` length vs)); [|lia].
    eapply string_entries_cover; [exact Hz|apply values_in_repr; lia| |].
    + pose proof (slice_elem vs start stop i v Hv Hi) as Hs. unfold slice_or_empty in Hs.
      destruct (Nat.ltb_spec (start `min` length vs) (stop `min` length vs)); [exact Hs|lia].
    + rewrite Forall_fmap, Forall_lookup in Hok. exact (Hok _ _ Hv).
  - destruct Hr as (dict & [-> ->] & Hidx & ->). rewrite list_lookup_fmap in Hd. apply fmap_Some in Hd as (ix & Hix & ->).
    pose proof (list_elem_of_lookup_2 _ _ _ Hix) as Hin. rewrite Forall_fmap, Forall_forall in Hok. specialize (Hok _ Hin).
    simpl in Hok. unfold dict_datum in Hc, Hok. destruct (ix =? 0); [done|].
    destruct (dict !! Z.to_nat (ix - 1)) as [v|] eqn:Hv; [|done]. simpl in Hc, Hok. simplify_eq.
    assert (Hl := lookup_lt_Some _ _ _ Hv). rewrite offsets_from_length in Hz. simpl in Hz. rewrite Nat.sub_0_r in Hz.
    destruct (Nat.ltb_spec 0 (length dict)); [|lia].
    eapply string_entries_cover; [exact Hz|apply values_in_repr; lia| |done].
    rewrite drop_0, take_ge by lia. by eapply list_elem_of_lookup_2.
Qed.

End columns.

(** ** A skipped row group holds no matching row *)

Lemma column_zone_index column nulls idx start stop zms :
  column_zone_maps column nulls idx start stop = Some zms ->
  Forall (fun zm => zm_col_idx zm = wrap16 (Z.of_nat idx) /\ zm_is_string_prefix zm && zm_is_string_tail zm = false) zms.
Proof.
  intros Hz.
  assert (Hs : forall hn offsets data lo hi zs, string_zone_entries idx hn offsets data lo hi = Some zs ->
    Forall (fun zm => zm_col_idx zm = wrap16 (Z.of_nat idx) /\ zm_is_string_prefix zm && zm_is_string_tail zm = false) zs).
  { intros hn offsets data lo hi zs. unfold string_zone_entries. intros ([lengths keys] & _ & H)%bind_Some.
    destruct (_ =? 0)%nat; [simplify_eq; constructor|]. apply bind_Some in H as (tails & Ht & [= <-]).
    constructor; [done|]. constructor; [done|].
    destruct (_ =? _); [|simplify_eq; constructor]. apply bind_Some in Ht as (t & _ & [= <-]).
    destruct (_ =? _); repeat constructor. }
  unfold column_zone_maps in Hz.
  destruct column; try (simplify_eq; constructor).
  - apply bind_Some in Hz as ([[mn mx]|] & _ & [= <-]); repeat constructor.
  - destruct (slice_or_empty _ _ _); simplify_eq; repeat constructor.
  - destruct (slice_or_empty _ _ _); [simplify_eq; constructor|]. destruct (float_range _). simplify_eq. repeat constructor.
  - destruct (_ <? _)%nat; [by eapply Hs|simplify_eq; constructor].
  - destruct (0 <? _)%nat; [by eapply Hs|simplify_eq; constructor].
Qed.

Lemma mapM_elem {A B} (f : A -> option B) l k x : mapM f l = Some k -> x ∈ k -> exists a, a ∈ l /\ f a = Some x.
Proof.
  intros Hm%mapM_Some Hx. apply list_elem_of_lookup in Hx as (i & Hx).
  destruct (Forall2_lookup_r _ _ _ _ _ Hm Hx) as (a & Ha & Hf). exists a. split; [by eapply list_elem_of_lookup_2|done].
Qed.

(** An entry of the row group belongs to one column's scan. *)
Lemma group_zone_column columns nulls start stop zmaps idx zm :
  compute_rg_zone_maps columns nulls start stop = Some zmaps -> len_of columns <= 65536 ->
  zm ∈ zmaps -> of_column idx zm = true ->
  exists column zms, columns !! idx = Some column /\
    column_zone_maps column (Some nulls) idx start stop = Some zms /\ zm ∈ zms.
Proof.
  unfold compute_rg_zone_maps. intros (parts & Hp & [= <-])%bind_Some Hlen Hin Hof.
  apply list_elem_of_In, in_concat in Hin as (zms & Hzms & Hin).
  apply list_elem_of_In in Hzms. apply list_elem_of_In in Hin.
  destruct (mapM_elem _ _ _ _ Hp Hzms) as ([j column] & Hj & Hz). simpl in Hz.
  apply list_elem_of_lookup in Hj as (k & Hk). rewrite list_lookup_imap in Hk.
  apply fmap_Some in Hk as (col & Hcol & [= -> ->]). assert (Hl := lookup_lt_Some _ _ _ Hcol).
  pose proof (column_zone_index _ _ _ _ _ _ Hz) as Hidx. rewrite Forall_forall in Hidx. specialize (Hidx _ Hin).
  destruct Hidx as [Hidx _]. unfold of_column in Hof. rewrite Hidx in Hof. apply Z.eqb_eq in Hof. unfold wrap16 in Hof.
  rewrite Z.mod_small in Hof by (unfold len_of in Hlen; change (2 ^ 16) with 65536; lia).
  apply Nat2Z.inj in Hof. subst. eauto.
Qed.

(** The cells of row [i]: what the column of that name stores there, unless the row is null there. *)
Definition stored_row {C} (schema : OnDemandSchema) (columns : list ColumnData) (i : nat)
    (row : string -> option (Cell C)) : Prop :=
  forall name c, row name = Some c ->
  exists idx column rows d, get_index schema (clean_column_name name) = Some idx /\ columns !! idx = Some column /\
    repr column rows /\ Forall datum_ok rows /\ rows !! i = Some d /\ cell_of_datum d = Some c.

Lemma leaf_pruned {C} footer rg columns nulls start stop zmaps i (row : string -> option (Cell C)) p :
  compute_rg_zone_maps columns nulls start stop = Some zmaps -> vf_zone_maps footer !! rg = Some zmaps ->
  len_of columns <= 65536 -> (start <= i < stop)%nat -> stored_row (vf_schema footer) columns i row ->
  prunable p -> zone_predicate_disjoint rg footer p = true -> leaf_holds (row (ScanPredicate_column p)) p = false.
Proof.
  intros Hz Hrg Hlen Hi Hrow Hp Hd. unfold zone_predicate_disjoint in Hd. rewrite Hrg in Hd.
  destruct (get_index _ _) as [idx|] eqn:Hidx; [|done].
  assert (Hnull : forall r, range_disjoint p r = true -> leaf_holds (@None (Cell C)) p = false) by (by destruct p).
  assert (Hzone : forall zm c, zm ∈ zmaps -> of_column idx zm = true -> row (ScanPredicate_column p) = Some c -> zone_covers zm c).
  { intros zm c Hin Hof Hc. destruct (group_zone_column _ _ _ _ _ _ _ Hz Hlen Hin Hof) as (column & zms & Hcol & Hzs & Hzm).
    destruct (Hrow _ _ Hc) as (idx' & column' & rows & d & Hidx' & Hcol' & Hr & Hok & Hdi & Hcd). simplify_eq.
    pose proof (column_zone_covers _ _ _ _ _ _ _ _ _ _ Hzs Hr Hdi Hi Hok Hcd) as H. rewrite Forall_forall in H. by apply H. }
  destruct (is_string_column _).
  - apply existsb_exists in Hd as (zm & Hin%list_elem_of_In & [[Hof Hf]%andb_true_iff Hd]%andb_true_iff).
    apply negb_true_iff in Hf. destruct (row _) as [c|] eqn:Hc; [|by eapply Hnull].
    destruct (Hzone zm c Hin Hof eq_refl) as [H _]. by eapply leaf_sound; [apply H| |].
  - destruct (List.find _ _) as [zm|] eqn:Hfind; [|done]. apply List.find_some in Hfind as [Hin%list_elem_of_In Hof].
    destruct (row _) as [c|] eqn:Hc; [|by eapply Hnull].
    destruct (Hzone zm c Hin Hof eq_refl) as [_ H]. by eapply leaf_sound; [apply H| |].
Qed.

Lemma expr_pruned {C} footer rg columns nulls start stop zmaps i (row : string -> option (Cell C)) p :
  compute_rg_zone_maps columns nulls start stop = Some zmaps -> vf_zone_maps footer !! rg = Some zmaps ->
  len_of columns <= 65536 -> (start <= i < stop)%nat -> stored_row (vf_schema footer) columns i row ->
  Forall prunable (pred_leaves p) -> zone_map_rg_disjoint rg footer p = true -> expr_holds row p = false.
Proof.
  intros Hz Hrg Hlen Hi Hrow. induction p as [p|l IHl r IHr|l IHl r IHr]; simpl.
  - intros Hp Hd. eapply leaf_pruned; eauto. by inversion Hp.
  - intros [Hl Hr]%Forall_app [Hd|Hd]%orb_true_iff; apply andb_false_iff; [left|right]; auto.
  - intros [Hl Hr]%Forall_app [Hd1 Hd2]%andb_true_iff. apply orb_false_iff. auto.
Qed.

(** ** The stream delivers the row groups that were not skipped *)

Section stream_facts.
Context {B : Type} (read_rg : nat -> Result B).

(** The row groups of the range that are read. *)
Definition wanted (s : RgBatchStream) (rg : nat) : bool :=
  match vf_row_groups (rs_footer s) !! rg with Some meta => negb (skipped s rg meta) | None => false end.

Definition read_groups (s : RgBatchStream) (start stop : nat) : list nat := List.filter (wanted s) (seq start (stop - start)).

Lemma next_from_spec fuel s :
  (rs_end_rg s <= length (vf_row_groups (rs_footer s)))%nat -> (rs_end_rg s - rs_next_rg s < fuel)%nat ->
  match read_groups s (rs_next_rg s) (rs_end_rg s) with
  | [] => exists s', next_from read_rg fuel s = Done (None, s')
  | rg :: rest => next_from read_rg fuel s = Done (Some (read_rg rg), at_rg s (S rg)) /\
                  read_groups s (S rg) (rs_end_rg s) = rest /\ (rs_next_rg s <= rg < rs_end_rg s)%nat
  end.
Proof.
  revert s. induction fuel as [|fuel IH]; intros s Hend Hfuel; [lia|]. cbn [next_from].
  destruct (Nat.leb_spec (rs_end_rg s) (rs_next_rg s)) as [Hle|Hgt].
  { unfold read_groups. replace (rs_end_rg s - rs_next_rg s)%nat with 0%nat by lia. simpl. eauto. }
  assert (Hseq : read_groups s (rs_next_rg s) (rs_end_rg s) =
    (if wanted s (rs_next_rg s) then [rs_next_rg s] else []) ++ read_groups s (S (rs_next_rg s)) (rs_end_rg s)).
  { unfold read_groups. replace (rs_end_rg s - rs_next_rg s)%nat with (S (rs_end_rg s - S (rs_next_rg s)))%nat by lia.
    simpl. by destruct (wanted s (rs_next_rg s)). }
  rewrite Hseq. unfold wanted.
  change (vf_row_groups (rs_footer (at_rg s (S (rs_next_rg s))))) with (vf_row_groups (rs_footer s)).
  destruct (lookup_lt_is_Some_2 (vf_row_groups (rs_footer s)) (rs_next_rg s)) as (meta & Hmeta); [lia|].
  rewrite Hmeta. change (skipped (at_rg s (S (rs_next_rg s)))) with (skipped s).
  destruct (skipped s (rs_next_rg s) meta); cbn [negb app].
  - specialize (IH (at_rg s (S (rs_next_rg s)))). simpl in IH. specialize (IH Hend ltac:(lia)).
    change (read_groups (at_rg s (S (rs_next_rg s)))) with (read_groups s) in IH.
    destruct (read_groups s (S (rs_next_rg s)) (rs_end_rg s)) as [|rg rest]; [done|].
    destruct IH as (H1 & H2 & H3). split; [exact H1|]. split; [done|]. lia.
  - split; [done|]. split; [done|]. lia.
Qed.

Lemma drain_spec fuel s :
  (rs_end_rg s <= length (vf_row_groups (rs_footer s)))%nat -> (rs_end_rg s - rs_next_rg s < fuel)%nat ->
  drain_stream read_rg fuel s = Done (read_rg <$> read_groups s (rs_next_rg s) (rs_end_rg s)).
Proof.
  revert s. induction fuel as [|fuel IH]; intros s Hend Hfuel; [lia|]. cbn [drain_stream]. unfold RgBatchStream_next.
  pose proof (next_from_spec (S (rs_end_rg s - rs_next_rg s)) s Hend ltac:(lia)) as Hn.
  destruct (read_groups s (rs_next_rg s) (rs_end_rg s)) as [|rg rest].
  - destruct Hn as (s' & ->). done.
  - destruct Hn as (-> & Hrest & Hrg). cbn [outcome_bind fst snd]. rewrite (IH (at_rg s (S rg))) by (simpl; lia). simpl.
    change (read_groups (at_rg s (S rg))) with (read_groups s). by rewrite Hrest.
Qed.

Lemma stream_batches_spec s :
  (rs_end_rg s <= length (vf_row_groups (rs_footer s)))%nat ->
  stream_batches read_rg s = Done (read_rg <$> read_groups s (rs_next_rg s) (rs_end_rg s)).
Proof. intros Hend. apply drain_spec; [done|lia]. Qed.

Lemma read_groups_split s a b c : (a <= b <= c)%nat -> read_groups s a c = read_groups s a b ++ read_groups s b c.
Proof.
  intros H. unfold read_groups. rewrite <-List.filter_app. f_equal.
  replace (c - a)%nat with ((b - a) + (c - b))%nat by lia. rewrite seq_app. do 2 f_equal. lia.
Qed.

(** The ranges of a parallel scan cut the row groups into consecutive pieces. *)
Lemma rg_ranges_cover s fuel start total chunk :
  (0 < chunk)%nat -> (total - start <= fuel)%nat -> (start <= total)%nat ->
  concat ((fun r => read_groups s r.1 r.2) <$> rg_ranges fuel start total chunk) = read_groups s start total /\
  Forall (fun r => r.2 <= total)%nat (rg_ranges fuel start total chunk).
Proof.
  intros Hc. revert start. induction fuel as [|fuel IH]; intros start Hf Hs; cbn [rg_ranges].
  { simpl. unfold read_groups. replace (total - start)%nat with 0%nat by lia. by split. }
  destruct (Nat.ltb_spec start total).
  - destruct (IH ((start + chunk) `min` total)%nat ltac:(lia) ltac:(lia)) as [H1 H2]. csimpl. rewrite H1.
    split; [symmetry; apply read_groups_split; lia|]. constructor; [simpl; lia|done].
  - simpl. unfold read_groups. replace (total - start)%nat with 0%nat by lia. by split.
Qed.

End stream_facts.

Lemma group_zone_in columns nulls start stop zmaps idx column zms zm :
  compute_rg_zone_maps columns nulls start stop = Some zmaps -> columns !! idx = Some column ->
  column_zone_maps column (Some nulls) idx start stop = Some zms -> zm ∈ zms -> zm ∈ zmaps.
Proof.
  unfold compute_rg_zone_maps. intros (parts & Hp & [= <-])%bind_Some Hcol Hz Hin.
  apply mapM_Some in Hp. destruct (Forall2_lookup_l _ _ _ idx (idx, column) Hp) as (zs & Hzs & Heq).
  { rewrite list_lookup_imap, Hcol. done. }
  simpl in Heq. assert (zs = zms) as -> by congruence. apply list_elem_of_In, in_concat. exists zms.
  split; apply list_elem_of_In; [by eapply list_elem_of_lookup_2|done].
Qed.

Lemma find_some_of {A} (p : A -> bool) l x : x ∈ l -> p x = true -> exists y, List.find p l = Some y.
Proof.
  intros Hx Hp. destruct (List.find p l) as [y|] eqn:E; [by exists y|].
  apply list_elem_of_In in Hx. rewrite (List.find_none _ _ E x Hx) in Hp. done.
Qed.

Lemma wrap16_small idx : Z.of_nat idx < 65536 -> wrap16 (Z.of_nat idx) = Z.of_nat idx.
Proof. intros H. unfold wrap16. apply Z.mod_small. change (2 ^ 16) with 65536. lia. Qed.

(** A point lookup never passes over a value the column holds. *)
Lemma string_zone_excludes_sound columns nulls start stop zmaps idx rows i w values :
  compute_rg_zone_maps columns nulls start stop = Some zmaps -> len_of columns <= 65536 ->
  (exists column, columns !! idx = Some column /\ repr column rows) -> Forall datum_ok rows ->
  rows !! i = Some (DBytes w) -> (start <= i < stop)%nat ->
  string_zone_excludes zmaps idx values = true -> w ∉ values.
Proof.
  intros Hz Hlen (column & Hcol & Hr) Hok Hw Hi Hx Hin. unfold string_zone_excludes in Hx.
  assert (Hb : Forall is_byte w) by (rewrite Forall_lookup in Hok; exact (Hok _ _ Hw)).
  assert (Hex : existsb (fun zm => of_column idx zm && negb (zm_is_float zm) && single_string_zone_excludes zm values) zmaps = true)
    by (destruct values; [by apply elem_of_nil in Hin|done]).
  apply existsb_exists in Hex as (zm & Hzm%list_elem_of_In & [[Hof Hf%negb_true_iff]%andb_true_iff Hs]%andb_true_iff).
  destruct (group_zone_column _ _ _ _ _ _ _ Hz Hlen Hzm Hof) as (col & zms & Hcol' & Hzs & Hin').
  assert (col = column) as -> by congruence.
  pose proof (column_zone_covers (C := unit) _ _ _ _ _ _ _ _ _ _ Hzs Hr Hw Hi Hok eq_refl) as Hc.
  rewrite Forall_forall in Hc. destruct (Hc _ Hin') as [Hcover _]. specialize (Hcover Hf).
  unfold string_range in Hcover. unfold single_string_zone_excludes in Hs. apply list_elem_of_In in Hin.
  pose proof (column_zone_index _ _ _ _ _ _ Hzs) as Hflags. rewrite Forall_forall in Hflags.
  destruct (Hflags _ Hin') as [_ Hboth].
  destruct (zm_is_string_prefix zm), (zm_is_string_tail zm); simpl in Hcover, Hboth; try done;
    rewrite string_bytes_string in Hcover by done;
    try (rewrite forallb_forall in Hs; specialize (Hs _ Hin); unfold key_outside in Hs; lia).
  destruct values as [|v values]; [done|]. csimpl in Hs. unfold len_of in Hcover.
  assert (Hmin : foldl Z.min (len_of v) (len_of <$> values) <= Z.of_nat (length w)).
  { apply foldl_min_le. destruct Hin as [->|Hin]; [by left|right]. apply (list_elem_of_fmap_2 len_of), list_elem_of_In, Hin. }
  assert (Hmax : Z.of_nat (length w) <= foldl Z.max (len_of v) (len_of <$> values)).
  { apply foldl_max_ge. destruct Hin as [->|Hin]; [by left|right]. apply (list_elem_of_fmap_2 len_of), list_elem_of_In, Hin. }
  lia.
Qed.

(** ** Properties *)

(** C27 Skipping row groups by their zone maps loses nothing.  A scan without pending updates
    delivers, in order, every row group that has live rows and holds a stored row matching the
    predicate, as long as the zone maps are the ones computed from the stored columns and no text
    is compared with [<>]; and the parallel form of the scan, which cuts the row groups into
    ranges, delivers the same batches in the same order. *)
Theorem pruned_scan_complete {B C : Type} (read_rg : nat -> Result B) (footer : V4Footer)
    (names : option (list string)) (include_id : bool) (p : ScanPredicateExpr) (range_count : nat)
    (s : RgBatchStream) (streams : list RgBatchStream)
    (Hs : RgBatchStream_new (Some footer) names include_id (Some p) = Some s)
    (Hstreams : scan_rg_batches_ranges (Some footer) names include_id (Some p) range_count = Some streams) :
  let groups := read_groups s 0 (length (vf_row_groups footer)) in
  stream_batches read_rg s = Done (read_rg <$> groups) /\
  (exists batches, Forall2 (fun st bs => stream_batches read_rg st = Done bs) streams batches /\
     concat batches = read_rg <$> groups) /\
  forall rg meta columns nulls start stop i (row : string -> option (Cell C)),
    vf_row_groups footer !! rg = Some meta -> 0 < rg_row_count meta -> 0 < active_rows meta ->
    vf_zone_maps footer !! rg = compute_rg_zone_maps columns nulls start stop ->
    len_of columns <= 65536 -> (start <= i < stop)%nat -> stored_row (vf_schema footer) columns i row ->
    Forall prunable (pred_leaves p) -> expr_holds row p = true -> rg ∈ groups.
Proof.
  intros groups. pose proof Hs as Hnew. unfold RgBatchStream_new in Hnew. simpl in Hnew.
  destruct (total_active_rows footer =? 0); [done|]. injection Hnew as <-.
  set (s := mkRgStream _ _ _ _ _ _) in *. split; [by apply stream_batches_spec|]. split.
  - unfold scan_rg_batches_ranges in Hstreams. rewrite Hs in Hstreams. simpl in Hstreams.
    destruct (_ || _) eqn:Hsmall.
    + injection Hstreams as <-. exists [read_rg <$> groups]. split; [|simpl; apply app_nil_r].
      constructor; [|constructor]. by apply stream_batches_spec.
    + apply orb_false_iff in Hsmall as [H1%Nat.ltb_ge H2%Nat.ltb_ge]. injection Hstreams as <-.
      set (total := length (vf_row_groups footer)) in *. set (chunk := ((_ + _ - 1) / _)%nat).
      assert (Hchunk : (0 < chunk)%nat) by (unfold chunk; apply Nat.div_str_pos; lia).
      destruct (rg_ranges_cover s total 0 total chunk Hchunk ltac:(lia) ltac:(lia)) as [Hcov Hle].
      exists ((fun r => read_rg <$> read_groups s r.1 r.2) <$> rg_ranges total 0 total chunk). split.
      * apply Forall2_fmap. apply Forall_Forall2_diag. eapply Forall_impl; [exact Hle|]. intros r Hr.
        apply (stream_batches_spec read_rg (with_range s r.1 r.2)). exact Hr.
      * unfold groups. rewrite <-Hcov. clear. induction (rg_ranges total 0 total chunk) as [|r l IH]; [done|].
        csimpl. by rewrite IH, fmap_app.
  - intros rg meta columns nulls start stop i row Hmeta Hrows Hact Hz Hlen Hi Hrow Hp Hholds.
    apply list_elem_of_In, List.filter_In. split; [apply in_seq; apply lookup_lt_Some in Hmeta; lia|].
    unfold wanted. simpl. rewrite Hmeta. unfold skipped. simpl. apply negb_true_iff.
    destruct (Z.eqb_spec (rg_row_count meta) 0); [lia|]. destruct (Z.eqb_spec (active_rows meta) 0); [lia|]. simpl.
    apply not_true_is_false. intros Hd.
    destruct (vf_zone_maps footer !! rg) as [zmaps|] eqn:Hzm.
    + pose proof (expr_pruned footer rg columns nulls start stop zmaps i row p) as Hx.
      rewrite Hx in Hholds; done.
    + clear -Hd Hzm Hholds. revert Hd Hholds. induction p as [leaf|l IHl r IHr|l IHl r IHr]; simpl.
      * unfold zone_predicate_disjoint. by rewrite Hzm.
      * intros [Hd|Hd]%orb_true_iff [Hl Hr]%andb_true_iff; auto.
      * intros [Hd1 Hd2]%andb_true_iff [H|H]%orb_true_iff; auto.
Qed.

Lemma prefix_key_range t : I64_MIN <= string_prefix_key (string_bytes t) <= I64_MAX.
Proof.
  unfold string_prefix_key. rewrite string_byte_key_spec by apply string_bytes_are_bytes. rewrite drop_0.
  pose proof (be_padded_range 8 _ (string_bytes_are_bytes t)) as H. change (256 ^ Z.of_nat 8) with U64_MOD in H.
  unfold I64_MIN, I64_MAX, F64_SIGN, U64_MOD in *. lia.
Qed.

Lemma range_of_within lo hi ks :
  lo <= I64_MAX -> I64_MIN <= hi -> Forall (fun x => lo <= x <= hi) ks ->
  lo <= vr_min (range_of ks) /\ vr_max (range_of ks) <= hi.
Proof.
  intros Hlo Hhi. induction ks as [|x ks IH] using rev_ind; [done|].
  intros [Hks Hx]%Forall_app. apply Forall_cons in Hx as [Hx _]. specialize (IH Hks).
  unfold range_of in *. rewrite foldl_app. simpl. lia.
Qed.

Lemma range_of_const k ks :
  I64_MIN <= k <= I64_MAX -> ks <> [] -> Forall (fun x => x = k) ks ->
  vr_min (range_of ks) = k /\ vr_max (range_of ks) = k.
Proof.
  intros Hk Hne Hks. assert (Hin : k ∈ ks) by (destruct Hks as [|x ks ->]; [done|by constructor]).
  apply range_of_elem in Hin. destruct (range_of_within k k ks) as [H1 H2]; [lia..| |].
  - eapply Forall_impl; [exact Hks|]. intros x ->. lia.
  - unfold elem_of, in_value_range in Hin. lia.
Qed.

(** The prefix entry of a string column whose texts share one prefix key. *)
Lemma const_prefix_zone nulls idx start stop vs zms k i w :
  column_zone_maps (CdString (offsets_from 0 vs) (concat vs)) nulls idx start stop = Some zms ->
  I64_MIN <= k <= I64_MAX -> vs !! i = Some w -> (start <= i < stop)%nat ->
  Forall (fun w => string_prefix_key w = k) (slice_or_empty vs start stop) ->
  exists hn, prefix_zone idx k k hn ∈ zms.
Proof.
  intros Hz Hk Hw Hi Hkeys. assert (Hl := lookup_lt_Some _ _ _ Hw).
  pose proof (slice_elem vs start stop i w Hw Hi) as Hin. unfold slice_or_empty in Hkeys, Hin.
  destruct (Nat.ltb_spec (start `min` length vs) (stop `min` length vs)); [|lia].
  simpl in Hz. rewrite offsets_from_length in Hz. simpl in Hz. rewrite Nat.sub_0_r in Hz.
  destruct (Nat.ltb_spec (start `min` length vs) (stop `min` length vs)); [|lia].
  set (hn := match nulls with Some nulls => null_bitmap_any_set nulls idx start stop | None => false end) in *.
  clearbody hn. exists hn. unfold string_zone_entries in Hz.
  rewrite string_zone_data_spec, values_in_repr in Hz by lia.
  set (values := take _ _) in *. clearbody values. simpl in Hz. rewrite range_of_values, length_fmap in Hz.
  destruct (Nat.eqb_spec (length values) 0) as [Hnil|_]; [apply nil_length_inv in Hnil as ->; by apply elem_of_nil in Hin|].
  apply bind_Some in Hz as (tails & _ & [= <-]).
  destruct (range_of_const k (string_prefix_key <$> values)) as [H1 H2]; [done| |by apply Forall_fmap|].
  { intros Hnil. apply fmap_nil_inv in Hnil as ->. by apply elem_of_nil in Hin. }
  simpl. rewrite H1, H2. right. left.
Qed.

(** A text compared with [<>] loses rows.  When every text of a row group agrees with the literal
    on its first eight bytes, the prefix keys of the zone map are all equal and the row group is
    skipped, although a stored text that differs from the literal later on satisfies the predicate. *)
Theorem string_inequality_loses_rows {C : Type} (footer : V4Footer) (rg : nat) (columns : list ColumnData)
    (nulls : list (list Z)) (start stop : nat) (zmaps : list RgColumnZoneMap) (idx : nat) (name t v : string)
    (vs : list (list Z)) (i : nat)
    (Hz : compute_rg_zone_maps columns nulls start stop = Some zmaps)
    (Hrg : vf_zone_maps footer !! rg = Some zmaps) (Hlen : len_of columns <= 65536)
    (Hcol : columns !! idx = Some (CdString (offsets_from 0 vs) (concat vs)))
    (Hidx : get_index (vf_schema footer) (clean_column_name name) = Some idx)
    (Htype : type_at (vf_schema footer) idx = Some TString)
    (Hi : (start <= i < stop)%nat) (Hv : vs !! i = Some (string_bytes v)) (Hne : v <> t)
    (Hkeys : Forall (fun w => string_prefix_key w = string_prefix_key (string_bytes t)) (slice_or_empty vs start stop)) :
  let p := PCompare name CmpNotEq (SvString t) in
  zone_map_rg_disjoint rg footer (PredLeaf p) = true /\ leaf_holds (Some (CellStr v : Cell C)) p = true.
Proof.
  intros p. split.
  - simpl. unfold zone_predicate_disjoint. rewrite Hrg. simpl. rewrite Hidx, Htype. simpl.
    assert (Hkt := prefix_key_range t). set (k := string_prefix_key (string_bytes t)) in *.
    pose proof Hz as Hparts. unfold compute_rg_zone_maps in Hparts. apply bind_Some in Hparts as (parts & Hp & _).
    apply mapM_Some in Hp. destruct (Forall2_lookup_l _ _ _ idx (idx, CdString (offsets_from 0 vs) (concat vs)) Hp) as (zms & _ & Hzms).
    { by rewrite list_lookup_imap, Hcol. }
    destruct (const_prefix_zone _ _ _ _ _ _ k i _ Hzms Hkt Hv Hi Hkeys) as (hn & Hin).
    apply existsb_exists. exists (prefix_zone idx k k hn).
    split; [apply list_elem_of_In; by eapply group_zone_in|].
    unfold of_column, prefix_zone. cbn [zm_col_idx zm_is_float]. apply lookup_lt_Some in Hcol. unfold len_of in Hlen.
    rewrite wrap16_small, Z.eqb_refl by lia. simpl. fold k. by rewrite !Z.eqb_refl.
  - simpl. destruct (String.compare v t) eqn:E; try done. by apply string_compare_eq in E.
Qed.

(** A pending update hides a row.  The zone maps describe the stored cells, and a row group is
    skipped by them before the pending cell updates are applied: a row whose updated value lies
    above every stored value matches the predicate after the merge, but its row group is never
    read. *)
Theorem pending_update_hides_row {J C : Type} (footer : V4Footer) (rg : nat) (columns : list ColumnData)
    (nulls : list (list Z)) (start stop : nat) (zmaps : list RgColumnZoneMap) (idx : nat) (name : string)
    (t : ColumnType) (ints : list Z) (delta : DeltaStore J) (id v : Z) (base : nat -> option (option Z))
    (ids : list Z) (pos : nat)
    (Hz : compute_rg_zone_maps columns nulls start stop = Some zmaps)
    (Hrg : vf_zone_maps footer !! rg = Some zmaps) (Hlen : len_of columns <= 65536)
    (Hcol : columns !! idx = Some (CdInt64 ints))
    (Hidx : get_index (vf_schema footer) (clean_column_name name) = Some idx)
    (Htype : type_at (vf_schema footer) idx = Some t) (Ht : is_string_column t = false /\ t <> TBool)
    (Hne : slice_or_empty ints start stop <> [])
    (Hbelow : Forall (fun x => x < v) (slice_or_empty ints start stop)) (Hv : I64_MIN < v)
    (Hid : ids !! pos = Some id) (Hupdate : get_updated_value delta id name = Some (VInt64 v)) :
  let p := PCompare name CmpEq (SvInt v) in
  merge_cell as_i64 base name ids delta pos = Some (Some v) /\
  leaf_holds (Some (CellInt v : Cell C)) p = true /\ zone_map_rg_disjoint rg footer (PredLeaf p) = true.
Proof.
  intros p. split; [|split].
  - unfold merge_cell. rewrite Hid. simpl. by rewrite Hupdate.
  - simpl. by rewrite Z.compare_refl.
  - destruct Ht as [Hstr Hbool]. simpl. unfold zone_predicate_disjoint. rewrite Hrg. simpl.
    rewrite Hidx, Htype. simpl. rewrite Hstr.
    destruct (slice_or_empty ints start stop) as [|x slice] eqn:Es; [done|].
    set (zone hn := int_zone idx (foldl Z.min I64_MAX (x :: slice)) (foldl Z.max I64_MIN (x :: slice)) hn).
    assert (Hzone : column_zone_maps (CdInt64 ints) (Some nulls) idx start stop = Some [zone (null_bitmap_any_set nulls idx start stop)])
      by (simpl; by rewrite Es).
    assert (Hsmall : Z.of_nat idx < 65536) by (apply lookup_lt_Some in Hcol; unfold len_of in Hlen; lia).
    destruct (find_some_of (of_column idx) zmaps (zone (null_bitmap_any_set nulls idx start stop))) as (zm & Hfind).
    { eapply group_zone_in; [done..|by constructor]. }
    { unfold of_column, zone, int_zone. cbn [zm_col_idx]. by rewrite wrap16_small, Z.eqb_refl. }
    rewrite Hfind. apply List.find_some in Hfind as [Hin%list_elem_of_In Hof].
    destruct (group_zone_column _ _ _ _ _ _ _ Hz Hlen Hin Hof) as (col & zs & Hcol' & Hzs & Hzm).
    assert (col = CdInt64 ints) as -> by congruence. rewrite Hzone in Hzs. injection Hzs as <-.
    apply list_elem_of_singleton in Hzm as ->.
    unfold value_range. rewrite bool_decide_eq_false_2 by done. unfold zone, int_zone.
    cbn [zm_is_float zm_min_bits zm_max_bits zone_compare_disjoint int_disjoint]. apply orb_true_iff. right. apply Z.ltb_lt.
    assert (Hmax : forall l m, m < v -> Forall (fun x => x < v) l -> foldl Z.max m l < v).
    { intros l. induction l as [|y l IH]; intros m Hm Hl; [done|]. apply Forall_cons in Hl as [Hy Hl]. apply IH; [lia|done]. }
    by apply Hmax.
Qed.

(** ** A concrete table *)

Definition zp_schema : OnDemandSchema :=
  (add_column (add_column OnDemandSchema_new "n" TInt64).1 "day" TString).1.

Definition zp_texts (l : list string) : ColumnData :=
  CdString (offsets_from 0 (string_bytes <$> l)) (concat (string_bytes <$> l)).

Definition zp_group (ns : list Z) (days : list string) : list ColumnData := [CdInt64 ns; zp_texts days].

Definition zp_first : list ColumnData := zp_group [1; 2] ["2024-01-01"; "2024-01-02"].
Definition zp_second : list ColumnData := zp_group [10; 20] ["2024-01-03"; "2024-02-01"].

Definition zp_footer : V4Footer :=
  mkFooter zp_schema [mkRowGroup 256 100 2 1 2 0; mkRowGroup 356 100 2 3 4 0]
    ((fun g => default [] (compute_rg_zone_maps g [] 0 2)) <$> [zp_first; zp_second]) [] [].

(** n >= 10 AND day < '2024-02' *)
Definition zp_predicate : ScanPredicateExpr :=
  PredAnd (PredLeaf (PCompare "n" CmpGe (SvInt 10))) (PredLeaf (PCompare "day" CmpLt (SvString "2024-02"))).

Definition zp_row (name : string) : option (Cell unit) :=
  if String.eqb name "n" then Some (CellInt 10)
  else if String.eqb name "day" then Some (CellStr "2024-01-03") else None.

Definition zp_read (rg : nat) : Result nat := Ok rg.

Definition zp_stream : RgBatchStream :=
  mkRgStream zp_footer [0%nat; 1%nat] true (Some zp_predicate) 0 2.

Lemma zp_row_stored : stored_row zp_schema zp_second 0 zp_row.
Proof.
  intros name c. unfold zp_row. destruct (String.eqb_spec name "n") as [->|_].
  - intros [= <-]. exists 0%nat, (CdInt64 [10; 20]), (DInt <$> [10; 20]), (DInt 10).
    do 3 (split; [done|]). by repeat constructor.
  - destruct (String.eqb_spec name "day") as [->|_]; [|done]. intros [= <-].
    exists 1%nat, (zp_texts ["2024-01-03"; "2024-02-01"]),
      (DBytes <$> (string_bytes <$> ["2024-01-03"; "2024-02-01"])), (DBytes (string_bytes "2024-01-03")).
    do 2 (split; [done|]). split; [eexists; split; [split; reflexivity|done]|].
    split; [|by split].
    constructor; [apply string_bytes_are_bytes|]. constructor; [apply string_bytes_are_bytes|constructor].
Qed.

Lemma pruned_scan_complete_witness :
  stream_batches zp_read zp_stream = Done [Ok 1%nat] /\ 1%nat ∈ read_groups zp_stream 0 2.
Proof.
  destruct (pruned_scan_complete (C := unit) zp_read zp_footer None true zp_predicate 2 zp_stream
    [with_range zp_stream 0 1; with_range zp_stream 1 2] eq_refl eq_refl) as (H1 & _ & H2).
  split.
  - rewrite H1. reflexivity.
  - apply (H2 1%nat (mkRowGroup 356 100 2 3 4 0) zp_second [] 0%nat 2%nat 0%nat zp_row);
      [reflexivity|reflexivity|reflexivity|reflexivity|done|lia|exact zp_row_stored|by repeat constructor|reflexivity].
Defined.

(** day <> '2024-01-09' never looks at 2024-01-01. *)
Lemma string_inequality_loses_rows_witness :
  let p := PCompare "day" CmpNotEq (SvString "2024-01-09") in
  zone_map_rg_disjoint 0 zp_footer (PredLeaf p) = true /\
  leaf_holds (Some (CellStr "2024-01-01" : Cell unit)) p = true.
Proof.
  apply (string_inequality_loses_rows zp_footer 0 zp_first [] 0 2 (default [] (vf_zone_maps zp_footer !! 0%nat)) 1
    "day" "2024-01-09" "2024-01-01" (string_bytes <$> ["2024-01-01"; "2024-01-02"]) 0);
    [reflexivity|reflexivity|done|reflexivity|reflexivity|reflexivity|lia|reflexivity|done|].
  repeat constructor.
Defined.

(** UPDATE .. SET n = 100 on row 1, then n = 100. *)
Lemma pending_update_hides_row_witness :
  let p := PCompare "n" CmpEq (SvInt 100) in
  let delta := delta_run (J := unit) [DeltaUpdateCell 1 "n" (VInt64 100)] in
  merge_cell as_i64 (fun pos => Some <$> [1; 2] !! pos) "n" [1; 2] delta 0 = Some (Some 100) /\
  leaf_holds (Some (CellInt 100 : Cell unit)) p = true /\ zone_map_rg_disjoint 0 zp_footer (PredLeaf p) = true.
Proof.
  apply (pending_update_hides_row zp_footer 0 zp_first [] 0 2 (default [] (vf_zone_maps zp_footer !! 0%nat)) 0 "n"
    TInt64 [1; 2] (delta_run (J := unit) [DeltaUpdateCell 1 "n" (VInt64 100)]) 1 100);
    [reflexivity|reflexivity|done|reflexivity|reflexivity|reflexivity|by split|done| |done|reflexivity|reflexivity].
  by repeat constructor.
Defined.

(** A point lookup skips the row group only when every candidate is outside an entry. *)
Example lookup_excludes :
  let zmaps := default [] (vf_zone_maps zp_footer !! 0%nat) in
  string_zone_excludes zmaps 1 [string_bytes "2024-01-07"] = true /\
  string_zone_excludes zmaps 1 [string_bytes "2024-01-07"; string_bytes "2024-01-02"] = false.
Proof. vm_compute. by split. Qed.
