(* ===== verification/Catalog.v ===== *)
(** * The table registry

    Models the mapped catalog of [storage/table_catalog.rs] ([.apex_tables]): a header and
    fixed-size slots, each with its own checksum, changed in place under an exclusive lock, and the
    snapshot cache keyed by the generation.  The mapping is a record of the header fields and the
    list of slots; [catalog_file] and [map_catalog] relate it to the bytes of the file.  The paths
    of the entries are determined by their names and left out.

    A database without a catalog predates it: the first process that takes the lock creates an
    empty catalog and remembers, in memory, that the [*.apex] files of the directory are still to
    be adopted.  The checksum ([crc32fast::hash]) is a parameter. *)
From S2P Require Import Prelude Bytes Columns.
Local Open Scope Z_scope.
Local Open Scope apex_scope.

(** ** The file *)

Definition CATALOG_V2_MAGIC : list Z := string_bytes "APXTBL02".
Definition CATALOG_VERSION : Z := 2.
Definition CATALOG_HEADER : nat := 32.
Definition SLOT_NAME_CAP : nat := 128.
Definition SLOT_SIZE : nat := 136.
Definition DEFAULT_CAPACITY : Z := 1024.

Record MappedCatalog := mkCatalog {
  mc_capacity : Z;
  mc_generation : Z;
  mc_count : Z;
  mc_last_slot : Z;
  mc_slots : list (list Z)
}.

Definition catalog_file (c : MappedCatalog) : list Z :=
  CATALOG_V2_MAGIC ++ to_le 4 CATALOG_VERSION ++ to_le 4 (mc_capacity c) ++ to_le 8 (mc_generation c)
  ++ to_le 4 (mc_count c) ++ to_le 4 (mc_last_slot c) ++ concat (mc_slots c).

(** [n] whole slots. *)
Fixpoint slots_of (n : nat) (bytes : list Z) : list (list Z) :=
  match n with O => [] | S n => take SLOT_SIZE bytes :: slots_of n (drop SLOT_SIZE bytes) end.

(** The part of [ensure_mapped] that reads the file; the format version is not looked at. *)
Definition map_catalog (bytes : list Z) : Result MappedCatalog :=
  if (length bytes <? CATALOG_HEADER)%nat then Err InvalidData
  else if negb (bool_decide (take 8 bytes = CATALOG_V2_MAGIC)) then Err InvalidData
  else
    let field (at_ n : nat) := u_from_le (take n (drop at_ bytes)) in
    let body := drop CATALOG_HEADER bytes in
    Ok (mkCatalog (field 12 4)%nat (field 16 8)%nat (field 24 4)%nat (field 28 4)%nat
          (slots_of (length body / SLOT_SIZE) body)).

Definition empty_slot : list Z := replicate SLOT_SIZE 0.

(** [write_v2_file] *)
Definition new_catalog : MappedCatalog :=
  mkCatalog DEFAULT_CAPACITY 0 0 0 (replicate (Z.to_nat DEFAULT_CAPACITY) empty_slot).

(** ** Slots *)

Definition slot_name_len (slot : list Z) : Z := u_from_le (take 4 slot).

Definition slot_free (slot : list Z) : bool := slot_name_len slot =? 0.

(** [offset + 4 .. offset + 4 + name_len.min(SLOT_NAME_CAP)] *)
Definition slot_name (slot : list Z) : list Z :=
  take (Z.to_nat (Z.min (slot_name_len slot) (Z.of_nat SLOT_NAME_CAP))) (drop 4 slot).

Section catalog.
Context (crc32 : list Z -> Z).

Definition set_slot (name : string) : list Z :=
  let name_bytes := string_bytes name in
  let kept := take SLOT_NAME_CAP name_bytes in
  let body := to_le 4 (len_of kept) ++ kept ++ replicate (SLOT_NAME_CAP - length kept) 0 in
  body ++ to_le 4 (crc32 body).

(** A used slot of [scan]: its name, or the error the scan ends with. *)
Definition read_slot (slot : list Z) : Result (option string) :=
  if slot_free slot then Ok None
  else
    let covered := (SLOT_SIZE - 4)%nat in
    if negb (crc32 (take covered slot) =? u_from_le (drop covered slot)) then Err InvalidData
    else if utf8_valid (slot_name slot) then Ok (Some (bytes_string (slot_name slot)))
    else Err InvalidData.

(** [0..=last_slot.min(capacity - 1)], as far as the mapping goes. *)
Definition used_slots (c : MappedCatalog) (last_slot : Z) : list (list Z) :=
  take (S (Z.to_nat (Z.min last_slot (wrap32 (mc_capacity c - 1))))) (mc_slots c).

Definition scan_step (tables : Result (gset string)) (slot : list Z) : Result (gset string) :=
  let? tables := tables in
  let? name := read_slot slot in
  Ok (match name with Some name => {[name]} ∪ tables | None => tables end).

Definition scan (c : MappedCatalog) : Result (gset string) :=
  foldl scan_step (Ok ∅) (used_slots c (mc_last_slot c)).

(** The position of the first slot that satisfies [p]. *)
Definition slot_position (p : list Z -> bool) (slots : list (list Z)) : option nat :=
  fst <$> list_find (fun slot => p slot = true) slots.

Definition find_free_slot (c : MappedCatalog) (last_slot : Z) : option nat :=
  slot_position slot_free (used_slots c last_slot).

(** The slot for a new entry, and the last slot when it is a fresh one. *)
Definition next_slot (c : MappedCatalog) (last_slot : Z) : option (Z * nat) :=
  match find_free_slot c last_slot with
  | Some slot => Some (last_slot, slot)
  | None => if last_slot + 1 <? mc_capacity c then Some (last_slot + 1, Z.to_nat (last_slot + 1)) else None
  end.

Definition put_slot (c : MappedCatalog) (index : nat) (slot : list Z) : MappedCatalog :=
  mkCatalog (mc_capacity c) (mc_generation c) (mc_count c) (mc_last_slot c) (<[index := slot]> (mc_slots c)).

Definition set_header (c : MappedCatalog) (last_slot count : Z) : MappedCatalog :=
  mkCatalog (mc_capacity c) (mc_generation c) count last_slot (mc_slots c).

Definition bump_generation (c : MappedCatalog) : MappedCatalog :=
  mkCatalog (mc_capacity c) (wrap64 (mc_generation c + 1)) (mc_count c) (mc_last_slot c) (mc_slots c).

(** The keys of a [BTreeMap], in their order. *)
Definition name_le (a b : string) : Prop := String.leb a b = true.
#[local] Instance name_le_dec a b : Decision (name_le a b).
Proof. unfold name_le. apply _. Defined.
Definition in_order (names : gset string) : list string := merge_sort name_le (elements names).

(** One name of [persist_tables]; the header is written after the last. *)
Definition persist_step (acc : MappedCatalog * Z * Z * Result unit) (name : string)
    : MappedCatalog * Z * Z * Result unit :=
  match acc with
  | (c, last_slot, count, Ok _) =>
      match next_slot c last_slot with
      | Some (last_slot, slot) =>
          (put_slot c slot (set_slot name), Z.max last_slot (Z.of_nat slot), wrap32 (count + 1), Ok tt)
      | None => (c, last_slot, count, Err Other)
      end
  | acc => acc
  end.

Definition persist_tables (c : MappedCatalog) (names : gset string) : MappedCatalog * Result unit :=
  if bool_decide (names = ∅) then (c, Ok tt)
  else
    match foldl persist_step (c, mc_last_slot c, mc_count c, Ok tt) (in_order names) with
    | (c, last_slot, count, Ok _) => (bump_generation (set_header c last_slot count), Ok tt)
    | (c, _, _, Err e) => (c, Err e)
    end.

(** ** The registry of a process *)

Record Registry := mkRegistry {
  rg_catalog : MappedCatalog;
  rg_adopt_existing_files : bool;
  rg_cache : option (Z * gset string)
}.

(** [ensure_mapped] without a catalog file, and with one. *)
Definition create_catalog : Registry := mkRegistry new_catalog true None.
Definition open_catalog (bytes : list Z) : Result Registry :=
  let? c := map_catalog bytes in Ok (mkRegistry c false None).

(** [snapshot_from_catalog] under the lock: the generation stays what it was. *)
Definition snapshot_from_catalog (r : Registry) : Registry * Result (gset string) :=
  let generation := mc_generation (rg_catalog r) in
  let fresh :=
    match scan (rg_catalog r) with
    | Ok tables => (mkRegistry (rg_catalog r) (rg_adopt_existing_files r) (Some (generation, tables)), Ok tables)
    | Err e => (r, Err e)
    end in
  match rg_cache r with
  | Some (cached, tables) => if cached =? generation then (r, Ok tables) else fresh
  | None => fresh
  end.

(** [files] are the names [scan_apex_files] finds. *)
Definition adopt_for_insert (r : Registry) (files tables : gset string) (name : string)
    : Registry * Result (gset string) :=
  if bool_decide (tables = ∅) && rg_adopt_existing_files r then
    let tables := (tables ∪ files) ∖ {[name]} in
    let '(c, persisted) := persist_tables (rg_catalog r) tables in
    (mkRegistry c (rg_adopt_existing_files r) (rg_cache r), let? _ := persisted in Ok tables)
  else (r, Ok tables).

Definition register (r : Registry) (tables : gset string) (name : string) : Registry * Result unit :=
  let c := rg_catalog r in
  if bool_decide (name ∈ tables) then (r, Err AlreadyExists)
  else
    match next_slot c (mc_last_slot c) with
    | None => (r, Err Other)
    | Some (last_slot, slot) =>
        let c := bump_generation (set_header (put_slot c slot (set_slot name)) (Z.max last_slot (Z.of_nat slot))
                                    (wrap32 (mc_count c + 1))) in
        (mkRegistry c false (Some (mc_generation c, {[name]} ∪ tables)), Ok tt)
    end.

Definition CatalogLock_insert (r : Registry) (files : gset string) (name : string) : Registry * Result unit :=
  let '(r, tables) := snapshot_from_catalog r in
  match tables with
  | Err e => (r, Err e)
  | Ok tables =>
      let '(r, tables) := adopt_for_insert r files tables name in
      match tables with
      | Err e => (r, Err e)
      | Ok tables => register r tables name
      end
  end.

(** The new last slot: trailing free slots are given up. *)
Fixpoint shrink_last (slots : list (list Z)) (last : nat) : nat :=
  match last with
  | O => O
  | S below => if slot_free (default [] (slots !! last)) then shrink_last slots below else last
  end.

Definition clear_entry (c : MappedCatalog) (name : string) : MappedCatalog :=
  match slot_position (fun slot => negb (slot_free slot) && bool_decide (slot_name slot = string_bytes name))
          (used_slots c (mc_last_slot c)) with
  | None => c
  | Some index =>
      let last_slot := mc_last_slot c in
      let c := put_slot c index empty_slot in
      set_header c (Z.of_nat (shrink_last (mc_slots c) (Z.to_nat last_slot))) (Z.max 0 (mc_count c - 1))
  end.

(** [true] when an entry was removed. *)
Definition CatalogLock_remove (r : Registry) (files : gset string) (name : string) : Registry * Result bool :=
  let '(r, tables) := snapshot_from_catalog r in
  match tables with
  | Err e => (r, Err e)
  | Ok tables =>
      let adopted := bool_decide (tables = ∅) && rg_adopt_existing_files r in
      let tables := if adopted then tables ∪ files else tables in
      if negb (bool_decide (name ∈ tables)) then (r, Ok false)
      else
        let tables := tables ∖ {[name]} in
        if adopted then
          let '(c, persisted) := persist_tables (rg_catalog r) tables in
          match persisted with
          | Err e => (mkRegistry c (rg_adopt_existing_files r) (rg_cache r), Err e)
          | Ok _ => (mkRegistry c false (Some (mc_generation c, tables)), Ok true)
          end
        else
          let c := bump_generation (clear_entry (rg_catalog r) name) in
          (mkRegistry c false (Some (mc_generation c, tables)), Ok true)
  end.

(** ** Runs *)

Inductive RegistryOp :=
| OpInsert (name : string)
| OpRemove (name : string)
| OpList
| OpReopen.

Inductive Answer :=
| AnsInsert (r : Result unit)
| AnsRemove (r : Result bool)
| AnsList (r : Result (gset string))
| AnsReopen (r : Result unit).

(** A call under the lock; [OpReopen] is a process that maps the file anew. *)
Definition registry_step (files : gset string) (r : Registry) (op : RegistryOp) : Registry * Answer :=
  match op with
  | OpInsert name => let '(r, a) := CatalogLock_insert r files name in (r, AnsInsert a)
  | OpRemove name => let '(r, a) := CatalogLock_remove r files name in (r, AnsRemove a)
  | OpList => let '(r, a) := snapshot_from_catalog r in (r, AnsList a)
  | OpReopen =>
      match open_catalog (catalog_file (rg_catalog r)) with
      | Ok r => (r, AnsReopen (Ok tt))
      | Err e => (r, AnsReopen (Err e))
      end
  end.

Fixpoint registry_run (files : gset string) (r : Registry) (ops : list RegistryOp) : list Answer :=
  match ops with
  | [] => []
  | op :: ops => let '(r, a) := registry_step files r op in a :: registry_run files r ops
  end.

(** *** Processes that share a catalog *)

(** The mapped file and, for each process that has used it, whether it still has files to
    adopt and its [REGISTRY_CACHE]. *)
Record World := mkWorld {
  wd_catalog : MappedCatalog;
  wd_processes : gmap nat (bool * option (Z * gset string))
}.

(** A process that maps the existing file has nothing to adopt and an empty cache. *)
Definition process_registry (w : World) (p : nat) : Registry :=
  let '(adopt, cache) := default (false, None) (wd_processes w !! p) in
  mkRegistry (wd_catalog w) adopt cache.

Definition shared_step (files : gset string) (w : World) (call : nat * RegistryOp) : World * Answer :=
  let '(r, a) := registry_step files (process_registry w call.1) call.2 in
  (mkWorld (rg_catalog r) (<[call.1 := (rg_adopt_existing_files r, rg_cache r)]> (wd_processes w)), a).

Fixpoint shared_run (files : gset string) (w : World) (calls : list (nat * RegistryOp)) : list Answer :=
  match calls with
  | [] => []
  | call :: calls => let '(w, a) := shared_step files w call in a :: shared_run files w calls
  end.

End catalog.

(** What the registry promises: a set of at most [capacity] names. *)
Definition names_step (capacity : Z) (names : gset string) (op : RegistryOp) : gset string * Answer :=
  match op with
  | OpInsert name =>
      if bool_decide (name ∈ names) then (names, AnsInsert (Err AlreadyExists))
      else if Z.of_nat (size names) =? capacity then (names, AnsInsert (Err Other))
      else ({[name]} ∪ names, AnsInsert (Ok tt))
  | OpRemove name => (names ∖ {[name]}, AnsRemove (Ok (bool_decide (name ∈ names))))
  | OpList => (names, AnsList (Ok names))
  | OpReopen => (names, AnsReopen (Ok tt))
  end.

Fixpoint names_run (capacity : Z) (names : gset string) (ops : list RegistryOp) : list Answer :=
  match ops with
  | [] => []
  | op :: ops => let '(names, a) := names_step capacity names op in a :: names_run capacity names ops
  end.

(** ** What the slots hold *)

Section contents.
Context (crc32 : list Z -> Z).
Hypothesis crc32_range : forall bytes, unsigned 4 (crc32 bytes).


Definition name_ok (name : string) : Prop :=
  valid_str name /\ (1 <= length (string_bytes name) <= SLOT_NAME_CAP)%nat.

Definition op_named (op : RegistryOp) : Prop :=
  match op with OpInsert name | OpRemove name => name_ok name | _ => True end.

Definition slot_of (cell : option string) : list Z :=
  match cell with Some name => set_slot crc32 name | None => empty_slot end.

Definition stored (cells : list (option string)) : list string := omap id cells.
Definition names (cells : list (option string)) : gset string := list_to_set (stored cells).

Definition cell_ok (cell : option string) : Prop := match cell with Some name => name_ok name | None => True end.

Record cat_ok (c : MappedCatalog) (cells : list (option string)) : Prop := {
  ck_slots : mc_slots c = slot_of <$> cells;
  ck_length : Z.of_nat (length cells) = mc_capacity c;
  ck_capacity : 0 < mc_capacity c < 2 ^ 32;
  ck_last : 0 <= mc_last_slot c < mc_capacity c;
  ck_cells : Forall cell_ok cells;
  ck_tail : Forall (fun cell => cell = None) (drop (S (Z.to_nat (mc_last_slot c))) cells);
  ck_distinct : NoDup (stored cells);
  ck_count : mc_count c = Z.of_nat (length (stored cells));
  ck_generation : 0 <= mc_generation c < U64_MOD
}.

Lemma set_slot_body name : name_ok name ->
  set_slot crc32 name = (to_le 4 (len_of (string_bytes name)) ++ string_bytes name
                   ++ replicate (SLOT_NAME_CAP - length (string_bytes name)) 0)
                  ++ to_le 4 (crc32 (to_le 4 (len_of (string_bytes name)) ++ string_bytes name
                                     ++ replicate (SLOT_NAME_CAP - length (string_bytes name)) 0)).
Proof. intros [_ Hn]. unfold set_slot. by rewrite take_ge by lia. Qed.

Lemma slot_body_length name : name_ok name ->
  length (to_le 4 (len_of (string_bytes name)) ++ string_bytes name
          ++ replicate (SLOT_NAME_CAP - length (string_bytes name)) 0) = 132%nat.
Proof. intros [_ Hn]. rewrite !length_app, to_le_length, length_replicate. unfold SLOT_NAME_CAP in *. lia. Qed.

Lemma slot_of_length cell : cell_ok cell -> length (slot_of cell) = SLOT_SIZE.
Proof.
  destruct cell as [name|]; [|done]. intros Hn. cbn [slot_of].
  rewrite set_slot_body, length_app, slot_body_length, to_le_length by done. done.
Qed.

Lemma slot_len_set name : name_ok name -> slot_name_len (set_slot crc32 name) = len_of (string_bytes name).
Proof.
  intros Hn. unfold slot_name_len. rewrite set_slot_body, <-app_assoc, take_app_length' by (done || by rewrite to_le_length).
  apply u_from_to_le. destruct Hn as [_ Hn]. unfold unsigned, len_of, SLOT_NAME_CAP in *. change (width 4) with 4294967296. lia.
Qed.

Lemma slot_name_set name : name_ok name -> slot_name (set_slot crc32 name) = string_bytes name.
Proof.
  intros Hn. unfold slot_name. rewrite slot_len_set by done.
  replace (Z.to_nat _) with (length (string_bytes name)) by (destruct Hn; unfold len_of; lia).
  rewrite set_slot_body, <-!app_assoc, drop_app_length' by (done || by rewrite to_le_length).
  by rewrite take_app_length.
Qed.

Lemma slot_free_of cell : cell_ok cell -> slot_free (slot_of cell) = bool_decide (cell = None).
Proof.
  destruct cell as [name|]; [|done]. intros Hn. unfold slot_free. cbn [slot_of]. rewrite slot_len_set by done.
  destruct Hn. rewrite bool_decide_false by done. apply Z.eqb_neq. unfold len_of. lia.
Qed.

Lemma read_slot_of cell : cell_ok cell -> read_slot crc32 (slot_of cell) = Ok cell.
Proof using crc32_range.
  intros Hc. unfold read_slot. rewrite slot_free_of by done. destruct cell as [name|]; [|done]. cbn [slot_of cell_ok] in *. rewrite (bool_decide_false (Some name = None)) by done.
  rewrite slot_name_set by done.
  rewrite set_slot_body, take_app_length', drop_app_length' by (done || by rewrite slot_body_length).
  rewrite u_from_to_le, Z.eqb_refl by apply crc32_range. simpl. destruct Hc as [Hv _]. unfold valid_str in Hv.
  by rewrite Hv, bytes_string_bytes.
Qed.

(** ** Cells *)

Lemma stored_split cells i cell : cells !! i = Some cell ->
  stored cells = stored (take i cells) ++ option_list cell ++ stored (drop (S i) cells).
Proof.
  intros Hi. rewrite <-(take_drop_middle cells i cell Hi) at 1. unfold stored. rewrite omap_app. simpl. by destruct cell.
Qed.

Lemma stored_insert cells i old new : cells !! i = Some old ->
  stored (<[i := new]> cells) = stored (take i cells) ++ option_list new ++ stored (drop (S i) cells).
Proof.
  intros Hi. rewrite (stored_split _ i new) by (rewrite list_lookup_insert_eq; [done|by eapply lookup_lt_Some]).
  by rewrite take_insert_ge, drop_insert_lt by lia.
Qed.

Lemma elem_stored cells name : name ∈ stored cells <-> exists i, cells !! i = Some (Some name).
Proof.
  unfold stored. rewrite list_elem_of_omap. split.
  - intros (cell & Hc & He). simpl in He. subst cell. by apply list_elem_of_lookup.
  - intros Hi. exists (Some name). split; [|done]. by apply list_elem_of_lookup.
Qed.

Lemma stored_none cells : Forall (fun cell => cell = None) cells -> stored cells = [].
Proof. induction 1 as [|? ? -> ? IH]; [done|exact IH]. Qed.

Lemma stored_ok cells name : Forall cell_ok cells -> name ∈ stored cells -> name_ok name.
Proof. intros Hall (i & Hi)%elem_stored. by apply (Forall_lookup_1 _ _ _ _ Hall Hi). Qed.

Lemma stored_length_le cells : (length (stored cells) <= length cells)%nat.
Proof. induction cells as [|[name|] cells IH]; simpl; [done|lia..]. Qed.

Lemma Forall_drop_le {A} (P : A -> Prop) n m l : (n <= m)%nat -> Forall P (drop n l) -> Forall P (drop m l).
Proof. intros Hnm HP. replace m with (n + (m - n))%nat by lia. rewrite <-drop_drop. by apply Forall_drop. Qed.

Lemma names_none : names [] = ∅.
Proof. done. Qed.

Lemma used_slots_of c cells last : cat_ok c cells -> 0 <= last < mc_capacity c ->
  used_slots c last = slot_of <$> take (S (Z.to_nat last)) cells.
Proof.
  intros [] Hl. unfold used_slots, wrap32. rewrite ck_slots0, <-fmap_take.
  rewrite (Z.mod_small (mc_capacity c - 1)) by lia. by rewrite Z.min_l by lia.
Qed.

Lemma scan_cells cells acc : Forall cell_ok cells ->
  foldl (scan_step crc32) (Ok acc) (slot_of <$> cells) = Ok (names cells ∪ acc).
Proof using crc32_range.
  intros Hall. revert acc. induction Hall as [|cell cells Hc Hall IH]; intros acc; simpl.
  - f_equal. unfold names. simpl. set_solver.
  - rewrite read_slot_of by done. simpl. rewrite IH. f_equal. unfold names. destruct cell; simpl; set_solver.
Qed.

Lemma names_take c cells : cat_ok c cells -> names (take (S (Z.to_nat (mc_last_slot c))) cells) = names cells.
Proof.
  intros []. unfold names, stored. rewrite <-(take_drop (S (Z.to_nat (mc_last_slot c))) cells) at 2.
  rewrite omap_app, (stored_none (drop _ _)) by done. by rewrite app_nil_r.
Qed.

Lemma scan_ok c cells : cat_ok c cells -> scan crc32 c = Ok (names cells).
Proof using crc32_range.
  intros Hc. unfold scan. rewrite (used_slots_of c cells) by (done || apply Hc). rewrite scan_cells.
  - f_equal. rewrite (names_take c cells) by done. set_solver.
  - apply Forall_take, Hc.
Qed.

(** The first cell that satisfies [q], where slots are tested with [p]. *)
Lemma slot_position_of (p : list Z -> bool) (q : option string -> bool) cells :
  Forall (fun cell => p (slot_of cell) = q cell) cells ->
  match slot_position p (slot_of <$> cells) with
  | Some i => exists cell, cells !! i = Some cell /\ q cell = true
  | None => Forall (fun cell => q cell = false) cells
  end.
Proof.
  intros Hpq. unfold slot_position. destruct (list_find _ _) as [[i slot]|] eqn:Hf; simpl.
  - apply list_find_Some in Hf as (Hi & Hp & _). apply list_lookup_fmap_Some in Hi as (cell & -> & Hi).
    exists cell. split; [done|]. by rewrite <-(Forall_lookup_1 _ _ _ _ Hpq Hi).
  - apply list_find_None in Hf. rewrite Forall_fmap in Hf. rewrite Forall_forall in *. intros cell Hc.
    specialize (Hf cell Hc). specialize (Hpq cell Hc). simpl in Hf. rewrite Hpq in Hf. by apply not_true_is_false.
Qed.

Lemma stored_full cells : Forall (fun cell => bool_decide (cell = None) = false) cells -> length (stored cells) = length cells.
Proof.
  induction 1 as [|cell cells Hc _ IH]; [done|]. apply bool_decide_eq_false in Hc. destruct cell; [|done]. simpl. by rewrite IH.
Qed.

(** There is a slot unless every cell is taken. *)
Lemma next_slot_spec c cells : cat_ok c cells ->
  match next_slot c (mc_last_slot c) with
  | Some (last, i) =>
      cells !! i = Some None /\ mc_last_slot c <= last < mc_capacity c /\ Z.of_nat i <= last
  | None => length (stored cells) = length cells
  end.
Proof.
  intros Hc. unfold next_slot, find_free_slot. rewrite (used_slots_of c cells) by (done || apply Hc).
  pose proof (slot_position_of slot_free (fun cell => bool_decide (cell = None)) (take (S (Z.to_nat (mc_last_slot c))) cells)) as Hp.
  destruct Hc. destruct (slot_position _ _) as [i|].
  - destruct Hp as (cell & Hi & Hd).
    { apply Forall_take. eapply Forall_impl; [exact ck_cells0|]. intros. by apply slot_free_of. }
    apply bool_decide_eq_true in Hd as ->. apply lookup_take_Some in Hi as [Hi ?]. split_and!; [done|lia..].
  - destruct (_ <? _) eqn:He; zb.
    + split_and!; [|lia..]. assert (Hlt : (Z.to_nat (mc_last_slot c + 1) < length cells)%nat) by lia.
      apply lookup_lt_is_Some in Hlt as [cell Hcell]. rewrite Hcell. f_equal.
      apply (Forall_lookup_1 _ _ 0%nat cell ck_tail0). rewrite lookup_drop.
      rewrite <-Hcell. f_equal. lia.
    + apply stored_full. rewrite <-(take_ge cells (S (Z.to_nat (mc_last_slot c)))) by lia. apply Hp.
      apply Forall_take. eapply Forall_impl; [exact ck_cells0|]. intros. by apply slot_free_of.
Qed.

(** A name goes into a free slot; the header follows. *)
Lemma put_ok c cells name last i :
  cat_ok c cells -> name_ok name -> name ∉ names cells ->
  cells !! i = Some None -> mc_last_slot c <= last < mc_capacity c -> Z.of_nat i <= last ->
  cat_ok (set_header (put_slot c i (set_slot crc32 name)) (Z.max last (Z.of_nat i)) (wrap32 (mc_count c + 1)))
    (<[i := Some name]> cells) /\
  stored (<[i := Some name]> cells) ≡ₚ name :: stored cells.
Proof.
  intros [] Hname Hnew Hi Hlast Hle.
  assert (Hperm : stored (<[i := Some name]> cells) ≡ₚ name :: stored cells).
  { rewrite (stored_insert _ _ _ _ Hi), (stored_split _ _ _ Hi). simpl. by rewrite Permutation_middle. }
  split; [|done]. rewrite Z.max_l by lia. split; simpl; try done.
  - by rewrite ck_slots0, list_fmap_insert.
  - by rewrite length_insert.
  - lia.
  - by apply Forall_insert.
  - rewrite drop_insert_lt by lia. by apply (Forall_drop_le _ (S (Z.to_nat (mc_last_slot c)))); [lia|].
  - rewrite Hperm. apply NoDup_cons. split; [|done]. intros Hin. apply Hnew. unfold names. by apply elem_of_list_to_set.
  - rewrite Hperm. simpl. pose proof (lookup_lt_Some _ _ _ Hi) as Hlt.
    pose proof (stored_length_le cells) as Hfewer.
    unfold wrap32. rewrite Z.mod_small; [lia|].
    assert (length (stored cells) <> length cells); [|lia]. rewrite (stored_split _ _ _ Hi), !length_app. simpl.
    pose proof (stored_length_le (take i cells)). pose proof (stored_length_le (drop (S i) cells)). rewrite length_take in *. rewrite length_drop in *. lia.
Qed.

Lemma string_bytes_inj a b : string_bytes a = string_bytes b -> a = b.
Proof. intros H. by rewrite <-(bytes_string_bytes a), H, bytes_string_bytes. Qed.

Lemma shrink_spec cells last :
  Forall cell_ok cells -> (last < length cells)%nat -> Forall (fun cell => cell = None) (drop (S last) cells) ->
  (shrink_last (slot_of <$> cells) last <= last)%nat /\
  Forall (fun cell => cell = None) (drop (S (shrink_last (slot_of <$> cells) last)) cells).
Proof.
  intros Hall. induction last as [|last IH]; intros Hlt Htail; [done|]. cbn [shrink_last].
  destruct (lookup_lt_is_Some_2 cells (S last) Hlt) as [cell Hcell].
  assert (slot_free (default [] ((slot_of <$> cells) !! S last)) = bool_decide (cell = None)) as ->.
  { rewrite list_lookup_fmap, Hcell. exact (slot_free_of cell (Forall_lookup_1 _ _ _ _ Hall Hcell)). }
  destruct (bool_decide (cell = None)) eqn:Hd; [|done]. apply bool_decide_eq_true in Hd as ->.
  destruct IH as [Hle Hrest]; [lia|by rewrite (drop_S _ _ _ Hcell); constructor|]. split; [lia|done].
Qed.

(** The test of [remove]. *)
Lemma slot_holds name cell : cell_ok cell ->
  negb (slot_free (slot_of cell)) && bool_decide (slot_name (slot_of cell) = string_bytes name)
  = bool_decide (cell = Some name).
Proof.
  intros Hc. rewrite slot_free_of by done. destruct cell as [m|]; [|done]. cbn [slot_of cell_ok] in *.
  rewrite slot_name_set by done. rewrite (bool_decide_false (Some m = None)) by done. simpl.
  apply bool_decide_ext. split; [|by intros [= ->]]. intros He. f_equal. by apply string_bytes_inj.
Qed.

Lemma clear_ok c cells name : cat_ok c cells -> name ∈ names cells ->
  exists cells', cat_ok (clear_entry c name) cells' /\ names cells' = names cells ∖ {[name]} /\
    mc_capacity (clear_entry c name) = mc_capacity c /\ mc_generation (clear_entry c name) = mc_generation c.
Proof.
  intros Hc Hin. pose proof Hc as Hcat. destruct Hcat.
  assert (Hst : name ∈ stored cells) by by apply elem_of_list_to_set in Hin.
  unfold clear_entry. rewrite (used_slots_of c cells) by done.
  pose proof (slot_position_of (fun slot => negb (slot_free slot) && bool_decide (slot_name slot = string_bytes name))
    (fun cell => bool_decide (cell = Some name)) (take (S (Z.to_nat (mc_last_slot c))) cells)) as Hp.
  destruct (slot_position _ _) as [i|].
  - destruct Hp as (cell & Hi & Hd).
    { apply Forall_take. eapply Forall_impl; [exact ck_cells0|]. intros cell. apply slot_holds. }
    apply bool_decide_eq_true in Hd as ->. apply lookup_take_Some in Hi as [Hi Hle].
    pose proof (lookup_lt_Some _ _ _ Hi) as Hlt.
    set (cells' := <[i := None]> cells).
    assert (Hperm : stored cells ≡ₚ name :: stored cells').
    { unfold cells'. rewrite (stored_insert _ _ _ _ Hi), (stored_split _ _ _ Hi). simpl. by rewrite Permutation_middle. }
    assert (Hall : Forall cell_ok cells') by by apply Forall_insert.
    assert (Hslots : <[i := empty_slot]> (mc_slots c) = slot_of <$> cells') by (unfold cells'; by rewrite ck_slots0, list_fmap_insert).
    assert (Hlen : length cells' = length cells) by apply length_insert.
    destruct (shrink_spec cells' (Z.to_nat (mc_last_slot c))) as [Hs Htail]; [done|lia| |].
    { unfold cells'. by rewrite drop_insert_lt by lia. }
    rewrite <-Hslots in Hs, Htail. exists cells'. split_and!; [|unfold names; rewrite Hperm; simpl|done..].
    + split; simpl; rewrite ?Nat2Z.id; try done; try lia.
      * rewrite Hperm in ck_distinct0. by apply NoDup_cons in ck_distinct0 as [_ ?].
      * rewrite ck_count0, Hperm. simpl. lia.
    + rewrite Hperm in ck_distinct0. apply NoDup_cons in ck_distinct0 as [Hn _].
      assert (name ∉ (list_to_set (stored cells') : gset string)) by by rewrite elem_of_list_to_set.
      set_solver.
  - exfalso. apply elem_stored in Hst as (i & Hi).
    assert (Hp' : Forall (fun cell => bool_decide (cell = Some name) = false) (take (S (Z.to_nat (mc_last_slot c))) cells)).
    { apply Hp. apply Forall_take. eapply Forall_impl; [exact ck_cells0|]. intros cell. apply slot_holds. }
    destruct (decide (i < S (Z.to_nat (mc_last_slot c)))%nat) as [Hlt|Hge].
    + pose proof (Forall_lookup_1 _ _ i (Some name) Hp') as H. rewrite lookup_take_lt in H by done.
      specialize (H Hi). by rewrite bool_decide_true in H.
    + pose proof (Forall_lookup_1 _ _ (i - S (Z.to_nat (mc_last_slot c)))%nat (Some name) ck_tail0) as H.
      rewrite lookup_drop in H. replace (_ + _)%nat with i in H by lia. by specialize (H Hi).
Qed.

Lemma bump_ok c cells : cat_ok c cells -> cat_ok (bump_generation c) cells.
Proof.
  intros []. split; try done. simpl. pose proof (wrap64_range (mc_generation c + 1)). unfold u64, U64_MAX, U64_MOD in *. lia.
Qed.

Lemma bump_changes g : 0 <= g < U64_MOD -> wrap64 (g + 1) <> g.
Proof.
  intros Hg. unfold wrap64. destruct (decide (g + 1 = U64_MOD)) as [He|]; [rewrite He, Z_mod_same_full; unfold U64_MOD in *; lia|].
  rewrite Z.mod_small by lia. lia.
Qed.

(** ** The file *)

Lemma slots_of_concat (slots : list (list Z)) : Forall (fun slot => length slot = SLOT_SIZE) slots ->
  slots_of (length slots) (concat slots) = slots.
Proof.
  induction 1 as [|slot slots Hs _ IH]; [done|]. cbn [length slots_of concat].
  rewrite take_app_length', drop_app_length' by done. by rewrite IH.
Qed.

Lemma concat_slots_length (slots : list (list Z)) : Forall (fun slot => length slot = SLOT_SIZE) slots ->
  length (concat slots) = (length slots * SLOT_SIZE)%nat.
Proof. induction 1 as [|slot slots Hs _ IH]; [done|]. cbn [concat length]. rewrite length_app, IH, Hs. lia. Qed.

Lemma field_at k n pre x rest bytes :
  bytes = pre ++ to_le n x ++ rest -> length pre = k -> unsigned n x -> u_from_le (take n (drop k bytes)) = x.
Proof.
  intros -> Hk Hx. rewrite drop_app_length' by done. rewrite take_app_length' by by rewrite to_le_length.
  by apply u_from_to_le.
Qed.

Lemma map_catalog_file c cells : cat_ok c cells -> map_catalog (catalog_file c) = Ok c.
Proof.
  intros []. pose proof (stored_length_le cells) as Hst.
  assert (Hslots : Forall (fun slot => length slot = SLOT_SIZE) (mc_slots c)).
  { rewrite ck_slots0, Forall_fmap. eapply Forall_impl; [exact ck_cells0|]. intros. by apply slot_of_length. }
  pose proof (concat_slots_length _ Hslots) as Hbody.
  set (pre1 := CATALOG_V2_MAGIC ++ to_le 4 CATALOG_VERSION).
  set (pre2 := pre1 ++ to_le 4 (mc_capacity c)). set (pre3 := pre2 ++ to_le 8 (mc_generation c)).
  set (pre4 := pre3 ++ to_le 4 (mc_count c)). set (pre5 := pre4 ++ to_le 4 (mc_last_slot c)).
  assert (Hl1 : length pre1 = 12%nat) by done.
  assert (Hl2 : length pre2 = 16%nat) by (unfold pre2; by rewrite length_app, to_le_length, Hl1).
  assert (Hl3 : length pre3 = 24%nat) by (unfold pre3; by rewrite length_app, to_le_length, Hl2).
  assert (Hl4 : length pre4 = 28%nat) by (unfold pre4; by rewrite length_app, to_le_length, Hl3).
  assert (Hl5 : length pre5 = 32%nat) by (unfold pre5; by rewrite length_app, to_le_length, Hl4).
  assert (Hfile : catalog_file c = pre5 ++ concat (mc_slots c)) by (unfold pre5, pre4, pre3, pre2, pre1; by rewrite <-!app_assoc).
  assert (H4 : forall x, 0 <= x < 2 ^ 32 -> unsigned 4 x) by done.
  unfold map_catalog. rewrite (proj2 (Nat.ltb_ge _ _)) by (rewrite Hfile, length_app, Hl5; apply Nat.le_add_r).
  rewrite bool_decide_true by done. cbn [negb].
  set (r5 := concat (mc_slots c)) in *. set (r4 := to_le 4 (mc_last_slot c) ++ r5).
  set (r3 := to_le 4 (mc_count c) ++ r4). set (r2 := to_le 8 (mc_generation c) ++ r3).
  assert (Hparts : catalog_file c = pre1 ++ to_le 4 (mc_capacity c) ++ r2) by done.
  assert (H1 : catalog_file c = pre2 ++ r2) by (rewrite Hparts; unfold pre2; by rewrite <-app_assoc).
  assert (H2 : catalog_file c = pre3 ++ r3) by (rewrite H1; unfold pre3; by rewrite <-app_assoc).
  assert (H3 : catalog_file c = pre4 ++ r4) by (rewrite H2; unfold pre4; by rewrite <-app_assoc).
  rewrite (field_at 12 4 pre1 (mc_capacity c) r2), (field_at 16 8 pre2 (mc_generation c) r3),
    (field_at 24 4 pre3 (mc_count c) r4), (field_at 28 4 pre4 (mc_last_slot c) r5); try done; try (apply H4; lia).
  unfold CATALOG_HEADER. rewrite Hfile, drop_app_length' by done.
  rewrite Hbody, Nat.div_mul, slots_of_concat by done. by destruct c.
Qed.

(** ** The registry *)

Record reg_ok (r : Registry) (cells : list (option string)) : Prop := {
  rk_catalog : cat_ok (rg_catalog r) cells;
  rk_cache : forall g tables, rg_cache r = Some (g, tables) -> g = mc_generation (rg_catalog r) -> tables = names cells
}.

Lemma names_size c cells : cat_ok c cells -> Z.of_nat (size (names cells)) = mc_count c.
Proof. intros []. unfold names. by rewrite size_list_to_set, ck_count0. Qed.

Definition cached (r : Registry) (cells : list (option string)) : Registry :=
  mkRegistry (rg_catalog r) (rg_adopt_existing_files r) (Some (mc_generation (rg_catalog r), names cells)).

Lemma snapshot_ok r cells : reg_ok r cells ->
  snapshot_from_catalog crc32 r = (cached r cells, Ok (names cells)) /\ reg_ok (cached r cells) cells.
Proof using crc32_range.
  intros [Hc Hcache]. split; [|split; [done|unfold cached; simpl; congruence]].
  unfold snapshot_from_catalog. rewrite (scan_ok _ cells) by done.
  destruct (rg_cache r) as [[g tables]|] eqn:Hg; [|done]. destruct (g =? _) eqn:He; zb; [|done].
  specialize (Hcache g tables eq_refl He) as ->. unfold cached. destruct r; simpl in *. by subst.
Qed.

(** The cache of a process that has just answered. *)
Definition fresh_cache (r : Registry) (cells : list (option string)) : Prop :=
  match rg_cache r with
  | Some (g, tables) => g = mc_generation (rg_catalog r) /\ tables = names cells
  | None => True
  end.

Lemma register_ok r cells name : reg_ok r cells -> name_ok name ->
  if bool_decide (name ∈ names cells) then register crc32 r (names cells) name = (r, Err AlreadyExists)
  else if Z.of_nat (size (names cells)) =? mc_capacity (rg_catalog r)
  then register crc32 r (names cells) name = (r, Err Other)
  else exists r' cells', register crc32 r (names cells) name = (r', Ok tt) /\ reg_ok r' cells' /\
         names cells' = {[name]} ∪ names cells /\ rg_adopt_existing_files r' = false /\
         mc_capacity (rg_catalog r') = mc_capacity (rg_catalog r) /\ fresh_cache r' cells' /\
         mc_generation (rg_catalog r') = wrap64 (mc_generation (rg_catalog r) + 1).
Proof using crc32_range.
  intros [Hc Hcache] Hname. pose proof (names_size _ _ Hc) as Hsize. pose proof (next_slot_spec _ _ Hc) as Hnext.
  unfold register. destruct (bool_decide (name ∈ names cells)) eqn:Hin; [done|]. apply bool_decide_eq_false in Hin.
  destruct (next_slot _ _) as [[last i]|].
  - destruct Hnext as (Hi & Hlast & Hle). destruct (put_ok _ _ _ _ _ Hc Hname Hin Hi Hlast Hle) as [Hput Hperm].
    pose proof (names_size _ _ Hput) as Hsize'. unfold names in Hsize' at 1. rewrite Hperm in Hsize'. simpl in Hsize'.
    fold (names cells) in Hsize'. rewrite size_union, size_singleton in Hsize' by set_solver.
    pose proof (stored_length_le (<[i := Some name]> cells)) as Hle'. rewrite Hperm, length_insert in Hle'. simpl in Hle'.
    destruct (_ =? _) eqn:He; zb; [destruct Hc; lia|]. apply bump_ok in Hput.
    eexists _, _. split; [reflexivity|]. split_and!; [|by unfold names; rewrite Hperm|done..| |done].
    2: { split; [done|]. simpl. unfold names. by rewrite Hperm. }
    split; [exact Hput|]. simpl. intros g t [= <- <-] _. unfold names. by rewrite Hperm.
  - destruct Hc. rewrite Hsize, ck_count0, Hnext, ck_length0, Z.eqb_refl. done.
Qed.

(** Every call of a process that has nothing to adopt does what the set does, caches what it
    answered with, and moves the generation on when it changes the set. *)
Lemma step_refines_fresh files r cells op :
  reg_ok r cells -> rg_adopt_existing_files r = false ->
  op_named op ->
  exists r' cells' a, registry_step crc32 files r op = (r', a) /\
    names_step (mc_capacity (rg_catalog r)) (names cells) op = (names cells', a) /\
    reg_ok r' cells' /\ rg_adopt_existing_files r' = false /\ mc_capacity (rg_catalog r') = mc_capacity (rg_catalog r) /\
    fresh_cache r' cells' /\
    (mc_generation (rg_catalog r') = mc_generation (rg_catalog r) /\ names cells' = names cells \/
     mc_generation (rg_catalog r') = wrap64 (mc_generation (rg_catalog r) + 1)).
Proof using crc32_range.
  intros Hr Hadopt Hop. destruct (snapshot_ok r cells Hr) as [Hsnap Hr'].
  set (r1 := cached r cells) in *. assert (Ha1 : rg_adopt_existing_files r1 = false) by done.
  assert (Hfresh : fresh_cache r1 cells) by done.
  assert (Hstay : mc_generation (rg_catalog r1) = mc_generation (rg_catalog r) /\ names cells = names cells \/
    mc_generation (rg_catalog r1) = wrap64 (mc_generation (rg_catalog r) + 1)) by by left.
  destruct op as [name|name| |]; cbn [registry_step names_step].
  - unfold CatalogLock_insert. rewrite Hsnap. unfold adopt_for_insert. rewrite Ha1, andb_false_r.
    pose proof (register_ok r1 cells name Hr' Hop) as Hreg. change (rg_catalog r1) with (rg_catalog r) in Hreg.
    destruct (bool_decide _); [rewrite Hreg; by eexists _, cells, _|]. destruct (_ =? _); [rewrite Hreg; by eexists _, cells, _|].
    destruct Hreg as (r' & cells' & -> & Hok & Hn & Had & Hcap & Hf & Hg). exists r', cells'. rewrite Hn. eexists.
    split_and!; [done..|by right].
  - unfold CatalogLock_remove. rewrite Hsnap, Ha1, andb_false_r. destruct (bool_decide (name ∈ names cells)) eqn:Hin; simpl.
    + apply bool_decide_eq_true in Hin. destruct (clear_ok _ _ _ (rk_catalog _ _ Hr) Hin) as (cells' & Hc & Hn & Hcap & Hgen).
      eexists _, cells', _. rewrite Hn. split_and!; [reflexivity|done| |done|done| |].
      * split; [by apply bump_ok|]. simpl. intros g t [= <- <-] _. done.
      * split; [done|]. simpl. by rewrite Hn.
      * right. simpl. by rewrite Hgen.
    + apply bool_decide_eq_false in Hin. eexists _, cells, _. split_and!; [reflexivity| |done..].
      f_equal. set_solver.
  - rewrite Hsnap. by eexists _, cells, _.
  - unfold open_catalog. rewrite (map_catalog_file _ cells) by apply Hr. cbn [result_bind]. eexists _, cells, _.
    split_and!; try done; try (by left). split; [apply Hr|done].
Qed.

Lemma step_refines files r cells op :
  reg_ok r cells -> rg_adopt_existing_files r = false ->
  op_named op ->
  exists r' cells' a, registry_step crc32 files r op = (r', a) /\
    names_step (mc_capacity (rg_catalog r)) (names cells) op = (names cells', a) /\
    reg_ok r' cells' /\ rg_adopt_existing_files r' = false /\ mc_capacity (rg_catalog r') = mc_capacity (rg_catalog r).
Proof using crc32_range.
  intros Hr Ha Hop. destruct (step_refines_fresh files r cells op Hr Ha Hop) as (r' & cells' & a & H). exists r', cells', a.
  tauto.
Qed.

Lemma run_refines files r cells ops :
  reg_ok r cells -> rg_adopt_existing_files r = false ->
  Forall op_named ops ->
  registry_run crc32 files r ops = names_run (mc_capacity (rg_catalog r)) (names cells) ops.
Proof using crc32_range.
  revert r cells. induction ops as [|op ops IH]; intros r cells Hr Ha Hops; [done|].
  apply Forall_cons in Hops as [Hop Hops].
  destruct (step_refines files r cells op Hr Ha Hop) as (r' & cells' & a & Hs & Hset & Hr' & Ha' & Hcap).
  cbn [registry_run names_run]. rewrite Hs, Hset, (IH r' cells') by done. by rewrite Hcap.
Qed.

(** *** Several processes *)

(** The cache of a process is of the present generation and right, or older. *)
Definition cache_follows (c : MappedCatalog) (cells : list (option string)) (cache : option (Z * gset string)) : Prop :=
  match cache with
  | Some (g, tables) => 0 <= g <= mc_generation c /\ (g = mc_generation c -> tables = names cells)
  | None => True
  end.

Record world_ok (w : World) (cells : list (option string)) : Prop := {
  wk_catalog : cat_ok (wd_catalog w) cells;
  wk_process : forall p adopt cache, wd_processes w !! p = Some (adopt, cache) ->
    adopt = false /\ cache_follows (wd_catalog w) cells cache
}.

Lemma process_ok w cells p : world_ok w cells ->
  reg_ok (process_registry w p) cells /\ rg_adopt_existing_files (process_registry w p) = false /\
  rg_catalog (process_registry w p) = wd_catalog w.
Proof.
  intros [Hc Hp]. unfold process_registry. specialize (Hp p).
  destruct (wd_processes w !! p) as [[adopt cache]|]; simpl.
  - destruct (Hp _ _ eq_refl) as [-> Hcache]. split_and!; [split; [done|]|done..]. simpl.
    intros g tables -> Hg. by apply Hcache.
  - split_and!; [by split|done..].
Qed.

(** A changed set has a new generation, so the caches of the other processes are older. *)
Lemma cache_moves c cells c' cells' cache :
  0 <= mc_generation c < U64_MOD - 1 -> cache_follows c cells cache ->
  mc_generation c' = mc_generation c /\ names cells' = names cells \/ mc_generation c' = wrap64 (mc_generation c + 1) ->
  cache_follows c' cells' cache.
Proof.
  intros Hg Hf. unfold wrap64. destruct cache as [[g tables]|]; [|done]. destruct Hf as [Hle Heq].
  intros [[Hgen Hn]|Hgen].
  - split; [lia|]. rewrite Hn, Hgen. exact Heq.
  - rewrite Z.mod_small in Hgen by lia. split; [lia|]. intros Hcur. lia.
Qed.

Lemma shared_step_refines files w cells call :
  world_ok w cells -> op_named call.2 -> mc_generation (wd_catalog w) < U64_MOD - 1 ->
  exists w' cells' a, shared_step crc32 files w call = (w', a) /\
    names_step (mc_capacity (wd_catalog w)) (names cells) call.2 = (names cells', a) /\
    world_ok w' cells' /\ mc_capacity (wd_catalog w') = mc_capacity (wd_catalog w) /\
    mc_generation (wd_catalog w') <= mc_generation (wd_catalog w) + 1.
Proof using crc32_range.
  intros Hw Hop Hg. destruct (process_ok w cells call.1 Hw) as (Hr & Ha & Hcat).
  destruct (step_refines_fresh files _ cells call.2 Hr Ha Hop)
    as (r' & cells' & a & Hs & Hset & Hr' & Ha' & Hcap & Hfresh & Hgen).
  rewrite Hcat in Hset, Hcap, Hgen. unfold shared_step. rewrite Hs. eexists _, cells', a.
  pose proof (ck_generation _ _ (wk_catalog _ _ Hw)) as Hpos.
  split_and!; [reflexivity|done| |done|].
  - split; [apply Hr'|]. intros p adopt cache. simpl. rewrite lookup_insert. case_decide as Hp.
    + intros [= <- <-]. split; [done|]. unfold fresh_cache in Hfresh. unfold cache_follows.
      destruct (rg_cache r') as [[g tables]|]; [|done]. destruct Hfresh as [-> ->].
      split; [|done]. pose proof (ck_generation _ _ (rk_catalog _ _ Hr')). lia.
    + intros Hq. destruct (wk_process _ _ Hw _ _ _ Hq) as [-> Hf]. split; [done|].
      by apply (cache_moves (wd_catalog w) cells); [lia| |].
  - simpl. destruct Hgen as [[-> _]| ->]; [lia|]. unfold wrap64. rewrite Z.mod_small; lia.
Qed.

Lemma shared_run_refines files w cells calls :
  world_ok w cells -> Forall (fun call => op_named call.2) calls ->
  mc_generation (wd_catalog w) + Z.of_nat (length calls) < U64_MOD ->
  shared_run crc32 files w calls = names_run (mc_capacity (wd_catalog w)) (names cells) calls.*2.
Proof using crc32_range.
  revert w cells. induction calls as [|call calls IH]; intros w cells Hw Hops Hlen; [done|].
  apply Forall_cons in Hops as [Hop Hops]. simpl in Hlen.
  destruct (shared_step_refines files w cells call Hw Hop ltac:(lia)) as (w' & cells' & a & Hs & Hset & Hw' & Hcap & Hg).
  cbn [shared_run fmap list_fmap names_run]. rewrite Hs, Hset, (IH w' cells') by (done || lia). by rewrite Hcap.
Qed.

Lemma new_catalog_ok : cat_ok new_catalog (replicate 1024 None).
Proof.
  split; try done; try (by apply Forall_replicate); try (by apply Forall_drop, Forall_replicate).
  rewrite stored_none by by apply Forall_replicate. constructor.
Qed.

(** ** Adopting the files of a database without a catalog *)

Lemma next_slot_header c last count : next_slot (set_header c last count) last = next_slot c last.
Proof. done. Qed.

Lemma persist_fold todo c cells last count :
  cat_ok (set_header c last count) cells -> Forall name_ok todo -> NoDup (todo ++ stored cells) ->
  (length todo + length (stored cells) <= length cells)%nat ->
  exists c' cells' last' count',
    foldl (persist_step crc32) (c, last, count, Ok tt) todo = (c', last', count', Ok tt) /\
    cat_ok (set_header c' last' count') cells' /\ stored cells' ≡ₚ todo ++ stored cells /\
    mc_generation c' = mc_generation c /\ mc_capacity c' = mc_capacity c.
Proof using crc32_range.
  revert c cells last count. induction todo as [|name todo IH]; intros c cells last count Hc Hok Hnd Hfit.
  { by eexists _, cells, _, _. }
  apply Forall_cons in Hok as [Hname Hok]. simpl in Hnd. apply NoDup_cons in Hnd as [Hnew Hnd].
  pose proof (next_slot_spec _ _ Hc) as Hnext. cbn [set_header mc_last_slot] in Hnext. rewrite next_slot_header in Hnext.
  cbn [foldl persist_step length] in *. destruct (next_slot c last) as [[last' i]|]; [|lia].
  destruct Hnext as (Hi & Hlast & Hle).
  assert (Hnn : name ∉ names cells) by (unfold names; rewrite elem_of_list_to_set; set_solver).
  destruct (put_ok _ _ _ _ _ Hc Hname Hnn Hi Hlast Hle) as [Hput Hperm]. cbn [set_header mc_count] in Hput.
  destruct (IH (put_slot c i (set_slot crc32 name)) _ _ _ Hput Hok) as (c' & cells' & last'' & count'' & Hf & Hc' & Hst & Hg & Hcap).
  { rewrite Hperm, <-Permutation_middle. constructor; [set_solver|done]. }
  { rewrite Hperm, length_insert. simpl. lia. }
  exists c', cells', last'', count''. split_and!; try done. rewrite Hst, Hperm. by rewrite <-Permutation_middle.
Qed.

Lemma in_order_perm names : in_order names ≡ₚ elements names.
Proof. apply merge_sort_Permutation. Qed.

Lemma persist_ok c cells todo :
  cat_ok c cells -> names cells = ∅ -> set_Forall name_ok todo -> Z.of_nat (size todo) <= mc_capacity c ->
  exists c' cells', persist_tables crc32 c todo = (c', Ok tt) /\ cat_ok c' cells' /\ names cells' = todo /\
    mc_capacity c' = mc_capacity c /\ (todo = ∅ /\ c' = c \/ mc_generation c' = wrap64 (mc_generation c + 1)).
Proof using crc32_range.
  intros Hc Hempty Hok Hsize. unfold persist_tables.
  destruct (bool_decide_reflect (todo = ∅)) as [->|Hne]; [exists c, cells; split_and!; try done; by left|].
  assert (Hst : stored cells = []).
  { unfold names in Hempty. destruct (stored cells) as [|n l]; [done|]. simpl in Hempty. set_solver. }
  destruct (persist_fold (in_order todo) c cells (mc_last_slot c) (mc_count c)) as (c' & cells' & last & count & Hf & Hc' & Hperm & Hg & Hcap).
  - by destruct c.
  - rewrite in_order_perm. apply Forall_forall. intros n Hn. apply Hok. by apply elem_of_elements.
  - rewrite Hst, app_nil_r, in_order_perm. apply NoDup_elements.
  - rewrite Hst, in_order_perm. simpl. destruct Hc. unfold size, set_size in Hsize. simpl in Hsize. lia.
  - rewrite Hf. eexists _, cells'. split_and!; [reflexivity|by apply bump_ok| |done|right; simpl; by rewrite Hg].
    unfold names. rewrite Hperm, Hst, app_nil_r, in_order_perm. apply list_to_set_elements_L.
Qed.

Lemma stored_new : stored (replicate 1024 None) = [].
Proof. apply stored_none. by apply Forall_replicate. Qed.

Lemma create_catalog_ok : reg_ok create_catalog (replicate 1024 None) /\ names (replicate 1024 None) = ∅.
Proof using crc32_range. split; [split; [exact new_catalog_ok|done]|]. unfold names. by rewrite stored_new. Qed.

Lemma adopted_files (files : gset string) name :
  (∅ ∪ files) ∖ {[name]} = files ∖ {[name]} /\ {[name]} ∪ files = {[name]} ∪ files ∖ {[name]} /\
  name ∉ files ∖ {[name]} /\ Z.of_nat (size ({[name]} ∪ files)) = 1 + Z.of_nat (size (files ∖ {[name]})).
Proof.
  assert (Hu : {[name]} ∪ files = {[name]} ∪ files ∖ {[name]}).
  { apply set_eq. intros x. destruct (decide (x = name)); set_solver. }
  split_and!; [set_solver|done|set_solver|]. rewrite Hu, size_union, size_singleton by set_solver. lia.
Qed.

(** The first insertion after a catalog is created takes the files in. *)
Lemma first_insert_adopts files name :
  set_Forall name_ok files -> name_ok name -> Z.of_nat (size ({[name]} ∪ files)) <= 1024 ->
  exists r cells, CatalogLock_insert crc32 create_catalog files name = (r, Ok tt) /\ reg_ok r cells /\
    names cells = {[name]} ∪ files /\ rg_adopt_existing_files r = false.
Proof using crc32_range.
  intros Hfiles Hname Hsize. destruct create_catalog_ok as [Hr Hnone].
  destruct (snapshot_ok _ _ Hr) as [Hsnap Hr']. unfold CatalogLock_insert. rewrite Hsnap.
  set (r1 := cached _ _) in *. rewrite Hnone. unfold adopt_for_insert.
  replace (bool_decide (∅ = ∅) && rg_adopt_existing_files r1) with true by done.
  destruct (adopted_files files name) as (-> & Hunion & Hnot & Hone).
  set (todo := files ∖ {[name]}) in *.
  destruct (persist_ok (rg_catalog r1) _ todo (rk_catalog _ _ Hr') Hnone) as (c & cells & -> & Hc & Hcells & Hcap & Hgen).
  { intros x Hx. apply Hfiles. by apply elem_of_difference in Hx as [? _]. }
  { change (mc_capacity (rg_catalog r1)) with 1024. lia. }
  cbn [result_bind]. set (r2 := mkRegistry c _ _).
  assert (Hr2 : reg_ok r2 cells).
  { split; [done|]. change (rg_cache r2) with (Some (0, names (replicate 1024 None))). rewrite Hnone, Hcells.
    intros g tables [= <- <-] He. destruct Hgen as [[-> _]|Hgen]; [done|].
    change (rg_catalog r2) with c in He. change (mc_generation (rg_catalog r1)) with 0 in Hgen. by rewrite Hgen in He. }
  pose proof (register_ok r2 cells name Hr2 Hname) as Hreg. rewrite Hcells in Hreg.
  rewrite bool_decide_false in Hreg by exact Hnot.
  change (rg_catalog r2) with c in Hreg. rewrite (proj2 (Z.eqb_neq _ _)) in Hreg
    by (rewrite Hcap; change (mc_capacity (rg_catalog r1)) with 1024; lia).
  destruct Hreg as (r' & cells' & Hreg & Hok & Hn & Hadopt & _). exists r', cells'. split_and!; [done..|by rewrite Hn|done].
Qed.

End contents.

(** ** The properties *)

(** C31 The registry is a set of table names: insertions, removals, listings and reopenings answer
    as the operations of a set of at most 1024 names do, whatever slots are reused, shrunk or given
    up, whether the answer comes from the cache or from the slots, and whichever of any number of
    processes makes each call: every process answers from the mapped file it shares with the
    others and from a cache of its own that the generation invalidates.  The names
    have 1 to 128 bytes (a longer one is cut in its slot, see [long_name_is_cut]); the
    processes map a catalog that exists, so that there are no files to adopt (see
    [unadopted_tables_vanish]); each call runs under the lock; and there are fewer
    than 2^64 of them, so that the generation does not come round. *)
Theorem registry_refines_set (crc32 : list Z -> Z) (files : gset string) (calls : list (nat * RegistryOp)) :
  (forall bytes, unsigned 4 (crc32 bytes)) ->
  Forall (fun call => op_named call.2) calls -> Z.of_nat (length calls) < U64_MOD ->
  shared_run crc32 files (mkWorld new_catalog ∅) calls = names_run DEFAULT_CAPACITY ∅ calls.*2.
Proof.
  intros Hcrc Hops Hlen. rewrite (shared_run_refines crc32 Hcrc files _ (replicate 1024 None)); try done.
  split; [apply new_catalog_ok|]. intros p adopt cache Hp. cbn [wd_processes] in Hp. by rewrite lookup_empty in Hp.
Qed.

(** A database without a catalog whose files were created before: the first CREATE TABLE of the
    process that creates the catalog registers them all; but until then a listing is empty, and if
    the process ends before, as after a DROP TABLE IF EXISTS of an unknown table, the next process
    finds an empty catalog and never registers them. *)
Theorem unadopted_tables_vanish (crc32 : list Z -> Z) (files : gset string) (unknown name : string) :
  (forall bytes, unsigned 4 (crc32 bytes)) -> set_Forall name_ok files -> name_ok name -> unknown ∉ files ->
  Z.of_nat (size ({[name]} ∪ files)) <= DEFAULT_CAPACITY ->
  registry_run crc32 files create_catalog [OpInsert name; OpReopen; OpList]
    = [AnsInsert (Ok tt); AnsReopen (Ok tt); AnsList (Ok ({[name]} ∪ files))] /\
  registry_run crc32 files create_catalog [OpList; OpRemove unknown; OpList; OpReopen; OpInsert name; OpList]
    = [AnsList (Ok ∅); AnsRemove (Ok false); AnsList (Ok ∅); AnsReopen (Ok tt); AnsInsert (Ok tt);
       AnsList (Ok {[name]})].
Proof.
  intros Hcrc Hfiles Hname Hunknown Hsize. split.
  - destruct (first_insert_adopts crc32 Hcrc files name Hfiles Hname Hsize) as (r & cells & Hins & Hr & Hn & Ha).
    cbn [registry_run registry_step]. rewrite Hins. f_equal.
    etrans; [exact (run_refines crc32 Hcrc files r cells [OpReopen; OpList] Hr Ha ltac:(by repeat constructor))|].
    cbn [names_run names_step]. by rewrite Hn.
  - destruct (create_catalog_ok crc32 Hcrc) as [Hr Hnone]. destruct (snapshot_ok crc32 Hcrc _ _ Hr) as [Hsnap Hr1].
    rewrite Hnone in Hsnap. set (r1 := cached _ _) in *.
    destruct (snapshot_ok crc32 Hcrc _ _ Hr1) as [Hsnap1 _]. rewrite Hnone in Hsnap1.
    assert (Hrem : CatalogLock_remove crc32 r1 files unknown = (r1, Ok false)).
    { unfold CatalogLock_remove. rewrite Hsnap1. change (cached r1 _) with r1. 
      replace (bool_decide (∅ = ∅) && rg_adopt_existing_files r1) with true by done.
      rewrite (bool_decide_false (unknown ∈ ∅ ∪ files)) by (rewrite (left_id_L ∅ (∪)); exact Hunknown). done. }
    cbn [registry_run registry_step]. rewrite Hsnap, Hrem, Hsnap1. change (cached r1 _) with r1. do 3 f_equal.
    unfold open_catalog. rewrite (map_catalog_file crc32 _ _ (rk_catalog _ _ _ Hr1)). cbn [result_bind]. f_equal.
    assert (Hops : Forall op_named [OpInsert name; OpList]) by by apply Forall_cons; split; [|apply Forall_singleton].
    assert (Hr2 : reg_ok crc32 (mkRegistry (rg_catalog r1) false None) (replicate 1024 None)) by (split; [apply Hr1|done]).
    etrans; [exact (run_refines crc32 Hcrc files _ _ _ Hr2 eq_refl Hops)|].
    rewrite Hnone. cbn [names_run names_step]. rewrite bool_decide_false by apply not_elem_of_empty.
    change (mc_capacity _) with 1024. rewrite size_empty. cbn [Z.of_nat Z.eqb]. by rewrite (right_id_L ∅ (∪)).
Qed.

(** A checksum for the examples. *)
Definition sum32 (bytes : list Z) : Z := foldl Z.add 0 bytes mod 2 ^ 32.

Lemma sum32_range bytes : unsigned 4 (sum32 bytes).
Proof. unfold unsigned, sum32. change (width 4) with (2 ^ 32). by apply Z.mod_pos_bound. Qed.

Lemma short_name_ok name :
  utf8_valid (string_bytes name) && (1 <=? length (string_bytes name))%nat && (length (string_bytes name) <=? SLOT_NAME_CAP)%nat
  = true -> name_ok name.
Proof. intros [[? ?%Nat.leb_le]%andb_true_iff ?%Nat.leb_le]%andb_true_iff. by split. Qed.

(** A name beyond 128 bytes is registered, and its slot holds another name. *)
Example long_name_is_cut :
  let long := String.append (bytes_string (replicate 128 120)) "_archive" in
  read_slot sum32 (set_slot sum32 long) = Ok (Some (bytes_string (replicate 128 120))).
Proof. vm_compute. reflexivity. Qed.

(** Process 1 lists from its cache after process 2 has changed the registry. *)
Lemma registry_refines_set_witness :
  shared_run sum32 ∅ (mkWorld new_catalog ∅)
    [(1%nat, OpInsert "orders"); (1%nat, OpInsert "users"); (2%nat, OpInsert "users"); (2%nat, OpRemove "orders");
     (1%nat, OpList); (2%nat, OpInsert "items"); (1%nat, OpRemove "orders"); (2%nat, OpReopen); (1%nat, OpList)]
  = [AnsInsert (Ok tt); AnsInsert (Ok tt); AnsInsert (Err AlreadyExists); AnsRemove (Ok true);
     AnsList (Ok {["users"]}); AnsInsert (Ok tt); AnsRemove (Ok false); AnsReopen (Ok tt);
     AnsList (Ok {["users"; "items"]})].
Proof.
  rewrite (registry_refines_set sum32 ∅); [vm_compute; reflexivity|exact sum32_range| |done].
  repeat constructor; by apply short_name_ok.
Defined.

Lemma unadopted_tables_vanish_witness :
  registry_run sum32 {["orders"; "users"]} create_catalog [OpList; OpRemove "old"; OpList; OpReopen; OpInsert "items"; OpList]
  = [AnsList (Ok ∅); AnsRemove (Ok false); AnsList (Ok ∅); AnsReopen (Ok tt); AnsInsert (Ok tt); AnsList (Ok {["items"]})].
Proof.
  apply (unadopted_tables_vanish sum32 {["orders"; "users"]} "old" "items" sum32_range);
    [|by apply short_name_ok|by vm_compute|by vm_compute].
  intros x [Hx|Hx]%elem_of_union; apply elem_of_singleton in Hx as ->; by apply short_name_ok.
Defined.
