(* ===== verification/LazySchemas.v ===== *)
(** * The registry of lazy schemas

    Models the other mapped file of [storage/table_catalog.rs] ([.apex_schemas]): CREATE TABLE
    records a table's schema there, and the table file is made from it on first access.  Records are
    read in sequence, each with its checksum, and the whole set is rewritten in place.  The rewrite
    is the list of its stores, so that a process that dies between two of them leaves the mapping
    after a prefix of the list.  Writers hold the registry lock; the retries of a reader find the
    same bytes. *)
From S2P Require Import Prelude Bytes Columns Catalog.
Local Open Scope Z_scope.
Local Open Scope apex_scope.

Definition SCHEMA_MAGIC : list Z := string_bytes "APXSCM01".
Definition SCHEMA_VERSION : Z := 1.
Definition SCHEMA_HEADER : nat := 24.
Definition SCHEMA_REGION_CAPACITY : Z := 256 * 1024.

(** The header fields and the bytes behind the header. *)
Record MappedSchemas := mkSchemas {
  ms_count : Z;
  ms_next_offset : Z;
  ms_generation : Z;
  ms_region : list Z
}.

Definition schemas_file (s : MappedSchemas) : list Z :=
  SCHEMA_MAGIC ++ to_le 4 SCHEMA_VERSION ++ to_le 4 (ms_count s) ++ to_le 4 (ms_next_offset s)
  ++ to_le 4 (ms_generation s) ++ ms_region s.

(** The part of [ensure_schemas] that reads the file. *)
Definition map_schemas (bytes : list Z) : Result MappedSchemas :=
  if (length bytes <? SCHEMA_HEADER)%nat then Err InvalidData
  else if negb (bool_decide (take 8 bytes = SCHEMA_MAGIC)) then Err InvalidData
  else
    let field (at_ : nat) := u_from_le (take 4 (drop at_ bytes)) in
    if negb (field 8%nat =? SCHEMA_VERSION) then Err InvalidData
    else Ok (mkSchemas (field 12%nat) (field 16%nat) (field 20%nat) (drop SCHEMA_HEADER bytes)).

(** [create_schema_file] *)
Definition new_schemas : MappedSchemas :=
  mkSchemas 0 (Z.of_nat SCHEMA_HEADER) 0 (replicate (Z.to_nat SCHEMA_REGION_CAPACITY) 0).

Abbreviation Schemas := (list (string * list Z)).

Section schemas.
Context (crc32 : list Z -> Z).

Definition schema_record_body (r : string * list Z) : list Z :=
  to_le 4 (len_of (string_bytes r.1)) ++ to_le 4 (len_of r.2) ++ string_bytes r.1 ++ r.2.

Definition record_bytes (r : string * list Z) : list Z := schema_record_body r ++ to_le 4 (crc32 (schema_record_body r)).

Definition record_size (r : string * list Z) : Z := 8 + len_of (string_bytes r.1) + len_of r.2 + 4.

(** One pass over the bytes up to [next_offset]; [None] when it meets torn data.  The fuel is the
    number of bytes: a record takes twelve or more. *)
Fixpoint scan_pass (fuel : nat) (bytes : list Z) (records : Schemas) : option (Result Schemas) :=
  match fuel with
  | O => Some (Ok records)
  | S fuel =>
      if len_of bytes <? 8 then Some (Ok records)
      else
        let name_len := u_from_le (take 4 bytes) in
        let schema_len := u_from_le (take 4 (drop 4 bytes)) in
        let crc_offset := 8 + name_len + schema_len in
        if (name_len =? 0) || (len_of bytes <? crc_offset + 4) then None
        else
          let covered := take (Z.to_nat crc_offset) bytes in
          if negb (crc32 covered =? u_from_le (take 4 (drop (Z.to_nat crc_offset) bytes))) then Some (Err InvalidData)
          else
            let name := take (Z.to_nat name_len) (drop 8 bytes) in
            let schema := take (Z.to_nat schema_len) (drop (Z.to_nat (8 + name_len)) bytes) in
            if utf8_valid name
            then scan_pass fuel (drop (Z.to_nat (crc_offset + 4)) bytes) (records ++ [(bytes_string name, schema)])
            else Some (Err InvalidData)
  end.

Definition scan_records (s : MappedSchemas) : Result Schemas :=
  let used := take (Z.to_nat (ms_next_offset s) - SCHEMA_HEADER) (ms_region s) in
  match scan_pass (S (length used)) used [] with
  | Some r => r
  | None => Err WouldBlock
  end.

(** ** Rewriting *)

Inductive Store :=
| StRegion (offset : nat) (bytes : list Z)
| StNextOffset (v : Z)
| StCount (v : Z)
| StGeneration (v : Z).

Definition write_at (offset : nat) (bytes region : list Z) : list Z :=
  take offset region ++ bytes ++ drop (offset + length bytes) region.

Definition apply_store (s : MappedSchemas) (st : Store) : MappedSchemas :=
  match st with
  | StRegion offset bytes =>
      mkSchemas (ms_count s) (ms_next_offset s) (ms_generation s) (write_at offset bytes (ms_region s))
  | StNextOffset v => mkSchemas (ms_count s) v (ms_generation s) (ms_region s)
  | StCount v => mkSchemas v (ms_next_offset s) (ms_generation s) (ms_region s)
  | StGeneration v => mkSchemas (ms_count s) (ms_next_offset s) v (ms_region s)
  end.

(** The five copies of one record at an offset of the region. *)
Definition record_stores (offset : nat) (r : string * list Z) : list Store :=
  let name := string_bytes r.1 in
  [StRegion offset (to_le 4 (len_of name)); StRegion (offset + 4) (to_le 4 (len_of r.2));
   StRegion (offset + 8) name; StRegion (offset + 8 + length name) r.2;
   StRegion (offset + 8 + length name + length r.2) (to_le 4 (crc32 (schema_record_body r)))].

Fixpoint records_stores (offset : nat) (records : Schemas) : list Store :=
  match records with
  | [] => []
  | r :: records => record_stores offset r ++ records_stores (offset + Z.to_nat (record_size r)) records
  end.

Definition total_size (records : Schemas) : Z := foldr (fun r acc => record_size r + acc) 0 records.

Definition rewrite_stores (s : MappedSchemas) (records : Schemas) : list Store :=
  let old := (Z.to_nat (ms_next_offset s) - SCHEMA_HEADER)%nat in
  (if (0 <? old)%nat then [StRegion 0 (replicate old 0)] else [])
  ++ records_stores 0 records
  ++ [StNextOffset (wrap32 (Z.of_nat SCHEMA_HEADER + total_size records)); StCount (wrap32 (len_of records));
      StGeneration (wrap32 (ms_generation s + 1))].

Definition rewrite_schemas (s : MappedSchemas) (records : Schemas) : MappedSchemas * Result unit :=
  let total := Z.of_nat SCHEMA_HEADER + total_size records in
  if (Z.of_nat SCHEMA_HEADER + SCHEMA_REGION_CAPACITY <? total)
     || (Z.of_nat SCHEMA_HEADER + len_of (ms_region s) <? total) then (s, Err Other)
  else (foldl apply_store s (rewrite_stores s records), Ok tt).

(** ** Calls *)

Definition record_named (name : string) (r : string * list Z) : bool := String.eqb r.1 name.

(** [records[index].1 = bytes] at the position of the name, or a new record at the end. *)
Fixpoint put_record (name : string) (bytes : list Z) (records : Schemas) : Schemas :=
  match records with
  | [] => [(name, bytes)]
  | r :: records => if record_named name r then (r.1, bytes) :: records else r :: put_record name bytes records
  end.

Definition update_schema (s : MappedSchemas) (name : string) (update : option (list Z) -> Result (list Z))
    : MappedSchemas * Result unit :=
  match scan_records s with
  | Err e => (s, Err e)
  | Ok records =>
      match update (snd <$> List.find (record_named name) records) with
      | Err e => (s, Err e)
      | Ok bytes => rewrite_schemas s (put_record name bytes records)
      end
  end.

Definition set_schema (s : MappedSchemas) (name : string) (bytes : list Z) : MappedSchemas * Result unit :=
  update_schema s name (fun _ => Ok bytes).

Definition remove_schema (s : MappedSchemas) (name : string) : MappedSchemas * Result unit :=
  match scan_records s with
  | Err e => (s, Err e)
  | Ok records => rewrite_schemas s (List.filter (fun r => negb (record_named name r)) records)
  end.

Definition schema_bytes (s : MappedSchemas) (name : string) : Result (option (list Z)) :=
  let? records := scan_records s in Ok (snd <$> List.find (record_named name) records).

(** ** Runs *)

Inductive LazyOp :=
| LzSet (name : string) (bytes : list Z)
| LzRemove (name : string)
| LzRead (name : string)
| LzReopen.

Inductive LazyAnswer :=
| LzDone (r : Result unit)
| LzBytes (r : Result (option (list Z))).

Definition lazy_step (s : MappedSchemas) (op : LazyOp) : MappedSchemas * LazyAnswer :=
  match op with
  | LzSet name bytes => let '(s, r) := set_schema s name bytes in (s, LzDone r)
  | LzRemove name => let '(s, r) := remove_schema s name in (s, LzDone r)
  | LzRead name => (s, LzBytes (schema_bytes s name))
  | LzReopen => match map_schemas (schemas_file s) with Ok s => (s, LzDone (Ok tt)) | Err e => (s, LzDone (Err e)) end
  end.

Fixpoint lazy_run (s : MappedSchemas) (ops : list LazyOp) : list LazyAnswer :=
  match ops with
  | [] => []
  | op :: ops => let '(s, a) := lazy_step s op in a :: lazy_run s ops
  end.

End schemas.

(** What the registry promises: a finite map whose records fit the region. *)
Definition map_step (m : gmap string (list Z)) (op : LazyOp) : gmap string (list Z) * LazyAnswer :=
  match op with
  | LzSet name bytes =>
      let m' := <[name := bytes]> m in
      if SCHEMA_REGION_CAPACITY <? total_size (map_to_list m') then (m, LzDone (Err Other)) else (m', LzDone (Ok tt))
  | LzRemove name => (delete name m, LzDone (Ok tt))
  | LzRead name => (m, LzBytes (Ok (m !! name)))
  | LzReopen => (m, LzDone (Ok tt))
  end.

(** What the registry does: an empty table name, which CREATE TABLE accepts, is stored as a
    record whose name length is zero; every later scan takes that for a rewrite in
    progress, so that all calls but reopening fail from then on. *)
Definition blocked_answer (op : LazyOp) : LazyAnswer :=
  match op with
  | LzSet _ _ | LzRemove _ => LzDone (Err WouldBlock)
  | LzRead _ => LzBytes (Err WouldBlock)
  | LzReopen => LzDone (Ok tt)
  end.

Definition schemas_step (m : gmap string (list Z)) (op : LazyOp) : gmap string (list Z) * LazyAnswer :=
  if bool_decide (is_Some (m !! EmptyString)) then (m, blocked_answer op) else map_step m op.

Fixpoint schemas_run (m : gmap string (list Z)) (ops : list LazyOp) : list LazyAnswer :=
  match ops with
  | [] => []
  | op :: ops => let '(m, a) := schemas_step m op in a :: schemas_run m ops
  end.

(** ** Writing the region *)

Lemma write_at_length offset bytes region :
  (offset + length bytes <= length region)%nat -> length (write_at offset bytes region) = length region.
Proof. intros H. unfold write_at. rewrite !length_app, length_take, length_drop. lia. Qed.

Lemma write_at_lookup offset bytes region i :
  (offset <= length region)%nat ->
  write_at offset bytes region !! i =
    if (i <? offset)%nat then region !! i
    else if (i <? offset + length bytes)%nat then bytes !! (i - offset)%nat else region !! i.
Proof.
  intros H. unfold write_at. destruct (Nat.ltb_spec i offset).
  - rewrite lookup_app_l by (rewrite length_take; lia). by rewrite lookup_take_lt.
  - rewrite lookup_app_r, length_take, Nat.min_l by (rewrite ?length_take; lia).
    destruct (Nat.ltb_spec i (offset + length bytes)); [by rewrite lookup_app_l by lia|].
    rewrite lookup_app_r, lookup_drop by lia. f_equal. lia.
Qed.

(** Two adjacent writes are one. *)
Lemma write_at_then offset a b region :
  (offset + length a + length b <= length region)%nat ->
  write_at (offset + length a) b (write_at offset a region) = write_at offset (a ++ b) region.
Proof.
  intros H. apply list_eq. intros i.
  rewrite !write_at_lookup by (rewrite ?write_at_length; lia). rewrite length_app.
  destruct (Nat.ltb_spec i (offset + length a)), (Nat.ltb_spec i offset); try lia; [done| |].
  - rewrite (proj2 (Nat.ltb_lt _ _)) by lia. by rewrite lookup_app_l by lia.
  - rewrite (Nat.add_assoc offset). destruct (Nat.ltb_spec i (offset + length a + length b)); [|done].
    rewrite lookup_app_r by lia. f_equal. lia.
Qed.

Section contents.
Context (crc32 : list Z -> Z).
Hypothesis crc32_range : forall bytes, unsigned 4 (crc32 bytes).

Definition valid_record (r : string * list Z) : Prop := valid_str r.1.
Definition record_ok (r : string * list Z) : Prop := valid_str r.1 /\ r.1 <> EmptyString.

Lemma record_length r : Z.of_nat (length (record_bytes crc32 r)) = record_size r.
Proof. unfold record_bytes, schema_record_body, record_size, len_of. rewrite !length_app, !to_le_length. lia. Qed.

Definition region_bytes (records : Schemas) : list Z := concat (record_bytes crc32 <$> records).

Lemma region_length records : Z.of_nat (length (region_bytes records)) = total_size records.
Proof.
  induction records as [|r records IH]; [done|]. unfold region_bytes in *. cbn [fmap list_fmap concat total_size foldr].
  rewrite length_app. pose proof (record_length r). unfold total_size in IH. lia.
Qed.

Lemma apply_region st offset bytes :
  apply_store st (StRegion offset bytes) =
    mkSchemas (ms_count st) (ms_next_offset st) (ms_generation st) (write_at offset bytes (ms_region st)).
Proof. done. Qed.

Lemma apply_record st offset r :
  (offset + length (record_bytes crc32 r) <= length (ms_region st))%nat ->
  foldl apply_store st (record_stores crc32 offset r) =
    mkSchemas (ms_count st) (ms_next_offset st) (ms_generation st) (write_at offset (record_bytes crc32 r) (ms_region st)).
Proof.
  intros H. unfold record_bytes, schema_record_body in *. rewrite !length_app, !to_le_length in H.
  unfold record_stores. cbn [foldl apply_store ms_count ms_next_offset ms_generation ms_region]. f_equal.
  set (n := string_bytes r.1) in *. set (l1 := to_le 4 (len_of n)) in *. set (l2 := to_le 4 (len_of r.2)) in *.
  set (c := to_le 4 (crc32 (schema_record_body r))).
  assert (H1 : length l1 = 4%nat) by apply to_le_length. assert (H2 : length l2 = 4%nat) by apply to_le_length.
  assert (Hc : length c = 4%nat) by apply to_le_length.
  assert (Hn : length (l1 ++ l2) = 8%nat) by (rewrite length_app; lia).
  assert (Hs : length ((l1 ++ l2) ++ n) = (8 + length n)%nat) by (rewrite length_app; lia).
  assert (Hb : length (((l1 ++ l2) ++ n) ++ r.2) = (8 + length n + length r.2)%nat) by (rewrite length_app; lia).
  pose proof (write_at_then offset l1 l2 (ms_region st)) as E1. rewrite H1, H2 in E1. rewrite E1 by lia.
  pose proof (write_at_then offset (l1 ++ l2) n (ms_region st)) as E2. rewrite Hn in E2. rewrite E2 by lia.
  pose proof (write_at_then offset ((l1 ++ l2) ++ n) r.2 (ms_region st)) as E3. rewrite Hs, Nat.add_assoc in E3.
  rewrite E3 by lia.
  pose proof (write_at_then offset (((l1 ++ l2) ++ n) ++ r.2) c (ms_region st)) as E4. rewrite Hb, !Nat.add_assoc in E4.
  rewrite E4 by lia. by rewrite <-!app_assoc.
Qed.

Lemma apply_records st offset records :
  (offset + length (region_bytes records) <= length (ms_region st))%nat ->
  foldl apply_store st (records_stores crc32 offset records) =
    mkSchemas (ms_count st) (ms_next_offset st) (ms_generation st) (write_at offset (region_bytes records) (ms_region st)).
Proof.
  revert st offset. induction records as [|r records IH]; intros st offset H.
  - destruct st as [? ? ? reg]. cbn in *. f_equal. unfold write_at. simpl. by rewrite Nat.add_0_r, take_drop.
  - unfold region_bytes in *. cbn [fmap list_fmap concat records_stores] in *. rewrite length_app in H.
    pose proof (record_length r) as Hr. rewrite foldl_app, apply_record by lia.
    replace (Z.to_nat (record_size r)) with (length (record_bytes crc32 r)) by lia.
    rewrite IH by (cbn [ms_region]; rewrite write_at_length; lia). cbn [ms_count ms_next_offset ms_generation ms_region]. f_equal.
    apply write_at_then. lia.
Qed.

(** ** Reading it back *)

Lemma scan_pass_S fuel bytes records :
  scan_pass crc32 (S fuel) bytes records =
    if len_of bytes <? 8 then Some (Ok records)
    else
      let name_len := u_from_le (take 4 bytes) in
      let schema_len := u_from_le (take 4 (drop 4 bytes)) in
      let crc_offset := 8 + name_len + schema_len in
      if (name_len =? 0) || (len_of bytes <? crc_offset + 4) then None
      else if negb (crc32 (take (Z.to_nat crc_offset) bytes) =? u_from_le (take 4 (drop (Z.to_nat crc_offset) bytes)))
      then Some (Err InvalidData)
      else if utf8_valid (take (Z.to_nat name_len) (drop 8 bytes))
      then scan_pass crc32 fuel (drop (Z.to_nat (crc_offset + 4)) bytes)
             (records ++ [(bytes_string (take (Z.to_nat name_len) (drop 8 bytes)),
                           take (Z.to_nat schema_len) (drop (Z.to_nat (8 + name_len)) bytes))])
      else Some (Err InvalidData).
Proof. reflexivity. Qed.

Lemma scan_record r rest fuel acc :
  record_ok r -> record_size r < 2 ^ 32 ->
  scan_pass crc32 (S fuel) (record_bytes crc32 r ++ rest) acc = scan_pass crc32 fuel rest (acc ++ [r]).
Proof using crc32_range.
  intros [Hv Hne] Hsize. pose proof (record_length r) as Hlen. destruct r as [name schema]. cbn [fst snd] in *.
  set (n := string_bytes name) in *.
  assert (Hpos : n <> []) by (unfold n; by destruct name).
  assert (Hn : 0 < len_of n) by (unfold len_of; destruct n; simpl in *; [done|lia]).
  unfold record_size in *. cbn [fst snd] in *. fold n in Hlen, Hsize.
  assert (Hs : 0 <= len_of schema) by apply len_of_nonneg.
  assert (H4 : forall x, 0 <= x < 2 ^ 32 -> unsigned 4 x) by done.
  assert (Hbody : schema_record_body (name, schema) = to_le 4 (len_of n) ++ to_le 4 (len_of schema) ++ n ++ schema) by done.
  assert (Hblen : Z.of_nat (length (schema_record_body (name, schema))) = 8 + len_of n + len_of schema)
    by (rewrite Hbody, !length_app, !to_le_length; unfold len_of; lia).
  unfold record_bytes in *. set (c := crc32 (schema_record_body (name, schema))) in *.
  set (l1 := to_le 4 (len_of n)) in *. set (l2 := to_le 4 (len_of schema)) in *.
  assert (H1 : length l1 = 4%nat) by apply to_le_length. assert (H2 : length l2 = 4%nat) by apply to_le_length.
  assert (Hc : length (to_le 4 c) = 4%nat) by apply to_le_length.
  set (bs := (schema_record_body (name, schema) ++ to_le 4 c) ++ rest).
  assert (Hat : forall k pre post, bs = pre ++ post -> length pre = k -> drop k bs = post).
  { intros k pre post -> <-. by rewrite drop_app_length. }
  assert (Hbs : bs = l1 ++ l2 ++ n ++ schema ++ to_le 4 c ++ rest) by (unfold bs; rewrite Hbody; by rewrite <-!app_assoc).
  assert (Htotal : 12 + len_of n + len_of schema <= len_of bs)
    by (unfold bs; unfold len_of at 3; rewrite !length_app, Hc; lia).
  assert (F1 : u_from_le (take 4 bs) = len_of n).
  { rewrite Hbs, take_app_length' by done. apply u_from_to_le, H4. lia. }
  assert (F2 : u_from_le (take 4 (drop 4 bs)) = len_of schema).
  { rewrite (Hat 4%nat l1 _ Hbs H1), take_app_length' by done. apply u_from_to_le, H4. lia. }
  assert (F3 : take (Z.to_nat (8 + len_of n + len_of schema)) bs = schema_record_body (name, schema)).
  { unfold bs. rewrite <-app_assoc, take_app_length' by lia. done. }
  assert (F4 : u_from_le (take 4 (drop (Z.to_nat (8 + len_of n + len_of schema)) bs)) = c).
  { rewrite (Hat _ (schema_record_body (name, schema)) (to_le 4 c ++ rest)) by first [lia|unfold bs; by rewrite <-app_assoc].
    rewrite take_app_length' by done. apply u_from_to_le, crc32_range. }
  assert (F5 : take (Z.to_nat (len_of n)) (drop 8 bs) = n).
  { rewrite (Hat 8%nat (l1 ++ l2) (n ++ schema ++ to_le 4 c ++ rest)) by first [rewrite length_app; lia|rewrite Hbs; by rewrite <-app_assoc].
    rewrite take_app_length' by (unfold len_of; lia). done. }
  assert (F6 : take (Z.to_nat (len_of schema)) (drop (Z.to_nat (8 + len_of n)) bs) = schema).
  { rewrite (Hat _ (l1 ++ l2 ++ n) (schema ++ to_le 4 c ++ rest))
      by first [rewrite !length_app; unfold len_of; lia|rewrite Hbs; by rewrite <-!app_assoc].
    rewrite take_app_length' by (unfold len_of; lia). done. }
  assert (F7 : drop (Z.to_nat (8 + len_of n + len_of schema + 4)) bs = rest).
  { apply (Hat _ (schema_record_body (name, schema) ++ to_le 4 c)); [done|]. rewrite length_app. lia. }
  rewrite scan_pass_S. cbv zeta. rewrite F1, F2, F3, F4, F5, F6, F7. fold c. rewrite Z.eqb_refl.
  rewrite (proj2 (Z.ltb_ge _ 8)), (proj2 (Z.eqb_neq _ 0)), (proj2 (Z.ltb_ge _ _)) by lia. cbn [orb negb].
  unfold n. unfold valid_str in Hv. by rewrite Hv, bytes_string_bytes.
Qed.

Lemma scan_region records fuel acc :
  Forall record_ok records -> total_size records < 2 ^ 32 -> (length records < fuel)%nat ->
  scan_pass crc32 fuel (region_bytes records) acc = Some (Ok (acc ++ records)).
Proof using crc32_range.
  intros Hok. revert fuel acc. induction Hok as [|r records Hr Hok IH]; intros fuel acc Htotal Hfuel.
  - destruct fuel; [lia|]. simpl. by rewrite app_nil_r.
  - destruct fuel as [|fuel]; [simpl in *; lia|]. cbn [total_size foldr length] in *. fold (total_size records) in Htotal.
    assert (0 <= total_size records) by (rewrite <-region_length; lia).
    assert (0 <= record_size r) by (rewrite <-record_length; lia).
    unfold region_bytes. cbn [fmap list_fmap concat]. rewrite scan_record by (done || lia).
    fold (region_bytes records). rewrite IH by lia. by rewrite <-app_assoc.
Qed.

(** A record with an empty name stops every scan. *)
Lemma scan_unnamed r rest fuel acc :
  r.1 = EmptyString -> scan_pass crc32 (S fuel) (record_bytes crc32 r ++ rest) acc = None.
Proof.
  intros Hr. rewrite scan_pass_S. pose proof (record_length r) as Hlen.
  assert (8 <= len_of (record_bytes crc32 r ++ rest)).
  { unfold len_of. rewrite length_app. unfold record_size, len_of in Hlen. lia. }
  rewrite (proj2 (Z.ltb_ge _ 8)) by lia. cbv zeta.
  assert (u_from_le (take 4 (record_bytes crc32 r ++ rest)) = 0) as ->; [|done].
  unfold record_bytes, schema_record_body. rewrite Hr, <-!app_assoc.
  rewrite take_app_length' by by rewrite to_le_length. reflexivity.
Qed.

Lemma scan_region_unnamed records fuel acc :
  Forall valid_record records -> Exists (fun r => r.1 = EmptyString) records ->
  total_size records < 2 ^ 32 -> (length records < fuel)%nat ->
  scan_pass crc32 fuel (region_bytes records) acc = None.
Proof using crc32_range.
  intros Hok. revert fuel acc. induction Hok as [|r records Hr Hok IH]; intros fuel acc Hex Htotal Hfuel.
  { by apply Exists_nil in Hex. }
  destruct fuel as [|fuel]; [simpl in *; lia|]. cbn [total_size foldr length] in *. fold (total_size records) in Htotal.
  unfold region_bytes. cbn [fmap list_fmap concat].
  destruct (decide (r.1 = EmptyString)) as [He|He]; [by apply scan_unnamed|].
  apply Exists_cons in Hex as [?|Hex]; [done|].
  assert (0 <= total_size records) by (rewrite <-region_length; lia).
  assert (0 <= record_size r) by (rewrite <-record_length; lia).
  rewrite scan_record by (try split; done || lia). fold (region_bytes records). apply IH; [done|lia|lia].
Qed.

(** ** Records as a map *)

Definition record_map (records : Schemas) : gmap string (list Z) := list_to_map records.

Lemma total_size_perm a b : a ≡ₚ b -> total_size a = total_size b.
Proof. induction 1; simpl; unfold total_size in *; simpl; lia. Qed.

Lemma total_size_map records : NoDup records.*1 -> total_size (map_to_list (record_map records)) = total_size records.
Proof. intros H. apply total_size_perm. by apply map_to_list_to_map. Qed.

Lemma find_record name records : snd <$> List.find (record_named name) records = record_map records !! name.
Proof.
  induction records as [|[k v] records IH]; [done|]. cbn [List.find record_map list_to_map foldr fst snd]. unfold record_named at 1.
  cbn [fst]. destruct (String.eqb_spec k name) as [->|Hne]; [by rewrite lookup_insert_eq|]. by rewrite lookup_insert_ne.
Qed.

Lemma put_record_map name bytes records : record_map (put_record name bytes records) = <[name := bytes]> (record_map records).
Proof.
  induction records as [|[k v] records IH]; [done|]. cbn [put_record]. unfold record_named at 1. cbn [fst].
  destruct (String.eqb_spec k name) as [->|Hne].
  - unfold record_map. cbn [list_to_map foldr fst snd]. by rewrite insert_insert_eq.
  - unfold record_map in *. cbn [list_to_map foldr fst snd]. rewrite IH. by apply insert_insert_ne.
Qed.

Lemma put_record_keys name bytes records :
  (put_record name bytes records).*1 = if bool_decide (name ∈ records.*1) then records.*1 else records.*1 ++ [name].
Proof.
  induction records as [|[k v] records IH]; [done|]. cbn [put_record]. unfold record_named at 1. cbn [fst].
  destruct (String.eqb_spec k name) as [->|Hne]; cbn [fmap list_fmap fst].
  - rewrite bool_decide_true by by apply list_elem_of_here. done.
  - rewrite IH. assert (Hin : name ∈ k :: records.*1 <-> name ∈ records.*1) by (rewrite elem_of_cons; naive_solver).
    rewrite (bool_decide_ext _ _ Hin). by destruct (bool_decide _).
Qed.

Lemma put_record_nodup name bytes records : NoDup records.*1 -> NoDup (put_record name bytes records).*1.
Proof.
  intros H. rewrite put_record_keys. destruct (bool_decide_reflect (name ∈ records.*1)); [done|].
  apply NoDup_app. split_and!; [done| |by apply NoDup_singleton]. intros x Hx Hin. apply list_elem_of_singleton in Hin as ->. done.
Qed.

Lemma put_record_ok (P : string * list Z -> Prop) name bytes records :
  Forall P records -> P (name, bytes) -> Forall P (put_record name bytes records).
Proof.
  intros Hall Hr. induction Hall as [|[k v] records Hk Hall IH]; [by apply Forall_singleton|]. cbn [put_record].
  unfold record_named. cbn [fst]. destruct (String.eqb_spec k name) as [->|]; constructor; done.
Qed.

Definition without (name : string) (records : Schemas) : Schemas := List.filter (fun r => negb (record_named name r)) records.

Lemma without_elem name records r : r ∈ without name records <-> r ∈ records /\ r.1 <> name.
Proof.
  unfold without. rewrite !list_elem_of_In, filter_In. unfold record_named.
  destruct (String.eqb_spec r.1 name); naive_solver.
Qed.

Lemma without_cons name k v records :
  without name ((k, v) :: records) =
    if String.eqb k name then without name records else (k, v) :: without name records.
Proof. unfold without. cbn [List.filter]. unfold record_named at 1. cbn [fst]. by destruct (String.eqb k name). Qed.

Lemma total_size_without name records : total_size (without name records) <= total_size records.
Proof.
  induction records as [|r records IH]; [done|]. unfold without in *. cbn [List.filter].
  pose proof (record_length r). destruct (negb _); unfold total_size in *; cbn [foldr]; lia.
Qed.

Lemma without_map name records : NoDup records.*1 ->
  record_map (without name records) = delete name (record_map records) /\ NoDup (without name records).*1.
Proof.
  induction records as [|[k v] records IH]; intros Hnd; [split; [symmetry; apply delete_empty|constructor]|].
  cbn [fmap list_fmap fst] in Hnd. apply NoDup_cons in Hnd as [Hk Hnd]. destruct (IH Hnd) as [Hm Hn].
  rewrite without_cons. destruct (String.eqb_spec k name) as [->|Hne].
  - split; [|done]. rewrite Hm. unfold record_map. cbn [list_to_map foldr fst snd]. by rewrite delete_insert_eq.
  - split.
    + unfold record_map in *. cbn [list_to_map foldr fst snd]. by rewrite Hm, delete_insert_ne.
    + cbn [fmap list_fmap fst]. constructor; [|done]. intros (r & -> & Hr)%list_elem_of_fmap.
      apply without_elem in Hr as [Hr _]. apply Hk. by apply list_elem_of_fmap_2.
Qed.

(** ** The registry *)

Record schemas_with (P : string * list Z -> Prop) (s : MappedSchemas) (records : Schemas) : Prop := {
  sk_region : exists tail, ms_region s = region_bytes records ++ tail;
  sk_length : len_of (ms_region s) = SCHEMA_REGION_CAPACITY;
  sk_next : ms_next_offset s = Z.of_nat SCHEMA_HEADER + total_size records;
  sk_records : Forall P records;
  sk_keys : NoDup records.*1;
  sk_count : 0 <= ms_count s < 2 ^ 32;
  sk_generation : 0 <= ms_generation s < 2 ^ 32
}.

(** Every record has a name. *)
Definition schemas_ok := schemas_with record_ok.

Lemma fits_bound P s records : schemas_with P s records -> 0 <= total_size records <= SCHEMA_REGION_CAPACITY.
Proof.
  intros [[tail Ht] Hl _ _ _ _ _]. rewrite <-Hl, <-region_length, Ht. unfold len_of. rewrite length_app. lia.
Qed.

Lemma records_short records : (length records <= length (region_bytes records))%nat.
Proof.
  induction records as [|r records IH]; [done|]. unfold region_bytes in *. cbn [fmap list_fmap concat length].
  rewrite length_app. pose proof (record_length r). unfold record_size, len_of in *. lia.
Qed.

Lemma scan_records_ok s records : schemas_ok s records -> scan_records crc32 s = Ok records.
Proof using crc32_range.
  intros Hs. pose proof (fits_bound _ _ _ Hs). destruct Hs as [[tail Ht] Hl Hn Hok _ _ _]. unfold scan_records.
  assert (Hused : take (Z.to_nat (ms_next_offset s) - SCHEMA_HEADER) (ms_region s) = region_bytes records).
  { rewrite Hn, Ht, take_app_length'; [done|]. pose proof (region_length records). lia. }
  rewrite Hused, scan_region; [done|done|unfold SCHEMA_REGION_CAPACITY in *; lia|]. pose proof (records_short records). lia.
Qed.

Lemma scan_records_unnamed s records : schemas_with valid_record s records ->
  Exists (fun r => r.1 = EmptyString) records -> scan_records crc32 s = Err WouldBlock.
Proof using crc32_range.
  intros Hs Hex. pose proof (fits_bound _ _ _ Hs). destruct Hs as [[tail Ht] Hl Hn Hok _ _ _]. unfold scan_records.
  assert (Hused : take (Z.to_nat (ms_next_offset s) - SCHEMA_HEADER) (ms_region s) = region_bytes records).
  { rewrite Hn, Ht, take_app_length'; [done|]. pose proof (region_length records). lia. }
  rewrite Hused, scan_region_unnamed; [done|done|done|unfold SCHEMA_REGION_CAPACITY in *; lia|].
  pose proof (records_short records). lia.
Qed.

Lemma rewrite_ok P Q s records records' :
  schemas_with P s records -> Forall Q records' -> NoDup records'.*1 ->
  if SCHEMA_REGION_CAPACITY <? total_size records' then rewrite_schemas crc32 s records' = (s, Err Other)
  else exists s', rewrite_schemas crc32 s records' = (s', Ok tt) /\ schemas_with Q s' records'.
Proof.
  intros Hs Hok Hnd. pose proof (fits_bound _ _ _ Hs) as Hold. destruct Hs as [[tail Ht] Hl Hn _ _ Hc Hg].
  pose proof (region_length records') as Hlen'. unfold rewrite_schemas. rewrite Hl.
  destruct (SCHEMA_REGION_CAPACITY <? total_size records') eqn:Hfull; zb.
  { rewrite (proj2 (Z.ltb_lt _ _)) by lia. done. }
  rewrite !(proj2 (Z.ltb_ge _ _)) by lia. cbn [orb]. eexists. split; [reflexivity|]. unfold rewrite_stores. rewrite !foldl_app.
  set (s1 := foldl apply_store s _).
  assert (Hs1 : ms_count s1 = ms_count s /\ ms_generation s1 = ms_generation s /\ len_of (ms_region s1) = SCHEMA_REGION_CAPACITY).
  { unfold s1. destruct (_ <? _)%nat; [|done]. split_and!; [done..|]. cbn [foldl apply_store ms_region]. unfold len_of in *.
    rewrite write_at_length; [done|]. rewrite length_replicate, Hn. unfold SCHEMA_REGION_CAPACITY in *. lia. }
  destruct Hs1 as (Hc1 & Hg1 & Hl1). unfold len_of in Hl1. unfold SCHEMA_REGION_CAPACITY in Hl1, Hfull.
  rewrite apply_records by lia. cbn [foldl apply_store]. rewrite Hg1.
  split; cbn [ms_region ms_next_offset ms_count ms_generation].
  - by eexists.
  - unfold len_of. rewrite write_at_length by lia. done.
  - unfold wrap32. apply Z.mod_small. unfold SCHEMA_HEADER. lia.
  - done.
  - done.
  - unfold wrap32. by apply Z.mod_pos_bound.
  - unfold wrap32. by apply Z.mod_pos_bound.
Qed.

Lemma schemas_file_map s :
  0 <= ms_count s < 2 ^ 32 -> 0 <= ms_next_offset s < 2 ^ 32 -> 0 <= ms_generation s < 2 ^ 32 ->
  map_schemas (schemas_file s) = Ok s.
Proof.
  intros Hc Hn Hg.
  assert (H4 : forall x, 0 <= x < 2 ^ 32 -> unsigned 4 x) by done.
  set (p1 := SCHEMA_MAGIC). set (p2 := p1 ++ to_le 4 SCHEMA_VERSION). set (p3 := p2 ++ to_le 4 (ms_count s)).
  set (p4 := p3 ++ to_le 4 (ms_next_offset s)). set (p5 := p4 ++ to_le 4 (ms_generation s)).
  set (r4 := to_le 4 (ms_generation s) ++ ms_region s). set (r3 := to_le 4 (ms_next_offset s) ++ r4).
  set (r2 := to_le 4 (ms_count s) ++ r3).
  assert (F1 : schemas_file s = p1 ++ to_le 4 SCHEMA_VERSION ++ r2) by done.
  assert (F2 : schemas_file s = p2 ++ r2) by (rewrite F1; unfold p2; by rewrite <-app_assoc).
  assert (F3 : schemas_file s = p3 ++ r3) by (rewrite F2; unfold p3; by rewrite <-app_assoc).
  assert (F4 : schemas_file s = p4 ++ r4) by (rewrite F3; unfold p4; by rewrite <-app_assoc).
  assert (F5 : schemas_file s = p5 ++ ms_region s) by (rewrite F4; unfold p5; by rewrite <-app_assoc).
  assert (L2 : length p2 = 12%nat) by done.
  assert (L3 : length p3 = 16%nat) by (unfold p3; by rewrite length_app, to_le_length, L2).
  assert (L4 : length p4 = 20%nat) by (unfold p4; by rewrite length_app, to_le_length, L3).
  assert (L5 : length p5 = 24%nat) by (unfold p5; by rewrite length_app, to_le_length, L4).
  unfold map_schemas. rewrite (proj2 (Nat.ltb_ge _ _)) by (rewrite F5, length_app, L5; apply Nat.le_add_r).
  rewrite bool_decide_true by done. cbn [negb].
  rewrite (field_at 8 4 p1 SCHEMA_VERSION r2), (field_at 12 4 p2 (ms_count s) r3), (field_at 16 4 p3 (ms_next_offset s) r4),
    (field_at 20 4 p4 (ms_generation s) (ms_region s)); try done; try (apply H4).
  unfold SCHEMA_HEADER. rewrite F5, drop_app_length' by done. by destruct s.
Qed.

Lemma schemas_ok_map P s records : schemas_with P s records -> map_schemas (schemas_file s) = Ok s.
Proof.
  intros Hs. pose proof (fits_bound _ _ _ Hs) as Hfit. destruct Hs as [_ _ Hn _ _ Hc Hg].
  apply schemas_file_map; [done| |done]. rewrite Hn. unfold SCHEMA_HEADER, SCHEMA_REGION_CAPACITY in *. lia.
Qed.

Lemma schemas_weaken (P Q : string * list Z -> Prop) s records :
  (forall r, P r -> Q r) -> schemas_with P s records -> schemas_with Q s records.
Proof. intros HPQ []. split; try done. by eapply Forall_impl. Qed.

Definition op_stores (P : string * list Z -> Prop) (op : LazyOp) : Prop :=
  match op with LzSet name bytes => P (name, bytes) | _ => True end.

Lemma lazy_step_refines (P : string * list Z -> Prop) s records op :
  (forall r, record_ok r -> P r) -> schemas_ok s records -> op_stores P op ->
  exists s' records' a, lazy_step crc32 s op = (s', a) /\ map_step (record_map records) op = (record_map records', a) /\
    schemas_with P s' records'.
Proof using crc32_range.
  intros HP Hs Hop. pose proof (scan_records_ok _ _ Hs) as Hscan. pose proof (schemas_weaken _ _ _ _ HP Hs) as Hs0.
  destruct op as [name bytes|name|name|]; cbn [lazy_step map_step].
  - unfold set_schema, update_schema. rewrite Hscan, <-put_record_map, total_size_map by by apply put_record_nodup, Hs.
    pose proof (rewrite_ok _ P s records (put_record name bytes records) Hs
      (put_record_ok _ _ _ _ (sk_records _ _ _ Hs0) Hop) (put_record_nodup _ _ _ (sk_keys _ _ _ Hs))) as Hrw.
    destruct (_ <? _); [rewrite Hrw; by eexists s, records, _|].
    destruct Hrw as (s' & -> & Hs'). by eexists s', _, _.
  - unfold remove_schema. rewrite Hscan. fold (without name records).
    destruct (without_map name records (sk_keys _ _ _ Hs)) as [Hm Hnd].
    pose proof (rewrite_ok _ P s records (without name records) Hs) as Hrw.
    pose proof (total_size_without name records) as Hsmall.
    pose proof (fits_bound _ _ _ Hs). rewrite (proj2 (Z.ltb_ge _ _)) in Hrw by lia.
    destruct Hrw as (s' & -> & Hs'); [|done|].
    { apply Forall_forall. intros r Hr. apply without_elem in Hr as [Hr _].
      by apply (proj1 (Forall_forall _ _) (sk_records _ _ _ Hs0)). }
    rewrite <-Hm. by eexists s', _, _.
  - unfold schema_bytes. rewrite Hscan. cbn [result_bind]. rewrite find_record. by eexists s, records, _.
  - rewrite (schemas_ok_map _ _ _ Hs). by eexists s, records, _.
Qed.

(** *** The empty name *)

Lemma unnamed_in_map records :
  NoDup records.*1 ->
  is_Some (record_map records !! EmptyString) <-> Exists (fun r => r.1 = EmptyString) records.
Proof.
  intros Hnd. unfold record_map. rewrite Exists_exists. split.
  - intros [v Hv]. apply elem_of_list_to_map in Hv; [|done]. by exists (EmptyString, v).
  - intros ([k v] & Hin & Hk). cbn in Hk. subst k. exists v. by apply elem_of_list_to_map.
Qed.

Lemma named_schemas_ok s records : schemas_with valid_record s records ->
  ~ Exists (fun r => r.1 = EmptyString) records -> schemas_ok s records.
Proof.
  intros [] Hn. split; try done. apply Forall_forall. intros r Hr.
  split; [by apply (proj1 (Forall_forall _ _) sk_records0)|]. intros He. apply Hn, Exists_exists. by exists r.
Qed.

(** Names of any length, the empty one included. *)
Lemma schemas_step_refines s records op : schemas_with valid_record s records -> op_stores valid_record op ->
  exists s' records' a, lazy_step crc32 s op = (s', a) /\ schemas_step (record_map records) op = (record_map records', a) /\
    schemas_with valid_record s' records'.
Proof using crc32_range.
  intros Hs Hop. unfold schemas_step. destruct (bool_decide (is_Some (record_map records !! EmptyString))) eqn:He.
  - apply bool_decide_eq_true, unnamed_in_map in He; [|by apply Hs].
    pose proof (scan_records_unnamed s records Hs He) as Hscan. exists s, records.
    destruct op; cbn [lazy_step blocked_answer]; unfold set_schema, update_schema, remove_schema, schema_bytes;
      rewrite ?Hscan; [by eexists..|]. rewrite (schemas_ok_map _ _ _ Hs). by eexists.
  - apply bool_decide_eq_false in He. rewrite unnamed_in_map in He by apply Hs.
    apply lazy_step_refines; [by intros r []|by apply named_schemas_ok|done].
Qed.

Lemma lazy_run_refines s records ops : schemas_with valid_record s records -> Forall (op_stores valid_record) ops ->
  lazy_run crc32 s ops = schemas_run (record_map records) ops.
Proof using crc32_range.
  revert s records. induction ops as [|op ops IH]; intros s records Hs Hops; [done|].
  apply Forall_cons in Hops as [Hop Hops].
  destruct (schemas_step_refines s records op Hs Hop) as (s' & records' & a & H1 & H2 & Hs').
  cbn [lazy_run schemas_run]. rewrite H1, H2. by rewrite (IH s' records').
Qed.

Lemma empty_schemas_ok P region :
  len_of region = SCHEMA_REGION_CAPACITY -> schemas_with P (mkSchemas 0 (Z.of_nat SCHEMA_HEADER) 0 region) [].
Proof. intros H. split; cbn [ms_region ms_next_offset ms_count ms_generation]; [by eexists|done|done|constructor|constructor|lia|lia]. Qed.

Lemma new_schemas_ok P : schemas_with P new_schemas [].
Proof.
  apply empty_schemas_ok. unfold len_of. rewrite length_replicate. apply Z2Nat.id, Z.mul_nonneg_nonneg; lia.
Qed.

(** ** A rewrite cut short *)

Lemma u_from_le_zeros n : u_from_le (replicate n 0) = 0.
Proof. induction n as [|n IH]; [done|]. change (0 + 2 ^ 8 * u_from_le (replicate n 0) = 0). by rewrite IH. Qed.

Lemma scan_zeros n fuel : (8 <= n)%nat -> (0 < fuel)%nat -> scan_pass crc32 fuel (replicate n 0) [] = None.
Proof.
  intros Hn Hf. destruct fuel as [|fuel]; [lia|]. rewrite scan_pass_S.
  rewrite (proj2 (Z.ltb_ge _ 8)) by (unfold len_of; rewrite length_replicate; lia). cbv zeta.
  by rewrite take_replicate, u_from_le_zeros.
Qed.

(** The mapping after the first store of a rewrite, and nothing else of it. *)
Definition cut_rewrite (s : MappedSchemas) (records : Schemas) : MappedSchemas :=
  foldl apply_store s (take 1 (rewrite_stores crc32 s records)).

Lemma cut_rewrite_scan s records records' :
  schemas_ok s records -> records <> [] ->
  scan_records crc32 (cut_rewrite s records') = Err WouldBlock /\
  map_schemas (schemas_file (cut_rewrite s records')) = Ok (cut_rewrite s records').
Proof.
  intros Hs Hne. pose proof (fits_bound _ _ _ Hs) as Hfit. destruct Hs as [_ Hl Hn _ _ Hc Hg].
  assert (Hsize : 12 <= total_size records).
  { destruct records as [|r records]; [done|]. cbn [total_size foldr]. fold (total_size records).
    pose proof (region_length records). unfold record_size, len_of in *. lia. }
  unfold SCHEMA_REGION_CAPACITY, len_of in *.
  set (old := (Z.to_nat (ms_next_offset s) - SCHEMA_HEADER)%nat).
  assert (Hold : Z.of_nat old = total_size records) by (unfold old; rewrite Hn; lia).
  assert (Hcut : cut_rewrite s records' =
            mkSchemas (ms_count s) (ms_next_offset s) (ms_generation s) (write_at 0 (replicate old 0) (ms_region s))).
  { unfold cut_rewrite, rewrite_stores. fold old. rewrite (proj2 (Nat.ltb_lt 0 old)) by lia. reflexivity. }
  rewrite Hcut. split.
  - unfold scan_records. cbn [ms_next_offset ms_region]. fold old.
    assert (Hused : take old (write_at 0 (replicate old 0) (ms_region s)) = replicate old 0).
    { unfold write_at. rewrite take_0. simpl. apply take_app_length'. by rewrite length_replicate. }
    rewrite Hused, scan_zeros by (rewrite ?length_replicate; lia). done.
  - apply schemas_file_map; cbn [ms_count ms_next_offset ms_generation]; [done| |done]. unfold SCHEMA_HEADER in *. lia.
Qed.

End contents.

(** ** Properties *)

(** C32 Every sequence of CREATE (record a schema), DROP (remove it), reads and reopenings of the lazy schema
    registry, for names of any length and schemas of any bytes, answers as a finite map from table
    names to schema bytes does, until the empty name is recorded: a call fails when the set of
    records no longer fits the 256 KiB region, and in no other way; and once a schema
    is recorded under the empty name, which CREATE TABLE accepts, every call but reopening
    answers [WouldBlock] for good.  Sequential checksummed records, rewritten in place as a whole,
    are read back exactly, by this process and by the next one.  (The names are UTF-8, as
    every Rust string is; a process that dies inside a rewrite is left out, see
    [interrupted_rewrite_blocks].) *)
Theorem lazy_schemas_are_a_map (crc32 : list Z -> Z) ops :
  (forall bytes, unsigned 4 (crc32 bytes)) -> Forall (op_stores valid_record) ops ->
  lazy_run crc32 new_schemas ops = schemas_run ∅ ops.
Proof. intros Hcrc Hops. apply (lazy_run_refines crc32 Hcrc new_schemas [] ops); [apply new_schemas_ok|done]. Qed.

Definition demo_lazy : list LazyOp :=
  [LzSet "orders" [1; 2; 3]; LzSet "users" [7]; LzReopen; LzSet "orders" [9; 9]; LzRemove "users"; LzRead "orders";
   LzRead "users"; LzSet EmptyString [1]; LzReopen; LzRead "orders"; LzRemove EmptyString].

Lemma lazy_schemas_are_a_map_witness :
  lazy_run sum32 new_schemas demo_lazy =
    [LzDone (Ok tt); LzDone (Ok tt); LzDone (Ok tt); LzDone (Ok tt); LzDone (Ok tt); LzBytes (Ok (Some [9; 9]));
     LzBytes (Ok None); LzDone (Ok tt); LzDone (Ok tt); LzBytes (Err WouldBlock); LzDone (Err WouldBlock)].
Proof.
  etransitivity; [apply (lazy_schemas_are_a_map sum32 demo_lazy sum32_range)|vm_compute; reflexivity].
  unfold demo_lazy. repeat apply Forall_cons_2; try apply Forall_nil_2; try exact I; done.
Defined.

(** A process that dies after the first store of a rewrite (the store that zeroes the old records, before
    the header is published) leaves a registry that can never be used again: the file still maps,
    but every scan of it ends in [WouldBlock] ("being modified concurrently"), and so do recording a
    schema, removing one and reading one.  Nothing rebuilds the records. *)
Theorem interrupted_rewrite_blocks (crc32 : list Z -> Z) s records records' :
  schemas_ok crc32 s records -> records <> [] ->
  let s' := cut_rewrite crc32 s records' in
  map_schemas (schemas_file s') = Ok s' /\
  (forall name bytes, set_schema crc32 s' name bytes = (s', Err WouldBlock)) /\
  (forall name, remove_schema crc32 s' name = (s', Err WouldBlock)) /\
  (forall name, schema_bytes crc32 s' name = Err WouldBlock).
Proof.
  intros Hs Hne s'. destruct (cut_rewrite_scan crc32 s records records' Hs Hne) as [Hscan Hmap].
  split; [done|]. unfold set_schema, update_schema, remove_schema, schema_bytes. fold s' in Hscan. by rewrite Hscan.
Qed.

Lemma interrupted_rewrite_blocks_witness :
  exists s, schemas_ok sum32 s [("users"%string, [7])] /\
    schema_bytes sum32 (cut_rewrite sum32 s []) "users" = Err WouldBlock.
Proof.
  destruct (rewrite_ok sum32 record_ok record_ok new_schemas [] [("users"%string, [7])] (new_schemas_ok sum32 _)) as (s & _ & Hs).
  - repeat constructor. discriminate.
  - cbn [fmap list_fmap fst]. apply NoDup_singleton.
  - exists s. split; [exact Hs|].
    apply (interrupted_rewrite_blocks sum32 s _ [] Hs). discriminate.
Defined.
