(* ===== verification/TablePath.v ===== *)
(** * The name and the file of a table reference

    Models the two readings of the table text of a statement.  [bare_name] of
    [storage/table_catalog.rs] gives the name that the registries use;
    [resolve_table_path] of [query/executor/joins.rs] gives the file, whose stem is the text with
    every other character than letters, digits, [_] and [-] replaced, cut at 200 bytes.  The two
    differ for quoted names with spaces or punctuation.

    A character is the list of its UTF-8 bytes.  Which characters beyond ASCII are alphanumeric is
    a Unicode table outside the program, the parameter of the class [CharClasses].  Temporary
    tables, the directory of a qualified name and in-memory paths are left out; [default] is the
    file of that name, as it is unless the session was opened on another table's file. *)
From Stdlib Require Import Ascii.
From S2P Require Import Prelude Bytes Scan.
Local Open Scope Z_scope.
Local Open Scope apex_scope.

Class CharClasses := { non_ascii_alphanumeric : list Z -> bool }.

(** [db."t"] is [t]. *)
Definition bare_table_name (name : string) : string :=
  last_segment "."%char (trim_matches "`"%char (trim_matches quote_char name)).

(** A byte inside a character. *)
Definition continuation (b : Z) : bool := (128 <=? b) && (b <? 192).

(** [str::chars] *)
Fixpoint utf8_chars (bytes : list Z) : list (list Z) :=
  match bytes with
  | [] => []
  | b :: rest =>
      match utf8_chars rest with
      | (b2 :: c) :: cs => if continuation b2 then (b :: b2 :: c) :: cs else [b] :: (b2 :: c) :: cs
      | _ => [[b]]
      end
  end.

(** [char::is_ascii_alphanumeric] *)
Definition is_ascii_alphanumeric (b : Z) : bool :=
  ((48 <=? b) && (b <=? 57)) || ((65 <=? b) && (b <=? 90)) || ((97 <=? b) && (b <=? 122)).

(** [char::is_whitespace] *)
Definition bytes_are_whitespace (c : list Z) : bool :=
  match c with
  | [b] => ((9 <=? b) && (b <=? 13)) || (b =? 32)
  | [a; b] => (a =? 0xC2) && ((b =? 0x85) || (b =? 0xA0))
  | [a; b; d] =>
      ((a =? 0xE1) && (b =? 0x9A) && (d =? 0x80))
      || ((a =? 0xE2) && (b =? 0x80)
          && (((0x80 <=? d) && (d <=? 0x8A)) || (d =? 0xA8) || (d =? 0xA9) || (d =? 0xAF)))
      || ((a =? 0xE2) && (b =? 0x81) && (d =? 0x9F)) || ((a =? 0xE3) && (b =? 0x80) && (d =? 0x80))
  | _ => false
  end.

Fixpoint trim_leading (cs : list (list Z)) : list (list Z) :=
  match cs with c :: rest => if bytes_are_whitespace c then trim_leading rest else cs | [] => [] end.

(** [str::trim] *)
Definition trim_bytes (bytes : list Z) : list Z := concat (rev (trim_leading (rev (trim_leading (utf8_chars bytes))))).

(** What follows the first dot. *)
Fixpoint after_dot (bytes : list Z) : option (list Z) :=
  match bytes with
  | [] => None
  | b :: rest => if b =? 46 then Some rest else after_dot rest
  end.

(** [&safe[..200]] of a longer text, which panics inside a character. *)
Definition truncated (bytes : list Z) : option (list Z) :=
  if (200 <? length bytes)%nat then
    match bytes !! 200%nat with
    | Some b => if continuation b then None else Some (take 200 bytes)
    | None => None
    end
  else Some bytes.

(** [Path::file_stem] of the table file: [.apex] is a name without an extension. *)
Definition file_stem (stem : string) : string := if bool_decide (stem = EmptyString) then ".apex"%string else stem.

Section path.
Context {U : CharClasses}.

(** [char::is_alphanumeric] *)
Definition char_is_alphanumeric (c : list Z) : bool :=
  match c with [b] => is_ascii_alphanumeric b | _ => non_ascii_alphanumeric c end.

Definition safe_char (c : list Z) : list Z :=
  if char_is_alphanumeric c || bool_decide (c = [95]) || bool_decide (c = [45]) then c else [95].

Definition safe_text (bytes : list Z) : list Z := utf8_chars bytes ≫= safe_char.

(** The file name of a table text before [.apex]; [None] where the code panics.  The first cut is
    that of the look among the temporary tables, made for every text. *)
Definition resolve_stem (table : string) : option string :=
  let clean_name := string_bytes (trim_matches "`"%char (trim_matches quote_char table)) in
  match truncated (safe_text clean_name) with
  | None => None
  | Some truncated_check =>
      match after_dot clean_name with
      | Some tbl_name => bytes_string <$> truncated (safe_text (trim_bytes tbl_name))
      | None => Some (bytes_string truncated_check)
      end
  end.

End path.

(** ** Plain names *)

(** Letters, digits, [_] and [-]. *)
Definition plain_byte (b : Z) : bool := is_ascii_alphanumeric b || (b =? 95) || (b =? 45).
Definition plain_name (name : string) : bool :=
  forallb plain_byte (string_bytes name) && (length (string_bytes name) <=? 200)%nat.

Lemma plain_byte_ascii b : plain_byte b = true -> b < 128 /\ b <> 46 /\ b <> 34 /\ b <> 96.
Proof. unfold plain_byte, is_ascii_alphanumeric. rewrite !orb_true_iff, !andb_true_iff, !Z.leb_le, !Z.eqb_eq. lia. Qed.

Lemma ascii_chars bytes : Forall (fun b => b < 128) bytes -> utf8_chars bytes = (fun b => [b]) <$> bytes.
Proof.
  induction 1 as [|b bytes Hb Hall IH]; [done|]. cbn [utf8_chars]. rewrite IH.
  destruct bytes as [|b2 bytes]; [done|]. cbn [fmap list_fmap]. apply Forall_cons in Hall as [Hb2 _].
  unfold continuation. by rewrite (proj2 (Z.leb_gt 128 b2)).
Qed.

Section plain.
Context {U : CharClasses}.

Lemma plain_safe bytes : forallb plain_byte bytes = true -> safe_text bytes = bytes.
Proof.
  intros Hp. rewrite forallb_forall in Hp. unfold safe_text. rewrite ascii_chars.
  - induction bytes as [|b bytes IH]; [done|]. cbn [fmap list_fmap]. rewrite bind_cons, IH by (intros; apply Hp; by right).
    specialize (Hp b (or_introl eq_refl)). unfold safe_char, char_is_alphanumeric. unfold plain_byte in Hp.
    rewrite !orb_true_iff, !Z.eqb_eq in Hp. destruct Hp as [[-> | ->] | ->]; [done|..]; by vm_compute.
  - apply Forall_forall. intros b Hb%list_elem_of_In%Hp%plain_byte_ascii. lia.
Qed.

Lemma rev_app_rev a b : String.rev_app (String.rev_app a b) EmptyString = String.rev_app b a.
Proof. revert b. induction a as [|c a IH]; intros b; [done|]. cbn [String.rev_app]. by rewrite IH. Qed.

Lemma has_char_rev_app c a b : has_char c (String.rev_app a b) = has_char c a || has_char c b.
Proof.
  revert b. induction a as [|d a IH]; intros b; [done|]. cbn [String.rev_app has_char]. rewrite IH. cbn [has_char].
  by destruct (Ascii.eqb d c), (has_char c a), (has_char c b).
Qed.

Lemma trim_start_free c s : has_char c s = false -> Scan.trim_start c s = s.
Proof. destruct s as [|d s]; [done|]. cbn. by destruct (Ascii.eqb d c). Qed.

Lemma trim_matches_free c s : has_char c s = false -> trim_matches c s = s.
Proof.
  intros Hs. unfold trim_matches. rewrite (trim_start_free c s Hs), trim_start_free.
  - unfold String.rev. by rewrite rev_app_rev.
  - unfold String.rev. rewrite has_char_rev_app, Hs. done.
Qed.

Lemma last_segment_free c s : has_char c s = false -> last_segment c s = s.
Proof. destruct s as [|d s]; [done|]. cbn. intros [Hd Hs]%orb_false_iff. by rewrite Hs, Hd. Qed.

Lemma plain_free c s :
  plain_byte (Z.of_N (N_of_ascii c)) = false -> forallb plain_byte (string_bytes s) = true -> has_char c s = false.
Proof.
  intros Hc. induction s as [|d s IH]; [done|]. cbn [string_bytes forallb has_char]. intros [Hd Hs]%andb_true_iff.
  rewrite IH by done. destruct (Ascii.eqb_spec d c) as [->|]; [congruence|done].
Qed.

Lemma dotless_plain bytes : forallb plain_byte bytes = true -> after_dot bytes = None.
Proof.
  induction bytes as [|b bytes IH]; [done|]. cbn [forallb after_dot]. intros [Hb Hs]%andb_true_iff.
  apply plain_byte_ascii in Hb. rewrite (proj2 (Z.eqb_neq b 46)) by lia. by apply IH.
Qed.

(** The file of a plain name is named after the table. *)
Lemma plain_name_stem name : plain_name name = true -> resolve_stem name = Some name /\ bare_table_name name = name.
Proof.
  intros [Hp Hl%Nat.leb_le]%andb_true_iff. unfold resolve_stem, bare_table_name.
  assert (Hfree : forall c, plain_byte (Z.of_N (N_of_ascii c)) = false -> has_char c name = false).
  { intros c Hc. by apply plain_free. }
  rewrite (trim_matches_free quote_char), (trim_matches_free "`"%char), last_segment_free by (apply Hfree; by vm_compute).
  unfold truncated. rewrite !plain_safe, dotless_plain, (proj2 (Nat.ltb_ge _ _)) by done. by rewrite bytes_string_bytes.
Qed.

End plain.

(** ** Readings of some texts *)

Definition ascii_only : CharClasses := {| non_ascii_alphanumeric _ := false |}.

(** A quoted name with a space is registered as it is, under a file of another name, which is also
    that of the name with an underscore. *)
Example spaced_name_stem :
  bare_table_name "my table" = "my table"%string /\ resolve_stem (U:=ascii_only) "my table" = Some "my_table"%string /\
  resolve_stem (U:=ascii_only) "my_table" = Some "my_table"%string.
Proof. by vm_compute. Qed.

(** The dots of a qualified name: the last one for the name, the first one for the file. *)
Example qualified_stem :
  bare_table_name "db.orders" = "orders"%string /\ resolve_stem (U:=ascii_only) "db.orders" = Some "orders"%string /\
  bare_table_name "db.a.b" = "b"%string /\ resolve_stem (U:=ascii_only) "db.a.b" = Some "a_b"%string /\
  bare_table_name "db. orders" = " orders"%string /\ resolve_stem (U:=ascii_only) "db. orders" = Some "orders"%string.
Proof. by vm_compute. Qed.

(** A name beyond 200 bytes shares the file of its first 200. *)
Example long_name_stem : forall c : CharClasses, resolve_stem (bytes_string (replicate 250 97)) = Some (bytes_string (replicate 200 97)).
Proof. intros c. by vm_compute. Qed.

(** A long name of letters of two bytes each, after one of one byte, is cut inside a letter. *)
Example cut_inside_a_character :
  resolve_stem (U:={| non_ascii_alphanumeric _ := true |}) (bytes_string (97 :: concat (replicate 120 [0xC3; 0xA9]))) = None.
Proof. by vm_compute. Qed.
