(* ===== verification/TableDdl.v ===== *)
(** * CREATE, DROP and ALTER of lazily materialized tables

    Models the table statements of [query/executor/ddl.rs] on a database directory and what they
    call in [storage/table_catalog.rs] beyond [Catalog] and [LazySchemas]: the schema built from
    the column definitions, the materialization of a table file on first access, and the deferred
    deletion of dropped files.  A directory is its registry, its schema registry, and for each
    table file the fingerprint (modification time and length) and the schema of its footer.

    In-memory tables, the full-text state of a table and its epoch are left out; ADD COLUMN on a
    table whose file exists rewrites that file and is not modelled.  A panic while a schema is
    decoded is the error [Other]. *)
From Stdlib Require Import Ascii.
From S2P Require Import Prelude Values Bytes Columns Scan Schema SchemaFacts SchemaRoundTrip Catalog LazySchemas TablePath.
Local Open Scope Z_scope.
Local Open Scope apex_scope.

#[global] Instance DefaultValue_eq_dec : EqDecision DefaultValue.
Proof. solve_decision. Defined.
#[global] Instance ColumnConstraints_eq_dec : EqDecision ColumnConstraints.
Proof. solve_decision. Defined.

(** ** Column definitions *)

Inductive DefaultValueFunction := FnCurrentDate | FnCurrentTimestamp | FnUnixTimestamp.

Inductive ColumnConstraintKind (J : Type) :=
| CkNotNull
| CkPrimaryKey
| CkUnique
| CkDefault (v : Value J)
| CkDefaultFunction (f : DefaultValueFunction)
| CkCheck (sql : string)
| CkForeignKey (ref_table ref_column : string)
| CkAutoincrement.
Arguments CkNotNull {J}.
Arguments CkPrimaryKey {J}.
Arguments CkUnique {J}.
Arguments CkDefault {J} v.
Arguments CkDefaultFunction {J} f.
Arguments CkCheck {J} sql.
Arguments CkForeignKey {J} ref_table ref_column.
Arguments CkAutoincrement {J}.

Record ColumnDef (J : Type) := mkColumnDef {
  cd_name : string;
  cd_data_type : DataType;
  cd_constraints : list (ColumnConstraintKind J);
  cd_decimal_params : option (Z * Z)
}.
Arguments mkColumnDef {J} _ _ _ _.
Arguments cd_name {J} _.
Arguments cd_data_type {J} _.
Arguments cd_constraints {J} _.
Arguments cd_decimal_params {J} _.

(** [iter().find_map(f)] *)
Definition find_map {A B} (f : A -> option B) (l : list A) : option B := head (omap f l).

Section columns.
Context {J : Type}.
Implicit Types (k : ColumnConstraintKind J) (c : ColumnDef J).

Definition default_of k : option DefaultValue :=
  match k with
  | CkDefault v =>
      Some match v with
           | VInt64 n => DvInt64 n
           | VFloat64 f => DvFloat64 f
           | VString s => DvString s
           | VBool b => DvBool b
           | VDate d => DvDate d
           | VTimestamp t => DvTimestamp t
           | _ => DvNull
           end
  | CkDefaultFunction FnCurrentDate => Some DvCurrentDate
  | CkDefaultFunction FnCurrentTimestamp => Some DvCurrentTimestamp
  | CkDefaultFunction FnUnixTimestamp => Some DvUnixTimestamp
  | _ => None
  end.

Definition check_of k : option string := match k with CkCheck sql => Some sql | _ => None end.

Definition foreign_key_of k : option (string * string) :=
  match k with CkForeignKey t col => Some (t, col) | _ => None end.

Definition constraints_of c : ColumnConstraints :=
  let ks := cd_constraints c in
  mkConstraints
    (existsb (fun k => match k with CkNotNull => true | _ => false end) ks)
    (existsb (fun k => match k with CkPrimaryKey => true | _ => false end) ks)
    (existsb (fun k => match k with CkUnique => true | _ => false end) ks)
    (find_map default_of ks) (find_map check_of ks) (find_map foreign_key_of ks)
    (existsb (fun k => match k with CkAutoincrement => true | _ => false end) ks).

(** The stored type of a column and its parameters; [enabled] is [sql_decimal_enabled()]. *)
Definition stored_type (enabled : bool) c : Result (ColumnType * option LogicalType) :=
  let? column_type := ColumnType_from_data_type (cd_data_type c) in
  let decimal_params := if enabled then cd_decimal_params c else None in
  Ok match decimal_params with
     | Some (precision, scale) => (TDecimal128, Some (LtDecimal precision scale))
     | None => (column_type, if bool_decide (column_type = TTimestampTz) then Some (LtTimestampTz 0) else None)
     end.

Definition set_if_some (s : OnDemandSchema) (idx : nat) (logical : option LogicalType) : OnDemandSchema :=
  match logical with Some _ => set_logical_type s idx logical | None => s end.

(** One column of [build_table_schema]. *)
Definition define_column (enabled : bool) (s : Result OnDemandSchema) c : Result OnDemandSchema :=
  let? s := s in
  match get_index s (cd_name c) with
  | Some _ => Err AlreadyExists
  | None =>
      let? t := stored_type enabled c in
      let '(s, idx) := add_column s (cd_name c) t.1 in
      let s := set_if_some s idx t.2 in
      Ok (set_constraints s (<[idx := constraints_of c]> (os_constraints s)))
  end.

Definition build_table_schema (enabled : bool) (columns : list (ColumnDef J)) : Result OnDemandSchema :=
  foldl (define_column enabled) (Ok OnDemandSchema_new) columns.

End columns.

(** ** The directory *)

Record TableFile := mkTableFile {
  tf_fingerprint : Z;
  tf_schema : OnDemandSchema
}.

(** The table files are those of one directory, by the stems of their names ([TablePath]), and so
    is the queue of deletions.  [db_schemas] is [None] until the schema registry file is created; [db_pending] is
    [PENDING_DELETIONS]. *)
Record Database := mkDatabase {
  db_registry : Registry;
  db_schemas : option MappedSchemas;
  db_files : gmap string TableFile;
  db_pending : gmap string Z
}.

(** What [scan_apex_files] lists: [.apex] itself has no extension. *)
Definition apex_files (db : Database) : gset string := dom (db_files db) ∖ {[EmptyString]}.

Definition with_registry (db : Database) (r : Registry) : Database :=
  mkDatabase r (db_schemas db) (db_files db) (db_pending db).
Definition with_schemas (db : Database) (s : MappedSchemas) : Database :=
  mkDatabase (db_registry db) (Some s) (db_files db) (db_pending db).
Definition with_files (db : Database) (files : gmap string TableFile) (pending : gmap string Z) : Database :=
  mkDatabase (db_registry db) (db_schemas db) files pending.

Definition reap_table_files (db : Database) (stem : string) : Database :=
  with_files db (delete stem (db_files db)) (delete stem (db_pending db)).

(** One entry of [queue_file_deletions]. *)
Definition queue_deletion (db : Database) (stem : string) : Database :=
  match db_files db !! stem with
  | Some file => with_files db (db_files db) (<[stem := tf_fingerprint file]> (db_pending db))
  | None => db
  end.

(** An entry [drain_pending_deletions] visits: a file that changed since it was queued is kept. *)
Definition drain_entry (db : Database) (stem : string) : Database :=
  match db_pending db !! stem, db_files db !! stem with
  | Some expected, Some file => if tf_fingerprint file =? expected then reap_table_files db stem else db
  | _, _ => db
  end.

Definition outcome_result {A} (o : Outcome A) : Result A :=
  match o with Done a => Ok a | Invalid => Err InvalidData | Panic => Err Other end.

Definition decode_schema (bytes : list Z) : Result OnDemandSchema := outcome_result (OnDemandSchema_from_bytes bytes).

(** ** Materialization *)

(** [set_column_constraints] and [set_logical_type_at] for one column of the catalog schema. *)
Definition restore_column (from : OnDemandSchema) (s : OnDemandSchema) (idx : nat) (column : string) : OnDemandSchema :=
  let s :=
    match os_constraints from !! idx, get_index s column with
    | Some cc, Some i => set_constraints s (<[i := cc]> (os_constraints s))
    | _, _ => s
    end in
  match os_logical_types from !! idx with
  | Some (Some logical) => set_logical_type s idx (Some logical)
  | _ => s
  end.

Fixpoint restore_columns (from s : OnDemandSchema) (idx : nat) (columns : list (string * ColumnType)) : OnDemandSchema :=
  match columns with
  | [] => s
  | c :: columns => restore_columns from (restore_column from s idx c.1) (S idx) columns
  end.

(** [create_with_schema_and_durability] *)
Definition created_schema (columns : list (string * ColumnType)) : OnDemandSchema :=
  foldl (fun s c => (add_column s c.1 c.2).1) OnDemandSchema_new columns.

Definition has_constraints (s : OnDemandSchema) : bool :=
  existsb (fun c => negb (bool_decide (c = ColumnConstraints_default))) (os_constraints s).

(** The footer schema of the file that [materialize_table_backend] creates. *)
Definition materialized_schema (schema : option OnDemandSchema) : OnDemandSchema :=
  match schema with
  | None => OnDemandSchema_new
  | Some s =>
      let created := created_schema (os_columns s) in
      if has_constraints s || has_logical s then restore_columns s created 0 (os_columns s) else created
  end.

(** ** Statements *)

Section statements.
Context (crc32 : list Z -> Z) {U : CharClasses} {J : Type}.

Definition db_snapshot (db : Database) : Database * Result (gset string) :=
  let '(r, tables) := snapshot_from_catalog crc32 (db_registry db) in (with_registry db r, tables).

Definition db_set_schema (db : Database) (name : string) (bytes : list Z) : Database * Result unit :=
  let '(s, r) := set_schema crc32 (default new_schemas (db_schemas db)) name bytes in (with_schemas db s, r).

Definition db_update_schema (db : Database) (name : string) (update : option (list Z) -> Result (list Z))
    : Database * Result unit :=
  let '(s, r) := update_schema crc32 (default new_schemas (db_schemas db)) name update in (with_schemas db s, r).

Definition db_remove_schema (db : Database) (name : string) : Database * Result unit :=
  match db_schemas db with
  | None => (db, Ok tt)
  | Some s => let '(s, r) := remove_schema crc32 s name in (with_schemas db s, r)
  end.

Definition db_schema_bytes (db : Database) (name : string) : Result (option (list Z)) :=
  match db_schemas db with None => Ok None | Some s => schema_bytes crc32 s name end.

(** The statements below take the two readings of the table text, as the code takes the path and
    the text.

    The registration at the end of CREATE TABLE: the name, then its schema, or neither. *)
Definition register_table (db : Database) (name : string) (schema : OnDemandSchema) : Database * Result unit :=
  let '(r, inserted) := CatalogLock_insert crc32 (db_registry db) (apex_files db) name in
  let db := with_registry db r in
  match inserted with
  | Err e => (db, Err e)
  | Ok _ =>
      let '(db, stored) := db_set_schema db name (OnDemandSchema_to_bytes schema) in
      match stored with
      | Ok _ => (db, Ok tt)
      | Err e =>
          let '(r, _) := CatalogLock_remove crc32 (db_registry db) (apex_files db) name in
          (with_registry db r, Err e)
      end
  end.

Definition execute_create_table (enabled : bool) (db : Database) (stem table : string) (columns : list (ColumnDef J))
    (if_not_exists : bool) : Database * Result unit :=
  let name := bare_table_name table in
  let '(db, registry) := db_snapshot db in
  match registry with
  | Err e => (db, Err e)
  | Ok registry =>
      if bool_decide (name ∈ registry) then (db, if if_not_exists then Ok tt else Err AlreadyExists)
      else
        let db := match db_files db !! stem with Some _ => reap_table_files db stem | None => db end in
        match build_table_schema enabled columns with
        | Err e => (db, Err e)
        | Ok schema => register_table db name schema
        end
  end.

Definition execute_drop_table (db : Database) (stem table : string) (if_exists : bool) : Database * Result unit :=
  let name := bare_table_name table in
  let '(db, registry) := db_snapshot db in
  match registry with
  | Err e => (db, Err e)
  | Ok registry =>
      let listed := bool_decide (name ∈ registry) in
      if negb listed && negb (bool_decide (is_Some (db_files db !! stem)))
      then (db, if if_exists then Ok tt else Err NotFound)
      else if listed then
        let '(r, removed) := CatalogLock_remove crc32 (db_registry db) (apex_files db) name in
        let db := with_registry db r in
        match removed with
        | Err e => (db, Err e)
        | Ok _ =>
            let '(db, cleared) := db_remove_schema db name in
            match cleared with
            | Err e => (db, Err e)
            | Ok _ => (queue_deletion db stem, Ok tt)
            end
        end
      else (queue_deletion db stem, Ok tt)
  end.

(** The closure of ADD COLUMN. *)
Definition append_column (column : string) (data_type : DataType) (bytes : option (list Z)) : Result (list Z) :=
  let? s := match bytes with Some bytes => decode_schema bytes | None => Ok OnDemandSchema_new end in
  match get_index s column with
  | Some _ => Err AlreadyExists
  | None =>
      let? t := ColumnType_from_data_type data_type in
      Ok (OnDemandSchema_to_bytes (add_column s column t).1)
  end.

(** ALTER TABLE ADD COLUMN of a table whose file does not exist; [None] when it does. *)
Definition alter_add_column (db : Database) (stem table column : string) (data_type : DataType)
    : Database * option (Result unit) :=
  let name := bare_table_name table in
  match db_files db !! stem with
  | Some _ => (db, None)
  | None =>
      let '(db, registry) := db_snapshot db in
      match registry with
      | Err e => (db, Some (Err e))
      | Ok registry =>
          if negb (bool_decide (name ∈ registry)) then (db, Some (Err NotFound))
          else let '(db, r) := db_update_schema db name (append_column column data_type) in (db, Some r)
      end
  end.

(** [ensure_table_file], and the schema of the file that is then opened; a file that is created
    gets the [fingerprint].  The name looked up in the registries is the stem of the file. *)
Definition open_table (db : Database) (stem : string) (fingerprint : Z) : Database * Result OnDemandSchema :=
  let name := file_stem stem in
  match db_files db !! stem with
  | Some file => (db, Ok (tf_schema file))
  | None =>
      let '(db, registry) := db_snapshot db in
      match registry with
      | Err e => (db, Err e)
      | Ok registry =>
          if negb (bool_decide (name ∈ registry)) then (db, Err NotFound)
          else
            match db_schema_bytes db name with
            | Err e => (db, Err e)
            | Ok None => let s := materialized_schema None in
                (with_files db (<[stem := mkTableFile fingerprint s]> (db_files db)) (db_pending db), Ok s)
            | Ok (Some bytes) =>
                match decode_schema bytes with
                | Err e => (db, Err e)
                | Ok schema =>
                    let s := materialized_schema (Some schema) in
                    (with_files db (<[stem := mkTableFile fingerprint s]> (db_files db)) (db_pending db), Ok s)
                end
            end
      end
  end.

(** Another process, or this one restarted: both registries are mapped anew, and the queue of
    deletions is gone. *)
Definition reopen (db : Database) : Database * Result unit :=
  match open_catalog (catalog_file (rg_catalog (db_registry db))) with
  | Err e => (db, Err e)
  | Ok r =>
      match db_schemas db with
      | None => (mkDatabase r None (db_files db) ∅, Ok tt)
      | Some s =>
          match map_schemas (schemas_file s) with
          | Err e => (db, Err e)
          | Ok s => (mkDatabase r (Some s) (db_files db) ∅, Ok tt)
          end
      end
  end.

(** A database directory without any file, after the registry lock is first taken. *)
Definition new_database : Database := mkDatabase create_catalog None ∅ ∅.

Inductive DdlOp :=
| DdlCreate (table : string) (columns : list (ColumnDef J)) (if_not_exists : bool)
| DdlDrop (table : string) (if_exists : bool)
| DdlAddColumn (table column : string) (data_type : DataType)
| DdlOpen (table : string) (fingerprint : Z)
| DdlReap (stems : list string)
| DdlReopen.

Inductive DdlAnswer :=
| AnsDone (r : Result unit)
| AnsSchema (r : Result OnDemandSchema)
| AnsRewrite
| AnsPanic.

(** A statement resolves its table text to the file first. *)
Definition on_stem {S} (s : S) (table : string) (f : string -> S * DdlAnswer) : S * DdlAnswer :=
  match resolve_stem table with Some stem => f stem | None => (s, AnsPanic) end.

Definition ddl_step (enabled : bool) (db : Database) (op : DdlOp) : Database * DdlAnswer :=
  match op with
  | DdlCreate table columns if_not_exists =>
      on_stem db table (fun stem =>
        let '(db, r) := execute_create_table enabled db stem table columns if_not_exists in (db, AnsDone r))
  | DdlDrop table if_exists =>
      on_stem db table (fun stem => let '(db, r) := execute_drop_table db stem table if_exists in (db, AnsDone r))
  | DdlAddColumn table column data_type =>
      on_stem db table (fun stem =>
        let '(db, r) := alter_add_column db stem table column data_type in
        (db, match r with Some r => AnsDone r | None => AnsRewrite end))
  | DdlOpen table fingerprint =>
      on_stem db table (fun stem => let '(db, r) := open_table db stem fingerprint in (db, AnsSchema r))
  | DdlReap stems => (foldl drain_entry db stems, AnsDone (Ok tt))
  | DdlReopen => let '(db, r) := reopen db in (db, AnsDone r)
  end.

Fixpoint ddl_run (enabled : bool) (db : Database) (ops : list DdlOp) : list DdlAnswer :=
  match ops with
  | [] => []
  | op :: ops => let '(db, a) := ddl_step enabled db op in a :: ddl_run enabled db ops
  end.

End statements.
Arguments DdlOp J : clear implicits.

(** ** What the directory promises

    The tables with their declared schemas by name, the table files by stem (those of dropped
    tables included), and the files this process has yet to delete. *)

Record Tables := mkTables {
  tb_schemas : gmap string OnDemandSchema;
  tb_files : gmap string OnDemandSchema;
  tb_dropped : gset string
}.

(** What the schema registry holds of a set of tables. *)
Definition registry_bytes (schemas : gmap string OnDemandSchema) : gmap string (list Z) :=
  OnDemandSchema_to_bytes <$> schemas.

Definition store_table (t : Tables) (name : string) (s : OnDemandSchema) : Tables * Result unit :=
  let schemas := <[name := s]> (tb_schemas t) in
  if SCHEMA_REGION_CAPACITY <? total_size (map_to_list (registry_bytes schemas)) then (t, Err Other)
  else (mkTables schemas (tb_files t) (tb_dropped t), Ok tt).

Definition forget_file (t : Tables) (stem : string) : Tables :=
  mkTables (tb_schemas t) (delete stem (tb_files t)) (tb_dropped t ∖ {[stem]}).

Definition mark_dropped (t : Tables) (stem : string) : Tables :=
  match tb_files t !! stem with
  | Some _ => mkTables (tb_schemas t) (tb_files t) ({[stem]} ∪ tb_dropped t)
  | None => t
  end.

Definition delete_dropped (t : Tables) (stem : string) : Tables :=
  if bool_decide (stem ∈ tb_dropped t) then forget_file t stem else t.

Section tables.
Context {U : CharClasses} {J : Type}.

Definition create_table (enabled : bool) (t : Tables) (stem name : string) (columns : list (ColumnDef J))
    (if_not_exists : bool) : Tables * Result unit :=
  match tb_schemas t !! name with
  | Some _ => (t, if if_not_exists then Ok tt else Err AlreadyExists)
  | None =>
      let t := forget_file t stem in
      match build_table_schema enabled columns with
      | Err e => (t, Err e)
      | Ok s => if Z.of_nat (size (tb_schemas t)) =? DEFAULT_CAPACITY then (t, Err Other) else store_table t name s
      end
  end.

Definition drop_table (t : Tables) (stem name : string) (if_exists : bool) : Tables * Result unit :=
  match tb_schemas t !! name, tb_files t !! stem with
  | None, None => (t, if if_exists then Ok tt else Err NotFound)
  | _, _ => (mark_dropped (mkTables (delete name (tb_schemas t)) (tb_files t) (tb_dropped t)) stem, Ok tt)
  end.

Definition add_table_column (t : Tables) (stem name column : string) (data_type : DataType)
    : Tables * option (Result unit) :=
  match tb_files t !! stem, tb_schemas t !! name with
  | Some _, _ => (t, None)
  | None, None => (t, Some (Err NotFound))
  | None, Some s =>
      match get_index s column, ColumnType_from_data_type data_type with
      | Some _, _ => (t, Some (Err AlreadyExists))
      | None, Err e => (t, Some (Err e))
      | None, Ok ty => let '(t, r) := store_table t name (add_column s column ty).1 in (t, Some r)
      end
  end.

Definition open_schema (t : Tables) (stem : string) : Tables * Result OnDemandSchema :=
  match tb_files t !! stem, tb_schemas t !! file_stem stem with
  | Some s, _ => (t, Ok s)
  | None, Some s => (mkTables (tb_schemas t) (<[stem := s]> (tb_files t)) (tb_dropped t), Ok s)
  | None, None => (t, Err NotFound)
  end.

Definition tables_step (enabled : bool) (t : Tables) (op : DdlOp J) : Tables * DdlAnswer :=
  match op with
  | DdlCreate table columns if_not_exists =>
      on_stem t table (fun stem =>
        let '(t, r) := create_table enabled t stem (bare_table_name table) columns if_not_exists in (t, AnsDone r))
  | DdlDrop table if_exists =>
      on_stem t table (fun stem => let '(t, r) := drop_table t stem (bare_table_name table) if_exists in (t, AnsDone r))
  | DdlAddColumn table column data_type =>
      on_stem t table (fun stem =>
        let '(t, r) := add_table_column t stem (bare_table_name table) column data_type in
        (t, match r with Some r => AnsDone r | None => AnsRewrite end))
  | DdlOpen table _ => on_stem t table (fun stem => let '(t, r) := open_schema t stem in (t, AnsSchema r))
  | DdlReap stems => (foldl delete_dropped t stems, AnsDone (Ok tt))
  | DdlReopen => (mkTables (tb_schemas t) (tb_files t) ∅, AnsDone (Ok tt))
  end.

Fixpoint tables_run (enabled : bool) (t : Tables) (ops : list (DdlOp J)) : list DdlAnswer :=
  match ops with
  | [] => []
  | op :: ops => let '(t, a) := tables_step enabled t op in a :: tables_run enabled t ops
  end.

(** Names and texts that fit the binary forms. *)
Definition column_ok (c : ColumnDef J) : Prop :=
  short_text (cd_name c) /\ constraints_ok (constraints_of c) /\
  (forall p s, cd_decimal_params c = Some (p, s) -> unsigned 1 p /\ signed 1 s).

Definition ddl_ok (op : DdlOp J) : Prop :=
  match op with
  | DdlCreate table columns _ => name_ok (bare_table_name table) /\ Forall column_ok columns
  | DdlAddColumn _ column _ => short_text column
  | _ => True
  end.

End tables.

(** ** What a column definition declares *)

(** The first element that the relation gives a value, if any. *)
Definition first_of {K A} (R : K -> A -> Prop) (ks : list K) (o : option A) : Prop :=
  match o with
  | Some a => exists before k after, ks = before ++ k :: after /\ R k a /\ Forall (fun k => forall a, ~ R k a) before
  | None => Forall (fun k => forall a, ~ R k a) ks
  end.

(** The literals a DEFAULT keeps; any other value is NULL. *)
Definition default_literal {J} (v : Value J) (d : DefaultValue) : Prop :=
  match v with
  | VInt64 n => d = DvInt64 n
  | VFloat64 f => d = DvFloat64 f
  | VString s => d = DvString s
  | VBool b => d = DvBool b
  | VDate t => d = DvDate t
  | VTimestamp t => d = DvTimestamp t
  | _ => d = DvNull
  end.

Inductive declares_default {J} : ColumnConstraintKind J -> DefaultValue -> Prop :=
| dd_literal v d : default_literal v d -> declares_default (CkDefault v) d
| dd_date : declares_default (CkDefaultFunction FnCurrentDate) DvCurrentDate
| dd_timestamp : declares_default (CkDefaultFunction FnCurrentTimestamp) DvCurrentTimestamp
| dd_unix : declares_default (CkDefaultFunction FnUnixTimestamp) DvUnixTimestamp.

Record constraints_declared {J} (ks : list (ColumnConstraintKind J)) (cc : ColumnConstraints) : Prop := {
  cd_not_null : cc_not_null cc = true <-> CkNotNull ∈ ks;
  cd_primary_key : cc_primary_key cc = true <-> CkPrimaryKey ∈ ks;
  cd_unique : cc_unique cc = true <-> CkUnique ∈ ks;
  cd_autoincrement : cc_autoincrement cc = true <-> CkAutoincrement ∈ ks;
  cd_default : first_of declares_default ks (cc_default_value cc);
  cd_check : first_of (fun k sql => k = CkCheck sql) ks (cc_check_expr_sql cc);
  cd_foreign_key : first_of (fun k r => k = CkForeignKey r.1 r.2) ks (cc_foreign_key cc)
}.

(** DECIMAL parameters make a column DECIMAL128, unless [sql_decimal_enabled()] is off. *)
Definition type_declared {J} (enabled : bool) (c : ColumnDef J) (ty : ColumnType) (l : option LogicalType) : Prop :=
  match enabled, cd_decimal_params c with
  | true, Some (precision, scale) => ty = TDecimal128 /\ l = Some (LtDecimal precision scale)
  | _, _ =>
      ColumnType_from_data_type (cd_data_type c) = Ok ty /\
      (ty = TTimestampTz -> l = Some (LtTimestampTz 0)) /\ (ty <> TTimestampTz -> l = None)
  end.

Definition column_declared {J} (enabled : bool) (c : ColumnDef J)
    (stored : (string * ColumnType) * (option LogicalType * ColumnConstraints)) : Prop :=
  stored.1.1 = cd_name c /\ type_declared enabled c stored.1.2 stored.2.1 /\
  constraints_declared (cd_constraints c) stored.2.2.

(** A column of a schema: its name and type, its logical type, its constraints. *)
Definition stored_columns (s : OnDemandSchema) : list ((string * ColumnType) * (option LogicalType * ColumnConstraints)) :=
  zip (os_columns s) (zip (os_logical_types s) (os_constraints s)).

(** The schema has the columns of the definitions, in their order, and nothing else. *)
Record schema_declares {J} (enabled : bool) (columns : list (ColumnDef J)) (s : OnDemandSchema) : Prop := {
  sd_columns : Forall2 (column_declared enabled) columns (stored_columns s);
  sd_length : length (os_columns s) = length columns;
  sd_logicals : length (os_logical_types s) = length columns;
  sd_constraints : length (os_constraints s) = length columns;
  sd_index : forall i c, columns !! i = Some c -> get_index s (cd_name c) = Some i;
  sd_derivations : os_vector_derivations s = []
}.

(** ** Schemas of table definitions *)

Record schema_good (s : OnDemandSchema) : Prop := {
  sg_wf : schema_wf s;
  sg_encodable : encodable s;
  sg_derivations : os_vector_derivations s = []
}.

Lemma new_good : schema_good OnDemandSchema_new.
Proof. split; [apply schema_new_wf|apply schema_new_encodable|done]. Qed.

Lemma pushed_good s name ty cc :
  schema_good s -> get_index s name = None -> short_text name -> constraints_ok cc ->
  schema_good (push_column s name ty cc).
Proof.
  intros [Hw He Hd] Hnew Hn Hc.
  assert (Hp : push_column s name ty cc = schema_apply s (SoAddWith name ty cc))
    by (cbn [schema_apply]; unfold add_column_with_constraints; unfold get_index in Hnew; by rewrite Hnew).
  rewrite Hp. split; [by apply schema_apply_wf|by apply schema_apply_encodable|]. by rewrite <-Hp.
Qed.

Lemma logical_good s idx l :
  schema_good s -> (forall t, l = Some t -> logical_ok t) -> schema_good (set_if_some s idx l).
Proof.
  intros Hs Hl. destruct l as [l|]; [|done]. cbn [set_if_some]. destruct Hs as [Hw He Hd].
  change (set_logical_type s idx (Some l)) with (schema_apply s (SoSetLogical idx (Some l))).
  split; [by apply schema_apply_wf|by apply schema_apply_encodable|]. cbn [schema_apply].
  rewrite set_logical_type_in by done. by destruct (_ <=? _)%nat.
Qed.

Section build.
Context {J : Type}.
Implicit Types (c : ColumnDef J).

(** The constraints may as well be set when the column is pushed. *)
Lemma define_column_pushes enabled s c t :
  schema_wf s -> get_index s (cd_name c) = None -> stored_type enabled c = Ok t ->
  define_column enabled (Ok s) c =
    Ok (set_if_some (push_column s (cd_name c) t.1 (constraints_of c)) (length (os_columns s)) t.2).
Proof.
  intros Hw Hnew Ht. unfold define_column. cbn [result_bind]. rewrite Hnew, Ht. cbn [result_bind].
  unfold add_column. unfold get_index in Hnew. rewrite Hnew. f_equal.
  assert (Hcs : forall d, <[length (os_columns s) := constraints_of c]> (os_constraints s ++ [d]) = os_constraints s ++ [constraints_of c]).
  { intros d. pose proof (sw_constraints _ Hw) as Hl. unfold column_count in Hl. rewrite <-Hl. by rewrite insert_app_r_alt, Nat.sub_diag by lia. }
  pose proof (fun d => push_column_wf s (cd_name c) t.1 d Hw Hnew) as Hpw.
  destruct t.2 as [l|]; cbn [set_if_some].
  - rewrite !set_logical_type_in by apply Hpw. unfold column_count, push_column. cbn [os_columns].
    destruct (_ <=? _)%nat; unfold set_constraints, set_logicals; cbn; by rewrite Hcs.
  - unfold set_constraints, push_column. cbn. by rewrite Hcs.
Qed.

Lemma stored_type_logical enabled c t :
  column_ok c -> stored_type enabled c = Ok t -> forall l, t.2 = Some l -> logical_ok l.
Proof.
  intros (_ & _ & Hp) Ht l Hl. unfold stored_type in Ht. destruct (ColumnType_from_data_type _); [|done].
  cbn [result_bind] in Ht. destruct (if enabled then _ else _) as [[p s]|] eqn:He; injection Ht as <-; cbn in Hl.
  - injection Hl as <-. destruct enabled; [by apply Hp|done].
  - case_bool_decide; [|done]. injection Hl as <-. cbn. by vm_compute.
Qed.

Lemma find_map_first {K A} (R : K -> A -> Prop) (f : K -> option A) ks :
  (forall k a, f k = Some a <-> R k a) -> first_of R ks (find_map f ks).
Proof.
  intros Hf. induction ks as [|k ks IH]; [constructor|]. unfold find_map in *. cbn [omap list_omap].
  destruct (f k) as [a|] eqn:Hk; [by exists [], k, ks; rewrite <-Hf|].
  assert (Hno : forall a, ~ R k a) by (intros a Ha%Hf; congruence).
  destruct (head (omap f ks)) as [a|]; [|by constructor].
  destruct IH as (before & k' & after & -> & Ha & Hb). exists (k :: before), k', after. split_and!; [done|done|by constructor].
Qed.

Lemma existsb_in {K} (f : K -> bool) (x : K) ks : (forall k, f k = true <-> k = x) -> existsb f ks = true <-> x ∈ ks.
Proof.
  intros Hf. rewrite existsb_exists. split.
  - intros (k & Hin & ->%Hf). by apply list_elem_of_In.
  - intros Hin. exists x. split; [by apply list_elem_of_In|by apply Hf].
Qed.

Lemma constraints_of_declared c : constraints_declared (cd_constraints c) (constraints_of c).
Proof.
  unfold constraints_of. split; cbn; try (apply existsb_in; by intros []); apply find_map_first.
  - intros k d. split.
    + destruct k as [| | |v|[]| | |]; try done; intros [= <-]; constructor. by destruct v.
    + inversion 1 as [v d' Hd| | |]; [|done..]. subst. cbn. by destruct v; cbn in Hd; subst.
  - intros k sql. split; [destruct k; try done; by intros [= ->]|by intros ->].
  - intros k [t col]. split; [destruct k; try done; by intros [= -> ->]|by intros ->].
Qed.

Lemma stored_type_declared enabled c t : stored_type enabled c = Ok t -> type_declared enabled c t.1 t.2.
Proof.
  unfold stored_type, type_declared. destruct (ColumnType_from_data_type _) as [ty|]; [|done]. cbn [result_bind].
  destruct enabled, (cd_decimal_params c) as [[p sc]|]; intros [= <-]; cbn; try case_bool_decide; naive_solver.
Qed.

(** The column that a definition appends. *)
Lemma defined_columns s name ty cc l :
  schema_good s -> get_index s name = None ->
  stored_columns (set_if_some (push_column s name ty cc) (length (os_columns s)) l) = stored_columns s ++ [((name, ty), (l, cc))].
Proof.
  intros [Hw _ _] Hnew. pose proof (push_column_wf s name ty cc Hw Hnew) as Hpw.
  pose proof (sw_logicals _ Hw) as Hl. pose proof (sw_constraints _ Hw) as Hc. unfold column_count in Hl, Hc.
  assert (Hlog : os_logical_types (set_if_some (push_column s name ty cc) (length (os_columns s)) l) = os_logical_types s ++ [l]).
  { destruct l as [l|]; [|done]. cbn [set_if_some]. rewrite set_logical_type_in by apply Hpw. unfold column_count, push_column.
    cbn [os_columns]. rewrite length_app, (proj2 (Nat.leb_gt _ _)) by (cbn; lia). unfold set_logicals. cbn.
    by rewrite insert_app_r_alt, Hl, Nat.sub_diag by lia. }
  assert (Hrest : os_columns (set_if_some (push_column s name ty cc) (length (os_columns s)) l) = os_columns s ++ [(name, ty)] /\
    os_constraints (set_if_some (push_column s name ty cc) (length (os_columns s)) l) = os_constraints s ++ [cc]).
  { destruct l as [l|]; [|done]. cbn [set_if_some]. rewrite set_logical_type_in by apply Hpw. by destruct (_ <=? _)%nat. }
  unfold stored_columns. destruct Hrest as [-> ->]. rewrite Hlog. rewrite !zip_with_app; [done| |by rewrite Hl, Hc].
  rewrite length_zip_with. lia.
Qed.

Lemma build_fold enabled (columns : list (ColumnDef J)) : Forall column_ok columns -> forall past s0 s,
  schema_good s0 -> Forall2 (column_declared enabled) past (stored_columns s0) ->
  foldl (define_column enabled) (Ok s0) columns = Ok s ->
  schema_good s /\ Forall2 (column_declared enabled) (past ++ columns) (stored_columns s).
Proof.
  induction 1 as [|c columns Hc Hall IH]; intros past s0 s Hs0 Hpast Hf; [rewrite app_nil_r; by injection Hf as <-|].
  cbn [foldl] in Hf.
  assert (Herr : forall e, foldl (define_column enabled) (Err e) columns <> Ok s) by (intros e; clear; by induction columns).
  destruct (get_index s0 (cd_name c)) eqn:Hidx.
  { unfold define_column at 2 in Hf. cbn [result_bind] in Hf. rewrite Hidx in Hf. by destruct (Herr AlreadyExists). }
  destruct (stored_type enabled c) as [t|e] eqn:Ht.
  - rewrite (define_column_pushes _ _ _ _ (sg_wf _ Hs0) Hidx Ht) in Hf. pose proof Hc as (Hn & Hcc & _).
    replace (past ++ c :: columns) with ((past ++ [c]) ++ columns) by by rewrite <-app_assoc.
    eapply IH; [| |exact Hf].
    + apply logical_good; [by apply pushed_good|by eapply stored_type_logical].
    + rewrite defined_columns by done. apply Forall2_app; [done|]. apply Forall2_cons. split; [|constructor].
      split; [done|]. split; [by apply stored_type_declared|apply constraints_of_declared].
  - unfold define_column at 2 in Hf. cbn [result_bind] in Hf. rewrite Hidx, Ht in Hf. by destruct (Herr e).
Qed.

Lemma build_good enabled (columns : list (ColumnDef J)) s :
  Forall column_ok columns -> build_table_schema enabled columns = Ok s -> schema_good s.
Proof. intros Hall Hb. by apply (build_fold enabled columns Hall [] _ _ new_good (Forall2_nil_2 _ _ _) Hb). Qed.

Lemma build_declares enabled (columns : list (ColumnDef J)) s :
  Forall column_ok columns -> build_table_schema enabled columns = Ok s -> schema_declares enabled columns s.
Proof.
  intros Hall Hb. destruct (build_fold enabled columns Hall [] _ _ new_good (Forall2_nil_2 _ _ _) Hb) as [[Hw _ Hd] Hf].
  cbn [app] in Hf. pose proof (Forall2_length _ _ _ Hf) as Hl. pose proof (sw_logicals _ Hw) as Hll.
  pose proof (sw_constraints _ Hw) as Hcl. unfold column_count in Hll, Hcl. unfold stored_columns in Hl.
  rewrite !length_zip_with in Hl. split; [done|lia..| |done].
  intros i c Hi. apply (sw_index _ Hw). destruct (Forall2_lookup_l _ _ _ _ _ Hf Hi) as (st & Hst & Hn & _).
  unfold stored_columns in Hst. apply lookup_zip_with_Some in Hst as (col & rest & -> & Hcol & _).
  unfold column_name. rewrite Hcol. cbn in Hn |- *. by rewrite Hn.
Qed.

End build.

Lemma added_good s column ty :
  schema_good s -> get_index s column = None -> short_text column -> schema_good (add_column s column ty).1.
Proof.
  intros Hs Hnew Hn. unfold add_column. pose proof Hnew as Hi. unfold get_index in Hi. rewrite Hi.
  apply pushed_good; [done..|]. unfold constraints_ok. cbn. naive_solver.
Qed.

(** ** A materialized file has the declared schema *)

Section materialize.
Context (s : OnDemandSchema) (Hs : schema_good s).

(** The file's schema after the first [k] columns were restored. *)
Definition restored (k : nat) : OnDemandSchema :=
  mkSchema (os_columns s) (take k (os_logical_types s) ++ replicate (column_count s - k) None) (os_name_to_idx s)
    (take k (os_constraints s) ++ replicate (column_count s - k) ColumnConstraints_default) [].

Lemma created_is_bare : created_schema (os_columns s) = restored 0.
Proof using Hs.
  destruct Hs as [Hw _ _]. pose proof (names_nodup _ Hw) as Hnd.
  change (foldl add_named OnDemandSchema_new (os_columns s) = restored 0).
  destruct (add_columns_bare _ Hnd) as (Hb & Hc & Hl & Hk & Hd). set (b := foldl _ _ _) in *.
  pose proof (index_unique _ _ Hb Hw Hc) as Hi. unfold column_count in Hl, Hk. rewrite Hc in Hl, Hk.
  unfold restored, column_count. rewrite Nat.sub_0_r. destruct b; cbn in *. by subst.
Qed.

Lemma restored_all : restored (column_count s) = s.
Proof using Hs.
  destruct Hs as [Hw _ Hd]. unfold restored. rewrite Nat.sub_diag. cbn [replicate]. rewrite !app_nil_r.
  rewrite !take_ge by (rewrite ?(sw_logicals _ Hw), ?(sw_constraints _ Hw); lia). destruct s; cbn in *. by subst.
Qed.

Lemma take_replicate_step {A} (l : list A) (d x : A) k n :
  length l = n -> l !! k = Some x ->
  <[k := x]> (take k l ++ replicate (n - k) d) = take (S k) l ++ replicate (n - S k) d.
Proof.
  intros Hn Hk. pose proof (lookup_lt_Some _ _ _ Hk). replace (n - k)%nat with (S (n - S k)) by lia.
  cbn [replicate]. rewrite insert_app_r_alt by (rewrite length_take; lia).
  rewrite length_take, Nat.min_l, Nat.sub_diag by lia. cbn. rewrite (take_S_r _ _ _ Hk). by rewrite <-app_assoc.
Qed.

Lemma restore_one k c : os_columns s !! k = Some c -> restore_column s (restored k) k c.1 = restored (S k).
Proof using Hs.
  intros Hk. destruct Hs as [Hw _ _]. pose proof (lookup_lt_Some _ _ _ Hk) as Hlt. fold (column_count s) in Hlt.
  destruct (lookup_lt_is_Some_2 (os_constraints s) k) as [cc Hcc]; [by rewrite (sw_constraints _ Hw)|].
  destruct (lookup_lt_is_Some_2 (os_logical_types s) k) as [l Hl]; [by rewrite (sw_logicals _ Hw)|].
  assert (Hi : os_name_to_idx s !! c.1 = Some k) by (apply (sw_index _ Hw); unfold column_name; by rewrite Hk).
  unfold restore_column. rewrite Hcc, Hl. unfold get_index. cbn [restored os_name_to_idx]. rewrite Hi.
  unfold set_constraints. cbn [os_constraints os_columns os_logical_types os_name_to_idx os_vector_derivations restored].
  rewrite (take_replicate_step _ _ _ _ _ (sw_constraints _ Hw) Hcc).
  pose proof (take_replicate_step _ None _ _ _ (sw_logicals _ Hw) Hl) as Hstep. unfold restored.
  destruct l as [l|].
  - unfold set_logical_type, column_count. cbn [os_columns os_logical_types].
    fold (column_count s). rewrite (proj2 (Nat.leb_gt _ _)) by done.
    rewrite (proj2 (Nat.ltb_ge _ _)) by (rewrite length_app, length_take, length_replicate, (sw_logicals _ Hw); lia).
    unfold set_logicals. cbn. by rewrite Hstep.
  - f_equal. rewrite <-Hstep. symmetry. apply list_insert_id.
    rewrite lookup_app_r by (rewrite length_take; lia). rewrite length_take, (sw_logicals _ Hw), Nat.min_l, Nat.sub_diag by lia.
    by destruct (column_count s - k)%nat eqn:E; [lia|].
Qed.

Lemma restore_rest k columns : drop k (os_columns s) = columns -> (k <= column_count s)%nat ->
  restore_columns s (restored k) k columns = s.
Proof using Hs.
  revert k. induction columns as [|c columns IH]; intros k Hd Hk; cbn [restore_columns].
  - assert (Hl : length (drop k (os_columns s)) = 0%nat) by by rewrite Hd. rewrite length_drop in Hl. fold (column_count s) in Hl.
    replace k with (column_count s) by lia. apply restored_all.
  - assert (Hc : os_columns s !! k = Some c) by (rewrite <-(Nat.add_0_r k), <-lookup_drop, Hd; done).
    pose proof (lookup_lt_Some _ _ _ Hc) as Hlt. fold (column_count s) in Hlt. rewrite restore_one by done. apply IH; [|lia].
    rewrite <-Nat.add_1_r, <-drop_drop, Hd. done.
Qed.

Lemma existsb_false_all {A} (f : A -> bool) (d : A) (l : list A) :
  (forall x, f x = false -> x = d) -> existsb f l = false -> l = replicate (length l) d.
Proof. intros Hf. induction l as [|x l IH]; [done|]. cbn. intros [Hx Hl]%orb_false_iff. by rewrite <-IH, (Hf x) by done. Qed.

Lemma materialized_is_declared : materialized_schema (Some s) = s.
Proof using Hs.
  cbn [materialized_schema]. destruct (has_constraints s || has_logical s) eqn:Hh.
  - rewrite created_is_bare. apply restore_rest; [done|lia].
  - apply orb_false_iff in Hh as [Hc Hl]. rewrite created_is_bare, <-restored_all at 1.
    assert (Hcs : os_constraints s = replicate (column_count s) ColumnConstraints_default).
    { rewrite <-(sw_constraints _ (sg_wf _ Hs)). apply (existsb_false_all _ ColumnConstraints_default) in Hc; [done|].
      intros x Hx%negb_false_iff. by apply bool_decide_eq_true in Hx. }
    assert (Hls : os_logical_types s = replicate (column_count s) None).
    { rewrite <-(sw_logicals _ (sg_wf _ Hs)). apply (existsb_false_all _ None) in Hl; [done|].
      intros [x|] Hx; [|done]. by apply bool_decide_eq_false in Hx; destruct Hx. }
    unfold restored. rewrite Hcs, Hls, !take_0, Nat.sub_diag, Nat.sub_0_r. cbn [app replicate].
    rewrite !app_nil_r, !take_ge by (rewrite length_replicate; lia). done.
Qed.

(** ** What the registry stores decodes *)

Lemma to_bytes_bound : Z.of_nat (column_count s) <= Z.of_nat (length (OnDemandSchema_to_bytes s)).
Proof using.
  clear Hs. unfold OnDemandSchema_to_bytes. rewrite !length_app.
  enough (column_count s <= length (os_columns s ≫= column_bytes))%nat by lia. unfold column_count.
  induction (os_columns s) as [|c l IH]; [done|]. rewrite bind_cons, length_app.
  unfold column_bytes at 1. rewrite length_app. cbn [length] in *. lia.
Qed.

Lemma stored_decodes : len_of (OnDemandSchema_to_bytes s) < 2 ^ 32 -> decode_schema (OnDemandSchema_to_bytes s) = Ok s.
Proof using Hs.
  intros Hlen. pose proof to_bytes_bound. unfold decode_schema. rewrite schema_reads; [done|apply Hs|apply Hs| |].
  - change (0 <= Z.of_nat (column_count s) < 2 ^ 32). unfold len_of in Hlen. lia.
  - rewrite (sg_derivations _ Hs). by vm_compute.
Qed.

End materialize.

(** ** The two registries of a directory *)

Section directory.
Context (crc32 : list Z -> Z).
Hypothesis crc32_range : forall bytes, unsigned 4 (crc32 bytes).

(** The registry lists [tables], and has files to adopt only if there is none. *)
Definition lists (r : Registry) (files tables : gset string) : Prop :=
  exists cells, reg_ok crc32 r cells /\ names cells = tables /\ mc_capacity (rg_catalog r) = DEFAULT_CAPACITY /\
    (rg_adopt_existing_files r = true -> files = ∅ /\ tables = ∅).

Lemma lists_snapshot r files tables : lists r files tables ->
  exists r', snapshot_from_catalog crc32 r = (r', Ok tables) /\ lists r' files tables.
Proof using crc32_range.
  intros (cells & Hr & <- & Hcap & Ha). destruct (snapshot_ok crc32 crc32_range _ _ Hr) as [Hs Hr'].
  eexists. split; [exact Hs|]. by exists cells.
Qed.

Lemma lists_insert r files tables name : lists r files tables -> name_ok name -> name ∉ tables ->
  if Z.of_nat (size tables) =? DEFAULT_CAPACITY
  then exists r', CatalogLock_insert crc32 r files name = (r', Err Other) /\ lists r' files tables
  else exists r', CatalogLock_insert crc32 r files name = (r', Ok tt) /\ lists r' files ({[name]} ∪ tables).
Proof using crc32_range.
  intros Hl Hname Hnew. destruct (lists_snapshot _ _ _ Hl) as (r1 & Hs & cells & Hr & Hn & Hcap & Ha).
  assert (Hadopt : adopt_for_insert crc32 r1 files tables name = (r1, Ok tables)).
  { unfold adopt_for_insert. destruct (rg_adopt_existing_files r1) eqn:He; [|by rewrite andb_false_r].
    destruct (Ha eq_refl) as [-> ->]. cbn [andb]. rewrite bool_decide_true by done.
    replace ((∅ ∪ ∅) ∖ {[name]}) with (∅ : gset string) by set_solver. unfold persist_tables. rewrite bool_decide_true by done.
    cbn [result_bind]. f_equal. destruct r1; cbn in *. by subst. }
  pose proof (register_ok crc32 crc32_range r1 cells name Hr Hname) as Hreg. rewrite Hn, Hcap in Hreg.
  rewrite bool_decide_false in Hreg by done. unfold CatalogLock_insert. rewrite Hs, Hadopt.
  destruct (_ =? DEFAULT_CAPACITY).
  - exists r1. rewrite Hreg. split; [done|]. by exists cells.
  - destruct Hreg as (r' & cells' & -> & Hr' & Hn' & Ha' & Hcap' & _). exists r'. split; [done|].
    exists cells'. split_and!; [done|done|by rewrite Hcap'|]. by rewrite Ha'.
Qed.

Lemma lists_name_ok r files tables name : lists r files tables -> name ∈ tables -> name_ok name.
Proof using.
  clear crc32_range. intros (cells & [Hc _] & <- & _) Hin. apply elem_of_list_to_set, elem_stored in Hin as (i & Hi).
  pose proof (ck_cells _ _ _ Hc) as Hall. exact (proj1 (Forall_lookup _ _) Hall _ _ Hi).
Qed.

Lemma lists_remove r files tables name : lists r files tables -> name ∈ tables ->
  exists r', CatalogLock_remove crc32 r files name = (r', Ok true) /\ lists r' files (tables ∖ {[name]}).
Proof using crc32_range.
  intros Hl Hin. pose proof (lists_name_ok _ _ _ _ Hl Hin) as Hname. destruct Hl as (cells & Hr & Hn & Hcap & Ha).
  assert (Hf : rg_adopt_existing_files r = false).
  { destruct (rg_adopt_existing_files r); [|done]. destruct (Ha eq_refl) as [_ ->]. set_solver. }
  destruct (step_refines crc32 crc32_range files r cells (OpRemove name) Hr Hf Hname) as (r' & cells' & a & Hs & Hset & Hr' & Ha' & Hcap').
  cbn [registry_step names_step] in Hs, Hset. rewrite Hn in Hset. destruct (CatalogLock_remove _ _ _ _) as [r2 res].
  injection Hs as <- <-. rewrite bool_decide_true in Hset by done. injection Hset as Hc ->. exists r2. split; [done|].
  exists cells'. split_and!; [done|done|by rewrite Hcap'|]. by rewrite Ha'.
Qed.

Lemma lists_reopen r files tables : lists r files tables ->
  exists r', open_catalog (catalog_file (rg_catalog r)) = Ok r' /\ forall files', lists r' files' tables.
Proof using crc32_range.
  intros (cells & Hr & Hn & Hcap & Ha). unfold open_catalog. rewrite (map_catalog_file crc32 _ cells) by apply Hr.
  cbn [result_bind]. eexists. split; [reflexivity|]. intros files'. exists cells. split_and!; [|done..].
  split; [apply Hr|done].
Qed.

(** A registry that lists no table has nothing else to keep of the files. *)
Lemma lists_files r files files' tables : lists r files tables -> (files' ⊆ files \/ tables <> ∅) -> lists r files' tables.
Proof using.
  clear crc32_range. intros (cells & Hr & Hn & Hcap & Ha) Hf. exists cells. split_and!; [done..|]. intros He. destruct (Ha He) as [-> ->].
  destruct Hf as [Hf|Hf]; [|done]. split; [|done]. set_solver.
Qed.

Lemma create_lists : lists create_catalog ∅ ∅.
Proof using crc32_range. destruct (create_catalog_ok crc32 crc32_range) as [Hr Hn]. by exists (replicate 1024 None). Qed.

(** The schema registry holds the map [m]. *)
Definition holds (s : MappedSchemas) (m : gmap string (list Z)) : Prop :=
  exists records, schemas_ok crc32 s records /\ record_map records = m.

Definition holds_opt (s : option MappedSchemas) (m : gmap string (list Z)) : Prop :=
  match s with Some s => holds s m | None => m = ∅ end.

Lemma holds_default s m : holds_opt s m -> holds (default new_schemas s) m.
Proof using. destruct s as [s|]; [done|]. intros ->. exists []. split; [apply new_schemas_ok|done]. Qed.

Lemma holds_update s m name update : holds s m -> name_ok name ->
  match update (m !! name) with
  | Err e => update_schema crc32 s name update = (s, Err e)
  | Ok bytes =>
      if SCHEMA_REGION_CAPACITY <? total_size (map_to_list (<[name := bytes]> m))
      then update_schema crc32 s name update = (s, Err Other)
      else exists s', update_schema crc32 s name update = (s', Ok tt) /\ holds s' (<[name := bytes]> m)
  end.
Proof using crc32_range.
  intros (records & Hs & <-) [Hv Hl]. unfold update_schema. rewrite (scan_records_ok _ crc32_range _ _ Hs), find_record.
  destruct (update _) as [bytes|e]; [|done]. rewrite <-put_record_map, total_size_map by by apply put_record_nodup, Hs.
  assert (Hr : record_ok (name, bytes)) by (split; [done|]; cbn; intros ->; cbn in Hl; lia).
  pose proof (rewrite_ok _ record_ok record_ok s records (put_record name bytes records) Hs (put_record_ok _ _ _ _ (sk_records _ _ _ _ Hs) Hr)
    (put_record_nodup _ _ _ (sk_keys _ _ _ _ Hs))) as Hrw.
  destruct (_ <? _); [done|]. destruct Hrw as (s' & -> & Hs'). exists s'. split; [done|]. by eexists.
Qed.

Lemma holds_remove s m name : holds s m ->
  exists s', remove_schema crc32 s name = (s', Ok tt) /\ holds s' (delete name m).
Proof using crc32_range.
  intros (records & Hs & <-). destruct (lazy_step_refines _ crc32_range record_ok s records (LzRemove name) (fun r Hr => Hr) Hs I) as (s' & records' & a & H1 & H2 & Hs').
  cbn [lazy_step map_step] in H1, H2. destruct (remove_schema _ _ _) as [s2 r]. injection H1 as <- <-. injection H2 as Hm ->.
  exists s2. split; [done|]. by exists records'.
Qed.

Lemma holds_bytes s m name : holds_opt s m ->
  match s with None => Ok None | Some s => schema_bytes crc32 s name end = Ok (m !! name).
Proof using crc32_range.
  destruct s as [s|]; [|by intros ->]. intros (records & Hs & <-). unfold schema_bytes.
  rewrite (scan_records_ok _ crc32_range _ _ Hs). cbn [result_bind]. by rewrite find_record.
Qed.

Lemma holds_fits s m name bytes : holds_opt s m -> m !! name = Some bytes -> len_of bytes < 2 ^ 32.
Proof using.
  destruct s as [s|]; [|by intros ->]. intros (records & Hs & <-) Hm. pose proof (fits_bound _ _ _ _ Hs) as Hf.
  apply elem_of_list_to_map_2 in Hm. unfold SCHEMA_REGION_CAPACITY in Hf.
  enough (len_of bytes <= total_size records) by lia. clear Hs Hf. induction records as [|r records IH]; [by apply elem_of_nil in Hm|].
  cbn [total_size foldr]. fold (total_size records). pose proof (region_length crc32 records).
  apply elem_of_cons in Hm as [<-|Hm].
  - unfold record_size, len_of. cbn. lia.
  - specialize (IH Hm). unfold record_size, len_of in *. lia.
Qed.

Lemma holds_reopen s m : holds s m -> map_schemas (schemas_file s) = Ok s.
Proof using. intros (records & Hs & _). by eapply schemas_ok_map. Qed.

(** ** A directory and its abstraction *)

Record db_ok (db : Database) (t : Tables) : Prop := {
  ok_tables : lists (db_registry db) (apex_files db) (dom (tb_schemas t));
  ok_schemas : holds_opt (db_schemas db) (registry_bytes (tb_schemas t));
  ok_good : map_Forall (fun _ s => schema_good s) (tb_schemas t);
  ok_files : tf_schema <$> db_files db = tb_files t;
  ok_pending : map_Forall (fun name fp => exists f, db_files db !! name = Some f /\ tf_fingerprint f = fp) (db_pending db);
  ok_dropped : dom (db_pending db) = tb_dropped t
}.

Lemma file_schema db t name : db_ok db t -> tb_files t !! name = tf_schema <$> db_files db !! name.
Proof using. clear crc32_range. intros Hok. by rewrite <-(ok_files _ _ Hok), lookup_fmap. Qed.

Lemma dropped_file db t name : db_ok db t -> name ∈ tb_dropped t -> is_Some (db_files db !! name).
Proof using.
  clear crc32_range.
  intros Hok. rewrite <-(ok_dropped _ _ Hok), elem_of_dom. intros [fp Hfp].
  destruct (ok_pending _ _ Hok _ _ Hfp) as (f & -> & _). done.
Qed.

Lemma snapshot_db db t : db_ok db t ->
  exists db', db_snapshot crc32 db = (db', Ok (dom (tb_schemas t))) /\ db_ok db' t /\ db_files db' = db_files db.
Proof using crc32_range.
  intros [Ht Hs Hg Hf Hp Hd]. unfold db_snapshot. destruct (lists_snapshot _ _ _ Ht) as (r & -> & Hr).
  eexists. split; [reflexivity|]. split; [by split|done].
Qed.

Lemma forget_ok db t name : db_ok db t -> db_ok (reap_table_files db name) (forget_file t name).
Proof using.
  clear crc32_range.
  intros [Ht Hs Hg Hf Hp Hd].
  split; cbn [reap_table_files with_files forget_file db_registry db_schemas db_files db_pending tb_schemas tb_files tb_dropped].
  - apply (lists_files _ (apex_files db)); [done|]. left. unfold apex_files, reap_table_files. cbn [with_files db_files]. rewrite dom_delete_L. set_solver.
  - done.
  - done.
  - by rewrite fmap_delete, Hf.
  - intros n fp Hn. apply lookup_delete_Some in Hn as [Hne Hn]. rewrite lookup_delete_ne by done. by apply Hp.
  - by rewrite dom_delete_L, Hd.
Qed.

Lemma forget_absent db t name : db_ok db t -> db_files db !! name = None -> forget_file t name = t.
Proof using.
  clear crc32_range.
  intros Hok Hn. unfold forget_file. rewrite delete_id by by rewrite (file_schema _ _ _ Hok), Hn.
  replace (tb_dropped t ∖ {[name]}) with (tb_dropped t); [by destruct t|].
  enough (name ∉ tb_dropped t) by set_solver. intros [f Hf]%(dropped_file _ _ _ Hok). congruence.
Qed.

Lemma mark_ok db t name : db_ok db t -> db_ok (queue_deletion db name) (mark_dropped t name).
Proof using.
  clear crc32_range.
  intros Hok. unfold queue_deletion, mark_dropped. rewrite (file_schema _ _ _ Hok).
  destruct (db_files db !! name) as [f|] eqn:Hf; [|done]. cbn [fmap option_fmap option_map]. destruct Hok as [Ht Hs Hg Hfs Hp Hd].
  split; cbn [with_files db_registry db_schemas db_files db_pending tb_schemas tb_files tb_dropped]; try done.
  - apply map_Forall_insert_2; [by eexists|done].
  - by rewrite dom_insert_L, Hd.
Qed.

Lemma drain_ok db t name : db_ok db t -> db_ok (drain_entry db name) (delete_dropped t name).
Proof using.
  clear crc32_range.
  intros Hok. unfold drain_entry, delete_dropped. rewrite <-(ok_dropped _ _ Hok).
  destruct (db_pending db !! name) as [fp|] eqn:Hp.
  - destruct (ok_pending _ _ Hok _ _ Hp) as (f & -> & ->). rewrite Z.eqb_refl, bool_decide_true by by apply elem_of_dom.
    by apply forget_ok.
  - rewrite bool_decide_false; [done|]. by apply not_elem_of_dom.
Qed.

Lemma drain_all_ok names db t : db_ok db t -> db_ok (foldl drain_entry db names) (foldl delete_dropped t names).
Proof using. clear crc32_range. revert db t. induction names as [|n names IH]; intros db t Hok; [done|]. by apply IH, drain_ok. Qed.

Lemma store_holds schemas m name s :
  holds_opt schemas (registry_bytes m) -> name_ok name ->
  exists s' r, set_schema crc32 (default new_schemas schemas) name (OnDemandSchema_to_bytes s) = (s', r) /\
    if SCHEMA_REGION_CAPACITY <? total_size (map_to_list (registry_bytes (<[name := s]> m)))
    then r = Err Other /\ holds s' (registry_bytes m) else r = Ok tt /\ holds s' (registry_bytes (<[name := s]> m)).
Proof using crc32_range.
  intros Hh Hname. pose proof (holds_default _ _ Hh) as Hd. unfold set_schema.
  pose proof (holds_update _ _ name (fun _ => Ok (OnDemandSchema_to_bytes s)) Hd Hname) as Hup.
  unfold registry_bytes in *. rewrite fmap_insert. destruct (_ <? _).
  - rewrite Hup. by eexists _, _.
  - destruct Hup as (s' & -> & Hs'). by eexists _, _.
Qed.

Lemma register_ok_db db t name s :
  db_ok db t -> name_ok name -> tb_schemas t !! name = None -> schema_good s ->
  exists db', register_table crc32 db name s =
      (db', (if Z.of_nat (size (tb_schemas t)) =? DEFAULT_CAPACITY then (t, Err Other) else store_table t name s).2) /\
    db_ok db' (if Z.of_nat (size (tb_schemas t)) =? DEFAULT_CAPACITY then (t, Err Other) else store_table t name s).1.
Proof using crc32_range.
  intros Hok Hname Hnew Hs. pose proof Hok as [Ht Hsch Hg Hf Hp Hd].
  assert (Hnin : name ∉ dom (tb_schemas t)) by by apply not_elem_of_dom.
  pose proof (lists_insert _ _ _ _ Ht Hname Hnin) as Hins. rewrite size_dom in Hins. unfold register_table.
  destruct (_ =? DEFAULT_CAPACITY).
  { destruct Hins as (r & -> & Hr). eexists. split; [reflexivity|]. by split. }
  destruct Hins as (r & -> & Hr). unfold db_set_schema. cbn [with_registry db_schemas].
  destruct (store_holds _ _ name s Hsch Hname) as (s' & res & -> & Hres). unfold store_table.
  destruct (_ <? _); destruct Hres as [-> Hh].
  - change (apex_files (with_schemas _ _)) with (apex_files db). cbn [with_schemas with_registry db_registry].
    destruct (lists_remove _ _ _ name Hr) as (r' & -> & Hr'); [set_solver|]. eexists. split; [reflexivity|].
    split; cbn [fst with_registry with_schemas db_registry db_schemas db_files db_pending]; try done.
    by replace (({[name]} ∪ dom (tb_schemas t)) ∖ {[name]}) with (dom (tb_schemas t)) in Hr' by set_solver.
  - eexists. split; [reflexivity|].
    split; cbn [fst with_registry with_schemas db_registry db_schemas db_files db_pending tb_schemas tb_files tb_dropped]; try done.
    + by rewrite dom_insert_L.
    + by apply map_Forall_insert_2.
Qed.

(** ** Every statement *)

Section steps.
Context {U : CharClasses} {J : Type}.
Context (enabled : bool).

(** [f] on the directory does what [g] does on the abstraction, with the same answer. *)
Definition agrees {A} (db : Database * A) (t : Tables * A) : Prop := db_ok db.1 t.1 /\ db.2 = t.2.

Lemma create_agrees db t stem table (columns : list (ColumnDef J)) if_not_exists :
  db_ok db t -> name_ok (bare_table_name table) -> Forall column_ok columns ->
  agrees (execute_create_table crc32 enabled db stem table columns if_not_exists)
         (create_table enabled t stem (bare_table_name table) columns if_not_exists).
Proof using crc32_range.
  intros Hok Hname Hcols. destruct (snapshot_db _ _ Hok) as (db1 & Hsnap & Hok1 & Hfiles).
  unfold execute_create_table, create_table. rewrite Hsnap. set (name := bare_table_name table) in *.
  destruct (tb_schemas t !! name) as [s0|] eqn:Hs.
  { rewrite bool_decide_true by by apply elem_of_dom. by split. }
  rewrite bool_decide_false by by apply not_elem_of_dom.
  set (db2 := match db_files db1 !! stem with Some _ => _ | None => _ end).
  assert (Hok2 : db_ok db2 (forget_file t stem)).
  { unfold db2. destruct (db_files db1 !! stem) eqn:Hf; [by apply forget_ok|]. by rewrite (forget_absent db1). }
  destruct (build_table_schema enabled columns) as [s|e] eqn:Hb; [|by split].
  destruct (register_ok_db db2 _ name s Hok2 Hname Hs (build_good _ _ _ Hcols Hb)) as (db' & -> & Hok'). by split.
Qed.

Lemma drop_agrees db t stem table if_exists : db_ok db t ->
  agrees (execute_drop_table crc32 db stem table if_exists) (drop_table t stem (bare_table_name table) if_exists).
Proof using crc32_range.
  intros Hok. destruct (snapshot_db _ _ Hok) as (db1 & Hsnap & Hok1 & Hfiles).
  unfold execute_drop_table, drop_table. rewrite Hsnap, (file_schema _ _ _ Hok1). set (name := bare_table_name table) in *.
  destruct (tb_schemas t !! name) as [s|] eqn:Hs.
  - rewrite bool_decide_true by by apply elem_of_dom. cbn [negb andb].
    pose proof Hok1 as [Ht Hsch Hg Hf Hp Hd].
    destruct (lists_remove _ _ _ name Ht) as (r & -> & Hr); [by apply elem_of_dom|].
    assert (Hd2 : holds_opt (db_schemas db1) (registry_bytes (tb_schemas t)) ->
      exists db2, db_remove_schema crc32 (with_registry db1 r) name = (db2, Ok tt) /\
        db_ok db2 (mkTables (delete name (tb_schemas t)) (tb_files t) (tb_dropped t))).
    { intros Hh. unfold db_remove_schema. cbn [with_registry db_schemas].
      assert (Hgd : map_Forall (fun _ s => schema_good s) (delete name (tb_schemas t))) by by apply map_Forall_delete.
      rewrite <-dom_delete_L in Hr. destruct (db_schemas db1) as [sch|] eqn:He.
      - destruct (holds_remove _ _ name Hh) as (s' & -> & Hs'). eexists. split; [reflexivity|].
        split; try done. cbn. unfold registry_bytes in *. by rewrite fmap_delete.
      - eexists. split; [reflexivity|]. split; try done. cbn [with_registry db_schemas]. rewrite He. cbn in Hh |- *.
        unfold registry_bytes in *. by rewrite fmap_delete, Hh, delete_empty. }
    destruct (Hd2 Hsch) as (db2 & -> & Hok2). cbn [fst snd]. split; [by apply mark_ok|done].
  - rewrite bool_decide_false by by apply not_elem_of_dom. cbn [negb andb].
    rewrite (delete_id (tb_schemas t)) by done. replace (mkTables (tb_schemas t) _ _) with t by by destruct t.
    destruct (db_files db1 !! stem) as [f|] eqn:Hf; cbn [fmap option_fmap option_map].
    + rewrite bool_decide_true by done. cbn [negb]. split; [by apply mark_ok|done].
    + rewrite bool_decide_false by by intros []. by split.
Qed.

Lemma append_column_stored t name s column data_type :
  schema_good s -> len_of (OnDemandSchema_to_bytes s) < 2 ^ 32 -> tb_schemas t !! name = Some s ->
  append_column column data_type (registry_bytes (tb_schemas t) !! name) =
    match get_index s column, ColumnType_from_data_type data_type with
    | Some _, _ => Err AlreadyExists
    | None, Err e => Err e
    | None, Ok ty => Ok (OnDemandSchema_to_bytes (add_column s column ty).1)
    end.
Proof using.
  clear crc32_range. intros Hs Hl Hn. unfold append_column, registry_bytes. rewrite lookup_fmap, Hn.
  cbn [fmap option_fmap option_map]. rewrite (stored_decodes _ Hs Hl). cbn [result_bind].
  destruct (get_index s column); [done|]. by destruct (ColumnType_from_data_type data_type).
Qed.

Lemma add_agrees db t stem table column data_type : db_ok db t -> short_text column ->
  agrees (alter_add_column crc32 db stem table column data_type)
         (add_table_column t stem (bare_table_name table) column data_type).
Proof using crc32_range.
  intros Hok Hcol. unfold alter_add_column, add_table_column. rewrite (file_schema _ _ _ Hok).
  set (name := bare_table_name table) in *. destruct (db_files db !! stem) eqn:Hf; [by split|]. cbn [fmap option_fmap option_map].
  destruct (snapshot_db _ _ Hok) as (db1 & -> & Hok1 & _).
  destruct (tb_schemas t !! name) as [s|] eqn:Hs; [|by rewrite bool_decide_false by by apply not_elem_of_dom].
  rewrite bool_decide_true by by apply elem_of_dom. cbn [negb]. pose proof Hok1 as [Ht Hsch Hg Hfs Hp Hd].
  assert (Hname : name_ok name) by (apply (lists_name_ok _ _ _ _ Ht); by apply elem_of_dom).
  pose proof (holds_update _ _ name (append_column column data_type) (holds_default _ _ Hsch) Hname) as Hup.
  assert (Hl : len_of (OnDemandSchema_to_bytes s) < 2 ^ 32).
  { apply (holds_fits _ _ name _ Hsch). unfold registry_bytes. by rewrite lookup_fmap, Hs. }
  rewrite (append_column_stored t name s) in Hup by first [done|by apply (Hg name)]. unfold db_update_schema.
  destruct (get_index s column) eqn:Hidx; [rewrite Hup; by split; [split; try done; by apply holds_default|]|].
  destruct (ColumnType_from_data_type data_type) as [ty|e]; [|rewrite Hup; by split; [split; try done; by apply holds_default|]].
  unfold store_table, registry_bytes in *. rewrite fmap_insert. destruct (_ <? _).
  - rewrite Hup. split; [split; try done; by apply holds_default|done].
  - destruct Hup as (s' & -> & Hs'). split; [|done]. split; cbn [fst with_schemas db_registry db_schemas db_files db_pending tb_schemas tb_files tb_dropped]; try done.
    + rewrite dom_insert_L. replace ({[name]} ∪ dom (tb_schemas t)) with (dom (tb_schemas t)); [done|].
      apply elem_of_dom_2 in Hs. set_solver.
    + unfold registry_bytes. cbn [holds_opt]. by rewrite fmap_insert.
    + apply map_Forall_insert_2; [|done]. apply added_good; [by apply (Hg name)|done|done].
Qed.

Lemma open_agrees db t stem fingerprint : db_ok db t ->
  agrees (open_table crc32 db stem fingerprint) (open_schema t stem).
Proof using crc32_range.
  intros Hok. unfold open_table, open_schema. rewrite (file_schema _ _ _ Hok). set (name := file_stem stem).
  destruct (db_files db !! stem) as [f|] eqn:Hf; [by split|]. cbn [fmap option_fmap option_map].
  destruct (snapshot_db _ _ Hok) as (db1 & -> & Hok1 & Hfiles). pose proof Hok1 as [Ht Hsch Hg Hfs Hp Hd].
  destruct (tb_schemas t !! name) as [s|] eqn:Hs; [|by rewrite bool_decide_false by by apply not_elem_of_dom].
  rewrite bool_decide_true by by apply elem_of_dom. cbn [negb]. unfold db_schema_bytes.
  rewrite (holds_bytes _ _ name Hsch). unfold registry_bytes. rewrite lookup_fmap, Hs. cbn [fmap option_fmap option_map].
  assert (Hl : len_of (OnDemandSchema_to_bytes s) < 2 ^ 32).
  { apply (holds_fits _ _ name _ Hsch). unfold registry_bytes. by rewrite lookup_fmap, Hs. }
  rewrite (stored_decodes s) by first [done|by apply (Hg name)]. rewrite (materialized_is_declared s) by by apply (Hg name).
  split; [|done]. split; cbn [fst with_files db_registry db_schemas db_files db_pending tb_schemas tb_files tb_dropped]; try done.
  - apply (lists_files _ (apex_files db1)); [done|]. right. apply elem_of_dom_2 in Hs. set_solver.
  - by rewrite fmap_insert, Hfs.
  - intros n fp Hn. destruct (Hp n fp Hn) as (f & Hfn & Hfp). exists f. rewrite lookup_insert_ne; [done|].
    intros <-. rewrite Hfiles, Hf in Hfn. done.
Qed.

Lemma reopen_agrees db t : db_ok db t -> agrees (reopen db) (mkTables (tb_schemas t) (tb_files t) ∅, Ok tt).
Proof using crc32_range.
  intros [Ht Hsch Hg Hfs Hp Hd]. unfold reopen. destruct (lists_reopen _ _ _ Ht) as (r & -> & Hr).
  assert (Hnew : forall sch, holds_opt sch (registry_bytes (tb_schemas t)) ->
    db_ok (mkDatabase r sch (db_files db) ∅) (mkTables (tb_schemas t) (tb_files t) ∅)).
  { intros sch Hh. split; cbn; done. }
  destruct (db_schemas db) as [s|]; [|by split; [apply Hnew|]]. rewrite (holds_reopen _ _ Hsch). by split; [apply Hnew|].
Qed.

Lemma stem_agrees db t table f g : db_ok db t ->
  (forall stem, db_ok (f stem).1 (g stem).1 /\ (f stem).2 = (g stem).2) -> agrees (on_stem db table f) (on_stem t table g).
Proof using. clear crc32_range. intros Hok Hfg. unfold on_stem. destruct (resolve_stem table); [apply Hfg|done]. Qed.

Lemma ddl_step_agrees db t (op : DdlOp J) : db_ok db t -> ddl_ok op ->
  agrees (ddl_step crc32 enabled db op) (tables_step enabled t op).
Proof using crc32_range.
  intros Hok Hop. destruct op as [table columns ine|table ie|table column ty|table fp|stems|]; cbn [ddl_step tables_step ddl_ok] in *.
  - apply stem_agrees; [done|]. intros stem. destruct Hop as [Hn Hc].
    destruct (create_agrees _ _ stem table columns ine Hok Hn Hc) as [H1 H2].
    destruct (execute_create_table _ _ _ _ _ _ _), (create_table _ _ _ _ _ _). cbn in *. by subst.
  - apply stem_agrees; [done|]. intros stem. destruct (drop_agrees _ _ stem table ie Hok) as [H1 H2].
    destruct (execute_drop_table _ _ _ _ _), (drop_table _ _ _ _). cbn in *. by subst.
  - apply stem_agrees; [done|]. intros stem. destruct (add_agrees _ _ stem table column ty Hok Hop) as [H1 H2].
    destruct (alter_add_column _ _ _ _ _ _), (add_table_column _ _ _ _ _). cbn in *. by subst.
  - apply stem_agrees; [done|]. intros stem. destruct (open_agrees _ _ stem fp Hok) as [H1 H2].
    destruct (open_table _ _ _ _), (open_schema _ _). cbn in *. by subst.
  - split; [by apply drain_all_ok|done].
  - destruct (reopen_agrees _ _ Hok) as [H1 H2]. destruct (reopen db). cbn in *. by subst.
Qed.

Lemma ddl_run_agrees db t (ops : list (DdlOp J)) : db_ok db t -> Forall ddl_ok ops ->
  ddl_run crc32 enabled db ops = tables_run enabled t ops.
Proof using crc32_range.
  revert db t. induction ops as [|op ops IH]; intros db t Hok Hops; [done|]. apply Forall_cons in Hops as [Hop Hops].
  destruct (ddl_step_agrees db t op Hok Hop) as [Hs Ha]. cbn [ddl_run tables_run].
  destruct (ddl_step _ _ _ _) as [db' a], (tables_step _ _ _) as [t' a']. cbn in *. subst. f_equal. by apply IH.
Qed.

End steps.

Lemma new_database_ok : db_ok new_database (mkTables ∅ ∅ ∅).
Proof using crc32_range.
  split; cbn; try done. rewrite !dom_empty_L. apply create_lists.
Qed.

End directory.

(** ** Properties *)

Section properties.
Context (crc32 : list Z -> Z) (crc32_range : forall bytes, unsigned 4 (crc32 bytes)).
Context {U : CharClasses} {J : Type} (enabled : bool).

Definition ddl_state (db : Database) (ops : list (DdlOp J)) : Database :=
  foldl (fun db op => (ddl_step crc32 enabled db op).1) db ops.

Definition tables_state (t : Tables) (ops : list (DdlOp J)) : Tables :=
  foldl (fun t op => (tables_step enabled t op).1) t ops.

Lemma ddl_state_ok db t ops : db_ok crc32 db t -> Forall ddl_ok ops -> db_ok crc32 (ddl_state db ops) (tables_state t ops).
Proof using crc32_range.
  revert db t. induction ops as [|op ops IH]; intros db t Hok Hops; [done|]. apply Forall_cons in Hops as [Hop Hops].
  apply IH; [|done]. by apply ddl_step_agrees.
Qed.

(** A statement on another table, whose file is another one too. *)
Definition leaves_table (name : string) (op : DdlOp J) : Prop :=
  match op with
  | DdlCreate table _ _ | DdlDrop table _ | DdlAddColumn table _ _ =>
      bare_table_name table <> name /\ resolve_stem table <> Some name
  | _ => True
  end.

(** The table has the schema [s], in its file if there is one, and is not waiting for deletion. *)
Definition declared (name : string) (s : OnDemandSchema) (t : Tables) : Prop :=
  tb_schemas t !! name = Some s /\ (forall s', tb_files t !! name = Some s' -> s' = s) /\ name ∉ tb_dropped t.

Lemma declared_store name s t other s' : other <> name -> declared name s t -> declared name s (store_table t other s').1.
Proof using.
  intros Hne (Hs & Hf & Hd). unfold store_table. destruct (_ <? _); [done|]. split; [|done].
  cbn. by rewrite lookup_insert_ne.
Qed.

Lemma declared_forget name s t stem : stem <> name -> declared name s t -> declared name s (forget_file t stem).
Proof using.
  clear crc32_range. intros Hne (Hs & Hf & Hd). split; [done|]. cbn. split; [|set_solver]. rewrite lookup_delete_ne by done. done.
Qed.

Lemma declared_drain name s t stems : declared name s t -> declared name s (foldl delete_dropped t stems).
Proof using.
  clear crc32_range. revert t. induction stems as [|n stems IH]; intros t Ht; [done|]. apply IH. unfold delete_dropped.
  case_bool_decide as Hin; [|done]. apply declared_forget; [|done]. intros ->. by destruct Ht as (_ & _ & Hd).
Qed.

Lemma declared_drop name s t stem other if_exists :
  other <> name -> stem <> name -> declared name s t -> declared name s (drop_table t stem other if_exists).1.
Proof using.
  clear crc32_range. intros Hne Hst Ht. unfold drop_table.
  assert (Hm : declared name s (mark_dropped (mkTables (delete other (tb_schemas t)) (tb_files t) (tb_dropped t)) stem)).
  { destruct Ht as (Hs & Hf & Hd). unfold mark_dropped. cbn [tb_files].
    destruct (tb_files t !! stem); split; cbn; try (by rewrite lookup_delete_ne); split; try done. set_solver. }
  by destruct (tb_schemas t !! other), (tb_files t !! stem).
Qed.

Lemma declared_open name s t stem : name <> EmptyString -> declared name s t -> declared name s (open_schema t stem).1.
Proof using.
  clear crc32_range. intros Hne Ht. unfold open_schema. destruct (tb_files t !! stem) eqn:Hn; [done|].
  destruct (tb_schemas t !! file_stem stem) as [s0|] eqn:Hs0; [|done].
  destruct Ht as (Hs & Hf & Hd). split; [done|]. split; [|done]. cbn. intros s' Hs'.
  apply lookup_insert_Some in Hs' as [[-> ->]|[_ Hs']]; [|by apply Hf].
  unfold file_stem in Hs0. rewrite bool_decide_false in Hs0 by done. congruence.
Qed.

Lemma declared_step name s t op :
  name <> EmptyString -> leaves_table name op -> declared name s t -> declared name s (tables_step enabled t op).1.
Proof using.
  clear crc32_range.
  intros Hne Hop Ht. destruct op as [table columns ine|table ie|table column ty|table fp|stems|]; cbn [tables_step leaves_table] in *;
    unfold on_stem; try (destruct (resolve_stem table) as [stem|] eqn:Hst; [|done]).
  - destruct Hop as [Hop Hso]. assert (Hsn : stem <> name) by congruence. unfold create_table.
    destruct (tb_schemas t !! bare_table_name table); [done|]. pose proof (declared_forget _ _ _ _ Hsn Ht) as Hf.
    destruct (build_table_schema _ _) as [s'|]; [|done]. destruct (_ =? _); [done|].
    pose proof (declared_store _ _ _ _ s' Hop Hf). by destruct (store_table _ _ _).
  - destruct Hop as [Hop Hso]. pose proof (declared_drop name s t stem (bare_table_name table) ie Hop ltac:(congruence) Ht).
    by destruct (drop_table _ _ _ _).
  - destruct Hop as [Hop Hso]. unfold add_table_column. destruct (tb_files t !! stem); [done|].
    destruct (tb_schemas t !! bare_table_name table) as [s0|]; [|done].
    destruct (get_index s0 column); [done|]. destruct (ColumnType_from_data_type ty) as [cty|]; [|done].
    pose proof (declared_store _ _ _ _ (add_column s0 column cty).1 Hop Ht). by destruct (store_table _ _ _).
  - pose proof (declared_open name s t stem Hne Ht). by destruct (open_schema _ _).
  - by apply declared_drain.
  - destruct Ht as (Hs & Hf & Hd). split; [done|]. split; [done|]. cbn. set_solver.
Qed.

Lemma declared_run name s t ops :
  name <> EmptyString -> Forall (leaves_table name) ops -> declared name s t -> declared name s (tables_state t ops).
Proof using.
  intros Hne. revert t. induction ops as [|op ops IH]; intros t Hops Ht; [done|]. apply Forall_cons in Hops as [Hop Hops].
  apply IH; [done|]. by apply declared_step.
Qed.

Lemma created_declared t t' name columns :
  create_table enabled t name name columns false = (t', Ok tt) ->
  exists s, build_table_schema (J:=J) enabled columns = Ok s /\ declared name s t'.
Proof using.
  clear crc32_range. unfold create_table. destruct (tb_schemas t !! name); [done|]. destruct (build_table_schema _ _) as [s|]; [|done].
  destruct (_ =? _); [done|]. unfold store_table. destruct (_ <? _); [done|]. intros [= <-]. exists s. split; [done|].
  split; cbn; [by rewrite lookup_insert_eq|]. split; [by rewrite lookup_delete_eq|]. set_solver.
Qed.

Lemma declared_opens name s t : name <> EmptyString -> declared name s t -> (open_schema t name).2 = Ok s.
Proof using.
  clear crc32_range. intros Hne (Hs & Hf & _). unfold open_schema, file_stem. rewrite bool_decide_false by done.
  destruct (tb_files t !! name) as [s'|] eqn:He; [by rewrite (Hf s' eq_refl)|]. by rewrite Hs.
Qed.

Lemma named_nonempty name : name_ok name -> name <> EmptyString.
Proof using. clear crc32_range. intros [_ Hl] ->. cbn in Hl. lia. Qed.

End properties.



(** C40 A database that predates the registry has table files and no catalog.  CREATE TABLE of one of its
    tables, IF NOT EXISTS or not, finds no entry in the catalog it has just created, takes the file
    for an orphan and deletes it, before the column definitions are even looked at. *)
Theorem create_deletes_unregistered_table (crc32 : list Z -> Z) {J : Type} (enabled : bool)
    (files : gmap string TableFile) (stem table : string) (columns : list (ColumnDef J)) (if_not_exists : bool) :
  (forall bytes, unsigned 4 (crc32 bytes)) ->
  db_files (execute_create_table crc32 enabled (mkDatabase create_catalog None files ∅) stem table columns if_not_exists).1
    = delete stem files.
Proof.
  intros Hcrc. destruct (create_catalog_ok crc32 Hcrc) as [Hr Hn].
  destruct (snapshot_ok crc32 Hcrc _ _ Hr) as [Hs _]. rewrite Hn in Hs.
  unfold execute_create_table, db_snapshot. cbn [db_registry]. rewrite Hs, bool_decide_false by set_solver.
  set (db2 := match db_files _ !! _ with Some _ => _ | None => _ end).
  assert (Hf : db_files db2 = delete stem files).
  { unfold db2. cbn [with_registry db_files]. destruct (files !! stem) eqn:He; [done|]. cbn. by rewrite delete_id. }
  destruct (build_table_schema enabled columns) as [s|]; [|done]. unfold register_table.
  destruct (CatalogLock_insert _ _ _ _) as [r [[]|e]]; [|done]. unfold db_set_schema.
  destruct (set_schema _ _ _ _) as [sch [[]|e]]; [done|]. by destruct (CatalogLock_remove _ _ _ _).
Qed.

(** ** Concrete runs *)

Definition demo_columns : list (ColumnDef unit) :=
  [mkColumnDef "id" DtInt64 [CkPrimaryKey; CkNotNull] None;
   mkColumnDef "price" DtString [CkDefault (VInt64 0); CkCheck "price >= 0"] (Some (10, 2));
   mkColumnDef "at" DtTimestampTz [CkDefaultFunction FnCurrentTimestamp] None;
   mkColumnDef "owner" DtString [CkForeignKey "people" "id"] None].

Definition demo_schema : OnDemandSchema :=
  match build_table_schema true demo_columns with Ok s => s | Err _ => OnDemandSchema_new end.

Example demo_schema_is :
  os_columns demo_schema = [("id", TInt64); ("price", TDecimal128); ("at", TTimestampTz); ("owner", TString)]%string /\
  os_logical_types demo_schema = [None; Some (LtDecimal 10 2); Some (LtTimestampTz 0); None] /\
  (cc_default_value <$> os_constraints demo_schema) = [None; Some (DvInt64 0); Some DvCurrentTimestamp; None] /\
  (cc_foreign_key <$> os_constraints demo_schema) = [None; None; None; Some ("people", "id")]%string.
Proof. by vm_compute. Qed.

Ltac short_text_demo := apply short_name; vm_compute; reflexivity.

Lemma plain_constraints c :
  (forall v, cc_default_value c = Some v -> default_ok v) -> cc_check_expr_sql c = None -> cc_foreign_key c = None ->
  constraints_ok c.
Proof. intros Hd Hc Hf. split; [done|]. split; intros *; [by rewrite Hc|by rewrite Hf]. Qed.

Lemma demo_columns_ok : Forall column_ok demo_columns.
Proof.
  assert (Hno : forall p s : Z, None = Some (p, s) -> unsigned 1 p /\ signed 1 s) by discriminate.
  apply Forall_cons_2; [|apply Forall_cons_2; [|apply Forall_cons_2; [|apply Forall_cons_2; [|apply Forall_nil_2]]]];
    (split; [short_text_demo|split]); try exact Hno.
  - by apply plain_constraints.
  - split; [|split]; cbn; [intros ? [= <-]; by vm_compute|intros ? [= <-]|done]. split; [short_text_demo|done].
  - intros p s [= <- <-]. by vm_compute.
  - apply plain_constraints; [|done..]. cbn. by intros ? [= <-].
  - split; [|split]; cbn; [done|done|]. intros ? ? [= <- <-]. split; [split; [short_text_demo|done]|short_text_demo].
Qed.

(** A dropped table whose file is not yet deleted can be dropped again.  The table of the quoted
    name is registered, and its first access looks for another name. *)
Definition demo_ddl : list (DdlOp unit) :=
  [DdlCreate "orders" demo_columns false; DdlCreate "orders" [] true; DdlCreate "main.orders" [] false;
   DdlAddColumn "orders" "id" DtInt64; DdlOpen "orders" 1; DdlDrop "orders" false; DdlDrop "orders" false; DdlReap ["orders"%string];
   DdlDrop "orders" false; DdlCreate "my table" [] false; DdlCreate "my table" [] false; DdlOpen "my table" 3;
   DdlReopen; DdlOpen "orders" 2].

Lemma demo_ddl_ok : Forall ddl_ok demo_ddl.
Proof.
  unfold demo_ddl. repeat apply Forall_cons_2; try apply Forall_nil_2; cbn [ddl_ok]; try exact I;
    try (split; [by apply short_name_ok|]); try exact demo_columns_ok; try constructor; by apply short_name; vm_compute.
Qed.


(** The file of the table [a_b] is taken for an orphan of the table ["a b"]: CREATE of the latter deletes it,
    and DROP of the latter queues it for deletion.  The registry then makes [a_b] anew, without its rows. *)
Example names_that_share_a_file :
  let '(db, answers) := foldl (fun da op => let '(db, a) := ddl_step (U:=ascii_only) (J:=unit) sum32 true da.1 op in (db, da.2 ++ [a]))
    (new_database, []) [DdlCreate "a_b" demo_columns false; DdlOpen "a_b" 1; DdlCreate "a b" [] false] in
  answers = [AnsDone (Ok tt); AnsSchema (Ok demo_schema); AnsDone (Ok tt)] /\ db_files db = ∅.
Proof. by vm_compute. Qed.


Lemma create_deletes_unregistered_table_witness :
  db_files (execute_create_table sum32 (J:=unit) true
              (mkDatabase create_catalog None {["orders"%string := mkTableFile 1 demo_schema]} ∅) "orders" "orders" [] true).1 = ∅.
Proof.
  rewrite (create_deletes_unregistered_table sum32 true _ "orders" "orders" [] true sum32_range). by vm_compute.
Defined.
