(* ===== verification/FtsPostings.v ===== *)
(** * Full-text search: bitmaps and postings

    Models the posting lists of [fts/index.rs].  [RoaringTreemap] is a library: what the code uses
    of it is the class [Treemap], and what its documentation promises is the class [TreemapLaws]: a
    set of 64-bit integers.  [PostingDocs] keeps a posting of no or one document without a bitmap;
    [pd_docs] is the set it stands for.  Terms are lists of code points, in the order of their
    UTF-8 bytes, which is that of the code points. *)
From S2P Require Import Prelude.
Local Open Scope Z_scope.

(** ** Bitmaps *)

Class Treemap (R : Type) := {
  tm_elems : R -> gset Z;
  tm_new : R;
  tm_insert : R -> Z -> R * bool;
  tm_remove : R -> Z -> R * bool;
  tm_contains : R -> Z -> bool;
  tm_len : R -> nat;
  tm_iter : R -> list Z;
  tm_or : R -> R -> R;
  tm_and : R -> R -> R;
  tm_sub : R -> R -> R
}.

Class TreemapLaws (R : Type) `{Treemap R} := {
  elems_new : tm_elems tm_new = ∅;
  elems_insert r x : tm_elems (tm_insert r x).1 = {[x]} ∪ tm_elems r;
  insert_fresh r x : (tm_insert r x).2 = bool_decide (x ∉ tm_elems r);
  elems_remove r x : tm_elems (tm_remove r x).1 = tm_elems r ∖ {[x]};
  remove_found r x : (tm_remove r x).2 = bool_decide (x ∈ tm_elems r);
  contains_elems r x : tm_contains r x = bool_decide (x ∈ tm_elems r);
  len_elems r : tm_len r = size (tm_elems r);
  iter_elems r : tm_iter r = merge_sort Z.le (elements (tm_elems r));
  elems_or r s : tm_elems (tm_or r s) = tm_elems r ∪ tm_elems s;
  elems_and r s : tm_elems (tm_and r s) = tm_elems r ∩ tm_elems s;
  elems_sub r s : tm_elems (tm_sub r s) = tm_elems r ∖ tm_elems s
}.

Create HintDb treemap.
Hint Rewrite @elems_new @elems_insert @elems_remove @elems_or @elems_and @elems_sub @contains_elems @len_elems
  using typeclasses eauto : treemap.
Ltac treemap := autorewrite with treemap.

(** The set itself is a bitmap. *)
#[export] Instance gset_treemap : Treemap (gset Z) := {
  tm_elems r := r;
  tm_new := ∅;
  tm_insert r x := ({[x]} ∪ r, bool_decide (x ∉ r));
  tm_remove r x := (r ∖ {[x]}, bool_decide (x ∈ r));
  tm_contains r x := bool_decide (x ∈ r);
  tm_len := size;
  tm_iter r := merge_sort Z.le (elements r);
  tm_or r s := r ∪ s;
  tm_and r s := r ∩ s;
  tm_sub r s := r ∖ s
}.

#[export] Instance gset_treemap_laws : TreemapLaws (gset Z).
Proof. by split. Qed.

(** ** Terms *)

Abbreviation Text := (list Z).

Fixpoint text_compare (a b : Text) : comparison :=
  match a, b with
  | [], [] => Eq
  | [], _ :: _ => Lt
  | _ :: _, [] => Gt
  | x :: a, y :: b => match x ?= y with Eq => text_compare a b | c => c end
  end.

Definition text_lt (a b : Text) : Prop := text_compare a b = Lt.
Definition text_le (a b : Text) : Prop := text_compare a b <> Gt.
#[export] Instance text_lt_dec a b : Decision (text_lt a b).
Proof. unfold text_lt. apply _. Defined.
#[export] Instance text_le_dec a b : Decision (text_le a b).
Proof. unfold text_le. apply _. Defined.

Lemma text_compare_eq a b : text_compare a b = Eq <-> a = b.
Proof.
  revert b. induction a as [|x a IH]; intros [|y b]; simpl; try (split; congruence).
  destruct (Z.compare_spec x y) as [->|H|H]; [rewrite IH; split; congruence|..]; split; try done; intros [= -> ->]; lia.
Qed.

Lemma text_compare_antisym a b : text_compare b a = CompOpp (text_compare a b).
Proof.
  revert b. induction a as [|x a IH]; intros [|y b]; simpl; try done. rewrite (Z.compare_antisym x y).
  destruct (x ?= y); simpl; [apply IH|done|done].
Qed.

#[export] Instance text_lt_trans : Transitive text_lt.
Proof.
  unfold text_lt. intros a. induction a as [|x a IH]; intros [|y b] [|z c]; simpl; try done.
  destruct (Z.compare_spec x y) as [->|H|H]; [|intros _|done].
  - destruct (y ?= z) eqn:E; [by apply IH|done|done].
  - destruct (Z.compare_spec y z) as [->|H'|H']; [|intros _|done]; by rewrite (proj2 (Z.compare_lt_iff _ _)) by lia.
Qed.

#[export] Instance text_le_total : Total text_le.
Proof.
  intros a b. unfold text_le. rewrite (text_compare_antisym a b). destruct (text_compare a b); simpl; [left|left|right]; done.
Qed.

Lemma text_le_lt_eq a b : text_le a b <-> text_lt a b \/ a = b.
Proof.
  unfold text_le, text_lt. rewrite <-text_compare_eq. destruct (text_compare a b); naive_solver.
Qed.

#[export] Instance text_le_trans : Transitive text_le.
Proof.
  intros a b c. rewrite !text_le_lt_eq. intros [H1| ->] [H2| ->]; eauto using text_lt_trans.
Qed.

Lemma text_lt_irrefl a : ~ text_lt a a.
Proof. unfold text_lt. by rewrite (proj2 (text_compare_eq a a)). Qed.

(** ** Posting lists *)

Inductive PostingDocs (R : Type) :=
| PdEmpty
| PdOne (doc_id : Z)
| PdRoaring (docs : R).
Arguments PdEmpty {R}.
Arguments PdOne {R} doc_id.
Arguments PdRoaring {R} docs.

Record Posting (R : Type) := mkPosting {
  po_term_id : Z;
  po_docs : PostingDocs R
}.
Arguments mkPosting {R} _ _.
Arguments po_term_id {R} _.
Arguments po_docs {R} _.

Section postings.
Context {R : Type} `{TreemapLaws R}.
Implicit Types (p : PostingDocs R).

Definition first_doc (docs : R) : Z := default 0 (head (tm_iter docs)).

Definition pd_from_roaring (docs : R) : PostingDocs R :=
  match tm_len docs with
  | O => PdEmpty
  | S O => PdOne (first_doc docs)
  | _ => PdRoaring docs
  end.

Definition pd_insert p (doc_id : Z) : PostingDocs R :=
  match p with
  | PdEmpty => PdOne doc_id
  | PdOne existing =>
      if existing =? doc_id then p else PdRoaring (tm_insert (tm_insert tm_new existing).1 doc_id).1
  | PdRoaring docs => PdRoaring (tm_insert docs doc_id).1
  end.

Definition pd_remove p (doc_id : Z) : PostingDocs R :=
  match p with
  | PdEmpty => PdEmpty
  | PdOne existing => if existing =? doc_id then PdEmpty else p
  | PdRoaring docs =>
      let '(docs, removed) := tm_remove docs doc_id in
      if removed && (tm_len docs =? 1)%nat then PdOne (first_doc docs) else PdRoaring docs
  end.

Definition pd_is_empty p : bool := match p with PdEmpty => true | _ => false end.

Definition pd_to_roaring p : R :=
  match p with
  | PdEmpty => tm_new
  | PdOne doc_id => (tm_insert tm_new doc_id).1
  | PdRoaring docs => docs
  end.

Definition pd_union_into p (result : R) : R :=
  match p with
  | PdEmpty => result
  | PdOne doc_id => (tm_insert result doc_id).1
  | PdRoaring docs => tm_or result docs
  end.

Definition pd_union_owned p (other : PostingDocs R) : PostingDocs R :=
  match other, p with
  | PdEmpty, _ => p
  | PdOne doc_id, _ => pd_insert p doc_id
  | PdRoaring other_docs, PdEmpty => PdRoaring other_docs
  | PdRoaring other_docs, PdOne doc_id => PdRoaring (tm_insert other_docs doc_id).1
  | PdRoaring other_docs, PdRoaring docs => PdRoaring (tm_or docs other_docs)
  end.

Definition pd_subtract p (removed : R) : PostingDocs R :=
  match p with
  | PdEmpty => PdEmpty
  | PdOne doc_id => if tm_contains removed doc_id then PdEmpty else p
  | PdRoaring docs =>
      let docs := tm_sub docs removed in
      match tm_len docs with
      | O => PdEmpty
      | S O => PdOne (first_doc docs)
      | _ => PdRoaring docs
      end
  end.

(** ** What they stand for *)

Definition pd_docs p : gset Z :=
  match p with PdEmpty => ∅ | PdOne doc_id => {[doc_id]} | PdRoaring docs => tm_elems docs end.

(** A bitmap holds two documents or more, so a posting is [PdEmpty] exactly when it has none. *)
Definition pd_ok p : Prop := match p with PdRoaring docs => (2 <= size (tm_elems docs))%nat | _ => True end.

Lemma first_doc_of (docs : R) x : tm_elems docs = {[x]} -> first_doc docs = x.
Proof. intros Hx. unfold first_doc. by rewrite iter_elems, Hx, elements_singleton. Qed.

Lemma pd_from_roaring_ok (docs : R) : pd_docs (pd_from_roaring docs) = tm_elems docs /\ pd_ok (pd_from_roaring docs).
Proof.
  unfold pd_from_roaring. rewrite len_elems. destruct (size (tm_elems docs)) as [|[|n]] eqn:Hs.
  - apply size_empty_inv in Hs. split; [|done]. simpl. symmetry. by apply leibniz_equiv.
  - apply size_1_elem_of in Hs as [x Hx]. apply leibniz_equiv in Hx. by rewrite (first_doc_of _ x).
  - simpl. split; [done|]. rewrite Hs. lia.
Qed.

Lemma pd_is_empty_spec p : pd_ok p -> pd_is_empty p = bool_decide (pd_docs p = ∅).
Proof.
  destruct p as [|d|docs]; simpl; intros Hp; symmetry; [by rewrite bool_decide_true|rewrite bool_decide_false; [done|]..].
  - set_solver.
  - intros He. rewrite He, size_empty in Hp. lia.
Qed.

Lemma two_le (s : gset Z) x y : x ∈ s -> y ∈ s -> x <> y -> (2 <= size s)%nat.
Proof.
  intros Hx Hy Hne. transitivity (size ({[x; y]} : gset Z)); [|apply subseteq_size; set_solver].
  rewrite size_union, !size_singleton by set_solver. lia.
Qed.

Lemma pd_insert_ok p d : pd_ok p -> pd_docs (pd_insert p d) = {[d]} ∪ pd_docs p /\ pd_ok (pd_insert p d).
Proof.
  destruct p as [|e|docs]; simpl; intros Hp; [by split; [set_solver|]|..].
  - destruct (Z.eqb_spec e d) as [->|Hne]; simpl; [by split; [set_solver|]|]. treemap.
    split; [set_solver|]. apply (two_le _ d e); set_solver.
  - treemap. split; [done|]. transitivity (size (tm_elems docs)); [done|apply subseteq_size; set_solver].
Qed.

Lemma pd_remove_ok p d : pd_ok p -> pd_docs (pd_remove p d) = pd_docs p ∖ {[d]} /\ pd_ok (pd_remove p d).
Proof.
  destruct p as [|e|docs]; simpl; intros Hp; [by split; [set_solver|]|..].
  - destruct (Z.eqb_spec e d) as [->|Hne]; simpl; by split; [set_solver|].
  - pose proof (elems_remove docs d) as Hel. pose proof (remove_found docs d) as Hf.
    destruct (tm_remove docs d) as [docs' removed]. simpl in Hel, Hf. subst removed. rewrite len_elems, Hel.
    destruct (decide (d ∈ tm_elems docs)) as [Hin|Hin].
    + rewrite bool_decide_true by done. cbn [andb].
      assert (Hsz : size (tm_elems docs ∖ {[d]}) = (size (tm_elems docs) - 1)%nat)
        by (rewrite size_difference, size_singleton by set_solver; done).
      destruct (Nat.eqb_spec (size (tm_elems docs ∖ {[d]})) 1) as [H1|H1]; simpl.
      * apply size_1_elem_of in H1 as [x Hx]. apply leibniz_equiv in Hx. rewrite (first_doc_of _ x) by congruence. by rewrite Hx.
      * split; [done|]. rewrite Hel. lia.
    + rewrite bool_decide_false by done. simpl. split; [done|]. rewrite Hel.
      replace (tm_elems docs ∖ {[d]}) with (tm_elems docs) by set_solver. done.
Qed.

Lemma pd_to_roaring_elems p : tm_elems (pd_to_roaring p) = pd_docs p.
Proof. destruct p; simpl; treemap; set_solver. Qed.

Lemma pd_union_into_elems p r : tm_elems (pd_union_into p r) = tm_elems r ∪ pd_docs p.
Proof. destruct p; simpl; treemap; set_solver. Qed.

Lemma pd_union_owned_ok p q : pd_ok p -> pd_ok q ->
  pd_docs (pd_union_owned p q) = pd_docs p ∪ pd_docs q /\ pd_ok (pd_union_owned p q).
Proof.
  intros Hp Hq. destruct q as [|d|other].
  - split; [simpl; set_solver|done].
  - destruct (pd_insert_ok p d Hp) as [He Ho]. simpl. rewrite He. split; [set_solver|done].
  - destruct p as [|e|docs]; simpl in *; treemap.
    + by split; [set_solver|].
    + split; [done|]. transitivity (size (tm_elems other)); [done|apply subseteq_size; set_solver].
    + split; [done|]. transitivity (size (tm_elems docs)); [done|apply subseteq_size; set_solver].
Qed.

Lemma pd_subtract_ok p r : pd_docs (pd_subtract p r) = pd_docs p ∖ tm_elems r /\ pd_ok (pd_subtract p r).
Proof.
  destruct p as [|d|docs]; cbn [pd_subtract].
  - by split; [simpl; set_solver|].
  - rewrite contains_elems. case_bool_decide; simpl; by split; [set_solver|].
  - pose proof (pd_from_roaring_ok (tm_sub docs r)) as Hs. unfold pd_from_roaring in Hs. rewrite elems_sub in Hs. exact Hs.
Qed.

End postings.
