(* ===== verification/FtsIndex.v ===== *)
(** * Full-text search: the index

    Models [IndexState] of [fts/index.rs]: an immutable base (postings by term, in memory or in the
    sorted directory of a mapped snapshot, with the packed tokens of its documents), and a delta of
    later documents that shadows it.  [AHashMap] is a finite map.  The statistics for ranking
    ([live_term_total] and its cache) and the cache of decoded postings are left out, and so are
    the errors of a directory that was validated when it was mapped.  The terms of one document
    are counted without the wrap-around of their [u32] counter. *)
From S2P Require Import Prelude FtsPostings.
Local Open Scope Z_scope.

(** A document as the analyzer leaves it: its distinct terms, and its tokens as one-based indexes
    into the terms, 0 between two fields. *)
Record AnalyzedDocument := mkAnalyzed {
  ad_terms : list Text;
  ad_tokens : list Z
}.

Inductive WalOp :=
| WalUpsert (doc_id : Z) (terms : list Text) (tokens : list Z)
| WalDelete (doc_id : Z).

(** ** Packed tokens *)

Record PackedDocTokens := mkPacked {
  pt_doc_ids : list Z;
  pt_offsets : list nat;
  pt_tokens : list Z
}.

Definition packed_default : PackedDocTokens := mkPacked [] [] [].

(** The tokens of the document at an index. *)
Definition packed_at (p : PackedDocTokens) (index : nat) : option (list Z) :=
  start ← pt_offsets p !! index;
  stop ← pt_offsets p !! S index;
  Some (take (stop - start) (drop start (pt_tokens p))).

(** [binary_search] finds an element of a sorted list. *)
Definition packed_get (p : PackedDocTokens) (doc_id : Z) : option (list Z) :=
  '(index, _) ← list_find (doc_id =.) (pt_doc_ids p); packed_at p index.

(** Every document with its tokens. *)
Definition packed_records (p : PackedDocTokens) : list (Z * list Z) :=
  omap (fun index => d ← pt_doc_ids p !! index; pair d <$> packed_at p index) (seq 0 (length (pt_doc_ids p))).

Definition record_le (a b : Z * list Z) : Prop := a.1 <= b.1.
#[export] Instance record_le_dec a b : Decision (record_le a b).
Proof. unfold record_le. apply _. Defined.

Definition pack_record (p : PackedDocTokens) (r : Z * list Z) : PackedDocTokens :=
  let tokens := pt_tokens p ++ r.2 in
  mkPacked (pt_doc_ids p ++ [r.1]) (pt_offsets p ++ [length tokens]) tokens.

Definition from_records (records : list (Z * list Z)) : PackedDocTokens :=
  foldl pack_record (mkPacked [] [0%nat] []) (merge_sort record_le records).

Section index.
Context {R : Type} `{TreemapLaws R}.

(** ** The directory of a snapshot *)

Abbreviation Directory := (list (Text * Posting R)).

(** [find], between [low] and [high]; the fuel is the distance. *)
Fixpoint find_loop (fuel : nat) (dir : Directory) (term : Text) (low high : nat) : option (nat * Posting R) :=
  match fuel with
  | O => None
  | S fuel =>
      if (low <? high)%nat then
        let mid := (low + (high - low) / 2)%nat in
        match dir !! mid with
        | None => None
        | Some (t, p) =>
            match text_compare t term with
            | Lt => find_loop fuel dir term (S mid) high
            | Gt => find_loop fuel dir term low mid
            | Eq => Some (mid, p)
            end
        end
      else None
  end.

Definition dir_find (dir : Directory) (term : Text) : option (nat * Posting R) :=
  find_loop (S (length dir)) dir term 0 (length dir).

(** [MmapTermDirectory::posting]: a bitmap is decoded again from its bytes. *)
Definition dir_posting (dir : Directory) (term : Text) : option (Posting R) :=
  '(_, p) ← dir_find dir term;
  Some match po_docs p with
       | PdRoaring docs => mkPosting (po_term_id p) (pd_from_roaring docs)
       | _ => p
       end.

Definition materialize (dir : Directory) : gmap Text (Posting R) :=
  foldl (fun m e => <[e.1 := mkPosting (po_term_id e.2) (match po_docs e.2 with
                                                      | PdRoaring docs => pd_from_roaring docs
                                                      | d => d
                                                      end)]> m) ∅ dir.

(** ** The state *)

Record IndexState := mkIndex {
  ix_base_postings : gmap Text (Posting R);
  ix_mmap_postings : option Directory;
  ix_base_docs : R;
  ix_base_tokens : PackedDocTokens;
  ix_delta_postings : gmap Text (Posting R);
  ix_delta_docs : R;
  ix_delta_tokens : gmap Z (list Z);
  ix_shadowed_docs : R;
  ix_deleted_docs : R;
  ix_pending_wal : list WalOp;
  ix_next_term_id : Z;
  ix_needs_rebuild : bool
}.

Definition IndexState_default : IndexState :=
  mkIndex ∅ None tm_new packed_default ∅ tm_new ∅ tm_new tm_new [] 0 false.

Implicit Types (st : IndexState).

Definition set_needs_rebuild st (b : bool) : IndexState :=
  mkIndex (ix_base_postings st) (ix_mmap_postings st) (ix_base_docs st) (ix_base_tokens st) (ix_delta_postings st)
    (ix_delta_docs st) (ix_delta_tokens st) (ix_shadowed_docs st) (ix_deleted_docs st) (ix_pending_wal st)
    (ix_next_term_id st) b.

Definition push_wal st (ops : list WalOp) : IndexState :=
  mkIndex (ix_base_postings st) (ix_mmap_postings st) (ix_base_docs st) (ix_base_tokens st) (ix_delta_postings st)
    (ix_delta_docs st) (ix_delta_tokens st) (ix_shadowed_docs st) (ix_deleted_docs st) (ix_pending_wal st ++ ops)
    (ix_next_term_id st) (ix_needs_rebuild st).

Definition clear_wal st : IndexState :=
  mkIndex (ix_base_postings st) (ix_mmap_postings st) (ix_base_docs st) (ix_base_tokens st) (ix_delta_postings st)
    (ix_delta_docs st) (ix_delta_tokens st) (ix_shadowed_docs st) (ix_deleted_docs st) []
    (ix_next_term_id st) (ix_needs_rebuild st).

Definition can_build_base st : bool :=
  bool_decide (ix_base_postings st = ∅) && (tm_len (ix_base_docs st) =? 0)%nat && bool_decide (ix_mmap_postings st = None)
  && bool_decide (pt_doc_ids (ix_base_tokens st) = []) && bool_decide (ix_delta_postings st = ∅)
  && (tm_len (ix_delta_docs st) =? 0)%nat && bool_decide (ix_delta_tokens st = ∅) && bool_decide (ix_pending_wal st = []).

(** [u32::saturating_add(1)] *)
Definition succ_u32 (x : Z) : Z := Z.min (x + 1) (2 ^ 32 - 1).

(** Local tokens to global ones. *)
Definition global_tokens (ids : list Z) (tokens : list Z) : list Z :=
  (fun local_id => if local_id =? 0 then 0 else default 0 (ids !! Z.to_nat (local_id - 1))) <$> tokens.

(** One term of a document in [build_base]: the postings, the next id, the ids so far. *)
Definition bulk_term (doc_id : Z) (acc : gmap Text (Posting R) * Z * list Z) (term : Text)
    : gmap Text (Posting R) * Z * list Z :=
  let '(postings, next, ids) := acc in
  let '(posting, next) :=
    match postings !! term with
    | Some posting => (posting, next)
    | None => (mkPosting (Z.max next 1) PdEmpty, succ_u32 next)
    end in
  (<[term := mkPosting (po_term_id posting) (pd_insert (po_docs posting) doc_id)]> postings, next,
   ids ++ [po_term_id posting]).

Definition bulk_document (acc : gmap Text (Posting R) * Z * R * list (Z * list Z)) (d : Z * AnalyzedDocument)
    : gmap Text (Posting R) * Z * R * list (Z * list Z) :=
  let '(postings, next, docs, records) := acc in
  let '(postings, next, ids) := foldl (bulk_term d.1) (postings, next, []) (ad_terms d.2) in
  (postings, next, (tm_insert docs d.1).1, records ++ [(d.1, global_tokens ids (ad_tokens d.2))]).

Definition build_base st (analyzed : list (Z * AnalyzedDocument)) : IndexState :=
  let '(postings, next, docs, records) :=
    foldl bulk_document (∅, ix_next_term_id st, ix_base_docs st, []) analyzed in
  mkIndex postings (ix_mmap_postings st) docs (from_records records) (ix_delta_postings st)
    (ix_delta_docs st) (ix_delta_tokens st) (ix_shadowed_docs st) (ix_deleted_docs st) (ix_pending_wal st) next false.

(** [retain(|_, posting| { posting.docs = f(posting.docs); !posting.docs.is_empty() })] *)
Definition retain_postings (f : PostingDocs R -> PostingDocs R) (m : gmap Text (Posting R)) : gmap Text (Posting R) :=
  omap (fun p => let docs := f (po_docs p) in if pd_is_empty docs then None else Some (mkPosting (po_term_id p) docs)) m.

Definition remove_from_delta st (doc_id : Z) : IndexState :=
  let '(delta_docs, removed) := tm_remove (ix_delta_docs st) doc_id in
  if negb removed then st
  else
    mkIndex (ix_base_postings st) (ix_mmap_postings st) (ix_base_docs st) (ix_base_tokens st)
      (retain_postings (fun docs => pd_remove docs doc_id) (ix_delta_postings st))
      delta_docs (delete doc_id (ix_delta_tokens st)) (ix_shadowed_docs st) (ix_deleted_docs st)
      (ix_pending_wal st) (ix_next_term_id st) (ix_needs_rebuild st).

(** The base posting of a term, in memory or mapped. *)
Definition base_posting st (term : Text) : option (Posting R) :=
  match ix_base_postings st !! term with
  | Some p => Some p
  | None => dir ← ix_mmap_postings st; dir_posting dir term
  end.

Definition term_id st (term : Text) : option Z :=
  match ix_delta_postings st !! term with
  | Some p => Some (po_term_id p)
  | None => po_term_id <$> base_posting st term
  end.

(** One term of a document in [apply_upsert]. *)
Definition upsert_term (doc_id : Z) (acc : IndexState * list Z) (term : Text) : IndexState * list Z :=
  let '(st, ids) := acc in
  let '(posting, next) :=
    match ix_delta_postings st !! term with
    | Some posting => (posting, ix_next_term_id st)
    | None =>
        match term_id st term with
        | Some id => (mkPosting id PdEmpty, ix_next_term_id st)
        | None =>
            let id := Z.max (ix_next_term_id st) 1 in
            let next := succ_u32 (ix_next_term_id st) in
            (mkPosting id PdEmpty, if next <=? id then succ_u32 id else next)
        end
    end in
  (mkIndex (ix_base_postings st) (ix_mmap_postings st) (ix_base_docs st) (ix_base_tokens st)
     (<[term := mkPosting (po_term_id posting) (pd_insert (po_docs posting) doc_id)]> (ix_delta_postings st))
     (ix_delta_docs st) (ix_delta_tokens st) (ix_shadowed_docs st) (ix_deleted_docs st) (ix_pending_wal st) next
     (ix_needs_rebuild st),
   ids ++ [po_term_id posting]).

Definition mark_upserted st (doc_id : Z) : IndexState :=
  mkIndex (ix_base_postings st) (ix_mmap_postings st) (ix_base_docs st) (ix_base_tokens st) (ix_delta_postings st)
    (tm_insert (ix_delta_docs st) doc_id).1 (ix_delta_tokens st) (tm_insert (ix_shadowed_docs st) doc_id).1
    (tm_remove (ix_deleted_docs st) doc_id).1 (ix_pending_wal st) (ix_next_term_id st) (ix_needs_rebuild st).

Definition set_delta_tokens st (doc_id : Z) (tokens : list Z) : IndexState :=
  mkIndex (ix_base_postings st) (ix_mmap_postings st) (ix_base_docs st) (ix_base_tokens st) (ix_delta_postings st)
    (ix_delta_docs st) (<[doc_id := tokens]> (ix_delta_tokens st)) (ix_shadowed_docs st) (ix_deleted_docs st)
    (ix_pending_wal st) (ix_next_term_id st) (ix_needs_rebuild st).

Definition apply_upsert st (doc_id : Z) (analyzed : AnalyzedDocument) (record_wal : bool) : IndexState :=
  let st := mark_upserted (remove_from_delta st doc_id) doc_id in
  let '(st, ids) := foldl (upsert_term doc_id) (st, []) (ad_terms analyzed) in
  let st := set_delta_tokens st doc_id (global_tokens ids (ad_tokens analyzed)) in
  if record_wal then push_wal st [WalUpsert doc_id (ad_terms analyzed) (ad_tokens analyzed)] else st.

Definition mark_deleted st (doc_id : Z) : IndexState :=
  mkIndex (ix_base_postings st) (ix_mmap_postings st) (ix_base_docs st) (ix_base_tokens st) (ix_delta_postings st)
    (ix_delta_docs st) (ix_delta_tokens st) (tm_insert (ix_shadowed_docs st) doc_id).1
    (tm_insert (ix_deleted_docs st) doc_id).1 (ix_pending_wal st) (ix_next_term_id st) (ix_needs_rebuild st).

Definition apply_delete st (doc_id : Z) (record_wal : bool) : IndexState :=
  let st := mark_deleted (remove_from_delta st doc_id) doc_id in
  if record_wal then push_wal st [WalDelete doc_id] else st.

(** [IndexState::posting] *)
Definition live_posting st (term : Text) : R :=
  let result :=
    match base_posting st term with
    | Some posting => pd_to_roaring (po_docs posting)
    | None => tm_new
    end in
  let result := tm_sub result (ix_shadowed_docs st) in
  let result :=
    match ix_delta_postings st !! term with
    | Some delta => pd_union_into (po_docs delta) result
    | None => result
    end in
  tm_sub result (ix_deleted_docs st).

Definition tokens_for_doc st (doc_id : Z) : option (list Z) :=
  if tm_contains (ix_deleted_docs st) doc_id then None
  else
    match ix_delta_tokens st !! doc_id with
    | Some tokens => Some tokens
    | None => if tm_contains (ix_shadowed_docs st) doc_id then None else packed_get (ix_base_tokens st) doc_id
    end.

Definition live_docs st : R :=
  tm_sub (tm_or (tm_sub (ix_base_docs st) (ix_shadowed_docs st)) (ix_delta_docs st)) (ix_deleted_docs st).

(** ** Folding the delta into the base *)

Definition merge_posting (term : Text) (delta : Posting R) (base : gmap Text (Posting R)) : gmap Text (Posting R) :=
  match base !! term with
  | Some p => <[term := mkPosting (po_term_id p) (pd_union_owned (po_docs p) (po_docs delta))]> base
  | None => <[term := delta]> base
  end.

(** The records of the base documents that are neither shadowed nor deleted. *)
Definition kept_records st : list (Z * list Z) :=
  List.filter (fun r => negb (tm_contains (ix_shadowed_docs st) r.1) && negb (tm_contains (ix_deleted_docs st) r.1))
    (packed_records (ix_base_tokens st)).

Definition delta_records st : list (Z * list Z) :=
  List.filter (fun r => negb (tm_contains (ix_deleted_docs st) r.1)) (map_to_list (ix_delta_tokens st)).

Definition merge_delta st : IndexState :=
  let base := match ix_mmap_postings st with Some dir => materialize dir | None => ix_base_postings st end in
  let shadowed := negb (tm_len (ix_shadowed_docs st) =? 0)%nat in
  let base := if shadowed then retain_postings (fun docs => pd_subtract docs (ix_shadowed_docs st)) base else base in
  let base_docs := if shadowed then tm_sub (ix_base_docs st) (ix_shadowed_docs st) else ix_base_docs st in
  mkIndex (map_fold merge_posting base (ix_delta_postings st)) None
    (tm_sub (tm_or base_docs (ix_delta_docs st)) (ix_deleted_docs st))
    (from_records (kept_records st ++ delta_records st)) ∅ tm_new ∅ tm_new tm_new (ix_pending_wal st)
    (ix_next_term_id st) (ix_needs_rebuild st).

End index.
Arguments IndexState R : clear implicits.

(** ** Packed tokens hold their records *)

Definition packs (p : PackedDocTokens) (records : list (Z * list Z)) : Prop :=
  pt_doc_ids p = records.*1 /\ forall i, (i < length records)%nat -> packed_at p i = snd <$> records !! i.

Lemma pack_fold records :
  let p := foldl pack_record (mkPacked [] [0%nat] []) records in
  pt_doc_ids p = records.*1 /\ pt_tokens p = concat records.*2 /\ length (pt_offsets p) = S (length records) /\
  forall i, (i <= length records)%nat -> pt_offsets p !! i = Some (length (concat (take i records.*2))).
Proof.
  induction records as [|r records IH] using rev_ind; simpl.
  { split_and!; try done. intros i Hi. by destruct i; [|lia]. }
  rewrite foldl_app. destruct IH as (H1 & H2 & H3 & H4). set (p := foldl _ _ _) in *. cbn [foldl pack_record pt_doc_ids pt_tokens pt_offsets].
  rewrite !fmap_app, concat_app, H1, H2. cbn [fmap list_fmap concat]. rewrite app_nil_r. split_and!; [done|done|rewrite !length_app, H3; done|].
  intros i Hi. rewrite length_app in Hi. cbn [length] in Hi. destruct (decide (i = S (length records))) as [->|Hne].
  - rewrite lookup_app_r, H3, Nat.sub_diag by (rewrite H3; lia). cbn. rewrite firstn_all2 by (rewrite length_app, length_fmap; cbn; lia).
    rewrite concat_app. cbn [concat]. by rewrite app_nil_r.
  - rewrite lookup_app_l by (rewrite H3; lia). rewrite H4 by lia. do 2 f_equal. rewrite take_app_le by (rewrite length_fmap; lia). done.
Qed.

Lemma from_records_packs records : packs (from_records records) (merge_sort record_le records).
Proof.
  unfold from_records. set (l := merge_sort _ _). destruct (pack_fold l) as (H1 & H2 & H3 & H4). split; [done|].
  intros i Hi. unfold packed_at. rewrite !H4 by lia. cbn [mbind option_bind]. rewrite H2.
  destruct (lookup_lt_is_Some_2 l i Hi) as [r Hr]. rewrite Hr. cbn [fmap option_fmap option_map]. f_equal.
  assert (Hr2 : l.*2 !! i = Some r.2) by by rewrite list_lookup_fmap, Hr.
  rewrite (take_S_r _ _ _ Hr2), concat_app, length_app. cbn [concat]. rewrite app_nil_r, Nat.add_comm, Nat.add_sub.
  replace (concat l.*2) with (concat (take i l.*2) ++ concat (drop i l.*2)) by by rewrite <-concat_app, take_drop.
  rewrite drop_app_length.
  rewrite (drop_S _ _ _ Hr2). cbn [concat]. by rewrite take_app_length.
Qed.

Lemma packs_records p records : packs p records -> packed_records p = records.
Proof.
  intros [Hids Hat]. unfold packed_records. rewrite Hids, length_fmap.
  assert (Hgo : forall front back, records = front ++ back ->
    omap (fun index => d ← records.*1 !! index; pair d <$> packed_at p index) (seq (length front) (length back)) = back).
  { intros front back. revert front. induction back as [|r back IH]; intros front Heq; [done|]. cbn [length seq].
    assert (Hr : records !! length front = Some r) by (rewrite Heq; by apply list_lookup_middle).
    cbn [omap list_omap]. rewrite list_lookup_fmap, Hr. cbn [fmap option_fmap option_map mbind option_bind].
    rewrite Hat, Hr by (rewrite Heq, length_app; cbn; lia). cbn. destruct r as [d ts]. cbn. f_equal.
    replace (S (length front)) with (length (front ++ [(d, ts)])) by (rewrite length_app; cbn; lia).
    apply IH. by rewrite <-app_assoc. }
  by apply (Hgo [] records).
Qed.

Lemma packs_get p records d : packs p records -> NoDup records.*1 -> packed_get p d = (list_to_map records : gmap Z (list Z)) !! d.
Proof.
  intros [Hids Hat] Hnd. unfold packed_get. rewrite Hids.
  destruct (list_find (d =.) records.*1) as [[i x]|] eqn:Hf; cbn.
  - apply list_find_Some in Hf as (Hi & <- & _). rewrite list_lookup_fmap in Hi. destruct (records !! i) as [[d' ts]|] eqn:Hr; [|done].
    injection Hi as ->. rewrite Hat, Hr by by eapply lookup_lt_Some. cbn. symmetry.
    apply elem_of_list_to_map; [done|]. by eapply list_elem_of_lookup_2.
  - symmetry. apply not_elem_of_list_to_map. apply list_find_None in Hf. intros Hin. by apply (proj1 (Forall_forall _ _) Hf) in Hin.
Qed.

Lemma from_records_get records d : NoDup records.*1 ->
  packed_get (from_records records) d = (list_to_map records : gmap Z (list Z)) !! d.
Proof.
  intros Hnd. pose proof (merge_sort_Permutation record_le records) as Hperm.
  rewrite (packs_get _ _ _ (from_records_packs records)) by by rewrite Hperm.
  f_equal. apply list_to_map_proper; [by rewrite Hperm|done].
Qed.
