(* ===== verification/FtsDocs.v ===== *)
(** * Full-text search: the index stands for its documents

    The collections behind an index: [B] is what its base holds and [D] what its delta holds.
    [holds st B D] says that the state represents them: the postings of base and delta list exactly
    the documents with each term, the shadowed documents are the deleted ones and those of the
    delta.  [live_docs_of] is the collection a reader sees, and every operation of the index is an
    operation on it. *)
From S2P Require Import Prelude FtsPostings FtsIndex.
Local Open Scope Z_scope.

Abbreviation Docs := (gmap Z AnalyzedDocument).

(** The documents that have a term. *)
Definition docs_with (M : Docs) (t : Text) : gset Z := dom (filter (fun '(_, a) => t ∈ ad_terms a) M).

(** A collection without some documents. *)
Definition without (X : gset Z) (M : Docs) : Docs := filter (fun '(d, _) => d ∉ X) M.

Lemma elem_docs_with M t d : d ∈ docs_with M t <-> exists a, M !! d = Some a /\ t ∈ ad_terms a.
Proof.
  unfold docs_with. rewrite elem_of_dom. split.
  - intros [a Ha]. apply map_lookup_filter_Some in Ha. eauto.
  - intros (a & Ha & Ht). exists a. by apply map_lookup_filter_Some.
Qed.

Lemma lookup_without X M d : without X M !! d = if decide (d ∈ X) then None else M !! d.
Proof.
  unfold without. destruct (decide (d ∈ X)) as [Hd|Hd].
  - apply map_lookup_filter_None. right. intros a _ Hn. by apply Hn.
  - apply option_eq. intros a. rewrite map_lookup_filter_Some. naive_solver.
Qed.

Lemma dom_without X M : dom (without X M) = dom M ∖ X.
Proof.
  apply set_eq. intros d. rewrite elem_of_difference, !elem_of_dom, lookup_without. case_decide; split; try naive_solver.
Qed.

Lemma without_empty M : without ∅ M = M.
Proof. apply map_eq. intros d. rewrite lookup_without. by case_decide; [set_solver|]. Qed.

Lemma without_one d M : without {[d]} M = delete d M.
Proof.
  apply map_eq. intros e. rewrite lookup_without. case_decide as H; rewrite elem_of_singleton in H.
  - subst. by rewrite lookup_delete_eq.
  - by rewrite lookup_delete_ne.
Qed.

Lemma docs_with_without X M t : docs_with (without X M) t = docs_with M t ∖ X.
Proof.
  apply set_eq. intros d. rewrite elem_of_difference, !elem_docs_with, lookup_without. case_decide; naive_solver.
Qed.

Lemma docs_with_delete d M t : docs_with (delete d M) t = docs_with M t ∖ {[d]}.
Proof. by rewrite <-without_one, docs_with_without. Qed.

Lemma docs_with_union M N t : docs_with (M ∪ N) t = docs_with M t ∪ docs_with (without (dom M) N) t.
Proof.
  apply set_eq. intros d. rewrite elem_of_union, !elem_docs_with, lookup_without, lookup_union.
  case_decide as Hd; rewrite elem_of_dom in Hd.
  - destruct Hd as [a Ha]. rewrite Ha. destruct (N !! d); simpl; naive_solver.
  - apply eq_None_not_Some in Hd. rewrite Hd. destruct (N !! d); simpl; naive_solver.
Qed.

Lemma docs_with_insert d a M t :
  docs_with (<[d := a]> M) t = (if decide (t ∈ ad_terms a) then {[d]} else ∅) ∪ docs_with (delete d M) t.
Proof.
  apply set_eq. intros e. rewrite elem_of_union, !elem_docs_with. destruct (decide (e = d)) as [->|Hne].
  - rewrite lookup_insert_eq, lookup_delete_eq. case_decide; set_solver.
  - rewrite lookup_insert_ne, lookup_delete_ne by done. case_decide; set_solver.
Qed.

Section docs.
Context {R : Type} `{TreemapLaws R}.
Implicit Types (st : IndexState R) (m : gmap Text (Posting R)).

(** ** The base, in memory or mapped *)

(** A directory as [persist_snapshot] writes it: strictly sorted. *)
Definition dir_ok (dir : list (Text * Posting R)) : Prop :=
  StronglySorted text_lt dir.*1 /\ Forall (fun e => pd_ok (po_docs e.2)) dir.

Definition base_map st : gmap Text (Posting R) :=
  match ix_mmap_postings st with Some dir => list_to_map dir | None => ix_base_postings st end.

Definition base_ok st : Prop :=
  match ix_mmap_postings st with Some dir => ix_base_postings st = ∅ /\ dir_ok dir | None => True end.

Lemma sorted_lookup_lt (l : list Text) i j a b : StronglySorted text_lt l ->
  l !! i = Some a -> l !! j = Some b -> (i < j)%nat -> text_lt a b.
Proof.
  intros Hs. revert i j. induction Hs as [|x l Hs IH Hx]; intros [|i] [|j] Hi Hj Hlt; simpl in *; try done; try lia.
  - injection Hi as ->. exact (Forall_lookup_1 _ _ _ _ Hx Hj).
  - eapply IH; eauto. lia.
Qed.

Lemma sorted_nodup (l : list Text) : StronglySorted text_lt l -> NoDup l.
Proof.
  induction 1 as [|x l Hs IH Hx]; constructor; [|done]. intros Hin. exact (text_lt_irrefl _ (proj1 (Forall_forall _ _) Hx _ Hin)).
Qed.

(** The search stays between what is smaller and what is larger. *)
Lemma find_loop_some fuel dir t low high i (p : Posting R) :
  find_loop fuel dir t low high = Some (i, p) -> dir !! i = Some (t, p).
Proof.
  revert low high. induction fuel as [|fuel IH]; intros low high Hf; [done|]. cbn [find_loop] in Hf. cbv zeta in Hf.
  destruct (low <? high)%nat; [|done]. destruct (dir !! (low + _)%nat) as [[u q]|] eqn:Hu; [|done].
  destruct (text_compare u t) eqn:Hc; [|exact (IH _ _ Hf)..]. injection Hf as <- <-. apply text_compare_eq in Hc. by rewrite <-Hc.
Qed.

Lemma find_loop_none fuel (dir : list (Text * Posting R)) t low high : StronglySorted text_lt dir.*1 ->
  (high <= length dir)%nat -> (high - low < fuel)%nat -> find_loop fuel dir t low high = None ->
  forall i p, (low <= i < high)%nat -> dir !! i <> Some (t, p).
Proof.
  intros Hs. revert low high. induction fuel as [|fuel IH]; intros low high Hlen Hfuel Hf i p Hi; [lia|].
  cbn [find_loop] in Hf. cbv zeta in Hf. destruct (Nat.ltb_spec low high) as [Hlt|]; [|lia].
  pose proof (Nat.div_lt (high - low) 2 ltac:(lia) ltac:(lia)) as Hmid.
  remember (low + (high - low) / 2)%nat as mid eqn:Hm.
  destruct (lookup_lt_is_Some_2 dir mid ltac:(lia)) as [[u q] Hu]. rewrite Hu in Hf.
  assert (Hu1 : dir.*1 !! mid = Some u) by by rewrite list_lookup_fmap, Hu.
  intros Hd. assert (Hd1 : dir.*1 !! i = Some t) by by rewrite list_lookup_fmap, Hd.
  destruct (text_compare u t) eqn:Hc; [done|..].
  - destruct (decide (i <= mid)%nat) as [Hle|]; [|by apply (IH (S mid) high ltac:(lia) ltac:(lia) Hf i p); [lia|]].
    destruct (decide (i = mid)) as [->|]; [rewrite Hd1 in Hu1; injection Hu1 as ->; by apply (text_lt_irrefl u)|].
    apply (text_lt_irrefl u). transitivity t; [done|]. eapply sorted_lookup_lt; eauto. lia.
  - destruct (decide (i < mid)%nat) as [|Hge]; [by apply (IH low mid ltac:(lia) ltac:(lia) Hf i p); [lia|]|].
    assert (Htu : text_lt t u) by (unfold text_lt; by rewrite text_compare_antisym, Hc).
    destruct (decide (i = mid)) as [->|]; [rewrite Hd1 in Hu1; injection Hu1 as ->; by apply (text_lt_irrefl u)|].
    apply (text_lt_irrefl u). transitivity t; [|done]. eapply sorted_lookup_lt; eauto. lia.
Qed.

Lemma pd_from_roaring_id (docs : R) : pd_ok (PdRoaring docs) -> pd_from_roaring docs = PdRoaring docs.
Proof. cbn [pd_ok]. intros Hs. unfold pd_from_roaring. rewrite len_elems. destruct (size _) as [|[|]]; [lia|lia|done]. Qed.

Lemma decode_id (p : Posting R) : pd_ok (po_docs p) ->
  mkPosting (po_term_id p) (match po_docs p with PdRoaring docs => pd_from_roaring docs | d => d end) = p.
Proof. destruct p as [i [|d|docs]]; cbn [po_docs po_term_id]; intros Hp; [done..|]. by rewrite pd_from_roaring_id. Qed.

(** The directory is a map. *)
Lemma dir_posting_map dir t : dir_ok dir -> dir_posting dir t = (list_to_map dir : gmap Text (Posting R)) !! t.
Proof.
  intros [Hs Hok]. unfold dir_posting, dir_find.
  destruct (find_loop _ dir t 0 (length dir)) as [[i p]|] eqn:Hf; cbn.
  - apply find_loop_some in Hf. symmetry. transitivity (Some p).
    { apply elem_of_list_to_map_1; [by apply sorted_nodup|]. by eapply list_elem_of_lookup_2. }
    pose proof (Forall_lookup_1 _ _ _ _ Hok Hf) as Hp. f_equal. destruct p as [j [|d|docs]]; [done..|]. cbn in *.
    by rewrite pd_from_roaring_id.
  - symmetry. apply not_elem_of_list_to_map_1. intros ([u p] & -> & Hin)%list_elem_of_fmap.
    apply list_elem_of_lookup in Hin as [i Hi]. eapply (find_loop_none _ _ _ _ _ Hs _ _ Hf); [|exact Hi].
    split; [lia|]. by eapply lookup_lt_Some.
  Unshelve. all: lia.
Qed.

Lemma materialize_map dir : dir_ok dir -> materialize dir = list_to_map dir.
Proof.
  intros [Hs Hok]. apply sorted_nodup in Hs. unfold materialize.
  induction dir as [|e dir IH] using rev_ind; [done|]. rewrite fmap_app in Hs. apply NoDup_app in Hs as (Hs & Hne & _).
  apply Forall_app in Hok as [Hok He]. apply Forall_inv in He.
  rewrite foldl_app, IH by done. cbn [foldl].
  rewrite decode_id by exact He. destruct e as [t p]. rewrite list_to_map_snoc; [done|].
  intros Hin. apply (Hne t Hin). cbn. by left.
Qed.

Lemma base_posting_map st t : base_ok st -> base_posting st t = base_map st !! t.
Proof.
  unfold base_ok, base_posting, base_map. destruct (ix_mmap_postings st) as [dir|].
  - intros [-> Hdir]. rewrite lookup_empty. cbn. by apply dir_posting_map.
  - intros _. by destruct (ix_base_postings st !! t).
Qed.

(** ** The postings of a collection *)

Definition postings_of m (M : Docs) : Prop :=
  forall t, match m !! t with
       | Some p => pd_ok (po_docs p) /\ pd_docs (po_docs p) = docs_with M t
       | None => docs_with M t = ∅
       end.

Lemma postings_of_some m M t p : postings_of m M -> m !! t = Some p -> pd_ok (po_docs p) /\ pd_docs (po_docs p) = docs_with M t.
Proof. intros Hm Ht. specialize (Hm t). by rewrite Ht in Hm. Qed.

Lemma postings_of_none m M t : postings_of m M -> m !! t = None -> docs_with M t = ∅.
Proof. intros Hm Ht. specialize (Hm t). by rewrite Ht in Hm. Qed.

Lemma postings_of_empty : postings_of ∅ ∅.
Proof. intros t. rewrite lookup_empty. done. Qed.

Lemma postings_of_same m M N : (forall t, docs_with M t = docs_with N t) -> postings_of m M -> postings_of m N.
Proof. intros Heq Hm t. specialize (Hm t). by rewrite Heq in Hm. Qed.

(** [retain] with a function that takes documents away. *)
Lemma retain_postings_of f (X : gset Z) m M :
  (forall p, pd_ok p -> pd_docs (f p) = pd_docs p ∖ X /\ pd_ok (f p)) ->
  postings_of m M -> postings_of (retain_postings f m) (without X M).
Proof.
  intros Hf Hm t. unfold retain_postings. rewrite lookup_omap. rewrite docs_with_without.
  destruct (m !! t) as [p|] eqn:Ht; cbn.
  - destruct (postings_of_some _ _ _ _ Hm Ht) as [Hok Hdocs]. destruct (Hf _ Hok) as [He Ho].
    rewrite pd_is_empty_spec by done. rewrite He, Hdocs. case_bool_decide as Hem; [done|]. split; [done|]. cbn. by rewrite He, Hdocs.
  - rewrite (postings_of_none _ _ _ Hm Ht). set_solver.
Qed.

Lemma retain_lookup f m t p : retain_postings f m !! t = Some p ->
  exists q, m !! t = Some q /\ po_term_id p = po_term_id q.
Proof.
  unfold retain_postings. rewrite lookup_omap. destruct (m !! t) as [q|]; cbn; [|done].
  destruct (pd_is_empty _); [done|]. intros [= <-]. by exists q.
Qed.

(** ** What the state holds *)

Record holds st (B D : Docs) : Prop := {
  h_base_ok : base_ok st;
  h_base : postings_of (base_map st) B;
  h_delta : postings_of (ix_delta_postings st) D;
  h_base_docs : tm_elems (ix_base_docs st) = dom B;
  h_delta_docs : tm_elems (ix_delta_docs st) = dom D;
  h_shadowed : tm_elems (ix_shadowed_docs st) = dom D ∪ tm_elems (ix_deleted_docs st);
  h_deleted : dom D ## tm_elems (ix_deleted_docs st)
}.

(** The documents a reader sees. *)
Definition live_of st (B D : Docs) : Docs := D ∪ without (tm_elems (ix_deleted_docs st)) B.

Lemma default_holds : holds IndexState_default ∅ ∅.
Proof. split; cbn; treemap; try done; try apply postings_of_empty; set_solver. Qed.

(** The postings a query intersects, and the documents it counts. *)
Lemma live_posting_holds st B D t : holds st B D -> tm_elems (live_posting st t) = docs_with (live_of st B D) t.
Proof.
  intros [Hok Hb Hd _ _ Hs Hdel]. unfold live_posting, live_of. rewrite base_posting_map by done.
  rewrite docs_with_union, !docs_with_without. treemap.
  assert (Hbase : tm_elems (match base_map st !! t with Some p => pd_to_roaring (po_docs p) | None => tm_new end) = docs_with B t).
  { destruct (base_map st !! t) as [p|] eqn:Ht.
    - rewrite pd_to_roaring_elems. by apply (postings_of_some _ _ _ _ Hb Ht).
    - treemap. by rewrite (postings_of_none _ _ _ Hb Ht). }
  assert (Hsub : docs_with D t ⊆ dom D).
  { intros e (a & Ha & _)%elem_docs_with. apply elem_of_dom. by exists a. }
  destruct (ix_delta_postings st !! t) as [p|] eqn:Ht.
  - rewrite pd_union_into_elems. treemap. rewrite Hbase, Hs. destruct (postings_of_some _ _ _ _ Hd Ht) as [_ ->]. set_solver.
  - treemap. rewrite Hbase, Hs, (postings_of_none _ _ _ Hd Ht). set_solver.
Qed.

Lemma live_docs_holds st B D : holds st B D -> tm_elems (live_docs st) = dom (live_of st B D).
Proof.
  intros [_ _ _ Hb Hd Hs Hdel]. unfold live_docs, live_of. treemap. rewrite Hb, Hd, Hs, dom_union_L, dom_without.
  clear -Hdel. apply set_eq. intros e. specialize (Hdel e). destruct (decide (e ∈ dom D)); set_unfold; tauto.
Qed.

(** *** Deleting *)

Lemma remove_from_delta_base st d : let st' := remove_from_delta st d in
  ix_base_postings st' = ix_base_postings st /\ ix_mmap_postings st' = ix_mmap_postings st /\
  ix_base_docs st' = ix_base_docs st /\ ix_base_tokens st' = ix_base_tokens st /\
  ix_shadowed_docs st' = ix_shadowed_docs st /\ ix_deleted_docs st' = ix_deleted_docs st /\
  ix_pending_wal st' = ix_pending_wal st /\ ix_next_term_id st' = ix_next_term_id st /\
  ix_needs_rebuild st' = ix_needs_rebuild st.
Proof. cbv zeta. unfold remove_from_delta. destruct (tm_remove _ _) as [docs []]; by repeat split. Qed.

Lemma remove_from_delta_postings st D d :
  postings_of (ix_delta_postings st) D -> tm_elems (ix_delta_docs st) = dom D ->
  postings_of (ix_delta_postings (remove_from_delta st d)) (delete d D) /\
  tm_elems (ix_delta_docs (remove_from_delta st d)) = dom (delete d D).
Proof.
  intros Hd Hdocs. unfold remove_from_delta. pose proof (elems_remove (ix_delta_docs st) d) as He.
  pose proof (remove_found (ix_delta_docs st) d) as Hf. destruct (tm_remove _ _) as [docs removed]. cbn in He, Hf. subst removed.
  rewrite Hdocs in *. rewrite dom_delete_L. case_bool_decide as Hin; cbn.
  - split; [|done]. rewrite <-without_one. apply retain_postings_of; [|done]. intros p. apply pd_remove_ok.
  - rewrite delete_id by by apply not_elem_of_dom. split; [done|]. rewrite Hdocs. set_solver.
Qed.

Lemma base_map_eq st st' : ix_base_postings st' = ix_base_postings st -> ix_mmap_postings st' = ix_mmap_postings st ->
  base_map st' = base_map st /\ (base_ok st' <-> base_ok st).
Proof. unfold base_map, base_ok. by intros -> ->. Qed.

Lemma push_wal_holds st ops B D : holds (push_wal st ops) B D <-> holds st B D.
Proof. split; intros []; by split. Qed.

Lemma apply_delete_holds st B D d w : holds st B D ->
  holds (apply_delete st d w) B (delete d D) /\
  tm_elems (ix_deleted_docs (apply_delete st d w)) = {[d]} ∪ tm_elems (ix_deleted_docs st).
Proof.
  intros [Hok Hb Hd Hbd Hdd Hs Hdel]. destruct (remove_from_delta_postings st D d Hd Hdd) as [Hd' Hdd'].
  pose proof (remove_from_delta_base st d) as (E1 & E2 & E3 & E4 & E5 & E6 & _).
  assert (Hm : holds (mark_deleted (remove_from_delta st d) d) B (delete d D) /\
    tm_elems (ix_deleted_docs (mark_deleted (remove_from_delta st d) d)) = {[d]} ∪ tm_elems (ix_deleted_docs st)).
  { destruct (base_map_eq st (mark_deleted (remove_from_delta st d) d) E1 E2) as [Em Eo].
    unfold mark_deleted in *. split; [split|]; cbn; treemap; [by apply Eo|by rewrite Em|done|by rewrite E3|done|..].
    - rewrite E5, E6, Hs, dom_delete_L. apply set_eq. intros e. destruct (decide (e = d)); set_solver.
    - rewrite E6, dom_delete_L. set_solver.
    - by rewrite E6. }
  unfold apply_delete. cbv zeta. destruct w; [|done]. by rewrite push_wal_holds.
Qed.

Lemma delete_live st st' B D d : tm_elems (ix_deleted_docs st') = {[d]} ∪ tm_elems (ix_deleted_docs st) ->
  live_of st' B (delete d D) = delete d (live_of st B D).
Proof.
  intros Hdel. unfold live_of. rewrite delete_union. f_equal. rewrite Hdel. apply map_eq. intros e. rewrite lookup_without.
  destruct (decide (e = d)) as [->|Hne]; [by rewrite lookup_delete_eq, decide_True by set_solver|].
  rewrite lookup_delete_ne, lookup_without by done. apply decide_ext. set_solver.
Qed.

(** *** Upserting *)

(** The id a term of a new document gets, and the next id after it. *)
Definition upsert_id st (t : Text) : Z := default (Z.max (ix_next_term_id st) 1) (term_id st t).
Definition upsert_next st (t : Text) : Z :=
  match term_id st t with
  | Some _ => ix_next_term_id st
  | None =>
      let id := Z.max (ix_next_term_id st) 1 in
      if succ_u32 (ix_next_term_id st) <=? id then succ_u32 id else succ_u32 (ix_next_term_id st)
  end.

Definition with_delta st (delta : gmap Text (Posting R)) (next : Z) : IndexState R :=
  mkIndex (ix_base_postings st) (ix_mmap_postings st) (ix_base_docs st) (ix_base_tokens st) delta
    (ix_delta_docs st) (ix_delta_tokens st) (ix_shadowed_docs st) (ix_deleted_docs st) (ix_pending_wal st) next
    (ix_needs_rebuild st).

Definition delta_docs_of st (t : Text) : PostingDocs R :=
  match ix_delta_postings st !! t with Some p => po_docs p | None => PdEmpty end.

Lemma upsert_term_eq d st ids t :
  upsert_term d (st, ids) t =
  (with_delta st (<[t := mkPosting (upsert_id st t) (pd_insert (delta_docs_of st t) d)]> (ix_delta_postings st)) (upsert_next st t),
   ids ++ [upsert_id st t]).
Proof.
  unfold upsert_term, upsert_id, upsert_next, delta_docs_of, term_id.
  destruct (ix_delta_postings st !! t) as [p|]; [done|]. by destruct (po_term_id <$> base_posting st t).
Qed.

(** Only the postings of the delta and the next id change. *)
Lemma upsert_fold_base d terms st ids : let st' := (foldl (upsert_term d) (st, ids) terms).1 in
  st' = with_delta st (ix_delta_postings st') (ix_next_term_id st').
Proof.
  cbv zeta. revert st ids. induction terms as [|t terms IH]; intros st ids; [by destruct st|].
  cbn [foldl]. rewrite upsert_term_eq. rewrite IH at 1. done.
Qed.

Lemma docs_with_more d pre t M u :
  docs_with (<[d := mkAnalyzed (pre ++ [t]) []]> M) u =
  (if decide (u = t) then {[d]} else ∅) ∪ docs_with (<[d := mkAnalyzed pre []]> M) u.
Proof.
  rewrite !docs_with_insert. cbn. repeat case_decide; set_solver.
Qed.

(** One more term of a document. *)
Lemma add_term_postings m d pre M t id : postings_of m (<[d := mkAnalyzed pre []]> M) ->
  postings_of (<[t := mkPosting id (pd_insert (match m !! t with Some p => po_docs p | None => PdEmpty end) d)]> m)
    (<[d := mkAnalyzed (pre ++ [t]) []]> M).
Proof.
  intros Hp u. rewrite docs_with_more. destruct (decide (u = t)) as [->|Hne].
  - rewrite lookup_insert_eq. cbn [po_docs]. destruct (m !! t) as [p|] eqn:Ht.
    + destruct (postings_of_some _ _ _ _ Hp Ht) as [Hpo <-]. destruct (pd_insert_ok (po_docs p) d Hpo). done.
    + rewrite (postings_of_none _ _ _ Hp Ht). cbn. split; [done|set_solver].
  - rewrite lookup_insert_ne by done. specialize (Hp u). by rewrite (left_id_L ∅ (∪)).
Qed.

Lemma upsert_fold_postings d terms st ids pre M :
  postings_of (ix_delta_postings st) (<[d := mkAnalyzed pre []]> M) ->
  postings_of (ix_delta_postings (foldl (upsert_term d) (st, ids) terms).1) (<[d := mkAnalyzed (pre ++ terms) []]> M).
Proof.
  revert st ids pre. induction terms as [|t terms IH]; intros st ids pre Hp; [by rewrite app_nil_r|].
  cbn [foldl]. rewrite upsert_term_eq. rewrite (cons_middle t pre terms), app_assoc. apply IH. by apply add_term_postings.
Qed.

(** A document with no terms yet, and one whose terms are all listed. *)
Lemma no_terms_postings m d M : postings_of m (delete d M) -> postings_of m (<[d := mkAnalyzed [] []]> M).
Proof.
  apply postings_of_same. intros t. rewrite docs_with_insert. cbn. rewrite decide_False by by intros ?%elem_of_nil. set_solver.
Qed.

Lemma all_terms_postings m d a M : postings_of m (<[d := mkAnalyzed (ad_terms a) []]> M) -> postings_of m (<[d := a]> M).
Proof. apply postings_of_same. intros t. by rewrite !docs_with_insert. Qed.

Lemma apply_upsert_holds st B D d a w : holds st B D ->
  holds (apply_upsert st d a w) B (<[d := a]> D) /\
  tm_elems (ix_deleted_docs (apply_upsert st d a w)) = tm_elems (ix_deleted_docs st) ∖ {[d]}.
Proof.
  intros [Hok Hb Hd Hbd Hdd Hs Hdel]. destruct (remove_from_delta_postings st D d Hd Hdd) as [Hd' Hdd'].
  pose proof (remove_from_delta_base st d) as (E1 & E2 & E3 & E4 & E5 & E6 & _).
  set (st1 := mark_upserted (remove_from_delta st d) d).
  assert (Hp1 : postings_of (ix_delta_postings st1) (<[d := mkAnalyzed [] []]> D))
    by (by apply no_terms_postings).
  pose proof (upsert_fold_postings d (ad_terms a) st1 [] [] D Hp1) as Hf.
  pose proof (upsert_fold_base d (ad_terms a) st1 []) as Hbase.
  unfold apply_upsert. cbv zeta in *. fold st1. destruct (foldl _ _ _) as [st2 ids]. cbn [fst app] in Hf, Hbase.
  assert (Hm : holds (set_delta_tokens st2 d (global_tokens ids (ad_tokens a))) B (<[d := a]> D) /\
    tm_elems (ix_deleted_docs (set_delta_tokens st2 d (global_tokens ids (ad_tokens a)))) = tm_elems (ix_deleted_docs st) ∖ {[d]}).
  { destruct (base_map_eq st (set_delta_tokens st2 d (global_tokens ids (ad_tokens a)))) as [Em Eo];
      [by rewrite Hbase|by rewrite Hbase|].
    split; [split|].
    - by apply Eo.
    - by rewrite Em.
    - by apply all_terms_postings.
    - rewrite Hbase. cbn. by rewrite E3.
    - rewrite Hbase. cbn. treemap. rewrite Hdd', dom_delete_L, dom_insert_L. apply set_eq. intros e.
      destruct (decide (e = d)); set_solver.
    - rewrite Hbase. cbn. treemap. rewrite E5, E6, Hs, dom_insert_L. apply set_eq. intros e.
      destruct (decide (e = d)); set_solver.
    - rewrite Hbase. cbn. treemap. rewrite E6, dom_insert_L. set_solver.
    - rewrite Hbase. cbn. treemap. by rewrite E6. }
  destruct w; [|done]. by rewrite push_wal_holds.
Qed.

Lemma upsert_live st st' B D d a : tm_elems (ix_deleted_docs st') = tm_elems (ix_deleted_docs st) ∖ {[d]} ->
  live_of st' B (<[d := a]> D) = <[d := a]> (live_of st B D).
Proof.
  intros Hdel. unfold live_of. rewrite Hdel. apply map_eq. intros e. destruct (decide (e = d)) as [->|Hne].
  - rewrite lookup_insert_eq. apply lookup_union_Some_l. by rewrite lookup_insert_eq.
  - rewrite lookup_insert_ne, !lookup_union, lookup_insert_ne, !lookup_without by done. f_equal. apply decide_ext. set_solver.
Qed.

(** *** Folding the delta into the base *)

Definition merged (p : option (Posting R)) (q : option (Posting R)) : option (Posting R) :=
  match p, q with
  | Some p, Some q => Some (mkPosting (po_term_id p) (pd_union_owned (po_docs p) (po_docs q)))
  | Some p, None => Some p
  | None, q => q
  end.

Lemma merge_fold_lookup base delta t : map_fold merge_posting base delta !! t = merged (base !! t) (delta !! t).
Proof.
  revert t. apply (map_fold_weak_ind (fun res delta => forall t, res !! t = merged (base !! t) (delta !! t))).
  - intros t. rewrite lookup_empty. by destruct (base !! t).
  - intros u q delta' res Hu IH t. unfold merge_posting. destruct (decide (t = u)) as [->|Hne].
    + rewrite lookup_insert_eq, IH, Hu. destruct (base !! u) as [p|]; cbn; by rewrite lookup_insert_eq.
    + rewrite (lookup_insert_ne delta'), <-IH by done. destruct (res !! u); by rewrite lookup_insert_ne.
Qed.

Lemma merge_postings_of base delta B D : dom B ## dom D -> postings_of base B -> postings_of delta D ->
  postings_of (map_fold merge_posting base delta) (D ∪ B).
Proof.
  intros Hdisj Hb Hd t. rewrite merge_fold_lookup, docs_with_union.
  assert (Hw : without (dom D) B = B).
  { apply map_eq. intros d. rewrite lookup_without. case_decide as Hin; [|done]. symmetry. apply not_elem_of_dom. set_solver. }
  rewrite Hw. destruct (base !! t) as [p|] eqn:Hbt, (delta !! t) as [q|] eqn:Hdt; cbn [merged].
  - destruct (postings_of_some _ _ _ _ Hb Hbt) as [Hp <-], (postings_of_some _ _ _ _ Hd Hdt) as [Hq <-].
    destruct (pd_union_owned_ok _ _ Hp Hq) as [He Ho]. cbn. split; [done|]. rewrite He. set_solver.
  - destruct (postings_of_some _ _ _ _ Hb Hbt) as [Hp <-]. rewrite (postings_of_none _ _ _ Hd Hdt). split; [done|set_solver].
  - destruct (postings_of_some _ _ _ _ Hd Hdt) as [Hq <-]. rewrite (postings_of_none _ _ _ Hb Hbt). split; [done|set_solver].
  - rewrite (postings_of_none _ _ _ Hb Hbt), (postings_of_none _ _ _ Hd Hdt). set_solver.
Qed.

(** The base a merge starts from: what the shadowed documents leave. *)
Definition merge_base st : gmap Text (Posting R) :=
  if negb (tm_len (ix_shadowed_docs st) =? 0)%nat
  then retain_postings (fun docs => pd_subtract docs (ix_shadowed_docs st)) (base_map st)
  else base_map st.

Lemma base_map_materialized st : base_ok st ->
  match ix_mmap_postings st with Some dir => materialize dir | None => ix_base_postings st end = base_map st.
Proof.
  unfold base_ok, base_map. destruct (ix_mmap_postings st) as [dir|]; [|done]. intros [_ Hdir]. by apply materialize_map.
Qed.

Lemma merge_base_map st : base_ok st ->
  base_map (merge_delta st) = map_fold merge_posting (merge_base st) (ix_delta_postings st).
Proof. intros Hok. unfold merge_delta, merge_base, base_map at 1. cbn. by rewrite base_map_materialized. Qed.

Lemma without_shadowed st : negb (tm_len (ix_shadowed_docs st) =? 0)%nat = false -> tm_elems (ix_shadowed_docs st) = ∅.
Proof. rewrite len_elems. intros He%negb_false_iff%Nat.eqb_eq. by apply leibniz_equiv, size_empty_inv. Qed.

Lemma merge_base_postings st B : postings_of (base_map st) B ->
  postings_of (merge_base st) (without (tm_elems (ix_shadowed_docs st)) B).
Proof.
  intros Hb. unfold merge_base. destruct (negb _) eqn:He.
  - apply retain_postings_of; [|done]. intros p _. apply pd_subtract_ok.
  - by rewrite without_shadowed, without_empty.
Qed.

Lemma live_of_shadowed st B D : holds st B D -> live_of st B D = D ∪ without (tm_elems (ix_shadowed_docs st)) B.
Proof.
  intros Hh. unfold live_of. rewrite (h_shadowed _ _ _ Hh). apply map_eq. intros d. rewrite !lookup_union, !lookup_without.
  destruct (D !! d) as [a|] eqn:Hd; [by destruct (decide _), (decide _), (B !! d)|]. f_equal. apply decide_ext.
  apply not_elem_of_dom in Hd. set_solver.
Qed.

Lemma merge_delta_holds st B D : holds st B D ->
  holds (merge_delta st) (live_of st B D) ∅ /\ tm_elems (ix_deleted_docs (merge_delta st)) = ∅.
Proof.
  intros Hh. pose proof (live_of_shadowed _ _ _ Hh) as Hlive. destruct Hh as [Hok Hb Hd Hbd Hdd Hs Hdel].
  split; [|cbn; by treemap]. split; cbn [merge_delta ix_delta_postings ix_base_docs ix_delta_docs ix_shadowed_docs ix_deleted_docs].
  - done.
  - rewrite merge_base_map, Hlive by done. apply merge_postings_of; [|by apply merge_base_postings|done].
    rewrite dom_without. set_solver.
  - apply postings_of_empty.
  - rewrite Hlive, dom_union_L, dom_without. destruct (negb _) eqn:He; treemap.
    + rewrite Hbd, Hdd, Hs. clear -Hdel. apply set_eq. intros e. specialize (Hdel e). set_unfold. tauto.
    + apply without_shadowed in He. rewrite Hbd, Hdd, He. assert (tm_elems (ix_deleted_docs st) = ∅) as -> by set_solver. set_solver.
  - treemap. by rewrite dom_empty_L.
  - treemap. set_solver.
  - treemap. set_solver.
Qed.

Lemma merge_live st B D : holds st B D -> live_of (merge_delta st) (live_of st B D) ∅ = live_of st B D.
Proof.
  intros Hh. unfold live_of at 1. rewrite (proj2 (merge_delta_holds _ _ _ Hh)), without_empty. apply (left_id_L ∅ (∪)).
Qed.

(** *** Building the base at once *)

Definition bulk_id (postings : gmap Text (Posting R)) (next : Z) (t : Text) : Z :=
  match postings !! t with Some p => po_term_id p | None => Z.max next 1 end.

Lemma bulk_term_eq d postings next ids t :
  bulk_term d (postings, next, ids) t =
  (<[t := mkPosting (bulk_id postings next t)
            (pd_insert (match postings !! t with Some p => po_docs p | None => PdEmpty end) d)]> postings,
   match postings !! t with Some _ => next | None => succ_u32 next end, ids ++ [bulk_id postings next t]).
Proof. unfold bulk_term, bulk_id. by destruct (postings !! t). Qed.

Lemma bulk_terms_postings d terms postings next ids pre M :
  postings_of postings (<[d := mkAnalyzed pre []]> M) ->
  postings_of (foldl (bulk_term d) (postings, next, ids) terms).1.1 (<[d := mkAnalyzed (pre ++ terms) []]> M).
Proof.
  revert postings next ids pre. induction terms as [|t terms IH]; intros postings next ids pre Hp; [by rewrite app_nil_r|].
  cbn [foldl]. rewrite bulk_term_eq. rewrite (cons_middle t pre terms), app_assoc. apply IH. by apply add_term_postings.
Qed.

Lemma bulk_fold docs next (bits : R) : NoDup docs.*1 -> tm_elems bits = ∅ ->
  let r := foldl bulk_document (∅, next, bits, []) docs in
  postings_of r.1.1.1 (list_to_map docs) /\ tm_elems r.1.2 = dom (list_to_map docs : Docs).
Proof.
  cbv zeta. intros Hnd Hbits. induction docs as [|[d a] docs IH] using rev_ind.
  { split; [apply postings_of_empty|]. cbn. by rewrite Hbits, dom_empty_L. }
  rewrite fmap_app in Hnd. apply NoDup_app in Hnd as (Hnd & Hne & _). destruct (IH Hnd) as [Hp Hd].
  assert (Hin : d ∉ docs.*1) by (intros Hin; apply (Hne d Hin); by left).
  rewrite foldl_app, list_to_map_snoc by done. cbn [foldl]. destruct (foldl bulk_document _ docs) as [[[postings n] bits'] records].
  cbn [fst snd] in Hp, Hd. cbn [bulk_document fst snd].
  pose proof (bulk_terms_postings d (ad_terms a) postings n [] [] (list_to_map docs)) as Hf.
  destruct (foldl (bulk_term d) _ _) as [[postings' n'] ids]. cbn [fst snd app] in *. split.
  - apply all_terms_postings, Hf, no_terms_postings. rewrite delete_id; [done|]. by apply not_elem_of_list_to_map_1.
  - treemap. by rewrite Hd, dom_insert_L.
Qed.

Lemma can_build_empty st B D : holds st B D -> can_build_base st = true ->
  B = ∅ /\ D = ∅ /\ ix_mmap_postings st = None /\ tm_elems (ix_base_docs st) = ∅ /\ ix_pending_wal st = [].
Proof.
  intros Hh Hc. unfold can_build_base in Hc. rewrite !andb_true_iff, !bool_decide_eq_true, !len_elems, !Nat.eqb_eq in Hc.
  destruct Hc as [[[[[[[_ Hb] Hm] _] _] Hd] _] Hw]. apply size_empty_inv, leibniz_equiv in Hb, Hd. split_and!; [..|done|done|done].
  - apply dom_empty_inv_L. by rewrite <-(h_base_docs _ _ _ Hh).
  - apply dom_empty_inv_L. by rewrite <-(h_delta_docs _ _ _ Hh).
Qed.

Lemma build_base_holds st B D docs : holds st B D -> can_build_base st = true -> NoDup docs.*1 ->
  holds (build_base st docs) (list_to_map docs) ∅ /\ ix_deleted_docs (build_base st docs) = ix_deleted_docs st.
Proof.
  intros Hh Hc Hnd. destruct (can_build_empty _ _ _ Hh Hc) as (-> & -> & Hm & Hb & _).
  destruct (bulk_fold docs (ix_next_term_id st) (ix_base_docs st) Hnd Hb) as [Hp Hd].
  unfold build_base. destruct (foldl bulk_document _ docs) as [[[postings n] bits] records]. cbn [fst snd] in Hp, Hd.
  split; [|done]. destruct Hh. split; try done; unfold base_ok, base_map; cbn; by rewrite Hm.
Qed.

End docs.
