(* ===== verification/FtsTokens.v ===== *)
(** * Full-text search: term ids and token sequences

    A phrase query compares the token sequences of documents, which are sequences of term ids.
    [tokens_hold st B D] says that the ids of the terms are distinct and that the sequence of every
    document is the sequence of its terms: the incremental operations keep it, as long as the
    32-bit counter of ids does not saturate.  The bulk build does not: its first two terms share
    the id 1. *)
From S2P Require Import Prelude FtsPostings FtsIndex FtsDocs.
Local Open Scope Z_scope.

Section tokens.
Context {R : Type} `{TreemapLaws R}.
Implicit Types (st : IndexState R).

Definition max_u32 : Z := 2 ^ 32 - 1.

(** The tokens of a document, as ids. *)
Definition doc_tokens st (a : AnalyzedDocument) : list Z :=
  (fun l => if l =? 0 then 0 else default 0 (ad_terms a !! Z.to_nat (l - 1) ≫= term_id st)) <$> ad_tokens a.

Record ids_ok st : Prop := {
  i_agree t p q : ix_delta_postings st !! t = Some p -> base_map st !! t = Some q -> po_term_id p = po_term_id q;
  i_next : 0 <= ix_next_term_id st <= max_u32;
  i_range t i : term_id st t = Some i -> 1 <= i < ix_next_term_id st;
  i_inj t u i : term_id st t = Some i -> term_id st u = Some i -> t = u
}.

Record tokens_hold st (B D : Docs) : Prop := {
  k_ids : ids_ok st;
  k_base : exists records, packs (ix_base_tokens st) records /\ NoDup records.*1 /\
             (list_to_map records : gmap Z (list Z)) = doc_tokens st <$> B;
  k_delta : ix_delta_tokens st = doc_tokens st <$> D
}.

Lemma term_id_map st t : base_ok st ->
  term_id st t = match ix_delta_postings st !! t with Some p => Some (po_term_id p) | None => po_term_id <$> base_map st !! t end.
Proof. intros Hok. unfold term_id. by rewrite base_posting_map. Qed.

Lemma doc_tokens_ext st st' a : (forall t, t ∈ ad_terms a -> term_id st' t = term_id st t) -> doc_tokens st' a = doc_tokens st a.
Proof.
  intros Ht. unfold doc_tokens. apply list_fmap_ext. intros i l _. destruct (l =? 0); [done|].
  destruct (ad_terms a !! Z.to_nat (l - 1)) as [t|] eqn:Hl; [|done]. cbn. rewrite Ht; [done|]. by eapply list_elem_of_lookup_2.
Qed.

Lemma fmap_tokens_ext st st' (M : Docs) :
  (forall t, docs_with M t <> ∅ -> term_id st' t = term_id st t) -> doc_tokens st' <$> M = doc_tokens st <$> M.
Proof.
  intros Ht. apply map_fmap_ext. intros d a Hd. apply doc_tokens_ext. intros t Hin. apply Ht.
  intros He. assert (Hd' : d ∈ docs_with M t) by (apply elem_docs_with; eauto). by rewrite He in Hd'.
Qed.

Lemma default_tokens_hold : tokens_hold IndexState_default ∅ ∅.
Proof.
  split.
  - split; cbn; done.
  - exists []. split_and!; [by split; [|intros i Hi; cbn in Hi; lia]|constructor|by rewrite fmap_empty].
  - cbn. by rewrite fmap_empty.
Qed.

(** A live document reads its own tokens. *)
Lemma tokens_for_doc_hold st B D d : holds st B D -> tokens_hold st B D ->
  tokens_for_doc st d = doc_tokens st <$> live_of st B D !! d.
Proof.
  intros [_ _ _ _ _ Hs Hdel] [_ (records & Hp & Hnd & Hb) Hd]. unfold tokens_for_doc, live_of. treemap.
  rewrite lookup_union, lookup_without, Hd, lookup_fmap, (packs_get _ _ _ Hp Hnd), Hb, lookup_fmap, Hs.
  destruct (D !! d) as [a|] eqn:Hda.
  - assert (Hin : d ∈ dom D) by by apply elem_of_dom. rewrite bool_decide_false by set_solver. by destruct (decide _), (B !! d).
  - apply not_elem_of_dom in Hda. case_bool_decide as Hx; [by rewrite decide_True|]. rewrite decide_False by done. cbn.
    rewrite bool_decide_false by set_solver. by destruct (B !! d).
Qed.

(** ** Deleting *)

Lemma remove_term_id st B D d t : base_ok st -> postings_of (base_map st) B -> postings_of (ix_delta_postings st) D ->
  tm_elems (ix_delta_docs st) = dom D -> ids_ok st ->
  (forall i, term_id (remove_from_delta st d) t = Some i -> term_id st t = Some i) /\
  (docs_with B t <> ∅ \/ docs_with (delete d D) t <> ∅ -> term_id (remove_from_delta st d) t = term_id st t).
Proof.
  intros Hok Hb Hd Hdd Hids. destruct (remove_from_delta_postings st D d Hd Hdd) as [Hd' _].
  pose proof (remove_from_delta_base st d) as (E1 & E2 & _). destruct (base_map_eq st _ E1 E2) as [Em Eo].
  rewrite (term_id_map (remove_from_delta st d)), (term_id_map st), Em by (done || by apply Eo).
  assert (Hsub : forall p, ix_delta_postings (remove_from_delta st d) !! t = Some p ->
    exists q, ix_delta_postings st !! t = Some q /\ po_term_id p = po_term_id q).
  { unfold remove_from_delta. destruct (tm_remove _ _) as [docs []]; cbn; [apply retain_lookup|eauto]. }
  destruct (ix_delta_postings (remove_from_delta st d) !! t) as [p|] eqn:Ht.
  { destruct (Hsub p eq_refl) as (q & -> & ->). done. }
  destruct (ix_delta_postings st !! t) as [q|] eqn:Hq; [|done].
  destruct (base_map st !! t) as [r|] eqn:Hr; cbn.
  - rewrite (i_agree _ Hids _ _ _ Hq Hr). done.
  - split; [done|]. intros [Hne|Hne]; exfalso; apply Hne.
    + apply (postings_of_none _ _ _ Hb Hr).
    + apply (postings_of_none _ _ _ Hd' Ht).
Qed.

Lemma remove_agree st d t p : ix_delta_postings (remove_from_delta st d) !! t = Some p ->
  exists q, ix_delta_postings st !! t = Some q /\ po_term_id p = po_term_id q.
Proof. unfold remove_from_delta. destruct (tm_remove _ _) as [docs []]; cbn; [apply retain_lookup|eauto]. Qed.

(** Fewer terms, with the same ids. *)
Lemma ids_ok_sub st st' : base_map st' = base_map st -> ix_next_term_id st' = ix_next_term_id st ->
  (forall t p, ix_delta_postings st' !! t = Some p -> exists q, ix_delta_postings st !! t = Some q /\ po_term_id p = po_term_id q) ->
  (forall t i, term_id st' t = Some i -> term_id st t = Some i) -> ids_ok st -> ids_ok st'.
Proof.
  intros Hbase Hnext Hdelta Hsub [Ha Hn Hr Hi]. split; rewrite ?Hbase, ?Hnext; [|done|eauto|eauto].
  intros t p q Hp Hq. destruct (Hdelta _ _ Hp) as (p' & Hp' & ->). eauto.
Qed.

Lemma remove_tokens_hold st B D d : holds st B D -> tokens_hold st B D ->
  tokens_hold (remove_from_delta st d) B (delete d D).
Proof.
  intros [Hok Hb Hd _ Hdd _ _] [Hids Hbt Hdt]. pose proof (remove_from_delta_base st d) as (E1 & E2 & _ & E4 & _ & _ & _ & E8 & _).
  pose proof (fun t => remove_term_id st B D d t Hok Hb Hd Hdd Hids) as Hterm.
  split.
  - apply (ids_ok_sub st); [by apply base_map_eq|done|apply remove_agree|by intros t; apply Hterm|done].
  - destruct Hbt as (records & Hp & Hnd & Heq). exists records. rewrite E4. split_and!; [done|done|]. rewrite Heq. symmetry.
    apply fmap_tokens_ext. intros t Hne. apply Hterm. by left.
  - rewrite (fmap_tokens_ext st) by (intros t Hne; apply Hterm; by right). rewrite fmap_delete, <-Hdt.
    unfold remove_from_delta. pose proof (remove_found (ix_delta_docs st) d) as Hf.
    destruct (tm_remove _ _) as [docs removed]. cbn in Hf. subst removed. rewrite Hdd. case_bool_decide as Hin; [done|]. cbn.
    rewrite Hdt, delete_id; [done|]. rewrite lookup_fmap. apply not_elem_of_dom in Hin. by rewrite Hin.
Qed.

(** The ids and tokens do not read the rest of the state. *)
Lemma tokens_hold_same st st' B D :
  ix_base_postings st' = ix_base_postings st -> ix_mmap_postings st' = ix_mmap_postings st ->
  ix_delta_postings st' = ix_delta_postings st -> ix_base_tokens st' = ix_base_tokens st ->
  ix_delta_tokens st' = ix_delta_tokens st -> ix_next_term_id st' = ix_next_term_id st ->
  tokens_hold st B D -> tokens_hold st' B D.
Proof.
  intros E1 E2 E3 E4 E5 E6 [[Ha Hn Hr Hi] Hb Hd].
  assert (Ht : forall t, term_id st' t = term_id st t) by (intros t; unfold term_id, base_posting; by rewrite E1, E2, E3).
  assert (Hf : forall M : Docs, doc_tokens st' <$> M = doc_tokens st <$> M) by (intros M; apply fmap_tokens_ext; auto).
  destruct (base_map_eq st st' E1 E2) as [Em _]. split; [split|..]; rewrite ?E3, ?E4, ?E5, ?E6, ?Em, ?Hf; try done.
  - intros t i. rewrite Ht. apply Hr.
  - intros t u i. rewrite !Ht. apply Hi.
Qed.

Lemma apply_delete_tokens_hold st B D d w : holds st B D -> tokens_hold st B D ->
  tokens_hold (apply_delete st d w) B (delete d D).
Proof.
  intros Hh Hk. pose proof (remove_tokens_hold st B D d Hh Hk) as Hr.
  unfold apply_delete. cbv zeta. destruct w; by eapply tokens_hold_same; [..|exact Hr].
Qed.

(** ** Upserting *)

(** Below its bound the counter moves past every id it hands out. *)
Lemma upsert_next_spec st t : ids_ok st -> ix_next_term_id st <= upsert_next st t <= max_u32 /\
  (upsert_next st t < max_u32 -> term_id st t = None -> upsert_next st t = upsert_id st t + 1).
Proof.
  intros [_ Hn _ _]. unfold upsert_next, upsert_id. destruct (term_id st t) as [i|]; cbn.
  { split; [lia|done]. }
  unfold succ_u32, max_u32 in *. destruct (Z.leb_spec (Z.min (ix_next_term_id st + 1) (2 ^ 32 - 1)) (Z.max (ix_next_term_id st) 1)); lia.
Qed.

Lemma upsert_term_ids st d t : base_ok st -> ids_ok st -> upsert_next st t < max_u32 ->
  let st' := with_delta st (<[t := mkPosting (upsert_id st t) (pd_insert (delta_docs_of st t) d)]> (ix_delta_postings st)) (upsert_next st t) in
  ids_ok st' /\ (forall u, term_id st' u = if decide (u = t) then Some (upsert_id st t) else term_id st u).
Proof.
  intros Hok Hids Hlt. cbv zeta. set (st' := with_delta _ _ _).
  assert (Hok' : base_ok st') by done. assert (Hm : base_map st' = base_map st) by done.
  assert (Ht : forall u, term_id st' u = if decide (u = t) then Some (upsert_id st t) else term_id st u).
  { intros u. rewrite !term_id_map, Hm by done. cbn [st' with_delta ix_delta_postings].
    case_decide as Hu; [subst; by rewrite lookup_insert_eq|by rewrite lookup_insert_ne]. }
  destruct (upsert_next_spec st t Hids) as [Hmono Hnew]. specialize (Hnew Hlt). split; [|done].
  assert (Hid : forall i, term_id st t = Some i -> upsert_id st t = i) by (intros i Hi; unfold upsert_id; by rewrite Hi).
  assert (Hpos : 1 <= upsert_id st t < upsert_next st t).
  { destruct (term_id st t) as [i|] eqn:Hi; [|rewrite Hnew by done; unfold upsert_id; rewrite Hi; cbn; lia].
    rewrite (Hid i eq_refl). pose proof (i_range _ Hids _ _ Hi). lia. }
  split.
  - intros u p q Hp Hq. rewrite Hm in Hq. cbn [st' with_delta ix_delta_postings] in Hp. destruct (decide (u = t)) as [->|Hne].
    + rewrite lookup_insert_eq in Hp. injection Hp as <-. cbn. apply Hid. rewrite term_id_map by done.
      destruct (ix_delta_postings st !! t) as [p'|] eqn:Hp'; [f_equal; exact (i_agree _ Hids _ _ _ Hp' Hq)|by rewrite Hq].
    + rewrite lookup_insert_ne in Hp by done. exact (i_agree _ Hids _ _ _ Hp Hq).
  - cbn. pose proof (i_next _ Hids). lia.
  - intros u i. rewrite Ht. case_decide as Hu; [intros [= <-]; exact Hpos|].
    intros Hi. pose proof (i_range _ Hids _ _ Hi). cbn. lia.
  - assert (Hold : forall u i, u <> t -> term_id st u = Some i -> upsert_id st t <> i).
    { intros u i Hne Hi He. destruct (term_id st t) as [j|] eqn:Hj.
      - rewrite (Hid j eq_refl) in He. subst j. apply Hne. exact (i_inj _ Hids _ _ _ Hi Hj).
      - specialize (Hnew eq_refl). pose proof (i_range _ Hids _ _ Hi). unfold upsert_id in He. rewrite Hj in He. cbn in He. lia. }
    intros u v i. rewrite !Ht. repeat case_decide; intros; simplify_eq; try done.
    + exfalso. by eapply Hold.
    + exfalso. by eapply Hold.
    + by eapply (i_inj _ Hids).
Qed.

(** A counter that has reached its bound stays there. *)
Lemma upsert_saturated d terms st ids : ix_next_term_id st = max_u32 ->
  ix_next_term_id (foldl (upsert_term d) (st, ids) terms).1 = max_u32.
Proof.
  revert st ids. induction terms as [|t terms IH]; intros st ids He; [done|]. cbn [foldl]. rewrite upsert_term_eq. apply IH.
  cbn. unfold upsert_next. destruct (term_id st t); [done|]. by rewrite He.
Qed.

Lemma upsert_fold_ids d terms st ids : base_ok st -> ids_ok st ->
  let r := foldl (upsert_term d) (st, ids) terms in
  ix_next_term_id r.1 < max_u32 ->
  ids_ok r.1 /\ (forall u i, term_id st u = Some i -> term_id r.1 u = Some i) /\
  (forall u, u ∈ terms -> is_Some (term_id r.1 u)) /\
  r.2 = ids ++ ((fun t => default 0 (term_id r.1 t)) <$> terms).
Proof.
  cbv zeta. revert st ids. induction terms as [|t terms IH]; intros st ids Hok Hids Hlt.
  { split_and!; [done|done|by intros u ?%elem_of_nil|by rewrite app_nil_r]. }
  cbn [foldl] in *. rewrite upsert_term_eq in *.
  assert (Hn : upsert_next st t < max_u32).
  { destruct (decide (upsert_next st t < max_u32)) as [|Hge]; [done|]. exfalso. destruct (upsert_next_spec st t Hids) as [Hm _].
    rewrite upsert_saturated in Hlt by (cbn; lia). lia. }
  destruct (upsert_term_ids st d t Hok Hids Hn) as [Hids1 Ht1]. set (st1 := with_delta _ _ _) in *.
  destruct (IH st1 (ids ++ [upsert_id st t]) Hok Hids1 Hlt) as (Hids2 & Hext & Hknown & Hr).
  assert (Ht : term_id (foldl (upsert_term d) (st1, ids ++ [upsert_id st t]) terms).1 t = Some (upsert_id st t)).
  { apply Hext. by rewrite Ht1, decide_True. }
  split_and!; [done|..].
  - intros u i Hu. apply Hext. rewrite Ht1. case_decide; [|done]. subst. unfold upsert_id. by rewrite Hu.
  - intros u [->|Hu]%elem_of_cons; [by rewrite Ht|by apply Hknown].
  - rewrite Hr, fmap_cons, Ht, <-app_assoc. done.
Qed.

Lemma global_tokens_doc st ids a : ids = (fun t => default 0 (term_id st t)) <$> ad_terms a ->
  (forall t, t ∈ ad_terms a -> is_Some (term_id st t)) -> global_tokens ids (ad_tokens a) = doc_tokens st a.
Proof.
  intros -> Hknown. unfold global_tokens, doc_tokens. apply list_fmap_ext. intros i l _. destruct (l =? 0); [done|].
  rewrite list_lookup_fmap. by destruct (ad_terms a !! Z.to_nat (l - 1)).
Qed.

(** The terms of the documents have ids. *)
Lemma term_known st B D t : base_ok st -> postings_of (base_map st) B -> postings_of (ix_delta_postings st) D ->
  docs_with B t <> ∅ \/ docs_with D t <> ∅ -> is_Some (term_id st t).
Proof.
  intros Hok Hb Hd Hne. rewrite term_id_map by done. destruct (ix_delta_postings st !! t) as [p|] eqn:Hp; [done|].
  destruct (base_map st !! t) as [q|] eqn:Hq; [done|]. exfalso.
  destruct Hne as [Hne|Hne]; apply Hne; [by apply (postings_of_none _ _ _ Hb)|by apply (postings_of_none _ _ _ Hd)].
Qed.

Lemma tokens_hold_terms st st' B D : holds st B D ->
  (forall u i, term_id st u = Some i -> term_id st' u = Some i) ->
  doc_tokens st' <$> B = doc_tokens st <$> B /\ doc_tokens st' <$> D = doc_tokens st <$> D.
Proof.
  intros [Hok Hb Hd _ _ _ _] Hext. split; apply fmap_tokens_ext; intros t Hne.
  - destruct (term_known st B D t Hok Hb Hd (or_introl Hne)) as [i Hi]. rewrite Hi. by apply Hext.
  - destruct (term_known st B D t Hok Hb Hd (or_intror Hne)) as [i Hi]. rewrite Hi. by apply Hext.
Qed.

Lemma remove_holds st B D d : holds st B D ->
  holds (mark_deleted (remove_from_delta st d) d) B (delete d D).
Proof. intros Hh. exact (proj1 (apply_delete_holds st B D d false Hh)). Qed.

Lemma apply_upsert_next st d a w :
  ix_next_term_id (apply_upsert st d a w) =
  ix_next_term_id (foldl (upsert_term d) (mark_upserted (remove_from_delta st d) d, []) (ad_terms a)).1.
Proof. unfold apply_upsert. cbv zeta. destruct (foldl _ _ _) as [st2 ids]. by destruct w. Qed.

Lemma apply_upsert_tokens_hold st B D d a w : holds st B D -> tokens_hold st B D ->
  ix_next_term_id (apply_upsert st d a w) < max_u32 ->
  tokens_hold (apply_upsert st d a w) B (<[d := a]> D).
Proof.
  intros Hh Hk Hlt. rewrite apply_upsert_next in Hlt.
  pose proof (remove_holds st B D d Hh) as Hh1.
  assert (Hk1 : tokens_hold (mark_deleted (remove_from_delta st d) d) B (delete d D))
    by (by eapply tokens_hold_same; [..|exact (remove_tokens_hold st B D d Hh Hk)]).
  set (st1 := mark_upserted (remove_from_delta st d) d) in *.
  assert (Hk1' : tokens_hold st1 B (delete d D)) by (by eapply tokens_hold_same; [..|exact Hk1]).
  assert (Hterm : forall t, term_id st1 t = term_id (mark_deleted (remove_from_delta st d) d) t) by done.
  pose proof (upsert_fold_ids d (ad_terms a) st1 [] (h_base_ok _ _ _ Hh1) (k_ids _ _ _ Hk1') Hlt) as (Hids & Hext & Hknown & Hr).
  pose proof (upsert_fold_base d (ad_terms a) st1 []) as Hbase. cbv zeta in Hbase.
  destruct (tokens_hold_terms _ (foldl (upsert_term d) (st1, []) (ad_terms a)).1 _ _ Hh1 (fun u i Hi => Hext u i Hi)) as [EB ED].
  unfold apply_upsert. cbv zeta. fold st1. destruct (foldl _ _ _) as [st2 ids]. cbn [fst snd app] in *.
  assert (Hm : tokens_hold (set_delta_tokens st2 d (global_tokens ids (ad_tokens a))) B (<[d := a]> D)).
  { destruct Hk1' as [_ (records & Hp & Hnd & Heq) Hdt].
    split.
    - destruct Hids as [Ha Hn Hrg Hi]. split; done.
    - exists records. cbn [set_delta_tokens ix_base_tokens]. rewrite Hbase at 1. split_and!; [done|done|]. rewrite Heq. symmetry. exact EB.
    - cbn [set_delta_tokens ix_delta_tokens]. rewrite Hbase at 1. cbn [with_delta ix_delta_tokens].
      rewrite Hdt.
      rewrite (global_tokens_doc st2 ids a Hr Hknown).
      transitivity (<[d := doc_tokens st2 a]> (doc_tokens st2 <$> delete d D)); [f_equal; symmetry; exact ED|].
      by rewrite fmap_delete, insert_delete_eq, <-fmap_insert. }
  destruct w; [by eapply tokens_hold_same; [..|exact Hm]|done].
Qed.

(** ** Folding the delta into the base *)

Lemma filter_keys {A} (g : Z -> bool) (l : list (Z * A)) d :
  (list_to_map (List.filter (fun r => g r.1) l) : gmap Z A) !! d = (if g d then (list_to_map l : gmap Z A) !! d else None) /\
  (NoDup l.*1 -> NoDup (List.filter (fun r => g r.1) l).*1) /\
  (d ∈ (List.filter (fun r => g r.1) l).*1 -> d ∈ l.*1 /\ g d = true).
Proof.
  revert d. induction l as [|[e x] l IH]; intros d; cbn.
  { split_and!; [by destruct (g d)|done|by intros ?%elem_of_nil]. }
  destruct (IH d) as (IH1 & IH2 & IH3). destruct (g e) eqn:Hg; cbn.
  - split_and!.
    + destruct (decide (d = e)) as [->|Hne]; [by rewrite !lookup_insert_eq, Hg|by rewrite !lookup_insert_ne].
    + intros [Hx Hl]%NoDup_cons. apply NoDup_cons. split; [|by apply IH2]. intros Hin. apply Hx. by apply (IH e).
    + intros [->|Hin]%elem_of_cons; [split; [by left|done]|]. destruct (IH3 Hin). split; [by right|done].
  - split_and!.
    + rewrite IH1. destruct (decide (d = e)) as [->|Hne]; [by rewrite Hg|by rewrite lookup_insert_ne].
    + intros [_ Hl]%NoDup_cons. by apply IH2.
    + intros Hin. destruct (IH3 Hin). split; [by right|done].
Qed.

(** The surviving records are those of the live documents. *)
Lemma merge_records st B D : holds st B D -> tokens_hold st B D ->
  let records := kept_records st ++ delta_records st in
  NoDup records.*1 /\ (list_to_map records : gmap Z (list Z)) = doc_tokens st <$> live_of st B D.
Proof.
  intros Hh [_ (records & Hp & Hnd & Heq) Hdt]. cbv zeta.
  pose proof (h_shadowed _ _ _ Hh) as Hs. pose proof (h_deleted _ _ _ Hh) as Hdel.
  unfold kept_records, delta_records. rewrite (packs_records _ _ Hp), Hdt.
  set (kept := fun d => negb (tm_contains (ix_shadowed_docs st) d) && negb (tm_contains (ix_deleted_docs st) d)).
  set (new := fun d => negb (tm_contains (ix_deleted_docs st) d)).
  match goal with |- context [List.filter ?f records] => change f with (fun r : Z * list Z => kept r.1) end.
  match goal with |- context [List.filter ?f (map_to_list _)] => change f with (fun r : Z * list Z => new r.1) end.
  pose proof (fun d => filter_keys kept records d) as Fk.
  pose proof (fun d => filter_keys new (map_to_list (doc_tokens st <$> D)) d) as Fd.
  assert (Hkept : forall d, kept d = bool_decide (d ∉ tm_elems (ix_shadowed_docs st) /\ d ∉ tm_elems (ix_deleted_docs st))).
  { intros d. unfold kept. treemap. rewrite <-!bool_decide_not, <-bool_decide_and. done. }
  assert (Hnew : forall d, new d = bool_decide (d ∉ tm_elems (ix_deleted_docs st))).
  { intros d. unfold new. treemap. by rewrite <-bool_decide_not. }
  split.
  - rewrite fmap_app. apply NoDup_app. split_and!.
    + by apply (Fk 0).
    + intros d Hk Hd. destruct (proj2 (proj2 (Fk d)) Hk) as [_ Hkd]. destruct (proj2 (proj2 (Fd d)) Hd) as [Hin _].
      rewrite Hkept, bool_decide_eq_true in Hkd. destruct Hkd as [Hns _]. apply Hns. rewrite Hs. apply elem_of_union_l.
      apply list_elem_of_fmap in Hin as ([e ts] & -> & Hin%elem_of_map_to_list). rewrite lookup_fmap in Hin. cbn.
      apply elem_of_dom. destruct (D !! e); [done|discriminate].
    + apply (Fd 0). apply NoDup_fst_map_to_list.
  - apply map_eq. intros d. rewrite list_to_map_app, lookup_union, (proj1 (Fk d)), (proj1 (Fd d)), list_to_map_to_list, Heq.
    unfold live_of. rewrite !lookup_fmap, lookup_union, lookup_without, Hkept, Hnew, Hs.
    destruct (D !! d) as [a|] eqn:Hd.
    + assert (Hin : d ∈ dom D) by by apply elem_of_dom. rewrite bool_decide_false by set_solver.
      rewrite bool_decide_true by set_solver. by destruct (decide _), (B !! d).
    + apply not_elem_of_dom in Hd. case_decide as Hx.
      * rewrite bool_decide_false by set_solver. by destruct (bool_decide _).
      * rewrite bool_decide_true by set_solver. by destruct (B !! d), (bool_decide _).
Qed.

Lemma merge_base_lookup st t p : merge_base st !! t = Some p ->
  exists q, base_map st !! t = Some q /\ po_term_id p = po_term_id q.
Proof. unfold merge_base. destruct (negb _); [apply retain_lookup|eauto]. Qed.

Lemma merge_term_id st t i : base_ok st -> ids_ok st -> term_id (merge_delta st) t = Some i -> term_id st t = Some i.
Proof.
  intros Hok Hids. rewrite !term_id_map, merge_base_map by done. cbn [merge_delta ix_delta_postings]. rewrite lookup_empty.
  rewrite merge_fold_lookup. destruct (merge_base st !! t) as [p|] eqn:Hp.
  - apply merge_base_lookup in Hp as (q & Hq & He). rewrite Hq.
    destruct (ix_delta_postings st !! t) as [r|] eqn:Hr; cbn; rewrite He; [|done].
    by rewrite (i_agree _ Hids _ _ _ Hr Hq).
  - destruct (ix_delta_postings st !! t) as [r|] eqn:Hr; cbn; done.
Qed.

Lemma merge_delta_tokens_hold st B D : holds st B D -> tokens_hold st B D ->
  tokens_hold (merge_delta st) (live_of st B D) ∅.
Proof.
  intros Hh Hk. destruct (merge_records st B D Hh Hk) as [Hnd Heq].
  pose proof (k_ids _ _ _ Hk) as Hids. pose proof (h_base_ok _ _ _ Hh) as Hok.
  destruct (merge_delta_holds st B D Hh) as [Hh' _].
  split.
  - pose proof Hids as [Ha Hn Hr Hi]. split.
    + intros t p q Hp. cbn [merge_delta ix_delta_postings] in Hp. by rewrite lookup_empty in Hp.
    + done.
    + intros t i Hti. apply (Hr t). by apply merge_term_id.
    + intros t u i Ht Hu. exact (Hi _ _ _ (merge_term_id _ _ _ Hok Hids Ht) (merge_term_id _ _ _ Hok Hids Hu)).
  - exists (merge_sort record_le (kept_records st ++ delta_records st)).
    pose proof (merge_sort_Permutation record_le (kept_records st ++ delta_records st)) as Hperm.
    split_and!; [apply from_records_packs|by rewrite Hperm|].
    rewrite <-(list_to_map_proper (M := gmap Z) (kept_records st ++ delta_records st) (merge_sort record_le (kept_records st ++ delta_records st)));
      [|done|by symmetry].
    rewrite Heq. symmetry. apply fmap_tokens_ext. intros t Hne.
    destruct (term_known _ _ _ t (h_base_ok _ _ _ Hh') (h_base _ _ _ Hh') (h_delta _ _ _ Hh') (or_introl Hne)) as [i Hi].
    rewrite Hi. symmetry. by apply merge_term_id.
  - cbn. by rewrite fmap_empty.
Qed.

(** ** Histories of the index *)

(** The states the incremental operations reach, with their documents. *)
Inductive index_run : IndexState R -> Docs -> Prop :=
| RunNew : index_run IndexState_default ∅
| RunUpsert st M d a w : index_run st M -> ix_next_term_id (apply_upsert st d a w) < max_u32 ->
    index_run (apply_upsert st d a w) (<[d := a]> M)
| RunDelete st M d w : index_run st M -> index_run (apply_delete st d w) (delete d M)
| RunMerge st M : index_run st M -> index_run (merge_delta st) M.

Lemma index_run_holds st M : index_run st M -> exists B D, holds st B D /\ tokens_hold st B D /\ live_of st B D = M.
Proof.
  induction 1 as [|st M d a w _ (B & D & Hh & Hk & <-) Hlt|st M d w _ (B & D & Hh & Hk & <-)|st M _ (B & D & Hh & Hk & <-)].
  - exists ∅, ∅. split_and!; [apply default_holds|apply default_tokens_hold|]. unfold live_of. cbn. treemap. by rewrite without_empty.
  - destruct (apply_upsert_holds st B D d a w Hh) as [Hh' Hdel]. exists B, (<[d := a]> D).
    split_and!; [done|by apply apply_upsert_tokens_hold|by apply upsert_live].
  - destruct (apply_delete_holds st B D d w Hh) as [Hh' Hdel]. exists B, (delete d D).
    split_and!; [done|by apply apply_delete_tokens_hold|by apply delete_live].
  - exists (live_of st B D), ∅. split_and!; [by apply merge_delta_holds|by apply merge_delta_tokens_hold|by apply merge_live].
Qed.

(** ** The bulk build *)

(** A term keeps the id of its first document. *)
Lemma bulk_terms_keep d terms postings next ids t i :
  po_term_id <$> postings !! t = Some i ->
  po_term_id <$> (foldl (bulk_term d) (postings, next, ids) terms).1.1 !! t = Some i.
Proof.
  revert postings next ids. induction terms as [|u terms IH]; intros postings next ids Ht; [done|].
  cbn [foldl]. rewrite bulk_term_eq. apply IH. destruct (decide (t = u)) as [->|Hne].
  - rewrite lookup_insert_eq. cbn. unfold bulk_id. by destruct (postings !! u).
  - by rewrite lookup_insert_ne.
Qed.

Lemma bulk_documents_keep docs postings next bits records t i :
  po_term_id <$> postings !! t = Some i ->
  po_term_id <$> (foldl bulk_document (postings, next, bits, records) docs).1.1.1 !! t = Some i.
Proof.
  revert postings next bits records. induction docs as [|[d a] docs IH]; intros postings next bits records Ht; [done|].
  cbn [foldl]. unfold bulk_document at 2. cbn [fst snd]. pose proof (bulk_terms_keep d (ad_terms a) postings next [] t i Ht) as Hk.
  destruct (foldl (bulk_term d) _ _) as [[postings' next'] ids]. by apply IH.
Qed.

(** The bulk build that backfills a fresh index gives the first two terms of its first document
    the same id, 1: the counter starts at 0 and the ids at 1.  Phrase queries and ranking compare
    ids, so they take the two terms for one. *)
Theorem bulk_build_shares_id st d t u ts toks docs :
  ix_next_term_id st = 0 -> can_build_base st = true -> t <> u ->
  term_id (build_base st ((d, mkAnalyzed (t :: u :: ts) toks) :: docs)) t = Some 1 /\
  term_id (build_base st ((d, mkAnalyzed (t :: u :: ts) toks) :: docs)) u = Some 1.
Proof.
  intros Hn Hc Hne.
  assert (Hdelta : ix_delta_postings st = ∅).
  { unfold can_build_base in Hc. rewrite !andb_true_iff, !bool_decide_eq_true in Hc. tauto. }
  set (first := foldl (bulk_term d) (∅, 0, []) (t :: u :: ts)).
  assert (Hfirst : forall v, v = t \/ v = u -> po_term_id <$> first.1.1 !! v = Some 1).
  { intros v Hv. unfold first. cbn [foldl]. rewrite !bulk_term_eq. apply bulk_terms_keep.
    destruct Hv as [-> | ->]; [rewrite lookup_insert_ne, lookup_insert_eq by done|rewrite lookup_insert_eq]; cbn [fmap option_fmap option_map po_term_id].
    - unfold bulk_id. by rewrite lookup_empty.
    - unfold bulk_id. by rewrite lookup_insert_ne, !lookup_empty. }
  assert (Hid : forall v, v = t \/ v = u -> term_id (build_base st ((d, mkAnalyzed (t :: u :: ts) toks) :: docs)) v = Some 1).
  { intros v Hv. unfold build_base. rewrite Hn. cbn [foldl]. unfold bulk_document at 2. cbn [fst snd ad_terms].
    specialize (Hfirst v Hv). fold first. destruct first as [[postings next] ids]. cbn [fst] in Hfirst.
    pose proof (bulk_documents_keep docs postings next (tm_insert (ix_base_docs st) d).1
      ([] ++ [(d, global_tokens ids toks)]) v 1 Hfirst) as Hk. cbn [ad_tokens].
    destruct (foldl bulk_document _ docs) as [[[p n] b] r]. cbn [fst] in Hk.
    unfold term_id, base_posting. cbn. rewrite Hdelta, lookup_empty. by destruct (p !! v). }
  split; apply Hid; auto.
Qed.

End tokens.

Lemma bulk_build_shares_id_witness :
  let st : IndexState (gset Z) := build_base IndexState_default [(7, mkAnalyzed [[97]; [98]] [1; 2])] in
  term_id st [97] = Some 1 /\ term_id st [98] = Some 1.
Proof.
  apply (bulk_build_shares_id (R := gset Z) IndexState_default 7 [97] [98] [] [1; 2] []); [reflexivity|vm_compute; reflexivity|discriminate].
Defined.
