(* ===== verification/FtsAnalyzer.v ===== *)
(** * Full-text search: the analyzer

    Models [fts/analyzer.rs]: the normalization of a text, its word tokens, the n-grams of its
    runs of CJK characters, and the numbering of the terms of a document.  A text is its list of
    code points.  Normalization and segmentation of text that is not ASCII are Unicode tables
    outside the program: the class [Unicode] names what is used of them, with no law.  The terms
    of one document are numbered without the wrap-around of their [u32] counter. *)
From S2P Require Import Prelude FtsPostings FtsIndex FtsDocs.
Local Open Scope Z_scope.

Class Unicode := {
  nfkc : Text -> Text;
  char_to_lowercase : Z -> Text;
  split_word_bounds : Text -> list Text;
  unicode_words : Text -> list Text
}.

Record FtsConfig := mkFtsConfig {
  max_chinese_length : nat;
  min_term_length : nat
}.

Definition is_ascii (text : Text) : bool := forallb (fun c => c <? 128) text.
Definition ascii_lowercase (c : Z) : Z := if (65 <=? c) && (c <=? 90) then c + 32 else c.
Definition is_word_char (c : Z) : bool :=
  ((48 <=? c) && (c <=? 57)) || ((65 <=? c) && (c <=? 90)) || ((97 <=? c) && (c <=? 122)) || (c =? 95).

Definition is_cjk (c : Z) : bool :=
  ((0x3400 <=? c) && (c <=? 0x4dbf)) || ((0x4e00 <=? c) && (c <=? 0x9fff)) || ((0xf900 <=? c) && (c <=? 0xfaff)) ||
  ((0x3040 <=? c) && (c <=? 0x309f)) || ((0x30a0 <=? c) && (c <=? 0x30ff)) || ((0x31f0 <=? c) && (c <=? 0x31ff)) ||
  ((0xac00 <=? c) && (c <=? 0xd7af)).

(** [str::split] with a predicate: the pieces between the separators, empty ones included. *)
Fixpoint split_at (sep : Z -> bool) (text : Text) : list Text :=
  match text with
  | [] => [[]]
  | c :: text =>
      if sep c then [] :: split_at sep text
      else match split_at sep text with
           | [] => [[c]]
           | w :: ws => (c :: w) :: ws
           end
  end.

Section analyzer.
Context {U : Unicode}.
Implicit Types (config : FtsConfig) (text : Text).

Definition normalize text : Text :=
  if is_ascii text then ascii_lowercase <$> text else nfkc text ≫= char_to_lowercase.

(** The words of a buffer that are long enough. *)
Definition flush_non_cjk config (buffer : Text) : list Text :=
  List.filter (fun word => (min_term_length config <=? length word)%nat) (unicode_words buffer).

(** One segment; the buffer holds the characters since the last CJK one. *)
Fixpoint segment_tokens config (buffer : Text) (segment : Text) : list Text :=
  match segment with
  | [] => flush_non_cjk config buffer
  | c :: segment =>
      if is_cjk c then flush_non_cjk config buffer ++ [c] :: segment_tokens config [] segment
      else segment_tokens config (buffer ++ [c]) segment
  end.

Definition primary_tokens config (normalized : Text) : list Text :=
  split_word_bounds normalized ≫= segment_tokens config [].

(** ** The terms of a document *)

Record AnalysisBuilder := mkBuilder {
  ab_terms : gmap Text Z;
  ab_tokens : list Z
}.

Definition intern (b : AnalysisBuilder) (term : Text) : AnalysisBuilder * Z :=
  match ab_terms b !! term with
  | Some id => (b, id)
  | None => let id := Z.of_nat (size (ab_terms b)) + 1 in (mkBuilder (<[term := id]> (ab_terms b)) (ab_tokens b), id)
  end.

Definition push_token (b : AnalysisBuilder) (id : Z) : AnalysisBuilder := mkBuilder (ab_terms b) (ab_tokens b ++ [id]).

Definition add_token (b : AnalysisBuilder) (word : Text) : AnalysisBuilder :=
  let '(b, id) := intern b word in push_token b id.

Definition add_gram (b : AnalysisBuilder) (gram : Text) : AnalysisBuilder := (intern b gram).1.

(** The grams of a run of CJK characters, the short ones first. *)
Definition run_grams config (run : Text) : list Text :=
  let max_n := Nat.min (Nat.max (max_chinese_length config) 1) (length run) in
  n ← seq 1 max_n; (fun offset => take n (drop offset run)) <$> seq 0 (S (length run - n)).

(** The length of the run of CJK characters at the front. *)
Fixpoint cjk_prefix (chars : Text) : nat :=
  match chars with
  | c :: chars => if is_cjk c then S (cjk_prefix chars) else O
  | [] => O
  end.

(** The loop over the runs; the fuel is the number of characters. *)
Fixpoint cjk_grams_loop (fuel : nat) config (chars : Text) : list Text :=
  match fuel, chars with
  | S fuel, c :: rest =>
      if negb (is_cjk c) then cjk_grams_loop fuel config rest
      else
        let stop := S (cjk_prefix rest) in
        run_grams config (take stop chars) ++ cjk_grams_loop fuel config (drop stop chars)
  | _, _ => []
  end.

Definition cjk_grams config (chars : Text) : list Text := cjk_grams_loop (length chars) config chars.

Definition add_text config (b : AnalysisBuilder) text : AnalysisBuilder :=
  let normalized := normalize text in
  if is_ascii normalized then
    foldl (fun b word => if (min_term_length config <=? length word)%nat then add_token b word else b) b
      (split_at (fun c => negb (is_word_char c)) normalized)
  else
    let b := foldl add_token b (primary_tokens config normalized) in
    foldl add_gram b (cjk_grams config normalized).

(** [finish]: the terms in order, and the tokens renumbered after them. *)
Definition entry_le (a b : Text * Z) : Prop := text_le a.1 b.1.
#[export] Instance entry_le_dec a b : Decision (entry_le a b).
Proof. unfold entry_le. apply _. Defined.

Definition remap_step (remap : list Z) (e : nat * (Text * Z)) : list Z := <[Z.to_nat e.2.2 := Z.of_nat e.1 + 1]> remap.

Definition remap_ids (entries : list (Text * Z)) : list Z :=
  foldl remap_step (replicate (S (length entries)) 0) (zip (seq 0 (length entries)) entries).

Definition finish_analysis (b : AnalysisBuilder) : AnalyzedDocument :=
  let entries := merge_sort entry_le (map_to_list (ab_terms b)) in
  let remap := remap_ids entries in
  mkAnalyzed entries.*1 ((fun id => if id =? 0 then 0 else default 0 (remap !! Z.to_nat id)) <$> ab_tokens b).

Definition builder_default : AnalysisBuilder := mkBuilder ∅ [].

Definition analyze_document config text : AnalyzedDocument := finish_analysis (add_text config builder_default text).

(** One value of [analyze_values]: a 0 between two values that have tokens. *)
Definition add_value config (b : AnalysisBuilder) (value : Text) : AnalysisBuilder :=
  let prior := length (ab_tokens b) in
  let b := if (0 <? prior)%nat then push_token b 0 else b in
  let boundary := length (ab_tokens b) in
  let b := add_text config b value in
  if (length (ab_tokens b) =? boundary)%nat && (0 <? prior)%nat
  then mkBuilder (ab_terms b) (removelast (ab_tokens b)) else b.

Definition analyze_values config (values : list Text) : AnalyzedDocument :=
  finish_analysis (foldl (add_value config) builder_default values).

End analyzer.

(** The tokens of a document as terms, [None] between two fields. *)
Definition words (a : AnalyzedDocument) : list (option Text) :=
  (fun l => if l =? 0 then None else ad_terms a !! Z.to_nat (l - 1)) <$> ad_tokens a.

(** ** The numbering *)

(** What the builder's tokens stand for, and that they do. *)
Definition token_of (terms : gmap Text Z) (w : option Text) : Z := match w with Some t => default 0 (terms !! t) | None => 0 end.

Record builds (b : AnalysisBuilder) (toks : list (option Text)) (T : gset Text) : Prop := {
  b_dom : dom (ab_terms b) = T;
  b_range t i : ab_terms b !! t = Some i -> 1 <= i <= Z.of_nat (size (ab_terms b));
  b_inj t u i : ab_terms b !! t = Some i -> ab_terms b !! u = Some i -> t = u;
  b_tokens : ab_tokens b = token_of (ab_terms b) <$> toks;
  b_words t : Some t ∈ toks -> t ∈ T
}.

Lemma builder_default_builds : builds builder_default [] ∅.
Proof. split; cbn; try done. by intros t ?%elem_of_nil. Qed.

Lemma intern_builds b toks T t : builds b toks T ->
  builds (intern b t).1 toks ({[t]} ∪ T) /\ ab_terms (intern b t).1 !! t = Some (intern b t).2.
Proof.
  intros [Hd Hr Hi Ht Hw]. unfold intern. destruct (ab_terms b !! t) as [i|] eqn:Hti; cbn.
  - split; [|done]. assert (Hin : t ∈ T) by (rewrite <-Hd; by apply elem_of_dom).
    replace ({[t]} ∪ T) with T by set_solver. by split.
  - split; [|by rewrite lookup_insert_eq]. pose proof (map_size_insert_None t (Z.of_nat (size (ab_terms b)) + 1) (ab_terms b) Hti) as Hsz.
    split; cbn.
    + by rewrite dom_insert_L, Hd.
    + intros u i. rewrite Hsz. destruct (decide (u = t)) as [->|Hne]; [rewrite lookup_insert_eq; intros [= <-]; lia|].
      rewrite lookup_insert_ne by done. intros Hu%Hr. lia.
    + intros u v i. destruct (decide (u = t)) as [->|Hu], (decide (v = t)) as [->|Hv];
        rewrite ?lookup_insert_eq, ?lookup_insert_ne by done; try done.
      * intros [= <-] Hv'%Hr. lia.
      * intros Hu'%Hr [= <-]. lia.
      * apply Hi.
    + rewrite Ht. apply list_fmap_ext. intros k [u|] Hk; [|done]. cbn.
      assert (Hu : u ∈ T) by (apply Hw; by eapply list_elem_of_lookup_2).
      rewrite lookup_insert_ne; [done|]. intros <-. rewrite <-Hd in Hu. apply elem_of_dom in Hu. by rewrite Hti in Hu; destruct Hu.
    + intros u Hu. apply elem_of_union_r, Hw, Hu.
Qed.

Lemma push_builds b toks T w : builds b toks T -> (forall t, w = Some t -> t ∈ T) ->
  builds (push_token b (token_of (ab_terms b) w)) (toks ++ [w]) T.
Proof.
  intros [Hd Hr Hi Ht Hw] Hin. split; cbn; try done.
  - by rewrite fmap_app, Ht.
  - intros t [Ht'|Ht'%list_elem_of_singleton]%elem_of_app; auto.
Qed.

Lemma add_token_builds b toks T word : builds b toks T -> builds (add_token b word) (toks ++ [Some word]) ({[word]} ∪ T).
Proof.
  intros Hb. destruct (intern_builds b toks T word Hb) as [Hb' Hl]. unfold add_token. destruct (intern b word) as [b' id].
  cbn in Hb', Hl. replace id with (token_of (ab_terms b') (Some word)) by (cbn; by rewrite Hl).
  apply push_builds; [done|]. intros t [= <-]. set_solver.
Qed.

Lemma add_tokens_builds b toks T ws : builds b toks T ->
  builds (foldl add_token b ws) (toks ++ (Some <$> ws)) (list_to_set ws ∪ T).
Proof.
  revert b toks T. induction ws as [|w ws IH]; intros b toks T Hb; cbn.
  - rewrite app_nil_r. by rewrite (left_id_L ∅ (∪)).
  - specialize (IH _ _ _ (add_token_builds b toks T w Hb)). rewrite <-app_assoc in IH. cbn in IH.
    replace ({[w]} ∪ list_to_set ws ∪ T) with (list_to_set ws ∪ ({[w]} ∪ T)) by set_solver. done.
Qed.

Lemma add_grams_builds b toks T ws : builds b toks T ->
  builds (foldl add_gram b ws) toks (list_to_set ws ∪ T).
Proof.
  revert b T. induction ws as [|w ws IH]; intros b T Hb; cbn.
  - by rewrite (left_id_L ∅ (∪)).
  - specialize (IH _ _ (proj1 (intern_builds b toks T w Hb))).
    replace ({[w]} ∪ list_to_set ws ∪ T) with (list_to_set ws ∪ ({[w]} ∪ T)) by set_solver. done.
Qed.

(** ** Renumbering *)

#[export] Instance entry_le_total : Total entry_le.
Proof. intros a b. exact (text_le_total a.1 b.1). Qed.
#[export] Instance entry_le_trans : Transitive entry_le.
Proof. intros a b c. exact (text_le_trans a.1 b.1 c.1). Qed.

Lemma le_nodup_lt (l : list (Text * Z)) : StronglySorted entry_le l -> NoDup l.*1 -> StronglySorted text_lt l.*1.
Proof.
  induction 1 as [|x l Hs IH Hx]; cbn; [constructor|]. intros [Hnin Hnd]%NoDup_cons. constructor; [by apply IH|].
  apply Forall_forall. intros t Ht. apply list_elem_of_fmap in Ht as (y & -> & Hy).
  pose proof (proj1 (Forall_forall _ _) Hx _ Hy) as Hle. apply text_le_lt_eq in Hle as [|He]; [done|].
  exfalso. apply Hnin. rewrite He. apply list_elem_of_fmap. by exists y.
Qed.

Lemma remap_fold (l : list (Text * Z)) s remap :
  Forall (fun e => 0 <= e.2) l -> NoDup l.*2 -> (forall e, e ∈ l -> (Z.to_nat e.2 < length remap)%nat) ->
  let r := foldl remap_step remap (zip (seq s (length l)) l) in
  (forall k t i, l !! k = Some (t, i) -> r !! Z.to_nat i = Some (Z.of_nat (s + k) + 1)) /\
  (forall j, 0 <= j -> j ∉ l.*2 -> r !! Z.to_nat j = remap !! Z.to_nat j).
Proof.
  cbv zeta. revert s remap. induction l as [|[u x] l IH]; intros s remap Hpos Hnd Hlen; cbn.
  { split; [intros k t i; by rewrite lookup_nil|done]. }
  apply Forall_cons in Hpos as [Hx Hpos]. cbn in Hx. apply NoDup_cons in Hnd as [Hnin Hnd].
  destruct (IH (S s) (remap_step remap (s, (u, x))) Hpos Hnd) as [IH1 IH2].
  { intros e He. unfold remap_step. rewrite length_insert. apply Hlen. by right. }
  split.
  - intros [|k] t i Hk; cbn in Hk.
    + injection Hk as -> ->. rewrite IH2 by done. unfold remap_step. cbn. rewrite list_lookup_insert_eq; [do 2 f_equal; lia|].
      apply (Hlen (t, i)). by left.
    + rewrite (IH1 k t i Hk). do 2 f_equal. lia.
  - intros j Hj Hnj. apply not_elem_of_cons in Hnj as [Hne Hnj]. rewrite IH2 by done. unfold remap_step. cbn.
    apply list_lookup_insert_ne. lia.
Qed.

Lemma remap_ids_lookup (l : list (Text * Z)) k t i :
  (forall e, e ∈ l -> 1 <= e.2 <= Z.of_nat (length l)) -> NoDup l.*2 -> l !! k = Some (t, i) ->
  remap_ids l !! Z.to_nat i = Some (Z.of_nat k + 1).
Proof.
  intros Hr Hnd Hk. unfold remap_ids.
  refine (proj1 (remap_fold l 0 _ _ Hnd _) k t i Hk).
  - apply Forall_forall. intros e He. specialize (Hr e He). lia.
  - intros e He. specialize (Hr e He). rewrite length_replicate. lia.
Qed.

Lemma map_ids_nodup (m : gmap Text Z) : (forall t u i, m !! t = Some i -> m !! u = Some i -> t = u) -> NoDup (map_to_list m).*2.
Proof.
  intros Hinj. assert (Hmem : forall t i, (t, i) ∈ map_to_list m -> m !! t = Some i) by (intros t i; apply elem_of_map_to_list).
  pose proof (NoDup_map_to_list m) as Hnd. revert Hmem Hnd. generalize (map_to_list m). intros l.
  induction l as [|[t i] l IH]; intros Hmem Hnd; cbn; [constructor|]. apply NoDup_cons in Hnd as [Hnin Hnd].
  apply NoDup_cons. split; [|apply IH; [intros u j Hu; apply Hmem; by right|done]].
  intros ([u j] & -> & Hu)%list_elem_of_fmap. cbn in Hmem. apply Hnin.
  rewrite (Hinj t u j); [done|apply Hmem; by left|apply Hmem; by right].
Qed.

Lemma finish_builds b toks T : builds b toks T ->
  StronglySorted text_lt (ad_terms (finish_analysis b)) /\ (forall t, t ∈ ad_terms (finish_analysis b) <-> t ∈ T) /\ words (finish_analysis b) = toks.
Proof.
  intros [Hd Hr Hi Ht Hw]. unfold words, finish_analysis. cbn [ad_terms ad_tokens].
  set (entries := merge_sort entry_le (map_to_list (ab_terms b))).
  pose proof (merge_sort_Permutation entry_le (map_to_list (ab_terms b))) as Hperm. fold entries in Hperm.
  assert (Hmem : forall t i, (t, i) ∈ entries <-> ab_terms b !! t = Some i) by (intros t i; rewrite Hperm; apply elem_of_map_to_list).
  assert (Hlen : length entries = size (ab_terms b)) by (rewrite Hperm; by rewrite length_map_to_list).
  assert (Hnd1 : NoDup entries.*1) by (rewrite Hperm; apply NoDup_fst_map_to_list).
  assert (Hnd2 : NoDup entries.*2) by (rewrite Hperm; by apply map_ids_nodup).
  split_and!.
  - apply le_nodup_lt; [|done]. apply StronglySorted_merge_sort; apply _.
  - intros t. rewrite <-Hd, elem_of_dom, list_elem_of_fmap. split.
    + intros ([u i] & -> & Hin%Hmem). by exists i.
    + intros [i Hti%Hmem]. by exists (t, i).
  - rewrite Ht, <-!list_fmap_compose. transitivity (id <$> toks); [|apply list_fmap_id]. apply list_fmap_ext.
    intros k [t|] Hk; [|done]. cbn.
    assert (Hin : t ∈ T) by (apply Hw; by eapply list_elem_of_lookup_2). rewrite <-Hd in Hin. apply elem_of_dom in Hin as [i Hti].
    rewrite Hti. cbn. pose proof (Hr _ _ Hti) as Hrange. destruct (Z.eqb_spec i 0); [lia|].
    pose proof (proj2 (Hmem t i) Hti) as Hin. apply list_elem_of_lookup in Hin as [pos Hn].
    rewrite (remap_ids_lookup _ pos t i); [|intros [u j] Hu%Hmem; cbn; rewrite Hlen; by apply (Hr u)|done|done]. cbn.
    destruct (Z.eqb_spec (Z.of_nat pos + 1) 0); [lia|]. replace (Z.to_nat (Z.of_nat pos + 1 - 1)) with pos by lia.
    by rewrite list_lookup_fmap, Hn.
Qed.

(** ** What a document says *)

(** Whether a list is one of CJK characters within a text. *)
Definition cjk_substring (g chars : Text) : Prop :=
  (exists pre post, chars = pre ++ g ++ post) /\ Forall (fun c => is_cjk c = true) g.

Lemma elem_run_grams config (run g : Text) :
  g ∈ run_grams config run <->
  (exists pre post, run = pre ++ g ++ post) /\ (1 <= length g <= Nat.max (max_chinese_length config) 1)%nat.
Proof.
  unfold run_grams. rewrite list_elem_of_bind. split.
  - intros (n & Hn & Hs). apply list_elem_of_fmap in Hn as (offset & -> & Ho%elem_of_seq). apply elem_of_seq in Hs.
    rewrite length_take, length_drop. split; [|lia]. exists (take offset run), (drop n (drop offset run)).
    by rewrite (take_drop n), take_drop.
  - intros [(pre & post & ->) Hlen]. rewrite !length_app. exists (length g). split; [|apply elem_of_seq; lia].
    apply list_elem_of_fmap. exists (length pre). split; [|apply elem_of_seq; lia]. by rewrite drop_app_length, take_app_length.
Qed.

Lemma cjk_prefix_spec chars :
  Forall (fun c => is_cjk c = true) (take (cjk_prefix chars) chars) /\ (cjk_prefix chars <= length chars)%nat /\
  match drop (cjk_prefix chars) chars with c :: _ => is_cjk c = false | [] => True end.
Proof.
  induction chars as [|c chars (IH1 & IH2 & IH3)]; cbn; [by repeat split; constructor|].
  destruct (is_cjk c) eqn:Hc; cbn; [split_and!; [by constructor|lia|done]|split_and!; [constructor|lia|done]].
Qed.

(** A CJK substring lies in the run at the front or behind it. *)
Lemma cjk_substring_split (run rest g : Text) : Forall (fun c => is_cjk c = true) run ->
  match rest with c :: _ => is_cjk c = false | [] => True end -> g <> [] ->
  cjk_substring g (run ++ rest) <-> (exists pre post, run = pre ++ g ++ post) \/ cjk_substring g rest.
Proof.
  intros Hrun Hrest Hg. split.
  - intros [(pre & post & Heq) Hcjk]. apply app_eq_inv in Heq as [(k & -> & Hk)|(k & -> & Hk)].
    + apply app_eq_inv in Hk as [(k' & -> & Hk')|(k' & -> & Hk')]; [|by left; exists pre, k'].
      destruct k' as [|c k']; [left; exists pre, []; by rewrite !app_nil_r|]. right. exfalso.
      cbn in Hk'. subst rest. apply Forall_app in Hcjk as [_ Hc]. apply Forall_cons in Hc as [Hc _]. congruence.
    + right. split; [|done]. by exists k, post.
  - intros [(pre & post & ->)|[(pre & post & ->) Hcjk]].
    + split; [exists pre, (post ++ rest); by rewrite <-!app_assoc|]. apply Forall_app in Hrun as [_ Hrun].
      by apply Forall_app in Hrun as [Hrun _].
    + split; [|done]. exists (run ++ pre), post. by rewrite <-app_assoc.
Qed.

Lemma cjk_grams_loop_spec fuel config chars g : (length chars <= fuel)%nat ->
  g ∈ cjk_grams_loop fuel config chars <->
  cjk_substring g chars /\ (1 <= length g <= Nat.max (max_chinese_length config) 1)%nat.
Proof.
  revert chars. induction fuel as [|fuel IH]; intros chars Hf.
  - destruct chars; [|cbn in Hf; lia]. cbn. rewrite elem_of_nil. split; [done|]. intros [[(pre & post & He) _] Hl].
    destruct pre, g; cbn in *; try lia; done.
  - destruct chars as [|c rest]; cbn [cjk_grams_loop].
    { rewrite elem_of_nil. split; [done|]. intros [[(pre & post & He) _] Hl]. destruct pre, g; cbn in *; try lia; done. }
    cbn in Hf. destruct (is_cjk c) eqn:Hc; cbn [negb].
    + destruct (cjk_prefix_spec rest) as (Hrun & Hle & Hrest). rewrite elem_of_app, elem_run_grams.
      cbn [take drop]. rewrite IH by (rewrite length_drop; lia).
      replace (c :: rest) with ((c :: take (cjk_prefix rest) rest) ++ drop (cjk_prefix rest) rest) by (cbn; by rewrite take_drop).
      assert (Hcut : g <> [] -> cjk_substring g ((c :: take (cjk_prefix rest) rest) ++ drop (cjk_prefix rest) rest) <->
        (exists pre post, c :: take (cjk_prefix rest) rest = pre ++ g ++ post) \/ cjk_substring g (drop (cjk_prefix rest) rest)).
      { apply cjk_substring_split; [by constructor|done]. }
      destruct g as [|x g]; [cbn; split; [intros [[_ Hl]|[_ Hl]]|intros [_ Hl]]; lia|]. rewrite Hcut by done. tauto.
    + rewrite IH by lia.
      assert (Hstep : g <> [] -> cjk_substring g (c :: rest) <-> cjk_substring g rest).
      { intros Hg. split; intros [(pre & post & He) Hcjk]; (split; [|done]).
        - destruct pre as [|x pre]; cbn in He; [|injection He as <- He; by exists pre, post].
          destruct g as [|y g]; [done|]. injection He as <- He. apply Forall_cons in Hcjk as [Hy _]. congruence.
        - exists (c :: pre), post. by rewrite He. }
      destruct g as [|x g]; [cbn; split; intros [_ Hl]; lia|]. by rewrite Hstep.
Qed.

(** The n-grams: every CJK substring that is short enough. *)
Lemma elem_cjk_grams config chars g :
  g ∈ cjk_grams config chars <-> cjk_substring g chars /\ (1 <= length g <= Nat.max (max_chinese_length config) 1)%nat.
Proof. by apply cjk_grams_loop_spec. Qed.

Section analyzed.
Context {U : Unicode}.
Implicit Types (config : FtsConfig) (text : Text).

(** The words of a text, in order, and the grams only its index has. *)
Definition text_words config text : list Text :=
  let normalized := normalize text in
  if is_ascii normalized
  then List.filter (fun word => (min_term_length config <=? length word)%nat) (split_at (fun c => negb (is_word_char c)) normalized)
  else primary_tokens config normalized.

Definition text_grams config text : list Text :=
  if is_ascii (normalize text) then [] else cjk_grams config (normalize text).

Definition text_terms config text : gset Text := list_to_set (text_words config text) ∪ list_to_set (text_grams config text).

(** The words of the fields, apart. *)
Definition join_words (toks : list (option Text)) (ws : list Text) : list (option Text) :=
  match ws, toks with
  | [], _ => toks
  | _, [] => Some <$> ws
  | _, _ => toks ++ None :: (Some <$> ws)
  end.

Lemma foldl_if {A B} (p : B -> bool) (f : A -> B -> A) (l : list B) a :
  foldl (fun a x => if p x then f a x else a) a l = foldl f a (List.filter p l).
Proof. revert a. induction l as [|x l IH]; intros a; cbn; [done|]. destruct (p x); cbn; apply IH. Qed.

Lemma add_text_builds config b toks T text : builds b toks T ->
  builds (add_text config b text) (toks ++ (Some <$> text_words config text)) (text_terms config text ∪ T).
Proof.
  intros Hb. unfold add_text, text_terms, text_words, text_grams. destruct (is_ascii (normalize text)).
  - rewrite foldl_if. cbn. rewrite (right_id_L ∅ (∪)). by apply add_tokens_builds.
  - pose proof (add_grams_builds _ _ _ (cjk_grams config (normalize text))
      (add_tokens_builds b toks T (primary_tokens config (normalize text)) Hb)) as Hg.
    rewrite (assoc_L (∪)) in Hg. by rewrite (comm_L (∪) (list_to_set (cjk_grams _ _))) in Hg.
Qed.

Lemma builds_length b toks T : builds b toks T -> length (ab_tokens b) = length toks.
Proof. intros Hb. by rewrite (b_tokens _ _ _ Hb), length_fmap. Qed.

Lemma builds_pop b toks T w : builds b (toks ++ [w]) T -> builds (mkBuilder (ab_terms b) (removelast (ab_tokens b))) toks T.
Proof.
  intros [Hd Hr Hi Ht Hw]. split; cbn; try done.
  - rewrite Ht, fmap_app. cbn. by rewrite removelast_last.
  - intros t Hin. apply Hw. apply elem_of_app. by left.
Qed.

Lemma add_value_builds config b toks T value : builds b toks T ->
  builds (add_value config b value) (join_words toks (text_words config value)) (text_terms config value ∪ T).
Proof.
  intros Hb. unfold add_value. cbv zeta. rewrite (builds_length _ _ _ Hb).
  destruct toks as [|w toks].
  - cbn [length Nat.ltb Nat.leb]. rewrite andb_false_r. pose proof (add_text_builds config b [] T value Hb) as Ha.
    by destruct (text_words config value).
  - cbn [length Nat.ltb Nat.leb]. rewrite andb_true_r.
    assert (Hp : builds (push_token b 0) ((w :: toks) ++ [None]) T) by (by apply (push_builds b (w :: toks) T None)).
    pose proof (add_text_builds config _ _ _ value Hp) as Ha.
    rewrite (builds_length _ _ _ Ha), (builds_length _ _ _ Hp), length_app, length_fmap.
    unfold join_words. destruct (text_words config value) as [|v ws] eqn:Hws.
    + rewrite (proj2 (Nat.eqb_eq _ _)) by (cbn; lia). cbn [fmap list_fmap] in Ha. rewrite app_nil_r in Ha. by eapply builds_pop.
    + rewrite (proj2 (Nat.eqb_neq _ _)) by (cbn; lia). by rewrite <-app_assoc in Ha.
Qed.

Definition values_words config (values : list Text) : list (option Text) :=
  foldl (fun toks value => join_words toks (text_words config value)) [] values.

Lemma add_values_builds config values b toks T : builds b toks T ->
  builds (foldl (add_value config) b values) (foldl (fun toks value => join_words toks (text_words config value)) toks values)
    (⋃ (text_terms config <$> values) ∪ T).
Proof.
  revert b toks T. induction values as [|v values IH]; intros b toks T Hb; cbn.
  - by rewrite (left_id_L ∅ (∪)).
  - specialize (IH _ _ _ (add_value_builds config b toks T v Hb)).
    replace (text_terms config v ∪ ⋃ (text_terms config <$> values) ∪ T)
      with (⋃ (text_terms config <$> values) ∪ (text_terms config v ∪ T)) by set_solver. done.
Qed.

(** A document lists each of its terms once, in order, and its tokens are its words. *)
Record analysis_ok (a : AnalyzedDocument) (toks : list (option Text)) (T : gset Text) : Prop := {
  an_sorted : StronglySorted text_lt (ad_terms a);
  an_terms t : t ∈ ad_terms a <-> t ∈ T;
  an_words : words a = toks
}.

Lemma analyze_document_ok config text :
  analysis_ok (analyze_document config text) (Some <$> text_words config text) (text_terms config text).
Proof.
  pose proof (add_text_builds config builder_default [] ∅ text builder_default_builds) as Hb.
  rewrite (right_id_L ∅ (∪)) in Hb. cbn [app] in Hb. destruct (finish_builds _ _ _ Hb) as (H1 & H2 & H3). by split.
Qed.

Lemma analyze_values_ok config values :
  analysis_ok (analyze_values config values) (values_words config values) (⋃ (text_terms config <$> values)).
Proof.
  pose proof (add_values_builds config values builder_default [] ∅ builder_default_builds) as Hb.
  rewrite (right_id_L ∅ (∪)) in Hb. destruct (finish_builds _ _ _ Hb) as (H1 & H2 & H3). by split.
Qed.

Lemma elem_text_terms config text t : t ∈ text_terms config text <->
  t ∈ text_words config text \/
  (is_ascii (normalize text) = false /\ cjk_substring t (normalize text) /\
   (1 <= length t <= Nat.max (max_chinese_length config) 1)%nat).
Proof.
  unfold text_terms, text_grams. rewrite elem_of_union, !elem_of_list_to_set. destruct (is_ascii (normalize text)).
  - rewrite elem_of_nil. naive_solver.
  - rewrite elem_cjk_grams. naive_solver.
Qed.

(** C38 The analysis of the fields of a document: its terms are in order and without repetition, they
    are exactly the words of the fields and the short CJK substrings, and its tokens read back as
    the words in order, with a gap between the fields that have some. *)
Theorem analysis_exact config values :
  StronglySorted text_lt (ad_terms (analyze_values config values)) /\
  words (analyze_values config values) = values_words config values /\
  forall t, t ∈ ad_terms (analyze_values config values) <->
    exists value, value ∈ values /\
      (t ∈ text_words config value \/
       (is_ascii (normalize value) = false /\ cjk_substring t (normalize value) /\
        (1 <= length t <= Nat.max (max_chinese_length config) 1)%nat)).
Proof.
  destruct (analyze_values_ok config values) as [Hs Ht Hw]. split_and!; [done|done|]. intros t. rewrite Ht, elem_of_union_list.
  setoid_rewrite <-elem_text_terms. setoid_rewrite list_elem_of_fmap. naive_solver.
Qed.

End analyzed.
