(* ===== verification/FtsQuery.v ===== *)
(** * Full-text search: queries

    Models [fts/query.rs] and [FtsEngine::search]: a query is either boolean (it has an operator
    among its words), a phrase between double quotes, or a list of terms.  Errors carry no text
    here: [None] is [Err].  Ranking ([search_ranked]) and the fuzzy search are left out. *)
From S2P Require Import Prelude FtsPostings FtsIndex FtsDocs FtsTokens FtsAnalyzer.
Local Open Scope Z_scope.

(** ** Words of a query *)

(** [char::is_whitespace] *)
Definition char_is_whitespace (c : Z) : bool :=
  ((9 <=? c) && (c <=? 13)) || (c =? 32) || (c =? 0x85) || (c =? 0xa0) || (c =? 0x1680) ||
  ((0x2000 <=? c) && (c <=? 0x200a)) || (c =? 0x2028) || (c =? 0x2029) || (c =? 0x202f) || (c =? 0x205f) || (c =? 0x3000).

Definition split_whitespace (text : Text) : list Text :=
  List.filter (fun w => negb (bool_decide (w = []))) (split_at char_is_whitespace text).

Fixpoint trim_front (text : Text) : Text :=
  match text with
  | c :: rest => if char_is_whitespace c then trim_front rest else text
  | [] => []
  end.

Definition trim_text (text : Text) : Text := reverse (trim_front (reverse (trim_front text))).

Definition eq_ignore_case (a b : Text) : bool := bool_decide (ascii_lowercase <$> a = ascii_lowercase <$> b).

Definition word_or : Text := [79; 82].
Definition word_and : Text := [65; 78; 68].
Definition word_not : Text := [78; 79; 84].
Definition minus : Z := 45.
Definition plus : Z := 43.
Definition quote : Z := 34.

(** The text between double quotes, if it is. *)
Definition phrase_query (query : Text) : Text * bool :=
  let query := trim_text query in
  if (2 <=? length query)%nat && bool_decide (head query = Some quote) && bool_decide (last query = Some quote)
  then (take (length query - 2) (drop 1 query), true) else (query, false).

(** *** Boolean queries *)

Abbreviation Group := (list (bool * Text)).

Definition is_operator (token : Text) : bool :=
  eq_ignore_case token word_or || eq_ignore_case token word_and || eq_ignore_case token word_not ||
  bool_decide (head token = Some minus).

(** [strip_prefix('-').or_else(strip_prefix('+')).unwrap_or(token)] *)
Definition strip_sign (token : Text) : Text :=
  match token with
  | c :: rest => if (c =? minus) || (c =? plus) then rest else token
  | [] => []
  end.

Definition unsupported (token : Text) : bool := existsb (fun c => (c =? 42) || (c =? 63) || (c =? 58)) token.

(** The loop over the words: the closed groups, the open one, and [negate_next]. *)
Fixpoint boolean_loop (tokens : list Text) (groups : list Group) (group : Group) (negate_next : bool)
    : option (list Group) :=
  match tokens with
  | [] => if negate_next || bool_decide (group = []) then None else Some (groups ++ [group])
  | token :: tokens =>
      if eq_ignore_case token word_or then
        if bool_decide (group = []) then None else boolean_loop tokens (groups ++ [group]) [] false
      else if eq_ignore_case token word_and then boolean_loop tokens groups group negate_next
      else if eq_ignore_case token word_not then boolean_loop tokens groups group true
      else if unsupported token then None
      else
        let prefixed_negative := bool_decide (head token = Some minus) && (1 <? length token)%nat in
        let term := strip_sign token in
        if bool_decide (term = []) then None
        else boolean_loop tokens groups (group ++ [(negate_next || prefixed_negative, term)]) false
  end.

Section queries.
Context {R : Type} `{TreemapLaws R} {U : Unicode}.
Implicit Types (st : IndexState R) (postings : list R) (analyzed : AnalyzedDocument).

(** ** Matching terms and phrases *)

Definition posting_at postings (index : nat) : R := default tm_new (postings !! index).

Definition shorter_posting postings (i j : nat) : Prop := (tm_len (posting_at postings i) <= tm_len (posting_at postings j))%nat.
#[export] Instance shorter_posting_dec postings i j : Decision (shorter_posting postings i j).
Proof. unfold shorter_posting. apply _. Defined.

(** The loop over the other postings; true when it returns an empty result early. *)
Fixpoint intersect_rest postings (result : R) (order : list nat) : R * bool :=
  match order with
  | [] => (result, false)
  | index :: order =>
      let result := tm_and result (posting_at postings index) in
      if (tm_len result =? 0)%nat then (result, true) else intersect_rest postings result order
  end.

(** [tokens.windows(n).any(|w| w == query_tokens)] *)
Definition has_window {A} `{EqDecision A} (tokens query_tokens : list A) : bool :=
  existsb (fun i => bool_decide (take (length query_tokens) (drop i tokens) = query_tokens))
    (seq 0 (S (length tokens) - length query_tokens)).

Definition query_tokens st analyzed : list Z :=
  omap (fun l => if l =? 0 then None else ad_terms analyzed !! Z.to_nat (l - 1) ≫= term_id st) (ad_tokens analyzed).

Definition phrase_matches st (tokens : list Z) (result : R) : R :=
  foldl (fun matches d => match tokens_for_doc st d with
                       | Some doc => if has_window doc tokens then (tm_insert matches d).1 else matches
                       | None => matches
                       end) tm_new (tm_iter result).

Definition matching_docs_from_postings st postings analyzed (phrase : bool) : R :=
  match merge_sort (shorter_posting postings) (seq 0 (length postings)) with
  | [] => tm_new
  | smallest :: order =>
      let result := posting_at postings smallest in
      if (tm_len result =? 0)%nat then result
      else
        let '(result, early) := intersect_rest postings result order in
        if early || negb phrase then result
        else
          let tokens := query_tokens st analyzed in
          if bool_decide (tokens = []) then tm_new else phrase_matches st tokens result
  end.

Definition matching_docs st analyzed (phrase : bool) : R :=
  matching_docs_from_postings st (live_posting st <$> ad_terms analyzed) analyzed phrase.

(** ** Boolean queries *)

Definition group_step (config : FtsConfig) st (acc : option R * list R) (e : bool * Text) : option R * list R :=
  let docs := matching_docs st (analyze_document config e.2) false in
  if e.1 then (acc.1, acc.2 ++ [docs])
  else (Some match acc.1 with Some current => tm_and current docs | None => docs end, acc.2).

Definition group_docs (config : FtsConfig) st (group : Group) : R :=
  let '(positives, negatives) := foldl (group_step config st) (None, []) group in
  foldl tm_sub (default tm_new positives) negatives.

Definition matching_boolean_query (config : FtsConfig) st (query : Text) : option (option R) :=
  let tokens := split_whitespace query in
  if negb (existsb is_operator tokens) then Some None
  else
    groups ← boolean_loop tokens [] [] false;
    Some (Some (foldl (fun union group => tm_or union (group_docs config st group)) tm_new groups)).

(** [FtsEngine::search] *)
Definition search (config : FtsConfig) st (query : Text) : option R :=
  r ← matching_boolean_query config st query;
  match r with
  | Some result => Some result
  | None =>
      let '(query, phrase) := phrase_query query in
      let analyzed := analyze_document config query in
      if bool_decide (ad_terms analyzed = []) then Some tm_new else Some (matching_docs st analyzed phrase)
  end.

(** ** What a query means *)

(** A document has every term of the query, and the query has one. *)
Definition has_terms (M : Docs) (terms : list Text) (d : Z) : Prop :=
  terms <> [] /\ exists a, M !! d = Some a /\ forall t, t ∈ terms -> t ∈ ad_terms a.

(** Its words have the words of the query in a row. *)
Definition has_phrase (M : Docs) (phrase : list (option Text)) (d : Z) : Prop :=
  phrase <> [] /\ exists a i, M !! d = Some a /\ take (length phrase) (drop i (words a)) = phrase.

Definition has_group (config : FtsConfig) (M : Docs) (group : Group) (d : Z) : Prop :=
  (exists term, (false, term) ∈ group) /\
  (forall term, (false, term) ∈ group -> has_terms M (ad_terms (analyze_document config term)) d) /\
  (forall term, (true, term) ∈ group -> ~ has_terms M (ad_terms (analyze_document config term)) d).

(** *** How the words of a boolean query read

    Segments of terms between the words OR, each with a word of terms and each term with the AND
    and NOT words before it.  A term is negative when one of them is NOT or its own sign is a minus. *)

Definition is_and (w : Text) : Prop := eq_ignore_case w word_and = true.
Definition is_not (w : Text) : Prop := eq_ignore_case w word_not = true.
Definition is_or (w : Text) : Prop := eq_ignore_case w word_or = true.
Definition prefix_word (w : Text) : Prop := is_and w \/ is_not w.

(** The term of a word, which has none of the characters [*], [?] and [:]. *)
Definition term_word (w : Text) (negative : bool) (term : Text) : Prop :=
  ~ is_or w /\ ~ prefix_word w /\ term <> [] /\ (forall c, c ∈ w -> c <> 42 /\ c <> 63 /\ c <> 58) /\
  (negative = true /\ w = minus :: term \/
   negative = false /\ (w = plus :: term \/ w = term /\ head w <> Some minus /\ head w <> Some plus)).

Inductive reads_terms : list Text -> Group -> Prop :=
| rt_none : reads_terms [] []
| rt_term ws group prefix w signed negative term :
    reads_terms ws group -> Forall prefix_word prefix -> term_word w signed term ->
    (negative = true <-> signed = true \/ Exists is_not prefix) ->
    reads_terms (ws ++ prefix ++ [w]) (group ++ [(negative, term)]).

(** Words behind the last term of a segment stand for nothing; only the query may not end in NOT. *)
Inductive reads_query : list Text -> list Group -> Prop :=
| rq_last ws group trailing :
    reads_terms ws group -> group <> [] -> Forall is_and trailing -> reads_query (ws ++ trailing) [group]
| rq_or ws group trailing w rest groups :
    reads_terms ws group -> group <> [] -> Forall prefix_word trailing -> is_or w -> reads_query rest groups ->
    reads_query (ws ++ trailing ++ w :: rest) (group :: groups).

(** The text of any other query: what stands between double quotes, a phrase, or all of it. *)
Definition blank (text : Text) : Prop := Forall (fun c => char_is_whitespace c = true) text.
Definition tight (text : Text) : Prop :=
  (forall c, head text = Some c -> char_is_whitespace c = false) /\
  (forall c, last text = Some c -> char_is_whitespace c = false).
Definition query_text (query body : Text) (phrase : bool) : Prop :=
  exists before after, blank before /\ blank after /\
    if phrase then query = before ++ (quote :: body ++ [quote]) ++ after
    else query = before ++ body ++ after /\ tight body /\ ~ exists text, body = quote :: text ++ [quote].

(** ** They do *)

Lemma intersect_rest_elems postings result order d :
  d ∈ tm_elems (intersect_rest postings result order).1 <->
  d ∈ tm_elems result /\ forall i, i ∈ order -> d ∈ tm_elems (posting_at postings i).
Proof.
  revert result. induction order as [|i order IH]; intros result; cbn.
  { split; [intros Hd; split; [done|by intros i ?%elem_of_nil]|by intros [Hd _]]. }
  destruct (Nat.eqb_spec (tm_len (tm_and result (posting_at postings i))) 0) as [He|He]; cbn.
  - rewrite len_elems in He. apply size_empty_inv, leibniz_equiv in He. rewrite He. split; [set_solver|].
    intros [Hd Ho]. rewrite <-He. treemap. apply elem_of_intersection. split; [done|]. apply Ho. by left.
  - rewrite IH. treemap. rewrite elem_of_intersection. split.
    + intros [[Hd Hi] Ho]. split; [done|]. intros j [->|Hj]%elem_of_cons; auto.
    + intros [Hd Ho]. split; [split; [done|apply Ho; by left]|]. intros j Hj. apply Ho. by right.
Qed.

Lemma tm_len_zero (r : R) : (tm_len r =? 0)%nat = true -> tm_elems r = ∅.
Proof. rewrite len_elems. intros He%Nat.eqb_eq. by apply leibniz_equiv, size_empty_inv. Qed.

Lemma intersect_rest_early postings result order : (intersect_rest postings result order).2 = true ->
  tm_elems (intersect_rest postings result order).1 = ∅.
Proof.
  revert result. induction order as [|i order IH]; intros result; cbn; [done|].
  destruct (Nat.eqb (tm_len (tm_and result (posting_at postings i))) 0) eqn:He; cbn; [intros _; by apply tm_len_zero|apply IH].
Qed.

(** The postings a document must be in. *)
Lemma order_postings postings d smallest order :
  merge_sort (shorter_posting postings) (seq 0 (length postings)) = smallest :: order ->
  (d ∈ tm_elems (posting_at postings smallest) /\ forall i, i ∈ order -> d ∈ tm_elems (posting_at postings i)) <->
  (forall p, p ∈ postings -> d ∈ tm_elems p).
Proof.
  intros Ho. pose proof (merge_sort_Permutation (shorter_posting postings) (seq 0 (length postings))) as Hperm.
  rewrite Ho in Hperm.
  assert (Hin : forall i, i ∈ smallest :: order <-> (i < length postings)%nat) by (intros i; rewrite Hperm, elem_of_seq; lia).
  split.
  - intros [Hd Hr] p Hp. apply list_elem_of_lookup in Hp as [i Hi]. pose proof (lookup_lt_Some _ _ _ Hi) as Hlt%Hin.
    assert (Hpi : posting_at postings i = p) by (unfold posting_at; by rewrite Hi). rewrite <-Hpi.
    apply elem_of_cons in Hlt as [->|Hlt]; auto.
  - intros Hall. assert (Hat : forall i, i ∈ smallest :: order -> d ∈ tm_elems (posting_at postings i)).
    { intros i Hi%Hin. destruct (lookup_lt_is_Some_2 _ _ Hi) as [p Hp]. unfold posting_at. rewrite Hp. cbn.
      apply Hall. by eapply list_elem_of_lookup_2. }
    split; [apply Hat; by left|]. intros i Hi. apply Hat. by right.
Qed.

Lemma in_live_postings st B D d (terms : list Text) : holds st B D ->
  (forall p : R, p ∈ (live_posting st <$> terms : list R) -> d ∈ tm_elems p) <-> (forall t, t ∈ terms -> d ∈ docs_with (live_of st B D) t).
Proof.
  intros Hh. split.
  - intros Hp t Ht. rewrite <-(live_posting_holds st B D t Hh). apply Hp. apply list_elem_of_fmap. by exists t.
  - intros Ht p (t & -> & Hin)%list_elem_of_fmap. rewrite (live_posting_holds st B D t Hh). by apply Ht.
Qed.

Lemma has_terms_docs_with M terms d : terms <> [] ->
  has_terms M terms d <-> (forall t, t ∈ terms -> d ∈ docs_with M t).
Proof.
  intros Hne. unfold has_terms. split.
  - intros [_ (a & Ha & Ht)] t Hin. apply elem_docs_with. eauto.
  - intros Hall. split; [done|]. destruct terms as [|t terms]; [done|].
    destruct (proj1 (elem_docs_with _ _ _) (Hall t ltac:(by left))) as (a & Ha & _). exists a. split; [done|].
    intros u Hu. destruct (proj1 (elem_docs_with _ _ _) (Hall u Hu)) as (b & Hb & Hub). congruence.
Qed.

(** A query of terms finds the documents that have them all. *)
Lemma matching_terms st B D analyzed d : holds st B D ->
  d ∈ tm_elems (matching_docs st analyzed false) <-> has_terms (live_of st B D) (ad_terms analyzed) d.
Proof.
  intros Hh. unfold matching_docs, matching_docs_from_postings.
  destruct (decide (ad_terms analyzed = [])) as [He|Hne].
  { rewrite He. cbn. treemap. unfold has_terms. set_solver. }
  rewrite has_terms_docs_with, <-in_live_postings by done. set (postings := live_posting st <$> ad_terms analyzed).
  destruct (merge_sort _ _) as [|smallest order] eqn:Ho.
  { exfalso. pose proof (merge_sort_Permutation (shorter_posting postings) (seq 0 (length postings))) as Hp. rewrite Ho in Hp.
    apply Permutation_length in Hp. rewrite length_seq in Hp. unfold postings in Hp. rewrite length_fmap in Hp.
    by destruct (ad_terms analyzed). }
  rewrite <-(order_postings _ _ _ _ Ho). destruct (tm_len _ =? 0)%nat eqn:Hs.
  - rewrite (tm_len_zero _ Hs). set_solver.
  - pose proof (intersect_rest_elems postings (posting_at postings smallest) order d) as Hi.
    destruct (intersect_rest _ _ _) as [result early]. cbn [fst] in Hi. by rewrite orb_true_r.
Qed.

(** *** Phrases *)

Definition id_of st (w : option Text) : Z := match w with Some t => default 0 (term_id st t) | None => 0 end.

Lemma doc_tokens_words st a : doc_tokens st a = id_of st <$> words a.
Proof.
  unfold doc_tokens, words. rewrite <-list_fmap_compose. apply list_fmap_ext. intros i l _. cbn.
  destruct (l =? 0); [done|]. by destruct (ad_terms a !! Z.to_nat (l - 1)).
Qed.

Lemma query_tokens_words st analyzed ws : words analyzed = Some <$> ws -> (forall t, t ∈ ws -> is_Some (term_id st t)) ->
  query_tokens st analyzed = id_of st <$> words analyzed.
Proof.
  intros Hw Hk. transitivity (omap (fun w : option Text => w ≫= term_id st) (words analyzed)).
  - unfold query_tokens, words. induction (ad_tokens analyzed) as [|l ls IH]; [done|]. cbn [omap list_omap fmap list_fmap].
    rewrite IH. by destruct (l =? 0).
  - rewrite Hw. clear Hw. induction ws as [|t ws IH]; [done|]. cbn. destruct (Hk t ltac:(by left)) as [i Hi]. rewrite Hi. cbn.
    f_equal. apply IH. intros u Hu. apply Hk. by right.
Qed.

Lemma has_window_spec {A} `{EqDecision A} (l q : list A) : q <> [] ->
  has_window l q = true <-> exists i, take (length q) (drop i l) = q.
Proof.
  intros Hq. unfold has_window. rewrite existsb_exists. split.
  - intros (i & _ & He%bool_decide_eq_true). eauto.
  - intros [i He]. exists i. split; [|by apply bool_decide_eq_true]. apply in_seq.
    assert (Hl : length (take (length q) (drop i l)) = length q) by by rewrite He.
    rewrite length_take, length_drop in Hl. assert (length q <> O) by by destruct q. lia.
Qed.

(** Ids of known terms are compared as the terms are. *)
Lemma ids_inj st (l q : list (option Text)) : ids_ok st ->
  (forall t, Some t ∈ l -> is_Some (term_id st t)) -> (forall t, Some t ∈ q -> is_Some (term_id st t)) ->
  id_of st <$> l = id_of st <$> q -> l = q.
Proof.
  intros Hids. revert q. induction l as [|w l IH]; intros [|v q] Hl Hq He; try done. cbn in He. injection He as Hwv He.
  f_equal; [|apply IH; [intros t Ht; apply Hl; by right|intros t Ht; apply Hq; by right|done]].
  destruct w as [t|], v as [u|]; [|..|done]; cbn in Hwv.
  - destruct (Hl t ltac:(by left)) as [i Hi], (Hq u ltac:(by left)) as [j Hj]. rewrite Hi, Hj in Hwv. cbn in Hwv. subst j.
    by rewrite (i_inj _ Hids _ _ _ Hi Hj).
  - destruct (Hl t ltac:(by left)) as [i Hi]. rewrite Hi in Hwv. cbn in Hwv. pose proof (i_range _ Hids _ _ Hi). lia.
  - destruct (Hq u ltac:(by left)) as [j Hj]. rewrite Hj in Hwv. cbn in Hwv. pose proof (i_range _ Hids _ _ Hj). lia.
Qed.

Lemma window_words st (l q : list (option Text)) : ids_ok st ->
  (forall t, Some t ∈ l -> is_Some (term_id st t)) -> (forall t, Some t ∈ q -> is_Some (term_id st t)) -> q <> [] ->
  has_window (id_of st <$> l) (id_of st <$> q) = true <-> exists i, take (length q) (drop i l) = q.
Proof.
  intros Hids Hl Hq Hne. rewrite has_window_spec by by destruct q. rewrite length_fmap. split; intros [i He]; exists i.
  - apply (ids_inj st); try done; [|by rewrite fmap_take, fmap_drop].
    intros t Ht. apply Hl. apply elem_of_take in Ht as (j & Hj & _). rewrite lookup_drop in Hj. by eapply list_elem_of_lookup_2.
  - by rewrite <-fmap_drop, <-fmap_take, He.
Qed.

Lemma phrase_matches_elems st tokens (result : R) d :
  d ∈ tm_elems (phrase_matches st tokens result) <->
  d ∈ tm_elems result /\ exists doc, tokens_for_doc st d = Some doc /\ has_window doc tokens = true.
Proof.
  unfold phrase_matches.
  assert (Hin : d ∈ tm_elems result <-> d ∈ tm_iter result) by (by rewrite iter_elems, merge_sort_Permutation, elem_of_elements).
  rewrite Hin. clear Hin. induction (tm_iter result) as [|e l IH] using rev_ind; cbn.
  { treemap. split; [set_solver|by intros [?%elem_of_nil _]]. }
  rewrite foldl_app. cbn. rewrite elem_of_app, list_elem_of_singleton.
  destruct (tokens_for_doc st e) as [doc|] eqn:He; [destruct (has_window doc tokens) eqn:Hw|].
  - treemap. rewrite elem_of_union, elem_of_singleton, IH. split.
    + intros [->|[Hd Hx]]; [split; [by right|eauto]|split; [by left|done]].
    + intros [[Hd|Hd] Hx]; [right; by split|by left].
  - rewrite IH. split; [intros [Hd Hx]; split; [by left|done]|]. intros [[Hd| ->] (doc' & Hdoc & Hw')]; [by split; eauto|]. congruence.
  - rewrite IH. split; [intros [Hd Hx]; split; [by left|done]|]. intros [[Hd| ->] (doc' & Hdoc & Hw')]; [by split; eauto|]. congruence.
Qed.

Lemma live_term_known st B D d t : holds st B D -> d ∈ docs_with (live_of st B D) t -> is_Some (term_id st t).
Proof.
  intros Hh Hd. apply (term_known st B D); [apply Hh..|]. unfold live_of in Hd. rewrite docs_with_union, !docs_with_without in Hd.
  apply elem_of_union in Hd as [Hd|Hd]; [right|left]; set_solver.
Qed.

(** A word of a document is one of its terms. *)
Lemma words_terms (a : AnalyzedDocument) t : Some t ∈ words a -> t ∈ ad_terms a.
Proof.
  unfold words. intros (l & Hl & _)%list_elem_of_fmap. destruct (l =? 0); [done|]. by eapply list_elem_of_lookup_2.
Qed.

(** A phrase query finds the documents that have its words in a row. *)
Lemma matching_phrase st B D analyzed ws d : holds st B D -> tokens_hold st B D -> words analyzed = Some <$> ws ->
  d ∈ tm_elems (matching_docs st analyzed true) <->
  has_terms (live_of st B D) (ad_terms analyzed) d /\ has_phrase (live_of st B D) (words analyzed) d.
Proof.
  intros Hh Hk Hws. rewrite <-(matching_terms st B D analyzed d Hh).
  pose proof (matching_terms st B D analyzed d Hh) as Hterms. revert Hterms.
  unfold matching_docs, matching_docs_from_postings. set (postings := live_posting st <$> ad_terms analyzed).
  destruct (merge_sort _ _) as [|smallest order]; [intros _; treemap; set_solver|].
  destruct (tm_len _ =? 0)%nat eqn:Hs; [intros _; rewrite (tm_len_zero _ Hs); set_solver|].
  pose proof (intersect_rest_early postings (posting_at postings smallest) order) as Hearly.
  destruct (intersect_rest _ _ _) as [result [|]]; cbn [fst snd orb negb] in *.
  { intros _. rewrite Hearly by done. set_solver. }
  intros Hterms. destruct (decide (d ∈ tm_elems result)) as [Hd|Hd].
  2: { split; [|tauto]. case_bool_decide; [treemap; set_solver|]. rewrite phrase_matches_elems. tauto. }
  pose proof (proj1 Hterms Hd) as [Hne (a & Ha & Hall)].
  assert (Hq : forall t, Some t ∈ words analyzed -> is_Some (term_id st t)).
  { intros t Ht%words_terms. apply (live_term_known st B D d t Hh). apply elem_docs_with. exists a. split; [done|by apply Hall]. }
  assert (Hdoc : forall t, Some t ∈ words a -> is_Some (term_id st t)).
  { intros t Ht%words_terms. apply (live_term_known st B D d t Hh). apply elem_docs_with. eauto. }
  rewrite (query_tokens_words st analyzed ws Hws) by (intros t Ht; apply Hq; rewrite Hws; apply list_elem_of_fmap; eauto).
  unfold has_phrase. case_bool_decide as Hnil.
  { apply fmap_nil_inv in Hnil. rewrite Hnil. treemap. set_solver. }
  assert (Hwn : words analyzed <> []) by (intros Hx; apply Hnil; by rewrite Hx).
  rewrite phrase_matches_elems, (tokens_for_doc_hold st B D d Hh Hk), Ha. cbn [fmap option_fmap option_map]. rewrite doc_tokens_words.
  split.
  - intros [_ (doc & [= <-] & Hw)]. apply window_words in Hw as [i Hi]; [|apply Hk|done..]. split; [done|]. split; [done|]. eauto.
  - intros [_ [_ (b & i & Hb & Hi)]]. injection Hb as <-. split; [done|]. eexists. split; [done|].
    apply window_words; [apply Hk|done..|]. eauto.
Qed.

(** *** Boolean queries *)

Lemma foldl_sub (r : R) (l : list R) d :
  d ∈ tm_elems (foldl tm_sub r l) <-> d ∈ tm_elems r /\ forall s, s ∈ l -> d ∉ tm_elems s.
Proof.
  revert r. induction l as [|s l IH]; intros r; cbn; [split; [intros Hd; split; [done|by intros s ?%elem_of_nil]|by intros [? _]]|].
  rewrite IH. treemap. rewrite elem_of_difference. split.
  - intros [[Hd Hs] Hl]. split; [done|]. intros u [->|Hu]%elem_of_cons; auto.
  - intros [Hd Hl]. split; [split; [done|apply Hl; by left]|]. intros u Hu. apply Hl. by right.
Qed.

Lemma group_fold config st (group : Group) d :
  let M := fun term => d ∈ tm_elems (matching_docs st (analyze_document config term) false) in
  let r := foldl (group_step config st) (None, []) group in
  (match r.1 with
   | Some p => d ∈ tm_elems p <-> forall term, (false, term) ∈ group -> M term
   | None => True
   end) /\
  (is_Some r.1 <-> exists term, (false, term) ∈ group) /\
  ((exists s, s ∈ r.2 /\ d ∈ tm_elems s) <-> exists term, (true, term) ∈ group /\ M term).
Proof.
  cbv zeta. induction group as [|[n term] group IH] using rev_ind; cbn.
  { setoid_rewrite elem_of_nil. split_and!; [done|split; by intros []|split; intros (? & ? & ?); done]. }
  rewrite foldl_app. cbn. destruct (foldl _ _ _) as [pos neg]. destruct IH as (IH1 & IH2 & IH3). unfold group_step. cbn [fst snd] in *.
  assert (Hsnoc : forall b t, (b, t) ∈ group ++ [(n, term)] <-> (b, t) ∈ group \/ (b = n /\ t = term)).
  { intros b t. rewrite elem_of_app, list_elem_of_singleton. split; (intros [?|Hx]; [by left|right]); [by injection Hx|by destruct Hx; subst]. }
  setoid_rewrite Hsnoc. destruct n; cbn [fst snd].
  - split_and!; [destruct pos; [rewrite IH1; naive_solver|done]|rewrite IH2; naive_solver|].
    split.
    + intros (s & [Hs| ->%list_elem_of_singleton]%elem_of_app & Hd); [|naive_solver].
      destruct (proj1 IH3 ltac:(eauto)) as (t & Ht & Hm). naive_solver.
    + intros (t & [Ht|[_ ->]] & Hm).
      * destruct (proj2 IH3 ltac:(eauto)) as (s & Hs & Hd). exists s. rewrite elem_of_app. by split; [left|].
      * eexists. rewrite elem_of_app, list_elem_of_singleton. split; [by right|done].
  - split_and!.
    + destruct pos as [p|].
      * treemap. rewrite elem_of_intersection, IH1. naive_solver.
      * assert (Hno : forall t, (false, t) ∈ group -> False) by (intros t Ht; destruct (proj2 IH2 ltac:(eauto)) as [? Hx]; done).
        naive_solver.
    + split; [|done]. intros _. eauto.
    + rewrite IH3. naive_solver.
Qed.

Lemma group_docs_elems config st B D (group : Group) d : holds st B D ->
  d ∈ tm_elems (group_docs config st group) <-> has_group config (live_of st B D) group d.
Proof.
  intros Hh. unfold group_docs, has_group. pose proof (group_fold config st group d) as Hf. cbv zeta in Hf.
  destruct (foldl _ _ _) as [pos neg]. cbn [fst snd] in Hf. destruct Hf as (H1 & H2 & H3). rewrite foldl_sub.
  pose proof (fun term => matching_terms st B D (analyze_document config term) d Hh) as Hm. setoid_rewrite Hm in H3.
  assert (Hneg : (forall s, s ∈ neg -> d ∉ tm_elems s) <->
    (forall term, (true, term) ∈ group -> ~ has_terms (live_of st B D) (ad_terms (analyze_document config term)) d)) by naive_solver.
  rewrite Hneg. destruct pos as [p|]; cbn [from_option].
  - setoid_rewrite Hm in H1. rewrite H1, <-H2. split; [intros [Hp Hn]; exact (conj (mk_is_Some _ _ eq_refl) (conj Hp Hn))|intros (_ & Hp & Hn); exact (conj Hp Hn)].
  - treemap. rewrite <-H2. split; [set_solver|]. by intros [[? ?] _].
Qed.

Lemma union_groups config st B D (groups : list Group) d : holds st B D ->
  d ∈ tm_elems (foldl (fun union group => tm_or union (group_docs config st group)) tm_new groups) <->
  exists group, group ∈ groups /\ has_group config (live_of st B D) group d.
Proof.
  intros Hh. induction groups as [|g groups IH] using rev_ind; cbn.
  { treemap. split; [set_solver|]. by intros (? & ?%elem_of_nil & _). }
  rewrite foldl_app. cbn. treemap. rewrite elem_of_union, IH, (group_docs_elems config st B D g d Hh).
  setoid_rewrite elem_of_app. setoid_rewrite list_elem_of_singleton. naive_solver.
Qed.

(** *** The loop reads the grammar *)

Lemma term_word_step w tokens groups group n signed term : term_word w signed term ->
  boolean_loop (w :: tokens) groups group n = boolean_loop tokens groups (group ++ [(n || signed, term)]) false.
Proof.
  intros (Ho & Hp & Hne & Hc & Hw). unfold is_or, prefix_word, is_and, is_not in *. cbn [boolean_loop].
  rewrite (not_true_is_false _ Ho), (not_true_is_false (eq_ignore_case w word_and)), (not_true_is_false (eq_ignore_case w word_not)) by tauto.
  assert (Hu : unsupported w = false).
  { apply not_true_is_false. intros (c & Hin & Hx)%existsb_exists. apply list_elem_of_In, Hc in Hin.
    rewrite !orb_true_iff, !Z.eqb_eq in Hx. tauto. }
  rewrite Hu. destruct Hw as [[-> ->]|[-> [->|(-> & Hm & Hpl)]]].
  - cbn [head strip_sign]. rewrite (bool_decide_true (Some minus = Some minus)) by done. cbn [Z.eqb orb].
    change ((minus =? minus) || (minus =? plus)) with true. cbv iota. rewrite (bool_decide_false (term = [])) by done.
    destruct term as [|c term]; [done|]. done.
  - cbn [head strip_sign]. change ((plus =? minus) || (plus =? plus)) with true. cbv iota.
    rewrite (bool_decide_false (term = [])) by done. rewrite (bool_decide_false (Some plus = Some minus)) by done.
    cbn [andb]. by rewrite orb_false_r.
  - destruct term as [|c term]; [done|]. cbn [head strip_sign] in *.
    rewrite (proj2 (Z.eqb_neq c minus)), (proj2 (Z.eqb_neq c plus)) by congruence. cbn [orb].
    rewrite (bool_decide_false (c :: term = [])), (bool_decide_false (Some c = Some minus)) by done.
    cbn [andb]. by rewrite orb_false_r.
Qed.

Lemma prefix_step prefix tokens groups group n negative : Forall prefix_word prefix ->
  (negative = true <-> n = true \/ Exists is_not prefix) ->
  boolean_loop (prefix ++ tokens) groups group n = boolean_loop tokens groups group negative.
Proof.
  intros Hp. revert n. induction Hp as [|w prefix Hw Hp IH]; intros n Hn.
  { rewrite Exists_nil in Hn. cbn [app]. f_equal. apply eq_true_iff_eq. tauto. }
  rewrite Exists_cons in Hn. cbn [app boolean_loop].
  assert (Hor : eq_ignore_case w word_or = false).
  { unfold prefix_word, is_and, is_not, eq_ignore_case in *. rewrite !bool_decide_eq_true in Hw. apply bool_decide_eq_false.
    by destruct Hw as [-> | ->]. }
  rewrite Hor. unfold is_and, is_not, prefix_word in *. destruct (eq_ignore_case w word_and) eqn:Ha.
  - assert (Hx : eq_ignore_case w word_not = true -> False).
    { unfold eq_ignore_case in *. rewrite bool_decide_eq_true in Ha |- *. rewrite Ha. done. }
    apply IH. tauto.
  - destruct Hw as [|Hw]; [congruence|]. rewrite Hw. apply IH. tauto.
Qed.

Lemma terms_step ws tail tokens groups group : reads_terms ws tail ->
  boolean_loop (ws ++ tokens) groups group false = boolean_loop tokens groups (group ++ tail) false.
Proof.
  intros Hr. revert tokens group. induction Hr as [|ws tail prefix w signed negative term Hr IH Hp Hw Hn]; intros tokens group.
  { cbn. by rewrite app_nil_r. }
  rewrite <-!app_assoc, IH. cbn [app].
  rewrite (prefix_step prefix _ _ _ false (bool_decide (Exists is_not prefix)) Hp) by (rewrite bool_decide_eq_true; naive_solver).
  rewrite (term_word_step _ _ _ _ _ _ _ Hw), <-app_assoc. cbn [app]. do 4 f_equal. f_equal. apply eq_true_iff_eq.
  rewrite orb_true_iff, bool_decide_eq_true. tauto.
Qed.

Lemma reads_query_loop ws groups : reads_query ws groups -> forall pre, boolean_loop ws pre [] false = Some (pre ++ groups).
Proof.
  induction 1 as [ws group trailing Hr Hne Ht|ws group trailing w rest groups Hr Hne Ht Hw Hq IH]; intros pre.
  - rewrite (terms_step _ _ _ _ _ Hr), <-(app_nil_r trailing). rewrite (prefix_step trailing [] pre _ false false).
    + cbn. by rewrite bool_decide_false.
    + eapply Forall_impl; [exact Ht|]. intros w Hw. by left.
    + split; [done|]. intros [|Hx]; [done|]. apply Exists_exists in Hx as (w & Hin & Hn).
      pose proof (proj1 (Forall_forall _ _) Ht w Hin) as Ha. unfold is_and, is_not, eq_ignore_case in *.
      rewrite !bool_decide_eq_true in Ha, Hn. by rewrite Ha in Hn.
  - rewrite (terms_step _ _ _ _ _ Hr).
    rewrite (prefix_step trailing _ pre _ false (bool_decide (Exists is_not trailing)) Ht) by (rewrite bool_decide_eq_true; naive_solver).
    unfold is_or in Hw. cbn [boolean_loop app]. rewrite Hw, bool_decide_false by done. rewrite IH. by rewrite <-app_assoc.
Qed.

Lemma word_reads w : eq_ignore_case w word_or = false -> eq_ignore_case w word_and = false -> eq_ignore_case w word_not = false ->
  unsupported w = false -> strip_sign w <> [] ->
  term_word w (bool_decide (head w = Some minus) && (1 <? length w)%nat) (strip_sign w).
Proof.
  intros Ho Ha Hn Hu Hs. unfold term_word, is_or, prefix_word, is_and, is_not. rewrite Ho, Ha, Hn.
  split; [done|]. split; [by intros []|]. split; [done|]. split.
  { intros c Hc. apply not_true_iff_false in Hu. unfold unsupported in Hu. rewrite existsb_exists in Hu.
    split_and!; intros ->; apply Hu; eexists; (split; [by apply list_elem_of_In|done]). }
  destruct w as [|c w]; [done|]. cbn [strip_sign head] in *.
  destruct (Z.eqb_spec c minus) as [->|Hm]; cbn [orb] in *.
  - left. split; [|done]. destruct w; [done|]. by rewrite bool_decide_true.
  - right. rewrite bool_decide_false by congruence. split; [done|].
    destruct (Z.eqb_spec c plus) as [->|Hp]; [by left|]. right. split; [done|]. split; congruence.
Qed.

Lemma loop_reads ws : forall pre past prefix group n groups,
  reads_terms past group -> Forall prefix_word prefix -> (n = true <-> Exists is_not prefix) ->
  boolean_loop ws pre group n = Some groups -> exists rest, groups = pre ++ rest /\ reads_query (past ++ prefix ++ ws) rest.
Proof.
  induction ws as [|w ws IH]; intros pre past prefix group n groups Hr Hp Hn Hl; cbn [boolean_loop] in Hl.
  - destruct n; [done|]. case_bool_decide as Hg; [done|]. cbn in Hl. injection Hl as <-. eexists. split; [done|].
    rewrite app_nil_r. apply rq_last; [done..|]. rewrite Forall_forall in Hp |- *. intros w Hw.
    destruct (Hp w Hw) as [|Hx]; [done|]. assert (false = true) by (apply Hn, Exists_exists; eauto). done.
  - destruct (eq_ignore_case w word_or) eqn:Ho.
    { case_bool_decide as Hg; [done|].
      destruct (IH (pre ++ [group]) [] [] [] false groups rt_none (Forall_nil_2 _) ltac:(by rewrite Exists_nil) Hl) as (rest & -> & Hq).
      exists (group :: rest). split; [by rewrite <-app_assoc|]. by apply rq_or. }
    destruct (eq_ignore_case w word_and) eqn:Ha.
    { destruct (IH pre past (prefix ++ [w]) group n groups) as (rest & -> & Hq); [done| | |done|].
      - apply Forall_app_2; [done|]. constructor; [by left|done].
      - rewrite Exists_app, Exists_cons, Exists_nil. unfold is_not at 2. split; [naive_solver|].
        intros [?|[Hx|[]]]; [naive_solver|]. unfold eq_ignore_case in *. rewrite bool_decide_eq_true in Ha, Hx. by rewrite Ha in Hx.
      - exists rest. split; [done|]. by rewrite <-!app_assoc in Hq. }
    destruct (eq_ignore_case w word_not) eqn:Hnot.
    { destruct (IH pre past (prefix ++ [w]) group true groups) as (rest & -> & Hq); [done| | |done|].
      - apply Forall_app_2; [done|]. constructor; [by right|done].
      - rewrite Exists_app, Exists_cons. unfold is_not at 2. naive_solver.
      - exists rest. split; [done|]. by rewrite <-!app_assoc in Hq. }
    destruct (unsupported w) eqn:Hu; [done|]. case_bool_decide as Hs; [done|].
    pose proof (word_reads w Ho Ha Hnot Hu Hs) as Hw.
    destruct (IH pre (past ++ prefix ++ [w]) [] (group ++ [(n || (bool_decide (head w = Some minus) && (1 <? length w)%nat), strip_sign w)])
      false groups) as (rest & -> & Hq); [|done|by rewrite Exists_nil|done|].
    + eapply rt_term; [done..|]. rewrite orb_true_iff. tauto.
    + exists rest. split; [done|]. by rewrite <-!app_assoc in Hq.
Qed.

Lemma boolean_loop_reads ws groups : boolean_loop ws [] [] false = Some groups <-> reads_query ws groups.
Proof.
  split; [|intros Hq; by rewrite (reads_query_loop _ _ Hq)].
  intros Hl. by destruct (loop_reads ws [] [] [] [] false groups rt_none (Forall_nil_2 _) ltac:(by rewrite Exists_nil) Hl) as (rest & -> & Hq).
Qed.

(** *** The text of a query *)

Lemma trim_front_spec text : exists before, blank before /\ text = before ++ trim_front text /\
  forall c, head (trim_front text) = Some c -> char_is_whitespace c = false.
Proof.
  induction text as [|c text IH]; cbn [trim_front]; [by exists []; repeat constructor|].
  destruct (char_is_whitespace c) eqn:Hc.
  - destruct IH as (before & Hb & Ht & Hh). exists (c :: before). split; [by constructor|]. split; [by rewrite Ht at 1|done].
  - exists []. split; [constructor|]. split; [done|]. by intros ? [= <-].
Qed.

Lemma trim_front_blank before text : blank before -> trim_front (before ++ text) = trim_front text.
Proof. induction 1 as [|c before Hc _ IH]; [done|]. cbn [app trim_front]. by rewrite Hc. Qed.

Lemma trim_front_tight text : (forall c, head text = Some c -> char_is_whitespace c = false) -> trim_front text = text.
Proof. destruct text as [|c text]; [done|]. cbn [trim_front]. intros Hc. by rewrite Hc. Qed.

Lemma blank_reverse text : blank text -> blank (reverse text).
Proof. unfold blank. by rewrite reverse_Permutation. Qed.

Lemma trim_text_spec text : exists before after, blank before /\ blank after /\ text = before ++ trim_text text ++ after /\
  tight (trim_text text).
Proof.
  destruct (trim_front_spec text) as (before & Hb & Ht & Hh).
  destruct (trim_front_spec (reverse (trim_front text))) as (after & Ha & Hr & Hl). unfold trim_text.
  set (r := trim_front (reverse (trim_front text))) in *.
  assert (Hmid : trim_front text = reverse r ++ reverse after).
  { rewrite <-reverse_app, <-Hr. by rewrite reverse_involutive. }
  exists before, (reverse after). split; [done|]. split; [by apply blank_reverse|]. split; [by rewrite <-Hmid|].
  split; intros c Hc.
  - apply Hh. rewrite Hmid. by destruct (reverse r).
  - apply Hl. by rewrite last_reverse in Hc.
Qed.

Lemma trim_text_padded before text after : blank before -> blank after -> tight text -> trim_text (before ++ text ++ after) = text.
Proof.
  intros Hb Ha [Hh Hl]. unfold trim_text. rewrite trim_front_blank by done. destruct text as [|c text].
  - cbn [app]. rewrite <-(app_nil_r after), trim_front_blank by done. done.
  - rewrite (trim_front_tight ((c :: text) ++ after)) by (cbn in *; done).
    rewrite reverse_app, trim_front_blank by by apply blank_reverse. rewrite trim_front_tight; [apply reverse_involutive|].
    intros d Hd. apply Hl. by rewrite head_reverse in Hd.
Qed.

Definition between_quotes (text : Text) : bool :=
  (2 <=? length text)%nat && bool_decide (head text = Some quote) && bool_decide (last text = Some quote).

Lemma between_quotes_shape text : between_quotes text = true <-> exists body, text = quote :: body ++ [quote].
Proof.
  unfold between_quotes. rewrite !andb_true_iff, !bool_decide_eq_true, Nat.leb_le. split.
  - intros [[Hlen Hh] Hl]. destruct text as [|c text]; [done|]. injection Hh as ->.
    destruct text as [|d text _] using rev_ind; [cbn in Hlen; lia|]. exists text.
    change (quote :: text ++ [d]) with ((quote :: text) ++ [d]) in Hl. rewrite last_snoc in Hl. by injection Hl as ->.
  - intros [body ->]. split; [split; [cbn; rewrite length_app; cbn; lia|done]|].
    change (quote :: body ++ [quote]) with ((quote :: body) ++ [quote]). by rewrite last_snoc.
Qed.

Lemma query_text_read query body phrase : query_text query body phrase <-> phrase_query query = (body, phrase).
Proof.
  unfold phrase_query. fold (between_quotes (trim_text query)).
  assert (Hq : forall t, take (length (quote :: t ++ [quote]) - 2) (drop 1 (quote :: t ++ [quote])) = t).
  { intros t. cbn [length drop]. rewrite length_app. cbn [length]. replace (S (length t + 1) - 2)%nat with (length t) by lia.
    apply take_app_length. }
  split.
  - intros (before & after & Hb & Ha & Hp). destruct phrase.
    + assert (Ht : trim_text query = quote :: body ++ [quote]).
      { rewrite Hp. apply trim_text_padded; [done..|]. split; [by intros c [= <-]|].
        change (quote :: body ++ [quote]) with ((quote :: body) ++ [quote]). rewrite last_snoc. by intros c [= <-]. }
      rewrite Ht, (proj2 (between_quotes_shape _)) by eauto. by rewrite Hq.
    + destruct Hp as (Hp & Htight & Hno). assert (Ht : trim_text query = body) by (rewrite Hp; by apply trim_text_padded).
      rewrite Ht. destruct (between_quotes body) eqn:Hbq; [|done]. by apply between_quotes_shape in Hbq.
  - destruct (trim_text_spec query) as (before & after & Hb & Ha & Hx & Htight).
    destruct (between_quotes (trim_text query)) eqn:Hbq; intros [= <- <-]; exists before, after; (split; [done|]); (split; [done|]).
    + apply between_quotes_shape in Hbq as [t Ht]. rewrite Ht in Hx |- *. by rewrite Hq.
    + split; [done|]. split; [done|]. by rewrite <-between_quotes_shape, Hbq.
Qed.

(** *** The whole search *)

Definition is_boolean (query : Text) : bool := existsb is_operator (split_whitespace query).

(** What [search] is to find. *)
Definition finds (config : FtsConfig) (M : Docs) (query : Text) (d : Z) : Prop :=
  if is_boolean query then
    exists groups group, reads_query (split_whitespace query) groups /\ group ∈ groups /\ has_group config M group d
  else
    exists body phrase, query_text query body phrase /\ has_terms M (ad_terms (analyze_document config body)) d /\
      (phrase = true -> has_phrase M (Some <$> text_words config body) d).

Lemma analyzed_words config text : words (analyze_document config text) = Some <$> text_words config text.
Proof. exact (an_words _ _ _ (analyze_document_ok config text)). Qed.

(** A phrase needs the token sequences, other queries only the postings. *)
Lemma search_holds config st B D query : holds st B D ->
  (is_boolean query = false -> (phrase_query query).2 = true -> tokens_hold st B D) ->
  match search config st query with
  | Some r => forall d, d ∈ tm_elems r <-> finds config (live_of st B D) query d
  | None => is_boolean query = true /\ ~ exists groups, reads_query (split_whitespace query) groups
  end.
Proof.
  intros Hh Hk. unfold search, matching_boolean_query, finds. fold (is_boolean query). destruct (is_boolean query); cbn [negb mbind option_bind].
  - pose proof (boolean_loop_reads (split_whitespace query)) as Hr.
    destruct (boolean_loop _ _ _ _) as [groups|]; cbn [mbind option_bind].
    + intros d. rewrite (union_groups config st B D groups d Hh). setoid_rewrite <-Hr. naive_solver.
    + split; [done|]. by intros [groups Hg%Hr].
  - pose proof (query_text_read query) as Hread. destruct (phrase_query query) as [q phrase]. cbn [fst snd] in *.
    assert (Hone : forall P : Text -> bool -> Prop, (exists body ph, query_text query body ph /\ P body ph) <-> P q phrase).
    { intros P. setoid_rewrite Hread. naive_solver. }
    case_bool_decide as Hnil; intros d; rewrite Hone.
    + rewrite Hnil. treemap. unfold has_terms. set_solver.
    + destruct phrase.
      * rewrite (matching_phrase st B D _ _ d Hh (Hk eq_refl eq_refl) (analyzed_words config q)), (analyzed_words config q). naive_solver.
      * rewrite (matching_terms st B D _ d Hh). naive_solver.
Qed.

(** C36 After any history of upserts, deletes and merges that leaves term ids to give out, a search
    finds exactly the live documents the query describes.  A query with a word AND, OR or NOT or a
    word that starts with a minus is boolean, quoted or not: its words read as groups of terms
    separated by OR, a term being negative behind a NOT or with a minus, and a document is found
    when it satisfies a group, having all its terms and no negative one, and at least one term to
    have.  Any other query asks for all its terms, and between double quotes for its words in a row.
    The search fails only on a boolean query that has no such reading: a group without a term, a
    word with one of the characters * ? :, a bare sign, or a NOT at the end.  A phrase that contains
    an operator word is therefore not searched as the phrase that the guide promises. *)
Theorem search_exact config st M query : index_run st M ->
  match search config st query with
  | Some r => forall d, d ∈ tm_elems r <-> finds config M query d
  | None => is_boolean query = true /\ ~ exists groups, reads_query (split_whitespace query) groups
  end.
Proof.
  intros (B & D & Hh & Hk & <-)%index_run_holds. by apply search_holds.
Qed.

End queries.

(** ** Printing boolean queries *)

(** A word that stands for a term. *)
Definition plain_term (t : Text) : Prop :=
  t <> [] /\ head t <> Some minus /\ head t <> Some plus /\ unsupported t = false /\
  eq_ignore_case t word_or = false /\ eq_ignore_case t word_and = false /\ eq_ignore_case t word_not = false.

Definition print_term (e : bool * Text) : list Text := if e.1 then [word_not; e.2] else [e.2].
Definition print_group (group : Group) : list Text := group ≫= print_term.
Fixpoint print_groups (groups : list Group) : list Text :=
  match groups with
  | [] => []
  | [group] => print_group group
  | group :: groups => print_group group ++ word_or :: print_groups groups
  end.

Lemma boolean_loop_term rest groups group e : plain_term e.2 ->
  boolean_loop (print_term e ++ rest) groups group false = boolean_loop rest groups (group ++ [e]) false.
Proof.
  destruct e as [n t]. intros (Hne & Hm & Hp & Hu & Ho & Ha & Hn). cbn [snd] in *.
  assert (Hs : strip_sign t = t).
  { destruct t as [|c t]; [done|]. cbn in *. destruct (Z.eqb_spec c minus); [congruence|]. destruct (Z.eqb_spec c plus); [congruence|done]. }
  assert (Hterm : forall neg, boolean_loop (t :: rest) groups group neg = boolean_loop rest groups (group ++ [(neg, t)]) false).
  { intros neg. cbn [boolean_loop]. rewrite Ho, Ha, Hn, Hu, Hs. rewrite (bool_decide_false (head t = Some minus)), (bool_decide_false (t = [])) by done.
    cbn [andb]. by rewrite orb_false_r. }
  destruct n; [|apply Hterm]. unfold print_term. cbn [fst snd app]. rewrite <-Hterm. reflexivity.
Qed.

Lemma boolean_loop_group rest groups pre group : Forall (fun e => plain_term e.2) group ->
  boolean_loop (print_group group ++ rest) groups pre false = boolean_loop rest groups (pre ++ group) false.
Proof.
  revert pre. induction group as [|e group IH]; intros pre Hp; cbn [print_group mbind list_bind app]; [by rewrite app_nil_r|].
  apply Forall_cons in Hp as [He Hp]. unfold print_group in *. cbn [mbind list_bind]. rewrite <-app_assoc, boolean_loop_term by done.
  rewrite IH by done. by rewrite <-app_assoc.
Qed.

(** A disjunction of groups of terms and negated terms, written with OR and NOT, parses back to
    its groups. *)
Theorem boolean_query_roundtrip groups : groups <> [] ->
  Forall (fun group => group <> [] /\ Forall (fun e => plain_term e.2) group) groups ->
  boolean_loop (print_groups groups) [] [] false = Some groups.
Proof.
  intros Hne Hall. rewrite <-(app_nil_l groups) at 2. generalize (@nil Group). revert Hne Hall.
  induction groups as [|group groups IH]; intros Hne Hall pre; [done|]. apply Forall_cons in Hall as [[Hg Hp] Hall].
  destruct groups as [|g' groups].
  - cbn [print_groups]. rewrite <-(app_nil_r (print_group group)), boolean_loop_group by done. cbn. by rewrite bool_decide_false.
  - change (print_groups (group :: g' :: groups)) with (print_group group ++ word_or :: print_groups (g' :: groups)).
    rewrite boolean_loop_group by done. cbn [boolean_loop app]. change (eq_ignore_case word_or word_or) with true. cbv iota.
    rewrite bool_decide_false by done. rewrite IH by done. by rewrite <-app_assoc.
Qed.

(** ** Samples *)

(** The Unicode tables of a text that is ASCII are never asked. *)
Definition ascii_unicode : Unicode :=
  {| nfkc t := t; char_to_lowercase c := [c]; split_word_bounds t := [t]; unicode_words t := [t] |}.

Definition sample_config : FtsConfig := mkFtsConfig 3 2.

(** "red fox" and "fox red", then a merge. *)
Definition red_fox : Text := [114; 101; 100; 32; 102; 111; 120].
Definition fox_red : Text := [102; 111; 120; 32; 114; 101; 100].
Definition quoted (t : Text) : Text := quote :: t ++ [quote].
Definition sample_index : IndexState (gset Z) :=
  merge_delta (apply_upsert (apply_upsert IndexState_default 1 (analyze_document (U := ascii_unicode) sample_config red_fox) true)
    2 (analyze_document (U := ascii_unicode) sample_config fox_red) true).

Lemma search_exact_witness :
  match search (U := ascii_unicode) sample_config sample_index (quoted fox_red) with
  | Some r => forall d, d ∈ tm_elems r <-> finds (U := ascii_unicode) sample_config
      (<[2 := analyze_document (U := ascii_unicode) sample_config fox_red]>
        (<[1 := analyze_document (U := ascii_unicode) sample_config red_fox]> ∅)) (quoted fox_red) d
  | None => False
  end.
Proof.
  pose proof (search_exact (U := ascii_unicode) (R := gset Z) sample_config sample_index
    (<[2 := analyze_document (U := ascii_unicode) sample_config fox_red]>
      (<[1 := analyze_document (U := ascii_unicode) sample_config red_fox]> ∅)) (quoted fox_red)) as Hs.
  destruct (search _ _ _) as [r|] eqn:Hr; [|vm_compute in Hr; discriminate].
  apply Hs. apply RunMerge, RunUpsert; [apply RunUpsert; [apply RunNew|]|]; vm_compute; reflexivity.
Defined.

(** The quoted phrase finds its document, and only that. *)
Example phrase_sample : elements <$> search (U := ascii_unicode) sample_config sample_index (quoted fox_red) = Some [2].
Proof. vm_compute. reflexivity. Qed.

(** After a bulk build the phrase is found in the other order too. *)
Example bulk_phrase_sample :
  elements <$> search (U := ascii_unicode) sample_config
    (build_base (IndexState_default (R := gset Z)) [(1, analyze_document (U := ascii_unicode) sample_config red_fox)]) (quoted fox_red)
  = Some [1].
Proof. vm_compute. reflexivity. Qed.

(** A quoted phrase with "and" in it is a boolean query. *)
Example quoted_operator_sample : is_boolean (quoted [102; 111; 120; 32; 97; 110; 100; 32; 114; 101; 100]) = true.
Proof. reflexivity. Qed.

Lemma boolean_query_roundtrip_witness :
  boolean_loop (print_groups [[(false, [102; 111; 120]); (true, [114; 101; 100])]; [(false, [99; 97; 116])]]) [] [] false
  = Some [[(false, [102; 111; 120]); (true, [114; 101; 100])]; [(false, [99; 97; 116])]].
Proof.
  apply boolean_query_roundtrip; [discriminate|]. repeat constructor; discriminate.
Defined.
