(* ===== verification/FtsEngine.v ===== *)
(** * Full-text search: the engine and its files

    Models [FtsEngine] of [fts/engine.rs] and the order of the writes of [fts/storage.rs]: the
    snapshot, replaced atomically, the log of operations since, and the state in memory.  The bytes
    of both files, their checksums and the quarantine of a file that does not parse are left out,
    as is the reconciliation with the table; a flush in the background is one in the foreground.
    [persist_snapshot] is one step here: see the header for what a crash in the middle of it does.
    The history of an engine is compared with two collections: the documents, and the documents at
    the last flush. *)
From S2P Require Import Prelude FtsPostings FtsIndex FtsDocs FtsTokens.
Local Open Scope Z_scope.

Definition WAL_SNAPSHOT_THRESHOLD : nat := Pos.to_nat 100000.

Section engine.
Context {R : Type} `{TreemapLaws R}.
Implicit Types (st : IndexState R).

(** The content of an [.afts] file: the term directory with its postings, the document bitmap and
    the token records. *)
Record IndexSnapshot := mkSnapshot {
  sn_dir : list (Text * Posting R);
  sn_docs : R;
  sn_records : list (Z * list Z)
}.

Record Engine := mkEngine {
  en_lazy_load : bool;
  en_snapshot : option IndexSnapshot;
  en_wal : list WalOp;
  en_state : IndexState R
}.
Implicit Types (e : Engine).

Definition set_state e st : Engine := mkEngine (en_lazy_load e) (en_snapshot e) (en_wal e) st.

(** ** Opening *)

Definition max_term_id (dir : list (Text * Posting R)) : Z := foldr Z.max 0 ((fun x => po_term_id x.2) <$> dir).

Definition load_snapshot (lazy_load : bool) (sn : IndexSnapshot) : IndexState R :=
  mkIndex (if lazy_load then ∅ else materialize (sn_dir sn)) (if lazy_load then Some (sn_dir sn) else None)
    (sn_docs sn) (from_records (sn_records sn)) ∅ tm_new ∅ tm_new tm_new []
    (Z.max (succ_u32 (max_term_id (sn_dir sn))) 1) false.

Definition replay_op st (op : WalOp) : IndexState R :=
  match op with
  | WalUpsert doc_id terms tokens => apply_upsert st doc_id (mkAnalyzed terms tokens) false
  | WalDelete doc_id => apply_delete st doc_id false
  end.

Definition open_engine (lazy_load : bool) (snapshot : option IndexSnapshot) (wal : list WalOp) : Engine :=
  let state :=
    match snapshot with
    | Some sn => load_snapshot lazy_load sn
    | None => set_needs_rebuild IndexState_default true
    end in
  mkEngine lazy_load snapshot wal (foldl replay_op state wal).

(** What a crash leaves: the files. *)
Definition reopen_engine e : Engine := open_engine (en_lazy_load e) (en_snapshot e) (en_wal e).

(** ** Changing documents *)

Definition has_snapshot e : bool := match en_snapshot e with Some _ => true | None => false end.

(** [add_document] and [update_document], of one analyzed document. *)
Definition add_document e (doc_id : Z) (analyzed : AnalyzedDocument) : Engine :=
  set_state e (apply_upsert (en_state e) doc_id analyzed (has_snapshot e)).

Definition apply_analyzed e (analyzed : list (Z * AnalyzedDocument)) : Engine :=
  if bool_decide (analyzed = []) then e
  else if negb (has_snapshot e) && can_build_base (en_state e) then set_state e (build_base (en_state e) analyzed)
  else
    set_state e (foldl (fun st d => apply_upsert st d.1 d.2 (has_snapshot e)) (set_needs_rebuild (en_state e) false) analyzed).

Definition remove_documents e (doc_ids : list Z) : Engine :=
  set_state e (foldl (fun st d => apply_delete st d (has_snapshot e)) (en_state e) doc_ids).

(** ** Writing the files *)

Definition entry_key_le (a b : Text * Posting R) : Prop := text_le a.1 b.1.
#[export] Instance entry_key_le_dec a b : Decision (entry_key_le a b).
Proof. unfold entry_key_le. apply _. Defined.

(** The terms that have documents, in order. *)
Definition written_terms (base : gmap Text (Posting R)) : list (Text * Posting R) :=
  merge_sort entry_key_le (List.filter (fun x => negb (pd_is_empty (po_docs x.2))) (map_to_list base)).

Definition lazy_state (dir : list (Text * Posting R)) st : IndexState R :=
  mkIndex ∅ (Some dir) (ix_base_docs st) (ix_base_tokens st) (ix_delta_postings st)
    (ix_delta_docs st) (ix_delta_tokens st) (ix_shadowed_docs st) (ix_deleted_docs st) (ix_pending_wal st)
    (ix_next_term_id st) (ix_needs_rebuild st).

Definition persist_snapshot e : Engine :=
  let state := set_needs_rebuild (merge_delta (en_state e)) false in
  let dir := written_terms (ix_base_postings state) in
  let snapshot := mkSnapshot dir (ix_base_docs state) (packed_records (ix_base_tokens state)) in
  mkEngine (en_lazy_load e) (Some snapshot) [] (if en_lazy_load e then lazy_state dir state else state).

Definition append_pending_wal e : Engine :=
  if bool_decide (ix_pending_wal (en_state e) = []) then e
  else mkEngine (en_lazy_load e) (en_snapshot e) (en_wal e ++ ix_pending_wal (en_state e)) (clear_wal (en_state e)).

Definition flush e : Engine :=
  if negb (has_snapshot e) || (WAL_SNAPSHOT_THRESHOLD <=? length (ix_pending_wal (en_state e)))%nat
  then persist_snapshot e else append_pending_wal e.

(** ** The collections an engine stands for *)

Definition add_all (M : Docs) (docs : list (Z * AnalyzedDocument)) : Docs := foldl (fun M d => <[d.1 := d.2]> M) M docs.
Definition remove_all (M : Docs) (doc_ids : list Z) : Docs := foldl (fun M d => delete d M) M doc_ids.

Definition op_docs (M : Docs) (op : WalOp) : Docs :=
  match op with
  | WalUpsert doc_id terms tokens => <[doc_id := mkAnalyzed terms tokens]> M
  | WalDelete doc_id => delete doc_id M
  end.

Definition replay_docs (M : Docs) (ops : list WalOp) : Docs := foldl op_docs M ops.

(** The steps of an engine, with the documents and those at the last flush.  A batch that builds
    the base at once has distinct ids, none of them removed before. *)
Inductive engine_step : Engine * Docs * Docs -> Engine * Docs * Docs -> Prop :=
| StepAdd e M F docs :
    (en_snapshot e = None -> can_build_base (en_state e) = true ->
     NoDup docs.*1 /\ forall d, d ∈ docs.*1 -> d ∉ tm_elems (ix_deleted_docs (en_state e))) ->
    engine_step (e, M, F) (apply_analyzed e docs, add_all M docs, F)
| StepAddOne e M F d a : engine_step (e, M, F) (add_document e d a, <[d := a]> M, F)
| StepRemove e M F ids : engine_step (e, M, F) (remove_documents e ids, remove_all M ids, F)
| StepFlush e M F : engine_step (e, M, F) (flush e, M, M)
| StepCompact e M F : engine_step (e, M, F) (persist_snapshot e, M, M)
| StepReopen e M F : engine_step (e, M, F) (reopen_engine e, F, F).

(** ** Replaying twice is replaying once *)

Definition touches (op : WalOp) : Z := match op with WalUpsert d _ _ => d | WalDelete d => d end.

Definition last_of (ops : list WalOp) (d : Z) (x : option AnalyzedDocument) : option AnalyzedDocument :=
  foldl (fun x op => if touches op =? d then op_docs ∅ op !! d else x) x ops.

Lemma replay_docs_lookup M ops d : replay_docs M ops !! d = last_of ops d (M !! d).
Proof.
  unfold replay_docs, last_of. revert M. induction ops as [|op ops IH]; intros M; [done|]. cbn [foldl]. rewrite IH. f_equal.
  destruct (Z.eqb_spec (touches op) d) as [Hd|Hd]; destruct op; cbn in *; subst; by simplify_map_eq.
Qed.

Lemma last_of_touched ops d x y : existsb (fun op => touches op =? d) ops = true -> last_of ops d x = last_of ops d y.
Proof.
  revert x y. induction ops as [|op ops IH]; intros x y Ht; [done|]. cbn in *. destruct (touches op =? d); [done|]. by apply IH.
Qed.

Lemma last_of_untouched ops d x : existsb (fun op => touches op =? d) ops = false -> last_of ops d x = x.
Proof.
  revert x. induction ops as [|op ops IH]; intros x Ht; [done|]. cbn in *. destruct (touches op =? d); [done|]. by apply IH.
Qed.

(** The operations of the log that a snapshot already has do no harm. *)
Lemma replay_docs_idem M ops : replay_docs (replay_docs M ops) ops = replay_docs M ops.
Proof.
  apply map_eq. intros d. rewrite !replay_docs_lookup. destruct (existsb (fun op => touches op =? d) ops) eqn:Ht.
  - by apply last_of_touched.
  - by rewrite !last_of_untouched.
Qed.

Lemma replay_docs_app M ops ops' : replay_docs M (ops ++ ops') = replay_docs (replay_docs M ops) ops'.
Proof. apply foldl_app. Qed.

(** ** Operations on the state *)

Definition shows st (M : Docs) : Prop := exists B D, holds st B D /\ live_of st B D = M.

Lemma shows_upsert st M d a w : shows st M -> shows (apply_upsert st d a w) (<[d := a]> M).
Proof.
  intros (B & D & Hh & <-). destruct (apply_upsert_holds st B D d a w Hh) as [Hh' Hdel].
  exists B, (<[d := a]> D). split; [done|]. by apply upsert_live.
Qed.

Lemma shows_delete st M d w : shows st M -> shows (apply_delete st d w) (delete d M).
Proof.
  intros (B & D & Hh & <-). destruct (apply_delete_holds st B D d w Hh) as [Hh' Hdel].
  exists B, (delete d D). split; [done|]. by apply delete_live.
Qed.

Lemma shows_merge st M : shows st M -> shows (merge_delta st) M.
Proof. intros (B & D & Hh & <-). exists (live_of st B D), ∅. split; [by apply merge_delta_holds|by apply merge_live]. Qed.

Lemma set_needs_rebuild_shows st b M : shows st M -> shows (set_needs_rebuild st b) M.
Proof. intros (B & D & [] & <-). exists B, D. by repeat split. Qed.

Lemma clear_wal_shows st M : shows st M -> shows (clear_wal st) M.
Proof. intros (B & D & [] & <-). exists B, D. by repeat split. Qed.

Lemma shows_upserts st M docs w : shows st M ->
  shows (foldl (fun st d => apply_upsert st d.1 d.2 w) st docs) (add_all M docs).
Proof.
  revert st M. induction docs as [|[d a] docs IH]; intros st M Hs; [done|]. cbn. apply IH. by apply shows_upsert.
Qed.

Lemma shows_deletes st M ids w : shows st M ->
  shows (foldl (fun st d => apply_delete st d w) st ids) (remove_all M ids).
Proof. revert st M. induction ids as [|d ids IH]; intros st M Hs; [done|]. cbn. apply IH. by apply shows_delete. Qed.

Lemma shows_replay st M ops : shows st M -> shows (foldl replay_op st ops) (replay_docs M ops).
Proof.
  revert st M. induction ops as [|op ops IH]; intros st M Hs; [done|]. cbn [foldl]. apply IH.
  destruct op; [by apply shows_upsert|by apply shows_delete].
Qed.

(** *** The log *)

Lemma apply_upsert_wal st d a w : ix_pending_wal (apply_upsert st d a w) =
  ix_pending_wal st ++ (if w then [WalUpsert d (ad_terms a) (ad_tokens a)] else []).
Proof.
  pose proof (upsert_fold_base d (ad_terms a) (mark_upserted (remove_from_delta st d) d) []) as Hb. cbv zeta in Hb.
  pose proof (remove_from_delta_base st d) as (_ & _ & _ & _ & _ & _ & E7 & _).
  unfold apply_upsert. cbv zeta. destruct (foldl _ _ _) as [st2 ids]. cbn [fst] in Hb.
  assert (Hw : ix_pending_wal st2 = ix_pending_wal st) by (rewrite Hb; cbn; by rewrite E7).
  destruct w; cbn; rewrite Hw; [done|by rewrite app_nil_r].
Qed.

Lemma apply_delete_wal st d w : ix_pending_wal (apply_delete st d w) = ix_pending_wal st ++ (if w then [WalDelete d] else []).
Proof.
  pose proof (remove_from_delta_base st d) as (_ & _ & _ & _ & _ & _ & E7 & _).
  unfold apply_delete. cbv zeta. destruct w; cbn; rewrite E7; [done|by rewrite app_nil_r].
Qed.

Definition upsert_ops (docs : list (Z * AnalyzedDocument)) : list WalOp :=
  (fun d => WalUpsert d.1 (ad_terms d.2) (ad_tokens d.2)) <$> docs.

Lemma upserts_wal st docs w : ix_pending_wal (foldl (fun st d => apply_upsert st d.1 d.2 w) st docs) =
  ix_pending_wal st ++ (if w then upsert_ops docs else []).
Proof.
  revert st. induction docs as [|d docs IH]; intros st; cbn; [by destruct w; rewrite app_nil_r|].
  rewrite IH, apply_upsert_wal. destruct w; cbn; [by rewrite <-app_assoc|by rewrite !app_nil_r].
Qed.

Lemma deletes_wal st ids w : ix_pending_wal (foldl (fun st d => apply_delete st d w) st ids) =
  ix_pending_wal st ++ (if w then WalDelete <$> ids else []).
Proof.
  revert st. induction ids as [|d docs IH]; intros st; cbn; [by destruct w; rewrite app_nil_r|].
  rewrite IH, apply_delete_wal. destruct w; cbn; [by rewrite <-app_assoc|by rewrite !app_nil_r].
Qed.

Lemma replay_upserts M docs : replay_docs M (upsert_ops docs) = add_all M docs.
Proof.
  unfold replay_docs, add_all, upsert_ops. revert M. induction docs as [|[d [ts toks]] docs IH]; intros M; [done|]. cbn. apply IH.
Qed.

Lemma replay_deletes M ids : replay_docs M (WalDelete <$> ids) = remove_all M ids.
Proof. unfold replay_docs, remove_all. revert M. induction ids as [|d ids IH]; intros M; [done|]. cbn. apply IH. Qed.

(** ** The files hold the documents *)

Definition snapshot_shows (sn : IndexSnapshot) (S : Docs) : Prop :=
  dir_ok (sn_dir sn) /\ postings_of (list_to_map (sn_dir sn)) S /\ tm_elems (sn_docs sn) = dom S.

Lemma load_holds lazy_load sn S : snapshot_shows sn S -> holds (load_snapshot lazy_load sn) S ∅.
Proof.
  intros (Hdir & Hp & Hd). split; cbn; treemap; try done; try apply postings_of_empty; try set_solver.
  - unfold base_ok. cbn. by destruct lazy_load.
  - unfold base_map. cbn. destruct lazy_load; [done|]. by rewrite materialize_map.
Qed.

Lemma load_shows lazy_load sn S : snapshot_shows sn S -> shows (load_snapshot lazy_load sn) S.
Proof.
  intros Hs. exists S, ∅. split; [by apply load_holds|]. unfold live_of. cbn. treemap. rewrite without_empty.
  apply (left_id_L ∅ (∪)).
Qed.

#[export] Instance entry_key_le_total : Total entry_key_le.
Proof. intros a b. exact (text_le_total a.1 b.1). Qed.
#[export] Instance entry_key_le_trans : Transitive entry_key_le.
Proof. intros a b c. exact (text_le_trans a.1 b.1 c.1). Qed.

Lemma elem_written_terms base t p :
  (t, p) ∈ written_terms base <-> base !! t = Some p /\ pd_is_empty (po_docs p) = false.
Proof.
  unfold written_terms. rewrite merge_sort_Permutation, list_elem_of_In, filter_In, <-list_elem_of_In, elem_of_map_to_list.
  cbn. by rewrite negb_true_iff.
Qed.

Lemma filter_fst_nodup {A} (f : Text * A -> bool) (l : list (Text * A)) : NoDup l.*1 -> NoDup (List.filter f l).*1.
Proof.
  induction l as [|x l IH]; cbn; [done|]. intros [Hx Hl]%NoDup_cons. destruct (f x); [|by apply IH]. cbn. apply NoDup_cons.
  split; [|by apply IH]. intros (y & Hy & Hin)%list_elem_of_fmap. apply Hx, list_elem_of_fmap. exists y. split; [done|].
  apply list_elem_of_In, filter_In in Hin as [Hin _]. by apply list_elem_of_In.
Qed.

Lemma written_nodup (base : gmap Text (Posting R)) : NoDup (written_terms base).*1.
Proof. unfold written_terms. rewrite merge_sort_Permutation. apply filter_fst_nodup, NoDup_fst_map_to_list. Qed.

Lemma key_le_nodup_lt (l : list (Text * Posting R)) : StronglySorted entry_key_le l -> NoDup l.*1 -> StronglySorted text_lt l.*1.
Proof.
  induction 1 as [|x l Hs IH Hx]; cbn; [constructor|]. intros [Hnin Hnd]%NoDup_cons. constructor; [by apply IH|].
  apply Forall_forall. intros t Ht. apply list_elem_of_fmap in Ht as (y & -> & Hy).
  pose proof (proj1 (Forall_forall _ _) Hx _ Hy) as Hle. apply text_le_lt_eq in Hle as [|He]; [done|].
  exfalso. apply Hnin. rewrite He. apply list_elem_of_fmap. by exists y.
Qed.

Lemma written_dir_ok base M : postings_of base M -> dir_ok (written_terms base) /\ postings_of (list_to_map (written_terms base)) M.
Proof.
  intros Hp. split; [split|].
  - apply key_le_nodup_lt; [|apply written_nodup]. apply StronglySorted_merge_sort; apply _.
  - apply Forall_forall. intros [t p] [Ht _]%elem_written_terms. by destruct (postings_of_some _ _ _ _ Hp Ht).
  - intros t. destruct ((list_to_map (written_terms base) : gmap Text (Posting R)) !! t) as [p|] eqn:Hl.
    + apply elem_of_list_to_map in Hl; [|apply written_nodup]. apply elem_written_terms in Hl as [Ht _].
      by apply (postings_of_some _ _ _ _ Hp).
    + apply not_elem_of_list_to_map in Hl. destruct (base !! t) as [p|] eqn:Ht; [|by apply (postings_of_none _ _ _ Hp)].
      destruct (postings_of_some _ _ _ _ Hp Ht) as [Hok <-]. pose proof (pd_is_empty_spec _ Hok) as He.
      destruct (pd_is_empty (po_docs p)) eqn:Hem; [symmetry in He; by apply bool_decide_eq_true in He|].
      exfalso. apply Hl, list_elem_of_fmap. exists (t, p). split; [done|]. by apply elem_written_terms.
Qed.

Lemma merged_base_postings st : base_map (merge_delta st) = ix_base_postings (merge_delta st).
Proof. done. Qed.

Lemma persist_shows e M : shows (en_state e) M ->
  shows (en_state (persist_snapshot e)) M /\
  exists sn, en_snapshot (persist_snapshot e) = Some sn /\ snapshot_shows sn M.
Proof.
  intros (B & D & Hh & <-). destruct (merge_delta_holds _ _ _ Hh) as [Hm Hdel]. pose proof (merge_live _ _ _ Hh) as Hlive.
  pose proof (h_base _ _ _ Hm) as Hp. rewrite merged_base_postings in Hp.
  destruct (written_dir_ok _ _ Hp) as [Hdir Hw]. split.
  - exists (live_of (en_state e) B D), ∅. unfold persist_snapshot. cbn [en_state].
    destruct (en_lazy_load e); [|by split; [destruct Hm; by split|]].
    split; [|done]. destruct Hm as [Ho Hb Hd Hbd Hdd Hs Hdl]. by split.
  - eexists. split; [done|]. split_and!; [done|done|]. exact (h_base_docs _ _ _ Hm).
Qed.

Lemma persist_wal e : en_wal (persist_snapshot e) = [] /\ ix_pending_wal (en_state (persist_snapshot e)) = ix_pending_wal (en_state e).
Proof. unfold persist_snapshot. cbn [en_wal en_state]. by destruct (en_lazy_load e). Qed.

(** ** The engine is its documents *)

(** The state shows the documents, the files the flushed ones, and the pending operations lead
    from these to those. *)
Definition engine_inv (c : Engine * Docs * Docs) : Prop :=
  let '(e, M, F) := c in
  shows (en_state e) M /\
  match en_snapshot e with
  | None => F = ∅ /\ en_wal e = [] /\ ix_pending_wal (en_state e) = []
  | Some sn => exists S, snapshot_shows sn S /\ F = replay_docs S (en_wal e) /\ M = replay_docs F (ix_pending_wal (en_state e))
  end.

Lemma open_new_inv lazy_load : engine_inv (open_engine lazy_load None [], ∅, ∅).
Proof.
  split; [|done]. cbn. apply set_needs_rebuild_shows. exists ∅, ∅. split; [apply default_holds|].
  unfold live_of. cbn. treemap. by rewrite without_empty.
Qed.

Lemma add_inv e M F st M' ops : engine_inv (e, M, F) -> shows st M' -> M' = replay_docs M ops ->
  ix_pending_wal st = ix_pending_wal (en_state e) ++ (if has_snapshot e then ops else []) ->
  engine_inv (set_state e st, M', F).
Proof.
  intros [Hs Hf] Hst -> Hw. split; [done|]. cbn [set_state en_snapshot en_wal en_state]. unfold has_snapshot in Hw. rewrite Hw.
  destruct (en_snapshot e) as [sn|].
  - destruct Hf as (S & Hsn & HF & HM). exists S. split_and!; [done|done|]. by rewrite replay_docs_app, <-HM.
  - destruct Hf as (-> & -> & ->). done.
Qed.

Lemma list_to_map_add_all (docs : list (Z * AnalyzedDocument)) : NoDup docs.*1 -> list_to_map docs = add_all ∅ docs.
Proof.
  induction docs as [|[d a] docs IH] using rev_ind; [done|]. rewrite fmap_app. intros (Hnd & Hne & _)%NoDup_app.
  rewrite list_to_map_snoc; [|intros Hin; apply (Hne d Hin); by left]. rewrite IH by done. unfold add_all. by rewrite foldl_app.
Qed.

Lemma shows_can_build st M : shows st M -> can_build_base st = true -> M = ∅.
Proof.
  intros (B & D & Hh & <-) Hc. destruct (can_build_empty _ _ _ Hh Hc) as (-> & -> & _). unfold live_of.
  apply map_eq. intros d. rewrite lookup_union, lookup_without, lookup_empty. by destruct (decide _).
Qed.

Lemma shows_build st M docs : shows st M -> can_build_base st = true -> NoDup docs.*1 ->
  (forall d, d ∈ docs.*1 -> d ∉ tm_elems (ix_deleted_docs st)) -> shows (build_base st docs) (add_all M docs).
Proof.
  intros Hs Hc Hnd Hfresh. rewrite (shows_can_build _ _ Hs Hc), <-list_to_map_add_all by done.
  destruct Hs as (B & D & Hh & _). destruct (build_base_holds _ _ _ docs Hh Hc Hnd) as [Hb Hdel].
  exists (list_to_map docs), ∅. split; [done|]. unfold live_of. rewrite Hdel. rewrite (left_id_L ∅ (∪)). apply map_eq. intros d.
  rewrite lookup_without. case_decide as Hd; [|done]. symmetry. apply not_elem_of_list_to_map. intros Hin. by apply (Hfresh d).
Qed.

Lemma persist_inv e M F : engine_inv (e, M, F) -> engine_inv (persist_snapshot e, M, M).
Proof.
  intros [Hs Hf]. destruct (persist_shows e M Hs) as [Hs' (sn & Hsn & Hshow)]. destruct (persist_wal e) as [Hw Hp].
  split; [done|]. rewrite Hsn, Hw, Hp. exists M. split_and!; [done|done|].
  destruct (en_snapshot e) as [sn'|]; [|by destruct Hf as (_ & _ & ->)]. destruct Hf as (S & _ & -> & ->).
  by rewrite replay_docs_idem.
Qed.

Lemma append_inv e M F : engine_inv (e, M, F) -> has_snapshot e = true -> engine_inv (append_pending_wal e, M, M).
Proof.
  intros [Hs Hf] Hsn. unfold append_pending_wal, has_snapshot in *. destruct (en_snapshot e) as [sn|] eqn:Hsnap; [|done].
  destruct Hf as (S & Hshow & HF & HM). case_bool_decide as Hp.
  - split; [done|]. rewrite Hsnap, Hp. rewrite Hp in HM. exists S. split_and!; [done|by rewrite HM, HF|done].
  - split; [by apply clear_wal_shows|]. cbn. exists S. split_and!; [done| |done].
    by rewrite replay_docs_app, <-HF.
Qed.

Lemma engine_step_inv c c' : engine_inv c -> engine_step c c' -> engine_inv c'.
Proof.
  intros Hi Hstep. destruct Hstep as [e M F docs Hbulk|e M F d a|e M F ids|e M F|e M F|e M F]; pose proof Hi as [Hs Hf].
  - unfold apply_analyzed. case_bool_decide as Hnil; [by subst|].
    destruct (negb (has_snapshot e) && can_build_base (en_state e)) eqn:Hb.
    + apply andb_true_iff in Hb as [Hsn Hc]. unfold has_snapshot in Hsn. destruct (en_snapshot e) as [sn|] eqn:Hsnap; [done|].
      destruct (Hbulk eq_refl Hc) as [Hnd Hfresh]. split; [by apply shows_build|]. cbn [set_state en_snapshot en_wal en_state].
      rewrite Hsnap. destruct Hf as (HF & Hw & Hp). split_and!; [done|done|]. unfold build_base.
      by destruct (foldl bulk_document _ docs) as [[[? ?] ?] ?].
    + eapply (add_inv e M F _ _ (upsert_ops docs)); [done| | |].
      * apply shows_upserts. by apply set_needs_rebuild_shows.
      * by rewrite replay_upserts.
      * by rewrite upserts_wal.
  - eapply (add_inv e M F _ _ [WalUpsert d (ad_terms a) (ad_tokens a)]); [done|by apply shows_upsert| |by apply apply_upsert_wal].
    cbn. by destruct a.
  - eapply (add_inv e M F _ _ (WalDelete <$> ids)); [done|by apply shows_deletes|by rewrite replay_deletes|apply deletes_wal].
  - unfold flush. destruct (negb (has_snapshot e) || _) eqn:Hfl; [by eapply persist_inv|].
    apply orb_false_iff in Hfl as [Hsn%negb_false_iff _]. by eapply append_inv.
  - by eapply persist_inv.
  - unfold reopen_engine, open_engine. destruct (en_snapshot e) as [sn|] eqn:Hsnap.
    + destruct Hf as (S & Hshow & HF & HM). split; [rewrite HF; apply shows_replay; by apply load_shows|].
      cbn [en_snapshot en_wal en_state]. exists S. split_and!; [done|done|].
      assert (Hr : forall st ops, ix_pending_wal st = [] -> ix_pending_wal (foldl replay_op st ops) = []).
      { clear. intros st ops. revert st. induction ops as [|op ops IH]; intros st Hst; [done|]. cbn [foldl]. apply IH.
        destruct op; cbn [replay_op]; rewrite ?apply_upsert_wal, ?apply_delete_wal; by rewrite Hst. }
      by rewrite Hr.
    + destruct Hf as (-> & -> & _). apply open_new_inv.
Qed.

(** A compaction replaces the snapshot before it removes the log.  A process that dies in between
    leaves the old log beside the new snapshot, and opening them undoes every change of a logged
    document that the log does not have. *)
Lemma interrupted_compaction_reverts e M F : engine_inv (e, M, F) ->
  shows (en_state (open_engine (en_lazy_load e) (en_snapshot (persist_snapshot e)) (en_wal e))) (replay_docs M (en_wal e)).
Proof.
  intros [Hs _]. destruct (persist_shows e M Hs) as [_ (sn & Hsn & Hshow)]. rewrite Hsn. cbn [open_engine en_state].
  apply shows_replay. by apply load_shows.
Qed.

(** C37 An index engine stands for its documents: along a history of added, updated and removed
    documents, flushes, compactions and restarts, the posting of every term lists the live documents
    that have it, and the engine opened from the files shows the documents of the last flush.  Two
    kinds of history are left out, in which the code may lose documents or changes.  A batch that
    builds the base of an empty index without a snapshot at once has distinct ids, none of them
    marked as removed (such a document stays hidden after the build); documents added one by one,
    and all later batches, have no such condition.  And the process may die between any two calls,
    but not inside a compaction after its snapshot was renamed into place and before its log was
    removed ([interrupted_compaction_reverts]). *)
Theorem fts_engine_refines_documents lazy_load e M F :
  rtc engine_step (open_engine lazy_load None [], ∅, ∅) (e, M, F) ->
  (forall t, tm_elems (live_posting (en_state e) t) = docs_with M t) /\ tm_elems (live_docs (en_state e)) = dom M /\
  (forall t, tm_elems (live_posting (en_state (reopen_engine e)) t) = docs_with F t) /\
  tm_elems (live_docs (en_state (reopen_engine e))) = dom F.
Proof.
  intros Hr. assert (Hinv : engine_inv (e, M, F)).
  { revert Hr. generalize (open_new_inv lazy_load). generalize (open_engine lazy_load None [], (∅ : Docs), (∅ : Docs)).
    intros c Hc Hr. induction Hr as [|c c' c'' Hstep Hr IH]; [done|]. by apply IH, (engine_step_inv c). }
  destruct (engine_step_inv _ _ Hinv (StepReopen e M F)) as [(B' & D' & Hh' & <-) _]. destruct Hinv as [(B & D & Hh & <-) _].
  split_and!; try (intros t; by apply live_posting_holds); by apply live_docs_holds.
Qed.

End engine.
Arguments IndexSnapshot R : clear implicits.
Arguments Engine R : clear implicits.

(** A document is added, flushed and removed; then the process dies. *)
Definition sample_document : AnalyzedDocument := mkAnalyzed [[97]; [98]] [2; 1].
Definition sample_engine : Engine (gset Z) :=
  remove_documents (flush (add_document (open_engine true None []) 7 sample_document)) [7].

Lemma fts_engine_refines_documents_witness :
  tm_elems (live_posting (en_state sample_engine) [98]) = docs_with ∅ [98] /\
  tm_elems (live_posting (en_state (reopen_engine sample_engine)) [98]) = docs_with {[7 := sample_document]} [98].
Proof.
  assert (Hr : rtc (engine_step (R := gset Z)) (open_engine true None [], ∅, ∅) (sample_engine, ∅, {[7 := sample_document]})).
  { eapply rtc_l; [apply (StepAddOne _ _ _ 7 sample_document)|]. eapply rtc_l; [apply StepFlush|].
    eapply rtc_l; [apply (StepRemove _ _ _ [7])|]. replace (remove_all (<[7 := sample_document]> ∅) [7]) with (∅ : Docs) by reflexivity.
    apply rtc_refl. }
  destruct (fts_engine_refines_documents (R := gset Z) true sample_engine ∅ {[7 := sample_document]} Hr) as (H1 & _ & H3 & _).
  split; [apply H1|apply H3].
Defined.
