(* ===== verification/FtsFuzzy.v ===== *)
(** * Full-text search: the distance of the fuzzy search

    Models [levenshtein] of [fts/analyzer.rs], the dynamic program over two rows with its early
    exits, and shows that it computes the length of a shortest edit script: [edits n a b] turns [a]
    into [b] by [n] insertions, deletions and substitutions. *)
From S2P Require Import Prelude FtsPostings.

(** ** The program *)

(** The cells of a row behind its first: [prev] is the row before, [left_cell] the last cell. *)
Fixpoint lev_cells (a : Z) (right : Text) (prev : list nat) (left_cell : nat) : list nat :=
  match right, prev with
  | b :: bs, p0 :: ((p1 :: _) as below) =>
      let cell := Nat.min (Nat.min (p1 + 1) (left_cell + 1)) (p0 + if decide (a = b) then 0 else 1) in
      cell :: lev_cells a bs below cell
  | _, _ => []
  end.

Definition lev_row (i : nat) (a : Z) (right : Text) (prev : list nat) : list nat :=
  (i + 1)%nat :: lev_cells a right prev (i + 1).

Definition row_min (row : list nat) : nat :=
  match row with [] => 0 | n :: row => foldl Nat.min n row end.

(** The loop over the characters of the left text. *)
Fixpoint lev_loop (left : Text) (i : nat) (right : Text) (max_distance : nat) (prev : list nat) : option nat :=
  match left with
  | [] =>
      let distance := default 0%nat (prev !! length right) in
      if (distance <=? max_distance)%nat then Some distance else None
  | a :: rest =>
      let current := lev_row i a right prev in
      if (max_distance <? row_min current)%nat then None else lev_loop rest (S i) right max_distance current
  end.

Definition abs_diff (a b : nat) : nat := (a - b) + (b - a).

Definition levenshtein (left right : Text) (max_distance : nat) : option nat :=
  if (max_distance <? abs_diff (length left) (length right))%nat then None
  else lev_loop left 0 right max_distance (seq 0 (S (length right))).

(** ** Edit scripts *)

Inductive edits : nat -> Text -> Text -> Prop :=
| EditsDone : edits 0 [] []
| EditsKeep n x a b : edits n a b -> edits n (x :: a) (x :: b)
| EditsSubst n x y a b : edits n a b -> edits (S n) (x :: a) (y :: b)
| EditsDelete n x a b : edits n a b -> edits (S n) (x :: a) b
| EditsInsert n y a b : edits n a b -> edits (S n) a (y :: b).

(** The length of a shortest script. *)
Definition is_distance (n : nat) (a b : Text) : Prop := edits n a b /\ forall m, edits m a b -> (n <= m)%nat.

Lemma edits_app n a b m c d : edits n a b -> edits m c d -> edits (n + m) (a ++ c) (b ++ d).
Proof. intros Hn Hm. induction Hn; cbn; eauto using edits. Qed.

Lemma edits_reverse n a b : edits n a b -> edits n (reverse a) (reverse b).
Proof.
  induction 1 as [|n x a b H IH|n x y a b H IH|n x a b H IH|n y a b H IH]; rewrite ?reverse_cons; [apply EditsDone|..].
  - replace n with (n + 0)%nat by lia. apply edits_app; eauto using edits.
  - replace (S n) with (n + 1)%nat by lia. apply edits_app; eauto using edits.
  - replace (S n) with (n + 1)%nat by lia. rewrite <-(app_nil_r (reverse b)). apply edits_app; eauto using edits.
  - replace (S n) with (n + 1)%nat by lia. rewrite <-(app_nil_r (reverse a)). apply edits_app; eauto using edits.
Qed.

Lemma edits_split n a a' b : edits n (a ++ a') b ->
  exists b1 b2 n1 n2, b = b1 ++ b2 /\ n = (n1 + n2)%nat /\ edits n1 a b1 /\ edits n2 a' b2.
Proof.
  remember (a ++ a') as l eqn:Hl. intros He. revert a Hl.
  induction He as [|n x l b He IH|n x y l b He IH|n x l b He IH|n y l b He IH]; intros a Hl.
  - symmetry in Hl. apply app_nil in Hl as [-> ->]. exists [], [], 0%nat, 0%nat. split_and!; eauto using edits.
  - destruct a as [|z a]; cbn in Hl.
    + subst a'. exists [], (x :: b), 0%nat, n. split_and!; eauto using edits.
    + injection Hl as <- ->. destruct (IH a eq_refl) as (b1 & b2 & n1 & n2 & -> & -> & H1 & H2).
      exists (x :: b1), b2, n1, n2. split_and!; eauto using edits.
  - destruct a as [|z a]; cbn in Hl.
    + subst a'. exists [], (y :: b), 0%nat, (S n). split_and!; eauto using edits.
    + injection Hl as <- ->. destruct (IH a eq_refl) as (b1 & b2 & n1 & n2 & -> & -> & H1 & H2).
      exists (y :: b1), b2, (S n1), n2. split_and!; eauto using edits.
  - destruct a as [|z a]; cbn in Hl.
    + subst a'. exists [], b, 0%nat, (S n). split_and!; eauto using edits.
    + injection Hl as <- ->. destruct (IH a eq_refl) as (b1 & b2 & n1 & n2 & -> & -> & H1 & H2).
      exists b1, b2, (S n1), n2. split_and!; eauto using edits.
  - destruct (IH a Hl) as (b1 & b2 & n1 & n2 & -> & -> & H1 & H2). exists (y :: b1), b2, (S n1), n2. split_and!; eauto using edits.
Qed.

Lemma edits_lengths n a b : edits n a b -> (abs_diff (length a) (length b) <= n)%nat.
Proof. unfold abs_diff. induction 1; cbn; lia. Qed.

Lemma is_distance_reverse n a b : is_distance n (reverse a) (reverse b) <-> is_distance n a b.
Proof.
  assert (Hr : forall m, edits m (reverse a) (reverse b) <-> edits m a b).
  { intros m. split; [|apply edits_reverse]. intros He%edits_reverse. by rewrite !reverse_involutive in He. }
  unfold is_distance. rewrite Hr. by setoid_rewrite Hr.
Qed.

(** ** The recurrence *)

Lemma distance_nil_left b : is_distance (length b) [] b.
Proof.
  split; [induction b; eauto using edits|]. intros m He%edits_lengths. unfold abs_diff in He. cbn in He. lia.
Qed.

Lemma distance_nil_right a : is_distance (length a) a [].
Proof.
  split; [induction a; eauto using edits|]. intros m He%edits_lengths. unfold abs_diff in He. cbn in He. lia.
Qed.

Lemma distance_step a b l r p0 p1 c :
  is_distance p0 l r -> is_distance p1 l (b :: r) -> is_distance c (a :: l) r ->
  is_distance (Nat.min (Nat.min (p1 + 1) (c + 1)) (p0 + if decide (a = b) then 0 else 1)) (a :: l) (b :: r).
Proof.
  intros [H0 M0] [H1 M1] [Hc Mc]. split.
  - assert (Hd : edits (p1 + 1) (a :: l) (b :: r)) by (rewrite Nat.add_comm; by apply EditsDelete).
    assert (Hi : edits (c + 1) (a :: l) (b :: r)) by (rewrite Nat.add_comm; by apply EditsInsert).
    assert (Hs : edits (p0 + if decide (a = b) then 0 else 1) (a :: l) (b :: r)).
    { case_decide as Hab; [subst; rewrite Nat.add_0_r; by apply EditsKeep|rewrite Nat.add_comm; by apply EditsSubst]. }
    by destruct (Nat.min_dec (p1 + 1) (c + 1)) as [->| ->]; match goal with |- edits (Nat.min ?x ?y) _ _ =>
      destruct (Nat.min_dec x y) as [->| ->] end.
  - intros m He. inversion He; subst.
    + rewrite decide_True by done. pose proof (M0 m ltac:(done)). lia.
    + match goal with H : edits ?n l r |- _ => pose proof (M0 n H) end. case_decide; lia.
    + match goal with H : edits ?n l (b :: r) |- _ => pose proof (M1 n H) end. lia.
    + match goal with H : edits ?n (a :: l) r |- _ => pose proof (Mc n H) end. lia.
Qed.

(** ** The rows *)

(** The row holds the distances of [l] to the prefixes, reversed, that [r] starts. *)
Fixpoint row_ok (l r right : Text) (row : list nat) : Prop :=
  match row, right with
  | n :: row, [] => is_distance n l r /\ row = []
  | n :: row, b :: bs => is_distance n l r /\ row_ok l (b :: r) bs row
  | [], _ => False
  end.

Lemma first_row right r : row_ok [] r right (seq (length r) (S (length right))).
Proof.
  revert r. induction right as [|b bs IH]; intros r; cbn [length seq row_ok]; (split; [apply distance_nil_left|]); [done|].
  exact (IH (b :: r)).
Qed.

Lemma lev_cells_ok a l right r prev c : row_ok l r right prev -> is_distance c (a :: l) r ->
  row_ok (a :: l) r right (c :: lev_cells a right prev c).
Proof.
  revert r prev c. induction right as [|b bs IH]; intros r prev c Hp Hc.
  - by destruct prev.
  - destruct prev as [|p0 prev]; [done|]. destruct Hp as [H0 Hp]. split; [done|].
    destruct prev as [|p1 prev]; [by destruct bs|]. cbn [lev_cells]. apply (IH (b :: r) (p1 :: prev)); [done|].
    apply distance_step; [done| |done]. destruct bs; by destruct Hp.
Qed.

Lemma lev_row_ok a l right prev : row_ok l [] right prev -> row_ok (a :: l) [] right (lev_row (length l) a right prev).
Proof.
  intros Hp. apply lev_cells_ok; [done|]. replace (length l + 1)%nat with (length (a :: l)) by (cbn; lia). apply distance_nil_right.
Qed.

Lemma row_last l r right row : row_ok l r right row ->
  is_distance (default 0%nat (row !! length right)) l (reverse right ++ r).
Proof.
  revert r row. induction right as [|b bs IH]; intros r [|n row] Hr; try done; destruct Hr as [Hn Hr]; [done|].
  cbn [length lookup list_lookup]. rewrite reverse_cons, <-app_assoc. by apply IH.
Qed.

(** Every prefix has its cell. *)
Lemma row_cell l r right row pre post : row_ok l r right row -> right = pre ++ post ->
  exists n, n ∈ row /\ is_distance n l (reverse pre ++ r).
Proof.
  revert r row right. induction pre as [|b pre IH]; intros r row right Hr ->.
  - destruct row as [|n row]; [by destruct post|]. exists n. split; [by left|]. destruct post; by destruct Hr.
  - destruct row as [|n row]; [done|]. destruct Hr as [_ Hr]. destruct (IH (b :: r) row _ Hr eq_refl) as (m & Hm & Hd).
    exists m. split; [by right|]. by rewrite reverse_cons, <-app_assoc.
Qed.

Lemma row_min_le row n : n ∈ row -> (row_min row <= n)%nat.
Proof.
  assert (Hf : forall row a, (foldl Nat.min a row <= a)%nat /\ forall n, n ∈ row -> (foldl Nat.min a row <= n)%nat).
  { clear. induction row as [|x row IH]; intros a; cbn; [split; [done|by intros n ?%elem_of_nil]|].
    destruct (IH (Nat.min a x)) as [H1 H2]. split; [lia|]. intros n [->|Hn]%elem_of_cons; [lia|by apply H2]. }
  destruct row as [|x row]; [by intros ?%elem_of_nil|]. cbn. destruct (Hf row x) as [H1 H2].
  intros [->|Hn]%elem_of_cons; [done|by apply H2].
Qed.

(** A row whose cells are all too large ends the search. *)
Lemma row_bound l right row left m : row_ok l [] right row -> edits m (reverse left ++ l) (reverse right) ->
  (row_min row <= m)%nat.
Proof.
  intros Hr He. apply edits_split in He as (b1 & b2 & n1 & n2 & Hb & -> & _ & H2).
  assert (Hright : right = reverse b2 ++ reverse b1) by (by rewrite <-reverse_app, <-Hb, reverse_involutive).
  destruct (row_cell _ _ _ _ _ _ Hr Hright) as (n & Hn & [_ Hmin]). rewrite reverse_involutive, app_nil_r in Hmin.
  pose proof (row_min_le _ _ Hn). pose proof (Hmin _ H2). lia.
Qed.

Lemma lev_loop_ok left l right max_distance prev : row_ok l [] right prev ->
  match lev_loop left (length l) right max_distance prev with
  | Some n => (n <= max_distance)%nat /\ is_distance n (reverse left ++ l) (reverse right)
  | None => forall m, edits m (reverse left ++ l) (reverse right) -> (max_distance < m)%nat
  end.
Proof.
  revert l prev. induction left as [|a rest IH]; intros l prev Hp; cbn [lev_loop].
  - pose proof (row_last _ _ _ _ Hp) as Hd. rewrite app_nil_r in Hd. cbv zeta.
    destruct (Nat.leb_spec (default 0%nat (prev !! length right)) max_distance); [by split|].
    intros m He. destruct Hd as [_ Hmin]. specialize (Hmin m He). lia.
  - cbv zeta. pose proof (lev_row_ok a l right prev Hp) as Hr. rewrite reverse_cons, <-app_assoc.
    destruct (Nat.ltb_spec max_distance (row_min (lev_row (length l) a right prev))) as [Hlt|_].
    + intros m He. pose proof (row_bound _ _ _ rest m Hr He). lia.
    + exact (IH (a :: l) _ Hr).
Qed.

(** C39 The distance is the length of a shortest edit script when one within the bound exists, and
    the bound is exceeded by every script when it returns nothing: the early exits lose no match. *)
Theorem levenshtein_exact left right max_distance :
  match levenshtein left right max_distance with
  | Some n => (n <= max_distance)%nat /\ is_distance n left right
  | None => forall m, edits m left right -> (max_distance < m)%nat
  end.
Proof.
  unfold levenshtein. destruct (Nat.ltb_spec max_distance (abs_diff (length left) (length right))) as [Hlt|_].
  { intros m He%edits_lengths. lia. }
  pose proof (lev_loop_ok left [] right max_distance _ (first_row right [])) as Hl. rewrite app_nil_r in Hl.
  cbn [length] in Hl. destruct (lev_loop _ _ _ _ _) as [n|].
  - by rewrite is_distance_reverse in Hl.
  - intros m He%edits_reverse. by apply Hl.
Qed.

Example levenshtein_sample : levenshtein [97; 98; 99]%Z [97; 100; 99; 101]%Z 2 = Some 2%nat.
Proof. reflexivity. Qed.
