(* ===== verification/SqlAst.v ===== *)
(** * SQL expressions ([query/sql_parser.rs])

    The expression type that the parser builds and the executor evaluates.  [SelectStatement] is a
    parameter [S], and [serde_json]'s values are the parameter [J] of [Value]; [FtsResolved] and
    [FtsScoreResolved] are made by the executor only and are left out. *)
From S2P Require Import Prelude Values.
Local Open Scope Z_scope.

Inductive BinaryOperator :=
| OpEq | OpNotEq | OpLt | OpLe | OpGt | OpGe
| OpAnd | OpOr
| OpAdd | OpSub | OpMul | OpDiv | OpMod.

Inductive UnaryOperator := OpNot | OpMinus.

Inductive WindowFrameBound :=
| UnboundedPreceding
| Preceding (n : Z)
| CurrentRow
| Following (n : Z)
| UnboundedFollowing.

Record WindowFrame := mkFrame { frame_rows : bool; frame_start : WindowFrameBound; frame_end : WindowFrameBound }.

Inductive SqlExpr (J S : Type) :=
| EColumn (name : string)
| ELiteral (v : Value J)
| EBinaryOp (left : SqlExpr J S) (op : BinaryOperator) (right : SqlExpr J S)
| EUnaryOp (op : UnaryOperator) (expr : SqlExpr J S)
| ELike (column pattern : string) (negated : bool)
| ERegexp (column pattern : string) (negated : bool)
| EIn (column : string) (values : list (Value J)) (negated : bool)
| EInSubquery (column : string) (stmt : S) (negated : bool)
| EExistsSubquery (stmt : S)
| EScalarSubquery (stmt : S)
| ECase (when_then : list (SqlExpr J S * SqlExpr J S)) (else_expr : option (SqlExpr J S))
| EBetween (column : string) (low high : SqlExpr J S) (negated : bool)
| EIsNull (column : string) (negated : bool)
| EFtsMatch (query : string) (fuzzy : bool)
| EFtsScore (query : option string)
| EFunction (name : string) (args : list (SqlExpr J S))
| EVariable (name : string)
| ECast (expr : SqlExpr J S) (data_type : DataType)
| EParen (expr : SqlExpr J S)
| EArrayIndex (array index : SqlExpr J S)
| EArrayLiteral (values : list Z)
| ETopkDistance (col : string) (query : list Z) (k : Z) (metric : string)
| EExplodeRename (inner : SqlExpr J S) (names : list string)
| EWindow (name : string) (args : list (SqlExpr J S)) (partition_by : list string)
    (order_by : list (OrderByClause J S)) (frame : option WindowFrame)
with OrderByClause (J S : Type) :=
| mkOrderBy (column : string) (descending : bool) (nulls_first : option bool)
    (expr : option (SqlExpr J S)).
Arguments EColumn {J S} name.
Arguments ELiteral {J S} v.
Arguments EBinaryOp {J S} left op right.
Arguments EUnaryOp {J S} op expr.
Arguments ELike {J S} column pattern negated.
Arguments ERegexp {J S} column pattern negated.
Arguments EIn {J S} column values negated.
Arguments EInSubquery {J S} column stmt negated.
Arguments EExistsSubquery {J S} stmt.
Arguments EScalarSubquery {J S} stmt.
Arguments ECase {J S} when_then else_expr.
Arguments EBetween {J S} column low high negated.
Arguments EIsNull {J S} column negated.
Arguments EFtsMatch {J S} query fuzzy.
Arguments EFtsScore {J S} query.
Arguments EFunction {J S} name args.
Arguments EVariable {J S} name.
Arguments ECast {J S} expr data_type.
Arguments EParen {J S} expr.
Arguments EArrayIndex {J S} array index.
Arguments EArrayLiteral {J S} values.
Arguments ETopkDistance {J S} col query k metric.
Arguments EExplodeRename {J S} inner names.
Arguments EWindow {J S} name args partition_by order_by frame.
Arguments mkOrderBy {J S} column descending nulls_first expr.
