(* ===== verification/Decimal.v ===== *)
(** * Exact decimals

    Models [query/executor/decimal.rs]: decimal literals, the comparison of scaled
    128-bit integers, and the predicate masks built from it.  Texts are lists of ASCII
    characters; the shortest round-trip text of a float is a parameter.  The catalog
    lookup that yields a table's scales and the Arrow sort rewrite are left out. *)
From S2P Require Import Prelude Float Values Bytes SqlAst.
From Stdlib Require Import Ascii.
Local Open Scope Z_scope.

Definition I128_MIN : Z := - 2 ^ 127.
Definition I128_MAX : Z := 2 ^ 127 - 1.
Definition U128_MAX : Z := 2 ^ 128 - 1.
Definition I8_MAX : Z := 127.

Definition i128 (x : Z) : Prop := I128_MIN <= x <= I128_MAX.
Definition i8 (x : Z) : Prop := -128 <= x <= 127.

(** [i128::checked_mul] and [checked_add] *)
Definition checked_i128 (x : Z) : option Z :=
  if (I128_MIN <=? x) && (x <=? I128_MAX) then Some x else None.

(** [u128::checked_mul] *)
Definition checked_u128 (x : Z) : option Z := if x <=? U128_MAX then Some x else None.

(** [i8] subtraction without overflow checks, then [as usize]. *)
Definition wrap_i8 (x : Z) : Z := (x + 128) mod 256 - 128.
Definition i8_as_usize (x : Z) : Z := wrap64 x.

(** ** Comparison *)

Definition POW10_U128 : list Z :=
  [1;
   10;
   100;
   1000;
   10000;
   100000;
   1000000;
   10000000;
   100000000;
   1000000000;
   10000000000;
   100000000000;
   1000000000000;
   10000000000000;
   100000000000000;
   1000000000000000;
   10000000000000000;
   100000000000000000;
   1000000000000000000;
   10000000000000000000;
   100000000000000000000;
   1000000000000000000000;
   10000000000000000000000;
   100000000000000000000000;
   1000000000000000000000000;
   10000000000000000000000000;
   100000000000000000000000000;
   1000000000000000000000000000;
   10000000000000000000000000000;
   100000000000000000000000000000;
   1000000000000000000000000000000;
   10000000000000000000000000000000;
   100000000000000000000000000000000;
   1000000000000000000000000000000000;
   10000000000000000000000000000000000;
   100000000000000000000000000000000000;
   1000000000000000000000000000000000000;
   10000000000000000000000000000000000000;
   100000000000000000000000000000000000000].

(** [slice::get] at a [usize]. *)
Definition slice_get (l : list Z) (i : Z) : option Z :=
  if i <? Z.of_nat (length l) then l !! Z.to_nat i else None.

Definition pow10_mul (value digits : Z) : option Z :=
  if value =? 0 then Some 0
  else factor ← slice_get POW10_U128 digits; checked_u128 (value * factor).

Definition cmp_decimal_magnitudes (a a_scale b b_scale : Z) : comparison :=
  if a_scale =? b_scale then (a ?= b)
  else if b_scale <? a_scale then
    match pow10_mul b (i8_as_usize (wrap_i8 (a_scale - b_scale))) with
    | Some scaled => (a ?= scaled)
    | None => Lt
    end
  else
    match pow10_mul a (i8_as_usize (wrap_i8 (b_scale - a_scale))) with
    | Some scaled => (scaled ?= b)
    | None => Gt
    end.

Definition cmp_decimal (a a_scale b b_scale : Z) : comparison :=
  let sign_a := Z.sgn a in
  let sign_b := Z.sgn b in
  if negb (sign_a =? sign_b) then (sign_a ?= sign_b)
  else if sign_a =? 0 then Eq
  else
    let magnitude := cmp_decimal_magnitudes (Z.abs a) a_scale (Z.abs b) b_scale in
    if sign_a <? 0 then CompOpp magnitude else magnitude.

Definition cmp_decimal_matches (op : BinaryOperator) (ordering : comparison) : bool :=
  match op, ordering with
  | OpEq, Eq => true
  | OpEq, _ => false
  | OpNotEq, Eq => false
  | OpNotEq, _ => true
  | OpLt, Lt => true
  | OpLt, _ => false
  | OpLe, Gt => false
  | OpLe, _ => true
  | OpGt, Gt => true
  | OpGt, _ => false
  | OpGe, Lt => false
  | OpGe, _ => true
  | _, _ => false
  end.

Definition flip_comparison (op : BinaryOperator) : option BinaryOperator :=
  match op with
  | OpEq => Some OpEq
  | OpNotEq => Some OpNotEq
  | OpLt => Some OpGt
  | OpLe => Some OpGe
  | OpGt => Some OpLt
  | OpGe => Some OpLe
  | _ => None
  end.

(** ** Literals *)

Abbreviation text := (list ascii).

(** [char::is_whitespace] on ASCII. *)
Definition is_whitespace (c : ascii) : bool :=
  let n := N_of_ascii c in ((9 <=? n) && (n <=? 13) || (n =? 32))%N.

Definition is_ascii_digit (c : ascii) : bool :=
  let n := N_of_ascii c in ((48 <=? n) && (n <=? 57))%N.

Definition digit_value (c : ascii) : Z := Z.of_N (N_of_ascii c) - 48.

Fixpoint trim_start (s : text) : text :=
  match s with
  | c :: s' => if is_whitespace c then trim_start s' else s
  | [] => []
  end.

Definition trim (s : text) : text := rev (trim_start (rev (trim_start s))).

(** [str::split_once('.')] *)
Fixpoint split_once (s : text) : option (text * text) :=
  match s with
  | [] => None
  | c :: s =>
      if bool_decide (c = "."%char) then Some ([], s)
      else '(i, f) ← split_once s; Some (c :: i, f)
  end.

(** One turn of the loop over the digits. *)
Definition push_digit (acc : option Z) (c : ascii) : option Z :=
  u ← acc; u ← checked_i128 (u * 10); checked_i128 (u + digit_value c).

Definition split_sign (s : text) : bool * text :=
  match s with
  | "-"%char :: s => (true, s)
  | "+"%char :: s => (false, s)
  | _ => (false, s)
  end.

Definition parse_decimal_text (s : text) : option (Z * Z) :=
  let trimmed := trim s in
  if bool_decide (trimmed = []) then None
  else
    let '(negative, unsigned) := split_sign trimmed in
    if bool_decide (unsigned = []) || (40 <? Z.of_nat (length unsigned)) then None
    else
      let '(integer_part, fractional_part) :=
        match split_once unsigned with Some p => p | None => (unsigned, []) end in
      if bool_decide (integer_part = []) && bool_decide (fractional_part = []) then None
      else if negb (forallb is_ascii_digit integer_part) || negb (forallb is_ascii_digit fractional_part)
      then None
      else if I8_MAX <? Z.of_nat (length fractional_part) then None
      else
        unscaled ← fold_left push_digit (integer_part ++ fractional_part) (Some 0);
        Some (if negative then - unscaled else unscaled, Z.of_nat (length fractional_part)).

(** ** Columns *)

(** An Arrow column as [decimal_column_values] sees it; bytes are in [0, 256). *)
Inductive DecimalArray :=
| DecBinary (l : list (option (list Z)))
| DecFixedBinary (value_length : Z) (l : list (option (list Z)))
| DecDecimal128 (l : list (option Z))
| DecOther.

(** [i128::from_le_bytes] *)
Definition i128_from_le_bytes (bytes : list Z) : Z :=
  let u := le_bytes_value bytes in if u <? 2 ^ 127 then u else u - 2 ^ 128.

(** [i128::to_le_bytes] *)
Definition i128_to_le_bytes (x : Z) : list Z := le_bytes 16 (x mod 2 ^ 128).

Definition decimal_payload_to_i128 (bytes : list Z) : option Z :=
  if negb (length bytes =? 16)%nat then None else Some (i128_from_le_bytes bytes).

Definition payload_cell (cell : option (list Z)) : option Z :=
  match cell with None => None | Some bytes => decimal_payload_to_i128 bytes end.

Definition decimal_column_values (array : DecimalArray) : option (list (option Z)) :=
  match array with
  | DecBinary l => Some (payload_cell <$> l)
  | DecFixedBinary value_length l => if negb (value_length =? 16) then None else Some (payload_cell <$> l)
  | DecDecimal128 l => Some l
  | DecOther => None
  end.

(** The columns [decimal_result_to_payload] rewrites. *)
Definition decimal_column_to_payload (array : DecimalArray) : DecimalArray :=
  match array with
  | DecDecimal128 l => DecBinary ((fun value : option Z => i128_to_le_bytes <$> value) <$> l)
  | other => other
  end.

(** ** The scales of the current statement *)

Abbreviation ScaleMap := (gmap string Z).

(** [DECIMAL_SCALES] *)
Abbreviation Hints := (option ScaleMap).

(** [previous] is [None] for a guard that does not touch the map. *)
Record DecimalHintGuard := mkGuard { previous : option Hints }.

Definition guard_none : DecimalHintGuard := mkGuard None.

(** The two insertions per DECIMAL column. *)
Definition add_scale (m : ScaleMap) (column : string * option Z) : ScaleMap :=
  match column.2 with
  | Some scale => <[to_lowercase column.1 := scale]> (<[column.1 := scale]> m)
  | None => m
  end.

(** [catalog]: the columns of the catalog schema with their DECIMAL scales, if the
    table is registered; [storage]: whether the open backend has a DECIMAL column, and
    its DECIMAL-typed columns. *)
Definition build_decimal_scale_map (is_cte_batch : bool)
    (storage : option (bool * list (string * option Z)))
    (catalog : option (list (string * option Z))) : option ScaleMap :=
  if is_cte_batch then None
  else
    match storage with
    | None => None
    | Some (has_any_decimal_column, decimal_columns) =>
        if negb has_any_decimal_column then None
        else
          let m := match catalog with Some columns => fold_left add_scale columns ∅ | None => ∅ end in
          let m := if bool_decide (m = ∅) then fold_left add_scale decimal_columns m else m in
          if bool_decide (m = ∅) then None else Some m
    end.

Definition install_decimal_hints (built : option ScaleMap) (cell : Hints) : DecimalHintGuard * Hints :=
  match built with
  | None => (guard_none, cell)
  | Some hints => (mkGuard (Some cell), Some hints)
  end.

Definition DecimalHintGuard_drop (guard : DecimalHintGuard) (cell : Hints) : Hints :=
  match previous guard with Some p => p | None => cell end.

Fixpoint trim_quotes_start (s : text) : text :=
  match s with
  | c :: s' => if bool_decide (N_of_ascii c = 34%N) then trim_quotes_start s' else s
  | [] => []
  end.

(** [column.trim_matches('\x22')] *)
Definition trim_quotes (column : string) : string :=
  String.string_of_list_ascii
    (rev (trim_quotes_start (rev (trim_quotes_start (String.list_ascii_of_string column))))).

(** [rsplit('.').next()] *)
Fixpoint last_component (acc s : text) : text :=
  match s with
  | [] => acc
  | c :: s => if bool_decide (c = "."%char) then last_component s s else last_component acc s
  end.

Definition bare_name (trimmed : string) : string :=
  let s := String.list_ascii_of_string trimmed in String.string_of_list_ascii (last_component s s).

Definition decimal_scale_hint (cell : Hints) (column : string) : option Z :=
  match cell with
  | None => None
  | Some hints =>
      let trimmed := trim_quotes column in
      match hints !! trimmed with
      | Some scale => Some scale
      | None =>
          let bare := bare_name trimmed in
          match hints !! bare with Some scale => Some scale | None => hints !! to_lowercase bare end
      end
  end.

(** ** Predicate masks *)

(** A mask: [None] is NULL. *)
Abbreviation Mask := (list (option bool)).

Section masks.
Context {J Sel : Type} (format_f64 : Z -> text).
Context (cell : Hints) (column_by_name : string -> option DecimalArray).
Implicit Types (v : Value J) (op : BinaryOperator).

Definition is_finite (bits : Z) : bool := f64_magnitude bits <? F64_INF.

Definition decimal_literal_parts v : option (Z * Z) :=
  match v with
  | VInt8 x | VInt16 x | VInt32 x | VInt64 x => Some (x, 0)
  | VUInt8 x | VUInt16 x | VUInt32 x | VUInt64 x => Some (x, 0)
  | VFloat32 b =>
      let b := f64_of_f32 b in if negb (is_finite b) then None else parse_decimal_text (format_f64 b)
  | VFloat64 b => if negb (is_finite b) then None else parse_decimal_text (format_f64 b)
  | VString s => parse_decimal_text (String.list_ascii_of_string s)
  | _ => None
  end.

(** The scale, the clean name and the values of a DECIMAL column, or fall through. *)
Definition decimal_column (column : string) : option (Z * list (option Z)) :=
  scale ← decimal_scale_hint cell column;
  array ← column_by_name (bare_name (trim_quotes column));
  values ← decimal_column_values array;
  Some (scale, values).

Definition decimal_column_pair_mask (left_name : string) op (right_name : string) : Result (option Mask) :=
  match decimal_column left_name, decimal_column right_name with
  | Some (left_scale, left_values), Some (right_scale, right_values) =>
      if negb (length left_values =? length right_values)%nat then Ok None
      else
        Ok (Some (zip_with (fun l r =>
          match l, r with
          | Some l, Some r => Some (cmp_decimal_matches op (cmp_decimal l left_scale r right_scale))
          | _, _ => None
          end) left_values right_values))
  | _, _ => Ok None
  end.

(** The column-with-literal path. *)
Definition decimal_literal_mask (column : string) op (reversed : bool) (literal : Value J)
    : Result (option Mask) :=
  match decimal_column column with
  | None => Ok None
  | Some (scale, values) =>
      match (if reversed then flip_comparison op else Some op) with
      | None => Ok None
      | Some effective_op =>
          match decimal_literal_parts literal with
          | None => Err InvalidInput
          | Some (literal_value, literal_scale) =>
              Ok (Some ((fun value : option Z => value ← value;
                Some (cmp_decimal_matches effective_op
                        (cmp_decimal value scale literal_value literal_scale))) <$> values))
          end
      end
  end.

Definition decimal_comparison_mask (left : SqlExpr J Sel) op (right : SqlExpr J Sel) : Result (option Mask) :=
  match left, right with
  | EColumn name, ELiteral value => decimal_literal_mask name op false value
  | ELiteral value, EColumn name => decimal_literal_mask name op true value
  | EColumn left_name, EColumn right_name => decimal_column_pair_mask left_name op right_name
  | _, _ => Ok None
  end.

Definition between (scale : Z) (low high : Z * Z) (negated : bool) (value : Z) : bool :=
  let matches :=
    negb (bool_decide (cmp_decimal value scale low.1 low.2 = Lt)) &&
    negb (bool_decide (cmp_decimal value scale high.1 high.2 = Gt)) in
  if negated then negb matches else matches.

Definition decimal_between_mask (column : string) (low high : SqlExpr J Sel) (negated : bool)
    : Result (option Mask) :=
  match decimal_column column with
  | None => Ok None
  | Some (scale, values) =>
      match low, high with
      | ELiteral low, ELiteral high =>
          match decimal_literal_parts low, decimal_literal_parts high with
          | Some low, Some high => Ok (Some ((fun value : option Z => between scale low high negated <$> value) <$> values))
          | _, _ => Err InvalidInput
          end
      | _, _ => Ok None
      end
  end.

(** The loop over the IN list: the literals, and whether one is NULL. *)
Fixpoint in_literals (values : list (Value J)) : option (list (Z * Z) * bool) :=
  match values with
  | [] => Some ([], false)
  | VNull :: values => '(literals, _) ← in_literals values; Some (literals, true)
  | v :: values =>
      parts ← decimal_literal_parts v;
      '(literals, has_null) ← in_literals values; Some (parts :: literals, has_null)
  end.

Definition in_cell (scale : Z) (literals : list (Z * Z)) (has_null negated : bool) (value : Z)
    : option bool :=
  if existsb (fun l => bool_decide (cmp_decimal value scale l.1 l.2 = Eq)) literals then Some (negb negated)
  else if has_null then None
  else Some negated.

Definition decimal_in_mask (column : string) (values : list (Value J)) (negated : bool)
    : Result (option Mask) :=
  match decimal_column column with
  | None => Ok None
  | Some (scale, rows) =>
      match in_literals values with
      | None => Err InvalidInput
      | Some (literals, has_null) =>
          Ok (Some ((fun row : option Z => row ← row; in_cell scale literals has_null negated row) <$> rows))
      end
  end.
End masks.

(** ** The comparison is exact *)

(** [a * 10^-a_scale] against [b * 10^-b_scale], over the common denominator. *)
Definition dec_compare (a a_scale b b_scale : Z) : comparison :=
  let s := Z.max a_scale b_scale in (a * 10 ^ (s - a_scale) ?= b * 10 ^ (s - b_scale)).

Lemma pow10_table i : 0 <= i < 39 -> POW10_U128 !! Z.to_nat i = Some (10 ^ i).
Proof.
  intros Hi. assert (Hall : forallb (fun n => bool_decide (POW10_U128 !! n = Some (10 ^ Z.of_nat n))) (seq 0 39) = true)
    by (vm_compute; reflexivity).
  rewrite forallb_forall in Hall. specialize (Hall (Z.to_nat i)). rewrite bool_decide_eq_true, Z2Nat.id in Hall by lia.
  apply Hall, in_seq. lia.
Qed.

Lemma pow10_large d : 39 <= d -> U128_MAX < 10 ^ d.
Proof.
  intros Hd. apply Z.lt_le_trans with (10 ^ 39); [vm_compute; reflexivity|].
  by apply Z.pow_le_mono_r.
Qed.

(** An [i8] difference that wrapped around still selects no table entry. *)
Lemma i8_distance d : 0 < d <= 255 ->
  let i := i8_as_usize (wrap_i8 d) in (d <= 127 /\ i = d) \/ (128 <= d /\ 39 <= i).
Proof.
  intros Hd. unfold wrap_i8, i8_as_usize, wrap64, U64_MOD. simpl.
  destruct (decide (d <= 127)); [left|right]; (split; [lia|]).
  - rewrite (Z.mod_small (d + 128)) by lia. rewrite Z.mod_small; lia.
  - replace (d + 128) with (d - 128 + 1 * 256) by lia. rewrite Z.mod_add, (Z.mod_small (d - 128)) by lia.
    replace (d - 128 - 128) with (d - 256 + 18446744073709551616 + (-1) * 18446744073709551616) by lia.
    rewrite Z.mod_add, Z.mod_small by lia. lia.
Qed.

Lemma pow10_mul_spec v d : 0 <= v -> 0 < d <= 255 ->
  match pow10_mul v (i8_as_usize (wrap_i8 d)) with
  | Some scaled => scaled = v * 10 ^ d
  | None => U128_MAX < v * 10 ^ d
  end.
Proof.
  intros Hv Hd. unfold pow10_mul. destruct (Z.eqb_spec v 0) as [->|Hne]; [lia|].
  assert (Hbig : 39 <= d -> U128_MAX < v * 10 ^ d).
  { intros H. pose proof (pow10_large d H). nia. }
  unfold slice_get. change (Z.of_nat (length POW10_U128)) with 39.
  destruct (i8_distance d Hd) as [[Hle ->]|[Hge Hi]].
  - destruct (Z.ltb_spec d 39); [|simpl; by apply Hbig]. rewrite pow10_table by lia. simpl.
    unfold checked_u128. destruct (Z.leb_spec (v * 10 ^ d) U128_MAX); [done|lia].
  - destruct (Z.ltb_spec (i8_as_usize (wrap_i8 d)) 39); [lia|]. simpl. apply Hbig. lia.
Qed.

Lemma cmp_magnitudes_spec a sa b sb :
  0 <= a <= U128_MAX -> 0 <= b <= U128_MAX -> i8 sa -> i8 sb ->
  cmp_decimal_magnitudes a sa b sb = dec_compare a sa b sb.
Proof.
  unfold i8. intros Ha Hb Hsa Hsb. unfold cmp_decimal_magnitudes, dec_compare.
  destruct (Z.eqb_spec sa sb) as [->|Hne].
  { by rewrite Z.max_id, Z.sub_diag, !Z.mul_1_r. }
  destruct (Z.ltb_spec sb sa) as [Hlt|Hge].
  - rewrite Z.max_l, Z.sub_diag, Z.mul_1_r by lia.
    pose proof (pow10_mul_spec b (sa - sb) ltac:(lia) ltac:(lia)) as H.
    destruct (pow10_mul _ _) as [scaled|]; [by rewrite H|]. symmetry. apply Z.compare_lt_iff. lia.
  - rewrite Z.max_r, Z.sub_diag, Z.mul_1_r by lia.
    pose proof (pow10_mul_spec a (sb - sa) ltac:(lia) ltac:(lia)) as H.
    destruct (pow10_mul _ _) as [scaled|]; [by rewrite H|]. symmetry. apply Z.compare_gt_iff. lia.
Qed.

Lemma cmp_decimal_spec a sa b sb :
  i128 a -> i128 b -> i8 sa -> i8 sb -> cmp_decimal a sa b sb = dec_compare a sa b sb.
Proof.
  intros Ha Hb Hsa Hsb. unfold cmp_decimal.
  assert (Habs : forall x, i128 x -> 0 <= Z.abs x <= U128_MAX).
  { unfold i128, I128_MIN, I128_MAX, U128_MAX. intros x Hx. lia. }
  rewrite cmp_magnitudes_spec by auto. unfold dec_compare.
  assert (Hp : 0 < 10 ^ (Z.max sa sb - sa)) by (apply Z.pow_pos_nonneg; lia).
  assert (Hq : 0 < 10 ^ (Z.max sa sb - sb)) by (apply Z.pow_pos_nonneg; lia).
  clear Habs. revert Hp Hq.
  generalize (10 ^ (Z.max sa sb - sa)) (10 ^ (Z.max sa sb - sb)). intros p q Hp Hq.
  destruct (Z.sgn_spec a) as [[Hsa' ->]|[[Hsa' ->]|[Hsa' ->]]];
    destruct (Z.sgn_spec b) as [[Hsb' ->]|[[Hsb' ->]|[Hsb' ->]]]; simpl;
    try (symmetry; apply Z.compare_lt_iff; nia); try (symmetry; apply Z.compare_gt_iff; nia);
    try (symmetry; apply Z.compare_eq_iff; nia).
  - by rewrite (Z.abs_eq a), (Z.abs_eq b) by lia.
  - rewrite (Z.abs_neq a), (Z.abs_neq b), !Z.mul_opp_l, Z.compare_opp by lia.
    symmetry. apply Z.compare_antisym.
Qed.

(** C28 The comparison of decimals is exact: for all 128-bit values and 8-bit scales,
    negative ones and gaps that overflow the alignment factor or the scale difference
    included, [cmp_decimal] orders the two as the rationals they denote. *)
Theorem cmp_decimal_exact a a_scale b b_scale :
  i128 a -> i128 b -> i8 a_scale -> i8 b_scale ->
  cmp_decimal a a_scale b b_scale = dec_compare a a_scale b b_scale.
Proof. apply cmp_decimal_spec. Qed.

Lemma cmp_decimal_exact_witness :
  cmp_decimal 1 127 2 (-128) = Lt /\ dec_compare 123 2 1230 3 = Eq.
Proof.
  split.
  - rewrite (cmp_decimal_exact 1 127 2 (-128)) by (unfold i128, I128_MIN, I128_MAX, i8; lia).
    vm_compute. reflexivity.
  - reflexivity.
Defined.

(** ** Literal texts *)

Definition digits_value (ds : text) : Z := fold_left (fun u c => u * 10 + digit_value c) ds 0.

(** [t] is a sign, digits, and possibly a point and digits, between spaces, at most 40
    characters without the sign. *)
Definition decimal_text (t : text) (u s : Z) : Prop :=
  exists pre post sign int point frac,
    t = pre ++ (sign ++ int ++ point ++ frac) ++ post /\
    forallb is_whitespace pre = true /\ forallb is_whitespace post = true /\
    (sign = [] \/ sign = ["+"%char] \/ sign = ["-"%char]) /\
    (point = ["."%char] \/ (point = [] /\ frac = [])) /\
    forallb is_ascii_digit int = true /\ forallb is_ascii_digit frac = true /\
    int ++ frac <> [] /\ Z.of_nat (length (int ++ point ++ frac)) <= 40 /\
    digits_value (int ++ frac) <= I128_MAX /\
    u = (if bool_decide (sign = ["-"%char]) then - digits_value (int ++ frac) else digits_value (int ++ frac)) /\
    s = Z.of_nat (length frac).

Lemma digit_bounds c : is_ascii_digit c = true -> 0 <= digit_value c <= 9.
Proof. unfold is_ascii_digit, digit_value. intros [?%N.leb_le ?%N.leb_le]%andb_true_iff. lia. Qed.

Lemma fold_digits_none ds : fold_left push_digit ds None = None.
Proof. by induction ds. Qed.

Lemma fold_digits_ge ds u :
  0 <= u -> forallb is_ascii_digit ds = true ->
  u <= fold_left (fun u c => u * 10 + digit_value c) ds u.
Proof.
  revert u. induction ds as [|c ds IH]; intros u Hu; simpl; [lia|].
  intros [Hc Hds]%andb_true_iff. pose proof (digit_bounds c Hc).
  specialize (IH (u * 10 + digit_value c) ltac:(lia) Hds). lia.
Qed.

(** The checked loop computes the value, or overflows. *)
Lemma fold_digits_spec ds : forall u, 0 <= u <= I128_MAX -> forallb is_ascii_digit ds = true ->
  let v := fold_left (fun u c => u * 10 + digit_value c) ds u in
  fold_left push_digit ds (Some u) = if v <=? I128_MAX then Some v else None.
Proof.
  induction ds as [|c ds IH]; intros u Hu Hds; cbn [fold_left forallb] in *.
  { by destruct (Z.leb_spec u I128_MAX); [|lia]. }
  apply andb_true_iff in Hds as [Hc Hds]. pose proof (digit_bounds c Hc) as Hd.
  assert (Hov : I128_MAX < u * 10 + digit_value c ->
    (fold_left (fun u c => u * 10 + digit_value c) ds (u * 10 + digit_value c) <=? I128_MAX) = false).
  { intros H. apply Z.leb_gt. pose proof (fold_digits_ge ds (u * 10 + digit_value c) ltac:(lia) Hds). lia. }
  assert (Hchk : forall x, 0 <= x -> checked_i128 x = if x <=? I128_MAX then Some x else None).
  { intros x Hx. unfold checked_i128. rewrite (proj2 (Z.leb_le I128_MIN x)); [done|].
    unfold I128_MIN. lia. }
  unfold push_digit at 2. cbn [mbind option_bind]. rewrite Hchk by lia.
  destruct (Z.leb_spec (u * 10) I128_MAX) as [Hle|Hgt]; cbn [mbind option_bind].
  - rewrite Hchk by lia. destruct (Z.leb_spec (u * 10 + digit_value c) I128_MAX) as [Hle2|Hgt2].
    + by apply IH; [lia|].
    + rewrite fold_digits_none. simpl. by rewrite Hov.
  - rewrite fold_digits_none. simpl. rewrite Hov by lia. done.
Qed.

Lemma trim_start_spec t : exists pre, t = pre ++ trim_start t /\ forallb is_whitespace pre = true.
Proof.
  induction t as [|c t (pre & Ht & Hp)]; [by exists []|]. simpl.
  destruct (is_whitespace c) eqn:Hc; [|by exists []]. exists (c :: pre). simpl. by rewrite Hc, <-Ht.
Qed.

Lemma forallb_rev {A} (f : A -> bool) l : forallb f (rev l) = forallb f l.
Proof.
  induction l as [|x l IH]; [done|]. simpl. rewrite forallb_app, IH. simpl.
  by rewrite andb_true_r, andb_comm.
Qed.

Lemma trim_spec t : exists pre post,
  t = pre ++ trim t ++ post /\ forallb is_whitespace pre = true /\ forallb is_whitespace post = true.
Proof.
  destruct (trim_start_spec t) as (pre & Ht & Hpre).
  destruct (trim_start_spec (rev (trim_start t))) as (post & Hr & Hpost).
  exists pre, (rev post). split_and!; [|done|by rewrite forallb_rev].
  unfold trim. rewrite <-rev_app_distr, <-Hr, rev_involutive. done.
Qed.

Lemma trim_start_ws pre t : forallb is_whitespace pre = true -> trim_start (pre ++ t) = trim_start t.
Proof. induction pre as [|c pre IH]; [done|]. simpl. intros [-> Hp]%andb_true_iff. auto. Qed.

(** The ends of [t] are no spaces. *)
Definition tight (t : text) : Prop :=
  (forall c, head t = Some c -> is_whitespace c = false) /\
  (forall c, head (rev t) = Some c -> is_whitespace c = false).

Lemma trim_start_tight t : (forall c, head t = Some c -> is_whitespace c = false) -> trim_start t = t.
Proof. destruct t as [|c t]; [done|]. intros H. simpl. by rewrite (H c eq_refl). Qed.

Lemma trim_tight pre t post :
  forallb is_whitespace pre = true -> forallb is_whitespace post = true -> tight t ->
  t <> [] -> trim (pre ++ t ++ post) = t.
Proof.
  intros Hpre Hpost [Hh Hl] Hne. unfold trim. rewrite trim_start_ws by done.
  rewrite (trim_start_tight (t ++ post)) by (destruct t; [done|]; exact Hh).
  rewrite rev_app_distr, trim_start_ws by by rewrite forallb_rev.
  by rewrite trim_start_tight, rev_involutive.
Qed.

Lemma split_once_Some t i f : split_once t = Some (i, f) -> t = i ++ "."%char :: f.
Proof.
  revert i f. induction t as [|c t IH]; intros i f; [done|]. simpl. case_bool_decide as Hc.
  - intros [= <- <-]. by subst.
  - destruct (split_once t) as [[i' f']|]; [|done]. simpl. intros [= <- <-]. simpl. f_equal. by apply IH.
Qed.

Lemma digit_not_dot c : is_ascii_digit c = true -> c <> "."%char.
Proof. intros H ->. discriminate H. Qed.

Lemma split_once_digits int rest :
  forallb is_ascii_digit int = true ->
  split_once (int ++ rest) = '(i, f) ← split_once rest; Some (int ++ i, f).
Proof.
  induction int as [|c int IH]; simpl; [by destruct (split_once rest) as [[]|]|].
  intros [Hc Hi]%andb_true_iff. rewrite bool_decide_eq_false_2 by by apply digit_not_dot.
  rewrite IH by done. by destruct (split_once rest) as [[]|].
Qed.

Lemma split_sign_spec t negative unsigned :
  split_sign t = (negative, unsigned) ->
  exists sign, t = sign ++ unsigned /\ (sign = [] \/ sign = ["+"%char] \/ sign = ["-"%char]) /\
    negative = bool_decide (sign = ["-"%char]).
Proof.
  unfold split_sign. destruct t as [|c t].
  - intros [= <- <-]. exists []. split_and!; [done|by left|done].
  - destruct (decide (c = "-"%char)) as [->|Hm].
    { intros [= <- <-]. exists ["-"%char]. split_and!; [done|by right; right|done]. }
    destruct (decide (c = "+"%char)) as [->|Hp].
    { intros [= <- <-]. exists ["+"%char]. split_and!; [done|by right; left|done]. }
    intros H. exists []. split_and!; [|by left|].
    + destruct c as [[] [] [] [] [] [] [] []]; simpl in *; congruence.
    + rewrite bool_decide_eq_false_2 by done. destruct c as [[] [] [] [] [] [] [] []]; simpl in *; congruence.
Qed.

(** The part of the parser after the sign. *)
Lemma parse_unsigned int point frac :
  forallb is_ascii_digit int = true -> (point = ["."%char] \/ (point = [] /\ frac = [])) ->
  match split_once (int ++ point ++ frac) with Some p => p | None => (int ++ point ++ frac, []) end
    = (int, frac).
Proof.
  intros Hi Hp. rewrite split_once_digits by done. destruct Hp as [->|[-> ->]]; simpl.
  - by rewrite app_nil_r.
  - by rewrite app_nil_r.
Qed.

Lemma parse_decimal_sound t u s : parse_decimal_text t = Some (u, s) -> decimal_text t u s.
Proof.
  unfold parse_decimal_text. case_bool_decide as Ht; [done|].
  destruct (split_sign (trim t)) as [negative unsigned] eqn:Hsign.
  destruct (bool_decide _ || _) eqn:Hlen; [done|].
  destruct (match split_once unsigned with Some p => p | None => (unsigned, []) end) as [int frac] eqn:Hsplit.
  destruct (bool_decide (int = []) && _) eqn:Hne; [done|].
  destruct (negb _ || _) eqn:Hdig; [done|]. destruct (I8_MAX <? _); [done|].
  destruct (fold_left _ _ _) as [v|] eqn:Hfold; [|done]. simpl. intros [= <- <-].
  apply orb_false_iff in Hlen as [_ Hlen%Z.ltb_ge].
  apply orb_false_iff in Hdig as [Hi%negb_false_iff Hf%negb_false_iff].
  destruct (split_sign_spec _ _ _ Hsign) as (sign & Htrim & Hs & ->).
  destruct (trim_spec t) as (pre & post & Hpre & Hw1 & Hw2).
  assert (Hun : exists point, unsigned = int ++ point ++ frac /\
            (point = ["."%char] \/ (point = [] /\ frac = []))).
  { destruct (split_once unsigned) as [p|] eqn:Ho.
    - subst p. exists ["."%char]. split; [by apply split_once_Some|by left].
    - injection Hsplit as <- <-. exists []. split; [by rewrite app_nil_r|by right]. }
  destruct Hun as (point & -> & Hpt). rewrite Htrim in Hpre.
  rewrite fold_digits_spec in Hfold; [|unfold I128_MAX; lia|by rewrite forallb_app, Hi, Hf].
  destruct (Z.leb_spec (fold_left (fun u c => u * 10 + digit_value c) (int ++ frac) 0) I128_MAX); [|done].
  injection Hfold as <-.
  exists pre, post, sign, int, point, frac. split_and!; try done.
  intros Happ. apply app_nil in Happ as [-> ->]. done.
Qed.

Lemma parse_decimal_complete t u s : decimal_text t u s -> parse_decimal_text t = Some (u, s).
Proof.
  intros (pre & post & sign & int & point & frac & -> & Hpre & Hpost & Hsign & Hpt & Hi & Hf & Hne & Hlen & Hmax & -> & ->).
  assert (Hdw : forall c, is_ascii_digit c = true -> is_whitespace c = false).
  { intros c. unfold is_ascii_digit, is_whitespace. intros [?%N.leb_le ?%N.leb_le]%andb_true_iff.
    apply orb_false_iff. rewrite andb_false_iff, !N.leb_gt, N.eqb_neq. lia. }
  assert (Hws : forall c, c ∈ sign ++ int ++ point ++ frac -> is_whitespace c = false).
  { rewrite forallb_forall in Hi, Hf. intros c. rewrite !elem_of_app, !list_elem_of_In.
    intros [Hc|[Hc|[Hc|Hc]]]; [| |destruct Hpt as [->|[-> _]]|]; auto.
    - destruct Hsign as [->|[->| ->]]; simpl in Hc; try done; destruct Hc as [<-|[]]; done.
    - simpl in Hc. by destruct Hc as [<-|[]]. }
  assert (Hbody : sign ++ int ++ point ++ frac <> []).
  { intros [_ [-> [_ ->]%app_nil]%app_nil]%app_nil. done. }
  unfold parse_decimal_text. rewrite trim_tight; [|done|done| |done].
  2: { split; intros c Hc; apply Hws; apply head_Some_elem_of in Hc; [done|].
       by rewrite list_elem_of_In, <-in_rev, <-list_elem_of_In in Hc. }
  rewrite bool_decide_eq_false_2 by done.
  assert (Hss : split_sign (sign ++ int ++ point ++ frac) =
            (bool_decide (sign = ["-"%char]), int ++ point ++ frac)).
  { destruct Hsign as [->|[->| ->]]; [|done..]. simpl.
    destruct (int ++ point ++ frac) as [|c rest] eqn:He; [done|].
    assert (Hc : c <> "-"%char /\ c <> "+"%char).
    { destruct int as [|c' int]; simpl in He.
      - destruct Hpt as [->|[-> ->]]; [|done]. simpl in He. by injection He as <- <-.
      - injection He as -> _. simpl in Hi. apply andb_true_iff in Hi as [Hc _].
        split; intros ->; discriminate Hc. }
    destruct Hc as [Hm Hp]. unfold split_sign.
    destruct c as [[] [] [] [] [] [] [] []]; try done. }
  rewrite Hss. rewrite bool_decide_eq_false_2.
  2: { intros [-> [_ ->]%app_nil]%app_nil. done. }
  rewrite (proj2 (Z.ltb_ge 40 _)) by done. simpl orb. cbv iota.
  rewrite parse_unsigned by done.
  replace (bool_decide (int = []) && bool_decide (frac = [])) with false.
  2: { symmetry. apply andb_false_iff. rewrite !bool_decide_eq_false.
       destruct int; [right; by intros ->|by left]. }
  rewrite Hi, Hf. simpl orb. cbv iota.
  rewrite (proj2 (Z.ltb_ge I8_MAX _)).
  2: { rewrite !length_app in Hlen. unfold I8_MAX. lia. }
  rewrite fold_digits_spec; [|unfold I128_MAX; lia|by rewrite forallb_app, Hi, Hf].
  unfold digits_value in Hmax. rewrite (proj2 (Z.leb_le _ _)) by done. done.
Qed.

(** The literal grammar: the parser returns [(u, s)] exactly for the texts of at most
    40 characters, spaces around and one sign aside, that write the number [u / 10^s]
    in plain decimal digits with [u] in range; every other text is refused. *)
Theorem parse_decimal_text_exact t u s : parse_decimal_text t = Some (u, s) <-> decimal_text t u s.
Proof. split; [apply parse_decimal_sound|apply parse_decimal_complete]. Qed.

(** ** Payloads *)

Lemma payload_roundtrip x : i128 x -> decimal_payload_to_i128 (i128_to_le_bytes x) = Some x.
Proof.
  unfold i128, I128_MIN, I128_MAX. intros Hx. unfold decimal_payload_to_i128, i128_to_le_bytes.
  rewrite le_bytes_length. cbn [Nat.eqb negb]. f_equal. unfold i128_from_le_bytes.
  rewrite le_bytes_value_le by (change (256 ^ Z.of_nat 16) with (2 ^ 128); apply Z.mod_pos_bound; lia).
  destruct (Z_lt_le_dec x 0) as [Hneg|Hpos].
  - replace (x mod 2 ^ 128) with (x + 2 ^ 128).
    + destruct (Z.ltb_spec (x + 2 ^ 128) (2 ^ 127)); lia.
    + symmetry. rewrite <-(Z.mod_add x 1) by lia. rewrite Z.mul_1_l. apply Z.mod_small. lia.
  - rewrite Z.mod_small by lia. destruct (Z.ltb_spec x (2 ^ 127)); lia.
Qed.

(** The payload round trip: a column of 128-bit decimals that leaves the engine as
    16-byte little-endian payloads is read back unchanged, nulls and negative values
    included. *)
Theorem decimal_payload_roundtrip (l : list (option Z)) :
  Forall (fun x => forall v, x = Some v -> i128 v) l ->
  decimal_column_values (decimal_column_to_payload (DecDecimal128 l)) = Some l.
Proof.
  intros Hl. simpl. f_equal. induction Hl as [|x l Hx _ IH]; [done|]. rewrite !fmap_cons, IH. f_equal.
  destruct x as [v|]; [|done]. by apply payload_roundtrip, Hx.
Qed.

Lemma decimal_payload_roundtrip_witness :
  decimal_column_values (decimal_column_to_payload (DecDecimal128 [Some (-700); None; Some 123]))
    = Some [Some (-700); None; Some 123].
Proof.
  apply decimal_payload_roundtrip. repeat apply List.Forall_cons; [..|apply List.Forall_nil];
    intros v Hv; simplify_eq; unfold i128, I128_MIN, I128_MAX; lia.
Defined.

(** ** Masks have SQL semantics *)

(** The comparison of two decimals, as an operator on rationals. *)
Definition rational_op (op : BinaryOperator) (a a_scale b b_scale : Z) : bool :=
  let s := Z.max a_scale b_scale in
  let p := a * 10 ^ (s - a_scale) in
  let q := b * 10 ^ (s - b_scale) in
  match op with
  | OpEq => p =? q
  | OpNotEq => negb (p =? q)
  | OpLt => p <? q
  | OpLe => p <=? q
  | OpGt => q <? p
  | OpGe => q <=? p
  | _ => false
  end.

Definition is_comparison (op : BinaryOperator) : bool :=
  match op with OpEq | OpNotEq | OpLt | OpLe | OpGt | OpGe => true | _ => false end.

Lemma matches_rational op a sa b sb :
  i128 a -> i128 b -> i8 sa -> i8 sb ->
  cmp_decimal_matches op (cmp_decimal a sa b sb) = rational_op op a sa b sb.
Proof.
  intros. rewrite cmp_decimal_spec by done. unfold dec_compare, rational_op. simpl.
  generalize (a * 10 ^ (Z.max sa sb - sa)) (b * 10 ^ (Z.max sa sb - sb)). intros p q.
  destruct op; simpl; unfold Z.ltb, Z.leb; rewrite ?(Z.compare_antisym p q);
    destruct (Z.compare_spec p q) as [->|Hlt|Hgt]; simpl; rewrite ?Z.eqb_refl; try done;
    symmetry; rewrite ?negb_true_iff; apply Z.eqb_neq; lia.
Qed.

Lemma flip_rational op op' a sa b sb :
  flip_comparison op = Some op' -> rational_op op' a sa b sb = rational_op op b sb a sa.
Proof.
  intros Hf. unfold rational_op. rewrite (Z.max_comm sb sa).
  destruct op; simplify_eq/=; rewrite ?(Z.eqb_sym (b * _)); done.
Qed.

Section mask_theory.
Context {J Sel : Type} (format_f64 : Z -> text).
Context (cell : Hints) (column_by_name : string -> option DecimalArray).
Implicit Types (v : Value J) (op : BinaryOperator).

Definition values_ok (values : list (option Z)) : Prop :=
  Forall (fun x => forall y, x = Some y -> i128 y) values.

(** A column the current statement knows as DECIMAL with this scale and these values. *)
Definition decimal_column_is (column : string) (scale : Z) (values : list (option Z)) : Prop :=
  decimal_column cell column_by_name column = Some (scale, values) /\ i8 scale /\ values_ok values.

Definition literal_is v (u s : Z) : Prop := decimal_literal_parts format_f64 v = Some (u, s) /\ i128 u /\ i8 s.

Lemma fmap_values_ext {B} (f g : option Z -> option B) values :
  values_ok values -> f None = g None -> (forall x, i128 x -> f (Some x) = g (Some x)) ->
  f <$> values = g <$> values.
Proof.
  intros Hv Hn Hs. induction Hv as [|x l Hx _ IH]; [done|]. rewrite !fmap_cons, IH. f_equal.
  destruct x as [x|]; [|done]. by apply Hs, Hx.
Qed.

(** Comparison predicates on DECIMAL columns follow SQL: a row of the mask is NULL
    exactly where the column is, and otherwise the exact comparison with the literal,
    whichever side the literal is on; a literal that is no number is an error. *)
Theorem decimal_comparison_sql column scale values op v u s :
  decimal_column_is column scale values -> literal_is v u s -> is_comparison op = true ->
  decimal_comparison_mask (Sel := Sel) format_f64 cell column_by_name (EColumn column) op (ELiteral v) =
    Ok (Some ((fun x : option Z => y ← x; Some (rational_op op y scale u s)) <$> values)) /\
  decimal_comparison_mask (Sel := Sel) format_f64 cell column_by_name (ELiteral v) op (EColumn column) =
    Ok (Some ((fun x : option Z => y ← x; Some (rational_op op u s y scale)) <$> values)) /\
  (forall v', decimal_literal_parts format_f64 v' = None ->
     decimal_comparison_mask (Sel := Sel) format_f64 cell column_by_name (EColumn column) op (ELiteral v') =
       Err InvalidInput).
Proof.
  intros (Hc & Hs & Hv) (Hl & Hu & Hls) Hop. simpl. unfold decimal_literal_mask. rewrite Hc, Hl.
  split_and!.
  - do 2 f_equal. apply fmap_values_ext; [done..|]. intros y Hy. simpl. by rewrite matches_rational.
  - assert (Hf : exists op', flip_comparison op = Some op') by (destruct op; try discriminate Hop; by eexists).
    destruct Hf as [op' Hf]. rewrite Hf. do 2 f_equal. apply fmap_values_ext; [done..|].
    intros y Hy. simpl. rewrite matches_rational by done. by rewrite (flip_rational op op').
  - intros v' ->. done.
Qed.

(** Three-valued logic. *)
Definition or3 (a b : option bool) : option bool :=
  match a, b with
  | Some true, _ | _, Some true => Some true
  | Some false, Some false => Some false
  | _, _ => None
  end.

Definition literal_eq3 (scale y : Z) v : option bool :=
  match v with
  | VNull => None
  | _ => '(u, s) ← decimal_literal_parts format_f64 v; Some (rational_op OpEq y scale u s)
  end.

(** [y IN (vs)] as the disjunction of its equalities. *)
Definition in3 (scale y : Z) (vs : list (Value J)) : option bool :=
  fold_right (fun v acc => or3 (literal_eq3 scale y v) acc) (Some false) vs.

Lemma cmp_eq_rational y scale u s :
  i128 y -> i128 u -> i8 scale -> i8 s ->
  bool_decide (cmp_decimal y scale u s = Eq) = rational_op OpEq y scale u s.
Proof.
  intros. rewrite <-(matches_rational OpEq) by done. simpl. by destruct (cmp_decimal _ _ _ _).
Qed.

Lemma in_cell_in3 scale y vs literals has_null negated :
  i8 scale -> i128 y ->
  Forall (fun v => v = VNull \/ exists u s, literal_is v u s) vs ->
  in_literals format_f64 vs = Some (literals, has_null) ->
  in_cell scale literals has_null negated y =
    (if negated then fmap negb (in3 scale y vs) else in3 scale y vs).
Proof.
  intros Hs Hy Hvs Hin.
  assert (Hin3 : in3 scale y vs =
    if existsb (fun l => bool_decide (cmp_decimal y scale l.1 l.2 = Eq)) literals then Some true
    else if has_null then None else Some false).
  { revert literals has_null Hin. induction Hvs as [|v vs Hv _ IH]; intros literals has_null Hin.
    - simpl in Hin. by simplify_eq.
    - destruct Hv as [->|(u & s & Hl & Hu & Hls)].
      + simpl in Hin. destruct (in_literals format_f64 vs) as [[ls n]|]; [|done]. simpl in Hin. simplify_eq.
        simpl. rewrite (IH _ _ eq_refl). by destruct (existsb _ _), n.
      + assert (Hcons : in_literals format_f64 (v :: vs) =
          (parts ← decimal_literal_parts format_f64 v;
           '(literals, has_null) ← in_literals format_f64 vs; Some (parts :: literals, has_null))) by by destruct v.
        assert (Heq3 : literal_eq3 scale y v = Some (rational_op OpEq y scale u s)).
        { unfold literal_eq3. rewrite Hl. by destruct v. }
        rewrite Hcons, Hl in Hin. simpl in Hin.
        destruct (in_literals format_f64 vs) as [[ls n]|]; [|done]. simpl in Hin. simplify_eq.
        cbn [in3 fold_right existsb fst snd]. fold (in3 scale y vs).
        rewrite Heq3, (IH _ _ eq_refl), cmp_eq_rational by done.
        by destruct (rational_op _ _ _ _ _), (existsb _ _), has_null. }
  rewrite Hin3. unfold in_cell. by destruct (existsb _ _), has_null, negated.
Qed.

(** IN lists on DECIMAL columns follow three-valued logic: [IN] is the disjunction
    of the exact equalities, a NULL in the list counting as unknown, [NOT IN] its
    negation, and NULL rows stay NULL. *)
Theorem decimal_in_sql column scale values vs negated :
  decimal_column_is column scale values ->
  Forall (fun v => v = VNull \/ exists u s, literal_is v u s) vs ->
  decimal_in_mask format_f64 cell column_by_name column vs negated =
    Ok (Some ((fun x : option Z => y ← x;
      if negated then fmap negb (in3 scale y vs) else in3 scale y vs) <$> values)).
Proof.
  intros (Hc & Hs & Hv) Hvs. unfold decimal_in_mask. rewrite Hc.
  destruct (in_literals format_f64 vs) as [[literals has_null]|] eqn:Hin.
  - do 2 f_equal. apply fmap_values_ext; [done..|]. intros y Hy. simpl. by apply in_cell_in3.
  - exfalso. clear -Hvs Hin. induction Hvs as [|v vs Hv _ IH]; [done|].
    destruct Hv as [->|(u & s & Hl & _)]; simpl in Hin.
    + destruct (in_literals format_f64 vs) as [[]|]; [done|by apply IH].
    + assert (Hcons : in_literals format_f64 (v :: vs) =
          (parts ← decimal_literal_parts format_f64 v;
           '(literals, has_null) ← in_literals format_f64 vs; Some (parts :: literals, has_null))) by by destruct v.
      simpl in Hcons. rewrite Hcons, Hl in Hin. simpl in Hin.
      destruct (in_literals format_f64 vs) as [[]|]; [done|by apply IH].
Qed.

(** [BETWEEN] on DECIMAL columns is the conjunction of its two exact comparisons, and
    NULL rows stay NULL; a NULL bound, which [=] and [IN] take as unknown, is an error. *)
Theorem decimal_between_sql column scale values low high l ls h hs negated :
  decimal_column_is column scale values -> literal_is low l ls -> literal_is high h hs ->
  decimal_between_mask (Sel := Sel) format_f64 cell column_by_name column (ELiteral low) (ELiteral high) negated =
    Ok (Some ((fun x : option Z => y ← x;
      Some (xorb negated (rational_op OpGe y scale l ls && rational_op OpLe y scale h hs))) <$> values)) /\
  decimal_between_mask (Sel := Sel) format_f64 cell column_by_name column (ELiteral VNull) (ELiteral high) negated =
    Err InvalidInput.
Proof.
  intros (Hc & Hs & Hv) (Hl & Hlu & Hls) (Hh & Hhu & Hhs). unfold decimal_between_mask. rewrite Hc, Hl, Hh.
  split; [|done]. do 2 f_equal. apply fmap_values_ext; [done..|]. intros y Hy.
  change (Some (between scale (l, ls) (h, hs) negated y) =
    Some (xorb negated (rational_op OpGe y scale l ls && rational_op OpLe y scale h hs))).
  f_equal. unfold between. cbn [fst snd].
  rewrite <-(matches_rational OpGe), <-(matches_rational OpLe) by done. cbn [cmp_decimal_matches].
  by destruct (cmp_decimal y scale l ls), (cmp_decimal y scale h hs), negated.
Qed.
End mask_theory.

(** *** Witnesses *)

Definition demo_hints : Hints := Some {["price"%string := 2]}.

Definition demo_columns (name : string) : option DecimalArray :=
  if bool_decide (name = "price"%string) then Some (DecDecimal128 [Some 123; None; Some (-700)]) else None.

Definition no_format (bits : Z) : text := [].

Lemma demo_column_is :
  decimal_column_is demo_hints demo_columns "t.price" 2 [Some 123; None; Some (-700)].
Proof.
  split_and!; [vm_compute; reflexivity|unfold i8; lia|]. repeat apply List.Forall_cons; [..|apply List.Forall_nil];
    intros v Hv; simplify_eq; unfold i128, I128_MIN, I128_MAX; lia.
Qed.

Lemma demo_literal : literal_is (J := unit) no_format (VString " +1.230 ") 1230 3.
Proof. split_and!; [vm_compute; reflexivity|unfold i128, I128_MIN, I128_MAX; lia|unfold i8; lia]. Qed.

Lemma decimal_comparison_sql_witness :
  decimal_comparison_mask (J := unit) (Sel := unit) no_format demo_hints demo_columns
    (ELiteral (VString " +1.230 ")) OpGt (EColumn "t.price") = Ok (Some [Some false; None; Some true]).
Proof.
  destruct (decimal_comparison_sql (Sel := unit) no_format demo_hints demo_columns "t.price" 2 _ OpGt _ 1230 3
              demo_column_is demo_literal eq_refl) as (_ & H & _).
  rewrite H. vm_compute. reflexivity.
Defined.

Lemma decimal_in_sql_witness :
  decimal_in_mask (J := unit) no_format demo_hints demo_columns "t.price" [VString " +1.230 "; VNull] true
    = Ok (Some [Some false; None; None]).
Proof.
  rewrite (decimal_in_sql no_format demo_hints demo_columns "t.price" 2 _ [VString " +1.230 "; VNull] true
             demo_column_is).
  - vm_compute. reflexivity.
  - repeat apply List.Forall_cons; [right; exists 1230, 3; exact demo_literal|by left|apply List.Forall_nil].
Defined.

Lemma decimal_between_sql_witness :
  decimal_between_mask (J := unit) (Sel := unit) no_format demo_hints demo_columns "t.price"
    (ELiteral (VString " +1.230 ")) (ELiteral (VString " +1.230 ")) false
    = Ok (Some [Some true; None; Some false]).
Proof.
  destruct (decimal_between_sql (Sel := unit) no_format demo_hints demo_columns "t.price" 2 _ _ _ 1230 3 1230 3 false
              demo_column_is demo_literal demo_literal) as [H _].
  rewrite H. vm_compute. reflexivity.
Defined.

(** ** Scales are scoped to the statement *)

(** A statement: what its table yields, and the statements nested in it. *)
Inductive stmt :=
| Stmt (built : option ScaleMap) (nested : list stmt).

(** Running a statement: the map each statement's kernels consult, in order, and the map
    left behind. *)
Fixpoint run_stmt (s : stmt) (cell : Hints) : list Hints * Hints :=
  match s with
  | Stmt built nested =>
      let '(guard, cell1) := install_decimal_hints built cell in
      let '(seen, cell2) :=
        (fix run_all (l : list stmt) (cell : Hints) : list Hints * Hints :=
           match l with
           | [] => ([], cell)
           | s :: l =>
               let '(seen, cell) := run_stmt s cell in
               let '(rest, cell) := run_all l cell in (seen ++ rest, cell)
           end) nested cell1 in
      (cell1 :: seen, DecimalHintGuard_drop guard cell2)
  end.

(** The map a statement should consult: its own, or the enclosing one's when its table
    has no DECIMAL column. *)
Fixpoint visible (s : stmt) (enclosing : Hints) : list Hints :=
  match s with
  | Stmt built nested =>
      let mine := match built with Some hints => Some hints | None => enclosing end in
      mine :: concat (List.map (fun s => visible s mine) nested)
  end.

(** Scales are scoped: whatever the nesting of statements, each consults its own map
    if its table has DECIMAL columns and otherwise the enclosing statement's, and
    the map in force before a statement is restored after it. *)
Theorem scales_are_scoped (s : stmt) (cell : Hints) : run_stmt s cell = (visible s cell, cell).
Proof.
  revert s cell. fix IH 1. intros [built nested] cell. simpl.
  assert (Hall : forall cell1,
    (fix run_all (l : list stmt) (cell : Hints) : list Hints * Hints :=
       match l with
       | [] => ([], cell)
       | s :: l =>
           let '(seen, cell) := run_stmt s cell in
           let '(rest, cell) := run_all l cell in (seen ++ rest, cell)
       end) nested cell1 = (concat (List.map (fun s => visible s cell1) nested), cell1)).
  { induction nested as [|s nested IHn]; intros cell1; [done|]. rewrite IH, IHn. done. }
  destruct built as [hints|]; simpl; by rewrite Hall.
Qed.
