(* ===== verification/SqlLexer.v ===== *)
(** * The SQL tokenizer ([query/sql_parser.rs], [SqlParser::tokenize])

    The text is a list of bytes; each scanner returns what it consumed and the rest, so
    a token's span is the position it starts at and the number of bytes consumed.
    Error messages are reduced to the kind of error and its position. *)
From Stdlib Require Import Ascii.
From S2P Require Import Prelude Float Values Decimal.
Local Open Scope char_scope.
Local Open Scope Z_scope.

(** ** Tokens *)

Inductive Token :=
| TkSelect | TkFrom | TkWhere | TkAnd | TkOr | TkNot | TkAs | TkDistinct | TkOrder | TkBy
| TkAsc | TkDesc | TkLimit | TkOffset | TkNulls | TkFirst | TkLast | TkLike | TkIn
| TkBetween | TkIs | TkNull | TkGroup | TkHaving | TkCount | TkSum | TkAvg | TkMin | TkMax
| TkTrue | TkFalse | TkRegexp | TkOver | TkPartition | TkJoin | TkLeft | TkRight | TkFull
| TkInner | TkOuter | TkCross | TkOn | TkUnion | TkIntersect | TkExcept | TkAll | TkExists
| TkCast | TkCase | TkWhen | TkThen | TkElse | TkEnd | TkCreate | TkDrop | TkView | TkTable
| TkAlter | TkAdd | TkColumn | TkRename | TkTo | TkIf | TkTruncate | TkIndex | TkUnique
| TkUsing | TkInsert | TkInto | TkValues | TkDelete | TkUpdate | TkSet
| TkVariable (s : string) | TkBegin | TkCommit | TkRollback | TkTransaction | TkRead
| TkExclude | TkReplace | TkColumnsKw | TkWith | TkExplain | TkRecursive | TkStar | TkComma
| TkDot | TkLParen | TkRParen | TkSemicolon | TkEq | TkNotEq | TkLt | TkLe | TkGt | TkGe
| TkPlus | TkMinus | TkSlash | TkPercent | TkLBracket | TkRBracket
| TkIdentifier (s : string) | TkStringLit (s : string) | TkIntLit (n : Z)
| TkFloatLit (bits : Z) | TkEof.


#[global] Instance Token_eq_dec : EqDecision Token.
Proof. solve_decision. Defined.

Record SpannedToken := mkSpanned { st_token : Token; st_start : Z; st_end : Z }.

(** What [tokenize] reports. *)
Inductive LexError :=
| UnterminatedComment
| UnterminatedQuotedIdentifier (at_byte : Z)
| UnterminatedString (at_byte : Z)
| InvalidNumber (at_byte : Z)
| UnexpectedCharacter (at_byte : Z).

(** ** Numbers *)

(** [m * 10^e] *)
Definition f64_of_decimal (m e : Z) : Z :=
  if m =? 0 then 0
  else if 0 <=? e then f64_of_ratio (m * 10 ^ e) 1 else f64_of_ratio m (10 ^ (- e)).

Fixpoint span_while (p : ascii -> bool) (s : text) : text * text :=
  match s with
  | c :: s' => if p c then let (w, rest) := span_while p s' in (c :: w, rest) else ([], s)
  | [] => ([], [])
  end.

(** [str::parse::<f64>] on the numbers the scanner accepts: digits, a fraction and an
    exponent, without a sign. *)
Definition parse_f64 (s : text) : Z :=
  let (int, s) := span_while is_ascii_digit s in
  let (frac, s) := match s with
                   | "." :: s => span_while is_ascii_digit s
                   | _ => ([], s)
                   end in
  let e := match s with
           | _ :: "-" :: ds => - digits_value ds
           | _ :: "+" :: ds => digits_value ds
           | _ :: ds => digits_value ds
           | [] => 0
           end in
  f64_of_decimal (digits_value (int ++ frac)) (e - Z.of_nat (length frac)).

(** [str::parse::<i64>] on digits. *)
Definition parse_i64 (s : text) : option Z :=
  let n := digits_value s in if n <=? I64_MAX then Some n else None.

Definition starts_digit (s : text) : bool :=
  match s with d :: _ => is_ascii_digit d | [] => false end.

(** Digits, one point, and underscores that a digit follows. *)
Fixpoint scan_number (has_dot : bool) (s : text) : text * bool * text :=
  match s with
  | b :: rest =>
      if is_ascii_digit b || (negb has_dot && bool_decide (b = ".")) then
        let '(w, d, s') := scan_number (has_dot || bool_decide (b = ".")) rest in (b :: w, d, s')
      else if bool_decide (b = "_") && starts_digit rest then
        let '(w, d, s') := scan_number has_dot rest in (b :: w, d, s')
      else ([], has_dot, s)
  | [] => ([], has_dot, [])
  end.

Fixpoint scan_exponent_digits (s : text) : text * text :=
  match s with
  | b :: rest =>
      if is_ascii_digit b || (bool_decide (b = "_") && starts_digit rest) then
        let (w, s') := scan_exponent_digits rest in (b :: w, s')
      else ([], s)
  | [] => ([], [])
  end.

(** The exponent, when there is one with a digit. *)
Definition scan_exponent (s : text) : option (text * text) :=
  match s with
  | e :: s1 =>
      if bool_decide (e = "e") || bool_decide (e = "E") then
        let (sign, s2) := match s1 with
                          | c :: s2 => if bool_decide (c = "+") || bool_decide (c = "-")
                                       then ([c], s2) else ([], s1)
                          | [] => ([], s1)
                          end in
        match scan_exponent_digits s2 with
        | ([], _) => None
        | (ds, rest) => Some (e :: sign ++ ds, rest)
        end
      else None
  | [] => None
  end.

(** ** Words *)

Definition is_ascii_alphabetic (c : ascii) : bool :=
  let n := N_of_ascii c in ((65 <=? n) && (n <=? 90) || (97 <=? n) && (n <=? 122))%N.

Definition word_start (c : ascii) : bool := is_ascii_alphabetic c || bool_decide (c = "_").
Definition word_byte (c : ascii) : bool := is_ascii_alphabetic c || is_ascii_digit c || bool_decide (c = "_").

(** [std::mem::discriminant] *)
Definition Token_discriminant (t : Token) : Z :=
  match t with
  | TkSelect => 0 | TkFrom => 1 | TkWhere => 2 | TkAnd => 3 | TkOr => 4 | TkNot => 5
  | TkAs => 6 | TkDistinct => 7 | TkOrder => 8 | TkBy => 9 | TkAsc => 10 | TkDesc => 11
  | TkLimit => 12 | TkOffset => 13 | TkNulls => 14 | TkFirst => 15 | TkLast => 16
  | TkLike => 17 | TkIn => 18 | TkBetween => 19 | TkIs => 20 | TkNull => 21 | TkGroup => 22
  | TkHaving => 23 | TkCount => 24 | TkSum => 25 | TkAvg => 26 | TkMin => 27 | TkMax => 28
  | TkTrue => 29 | TkFalse => 30 | TkRegexp => 31 | TkOver => 32 | TkPartition => 33
  | TkJoin => 34 | TkLeft => 35 | TkRight => 36 | TkFull => 37 | TkInner => 38
  | TkOuter => 39 | TkCross => 40 | TkOn => 41 | TkUnion => 42 | TkIntersect => 43
  | TkExcept => 44 | TkAll => 45 | TkExists => 46 | TkCast => 47 | TkCase => 48
  | TkWhen => 49 | TkThen => 50 | TkElse => 51 | TkEnd => 52 | TkCreate => 53 | TkDrop => 54
  | TkView => 55 | TkTable => 56 | TkAlter => 57 | TkAdd => 58 | TkColumn => 59
  | TkRename => 60 | TkTo => 61 | TkIf => 62 | TkTruncate => 63 | TkIndex => 64
  | TkUnique => 65 | TkUsing => 66 | TkInsert => 67 | TkInto => 68 | TkValues => 69
  | TkDelete => 70 | TkUpdate => 71 | TkSet => 72 | TkVariable _ => 73 | TkBegin => 74
  | TkCommit => 75 | TkRollback => 76 | TkTransaction => 77 | TkRead => 78 | TkExclude => 79
  | TkReplace => 80 | TkColumnsKw => 81 | TkWith => 82 | TkExplain => 83 | TkRecursive => 84
  | TkStar => 85 | TkComma => 86 | TkDot => 87 | TkLParen => 88 | TkRParen => 89
  | TkSemicolon => 90 | TkEq => 91 | TkNotEq => 92 | TkLt => 93 | TkLe => 94 | TkGt => 95
  | TkGe => 96 | TkPlus => 97 | TkMinus => 98 | TkSlash => 99 | TkPercent => 100
  | TkLBracket => 101 | TkRBracket => 102 | TkIdentifier _ => 103 | TkStringLit _ => 104
  | TkIntLit _ => 105 | TkFloatLit _ => 106 | TkEof => 107
  end.

(** The arms of the keyword [match], in order. *)
Definition keyword_arms : list (string * Token) :=
  [("SELECT", TkSelect); ("FROM", TkFrom); ("WHERE", TkWhere); ("AND", TkAnd); ("OR", TkOr);
   ("NOT", TkNot); ("AS", TkAs); ("DISTINCT", TkDistinct); ("ORDER", TkOrder); ("BY", TkBy);
   ("ASC", TkAsc); ("DESC", TkDesc); ("LIMIT", TkLimit); ("OFFSET", TkOffset);
   ("NULLS", TkNulls); ("FIRST", TkFirst); ("LAST", TkLast); ("LIKE", TkLike); ("IN", TkIn);
   ("BETWEEN", TkBetween); ("IS", TkIs); ("NULL", TkNull); ("GROUP", TkGroup);
   ("HAVING", TkHaving); ("COUNT", TkCount); ("SUM", TkSum); ("AVG", TkAvg);
   ("MIN", TkMin); ("MAX", TkMax); ("TRUE", TkTrue); ("FALSE", TkFalse);
   ("REGEXP", TkRegexp); ("RLIKE", TkRegexp); ("OVER", TkOver); ("PARTITION", TkPartition);
   ("JOIN", TkJoin); ("LEFT", TkLeft); ("RIGHT", TkRight); ("FULL", TkFull);
   ("INNER", TkInner); ("OUTER", TkOuter); ("CROSS", TkCross); ("ON", TkOn);
   ("UNION", TkUnion); ("INTERSECT", TkIntersect); ("EXCEPT", TkExcept); ("ALL", TkAll);
   ("EXISTS", TkExists); ("CAST", TkCast); ("CASE", TkCase); ("WHEN", TkWhen);
   ("THEN", TkThen); ("ELSE", TkElse); ("END", TkEnd); ("CREATE", TkCreate);
   ("DROP", TkDrop); ("VIEW", TkView); ("TABLE", TkTable); ("ALTER", TkAlter);
   ("ADD", TkAdd); ("COLUMN", TkColumn); ("RENAME", TkRename); ("TO", TkTo); ("IF", TkIf);
   ("TRUNCATE", TkTruncate); ("INDEX", TkIndex); ("UNIQUE", TkUnique); ("USING", TkUsing);
   ("INSERT", TkInsert); ("INTO", TkInto); ("VALUES", TkValues); ("DELETE", TkDelete);
   ("UPDATE", TkUpdate); ("SET", TkSet); ("BEGIN", TkBegin); ("COMMIT", TkCommit);
   ("ROLLBACK", TkRollback); ("TRANSACTION", TkTransaction); ("READ", TkRead);
   ("WITH", TkWith); ("EXPLAIN", TkExplain); ("RECURSIVE", TkRecursive);
   ("EXCLUDE", TkExclude); ("REPLACE", TkReplace); ("COLUMNS", TkColumnsKw)]%string.

(** The token of a word: the first 32 bytes in upper case select a keyword. *)
Definition word_token (word : text) : Token :=
  let upper := String.string_of_list_ascii (map ascii_upper (firstn 32 word)) in
  match List.find (fun arm => String.eqb upper (fst arm)) keyword_arms with
  | Some (_, t) => t
  | None => TkIdentifier (String.string_of_list_ascii word)
  end.

(** ** Quotes and comments *)

Definition byte_is (a c : ascii) : bool := Ascii.eqb c a.

(** The next byte, when there is one, is [a]. *)
Definition peek (a : ascii) (s : text) : bool := match s with c :: _ => byte_is a c | [] => false end.

Definition starts_word (s : text) : bool := match s with c :: _ => word_start c | [] => false end.

(** Everything up to a closing byte, which is dropped. *)
Fixpoint scan_until (q : ascii) (s : text) : option (text * text) :=
  match s with
  | c :: s => if byte_is q c then Some ([], s)
              else '(w, rest) ← scan_until q s; Some (c :: w, rest)
  | [] => None
  end.

(** A string literal after its opening quote: a doubled quote stands for one. *)
Fixpoint scan_string (s : text) : option (text * text) :=
  match s with
  | c :: s1 =>
      if byte_is "'" c then
        match s1 with
        | d :: s2 => if byte_is "'" d then '(w, rest) ← scan_string s2; Some (c :: w, rest)
                     else Some ([], s1)
        | [] => Some ([], [])
        end
      else '(w, rest) ← scan_string s1; Some (c :: w, rest)
  | [] => None
  end.

(** A line comment runs to the newline, which stays. *)
Fixpoint skip_line (s : text) : text :=
  match s with
  | c :: s' => if byte_is "010" c then s else skip_line s'
  | [] => []
  end.

(** A block comment runs to the first [*/]. *)
Fixpoint skip_block (s : text) : option text :=
  match s with
  | c :: s => if byte_is "*" c && peek "/" s then Some (tail s) else skip_block s
  | [] => None
  end.

(** [u8::is_ascii_whitespace] *)
Definition is_ascii_whitespace (c : ascii) : bool :=
  let n := N_of_ascii c in ((n =? 9) || (n =? 10) || (n =? 12) || (n =? 13) || (n =? 32))%N.

(** ** One turn of the loop *)

(** What the bytes at the cursor are: nothing to report, a token, or an error; with the
    unread rest.  [Stop] is the end of the text. *)
Inductive Lexeme :=
| Stop
| Skip (rest : text)
| Emit (t : Token) (rest : text)
| LexFail (e : LexError).

Definition single_char_token (c : ascii) : option Token :=
  match c with
  | "*" => Some TkStar
  | "," => Some TkComma
  | "." => Some TkDot
  | "(" => Some TkLParen
  | ")" => Some TkRParen
  | ";" => Some TkSemicolon
  | "+" => Some TkPlus
  | "-" => Some TkMinus
  | "/" => Some TkSlash
  | "%" => Some TkPercent
  | "[" => Some TkLBracket
  | "]" => Some TkRBracket
  | _ => None
  end.

Definition clean (s : text) : text := List.filter (fun c => negb (bool_decide (c = "_"))) s.

(** A number starting with the digit [c]. *)
Definition lex_number (i : Z) (c : ascii) (s : text) : Lexeme :=
  let '(w, has_dot, rest) := scan_number false s in
  match scan_exponent rest with
  | Some (e, rest) => Emit (TkFloatLit (parse_f64 (clean (c :: w ++ e)))) rest
  | None =>
      if has_dot then Emit (TkFloatLit (parse_f64 (clean (c :: w)))) rest
      else match parse_i64 (clean (c :: w)) with
           | Some n => Emit (TkIntLit n) rest
           | None => LexFail (InvalidNumber i)
           end
  end.

(** The turn of the loop at byte [i], where the unread bytes are [s].  The test for a
    number also admits a point before a digit, but a point has been taken by then. *)
Definition lexeme_at (i : Z) (s : text) : Lexeme :=
  match s with
  | [] => Stop
  | c :: s1 =>
      if is_ascii_whitespace c then Skip s1
      else if byte_is "-" c && peek "-" s1 then Skip (skip_line (tail s1))
      else if byte_is "/" c && peek "*" s1 then
        match skip_block (tail s1) with
        | Some rest => Skip rest
        | None => LexFail UnterminatedComment
        end
      else match single_char_token c with
      | Some t => Emit t s1
      | None =>
      if byte_is "=" c then Emit TkEq s1
      else if byte_is "034" c || byte_is "`" c then
        match scan_until c s1 with
        | Some (w, rest) => Emit (TkIdentifier (String.string_of_list_ascii w)) rest
        | None => LexFail (UnterminatedQuotedIdentifier i)
        end
      else if byte_is "'" c then
        match scan_string s1 with
        | Some (w, rest) => Emit (TkStringLit (String.string_of_list_ascii w)) rest
        | None => LexFail (UnterminatedString i)
        end
      else if byte_is "!" c && peek "=" s1 then Emit TkNotEq (tail s1)
      else if byte_is "<" c then
        if peek "=" s1 then Emit TkLe (tail s1)
        else if peek ">" s1 then Emit TkNotEq (tail s1)
        else Emit TkLt s1
      else if byte_is ">" c then
        if peek "=" s1 then Emit TkGe (tail s1) else Emit TkGt s1
      else if is_ascii_digit c then lex_number i c s1
      else if word_start c then
        let (w, rest) := span_while word_byte s1 in Emit (word_token (c :: w)) rest
      else if byte_is "$" c && starts_word s1 then
        let (w, rest) := span_while word_byte s1 in
        Emit (TkVariable (String.string_of_list_ascii w)) rest
      else LexFail (UnexpectedCharacter i)
      end
  end.

(** What [tokenize] returns; [Unfinished] when the fuel of the loop runs out. *)
Inductive Lexed :=
| Tokens (ts : list SpannedToken)
| LexErr (e : LexError)
| Unfinished.

Fixpoint tokenize_loop (fuel : nat) (i : Z) (s : text) (acc : list SpannedToken) : Lexed :=
  match fuel with
  | O => Unfinished
  | S fuel =>
      let next rest := i + Z.of_nat (length s) - Z.of_nat (length rest) in
      match lexeme_at i s with
      | Stop => Tokens (acc ++ [mkSpanned TkEof i i])
      | Skip rest => tokenize_loop fuel (next rest) rest acc
      | Emit t rest => tokenize_loop fuel (next rest) rest (acc ++ [mkSpanned t i (next rest)])
      | LexFail e => LexErr e
      end
  end.

(** Every turn consumes a byte, so the length of the text bounds the turns. *)
Definition tokenize (sql : string) : Lexed :=
  let s := String.list_ascii_of_string sql in tokenize_loop (S (length s)) 0 s [].

Definition tokens_of (r : Lexed) : option (list Token) :=
  match r with Tokens ts => Some (map st_token ts) | _ => None end.

(** ** The specification: spelling

    [spelled ts s] says that the text [s] writes the tokens [ts], in any spelling the
    language admits and with any white space and comments between them.  A token must
    not run into the text after it: [separates]. *)

(** The rest of an integer: digits, and underscores that a digit follows. *)
Inductive digit_tail : text -> Prop :=
| dt_nil : digit_tail []
| dt_digit d w : is_ascii_digit d = true -> digit_tail w -> digit_tail (d :: w)
| dt_underscore d w : is_ascii_digit d = true -> digit_tail w -> digit_tail ("_" :: d :: w).

(** The fraction of a float, with its digits. *)
Inductive fraction : text -> text -> Prop :=
| fr_none : fraction [] []
| fr_point w : digit_tail w -> fraction ("." :: w) (clean w).

(** The exponent of a float, with its value. *)
Inductive exponent : text -> Z -> Prop :=
| ex_none : exponent [] 0
| ex_plus e w :
    (e = "e" \/ e = "E") -> digit_tail w -> w <> [] -> exponent (e :: w) (digits_value (clean w))
| ex_signed e sign w :
    (e = "e" \/ e = "E") -> (sign = "+" \/ sign = "-") -> digit_tail w -> w <> [] ->
    exponent (e :: sign :: w)
      (if bool_decide (sign = "-") then - digits_value (clean w) else digits_value (clean w)).

(** Doubling the quotes of a string. *)
Fixpoint escape_quotes (s : text) : text :=
  match s with
  | c :: s => if byte_is "'" c then c :: c :: escape_quotes s else c :: escape_quotes s
  | [] => []
  end.

Definition symbol_spellings : list (Token * text) :=
  [(TkStar, ["*"]); (TkComma, [","]); (TkDot, ["."]); (TkLParen, ["("]); (TkRParen, [")"]);
   (TkSemicolon, [";"]); (TkEq, ["="]); (TkNotEq, ["!"; "="]); (TkNotEq, ["<"; ">"]); (TkLt, ["<"]);
   (TkLe, ["<"; "="]); (TkGt, [">"]); (TkGe, [">"; "="]); (TkPlus, ["+"]); (TkMinus, ["-"]);
   (TkSlash, ["/"]); (TkPercent, ["%"]); (TkLBracket, ["["]); (TkRBracket, ["]"])].

Inductive spells : Token -> text -> Prop :=
| sp_symbol t w : (t, w) ∈ symbol_spellings -> spells t w
| sp_word c w :
    word_start c = true -> forallb word_byte w = true -> spells (word_token (c :: w)) (c :: w)
| sp_quoted q w :
    (q = "034" \/ q = "`") -> ~ q ∈ w ->
    spells (TkIdentifier (String.string_of_list_ascii w)) (q :: w ++ [q])
| sp_string w :
    spells (TkStringLit (String.string_of_list_ascii w)) ("'" :: escape_quotes w ++ ["'"])
| sp_int c w :
    is_ascii_digit c = true -> digit_tail w -> digits_value (clean (c :: w)) <= I64_MAX ->
    spells (TkIntLit (digits_value (clean (c :: w)))) (c :: w)
| sp_float c int point frac exp e :
    is_ascii_digit c = true -> digit_tail int -> fraction point frac -> exponent exp e ->
    point ++ exp <> [] ->
    spells (TkFloatLit (f64_of_decimal (digits_value (clean (c :: int) ++ frac)) (e - Z.of_nat (length frac))))
      (c :: int ++ point ++ exp)
| sp_variable c w :
    word_start c = true -> forallb word_byte w = true ->
    spells (TkVariable (String.string_of_list_ascii (c :: w))) ("$" :: c :: w).

Definition head_is (p : ascii -> bool) (s : text) : bool := match s with c :: _ => p c | [] => false end.

(** The text [s] cannot be taken for a continuation of [t]. *)
Definition separates (t : Token) (s : text) : bool :=
  match t with
  | TkStar | TkComma | TkDot | TkLParen | TkRParen | TkSemicolon | TkEq | TkNotEq | TkLe | TkGe
  | TkPlus | TkPercent | TkLBracket | TkRBracket => true
  | TkMinus => negb (peek "-" s)
  | TkSlash => negb (peek "*" s)
  | TkLt => negb (peek "=" s || peek ">" s)
  | TkGt => negb (peek "=" s)
  | TkStringLit _ => negb (peek "'" s)
  | TkIntLit _ | TkFloatLit _ =>
      negb (head_is (fun c => is_ascii_digit c || byte_is "." c || byte_is "_" c ||
                              byte_is "e" c || byte_is "E" c) s)
  | _ => negb (head_is word_byte s)
  end.

(** White space and comments. *)
Inductive gap : text -> Prop :=
| gap_nil : gap []
| gap_space c g : is_ascii_whitespace c = true -> gap g -> gap (c :: g)
| gap_line l g : ~ "010" ∈ l -> gap g -> gap ("-" :: "-" :: l ++ "010" :: g)
| gap_block l g : skip_block l = Some [] -> gap g -> gap ("/" :: "*" :: l ++ g).

Inductive spelled : list Token -> text -> Prop :=
| spelled_nil g : gap g -> spelled [] g
| spelled_cons g t w ts s :
    gap g -> spells t w -> separates t s = true -> spelled ts s -> spelled (t :: ts) (g ++ w ++ s).

(** ** Every turn consumes *)

Lemma span_while_app p s w rest : span_while p s = (w, rest) -> s = w ++ rest.
Proof.
  revert w rest. induction s as [|c s IH]; intros w rest H; simpl in H; simplify_eq; [done|].
  destruct (p c); [|by simplify_eq]. destruct (span_while p s) as [w' r']. simplify_eq.
  simpl. f_equal. by apply IH.
Qed.

Lemma scan_number_app d s w d' rest : scan_number d s = (w, d', rest) -> s = w ++ rest.
Proof.
  revert d w rest. induction s as [|c s IH]; intros d w rest H; simpl in H; simplify_eq; [done|].
  repeat case_match; simplify_eq; simpl; try done; f_equal; by eapply IH.
Qed.

Lemma scan_exponent_digits_app s w rest : scan_exponent_digits s = (w, rest) -> s = w ++ rest.
Proof.
  revert w rest. induction s as [|c s IH]; intros w rest H; simpl in H; simplify_eq; [done|].
  repeat case_match; simplify_eq; simpl; try done; f_equal; by eapply IH.
Qed.

Lemma scan_exponent_app s w rest : scan_exponent s = Some (w, rest) -> s = w ++ rest.
Proof.
  unfold scan_exponent. intros H. destruct s as [|e s1]; [done|].
  destruct (_ || _); [|done].
  destruct (match s1 with [] => _ | _ => _ end) as [sign s2] eqn:Hs.
  assert (s1 = sign ++ s2) as ->.
  { destruct s1 as [|c s1']; [by simplify_eq|]. destruct (_ || _); by simplify_eq. }
  destruct (scan_exponent_digits s2) as [[|x ds] rest'] eqn:Hd; [done|]. simplify_eq.
  apply scan_exponent_digits_app in Hd as ->. by rewrite (app_assoc sign).
Qed.

Lemma scan_until_shorter q s w rest :
  scan_until q s = Some (w, rest) -> (length rest < length s)%nat.
Proof.
  revert w. induction s as [|c s IH]; intros w H; simpl in *; [done|].
  destruct (byte_is q c); [simplify_eq; lia|].
  destruct (scan_until q s) as [[w' r']|]; [|done]. simpl in H. simplify_eq. specialize (IH _ eq_refl). lia.
Qed.

Lemma scan_string_shorter s w rest : scan_string s = Some (w, rest) -> (length rest < length s)%nat.
Proof.
  remember (length s) as n eqn:Hn. revert s w Hn.
  induction n as [n IH] using lt_wf_ind. intros s w -> H.
  destruct s as [|c s]; simpl in *; [done|]. destruct (byte_is "'" c).
  - destruct s as [|d s]; simplify_eq; simpl; [lia|]. destruct (byte_is "'" d); [|simplify_eq; simpl; lia].
    destruct (scan_string s) as [[w' r']|] eqn:Hs; [|done]. simpl in H. simplify_eq.
    pose proof (IH (length s) ltac:(simpl; lia) s w' eq_refl Hs). lia.
  - destruct (scan_string s) as [[w' r']|] eqn:Hs; [|done]. simpl in H. simplify_eq.
    pose proof (IH (length s) ltac:(simpl; lia) s w' eq_refl Hs). lia.
Qed.

Lemma skip_line_length s : (length (skip_line s) <= length s)%nat.
Proof. induction s as [|c s IH]; simpl; [done|]. destruct (byte_is "010" c); simpl; lia. Qed.

Lemma skip_block_length s rest : skip_block s = Some rest -> (length rest <= length s)%nat.
Proof.
  induction s as [|c s IH]; simpl; [done|]. destruct (_ && _).
  - intros [= <-]. destruct s; simpl; lia.
  - intros H%IH. lia.
Qed.

Lemma tail_length (s : text) : (length (tail s) <= length s)%nat.
Proof. destruct s; simpl; lia. Qed.

(** The unread text of a lexeme. *)
Definition lexeme_rest (l : Lexeme) : option text :=
  match l with Skip rest | Emit _ rest => Some rest | _ => None end.

Lemma lex_number_shorter i c s rest :
  lexeme_rest (lex_number i c s) = Some rest -> (length rest <= length s)%nat.
Proof.
  unfold lex_number. destruct (scan_number false s) as [[w d] r] eqn:Hs. apply scan_number_app in Hs as ->.
  destruct (scan_exponent r) as [[e r']|] eqn:He.
  - apply scan_exponent_app in He as ->. simpl. intros. simplify_eq. rewrite !length_app. lia.
  - rewrite length_app. destruct d; [|destruct (parse_i64 _)]; simpl; intros; simplify_eq; lia.
Qed.

Lemma lexeme_at_shorter i s rest :
  lexeme_rest (lexeme_at i s) = Some rest -> (length rest < length s)%nat.
Proof.
  destruct s as [|c s]; simpl; [done|]. pose proof (tail_length s) as Ht.
  pose proof (skip_line_length (tail s)) as Hl.
  repeat match goal with
  | |- lexeme_rest (if ?b then _ else _) = _ -> _ => destruct b
  | |- lexeme_rest (match skip_block ?x with _ => _ end) = _ -> _ =>
      destruct (skip_block x) eqn:Hb; [apply skip_block_length in Hb|]
  | |- lexeme_rest (match scan_until ?q ?x with _ => _ end) = _ -> _ =>
      destruct (scan_until q x) as [[? ?]|] eqn:Hb; [apply scan_until_shorter in Hb|]
  | |- lexeme_rest (match scan_string ?x with _ => _ end) = _ -> _ =>
      destruct (scan_string x) as [[? ?]|] eqn:Hb; [apply scan_string_shorter in Hb|]
  | |- lexeme_rest (match single_char_token ?x with _ => _ end) = _ -> _ => destruct (single_char_token x)
  | |- lexeme_rest (let (_, _) := span_while ?p ?x in _) = _ -> _ =>
      destruct (span_while p x) as [? ?] eqn:Hb; apply span_while_app in Hb as ->
  | |- lexeme_rest (lex_number _ _ _) = _ -> _ => intros ?%lex_number_shorter
  end; cbn [lexeme_rest]; intros; simplify_eq; rewrite ?length_app in *; lia.
Qed.

(** ** The loop *)

Lemma word_token_not_eof w : word_token w <> TkEof.
Proof.
  unfold word_token. destruct (List.find _ _) as [[name t]|] eqn:Hf; [|done].
  apply find_some in Hf as [Hin _]. intros ->.
  assert (forallb (fun arm => negb (bool_decide (snd arm = TkEof))) keyword_arms = true) as H by done.
  rewrite forallb_forall in H. by apply H in Hin.
Qed.

Lemma lexeme_at_not_eof i s t rest : lexeme_at i s = Emit t rest -> t <> TkEof.
Proof.
  destruct s as [|c s]; simpl; [done|].
  assert (forall t', single_char_token c = Some t' -> t' <> TkEof) as Hsingle.
  { unfold single_char_token. intros t' H ->. repeat case_match; done. }
  unfold lex_number. repeat case_match; intros; simplify_eq; try done; eauto using word_token_not_eof.
Qed.

Section loop.
Implicit Types (i : Z) (s : text) (ts acc : list SpannedToken).

(** The tokens of the bytes from [i] to [n]: non-empty spans in order, then the end. *)
Fixpoint well_spanned i (n : Z) ts : Prop :=
  match ts with
  | [] => False
  | [t] => t = mkSpanned TkEof n n /\ i <= n
  | t :: ts => st_token t <> TkEof /\ i <= st_start t < st_end t /\ well_spanned (st_end t) n ts
  end.

Lemma well_spanned_weaken i i' n ts : i' <= i -> well_spanned i n ts -> well_spanned i' n ts.
Proof. destruct ts as [|t [|t' ts]]; simpl; naive_solver lia. Qed.

Lemma well_spanned_cons i n t ts :
  st_token t <> TkEof -> i <= st_start t < st_end t -> well_spanned (st_end t) n ts -> well_spanned i n (t :: ts).
Proof. destruct ts; simpl; naive_solver. Qed.

Lemma tokenize_loop_finishes fuel i s acc :
  (length s < fuel)%nat -> tokenize_loop fuel i s acc <> Unfinished.
Proof.
  revert i s acc. induction fuel as [|fuel IH]; intros i s acc Hlt; [lia|]. cbn [tokenize_loop].
  pose proof (lexeme_at_shorter i s) as Hs.
  destruct (lexeme_at i s) as [|rest|t rest|e]; try done; apply IH; specialize (Hs _ eq_refl); lia.
Qed.

Lemma tokenize_loop_spans fuel i s acc ts :
  tokenize_loop fuel i s acc = Tokens ts ->
  exists ts', ts = acc ++ ts' /\ well_spanned i (i + Z.of_nat (length s)) ts'.
Proof.
  revert i s acc. induction fuel as [|fuel IH]; intros i s acc; [done|]. cbn [tokenize_loop].
  pose proof (lexeme_at_shorter i s) as Hs. pose proof (lexeme_at_not_eof i s) as He.
  destruct (lexeme_at i s) as [|rest|t rest|e] eqn:Hl; try done.
  - intros [= <-]. eexists. split; [done|].
    assert (s = []) as -> by (destruct s; [done|]; exfalso; revert Hl; clear; simpl; unfold lex_number; repeat case_match; done).
    simpl. rewrite Z.add_0_r. split; [done|lia].
  - intros (ts' & -> & Hts)%IH. specialize (Hs _ eq_refl). eexists. split; [done|].
    replace (_ + Z.of_nat (length rest)) with (i + Z.of_nat (length s)) in Hts by lia.
    eapply well_spanned_weaken; [|done]. lia.
  - intros (ts' & -> & Hts)%IH. specialize (Hs _ eq_refl). rewrite <-app_assoc. eexists. split; [done|].
    replace (_ - Z.of_nat (length rest) + Z.of_nat (length rest)) with (i + Z.of_nat (length s)) in Hts by lia.
    apply well_spanned_cons; simpl; [by eapply He|lia|done].
Qed.
End loop.

Lemma list_ascii_length s : length (String.list_ascii_of_string s) = String.length s.
Proof. induction s as [|c s IH]; simpl; congruence. Qed.

(** ** Spelled tokens are read back *)

(** The classes of the first byte that [lexeme_at] tells apart. *)
Definition plain_byte (c : ascii) : bool :=
  negb (is_ascii_whitespace c || byte_is "-" c || byte_is "/" c ||
        match single_char_token c with Some _ => true | None => false end ||
        byte_is "=" c || byte_is "034" c || byte_is "`" c || byte_is "'" c || byte_is "!" c ||
        byte_is "<" c || byte_is ">" c).

Lemma ascii_classes c :
  implb (word_start c) (plain_byte c && negb (is_ascii_digit c) && word_byte c) = true /\
  implb (is_ascii_digit c) (plain_byte c && word_byte c) = true /\
  implb (is_ascii_whitespace c) (negb (byte_is "'" c)) = true.
Proof. destruct c as [[] [] [] [] [] [] [] []]; done. Qed.

Lemma byte_is_eq a c : byte_is a c = true <-> c = a.
Proof. apply Ascii.eqb_eq. Qed.

Lemma byte_is_neq a c : c <> a -> byte_is a c = false.
Proof. apply Ascii.eqb_neq. Qed.

(** On a plain byte only the last tests of [lexeme_at] remain. *)
Lemma lexeme_at_plain i c s :
  plain_byte c = true ->
  lexeme_at i (c :: s) =
    if is_ascii_digit c then lex_number i c s
    else if word_start c then
      let (w, rest) := span_while word_byte s in Emit (word_token (c :: w)) rest
    else if byte_is "$" c && starts_word s then
      let (w, rest) := span_while word_byte s in Emit (TkVariable (String.string_of_list_ascii w)) rest
    else LexFail (UnexpectedCharacter i).
Proof.
  unfold plain_byte. intros H. apply negb_true_iff in H. rewrite !orb_false_iff in H.
  destruct H as [[[[[[[[[[H1 H2] H3] Hs] H4] H5] H6] H7] H8] H9] H10]. cbn [lexeme_at].
  rewrite H1, H2, H3. destruct (single_char_token c); [done|]. by rewrite H4, H5, H6, H7, H8, H9, H10.
Qed.

Lemma span_while_exact p w s :
  forallb p w = true -> head_is p s = false -> span_while p (w ++ s) = (w, s).
Proof.
  intros Hw Hs. induction w as [|c w IH]; simpl in *.
  - destruct s as [|c s]; simpl in *; [done|]. by rewrite Hs.
  - apply andb_true_iff in Hw as [-> Hw]. by rewrite IH.
Qed.

(** What ends an integer. *)
Definition number_byte (c : ascii) : bool :=
  is_ascii_digit c || byte_is "." c || byte_is "_" c || byte_is "e" c || byte_is "E" c.

Lemma digit_not_underscore d : is_ascii_digit d = true -> bool_decide (d = "_") = false.
Proof. intros H. apply bool_decide_eq_false. by intros ->. Qed.

Lemma scan_number_exact w s :
  digit_tail w -> head_is number_byte s = false -> scan_number false (w ++ s) = (w, false, s).
Proof.
  intros Hw Hs. induction Hw as [|d w Hd Hw IH|d w Hd Hw IH]; simpl.
  - destruct s as [|c s]; [done|]. simpl in *. unfold number_byte in Hs. rewrite !orb_false_iff in Hs.
    destruct Hs as [[[[-> H1] H2] _] _]. unfold byte_is in *.
    rewrite Ascii.eqb_neq in H1, H2. by rewrite !bool_decide_eq_false_2.
  - rewrite Hd, bool_decide_eq_false_2 by (by intros ->). simpl. by rewrite IH.
  - rewrite Hd. simpl. rewrite (bool_decide_eq_false_2 (d = ".")) by (by intros ->).
    simpl. by rewrite IH.
Qed.

Lemma scan_exponent_none s : head_is number_byte s = false -> scan_exponent s = None.
Proof.
  destruct s as [|c s]; [done|]. simpl. unfold number_byte. rewrite !orb_false_iff. intros [[_ H1] H2].
  unfold byte_is in *. rewrite Ascii.eqb_neq in H1, H2. by rewrite !bool_decide_eq_false_2.
Qed.

Lemma scan_until_exact q w s : ~ q ∈ w -> scan_until q (w ++ q :: s) = Some (w, s).
Proof.
  induction w as [|c w IH]; intros Hq; simpl.
  - unfold byte_is. by rewrite Ascii.eqb_refl.
  - rewrite not_elem_of_cons in Hq. rewrite byte_is_neq by naive_solver. by rewrite IH by naive_solver.
Qed.

Lemma scan_string_exact w s :
  peek "'" s = false -> scan_string (escape_quotes w ++ "'" :: s) = Some (w, s).
Proof.
  intros Hs. induction w as [|c w IH]; cbn [escape_quotes app].
  - cbn. destruct s as [|d s]; [done|]. cbn in Hs. by rewrite Hs.
  - destruct (byte_is "'" c) eqn:Hc.
    + cbn [app scan_string]. rewrite Hc. by rewrite IH.
    + cbn [app scan_string]. rewrite Hc. by rewrite IH.
Qed.

Lemma lex_int i c w s :
  is_ascii_digit c = true -> digit_tail w -> digits_value (clean (c :: w)) <= I64_MAX ->
  head_is number_byte s = false ->
  lexeme_at i (c :: w ++ s) = Emit (TkIntLit (digits_value (clean (c :: w)))) s.
Proof.
  intros Hc Hw Hv Hs. destruct (ascii_classes c) as (_ & Hp & _). rewrite Hc in Hp. simpl in Hp.
  apply andb_true_iff in Hp as [Hp _]. rewrite lexeme_at_plain, Hc by done. unfold lex_number.
  rewrite scan_number_exact, scan_exponent_none by done. unfold parse_i64. by rewrite (proj2 (Z.leb_le _ _)).
Qed.

Lemma digit_tail_clean w : digit_tail w -> forallb is_ascii_digit (clean w) = true.
Proof.
  induction 1 as [|d w Hd Hw IH|d w Hd Hw IH]; [done|..]; cbn [clean List.filter].
  - rewrite digit_not_underscore by done. cbn [negb forallb]. by rewrite Hd.
  - rewrite bool_decide_eq_true_2 by done. cbn [negb]. rewrite digit_not_underscore by done.
    cbn [negb forallb]. by rewrite Hd.
Qed.

Lemma clean_app (v w : text) : clean (v ++ w) = clean v ++ clean w.
Proof. apply List.filter_app. Qed.

Lemma digit_tail_scan d w s :
  digit_tail w ->
  scan_number d (w ++ s) = let '(w', d', s') := scan_number d s in (w ++ w', d', s').
Proof.
  intros Hw. induction Hw as [|c w Hc Hw IH|c w Hc Hw IH]; cbn [app].
  - by destruct (scan_number d s) as [[? ?] ?].
  - cbn [scan_number]. rewrite Hc, (bool_decide_eq_false_2 (c = ".")) by (by intros ->).
    cbn [orb]. rewrite orb_false_r, IH. by destruct (scan_number d s) as [[? ?] ?].
  - cbn [scan_number starts_digit]. change (is_ascii_digit "_") with false.
    change (bool_decide ("_" = ".")) with false. change (bool_decide ("_" = "_")) with true.
    rewrite Hc, andb_false_r. cbn [orb andb].
    rewrite (bool_decide_eq_false_2 (c = ".")), orb_false_r, IH by (by intros ->).
    by destruct (scan_number d s) as [[? ?] ?].
Qed.

Lemma number_byte_false c :
  number_byte c = false ->
  is_ascii_digit c = false /\ c <> "." /\ c <> "_" /\ c <> "e" /\ c <> "E".
Proof.
  unfold number_byte, byte_is. rewrite !orb_false_iff, !Ascii.eqb_neq. tauto.
Qed.

Lemma scan_number_stops d c s :
  is_ascii_digit c = false -> c <> "." -> c <> "_" -> scan_number d (c :: s) = ([], d, c :: s).
Proof.
  intros H1 H2 H3. cbn [scan_number]. rewrite H1, !bool_decide_eq_false_2 by done. by rewrite andb_false_r.
Qed.

Lemma scan_number_end d exp e s :
  exponent exp e -> head_is number_byte s = false -> scan_number d (exp ++ s) = ([], d, exp ++ s).
Proof.
  intros He Hs. destruct He as [|e w He _ _|e sign w He _ _ _]; cbn [app].
  - destruct s as [|c s]; [done|]. apply number_byte_false in Hs as (? & ? & ? & _).
    by apply scan_number_stops.
  - destruct He as [-> | ->]; by apply scan_number_stops.
  - destruct He as [-> | ->]; by apply scan_number_stops.
Qed.

Lemma scan_number_float int point frac exp e s :
  digit_tail int -> fraction point frac -> exponent exp e -> head_is number_byte s = false ->
  scan_number false (int ++ point ++ exp ++ s) =
    (int ++ point, bool_decide (point <> []), exp ++ s).
Proof.
  intros Hi Hf He Hs. rewrite digit_tail_scan by done. destruct Hf as [|w Hw]; cbn [app].
  - by rewrite (scan_number_end _ _ e) by done.
  - cbn [scan_number]. rewrite (bool_decide_eq_true_2 ("." = ".")) by done. cbn [negb andb orb].
    rewrite orb_true_r, digit_tail_scan, (scan_number_end _ _ e) by done. by rewrite app_nil_r.
Qed.

Lemma scan_exponent_digits_exact w s :
  digit_tail w -> head_is number_byte s = false -> scan_exponent_digits (w ++ s) = (w, s).
Proof.
  intros Hw Hs. induction Hw as [|d w Hd Hw IH|d w Hd Hw IH]; cbn [app scan_exponent_digits].
  - destruct s as [|c s]; [done|]. apply number_byte_false in Hs as (H1 & _ & H3 & _).
    cbn [scan_exponent_digits]. by rewrite H1, bool_decide_eq_false_2.
  - rewrite Hd. cbn [orb]. by rewrite IH.
  - change (is_ascii_digit "_") with false. cbn [orb starts_digit].
    rewrite bool_decide_eq_true_2, Hd by done. cbn [andb orb]. by rewrite IH.
Qed.

Lemma digit_tail_head w : digit_tail w -> w <> [] ->
  exists c w', w = c :: w' /\ c <> "+" /\ c <> "-".
Proof.
  intros Hw Hne. destruct Hw as [|d w Hd Hw|d w Hd Hw]; [done|exists d, w|by exists "_", (d :: w)].
  split_and!; [done|..]; by intros ->.
Qed.

Lemma scan_exponent_exact exp e s :
  exponent exp e -> exp <> [] -> head_is number_byte s = false -> scan_exponent (exp ++ s) = Some (exp, s).
Proof.
  intros He Hne Hs.
  assert (forall e0, e0 = "e" \/ e0 = "E" -> bool_decide (e0 = "e") || bool_decide (e0 = "E") = true) as Hcase
    by (intros ? [-> | ->]; done).
  destruct He as [|e0 w He Hw Hwne|e0 sign w He Hsign Hw Hwne]; [done|..];
    cbn [app]; unfold scan_exponent; rewrite Hcase by done.
  - pose proof (scan_exponent_digits_exact w s Hw Hs) as Hd.
    destruct (digit_tail_head w Hw Hwne) as (c & w' & -> & H1 & H2). cbn [app] in *.
    rewrite !bool_decide_eq_false_2 by done. cbn [orb]. by rewrite Hd.
  - assert (bool_decide (sign = "+") || bool_decide (sign = "-") = true) as ->
      by (destruct Hsign as [-> | ->]; done).
    rewrite scan_exponent_digits_exact by done. by destruct w.
Qed.

(** The cleaned text of a float is the number it spells. *)
Lemma parse_f64_spelled c int point frac exp e :
  is_ascii_digit c = true -> digit_tail int -> fraction point frac -> exponent exp e ->
  parse_f64 (clean (c :: int ++ point ++ exp)) =
    f64_of_decimal (digits_value (clean (c :: int) ++ frac)) (e - Z.of_nat (length frac)).
Proof.
  intros Hc Hi Hf He.
  change (c :: int ++ point ++ exp) with ((c :: int) ++ point ++ exp). rewrite !clean_app.
  pose proof (digit_tail_clean (c :: int) (dt_digit _ _ Hc Hi)) as Hint.
  set (whole := clean (c :: int)) in *. unfold parse_f64.
  assert (head_is is_ascii_digit (clean exp) = false) as Hexp.
  { destruct He as [|e0 w He _ _|e0 sign w He _ _ _]; [done|..]; destruct He as [-> | ->]; done. }
  assert (match clean exp with
          | _ :: "-" :: ds => - digits_value ds
          | _ :: "+" :: ds => digits_value ds
          | _ :: ds => digits_value ds
          | [] => 0
          end = e) as Hval.
  { destruct He as [|e0 w He Hw Hne|e0 sign w He Hsign Hw Hne]; [done|..].
    - replace (clean (e0 :: w)) with (e0 :: clean w) by (destruct He as [-> | ->]; done).
      pose proof (digit_tail_clean w Hw) as Hd. destruct (clean w) as [|d ds] eqn:Hcw; [done|].
      cbn [forallb] in Hd. apply andb_true_iff in Hd as [Hd _].
      clear -Hd. destruct d as [[] [] [] [] [] [] [] []]; try done.
    - replace (clean (e0 :: sign :: w)) with (e0 :: sign :: clean w)
        by (destruct He as [-> | ->], Hsign as [-> | ->]; done).
      destruct Hsign as [-> | ->]; done. }
  assert (match clean exp with "." :: s => span_while is_ascii_digit s | _ => ([], clean exp) end
          = ([], clean exp)) as Hnopoint.
  { destruct He as [|e0 w He _ _|e0 sign w He _ _ _]; [done|..]; destruct He as [-> | ->]; done. }
  destruct Hf as [|w Hw].
  - cbn [app clean List.filter]. rewrite span_while_exact by done. rewrite Hnopoint.
    cbn [length]. by rewrite Hval.
  - change (clean ("." :: w)) with ("." :: clean w). cbn [app].
    rewrite span_while_exact by done.
    rewrite (span_while_exact _ (clean w)); [|by apply digit_tail_clean|done]. by rewrite Hval.
Qed.

Lemma lex_float i c int point frac exp e s :
  is_ascii_digit c = true -> digit_tail int -> fraction point frac -> exponent exp e ->
  point ++ exp <> [] -> head_is number_byte s = false ->
  lexeme_at i (c :: (int ++ point ++ exp) ++ s) =
    Emit (TkFloatLit (f64_of_decimal (digits_value (clean (c :: int) ++ frac)) (e - Z.of_nat (length frac)))) s.
Proof.
  intros Hc Hi Hf He Hne Hs. destruct (ascii_classes c) as (_ & Hp & _). rewrite Hc in Hp. simpl in Hp.
  apply andb_true_iff in Hp as [Hp _]. rewrite lexeme_at_plain, Hc by done. unfold lex_number.
  rewrite <-!app_assoc, (scan_number_float _ _ frac _ e) by done.
  rewrite <-(parse_f64_spelled c int point frac exp e) by done.
  destruct (decide (exp = [])) as [->|Hexp].
  - cbn [app]. rewrite app_nil_r in Hne |- *. rewrite scan_exponent_none by done.
    by rewrite bool_decide_eq_true_2.
  - rewrite (scan_exponent_exact _ e) by done. by rewrite <-app_assoc.
Qed.

Lemma lex_word i c w s :
  word_start c = true -> forallb word_byte w = true -> head_is word_byte s = false ->
  lexeme_at i (c :: w ++ s) = Emit (word_token (c :: w)) s.
Proof.
  intros Hc Hw Hs. destruct (ascii_classes c) as (Hp & _ & _). rewrite Hc in Hp. simpl in Hp.
  rewrite !andb_true_iff, negb_true_iff in Hp. destruct Hp as [[Hp Hd] _].
  rewrite lexeme_at_plain, Hd, Hc by done. by rewrite span_while_exact.
Qed.

Lemma lex_variable i c w s :
  word_start c = true -> forallb word_byte w = true -> head_is word_byte s = false ->
  lexeme_at i ("$" :: c :: w ++ s) = Emit (TkVariable (String.string_of_list_ascii (c :: w))) s.
Proof.
  intros Hc Hw Hs. destruct (ascii_classes c) as (Hp & _ & _). rewrite Hc in Hp. simpl in Hp.
  rewrite !andb_true_iff in Hp. destruct Hp as [_ Hb].
  rewrite lexeme_at_plain by done. change (is_ascii_digit "$") with false. change (word_start "$") with false.
  cbn [byte_is starts_word]. rewrite Hc. change (byte_is "$" "$" && true) with true. cbn iota.
  change (c :: w ++ s) with ((c :: w) ++ s). rewrite span_while_exact; [done| |done]. simpl. by rewrite Hb.
Qed.

Lemma separates_word w s : separates (word_token w) s = negb (head_is word_byte s).
Proof.
  unfold word_token. destruct (List.find _ _) as [[name t]|] eqn:Hf; [|done]. apply find_some in Hf as [Hin _].
  assert (Forall (fun arm => separates (snd arm) s = negb (head_is word_byte s)) keyword_arms) as H
    by (repeat constructor).
  rewrite List.Forall_forall in H. by apply H in Hin.
Qed.

Lemma lexeme_spelled t w i s :
  spells t w -> separates t s = true -> lexeme_at i (w ++ s) = Emit t s.
Proof.
  intros Hsp Hs. destruct Hsp as [t w Hin|c w Hc Hw|q w Hq Hw|w|c w Hc Hw Hv|c int point frac exp e Hc Hi Hf He Hne|c w Hc Hw].
  - unfold symbol_spellings in Hin. set_unfold in Hin.
    repeat destruct Hin as [Hin|Hin]; try done; simplify_eq; try done; cbn in Hs |- *.
    all: destruct (peek _ _) eqn:?; try destruct (peek ">" _) eqn:?; try done.
    all: destruct s as [|d s]; try done; cbn in *; by rewrite ?Heqb, ?Heqb0.
  - rewrite separates_word, negb_true_iff in Hs. by apply lex_word.
  - cbn [app]. rewrite <-app_assoc. destruct Hq as [-> | ->]; cbn; by rewrite scan_until_exact.
  - cbn [app]. rewrite <-app_assoc. cbn. rewrite scan_string_exact; [done|]. by apply negb_true_iff in Hs.
  - apply lex_int; try done. by apply negb_true_iff in Hs.
  - apply (lex_float i c int point frac exp e); try done. by apply negb_true_iff in Hs.
  - apply lex_variable; try done. by apply negb_true_iff in Hs.
Qed.

(** ** Spelled texts are read back *)

(** Whatever the position and the tokens before, the loop reads [s] as the tokens [r]. *)
Definition loop_reads (s : text) (r : list Token) : Prop :=
  forall fuel i acc, (length s < fuel)%nat ->
    tokens_of (tokenize_loop fuel i s acc) = Some (map st_token acc ++ r).

Lemma loop_reads_skip s rest r :
  (forall i, lexeme_at i s = Skip rest) -> loop_reads rest r -> loop_reads s r.
Proof.
  intros Hl Hr [|fuel] i acc Hlt; [lia|]. cbn [tokenize_loop]. rewrite Hl.
  pose proof (lexeme_at_shorter i s rest) as Hs. rewrite Hl in Hs. apply Hr. specialize (Hs eq_refl). lia.
Qed.

Lemma loop_reads_emit s t rest r :
  (forall i, lexeme_at i s = Emit t rest) -> loop_reads rest r -> loop_reads s (t :: r).
Proof.
  intros Hl Hr [|fuel] i acc Hlt; [lia|]. cbn [tokenize_loop]. rewrite Hl.
  pose proof (lexeme_at_shorter i s rest) as Hs. rewrite Hl in Hs. specialize (Hs eq_refl).
  rewrite Hr by lia. by rewrite map_app, <-app_assoc.
Qed.

Lemma loop_reads_end : loop_reads [] [TkEof].
Proof. intros [|fuel] i acc Hlt; [simpl in Hlt; lia|]. simpl. by rewrite map_app. Qed.

Lemma skip_line_exact l s : ~ "010" ∈ l -> skip_line (l ++ "010" :: s) = "010" :: s.
Proof.
  induction l as [|c l IH]; intros Hl; simpl; [done|]. rewrite not_elem_of_cons in Hl.
  rewrite byte_is_neq by naive_solver. apply IH. naive_solver.
Qed.

Lemma skip_block_app l rest s : skip_block l = Some rest -> skip_block (l ++ s) = Some (rest ++ s).
Proof.
  induction l as [|c l IH]; [done|]. destruct l as [|d l]; cbn [app skip_block peek].
  - by rewrite andb_false_r.
  - destruct (_ && _); [by intros [= <-]|]. apply IH.
Qed.

Lemma loop_reads_gap g s r : gap g -> loop_reads s r -> loop_reads (g ++ s) r.
Proof.
  intros Hg Hs. induction Hg as [|c g Hc Hg IH|l g Hl Hg IH|l g Hl Hg IH]; cbn [app]; [done|..].
  - eapply loop_reads_skip; [|exact IH]. intros i. simpl. by rewrite Hc.
  - eapply loop_reads_skip; [|eapply loop_reads_skip; [|exact IH]].
    + intros i. cbn. rewrite <-app_assoc. cbn. by rewrite skip_line_exact.
    + done.
  - eapply loop_reads_skip; [|exact IH]. intros i. cbn. rewrite <-app_assoc. by rewrite (skip_block_app _ _ _ Hl).
Qed.

Lemma loop_reads_spelled ts s : spelled ts s -> loop_reads s (ts ++ [TkEof]).
Proof.
  induction 1 as [g Hg|g t w ts s Hg Hw Hsep Hs IH]; cbn [app].
  - rewrite <-(app_nil_r g). apply loop_reads_gap; [done|apply loop_reads_end].
  - apply loop_reads_gap; [done|]. eapply loop_reads_emit; [|exact IH]. intros i. by apply lexeme_spelled.
Qed.

(** ** Properties *)

(** [tokenize] is total: it returns tokens or a lexical error for every text, and
    the tokens it returns have non-empty spans of the text, in order and without overlap, none of them the
    end marker, followed by the end marker at the length of the text. *)
Theorem tokenize_total sql :
  match tokenize sql with
  | Tokens ts => well_spanned 0 (Z.of_nat (String.length sql)) ts
  | LexErr _ => True
  | Unfinished => False
  end.
Proof.
  unfold tokenize. pose proof (list_ascii_length sql) as Hlen.
  set (s := String.list_ascii_of_string sql) in *.
  destruct (tokenize_loop (S (length s)) 0 s []) as [ts|e|] eqn:Ht; [|done|].
  - apply tokenize_loop_spans in Ht as (ts' & -> & Hts). by rewrite Hlen in Hts.
  - apply tokenize_loop_finishes in Ht; [done|lia].
Qed.

(** the tokenizer reads every spelling of a token sequence back: words in any case
    are their keyword, quoted identifiers and strings keep their text, with doubled quotes
    undone, integers ignore their separators, floats are the number their digits, fraction and
    exponent spell, and white space and comments between the tokens
    are dropped. *)
Theorem tokenize_spelled ts sql :
  spelled ts (String.list_ascii_of_string sql) -> tokens_of (tokenize sql) = Some (ts ++ [TkEof]).
Proof. intros Hs. unfold tokenize. by rewrite (loop_reads_spelled _ _ Hs) by lia. Qed.

Lemma tokenize_spelled_witness :
  tokens_of (tokenize "Select 'a''b'/* - */, `x`") =
  Some [TkSelect; TkStringLit "a'b"; TkComma; TkIdentifier "x"; TkEof].
Proof.
  apply (tokenize_spelled [TkSelect; TkStringLit "a'b"; TkComma; TkIdentifier "x"]).
  change (spelled [TkSelect; TkStringLit "a'b"; TkComma; TkIdentifier "x"]
    ([] ++ ("S" :: ["e"; "l"; "e"; "c"; "t"]) ++ [" "] ++ ("'" :: escape_quotes ["a"; "'"; "b"] ++ ["'"]) ++
     ("/" :: "*" :: [" "; "-"; " "; "*"; "/"] ++ []) ++ [","] ++ [" "] ++ ("`" :: ["x"] ++ ["`"]) ++ [])).
  apply (spelled_cons [] TkSelect); [constructor|exact (sp_word "S" ["e"; "l"; "e"; "c"; "t"] eq_refl eq_refl)|done|].
  apply (spelled_cons [" "]); [by repeat constructor|exact (sp_string ["a"; "'"; "b"])|done|].
  apply spelled_cons; [constructor; [done|constructor]|apply sp_symbol; set_solver|done|].
  apply (spelled_cons [" "]); [by repeat constructor| |done|constructor; constructor].
  apply (sp_quoted "`" ["x"]); [by right|set_solver].
Defined.

(** A point before a digit is the token [.], not the start of a number. *)
Theorem leading_point_is_a_dot i s : lexeme_at i ("." :: s) = Emit TkDot s.
Proof. done. Qed.
