(* ===== verification/SqlParser.v ===== *)
(** * The SQL expression parser ([query/sql_parser.rs])

    A recursive-descent parser over the tokens of [SqlLexer].  The state is the list
    of the unread tokens: [tokens[pos..]], which ends with the end marker and never
    becomes empty, because [advance] does not move past the last token.

    Each function of the source is a definition that takes the functions it calls back
    into as arguments ([parse_expr], and [parse_select_internal] for subqueries); the
    knot is tied by [parse_expr_n], whose fuel bounds the nesting of expressions.  A
    [loop] of the source runs at most as many turns as there are unread tokens.  Running out
    of fuel is the result [PDiverges], which [SqlParserFacts] shows does not happen where the code returns.

    Message texts are not modelled; errors keep the position the code computes. *)
From Stdlib Require Import Ascii.
From stdpp Require Import pretty.
From S2P Require Import Prelude Bytes Float Values SqlAst Decimal SqlLexer.
Local Open Scope Z_scope.

(** ** Results *)

Inductive ParseError :=
| LexicalError (e : LexError)
| Expected (t : Token) (at_byte : Z)
| SyntaxErrorAt (at_byte : Z)
| QueryParseError.

Abbreviation tokens := (list SpannedToken).

Inductive PResult (A : Type) :=
| POk (a : A) (st : tokens)
| PErr (e : ParseError)
| PDiverges.
Arguments POk {A} a st.
Arguments PErr {A} e.
Arguments PDiverges {A}.

Definition Parser (A : Type) : Type := tokens -> PResult A.

Definition pret {A} (a : A) : Parser A := fun st => POk a st.

Definition pbind {A B} (p : Parser A) (k : A -> Parser B) : Parser B := fun st =>
  match p st with
  | POk a st => k a st
  | PErr e => PErr e
  | PDiverges => PDiverges
  end.

Notation "'let*' x ':=' p 'in' k" := (pbind p (fun x => k))
  (at level 10, x pattern at level 0, p at level 100, k at level 200) : apex_scope.
Notation "p ';;;' k" := (pbind p (fun _ => k)) (at level 100, right associativity) : apex_scope.
Local Open Scope apex_scope.

(** [Err(ApexError::QueryParseError(..))] *)
Definition query_error {A} : Parser A := fun _ => PErr QueryParseError.

(** ** The cursor *)

Definition head_token (st : tokens) : Token := match st with t :: _ => st_token t | [] => TkEof end.

Definition current : Parser Token := fun st => POk (head_token st) st.

Definition current_span (st : tokens) : Z * Z :=
  match st with t :: _ => (st_start t, st_end t) | [] => (0, 0) end.

(** [Err(self.syntax_error(start, ..))] at the current token. *)
Definition syntax_error {A} : Parser A := fun st => PErr (SyntaxErrorAt (fst (current_span st))).

Definition advance : Parser unit := fun st =>
  match st with
  | _ :: (_ :: _) as rest => POk tt rest
  | _ => POk tt st
  end.

Definition expect (expected : Token) : Parser unit := fun st =>
  if Token_discriminant (head_token st) =? Token_discriminant expected then advance st
  else PErr (Expected expected (fst (current_span st))).

(** [if matches!(self.current(), ..) { self.advance(); true } else { false }] *)
Definition accept (t : Token) : Parser bool :=
  let* c := current in
  if bool_decide (c = t) then advance ;;; pret true else pret false.

(** *** Loops *)

Fixpoint loop_n {A B} (n : nat) (step : A -> Parser (A + B)) (a : A) : Parser B :=
  match n with
  | O => fun _ => PDiverges
  | S n =>
      let* r := step a in
      match r with inl a => loop_n n step a | inr b => pret b end
  end.

Definition loop {A B} (step : A -> Parser (A + B)) (a : A) : Parser B := fun st =>
  loop_n (length st) step a st.

Definition again {A B} (a : A) : Parser (A + B) := pret (inl a).
Definition leave {A B} (b : B) : Parser (A + B) := pret (inr b).

(** A comma-separated list: the items up to the first that no comma follows. *)
Definition comma_list {A} (item : Parser A) : Parser (list A) :=
  loop (fun items =>
    let* x := item in
    let* comma := accept TkComma in
    if comma then again (items ++ [x]) else leave (items ++ [x])) [].

(** ** Identifiers *)

Definition parse_identifier : Parser string :=
  let* t := current in
  match t with
  | TkIdentifier s => advance ;;; pret s
  | _ => syntax_error
  end.

(** [table] or [database.table] *)
Definition parse_table_name : Parser string :=
  let* name := parse_identifier in
  let* dot := accept TkDot in
  if dot then let* tbl := parse_identifier in pret (name ++ "." ++ tbl)%string else pret name.

(** The loop over [.ident] that [parse_primary] and [parse_column_ref] share. *)
Definition parse_qualifiers (full : string) : Parser string :=
  loop (fun full =>
    let* dot := accept TkDot in
    if dot then
      let* t := current in
      match t with
      | TkIdentifier n => advance ;;; again (full ++ "." ++ n)%string
      | _ => query_error
      end
    else leave full) full.

Definition parse_column_ref : Parser string :=
  let* t := current in
  match t with
  | TkIdentifier n => advance ;;; parse_qualifiers n
  | _ => query_error
  end.

Definition parse_column_list : Parser (list string) :=
  comma_list (let* t := current in
              match t with TkIdentifier _ => parse_column_ref | _ => query_error end).

Definition parse_identifier_list : Parser (list string) := comma_list parse_identifier.

Definition parse_if_not_exists : Parser bool :=
  let* found := accept TkIf in
  if found then expect TkNot ;;; expect TkExists ;;; pret true else pret false.

Definition parse_if_exists : Parser bool :=
  let* found := accept TkIf in
  if found then expect TkExists ;;; pret true else pret false.

(** [parse_alias_identifier]: some keywords are allowed as aliases. *)
Definition alias_of (t : Token) : option string :=
  match t with
  | TkIdentifier n => Some n
  | TkCount => Some "count" | TkSum => Some "sum" | TkAvg => Some "avg"
  | TkMin => Some "min" | TkMax => Some "max" | TkFirst => Some "first"
  | TkLast => Some "last" | TkOrder => Some "order" | TkGroup => Some "group"
  | TkBy => Some "by" | TkAsc => Some "asc" | TkDesc => Some "desc"
  | TkNulls => Some "nulls" | TkIs => Some "is" | TkIn => Some "in"
  | TkNot => Some "not" | TkNull => Some "null"
  | _ => None
  end%string.

Definition parse_alias_identifier : Parser (option string) :=
  let* t := current in
  match alias_of t with
  | Some n => advance ;;; pret (Some n)
  | None => pret None
  end.

(** ** Literals *)

(** The numbers of an array literal, each with an optional sign; commas are optional. *)
Definition array_number {A} (neg : A -> A) (of_float of_int : Z -> A) (signs : list (Token * bool)) : Parser A :=
  let* t := current in
  let sign := snd <$> List.find (fun arm => bool_decide (fst arm = t)) signs in
  (match sign with Some _ => advance | None => pret tt end) ;;;
  let* t := current in
  let* v := match t with
            | TkFloatLit f => advance ;;; pret (of_float f)
            | TkIntLit n => advance ;;; pret (of_int n)
            | _ => query_error
            end in
  let* _ := accept TkComma in
  pret (if default false sign then neg v else v).

Definition parse_literal_value {J} : Parser (Value J) :=
  let* t := current in
  match t with
  | TkStringLit s => advance ;;; pret (VString s)
  | TkIntLit n => advance ;;; pret (VInt64 n)
  | TkFloatLit f => advance ;;; pret (VFloat64 f)
  | TkTrue => advance ;;; pret (VBool true)
  | TkFalse => advance ;;; pret (VBool false)
  | TkNull => advance ;;; pret VNull
  | TkMinus =>
      advance ;;;
      let* t := current in
      match t with
      | TkIntLit n => advance ;;; pret (VInt64 (- n))
      | TkFloatLit f => advance ;;; pret (VFloat64 (f64_neg f))
      | _ => query_error
      end
  | TkLBracket =>
      advance ;;;
      let* floats := loop (fun floats =>
        let* t := current in
        match t with
        | TkRBracket => leave floats
        | _ =>
            let* v := array_number f32_neg f32_of_f64 f32_of_Z [(TkMinus, true)] in
            again (floats ++ [v])
        end) [] in
      expect TkRBracket ;;;
      pret (VBinary (flat_map (le_bytes 4) floats))
  | _ => query_error
  end.

(** ** Window frames *)

Definition identifier_is (t : Token) (word : string) : bool :=
  match t with TkIdentifier s => eq_ignore_ascii_case s word | _ => false end.

Definition parse_frame_direction {A} (preceding following : A) : Parser A :=
  let* t := current in
  match t with
  | TkIdentifier direction =>
      advance ;;;
      if String.eqb (to_lowercase direction) "preceding" then pret preceding
      else if String.eqb (to_lowercase direction) "following" then pret following
      else query_error
  | _ => query_error
  end.

Definition signed_offset : Parser (option Z) :=
  let* t := current in
  match t with
  | TkIntLit value => advance ;;; pret (Some value)
  | TkMinus =>
      advance ;;;
      let* t := current in
      match t with
      | TkIntLit value => advance ;;; pret (Some (- value))
      | _ => query_error
      end
  | _ => pret None
  end.

Definition parse_window_frame_bound : Parser WindowFrameBound :=
  let* t := current in
  if identifier_is t "unbounded" then
    advance ;;; parse_frame_direction UnboundedPreceding UnboundedFollowing
  else if identifier_is t "current" then
    advance ;;;
    let* t := current in
    if identifier_is t "row" then advance ;;; pret CurrentRow else query_error
  else
    let* offset := signed_offset in
    let offset := default 0 offset in
    parse_frame_direction (Preceding offset) (Following offset).

Definition parse_optional_window_frame : Parser (option WindowFrame) :=
  let* t := current in
  let rows := if identifier_is t "rows" then Some true
              else if identifier_is t "range" then Some false else None in
  match rows with
  | None => pret None
  | Some rows =>
      advance ;;;
      let* between := accept TkBetween in
      if between then
        let* start := parse_window_frame_bound in
        expect TkAnd ;;;
        let* bound_end := parse_window_frame_bound in
        pret (Some (mkFrame rows start bound_end))
      else
        let* start := parse_window_frame_bound in
        pret (Some (mkFrame rows start CurrentRow))
  end.

(** ** Display names *)

Section parser.
Context {J Sel : Type}.
Abbreviation Expr := (SqlExpr J Sel).

Definition operator_text (op : BinaryOperator) : string :=
  match op with
  | OpAdd => "+" | OpSub => "-" | OpMul => "*" | OpDiv => "/" | OpMod => "%" | _ => "?"
  end%string.

(** The derived [Debug] texts are arguments. *)
Fixpoint expr_to_display_string (debug_value : Value J -> string) (debug_type : DataType -> string)
    (debug_expr : Expr -> string) (expr : Expr) : string :=
  let display := expr_to_display_string debug_value debug_type debug_expr in
  match expr with
  | EColumn name => name
  | EFunction name args => to_uppercase name ++ "(" ++ String.concat ", " (map display args) ++ ")"
  | EBinaryOp l op r => display l ++ " " ++ operator_text op ++ " " ++ display r
  | ECast expr data_type => "CAST(" ++ display expr ++ " AS " ++ debug_type data_type ++ ")"
  | ELiteral val => debug_value val
  | EParen inner => "(" ++ display inner ++ ")"
  | _ => debug_expr expr
  end%string.

(** ** ORDER BY *)

Definition parse_descending : Parser bool :=
  let* desc := accept TkDesc in
  if desc then pret true else let* _ := accept TkAsc in pret false.

Definition parse_nulls_first : Parser (option bool) :=
  let* nulls := accept TkNulls in
  if nulls then
    let* is_first := accept TkFirst in
    if is_first then pret (Some true)
    else let* is_last := accept TkLast in pret (if is_last then Some false else None)
  else pret None.

Definition aggregate_name (t : Token) : option string :=
  match t with
  | TkSum => Some "SUM" | TkCount => Some "COUNT" | TkAvg => Some "AVG"
  | TkMin => Some "MIN" | TkMax => Some "MAX"
  | _ => None
  end%string.

(** One turn of the loop that collects an aggregate's argument as text.  At the end marker
    [advance] stays where it is and the depth does not change. *)
Definition opaque_step (acc : nat * string) : Parser (nat * string + string) :=
  let (depth, arg) := acc in
  match depth with
  | O => leave arg
  | S depth' =>
      let* t := current in
      match t with
      | TkLParen => advance ;;; again (S depth, arg ++ "(")%string
      | TkRParen => advance ;;; again (depth', if Nat.ltb 0 depth' then arg ++ ")" else arg)%string
      | TkStar => advance ;;; again (depth, arg ++ "*")%string
      | TkIdentifier s => advance ;;; again (depth, arg ++ s)%string
      | TkComma => advance ;;; again (depth, arg ++ ",")%string
      | _ => advance ;;; again (depth, arg)
      end
  end.

Definition trim_string (s : string) : string :=
  String.string_of_list_ascii (trim (String.list_ascii_of_string s)).

Definition parse_opaque_argument : Parser string :=
  let* paren := accept TkLParen in
  if paren then loop opaque_step (1%nat, EmptyString) else pret EmptyString.

Section order_by.
Variable parse_expr : Parser Expr.
Variable display : Expr -> string.

(** The two branches of the key: a name, or an expression with its display name. *)
Definition parse_order_key : Parser (option (string * option Expr)) :=
  let* t := current in
  match aggregate_name t, t with
  | Some func_name, _ =>
      advance ;;;
      let* arg := parse_opaque_argument in
      pret (Some (func_name ++ "(" ++ trim_string arg ++ ")", None))%string
  | None, TkIntLit n => advance ;;; pret (Some (pretty n, None))
  | None, (TkLBracket | TkLParen | TkMinus | TkFloatLit _) =>
      let* expr := parse_expr in pret (Some (display expr, Some expr))
  | None, TkIdentifier _ => fun st =>
      (let* col := parse_column_ref in
       let* t := current in
       match t with
       | TkLParen => fun _ => (let* expr := parse_expr in pret (Some (display expr, Some expr))) st
       | _ => pret (Some (col, None))
       end) st
  | _, _ => pret None
  end.

Definition parse_order_by : Parser (list (OrderByClause J Sel)) :=
  loop (fun clauses =>
    let* key := parse_order_key in
    match key with
    | None => leave clauses
    | Some (column, expr) =>
        let* descending := parse_descending in
        let* nulls_first := parse_nulls_first in
        let clauses := clauses ++ [mkOrderBy column descending nulls_first expr] in
        let* comma := accept TkComma in
        if comma then again clauses else leave clauses
    end) [].

Definition parse_group_by_list : Parser (list string * list (option Expr)) :=
  loop (fun acc =>
    let (names, exprs) := (acc : list string * list (option Expr)) in
    let* item := fun st =>
      match st with
      | t :: rest =>
          match st_token t with
          | TkIdentifier _ =>
              if Token_discriminant (head_token rest) =? Token_discriminant TkLParen then
                (let* expr := parse_expr in pret (display expr, Some expr)) st
              else (let* name := parse_column_ref in pret (name, None)) st
          | _ => query_error st
          end
      | [] => query_error st
      end in
    let acc := (names ++ [fst item], exprs ++ [snd item]) in
    let* comma := accept TkComma in
    if comma then again acc else leave acc) ([], []).
End order_by.

(** ** Expressions *)

Section expressions.
Variable parse_select_internal : bool -> Parser Sel.
Variable display : Expr -> string.
Variable parse_expr : Parser Expr.

(** [OVER (...)] after a function call. *)
Definition maybe_parse_over (expr : Expr) : Parser Expr :=
  let* t := current in
  match t with
  | TkOver =>
      match expr with
      | EFunction name args =>
          advance ;;;
          expect TkLParen ;;;
          let* partition := accept TkPartition in
          let* partition_by := if partition then expect TkBy ;;; parse_column_list else pret [] in
          let* order := accept TkOrder in
          let* order_by := if order then expect TkBy ;;; parse_order_by parse_expr display else pret [] in
          let* frame := parse_optional_window_frame in
          expect TkRParen ;;;
          pret (EWindow (to_uppercase name) args partition_by order_by frame)
      | _ => query_error
      end
  | _ => pret expr
  end.

(** [func(...)[index]] *)
Definition parse_array_index (expr : Expr) : Parser Expr :=
  loop (fun expr =>
    let* bracket := accept TkLBracket in
    if bracket then
      let* index := parse_expr in
      expect TkRBracket ;;;
      again (EArrayIndex expr index)
    else leave expr) expr.

(** An optional string literal and the closing parenthesis of [FTS_SCORE(]. *)
Definition parse_fts_score_rest : Parser Expr :=
  let* t := current in
  let* query := match t with
                | TkRParen => pret None
                | TkStringLit query => advance ;;; pret (Some query)
                | _ => query_error
                end in
  expect TkRParen ;;;
  pret (EFtsScore query).

Definition parse_string_literal : Parser string :=
  let* t := current in
  match t with TkStringLit s => advance ;;; pret s | _ => query_error end.

Definition parse_topk_distance_rest : Parser Expr :=
  let* col := parse_identifier in
  expect TkComma ;;;
  let* query := parse_expr in
  match query with
  | EArrayLiteral query =>
      expect TkComma ;;;
      let* t := current in
      let* k := match t with TkIntLit n => advance ;;; pret (wrap64 n) | _ => query_error end in
      expect TkComma ;;;
      let* metric := parse_string_literal in
      expect TkRParen ;;;
      pret (ETopkDistance col query k metric)
  | _ => query_error
  end.

Definition parse_explode_rename_rest : Parser Expr :=
  let* inner := parse_expr in
  let* names := loop (fun names =>
    let* comma := accept TkComma in
    if comma then let* s := parse_string_literal in again (names ++ [s]) else leave names) [] in
  if Nat.ltb (length names) 2 then query_error
  else expect TkRParen ;;; pret (EExplodeRename inner names).

Definition parse_args : Parser (list Expr) :=
  let* t := current in
  match t with TkRParen => pret [] | _ => comma_list parse_expr end.

Definition parse_function_call_from_name (name : string) : Parser Expr :=
  expect TkLParen ;;;
  let upper := to_uppercase name in
  if String.eqb upper "FTS_SCORE" then parse_fts_score_rest
  else if String.eqb upper "TOPK_DISTANCE" then parse_topk_distance_rest
  else if String.eqb upper "EXPLODE_RENAME" then parse_explode_rename_rest
  else
    let is_count := eq_ignore_ascii_case name "count" in
    let* t := current in
    match t, is_count with
    | TkStar, true => advance ;;; expect TkRParen ;;; pret (EFunction name [])
    | TkDistinct, false => query_error
    | _, _ =>
        let* distinct := accept TkDistinct in
        let* args := parse_args in
        expect TkRParen ;;;
        parse_array_index (EFunction (if distinct then "COUNT_DISTINCT"%string else name) args)
    end.

(** A left-associative level: [operand (op operand)*]. *)
Definition left_assoc (op_of : Token -> option BinaryOperator) (operand : Parser Expr) : Parser Expr :=
  let* l := operand in
  loop (fun l =>
    let* t := current in
    match op_of t with
    | Some op => advance ;;; let* r := operand in again (EBinaryOp l op r)
    | None => leave l
    end) l.

Definition parse_case : Parser Expr :=
  let* t := current in
  let* case_operand := match t with
                       | TkWhen => pret None
                       | _ => let* e := parse_expr in pret (Some e)
                       end in
  let* when_then := loop (fun when_then =>
    let* is_when := accept TkWhen in
    if is_when then
      let* candidate := parse_expr in
      let cond := match case_operand with
                  | Some operand => EBinaryOp operand OpEq candidate
                  | None => candidate
                  end in
      expect TkThen ;;;
      let* val := parse_expr in
      again (when_then ++ [(cond, val)])
    else leave when_then) [] in
  let* is_else := accept TkElse in
  let* else_expr := if is_else then let* v := parse_expr in pret (Some v) else pret None in
  expect TkEnd ;;;
  pret (ECase when_then else_expr).

Definition parse_cast : Parser Expr :=
  expect TkLParen ;;;
  let* expr := parse_expr in
  expect TkAs ;;;
  let* t := current in
  match t with
  | TkIdentifier ty =>
      advance ;;;
      let* t := current in
      (match t with
       | TkRParen => advance
       | TkAs => pret tt
       | _ => expect TkRParen
       end) ;;;
      match DataType_from_sql_type ty with
      | Some data_type => pret (ECast expr data_type)
      | None => query_error
      end
  | _ => query_error
  end.

Definition parse_array_literal : Parser Expr :=
  let* values := loop (fun values =>
    let* t := current in
    match t with
    | TkRBracket | TkEof => leave values
    | _ =>
        let* v := array_number f64_neg id f64_of_Z [(TkMinus, true); (TkPlus, false)] in
        again (values ++ [v])
    end) [] in
  expect TkRBracket ;;;
  pret (EArrayLiteral values).

(** An identifier: the full-text functions, a call, or a qualified column. *)
Definition parse_named (name : string) : Parser Expr :=
  let* t := current in
  match t with
  | TkLParen =>
      let upper := to_uppercase name in
      let fuzzy := String.eqb upper "FUZZY_MATCH" in
      if String.eqb upper "MATCH" || fuzzy then
        advance ;;;
        let* query := parse_string_literal in
        expect TkRParen ;;;
        pret (EFtsMatch query fuzzy)
      else if String.eqb upper "FTS_SCORE" then advance ;;; parse_fts_score_rest
      else let* call := parse_function_call_from_name name in maybe_parse_over call
  | _ => let* full := parse_qualifiers name in pret (EColumn full)
  end.

Definition parse_aggregate (name : string) : Parser Expr :=
  advance ;;; let* call := parse_function_call_from_name name in maybe_parse_over call.

Definition parse_primary : Parser Expr :=
  let* t := current in
  match t with
  | TkLParen =>
      advance ;;;
      let* t := current in
      match t with
      | TkSelect =>
          let* sub := parse_select_internal true in
          expect TkRParen ;;; pret (EScalarSubquery sub)
      | _ => let* expr := parse_expr in expect TkRParen ;;; pret (EParen expr)
      end
  | TkExists =>
      advance ;;;
      expect TkLParen ;;;
      let* t := current in
      match t with
      | TkSelect =>
          let* sub := parse_select_internal true in
          expect TkRParen ;;; pret (EExistsSubquery sub)
      | _ => query_error
      end
  | TkCast => advance ;;; parse_cast
  | TkCase => advance ;;; parse_case
  | TkStringLit s => advance ;;; pret (ELiteral (VString s))
  | TkIntLit n => advance ;;; pret (ELiteral (VInt64 n))
  | TkFloatLit f => advance ;;; pret (ELiteral (VFloat64 f))
  | TkTrue => advance ;;; pret (ELiteral (VBool true))
  | TkFalse => advance ;;; pret (ELiteral (VBool false))
  | TkNull => advance ;;; pret (ELiteral VNull)
  | TkLBracket => advance ;;; parse_array_literal
  | TkIdentifier name => advance ;;; parse_named name
  | TkVariable name => advance ;;; pret (EVariable name)
  | TkCount => parse_aggregate "count"
  | TkSum => parse_aggregate "sum"
  | TkAvg => parse_aggregate "avg"
  | TkMin => parse_aggregate "min"
  | TkMax => parse_aggregate "max"
  | TkIf => advance ;;; parse_function_call_from_name "if"
  | TkReplace => advance ;;; parse_function_call_from_name "replace"
  | _ => query_error
  end.

(** Prefix operators, which recurse on themselves. *)
Fixpoint parse_unary_n (n : nat) : Parser Expr :=
  match n with
  | O => fun _ => PDiverges
  | S n =>
      let* t := current in
      match t with
      | TkMinus => advance ;;; let* expr := parse_unary_n n in pret (EUnaryOp OpMinus expr)
      | _ => parse_primary
      end
  end.

Definition parse_unary : Parser Expr := fun st => parse_unary_n (length st) st.

Definition mul_op (t : Token) : option BinaryOperator :=
  match t with TkStar => Some OpMul | TkSlash => Some OpDiv | TkPercent => Some OpMod | _ => None end.
Definition add_op (t : Token) : option BinaryOperator :=
  match t with TkPlus => Some OpAdd | TkMinus => Some OpSub | _ => None end.
Definition and_op (t : Token) : option BinaryOperator := match t with TkAnd => Some OpAnd | _ => None end.
Definition or_op (t : Token) : option BinaryOperator := match t with TkOr => Some OpOr | _ => None end.
Definition cmp_op (t : Token) : option BinaryOperator :=
  match t with
  | TkEq => Some OpEq | TkNotEq => Some OpNotEq | TkLt => Some OpLt
  | TkLe => Some OpLe | TkGt => Some OpGt | TkGe => Some OpGe
  | _ => None
  end.

Definition parse_mul_div : Parser Expr := left_assoc mul_op parse_unary.
Definition parse_add_sub : Parser Expr := left_assoc add_op parse_mul_div.

(** The special forms after a left operand; most want it to be a column. *)
Definition column_of (e : Expr) : option string := match e with EColumn c => Some c | _ => None end.

Definition parse_pattern : Parser string :=
  let* t := current in
  match t with
  | TkStringLit s | TkIdentifier s => advance ;;; pret s
  | _ => query_error
  end.

Definition negate (negated : bool) (e : Expr) : Expr := if negated then EUnaryOp OpNot e else e.

Definition parse_in_values : Parser (list (Value J)) :=
  loop (fun values =>
    let* t := current in
    match t with
    | TkStringLit _ | TkIntLit _ | TkFloatLit _ | TkTrue | TkFalse | TkNull =>
        let* v := parse_literal_value in
        let* comma := accept TkComma in
        if comma then again (values ++ [v]) else leave (values ++ [v])
    | _ => leave values
    end) [].

Definition parse_in (column : string) (negated : bool) : Parser Expr :=
  advance ;;;
  expect TkLParen ;;;
  let* t := current in
  match t with
  | TkSelect =>
      let* sub := parse_select_internal true in
      expect TkRParen ;;; pret (EInSubquery column sub negated)
  | _ =>
      let* values := parse_in_values in
      expect TkRParen ;;; pret (EIn column values negated)
  end.

Definition parse_between (l : Expr) (negated : bool) : Parser Expr :=
  advance ;;;
  let* low := parse_add_sub in
  expect TkAnd ;;;
  let* high := parse_add_sub in
  match column_of l with
  | Some column => pret (EBetween column low high negated)
  | None =>
      pret (EBinaryOp (EBinaryOp l (if negated then OpLt else OpGe) low)
              (if negated then OpOr else OpAnd)
              (EBinaryOp l (if negated then OpGt else OpLe) high))
  end.

(** [IS \[NOT\] NULL]: the [negated] of this branch shadows the one before it. *)
Definition parse_is_null (column : string) : Parser Expr :=
  advance ;;;
  let* negated := accept TkNot in
  expect TkNull ;;;
  pret (EIsNull column negated).

Definition parse_comparison : Parser Expr :=
  let* l := parse_add_sub in
  let left_col := column_of l in
  let* negated := accept TkNot in
  let* t := current in
  match t, left_col with
  | TkLike, None => query_error
  | TkLike, Some column =>
      advance ;;; let* pattern := parse_pattern in pret (ELike column pattern negated)
  | TkRegexp, _ =>
      advance ;;;
      let* pattern := parse_pattern in
      match left_col with
      | Some column => pret (ERegexp column pattern negated)
      | None => pret (negate negated (EFunction "REGEXP_LIKE" [l; ELiteral (VString pattern)]))
      end
  | TkIn, None => query_error
  | TkIn, Some column => parse_in column negated
  | TkBetween, _ => parse_between l negated
  | TkIs, None => query_error
  | TkIs, Some column => parse_is_null column
  | _, _ =>
      if negated then syntax_error
      else match cmp_op t with
           | Some op => advance ;;; let* r := parse_add_sub in pret (EBinaryOp l op r)
           | None => pret l
           end
  end.

Fixpoint parse_not_n (n : nat) : Parser Expr :=
  match n with
  | O => fun _ => PDiverges
  | S n =>
      let* is_not := accept TkNot in
      if is_not then let* expr := parse_not_n n in pret (EUnaryOp OpNot expr)
      else parse_comparison
  end.

Definition parse_not : Parser Expr := fun st => parse_not_n (length st) st.
Definition parse_and : Parser Expr := left_assoc and_op parse_not.
Definition parse_or : Parser Expr := left_assoc or_op parse_and.
End expressions.

(** ** The knot *)

Section knot.
Variable parse_select_internal : bool -> Parser Sel.
Variable display : Expr -> string.

(** [parse_expr], for expressions nested at most [n] deep. *)
Fixpoint parse_expr_n (n : nat) : Parser Expr :=
  match n with
  | O => fun _ => PDiverges
  | S n => parse_or parse_select_internal display (parse_expr_n n)
  end.

Definition parse_expr : Parser Expr := fun st => parse_expr_n (length st) st.

(** [parse_expression]: the whole text is one expression. *)
Definition parse_expression (expr : string) : PResult Expr :=
  match tokenize expr with
  | LexErr e => PErr (LexicalError e)
  | Unfinished => PDiverges
  | Tokens ts =>
      (let* e := parse_expr in
       let* t := current in
       match t with TkEof => pret e | _ => syntax_error end) ts
  end.

(** ** Lists of values and assignments *)

Inductive InsertValue := IvValue (v : Value J) | IvDefault.

Definition parse_values_list : Parser (list (list InsertValue)) :=
  comma_list (
    expect TkLParen ;;;
    let* row := comma_list (
      let* t := current in
      if identifier_is t "DEFAULT" then advance ;;; pret IvDefault
      else let* v := parse_literal_value in pret (IvValue v)) in
    expect TkRParen ;;;
    pret row).

Definition parse_assignments : Parser (list (string * Expr)) :=
  comma_list (
    let* column := parse_identifier in
    expect TkEq ;;;
    let* value := parse_expr in
    pret (column, value)).
End knot.
End parser.

(** ** Examples *)

Definition no_select (_ : bool) : Parser Empty_set := query_error.

Definition parse_example (sql : string) : PResult (SqlExpr Empty_set Empty_set) :=
  parse_expression no_select (fun _ => EmptyString) sql.

Definition parsed (r : PResult (SqlExpr Empty_set Empty_set)) : option (SqlExpr Empty_set Empty_set) :=
  match r with POk e _ => Some e | _ => None end.

Example precedence_example :
  parsed (parse_example "not a = 1 + 2 * -b or c between 1 and f(2)[1] and d is not null") =
  Some (EBinaryOp
    (EUnaryOp OpNot (EBinaryOp (EColumn "a") OpEq
      (EBinaryOp (ELiteral (VInt64 1)) OpAdd
        (EBinaryOp (ELiteral (VInt64 2)) OpMul (EUnaryOp OpMinus (EColumn "b"))))))
    OpOr
    (EBinaryOp
      (EBetween "c" (ELiteral (VInt64 1))
        (EArrayIndex (EFunction "f" [ELiteral (VInt64 2)]) (ELiteral (VInt64 1))) false)
      OpAnd (EIsNull "d" true))).
Proof. vm_compute. reflexivity. Qed.
