(* ===== verification/SqlParserFacts.v ===== *)
(** * The expression parser returns

    [ok N k p]: from every token list that is ready (it ends with the end marker, every
    aggregate argument in it is closed, and it holds no SELECT) and has at most [N] tokens, [p] returns; when it returns a value [a],
    it has consumed at least [k a] tokens and leaves a ready list.  The rules follow the
    combinators of the parser; the bound [N] shrinks as tokens are consumed, which is what justifies the fuel. *)
From Stdlib Require Import Ascii.
From S2P Require Import Prelude Bytes Float Values SqlAst Decimal SqlLexer SqlParser.
Local Open Scope apex_scope.
Local Open Scope nat_scope.

(** ** Ready token lists *)

(** Whether a closing parenthesis brings the depth to zero. *)
Fixpoint closes (depth : nat) (st : tokens) : bool :=
  match st with
  | [] => false
  | t :: st =>
      match st_token t with
      | TkLParen => closes (S depth) st
      | TkRParen => match depth with O | 1 => true | S depth => closes depth st end
      | _ => closes depth st
      end
  end.

(** After [SUM(], [COUNT(], ... the argument is closed. *)
Fixpoint aggregates_closed (st : tokens) : bool :=
  match st with
  | [] => true
  | t :: rest =>
      match aggregate_name (st_token t), rest with
      | Some _, p :: rest' => if bool_decide (st_token p = TkLParen) then closes 1 rest' else true
      | _, _ => true
      end && aggregates_closed rest
  end.

(** No subquery begins in the list. *)
Definition select_free (st : tokens) : bool :=
  forallb (fun t => negb (bool_decide (st_token t = TkSelect))) st.

Definition ready (st : tokens) : Prop :=
  aggregates_closed st && select_free st = true /\ exists l t, st = l ++ [t] /\ st_token t = TkEof.

Lemma ready_tail t st : st <> [] -> ready (t :: st) -> ready st.
Proof.
  intros Hne [Hc (l & e & Hl & He)]. simpl in Hc. rewrite !andb_true_iff in Hc.
  split; [apply andb_true_iff; tauto|].
  destruct l as [|x l]; simpl in Hl; simplify_eq. eauto.
Qed.

Lemma ready_nonempty st : ready st -> 1 <= length st.
Proof. intros [_ (l & t & -> & _)]. rewrite length_app. simpl. lia. Qed.

Lemma ready_more st : ready st -> head_token st <> TkEof -> exists t u st', st = t :: u :: st'.
Proof.
  intros [_ (l & t & -> & Ht)] Hh. destruct l as [|x [|y l]]; simpl in *; [done|eauto..].
Qed.

Lemma ready_select st : ready st -> head_token st <> TkSelect.
Proof.
  intros [Hs (l & e & Hl & He)] Hh. apply andb_true_iff in Hs as [_ Hs]. destruct st as [|t st].
  { by destruct l. }
  cbn in Hs, Hh. by rewrite Hh in Hs.
Qed.

(** ** The rules *)

Definition ok {A} (N : nat) (k : A -> nat) (p : Parser A) : Prop :=
  forall st, ready st -> length st <= N ->
  match p st with
  | POk a st' => ready st' /\ length st' + k a <= length st
  | PErr _ => True
  | PDiverges => False
  end.

(** The same when the current token is known. *)
Definition ok_at {A} (t : Token) (N : nat) (k : A -> nat) (p : Parser A) : Prop :=
  forall st, ready st -> head_token st = t -> length st <= N ->
  match p st with
  | POk a st' => ready st' /\ length st' + k a <= length st
  | PErr _ => True
  | PDiverges => False
  end.

Section rules.
Context {A B : Type}.
Implicit Types (N : nat) (t : Token).

Lemma ok_weaken N N' (k k' : A -> nat) p :
  N' <= N -> (forall a, k' a <= k a) -> ok N k p -> ok N' k' p.
Proof.
  intros HN Hk H st Hr Hl. specialize (H st Hr ltac:(lia)). destruct (p st) as [a st'| |]; try done.
  specialize (Hk a). naive_solver lia.
Qed.

Lemma ok_fewer N (k k' : A -> nat) p : (forall a, k a <= k' a) -> ok N k' p -> ok N k p.
Proof. intros H. by apply ok_weaken. Qed.

Lemma ok_any N (k : A -> nat) p : ok N k p -> ok N (fun _ => 0) p.
Proof. apply ok_weaken; [done|lia]. Qed.

Lemma ok_ok_at t N (k : A -> nat) p : ok N k p -> ok_at t N k p.
Proof. intros H st Hr _ Hl. by apply H. Qed.

Lemma ok_at_fewer t N (k k' : A -> nat) p : (forall a, k a <= k' a) -> ok_at t N k' p -> ok_at t N k p.
Proof.
  intros Hk H st Hr Ht Hl. specialize (H st Hr Ht Hl). destruct (p st) as [a st'| |]; try done.
  specialize (Hk a). naive_solver lia.
Qed.

Lemma ok_pret N (k : A -> nat) a : k a = 0 -> ok N k (pret a).
Proof. intros Hk st Hr Hl. simpl. split; [done|lia]. Qed.

Lemma ok_query_error N (k : A -> nat) : ok N k query_error.
Proof. done. Qed.

Lemma ok_syntax_error N (k : A -> nat) : ok N k syntax_error.
Proof. done. Qed.

Lemma ok_at_bind t N (k1 : A -> nat) (k : B -> nat) p q :
  ok_at t N k1 p -> (forall a, ok (N - k1 a) (fun b => k b - k1 a) (q a)) -> ok_at t N k (pbind p q).
Proof.
  intros Hp Hq st Hr Ht Hl. specialize (Hp st Hr Ht Hl). unfold pbind. destruct (p st) as [a st'| |]; try done.
  destruct Hp as [Hr' Hl']. specialize (Hq a st' Hr' ltac:(lia)). destruct (q a st') as [b st''| |]; try done.
  naive_solver lia.
Qed.

Lemma ok_bind N (k1 : A -> nat) (k : B -> nat) p q :
  ok N k1 p -> (forall a, ok (N - k1 a) (fun b => k b - k1 a) (q a)) -> ok N k (pbind p q).
Proof.
  intros Hp Hq st Hr Hl. eapply (ok_at_bind (head_token st)); eauto using ok_ok_at.
Qed.

Lemma ok_current N (k : A -> nat) f : (forall t, ok_at t N k (f t)) -> ok N k (pbind current f).
Proof. intros H st Hr Hl. by apply (H (head_token st)). Qed.

Lemma ok_at_current t N (k : A -> nat) f : ok_at t N k (f t) -> ok_at t N k (pbind current f).
Proof. intros H st Hr Ht Hl. unfold pbind, current. rewrite Ht. by apply H. Qed.

(** No ready list starts with SELECT. *)
Lemma ok_at_select N (k : A -> nat) p : ok_at TkSelect N k p.
Proof. intros st Hr Hh _. by destruct (ready_select st Hr). Qed.

Lemma ok_at_advance t N (k : A -> nat) q :
  t <> TkEof -> ok (N - 1) (fun a => k a - 1) q -> ok_at t N k (advance ;;; q).
Proof.
  intros Ht Hq st Hr Hh Hl. destruct (ready_more st Hr) as (x & y & st' & ->); [congruence|].
  assert (ready (y :: st')) as Hr' by (by eapply ready_tail).
  simpl in *. specialize (Hq (y :: st') Hr' ltac:(simpl; lia)). unfold pbind. simpl.
  destruct (q (y :: st')) as [b st''| |]; try done. simpl in Hq. naive_solver lia.
Qed.

End rules.

Lemma Token_discriminant_eof t : Token_discriminant t = Token_discriminant TkEof -> t = TkEof.
Proof. by destruct t. Qed.

Lemma ok_advance N t : t <> TkEof -> ok_at t N (fun _ => 1) advance.
Proof.
  intros Ht st Hr Hh Hl. destruct (ready_more st Hr) as (x & y & st' & ->); [congruence|].
  simpl. split; [by eapply ready_tail|lia].
Qed.

Lemma ok_expect N t : t <> TkEof -> ok N (fun _ => 1) (expect t).
Proof.
  intros Ht st Hr Hl. unfold expect. destruct (Z.eqb_spec (Token_discriminant (head_token st)) (Token_discriminant t)) as [Heq|];
    [|done].
  apply (ok_advance N (head_token st)); try done. intros Heof. apply Ht, Token_discriminant_eof. congruence.
Qed.

Lemma ok_accept N t : t <> TkEof -> ok N (fun b : bool => if b then 1 else 0) (accept t).
Proof.
  intros Ht. apply ok_current. intros c. case_bool_decide; subst.
  - apply ok_at_advance; [done|]. by apply ok_pret.
  - apply ok_ok_at. by apply ok_pret.
Qed.

(** A turn that goes round again consumes. *)
Definition turn {A B} (k : B -> nat) (r : A + B) : nat := match r with inl _ => 1 | inr b => k b end.

Lemma ok_loop {A B} N (k : B -> nat) (step : A -> Parser (A + B)) a :
  (forall a, ok N (turn k) (step a)) -> ok N k (loop step a).
Proof.
  intros Hstep st Hr Hl. unfold loop. pose proof (ready_nonempty _ Hr) as Hne.
  assert (forall n a st, ready st -> length st <= N -> length st <= n ->
    match loop_n n step a st with
    | POk b st' => ready st' /\ length st' + k b <= length st
    | PErr _ => True
    | PDiverges => False
    end) as H.
  { clear a st Hr Hl Hne. intros n. induction n as [|n IH]; intros a st Hr Hl Hn.
    - pose proof (ready_nonempty _ Hr). lia.
    - cbn [loop_n]. unfold pbind. specialize (Hstep a st Hr Hl).
      destruct (step a st) as [[a'|b] st'| |]; try done; simpl in Hstep; destruct Hstep as [Hr' Hl'].
      specialize (IH a' st' Hr' ltac:(lia) ltac:(lia)).
      destruct (loop_n n step a' st') as [b st''| |]; try done. naive_solver lia. }
  by apply H.
Qed.

Lemma ok_again {A B} N (k : A + B -> nat) a : k (inl a) = 0 -> ok N k (@again A B a).
Proof. apply ok_pret. Qed.

Lemma ok_leave {A B} N (k : A + B -> nat) b : k (inr b) = 0 -> ok N k (@leave A B b).
Proof. apply ok_pret. Qed.

Create HintDb parser.
#[export] Hint Resolve ok_expect ok_accept ok_query_error ok_syntax_error ok_advance : parser.
#[export] Hint Extern 1 (_ <> TkEof) => discriminate : parser.

(** Follow the combinators of a parser. *)
Ltac ok_step :=
  match goal with
  | |- forall _, _ => intro
  | |- ok_at TkSelect _ _ _ => apply ok_at_select
  | |- ok _ _ (pret _) => apply ok_pret; simpl; lia
  | |- ok _ _ (again _) => apply ok_again; simpl; lia
  | |- ok _ _ (leave _) => apply ok_leave; simpl; lia
  | |- ok _ _ query_error => apply ok_query_error
  | |- ok _ _ syntax_error => apply ok_syntax_error
  | |- ok _ _ (pbind current _) => apply ok_current
  | |- ok_at _ _ _ (pbind current _) => apply ok_at_current
  | |- ok_at _ _ _ (pbind advance (fun _ => _)) => apply ok_at_advance; [solve [discriminate | eauto with parser]|]
  | |- ok _ _ (pbind _ _) => eapply ok_bind; [solve [eauto with parser]|]
  | |- ok_at _ _ _ (pbind _ _) => eapply ok_at_bind; [solve [eauto using ok_ok_at with parser]|]
  | |- ok _ _ (pbind _ _) => apply ok_bind with (k1 := fun _ => 0)
  | |- ok_at _ _ _ (pbind _ _) => apply ok_at_bind with (k1 := fun _ => 0)
  | |- ok _ _ (loop _ _) => apply ok_loop
  | |- ok ?N ?k (match ?x with _ => _ end) => destruct x eqn:?
  | |- ok_at _ ?N ?k (match ?x with _ => _ end) => destruct x eqn:?
  | |- ok_at _ _ _ advance => eapply ok_at_fewer; [|apply ok_advance; discriminate]; intro; simpl; lia
  | |- ok _ _ _ => solve [eauto with parser]
  | |- ok _ _ _ => eapply ok_fewer; [|solve [eauto with parser]]; intro; simpl; lia
  | |- ok_at _ _ _ _ => apply ok_ok_at
  end.
#[export] Hint Extern 1 (~ In TkEof _) => (simpl; intuition discriminate) : parser.
Ltac ok_auto := repeat (ok_step; cbn beta).

(** ** Each function returns *)

Lemma ok_comma_list {A} N (item : Parser A) : ok N (fun _ => 1) item -> ok N (fun _ => 1) (comma_list item).
Proof. intros Hi. unfold comma_list. ok_auto. Qed.

Lemma ok_parse_identifier N : ok N (fun _ => 1) parse_identifier.
Proof. unfold parse_identifier. ok_auto. Qed.
#[export] Hint Resolve ok_comma_list ok_parse_identifier : parser.

Lemma ok_parse_qualifiers N full : ok N (fun _ => 0) (parse_qualifiers full).
Proof. unfold parse_qualifiers. ok_auto. Qed.
#[export] Hint Resolve ok_parse_qualifiers : parser.

Lemma ok_parse_column_ref N : ok N (fun _ => 1) parse_column_ref.
Proof. unfold parse_column_ref. ok_auto. Qed.
#[export] Hint Resolve ok_parse_column_ref : parser.

Lemma ok_parse_column_list N : ok N (fun _ => 1) parse_column_list.
Proof. unfold parse_column_list. apply ok_comma_list. ok_auto. Qed.
#[export] Hint Resolve ok_parse_column_list : parser.

Lemma ok_array_number {A} N (neg : A -> A) of_float of_int signs :
  ~ In TkEof (map fst signs) -> ok N (fun _ => 1) (array_number neg of_float of_int signs).
Proof.
  intros Hs. unfold array_number. apply ok_current. intros t.
  apply ok_at_bind with (k1 := fun _ => 0).
  - destruct (List.find _ signs) as [[t' s]|] eqn:Hf; simpl; [|by apply ok_ok_at, ok_pret].
    apply find_some in Hf as [Hin Ht]. apply bool_decide_eq_true in Ht. simpl in Ht. subst t'.
    intros st Hr Hh Hl. pose proof (ok_advance N t) as Ha.
    specialize (Ha ltac:(intros ->; exact (Hs (in_map fst _ _ Hin))) st Hr Hh Hl).
    destruct (advance st); try done. naive_solver lia.
  - intros _. apply ok_current. intros t'.
    apply ok_at_bind with (k1 := fun _ => 1); [ok_auto|]. intros v. ok_auto.
Qed.

#[export] Hint Resolve ok_array_number : parser.

Lemma ok_parse_literal_value {J} N : ok N (fun _ => 1) (@parse_literal_value J).
Proof.
  unfold parse_literal_value. ok_auto.
Qed.
#[export] Hint Resolve ok_parse_literal_value : parser.

Lemma ok_parse_frame_direction {A} N (a b : A) : ok N (fun _ => 1) (parse_frame_direction a b).
Proof. unfold parse_frame_direction. ok_auto. Qed.

Lemma ok_signed_offset N : ok N (fun _ => 0) signed_offset.
Proof. unfold signed_offset. ok_auto. Qed.
#[export] Hint Resolve ok_parse_frame_direction ok_signed_offset : parser.

Lemma identifier_not_eof t word : identifier_is t word = true -> t <> TkEof.
Proof. by intros ? ->. Qed.
#[export] Hint Resolve identifier_not_eof : parser.

Lemma ok_parse_window_frame_bound N : ok N (fun _ => 1) parse_window_frame_bound.
Proof. unfold parse_window_frame_bound. ok_auto. Qed.
#[export] Hint Resolve ok_parse_window_frame_bound : parser.

Lemma ok_parse_optional_window_frame N : ok N (fun _ => 0) parse_optional_window_frame.
Proof.
  unfold parse_optional_window_frame. apply ok_current. intros t.
  destruct (identifier_is t "rows") eqn:H1; [ok_auto|]. destruct (identifier_is t "range") eqn:H2; ok_auto.
Qed.
#[export] Hint Resolve ok_parse_optional_window_frame : parser.

(** The scan over an aggregate's argument returns when the argument is closed. *)
Lemma opaque_scan_returns n depth arg st :
  ready st -> closes (S depth) st = true -> length st <= n ->
  match loop_n n opaque_step (S depth, arg) st with
  | POk _ st' => ready st' /\ length st' + 1 <= length st
  | PErr _ => True
  | PDiverges => False
  end.
Proof.
  revert depth arg st. induction n as [|n IH]; intros depth arg st Hr Hc Hn.
  { pose proof (ready_nonempty _ Hr). lia. }
  destruct st as [|t [|u st]]; [done| |].
  { destruct Hr as [_ (l & e & Hl & He)]. destruct l as [|x [|]]; simplify_eq/=. by rewrite He in Hc. }
  pose proof (ready_tail t (u :: st) ltac:(done) Hr) as Hr'.
  assert (forall d arg', closes (S d) (u :: st) = true ->
    match loop_n n opaque_step (S d, arg') (u :: st) with
    | POk _ st' => ready st' /\ length st' + 1 <= length (t :: u :: st)
    | PErr _ => True
    | PDiverges => False
    end) as Hnext.
  { intros d arg' Hd. specialize (IH d arg' (u :: st) Hr' Hd ltac:(simpl in *; lia)).
    destruct (loop_n n opaque_step _ _) as [b st'| |]; try done. simpl in *. naive_solver lia. }
  assert (forall arg', match loop_n n opaque_step (0, arg') (u :: st) with
    | POk _ st' => ready st' /\ length st' + 1 <= length (t :: u :: st)
    | PErr _ => True
    | PDiverges => False
    end) as Hlast.
  { intros arg'. destruct n as [|n]; [simpl in Hn; lia|]. cbn. split; [done|lia]. }
  cbn [loop_n]. unfold opaque_step at 1. cbn [closes] in Hc. unfold pbind at 1 2, current. cbn [head_token].
  destruct (st_token t); try (apply (Hnext depth); exact Hc); [apply (Hnext (S depth)); exact Hc|].
  destruct depth as [|depth]; [apply Hlast|apply Hnext; exact Hc].
Qed.

Lemma ok_parse_opaque_argument N t :
  aggregate_name t <> None ->
  ok_at t N (fun _ => 1) (advance ;;; parse_opaque_argument).
Proof.
  intros Ha st Hr Hh Hl. destruct (ready_more st Hr) as (x & y & st' & ->); [by intros He; subst; rewrite He in Ha|].
  pose proof (ready_tail x (y :: st') ltac:(done) Hr) as Hr'.
  cbn [head_token] in Hh. subst t. unfold pbind at 1. cbn [advance].
  unfold parse_opaque_argument, accept, pbind, current. cbn [head_token].
  destruct Hr as [Hc _]. apply andb_true_iff in Hc as [Hc _]. cbn [aggregates_closed] in Hc.
  apply andb_true_iff in Hc as [Hc _].
  destruct (aggregate_name (st_token x)) as [name|]; [|done].
  case_bool_decide as Hp; [|simpl; split; [done|lia]].
  destruct st' as [|z st']; [done|].
  pose proof (ready_tail y (z :: st') ltac:(done) Hr') as Hr''. cbn [advance pret]. unfold loop.
  pose proof (opaque_scan_returns (length (z :: st')) 0 EmptyString (z :: st') Hr'' Hc ltac:(done)) as H.
  destruct (loop_n _ _ _ _) as [b st''| |]; try done. simpl in *. naive_solver lia.
Qed.

Lemma ok_at_assoc {A B C} t N (k : C -> nat) (p : Parser A) (q : A -> Parser B) (r : B -> Parser C) :
  ok_at t N k (pbind (pbind p q) r) -> ok_at t N k (pbind p (fun a => pbind (q a) r)).
Proof.
  intros H st Hr Ht Hl. specialize (H st Hr Ht Hl). unfold pbind in *. by destruct (p st).
Qed.

Lemma ok_parse_descending N : ok N (fun _ => 0) parse_descending.
Proof. unfold parse_descending. ok_auto. Qed.

Lemma ok_parse_nulls_first N : ok N (fun _ => 0) parse_nulls_first.
Proof. unfold parse_nulls_first. ok_auto. Qed.
#[export] Hint Resolve ok_parse_descending ok_parse_nulls_first : parser.

Section parser.
Context {J Sel : Type}.
Abbreviation Expr := (SqlExpr J Sel).
Variable parse_select_internal : bool -> Parser Sel.
Variable display : Expr -> string.

(** [parse_expr] is called with fewer than [N] tokens left. *)
Section callback.
Variable N : nat.
Variable parse_expr : Parser Expr.
Hypothesis expr_ok : ok (N - 1) (fun _ => 1) parse_expr.

Lemma expr_ok_sub M k : M <= N - 1 -> (forall a, k a <= 1) -> ok M k parse_expr.
Proof using expr_ok. intros HM Hk. eapply ok_weaken; [exact HM|exact Hk|exact expr_ok]. Qed.

Lemma ok_parse_order_key M :
  M <= N - 1 -> ok M (fun key => if key is Some _ then 1 else 0) (parse_order_key parse_expr display).
Proof using expr_ok.
  intros HM. unfold parse_order_key. apply ok_current. intros t.
  destruct (aggregate_name t) as [name|] eqn:Ha.
  - apply ok_at_assoc. eapply ok_at_bind; [apply ok_parse_opaque_argument; congruence|]. ok_auto.
  - assert (ok M (fun key : option (string * option Expr) => if key is Some _ then 1 else 0)
      (let* expr := parse_expr in pret (Some (display expr, Some expr)))) as He.
    { eapply ok_bind; [apply (expr_ok_sub M (fun _ => 1)); [done|done]|]. ok_auto. }
    destruct t; simpl in Ha; simplify_eq; cbn iota; try (apply ok_ok_at; first [exact He | by apply ok_pret]).
    + intros st Hr Hh Hl. pose proof (ok_parse_column_ref M st Hr Hl) as Hc. unfold pbind at 1 2.
      destruct (parse_column_ref st) as [col st'| |]; try done. cbn [current].
      specialize (He st Hr Hl). destruct Hc as [Hr' Hl'].
      destruct (head_token st'); try exact He; simpl; (split; [done|lia]).
    + ok_auto.
Qed.

Lemma ok_parse_order_by M : M <= N - 1 -> ok M (fun _ => 0) (parse_order_by parse_expr display).
Proof using expr_ok.
  intros HM. unfold parse_order_by. apply ok_loop. intros clauses.
  eapply ok_bind; [by apply ok_parse_order_key|]. ok_auto.
Qed.

Lemma ok_parse_group_by_list M : M <= N - 1 -> ok M (fun _ => 0) (parse_group_by_list parse_expr display).
Proof using expr_ok.
  intros HM. unfold parse_group_by_list. apply ok_loop. intros [names exprs].
  apply ok_bind with (k1 := fun _ => 1); [|ok_auto].
  intros st Hr Hl. destruct st as [|t st]; [done|]. destruct (st_token t); try done. destruct (_ =? _)%Z.
  - apply (ok_bind M (fun _ => 1) (fun _ => 1)); [by apply expr_ok_sub|ok_auto|done|done].
  - apply (ok_bind M (fun _ => 1) (fun _ => 1)); [apply ok_parse_column_ref|ok_auto|done|done].
Qed.

Ltac sub_expr := apply expr_ok_sub; simpl; [lia|intro; lia].
Hint Extern 2 (ok _ _ parse_expr) => sub_expr : parser.
Hint Extern 2 (ok _ _ (parse_order_by _ _)) => (apply ok_parse_order_by; simpl; lia) : parser.

(** After [M] tokens at most are left, fewer than [N]. *)
Lemma ok_maybe_parse_over M expr : M <= N - 1 -> ok M (fun _ => 0) (maybe_parse_over display parse_expr expr).
Proof using expr_ok.
  intros HM. unfold maybe_parse_over. ok_auto.
Qed.

Lemma ok_parse_array_index M expr : M <= N - 1 -> ok M (fun _ => 0) (parse_array_index parse_expr expr).
Proof using expr_ok.
  intros HM. unfold parse_array_index. apply ok_loop. intros e.
  eapply ok_bind; [by apply ok_accept|]. intros [|]; [|ok_auto].
  eapply ok_bind with (k1 := fun _ => 1); [sub_expr|]. ok_auto.
Qed.

Lemma ok_parse_fts_score_rest M : ok M (fun _ => 1) (@parse_fts_score_rest J Sel).
Proof using. unfold parse_fts_score_rest. ok_auto. Qed.

Lemma ok_parse_string_literal M : ok M (fun _ => 1) parse_string_literal.
Proof using. unfold parse_string_literal. ok_auto. Qed.
Hint Resolve ok_parse_fts_score_rest ok_parse_string_literal : parser.

Lemma ok_parse_topk_distance_rest M : M <= N - 1 -> ok M (fun _ => 1) (parse_topk_distance_rest parse_expr).
Proof using expr_ok.
  intros HM. unfold parse_topk_distance_rest. do 4 ok_step. eapply ok_bind with (k1 := fun _ => 1); [sub_expr|]. ok_auto.
Qed.

Lemma ok_parse_explode_rename_rest M : M <= N - 1 -> ok M (fun _ => 1) (parse_explode_rename_rest parse_expr).
Proof using expr_ok.
  intros HM. unfold parse_explode_rename_rest. eapply ok_bind with (k1 := fun _ => 1); [sub_expr|]. ok_auto.
Qed.

Lemma ok_parse_args M : M <= N - 1 -> ok M (fun _ => 0) (parse_args parse_expr).
Proof using expr_ok.
  intros HM. unfold parse_args. apply ok_current. intros t.
  assert (ok M (fun _ => 0) (comma_list parse_expr)) as Hc.
  { eapply ok_any, ok_comma_list. sub_expr. }
  destruct t; ok_auto; apply ok_ok_at; apply Hc.
Qed.

Lemma ok_parse_function_call_from_name M name :
  M <= N -> ok M (fun _ => 1) (parse_function_call_from_name parse_expr name).
Proof using expr_ok.
  intros HM. unfold parse_function_call_from_name. apply ok_bind with (k1 := fun _ => 1); [by apply ok_expect|]. intros _. cbn beta.
  destruct (String.eqb _ _); [ok_auto|]. destruct (String.eqb _ _).
  { eapply ok_any, ok_parse_topk_distance_rest. lia. }
  destruct (String.eqb _ _).
  { eapply ok_any, ok_parse_explode_rename_rest. lia. }
  assert (forall distinct : bool, ok (M - 1) (fun _ : Expr => 0)
    (let* args := parse_args parse_expr in
     expect TkRParen ;;;
     parse_array_index parse_expr (EFunction (if distinct then "COUNT_DISTINCT"%string else name) args))) as Hargs.
  { intros distinct. eapply ok_bind; [apply ok_parse_args; lia|]. intros args.
    eapply ok_bind; [by apply ok_expect|]. intros ?. cbn beta. apply ok_parse_array_index. lia. }
  apply ok_current. intros t.
  assert (ok (M - 1) (fun _ : Expr => 0)
    (let* distinct := accept TkDistinct in
     let* args := parse_args parse_expr in
     expect TkRParen ;;;
     parse_array_index parse_expr (EFunction (if distinct then "COUNT_DISTINCT"%string else name) args))) as Hgeneric.
  { eapply ok_bind with (k1 := fun _ => 0).
    - eapply ok_fewer; [|by apply ok_accept]. intros []; simpl; lia.
    - intros distinct. eapply ok_weaken; [| |apply (Hargs distinct)]; [simpl; lia|done]. }
  assert (forall u, ok_at u (M - 1) (fun _ : Expr => 1 - 1)
    (let* distinct := accept TkDistinct in
     let* args := parse_args parse_expr in
     expect TkRParen ;;;
     parse_array_index parse_expr (EFunction (if distinct then "COUNT_DISTINCT"%string else name) args))) as Hat
    by (intros u; apply ok_ok_at, Hgeneric).
  destruct t; try apply Hat; destruct (eq_ignore_ascii_case name "count"); try apply Hat; ok_auto.
Qed.

Lemma ok_left_assoc M op_of operand :
  (forall t, op_of t <> None -> t <> TkEof) ->
  (forall M', M' <= M -> ok M' (fun _ => 1) operand) -> ok M (fun _ => 1) (@left_assoc J Sel op_of operand).
Proof using.
  intros Hop Ho. unfold left_assoc. eapply ok_bind; [by apply Ho|]. intros l. apply ok_loop. intros e.
  apply ok_current. intros t. specialize (Hop t). destruct (op_of t).
  - apply ok_at_advance; [by apply Hop|]. eapply ok_bind; [apply Ho; lia|]. ok_auto.
  - ok_auto.
Qed.

Hint Extern 2 (ok _ _ (parse_function_call_from_name _ _)) =>
  (apply ok_parse_function_call_from_name; simpl; lia) : parser.
Hint Extern 2 (ok _ _ (maybe_parse_over _ _ _)) => (apply ok_maybe_parse_over; simpl; lia) : parser.

Lemma ok_parse_case M : M <= N - 1 -> ok M (fun _ => 1) (parse_case parse_expr).
Proof using expr_ok.
  intros HM. unfold parse_case. apply ok_current. intros t.
  apply ok_at_bind with (k1 := fun _ => 0).
  { assert (ok M (fun _ => 0) (let* e := parse_expr in pret (Some e))) as He.
    { apply ok_bind with (k1 := fun _ => 1); [sub_expr|]. ok_auto. }
    destruct t; apply ok_ok_at; first [exact He | by apply ok_pret]. }
  intros operand. apply ok_bind with (k1 := fun _ => 0).
  - apply ok_loop. intros when_then. eapply ok_bind; [by apply ok_accept|]. intros [|]; [|ok_auto].
    apply ok_bind with (k1 := fun _ => 1); [sub_expr|]. intros candidate. cbn beta.
    eapply ok_bind; [by apply ok_expect|]. intros ?. apply ok_bind with (k1 := fun _ => 1); [sub_expr|]. ok_auto.
  - intros when_then. apply ok_bind with (k1 := fun _ => 0); [|].
    + eapply ok_fewer; [|by apply ok_accept]. intros []; simpl; lia.
    + intros [|]; ok_auto.
Qed.

Lemma ok_parse_cast M : M <= N - 1 -> ok M (fun _ => 1) (parse_cast parse_expr).
Proof using expr_ok.
  intros HM. unfold parse_cast. eapply ok_bind; [by apply ok_expect|]. intros ?. cbn beta.
  apply ok_bind with (k1 := fun _ => 0); [sub_expr|]. ok_auto.
Qed.

Lemma ok_parse_array_literal M : ok M (fun _ => 1) (@parse_array_literal J Sel).
Proof using. unfold parse_array_literal. ok_auto. Qed.
Hint Resolve ok_parse_array_literal : parser.

Lemma ok_parse_named M name : M <= N - 1 -> ok M (fun _ => 0) (parse_named display parse_expr name).
Proof using expr_ok.
  intros HM. unfold parse_named. apply ok_current. intros t.
  assert (ok M (fun _ : Expr => 0) (let* full := parse_qualifiers name in pret (EColumn full))) as Hc by ok_auto.
  destruct t; try (apply ok_ok_at; exact Hc). ok_auto.
Qed.

Lemma ok_parse_aggregate t M name :
  t <> TkEof -> M <= N -> ok_at t M (fun _ => 1) (parse_aggregate display parse_expr name).
Proof using expr_ok.
  intros Ht HM. unfold parse_aggregate. apply ok_at_advance; [done|].
  apply ok_bind with (k1 := fun _ => 0).
  - apply ok_any with (k := fun _ => 1), ok_parse_function_call_from_name. lia.
  - intros call. apply ok_maybe_parse_over. lia.
Qed.

Lemma ok_parse_primary M :
  M <= N -> ok M (fun _ => 1) (parse_primary parse_select_internal display parse_expr).
Proof using expr_ok.
  intros HM. unfold parse_primary. apply ok_current. intros t.
  destruct t; try (by apply ok_parse_aggregate); try (by apply ok_ok_at, ok_query_error);
    apply ok_at_advance; try done; cbn beta; try (by apply ok_pret).
  - ok_auto.
  - apply ok_any with (k := fun _ => 1), ok_parse_cast. lia.
  - apply ok_any with (k := fun _ => 1), ok_parse_case. lia.
  - ok_auto.
  - ok_auto.
  - apply ok_current. intros t.
    assert (ok (M - 1) (fun _ : Expr => 0) (let* expr := parse_expr in expect TkRParen ;;; pret (EParen expr))) as Hp.
    { apply ok_bind with (k1 := fun _ => 0); [sub_expr|]. ok_auto. }
    destruct t; try (apply ok_ok_at; exact Hp). ok_auto.
  - ok_auto.
  - apply ok_parse_named. lia.
Qed.

Lemma ok_parse_unary M :
  M <= N -> ok M (fun _ => 1) (parse_unary parse_select_internal display parse_expr).
Proof using expr_ok.
  intros HM st Hr Hl. unfold parse_unary. revert st Hr Hl.
  assert (forall n M, M <= n -> M <= N ->
    ok M (fun _ => 1) (parse_unary_n parse_select_internal display parse_expr n)) as H.
  { clear M HM. intros n. induction n as [|n IH]; intros M Hn HM.
    - intros st Hr Hl. pose proof (ready_nonempty _ Hr). lia.
    - cbn [parse_unary_n]. apply ok_current. intros t.
      destruct t; try (by apply ok_ok_at, ok_parse_primary). apply ok_at_advance; [done|].
      apply ok_bind with (k1 := fun _ => 1); [apply IH; lia|]. ok_auto. }
  intros st Hr Hl. apply (H (length st) (length st)); try done. lia.
Qed.

Lemma ok_parse_mul_div M :
  M <= N -> ok M (fun _ => 1) (parse_mul_div parse_select_internal display parse_expr).
Proof using expr_ok.
  intros HM. apply ok_left_assoc; [by intros [] |]. intros M' HM'. apply ok_parse_unary. lia.
Qed.

Lemma ok_parse_add_sub M :
  M <= N -> ok M (fun _ => 1) (parse_add_sub parse_select_internal display parse_expr).
Proof using expr_ok.
  intros HM. apply ok_left_assoc; [by intros [] |]. intros M' HM'. apply ok_parse_mul_div. lia.
Qed.
Hint Extern 2 (ok _ _ (parse_add_sub _ _ _)) => (apply ok_parse_add_sub; simpl; lia) : parser.

Lemma ok_parse_pattern M : ok M (fun _ => 1) parse_pattern.
Proof using. unfold parse_pattern. ok_auto. Qed.

Lemma ok_parse_in_values M : ok M (fun _ => 0) (@parse_in_values J).
Proof using. unfold parse_in_values. ok_auto. Qed.
Hint Resolve ok_parse_pattern ok_parse_in_values : parser.

Lemma ok_special M t l negated column :
  M <= N -> t <> TkEof ->
  ok_at t M (fun _ => 0) (@parse_in J Sel parse_select_internal column negated) /\
  ok_at t M (fun _ => 0) (parse_between parse_select_internal display parse_expr l negated) /\
  ok_at t M (fun _ => 0) (@parse_is_null J Sel column).
Proof using expr_ok.
  intros HM Ht. unfold parse_in, parse_between, parse_is_null.
  repeat split; (apply ok_at_advance; [done|]); [ok_auto|ok_auto|].
  apply ok_bind with (k1 := fun _ => 0); [|ok_auto].
  eapply ok_fewer; [|by apply ok_accept]. intros []; simpl; lia.
Qed.

Lemma ok_parse_comparison M :
  M <= N -> ok M (fun _ => 1) (parse_comparison parse_select_internal display parse_expr).
Proof using expr_ok.
  intros HM. unfold parse_comparison. eapply ok_bind; [apply ok_parse_add_sub; lia|]. intros l. cbn beta zeta.
  apply ok_bind with (k1 := fun _ => 0); [eapply ok_fewer; [|by apply ok_accept]; intros []; simpl; lia|].
  intros negated. cbn beta. apply ok_current. intros t.
  assert (forall column, t <> TkEof -> 
    ok_at t (M - 1 - 0) (fun _ => 0) (@parse_in J Sel parse_select_internal column negated) /\
    ok_at t (M - 1 - 0) (fun _ => 0) (parse_between parse_select_internal display parse_expr l negated) /\
    ok_at t (M - 1 - 0) (fun _ => 0) (@parse_is_null J Sel column)) as Hs
    by (intros column Ht; apply ok_special; [lia|done]).
  destruct t, (column_of l) as [column|]; cbn beta iota;
    try (by apply ok_ok_at, ok_query_error); try (by apply Hs); try (by apply (Hs EmptyString));
    destruct negated; ok_auto.
Qed.

Lemma ok_parse_not M :
  M <= N -> ok M (fun _ => 1) (parse_not parse_select_internal display parse_expr).
Proof using expr_ok.
  intros HM st Hr Hl. unfold parse_not. revert st Hr Hl.
  assert (forall n M, M <= n -> M <= N ->
    ok M (fun _ => 1) (parse_not_n parse_select_internal display parse_expr n)) as H.
  { clear M HM. intros n. induction n as [|n IH]; intros M Hn HM.
    - intros st Hr Hl. pose proof (ready_nonempty _ Hr). lia.
    - cbn [parse_not_n]. eapply ok_bind; [by apply ok_accept|]. intros [|]; cbn beta iota.
      + apply ok_bind with (k1 := fun _ => 1); [apply IH; lia|]. ok_auto.
      + eapply ok_weaken; [| |apply (ok_parse_comparison M HM)]; [simpl; lia|]. intros ?; simpl; lia. }
  intros st Hr Hl. apply (H (length st) (length st)); try done. lia.
Qed.

Lemma ok_parse_and M : M <= N -> ok M (fun _ => 1) (parse_and parse_select_internal display parse_expr).
Proof using expr_ok.
  intros HM. apply ok_left_assoc; [by intros []|]. intros M' HM'. apply ok_parse_not. lia.
Qed.

Lemma ok_parse_or M : M <= N -> ok M (fun _ => 1) (parse_or parse_select_internal display parse_expr).
Proof using expr_ok.
  intros HM. apply ok_left_assoc; [by intros []|]. intros M' HM'. apply ok_parse_and. lia.
Qed.
End callback.

Lemma ok_parse_expr_n n N : N <= n -> ok N (fun _ => 1) (parse_expr_n parse_select_internal display n).
Proof using.
  revert N. induction n as [|n IH]; intros N HN.
  - intros st Hr Hl. pose proof (ready_nonempty _ Hr). lia.
  - cbn [parse_expr_n]. apply (ok_parse_or N); [|done]. apply IH. lia.
Qed.

Lemma ok_parse_expr N : ok N (fun _ => 1) (parse_expr parse_select_internal display).
Proof using.
  intros st Hr Hl. apply (ok_parse_expr_n (length st) (length st)); done.
Qed.
End parser.

(** ** Properties *)

Lemma well_spanned_ready i n ts :
  well_spanned i n ts -> exists l t, ts = l ++ [t] /\ st_token t = TkEof.
Proof.
  revert i. induction ts as [|t [|u ts] IH]; intros i Hw; [done| |].
  - exists [], t. destruct Hw as [-> _]. done.
  - destruct Hw as (_ & _ & Hw). destruct (IH _ Hw) as (l & e & Hl & He). exists (t :: l), e. by rewrite Hl.
Qed.

(** C17 [parse_expression] returns, with an expression or an error, for every text with
    a lexical error and for every text without the keyword SELECT in which the calls of the
    five aggregates are closed by a parenthesis: the depth of nesting never exceeds the
    number of tokens, and every loop of the parser consumes.  The parser of subqueries is
    called at the keyword SELECT only, so nothing is assumed of it; an aggregate that
    is not closed makes the parser loop forever
    (see [unclosed_order_by_aggregate_loops]). *)
Theorem parse_expression_returns {J Sel} (parse_select_internal : bool -> Parser Sel) display sql :
  match tokenize sql with
  | Tokens ts => aggregates_closed ts && select_free ts = true
  | _ => True
  end ->
  parse_expression (J := J) parse_select_internal display sql <> PDiverges.
Proof.
  intros closed. unfold parse_expression.
  pose proof (tokenize_loop_finishes (S (length (String.list_ascii_of_string sql))) 0
    (String.list_ascii_of_string sql) [] ltac:(lia)) as Hfin.
  unfold tokenize in *. destruct (tokenize_loop _ _ _ _) as [ts|e|] eqn:Ht; [|done|done].
  apply tokenize_loop_spans in Ht as (ts' & -> & Hts). simpl in closed |- *. apply well_spanned_ready in Hts.
  assert (ready ts') as Hr by done. clear Hfin.
  pose proof (ok_parse_expr (J := J) parse_select_internal display (length ts') ts' Hr ltac:(done)) as Hok.
  unfold pbind, current. destruct (parse_expr _ _ ts') as [a st'| |]; [|done|done].
  destruct (head_token st'); done.
Qed.

(** A SELECT parser that never returns. *)
Lemma parse_expression_returns_witness :
  parse_expression (J := Empty_set) (Sel := Empty_set) (fun _ _ => PDiverges) (fun _ => EmptyString)
    "f(sum(x) over (order by sum(y) desc), (1" <> PDiverges.
Proof. apply parse_expression_returns. vm_compute. reflexivity. Defined.

(** [ORDER BY SUM(] without the closing parenthesis makes the parser loop forever: at
    the end marker [advance] stays where it is and the depth never reaches zero, so the scan over the argument
    does not finish after any number of turns. *)
Theorem unclosed_order_by_aggregate_loops n depth arg st :
  (exists l t, st = l ++ [t] /\ st_token t = TkEof) -> closes (S depth) st = false ->
  loop_n n opaque_step (S depth, arg) st = PDiverges.
Proof.
  revert depth arg st. induction n as [|n IH]; intros depth arg st He Hc; [done|].
  cbn [loop_n]. unfold opaque_step at 1, pbind at 1 2, current.
  destruct He as (l & t & -> & Ht). destruct l as [|x l].
  { cbn. rewrite Ht. cbn. apply IH; [by exists [], t|]. cbn. by rewrite Ht. }
  cbn [app head_token closes] in *. assert (exists y st', l ++ [t] = y :: st') as (y & st' & Hl) by (destruct l; eauto).
  assert (exists l' t', l ++ [t] = l' ++ [t'] /\ st_token t' = TkEof) as He by eauto.
  rewrite Hl in *. destruct (st_token x); try (apply (IH depth); done).
  - apply (IH (S depth)); done.
  - destruct depth as [|depth]; [done|]. apply (IH depth); done.
Qed.

Lemma unclosed_order_by_aggregate_loops_witness :
  loop_n 1000 opaque_step (1, EmptyString) [mkSpanned (TkIdentifier "x") 4 5; mkSpanned TkEof 5 5] = PDiverges.
Proof.
  apply unclosed_order_by_aggregate_loops; [by exists [mkSpanned (TkIdentifier "x") 4 5], (mkSpanned TkEof 5 5)|done].
Defined.
