(* ===== verification/SqlRoundTrip.v ===== *)
(** * The parser reads printed expressions back

    The proof follows the levels of the grammar.  [pre ts st rest] says the
    unread tokens [st] are the tokens [ts] followed by [rest]; [reads] is what a parser must do with them. *)
From Stdlib Require Import Ascii.
From S2P Require Import Prelude Bytes Float Values SqlAst Decimal SqlLexer SqlParser SqlPrint.
Local Open Scope apex_scope.
Local Open Scope nat_scope.

(** ** Printed prefixes *)

Definition pre (ts : list Token) (st rest : tokens) : Prop :=
  exists st1, st = st1 ++ rest /\ map st_token st1 = ts.

Lemma pre_nil st rest : pre [] st rest -> st = rest.
Proof. intros (st1 & -> & H). by destruct st1. Qed.

Lemma pre_cons t ts st rest :
  pre (t :: ts) st rest -> exists s st', st = s :: st' /\ st_token s = t /\ pre ts st' rest.
Proof.
  intros (st1 & -> & H). destruct st1 as [|s st1]; simplify_eq/=. exists s, (st1 ++ rest). split; [done|].
  split; [done|]. by exists st1.
Qed.

Lemma pre_app a b st rest : pre (a ++ b) st rest -> exists mid, pre a st mid /\ pre b mid rest.
Proof.
  intros (st1 & -> & H). apply map_eq_app in H as (l1 & l2 & -> & <- & <-).
  exists (l2 ++ rest). rewrite <-app_assoc. split; eexists; done.
Qed.

Lemma pre_length ts st rest : pre ts st rest -> length st = length ts + length rest.
Proof. intros (st1 & -> & <-). by rewrite length_app, length_map. Qed.

Lemma pre_nonempty ts st rest : pre ts st rest -> rest <> [] -> st <> [].
Proof. intros (st1 & -> & _) Hr. by destruct st1. Qed.

Lemma pre_head t ts st rest : pre (t :: ts) st rest -> head_token st = t.
Proof. intros (s & st' & -> & Ht & _)%pre_cons. done. Qed.

(** [p] reads the tokens [ts] as [a] when what follows satisfies [ends]. *)
Definition reads_as {A} (p : Parser A) (ts : list Token) (a : A) (ends : Token -> bool) : Prop :=
  forall st rest, pre ts st rest -> rest <> [] -> ends (head_token rest) = true -> p st = POk a rest.

(** ** Running parsers *)

Section running.
Context {A B : Type}.

Lemma run_bind (p : Parser A) (q : A -> Parser B) st a st' r :
  p st = POk a st' -> q a st' = r -> pbind p q st = r.
Proof. unfold pbind. by intros ->. Qed.

Lemma run_current (q : Token -> Parser A) st r : q (head_token st) st = r -> pbind current q st = r.
Proof. done. Qed.

Lemma run_advance (q : Parser A) s st r : st <> [] -> q st = r -> (advance ;;; q) (s :: st) = r.
Proof. intros Hst Hq. destruct st; done. Qed.

Lemma run_expect (q : Parser A) s st t r :
  st_token s = t -> st <> [] -> q st = r -> (expect t ;;; q) (s :: st) = r.
Proof.
  intros Ht Hst Hq. unfold pbind, expect. simpl. rewrite Ht, Z.eqb_refl. by destruct st.
Qed.

Lemma run_accept_yes (q : bool -> Parser A) s st t r :
  st_token s = t -> st <> [] -> q true st = r -> pbind (accept t) q (s :: st) = r.
Proof.
  intros Ht Hst Hq. unfold pbind, accept, current. simpl. unfold pbind. rewrite bool_decide_eq_true_2 by done. by destruct st.
Qed.

Lemma run_accept_no (q : bool -> Parser A) st t r :
  head_token st <> t -> q false st = r -> pbind (accept t) q st = r.
Proof.
  intros Ht Hq. unfold pbind, accept, current. simpl. unfold pbind. by rewrite bool_decide_eq_false_2.
Qed.

Lemma run_string_literal (q : string -> Parser A) s st str r :
  st_token s = TkStringLit str -> st <> [] -> q str st = r -> pbind parse_string_literal q (s :: st) = r.
Proof.
  intros Ht Hst Hq. unfold parse_string_literal, pbind, current. simpl. rewrite Ht. by destruct st.
Qed.

(** A result does not change with more fuel. *)
Lemma loop_n_more n m (step : A -> Parser (A + B)) a st b st' :
  n <= m -> loop_n n step a st = POk b st' -> loop_n m step a st = POk b st'.
Proof.
  revert m a st. induction n as [|n IH]; intros m a st Hle H; [done|].
  destruct m as [|m]; [lia|]. cbn [loop_n] in *. unfold pbind in *.
  destruct (step a st) as [[a'|b'] st''| |]; try done. apply (IH m); [lia|done].
Qed.

Lemma loop_turn (step : A -> Parser (A + B)) a a' st st' b st'' :
  step a st = POk (inl a') st' -> length st' < length st ->
  loop step a' st' = POk b st'' -> loop step a st = POk b st''.
Proof.
  unfold loop. intros Hs Hl H. destruct (length st) as [|n] eqn:Hn; [lia|]. cbn [loop_n]. unfold pbind.
  rewrite Hs. eapply loop_n_more; [|done]. lia.
Qed.

Lemma loop_leave (step : A -> Parser (A + B)) a st b st' :
  st <> [] -> step a st = POk (inr b) st' -> loop step a st = POk b st'.
Proof. unfold loop. intros Hst Hs. destruct st; [done|]. cbn [length loop_n]. unfold pbind. by rewrite Hs. Qed.
End running.

(** ** Comma-separated lists *)

Section comma.
Context {A : Type}.
Variable item : Parser A.
Variable f : A -> list Token.
Variable ends : Token -> bool.
Hypothesis ends_comma : ends TkComma = true.

Definition ends_list (t : Token) : bool := ends t && negb (bool_decide (t = TkComma)).

Lemma comma_loop xs acc st rest :
  xs <> [] -> (forall x, x ∈ xs -> reads_as item (f x) x ends) ->
  pre (separated (map f xs)) st rest -> rest <> [] -> ends_list (head_token rest) = true ->
  loop (fun items =>
    let* x := item in
    let* comma := accept TkComma in
    if comma then again (items ++ [x]) else leave (items ++ [x])) acc st = POk (acc ++ xs) rest.
Proof.
  revert acc st. induction xs as [|x xs IH]; intros acc st Hne Hitem Hst Hrest Hends; [done|].
  unfold ends_list in Hends. apply andb_true_iff in Hends as [He Hc].
  apply negb_true_iff, bool_decide_eq_false in Hc.
  assert (reads_as item (f x) x ends) as Hx by (apply Hitem; set_solver).
  destruct xs as [|y xs].
  - simpl in Hst. eapply loop_leave; [by eapply pre_nonempty|].
    eapply run_bind; [by apply Hx|]. by apply run_accept_no.
  - change (pre (f x ++ TkComma :: separated (map f (y :: xs))) st rest) in Hst.
    apply pre_app in Hst as (mid & Hst & Hmid). pose proof (pre_length _ _ _ Hst) as Hl.
    pose proof (pre_head _ _ _ _ Hmid) as Hh. pose proof (pre_nonempty _ _ _ Hmid Hrest) as Hmne.
    apply pre_cons in Hmid as (s & st' & -> & Ht & Hst'). pose proof (pre_nonempty _ _ _ Hst' Hrest) as Hne'.
    eapply loop_turn.
    + eapply run_bind; [apply Hx; [done|done|by rewrite Hh]|]. apply run_accept_yes; [done|done|reflexivity].
    + simpl in Hl. lia.
    + rewrite (IH (acc ++ [x])); [by rewrite <-app_assoc|done|set_solver|done|done|].
      unfold ends_list. by rewrite He, bool_decide_eq_false_2.
Qed.

Lemma comma_list_reads xs :
  xs <> [] -> (forall x, x ∈ xs -> reads_as item (f x) x ends) ->
  reads_as (comma_list item) (separated (map f xs)) xs ends_list.
Proof. intros Hne Hitem st rest Hst Hrest He. by apply (comma_loop xs []). Qed.
End comma.

(** Take a printed prefix apart. *)
Ltac open_pre :=
  repeat match goal with
  | H : pre [] _ _ |- _ => apply pre_nil in H; subst
  | H : pre (_ :: _) _ _ |- _ =>
      let s := fresh "s" in let st' := fresh "st" in let Ht := fresh "Ht" in
      apply pre_cons in H as (s & st' & -> & Ht & H)
  | H : pre (_ ++ _) _ _ |- _ =>
      let mid := fresh "mid" in let H' := fresh "Hpre" in
      apply pre_app in H as (mid & H' & H)
  end.

(** Only the first tokens. *)
Ltac open_cons :=
  repeat match goal with
  | H : pre (_ :: _) _ _ |- _ =>
      let s := fresh "s" in let st' := fresh "st" in let Ht := fresh "Ht" in
      apply pre_cons in H as (s & st' & -> & Ht & H)
  end.

Ltac not_empty := first [done | solve [eauto using pre_nonempty] | solve [eauto 6 using pre_nonempty]].

(** The current token, from the printed tokens or from what follows. *)
Ltac head_is :=
  cbn [head_token];
  match goal with
  | H : st_token ?s = _ |- context [st_token ?s] => rewrite H
  | _ => idtac
  end.

(** One step of a parser whose tokens are in the context. *)
Ltac run_step :=
  match goal with
  | |- pbind current _ _ = _ => apply run_current; head_is; cbn beta iota delta [column_of]
  | |- pbind advance _ _ = _ => apply run_advance; [not_empty|]
  | |- pbind (expect _) _ _ = _ => apply run_expect; [done|not_empty|]
  | |- pbind (accept _) _ (_ :: _) = _ =>
      first [apply run_accept_yes; [done|not_empty|] | apply run_accept_no; [head_is; done|]]; cbn beta iota
  | |- pbind parse_string_literal _ _ = _ => eapply run_string_literal; [eassumption|not_empty|]
  | |- pret _ _ = _ => reflexivity
  | |- leave _ _ = _ => reflexivity
  | |- again _ _ = _ => reflexivity
  end.
Ltac run := repeat run_step.

(** ** The levels *)

Section levels.
Context {J Sel : Type}.
Abbreviation Expr := (SqlExpr J Sel).
Variable parse_select_internal : bool -> Parser Sel.
Variable display : Expr -> string.
Variable callback : Parser Expr.

Definition level_parser (lvl : nat) : Parser Expr :=
  match lvl with
  | 0 => parse_or parse_select_internal display callback
  | 1 => parse_and parse_select_internal display callback
  | 2 => parse_not parse_select_internal display callback
  | 3 => parse_comparison parse_select_internal display callback
  | 4 => parse_add_sub parse_select_internal display callback
  | 5 => parse_mul_div parse_select_internal display callback
  | 6 => parse_unary parse_select_internal display callback
  | _ => parse_primary parse_select_internal display callback
  end.

Definition reads (lvl : nat) (e : Expr) : Prop := reads_as (level_parser lvl) (print e) e (stops lvl).

Lemma stops_mono lvl lvl' t : lvl <= lvl' -> stops lvl t = true -> stops lvl' t = true.
Proof. unfold stops. destruct (continues t); [|done]. rewrite !Nat.ltb_lt. lia. Qed.

(** The first token of an expression. *)
Definition starts (t : Token) : bool :=
  match t with
  | TkNot | TkMinus | TkLParen | TkCast | TkCase | TkStringLit _ | TkIntLit _ | TkFloatLit _
  | TkTrue | TkFalse | TkNull | TkLBracket | TkIdentifier _ | TkVariable _ => true
  | _ => false
  end.

Lemma print_starts (e : Expr) lvl :
  fits e lvl = true ->
  exists t ts, print e = t :: ts /\ starts t = true /\ (3 <= lvl -> t <> TkNot) /\ (7 <= lvl -> t <> TkMinus).
Proof using.
  revert lvl. induction e; intros lvl Hf; cbn [fits] in Hf; try (by rewrite andb_false_r in Hf);
    apply andb_true_iff in Hf as [Hl Hf]; apply Nat.leb_le in Hl; cbn [print level] in *;
    try (by eexists _, _).
  - destruct v as [|[]| | | | | | | | | | | | | | | | | | | |]; try done; cbn; by eexists _, _.
  - apply andb_true_iff in Hf as [Hf _]. apply IHe1 in Hf as (t & ts & -> & Ht & H1 & H2).
    eexists t, _. split; [reflexivity|]. split; [done|]. destruct op; cbn in *; unfold left_level in *; cbn in *; split; intros; try lia; apply H1; lia.
  - destruct op; eexists _, _; (split; [reflexivity|]); (split; [done|]); split; (lia || done).
  - rewrite !andb_true_iff in Hf. destruct Hf as [[_ Hf] _]. apply IHe1 in Hf as (t & ts & -> & Ht & H1 & H2).
    eexists t, _. split; [reflexivity|]. split; [done|]. split; intros; [apply H1|apply H2]; lia.
Qed.

Lemma pre_print_head (e : Expr) lvl st rest :
  fits e lvl = true -> pre (print e) st rest ->
  starts (head_token st) = true /\ (3 <= lvl -> head_token st <> TkNot) /\ (7 <= lvl -> head_token st <> TkMinus).
Proof using.
  intros (t & ts & Hp & Hs)%print_starts Hst. rewrite Hp in Hst. by rewrite (pre_head _ _ _ _ Hst).
Qed.

(** *** Left-associative levels *)

Definition binary_step (op_of : Token -> option BinaryOperator) (operand : Parser Expr) (l : Expr) : Parser (Expr + Expr) :=
  let* t := current in
  match op_of t with
  | Some op => advance ;;; let* r := operand in again (EBinaryOp l op r)
  | None => leave l
  end.

Lemma left_assoc_leave op_of (operand : Parser Expr) e st rest :
  operand st = POk e rest -> rest <> [] -> op_of (head_token rest) = None ->
  left_assoc op_of operand st = POk e rest.
Proof using.
  intros Ho Hr Hop. unfold left_assoc. eapply run_bind; [exact Ho|]. apply loop_leave; [done|].
  apply run_current. by rewrite Hop.
Qed.

(** The level of an operator of [op_of], and what continues that level. *)
Definition level_ops (lvl : nat) (op_of : Token -> option BinaryOperator) : Prop :=
  (forall t, stops lvl t = true -> op_of t = None) /\
  (forall op, operator_level op = lvl -> op_of (operator_token op) = Some op).

Lemma or_ops : level_ops 0 or_op.
Proof using. split; [by intros []|by intros []]. Qed.
Lemma and_ops : level_ops 1 and_op.
Proof using. split; [by intros []|by intros []]. Qed.
Lemma add_ops : level_ops 4 add_op.
Proof using. split; [by intros []|by intros []]. Qed.
Lemma mul_ops : level_ops 5 mul_op.
Proof using. split; [by intros []|by intros []]. Qed.

Lemma operator_stops op lvl : operator_level op < lvl -> stops lvl (operator_token op) = true.
Proof using. unfold stops. destruct op; simpl; intros; apply Nat.ltb_lt; lia. Qed.

(** At its own level an expression is read as the loop continued from it. *)
Definition continues_loop (lvl : nat) (op_of : Token -> option BinaryOperator) (operand : Parser Expr) (e : Expr) : Prop :=
  forall st rest e' rest', pre (print e) st rest -> rest <> [] -> stops (S lvl) (head_token rest) = true ->
    loop (binary_step op_of operand) e rest = POk e' rest' -> left_assoc op_of operand st = POk e' rest'.

Lemma continues_operand lvl op_of operand (e : Expr) :
  reads_as operand (print e) e (stops (S lvl)) -> continues_loop lvl op_of operand e.
Proof using.
  intros Ho st rest e' rest' Hst Hr Hs Hl. unfold left_assoc. eapply run_bind; [by apply Ho|]. exact Hl.
Qed.

Lemma continues_binary lvl op_of operand (l : Expr) op (r : Expr) :
  level_ops lvl op_of -> operator_level op = lvl ->
  continues_loop lvl op_of operand l -> reads_as operand (print r) r (stops (S lvl)) ->
  continues_loop lvl op_of operand (EBinaryOp l op r).
Proof using.
  intros [_ Hops] Hop Hl Hr st rest e' rest' Hst Hrest Hs Hloop. cbn [print] in Hst. open_pre.
  apply (Hl st (s :: st0)); [done|done|cbn; rewrite Ht; apply operator_stops; lia|].
  apply (loop_turn _ _ (EBinaryOp l op r) _ rest); [|apply pre_length in Hst; simpl; lia|exact Hloop].
  apply run_current. cbn. rewrite Ht, (Hops op Hop). apply run_advance; [by eapply pre_nonempty|].
  eapply run_bind; [by apply Hr|reflexivity].
Qed.

Lemma continues_reads lvl op_of operand (e : Expr) :
  level_ops lvl op_of -> continues_loop lvl op_of operand e ->
  reads_as (left_assoc op_of operand) (print e) e (stops lvl).
Proof using.
  intros [Hstop _] He st rest Hst Hr Hs. apply (He st rest); [done|done|by apply (stops_mono lvl); [lia|]|].
  apply loop_leave; [done|]. apply run_current. by rewrite Hstop.
Qed.

Definition ops_of (lvl : nat) : Token -> option BinaryOperator :=
  match lvl with 0 => or_op | 1 => and_op | 4 => add_op | _ => mul_op end.

Definition assoc_level (lvl : nat) : Prop := lvl = 0 \/ lvl = 1 \/ lvl = 4 \/ lvl = 5.

Definition chain (lvl : nat) (e : Expr) : Prop := continues_loop lvl (ops_of lvl) (level_parser (S lvl)) e.

Lemma assoc_level_ops lvl : assoc_level lvl -> level_ops lvl (ops_of lvl).
Proof using. intros [-> |[-> |[-> | ->]]]; [apply or_ops|apply and_ops|apply add_ops|apply mul_ops]. Qed.

Lemma level_parser_assoc lvl :
  assoc_level lvl -> level_parser lvl = left_assoc (ops_of lvl) (level_parser (S lvl)).
Proof using. by intros [-> |[-> |[-> | ->]]]. Qed.

Lemma chain_reads lvl e : assoc_level lvl -> chain lvl e -> reads lvl e.
Proof using.
  intros Ha Hc. unfold reads. rewrite level_parser_assoc by done.
  apply continues_reads; [by apply assoc_level_ops|done].
Qed.

(** *** From a level to the one below *)

Lemma parse_not_skip e : fits e 3 = true -> reads 3 e -> reads 2 e.
Proof using.
  intros Hf Hr st rest Hst Hne Hs. cbn [level_parser]. unfold parse_not.
  destruct (pre_print_head _ _ _ _ Hf Hst) as (_ & Hnot & _). pose proof (pre_nonempty _ _ _ Hst Hne) as Hst'.
  destruct st as [|s st]; [done|]. cbn [length parse_not_n]. apply run_accept_no; [by apply Hnot|].
  apply Hr; [done|done|]. by apply (stops_mono 2); [lia|].
Qed.

Lemma parse_unary_skip e : fits e 7 = true -> reads 7 e -> reads 6 e.
Proof using.
  intros Hf Hr st rest Hst Hne Hs. cbn [level_parser]. unfold parse_unary.
  destruct (pre_print_head _ _ _ _ Hf Hst) as (_ & _ & Hminus). pose proof (pre_nonempty _ _ _ Hst Hne) as Hst'.
  assert (parse_primary parse_select_internal display callback st = POk e rest) as Hp.
  { apply Hr; [done|done|]. by apply (stops_mono 6); [lia|]. }
  destruct st as [|s st]; [done|]. cbn [length parse_unary_n]. apply run_current.
  specialize (Hminus ltac:(lia)). destruct (head_token (s :: st)); done.
Qed.

(** What follows a complete comparison leaves it alone. *)
Lemma comparison_leave (l : Expr) st rest :
  parse_add_sub parse_select_internal display callback st = POk l rest ->
  stops 3 (head_token rest) = true ->
  parse_comparison parse_select_internal display callback st = POk l rest.
Proof using.
  intros Hl Hs. unfold parse_comparison. eapply run_bind; [exact Hl|]. cbn zeta.
  apply run_accept_no; [by intros Ht; rewrite Ht in Hs|]. apply run_current.
  destruct (head_token rest); try done; by destruct (column_of l).
Qed.

Lemma reads_lower lvl e : fits e (S lvl) = true -> lvl < 7 -> reads (S lvl) e -> reads lvl e.
Proof using.
  intros Hf Hlt Hr.
  assert (assoc_level lvl -> reads lvl e) as Ha.
  { intros Ha. apply chain_reads; [done|]. by apply continues_operand. }
  unfold assoc_level in Ha.
  destruct lvl as [|[|[|[|[|[|[|lvl]]]]]]]; try (apply Ha; lia); try lia.
  - by apply parse_not_skip.
  - intros st rest Hst Hne Hs. apply comparison_leave; [|done].
    apply Hr; [done|done|]. by apply (stops_mono 3); [lia|].
  - by apply parse_unary_skip.
Qed.

(** An expression read at its own level is read at every level below. *)
Lemma reads_down e lvl : fits e lvl = true -> lvl <= 7 -> reads (level e) e -> reads lvl e.
Proof using.
  intros Hf H7 Hr. pose proof (fits_le _ _ Hf) as Hle.
  assert (level e <= 7) as He7 by (destruct e as [| |? [] ?|[]| | | | | | | | | | | | | | | | | | | |]; simpl; lia).
  remember (level e - lvl) as d eqn:Hd. revert lvl Hf H7 Hle Hd.
  induction d as [|d IH]; intros lvl Hf H7 Hle Hd.
  - by replace lvl with (level e) by lia.
  - apply reads_lower; [apply (fits_level e lvl); [done|lia]|lia|].
    apply IH; [apply (fits_level e lvl); [done|lia]|lia..].
Qed.

(** *** Prefix operators and comparisons *)

Lemma read_not e : reads 2 e -> reads 2 (EUnaryOp OpNot e).
Proof using.
  intros He st rest Hst Hne Hs. cbn [print] in Hst. open_pre. specialize (He st0 rest Hst Hne Hs).
  cbn [level_parser] in *. unfold parse_not in *. cbn [length parse_not_n]. run.
  eapply run_bind; [exact He|reflexivity].
Qed.

Lemma read_minus e : reads 6 e -> reads 6 (EUnaryOp OpMinus e).
Proof using.
  intros He st rest Hst Hne Hs. cbn [print] in Hst. open_pre. specialize (He st0 rest Hst Hne Hs).
  cbn [level_parser] in *. unfold parse_unary in *. cbn [length parse_unary_n]. run.
  eapply run_bind; [exact He|reflexivity].
Qed.

(** The left operand of a comparison, and the operator after it. *)
Lemma comparison_left (l : Expr) st s st' r :
  parse_add_sub parse_select_internal display callback st = POk l (s :: st') ->
  (let left_col := column_of l in
   let* negated := accept TkNot in
   let* t := current in
   match t, left_col with
   | TkLike, None => query_error
   | TkLike, Some column =>
       advance ;;; let* pattern := parse_pattern in pret (ELike column pattern negated)
   | TkRegexp, _ =>
       advance ;;;
       let* pattern := parse_pattern in
       match left_col with
       | Some column => pret (ERegexp column pattern negated)
       | None => pret (negate negated (EFunction "REGEXP_LIKE" [l; ELiteral (VString pattern)]))
       end
   | TkIn, None => query_error
   | TkIn, Some column => parse_in parse_select_internal column negated
   | TkBetween, _ => parse_between parse_select_internal display callback l negated
   | TkIs, None => query_error
   | TkIs, Some column => parse_is_null column
   | _, _ =>
       if negated then syntax_error
       else match cmp_op t with
            | Some op => advance ;;; let* r := parse_add_sub parse_select_internal display callback in pret (EBinaryOp l op r)
            | None => pret l
            end
   end) (s :: st') = r ->
  parse_comparison parse_select_internal display callback st = r.
Proof using. intros Hl Hr. unfold parse_comparison. by eapply run_bind. Qed.

Lemma read_comparison l op r :
  operator_level op = 3 -> reads 4 l -> reads 4 r -> reads 3 (EBinaryOp l op r).
Proof using.
  intros Hop Hl Hr st rest Hst Hne Hs. cbn [print] in Hst. open_pre.
  eapply comparison_left; [apply (Hl st _ Hpre); [done|cbn; rewrite Ht; by destruct op]|].
  assert (reads_as (parse_add_sub parse_select_internal display callback) (print r) r (stops 4)) as Hr' by exact Hr.
  specialize (Hr' st0 rest Hst Hne ltac:(by apply (stops_mono 3); [lia|])).
  cbn zeta. apply run_accept_no; [cbn; rewrite Ht; by destruct op|].
  apply run_current. cbn [head_token]. rewrite Ht.
  destruct op; try done; cbn; run; (eapply run_bind; [exact Hr'|reflexivity]).
Qed.

(** A column is read at every level when no call or qualifier follows. *)
Lemma read_column name : reads 7 (EColumn name).
Proof using.
  intros st rest Hst Hne Hs. cbn [print] in Hst. open_pre. cbn [level_parser]. unfold parse_primary. run.
  unfold parse_named. apply run_current.
  assert ((let* full := parse_qualifiers name in pret (EColumn full)) rest = POk (EColumn (J := J) (S := Sel) name) rest) as Hq.
  { eapply run_bind; [|reflexivity]. apply loop_leave; [done|].
    apply run_accept_no; [by intros Ht'; rewrite Ht' in Hs|reflexivity]. }
  destruct (head_token rest); done.
Qed.

Lemma column_add_sub name s st :
  st <> [] -> st_token s = TkIdentifier name -> stops 4 (head_token st) = true ->
  parse_add_sub parse_select_internal display callback (s :: st) = POk (EColumn name) st.
Proof using.
  intros Hne Hs Hstop. assert (reads 4 (EColumn name)) as Hr by (apply reads_down; [done|lia|apply read_column]).
  apply Hr; [|done|done]. exists [s]. split; [done|]. simpl. by rewrite Hs.
Qed.

Lemma pre_not negated st rest ts :
  pre (print_not negated ++ ts) st rest -> rest <> [] -> ts <> [] ->
  exists st', pre ts st' rest /\
    forall A (q : bool -> Parser A) r, hd TkEof ts <> TkNot -> q negated st' = r -> pbind (accept TkNot) q st = r.
Proof using.
  intros Hst Hne Hts. apply pre_app in Hst as (st' & Hn & Hst). exists st'. split; [done|].
  intros A q r Hhd Hq. pose proof (pre_nonempty _ _ _ Hst Hne). destruct negated; cbn [print_not] in Hn; open_pre.
  - by apply run_accept_yes.
  - apply run_accept_no; [|done]. destruct ts as [|t ts]; [done|]. by rewrite (pre_head _ _ _ _ Hst).
Qed.

Lemma print_not_stops negated st rest t ts lvl :
  pre (print_not negated ++ t :: ts) st rest -> 3 < lvl -> stops lvl t = true -> stops lvl (head_token st) = true.
Proof using.
  intros Hst Hlvl Ht. destruct negated; cbn [print_not app] in Hst; rewrite (pre_head _ _ _ _ Hst); [|done].
  unfold stops. by apply Nat.ltb_lt.
Qed.

(** Open a comparison on a column: the column, an optional [NOT], the keyword. *)
Ltac column_form Hst Hne :=
  cbn [print] in Hst;
  apply pre_cons in Hst as (s & st' & -> & Ht & Hst);
  pose proof (pre_nonempty _ _ _ Hst Hne) as Hst';
  destruct st' as [|s' st']; [done|];
  eapply comparison_left;
    [apply column_add_sub; [done|done|eapply print_not_stops; [exact Hst|lia|done]]|];
  let mid := fresh "mid" in let Hacc := fresh "Hacc" in
  apply pre_not in Hst as (mid & Hst & Hacc); [|done|done];
  cbn zeta; apply Hacc; [done|]; open_pre; run.

Lemma read_like c p negated : reads 3 (ELike c p negated).
Proof using.
  intros st rest Hst Hne Hs. cbn [level_parser]. column_form Hst Hne.
  eapply run_bind; [|reflexivity]. unfold parse_pattern. run.
Qed.

Lemma read_regexp c p negated : reads 3 (ERegexp c p negated).
Proof using.
  intros st rest Hst Hne Hs. cbn [level_parser]. column_form Hst Hne.
  eapply run_bind; [|reflexivity]. unfold parse_pattern. run.
Qed.

Lemma read_is_null c negated : reads 3 (EIsNull c negated).
Proof using.
  intros st rest Hst Hne Hs. cbn [level_parser print] in *. open_cons.
  pose proof (pre_nonempty _ _ _ Hst Hne) as Hst'.
  eapply comparison_left; [by apply column_add_sub; [done|done|cbn; rewrite Ht0]|]. cbn zeta.
  apply run_accept_no; [cbn; by rewrite Ht0|]. run. unfold parse_is_null. run.
  apply pre_not in Hst as (mid & Hst & Hacc); [|done|done]. apply Hacc; [done|]. open_pre. run.
Qed.

Lemma read_between c low high negated :
  reads 4 low -> reads 4 high -> reads 3 (EBetween c low high negated).
Proof using.
  intros Hlow Hhigh st rest Hst Hne Hs. cbn [level_parser]. column_form Hst Hne.
  unfold parse_between. run.
  eapply run_bind; [apply Hlow; [exact Hpre|done|cbn; by rewrite Ht1]|]. run.
  eapply run_bind; [apply Hhigh; [exact Hst|done|by apply (stops_mono 3); [lia|]]|]. reflexivity.
Qed.

Lemma literal_reads (v : Value J) t st rest :
  literal v = Some t -> st_token st = t -> rest <> [] ->
  parse_literal_value (st :: rest) = POk v rest.
Proof using.
  intros Hv <- Hne. unfold parse_literal_value. apply run_current. cbn [head_token].
  destruct v as [|[]| | | | | | | | | | | | | | | | | | | |]; cbn in Hv; try discriminate Hv;
    injection Hv as <-; run.
Qed.

Lemma in_values_loop (values : list (Value J)) acc st rest :
  forallb (fun v => is_some (literal v)) values = true ->
  pre (separated (map (fun v => match literal v with Some t => [t] | None => [] end) values)) st rest ->
  rest <> [] -> head_token rest = TkRParen ->
  loop (fun values =>
    let* t := current in
    match t with
    | TkStringLit _ | TkIntLit _ | TkFloatLit _ | TkTrue | TkFalse | TkNull =>
        let* v := parse_literal_value in
        let* comma := accept TkComma in
        if comma then again (values ++ [v]) else leave (values ++ [v])
    | _ => leave values
    end) acc st = POk (acc ++ values) rest.
Proof using.
  revert acc st. induction values as [|v values IH]; intros acc st Hv Hst Hne Hh.
  - apply pre_nil in Hst as ->. apply loop_leave; [done|]. apply run_current. by rewrite Hh, app_nil_r.
  - cbn [forallb] in Hv. apply andb_true_iff in Hv as [Hv Hvs]. cbn [map] in Hst.
    destruct (literal v) as [t|] eqn:Hl; [|done].
    assert (forall (s : SpannedToken) st' A (q : Token -> Parser A) p r, st_token s = t ->
      pbind (@parse_literal_value J) p (s :: st') = r ->
      (forall w, match w with TkStringLit _ | TkIntLit _ | TkFloatLit _ | TkTrue | TkFalse | TkNull => True | _ => False end ->
        q w = pbind parse_literal_value p) ->
      pbind current q (s :: st') = r) as Hcur.
    { intros s st' A q p r Ht Hr Hq. apply run_current. cbn. rewrite Ht, Hq; [done|].
      destruct v as [|[]| | | | | | | | | | | | | | | | | | | |]; cbn in Hl; try discriminate Hl;
        injection Hl as <-; exact I. }
    destruct values as [|w values].
    + cbn [separated map] in Hst. open_pre. eapply loop_leave; [done|].
      eapply Hcur; [done| |by intros []].
      eapply run_bind; [by eapply literal_reads|]. apply run_accept_no; [by rewrite Hh|done].
    + change (pre ([t] ++ TkComma :: separated (map (fun v => match literal v with Some t => [t] | None => [] end) (w :: values)))
        st rest) in Hst.
      open_pre. pose proof (pre_nonempty _ _ _ Hst Hne) as Hne'.
      eapply loop_turn.
      * eapply Hcur; [done| |by intros []].
        eapply run_bind; [by eapply literal_reads|]. by apply run_accept_yes; [done|done|reflexivity].
      * simpl. lia.
      * rewrite (IH (acc ++ [v])); [by rewrite <-app_assoc|done..].
Qed.

Lemma read_in c values negated :
  forallb (fun v => is_some (literal v)) values = true -> reads 3 (EIn c values negated).
Proof using.
  intros Hv st rest Hst Hne Hs. cbn [level_parser]. column_form Hst Hne.
  unfold parse_in. run.
  assert (head_token st0 <> TkSelect) as Hsel.
  { destruct values as [|v values]; [apply pre_nil in Hpre as ->; cbn; by rewrite Ht2|].
    cbn [forallb] in Hv. apply andb_true_iff in Hv as [Hv _]. cbn [map] in Hpre.
    destruct (literal v) as [t|] eqn:Hl; [|done].
    assert (head_token st0 = t) as ->.
    { destruct values; cbn in Hpre; by rewrite (pre_head _ _ _ _ Hpre). }
    intros ->. by destruct v as [|[]| | | | | | | | | | | | | | | | | | | |]. }
  assert ((let* values := parse_in_values in expect TkRParen ;;; pret (EIn c values negated)) st0
    = POk (EIn (J := J) (S := Sel) c values negated) rest) as Hin.
  { eapply run_bind; [apply (in_values_loop values []); [done|exact Hpre|done|exact Ht2]|]. run. }
  destruct (head_token st0); done.
Qed.

(** *** Primaries *)

(** What the callback must do with a nested expression. *)
Definition nested (e : Expr) : Prop := fits e 0 = true /\ reads_as callback (print e) e (stops 0).

Lemma nested_head e st rest : nested e -> pre (print e) st rest -> starts (head_token st) = true.
Proof using. intros [Hf _] Hst. by apply (pre_print_head _ _ _ _ Hf Hst). Qed.

(** Run the callback on a nested expression. *)
Ltac nested_step :=
  match goal with
  | Hn : nested ?e, Hp : pre (print ?e) ?st _ |- pbind callback _ ?st = _ =>
      eapply run_bind; [apply (proj2 Hn); [exact Hp|not_empty|head_is; reflexivity]|]; cbn beta iota
  end.
Ltac run_nested := repeat first [run_step | nested_step].

Lemma read_literal v : is_some (literal v) = true -> reads 7 (ELiteral v).
Proof using.
  intros Hv st rest Hst Hne Hs. cbn [level_parser print] in *. destruct (literal v) as [t|] eqn:Hl; [|done].
  open_pre. unfold parse_primary. apply run_current. cbn [head_token]. clear Hs Hv.
  destruct v as [|[]| | | | | | | | | | | | | | | | | | | |]; cbn in Hl; try discriminate Hl;
    injection Hl as <-; run.
Qed.

Lemma read_variable name : reads 7 (EVariable name).
Proof using.
  intros st rest Hst Hne Hs. cbn [level_parser print] in *. open_pre. unfold parse_primary. run.
Qed.

Lemma read_paren e : nested e -> reads 7 (EParen e).
Proof using.
  intros He st rest Hst Hne Hs. cbn [level_parser print] in *. open_pre. unfold parse_primary. run.
  pose proof (nested_head _ _ _ He Hpre) as Hh.
  assert ((let* expr := callback in expect TkRParen ;;; pret (EParen expr)) st0 = POk (EParen e) rest) as Hp by run_nested.
  destruct (head_token st0); done.
Qed.

Lemma read_cast e t : nested e -> has_type_name t = true -> reads 7 (ECast e t).
Proof using.
  intros He Ht st rest Hst Hne Hs. cbn [level_parser print] in *. open_pre. unfold parse_primary. run.
  unfold parse_cast. run_nested.
  unfold has_type_name in Ht. apply bool_decide_eq_true in Ht. by rewrite Ht.
Qed.

(** Evaluate the comparisons of a literal name. *)
Ltac names :=
  cbv zeta;
  repeat match goal with
  | |- context [String.eqb (to_uppercase ?n) ?m] =>
      let b := eval vm_compute in (String.eqb (to_uppercase n) m) in change (String.eqb (to_uppercase n) m) with b
  end; cbn beta iota delta [orb].

Lemma read_fts_match q fuzzy : reads 7 (EFtsMatch q fuzzy).
Proof using.
  intros st rest Hst Hne Hs. cbn [level_parser print] in *. open_pre. unfold parse_primary. run.
  unfold parse_named. run. destruct fuzzy; names; run.
Qed.

Lemma read_fts_score q : reads 7 (EFtsScore q).
Proof using.
  intros st rest Hst Hne Hs. cbn [level_parser print] in *. unfold parse_primary. destruct q as [q|]; open_pre; run;
    unfold parse_named; run; names; unfold parse_fts_score_rest; run; (eapply run_bind; [run|run]).
Qed.

(** *** Calls *)

Lemma args_head (args : list Expr) st s rest :
  Forall nested args -> pre (separated (map print args)) st (s :: rest) -> st_token s = TkRParen ->
  if args is [] then st = s :: rest else starts (head_token st) = true.
Proof using.
  intros Ha Hst Hs. destruct Ha as [|a args Ha _]; [by apply pre_nil in Hst|].
  destruct args as [|b args]; [by eapply nested_head|].
  change (pre (print a ++ TkComma :: separated (map print (b :: args))) st (s :: rest)) in Hst.
  apply pre_app in Hst as (mid & Hst & _). by eapply nested_head.
Qed.

Lemma parse_args_reads (args : list Expr) st s rest :
  Forall nested args -> pre (separated (map print args)) st (s :: rest) -> st_token s = TkRParen ->
  parse_args callback st = POk args (s :: rest).
Proof using.
  intros Ha Hst Hs. unfold parse_args. apply run_current.
  pose proof (args_head _ _ _ _ Ha Hst Hs) as Hh. destruct args as [|a args].
  - subst st. cbn. rewrite Hs. reflexivity.
  - assert (comma_list callback st = POk (a :: args) (s :: rest)) as Hc.
    { eapply (comma_list_reads callback print (stops 0)); [done|done| |exact Hst|done|cbn; by rewrite Hs].
      intros x Hx. rewrite Forall_forall in Ha. by apply Ha. }
    destruct (head_token st); done.
Qed.

Definition index_step (expr : Expr) : Parser (Expr + Expr) :=
  let* bracket := accept TkLBracket in
  if bracket then
    let* index := callback in
    expect TkRBracket ;;;
    again (EArrayIndex expr index)
  else leave expr.

Lemma plain_name_tests name :
  plain_name name = true ->
  String.eqb (to_uppercase name) "MATCH" = false /\ String.eqb (to_uppercase name) "FUZZY_MATCH" = false /\
  String.eqb (to_uppercase name) "FTS_SCORE" = false /\ String.eqb (to_uppercase name) "TOPK_DISTANCE" = false /\
  String.eqb (to_uppercase name) "EXPLODE_RENAME" = false.
Proof using.
  unfold plain_name, one_of. cbn [existsb]. rewrite negb_true_iff, !orb_false_iff. tauto.
Qed.

(** The call of a plain name, up to the indexes after it. *)
Lemma read_call name args s st s' rest e' rest' :
  plain_name name = true -> Forall nested args -> st_token s = TkLParen ->
  pre (separated (map print args)) st (s' :: rest) -> st_token s' = TkRParen -> rest <> [] ->
  loop index_step (EFunction name args) rest = POk e' rest' ->
  parse_function_call_from_name callback name (s :: st) = POk e' rest'.
Proof using.
  intros Hname Ha Hs Hst Hs' Hne Hloop. unfold parse_function_call_from_name.
  pose proof (pre_nonempty _ _ _ Hst ltac:(done)) as Hst'. run.
  destruct (plain_name_tests _ Hname) as (_ & _ & H1 & H2 & H3). cbv zeta. rewrite H1, H2, H3.
  pose proof (args_head _ _ _ _ Ha Hst Hs') as Hh.
  assert (starts (head_token st) = true \/ head_token st = TkRParen) as Hhead.
  { destruct args; [right; by subst st|by left]. }
  apply run_current.
  assert ((let* distinct := accept TkDistinct in
           let* args := parse_args callback in
           expect TkRParen ;;;
           parse_array_index callback (EFunction (if distinct then "COUNT_DISTINCT"%string else name) args)) st = POk e' rest') as Hgen.
  { apply run_accept_no; [destruct Hhead as [Hh'|Hh']; intros Hd; rewrite Hd in Hh'; done|].
    eapply run_bind; [by eapply parse_args_reads|]. run. exact Hloop. }
  destruct (head_token st), (eq_ignore_ascii_case name "count"); try exact Hgen; by destruct Hhead.
Qed.

Lemma parse_named_call name s st e' rest' :
  plain_name name = true -> st_token s = TkLParen ->
  parse_function_call_from_name callback name (s :: st) = POk e' rest' ->
  parse_named display callback name (s :: st) = maybe_parse_over display callback e' rest'.
Proof using.
  intros Hname Hs Hc. unfold parse_named. apply run_current. cbn [head_token]. rewrite Hs.
  destruct (plain_name_tests _ Hname) as (H1 & H2 & H3 & _). cbv zeta. rewrite H1, H2, H3. cbn [orb].
  by eapply run_bind.
Qed.

(** An indexable expression is read as the loop over indexes continued from it. *)
Definition continues_index (e : Expr) : Prop :=
  forall st rest e' rest', pre (print e) st rest -> rest <> [] -> loop index_step e rest = POk e' rest' ->
    head_token rest' <> TkOver -> parse_primary parse_select_internal display callback st = POk e' rest'.

Lemma no_over (e : Expr) st : head_token st <> TkOver -> maybe_parse_over display callback e st = POk e st.
Proof using.
  intros Hh. unfold maybe_parse_over. apply run_current. destruct (head_token st); done.
Qed.

Lemma continues_function name args :
  plain_name name = true -> Forall nested args -> continues_index (EFunction name args).
Proof using.
  intros Hname Ha st rest e' rest' Hst Hne Hloop Hover. cbn [print] in Hst. open_cons.
  apply pre_app in Hst as (mid & Hst & Hmid). apply pre_cons in Hmid as (s1 & st1 & -> & Ht1 & Hmid).
  apply pre_nil in Hmid as ->. pose proof (pre_nonempty _ _ _ Hst ltac:(done)) as Hst'.
  unfold parse_primary. run. rewrite (parse_named_call name _ _ e' rest'); [by apply no_over|done|done|].
  by eapply read_call.
Qed.

Lemma continues_array_index a i : continues_index a -> nested i -> continues_index (EArrayIndex a i).
Proof using.
  intros Ha Hi st rest e' rest' Hst Hne Hloop Hover. cbn [print] in Hst. open_pre.
  eapply Ha; [exact Hpre|done| |exact Hover].
  apply (loop_turn _ _ (EArrayIndex a i) _ rest); [|apply pre_length in Hpre0; simpl in *; lia|exact Hloop].
  unfold index_step. run. nested_step. run.
Qed.

Lemma continues_index_reads e : continues_index e -> reads 7 e.
Proof using.
  intros He st rest Hst Hne Hs. cbn [level_parser]. eapply He; [exact Hst|done| |by intros Ht; rewrite Ht in Hs].
  apply loop_leave; [done|]. unfold index_step. apply run_accept_no; [by intros Ht; rewrite Ht in Hs|reflexivity].
Qed.

(** *** Arrays *)

Definition array_step (values : list Z) : Parser (list Z + list Z) :=
  let* t := current in
  match t with
  | TkRBracket | TkEof => leave values
  | _ =>
      let* v := array_number f64_neg id f64_of_Z [(TkMinus, true); (TkPlus, false)] in
      again (values ++ [v])
  end.

Lemma array_number_float s f st st' :
  st_token s = TkFloatLit f -> st <> [] -> accept TkComma st = POk (bool_decide (head_token st = TkComma)) st' ->
  array_number f64_neg id f64_of_Z [(TkMinus, true); (TkPlus, false)] (s :: st) = POk f st'.
Proof using.
  intros Hs Hne Hc. unfold array_number. apply run_current. cbn [head_token]. rewrite Hs. cbv zeta.
  change (snd <$> List.find _ _) with (@None bool). cbn iota. eapply run_bind; [reflexivity|]. run.
  eapply run_bind; [run|]. eapply run_bind; [exact Hc|]. reflexivity.
Qed.

Lemma array_loop values acc st s rest :
  pre (separated (map (fun f => [TkFloatLit f]) values)) st (s :: rest) -> st_token s = TkRBracket ->
  loop array_step acc st = POk (acc ++ values) (s :: rest).
Proof using.
  revert acc st. induction values as [|f values IH]; intros acc st Hst Hs.
  - apply pre_nil in Hst as ->. rewrite app_nil_r. apply loop_leave; [done|]. unfold array_step. run.
  - assert (forall s1 st1 st2, st_token s1 = TkFloatLit f -> st1 <> [] ->
      accept TkComma st1 = POk (bool_decide (head_token st1 = TkComma)) st2 ->
      array_step acc (s1 :: st1) = POk (inl (acc ++ [f])) st2) as Hstep.
    { intros s1 st1 st2 Hs1 Hst1 Hc. unfold array_step. run.
      eapply run_bind; [by eapply array_number_float|reflexivity]. }
    destruct values as [|g values].
    + cbn [map separated] in Hst. apply pre_cons in Hst as (s1 & st1 & -> & Hs1 & Hst). apply pre_nil in Hst as ->.
      eapply loop_turn; [apply Hstep; [done|done|]| |].
      * unfold accept, pbind, current. cbn [head_token]. rewrite Hs. reflexivity.
      * simpl. lia.
      * apply loop_leave; [done|]. unfold array_step. run.
    + change (pre ([TkFloatLit f] ++ TkComma :: separated (map (fun f => [TkFloatLit f]) (g :: values))) st (s :: rest)) in Hst.
      cbn [app] in Hst. open_cons. pose proof (pre_nonempty _ _ _ Hst ltac:(done)) as Hne.
      apply (loop_turn _ _ (acc ++ [f]) _ st); [apply Hstep; [done|done|]| |].
      * unfold accept, pbind, current. cbn [head_token]. rewrite Ht0.
        rewrite (bool_decide_eq_true_2 (TkComma = TkComma)) by done. by destruct st.
      * simpl. lia.
      * rewrite (IH (acc ++ [f])); [by rewrite <-app_assoc|exact Hst|done].
Qed.

Lemma read_array_literal values : reads 7 (EArrayLiteral values).
Proof using.
  intros st rest Hst Hne Hs. cbn [level_parser print] in *. unfold print_array in Hst. open_pre.
  unfold parse_primary. run. unfold parse_array_literal.
  eapply run_bind; [exact (array_loop values [] st0 s0 rest Hpre Ht0)|]. run.
Qed.

Lemma read_topk col query k metric :
  nested (EArrayLiteral query) -> (0 <= k)%Z -> (k < U64_MOD)%Z -> reads 7 (ETopkDistance col query k metric).
Proof using.
  intros Hq Hk0 Hk st rest Hst Hne Hs. cbn [level_parser print] in *.
  change (print_array query) with (print (EArrayLiteral (J := J) (S := Sel) query)) in Hst.
  open_pre. unfold parse_primary. run.
  unfold parse_named. run. names.
  eapply run_bind; [|apply no_over; by intros Ho; rewrite Ho in Hs].
  unfold parse_function_call_from_name. run. names. unfold parse_topk_distance_rest.
  eapply run_bind; [unfold parse_identifier; run|]. run. nested_step. run. eapply run_bind; [run|]. run.
  unfold wrap64. by rewrite Z.mod_small by done.
Qed.

Lemma names_loop names acc st s rest :
  pre (flat_map (fun n => [TkComma; TkStringLit n]) names) st (s :: rest) -> st_token s = TkRParen ->
  loop (fun names =>
    let* comma := accept TkComma in
    if comma then let* s := parse_string_literal in again (names ++ [s]) else leave names) acc st =
  POk (acc ++ names) (s :: rest).
Proof using.
  revert acc st. induction names as [|n names IH]; intros acc st Hst Hs.
  - apply pre_nil in Hst as ->. rewrite app_nil_r. apply loop_leave; [done|]. run.
  - cbn [flat_map app] in Hst. open_cons. pose proof (pre_nonempty _ _ _ Hst ltac:(done)) as Hne.
    apply (loop_turn _ _ (acc ++ [n]) _ st); [run|simpl; lia|].
    rewrite (IH (acc ++ [n])); [by rewrite <-app_assoc|exact Hst|done].
Qed.

Lemma read_explode inner names :
  nested inner -> 2 <= length names -> reads 7 (EExplodeRename inner names).
Proof using.
  intros Hi Hlen st rest Hst Hne Hs. cbn [level_parser print] in *. open_pre. unfold parse_primary. run.
  unfold parse_named. run. names.
  eapply run_bind; [|apply no_over; by intros Ho; rewrite Ho in Hs].
  unfold parse_function_call_from_name. run. names. unfold parse_explode_rename_rest.
  eapply run_bind.
  { apply (proj2 Hi); [exact Hpre|by eapply pre_nonempty|].
    destruct names as [|n names]; [simpl in Hlen; lia|]. cbn [flat_map app] in Hpre0.
    by rewrite (pre_head _ _ _ _ Hpre0). }
  eapply run_bind; [exact (names_loop names [] _ _ _ Hpre0 Ht1)|].
  cbn [app]. rewrite (proj2 (Nat.ltb_ge _ _)) by done. run.
Qed.

(** *** CASE *)

Definition when_step (when_then : list (Expr * Expr)) : Parser (list (Expr * Expr) + list (Expr * Expr)) :=
  let* is_when := accept TkWhen in
  if is_when then
    let* candidate := callback in
    let cond := match @None Expr with
                | Some operand => EBinaryOp operand OpEq candidate
                | None => candidate
                end in
    expect TkThen ;;;
    let* val := callback in
    again (when_then ++ [(cond, val)])
  else leave when_then.

Lemma whens_loop whens acc st rest :
  Forall (fun wt => nested (fst wt) /\ nested (snd wt)) whens ->
  pre (flat_map (fun wt => TkWhen :: print (fst wt) ++ TkThen :: print (snd wt)) whens) st rest ->
  rest <> [] -> (head_token rest = TkElse \/ head_token rest = TkEnd) ->
  loop when_step acc st = POk (acc ++ whens) rest.
Proof using.
  intros Hw. revert acc st. induction Hw as [|[c v] whens [Hc Hv] Hw IH]; intros acc st Hst Hne Hh.
  - apply pre_nil in Hst as ->. rewrite app_nil_r. apply loop_leave; [done|]. unfold when_step.
    apply run_accept_no; [by destruct Hh as [-> | ->]|reflexivity].
  - cbn [flat_map fst snd] in *. rewrite <-app_comm_cons, <-app_assoc in Hst. cbn [app] in Hst. open_cons.
    apply pre_app in Hst as (mid & Hst & Hmid). open_cons.
    apply pre_app in Hmid as (mid' & Hval & Hrest). pose proof (pre_nonempty _ _ _ Hrest Hne) as Hne'.
    apply (loop_turn _ _ (acc ++ [(c, v)]) _ mid').
    + unfold when_step. run_nested. eapply run_bind; [|reflexivity].
      apply (proj2 Hv); [exact Hval|done|].
      destruct whens as [|w whens]; [apply pre_nil in Hrest as ->; by destruct Hh as [-> | ->]|].
      cbn [flat_map] in Hrest. rewrite <-app_comm_cons in Hrest. by rewrite (pre_head _ _ _ _ Hrest).
    + apply pre_length in Hst, Hval. simpl in *. lia.
    + rewrite (IH (acc ++ [(c, v)])); [by rewrite <-app_assoc|exact Hrest|done..].
Qed.

Lemma read_case whens else_expr :
  whens <> [] -> Forall (fun wt => nested (fst wt) /\ nested (snd wt)) whens ->
  (if else_expr is Some v then nested v else True) -> reads 7 (ECase whens else_expr).
Proof using.
  intros Hw Hwhens Helse st rest Hst Hne Hs. cbn [level_parser print] in *. open_cons.
  apply pre_app in Hst as (mid & Hst & Hmid).
  assert (mid <> []) as Hmne by (eapply pre_nonempty; [exact Hmid|done]).
  pose proof (pre_nonempty _ _ _ Hst Hmne) as Hst'.
  unfold parse_primary. run. unfold parse_case. apply run_current.
  assert (head_token st0 = TkWhen) as Hwhen.
  { destruct whens as [|w whens]; [done|]. cbn [flat_map] in Hst. rewrite <-app_comm_cons in Hst.
    by rewrite (pre_head _ _ _ _ Hst). }
  rewrite Hwhen. eapply run_bind; [reflexivity|].
  assert (head_token mid = TkElse \/ head_token mid = TkEnd) as Hh.
  { destruct else_expr; cbn [app] in Hmid; rewrite (pre_head _ _ _ _ Hmid); auto. }
  eapply run_bind; [exact (whens_loop whens [] st0 mid Hwhens Hst Hmne Hh)|]. cbn [app].
  destruct else_expr as [v|]; cbn [app] in Hmid.
  - open_pre. run. eapply run_bind; [nested_step; run|]. run.
  - open_pre. run. eapply run_bind; [run|]. run.
Qed.

(** *** Windows *)

(** What may follow a key of a window clause: [ORDER], [ROWS]/[RANGE], or the end. *)
Definition ends_key (t : Token) : bool :=
  match t with TkComma | TkRParen | TkOrder | TkIdentifier _ => true | _ => false end.

Lemma column_reads c : reads_as (let* t := current in match t with TkIdentifier _ => parse_column_ref | _ => query_error end)
  [TkIdentifier c] c ends_key.
Proof using.
  intros st rest Hst Hne He. open_pre. run. unfold parse_column_ref. run. apply loop_leave; [done|].
  apply run_accept_no; [by intros Ht'; rewrite Ht' in He|reflexivity].
Qed.

Lemma column_list_reads cols : cols <> [] -> reads_as parse_column_list (separated (map (fun c => [TkIdentifier c]) cols)) cols (ends_list ends_key).
Proof using.
  intros Hne. apply (comma_list_reads _ (fun c => [TkIdentifier c]) ends_key); [done|done|].
  intros c _. apply column_reads.
Qed.

Lemma order_name_reads c s st :
  st_token s = TkIdentifier c -> st <> [] -> head_token st <> TkDot -> head_token st <> TkLParen ->
  parse_order_key callback display (s :: st) = POk (Some (c, None)) st.
Proof using.
  intros Hs Hne Hdot Hparen. unfold parse_order_key. run. cbn [aggregate_name]. cbv beta.
  eapply run_bind.
  { unfold parse_column_ref. run. apply loop_leave; [done|]. by apply run_accept_no. }
  apply run_current. destruct (head_token st); done.
Qed.

Definition order_step (clauses : list (OrderByClause J Sel)) :
    Parser (list (OrderByClause J Sel) + list (OrderByClause J Sel)) :=
  let* key := parse_order_key callback display in
  match key with
  | None => leave clauses
  | Some (column, expr) =>
      let* descending := parse_descending in
      let* nulls_first := parse_nulls_first in
      let clauses := clauses ++ [mkOrderBy column descending nulls_first expr] in
      let* comma := accept TkComma in
      if comma then again clauses else leave clauses
  end.

Lemma order_step_reads clauses key st rest :
  order_key_fits key = true -> pre (print_order_key key) st rest -> rest <> [] -> ends_key (head_token rest) = true ->
  order_step clauses st =
    (let* comma := accept TkComma in
     if comma then again (clauses ++ [key]) else leave (clauses ++ [key])) rest.
Proof using.
  intros Hk Hst Hne He. destruct key as [c d n [e|]]; [done|]. cbn [print_order_key] in Hst. open_cons.
  pose proof (pre_nonempty _ _ _ Hst Hne) as Hne'. unfold order_step.
  assert (head_token st0 <> TkDot /\ head_token st0 <> TkLParen) as [Hdot Hparen].
  { destruct d, n as [[]|]; cbn [app] in Hst;
      first [by rewrite (pre_head _ _ _ _ Hst) | apply pre_nil in Hst as ->];
      split; intros Hh; by rewrite Hh in He. }
  eapply run_bind; [by apply order_name_reads|]. cbn iota.
  assert (parse_nulls_first rest = POk None rest) as Hnulls.
  { unfold parse_nulls_first. apply run_accept_no; [by intros Hh; rewrite Hh in He|reflexivity]. }
  assert (parse_descending rest = POk false rest) as Hdesc.
  { unfold parse_descending. apply run_accept_no; [by intros Hh; rewrite Hh in He|].
    apply run_accept_no; [by intros Hh; rewrite Hh in He|reflexivity]. }
  destruct d, n as [[]|]; cbn [app] in Hst; open_pre;
    (eapply run_bind; [first [exact Hdesc | unfold parse_descending; run]|]); cbv beta;
    (eapply run_bind; [first [exact Hnulls | unfold parse_nulls_first; run]|]); reflexivity.
Qed.

Lemma order_loop keys acc st rest :
  keys <> [] -> forallb order_key_fits keys = true ->
  pre (separated (map print_order_key keys)) st rest -> rest <> [] ->
  ends_list ends_key (head_token rest) = true ->
  loop order_step acc st = POk (acc ++ keys) rest.
Proof using.
  revert acc st. induction keys as [|k keys IH]; intros acc st Hk Hf Hst Hne He; [done|].
  cbn [forallb] in Hf. apply andb_true_iff in Hf as [Hfk Hf].
  pose proof He as Hends. unfold ends_list in Hends. apply andb_true_iff in Hends as [He1 He2].
  apply negb_true_iff, bool_decide_eq_false in He2.
  destruct keys as [|k' keys].
  - cbn in Hst. apply loop_leave; [by eapply pre_nonempty|]. rewrite (order_step_reads _ k st rest) by done.
    apply run_accept_no; [done|reflexivity].
  - change (pre (print_order_key k ++ TkComma :: separated (map print_order_key (k' :: keys))) st rest) in Hst.
    apply pre_app in Hst as (mid & Hst & Hmid). open_cons. pose proof (pre_nonempty _ _ _ Hmid Hne) as Hne'.
    eapply loop_turn.
    + rewrite (order_step_reads _ k st (s :: st0)) by (done || by cbn; rewrite Ht). run.
    + apply pre_length in Hst. simpl in *. lia.
    + rewrite (IH (acc ++ [k])); [by rewrite <-app_assoc|done..].
Qed.

Lemma direction_reads {A} (a b x : A) s st (word : string) :
  st_token s = TkIdentifier word -> st <> [] ->
  (word = "preceding" /\ x = a \/ word = "following" /\ x = b)%string ->
  parse_frame_direction a b (s :: st) = POk x st.
Proof using.
  intros Hs Hne Hw. unfold parse_frame_direction. run. by destruct Hw as [[-> ->]|[-> ->]].
Qed.

Lemma bound_reads b ends : reads_as parse_window_frame_bound (print_bound b) b ends.
Proof using.
  intros st rest Hst Hne _. unfold parse_window_frame_bound, signed_offset.
  destruct b; cbn [print_bound] in Hst; open_pre; apply run_current; head_is.
  - change (identifier_is _ "unbounded") with true. cbn iota. run. eapply direction_reads; [done|done|by left].
  - cbn [identifier_is]. eapply run_bind; [run|]. eapply direction_reads; [done|done|by left].
  - change (identifier_is _ "unbounded") with false. change (identifier_is _ "current") with true. cbn iota. run.
    change (identifier_is _ "row") with true. cbn iota. run.
  - cbn [identifier_is]. eapply run_bind; [run|]. eapply direction_reads; [done|done|by right].
  - change (identifier_is _ "unbounded") with true. cbn iota. run. eapply direction_reads; [done|done|by right].
Qed.

Lemma frame_reads frame st s rest :
  pre (match frame with Some f => print_frame f | None => [] end) st (s :: rest) -> st_token s = TkRParen ->
  parse_optional_window_frame st = POk frame (s :: rest).
Proof using.
  intros Hst Hs. unfold parse_optional_window_frame. destruct frame as [[rows b1 b2]|].
  - unfold print_frame in Hst. cbn [frame_rows frame_start frame_end] in Hst. open_pre.
    apply run_current. head_is.
    assert ((if identifier_is (TkIdentifier (if rows then "rows" else "range")) "rows" then Some true
             else if identifier_is (TkIdentifier (if rows then "rows" else "range")) "range" then Some false else None)
            = Some rows) as -> by (by destruct rows).
    cbv zeta. cbn iota. run.
    eapply run_bind; [apply (bound_reads b1 (fun _ => true)); [exact Hpre|done|done]|]. run.
    eapply run_bind; [apply (bound_reads b2 (fun _ => true)); [exact Hst|done|done]|]. run.
  - apply pre_nil in Hst as ->. apply run_current. cbn [head_token]. by rewrite Hs.
Qed.

Lemma partition_reads parts st mid A (q : list string -> Parser A) r :
  pre (match parts with
       | [] => []
       | _ => TkPartition :: TkBy :: separated (map (fun c => [TkIdentifier c]) parts)
       end) st mid ->
  mid <> [] -> ends_list ends_key (head_token mid) = true -> head_token mid <> TkPartition -> q parts mid = r ->
  (let* partition := accept TkPartition in
   let* partition_by := if partition then expect TkBy ;;; parse_column_list else pret [] in q partition_by) st = r.
Proof using.
  intros Hst Hne He Hp Hq. destruct parts as [|c parts].
  - apply pre_nil in Hst as ->. by apply run_accept_no.
  - open_cons. pose proof (pre_nonempty _ _ _ Hst Hne). run. eapply run_bind; [|exact Hq]. run.
    by apply column_list_reads.
Qed.

Lemma keys_reads keys st mid A (q : list (OrderByClause J Sel) -> Parser A) r :
  forallb order_key_fits keys = true ->
  pre (match keys with [] => [] | _ => TkOrder :: TkBy :: separated (map print_order_key keys) end) st mid ->
  mid <> [] -> ends_list ends_key (head_token mid) = true -> head_token mid <> TkOrder -> q keys mid = r ->
  (let* order := accept TkOrder in
   let* order_by := if order then expect TkBy ;;; parse_order_by callback display else pret [] in q order_by) st = r.
Proof using.
  intros Hk Hst Hne He Hp Hq. destruct keys as [|k keys].
  - apply pre_nil in Hst as ->. by apply run_accept_no.
  - open_cons. pose proof (pre_nonempty _ _ _ Hst Hne). run. eapply run_bind; [|exact Hq]. run.
    by apply (order_loop (k :: keys) []).
Qed.

Lemma over_reads name args parts keys frame st s rest :
  forallb order_key_fits keys = true -> String.eqb (to_uppercase name) name = true ->
  pre (TkOver :: TkLParen :: print_window parts keys frame) st (s :: rest) -> st_token s = TkRParen -> rest <> [] ->
  maybe_parse_over display callback (EFunction name args) st = POk (EWindow name args parts keys frame) rest.
Proof using.
  intros Hk Hname Hst Hs Hne. apply String.eqb_eq in Hname. unfold print_window in Hst. open_cons.
  apply pre_app in Hst as (mid1 & Hparts & Hst). apply pre_app in Hst as (mid2 & Hkeys & Hframe).
  pose proof (pre_nonempty _ _ _ Hframe ltac:(done)) as Hne2. pose proof (pre_nonempty _ _ _ Hkeys Hne2) as Hne1.
  pose proof (pre_nonempty _ _ _ Hparts Hne1) as Hne0.
  assert (ends_list ends_key (head_token mid2) = true /\ head_token mid2 <> TkOrder /\ head_token mid2 <> TkPartition)
    as (He2 & Ho2 & Hp2).
  { destruct frame as [f|]; [unfold print_frame in Hframe; by rewrite (pre_head _ _ _ _ Hframe)|].
    apply pre_nil in Hframe as ->. cbn. by rewrite Hs. }
  assert (ends_list ends_key (head_token mid1) = true /\ head_token mid1 <> TkPartition) as (He1 & Hp1).
  { destruct keys as [|k keys]; [by apply pre_nil in Hkeys as ->|]. by rewrite (pre_head _ _ _ _ Hkeys). }
  unfold maybe_parse_over. run.
  eapply partition_reads; [exact Hparts|done..|]. eapply keys_reads; [done|exact Hkeys|done..|].
  eapply run_bind; [by eapply frame_reads|]. run. by rewrite Hname.
Qed.

Lemma read_window name args parts keys frame :
  plain_name name = true -> String.eqb (to_uppercase name) name = true -> Forall nested args ->
  forallb order_key_fits keys = true -> reads 7 (EWindow name args parts keys frame).
Proof using.
  intros Hname Hup Ha Hk st rest Hst Hne Hs. cbn [level_parser print] in *. open_cons.
  apply pre_app in Hst as (mid & Hargs & Hst). apply pre_cons in Hst as (s1' & st' & -> & Hs1 & Hst).
  rewrite app_comm_cons, app_comm_cons in Hst. apply pre_app in Hst as (mid & Hwin & Hst).
  apply pre_cons in Hst as (s2' & st'' & -> & Hs2 & Hst). apply pre_nil in Hst as ->.
  pose proof (pre_nonempty _ _ _ Hargs ltac:(done)) as Hne0.
  assert (head_token st' = TkOver) as Hover by exact (pre_head _ _ _ _ Hwin).
  pose proof (pre_nonempty _ _ _ Hwin ltac:(done)) as Hne1.
  unfold parse_primary. run.
  rewrite (parse_named_call name _ _ (EFunction name args) st').
  - by eapply over_reads.
  - done.
  - done.
  - eapply read_call; try done. apply loop_leave; [done|]. unfold index_step.
    apply run_accept_no; [by rewrite Hover|reflexivity].
Qed.

(** *** All expressions *)

Lemma separated_length x items : x ∈ items -> length x <= length (separated items).
Proof using.
  induction items as [|y items IH]; intros Hx; [set_solver|]. destruct items as [|z items].
  - assert (x = y) as -> by set_solver. done.
  - change (separated (y :: z :: items)) with (y ++ TkComma :: separated (z :: items)).
    rewrite length_app. cbn [length]. apply elem_of_cons in Hx as [-> |Hx]; [lia|]. specialize (IH Hx). lia.
Qed.

Lemma flat_map_length {A} (f : A -> list Token) x items :
  x ∈ items -> length (f x) <= length (flat_map f items).
Proof using.
  induction items as [|y items IH]; intros Hx; [set_solver|]. cbn [flat_map]. rewrite length_app.
  apply elem_of_cons in Hx as [-> |Hx]; [lia|]. specialize (IH Hx). lia.
Qed.

Section all.
Variable m : nat.
Hypothesis callback_reads :
  forall e, length (print e) < m -> fits e 0 = true -> reads_as callback (print e) e (stops 0).

Lemma make_nested e : length (print e) < m -> fits e 0 = true -> nested e.
Proof using callback_reads. split; auto. Qed.

Lemma nested_args args k :
  length (separated (map print args)) < k -> k <= m -> forallb (fun a => fits a 0) args = true -> Forall nested args.
Proof using callback_reads.
  intros Hl Hk Hf. rewrite forallb_forall in Hf. apply Forall_forall. intros a Ha.
  apply make_nested; [|apply Hf; by apply list_elem_of_In].
  pose proof (separated_length (print a) (map print args)) as Hs.
  enough (print a ∈ map print args) by (specialize (Hs ltac:(done)); lia).
  apply list_elem_of_fmap. eauto.
Qed.

Lemma nested_whens whens k :
  length (flat_map (fun wt => TkWhen :: print (fst wt) ++ TkThen :: print (snd wt)) whens) < k -> k <= m ->
  forallb (fun wt => fits (fst wt) 0 && fits (snd wt) 0) whens = true ->
  Forall (fun wt => nested (fst wt) /\ nested (snd wt)) whens.
Proof using callback_reads.
  intros Hl Hk Hf. rewrite forallb_forall in Hf. apply Forall_forall. intros wt Hwt.
  specialize (Hf wt ltac:(by apply list_elem_of_In)). apply andb_true_iff in Hf as [H1 H2].
  pose proof (flat_map_length (fun wt => TkWhen :: print (fst wt) ++ TkThen :: print (snd wt)) wt whens Hwt) as Hlen.
  cbn in Hlen. rewrite length_app in Hlen. cbn in Hlen. split; apply make_nested; (done || lia).
Qed.

Definition all_reads (e : Expr) : Prop :=
  (forall lvl, lvl <= 7 -> fits e lvl = true -> reads lvl e) /\
  (forall lvl, assoc_level lvl -> fits e lvl = true -> chain lvl e) /\
  (indexable e = true -> fits e 7 = true -> continues_index e).

Lemma all_reads_own e :
  (fits e (level e) = true -> reads (level e) e) ->
  (assoc_level (level e) -> fits e (level e) = true -> chain (level e) e) ->
  (indexable e = true -> fits e 7 = true -> continues_index e) -> all_reads e.
Proof using.
  intros Hown Hchain Hindex. split; [|split]; [| |done].
  - intros lvl Hlvl Hf. apply reads_down; [done|done|]. apply Hown. by eapply fits_level.
  - intros lvl Ha Hf. pose proof (fits_le _ _ Hf) as Hle.
    destruct (decide (lvl = level e)) as [-> |Hneq]; [by apply Hchain|].
    apply continues_operand. apply reads_down; [apply (fits_level e lvl); [done|lia]| |].
    + unfold assoc_level in Ha. lia.
    + apply Hown. by eapply fits_level.
Qed.

(** An expression that is neither a left-associative operator nor indexable. *)
Lemma all_reads_simple e :
  ~ assoc_level (level e) -> indexable e = false -> (fits e (level e) = true -> reads (level e) e) -> all_reads e.
Proof using.
  intros Ha Hi Hown. apply all_reads_own; [done|by intros ?|by rewrite Hi].
Qed.

Ltac simple := apply all_reads_simple; [cbn; unfold assoc_level; lia|done|cbn [level fits]].
Ltac split_fits H := rewrite ?andb_true_iff in H; destruct_and? H.

Lemma all_reads_binary l op r :
  all_reads l -> all_reads r -> all_reads (EBinaryOp l op r).
Proof using.
  intros (Hl & Hlc & _) (Hr & _ & _).
  assert (assoc_level (operator_level op) -> fits (EBinaryOp l op r) (operator_level op) = true ->
    chain (operator_level op) (EBinaryOp l op r)) as Hchain.
  { intros Ha Hf. cbn [fits level] in Hf. rewrite Nat.leb_refl in Hf. cbn [andb] in Hf. apply andb_true_iff in Hf as [Hfl Hfr].
    assert (left_level op = operator_level op) as Heq
      by (destruct op; try done; unfold assoc_level in Ha; simpl in Ha; lia).
    rewrite Heq in Hfl. apply continues_binary; [by apply assoc_level_ops|done|by apply Hlc|].
    apply Hr; [destruct op; simpl; lia|done]. }
  apply all_reads_own; [|exact Hchain|done]. cbn [level]. intros Hf.
  destruct (decide (operator_level op = 3)) as [H3|H3].
  - rewrite H3. cbn [fits level] in Hf. rewrite Nat.leb_refl in Hf. cbn [andb] in Hf. apply andb_true_iff in Hf as [Hfl Hfr].
    unfold left_level, right_level in *. rewrite H3 in Hfl, Hfr.
    apply read_comparison; [done|apply Hl; [lia|done]|apply Hr; [lia|done]].
  - assert (assoc_level (operator_level op)) as Ha by (unfold assoc_level; destruct op; simpl in *; lia).
    apply chain_reads; [done|]. by apply Hchain.
Qed.

Lemma every_expression k e : length (print e) <= k -> k <= m -> all_reads e.
Proof using callback_reads.
  revert e. induction k as [k IH] using lt_wf_ind. intros e Hle Hk.
  assert (forall e', length (print e') < length (print e) -> all_reads e') as Hsub.
  { intros e' Hlt. apply (IH (length (print e'))); lia. }
  assert (forall e', length (print e') < length (print e) -> fits e' 0 = true -> nested e') as Hnest.
  { intros e' Hlt Hf. apply make_nested; [lia|done]. }
  destruct e as [name|v|l op r|[] e|c p neg|c p neg|c vs neg|c stmt neg|stmt|stmt|ws el|c lo hi neg|c neg|q f|q|name args|name
    |e t|e|a i|vs|col q k0 metric|inner names|name args parts keys frame]; cbn [print] in Hle, Hsub, Hnest;
    rewrite ?length_app, ?length_cons, ?length_app in Hle; cbn [length] in *.
  - simple. intros _. apply read_column.
  - simple. intros Hf. by apply read_literal.
  - apply all_reads_binary; apply Hsub; rewrite length_app; cbn [length]; lia.
  - simple. intros Hf. apply read_not. apply Hsub; [lia|lia|done].
  - simple. intros Hf. apply read_minus. apply Hsub; [lia|lia|done].
  - simple. intros _. apply read_like.
  - simple. intros _. apply read_regexp.
  - simple. intros Hf. by apply read_in.
  - simple. done.
  - simple. done.
  - simple. done.
  - simple. intros Hf. cbn in Hf. rewrite !andb_true_iff in Hf. destruct Hf as [[Hne Hws] Hel].
    rewrite !length_app in *. cbn [length] in *.
    apply read_case; [by destruct ws| |].
    + apply (nested_whens ws k); [lia|done|done].
    + destruct el as [v|]; [|done]. cbn [length] in *. apply Hnest; [lia|done].
  - simple. intros Hf. cbn in Hf. apply andb_true_iff in Hf as [Hlo Hhi].
    rewrite !length_app in *. cbn [length] in *. rewrite length_app in *. cbn [length] in *.
    apply read_between; apply Hsub; (lia || done).
  - simple. intros _. apply read_is_null.
  - simple. intros _. apply read_fts_match.
  - simple. intros _. apply read_fts_score.
  - assert (fits (EFunction name args) 7 = true -> continues_index (EFunction name args)) as Hc.
    { intros Hf. cbn in Hf. apply andb_true_iff in Hf as [Hn Hargs].
      apply continues_function; [done|]. apply (nested_args args k); [lia|done|done]. }
    apply all_reads_own; cbn [level]; [|unfold assoc_level; lia|by intros _].
    intros Hf. apply continues_index_reads. by apply Hc.
  - simple. intros _. apply read_variable.
  - simple. intros Hf. cbn in Hf. apply andb_true_iff in Hf as [He Ht].
    rewrite length_app in *. cbn [length] in *. apply read_cast; [apply Hnest; [lia|done]|done].
  - simple. intros Hf. rewrite length_app in *. cbn [length] in *. apply read_paren. apply Hnest; [lia|done].
  - assert (fits (EArrayIndex a i) 7 = true -> continues_index (EArrayIndex a i)) as Hc.
    { intros Hf. cbn in Hf. rewrite !andb_true_iff in Hf. destruct Hf as [[Hi Ha] Hfi].
      rewrite !length_app in *. cbn [length] in *. rewrite length_app in *. cbn [length] in *.
      apply continues_array_index; [apply Hsub; [lia|done|done]|apply Hnest; [lia|done]]. }
    apply all_reads_own; cbn [level]; [|unfold assoc_level; lia|by intros _].
    intros Hf. apply continues_index_reads. by apply Hc.
  - simple. intros _. apply read_array_literal.
  - simple. intros Hf. cbn in Hf. apply andb_true_iff in Hf as [H0 H1].
    apply Z.leb_le in H0. apply Z.ltb_lt in H1. apply read_topk; [|done|done].
    apply Hnest; [|done]. cbn [print]. rewrite length_app. cbn [length]. lia.
  - simple. intros Hf. cbn in Hf. apply andb_true_iff in Hf as [Hi Hn].
    rewrite !length_app in *. cbn [length] in *. apply read_explode; [apply Hnest; [lia|done]|].
    destruct names as [|a [|b names]]; simpl in *; (lia || done).
  - simple. intros Hf. cbn in Hf. rewrite !andb_true_iff in Hf. destruct Hf as [[[H1 H2] H3] H4].
    apply read_window; [done|done| |done]. apply (nested_args args k); [lia|done|done].
Qed.
End all.
End levels.

(** ** The whole parser *)

Section round_trip.
Context {J Sel : Type}.
Abbreviation Expr := (SqlExpr J Sel).
Variable parse_select_internal : bool -> Parser Sel.
Variable display : Expr -> string.

Lemma parse_expr_n_reads n e :
  length (print e) < n -> fits e 0 = true ->
  reads_as (parse_expr_n parse_select_internal display n) (print e) e (stops 0).
Proof using.
  revert e. induction n as [|n IH]; intros e Hl Hf; [lia|]. cbn [parse_expr_n].
  destruct (every_expression parse_select_internal display (parse_expr_n parse_select_internal display n)
    (length (print e))) with (k := length (print e)) (e := e) as (Hr & _); [|done|done|].
  - intros e' Hl' Hf'. apply IH; [lia|done].
  - apply (Hr 0); [lia|done].
Qed.

(** The fuel of [parse_expr] is the number of unread tokens. *)
Lemma parse_expr_reads e :
  fits e 0 = true -> reads_as (parse_expr parse_select_internal display) (print e) e (stops 0).
Proof using.
  intros Hf st rest Hst Hne Hs. unfold parse_expr. apply parse_expr_n_reads; try done.
  apply pre_length in Hst. destruct rest; [done|]. simpl in Hst. lia.
Qed.
End round_trip.

(** ** Properties *)

(** C16 [parse_expression] reads back every expression of the grammar from every
    spelling of its printed form, whatever the case of the keywords, the quoting, the
    underscores in numbers, the white space and the comments: precedence and associativity
    are those of the levels of [fits], the fuel is enough, and nothing of the text is lost
    or left over.  The grammar holds no subquery and no ordering of a window by an
    expression; the elements of an IN list are literals.  An integer is spelled by digits
    (up to [i64::MAX]), a float by digits with a fraction, an exponent or both, as the
    nearest 64-bit float of the decimal number; both are non-negative, a negative number
    being a unary minus, so an array literal, whose elements are printed as floats, has a
    spelling when its elements are such floats. *)
Theorem parse_spelled_expression {J Sel} (parse_select_internal : bool -> Parser Sel) display
    (e : SqlExpr J Sel) sql :
  fits e 0 = true -> spelled (print e) (String.list_ascii_of_string sql) ->
  exists st, parse_expression parse_select_internal display sql = POk e st /\ map st_token st = [TkEof].
Proof.
  intros Hf Hs. unfold parse_expression, tokenize. pose proof (loop_reads_spelled _ _ Hs) as Hl.
  specialize (Hl (S (length (String.list_ascii_of_string sql))) 0%Z [] ltac:(lia)).
  destruct (tokenize_loop _ _ _ _) as [ts|err|]; [|done|done]. cbn in Hl. injection Hl as Hl.
  apply map_eq_app in Hl as (st1 & st2 & -> & Hp & Heof). exists st2. split; [|done].
  destruct st2 as [|t [|? ?]]; try done. cbn in Heof. injection Heof as Heof.
  eapply run_bind; [apply parse_expr_reads; [exact Hf|by exists st1|done|by cbn; rewrite Heof]|].
  apply run_current. cbn [head_token]. by rewrite Heof.
Qed.

Lemma parse_spelled_expression_witness :
  exists st, parse_example "a=1_5.0e-1 AND not f ( 'x' )" =
    POk (EBinaryOp (EBinaryOp (EColumn "a") OpEq (ELiteral (VFloat64 4609434218613702656))) OpAnd
      (EUnaryOp OpNot (EFunction "f" [ELiteral (VString "x")]))) st /\ map st_token st = [TkEof].
Proof.
  apply (parse_spelled_expression no_select (fun _ => EmptyString)); [vm_compute; reflexivity|].
  change (spelled [TkIdentifier "a"; TkEq; TkFloatLit 4609434218613702656; TkAnd; TkNot; TkIdentifier "f"; TkLParen; TkStringLit "x"; TkRParen]
    ([] ++ ["a"] ++ [] ++ ["="] ++ [] ++ ("1" :: ["_"; "5"] ++ ["."; "0"] ++ ["e"; "-"; "1"]) ++ [" "] ++ ["A"; "N"; "D"] ++ [" "] ++ ["n"; "o"; "t"] ++ [" "] ++ ["f"] ++
     [" "] ++ ["("] ++ [" "] ++ ("'" :: escape_quotes ["x"] ++ ["'"]) ++ [" "] ++ [")"] ++ [])%char).
  assert (gap [" "%char]) as Hsp by by repeat constructor.
  apply spelled_cons; [constructor|exact (sp_word "a" [] eq_refl eq_refl)|done|].
  apply spelled_cons; [constructor|apply sp_symbol; set_solver|done|].
  apply spelled_cons; [constructor| |done|].
  { refine (sp_float "1" ["_"; "5"] ["."; "0"] ["0"] ["e"; "-"; "1"] (-1) _ _ _ _ _)%char; try done.
    - by repeat constructor.
    - apply (fr_point ["0"%char]). by repeat constructor.
    - apply (ex_signed "e" "-" ["1"%char]); [by left|by right|by repeat constructor|done]. }
  apply spelled_cons; [done|exact (sp_word "A" ["N"; "D"]%char eq_refl eq_refl)|done|].
  apply spelled_cons; [done|exact (sp_word "n" ["o"; "t"]%char eq_refl eq_refl)|done|].
  apply spelled_cons; [done|exact (sp_word "f" [] eq_refl eq_refl)|done|].
  apply spelled_cons; [done|apply sp_symbol; set_solver|done|].
  apply spelled_cons; [done|exact (sp_string ["x"%char])|done|].
  apply spelled_cons; [done|apply sp_symbol; set_solver|done|].
  do 2 constructor.
Defined.

(** Printing is injective on the grammar: it is not ambiguous. *)
Theorem print_unambiguous {J Sel} (e1 e2 : SqlExpr J Sel) :
  fits e1 0 = true -> fits e2 0 = true -> print e1 = print e2 -> e1 = e2.
Proof.
  intros H1 H2 Hp. set (psi := fun _ : bool => @query_error Sel).
  pose (eof := [mkSpanned TkEof 0 0]). pose (st := map (fun t => mkSpanned t 0 0) (print e1) ++ eof).
  assert (pre (print e1) st eof) as Hpre.
  { exists (map (fun t => mkSpanned t 0 0) (print e1)). split; [done|]. rewrite map_map. cbn. apply map_id. }
  pose proof (parse_expr_reads psi (fun _ => EmptyString) e1 H1 st eof Hpre ltac:(done) eq_refl) as R1.
  rewrite Hp in Hpre.
  pose proof (parse_expr_reads psi (fun _ => EmptyString) e2 H2 st eof Hpre ltac:(done) eq_refl) as R2.
  congruence.
Qed.

Section forms.
Context {J Sel : Type}.
Variable parse_select_internal : bool -> Parser Sel.
Variable display : SqlExpr J Sel -> string.
Variable callback : Parser (SqlExpr J Sel).

(** [c NOT IS NULL] is accepted, and the [NOT] is dropped: it reads as [c IS NULL]. *)
Theorem infix_not_before_is_dropped c negated st rest :
  pre (TkIdentifier c :: TkNot :: TkIs :: print_not negated ++ [TkNull]) st rest -> rest <> [] ->
  parse_comparison parse_select_internal display callback st = POk (EIsNull c negated) rest.
Proof.
  intros Hst Hne. open_cons. pose proof (pre_nonempty _ _ _ Hst Hne) as Hst'.
  eapply comparison_left; [by apply column_add_sub; [done|done|cbn; rewrite Ht0]|]. cbn zeta. run.
  unfold parse_is_null. run.
  apply pre_not in Hst as (mid & Hst & Hacc); [|done|done]. apply Hacc; [done|]. open_pre. run.
Qed.

(** A negative number in an [IN] list is a syntax error at the minus sign. *)
Theorem in_list_rejects_negative c n st rest :
  pre [TkIdentifier c; TkIn; TkLParen; TkMinus; TkIntLit n; TkRParen] st rest -> rest <> [] ->
  exists at_byte, parse_comparison parse_select_internal display callback st = PErr (Expected TkRParen at_byte).
Proof.
  intros Hst Hne. open_pre. eexists.
  eapply comparison_left; [by apply column_add_sub; [done|done|cbn; rewrite Ht0]|]. cbn zeta.
  apply run_accept_no; [cbn; by rewrite Ht0|]. run. unfold parse_in. run.
  eapply run_bind; [apply loop_leave; [done|]; run|]. cbv beta. unfold pbind, expect. cbn [head_token]. by rewrite Ht2.
Qed.
End forms.
