(* ===== verification/Epoch.v ===== *)
(** * Table epochs and row-id reservation

    Models [storage/epoch.rs]: the per-table generations that validate caches, the
    coalescing of nested writes into one published generation, and the reservation of
    row ids from the mark shared between processes, whose load and compare-exchange
    interleave.  A sidecar file is its two 64-bit slots; [openable] says which sidecars
    can be opened.  Only one thread's write scopes are modelled. *)
From S2P Require Import Prelude.
From Stdlib Require Import Ascii.
Local Open Scope Z_scope.

(** The text before the last dot of a reversed file name, if the name has one that does
    not start it; the reversed directory part is kept. *)
Fixpoint reversed_stem (s : list ascii) : option (list ascii) :=
  match s with
  | [] => None
  | c :: s' =>
      if bool_decide (c = "/"%char) then None
      else if bool_decide (c = "."%char) then
        match s' with
        | [] => None
        | d :: _ => if bool_decide (d = "/"%char) then None else Some s'
        end
      else reversed_stem s'
  end.

(** [table_path.with_extension(..)] *)
Definition with_extension (table_path ext : string) : string :=
  let s := rev (String.list_ascii_of_string table_path) in
  let base := match reversed_stem s with Some s' => s' | None => s end in
  (String.string_of_list_ascii (rev base) ++ "." ++ ext)%string.

Definition sidecar_path (table_path : string) : string := with_extension table_path "apex.lock".

(** [Path::starts_with] *)
Definition path_starts_with (path dir : string) : bool :=
  String.eqb path dir || String.prefix (dir ++ "/") path.

Record Sidecar := mkSidecar { sc_epoch : Z; sc_row_ids : Z }.

Record TableEpoch := mkTableEpoch { te_local : Z; te_id_local : Z; te_shared : bool }.

Record WriteScopeState := mkScope { ws_depth : Z; ws_changed : bool }.

(** The statics of a process, the write scopes of its thread, and the sidecar files. *)
Record Epochs := mkEpochs {
  ep_tables : gmap string TableEpoch;
  ep_global : Z;
  ep_scopes : gmap string WriteScopeState;
  ep_sidecars : gmap string Sidecar
}.

Section epochs.
Context (openable : string -> bool).
Implicit Types (st : Epochs) (p : string).

Definition set_tables st t := mkEpochs t (ep_global st) (ep_scopes st) (ep_sidecars st).
Definition set_scopes st s := mkEpochs (ep_tables st) (ep_global st) s (ep_sidecars st).
Definition set_sidecars st c := mkEpochs (ep_tables st) (ep_global st) (ep_scopes st) c.

(** The slots of a sidecar; a new file is zero. *)
Definition sidecar st p : Sidecar := default (mkSidecar 0 0) (ep_sidecars st !! sidecar_path p).

Definition put_sidecar st p (s : Sidecar) : Epochs :=
  set_sidecars st (<[sidecar_path p := s]> (ep_sidecars st)).

(** *** [SharedEpoch] *)

Definition SharedEpoch_open st p : option Epochs :=
  if openable (sidecar_path p) then Some (put_sidecar st p (sidecar st p)) else None.

Definition SharedEpoch_current st p : Z := sc_epoch (sidecar st p).

Definition SharedEpoch_bump st p : Z * Epochs :=
  let s := sidecar st p in
  let e := wrap64 (sc_epoch s + 1) in
  (e, put_sidecar st p (mkSidecar e (sc_row_ids s))).

(** The values of one successful turn of the loop: the base and the new mark. *)
Definition reserve_values (current minimum count : Z) : Z * Z :=
  let base := Z.max current minimum in (base, saturating_add64 base count).

Definition SharedEpoch_reserve_row_ids st p (minimum count : Z) : Z * Epochs :=
  let s := sidecar st p in
  let '(base, next) := reserve_values (sc_row_ids s) minimum count in
  (base, put_sidecar st p (mkSidecar (sc_epoch s) next)).

(** *** [TableEpoch] *)

Definition TableEpoch_open st p : TableEpoch * Epochs :=
  match SharedEpoch_open st p with
  | Some st => (mkTableEpoch (SharedEpoch_current st p) 0 true, st)
  | None => (mkTableEpoch 0 0 false, st)
  end.

Definition put_table st p (te : TableEpoch) : Epochs := set_tables st (<[p := te]> (ep_tables st)).

(** [TABLE_EPOCHS.entry(path).or_insert_with(..)] *)
Definition table_entry st p : TableEpoch * Epochs :=
  match ep_tables st !! p with
  | Some te => (te, st)
  | None => let '(te, st) := TableEpoch_open st p in (te, put_table st p te)
  end.

Definition TableEpoch_current st p (te : TableEpoch) : Z :=
  if te_shared te then SharedEpoch_current st p else te_local te.

Definition TableEpoch_bump st p (te : TableEpoch) : Z * Epochs :=
  if te_shared te then
    let '(e, st) := SharedEpoch_bump st p in
    (e, put_table st p (mkTableEpoch e (te_id_local te) true))
  else
    let e := wrap64 (te_local te + 1) in
    (e, put_table st p (mkTableEpoch e (te_id_local te) false)).

Definition TableEpoch_reserve_row_ids st p (te : TableEpoch) (minimum count : Z) : Z * Epochs :=
  if te_shared te then SharedEpoch_reserve_row_ids st p minimum count
  else
    let '(base, next) := reserve_values (te_id_local te) minimum count in
    (base, put_table st p (mkTableEpoch (te_local te) next false)).

(** *** The module's functions *)

Definition current st p : Z * Epochs :=
  let '(te, st) := table_entry st p in (TableEpoch_current st p te, st).

Definition global_current st : Z := ep_global st.

Definition reserve_row_ids st p (minimum count : Z) : Z * Epochs :=
  if count =? 0 then (minimum, st)
  else let '(te, st) := table_entry st p in TableEpoch_reserve_row_ids st p te minimum count.

Definition bump_now st p : Z * Epochs :=
  let '(te, st) := table_entry st p in
  let '(e, st) := TableEpoch_bump st p te in
  (e, mkEpochs (ep_tables st) (wrap64 (ep_global st + 1)) (ep_scopes st) (ep_sidecars st)).

(** The scope of [p] marked changed, if there is one. *)
Definition mark_changed st p : option Epochs :=
  match ep_scopes st !! p with
  | Some s => Some (set_scopes st (<[p := mkScope (ws_depth s) true]> (ep_scopes st)))
  | None => None
  end.

Definition bump st p : Z * Epochs :=
  match mark_changed st p with
  | Some st => let '(e, st) := current st p in (saturating_add64 e 1, st)
  | None => bump_now st p
  end.

Definition logical_write st p : Epochs :=
  let s := default (mkScope 0 false) (ep_scopes st !! p) in
  set_scopes st (<[p := mkScope (wrap64 (ws_depth s + 1)) (ws_changed s)]> (ep_scopes st)).

Definition LogicalWrite_commit st p : Epochs :=
  match mark_changed st p with Some st => st | None => st end.

Definition LogicalWrite_drop st p : Epochs :=
  match ep_scopes st !! p with
  | None => st
  | Some s =>
      let depth := wrap64 (ws_depth s - 1) in
      if depth =? 0 then
        let st := set_scopes st (delete p (ep_scopes st)) in
        if ws_changed s then (bump_now st p).2 else st
      else set_scopes st (<[p := mkScope depth (ws_changed s)]> (ep_scopes st))
  end.

Definition remove st p : Epochs := set_tables st (delete p (ep_tables st)).

Definition remove_dir st (dir : string) : Epochs :=
  set_tables st (filter (fun e : string * TableEpoch => path_starts_with e.1 dir = false) (ep_tables st)).
End epochs.

(** ** One epoch per logical write *)

Section theory.
Context (openable : string -> bool).
Implicit Types (st : Epochs) (p q : string).

Inductive write_event :=
| EvBegin p
| EvCommit p
| EvBump p
| EvEnd p
| EvRead p
| EvReserve p (minimum count : Z).

Definition event_path (ev : write_event) : string :=
  match ev with EvBegin p | EvCommit p | EvBump p | EvEnd p | EvRead p | EvReserve p _ _ => p end.

Definition apply_event st (ev : write_event) : Epochs :=
  match ev with
  | EvBegin p => logical_write st p
  | EvCommit p => LogicalWrite_commit st p
  | EvBump p => (bump openable st p).2
  | EvEnd p => LogicalWrite_drop openable st p
  | EvRead p => (current openable st p).2
  | EvReserve p m c => (reserve_row_ids openable st p m c).2
  end.

Definition run_events st (evs : list write_event) : Epochs := fold_left apply_event evs st.

(** The published epoch of a table. *)
Definition epoch_of st p : Z := (current openable st p).1.

(** The nesting depth of [p] through events: [None] once it would drop below one. *)
Fixpoint nested p (depth : nat) (evs : list write_event) : option nat :=
  match evs with
  | [] => Some depth
  | EvBegin q :: evs => nested p (if bool_decide (p = q) then S depth else depth) evs
  | EvEnd q :: evs =>
      if bool_decide (p = q) then
        match depth with S (S d) => nested p (S d) evs | _ => None end
      else nested p depth evs
  | _ :: evs => nested p depth evs
  end.

(** Something reported a change to [p]. *)
Definition reports p (ev : write_event) : bool :=
  match ev with EvCommit q | EvBump q => bool_decide (p = q) | _ => false end.

(** Two different tables do not share a sidecar. *)
Definition apart p (ev : write_event) : Prop :=
  event_path ev = p \/ sidecar_path (event_path ev) <> sidecar_path p.

(** The same, read off the state. *)
Definition epoch_view st p : Z :=
  match ep_tables st !! p with
  | Some te => if te_shared te then sc_epoch (sidecar st p) else te_local te
  | None => if openable (sidecar_path p) then sc_epoch (sidecar st p) else 0
  end.

Lemma sidecar_put st p s q :
  sidecar (put_sidecar st p s) q = if decide (sidecar_path p = sidecar_path q) then s else sidecar st q.
Proof. unfold sidecar, put_sidecar. simpl. rewrite lookup_insert. by case_decide. Qed.

Lemma sidecar_put_same st p q : sidecar (put_sidecar st p (sidecar st p)) q = sidecar st q.
Proof.
  rewrite sidecar_put. case_decide as H; [|done]. unfold sidecar. by rewrite H.
Qed.

(** A table entry is opened without any visible change. *)
Lemma table_entry_spec st p te st' :
  table_entry openable st p = (te, st') ->
  ep_tables st' !! p = Some te /\ ep_scopes st' = ep_scopes st /\ ep_global st' = ep_global st /\
  (forall q, sidecar st' q = sidecar st q) /\ (forall q, epoch_view st' q = epoch_view st q).
Proof.
  unfold table_entry. destruct (ep_tables st !! p) as [te0|] eqn:Ht; [intros [= <- <-]; done|].
  unfold TableEpoch_open, SharedEpoch_open. destruct (openable (sidecar_path p)) eqn:Ho; intros [= <- <-].
  - assert (Hsc : forall te q, sidecar (put_table (put_sidecar st p (sidecar st p)) p te) q = sidecar st q).
    { intros te q. apply sidecar_put_same. }
    split_and!; [apply lookup_insert_eq|done|done|intros q; apply Hsc|].
    intros q. unfold epoch_view. rewrite !Hsc. simpl. rewrite lookup_insert. case_decide as Hq; [|done].
    subst q. simpl. by rewrite Ht, Ho.
  - split_and!; [apply lookup_insert_eq|done..|]. intros q. unfold epoch_view. simpl. rewrite lookup_insert.
    case_decide as Hq; [|done]. subst q. simpl. by rewrite Ht, Ho.
Qed.

Lemma epoch_of_view st p : epoch_of st p = epoch_view st p.
Proof.
  unfold epoch_of, current. destruct (table_entry openable st p) as [te st'] eqn:He. simpl.
  destruct (table_entry_spec _ _ _ _ He) as (Ht & _ & _ & _ & Hv). rewrite <-Hv.
  unfold epoch_view, TableEpoch_current. by rewrite Ht.
Qed.

(** What is untouched by an operation on the epochs of [p]. *)
Definition unpublished st st' p : Prop :=
  ep_scopes st' !! p = ep_scopes st !! p /\ epoch_view st' p = epoch_view st p.

Lemma view_scopes st s p : epoch_view (set_scopes st s) p = epoch_view st p.
Proof. done. Qed.

Lemma current_unpublished st q p : unpublished st (current openable st q).2 p.
Proof.
  unfold current. destruct (table_entry openable st q) as [te st'] eqn:He. simpl.
  destruct (table_entry_spec _ _ _ _ He) as (_ & Hs & _ & _ & Hv). split; [by rewrite Hs|apply Hv].
Qed.

Lemma reserve_unpublished st q m c p : unpublished st (reserve_row_ids openable st q m c).2 p.
Proof.
  unfold reserve_row_ids. destruct (c =? 0); [done|].
  destruct (table_entry openable st q) as [te st1] eqn:He.
  destruct (table_entry_spec _ _ _ _ He) as (Ht & Hs & _ & _ & Hv).
  assert (H1 : unpublished st1 (TableEpoch_reserve_row_ids st1 q te m c).2 p).
  { unfold TableEpoch_reserve_row_ids, SharedEpoch_reserve_row_ids, reserve_values. simpl.
    destruct (te_shared te) eqn:Hsh; simpl; (split; [done|]); unfold epoch_view; simpl.
    - assert (Hsc : sc_epoch (sidecar (put_sidecar st1 q (mkSidecar (sc_epoch (sidecar st1 q))
          (saturating_add64 (sc_row_ids (sidecar st1 q) `max` m) c))) p) = sc_epoch (sidecar st1 p)).
      { rewrite sidecar_put. case_decide as Hq; [|done]. unfold sidecar. by rewrite Hq. }
      by rewrite Hsc.
    - rewrite lookup_insert. case_decide as Hq; [subst q|done]. simpl. by rewrite Ht, Hsh. }
  destruct H1 as [H1 H2]. split; [by rewrite H1, Hs|by rewrite H2, Hv].
Qed.

Lemma bump_now_spec st q p :
  (q = p \/ sidecar_path q <> sidecar_path p) ->
  let st' := (bump_now openable st q).2 in
  ep_scopes st' = ep_scopes st /\
  epoch_view st' p = if decide (q = p) then wrap64 (epoch_view st p + 1) else epoch_view st p.
Proof.
  intros Hq. unfold bump_now. destruct (table_entry openable st q) as [te st1] eqn:He.
  destruct (table_entry_spec _ _ _ _ He) as (Ht & Hs & _ & _ & Hv). rewrite <-Hv, <-Hs. clear He Hv Hs st.
  unfold TableEpoch_bump, SharedEpoch_bump. destruct (te_shared te) eqn:Hsh; simpl; (split; [done|]);
    unfold epoch_view; simpl; rewrite lookup_insert; case_decide as Hp; simpl; rewrite ?decide_True, ?decide_False by done.
  - subst p. rewrite Ht, Hsh. unfold sidecar at 1. simpl. by rewrite lookup_insert_eq.
  - assert (Hsc : forall e, sidecar (put_sidecar st1 q e) p = sidecar st1 p).
    { intros e. rewrite sidecar_put. case_decide as Hsp; [|done]. by destruct Hq. }
    unfold sidecar in *. simpl in *. by rewrite Hsc.
  - subst p. by rewrite Ht, Hsh.
  - done.
Qed.
Lemma mark_changed_spec st q :
  match mark_changed st q with
  | Some st' => exists s, ep_scopes st !! q = Some s /\
      ep_scopes st' = <[q := mkScope (ws_depth s) true]> (ep_scopes st) /\
      forall p, epoch_view st' p = epoch_view st p
  | None => ep_scopes st !! q = None
  end.
Proof.
  unfold mark_changed. destruct (ep_scopes st !! q) as [s|] eqn:Hs; [|done]. by exists s.
Qed.

Lemma bump_spec st q p :
  (q = p \/ sidecar_path q <> sidecar_path p) -> (q = p -> is_Some (ep_scopes st !! q)) ->
  let st' := (bump openable st q).2 in
  ep_scopes st' !! p =
    (if decide (q = p) then (fun s => mkScope (ws_depth s) true) <$> ep_scopes st !! p else ep_scopes st !! p) /\
  epoch_view st' p = epoch_view st p.
Proof.
  intros Hq Hscope. unfold bump. pose proof (mark_changed_spec st q) as Hm.
  destruct (mark_changed st q) as [st1|].
  - destruct Hm as (s & Hs & Hs1 & Hv).
    pose proof (current_unpublished st1 q p) as [Hcs Hcv].
    destruct (current openable st1 q) as [e st2]. simpl in *. rewrite Hcs, Hcv, Hv, Hs1. split; [|done].
    rewrite lookup_insert. case_decide as Hp; [|done]. subst. by rewrite Hs.
  - assert (Hne : q <> p) by (intros ->; destruct Hscope as [? ?]; [done|congruence]).
    destruct (bump_now_spec st q p Hq) as [Hs Hv]. rewrite Hs, Hv. by rewrite !decide_False.
Qed.

(** One event inside a logical write of [p]. *)
Lemma event_inside st p ev d d' ch :
  apart p ev -> (1 <= d)%nat -> Z.of_nat d < U64_MAX ->
  ep_scopes st !! p = Some (mkScope (Z.of_nat d) ch) -> nested p d [ev] = Some d' ->
  ep_scopes (apply_event st ev) !! p = Some (mkScope (Z.of_nat d') (ch || reports p ev)) /\
  epoch_view (apply_event st ev) p = epoch_view st p /\ (1 <= d')%nat /\ (d' <= S d)%nat.
Proof.
  intros Hap Hd Hmax Hs Hn. unfold apart in Hap. destruct ev as [q|q|q|q|q|q m c]; simpl in *.
  - injection Hn as <-. unfold logical_write. simpl. rewrite lookup_insert, orb_false_r.
    split_and!; [|done|case_bool_decide; lia|case_bool_decide; lia].
    case_decide as Hq; [|by rewrite bool_decide_eq_false_2 by congruence].
    subst q. rewrite bool_decide_eq_true_2, Hs by done. simpl. rewrite wrap64_small; [|unfold u64; lia].
    do 2 f_equal. lia.
  - injection Hn as <-. unfold LogicalWrite_commit. pose proof (mark_changed_spec st q) as Hm.
    destruct (mark_changed st q) as [st1|].
    + destruct Hm as (s & Hsq & Hs1 & Hv). rewrite Hs1, Hv, lookup_insert. split_and!; [|done|lia|lia].
      case_decide as Hq; [subst q; rewrite Hs in Hsq; simplify_eq; by rewrite bool_decide_eq_true_2, orb_true_r|].
      by rewrite bool_decide_eq_false_2, orb_false_r by congruence.
    + split_and!; [|done|lia|lia]. rewrite bool_decide_eq_false_2, orb_false_r; [done|congruence].
  - injection Hn as <-. destruct (bump_spec st q p Hap) as [Hs1 Hv]; [intros ->; by eexists|].
    rewrite Hs1, Hv, Hs. split_and!; [|done|lia|lia].
    case_decide as Hq; [subst; by rewrite bool_decide_eq_true_2, orb_true_r|].
    by rewrite bool_decide_eq_false_2, orb_false_r by congruence.
  - rewrite orb_false_r. unfold LogicalWrite_drop. destruct (decide (p = q)) as [<-|Hne].
    + rewrite bool_decide_eq_true_2 in Hn by done. rewrite Hs. simpl.
      destruct d as [|[|d]]; [done..|]. injection Hn as <-.
      rewrite wrap64_small by (unfold u64; lia). destruct (Z.eqb_spec (Z.of_nat (S (S d)) - 1) 0); [lia|].
      simpl. rewrite lookup_insert_eq. split_and!; [do 2 f_equal; lia|done|lia|lia].
    + rewrite bool_decide_eq_false_2 in Hn by done. injection Hn as <-.
      destruct (ep_scopes st !! q) as [s|]; [|by rewrite Hs; split_and!; [..|lia]].
      destruct (wrap64 (ws_depth s - 1) =? 0).
      * assert (Hd1 : ep_scopes (set_scopes st (delete q (ep_scopes st))) !! p = Some (mkScope (Z.of_nat d) ch))
          by by simpl; rewrite lookup_delete_ne.
        destruct (ws_changed s); [|by split_and!; [..|lia]].
        destruct Hap as [->|Hap]; [done|].
        destruct (bump_now_spec (set_scopes st (delete q (ep_scopes st))) q p (or_intror Hap)) as [H1 H2].
        rewrite H1, H2, decide_False by done. by split_and!; [..|lia].
      * simpl. rewrite lookup_insert_ne by done. by split_and!; [..|lia].
  - injection Hn as <-. destruct (current_unpublished st q p) as [H1 H2].
    rewrite H1, H2, orb_false_r. by split_and!; [..|lia].
  - injection Hn as <-. destruct (reserve_unpublished st q m c p) as [H1 H2].
    rewrite H1, H2, orb_false_r. by split_and!; [..|lia].
Qed.

Lemma nested_cons p d ev evs : nested p d (ev :: evs) = d' ← nested p d [ev]; nested p d' evs.
Proof. destruct ev; simpl; try done; repeat case_match; done. Qed.

Lemma nested_app p d evs1 evs2 : nested p d (evs1 ++ evs2) = d' ← nested p d evs1; nested p d' evs2.
Proof.
  revert d. induction evs1 as [|ev evs1 IH]; intros d; [done|].
  rewrite <-app_comm_cons, nested_cons, (nested_cons p d ev evs1).
  destruct (nested p d [ev]); simpl; [apply IH|done].
Qed.

Lemma events_inside p evs : forall st d d' ch,
  Forall (apart p) evs -> (1 <= d)%nat -> Z.of_nat (d + length evs) <= U64_MAX ->
  ep_scopes st !! p = Some (mkScope (Z.of_nat d) ch) -> nested p d evs = Some d' ->
  ep_scopes (run_events st evs) !! p = Some (mkScope (Z.of_nat d') (ch || existsb (reports p) evs)) /\
  epoch_view (run_events st evs) p = epoch_view st p.
Proof.
  induction evs as [|ev evs IH]; intros st d d' ch Hap Hd Hmax Hs Hn.
  - simpl in *. injection Hn as <-. by rewrite orb_false_r.
  - rewrite nested_cons in Hn. destruct (nested p d [ev]) as [d1|] eqn:H1; [|done]. simpl in Hn, Hmax.
    apply Forall_cons_1 in Hap as [Hev Hap].
    destruct (event_inside st p ev d d1 ch Hev Hd ltac:(lia) Hs H1) as (Hs1 & Hv1 & Hd1 & Hle).
    destruct (IH (apply_event st ev) d1 d' _ Hap Hd1 ltac:(lia) Hs1 Hn) as [Hs2 Hv2].
    simpl. unfold run_events in *. rewrite Hs2, Hv2, Hv1, orb_assoc. done.
Qed.

(** One epoch per logical write: from the outermost [logical_write] of a table to the
    drop that closes it, whatever writes, reads, reservations, bumps and nested
    logical writes happen in between, on this table and on others, no reader sees the
    table's epoch move; the drop then publishes exactly one new epoch if anything in
    between reported a change to the table, and none otherwise. *)
Theorem logical_write_publishes_once st p body :
  ep_scopes st !! p = None -> nested p 1 body = Some 1%nat -> Forall (apart p) body ->
  Z.of_nat (S (length body)) <= U64_MAX ->
  (forall pre post, body = pre ++ post ->
     epoch_of (run_events st (EvBegin p :: pre)) p = epoch_of st p) /\
  let st' := run_events st (EvBegin p :: body ++ [EvEnd p]) in
  epoch_of st' p = (if existsb (reports p) body then wrap64 (epoch_of st p + 1) else epoch_of st p) /\
  ep_scopes st' !! p = None.
Proof.
  intros Hnone Hn Hap Hmax.
  set (st0 := logical_write st p).
  assert (Hs0 : ep_scopes st0 !! p = Some (mkScope (Z.of_nat 1) false)).
  { unfold st0, logical_write. simpl. rewrite lookup_insert_eq, Hnone. done. }
  assert (Hv0 : epoch_view st0 p = epoch_view st p) by done.
  split.
  - intros pre post ->. rewrite nested_app in Hn. destruct (nested p 1 pre) as [d|] eqn:Hpre; [|done].
    rewrite !epoch_of_view. simpl. fold st0. rewrite length_app in Hmax. apply Forall_app in Hap as [Hap _].
    destruct (events_inside p pre st0 1 d false Hap ltac:(lia) ltac:(lia) Hs0 Hpre) as [_ Hv].
    unfold run_events in *. by rewrite Hv.
  - destruct (events_inside p body st0 1 1 false Hap ltac:(lia) ltac:(lia) Hs0 Hn) as [Hs Hv].
    simpl. fold st0. unfold run_events in *. rewrite fold_left_app. simpl.
    rewrite !epoch_of_view. revert Hs Hv. generalize (fold_left apply_event body st0) as st1. intros st1 Hs Hv.
    unfold LogicalWrite_drop. rewrite Hs. simpl.
    destruct (existsb (reports p) body); simpl.
    + destruct (bump_now_spec (set_scopes st1 (delete p (ep_scopes st1))) p p (or_introl eq_refl)) as [H1 H2].
      rewrite H1, H2, decide_True by done. rewrite view_scopes, Hv. split; [done|]. apply lookup_delete_eq.
    + split; [exact Hv|]. apply lookup_delete_eq.
Qed.
End theory.

Definition demo_events : list write_event :=
  [EvBump "db/t.apex"; EvBegin "db/t.apex"; EvCommit "db/t.apex"; EvBump "db/u.apex"; EvRead "db/t.apex";
   EvEnd "db/t.apex"; EvReserve "db/t.apex" 5 10].

Lemma logical_write_publishes_once_witness :
  epoch_of (fun _ => true)
    (run_events (fun _ => true) (mkEpochs ∅ 0 ∅ ∅) (EvBegin "db/t.apex" :: demo_events ++ [EvEnd "db/t.apex"]))
    "db/t.apex" = 1.
Proof.
  destruct (logical_write_publishes_once (fun _ => true) (mkEpochs ∅ 0 ∅ ∅) "db/t.apex" demo_events)
    as (_ & H & _).
  - reflexivity.
  - reflexivity.
  - repeat (apply List.Forall_cons; [first [left; reflexivity|right; vm_compute; discriminate]|]).
    apply List.Forall_nil.
  - vm_compute. discriminate.
  - exact H.
Defined.

(** ** Reserving row ids concurrently

    Clients, threads of one process or of several, reserve from one mark.  A client
    calls, loads the mark, then tries to replace the value it loaded; [backed] tells the
    compare-exchange loop of [SharedEpoch] from the plain load and store of a table
    without a sidecar. *)

Inductive client :=
| Calling (minimum count : Z)
| Loaded (current minimum count : Z).

Record grant := mkGrant { g_minimum : Z; g_count : Z; g_base : Z }.

Record race := mkRace { r_mark : Z; r_clients : gmap nat client; r_grants : list grant }.

Inductive race_event :=
| RaceCall (i : nat) (minimum count : Z)
| RaceLoad (i : nat)
| RaceStore (i : nat).

(** An event of a client that is not at that point does nothing; an empty reservation
    does not reach the mark. *)
Definition race_step (backed : bool) (s : race) (ev : race_event) : race :=
  match ev with
  | RaceCall i m c =>
      match r_clients s !! i with
      | None => if 0 <? c then mkRace (r_mark s) (<[i := Calling m c]> (r_clients s)) (r_grants s) else s
      | Some _ => s
      end
  | RaceLoad i =>
      match r_clients s !! i with
      | Some (Calling m c) => mkRace (r_mark s) (<[i := Loaded (r_mark s) m c]> (r_clients s)) (r_grants s)
      | _ => s
      end
  | RaceStore i =>
      match r_clients s !! i with
      | Some (Loaded cur m c) =>
          let '(base, next) := reserve_values cur m c in
          if negb backed || (cur =? r_mark s)
          then mkRace next (delete i (r_clients s)) (r_grants s ++ [mkGrant m c base])
          else mkRace (r_mark s) (<[i := Calling m c]> (r_clients s)) (r_grants s)
      | _ => s
      end
  end.

Definition race_run (backed : bool) (s : race) (evs : list race_event) : race :=
  fold_left (race_step backed) evs s.

(** The sequential reservations: the grants of the requests in order, and the mark. *)
Fixpoint reserve_all (mark : Z) (requests : list (Z * Z)) : list grant * Z :=
  match requests with
  | [] => ([], mark)
  | (m, c) :: requests =>
      let '(base, next) := reserve_values mark m c in
      let '(gs, mark') := reserve_all next requests in (mkGrant m c base :: gs, mark')
  end.

Definition request (g : grant) : Z * Z := (g_minimum g, g_count g).

Lemma reserve_all_snoc mark requests m c gs mark' :
  reserve_all mark requests = (gs, mark') ->
  reserve_all mark (requests ++ [(m, c)]) =
    (gs ++ [mkGrant m c (reserve_values mark' m c).1], (reserve_values mark' m c).2).
Proof.
  revert mark gs. induction requests as [|[m0 c0] requests IH]; intros mark gs; simpl.
  - by intros [= <- <-].
  - destruct (reserve_all _ requests) as [gs0 mark0] eqn:Hr. intros [= <- <-].
    by rewrite (IH _ _ Hr).
Qed.

Definition clients_ok (cl : gmap nat client) : Prop :=
  map_Forall (fun _ c => match c with Calling _ n | Loaded _ _ n => 0 < n end) cl.

(** Every grant of a race comes from the sequential run of the same requests. *)
Definition race_ok (mark0 : Z) (s : race) : Prop :=
  reserve_all mark0 (request <$> r_grants s) = (r_grants s, r_mark s) /\
  Forall (fun g => 0 < g_count g) (r_grants s) /\ clients_ok (r_clients s).

Lemma race_step_ok mark0 s ev : race_ok mark0 s -> race_ok mark0 (race_step true s ev).
Proof.
  intros (Hseq & Hpos & Hcl). destruct ev as [i m c|i|i]; simpl.
  - destruct (r_clients s !! i) as [cl|]; [done|]. destruct (Z.ltb_spec 0 c); [|done].
    split_and!; [done..|]. by apply map_Forall_insert_2.
  - destruct (r_clients s !! i) as [[m c|cur m c]|] eqn:Hi; [|done..].
    split_and!; [done..|]. apply map_Forall_insert_2; [|done]. exact (Hcl _ _ Hi).
  - destruct (r_clients s !! i) as [[m c|cur m c]|] eqn:Hi; [done| |done].
    pose proof (Hcl _ _ Hi) as Hc. simpl in Hc. destruct (Z.eqb_spec cur (r_mark s)) as [->|Hne]; simpl.
    + split_and!; simpl.
      * rewrite fmap_app. exact (reserve_all_snoc _ _ m c _ _ Hseq).
      * by apply Forall_snoc.
      * by apply map_Forall_delete.
    + split_and!; [done..|]. by apply map_Forall_insert_2.
Qed.

Lemma reserve_all_ordered requests : forall mark gs mark',
  reserve_all mark requests = (gs, mark') -> Forall (fun r => 0 < r.2) requests -> mark' < U64_MAX ->
  mark <= mark' /\
  Forall (fun g => mark <= g_base g /\ g_minimum g <= g_base g /\ g_base g + g_count g <= mark') gs /\
  StronglySorted (fun g h => g_base g + g_count g <= g_base h) gs.
Proof.
  induction requests as [|[m c] requests IH]; intros mark gs mark' Hr Hpos Hmax; simpl in Hr.
  { injection Hr as <- <-. split_and!; [lia|constructor..]. }
  destruct (reserve_all _ requests) as [gs0 mark0] eqn:Hr0. injection Hr as <- <-.
  apply Forall_cons_1 in Hpos as [Hc Hpos]. simpl in Hc.
  destruct (IH _ _ _ Hr0 Hpos Hmax) as (Hle & Hall & Hsorted).
  assert (Hnext : saturating_add64 (Z.max mark m) c = Z.max mark m + c).
  { unfold saturating_add64 in *. lia. }
  rewrite Hnext in *. split_and!; [lia| |].
  - constructor; simpl; [lia|]. eapply Forall_impl; [exact Hall|]. simpl. lia.
  - constructor; [done|]. eapply Forall_impl; [exact Hall|]. simpl. lia.
Qed.

(** C20 Row ids are never handed out twice: whatever the interleaving of the loads and
    compare-exchanges of any number of clients, the reservations granted are those of
    a sequential run in the order in which the exchanges succeeded, and as long as the
    mark stays below its maximum the granted ranges are disjoint and increasing, at or
    above each caller's minimum. *)
Theorem reservations_disjoint (mark0 : Z) (evs : list race_event) :
  let s := race_run true (mkRace mark0 ∅ []) evs in
  reserve_all mark0 (request <$> r_grants s) = (r_grants s, r_mark s) /\
  (r_mark s < U64_MAX ->
   StronglySorted (fun g h => g_base g + g_count g <= g_base h) (r_grants s) /\
   Forall (fun g => mark0 <= g_base g /\ g_minimum g <= g_base g /\ g_base g + g_count g <= r_mark s)
     (r_grants s)).
Proof.
  simpl. assert (Hok : race_ok mark0 (race_run true (mkRace mark0 ∅ []) evs)).
  { assert (H0 : race_ok mark0 (mkRace mark0 ∅ [])) by (split_and!; [done|constructor|apply map_Forall_empty]).
    revert H0. unfold race_run. generalize (mkRace mark0 ∅ []) as s.
    induction evs as [|ev evs IH]; intros s Hs; [done|]. simpl. by apply IH, race_step_ok. }
  destruct Hok as (Hseq & Hpos & _). split; [done|]. intros Hmax.
  destruct (reserve_all_ordered _ _ _ _ Hseq ltac:(by apply Forall_fmap) Hmax) as (_ & Hall & Hs). done.
Qed.

(** A table without a sidecar can hand out the same ids twice: its mark is loaded and
    then stored, so two threads that both load before either stores get the same
    range. *)
Theorem unbacked_reservation_race :
  exists evs g1 g2,
    r_grants (race_run false (mkRace 0 ∅ []) evs) = [g1; g2] /\ g_base g1 = g_base g2 /\
    0 < g_count g1 /\ 0 < g_count g2.
Proof.
  exists [RaceCall 0 0 10; RaceCall 1 0 10; RaceLoad 0; RaceLoad 1; RaceStore 0; RaceStore 1],
    (mkGrant 0 10 0), (mkGrant 0 10 0). vm_compute. repeat split; reflexivity.
Qed.
