(* ===== verification/Admission.v ===== *)
(** * Statement admission

    Models [admission.rs]: the configuration read for a statement, the reservation a statement
    needs, and the admission controller, a counter behind a mutex with a condition variable.
    [acquire] gives up the lock only while it waits, so it is modelled as the segments between
    those points, and a run is any interleaving of the segments of any number of clients: a
    statement arrives, a waiting client wakes up (for a release, its deadline, or no reason), a
    guard is dropped, and the notification that follows goes out.  It marks every waiting client as
    notified; the mark is a ghost, since a client may wake without it.

    Environment variables arrive as the numbers they parse as, [None] when unset or malformed.
    Instants and durations are nanoseconds.  Counters of admissions and rejections wrap. *)
From S2P Require Import Prelude Values.
Local Open Scope Z_scope.

(** ** Configuration *)

Definition DEFAULT_LIGHT_ADMISSION_BYTES : Z := 16 * 1024 * 1024.
Definition DEFAULT_QUEUE_MAX : Z := 64.
Definition DEFAULT_QUEUE_WAIT_MS : Z := 5000.
Definition MEBI : Z := 1024 * 1024.
Definition NANOS_PER_MS : Z := 1000000.

Record AdmissionConfig := mkAdmissionConfig {
  ac_budget_bytes : Z;
  ac_light_bytes : Z;
  ac_queue_max : Z;
  ac_wait : Z
}.

Definition DISABLED : AdmissionConfig :=
  mkAdmissionConfig 0 DEFAULT_LIGHT_ADMISSION_BYTES DEFAULT_QUEUE_MAX (DEFAULT_QUEUE_WAIT_MS * NANOS_PER_MS).

(** [usize::saturating_mul] *)
Definition saturating_mul64 (a b : Z) : Z := Z.min (a * b) U64_MAX.

Definition from_env (process_budget_mb query_admission_mb query_queue_max query_queue_wait_ms : option Z)
    : AdmissionConfig :=
  match process_budget_mb with
  | None => DISABLED
  | Some budget_mb =>
      if budget_mb =? 0 then DISABLED
      else
        let budget_bytes := saturating_mul64 budget_mb MEBI in
        let light_bytes :=
          match query_admission_mb with
          | Some megabytes => saturating_mul64 megabytes MEBI
          | None => DEFAULT_LIGHT_ADMISSION_BYTES
          end in
        let light_bytes := if light_bytes =? 0 then budget_bytes else Z.min light_bytes budget_bytes in
        mkAdmissionConfig budget_bytes light_bytes (default DEFAULT_QUEUE_MAX query_queue_max)
          (default DEFAULT_QUEUE_WAIT_MS query_queue_wait_ms * NANOS_PER_MS)
  end.

(** ** The shape of a statement *)

(** [str::trim_start], for ASCII white space. *)
Fixpoint skip_white (s : string) : string :=
  match s with
  | String c rest =>
      let n := Ascii.N_of_ascii c in
      if ((9 <=? n) && (n <=? 13) || (n =? 32))%N then skip_white rest else s
  | EmptyString => EmptyString
  end.

Definition str_contains (s needle : string) : bool :=
  match String.index 0 needle s with Some _ => true | None => false end.

(** [trimmed.get(..16).unwrap_or(trimmed)]; only its first six bytes matter, so the refusal to
    cut inside a character does not show. *)
Definition head16 (s : string) : string := String.substring 0 16 s.

Definition HEAVY : list string :=
  [" GROUP BY "; " ORDER BY "; " JOIN "; " DISTINCT "; " UNION "; " INTERSECT "; " EXCEPT "; " HAVING ";
   " OVER ("; " OVER("].

Definition is_heavy_statement (sql : string) : bool :=
  let head := to_uppercase (head16 (skip_white sql)) in
  if String.prefix "WITH" head then true
  else if negb (String.prefix "SELECT" head) then false
  else existsb (str_contains (to_uppercase sql)) HEAVY.

(** [per_query] is the configured memory limit of one query, 0 for none. *)
Definition heavy_reservation (c : AdmissionConfig) (per_query : Z) : Z :=
  Z.max (if per_query =? 0 then ac_budget_bytes c else Z.min per_query (ac_budget_bytes c)) 1.

Definition reservation_for (c : AdmissionConfig) (per_query : Z) (sql : string) : Z :=
  if ac_budget_bytes c =? 0 then 0
  else if is_heavy_statement sql then heavy_reservation c per_query
  else Z.max (Z.min (ac_light_bytes c) (ac_budget_bytes c)) 1.

(** ** The controller *)

Record QueueState := mkQueueState {
  qs_used_bytes : Z;
  qs_waiting : Z;
  qs_admitted : Z;
  qs_rejected : Z;
  qs_timed_out : Z
}.

Definition QueueState_default : QueueState := mkQueueState 0 0 0 0 0.

(** What a pass through the loop of [acquire] ends with. *)
Inductive Pass :=
| PassAdmitted
| PassQueueFull
| PassTimeout
| PassWait.

(** [started.checked_add(config.wait)]: a timespec holds 2^63 seconds. *)
Definition INSTANT_END : Z := 2 ^ 63 * 1000000000.
Definition deadline_of (started wait : Z) : option Z :=
  if started + wait <? INSTANT_END then Some (started + wait) else None.

Definition admit_bytes (st : QueueState) (bytes : Z) : QueueState :=
  mkQueueState (qs_used_bytes st + bytes) (qs_waiting st) (wrap64 (qs_admitted st + 1)) (qs_rejected st) (qs_timed_out st).
Definition count_rejected (st : QueueState) : QueueState :=
  mkQueueState (qs_used_bytes st) (qs_waiting st) (qs_admitted st) (wrap64 (qs_rejected st + 1)) (qs_timed_out st).
Definition count_timed_out (st : QueueState) : QueueState :=
  mkQueueState (qs_used_bytes st) (qs_waiting st) (qs_admitted st) (qs_rejected st) (wrap64 (qs_timed_out st + 1)).
Definition set_waiting (st : QueueState) (n : Z) : QueueState :=
  mkQueueState (qs_used_bytes st) n (qs_admitted st) (qs_rejected st) (qs_timed_out st).

(** One pass of the loop, up to the wait. *)
Definition try_pass (c : AdmissionConfig) (bytes : Z) (deadline : option Z) (now : Z) (st : QueueState)
    : QueueState * Pass :=
  if saturating_add64 (qs_used_bytes st) bytes <=? ac_budget_bytes c then (admit_bytes st bytes, PassAdmitted)
  else if ac_queue_max c <=? qs_waiting st then (count_rejected st, PassQueueFull)
  else
    match deadline with
    | None => (count_timed_out st, PassTimeout)
    | Some deadline =>
        if deadline <=? now then (count_timed_out st, PassTimeout)
        else (set_waiting st (qs_waiting st + 1), PassWait)
    end.

(** After [wait_timeout]: [elapsed] is [timeout.timed_out()], [checked] the clock of the test that
    follows and [now] the one of the next pass. *)
Definition wake_pass (c : AdmissionConfig) (bytes : Z) (deadline : option Z) (elapsed : bool) (checked now : Z)
    (st : QueueState) : QueueState * Pass :=
  let st := set_waiting st (qs_waiting st - 1) in
  if elapsed && (default INSTANT_END deadline <=? checked) then (count_timed_out st, PassTimeout)
  else try_pass c bytes deadline now st.

Definition release (bytes : Z) (st : QueueState) : QueueState :=
  if bytes =? 0 then st
  else mkQueueState (saturating_sub64 (qs_used_bytes st) bytes) (qs_waiting st) (qs_admitted st) (qs_rejected st)
         (qs_timed_out st).

(** ** Clients *)

Record Waiter := mkWaiter {
  wt_config : AdmissionConfig;
  wt_bytes : Z;
  wt_deadline : option Z;
  wt_notified : bool
}.

(** The controller, the clients inside [wait_timeout], the guards alive with what they reserve, the
    releases whose [notify_all] is still to come, and what each call that returned answered. *)
Record System := mkSystem {
  sy_state : QueueState;
  sy_waiting : gmap nat Waiter;
  sy_guards : gmap nat Z;
  sy_notifying : nat;
  sy_answers : list (nat * Pass)
}.

Inductive Event :=
| EvAcquire (client : nat) (c : AdmissionConfig) (bytes started now : Z)
| EvWake (client : nat) (elapsed : bool) (checked now : Z)
| EvDrop (client : nat)
| EvNotify.

Definition notify_all (ws : gmap nat Waiter) : gmap nat Waiter :=
  (fun w => mkWaiter (wt_config w) (wt_bytes w) (wt_deadline w) true) <$> ws.

(** Where a pass leaves its client. *)
Definition settle (s : System) (client : nat) (c : AdmissionConfig) (bytes : Z) (deadline : option Z)
    (r : QueueState * Pass) : System :=
  let others := delete client (sy_waiting s) in
  match r.2 with
  | PassAdmitted => mkSystem r.1 others (<[client := bytes]> (sy_guards s)) (sy_notifying s) (sy_answers s ++ [(client, PassAdmitted)])
  | PassWait => mkSystem r.1 (<[client := mkWaiter c bytes deadline false]> others) (sy_guards s) (sy_notifying s) (sy_answers s)
  | answer => mkSystem r.1 others (sy_guards s) (sy_notifying s) (sy_answers s ++ [(client, answer)])
  end.

(** An event that does not apply (a client that is not waiting cannot wake) changes nothing.
    [acquire] with nothing to reserve returns an empty guard without taking the lock. *)
Definition admission_step (s : System) (e : Event) : System :=
  match e with
  | EvAcquire client c bytes started now =>
      match sy_waiting s !! client, sy_guards s !! client with
      | None, None =>
          if (ac_budget_bytes c =? 0) || (bytes =? 0)
          then mkSystem (sy_state s) (sy_waiting s) (<[client := 0]> (sy_guards s)) (sy_notifying s) (sy_answers s ++ [(client, PassAdmitted)])
          else
            let deadline := deadline_of started (ac_wait c) in
            settle s client c bytes deadline (try_pass c bytes deadline now (sy_state s))
      | _, _ => s
      end
  | EvWake client elapsed checked now =>
      match sy_waiting s !! client with
      | Some w =>
          settle s client (wt_config w) (wt_bytes w) (wt_deadline w)
            (wake_pass (wt_config w) (wt_bytes w) (wt_deadline w) elapsed checked now (sy_state s))
      | None => s
      end
  | EvDrop client =>
      match sy_guards s !! client with
      | Some bytes =>
          mkSystem (release bytes (sy_state s)) (sy_waiting s) (delete client (sy_guards s))
            (if bytes =? 0 then sy_notifying s else S (sy_notifying s)) (sy_answers s)
      | None => s
      end
  | EvNotify =>
      match sy_notifying s with
      | S n => mkSystem (sy_state s) (notify_all (sy_waiting s)) (sy_guards s) n (sy_answers s)
      | O => s
      end
  end.

Definition sys_start : System := mkSystem QueueState_default ∅ ∅ 0 [].

Definition run_admission (s : System) (es : list Event) : System := foldl admission_step s es.

(** The calls of a statement. *)
Definition admit_statement (c : AdmissionConfig) (per_query : Z) (sql : string) (client : nat) (started now : Z) : Event :=
  EvAcquire client c (if ac_budget_bytes c =? 0 then 0 else reservation_for c per_query sql) started now.

Definition admit_heavy_statement (c : AdmissionConfig) (per_query : Z) (client : nat) (started now : Z) : Event :=
  EvAcquire client c (if ac_budget_bytes c =? 0 then 0 else heavy_reservation c per_query) started now.

(** ** Every run *)

Definition reserved_total (guards : gmap nat Z) : Z := map_fold (fun _ bytes acc => bytes + acc) 0 guards.

(** The calls of a process whose budget never exceeds [B] bytes and whose queue holds [Q]. *)
Definition event_ok (B Q : Z) (e : Event) : Prop :=
  match e with
  | EvAcquire _ c bytes _ _ => 0 <= bytes <= ac_budget_bytes c /\ ac_budget_bytes c <= B /\ ac_queue_max c = Q
  | _ => True
  end.

Definition fits (s : System) (w : Waiter) : Prop := qs_used_bytes (sy_state s) + wt_bytes w <= ac_budget_bytes (wt_config w).

Record waiter_ok (B Q : Z) (w : Waiter) : Prop := {
  wok_bytes : 0 < wt_bytes w <= ac_budget_bytes (wt_config w);
  wok_budget : ac_budget_bytes (wt_config w) <= B;
  wok_queue : ac_queue_max (wt_config w) = Q;
  wok_deadline : is_Some (wt_deadline w)
}.

Record sys_inv (B Q : Z) (s : System) : Prop := {
  inv_used : qs_used_bytes (sy_state s) = reserved_total (sy_guards s);
  inv_budget : qs_used_bytes (sy_state s) <= B;
  inv_guards : map_Forall (fun _ bytes => 0 <= bytes) (sy_guards s);
  inv_waiting : qs_waiting (sy_state s) = Z.of_nat (size (sy_waiting s));
  inv_queue : qs_waiting (sy_state s) <= Q;
  inv_waiters : map_Forall (fun _ w => waiter_ok B Q w) (sy_waiting s);
  inv_apart : forall client w, sy_waiting s !! client = Some w -> sy_guards s !! client = None;
  inv_woken : sy_notifying s = 0%nat ->
    map_Forall (fun _ w => wt_notified w = false -> ~ fits s w) (sy_waiting s)
}.

Lemma reserved_insert guards client bytes :
  guards !! client = None -> reserved_total (<[client := bytes]> guards) = bytes + reserved_total guards.
Proof. intros H. unfold reserved_total. rewrite map_fold_insert_L; [done|intros; lia|done]. Qed.

Lemma reserved_delete guards client bytes :
  guards !! client = Some bytes -> reserved_total guards = bytes + reserved_total (delete client guards).
Proof. intros H. rewrite <-(reserved_insert _ client) by apply lookup_delete_eq. by rewrite insert_delete_id. Qed.

Lemma reserved_nonneg guards : map_Forall (fun _ bytes => 0 <= bytes) guards -> 0 <= reserved_total guards.
Proof.
  induction guards as [|i x m Hi IH] using map_ind; intros H; [by unfold reserved_total; rewrite map_fold_empty|].
  rewrite reserved_insert by done. apply map_Forall_insert in H as [Hx Hm]; [|done]. specialize (IH Hm). lia.
Qed.

Section run.
Context (B Q : Z).
Hypothesis HB : 0 <= B.
Hypothesis HM : B < U64_MAX.
Hypothesis HQ : 0 <= Q.
Implicit Types (s : System) (c : AdmissionConfig).

Lemma sys_start_inv : sys_inv B Q sys_start.
Proof using HB HM HQ.
  split; simpl; try done; try lia; try (unfold reserved_total; rewrite map_fold_empty; done);
    intros; try (intros ? ?); by rewrite lookup_empty in *.
Qed.

(** Only the bytes in use and the count of waiting clients matter. *)
Lemma counters_inv s st answers :
  sys_inv B Q s -> qs_used_bytes st = qs_used_bytes (sy_state s) -> qs_waiting st = qs_waiting (sy_state s) ->
  sys_inv B Q (mkSystem st (sy_waiting s) (sy_guards s) (sy_notifying s) answers).
Proof. intros [] Hu Hw. by split; unfold fits; simpl; rewrite ?Hu, ?Hw. Qed.

Lemma leave_inv s client w :
  sys_inv B Q s -> sy_waiting s !! client = Some w ->
  sys_inv B Q (mkSystem (set_waiting (sy_state s) (qs_waiting (sy_state s) - 1)) (delete client (sy_waiting s))
                 (sy_guards s) (sy_notifying s) (sy_answers s)).
Proof.
  intros [] Hw.
  assert (Hsize : size (sy_waiting s) = S (size (delete client (sy_waiting s)))) by by rewrite map_size_delete, Hw; pose proof (map_size_ne_0_lookup_2 (sy_waiting s) client (mk_is_Some _ _ Hw)); lia.
  split; simpl; try done; try lia.
  - by apply map_Forall_delete.
  - intros k x (_ & Hk)%lookup_delete_Some. eauto.
  - intros Hn. by apply map_Forall_delete, inv_woken0.
Qed.

(** A client that is neither waiting nor admitted makes a pass. *)
Lemma pass_inv s client c bytes started now :
  sys_inv B Q s -> sy_waiting s !! client = None -> sy_guards s !! client = None ->
  0 < bytes <= ac_budget_bytes c -> ac_budget_bytes c <= B -> ac_queue_max c = Q ->
  sys_inv B Q (settle s client c bytes started (try_pass c bytes started now (sy_state s))).
Proof using HB HM.
  intros Hinv Hnw Hng Hb Hbud Hq.
  assert (Hother : delete client (sy_waiting s) = sy_waiting s) by by apply delete_id.
  unfold settle, try_pass, saturating_add64. rewrite Hother.
  destruct (_ <=? ac_budget_bytes c) eqn:?; [|destruct (_ <=? qs_waiting _) eqn:?; [|destruct started as [deadline|];
    [destruct (deadline <=? now) eqn:?|]]].
  all: zb; cbn [fst snd].
  all: [> |by apply (counters_inv s (count_rejected _))|by apply (counters_inv s (count_timed_out _))|
     |by apply (counters_inv s (count_timed_out _))].
  - destruct Hinv. split; simpl; rewrite ?reserved_insert by done; try done; try lia.
    + apply map_Forall_insert; [done|split; [lia|done]].
    + intros k w Hk. rewrite lookup_insert_ne by congruence. eauto.
    + intros Hn k w Hk Hf Hfit. unfold fits in Hfit. simpl in Hfit.
      apply (inv_woken0 Hn k w Hk Hf). unfold fits. lia.
  - destruct Hinv. split; simpl; rewrite ?map_size_insert, ?Hnw; try done; try lia.
    + apply map_Forall_insert; [done|]. split; [|done]. by split.
    + intros k w [[-> _]|[Hk Hw]]%lookup_insert_Some; [done|eauto].
    + intros Hn. apply map_Forall_insert; [done|]. split; [intros _; unfold fits; simpl; lia|]. exact (inv_woken0 Hn).
Qed.

Lemma settle_left s st client c bytes deadline r :
  settle s client c bytes deadline r =
    settle (mkSystem st (delete client (sy_waiting s)) (sy_guards s) (sy_notifying s) (sy_answers s)) client c bytes
      deadline r.
Proof. unfold settle. simpl. by rewrite delete_delete_eq. Qed.

Lemma wake_inv s client w elapsed checked now :
  sys_inv B Q s -> sy_waiting s !! client = Some w ->
  sys_inv B Q (settle s client (wt_config w) (wt_bytes w) (wt_deadline w)
                 (wake_pass (wt_config w) (wt_bytes w) (wt_deadline w) elapsed checked now (sy_state s))).
Proof using HB HM.
  intros Hinv Hw. pose proof (leave_inv s client w Hinv Hw) as Hleft.
  destruct (inv_waiters _ _ _ Hinv client w Hw).
  rewrite (settle_left s (set_waiting (sy_state s) (qs_waiting (sy_state s) - 1))). unfold wake_pass.
  case_goal.
  - unfold settle. simpl. rewrite delete_delete_eq. by refine (counters_inv _ _ _ Hleft _ _).
  - apply pass_inv; try done; simpl; [apply lookup_delete_eq|exact (inv_apart _ _ _ Hinv client w Hw)].
Qed.

Lemma event_inv s e : sys_inv B Q s -> event_ok B Q e -> sys_inv B Q (admission_step s e).
Proof using HB HM.
  intros Hinv He. destruct e as [client c bytes started now|client elapsed checked now|client|]; simpl in *.
  - destruct (sy_waiting s !! client) eqn:Hw; [done|]. destruct (sy_guards s !! client) eqn:Hg; [done|].
    destruct He as (Hb & Hbud & Hq). case_goal.
    + destruct Hinv. split; simpl; rewrite ?reserved_insert by done; try done.
      * apply map_Forall_insert; [done|]. by split.
      * intros k w Hk. rewrite lookup_insert_ne by congruence. eauto.
    + zb. apply pass_inv; try done. lia.
  - destruct (sy_waiting s !! client) as [w|] eqn:Hw; [|done]. by apply wake_inv.
  - destruct (sy_guards s !! client) as [bytes|] eqn:Hg; [|done].
    pose proof (reserved_delete _ _ _ Hg) as Hsum.
    pose proof (inv_guards _ _ _ Hinv client bytes Hg) as Hpos. simpl in Hpos.
    pose proof (map_Forall_delete _ _ client (inv_guards _ _ _ Hinv)) as Hrest.
    pose proof (reserved_nonneg _ Hrest) as Hnn. destruct Hinv.
    unfold release. destruct (bytes =? 0) eqn:Hz; zb; split; simpl; unfold saturating_sub64; try done; try lia;
      intros k w Hk; apply lookup_delete_None; right; eauto.
  - destruct (sy_notifying s) as [|n] eqn:Hn; [done|]. destruct Hinv.
    unfold notify_all. split; simpl; rewrite ?map_size_fmap; try done.
    + intros k w (w0 & <- & Hk)%lookup_fmap_Some. destruct (inv_waiters0 k w0 Hk). by split.
    + intros k w (w0 & <- & Hk)%lookup_fmap_Some. eauto.
    + intros _ k w (w0 & <- & Hk)%lookup_fmap_Some. done.
Qed.

Lemma run_inv es : Forall (event_ok B Q) es -> sys_inv B Q (run_admission sys_start es).
Proof using HB HM HQ.
  unfold run_admission. pose proof sys_start_inv as Hinv. revert Hinv. generalize sys_start.
  induction es as [|e es IH]; intros s Hinv Hes; [done|].
  apply Forall_cons in Hes as [He Hes]. apply IH; [|done]. by apply event_inv.
Qed.

End run.

(** ** What a statement reserves *)

(** A statement admitted alone always fits: its reservation is between one byte and the budget. *)
Lemma reservation_bounds c per_query sql :
  0 < ac_budget_bytes c -> 0 <= per_query ->
  1 <= reservation_for c per_query sql <= ac_budget_bytes c /\
  1 <= heavy_reservation c per_query <= ac_budget_bytes c.
Proof. intros Hb Hp. unfold reservation_for, heavy_reservation. repeat case_goal; zb; lia. Qed.

Lemma from_env_budget mb light queue wait :
  (forall m, mb = Some m -> 0 <= m) ->
  0 <= ac_budget_bytes (from_env mb light queue wait) <= U64_MAX /\
  (0 < ac_budget_bytes (from_env mb light queue wait) ->
   ac_queue_max (from_env mb light queue wait) = default DEFAULT_QUEUE_MAX queue /\ mb <> None).
Proof.
  intros Hmb. unfold from_env, saturating_mul64, MEBI, U64_MAX. destruct mb as [m|]; [|by simpl; split; [lia|]].
  specialize (Hmb m eq_refl). destruct (m =? 0) eqn:Hz; zb; simpl; [|split; [lia|done]]. by split; [lia|].
Qed.

(** The calls of statements are the calls the runs above are made of. *)
Lemma statement_event_ok B Q c per_query sql client started now :
  0 <= ac_budget_bytes c <= B -> 0 <= per_query -> ac_queue_max c = Q ->
  event_ok B Q (admit_statement c per_query sql client started now) /\
  event_ok B Q (admit_heavy_statement c per_query client started now).
Proof.
  intros Hb Hp Hq. unfold admit_statement, admit_heavy_statement. simpl.
  destruct (ac_budget_bytes c =? 0) eqn:Hz; zb; [by split_and!; try lia|].
  pose proof (reservation_bounds c per_query sql) as [? ?]; [lia..|]. split_and!; try done; lia.
Qed.

(** ** The properties *)

(** C29 In every run of statements that arrive, wait, wake and finish in any order, the bytes the
    controller counts as used are those of the guards alive and never exceed the budget, its count
    of waiting statements is the number of them and never exceeds the queue's capacity; when the
    last guard is dropped nothing is left reserved. *)
Theorem admission_books_balance (B Q : Z) (es : list Event) :
  0 <= B < U64_MAX -> 0 <= Q -> Forall (event_ok B Q) es ->
  let s := run_admission sys_start es in
  qs_used_bytes (sy_state s) = reserved_total (sy_guards s) /\ qs_used_bytes (sy_state s) <= B /\
  qs_waiting (sy_state s) = Z.of_nat (size (sy_waiting s)) /\ qs_waiting (sy_state s) <= Q /\
  (sy_guards s = ∅ -> qs_used_bytes (sy_state s) = 0).
Proof.
  intros [HB HM] HQ Hes s. destruct (run_inv B Q HB HM HQ es Hes). split_and!; try done.
  intros He. unfold s in *. rewrite inv_used0, He. unfold reserved_total. by rewrite map_fold_empty.
Qed.

(** C30 No wake-up is lost and no waiting statement hangs: one that fits has been notified, or a
    release is about to notify it, and when it wakes it is admitted; with nothing else reserved it
    fits; once its deadline has passed the next wake-up answers it; and having been queued it is
    never told that the queue is full. *)
Theorem waiting_statement_proceeds (B Q : Z) (es : list Event) (client : nat) (w : Waiter) (elapsed : bool)
    (checked now : Z) :
  0 <= B < U64_MAX -> 0 <= Q -> Forall (event_ok B Q) es ->
  sy_waiting (run_admission sys_start es) !! client = Some w ->
  let s := run_admission sys_start es in
  let s' := admission_step s (EvWake client elapsed checked now) in
  (fits s w -> wt_notified w = true \/ (0 < sy_notifying s)%nat) /\
  (fits s w -> elapsed = false -> sy_guards s' !! client = Some (wt_bytes w)) /\
  (reserved_total (sy_guards s) = 0 -> fits s w) /\
  (forall d, wt_deadline w = Some d -> d <= now -> sy_waiting s' !! client = None) /\
  (client, PassQueueFull) ∉ drop (length (sy_answers s)) (sy_answers s').
Proof.
  intros [HB HM] HQ Hes Hw s s'. pose proof (run_inv B Q HB HM HQ es Hes) as Hinv. fold s in Hw, Hinv.
  pose proof (leave_inv B Q s client w Hinv Hw) as Hleft.
  pose proof (inv_waiters _ _ _ Hinv client w Hw) as [Hb Hbud Hq [d Hd]].
  pose proof (inv_queue _ _ _ Hleft) as Hqueue. pose proof (inv_budget _ _ _ Hinv) as Hused. simpl in Hqueue.
  pose proof (inv_queue _ _ _ Hinv) as Hfull.
  assert (Hs' : s' = settle s client (wt_config w) (wt_bytes w) (wt_deadline w)
                 (wake_pass (wt_config w) (wt_bytes w) (wt_deadline w) elapsed checked now (sy_state s)))
    by (unfold s'; simpl; by rewrite Hw).
  rewrite Hs', Hd. clear Hs' s'. unfold fits. split_and!.
  - intros Hfit. destruct (wt_notified w) eqn:Hn; [by left|right]. destruct (sy_notifying s) eqn:Hk; [|lia].
    by destruct (inv_woken _ _ _ Hinv Hk client w Hw Hn).
  - intros Hfit ->. unfold wake_pass, try_pass, saturating_add64. simpl.
    destruct (_ <=? ac_budget_bytes _) eqn:He; zb; [|lia]. simpl. apply lookup_insert_eq.
  - rewrite <-(inv_used _ _ _ Hinv). lia.
  - intros d' [= <-] Hlate. unfold wake_pass, try_pass. simpl.
    destruct (elapsed && (d <=? checked)); [apply lookup_delete_eq|]. destruct (_ <=? ac_budget_bytes _); [apply lookup_delete_eq|].
    destruct (_ <=? _ - 1) eqn:?; [apply lookup_delete_eq|]. destruct (d <=? now) eqn:?; zb; [apply lookup_delete_eq|lia].
  - unfold wake_pass, try_pass, settle. simpl.
    assert (Hno : forall p, p <> PassQueueFull -> (client, PassQueueFull) ∉ drop (length (sy_answers s)) (sy_answers s ++ [(client, p)])).
    { intros p Hp. rewrite drop_app_length, list_elem_of_singleton. congruence. }
    destruct (elapsed && (d <=? checked)); [by apply Hno|]. destruct (_ <=? ac_budget_bytes _); [by apply Hno|].
    destruct (ac_queue_max _ <=? _ - 1) eqn:?; zb; [lia|]. destruct (d <=? now); [by apply Hno|]. simpl.
    rewrite drop_all. apply not_elem_of_nil.
Qed.

(** ** Examples *)

Definition demo_config : AdmissionConfig := from_env (Some 16) (Some 4) (Some 2) (Some 5000).
Definition demo_scan : string := "SELECT * FROM t WHERE _id = 5".
Definition demo_sort : string := "select * from t order by score".

(** A scan runs; a sort needs the whole budget and waits, as does a second one; a third finds the
    queue full. *)
Definition demo_events : list Event :=
  [admit_statement demo_config 0 demo_scan 1 0 0; admit_statement demo_config 0 demo_sort 2 0 1;
   admit_statement demo_config 0 demo_sort 3 0 2; admit_statement demo_config 0 demo_sort 4 0 3].

Example demo_queue :
  let s := run_admission sys_start demo_events in
  sy_guards s !! 1%nat = Some (4 * MEBI) /\ qs_waiting (sy_state s) = 2 /\
  sy_answers s = [(1%nat, PassAdmitted); (4%nat, PassQueueFull)] /\
  let s := run_admission s [EvDrop 1; EvNotify; EvWake 3 false 10 11; EvWake 2 true 6000000000 6000000000] in
  qs_used_bytes (sy_state s) = 16 * MEBI /\ qs_waiting (sy_state s) = 0 /\
  drop 2 (sy_answers s) = [(3%nat, PassAdmitted); (2%nat, PassTimeout)].
Proof. vm_compute. split_and!; reflexivity. Qed.

(** An operator that follows a line break is not seen. *)
Example line_break_hides_operator :
  is_heavy_statement "SELECT a, SUM(b) FROM t GROUP BY a" = true /\
  is_heavy_statement ("SELECT a, SUM(b) FROM t" ++ String (Ascii.ascii_of_nat 10) "GROUP BY a") = false.
Proof. split; reflexivity. Qed.

Lemma demo_events_ok : Forall (event_ok (16 * MEBI) 2) demo_events.
Proof. unfold demo_events. repeat constructor; try (vm_compute; by intros). Qed.

Lemma admission_books_balance_witness :
  qs_used_bytes (sy_state (run_admission sys_start demo_events)) = 4 * MEBI.
Proof.
  destruct (admission_books_balance (16 * MEBI) 2 demo_events) as (-> & _);
    [by vm_compute|done|exact demo_events_ok|by vm_compute].
Defined.

Lemma waiting_statement_proceeds_witness :
  exists w, sy_waiting (run_admission sys_start (demo_events ++ [EvDrop 1])) !! 3%nat = Some w /\
    (wt_notified w = true \/ (0 < sy_notifying (run_admission sys_start (demo_events ++ [EvDrop 1])))%nat).
Proof.
  eexists. split; [vm_compute; reflexivity|].
  eapply (waiting_statement_proceeds (16 * MEBI) 2 (demo_events ++ [EvDrop 1]) 3 _ false 10 11);
    [by vm_compute|done|apply Forall_app; split; [exact demo_events_ok|by repeat constructor]|vm_compute; reflexivity|by vm_compute].
Defined.
