(* ===== verification/TableLock.v ===== *)
(** * The lock of a table between processes

    Models [storage/cross_process_lock.rs] for one table file: the cached descriptor of each
    process with the thread that owns it, the advisory lock ([flock]) of the operating system, the
    guards, and the calls of the threads cut where they release the mutex of an entry.  [flock] is
    as documented: it belongs to the open file description, a second lock of the same description
    succeeds, and closing the description (or the death of the process) gives it up.  Looking up
    the cache and filling it is one step; the waits and retries of a call are the steps it does not
    take yet; tables in memory take no lock and are left out. *)
From S2P Require Import Prelude.

(** A thread: its process and its number. *)
Abbreviation Thread := (nat * nat)%type.

Inductive FlockMode := FlockShared | FlockExclusive.
#[export] Instance FlockMode_eq_dec : EqDecision FlockMode.
Proof. solve_decision. Defined.

(** [ExclusiveLock]: its open file is its key in the state. *)
Record LockEntry := mkEntry {
  le_process : nat;
  le_owner : option Thread
}.

Record LockGuard := mkGuard {
  lg_process : nat;
  lg_owned : option nat;
  lg_shared : option nat
}.

Definition holds_lock (g : LockGuard) : bool :=
  match lg_owned g, lg_shared g with None, None => false | _, _ => true end.

(** Where a call stands: waiting for the ownership of an entry, retrying [flock] on it, between the
    two halves of a drop, or retrying a shared [flock]. *)
Inductive LockCall :=
| Acquiring (d : nat)
| Locking (d : nat)
| Dropping (d : nat)
| Reading (d : nat).

Record Locks := mkLocks {
  lk_next : nat;
  lk_cache : gmap nat nat;
  lk_entries : gmap nat LockEntry;
  lk_flocks : gmap nat FlockMode;
  lk_calls : gmap Thread LockCall;
  lk_guards : gmap nat LockGuard
}.

Definition locks_start : Locks := mkLocks 0 ∅ ∅ ∅ ∅ ∅.

Implicit Types (st : Locks) (t : Thread) (d : nat).

Definition set_flocks st (f : gmap nat FlockMode) : Locks :=
  mkLocks (lk_next st) (lk_cache st) (lk_entries st) f (lk_calls st) (lk_guards st).
Definition set_call st t (c : option LockCall) : Locks :=
  mkLocks (lk_next st) (lk_cache st) (lk_entries st) (lk_flocks st)
    (match c with Some c => <[t := c]> (lk_calls st) | None => delete t (lk_calls st) end) (lk_guards st).
Definition set_owner st d (owner : option Thread) : Locks :=
  mkLocks (lk_next st) (lk_cache st) (alter (fun e => mkEntry (le_process e) owner) d (lk_entries st)) (lk_flocks st)
    (lk_calls st) (lk_guards st).

(** A call returns a guard. *)
Definition return_guard st t (g : LockGuard) : Locks :=
  mkLocks (S (lk_next st)) (lk_cache st) (lk_entries st) (lk_flocks st) (delete t (lk_calls st)) (<[lk_next st := g]> (lk_guards st)).

(** [try_lock_exclusive] and [try_lock_shared] succeed when no other description is in the way. *)
Definition flock_free st d (mode : FlockMode) : bool :=
  bool_decide (map_Forall (fun e m => e = d \/ (mode = FlockShared /\ m = FlockShared)) (lk_flocks st)).

(** ** [lock_write] *)

(** The cached entry of the process, opened when there is none. *)
Definition find_entry st t : Locks :=
  match lk_cache st !! t.1 with
  | Some d => set_call st t (Some (Acquiring d))
  | None =>
      let d := lk_next st in
      mkLocks (S d) (<[t.1 := d]> (lk_cache st)) (<[d := mkEntry t.1 None]> (lk_entries st)) (lk_flocks st)
        (<[t := Acquiring d]> (lk_calls st)) (lk_guards st)
  end.

(** Under the mutex of the entry: a nested acquisition returns, a free entry is taken, and an entry
    of another thread is waited for. *)
Definition take_ownership st t d : option Locks :=
  e ← lk_entries st !! d;
  match le_owner e with
  | Some owner => if decide (owner = t) then Some (return_guard st t (mkGuard t.1 None None)) else None
  | None => Some (set_call (set_owner st d (Some t)) t (Some (Locking d)))
  end.

Definition lock_exclusive st t d : option Locks :=
  if flock_free st d FlockExclusive
  then Some (return_guard (set_flocks st (<[d := FlockExclusive]> (lk_flocks st))) t (mkGuard t.1 (Some d) None))
  else None.

(** The retry budget is spent: the ownership is given back. *)
Definition time_out st t d : Locks := set_call (set_owner st d None) t None.

(** ** [lock_read] *)

Definition open_shared st t : Locks :=
  let d := lk_next st in
  mkLocks (S d) (lk_cache st) (lk_entries st) (lk_flocks st) (<[t := Reading d]> (lk_calls st)) (lk_guards st).

Definition lock_shared st t d : option Locks :=
  if flock_free st d FlockShared
  then Some (return_guard (set_flocks st (<[d := FlockShared]> (lk_flocks st))) t (mkGuard t.1 None (Some d)))
  else None.

(** ** Dropping a guard *)

(** [unlock], then the ownership under the mutex, when the guard has it; a guard has at most one of
    the two locks ([guards_one]). *)
Definition remove_guard st (g : nat) : Locks :=
  mkLocks (lk_next st) (lk_cache st) (lk_entries st) (lk_flocks st) (lk_calls st) (delete g (lk_guards st)).

Definition unlock_guard st t (g : nat) (guard : LockGuard) : Locks :=
  let st := remove_guard st g in
  match lg_owned guard, lg_shared guard with
  | Some d, _ => set_call (set_flocks st (delete d (lk_flocks st))) t (Some (Dropping d))
  | None, Some d => set_flocks st (delete d (lk_flocks st))
  | None, None => st
  end.

Definition finish_drop st t d : Locks := set_call (set_owner st d None) t None.

(** ** [release], and the death of a process *)

Definition release_cache st (p : nat) : Locks :=
  match lk_cache st !! p with
  | Some d =>
      match lk_entries st !! d with
      | Some (mkEntry _ (Some _)) => st
      | _ => mkLocks (lk_next st) (delete p (lk_cache st)) (lk_entries st) (lk_flocks st) (lk_calls st) (lk_guards st)
      end
  | None => st
  end.

(** The descriptions a process has open: those of its entries, guards and calls. *)
Definition open_in st (p : nat) (d : nat) : bool :=
  match lk_entries st !! d with Some e => bool_decide (le_process e = p) | None => false end ||
  existsb (fun g => (lg_process g =? p)%nat && (bool_decide (lg_owned g = Some d) || bool_decide (lg_shared g = Some d)))
    (map_to_list (lk_guards st)).*2.

Definition kill st (p : nat) : Locks :=
  mkLocks (lk_next st) (delete p (lk_cache st)) (filter (fun '(_, e) => le_process e <> p) (lk_entries st))
    (filter (fun '(d, _) => open_in st p d = false) (lk_flocks st))
    (filter (fun '(t, _) => t.1 <> p) (lk_calls st)) (filter (fun '(_, g) => lg_process g <> p) (lk_guards st)).

(** ** The system *)

Inductive LockEvent :=
| LockWrite (t : Thread)
| LockRead (t : Thread)
| Proceed (t : Thread)
| TimeOut (t : Thread)
| DropGuard (t : Thread) (g : nat)
| Release (p : nat)
| Kill (p : nat).

(** A thread starts a call when it is in none; [Proceed] is its next segment, when that can run. *)
Definition lock_step st (e : LockEvent) : option Locks :=
  match e with
  | LockWrite t => match lk_calls st !! t with None => Some (find_entry st t) | Some _ => None end
  | LockRead t => match lk_calls st !! t with None => Some (open_shared st t) | Some _ => None end
  | Proceed t =>
      c ← lk_calls st !! t;
      match c with
      | Acquiring d => take_ownership st t d
      | Locking d => lock_exclusive st t d
      | Dropping d => Some (finish_drop st t d)
      | Reading d => lock_shared st t d
      end
  | TimeOut t =>
      c ← lk_calls st !! t;
      match c with
      | Locking d => Some (time_out st t d)
      | Reading _ => Some (set_call st t None)
      | Acquiring _ | Dropping _ => None
      end
  | DropGuard t g =>
      guard ← lk_guards st !! g;
      match lk_calls st !! t with
      | None => if decide (lg_process guard = t.1) then Some (unlock_guard st t g guard) else None
      | Some _ => None
      end
  | Release p => Some (release_cache st p)
  | Kill p => Some (kill st p)
  end.

Definition lock_run (es : list LockEvent) : option Locks :=
  foldl (fun acc e => st ← acc; lock_step st e) (Some locks_start) es.

(** ** Who uses a description *)

Definition guard_uses (g : LockGuard) d (m : FlockMode) : Prop :=
  match m with FlockExclusive => lg_owned g = Some d | FlockShared => lg_shared g = Some d end.

Definition call_uses (c : LockCall) d (m : FlockMode) : Prop :=
  match c with
  | Locking e | Dropping e => m = FlockExclusive /\ e = d
  | Reading e => m = FlockShared /\ e = d
  | Acquiring _ => False
  end.

(** A guard, or a call between the ownership and the guard, with the mode it locks. *)
Definition uses st (u : nat + Thread) d (m : FlockMode) : Prop :=
  match u with
  | inl g => match lk_guards st !! g with Some guard => guard_uses guard d m | None => False end
  | inr t => match lk_calls st !! t with Some c => call_uses c d m | None => False end
  end.

Definition user_process st (u : nat + Thread) : option nat :=
  match u with inl g => lg_process <$> lk_guards st !! g | inr t => Some t.1 end.

Definition entry_process st d : option nat := le_process <$> lk_entries st !! d.

Record locks_ok st : Prop := {
  ok_unique u v d m n : uses st u d m -> uses st v d n -> u = v;
  ok_owner u d : uses st u d FlockExclusive ->
    exists e o, lk_entries st !! d = Some e /\ le_owner e = Some o /\ user_process st u = Some (le_process e);
  ok_reader u d : uses st u d FlockShared -> lk_entries st !! d = None;
  ok_flock d m : lk_flocks st !! d = Some m <-> exists g, uses st (inl g) d m;
  ok_conflict d e m n : d <> e -> lk_flocks st !! d = Some m -> lk_flocks st !! e = Some n -> m = FlockShared;
  ok_cache p d : lk_cache st !! p = Some d -> entry_process st d = Some p;
  ok_acquiring t d : lk_calls st !! t = Some (Acquiring d) -> entry_process st d = Some t.1;
  ok_fresh d : is_Some (lk_entries st !! d) \/ (exists u m, uses st u d m) \/ is_Some (lk_guards st !! d) -> (d < lk_next st)%nat
}.

Lemma locks_start_ok : locks_ok locks_start.
Proof.
  assert (Hno : forall u d m, ~ uses locks_start u d m) by (intros [g|t] d m Hu; exact Hu).
  split; cbn; try done; try (intros; exfalso; eapply Hno; eassumption).
  - intros d m. rewrite lookup_empty. split; [done|]. intros [g Hu]. exfalso. exact (Hno (inl g) d m Hu).
  - intros d [[? ?]|[(u & m & Hu)|[? ?]]]; [done| |done]. exfalso. exact (Hno u d m Hu).
Qed.

(** A step around one description [d0] keeps the rest. *)
Lemma ok_step st st' d0 : locks_ok st ->
  (forall u d m, d <> d0 -> uses st' u d m <-> uses st u d m) ->
  (forall u d m, uses st u d m -> uses st' u d m -> user_process st' u = user_process st u) ->
  (forall d, d <> d0 -> lk_entries st' !! d = lk_entries st !! d /\ lk_flocks st' !! d = lk_flocks st !! d) ->
  (forall d p, entry_process st d = Some p -> entry_process st' d = Some p) ->
  (forall u v m n, uses st' u d0 m -> uses st' v d0 n -> u = v) ->
  (forall u, uses st' u d0 FlockExclusive -> exists e o, lk_entries st' !! d0 = Some e /\ le_owner e = Some o /\
     user_process st' u = Some (le_process e)) ->
  (forall u, uses st' u d0 FlockShared -> lk_entries st' !! d0 = None) ->
  (forall m, lk_flocks st' !! d0 = Some m <-> exists g, uses st' (inl g) d0 m) ->
  (forall m e n, e <> d0 -> lk_flocks st' !! d0 = Some m -> lk_flocks st !! e = Some n -> m = FlockShared /\ n = FlockShared) ->
  (forall p d, lk_cache st' !! p = Some d -> lk_cache st !! p = Some d \/ entry_process st' d = Some p) ->
  (forall t d, lk_calls st' !! t = Some (Acquiring d) -> lk_calls st !! t = Some (Acquiring d) \/ entry_process st' d = Some t.1) ->
  (lk_next st <= lk_next st')%nat ->
  (is_Some (lk_entries st' !! d0) \/ (exists u m, uses st' u d0 m) -> (d0 < lk_next st')%nat) ->
  (forall g, is_Some (lk_guards st' !! g) -> is_Some (lk_guards st !! g) \/ (g < lk_next st')%nat) ->
  locks_ok st'.
Proof.
  intros Hok Hu Hp Hef Hep H1 H2 H3 H4 H5 Hc Ha Hn Hf0 Hg. split.
  - intros u v d m n Hud Hvd. destruct (decide (d = d0)) as [->|Hne]; [by eapply H1|].
    apply Hu in Hud, Hvd; [|done..]. by eapply (ok_unique _ Hok).
  - intros u d Hud. destruct (decide (d = d0)) as [->|Hne]; [by apply H2|].
    pose proof (proj1 (Hu _ _ _ Hne) Hud) as Hud0. destruct (ok_owner _ Hok _ _ Hud0) as (e & o & He & Ho & Hpe).
    exists e, o. rewrite (proj1 (Hef d Hne)), (Hp _ _ _ Hud0 Hud). done.
  - intros u d Hud. destruct (decide (d = d0)) as [->|Hne]; [by eapply H3|]. rewrite (proj1 (Hef d Hne)).
    apply Hu in Hud; [|done]. by eapply (ok_reader _ Hok).
  - intros d m. destruct (decide (d = d0)) as [->|Hne]; [done|]. rewrite (proj2 (Hef d Hne)), (ok_flock _ Hok).
    split; intros [g Hg']; exists g; by apply (Hu (inl g) d m Hne).
  - intros d e m n Hne Hd He. destruct (decide (d = d0)) as [->|Hd0].
    + rewrite (proj2 (Hef e ltac:(done))) in He. by destruct (H5 m e n ltac:(done) Hd He).
    + rewrite (proj2 (Hef d Hd0)) in Hd. destruct (decide (e = d0)) as [->|He0]; [by destruct (H5 n d m Hd0 He Hd)|].
      rewrite (proj2 (Hef e He0)) in He. by eapply (ok_conflict _ Hok d e).
  - intros p d Hpd. destruct (Hc p d Hpd) as [Hold|Hnew]; [|done]. apply Hep. by apply (ok_cache _ Hok).
  - intros t d Htd. destruct (Ha t d Htd) as [Hold|Hnew]; [|done]. apply Hep. by apply (ok_acquiring _ Hok).
  - intros d Hd. assert (Hold : is_Some (lk_entries st !! d) \/ (exists u m, uses st u d m) \/ is_Some (lk_guards st !! d) -> (d < lk_next st')%nat).
    { intros Hx. pose proof (ok_fresh _ Hok d Hx). lia. }
    destruct (decide (d = d0)) as [->|Hne].
    + destruct Hd as [He|[Hx|Hx]]; [apply Hf0; by left|apply Hf0; by right|]. destruct (Hg _ Hx); [apply Hold; auto|done].
    + rewrite (proj1 (Hef d Hne)) in Hd. destruct Hd as [He|[(u & m & Hx)|Hx]]; [apply Hold; auto| |].
      * apply Hold. right. left. exists u, m. by apply Hu.
      * destruct (Hg _ Hx); [apply Hold; auto|done].
Qed.

(** A description nobody uses and nothing knows. *)
Lemma fresh_unused st u m : locks_ok st -> ~ uses st u (lk_next st) m.
Proof. intros Hok Hu. pose proof (ok_fresh _ Hok (lk_next st)) as Hf. assert (lk_next st < lk_next st)%nat by (apply Hf; eauto). lia. Qed.

Lemma fresh_entry st : locks_ok st -> lk_entries st !! lk_next st = None.
Proof.
  intros Hok. apply eq_None_not_Some. intros Hs. pose proof (ok_fresh _ Hok (lk_next st) (or_introl Hs)). lia.
Qed.

Lemma fresh_guard st : locks_ok st -> lk_guards st !! lk_next st = None.
Proof.
  intros Hok. apply eq_None_not_Some. intros Hs. pose proof (ok_fresh _ Hok (lk_next st)) as Hf.
  assert (lk_next st < lk_next st)%nat by (apply Hf; auto). lia.
Qed.

Lemma fresh_flock st : locks_ok st -> lk_flocks st !! lk_next st = None.
Proof.
  intros Hok. destruct (lk_flocks st !! lk_next st) as [m|] eqn:Hm; [|done]. apply (ok_flock _ Hok) in Hm as [g Hg].
  exfalso. by eapply fresh_unused.
Qed.

(** ** Every step keeps it *)

Lemma uses_call st t c u d m :
  uses (set_call st t c) u d m <->
  match u with
  | inr t' => if decide (t' = t) then match c with Some c => call_uses c d m | None => False end else uses st u d m
  | inl _ => uses st u d m
  end.
Proof.
  destruct u as [g|t']; [done|]. cbn. destruct (decide (t' = t)) as [->|Hne].
  - destruct c; [by rewrite lookup_insert_eq|by rewrite lookup_delete_eq].
  - destruct c; [by rewrite lookup_insert_ne|by rewrite lookup_delete_ne].
Qed.

Lemma uses_return st t g u d m : lk_guards st !! lk_next st = None ->
  uses (return_guard st t g) u d m <->
  match u with
  | inr t' => t' <> t /\ uses st u d m
  | inl i => if decide (i = lk_next st) then guard_uses g d m else uses st u d m
  end.
Proof.
  intros Hf. destruct u as [i|t']; cbn.
  - destruct (decide (i = lk_next st)) as [->|Hne]; [by rewrite lookup_insert_eq|by rewrite lookup_insert_ne].
  - destruct (decide (t' = t)) as [->|Hne]; [rewrite lookup_delete_eq; naive_solver|rewrite lookup_delete_ne; naive_solver].
Qed.

Lemma entry_process_owner st d o e p : entry_process st e = Some p -> entry_process (set_owner st d o) e = Some p.
Proof.
  unfold entry_process. cbn. destruct (decide (e = d)) as [->|Hne]; [|by rewrite lookup_alter_ne].
  rewrite lookup_alter_eq. by destruct (lk_entries st !! d).
Qed.

(** A call that starts, or ends without a lock. *)
Lemma set_call_ok st t c : locks_ok st ->
  match c with Some c => exists d, c = Acquiring d /\ entry_process st d = Some t.1 | None => True end ->
  match lk_calls st !! t with Some (Reading _) | Some (Acquiring _) | None => True | _ => False end ->
  locks_ok (set_call st t c).
Proof.
  intros Hok Hc Ht. destruct (lk_calls st !! t) as [[d|d|d|d]|] eqn:Hcall; try done.
  all: assert (Hu : forall u e m, uses (set_call st t c) u e m -> uses st u e m) by
    (intros [g|t'] e m; rewrite uses_call; [done|]; case_decide; [destruct c as [c'|]; [destruct Hc as (d' & -> & _)|]; done|done]).
  all: assert (Hback : forall u e m, u <> inr t -> uses st u e m -> uses (set_call st t c) u e m) by
    (intros [g|t'] e m Hne; rewrite uses_call; [done|]; case_decide; [congruence|done]).
  all: split; cbn [set_call lk_entries lk_flocks lk_cache lk_next lk_guards].
  all: try (by intros *; intros ?%Hu ?%Hu; eapply (ok_unique _ Hok)).
  all: try (intros u e Hue; apply Hu in Hue; by apply (ok_owner _ Hok) in Hue).
  all: try (intros u e Hue; apply Hu in Hue; by apply (ok_reader _ Hok) in Hue).
  all: try (intros e m; rewrite (ok_flock _ Hok); by setoid_rewrite uses_call).
  all: try (by apply (ok_conflict _ Hok)).
  all: try (by apply (ok_cache _ Hok)).
  all: try (intros e [He|[(u & m & Hue)|He]]; apply (ok_fresh _ Hok); [auto|apply Hu in Hue; eauto|auto]).
  all: intros t' e Hte; destruct (decide (t' = t)) as [->|Hne];
    [destruct c as [c'|]; cbn in Hte; [destruct Hc as (d' & -> & Hpd); rewrite lookup_insert_eq in Hte; by injection Hte as ->|by rewrite lookup_delete_eq in Hte]|].
  all: apply (ok_acquiring _ Hok t'); destruct c; cbn in Hte; [by rewrite lookup_insert_ne in Hte|by rewrite lookup_delete_ne in Hte].
Qed.

Lemma find_entry_ok st t : locks_ok st -> lk_calls st !! t = None -> locks_ok (find_entry st t).
Proof.
  intros Hok Ht. unfold find_entry. destruct (lk_cache st !! t.1) as [d|] eqn:Hcache.
  { apply set_call_ok; [done| |by rewrite Ht]. exists d. split; [done|]. by apply (ok_cache _ Hok). }
  set (st' := mkLocks _ _ _ _ _ _).
  assert (Hu : forall u d m, uses st' u d m <-> uses st u d m).
  { intros [g|t'] d m; [done|]. cbn. destruct (decide (t' = t)) as [->|Hne]; [by rewrite lookup_insert_eq, Ht|by rewrite lookup_insert_ne]. }
  assert (Hfu : forall u m, ~ uses st' u (lk_next st) m) by (intros u m; rewrite Hu; by apply fresh_unused).
  apply (ok_step st st' (lk_next st)); cbn [st' lk_entries lk_flocks lk_next lk_guards].
  - done.
  - intros u d m _. apply Hu.
  - by intros [g|t'].
  - intros d Hd. by rewrite lookup_insert_ne.
  - intros d p Hd. unfold entry_process in *. cbn. destruct (decide (d = lk_next st)) as [->|Hne]; [by rewrite fresh_entry in Hd|].
    by rewrite lookup_insert_ne.
  - intros u v m n Hx. by apply Hfu in Hx.
  - intros u Hx. by apply Hfu in Hx.
  - intros u Hx. by apply Hfu in Hx.
  - intros m. rewrite fresh_flock by done. split; [done|]. intros [g Hx]. by apply Hfu in Hx.
  - intros m e n _. by rewrite fresh_flock.
  - intros p d Hpd. cbn in Hpd. destruct (decide (p = t.1)) as [->|Hne].
    + rewrite lookup_insert_eq in Hpd. injection Hpd as <-. right. unfold entry_process. cbn. by rewrite lookup_insert_eq.
    + rewrite lookup_insert_ne in Hpd by done. by left.
  - intros t' d Hd. cbn in Hd. destruct (decide (t' = t)) as [->|Hne].
    + rewrite lookup_insert_eq in Hd. injection Hd as <-. right. unfold entry_process. cbn. by rewrite lookup_insert_eq.
    + rewrite lookup_insert_ne in Hd by done. by left.
  - lia.
  - lia.
  - by left.
Qed.

Lemma flock_free_spec st d mode : flock_free st d mode = true ->
  forall e m, e <> d -> lk_flocks st !! e = Some m -> mode = FlockShared /\ m = FlockShared.
Proof. unfold flock_free. intros Hf%bool_decide_eq_true e m Hne He. destruct (Hf e m He); done. Qed.

Lemma take_ownership_ok st t d st' : locks_ok st -> lk_calls st !! t = Some (Acquiring d) ->
  take_ownership st t d = Some st' -> locks_ok st'.
Proof.
  intros Hok Ht. unfold take_ownership. destruct (lk_entries st !! d) as [e|] eqn:He; [|done]. cbn.
  pose proof (ok_acquiring _ Hok _ _ Ht) as Hproc. unfold entry_process in Hproc. rewrite He in Hproc. injection Hproc as Hproc.
  destruct (le_owner e) as [o|] eqn:Ho.
  - case_decide as Hot; [|done]. intros [= <-].
    assert (Hu : forall u x m, uses (return_guard st t (mkGuard t.1 None None)) u x m <-> uses st u x m).
    { intros u x m. rewrite uses_return by by apply fresh_guard. destruct u as [i|t']; cbn.
      - case_decide as Hi; [subst; rewrite fresh_guard by done; by destruct m|done].
      - split; [tauto|]. intros Hx. split; [|done]. intros ->. by rewrite Ht in Hx. }
    assert (Hfu : forall u m, ~ uses st u (lk_next st) m) by (intros u m; by apply fresh_unused).
    apply (ok_step st _ (lk_next st)); [done|by intros; apply Hu|..]; try done.
    + intros [i|t'] x m Hx _; [|done]. cbn in *. rewrite lookup_insert_ne; [done|]. intros <-. by rewrite fresh_guard in Hx.
    + intros u v m n Hx. apply Hu in Hx. by apply Hfu in Hx.
    + intros u Hx. apply Hu in Hx. by apply Hfu in Hx.
    + intros u Hx. apply Hu in Hx. by apply Hfu in Hx.
    + intros m. cbn [return_guard lk_flocks]. rewrite fresh_flock by done. split; [done|]. intros [g Hx]. apply Hu in Hx. by apply Hfu in Hx.
    + intros m x n _. cbn. by rewrite fresh_flock.
    + intros p x. cbn. by left.
    + intros t' x Hx. cbn in Hx. left. destruct (decide (t' = t)) as [->|Hne]; [by rewrite lookup_delete_eq in Hx|].
      by rewrite lookup_delete_ne in Hx.
    + cbn. lia.
    + cbn. lia.
    + intros g Hg. cbn in *. destruct (decide (g = lk_next st)) as [->|Hne]; [right; lia|left; by rewrite lookup_insert_ne in Hg].
  - intros [= <-].
    assert (Hno : forall u m, ~ uses st u d m).
    { intros u [|] Hx; [by rewrite (ok_reader _ Hok _ _ Hx) in He|].
      destruct (ok_owner _ Hok _ _ Hx) as (e' & o & He' & Ho' & _). rewrite He in He'. injection He' as <-. by rewrite Ho in Ho'. }
    assert (Hu : forall u x m, uses (set_call (set_owner st d (Some t)) t (Some (Locking d))) u x m <->
      (u = inr t /\ m = FlockExclusive /\ x = d) \/ uses st u x m).
    { intros u x m. rewrite uses_call. destruct u as [i|t']; [naive_solver|]. case_decide as Htt.
      - subst. cbn. rewrite Ht. cbn. naive_solver.
      - cbn. naive_solver. }
    apply (ok_step st _ d); cbn [set_call set_owner lk_entries lk_flocks lk_next lk_guards lk_cache].
    + done.
    + intros u x m Hne. rewrite Hu. naive_solver.
    + by intros [i|t'].
    + intros x Hne. by rewrite lookup_alter_ne.
    + intros x p Hx. exact (entry_process_owner st d (Some t) x p Hx).
    + intros u v m n [(-> & _)|Hx]%Hu [(-> & _)|Hy]%Hu; try done; by apply Hno in Hx || by apply Hno in Hy.
    + intros u [(-> & _)|Hx]%Hu; [|by apply Hno in Hx]. exists (mkEntry (le_process e) (Some t)), t.
      rewrite lookup_alter_eq, He. cbn. by rewrite Hproc.
    + intros u [(_ & ? & _)|Hx]%Hu; [done|by apply Hno in Hx].
    + intros m. split.
      * intros Hm. apply (ok_flock _ Hok) in Hm as [g Hg]. by apply Hno in Hg.
      * intros [g [(? & _)|Hx]%Hu]; [done|by apply Hno in Hx].
    + intros m x n _ Hm. apply (ok_flock _ Hok) in Hm as [g Hg]. by apply Hno in Hg.
    + by left.
    + intros t' x Hx. left. cbn in Hx. destruct (decide (t' = t)) as [->|Hne]; [by rewrite lookup_insert_eq in Hx|].
      by rewrite lookup_insert_ne in Hx.
    + lia.
    + intros _. apply (ok_fresh _ Hok). left. by exists e.
    + by left.
Qed.

(** A lock is granted: the call becomes a guard. *)
Lemma grant_ok st t c d mode g : locks_ok st -> lk_calls st !! t = Some c ->
  (forall x m, call_uses c x m <-> m = mode /\ x = d) -> (forall x m, guard_uses g x m <-> m = mode /\ x = d) ->
  lg_process g = t.1 -> flock_free st d mode = true ->
  locks_ok (return_guard (set_flocks st (<[d := mode]> (lk_flocks st))) t g).
Proof.
  intros Hok Ht Hc Hg Hp Hfree. set (st' := return_guard _ t g).
  assert (Hmine : uses st (inr t) d mode) by (cbn; rewrite Ht; by apply Hc).
  assert (Hu : forall u x m, uses st' u x m <-> (u = inl (lk_next st) /\ m = mode /\ x = d) \/ (u <> inr t /\ uses st u x m)).
  { intros u x m. unfold st'. rewrite uses_return by exact (fresh_guard st Hok). destruct u as [i|t'].
    - change (lk_next (set_flocks st (<[d:=mode]> (lk_flocks st)))) with (lk_next st).
      change (uses (set_flocks st (<[d:=mode]> (lk_flocks st))) (inl i) x m) with (uses st (inl i) x m).
      case_decide as Hi; [subst i; rewrite Hg|].
      + split; [intros []; by left|]. intros [(_ & ? & ?)|[_ Hx]]; [done|]. cbn in Hx. by rewrite fresh_guard in Hx.
      + split; [by right|]. intros [([= ->] & _)|[_ Hx]]; done.
    - split; [intros [Hne Hx]; right; split; [congruence|exact Hx]|]. intros [[? _]|[Hne Hx]]; [done|]. split; [congruence|exact Hx]. }
  assert (Hd : forall u x m, uses st' u x m -> x = d -> u = inl (lk_next st)).
  { intros u x m [(-> & _)|[Hne Hx]]%Hu ->; [done|]. exfalso. apply Hne. by eapply (ok_unique _ Hok). }
  apply (ok_step st st' d).
  - done.
  - intros u x m Hne. rewrite Hu. split; [naive_solver|]. intros Hx. right. split; [|done]. intros ->. cbn in Hx. rewrite Ht in Hx.
    apply Hc in Hx. naive_solver.
  - intros [i|t'] x m Hx _; [|done]. cbn in *. rewrite lookup_insert_ne; [done|]. intros <-. by rewrite fresh_guard in Hx.
  - intros x Hne. cbn. by rewrite lookup_insert_ne.
  - done.
  - intros u v m n Hx Hy. by rewrite (Hd _ _ _ Hx eq_refl), (Hd _ _ _ Hy eq_refl).
  - intros u Hx. pose proof (Hd _ _ _ Hx eq_refl) as ->. apply Hu in Hx as [(_ & <- & _)|[_ Hx]].
    + destruct (ok_owner _ Hok _ _ Hmine) as (e & o & He & Ho & Hpe). exists e, o. cbn. rewrite lookup_insert_eq. cbn. rewrite Hp. done.
    + cbn in Hx. by rewrite fresh_guard in Hx.
  - intros u Hx. pose proof (Hd _ _ _ Hx eq_refl) as ->. apply Hu in Hx as [(_ & <- & _)|[_ Hx]].
    + exact (ok_reader _ Hok _ _ Hmine).
    + cbn in Hx. by rewrite fresh_guard in Hx.
  - intros m. cbn [st' return_guard set_flocks lk_flocks]. rewrite lookup_insert_eq. split.
    + intros [= <-]. exists (lk_next st). apply Hu. by left.
    + intros [i [(_ & -> & _)|[_ Hx]]%Hu]; [done|]. exfalso. pose proof (ok_unique _ Hok _ _ _ _ _ Hx Hmine). done.
  - intros m e n Hne Hm He. cbn in Hm. rewrite lookup_insert_eq in Hm. injection Hm as <-. by apply (flock_free_spec st d _ Hfree e).
  - by left.
  - intros t' x Hx. left. cbn in Hx. destruct (decide (t' = t)) as [->|Hne]; [by rewrite lookup_delete_eq in Hx|].
    by rewrite lookup_delete_ne in Hx.
  - cbn. lia.
  - intros _. cbn. pose proof (ok_fresh _ Hok d). assert (d < lk_next st)%nat by eauto 6. lia.
  - intros i Hi. cbn in *. destruct (decide (i = lk_next st)) as [->|Hne]; [right; lia|left; by rewrite lookup_insert_ne in Hi].
Qed.

Lemma open_shared_ok st t : locks_ok st -> lk_calls st !! t = None -> locks_ok (open_shared st t).
Proof.
  intros Hok Ht. set (st' := open_shared st t).
  assert (Hu : forall u d m, uses st' u d m <-> (u = inr t /\ m = FlockShared /\ d = lk_next st) \/ uses st u d m).
  { intros [g|t'] d m; cbn; [naive_solver|]. destruct (decide (t' = t)) as [->|Hne].
    - rewrite lookup_insert_eq, Ht. cbn. naive_solver.
    - rewrite lookup_insert_ne by done. naive_solver. }
  assert (Hfu : forall u m, ~ uses st u (lk_next st) m) by (intros u m; by apply fresh_unused).
  apply (ok_step st st' (lk_next st)).
  - done.
  - intros u d m Hne. rewrite Hu. naive_solver.
  - by intros [g|t'].
  - done.
  - done.
  - intros u v m n [(-> & _)|Hx]%Hu [(-> & _)|Hy]%Hu; try done; by apply Hfu in Hx || by apply Hfu in Hy.
  - intros u [(_ & ? & _)|Hx]%Hu; [done|by apply Hfu in Hx].
  - intros u _. cbn. by apply fresh_entry.
  - intros m. cbn [st' open_shared lk_flocks]. rewrite fresh_flock by done. split; [done|].
    intros [g [(? & _)|Hx]%Hu]; [done|by apply Hfu in Hx].
  - intros m e n _. cbn. by rewrite fresh_flock.
  - by left.
  - intros t' x Hx. left. cbn in Hx. destruct (decide (t' = t)) as [->|Hne]; [by rewrite lookup_insert_eq in Hx|].
    by rewrite lookup_insert_ne in Hx.
  - cbn. lia.
  - intros _. cbn. lia.
  - by left.
Qed.

(** The ownership ends, at a time-out or behind the unlock. *)
Lemma free_owner_ok st t c d : locks_ok st -> lk_calls st !! t = Some c ->
  (forall x m, call_uses c x m <-> m = FlockExclusive /\ x = d) -> locks_ok (set_call (set_owner st d None) t None).
Proof.
  intros Hok Ht Hc. set (st' := set_call _ t None).
  assert (Hmine : uses st (inr t) d FlockExclusive) by (cbn; rewrite Ht; by apply Hc).
  assert (Hu : forall u x m, uses st' u x m <-> u <> inr t /\ uses st u x m).
  { intros u x m. unfold st'. rewrite uses_call. destruct u as [i|t']; [naive_solver|]. case_decide; naive_solver. }
  assert (Hno : forall u m, ~ uses st' u d m).
  { intros u m [Hne Hx]%Hu. apply Hne. by eapply (ok_unique _ Hok). }
  apply (ok_step st st' d).
  - done.
  - intros u x m Hne. rewrite Hu. split; [naive_solver|]. intros Hx. split; [|done]. intros ->. cbn in Hx. rewrite Ht in Hx.
    apply Hc in Hx. naive_solver.
  - by intros [g|t'].
  - intros x Hne. cbn. by rewrite lookup_alter_ne.
  - intros x p Hx. exact (entry_process_owner st d None x p Hx).
  - intros u v m n Hx. by apply Hno in Hx.
  - intros u Hx. by apply Hno in Hx.
  - intros u Hx. by apply Hno in Hx.
  - intros m. split; [|intros [g Hx]; by apply Hno in Hx]. intros Hm. apply (ok_flock _ Hok) in Hm as [g Hg].
    pose proof (ok_unique _ Hok _ _ _ _ _ Hg Hmine). done.
  - intros m e n _ Hm. apply (ok_flock _ Hok) in Hm as [g Hg]. pose proof (ok_unique _ Hok _ _ _ _ _ Hg Hmine). done.
  - by left.
  - intros t' x Hx. left. cbn in Hx. destruct (decide (t' = t)) as [->|Hne]; [by rewrite lookup_delete_eq in Hx|].
    by rewrite lookup_delete_ne in Hx.
  - cbn. lia.
  - intros _. cbn. apply (ok_fresh _ Hok). eauto.
  - by left.
Qed.

(** A guard is dropped: its lock ends, and an owner goes on to give the entry back. *)
Lemma drop_shared_ok st g d guard : locks_ok st -> lk_guards st !! g = Some guard -> lg_owned guard = None ->
  lg_shared guard = Some d -> locks_ok (set_flocks (remove_guard st g) (delete d (lk_flocks st))).
Proof.
  intros Hok Hg Ho Hs. set (st' := set_flocks _ _).
  assert (Hmine : uses st (inl g) d FlockShared) by (cbn; by rewrite Hg).
  assert (Hu : forall u x m, uses st' u x m <-> u <> inl g /\ uses st u x m).
  { intros [i|t'] x m; cbn; [|naive_solver]. destruct (decide (i = g)) as [->|Hne]; [rewrite lookup_delete_eq; naive_solver|].
    rewrite lookup_delete_ne by done. naive_solver. }
  assert (Hno : forall u m, ~ uses st' u d m).
  { intros u m [Hne Hx]%Hu. apply Hne. by eapply (ok_unique _ Hok). }
  apply (ok_step st st' d).
  - done.
  - intros u x m Hne. rewrite Hu. split; [naive_solver|]. intros Hx. split; [|done]. intros ->. cbn in Hx. rewrite Hg in Hx.
    destruct m; cbn in Hx; congruence.
  - intros [i|t'] x m Hx Hx'; [|done]. apply Hu in Hx' as [Hne _]. cbn. rewrite lookup_delete_ne; [done|]. congruence.
  - intros x Hne. cbn. by rewrite lookup_delete_ne.
  - done.
  - intros u v m n Hx. by apply Hno in Hx.
  - intros u Hx. by apply Hno in Hx.
  - intros u Hx. by apply Hno in Hx.
  - intros m. cbn [st' set_flocks lk_flocks]. rewrite lookup_delete_eq. split; [done|]. intros [i Hx]. by apply Hno in Hx.
  - intros m e n _ Hm. cbn in Hm. by rewrite lookup_delete_eq in Hm.
  - by left.
  - by left.
  - cbn. lia.
  - intros _. cbn. apply (ok_fresh _ Hok). eauto.
  - intros i Hi. cbn in Hi. left. destruct (decide (i = g)) as [->|Hne]; [by rewrite lookup_delete_eq in Hi; destruct Hi|].
    by rewrite lookup_delete_ne in Hi.
Qed.

Lemma drop_owned_ok st t g d guard : locks_ok st -> lk_guards st !! g = Some guard -> lg_owned guard = Some d ->
  lk_calls st !! t = None -> lg_process guard = t.1 -> lg_shared guard = None ->
  locks_ok (set_call (set_flocks (remove_guard st g) (delete d (lk_flocks st))) t (Some (Dropping d))).
Proof.
  intros Hok Hg Ho Ht Hp Hs. set (st' := set_call _ t _).
  assert (Hmine : uses st (inl g) d FlockExclusive) by (cbn; by rewrite Hg).
  assert (Hu : forall u x m, uses st' u x m <-> (u = inr t /\ m = FlockExclusive /\ x = d) \/ (u <> inl g /\ uses st u x m)).
  { intros u x m. unfold st'. rewrite uses_call. destruct u as [i|t']; cbn.
    - destruct (decide (i = g)) as [->|Hne]; [rewrite lookup_delete_eq; naive_solver|]. rewrite lookup_delete_ne by done. naive_solver.
    - case_decide as Htt; [subst; rewrite Ht; naive_solver|naive_solver]. }
  assert (Hd : forall u m, uses st' u d m -> u = inr t).
  { intros u m [(-> & _)|[Hne Hx]]%Hu; [done|]. exfalso. apply Hne. by eapply (ok_unique _ Hok). }
  apply (ok_step st st' d).
  - done.
  - intros u x m Hne. rewrite Hu. split; [naive_solver|]. intros Hx. right. split; [|done]. intros ->. cbn in Hx. rewrite Hg in Hx.
    destruct m; cbn in Hx; congruence.
  - intros [i|t'] x m Hx Hx'; [|done]. apply Hu in Hx' as [(? & _)|[Hne _]]; [done|]. cbn. rewrite lookup_delete_ne; [done|]. congruence.
  - intros x Hne. cbn. by rewrite lookup_delete_ne.
  - done.
  - intros u v m n Hx Hy. by rewrite (Hd _ _ Hx), (Hd _ _ Hy).
  - intros u Hx. rewrite (Hd _ _ Hx). destruct (ok_owner _ Hok _ _ Hmine) as (e & o & He & Ho' & Hpe). exists e, o. cbn.
    cbn in Hpe. rewrite Hg in Hpe. cbn in Hpe. rewrite Hp in Hpe. done.
  - intros u Hx. pose proof (Hd _ _ Hx) as ->. apply Hu in Hx as [(_ & ? & _)|[_ Hx]]; [done|]. cbn in Hx. by rewrite Ht in Hx.
  - intros m. cbn [st' set_call set_flocks lk_flocks]. rewrite lookup_delete_eq. split; [done|]. intros [i Hx]. by apply Hd in Hx.
  - intros m e n _ Hm. cbn in Hm. by rewrite lookup_delete_eq in Hm.
  - by left.
  - intros t' x Hx. left. cbn in Hx. destruct (decide (t' = t)) as [->|Hne]; [by rewrite lookup_insert_eq in Hx|].
    by rewrite lookup_insert_ne in Hx.
  - cbn. lia.
  - intros _. cbn. apply (ok_fresh _ Hok). eauto.
  - intros i Hi. cbn in Hi. left. destruct (decide (i = g)) as [->|Hne]; [by rewrite lookup_delete_eq in Hi; destruct Hi|].
    by rewrite lookup_delete_ne in Hi.
Qed.

(** A guard has at most one lock. *)
Definition guards_one st : Prop :=
  forall g guard, lk_guards st !! g = Some guard -> lg_owned guard = None \/ lg_shared guard = None.

Lemma return_guard_one st t g : guards_one st -> lg_owned g = None \/ lg_shared g = None -> guards_one (return_guard st t g).
Proof.
  intros Hone Hg i guard. cbn. destruct (decide (i = lk_next st)) as [->|Hne].
  - rewrite lookup_insert_eq. by intros [= <-].
  - rewrite lookup_insert_ne by done. apply Hone.
Qed.

Lemma guards_one_sub st st' : lk_guards st' ⊆ lk_guards st -> guards_one st -> guards_one st'.
Proof. intros Hsub Hone g guard Hg. apply (Hone g). by eapply lookup_weaken. Qed.

Lemma release_cache_ok st p : locks_ok st -> locks_ok (release_cache st p).
Proof.
  intros Hok. assert (Hall : locks_ok (mkLocks (lk_next st) (delete p (lk_cache st)) (lk_entries st) (lk_flocks st) (lk_calls st) (lk_guards st))).
  { destruct Hok as [H1 H2 H3 H4 H5 H6 H7 H8]. split; try assumption.
    intros q d Hq. cbn in Hq. apply (H6 q). apply lookup_delete_Some in Hq. naive_solver. }
  unfold release_cache. destruct (lk_cache st !! p) as [d|]; [|done].
  destruct (lk_entries st !! d) as [[? [?|]]|]; done.
Qed.

(** A process dies: what the others use stays. *)
Lemma uses_kill st p u d m : uses (kill st p) u d m <-> uses st u d m /\ user_process st u <> Some p.
Proof.
  destruct u as [g|t]; cbn.
  - rewrite map_lookup_filter. destruct (lk_guards st !! g) as [guard|]; cbn; [|tauto].
    case_guard; cbn; naive_solver.
  - rewrite map_lookup_filter. destruct (lk_calls st !! t) as [c|]; cbn; [|tauto].
    case_guard; cbn; naive_solver.
Qed.

Lemma open_in_user st g d m : locks_ok st -> uses st (inl g) d m ->
  forall p, open_in st p d = true <-> user_process st (inl g) = Some p.
Proof.
  intros Hok Hu p. pose proof Hu as Hg. cbn in Hg. destruct (lk_guards st !! g) as [guard|] eqn:Hguard; [|done].
  unfold open_in. rewrite orb_true_iff. split.
  - intros [He|Hex].
    + destruct m; [by rewrite (ok_reader _ Hok _ _ Hu) in He|].
      destruct (ok_owner _ Hok _ _ Hu) as (e & o & He' & _ & Hpe). rewrite He' in He. apply bool_decide_eq_true in He. by rewrite Hpe, He.
    + apply existsb_exists in Hex as (guard' & Hin & Ht). apply andb_true_iff in Ht as [Hp Hd].
      apply Nat.eqb_eq in Hp. apply list_elem_of_In, list_elem_of_fmap in Hin as ([g' ?] & Heq & Hin). cbn in Heq. subst.
      apply elem_of_map_to_list in Hin.
      assert (Hu' : exists n, uses st (inl g') d n).
      { apply orb_true_iff in Hd as [Hd|Hd]; apply bool_decide_eq_true in Hd; [exists FlockExclusive|exists FlockShared]; cbn; by rewrite Hin. }
      destruct Hu' as [n Hu']. pose proof (ok_unique _ Hok _ _ _ _ _ Hu Hu') as [= ->]. cbn. by rewrite Hin.
  - intros Hp. right. apply existsb_exists. exists guard. cbn in Hp. rewrite Hguard in Hp. cbn in Hp. injection Hp as Hp. split.
    + apply list_elem_of_In, list_elem_of_fmap. exists (g, guard). split; [done|]. by apply elem_of_map_to_list.
    + rewrite Hp, Nat.eqb_refl. cbn. apply orb_true_iff. destruct m; cbn in Hg; rewrite Hg; [right|left]; by apply bool_decide_eq_true.
Qed.

Lemma kill_flock st p d m : locks_ok st ->
  lk_flocks (kill st p) !! d = Some m <-> lk_flocks st !! d = Some m /\ exists g, uses st (inl g) d m /\ user_process st (inl g) <> Some p.
Proof.
  intros Hok. cbn. rewrite map_lookup_filter_Some. split.
  - intros [Hm Ho]. split; [done|]. apply (ok_flock _ Hok) in Hm as [g Hg]. exists g. split; [done|].
    intros Hp. apply (open_in_user _ _ _ _ Hok Hg) in Hp. by rewrite Hp in Ho.
  - intros [Hm (g & Hg & Hp)]. split; [done|]. destruct (open_in st p d) eqn:Ho; [|done]. by apply (open_in_user _ _ _ _ Hok Hg) in Ho.
Qed.

Lemma kill_entry st p d q : q <> p -> entry_process st d = Some q -> lk_entries (kill st p) !! d = lk_entries st !! d.
Proof.
  unfold entry_process. intros Hne He. cbn. rewrite map_lookup_filter. destruct (lk_entries st !! d) as [e|]; [|done].
  cbn. injection He as <-. by rewrite option_guard_True.
Qed.

Lemma kill_user st p u d m : uses (kill st p) u d m -> user_process (kill st p) u = user_process st u.
Proof.
  destruct u as [g|t]; [|done]. cbn. rewrite map_lookup_filter. destruct (lk_guards st !! g) as [guard|]; [|done].
  cbn. by case_guard.
Qed.

Lemma kill_ok st p : locks_ok st -> locks_ok (kill st p).
Proof.
  intros Hok. split.
  - intros u v d m n [Hu _]%uses_kill [Hv _]%uses_kill. by eapply (ok_unique _ Hok).
  - intros u d Hu. rewrite (kill_user _ _ _ _ _ Hu). apply uses_kill in Hu as [Hu Hp].
    destruct (ok_owner _ Hok _ _ Hu) as (e & o & He & Ho & Hpe). exists e, o.
    rewrite (kill_entry st p d (le_process e)); [done|congruence|]. unfold entry_process. by rewrite He.
  - intros u d [Hu _]%uses_kill. cbn. rewrite map_lookup_filter, (ok_reader _ Hok _ _ Hu). done.
  - intros d m. rewrite kill_flock by done. split.
    + intros [_ (g & Hg)]. exists g. by apply uses_kill.
    + intros [g Hg]. apply uses_kill in Hg as [Hg Hp]. split; [apply (ok_flock _ Hok)|]; by exists g.
  - intros d e m n Hne [Hd _]%kill_flock [He _]%kill_flock; [|done..]. by eapply (ok_conflict _ Hok d e).
  - intros q d Hq. cbn in Hq. apply lookup_delete_Some in Hq as [Hne Hq]. pose proof (ok_cache _ Hok _ _ Hq) as He.
    unfold entry_process in *. by rewrite (kill_entry st p d q).
  - intros t d Ht. cbn in Ht. apply map_lookup_filter_Some in Ht as [Ht Hne]. pose proof (ok_acquiring _ Hok _ _ Ht) as He.
    unfold entry_process in *. by rewrite (kill_entry st p d t.1).
  - intros d Hd. cbn [kill lk_next]. apply (ok_fresh _ Hok). destruct Hd as [[e He]|[(u & m & Hu)|[g Hg]]].
    + left. exists e. cbn in He. by apply map_lookup_filter_Some in He as [He _].
    + right. left. apply uses_kill in Hu as [Hu _]. eauto.
    + right. right. exists g. cbn in Hg. by apply map_lookup_filter_Some in Hg as [Hg _].
Qed.

Lemma find_entry_one st t : guards_one st -> guards_one (find_entry st t).
Proof. unfold find_entry. by destruct (lk_cache st !! t.1). Qed.

Lemma unlock_guard_ok st t g guard : locks_ok st -> guards_one st -> lk_guards st !! g = Some guard ->
  lk_calls st !! t = None -> lg_process guard = t.1 -> locks_ok (unlock_guard st t g guard).
Proof.
  intros Hok Hone Hg Ht Hp. unfold unlock_guard. destruct (lg_owned guard) as [d|] eqn:Ho.
  - destruct (Hone _ _ Hg) as [Hx|Hs]; [congruence|]. by apply (drop_owned_ok st t g d guard).
  - destruct (lg_shared guard) as [d|] eqn:Hs; [by apply (drop_shared_ok st g d guard)|].
    assert (Hu : forall u d m, uses (remove_guard st g) u d m <-> uses st u d m).
    { intros [i|t'] d m; [|done]. cbn. destruct (decide (i = g)) as [->|Hne]; [|by rewrite lookup_delete_ne].
      rewrite lookup_delete_eq, Hg. destruct m; cbn; by rewrite ?Ho, ?Hs. }
    assert (Hup : forall u d m, uses st u d m -> user_process (remove_guard st g) u = user_process st u).
    { intros [i|t'] d m Hx; [|done]. apply Hu in Hx. cbn in *. destruct (decide (i = g)) as [->|Hne]; [by rewrite lookup_delete_eq in Hx|].
      by rewrite lookup_delete_ne. }
    split; cbn [remove_guard lk_entries lk_flocks lk_cache lk_calls lk_next].
    + intros u v d m n Hx%Hu Hy%Hu. by eapply (ok_unique _ Hok).
    + intros u d Hx%Hu. rewrite (Hup _ _ _ Hx). by apply (ok_owner _ Hok).
    + intros u d Hx%Hu. by apply (ok_reader _ Hok u).
    + intros d m. rewrite (ok_flock _ Hok). split; intros [i Hi]; exists i; by apply Hu.
    + by apply (ok_conflict _ Hok).
    + by apply (ok_cache _ Hok).
    + by apply (ok_acquiring _ Hok).
    + intros d [He|[(u & m & Hx)|[i Hi]]]; apply (ok_fresh _ Hok); [auto|apply Hu in Hx; eauto|].
      cbn in Hi. apply lookup_delete_Some in Hi as [_ Hi]. eauto.
Qed.

Lemma unlock_guard_one st t g guard : guards_one st -> guards_one (unlock_guard st t g guard).
Proof.
  apply guards_one_sub. unfold unlock_guard. destruct (lg_owned guard), (lg_shared guard); cbn; apply delete_subseteq.
Qed.

Lemma proceed_ok st t c st' : locks_ok st -> guards_one st -> lk_calls st !! t = Some c ->
  match c with
  | Acquiring d => take_ownership st t d
  | Locking d => lock_exclusive st t d
  | Dropping d => Some (finish_drop st t d)
  | Reading d => lock_shared st t d
  end = Some st' -> locks_ok st' /\ guards_one st'.
Proof.
  intros Hok Hone Ht. destruct c as [d|d|d|d].
  - intros Hs. split; [by eapply take_ownership_ok|]. unfold take_ownership in Hs. destruct (lk_entries st !! d) as [e|]; [|done].
    cbn in Hs. destruct (le_owner e); [|by injection Hs as <-]. case_decide; [|done]. injection Hs as <-.
    apply return_guard_one; [done|by left].
  - unfold lock_exclusive. destruct (flock_free st d FlockExclusive) eqn:Hf; [|done]. intros [= <-]. split.
    + eapply (grant_ok st t (Locking d) d FlockExclusive); try done; intros x [|]; cbn; naive_solver.
    + apply return_guard_one; [done|by right].
  - intros [= <-]. split; [|done]. apply (free_owner_ok st t (Dropping d) d); [done..|]. cbn. naive_solver.
  - unfold lock_shared. destruct (flock_free st d FlockShared) eqn:Hf; [|done]. intros [= <-]. split.
    + eapply (grant_ok st t (Reading d) d FlockShared); try done; intros x [|]; cbn; naive_solver.
    + apply return_guard_one; [done|by left].
Qed.

Lemma lock_step_ok st e st' : locks_ok st -> guards_one st -> lock_step st e = Some st' -> locks_ok st' /\ guards_one st'.
Proof.
  intros Hok Hone. destruct e as [t|t|t|t|t g|p|p]; cbn [lock_step].
  - destruct (lk_calls st !! t) eqn:Ht; [done|]. intros [= <-]. split; [by apply find_entry_ok|by apply find_entry_one].
  - destruct (lk_calls st !! t) eqn:Ht; [done|]. intros [= <-]. split; [by apply open_shared_ok|done].
  - destruct (lk_calls st !! t) as [c|] eqn:Ht; [|done]. cbn [mbind option_bind]. by apply proceed_ok.
  - destruct (lk_calls st !! t) as [c|] eqn:Ht; [|done]. cbn [mbind option_bind]. destruct c as [d|d|d|d]; try done; intros [= <-].
    + split; [|done]. apply (free_owner_ok st t (Locking d) d); [done..|]. cbn. naive_solver.
    + split; [apply set_call_ok; [done|done|by rewrite Ht]|done].
  - destruct (lk_guards st !! g) as [guard|] eqn:Hg; [|done]. cbn [mbind option_bind]. destruct (lk_calls st !! t) eqn:Ht; [done|].
    case_decide as Hp; [|done]. intros [= <-]. split; [by apply unlock_guard_ok|by apply unlock_guard_one].
  - intros [= <-]. split; [by apply release_cache_ok|]. unfold release_cache. destruct (lk_cache st !! p) as [d|]; [|done].
    by destruct (lk_entries st !! d) as [[? [?|]]|].
  - intros [= <-]. split; [by apply kill_ok|]. revert Hone. apply guards_one_sub. apply map_filter_subseteq.
Qed.

(** An owned entry has a user: an ownership is never lost. *)
Definition owned_used st : Prop :=
  forall d e, lk_entries st !! d = Some e -> le_owner e <> None -> exists u, uses st u d FlockExclusive.

Lemma owned_used_mono st st' : owned_used st ->
  (forall d e, lk_entries st' !! d = Some e -> le_owner e <> None ->
     (lk_entries st !! d = Some e /\ forall u, uses st u d FlockExclusive -> exists v, uses st' v d FlockExclusive) \/
     exists u, uses st' u d FlockExclusive) ->
  owned_used st'.
Proof. intros Hused Hmono d e He Ho. destruct (Hmono d e He Ho) as [[He0 Hu]|Hu]; [|done]. destruct (Hused d e He0 Ho) as [u Hx]. eauto. Qed.

(** The calls and guards change, and every exclusive use goes on somewhere. *)
Lemma owned_used_entries st st' : owned_used st -> lk_entries st' = lk_entries st ->
  (forall u d, uses st u d FlockExclusive -> exists v, uses st' v d FlockExclusive) -> owned_used st'.
Proof. intros Hused He Hu. apply (owned_used_mono st st' Hused). intros d e. rewrite He. left. eauto. Qed.

Lemma call_used st t c : owned_used st ->
  (forall d, match lk_calls st !! t with Some c' => call_uses c' d FlockExclusive | None => False end ->
     match c with Some c => call_uses c d FlockExclusive | None => False end) -> owned_used (set_call st t c).
Proof.
  intros Hused Hc. apply (owned_used_entries st); [done|done|]. intros u d Hu. exists u. apply uses_call.
  destruct u as [g|t']; [done|]. case_decide as Htt; [subst|done]. cbn in Hu. by apply Hc.
Qed.

Lemma return_used st t c g : locks_ok st -> owned_used st -> lk_calls st !! t = Some c ->
  (forall d, call_uses c d FlockExclusive -> guard_uses g d FlockExclusive) ->
  forall fs, owned_used (return_guard (set_flocks st fs) t g).
Proof.
  intros Hok Hused Ht Hc fs. apply (owned_used_entries st); [done|done|]. intros u d Hu.
  assert (Hf : lk_guards (set_flocks st fs) !! lk_next (set_flocks st fs) = None) by exact (fresh_guard st Hok).
  destruct u as [i|t'].
  - exists (inl i). apply uses_return; [done|]. cbn. case_decide as Hi; [|done]. subst. cbn in Hu. by rewrite fresh_guard in Hu.
  - destruct (decide (t' = t)) as [->|Hne].
    + exists (inl (lk_next st)). apply uses_return; [done|]. cbn. rewrite decide_True by done. apply Hc. cbn in Hu. by rewrite Ht in Hu.
    + exists (inr t'). apply uses_return; [done|]. split; [done|]. exact Hu.
Qed.

Lemma free_owner_used st t c d : locks_ok st -> owned_used st -> lk_calls st !! t = Some c ->
  (forall x, call_uses c x FlockExclusive -> x = d) -> owned_used (set_call (set_owner st d None) t None).
Proof.
  intros Hok Hused Ht Hc. apply (owned_used_mono st); [done|]. intros x e Hx Ho. cbn in Hx. left.
  destruct (decide (x = d)) as [->|Hne].
  - rewrite lookup_alter_eq in Hx. destruct (lk_entries st !! d); [|done]. cbn in Hx. injection Hx as <-. done.
  - rewrite lookup_alter_ne in Hx by done. split; [done|]. intros u Hu. exists u. apply uses_call.
    destruct u as [g|t']; [done|]. case_decide as Htt; [|done]. subst. cbn in Hu. rewrite Ht in Hu. by apply Hc in Hu.
Qed.

Lemma proceed_used st t c st' : locks_ok st -> owned_used st -> lk_calls st !! t = Some c ->
  match c with
  | Acquiring d => take_ownership st t d
  | Locking d => lock_exclusive st t d
  | Dropping d => Some (finish_drop st t d)
  | Reading d => lock_shared st t d
  end = Some st' -> owned_used st'.
Proof.
  intros Hok Hused Ht. destruct c as [d|d|d|d].
  - unfold take_ownership. destruct (lk_entries st !! d) as [e|] eqn:He; [|done]. cbn.
    destruct (le_owner e) as [o|] eqn:Ho.
    + case_decide; [|done]. intros [= <-]. by apply (return_used st t (Acquiring d) _ Hok Hused Ht ltac:(done) (lk_flocks st)).
    + intros [= <-]. apply (owned_used_mono st); [done|]. intros x e' Hx Ho'. cbn in Hx. destruct (decide (x = d)) as [->|Hne].
      * right. exists (inr t). apply uses_call. by rewrite decide_True.
      * left. rewrite lookup_alter_ne in Hx by done. split; [done|]. intros u Hu. exists u. apply uses_call.
        destruct u as [g|t']; [done|]. case_decide as Htt; [|done]. subst. cbn in Hu. by rewrite Ht in Hu.
  - unfold lock_exclusive. destruct (flock_free st d FlockExclusive); [|done]. intros [= <-].
    apply (return_used st t (Locking d)); [done..|]. cbn. naive_solver.
  - intros [= <-]. apply (free_owner_used st t (Dropping d) d); [done..|]. cbn. naive_solver.
  - unfold lock_shared. destruct (flock_free st d FlockShared); [|done]. intros [= <-].
    apply (return_used st t (Reading d)); [done..|]. cbn. naive_solver.
Qed.

Lemma unlock_used st t g guard : guards_one st -> owned_used st -> lk_guards st !! g = Some guard -> lk_calls st !! t = None ->
  owned_used (unlock_guard st t g guard).
Proof.
  intros Hone Hused Hg Ht. apply (owned_used_entries st); [done|unfold unlock_guard; by destruct (lg_owned guard), (lg_shared guard)|].
  intros [i|t'] d Hu; cbn in Hu.
  - destruct (decide (i = g)) as [->|Hne].
    + rewrite Hg in Hu. cbn in Hu. exists (inr t). unfold unlock_guard. rewrite Hu. cbn. by rewrite lookup_insert_eq.
    + exists (inl i). unfold unlock_guard. destruct (lg_owned guard), (lg_shared guard); cbn; by rewrite lookup_delete_ne.
  - exists (inr t'). unfold unlock_guard. assert (t' <> t) by (intros ->; by rewrite Ht in Hu).
    destruct (lg_owned guard), (lg_shared guard); cbn; rewrite ?lookup_insert_ne by done; exact Hu.
Qed.

Lemma kill_used st p : locks_ok st -> owned_used st -> owned_used (kill st p).
Proof.
  intros Hok Hused. apply (owned_used_mono st); [done|]. intros d e He Ho. cbn in He. apply map_lookup_filter_Some in He as [He Hp].
  left. split; [done|]. intros u Hu. exists u. apply uses_kill. split; [done|].
  destruct (ok_owner _ Hok _ _ Hu) as (e' & o & He' & _ & Hpe). rewrite He in He'. injection He' as <-. congruence.
Qed.

Lemma lock_step_used st e st' : locks_ok st -> guards_one st -> owned_used st -> lock_step st e = Some st' -> owned_used st'.
Proof.
  intros Hok Hone Hused. destruct e as [t|t|t|t|t g|p|p]; cbn [lock_step].
  - destruct (lk_calls st !! t) eqn:Ht; [done|]. intros [= <-]. unfold find_entry. destruct (lk_cache st !! t.1) as [d|].
    { apply call_used; [done|]. by rewrite Ht. }
    apply (owned_used_mono st); [done|]. intros d e He Ho. cbn in He. destruct (decide (d = lk_next st)) as [->|Hne].
    + rewrite lookup_insert_eq in He. by injection He as <-.
    + rewrite lookup_insert_ne in He by done. left. split; [done|]. intros [g|t'] Hu; [by exists (inl g)|].
      exists (inr t'). cbn in *. rewrite lookup_insert_ne; [done|]. intros <-. by rewrite Ht in Hu.
  - destruct (lk_calls st !! t) eqn:Ht; [done|]. intros [= <-]. apply (owned_used_entries st); [done|done|].
    intros [g|t'] d Hu; [by exists (inl g)|]. exists (inr t'). cbn in *. rewrite lookup_insert_ne; [done|]. intros <-. by rewrite Ht in Hu.
  - destruct (lk_calls st !! t) as [c|] eqn:Ht; [|done]. cbn [mbind option_bind]. by apply proceed_used.
  - destruct (lk_calls st !! t) as [c|] eqn:Ht; [|done]. cbn [mbind option_bind]. destruct c as [d|d|d|d]; try done; intros [= <-].
    + apply (free_owner_used st t (Locking d) d); [done..|]. cbn. naive_solver.
    + apply call_used; [done|]. rewrite Ht. cbn. naive_solver.
  - destruct (lk_guards st !! g) as [guard|] eqn:Hg; [|done]. cbn [mbind option_bind]. destruct (lk_calls st !! t) eqn:Ht; [done|].
    case_decide as Hp; [|done]. intros [= <-]. by apply unlock_used.
  - intros [= <-]. unfold release_cache. destruct (lk_cache st !! p) as [d|]; [|done].
    by destruct (lk_entries st !! d) as [[? [?|]]|].
  - intros [= <-]. by apply kill_used.
Qed.

Lemma lock_run_ok es st : lock_run es = Some st -> locks_ok st /\ guards_one st /\ owned_used st.
Proof.
  revert st. induction es as [|e es IH] using rev_ind; intros st.
  - intros [= <-]. split; [apply locks_start_ok|done].
  - unfold lock_run. rewrite foldl_app. cbn. fold (lock_run es). destruct (lock_run es) as [st0|]; [|done].
    cbn. destruct (IH st0 eq_refl) as (Hok & Hone & Hused). intros Hs. destruct (lock_step_ok st0 e st) as [? ?]; [done..|].
    split; [done|]. split; [done|]. by apply (lock_step_used st0 e st).
Qed.

(** ** What the lock promises *)

(** No guard holds the lock, and the calls under way only wait for an entry. *)
Definition table_free st : Prop :=
  (forall g guard, lk_guards st !! g = Some guard -> holds_lock guard = false) /\
  (forall t c, lk_calls st !! t = Some c -> exists d, c = Acquiring d).

Lemma table_free_unused st u d m : table_free st -> ~ uses st u d m.
Proof.
  intros [Hg Hc] Hu. destruct u as [g|t]; cbn in Hu.
  - destruct (lk_guards st !! g) as [guard|] eqn:He; [|done]. specialize (Hg g guard He). unfold holds_lock in Hg.
    destruct (lg_owned guard) eqn:?, (lg_shared guard) eqn:?; try done. destruct m; cbn in Hu; congruence.
  - destruct (lk_calls st !! t) as [c|] eqn:He; [|done]. by destruct (Hc t c He) as [d' ->].
Qed.

Lemma acquire_free st t : locks_ok st -> owned_used st -> table_free st -> lk_calls st !! t = None ->
  exists d e, lk_calls (find_entry st t) !! t = Some (Acquiring d) /\ lk_entries (find_entry st t) !! d = Some e /\
    le_owner e = None /\ lk_flocks (find_entry st t) = lk_flocks st.
Proof.
  intros Hok Hused Hfree Ht. unfold find_entry. destruct (lk_cache st !! t.1) as [d|] eqn:Hcache.
  - pose proof (ok_cache _ Hok _ _ Hcache) as He. unfold entry_process in He. destruct (lk_entries st !! d) as [e|] eqn:Hd; [|done].
    exists d, e. cbn. rewrite lookup_insert_eq. split; [done|]. split; [done|]. split; [|done].
    destruct (le_owner e) eqn:Ho; [|done]. destruct (Hused d e Hd) as [u Hu]; [by rewrite Ho|]. by apply table_free_unused in Hu.
  - exists (lk_next st), (mkEntry t.1 None). cbn. by rewrite !lookup_insert_eq.
Qed.

Lemma lock_run_snoc es e : lock_run (es ++ [e]) = st ← lock_run es; lock_step st e.
Proof. unfold lock_run. by rewrite foldl_app. Qed.

Lemma free_flocks st d mode : locks_ok st -> table_free st -> flock_free st d mode = true.
Proof.
  intros Hok Hfree. apply bool_decide_eq_true. intros e m He. apply (ok_flock _ Hok) in He as [g Hg]. by apply table_free_unused in Hg.
Qed.

(** C35 In every interleaving of threads and processes, with time-outs, releases of the cache and
    killed processes: a guard that owns the write lock has its [flock] and is the only guard that
    holds the lock of the table, for reading or writing; and a table on which nobody holds a lock
    or is taking or giving one back can be locked: whoever calls [lock_write] gets the lock without
    waiting, also when others still wait for the entry, so no ownership is ever lost. *)
Theorem write_lock_excludes es st (H : lock_run es = Some st) :
  (forall g guard d, lk_guards st !! g = Some guard -> lg_owned guard = Some d ->
     lk_flocks st !! d = Some FlockExclusive /\
     forall h other, lk_guards st !! h = Some other -> holds_lock other = true -> h = g) /\
  (table_free st -> forall t, lk_calls st !! t = None ->
     exists st' g d, lock_run (es ++ [LockWrite t; Proceed t; Proceed t]) = Some st' /\
       lk_guards st' !! g = Some (mkGuard t.1 (Some d) None)).
Proof.
  destruct (lock_run_ok _ _ H) as (Hok & Hone & Hused). split.
  - intros g guard d Hg Ho. assert (Hu : uses st (inl g) d FlockExclusive) by (cbn; by rewrite Hg).
    assert (Hd : lk_flocks st !! d = Some FlockExclusive) by (apply (ok_flock _ Hok); eauto). split; [done|].
    intros h other Hh Hholds. assert (exists e m, uses st (inl h) e m) as (e & m & He).
    { unfold holds_lock in Hholds. destruct (lg_owned other) as [e|] eqn:Hx; [exists e, FlockExclusive; cbn; by rewrite Hh|].
      destruct (lg_shared other) as [e|] eqn:Hy; [exists e, FlockShared; cbn; by rewrite Hh|done]. }
    destruct (decide (d = e)) as [<-|Hne]; [by injection (ok_unique _ Hok _ _ _ _ _ He Hu)|].
    assert (He' : lk_flocks st !! e = Some m) by (apply (ok_flock _ Hok); eauto).
    pose proof (ok_conflict _ Hok _ _ _ _ Hne Hd He'). done.
  - intros Hfree t Ht. destruct (acquire_free st t Hok Hused Hfree Ht) as (d & e & Hcall & He & Ho & Hfl).
    change [LockWrite t; Proceed t; Proceed t] with ([LockWrite t] ++ [Proceed t] ++ [Proceed t]).
    rewrite !(app_assoc _ [_]).
    rewrite !lock_run_snoc, H. cbn [mbind option_bind lock_step]. rewrite Ht. cbn [mbind option_bind]. rewrite Hcall.
    cbn [mbind option_bind]. unfold take_ownership. rewrite He. cbn [mbind option_bind]. rewrite Ho. cbn [mbind option_bind].
    cbn [lk_calls set_call]. rewrite lookup_insert_eq. cbn [mbind option_bind]. unfold lock_exclusive.
    assert (Hf : flock_free (set_call (set_owner (find_entry st t) d (Some t)) t (Some (Locking d))) d FlockExclusive = true).
    { unfold flock_free. cbn [lk_flocks set_call set_owner]. rewrite Hfl. by apply (free_flocks st). }
    rewrite Hf. eexists _, _, d. split; [reflexivity|]. cbn. by rewrite lookup_insert_eq.
Qed.

(** A thread that owns the write lock and asks for the read lock opens a second description: it
    waits for itself until its retry budget is spent. *)
Lemma own_reader_waits es st g guard d t e : lock_run es = Some st -> lk_guards st !! g = Some guard ->
  lg_owned guard = Some d -> lk_calls st !! t = Some (Reading e) -> lock_step st (Proceed t) = None.
Proof.
  intros H Hg Ho Ht. destruct (lock_run_ok _ _ H) as (Hok & _). cbn. rewrite Ht. cbn. unfold lock_shared.
  destruct (flock_free st e FlockShared) eqn:Hf; [|done]. exfalso.
  assert (Hu : uses st (inl g) d FlockExclusive) by (cbn; by rewrite Hg).
  assert (Hd : lk_flocks st !! d = Some FlockExclusive) by (apply (ok_flock _ Hok); eauto).
  assert (Hr : uses st (inr t) e FlockShared) by (cbn; by rewrite Ht).
  destruct (decide (d = e)) as [<-|Hne]; [by pose proof (ok_unique _ Hok _ _ _ _ _ Hu Hr)|].
  by destruct (flock_free_spec _ _ _ Hf d _ Hne Hd).
Qed.

(** A nested guard protects nothing once the outer guard is dropped: the other process gets the
    lock while the nested guard lives. *)
Example nested_guard_outlived :
  match lock_run [LockWrite (0, 1)%nat; Proceed (0, 1)%nat; Proceed (0, 1)%nat; LockWrite (0, 1)%nat; Proceed (0, 1)%nat;
    DropGuard (0, 1)%nat 1; Proceed (0, 1)%nat; LockWrite (1, 1)%nat; Proceed (1, 1)%nat; Proceed (1, 1)%nat] with
  | Some st => lk_guards st !! 2%nat = Some (mkGuard 0 None None) /\ lk_guards st !! 4%nat = Some (mkGuard 1 (Some 3%nat) None)
  | None => False
  end.
Proof. by vm_compute. Qed.

(** Two processes: one thread owns the lock, nests a second acquisition, and the other process
    waits; a reader of the third waits too. *)
Definition lock_script : list LockEvent :=
  [LockWrite (0, 1)%nat; Proceed (0, 1)%nat; LockWrite (1, 1)%nat; Proceed (0, 1)%nat; Proceed (1, 1)%nat;
   LockRead (2, 7)%nat; LockWrite (0, 1)%nat; Proceed (0, 1)%nat].
Definition lock_after : list LockEvent := [DropGuard (0, 1)%nat 2; Proceed (0, 1)%nat; Proceed (1, 1)%nat].

Lemma write_lock_excludes_witness :
  match lock_run lock_script, lock_run (lock_script ++ lock_after) with
  | Some st, Some st2 =>
      lk_guards st !! 2%nat = Some (mkGuard 0 (Some 0%nat) None) /\ lk_guards st !! 4%nat = Some (mkGuard 0 None None) /\
      lock_step st (Proceed (1, 1)%nat) = None /\ lock_step st (Proceed (2, 7)%nat) = None /\
      (forall h other, lk_guards st !! h = Some other -> holds_lock other = true -> h = 2%nat) /\
      exists g, lk_guards st2 !! g = Some (mkGuard 1 (Some 1%nat) None)
  | _, _ => False
  end.
Proof.
  destruct (lock_run lock_script) as [st|] eqn:H; [|by vm_compute in H].
  destruct (lock_run (lock_script ++ lock_after)) as [st2|] eqn:H2; [|by vm_compute in H2].
  pose proof (write_lock_excludes _ _ H) as [Hex _].
  assert (Hg : lk_guards st !! 2%nat = Some (mkGuard 0 (Some 0%nat) None)) by (clear - H; vm_compute in H; injection H as <-; reflexivity).
  split; [done|]. split; [clear - H; vm_compute in H; injection H as <-; reflexivity|].
  split; [clear - H; vm_compute in H; injection H as <-; reflexivity|].
  split; [clear - H; vm_compute in H; injection H as <-; reflexivity|].
  split; [exact (proj2 (Hex _ _ _ Hg eq_refl))|]. clear - H2. vm_compute in H2. injection H2 as <-. exists 5%nat. reflexivity.
Defined.
